(* ===== verification/_CoqProject ===== *)
-Q . S2P
Prelude.v
Capacity.v
Queue.v
StreamBuffer.v
OrderedMap.v
TcpStorage.v
Reassembly.v
Packet.v
Decoder.v
UdpEncoder.v
Fragments.v
NetText.v
VarInt.v
HysteriaWire.v
Relay.v
NaivePadding.v
Carrier.v
DnsCache.v
DnsService.v
QuicSniff.v
Sniff.v
AnyTlsWire.v
AnyTlsSession.v
Resources.v
Scope.v
TcpConnection.v
TcpTransfer.v
TcpWrites.v
TcpLive.v
TcpPromises.v
UdpDirect.v
Worker.v
Workers.v
Scoped.v
Shadowsocks.v
Sessions.v
Registry.v
Idle.v
DnsServer.v
Endpoint.v
HysteriaUdp.v
AnyTlsPool.v
NativeUdp.v
Uot.v
Socks5.v
BlockPool.v
HysteriaSocket.v
HttpConnect.v
Offload.v
Daemon.v
Host.v
Accept.v
Direct.v
PacketIo.v
Rejections.v
HysteriaClient.v
HysteriaServer.v
NaiveServer.v
NaiveNative.v
