(* ===== verification/Prelude.v ===== *)
(** * Kotoconn: a verification development

    Kotoconn is a proxy daemon.  Policy, a TypeScript program run by one thread, creates inbounds,
    dialers and DNS services and decides where each flow goes; native code moves the bytes.  A flow
    enters through an inbound (a TUN device with a user-space TCP/IP stack, or a listener of SOCKS5,
    HTTP, Shadowsocks 2022, AnyTLS, Hysteria 2, Naive or a fixed target), may be sniffed for a name,
    is routed by policy, and leaves through a chain of carriers.  Every file below models one part;
    paths are under src/crates/.

    ** Conventions

    Machine integers are [Z], with wrap-around, saturation and checked failure written where the
    source has them.  Bytes are [list Z].  Slices use [len], [ztake], [zdrop], [slice] of this file.
    Fallible code returns [option] or [res]; a failed assertion or index is a value ([None],
    [Panicked]), so that a theorem about results also says that it does not happen.  Concurrent code
    is a machine: a state, events, and a [step] that takes one atomic access, one critical section or
    one wait of the source at a time; [run] is any interleaving, and theorems are about all runs.
    Accesses are sequentially consistent: memory orderings are not modelled.  Wakers carry no data
    and appear only where a theorem is about not losing one.  The branches of a biased [select!] may
    be taken in any order where that only adds behaviours.

    Code outside src/ is a class with its documented behaviour as laws ([Socket] and [Wire] for
    smoltcp, [Hickory] and [Codec] for hickory, [VarIntCodec] for Quinn, [Engine], [FrameCodec] and
    [Padding] for the AnyTLS library, [Window] for shadowsocks, [UdpHeader] and [AddrCodec] for
    fast_socks5, [Http] and [HttpParser] for httparse and http, [QuicKeys] and [TlsAcceptor] for
    rustls, [Virtio] for tun-rs, [H2] for h2, [Text] for base64 and http).  Each class has a concrete instance on which the witnesses are
    evaluated.

    ** Shared buffers and streams (protocol/src)

    - Capacity.v, Queue.v: queue.rs.  A channel whose credit is counted in bytes, with many producers
      and one consumer, access by access.  Credit is conserved, a closed channel is drained completely,
      packets arrive in the order of their sends.
    - StreamBuffer.v: stream_buffer.rs.  A duplex pipe refines a byte queue per direction.
    - Relay.v: chunk.rs.  The relay between two streams, for any streams that keep the contract
      [StreamContract]; it moves each stream into the other and ends when both have ended.
    - BlockPool.v: pool.rs.  Reusable blocks over a store: what a user's view shows never changes, and a block
      is used again only after the last view of it is dropped.
    - PacketIo.v: io.rs.  A transport handed over behind a reply queue.
    - Scope.v: control.rs; Scoped.v: scoped.rs.  Cancellation and waiting are exact; a value that belongs
      to a closed scope is gone.  Idle.v: activity.rs, session.rs.  Expiry is exact.
    - Accept.v: server.rs.  The accept loop and its limit.
    - Carrier.v: lib.rs.  Capabilities, targets and the choice of a carrier's target.

    ** The TUN device (tun/src)

    - Packet.v: the validation of packet.rs.  Decoder.v: its reassembly, for any range tracker that keeps
      smoltcp's documentation; datagrams come out whole, and an IPv4 datagram whose fragments all arrive
      comes out.  Reassembly.v: reassembly.rs, the shared memory accounting.
    - Fragments.v: fragments.rs, the table that binds the fragments of a datagram to one worker.
    - UdpEncoder.v: udp.rs.  Datagrams are cut into packets that Decoder.v turns back into them.
    - Offload.v: offload.rs.  Virtio headers and the normalisation of received frames.
    - OrderedMap.v, TcpStorage.v: tcp_storage.rs.  The two buffers of a socket as byte streams;
      no byte that the socket has written is lost, whatever overlaps it.
    - TcpConnection.v: tcp.rs and tcp_direct.rs as a two-thread machine; TcpTransfer.v, TcpWrites.v and
      TcpLive.v its invariants; TcpPromises.v the theorems: the application reads the peer's stream and
      sees its end only after all of it, what it writes is what is sent, credit is bounded, and no
      notification is lost.  They hold for connections that are handed over before the relay's first
      read or write, which is when the source does it.
    - Worker.v, Workers.v: worker.rs.  The flow tables of a worker, and the workers together: a flow
      belongs to one worker.  UdpDirect.v: udp_direct.rs and transmit.rs.  Endpoint.v: endpoint.rs; what
      reaches the device is what was asked for, in order.

    ** Protocols

    - NetText.v, VarInt.v: text of addresses and QUIC integers.
    - HysteriaWire.v, HysteriaUdp.v, HysteriaSocket.v: hysteria2/src/wire.rs, udp.rs, socket.rs and
      stream.rs.  Framing and fragment reassembly, the UDP sessions of both sides with the server's expiry
      index, obfuscated datagrams, and the first look at a stream.  HysteriaClient.v: client.rs; the one
      connection that a client's callers share is never closed under them and ends when nobody uses it.
      HysteriaServer.v: server.rs, http3.rs and the task of udp.rs; no stream and no datagram is proxied
      before the client authenticates.
    - AnyTlsWire.v, AnyTlsSession.v, AnyTlsPool.v, Uot.v: anytls/src/wire.rs, session.rs and stream.rs,
      client.rs, udp.rs and server.rs.  Two sessions joined by a wire carry every stream; a stream's
      memory is bounded; the pool never shares a session; UDP on a stream.
    - Shadowsocks.v: shadowsocks2022/src.  Buffered writes, the first response, replay.
    - Socks5.v: socks5/src.  HttpConnect.v: http/src.
    - NaivePadding.v: naive/src/padding.rs.  NaiveServer.v: server.rs and lib.rs; credentials, targets and
      the byte stream over an HTTP/2 stream.  NaiveNative.v: native.rs; the buffers that a tunnel's task
      shares with Cronet's thread are used by one of them at a time, and no waker is lost but in one case
      that is shown.
    - Sniff.v, QuicSniff.v: inbounds/src/sniff.rs, sniff/.  Inspection gives back all it read.
    - Direct.v: inbounds/src/direct.rs.  NativeUdp.v: outbounds/src/native_udp.rs, udp_batch.rs; the datagrams
      that the system sends are those reported as sent.

    ** DNS and the daemon

    - DnsCache.v, DnsService.v, DnsServer.v: dns/src/cache.rs, service.rs, server.rs.  A response to another
      question is never an answer; what the cache gives is fresh.
    - Resources.v: daemon/src/resources.rs.  A carrier outlives the resources that use it; ended
      resources are released.  Sessions.v, Registry.v: daemon/src/network/udp.rs, sessions.rs.
    - Daemon.v: daemon/src/lib.rs.  Shutdown by phases: hooks, admission, entry points, services.
    - Host.v: script/src/host.rs.  Handlers live as long as native references to them.  Rejections.v:
      script/src/rejection.rs.  The promise rejections that are reported are those nobody handled.

    ** Bounds and fuel

    Loops that are not structural take fuel, and the definition that calls one gives it what the loop can
    use at most: the length of the data where a turn consumes some of it (deframing, options,
    frames, records, segments, fragments, blocks), the number of entries where a turn removes one
    (expiry, eviction), the number of polls the source itself allows where it counts them (32 packets,
    16384 header bytes, 8 extension headers), and the number of resources for a chain of carriers.
    Reference loops that read until nothing is left ([drain], [read_all], [read_loop]) take their fuel
    as an argument, and the theorems say how much gives the whole result.

    ** Not modelled

    System calls and the code that only passes data to a library: opening the device and sockets,
    reading sources, TLS configuration, how Quinn and h3 connect, starting the Cronet engine, the QuickJS
    binding of the script crate apart from Host.v and Rejections.v, the TypeScript transpiler, the
    command line, and the tools that measure the program.  Their behaviour is decided by the libraries
    they call.  Time appears as nanoseconds of the monotonic clock, given by
    events; how long a step takes is not modelled. *)

From stdpp Require Export base list gmap sorting strings.
From Stdlib Require Export ZArith Lia.
From Stdlib Require Import Wf_nat.

Open Scope Z_scope.

(** ** Shared vocabulary *)

(** Byte sequences: a byte is a [Z] in [0, 256). *)
Abbreviation bytes := (list Z).

Definition is_byte (b : Z) : Prop := 0 <= b < 256.

(** The length of a slice as the [usize] the code computes with. *)
Definition len {A} (l : list A) : Z := Z.of_nat (length l).

(** [&l[..n]] and [&l[n..]] for an in-range [usize] index. *)
Definition ztake {A} (n : Z) (l : list A) : list A := take (Z.to_nat n) l.
Definition zdrop {A} (n : Z) (l : list A) : list A := drop (Z.to_nat n) l.

(** [&l[a..b]]. *)
Definition slice {A} (a b : Z) (l : list A) : list A := ztake (b - a) (zdrop a l).

(** [l.get(i)] *)
Definition zget {A} (l : list A) (i : Z) : option A :=
  if 0 <=? i then l !! Z.to_nat i else None.

(** ** Machine integers *)

Definition usize_max : Z := 2 ^ 64 - 1.
Definition u64_max : Z := 2 ^ 64 - 1.
Definition u128_max : Z := 2 ^ 128 - 1.
Definition u32_max : Z := 2 ^ 32 - 1.
Definition u16_max : Z := 2 ^ 16 - 1.

Definition is_usize (x : Z) : Prop := 0 <= x <= usize_max.

(** [usize::saturating_sub], [usize::saturating_add] and [usize::checked_add]. *)
Definition sat_sub (a b : Z) : Z := Z.max 0 (a - b).
Definition sat_add (a b : Z) : Z := Z.min usize_max (a + b).
Definition checked_add (a b : Z) : option Z :=
  if a + b <=? usize_max then Some (a + b) else None.

(** Wrapping [fetch_add]/[fetch_sub] on an [AtomicUsize]. *)
Definition wrap_add (a b : Z) : Z := (a + b) `mod` 2 ^ 64.
Definition wrap_sub (a b : Z) : Z := (a - b) `mod` 2 ^ 64.

(** ** Fallible code *)

(** [Result<A, E>]. *)
Inductive res (E A : Type) : Type :=
| Ok (a : A)
| Err (e : E).
Arguments Ok {E A} a.
Arguments Err {E A} e.

#[export] Instance res_ret {E} : MRet (res E) := fun _ a => Ok a.
#[export] Instance res_bind {E} : MBind (res E) := fun _ _ k m =>
  match m with Ok a => k a | Err e => Err e end.

(** [ensure!(b, e)] *)
Definition ensure {E} (b : bool) (e : E) : res E unit := if b then Ok tt else Err e.

(** [ok_or(e)] *)
Definition ok_or {E A} (o : option A) (e : E) : res E A :=
  match o with Some a => Ok a | None => Err e end.

(** [v.resize(n, x)] on a vector that grows, and [v[a..a + d.len()].copy_from_slice(d)]. *)
Definition resize {A} (n : Z) (x : A) (l : list A) : list A := l ++ replicate (Z.to_nat (n - len l)) x.
Definition overwrite {A} (a : Z) (d l : list A) : list A := ztake a l ++ d ++ zdrop (a + len d) l.

(** ** Automation *)

Create HintDb koto.
Create Rewrite HintDb koto_len.

(** Linear arithmetic with the machine-integer bounds unfolded. *)
Ltac word_lia :=
  unfold is_usize, is_byte, sat_sub, sat_add, usize_max, u64_max, u128_max, u32_max, u16_max in *;
  lia.

(** Case analysis on the boolean comparisons the code branches on. *)
Ltac zify_bool :=
  repeat match goal with
  | H : (_ <=? _) = true |- _ => apply Z.leb_le in H
  | H : (_ <=? _) = false |- _ => apply Z.leb_gt in H
  | H : (_ <? _) = true |- _ => apply Z.ltb_lt in H
  | H : (_ <? _) = false |- _ => apply Z.ltb_ge in H
  | H : (_ =? _) = true |- _ => apply Z.eqb_eq in H
  | H : (_ =? _) = false |- _ => apply Z.eqb_neq in H
  | H : (_ && _)%bool = true |- _ => apply andb_true_iff in H as [? ?]
  | H : (_ || _)%bool = false |- _ => apply orb_false_iff in H as [? ?]
  | H : negb _ = true |- _ => apply negb_true_iff in H
  | H : negb _ = false |- _ => apply negb_false_iff in H
  end.

Ltac case_bool :=
  match goal with
  | |- context [if ?b then _ else _] => destruct b eqn:?
  | H : context [if ?b then _ else _] |- _ => destruct b eqn:?
  end; zify_bool.

(** Split on the outermost [match] of a hypothesis. *)
Ltac case_hyp H :=
  match type of H with
  | context [match ?x with _ => _ end] => destruct x eqn:?
  end.

(** ** Lists indexed by [usize] *)

Section zlists.
Context {A : Type}.
Implicit Types l k : list A.

Lemma len_nonneg l : 0 <= len l.
Proof. unfold len; lia. Qed.

Lemma len_nil : len (@nil A) = 0.
Proof. reflexivity. Qed.

Lemma len_cons x l : len (x :: l) = 1 + len l.
Proof. unfold len; simpl; lia. Qed.

Lemma len_app l k : len (l ++ k) = len l + len k.
Proof. unfold len; rewrite length_app; lia. Qed.

Lemma len_zero l : len l = 0 <-> l = [].
Proof. destruct l; unfold len; simpl; split; intros; try done; lia. Qed.

Lemma len_ztake n l : 0 <= n -> len (ztake n l) = Z.min n (len l).
Proof. intros. unfold len, ztake. rewrite length_take. lia. Qed.

Lemma len_zdrop n l : 0 <= n -> len (zdrop n l) = Z.max 0 (len l - n).
Proof. intros. unfold len, zdrop. rewrite length_drop. lia. Qed.

Lemma ztake_zdrop n l : ztake n l ++ zdrop n l = l.
Proof. apply take_drop. Qed.

Lemma ztake_ge n l : len l <= n -> ztake n l = l.
Proof. intros. apply take_ge. unfold len in *; lia. Qed.

Lemma zdrop_ge n l : len l <= n -> zdrop n l = [].
Proof. intros. apply drop_ge. unfold len in *; lia. Qed.

Lemma ztake_0 l : ztake 0 l = [].
Proof. reflexivity. Qed.

Lemma zdrop_0 l : zdrop 0 l = l.
Proof. reflexivity. Qed.

Lemma zdrop_zdrop n m l : 0 <= n -> 0 <= m -> zdrop n (zdrop m l) = zdrop (m + n) l.
Proof. intros. unfold zdrop. rewrite drop_drop. f_equal; lia. Qed.

Lemma ztake_add n m l : 0 <= n -> 0 <= m -> ztake n l ++ ztake m (zdrop n l) = ztake (n + m) l.
Proof. intros. unfold ztake, zdrop. rewrite take_take_drop. f_equal; lia. Qed.

Lemma ztake_app_le n l k : n <= len l -> ztake n (l ++ k) = ztake n l.
Proof. intros. apply take_app_le. unfold len in *; lia. Qed.

Lemma ztake_app_ge n l k :
  len l <= n -> ztake n (l ++ k) = l ++ ztake (n - len l) k.
Proof.
  intros. unfold ztake, len in *. rewrite take_app_ge by lia. do 2 f_equal; lia.
Qed.

Lemma zdrop_app_le n l k : n <= len l -> zdrop n (l ++ k) = zdrop n l ++ k.
Proof. intros. apply drop_app_le. unfold len in *; lia. Qed.

Lemma zdrop_app_ge n l k :
  len l <= n -> zdrop n (l ++ k) = zdrop (n - len l) k.
Proof.
  intros. unfold zdrop, len in *. rewrite drop_app_ge by lia. f_equal; lia.
Qed.

Lemma zdrop_app_exact n l k : n = len l -> zdrop n (l ++ k) = k.
Proof. intros ->. rewrite zdrop_app_ge by lia. by rewrite Z.sub_diag. Qed.

Lemma ztake_app_exact n l k : n = len l -> ztake n (l ++ k) = l.
Proof. intros ->. rewrite ztake_app_ge, Z.sub_diag by lia. apply app_nil_r. Qed.

Lemma zget_Some_range l i x : zget l i = Some x -> 0 <= i < len l.
Proof.
  unfold zget. case_bool; [|done]. intros Hi%lookup_lt_Some. unfold len. lia.
Qed.

Lemma zget_is_Some l i : 0 <= i < len l -> exists x, zget l i = Some x.
Proof.
  intros Hi. unfold zget. case_bool; [|lia]. apply lookup_lt_is_Some. unfold len in Hi. lia.
Qed.

Lemma zget_None l i : i < 0 \/ len l <= i -> zget l i = None.
Proof.
  intros Hi. unfold zget. case_bool; [|done]. apply lookup_ge_None. unfold len in Hi. lia.
Qed.

Lemma zget_ztake n l i : i < n -> zget (ztake n l) i = zget l i.
Proof.
  intros Hi. unfold zget, ztake. case_bool; [|done]. rewrite lookup_take_lt; [done|lia].
Qed.

Lemma zget_zdrop n l i : 0 <= n -> 0 <= i -> zget (zdrop n l) i = zget l (n + i).
Proof.
  intros Hn Hi. unfold zget, zdrop. repeat case_bool; try lia. rewrite lookup_drop. f_equal; lia.
Qed.

Lemma zget_app_l l k i : i < len l -> zget (l ++ k) i = zget l i.
Proof.
  intros Hi. unfold zget. case_bool; [|done]. apply lookup_app_l. unfold len in Hi. lia.
Qed.

Lemma zget_app_r l k i : len l <= i -> zget (l ++ k) i = zget k (i - len l).
Proof.
  intros Hi. pose proof (len_nonneg l). unfold zget. repeat case_bool; try lia.
  unfold len in *. rewrite lookup_app_r by lia. f_equal; lia.
Qed.

Lemma zget_slice l a b i :
  0 <= a -> 0 <= i < b - a -> zget (slice a b l) i = zget l (a + i).
Proof. intros. unfold slice. rewrite zget_ztake, zget_zdrop by lia. done. Qed.

Lemma len_slice l a b : 0 <= a <= b -> b <= len l -> len (slice a b l) = b - a.
Proof. intros. unfold slice. rewrite len_ztake, len_zdrop by lia. lia. Qed.

Lemma zlist_eq l k :
  len l = len k -> (forall i, 0 <= i < len l -> zget l i = zget k i) -> l = k.
Proof.
  intros Hlen Hget. apply list_eq. intros i. unfold len in *.
  destruct (decide (i < length l)%nat) as [Hi|Hi].
  - specialize (Hget (Z.of_nat i) ltac:(lia)). unfold zget in Hget.
    repeat case_bool; try lia. by rewrite Nat2Z.id in Hget.
  - rewrite !(proj2 (lookup_ge_None _ _)) by lia. done.
Qed.
Lemma zget_inside l i : 0 <= i < len l -> zget l i <> None.
Proof. intros Hi. destruct (zget_is_Some l i Hi) as [x ->]. done. Qed.

Lemma len_resize n x l : len (resize n x l) = Z.max n (len l).
Proof. unfold resize. rewrite len_app. unfold len. rewrite length_replicate. lia. Qed.

Lemma zget_resize n x l i : i < len l -> zget (resize n x l) i = zget l i.
Proof. intros. apply zget_app_l. done. Qed.

Lemma len_overwrite a d l : 0 <= a -> a + len d <= len l -> len (overwrite a d l) = len l.
Proof.
  intros. pose proof (len_nonneg d). unfold overwrite.
  rewrite !len_app, len_ztake, len_zdrop by lia. lia.
Qed.

Lemma zget_overwrite a d l i :
  0 <= a -> a + len d <= len l ->
  zget (overwrite a d l) i = if (a <=? i) && (i <? a + len d) then zget d (i - a) else zget l i.
Proof.
  intros. pose proof (len_nonneg d). unfold overwrite.
  assert (Hl : len (ztake a l) = a) by (rewrite len_ztake; lia).
  destruct ((a <=? i) && (i <? a + len d)) eqn:Hc; zify_bool.
  - rewrite zget_app_r, zget_app_l by lia. by rewrite Hl.
  - apply andb_false_iff in Hc as [?|?]; zify_bool.
    + rewrite zget_app_l, zget_ztake by lia. done.
    + rewrite zget_app_r, zget_app_r by lia. rewrite Hl, zget_zdrop by lia. f_equal. lia.
Qed.
End zlists.

#[export] Hint Rewrite @len_nil @len_cons @len_app : koto_len.
#[export] Hint Resolve len_nonneg : koto.

(** Lengths as arithmetic: normalise [len] and give [lia] its sign. *)
Ltac len_lia :=
  autorewrite with koto_len in *;
  repeat match goal with
  | |- context [len ?l] =>
      lazymatch goal with
      | _ : 0 <= len l |- _ => fail
      | _ => pose proof (len_nonneg l)
      end
  | _ : context [len ?l] |- _ =>
      lazymatch goal with
      | _ : 0 <= len l |- _ => fail
      | _ => pose proof (len_nonneg l)
      end
  end; lia.

(** ** Sums over finite maps and lists *)

Definition lsum {A} (f : A -> Z) (l : list A) : Z := foldr (fun x acc => f x + acc) 0 l.

Definition msum {K A} `{Countable K} (f : A -> Z) (m : gmap K A) : Z :=
  map_fold (fun _ x acc => f x + acc) 0 m.

Section sums.
Context {K A : Type} `{Countable K} (f : A -> Z).
Implicit Types m : gmap K A.

Lemma lsum_app (l k : list A) : lsum f (l ++ k) = lsum f l + lsum f k.
Proof. induction l; simpl; lia. Qed.

Lemma lsum_nonneg (l : list A) : (forall x, x ∈ l -> 0 <= f x) -> 0 <= lsum f l.
Proof.
  induction l as [|x l IH]; simpl; intros Hl; [lia|].
  pose proof (Hl x ltac:(set_solver)). pose proof (IH ltac:(set_solver)). lia.
Qed.

Lemma lsum_insert (l : list A) i x y : l !! i = Some x -> lsum f (<[i := y]> l) = lsum f l - f x + f y.
Proof.
  revert i. induction l as [|z l IH]; intros [|i] Hi; simplify_eq/=; [lia|]. rewrite (IH i) by done. lia.
Qed.

Lemma msum_empty : msum f (∅ : gmap K A) = 0.
Proof. apply map_fold_empty. Qed.

Lemma msum_insert m i x : m !! i = None -> msum f (<[i:=x]> m) = f x + msum f m.
Proof. intros. unfold msum. rewrite map_fold_insert_L; [done|intros; lia|done]. Qed.

Lemma msum_delete m i x : m !! i = Some x -> msum f (delete i m) = msum f m - f x.
Proof.
  intros Hi. rewrite <- (insert_delete_id m i x Hi) at 2.
  rewrite msum_insert by apply lookup_delete_eq. lia.
Qed.

Lemma msum_update m i x y :
  m !! i = Some x -> msum f (<[i:=y]> m) = msum f m - f x + f y.
Proof.
  intros Hi. rewrite <- insert_delete_eq, msum_insert by apply lookup_delete_eq.
  rewrite (msum_delete m i x) by done. lia.
Qed.

Lemma msum_nonneg m : (forall i x, m !! i = Some x -> 0 <= f x) -> 0 <= msum f m.
Proof.
  induction m as [|i x m Hi IH] using map_ind; intros Hm.
  - by rewrite msum_empty.
  - rewrite msum_insert by done.
    pose proof (Hm i x ltac:(by simplify_map_eq)).
    cut (0 <= msum f m); [lia|]. apply IH. intros j y Hj.
    apply (Hm j). rewrite lookup_insert_ne; [done|]. by intros ->; simplify_map_eq.
Qed.

Lemma msum_le_lookup m i x :
  (forall i x, m !! i = Some x -> 0 <= f x) -> m !! i = Some x -> f x <= msum f m.
Proof.
  intros Hm Hi. cut (0 <= msum f (delete i m)); [rewrite (msum_delete m i x Hi); lia|].
  apply msum_nonneg. intros j y [_ ?]%lookup_delete_Some. eauto.
Qed.

Lemma msum_pos_lookup m : 0 < msum f m -> exists i x, m !! i = Some x /\ 0 < f x.
Proof.
  induction m as [|i x m Hi IH] using map_ind; intros Hm.
  - rewrite msum_empty in Hm. lia.
  - rewrite msum_insert in Hm by done. destruct (decide (0 < f x)).
    + exists i, x. by simplify_map_eq.
    + destruct IH as (j & y & Hj & ?); [lia|]. exists j, y.
      rewrite lookup_insert_ne; [done|]. by intros ->; simplify_map_eq.
Qed.
Lemma msum_to_list m : msum f m = lsum f (snd <$> map_to_list m).
Proof.
  induction m as [|i x m Hi IH] using map_ind.
  - by rewrite msum_empty, map_to_list_empty.
  - rewrite msum_insert, IH by done.
    assert (Hp : snd <$> map_to_list (<[i:=x]> m) ≡ₚ x :: (snd <$> map_to_list m))
      by (by rewrite map_to_list_insert).
    revert Hp. generalize (snd <$> map_to_list m) (snd <$> map_to_list (<[i:=x]> m)). clear.
    intros l k Hp. change (f x + lsum f l) with (lsum f (x :: l)). symmetry.
    induction Hp; simpl; lia.
Qed.

Lemma msum_filter (P : K * A -> Prop) `{!forall x, Decision (P x)} m :
  msum f m = msum f (filter P m) + msum f (filter (fun x => ~ P x) m).
Proof.
  induction m as [|i x m Hi IH] using map_ind.
  - by rewrite !map_filter_empty, msum_empty.
  - assert (Hn : forall Q (HQ : forall x, Decision (Q x)), filter Q m !! i = None)
      by (intros Q HQ; apply map_lookup_filter_None; auto).
    rewrite !map_filter_insert. rewrite !(delete_id m) by done.
    destruct (decide (P (i, x))), (decide (~ P (i, x))); try done; rewrite !msum_insert, IH by auto; lia.
Qed.
End sums.

Lemma msum_fmap {K A} `{Countable K} (f : A -> Z) (m : gmap K A) : msum f m = msum (fun x => x) (f <$> m).
Proof.
  induction m as [|i x m Hi IH] using map_ind.
  - by rewrite fmap_empty, !msum_empty.
  - rewrite fmap_insert, !msum_insert, IH; [done| |done]. by rewrite lookup_fmap, Hi.
Qed.

(** Maps that agree on what is summed have the same sum. *)
Lemma msum_ext {K A} `{Countable K} (f : A -> Z) (m m' : gmap K A) :
  (forall i, f <$> m !! i = f <$> m' !! i) -> msum f m = msum f m'.
Proof.
  intros Hm. rewrite (msum_fmap f m), (msum_fmap f m'). f_equal. apply map_eq. intros i. by rewrite !lookup_fmap.
Qed.

(** ** Big-endian integers *)

(** [put_u16], [put_u32] and the like: the [n] low bytes, most significant first. *)
Fixpoint be_put (n : nat) (v : Z) : bytes :=
  match n with
  | O => []
  | S n => (v `div` 256 ^ Z.of_nat n) `mod` 256 :: be_put n v
  end.

(** [get_u16] and the like on exactly the bytes read. *)
Definition be_get (l : bytes) : Z := foldl (fun acc b => acc * 256 + b) 0 l.

Lemma len_be_put n v : len (be_put n v) = Z.of_nat n.
Proof. induction n as [|n IH]; [done|]. cbn [be_put]. rewrite len_cons, IH. lia. Qed.

Lemma be_get_acc l a : foldl (fun acc b => acc * 256 + b) a l = a * 256 ^ len l + be_get l.
Proof.
  unfold be_get. revert a. induction l as [|b l IH]; intros a; cbn [foldl].
  - rewrite len_nil. lia.
  - rewrite (IH (a * 256 + b)), (IH (0 * 256 + b)), len_cons, Z.pow_add_r by (pose proof (len_nonneg l); lia). lia.
Qed.

Lemma be_get_cons b l : be_get (b :: l) = b * 256 ^ len l + be_get l.
Proof. unfold be_get at 1. cbn [foldl]. rewrite be_get_acc. lia. Qed.

Lemma be_get_put n v : 0 <= v < 256 ^ Z.of_nat n -> be_get (be_put n v) = v.
Proof.
  assert (Hmod : forall n v, 0 <= v -> be_get (be_put n v) = v `mod` 256 ^ Z.of_nat n).
  { clear n v. induction n as [|n IH]; intros v Hv; [by rewrite Z.mod_1_r|].
    cbn [be_put]. rewrite be_get_cons, len_be_put, IH by done.
    rewrite Nat2Z.inj_succ, Z.pow_succ_r, (Z.mul_comm 256), Z.rem_mul_r by lia. lia. }
  intros Hv. rewrite Hmod by lia. apply Z.mod_small. lia.
Qed.

Lemma be_put_bytes n v : Forall is_byte (be_put n v).
Proof. induction n; cbn [be_put]; constructor; [unfold is_byte; apply Z.mod_pos_bound; lia|done]. Qed.

(** ** Bits *)

(** [(a << k) | b] for a [b] of [k] bits. *)
Lemma lor_shiftl_add a b k : 0 <= k -> 0 <= b < 2 ^ k -> Z.lor (Z.shiftl a k) b = a * 2 ^ k + b.
Proof.
  intros Hk Hb. rewrite <- Z.shiftl_mul_pow2 by done. rewrite <- Z.add_lor_land.
  assert (Z.land (Z.shiftl a k) b = 0) as ->; [|by rewrite Z.add_0_r]. apply Z.bits_inj'. intros i Hi.
  rewrite Z.land_spec, Z.bits_0, Z.shiftl_spec by done. destruct (decide (i < k)).
  - by rewrite Z.testbit_neg_r by lia.
  - rewrite <- (Z.mod_small b (2 ^ k)) by done. rewrite Z.mod_pow2_bits_high by lia. apply andb_false_r.
Qed.

(** Folding bytes in with shifts is reading them big-endian. *)
Lemma fold_shift_bytes l v :
  Forall is_byte l -> foldl (fun acc b => Z.lor (Z.shiftl acc 8) b) v l = v * 256 ^ len l + be_get l.
Proof.
  intros Hl. revert v. induction Hl as [|b l Hb Hl IH]; intros v; [rewrite len_nil; change (be_get []) with 0; cbn [foldl]; lia|]. cbn [foldl].
  rewrite IH, lor_shiftl_add by (unfold is_byte in Hb; lia). rewrite be_get_cons, len_cons.
  rewrite Z.pow_add_r by (pose proof (len_nonneg l); lia). lia.
Qed.

Lemma be_get_range l : Forall is_byte l -> 0 <= be_get l < 256 ^ len l.
Proof.
  intros Hb. induction Hb as [|x l Hx Hb IH]; [done|]. rewrite be_get_cons, len_cons.
  rewrite Z.pow_add_r by (pose proof (len_nonneg l); lia). unfold is_byte in Hx. nia.
Qed.
