(* ===== verification/Capacity.v ===== *)
(** * Adaptive capacity targets (crates/protocol/src/queue.rs, [Capacity])

    A queue's admission target follows the bytes its consumer completed, never the
    bytes its producer queued.  Instants are nanoseconds of the monotonic clock. *)

From S2P Require Import Prelude.

Module Capacity.

(** [INITIAL_BYTES], [FEEDBACK_INTERVAL] and [TARGET_DELAY], durations in nanoseconds. *)
Definition INITIAL_BYTES : Z := 128 * 1024.
Definition FEEDBACK_INTERVAL : Z := 16 * 1000000.
Definition TARGET_DELAY : Z := 512 * 1000.

Record t := mk {
  initial : Z;
  target_ : Z;
  epoch : Z;
  completed : Z;
}.

(** [Capacity::new], with the clock reading [Instant::now()] as an argument. *)
Definition new (initial now : Z) : t := mk initial initial now 0.

(** [usize::BITS - 1] *)
Definition MAX_SHIFT : Z := 63.

(** The measured sample: [completed * TARGET_DELAY / elapsed], saturating first in
    [u128] and then in [usize]. *)
Definition sample (completed elapsed : Z) : Z :=
  let s := Z.min u128_max (completed * TARGET_DELAY) `div` elapsed in
  if s <=? usize_max then s else usize_max.

Definition periods (elapsed : Z) : Z :=
  Z.min (elapsed `div` FEEDBACK_INTERVAL) MAX_SHIFT.

(** [Capacity::target]: returns the new state and the target. *)
Definition target (c : t) (now : Z) : t * Z :=
  let elapsed := sat_sub now (epoch c) in
  if FEEDBACK_INTERVAL <=? elapsed then
    let tg := Z.max (Z.max (sample (completed c) elapsed)
                           (Z.shiftr (target_ c) (periods elapsed)))
                    (initial c) in
    (mk (initial c) tg now 0, tg)
  else (c, target_ c).

(** [Capacity::complete] *)
Definition complete (c : t) (n now : Z) : t :=
  let c' := fst (target c now) in
  mk (initial c') (target_ c') (epoch c') (sat_add (completed c') n).

(** What callers may rely on: fields are machine words and the target never falls below
    the initial allowance. *)
Definition wf (c : t) : Prop :=
  0 <= initial c /\ initial c <= target_ c <= usize_max /\ is_usize (completed c).

(** ** Lemmas *)

Lemma sample_range k e : 0 <= k -> 0 < e -> 0 <= sample k e <= usize_max.
Proof.
  intros. unfold sample.
  assert (0 <= Z.min u128_max (k * TARGET_DELAY) `div` e).
  { apply Z.div_pos; [|lia]. unfold u128_max, TARGET_DELAY; lia. }
  case_bool; word_lia.
Qed.

Lemma sample_stalled e : 0 < e -> sample 0 e = 0.
Proof. intros. unfold sample. by rewrite Z.mul_0_l, Z.min_r, Z.div_0_l by (unfold u128_max; lia). Qed.

Lemma periods_range e : FEEDBACK_INTERVAL <= e -> 1 <= periods e <= MAX_SHIFT.
Proof.
  intros H. unfold periods, MAX_SHIFT.
  assert (1 <= e `div` FEEDBACK_INTERVAL); [|lia].
  apply Z.div_le_lower_bound; unfold FEEDBACK_INTERVAL in *; lia.
Qed.

Lemma shiftr_range x n : 0 <= x -> 0 <= n -> 0 <= Z.shiftr x n <= x.
Proof.
  intros. rewrite Z.shiftr_div_pow2 by lia.
  pose proof (Z.pow_pos_nonneg 2 n ltac:(lia) ltac:(lia)). split.
  - apply Z.div_pos; lia.
  - apply Z.div_le_upper_bound; nia.
Qed.

Lemma shiftr_le_half x n : 0 <= x -> 1 <= n -> Z.shiftr x n <= x `div` 2.
Proof.
  intros. replace n with (1 + (n - 1)) by lia.
  rewrite <- Z.shiftr_shiftr, Z.shiftr_div_pow2 with (n := 1) by lia.
  apply shiftr_range; [apply Z.div_pos|]; lia.
Qed.

(** An elapsed interval, as the condition both updates branch on. *)
Lemma target_early c now :
  sat_sub now (epoch c) < FEEDBACK_INTERVAL -> target c now = (c, target_ c).
Proof. intros. unfold target. case_bool; [lia|done]. Qed.

Lemma target_snd c now : snd (target c now) = target_ (fst (target c now)).
Proof. unfold target. by case_bool. Qed.

Lemma target_initial c now : initial (fst (target c now)) = initial c.
Proof. unfold target. by case_bool. Qed.

Lemma target_wf c now : wf c -> wf (fst (target c now)).
Proof.
  intros (Hi & Ht & Hc). unfold target. case_bool; [|done].
  set (e := sat_sub now (epoch c)) in *. unfold FEEDBACK_INTERVAL in *.
  pose proof (sample_range (completed c) e). pose proof (periods_range e).
  pose proof (shiftr_range (target_ c) (periods e)).
  unfold wf, FEEDBACK_INTERVAL in *; simpl. word_lia.
Qed.

Lemma complete_wf c n now : wf c -> 0 <= n -> wf (complete c n now).
Proof.
  intros Hwf Hn. apply (target_wf c now) in Hwf as (? & ? & ?).
  unfold complete, wf in *; simpl. word_lia.
Qed.

#[export] Hint Resolve target_wf complete_wf : koto.

(** ** Sequences of calls *)

(** The calls a queue makes on its capacity: reading the target (on admission) and
    recording completed bytes (on consumption). *)
Inductive op :=
| Read (now : Z)
| Complete (n now : Z).

Definition apply (c : t) (o : op) : t :=
  match o with
  | Read now => fst (target c now)
  | Complete n now => complete c n now
  end.

Definition run (c : t) (os : list op) : t := foldl apply c os.

Definition op_bytes (o : op) : Z := match o with Read _ => 0 | Complete n _ => n end.

Definition is_read (o : op) : bool := match o with Read _ => true | Complete _ _ => false end.

(** The most a sample of [k] completed bytes can be worth. *)
Definition credit (k : Z) : Z := (k * TARGET_DELAY) `div` FEEDBACK_INTERVAL.

Lemma sample_le_credit k e :
  0 <= k -> FEEDBACK_INTERVAL <= e -> sample k e <= credit k.
Proof.
  intros Hk He. unfold sample, credit.
  set (s := Z.min u128_max (k * TARGET_DELAY) `div` e).
  assert (s <= (k * TARGET_DELAY) `div` FEEDBACK_INTERVAL).
  { subst s. unfold FEEDBACK_INTERVAL, TARGET_DELAY in *.
    transitivity (Z.min u128_max (k * (512 * 1000)) `div` (16 * 1000000)).
    - apply Z.div_le_compat_l; word_lia.
    - apply Z.div_le_mono; lia. }
  case_bool; word_lia.
Qed.

Lemma credit_mono j k : j <= k -> credit j <= credit k.
Proof. intros. unfold credit, FEEDBACK_INTERVAL, TARGET_DELAY. apply Z.div_le_mono; lia. Qed.

(** One read: the target it leaves comes from the sample, the old target or the
    initial allowance, and a sample consumes the counter. *)
Lemma target_step c now :
  wf c ->
  let c' := fst (target c now) in
  (target_ c' <= Z.max (credit (completed c)) (target_ c)) /\
  0 <= completed c' <= completed c /\ (completed c = 0 -> target_ c' <= target_ c).
Proof.
  intros (Hi & Ht & Hc). unfold target. case_bool; simpl; [|word_lia].
  set (e := sat_sub now (epoch c)) in *.
  pose proof (sample_le_credit (completed c) e). pose proof (periods_range e).
  pose proof (shiftr_range (target_ c) (periods e)).
  unfold FEEDBACK_INTERVAL in *. split_and!; [word_lia..|].
  intros Hz. rewrite Hz, sample_stalled by lia. word_lia.
Qed.

(** The target was paid for: [b] bounds the bytes ever completed. *)
Record paid (init b : Z) (c : t) : Prop := {
  paid_wf : wf c;
  paid_initial : initial c = init;
  paid_completed : completed c <= b;
  paid_target : target_ c <= Z.max init (credit b);
}.

Lemma paid_new init now : 0 <= init <= usize_max -> paid init 0 (new init now).
Proof. intros. constructor; unfold wf, new; simpl; word_lia. Qed.

Lemma paid_read init b c now : paid init b c -> paid init b (fst (target c now)).
Proof.
  intros [Hwf Hi Hc Ht]. pose proof (target_step c now Hwf) as (?&?&?).
  pose proof (credit_mono (completed c) b Hc).
  constructor; rewrite ?target_initial; auto with koto; simpl in *; lia.
Qed.

Lemma paid_complete init b c n now : 0 <= n -> paid init b c -> paid init (b + n) (complete c n now).
Proof.
  intros Hn Hp. destruct (paid_read _ _ _ now Hp) as [Hwf Hi Hc Ht].
  pose proof (credit_mono b (b + n)).
  constructor; unfold complete; simpl in *; [apply complete_wf; [apply Hp|done]|done|word_lia|lia].
Qed.

Lemma paid_run init b c os :
  (forall o, o ∈ os -> 0 <= op_bytes o) -> paid init b c -> paid init (b + lsum op_bytes os) (run c os).
Proof.
  revert b c. induction os as [|o os IH]; simpl; intros b c Hos Hp; [by rewrite Z.add_0_r|].
  pose proof (Hos o ltac:(set_solver)) as Ho. rewrite Z.add_assoc. apply IH; [set_solver|].
  destruct o; simpl in *; [rewrite Z.add_0_r|]; eauto using paid_read, paid_complete.
Qed.

(** The target is paid for by consumption: after any sequence of reads
    and completions, at any times, it is at most the larger of the initial allowance and
    [TARGET_DELAY / FEEDBACK_INTERVAL] of all the bytes ever completed. *)
Theorem target_bounded_by_consumption init t0 os :
  0 <= init <= usize_max -> (forall o, o ∈ os -> 0 <= op_bytes o) ->
  init <= target_ (run (new init t0) os) <= Z.max init (credit (lsum op_bytes os)).
Proof.
  intros Hi Hos. destruct (paid_run init 0 (new init t0) os Hos) as [(_ & ? & _) Hin _ ?];
    [by apply paid_new|]. rewrite Z.add_0_l in *. lia.
Qed.

Lemma target_bounded_by_consumption_witness :
  INITIAL_BYTES <= target_ (run (new INITIAL_BYTES 0)
      [Complete 100000000 1; Read 16000001; Complete 7 16000002])
  <= Z.max INITIAL_BYTES (credit (lsum op_bytes
      [Complete 100000000 1; Read 16000001; Complete 7 16000002])).
Proof.
  apply target_bounded_by_consumption; [vm_compute; split; discriminate|].
  intros o Ho. repeat (apply elem_of_cons in Ho as [->|Ho]; [simpl; lia|]). set_solver.
Defined.

(** A stalled consumer cannot increase the target: however often and
    whenever producers read it, the target only falls, and never below the initial
    allowance; a read after a whole interval without completions halves it once per
    interval elapsed. *)
Theorem stalled_target_decays c os now :
  wf c -> completed c = 0 -> forallb is_read os ->
  initial c <= target_ (run c os) <= target_ c /\
  (FEEDBACK_INTERVAL <= now - epoch c ->
   snd (target c now) = Z.max (initial c) (target_ c `div` 2 ^ periods (now - epoch c))).
Proof.
  intros Hwf Hz Hos. split.
  - revert c Hwf Hz. induction os as [|[now'|] os IH]; simpl in *; intros c Hwf Hz; try done.
    { destruct Hwf as (?&?&?); lia. }
    pose proof (target_step c now' Hwf) as (?&?&?); simpl in *.
    destruct (IH ltac:(done) (fst (target c now'))) as [? ?]; auto with koto; [lia|].
    rewrite target_initial in *. lia.
  - intros He. unfold target, sat_sub. rewrite Z.max_r by (unfold FEEDBACK_INTERVAL in *; lia).
    pose proof (periods_range _ He). destruct Hwf as (? & ? & ?).
    pose proof (shiftr_range (target_ c) (periods (now - epoch c))).
    case_bool; [|lia]. simpl. rewrite Hz, sample_stalled by (unfold FEEDBACK_INTERVAL in *; lia).
    rewrite <- Z.shiftr_div_pow2 by lia. lia.
Qed.

Lemma stalled_target_decays_witness :
  131072 <= target_ (run (mk 131072 1000000 0 0) [Read 16000000; Read 5; Read 40000000])
         <= 1000000 /\
  (FEEDBACK_INTERVAL <= 32000000 - 0 ->
   snd (target (mk 131072 1000000 0 0) 32000000) =
   Z.max 131072 (1000000 `div` 2 ^ periods (32000000 - 0))).
Proof.
  apply (stalled_target_decays (mk 131072 1000000 0 0));
    [unfold wf; simpl; word_lia|reflexivity|reflexivity].
Defined.

End Capacity.
