(* ===== verification/Queue.v ===== *)
(** * Byte-weighted channels (crates/protocol/src/queue.rs)

    The channel is shared memory driven by concurrent producers and one consumer.  Every
    access to an atomic, and every [SegQueue] operation, is one step of the machine
    below; the steps of different operations interleave freely.  [sender_step] and
    [receiver_step] follow the statements of the source, one shared access at a time, and
    [step] lets a scheduler choose which operation moves.

    Memory orderings are not modelled: the accesses of one run form a single total order.
    [AtomicWaker] and [Notify] carry no data and do not appear. *)

From S2P Require Import Prelude Capacity.

Module Queue.

(** [enum Error] *)
Inductive error := Full | Closed.

#[export] Instance error_eq_dec : EqDecision error.
Proof. solve_decision. Defined.

(** [FEEDBACK_INTERVAL] and [TARGET_DELAY] are those of [Capacity]. *)
Abbreviation FEEDBACK_INTERVAL := Capacity.FEEDBACK_INTERVAL.
Abbreviation TARGET_DELAY := Capacity.TARGET_DELAY.

Section queue.
Context {T : Type}.
(** [size: fn(&T) -> usize], and [size_of::<(T, usize)>()]. *)
Variable size : T -> Z.
Variable size_of_slot : Z.

(** [size_of::<(T, usize)>().max(1)] *)
Definition overhead : Z := Z.max size_of_slot 1.

(** [struct Shared<T>].  [items] lists the [SegQueue] from its front. *)
Record Shared := mkShared {
  items : list (T * Z);
  initial : Z;
  updated : Z;
  completed : Z;
  refreshing : bool;
  used : Z;                          (* [bytes] *)
  senders : Z;
  closed : bool;
  target : Z;
}.

Definition set_items x s := mkShared x (initial s) (updated s) (completed s) (refreshing s) (used s) (senders s) (closed s) (target s).
Definition set_updated x s := mkShared (items s) (initial s) x (completed s) (refreshing s) (used s) (senders s) (closed s) (target s).
Definition set_completed x s := mkShared (items s) (initial s) (updated s) x (refreshing s) (used s) (senders s) (closed s) (target s).
Definition set_refreshing x s := mkShared (items s) (initial s) (updated s) (completed s) x (used s) (senders s) (closed s) (target s).
Definition set_used x s := mkShared (items s) (initial s) (updated s) (completed s) (refreshing s) x (senders s) (closed s) (target s).
Definition set_senders x s := mkShared (items s) (initial s) (updated s) (completed s) (refreshing s) (used s) x (closed s) (target s).
Definition set_closed x s := mkShared (items s) (initial s) (updated s) (completed s) (refreshing s) (used s) (senders s) x (target s).
Definition set_target x s := mkShared (items s) (initial s) (updated s) (completed s) (refreshing s) (used s) (senders s) (closed s) x.

(** The state [channel(initial, size)] starts in. *)
Definition channel (init : Z) : Shared := mkShared [] init 0 0 false 0 1 false init.

(** [Shared::release]: [bytes.fetch_sub(cost)]. *)
Definition release (cost : Z) (s : Shared) : Shared := set_used (wrap_sub (used s) cost) s.

(** ** [Shared::refresh], one atomic access per step *)

Inductive rpc :=
| RfStart                                   (* read the clock *)
| RfLoad (now : Z)                          (* [updated.load] *)
| RfSwap (now : Z)                          (* [refreshing.swap(true)] *)
| RfRecheck (now : Z)                       (* [updated.load] holding the flag *)
| RfTake (now elapsed : Z)                  (* [completed.swap(0)] *)
| RfTarget (now elapsed done : Z)           (* [target.load] *)
| RfStore (now tg : Z)                      (* [target.store] *)
| RfStamp (now : Z)                         (* [updated.store] *)
| RfUnlock                                  (* [refreshing.store(false)] *)
| RfDone.

(** The target a refresh of [done] completed bytes over [elapsed] stores. *)
Definition refreshed_target (s : Shared) (done elapsed : Z) : Z :=
  let sample := Z.min ((done * TARGET_DELAY) `div` elapsed) usize_max in
  let periods := Z.min (elapsed `div` FEEDBACK_INTERVAL) Capacity.MAX_SHIFT in
  Z.max (Z.max sample (Z.shiftr (target s) periods)) (initial s).

(** [clock] is [self.epoch.elapsed()] in nanoseconds. *)
Definition refresh_step (clock : Z) (s : Shared) (p : rpc) : Shared * rpc :=
  match p with
  | RfStart => (s, RfLoad (Z.min clock u64_max))
  | RfLoad now =>
      if sat_sub now (updated s) <? FEEDBACK_INTERVAL then (s, RfDone) else (s, RfSwap now)
  | RfSwap now =>
      if refreshing s then (s, RfDone) else (set_refreshing true s, RfRecheck now)
  | RfRecheck now =>
      let elapsed := sat_sub now (updated s) in
      if FEEDBACK_INTERVAL <=? elapsed then (s, RfTake now elapsed) else (s, RfUnlock)
  | RfTake now elapsed => (set_completed 0 s, RfTarget now elapsed (completed s))
  | RfTarget now elapsed done => (s, RfStore now (refreshed_target s done elapsed))
  | RfStore now tg => (set_target tg s, RfStamp now)
  | RfStamp now => (set_updated now s, RfUnlock)
  | RfUnlock => (set_refreshing false s, RfDone)
  | RfDone => (s, RfDone)
  end.

(** ** Producers: [Sender::try_reserve], [Permit::send], [Permit::drop] *)

(** How a producer's operation ended: the item was published, the permit was dropped
    without publishing, or no permit was granted. *)
Inductive outcome := Sent | Dropped | Rejected (e : error).

Inductive spc :=
| ResClosed (n : Z)                         (* [try_reserve(n)]: [is_closed] *)
| ResRefresh (cost : Z) (r : rpc)           (* [refresh()] *)
| ResTarget (cost : Z)                      (* [target.load] *)
| ResUpdate (cost tg : Z)                   (* [bytes.try_update] *)
| ResPermit (cost : Z)                      (* [is_closed] with the permit built *)
| Holding (cost : Z)                        (* [Ok(permit)], owned by the caller *)
| SendClosed (cost : Z) (item : T)          (* [Permit::send]: [is_closed] *)
| SendPush (cost : Z) (item : T)            (* [items.push] *)
| SendPublished                             (* [is_closed] after publication *)
| DiscardPop                                (* [discard]: [items.pop] *)
| DiscardRelease (cost : Z)                 (* [discard]: [release] *)
| DropRelease (cost : Z) (o : outcome)      (* [Permit::drop]: [release] *)
| Finished (o : outcome).

(** What a step did to the [SegQueue]. *)
Inductive event := Silent | Pushed (x : T) | Popped (x : T).

(** The closure of [bytes.try_update]: the new counter, or [None] when full. *)
Definition admit_bytes (tg cost used : Z) : option Z :=
  if negb (used =? 0) && (sat_sub tg used <? cost) then None else checked_add used cost.

Definition sender_step (clock : Z) (s : Shared) (p : spc) : option (Shared * spc * event) :=
  match p with
  | ResClosed n =>
      if closed s then Some (s, Finished (Rejected Closed), Silent) else
      match checked_add n overhead with
      | None => Some (s, Finished (Rejected Full), Silent)
      | Some cost => Some (s, ResRefresh cost RfStart, Silent)
      end
  | ResRefresh cost RfDone => Some (s, ResTarget cost, Silent)
  | ResRefresh cost r =>
      let '(s', r') := refresh_step clock s r in Some (s', ResRefresh cost r', Silent)
  | ResTarget cost => Some (s, ResUpdate cost (target s), Silent)
  | ResUpdate cost tg =>
      match admit_bytes tg cost (used s) with
      | None => Some (s, Finished (Rejected Full), Silent)
      | Some u => Some (set_used u s, ResPermit cost, Silent)
      end
  | ResPermit cost =>
      if closed s then Some (s, DropRelease cost (Rejected Closed), Silent)
      else Some (s, Holding cost, Silent)
  | Holding _ => None
  | SendClosed cost x =>
      if closed s then Some (s, DropRelease cost Dropped, Silent)
      else Some (s, SendPush cost x, Silent)
  | SendPush cost x => Some (set_items (items s ++ [(x, cost)]) s, SendPublished, Pushed x)
  | SendPublished =>
      if closed s then Some (s, DiscardPop, Silent) else Some (s, Finished Sent, Silent)
  | DiscardPop =>
      match items s with
      | [] => Some (s, Finished Sent, Silent)
      | (x, cost) :: rest => Some (set_items rest s, DiscardRelease cost, Popped x)
      end
  | DiscardRelease cost => Some (release cost s, DiscardPop, Silent)
  | DropRelease cost o => Some (release cost s, Finished o, Silent)
  | Finished _ => None
  end.

(** ** The consumer: [poll_recv], [try_recv], [poll_recv_many], [Receiver::drop] *)

(** What a [poll_recv] was called for: its own result, or the first item of a batch. *)
Inductive after := Return | Batch (limit : Z).

Inductive received :=
| One (x : T)                               (* [Ready(Some(x))] or [Ok(x)] *)
| Many (out : list T)                       (* the items a batch appended *)
| Eof                                       (* [Ready(None)] *)
| Pending
| TryError (e : error).

Inductive vpc :=
| Idle
| PollPop (k : after)                       (* [items.pop] *)
| PollSenders (k : after)                   (* [senders.load] *)
| PollPopAgain (k : after)                  (* [items.pop] after the last sender left *)
| TryPop
| TrySenders
| CompRelease (out : list T) (cost : Z) (k : after)      (* [complete]: [release] *)
| CompRefresh (out : list T) (cost : Z) (r : rpc) (k : after)
| CompAdd (out : list T) (cost : Z) (k : after)          (* [completed.fetch_add] *)
| BatchLoop (out : list T) (limit cost : Z)
| Returned (r : received)
| CloseStore                                (* [Receiver::drop]: [closed.store(true)] *)
| CloseDiscard
| CloseRelease (cost : Z)
| Gone.

(** [k] after one item: return it, or go on collecting the batch. *)
Definition resume (out : list T) (k : after) : vpc :=
  match k with
  | Return => Returned (match out with [x] => One x | _ => Many out end)
  | Batch limit => BatchLoop out limit 0
  end.

(** End of stream: [Ready(None)], which a batch reports as zero items. *)
Definition at_eof (k : after) : received :=
  match k with Return => Eof | Batch _ => Many [] end.

(** [prefix] is the receiver's replay queue; the second component is its new value. *)
Definition receiver_step (clock : Z) (s : Shared) (prefix : list T) (p : vpc) :
    option (Shared * list T * vpc * event) :=
  match p with
  | Idle | Returned _ | Gone => None
  | PollPop k =>
      match items s with
      | (x, cost) :: rest => Some (set_items rest s, prefix, CompRelease [x] cost k, Popped x)
      | [] => Some (s, prefix, PollSenders k, Silent)
      end
  | PollSenders k =>
      if senders s =? 0 then Some (s, prefix, PollPopAgain k, Silent)
      else Some (s, prefix, Returned Pending, Silent)
  | PollPopAgain k =>
      match items s with
      | (x, cost) :: rest => Some (set_items rest s, prefix, CompRelease [x] cost k, Popped x)
      | [] => Some (s, prefix, Returned (at_eof k), Silent)
      end
  | TryPop =>
      match items s with
      | (x, cost) :: rest =>
          Some (set_items rest s, prefix, CompRelease [x] cost Return, Popped x)
      | [] => Some (s, prefix, TrySenders, Silent)
      end
  | TrySenders =>
      Some (s, prefix, Returned (TryError (if senders s =? 0 then Closed else Full)), Silent)
  | CompRelease out cost k => Some (release cost s, prefix, CompRefresh out cost RfStart k, Silent)
  | CompRefresh out cost RfDone k => Some (s, prefix, CompAdd out cost k, Silent)
  | CompRefresh out cost r k =>
      let '(s', r') := refresh_step clock s r in
      Some (s', prefix, CompRefresh out cost r' k, Silent)
  | CompAdd out cost k =>
      Some (set_completed (wrap_add (completed s) cost) s, prefix, resume out k, Silent)
  | BatchLoop out limit cost =>
      let finish := if cost =? 0 then Returned (Many out) else CompRelease out cost Return in
      if len out <? limit then
        match prefix, items s with
        | x :: prefix', _ => Some (s, prefix', BatchLoop (out ++ [x]) limit cost, Silent)
        | [], (x, c) :: rest =>
            Some (set_items rest s, [], BatchLoop (out ++ [x]) limit (cost + c), Popped x)
        | [], [] => Some (s, [], finish, Silent)
        end
      else Some (s, prefix, finish, Silent)
  | CloseStore => Some (set_closed true s, prefix, CloseDiscard, Silent)
  | CloseDiscard =>
      match items s with
      | [] => Some (s, prefix, Gone, Silent)
      | (x, cost) :: rest => Some (set_items rest s, prefix, CloseRelease cost, Popped x)
      end
  | CloseRelease cost => Some (release cost s, prefix, CloseDiscard, Silent)
  end.

(** ** The machine *)

(** [pushed], [removed] and [delivered] are history variables: the items in the order
    they entered the [SegQueue], left it, and left it towards the consumer. *)
Record machine := mkMachine {
  shared : Shared;
  ops : gmap nat spc;
  receiver : vpc;
  prefix : list T;
  pushed : list T;
  removed : list T;
  delivered : list T;
}.

Definition start (init : Z) : machine := mkMachine (channel init) ∅ Idle [] [] [] [].

Inductive action :=
| Begin (i : nat) (n : Z)                   (* call [try_reserve(n)] *)
| Send (i : nat) (x : T)                    (* call [permit.send(x)] *)
| DropPermit (i : nat)                      (* drop the permit *)
| Move (i : nat) (clock : Z)                (* one shared access of operation [i] *)
| Retire (i : nat)                          (* the caller takes the outcome *)
| Clone | DropSender
| Recv (k : after) (budget : bool)          (* [poll_recv], [poll_recv_many(limit)] *)
| TryRecv
| Prepend (xs : list T)
| RMove (clock : Z)                         (* one shared access of the consumer *)
| RTake                                     (* the caller takes the result *)
| DropReceiver.

Definition set_op (i : nat) (p : spc) (m : machine) : machine :=
  mkMachine (shared m) (<[i := p]> (ops m)) (receiver m) (prefix m) (pushed m) (removed m) (delivered m).
Definition set_shared (s : Shared) (m : machine) : machine :=
  mkMachine s (ops m) (receiver m) (prefix m) (pushed m) (removed m) (delivered m).
Definition set_receiver (r : vpc) (m : machine) : machine :=
  mkMachine (shared m) (ops m) r (prefix m) (pushed m) (removed m) (delivered m).
Definition set_prefix (l : list T) (m : machine) : machine :=
  mkMachine (shared m) (ops m) (receiver m) l (pushed m) (removed m) (delivered m).

Definition log_push (ev : event) (l : list T) := match ev with Pushed x => l ++ [x] | _ => l end.
Definition log_pop (ev : event) (l : list T) := match ev with Popped x => l ++ [x] | _ => l end.

(** Pops of [Receiver::drop] discard; every other pop of the consumer delivers. *)
Definition delivers (p : vpc) : bool :=
  match p with CloseDiscard => false | _ => true end.

(** [poll_recv] and [poll_recv_many] before their first shared access: the cooperative
    budget, the zero limit and the replay queue ([pop_prefix]). *)
Definition recv_start (k : after) (budget : bool) (pre : list T) : list T * vpc :=
  match k with
  | Batch limit => if limit =? 0 then (pre, Returned (Many [])) else
      if negb budget then (pre, Returned Pending) else
      match pre with
      | x :: pre' => (pre', BatchLoop [x] limit 0)
      | [] => ([], PollPop k)
      end
  | Return =>
      if negb budget then (pre, Returned Pending) else
      match pre with
      | x :: pre' => (pre', Returned (One x))
      | [] => ([], PollPop k)
      end
  end.

Definition try_recv_start (pre : list T) : list T * vpc :=
  match pre with
  | x :: pre' => (pre', Returned (One x))
  | [] => ([], TryPop)
  end.

Definition step (m : machine) (a : action) : option machine :=
  let s := shared m in
  match a with
  | Begin i n =>
      match ops m !! i with
      | Some _ => None
      | None => if (0 <? senders s) && (0 <=? n) && (n <=? usize_max)
                then Some (set_op i (ResClosed n) m) else None
      end
  | Send i x =>
      match ops m !! i with
      | Some (Holding cost) =>
          if size x <=? cost - overhead then Some (set_op i (SendClosed cost x) m) else None
      | _ => None
      end
  | DropPermit i =>
      match ops m !! i with
      | Some (Holding cost) => Some (set_op i (DropRelease cost Dropped) m)
      | _ => None
      end
  | Move i clock =>
      p ← ops m !! i;
      '(s', p', ev) ← sender_step clock s p;
      Some (mkMachine s' (<[i := p']> (ops m)) (receiver m) (prefix m)
              (log_push ev (pushed m)) (log_pop ev (removed m)) (delivered m))
  | Retire i =>
      match ops m !! i with
      | Some (Finished _) =>
          Some (mkMachine s (delete i (ops m)) (receiver m) (prefix m) (pushed m) (removed m) (delivered m))
      | _ => None
      end
  | Clone => if 0 <? senders s then Some (set_shared (set_senders (senders s + 1) s) m) else None
  | DropSender =>
      if (0 <? senders s) && (bool_decide (ops m = ∅) || (1 <? senders s))
      then Some (set_shared (set_senders (senders s - 1) s) m) else None
  | Recv k budget =>
      match receiver m with
      | Idle => let '(pre, p) := recv_start k budget (prefix m) in
                Some (set_prefix pre (set_receiver p m))
      | _ => None
      end
  | TryRecv =>
      match receiver m with
      | Idle => let '(pre, p) := try_recv_start (prefix m) in
                Some (set_prefix pre (set_receiver p m))
      | _ => None
      end
  | Prepend xs =>
      match receiver m with
      | Idle => Some (set_prefix (xs ++ prefix m) m)
      | _ => None
      end
  | RMove clock =>
      '(s', pre, p', ev) ← receiver_step clock s (prefix m) (receiver m);
      Some (mkMachine s' (ops m) p' pre (pushed m) (log_pop ev (removed m))
              (if delivers (receiver m) then log_pop ev (delivered m) else delivered m))
  | RTake => match receiver m with Returned _ => Some (set_receiver Idle m) | _ => None end
  | DropReceiver => match receiver m with Idle => Some (set_receiver CloseStore m) | _ => None end
  end.

(** Runs of the machine: a schedule is a list of actions. *)
Fixpoint run (m : machine) (acts : list action) : option machine :=
  match acts with
  | [] => Some m
  | a :: acts => m' ← step m a; run m' acts
  end.

Inductive reachable (init : Z) : machine -> Prop :=
| reach_start : reachable init (start init)
| reach_step m a m' : reachable init m -> step m a = Some m' -> reachable init m'.

(** ** Credit accounting *)

(** The bytes of credit an operation holds and will return. *)
Definition owed (p : spc) : Z :=
  match p with
  | ResPermit c | Holding c | SendClosed c _ | SendPush c _ | DiscardRelease c | DropRelease c _ => c
  | _ => 0
  end.

Definition owed_by_receiver (p : vpc) : Z :=
  match p with CompRelease _ c _ | BatchLoop _ _ c | CloseRelease c => c | _ => 0 end.

(** Holders of the [refreshing] flag. *)
Definition holds_flag (r : rpc) : Z :=
  match r with
  | RfRecheck _ | RfTake _ _ | RfTarget _ _ _ | RfStore _ _ | RfStamp _ | RfUnlock => 1
  | _ => 0
  end.
Definition flag_of (p : spc) : Z := match p with ResRefresh _ r => holds_flag r | _ => 0 end.
Definition flag_of_receiver (p : vpc) : Z :=
  match p with CompRefresh _ _ r _ => holds_flag r | _ => 0 end.

(** Operations that will look at the queue again after a closure. *)
Definition janitor (p : spc) : Z :=
  match p with SendPublished | DiscardPop | DiscardRelease _ => 1 | _ => 0 end.
Definition janitor_receiver (p : vpc) : Z :=
  match p with CloseDiscard | CloseRelease _ => 1 | _ => 0 end.

Definition is_closing (p : vpc) : bool :=
  match p with CloseDiscard | CloseRelease _ | Gone => true | _ => false end.

Definition rpc_ok (s : Shared) (r : rpc) : Prop :=
  match r with
  | RfTake _ e => FEEDBACK_INTERVAL <= e
  | RfTarget _ e d => FEEDBACK_INTERVAL <= e /\ is_usize d
  | RfStore _ tg => initial s <= tg <= usize_max
  | _ => True
  end.

Definition spc_ok (s : Shared) (p : spc) : Prop :=
  match p with
  | ResClosed n => 0 <= n
  | ResRefresh c r => 0 < c /\ rpc_ok s r
  | ResTarget c | ResUpdate c _ | ResPermit c | Holding c | SendClosed c _ | SendPush c _
  | DropRelease c _ => 0 < c
  | DiscardPop => closed s = true
  | DiscardRelease c => 0 < c /\ closed s = true
  | _ => True
  end.

Definition vpc_ok (s : Shared) (p : vpc) : Prop :=
  match p with
  | CompRelease _ c _ | CompAdd _ c _ | CloseRelease c => 0 < c
  | CompRefresh _ c r _ => 0 < c /\ rpc_ok s r
  | BatchLoop _ _ c => 0 <= c
  | PollPopAgain _ => senders s = 0
  | _ => True
  end.

Definition queued (s : Shared) : Z := lsum snd (items s).

Definition shared_ok (s : Shared) : Prop :=
  0 <= initial s /\ initial s <= target s <= usize_max /\ is_usize (completed s) /\
  Forall (fun it => 0 < it.2) (items s) /\ used s <= usize_max /\ 0 <= senders s.

(** Fields no operation of an endpoint changes, apart from [Receiver::drop]'s flag. *)
Definition frame (s s' : Shared) : Prop :=
  initial s' = initial s /\ senders s' = senders s.

Lemma refreshed_target_range s d e :
  shared_ok s -> is_usize d -> FEEDBACK_INTERVAL <= e ->
  initial s <= refreshed_target s d e <= usize_max.
Proof.
  intros (?&?&?&?&?&?) Hd He. unfold refreshed_target.
  pose proof (Capacity.periods_range e He) as Hp. unfold Capacity.periods in Hp.
  pose proof (Capacity.shiftr_range (target s)
    (Z.min (e `div` FEEDBACK_INTERVAL) Capacity.MAX_SHIFT) ltac:(lia) ltac:(lia)).
  assert (0 <= (d * TARGET_DELAY) `div` e).
  { apply Z.div_pos; unfold Capacity.TARGET_DELAY, Capacity.FEEDBACK_INTERVAL in *; word_lia. }
  word_lia.
Qed.

Lemma refresh_step_ok clock s r s' r' :
  shared_ok s -> rpc_ok s r -> holds_flag r <= Z.b2z (refreshing s) ->
  refresh_step clock s r = (s', r') ->
  shared_ok s' /\ rpc_ok s' r' /\ frame s s' /\
  items s' = items s /\ used s' = used s /\ closed s' = closed s /\
  Z.b2z (refreshing s') - holds_flag r' = Z.b2z (refreshing s) - holds_flag r.
Proof.
  intros Hs Hr Hf Hstep. pose proof Hs as (?&?&?&?&?&?). unfold frame.
  destruct r; simpl in *; repeat case_bool; simplify_eq/=; unfold shared_ok; simpl;
    repeat match goal with H : refreshing _ = _ |- _ => rewrite H in * end;
    split_and!; try (done || word_lia);
    try (destruct (refreshing s); simpl in *; lia).
  all: destruct Hr; by apply refreshed_target_range.
Qed.

Ltac queue_cases :=
  repeat match goal with
  | H : (match ?x with _ => _ end) = _ |- _ => destruct x eqn:?
  | H : (let '_ := ?x in _) = _ |- _ => destruct x eqn:?
  end; simplify_eq/=; zify_bool.

(** A release of credit the counter holds does not wrap. *)
Lemma wrap_sub_exact a b : 0 <= b <= a -> a <= usize_max -> wrap_sub a b = a - b.
Proof. intros. unfold wrap_sub. apply Z.mod_small. word_lia. Qed.

Lemma queued_nonneg s : shared_ok s -> 0 <= queued s.
Proof.
  intros (_&_&_&Hit&_). apply lsum_nonneg. intros x Hx.
  rewrite Forall_forall in Hit. pose proof (Hit x Hx). simpl in *. lia.
Qed.

Lemma queued_cons s x c rest :
  items s = (x, c) :: rest -> queued s = c + lsum snd rest.
Proof. unfold queued. by intros ->. Qed.

Lemma admit_bytes_Some tg cost u u' :
  admit_bytes tg cost u = Some u' ->
  u' = u + cost /\ u' <= usize_max /\ (u = 0 \/ cost <= sat_sub tg u).
Proof.
  unfold admit_bytes, checked_add. intros.
  destruct (u =? 0) eqn:?; simpl in *; queue_cases; lia.
Qed.

Lemma rpc_done r : r = RfDone \/ r <> RfDone.
Proof. destruct r; auto. Qed.

Lemma sender_refresh_eq clock s c r :
  r <> RfDone ->
  sender_step clock s (ResRefresh c r) =
  Some ((refresh_step clock s r).1, ResRefresh c (refresh_step clock s r).2, Silent).
Proof. intros. destruct r; simpl; repeat case_bool; done. Qed.

Lemma receiver_refresh_eq clock s pre out c r k :
  r <> RfDone ->
  receiver_step clock s pre (CompRefresh out c r k) =
  Some ((refresh_step clock s r).1, pre, CompRefresh out c (refresh_step clock s r).2 k, Silent).
Proof. intros. destruct r; simpl; repeat case_bool; done. Qed.

(** The three changes of the byte accounting: returning credit, and taking an item out of
    or putting one into the queue. *)
Lemma release_ok s c :
  shared_ok s -> 0 < c -> queued s + c <= used s ->
  shared_ok (release c s) /\ used (release c s) = used s - c /\ queued (release c s) = queued s.
Proof.
  intros Hs Hc Hq. pose proof (queued_nonneg s Hs). destruct Hs as (?&?&?&?&?&?).
  unfold shared_ok, release, queued in *; simpl. rewrite wrap_sub_exact by lia.
  split_and!; try done; lia.
Qed.

Lemma pop_ok s x c rest :
  shared_ok s -> items s = (x, c) :: rest ->
  shared_ok (set_items rest s) /\ 0 < c /\ queued s = c + queued (set_items rest s).
Proof.
  intros (?&?&?&Hit&?&?) Hi. rewrite Hi in Hit. inversion Hit; subst.
  unfold shared_ok, queued; simpl. rewrite Hi. split_and!; try done; lia.
Qed.

Lemma push_ok s x c :
  shared_ok s -> 0 < c ->
  shared_ok (set_items (items s ++ [(x, c)]) s) /\
  queued (set_items (items s ++ [(x, c)]) s) = queued s + c.
Proof.
  intros (?&?&?&?&?&?) Hc. unfold shared_ok, queued; simpl. rewrite lsum_app; simpl.
  split_and!; try done; try lia. apply Forall_app. split; [done|]. by repeat constructor.
Qed.

(** Each producer step keeps the balance between the byte counter, the queued costs and
    the credit the operation itself holds. *)
Lemma sender_step_ok clock s p s' p' ev :
  shared_ok s -> spc_ok s p -> flag_of p <= Z.b2z (refreshing s) ->
  queued s + owed p <= used s ->
  sender_step clock s p = Some (s', p', ev) ->
  shared_ok s' /\ spc_ok s' p' /\ frame s s' /\ closed s' = closed s /\
  used s' - queued s' - owed p' = used s - queued s - owed p /\
  Z.b2z (refreshing s') - flag_of p' = Z.b2z (refreshing s) - flag_of p.
Proof.
  intros Hs Hp Hf Hq Hstep. pose proof (queued_nonneg s Hs).
  pose proof Hs as (?&?&?&Hit&?&?).
  destruct p as [n|c r|c|c tg|c|c|c x|c x| | |c|c o|o]; simpl in Hp, Hq, Hf.
  2: destruct (rpc_done r) as [->|Hr]; [|rewrite sender_refresh_eq in Hstep by done;
       destruct (refresh_step clock s r) as [s1 r1] eqn:Href; destruct Hp as [Hc Hr'];
       eapply refresh_step_ok in Href as (?&?&?&?&?&?&?); [|done..];
       simplify_eq/=; unfold queued; split_and!; simpl in *; congruence || lia || done].
  all: simpl in Hstep; queue_cases; unfold frame.
  all: try (split_and!; done || unfold checked_add, overhead in *; queue_cases; lia).
  - apply admit_bytes_Some in Heqo as (?&?&?). unfold shared_ok, queued; simpl.
    split_and!; done || lia.
  - destruct (push_ok s x c) as [? ->]; [done..|]. split_and!; done || lia.
  - destruct (pop_ok s t z l) as (?&?&Hq'); [done..|]. split_and!; done || lia.
  - destruct Hp as [? ?]. destruct (release_ok s c) as (?&?&?); [done..|]. simpl in *.
    split_and!; done || lia.
  - destruct (release_ok s c) as (?&?&?); [done..|]. simpl in *. split_and!; done || lia.
Qed.

(** The consumer's steps keep the same balance. *)
Lemma receiver_step_ok clock s pre p s' pre' p' ev :
  shared_ok s -> vpc_ok s p -> flag_of_receiver p <= Z.b2z (refreshing s) ->
  queued s + owed_by_receiver p <= used s ->
  receiver_step clock s pre p = Some (s', pre', p', ev) ->
  shared_ok s' /\ vpc_ok s' p' /\ frame s s' /\
  used s' - queued s' - owed_by_receiver p' = used s - queued s - owed_by_receiver p /\
  Z.b2z (refreshing s') - flag_of_receiver p' = Z.b2z (refreshing s) - flag_of_receiver p.
Proof.
  intros Hs Hp Hf Hq Hstep. pose proof (queued_nonneg s Hs).
  pose proof Hs as (?&?&?&Hit&?&?).
  destruct p as [|k|k|k| | |out c k|out c r k|out c k|out lim c|r| | |c|]; simpl in Hp, Hq, Hf.
  8: destruct (rpc_done r) as [->|Hr]; [|rewrite receiver_refresh_eq in Hstep by done;
       destruct (refresh_step clock s r) as [s1 r1] eqn:Href; destruct Hp as [Hc Hr'];
       eapply refresh_step_ok in Href as (?&?&?&?&?&?&?); [|done..];
       simplify_eq/=; unfold queued; split_and!; simpl in *; congruence || lia || done].
  all: simpl in Hstep; queue_cases; unfold frame.
  all: try (split_and!; done || lia).
  all: try match goal with
  | Hi : items ?s = (?x, ?c) :: ?l |- _ =>
      destruct (pop_ok s x c l) as (?&?&?); [done..|]; split_and!; done || lia
  | |- shared_ok (release ?c ?s) /\ _ =>
      destruct (release_ok s c) as (?&?&?); [done..|]; simpl in *; split_and!; done || lia
  | |- context [if ?c =? 0 then _ else _] =>
      destruct (Z.eqb_spec c 0); subst; simpl; split_and!; done || lia
  end.
  unfold shared_ok, queued; simpl.
  pose proof (Z.mod_pos_bound (completed s + c) (2 ^ 64) ltac:(lia)).
  destruct k; simpl; split_and!; try (done || lia); unfold wrap_add; word_lia.
Qed.

(** ** The invariant of the machine *)

Record Inv (m : machine) : Prop := {
  inv_shared : shared_ok (shared m);
  inv_ops : map_Forall (fun _ p => spc_ok (shared m) p) (ops m);
  inv_receiver : vpc_ok (shared m) (receiver m);
  inv_credit :
    used (shared m) =
    queued (shared m) + msum owed (ops m) + owed_by_receiver (receiver m);
  inv_flag :
    Z.b2z (refreshing (shared m)) = msum flag_of (ops m) + flag_of_receiver (receiver m);
  inv_senders : ops m <> ∅ -> 0 < senders (shared m);
  inv_closed : closed (shared m) = is_closing (receiver m);
  inv_janitor :
    closed (shared m) = true ->
    items (shared m) = [] \/ 0 < msum janitor (ops m) + janitor_receiver (receiver m);
  inv_fifo : pushed m = removed m ++ (items (shared m)).*1;
  inv_open : closed (shared m) = false -> delivered m = removed m;
  inv_prefix : delivered m `prefix_of` removed m;
}.

(** What one operation's step leaves of another operation's condition. *)
Lemma rpc_ok_frame s s' r : initial s' = initial s -> rpc_ok s r -> rpc_ok s' r.
Proof. intros Hi. destruct r; simpl; rewrite ?Hi; done. Qed.

Lemma spc_ok_frame s s' p :
  initial s' = initial s -> (closed s = true -> closed s' = true) -> spc_ok s p -> spc_ok s' p.
Proof. intros Hi Hc. destruct p; simpl; naive_solver eauto using rpc_ok_frame. Qed.

Lemma vpc_ok_frame s s' p : frame s s' -> vpc_ok s p -> vpc_ok s' p.
Proof.
  intros [Hi Hs]. destruct p; simpl; rewrite ?Hs; naive_solver eauto using rpc_ok_frame.
Qed.

Lemma refresh_step_items clock s r : items (refresh_step clock s r).1 = items s.
Proof. destruct r; simpl; repeat case_bool; done. Qed.

(** History: each step moves the head of the queue or appends to its tail. *)
Lemma sender_step_log clock s p s' p' ev l r :
  sender_step clock s p = Some (s', p', ev) ->
  l = r ++ (items s).*1 -> log_push ev l = log_pop ev r ++ (items s').*1.
Proof.
  intros Hstep ->. destruct p as [n|c f|c|c tg|c|c|c x|c x| | |c|c o|o].
  2: destruct (rpc_done f) as [->|]; [|rewrite sender_refresh_eq in Hstep by done;
       simplify_eq/=; by rewrite refresh_step_items].
  all: simpl in Hstep; queue_cases; rewrite ?fmap_app, <- ?app_assoc; try done.
  by match goal with H : items _ = _ |- _ => rewrite H end.
Qed.

Lemma receiver_step_log clock s pre p s' pre' p' ev r :
  receiver_step clock s pre p = Some (s', pre', p', ev) ->
  r ++ (items s).*1 = log_pop ev r ++ (items s').*1.
Proof.
  intros Hstep. destruct p as [|k|k|k| | |out c k|out c f k|out c k|out lim c|f| | |c|].
  8: destruct (rpc_done f) as [->|]; [|rewrite receiver_refresh_eq in Hstep by done;
       simplify_eq/=; by rewrite refresh_step_items].
  all: simpl in Hstep; queue_cases; rewrite <- ?app_assoc; try done.
  all: by match goal with H : items _ = _ |- _ => rewrite H end.
Qed.

(** Items left behind by a closure always have an operation that will remove them. *)
Lemma sender_step_janitor clock s p s' p' ev j :
  sender_step clock s p = Some (s', p', ev) -> closed s = true -> 0 <= j ->
  items s = [] \/ 0 < j + janitor p -> items s' = [] \/ 0 < j + janitor p'.
Proof.
  intros Hstep Hc Hj. destruct p as [n|c f|c|c tg|c|c|c x|c x| | |c|c o|o].
  2: destruct (rpc_done f) as [->|]; [|rewrite sender_refresh_eq in Hstep by done;
       simplify_eq/=; by rewrite refresh_step_items].
  all: simpl in Hstep; queue_cases; auto with lia.
Qed.

(** Only a closed channel's producers take items out of the queue. *)
Lemma sender_step_pop clock s p s' p' ev r :
  spc_ok s p -> closed s = false -> sender_step clock s p = Some (s', p', ev) -> log_pop ev r = r.
Proof.
  intros Hp Hc Hstep. destruct p as [n|c f|c|c tg|c|c|c x|c x| | |c|c o|o]; simpl in Hp.
  2: destruct (rpc_done f) as [->|]; [|rewrite sender_refresh_eq in Hstep by done; by simplify_eq/=].
  all: simpl in Hstep; queue_cases; try done; naive_solver congruence.
Qed.

Lemma refresh_step_closed clock s r : closed (refresh_step clock s r).1 = closed s.
Proof. destruct r; simpl; repeat case_bool; done. Qed.

(** The consumer's pops: deliveries while the channel is open, discards once it is closed;
    [Receiver::drop] leaves no item unless it is still discarding. *)
Lemma receiver_step_closed clock s pre p s' pre' p' ev :
  closed s = is_closing p -> receiver_step clock s pre p = Some (s', pre', p', ev) ->
  closed s' = is_closing p' /\ (closed s = true -> closed s' = true) /\
  (closed s' = true -> items s' = [] \/ janitor_receiver p' = 1) /\
  (closed s = true -> delivers p = true -> forall r, log_pop ev r = r) /\
  (closed s = false -> closed s' = false -> delivers p = true) /\
  (closed s <> closed s' -> ev = Silent).
Proof.
  intros Hc Hstep. destruct p as [|k|k|k| | |out c k|out c f k|out c k|out lim c|f| | |c|].
  8: destruct (rpc_done f) as [->|]; [|rewrite receiver_refresh_eq in Hstep by done;
       simplify_eq/=; rewrite refresh_step_closed; naive_solver congruence].
  all: simpl in Hstep, Hc; queue_cases; try destruct k; split_and!; simpl;
    try (congruence || auto || (destruct (_ =? _); simpl; congruence)).
Qed.

Lemma spc_ok_owed s p : spc_ok s p -> 0 <= owed p.
Proof. destruct p; simpl; naive_solver lia. Qed.

Lemma flag_of_nonneg p : 0 <= flag_of p.
Proof. destruct p as [|? r| | | | | | | | | | |]; simpl; try lia. by destruct r. Qed.

Lemma flag_of_receiver_nonneg p : 0 <= flag_of_receiver p.
Proof. destruct p as [| | | | | | |? ? r ?| | | | | | |]; simpl; try lia. by destruct r. Qed.

Lemma janitor_nonneg p : 0 <= janitor p.
Proof. by destruct p. Qed.

Lemma vpc_ok_owed s p : vpc_ok s p -> 0 <= owed_by_receiver p.
Proof. destruct p; simpl; naive_solver lia. Qed.

Lemma inv_start init : 0 <= init <= usize_max -> Inv (start init).
Proof.
  intros Hi. constructor; simpl; rewrite ?msum_empty; try done.
  unfold shared_ok; simpl. split_and!; done || word_lia.
Qed.

(** An operation's step: its own obligations, and the frame for everything else. *)
Lemma inv_move m i clock m' : Inv m -> step m (Move i clock) = Some m' -> Inv m'.
Proof.
  intros [Hs Ho Hr Hcr Hf Hse Hcl Hj Hfi Hop Hpre] Hstep. simpl in Hstep.
  destruct (ops m !! i) as [p|] eqn:Hi; [|done]. simpl in Hstep.
  destruct (sender_step clock (shared m) p) as [[[s' p'] ev]|] eqn:Hst; simplify_eq/=.
  assert (Hp : spc_ok (shared m) p) by exact (Ho i p Hi).
  assert (owed p <= msum owed (ops m)) by
    (apply (msum_le_lookup owed _ i); [intros j q Hq; apply (spc_ok_owed _ _ (Ho j q Hq))|done]).
  assert (flag_of p <= msum flag_of (ops m)) by
    (apply (msum_le_lookup flag_of _ i); [intros; apply flag_of_nonneg|done]).
  assert (janitor p <= msum janitor (ops m)) by
    (apply (msum_le_lookup janitor _ i); [intros; apply janitor_nonneg|done]).
  pose proof (vpc_ok_owed _ _ Hr). pose proof (flag_of_receiver_nonneg (receiver m)).
  destruct (sender_step_ok clock (shared m) p s' p' ev) as (Hs'&Hp'&Hfr&Hc'&Hbal&Hfl);
    try done; [lia..|].
  constructor; simpl; rewrite ?(msum_update _ _ i p) by done; try done; try lia.
  - intros j q. rewrite lookup_insert. case_decide; intros; simplify_eq; [done|].
    eapply spc_ok_frame; [apply Hfr|congruence|exact (Ho j q ltac:(done))].
  - eapply vpc_ok_frame; eauto.
  - intros _. destruct Hfr as [_ ->]. apply Hse. by intros Hemp; rewrite Hemp in Hi.
  - congruence.
  - rewrite Hc'. intros Hc. assert (0 <= janitor_receiver (receiver m)) by (by destruct (receiver m)).
    destruct (sender_step_janitor _ _ _ _ _ _
      (msum janitor (ops m) - janitor p + janitor_receiver (receiver m)) Hst Hc) as [->|]; auto; [lia|..].
    + destruct (Hj Hc) as [->|]; auto. right; lia.
    + right; lia.
  - eapply sender_step_log; eauto.
  - rewrite Hc'. intros Hc. by rewrite (sender_step_pop _ _ _ _ _ _ _ Hp Hc Hst), Hop.
  - destruct ev; simpl; try done. by apply prefix_app_r.
Qed.

Lemma inv_rmove m clock m' : Inv m -> step m (RMove clock) = Some m' -> Inv m'.
Proof.
  intros [Hs Ho Hr Hcr Hf Hse Hcl Hj Hfi Hop Hpre] Hstep. simpl in Hstep.
  destruct (receiver_step clock (shared m) (prefix m) (receiver m)) as [[[[s' pre'] p'] ev]|] eqn:Hst;
    simplify_eq/=.
  assert (0 <= msum owed (ops m)) by
    (apply msum_nonneg; intros j q Hq; apply (spc_ok_owed _ _ (Ho j q Hq))).
  assert (0 <= msum flag_of (ops m)) by (apply msum_nonneg; intros; apply flag_of_nonneg).
  assert (0 <= msum janitor (ops m)) by (apply msum_nonneg; intros; apply janitor_nonneg).
  destruct (receiver_step_ok _ _ _ _ _ _ _ _ Hs Hr ltac:(lia) ltac:(lia) Hst) as (Hs'&Hp'&Hfr&Hbal&Hfl).
  destruct (receiver_step_closed _ _ _ _ _ _ _ _ Hcl Hst) as (Hcl'&Hmono&Hjan&Hdis&Hdel&Hsil).
  constructor; simpl; try done; try lia.
  - intros j q Hq. eapply spc_ok_frame; [apply Hfr|done|exact (Ho j q Hq)].
  - destruct Hfr as [_ ->]. done.
  - intros Hc. destruct (Hjan Hc) as [->|]; auto with lia.
  - rewrite Hfi. eapply receiver_step_log; eauto.
  - intros Hc. destruct (closed (shared m)) eqn:Hco; [by rewrite Hmono in Hc|].
    rewrite Hdel by done. by rewrite Hop.
  - destruct (delivers (receiver m)) eqn:Hd.
    + destruct (closed (shared m)) eqn:Hco; [by rewrite !Hdis|]. by rewrite Hop.
    + destruct ev; simpl; try done. by apply prefix_app_r.
Qed.

(** Replacing one operation's program point outside its shared accesses. *)
Lemma inv_set_op m i p p' :
  Inv m -> ops m !! i = Some p -> spc_ok (shared m) p' ->
  owed p' = owed p -> flag_of p' = flag_of p -> janitor p' = janitor p ->
  Inv (set_op i p' m).
Proof.
  intros [Hs Ho Hr Hcr Hf Hse Hcl Hj Hfi Hop Hpre] Hi Hp' He1 He2 He3.
  constructor; simpl; rewrite ?(msum_update _ _ i p) by done; try done; try lia.
  - by apply map_Forall_insert_2.
  - intros _. apply Hse. by intros Hemp; rewrite Hemp in Hi.
  - intros Hc. destruct (Hj Hc); auto with lia.
Qed.

Lemma inv_set_receiver m r pre :
  Inv m -> vpc_ok (shared m) r -> is_closing (receiver m) = false -> is_closing r = false ->
  owed_by_receiver r = owed_by_receiver (receiver m) ->
  flag_of_receiver r = flag_of_receiver (receiver m) ->
  Inv (set_prefix pre (set_receiver r m)).
Proof.
  intros [Hs Ho Hr Hcr Hf Hse Hcl Hj Hfi Hop Hpre] Hr' Hc Hc' He1 He2.
  constructor; simpl; try done; congruence || lia.
Qed.

Lemma recv_start_ok s k b pre pre' r :
  recv_start k b pre = (pre', r) ->
  vpc_ok s r /\ is_closing r = false /\ owed_by_receiver r = 0 /\ flag_of_receiver r = 0.
Proof. unfold recv_start. intros. queue_cases; simpl; done. Qed.

Lemma inv_step m a m' : Inv m -> step m a = Some m' -> Inv m'.
Proof.
  intros Hm Hstep. destruct a as [i n|i x|i|i clock|i| | |k b| |xs|clock| | ].
  4: by eapply inv_move. 10: by eapply inv_rmove.
  all: pose proof Hm as [Hs Ho Hr Hcr Hf Hse Hcl Hj Hfi Hop Hpre]; simpl in Hstep.
  - queue_cases. constructor; simpl; rewrite ?msum_insert by done; simpl; try done; try lia.
    apply map_Forall_insert_2; done.
  - queue_cases. eapply inv_set_op; try done. exact (Ho _ _ Heqo).
  - queue_cases. eapply inv_set_op; try done. exact (Ho _ _ Heqo).
  - queue_cases. constructor; simpl; rewrite ?(msum_delete _ _ _ _ Heqo); simpl; try done; try lia.
    + by apply map_Forall_delete.
    + intros Hne. apply Hse. intros Hemp. by rewrite Hemp, delete_empty in Hne.
    + intros Hc. destruct (Hj Hc); auto with lia.
  - queue_cases. constructor; simpl; try done; try lia.
    + destruct Hs as (?&?&?&?&?&?). unfold shared_ok; simpl. split_and!; done || lia.
    + destruct (receiver m); simpl in *; done || lia.
  - queue_cases. constructor; simpl; try done; try lia.
    + destruct Hs as (?&?&?&?&?&?). unfold shared_ok; simpl. split_and!; done || lia.
    + destruct (receiver m); simpl in *; done || lia.
    + intros Hne. destruct (bool_decide_reflect (ops m = ∅)); [done|]. simpl in *. by zify_bool; lia.
  - queue_cases. apply (recv_start_ok (shared m)) in Heqp as (?&?&?&?).
    apply inv_set_receiver; rewrite ?Heqv; try done.
  - unfold try_recv_start in *. queue_cases; apply inv_set_receiver; rewrite ?Heqv; done.
  - queue_cases. constructor; simpl; rewrite ?Heqv; done.
  - queue_cases. by apply (inv_set_receiver m Idle (prefix m)); rewrite ?Heqv.
  - queue_cases. by apply (inv_set_receiver m CloseStore (prefix m)); rewrite ?Heqv.
Qed.

Lemma inv_reachable init m : 0 <= init <= usize_max -> reachable init m -> Inv m.
Proof. induction 2; eauto using inv_start, inv_step. Qed.

Lemma run_reachable init acts m m' : reachable init m -> run m acts = Some m' -> reachable init m'.
Proof.
  revert m. induction acts as [|a acts IH]; simpl; intros m Hm Hrun; [by simplify_eq|].
  destruct (step m a) as [m1|] eqn:Ha; simpl in Hrun; [|done].
  eapply IH; [|done]. by eapply reach_step.
Qed.

(** ** One operation running alone *)

(** Run a producer's operation until it needs its caller. *)
Fixpoint drive (n : nat) (clock : Z) (s : Shared) (p : spc) : Shared * spc :=
  match n with
  | O => (s, p)
  | S n => match sender_step clock s p with
           | None => (s, p)
           | Some (s', p', _) => drive n clock s' p'
           end
  end.

(** What an uncontended [refresh] does, in one piece. *)
Definition refreshed (clock : Z) (s : Shared) : Shared :=
  let now := Z.min clock u64_max in
  let elapsed := sat_sub now (updated s) in
  if elapsed <? FEEDBACK_INTERVAL then s
  else mkShared (items s) (initial s) now 0 false (used s) (senders s) (closed s)
         (refreshed_target s (completed s) elapsed).

(** [try_reserve] as a function of the state it starts in. *)
Definition try_reserve (clock : Z) (s : Shared) (n : Z) : Shared * spc :=
  if closed s then (s, Finished (Rejected Closed)) else
  match checked_add n overhead with
  | None => (s, Finished (Rejected Full))
  | Some cost =>
      let s1 := refreshed clock s in
      match admit_bytes (target s1) cost (used s1) with
      | None => (s1, Finished (Rejected Full))
      | Some u => (set_used u s1, Holding cost)
      end
  end.

Lemma drive_try_reserve clock s n :
  refreshing s = false -> drive 16 clock s (ResClosed n) = try_reserve clock s n.
Proof.
  intros Hr. unfold try_reserve.
  cbn [drive sender_step]. destruct (closed s) eqn:Hc; [done|].
  destruct (checked_add n overhead) as [cost|]; [|done].
  unfold refreshed. cbn [sender_step refresh_step].
  destruct (sat_sub (Z.min clock u64_max) (updated s) <? FEEDBACK_INTERVAL) eqn:He.
  - cbn [sender_step]. destruct (admit_bytes (target s) cost (used s)); [|done].
    cbn [sender_step set_used closed]. by rewrite Hc.
  - assert (Hge : (FEEDBACK_INTERVAL <=? sat_sub (Z.min clock u64_max) (updated s)) = true)
      by (zify_bool; apply Z.leb_le; lia).
    cbn [sender_step refresh_step refreshing]. rewrite Hr. cbn [sender_step refresh_step set_refreshing updated].
    rewrite Hge. cbn [sender_step refresh_step set_target set_updated set_completed target used].
    unfold refreshed_target. simpl. destruct (admit_bytes _ cost (used s)); [|done].
    unfold set_used, set_refreshing, set_updated, set_target, set_completed; simpl. by rewrite Hc.
Qed.

(** An uncontended refresh touches only the feedback state, and computes the target
    [Capacity] would. *)
Lemma refreshed_frame clock s :
  used (refreshed clock s) = used s /\ items (refreshed clock s) = items s.
Proof. unfold refreshed. by case_bool. Qed.

Lemma refreshed_target_capacity clock s :
  shared_ok s -> 0 <= clock <= u64_max ->
  target (refreshed clock s) =
  snd (Capacity.target (Capacity.mk (initial s) (target s) (updated s) (completed s)) clock).
Proof.
  intros (?&?&Hc&?&?&?) Hclk. unfold refreshed, Capacity.target; simpl.
  rewrite Z.min_l by lia. set (e := sat_sub clock (updated s)).
  destruct (e <? FEEDBACK_INTERVAL) eqn:?, (FEEDBACK_INTERVAL <=? e) eqn:?; zify_bool; try lia; simpl; [done|].
  unfold refreshed_target, Capacity.sample, Capacity.periods.
  rewrite (Z.min_r u128_max) by (unfold Capacity.TARGET_DELAY; word_lia).
  do 2 f_equal. case_bool; lia.
Qed.

(** ** Properties *)

(** C5. Credit conservation: in every state any interleaving of producers and the consumer
    can reach, the byte counter is exactly the cost of the queued items plus the credit
    held by operations in flight, it never exceeds [usize], and no release in progress can
    underflow it (the [debug_assert!(old >= cost)] of [Shared::release]). *)
Theorem credit_conserved init acts m :
  0 <= init <= usize_max -> run (start init) acts = Some m ->
  used (shared m) = queued (shared m) + msum owed (ops m) + owed_by_receiver (receiver m) /\
  0 <= used (shared m) <= usize_max /\
  (forall i p, ops m !! i = Some p -> owed p <= used (shared m)) /\
  owed_by_receiver (receiver m) <= used (shared m).
Proof.
  intros Hi Hrun. assert (Inv m) as [Hs Ho Hr Hcr _ _ _ _ _ _ _]
    by (eapply inv_reachable, run_reachable; eauto using reach_start).
  pose proof (queued_nonneg _ Hs). pose proof (vpc_ok_owed _ _ Hr).
  assert (Hpos : forall i p, ops m !! i = Some p -> 0 <= owed p) by eauto using spc_ok_owed.
  pose proof (msum_nonneg owed (ops m) Hpos). destruct Hs as (_&_&_&_&?&_).
  split_and!; try lia. intros i p Hp. pose proof (msum_le_lookup owed _ i p Hpos Hp). lia.
Qed.

(** C15. A closed channel leaks nothing: whatever races with [Receiver::drop], once it and
    the producers' operations have finished no item is left in the queue and every byte of
    credit has been returned. *)
Theorem closed_channel_drains init acts m :
  0 <= init <= usize_max -> run (start init) acts = Some m ->
  receiver m = Gone -> ops m = ∅ ->
  items (shared m) = [] /\ used (shared m) = 0.
Proof.
  intros Hi Hrun Hg He. assert (Inv m) as [Hs Ho Hr Hcr _ _ Hcl Hj _ _ _]
    by (eapply inv_reachable, run_reachable; eauto using reach_start).
  rewrite Hg in Hcl. rewrite Hg, He, msum_empty in Hj.
  rewrite Hg, He, msum_empty in Hcr. destruct (Hj Hcl) as [Hit|]; [|simpl in *; lia].
  split; [done|]. unfold queued in Hcr. rewrite Hit in Hcr. simpl in Hcr. lia.
Qed.

(** *** What the consumer's caller sees *)

(** The items a call holds while it runs, and those its result hands out. *)
Definition inflight (p : vpc) : list T :=
  match p with
  | CompRelease out _ _ | CompRefresh out _ _ _ | CompAdd out _ _ | BatchLoop out _ _ => out
  | Returned (One x) => [x]
  | Returned (Many out) => out
  | _ => []
  end.

(** An abstract sequence beside a run: published items are appended to it, prepended ones are put
    before all that was not yet taken, and the results of the consumer's calls are taken. *)
Definition observe (m : machine) (a : action) (m' : machine) (v : list T * list T) : list T * list T :=
  let '(taken, expected) := v in
  match a with
  | RTake => (taken ++ inflight (receiver m), expected)
  | Prepend xs => (taken, taken ++ xs ++ drop (length taken) expected)
  | _ => (taken, expected ++ drop (length (pushed m)) (pushed m'))
  end.

Fixpoint watch (m : machine) (acts : list action) (v : list T * list T) : option (machine * (list T * list T)) :=
  match acts with
  | [] => Some (m, v)
  | a :: acts => m' ← step m a; watch m' acts (observe m a m' v)
  end.

(** A call looks at the channel only with an empty replay queue. *)
Definition looking (p : vpc) : bool :=
  match p with PollPop _ | PollSenders _ | PollPopAgain _ | TryPop | TrySenders => true | _ => false end.

Record seen (m : machine) (v : list T * list T) : Prop := {
  seen_all : closed (shared m) = false -> snd v = fst v ++ inflight (receiver m) ++ prefix m ++ (items (shared m)).*1;
  seen_replay : looking (receiver m) = true -> prefix m = [];
}.

Lemma receiver_step_seen clock s pre p s' pre' p' ev :
  receiver_step clock s pre p = Some (s', pre', p', ev) -> is_closing p = false -> (looking p = true -> pre = []) ->
  (closed s' = false -> inflight p ++ pre ++ (items s).*1 = inflight p' ++ pre' ++ (items s').*1) /\
  (looking p' = true -> pre' = []).
Proof.
  intros Hstep Hc Hpre. destruct p as [|k|k|k| | |out c k|out c f k|out c k|out lim c|f| | |c|].
  8: destruct (rpc_done f) as [->|]; [|rewrite receiver_refresh_eq in Hstep by done;
       simplify_eq/=; by rewrite refresh_step_items].
  all: simpl in Hstep, Hc, Hpre; queue_cases; try done; simpl; rewrite ?(Hpre eq_refl);
    try match goal with H : items _ = _ |- _ => rewrite H end; rewrite <- ?app_assoc; try done.
  - by destruct k.
  - destruct k; [|done]. by destruct out as [|x [|]].
  - by destruct (c =? 0).
  - by destruct (c =? 0).
Qed.

Lemma sender_step_closed clock s p s' p' ev : sender_step clock s p = Some (s', p', ev) -> closed s' = closed s.
Proof.
  intros Hstep. destruct p as [n|c f|c|c tg|c|c|c x|c x| | |c|c o|o].
  2: destruct (rpc_done f) as [->|]; [|rewrite sender_refresh_eq in Hstep by done; simplify_eq/=; by rewrite refresh_step_closed].
  all: simpl in Hstep; queue_cases; done.
Qed.

Lemma sender_step_seen clock s p s' p' ev l :
  spc_ok s p -> closed s = false -> sender_step clock s p = Some (s', p', ev) ->
  (items s').*1 = (items s).*1 ++ drop (length l) (log_push ev l).
Proof.
  intros Hp Hc Hstep. destruct p as [n|c f|c|c tg|c|c|c x|c x| | |c|c o|o]; simpl in Hp.
  2: destruct (rpc_done f) as [->|]; [|rewrite sender_refresh_eq in Hstep by done; simplify_eq/=;
       rewrite refresh_step_items, drop_all, app_nil_r; done].
  all: simpl in Hstep; queue_cases; try done; simpl; rewrite ?drop_all, ?app_nil_r, ?drop_app_length, ?fmap_app; try done.
  all: naive_solver congruence.
Qed.

Lemma observe_silent m a m' v : pushed m' = pushed m -> (forall xs, a <> Prepend xs) -> a <> RTake -> observe m a m' v = v.
Proof.
  intros Hp Hpre Ht. destruct v as [t e]. destruct a; simpl; rewrite ?Hp, ?drop_all, ?app_nil_r; try done. by destruct (Hpre xs).
Qed.

Lemma step_seen m a m' v : Inv m -> step m a = Some m' -> seen m v -> seen m' (observe m a m' v).
Proof.
  intros [Hs Ho Hr Hcr Hf Hse Hcl Hj Hfi Hop Hpre] Hstep [Hall Hrep]. destruct a; simpl in Hstep.
  1-3, 5-7: rewrite observe_silent by (done || (queue_cases; done)); queue_cases; by constructor.
  - destruct (ops m !! i) as [p|] eqn:Hi; [|done]. simpl in Hstep.
    destruct (sender_step clock (shared m) p) as [[[s' p'] ev]|] eqn:Hst; simplify_eq/=.
    destruct v as [t e]. constructor; simpl in *; [|done]. intros Hc'. rewrite (sender_step_closed _ _ _ _ _ _ Hst) in Hc'.
    rewrite (sender_step_seen _ _ _ _ _ _ (pushed m) (Ho i p Hi) Hc' Hst), (Hall Hc'). by rewrite <- !app_assoc.
  - destruct (receiver m) eqn:Hrm; try done. unfold recv_start in Hstep.
    destruct k; queue_cases; rewrite observe_silent by done; constructor; simpl; rewrite ?Hrm; try done; intros Hc; by rewrite (Hall Hc), ?Heql.
  - destruct (receiver m) eqn:Hrm; try done. unfold try_recv_start in Hstep.
    queue_cases; rewrite observe_silent by done; constructor; simpl; rewrite ?Hrm; try done; intros Hc; by rewrite (Hall Hc), ?Heql.
  - destruct (receiver m) eqn:Hrm; simplify_eq/=. destruct v as [t e]. constructor; simpl in *; [|by rewrite Hrm].
    intros Hc. rewrite (Hall Hc), Hrm, drop_app_length. simpl. by rewrite <- app_assoc.
  - destruct (receiver_step clock (shared m) (prefix m) (receiver m)) as [[[[s' pre] p'] ev]|] eqn:Hst; simplify_eq/=.
    rewrite observe_silent by done. constructor; simpl.
    + intros Hc'. assert (Hopen : closed (shared m) = false).
      { destruct (receiver_step_closed _ _ _ _ _ _ _ _ Hcl Hst) as (_ & Hmono & _). destruct (closed (shared m)); [by rewrite Hmono in Hc'|done]. }
      destruct (receiver_step_seen _ _ _ _ _ _ _ _ Hst) as [Heq _]; [by rewrite <- Hcl|done|]. by rewrite (Hall Hopen), (Heq Hc').
    + destruct (is_closing (receiver m)) eqn:Hc; [|by apply (receiver_step_seen _ _ _ _ _ _ _ _ Hst)].
      destruct (receiver m); try done; simpl in Hst; queue_cases; done.
  - destruct (receiver m) eqn:Hrm; simplify_eq/=. destruct v as [t e]. constructor; simpl in *; [|done].
    intros Hc. rewrite (Hall Hc), ?Hrm. simpl. by rewrite <- ?app_assoc.
  - destruct (receiver m) eqn:Hrm; simplify_eq/=. rewrite observe_silent by done. constructor; simpl; [|done].
    intros Hc. by rewrite (Hall Hc).
Qed.

Lemma watch_seen init acts m v m' v' : reachable init m -> 0 <= init <= usize_max -> seen m v ->
  watch m acts v = Some (m', v') -> seen m' v'.
Proof.
  intros Hr Hi. revert m v Hr. induction acts as [|a acts IH]; intros m v Hr Hv; simpl; [by intros [= <- <-]|].
  destruct (step m a) as [m1|] eqn:Hstep; [|done]. simpl. apply IH; [by econstructor|].
  eapply step_seen; [by eapply inv_reachable|done..].
Qed.

Lemma watch_reachable init acts m v m' v' : reachable init m -> watch m acts v = Some (m', v') -> reachable init m'.
Proof.
  revert m v. induction acts as [|a acts IH]; intros m v Hr; simpl; [by intros [= <- _]|].
  destruct (step m a) as [m1|] eqn:Hstep; [|done]. simpl. apply IH. by econstructor.
Qed.

(** C16. Order and completeness of delivery.  What the consumer's calls have handed to their caller,
    what the running call holds, the replay queue and the channel make up, in this order, the sequence
    of published and prepended items: nothing is lost, repeated or reordered by single, try and batch
    receives while the channel is open.  And the end of the stream is reported only when every
    published item has been delivered and no producer is left to publish another. *)
Theorem delivery_in_order init acts m taken expected :
  0 <= init <= usize_max -> watch (start init) acts ([], []) = Some (m, (taken, expected)) ->
  (closed (shared m) = false -> expected = taken ++ inflight (receiver m) ++ prefix m ++ (items (shared m)).*1) /\
  (forall k clock m', receiver m = PollPopAgain k -> step m (RMove clock) = Some m' ->
     receiver m' = Returned (at_eof k) ->
     delivered m' = pushed m' /\ ops m' = ∅ /\ senders (shared m') = 0).
Proof.
  intros Hi Hw. split.
  - apply (watch_seen init acts (start init) ([], []) m (taken, expected)); [constructor|done|by constructor|done].
  - assert (Inv m) as [Hs Ho Hr Hcr Hf Hse Hcl Hj Hfi Hop Hpre].
    { eapply inv_reachable; [done|]. eapply watch_reachable; [|done]. constructor. }
    intros k clock m' Hm Hstep Heof. simpl in Hstep. rewrite Hm in *. simpl in *.
    destruct (items (shared m)) as [|[x c] rest] eqn:Hit; simplify_eq/=.
    rewrite Hfi, app_nil_r, Hop by done. split_and!; try done.
    destruct (decide (ops m = ∅)) as [|Hne]; [done|]. apply Hse in Hne. lia.
Qed.

(** The [refreshing] flag is a lock: at most one operation is ever inside [refresh]'s
    critical section, and the target it maintains stays within the machine word and never
    falls below the channel's initial allowance. *)
Theorem refresh_exclusive init acts m i j c r c' r' :
  0 <= init <= usize_max -> run (start init) acts = Some m ->
  (ops m !! i = Some (ResRefresh c r) -> ops m !! j = Some (ResRefresh c' r') ->
   holds_flag r = 1 -> holds_flag r' = 1 -> i = j) /\
  (ops m !! i = Some (ResRefresh c r) -> holds_flag r = 1 ->
   flag_of_receiver (receiver m) = 0 /\ refreshing (shared m) = true) /\
  initial (shared m) <= target (shared m) <= usize_max.
Proof.
  intros Hi Hrun. assert (Inv m) as [Hs Ho Hr Hcr Hf _ _ _ _ _ _]
    by (eapply inv_reachable, run_reachable; eauto using reach_start).
  pose proof (flag_of_receiver_nonneg (receiver m)).
  assert (Hpos : forall i p, ops m !! i = Some p -> 0 <= flag_of p) by (intros; apply flag_of_nonneg).
  assert (Z.b2z (refreshing (shared m)) <= 1) by (by destruct (refreshing (shared m))).
  split_and!; try apply Hs.
  - intros Hop1 Hop2 Hr1 Hr2. destruct (decide (i = j)) as [|Hne]; [done|].
    assert (Hd : delete i (ops m) !! j = Some (ResRefresh c' r')) by (by rewrite lookup_delete_ne).
    assert (Hpos' : forall k p, delete i (ops m) !! k = Some p -> 0 <= flag_of p)
      by (intros; apply flag_of_nonneg).
    pose proof (msum_le_lookup flag_of _ j _ Hpos' Hd) as Hle.
    rewrite (msum_delete flag_of _ i _ Hop1) in Hle. simpl in *. lia.
  - intros Hop1 Hr1. pose proof (msum_le_lookup flag_of _ i _ Hpos Hop1) as Hle.
    simpl in Hle. destruct (refreshing (shared m)); simpl in *; split; done || lia.
Qed.

(** Admission: run without interference, the fourteen shared accesses of
    [try_reserve] grant a permit exactly when the channel is open, the cost fits a machine
    word and either the queue is empty or the cost fits under the target, and the target
    they use is the one [Capacity::target] computes from the same measurements. *)
Theorem try_reserve_admission clock s n s' p :
  shared_ok s -> refreshing s = false -> is_usize n -> 0 <= updated s -> 0 <= clock <= u64_max ->
  0 <= used s ->
  drive 16 clock s (ResClosed n) = (s', p) ->
  let tg := snd (Capacity.target
                   (Capacity.mk (initial s) (target s) (updated s) (completed s)) clock) in
  let cost := n + overhead in
  if closed s then p = Finished (Rejected Closed) /\ s' = s
  else if (cost <=? usize_max) && (used s + cost <=? usize_max) &&
          ((used s =? 0) || (used s + cost <=? tg))
  then p = Holding cost /\ used s' = used s + cost /\ items s' = items s
  else p = Finished (Rejected Full) /\ used s' = used s /\ items s' = items s.
Proof.
  intros Hs Hr Hn Hu Hclk Hused. rewrite drive_try_reserve by done. unfold try_reserve.
  intros Heq. simpl. destruct (closed s); [by simplify_eq|].
  rewrite <- (refreshed_target_capacity clock s) by done.
  unfold checked_add at 1 in Heq.
  destruct (n + overhead <=? usize_max) eqn:?; simpl; [|by simplify_eq].
  unfold admit_bytes, checked_add in Heq. destruct (refreshed_frame clock s) as [Hu' Hi'].
  rewrite Hu' in Heq. set (tg := target (refreshed clock s)) in *.
  assert (Hover : 1 <= overhead) by (unfold overhead; lia).
  replace (sat_sub tg (used s) <? n + overhead) with (negb (used s + (n + overhead) <=? tg)) in Heq
    by (apply eq_true_iff_eq; rewrite negb_true_iff, Z.leb_gt, Z.ltb_lt; word_lia).
  destruct (used s + (n + overhead) <=? usize_max), (used s =? 0), (used s + (n + overhead) <=? tg);
    simplify_eq/=; done.
Qed.


(** [discard] terminates and returns all the credit of what it drops: on a closed
    channel holding [n] items it finishes within [2 n + 1] shared accesses, leaving the
    queue empty and the byte counter lower by exactly the queued cost. *)
Theorem discard_terminates clock s :
  shared_ok s -> closed s = true -> queued s <= used s ->
  exists s', drive (2 * length (items s) + 1) clock s DiscardPop = (s', Finished Sent) /\
             items s' = [] /\ used s' = used s - queued s.
Proof.
  remember (items s) as l eqn:Hl. revert s Hl.
  induction l as [|[x c] l IH]; intros s Hl Hs Hc Hq.
  - exists s. simpl. rewrite <- Hl. unfold queued. rewrite <- Hl. simpl. split_and!; done || lia.
  - symmetry in Hl. destruct (pop_ok s x c l Hs Hl) as (Hs1 & Hc1 & Hq1).
    pose proof (queued_nonneg _ Hs1).
    destruct (release_ok (set_items l s) c) as (Hs2 & Hu & Hq2); [done..|simpl; lia|].
    destruct (IH (release c (set_items l s))) as (s' & Hd & Hi & Hu'); try done; [simpl in *; lia|].
    exists s'. split_and!; try done; [|simpl in *; lia].
    replace (2 * length ((x, c) :: l) + 1)%nat with (S (S (2 * length l + 1))) by (simpl; lia).
    cbn [drive sender_step]. by rewrite Hl.
Qed.

End queue.

Arguments Shared : clear implicits.
Arguments machine : clear implicits.
Arguments action : clear implicits.

(** ** Witnesses *)

Definition demo_size (_ : Z) : Z := 80.

(** Two producers, one publishing and one cancelled, and a consumer that reads one item. *)
Definition demo_traffic : list (action Z) :=
  [Begin 0 80; Clone] ++ replicate 7 (Move 0 5) ++
  [Begin 1 80] ++ replicate 4 (Move 1 16000005) ++ [Send 0 7] ++ replicate 3 (Move 0 6) ++
  [Recv Return true] ++ replicate 3 (RMove 16000007) ++ [Retire 0; Begin 2 10] ++
  replicate 2 (Move 2 40000000).

Definition demo_machine (init : Z) (acts : list (action Z)) : machine Z :=
  default (start init) (run demo_size 16 (start init) acts).

Lemma credit_conserved_witness :
  let m := demo_machine 200 demo_traffic in
  used (shared m) = queued (shared m) + msum owed (ops m) + owed_by_receiver (receiver m) /\
  0 <= used (shared m) <= usize_max /\
  (forall i p, ops m !! i = Some p -> owed p <= used (shared m)) /\
  owed_by_receiver (receiver m) <= used (shared m).
Proof.
  apply (credit_conserved demo_size 16 200 demo_traffic); [word_lia|vm_compute; reflexivity].
Defined.

(** A publication racing with [Receiver::drop]: the permit is granted and the item
    published between the closure's flag and its discard. *)
Definition demo_race : list (action Z) :=
  [Begin 0 80] ++ replicate 7 (Move 0 5) ++ [Send 0 7; Move 0 5; DropReceiver; RMove 0; RMove 0;
   Move 0 5; Move 0 5; Move 0 5; Move 0 5; Move 0 5; Retire 0].

Lemma closed_channel_drains_witness :
  let m := demo_machine 200 demo_race in items (shared m) = [] /\ used (shared m) = 0.
Proof.
  apply (closed_channel_drains demo_size 16 200 demo_race);
    [word_lia|vm_compute; reflexivity..].
Defined.

(** The last producer leaves between the consumer's two looks at the queue. *)
Definition demo_eof : list (action Z) :=
  [Begin 0 80] ++ replicate 7 (Move 0 5) ++ [Send 0 7] ++ replicate 3 (Move 0 5) ++
  [Retire 0; DropSender; Recv Return true] ++ replicate 6 (RMove 0) ++
  [RTake; Recv Return true; RMove 0; RMove 0].

Definition demo_watched : machine Z * (list Z * list Z) :=
  default (start 0, ([], [])) (watch demo_size 16 (start 200) demo_eof ([], [])).

Lemma delivery_in_order_witness :
  let m := fst demo_watched in
  receiver m = PollPopAgain Return /\ snd demo_watched = ([7], [7]) /\
  (closed (shared m) = false -> [7] = [7] ++ inflight (receiver m) ++ prefix m ++ (items (shared m)).*1) /\
  (forall k clock m', receiver m = PollPopAgain k -> step demo_size 16 m (RMove clock) = Some m' ->
     receiver m' = Returned (at_eof k) ->
     delivered m' = pushed m' /\ ops m' = ∅ /\ senders (shared m') = 0).
Proof.
  split; [vm_compute; reflexivity|]. split; [vm_compute; reflexivity|].
  apply (delivery_in_order demo_size 16 200 demo_eof); [word_lia|vm_compute; reflexivity].
Defined.

Lemma refresh_exclusive_witness :
  let m := demo_machine 200 demo_traffic in
  (ops m !! 1%nat = Some (ResRefresh 96 (RfRecheck 16000005)) ->
   ops m !! 2%nat = Some (ResRefresh 26 (RfLoad 40000000)) ->
   holds_flag (RfRecheck 16000005) = 1 -> holds_flag (RfLoad 40000000) = 1 -> 1%nat = 2%nat) /\
  (ops m !! 1%nat = Some (ResRefresh 96 (RfRecheck 16000005)) ->
   holds_flag (RfRecheck 16000005) = 1 ->
   flag_of_receiver (receiver m) = 0 /\ refreshing (shared m) = true) /\
  initial (shared m) <= target (shared m) <= usize_max.
Proof.
  apply (refresh_exclusive demo_size 16 200 demo_traffic); [word_lia|vm_compute; reflexivity].
Defined.

Definition demo_shared : Shared Z := mkShared [(7, 96)] 200 0 5000000 false 96 1 false 200.

Lemma demo_shared_ok : shared_ok demo_shared.
Proof. unfold shared_ok; simpl. split_and!; try word_lia. by repeat constructor. Qed.

(** The example's target is 64000: five million bytes completed over 40 ms. *)
Lemma try_reserve_admission_witness :
  Holding 96 = @Holding Z 96 /\ 192 = 96 + 96 /\ [(7, 96)] = [(7, 96)].
Proof.
  refine (try_reserve_admission 16 40000000 demo_shared 80
    (set_used 192 (refreshed 40000000 demo_shared)) (Holding 96)
    demo_shared_ok eq_refl _ _ _ _ _); vm_compute; split || done; done.
Defined.

Lemma discard_terminates_witness :
  exists s', drive 16 (2 * 1 + 1) 0 (set_closed true demo_shared) DiscardPop = (s', Finished Sent) /\
             items s' = [] /\ used s' = 96 - 96.
Proof.
  apply (discard_terminates 16 0 (set_closed true demo_shared));
    [apply demo_shared_ok|reflexivity|vm_compute; discriminate].
Defined.

End Queue.
