(* ===== verification/StreamBuffer.v ===== *)
(** * Buffered duplex streams (crates/protocol/src/stream_buffer.rs)

    Each direction of a duplex stream is a [Pipe]: a queue of chunks under one lock, with
    an adaptive capacity.  The operations below are the critical sections of the source;
    wakers carry no data and do not appear.  [content] is the abstract byte queue a pipe
    implements, and every operation is related to it. *)

From S2P Require Import Prelude Capacity.

Module StreamBuffer.

Definition CHUNK : Z := 16 * 1024.

(** [Poll<io::Result<A>>] of this file's operations; the only error is [BrokenPipe]. *)
Inductive poll (A : Type) :=
| Ready (a : A)
| BrokenPipe
| Pending.
Arguments Ready {A} a.
Arguments BrokenPipe {A}.
Arguments Pending {A}.

(** A [Vec<u8>] with the capacity its allocation has. *)
Record chunk := mkChunk { data : bytes; capacity_of : Z }.

(** [struct State] *)
Record State := mkState {
  chunks : list chunk;
  offset : Z;
  buffered : Z;                      (* [bytes] *)
  capacity : Capacity.t;
  writer_closed : bool;
  reader_closed : bool;
}.

(** [Pipe::new] *)
Definition new (initial now : Z) : State :=
  mkState [] 0 0 (Capacity.new initial now) false false.

(** The copy loop of [read_inner]: the bytes put into [out] for a buffer with [remaining]
    free bytes, and the chunks and offset left.  A chunk that is not exhausted means the
    buffer is full, which ends the loop. *)
Fixpoint copy_out (remaining offset : Z) (cs : list chunk) : bytes * Z * list chunk :=
  match cs with
  | [] => ([], offset, [])
  | c :: rest =>
      if remaining <=? 0 then ([], offset, cs) else
      let length := len (data c) in
      let count := Z.min remaining (length - offset) in
      let part := slice offset (offset + count) (data c) in
      if offset + count =? length then
        let '(out, offset', cs') := copy_out (remaining - count) 0 rest in
        (part ++ out, offset', cs')
      else (part, offset + count, cs)
  end.

(** [BufferedStream::read_inner] on the pipe this end reads; [now] is [Instant::now()]. *)
Definition read_inner (now remaining : Z) (s : State) : State * poll bytes :=
  if remaining =? 0 then (s, Ready []) else
  let '(out, offset', cs') := copy_out remaining (offset s) (chunks s) in
  let copied := len out in
  if 0 <? copied then
    (mkState cs' offset' (buffered s - copied) (Capacity.complete (capacity s) copied now)
       (writer_closed s) (reader_closed s), Ready out)
  else if writer_closed s then (s, Ready []) else (s, Pending).

(** [AsyncRead::poll_read]: the cooperative budget first. *)
Definition poll_read (budget : bool) (now remaining : Z) (s : State) : State * poll bytes :=
  if budget then read_inner now remaining s else (s, Pending).

(** Appending to the last chunk ([chunks.back_mut().extend_from_slice]). *)
Definition extend_last (cs : list chunk) (b : bytes) : list chunk :=
  match last cs with
  | Some c => take (length cs - 1) cs ++ [mkChunk (data c ++ b) (capacity_of c)]
  | None => cs
  end.

(** Free space in the last chunk. *)
Definition room (cs : list chunk) : Z :=
  match last cs with Some c => capacity_of c - len (data c) | None => 0 end.

(** [BufferedStream::write_inner] on the pipe this end writes.  [alloc] is the capacity
    [Vec::with_capacity(CHUNK)] obtains. *)
Definition write_inner (now alloc : Z) (b : bytes) (s : State) : State * poll Z :=
  if len b =? 0 then (s, Ready 0) else
  if reader_closed s || writer_closed s then (s, BrokenPipe) else
  let '(cap, tg) := Capacity.target (capacity s) now in
  let s := mkState (chunks s) (offset s) (buffered s) cap (writer_closed s) (reader_closed s) in
  let space := sat_sub tg (buffered s) in
  if space =? 0 then (s, Pending) else
  let count := Z.min (Z.min space (len b)) CHUNK in
  let r := room (chunks s) in
  if 0 <? r then
    let count := Z.min count r in
    (mkState (extend_last (chunks s) (ztake count b)) (offset s) (buffered s + count) cap
       (writer_closed s) (reader_closed s), Ready count)
  else
    (mkState (chunks s ++ [mkChunk (ztake count b) alloc]) (offset s) (buffered s + count) cap
       (writer_closed s) (reader_closed s), Ready count).

(** [AsyncWrite::poll_write] *)
Definition poll_write (budget : bool) (now alloc : Z) (b : bytes) (s : State) : State * poll Z :=
  if budget then write_inner now alloc b s else (s, Pending).

(** [AsyncWrite::poll_shutdown] on the pipe this end writes. *)
Definition shutdown (s : State) : State :=
  mkState (chunks s) (offset s) (buffered s) (capacity s) true (reader_closed s).

(** The reading half of [Drop]: note that [offset] is left as it was. *)
Definition close_reader (s : State) : State :=
  mkState [] (offset s) 0 (capacity s) (writer_closed s) true.

(** ** The byte queue a pipe implements *)

Definition flat (cs : list chunk) : bytes := mjoin (data <$> cs).

Definition content (s : State) : bytes :=
  if reader_closed s then [] else zdrop (offset s) (flat (chunks s)).

Definition chunk_ok (c : chunk) : Prop := 0 < len (data c) <= capacity_of c.

Definition chunks_ok (offset : Z) (cs : list chunk) : Prop :=
  Forall chunk_ok cs /\
  match cs with [] => offset = 0 | c :: _ => 0 <= offset < len (data c) end.

Definition wf (s : State) : Prop :=
  Capacity.wf (capacity s) /\
  buffered s = len (content s) /\
  (reader_closed s = false -> chunks_ok (offset s) (chunks s)).

Lemma flat_app a b : flat (a ++ b) = flat a ++ flat b.
Proof. unfold flat. by rewrite fmap_app, join_app. Qed.

Lemma copy_out_spec rem off cs out off' cs' :
  0 <= rem -> chunks_ok off cs -> copy_out rem off cs = (out, off', cs') ->
  out = ztake rem (zdrop off (flat cs)) /\
  zdrop off' (flat cs') = zdrop rem (zdrop off (flat cs)) /\ chunks_ok off' cs'.
Proof.
  revert rem off out off' cs'.
  induction cs as [|c cs IH]; intros rem off out off' cs' Hrem [Hok Hoff] Hc; simpl in Hc.
  { simplify_eq. unfold ztake, zdrop, flat. simpl. by rewrite !drop_nil, take_nil. }
  apply Forall_cons in Hok as [Hc1 Hok]. unfold chunk_ok in Hc1.
  change (flat (c :: cs)) with (data c ++ flat cs).
  destruct (rem <=? 0) eqn:Hr; zify_bool.
  { simplify_eq. replace rem with 0 by lia. split_and!; try done.
    split; [by constructor|done]. }
  rewrite (zdrop_app_le off) by lia.
  destruct (_ =? _) eqn:Hlast in Hc; zify_bool.
  - destruct (copy_out _ 0 cs) as [[out1 off1] cs1] eqn:Hrec. simplify_eq.
    assert (chunks_ok 0 cs) as Hok0.
    { split; [done|]. destruct cs as [|c1 cs1]; [done|]. inversion Hok; subst.
      unfold chunk_ok in *. lia. }
    apply IH in Hrec as (-> & -> & Hok1); [|lia|done].
    assert (Hlen : len (zdrop off (data c)) = len (data c) - off) by (rewrite len_zdrop; lia).
    unfold slice. replace (off + Z.min rem (len (data c) - off) - off)
      with (len (data c) - off) by lia.
    rewrite (ztake_ge (len (data c) - off)) by lia.
    rewrite zdrop_0. split_and!; try done.
    + rewrite ztake_app_ge by lia. do 3 f_equal. lia.
    + rewrite zdrop_app_ge by lia. f_equal. lia.
  - simplify_eq. assert (Z.min rem (len (data c) - off) = rem) as Hm by lia.
    rewrite Hm in *. unfold slice. replace (off + rem - off) with rem by lia.
    rewrite ztake_app_le, zdrop_app_le by (rewrite len_zdrop; lia).
    rewrite zdrop_zdrop by lia. change (flat (c :: cs)) with (data c ++ flat cs).
    rewrite zdrop_app_le by lia. split_and!; try done.
    split; [by constructor|]. lia.
Qed.

Lemma extend_last_snoc cs c b :
  extend_last (cs ++ [c]) b = cs ++ [mkChunk (data c ++ b) (capacity_of c)].
Proof.
  unfold extend_last. rewrite last_snoc, length_app. simpl.
  replace (length cs + 1 - 1)%nat with (length cs) by lia. by rewrite take_app_length.
Qed.

Lemma room_pos cs : 0 < room cs -> exists cs' c, cs = cs' ++ [c] /\ room cs = capacity_of c - len (data c).
Proof.
  unfold room. destruct (last cs) as [c|] eqn:Hl; [|lia].
  apply last_Some in Hl as [cs' ->]. eauto.
Qed.

Lemma chunks_ok_snoc off cs c :
  chunks_ok off cs -> chunk_ok c -> chunks_ok off (cs ++ [c]).
Proof.
  intros [Hok Hoff] Hc. split; [apply Forall_app; auto|].
  destruct cs; simpl; [|done]. unfold chunk_ok in Hc. lia.
Qed.

Lemma chunks_ok_extend off cs c b :
  chunks_ok off (cs ++ [c]) -> len (data c) + len b <= capacity_of c ->
  chunks_ok off (cs ++ [mkChunk (data c ++ b) (capacity_of c)]).
Proof.
  intros [[Hok Hc]%Forall_app Hoff] Hle. inversion Hc as [|? ? Hc1 _]; subst.
  unfold chunk_ok in Hc1. split.
  - apply Forall_app. split; [done|]. constructor; [|done]. unfold chunk_ok; simpl. len_lia.
  - destruct cs; simpl in *; [|done]. len_lia.
Qed.

(** What is buffered never moves when bytes are appended behind it. *)
Lemma zdrop_flat_app off cs b :
  chunks_ok off cs -> zdrop off (flat cs ++ b) = zdrop off (flat cs) ++ b.
Proof.
  intros [_ Hoff]. apply zdrop_app_le. destruct cs as [|c cs]; [subst; apply len_nonneg|].
  change (flat (c :: cs)) with (data c ++ flat cs). len_lia.
Qed.

(** ** Refinement of the byte queue *)

(** The byte queue's view of a write: refused, blocked, or a non-empty prefix accepted. *)
Definition write_spec (b before after : bytes) (tg : Z) (closed : bool) (r : poll Z) : Prop :=
  match r with
  | BrokenPipe => closed = true /\ after = before
  | Pending => b <> [] /\ closed = false /\ tg <= len before /\ after = before
  | Ready n =>
      after = before ++ ztake n b /\ 0 <= n <= len b /\ (n = 0 -> b = []) /\
      (b <> [] -> closed = false /\ len after <= tg)
  end.

Lemma accept_spec b s cs cap tg n :
  wf s -> Capacity.wf cap -> reader_closed s = false -> writer_closed s = false ->
  0 < n -> n <= len b -> buffered s + n <= tg ->
  flat cs = flat (chunks s) ++ ztake n b -> chunks_ok (offset s) cs ->
  let s' := mkState cs (offset s) (buffered s + n) cap (writer_closed s) (reader_closed s) in
  wf s' /\ write_spec b (content s) (content s') tg false (Ready n) /\
  writer_closed s' = writer_closed s /\ reader_closed s' = reader_closed s.
Proof.
  intros (Hcap & Hbuf & Hck) Hcap' Hrc Hwc Hn Hnb Htg Hcs Hok s'. specialize (Hck Hrc).
  assert (Hc : content s = zdrop (offset s) (flat (chunks s))) by (unfold content; by rewrite Hrc).
  assert (Hc' : content s' = content s ++ ztake n b).
  { unfold content, s'; simpl. rewrite Hrc, Hcs. by apply zdrop_flat_app. }
  assert (len (content s') = buffered s + n).
  { rewrite Hc'. autorewrite with koto_len. rewrite len_ztake by lia. lia. }
  unfold wf, write_spec. split_and!; try done; lia.
Qed.

Lemma write_inner_spec now alloc b s s' r :
  wf s -> CHUNK <= alloc -> write_inner now alloc b s = (s', r) ->
  wf s' /\ write_spec b (content s) (content s') (snd (Capacity.target (capacity s) now))
             (reader_closed s || writer_closed s) r /\
  writer_closed s' = writer_closed s /\ reader_closed s' = reader_closed s.
Proof.
  intros Hwf Halloc. pose proof Hwf as (Hcap & Hbuf & Hck). unfold write_inner.
  destruct (len b =? 0) eqn:Hb; zify_bool.
  { apply len_zero in Hb as ->. intros. simplify_eq. simpl. rewrite app_nil_r.
    split_and!; try done. }
  assert (b <> []) by (intros ->; done). pose proof (len_nonneg b).
  destruct (reader_closed s || writer_closed s) eqn:Hcl.
  { intros. by simplify_eq. }
  apply orb_false_iff in Hcl as [Hrc Hwc]. specialize (Hck Hrc).
  pose proof (Capacity.target_wf (capacity s) now Hcap) as Hcap'.
  destruct (Capacity.target (capacity s) now) as [cap tg] eqn:Htg. simpl in Hcap'. simpl.
  destruct (sat_sub tg (buffered s) =? 0) eqn:Hsp; zify_bool.
  { intros. simplify_eq/=. rewrite Hrc, Hwc. unfold wf, content in *; simpl. rewrite Hrc in *.
    split_and!; try done. word_lia. }
  set (n0 := Z.min (Z.min (sat_sub tg (buffered s)) (len b)) CHUNK).
  assert (0 < n0 <= len b /\ n0 <= CHUNK /\ buffered s + n0 <= tg)
    by (subst n0; unfold CHUNK in *; word_lia).
  destruct (0 <? room (chunks s)) eqn:Hroom; zify_bool; intros; simplify_eq.
  - destruct (room_pos _ Hroom) as (cs & c & Hcs & Hr). rewrite Hcs, extend_last_snoc in *.
    rewrite Hr in *. apply accept_spec; try done; [lia..| |].
    + rewrite Hcs, !flat_app. unfold flat; simpl. by rewrite !app_nil_r, app_assoc.
    + apply chunks_ok_extend; [done|]. rewrite len_ztake by lia. lia.
  - apply accept_spec; try done; [lia..| |].
    + rewrite flat_app. unfold flat; simpl. by rewrite app_nil_r.
    + apply chunks_ok_snoc; [done|]. unfold chunk_ok; simpl. rewrite len_ztake by lia. lia.
Qed.

(** The byte queue's view of a read. *)
Definition read_spec (remaining : Z) (before after : bytes) (wclosed : bool) (r : poll bytes) : Prop :=
  match r with
  | BrokenPipe => False
  | Pending => 0 < remaining /\ before = [] /\ after = [] /\ wclosed = false
  | Ready out =>
      out = ztake remaining before /\ after = zdrop remaining before /\
      (out = [] -> remaining = 0 \/ before = [] /\ wclosed = true)
  end.

Lemma read_inner_spec now remaining s s' r :
  wf s -> reader_closed s = false -> 0 <= remaining -> read_inner now remaining s = (s', r) ->
  wf s' /\ read_spec remaining (content s) (content s') (writer_closed s) r /\
  writer_closed s' = writer_closed s /\ reader_closed s' = reader_closed s.
Proof.
  intros Hwf Hrc Hrem. pose proof Hwf as (Hcap & Hbuf & Hck). specialize (Hck Hrc).
  unfold read_inner. destruct (remaining =? 0) eqn:Hr0; zify_bool.
  { intros. simplify_eq. simpl. split_and!; auto. }
  destruct (copy_out remaining (offset s) (chunks s)) as [[out off'] cs'] eqn:Hco.
  apply copy_out_spec in Hco as (Hout & Hrest & Hok); [|done..].
  assert (Hc : content s = zdrop (offset s) (flat (chunks s))) by (unfold content; by rewrite Hrc).
  rewrite <- Hc in Hout, Hrest.
  assert (Hlen : len out = Z.min remaining (len (content s))) by (rewrite Hout; apply len_ztake; lia).
  pose proof (len_nonneg (content s)).
  destruct (0 <? len out) eqn:H0; zify_bool.
  - intros [= <- <-].
    assert (Hc' : content (mkState cs' off' (buffered s - len out) (Capacity.complete (capacity s) (len out) now)
                    (writer_closed s) (reader_closed s)) = zdrop remaining (content s)).
    { unfold content at 1; simpl. by rewrite Hrc. }
    unfold wf, read_spec; rewrite Hc'; simpl. rewrite len_zdrop by lia.
    split_and!; try done; auto with koto; try lia.
    + apply Capacity.complete_wf; [done|lia].
    + intros Hnil. rewrite Hnil in H0. done.
  - assert (content s = []) as Hnil by (apply len_zero; lia).
    destruct (writer_closed s) eqn:Hwc; intros [= <- <-]; simpl; rewrite ?Hnil.
    + unfold ztake, zdrop. rewrite take_nil, drop_nil. split_and!; auto.
    + split_and!; try done; lia.
Qed.

(** ** Duplex streams *)

(** One direction: its pipe, and as history the bytes its writer had accepted and its
    reader has received. *)
Record direction := mkDirection { pipe : State; accepted : bytes; received : bytes }.

(** [duplex_with_capacity]: two ends and a pipe each way.  An end that was dropped can
    make no further calls. *)
Record duplex := mkDuplex {
  up : direction;                    (* written by the first end *)
  down : direction;                  (* written by the second end *)
  first_alive : bool;
  second_alive : bool;
}.

Definition duplex_with_capacity (initial now : Z) : duplex :=
  let d := mkDirection (new initial now) [] [] in mkDuplex d d true true.

Inductive side := First | Second.

Inductive call :=
| Read (budget : bool) (now remaining : Z)
| Write (budget : bool) (now alloc : Z) (b : bytes)
| Shutdown
| Drop.

Definition written (d : duplex) (x : side) : direction := match x with First => up d | Second => down d end.
Definition read_by (d : duplex) (x : side) : direction := match x with First => down d | Second => up d end.
Definition alive (d : duplex) (x : side) : bool :=
  match x with First => first_alive d | Second => second_alive d end.

(** Replace the direction an end writes, and the one it reads. *)
Definition update (d : duplex) (x : side) (w r : direction) (live : bool) : duplex :=
  match x with
  | First => mkDuplex w r live (second_alive d)
  | Second => mkDuplex r w (first_alive d) live
  end.

Definition taken (r : poll bytes) : bytes := match r with Ready out => out | _ => [] end.
Definition taken_prefix (b : bytes) (r : poll Z) : bytes := match r with Ready n => ztake n b | _ => [] end.

Definition dir_read (budget : bool) (now remaining : Z) (d : direction) : direction * poll bytes :=
  let '(p, r) := poll_read budget now remaining (pipe d) in
  (mkDirection p (accepted d) (received d ++ taken r), r).
Definition dir_write (budget : bool) (now alloc : Z) (b : bytes) (d : direction) : direction * poll Z :=
  let '(p, r) := poll_write budget now alloc b (pipe d) in
  (mkDirection p (accepted d ++ taken_prefix b r) (received d), r).
Definition dir_pipe (f : State -> State) (d : direction) : direction :=
  mkDirection (f (pipe d)) (accepted d) (received d).

Definition step (d : duplex) (x : side) (c : call) : option duplex :=
  if alive d x then
    let w := written d x in let r := read_by d x in
    match c with
    | Read budget now remaining =>
        if 0 <=? remaining then Some (update d x w (fst (dir_read budget now remaining r)) true) else None
    | Write budget now alloc b =>
        if CHUNK <=? alloc then Some (update d x (fst (dir_write budget now alloc b w)) r true) else None
    | Shutdown => Some (update d x (dir_pipe shutdown w) r true)
    | Drop => Some (update d x (dir_pipe shutdown w) (dir_pipe close_reader r) false)
    end
  else None.

Fixpoint run (d : duplex) (calls : list (side * call)) : option duplex :=
  match calls with
  | [] => Some d
  | (x, c) :: calls => d' ← step d x c; run d' calls
  end.

(** The invariant of one direction, given whether its reader still exists. *)
Definition dir_ok (reader_alive : bool) (d : direction) : Prop :=
  wf (pipe d) /\ reader_closed (pipe d) = negb reader_alive /\
  received d `prefix_of` accepted d /\
  (reader_alive = true -> accepted d = received d ++ content (pipe d)).

Lemma dir_read_ok budget now remaining d :
  dir_ok true d -> 0 <= remaining -> dir_ok true (fst (dir_read budget now remaining d)).
Proof.
  intros (Hwf & Hrc & Hpre & Hacc) Hrem. unfold dir_read, poll_read.
  destruct budget; [|unfold dir_ok; simpl; by rewrite app_nil_r].
  destruct (read_inner now remaining (pipe d)) as [p r] eqn:Hr.
  eapply read_inner_spec in Hr as (Hwf' & Hspec & Hw & Hrc'); [|done..].
  assert (Hcat : accepted d = (received d ++ taken r) ++ content p).
  { rewrite (Hacc eq_refl), <- app_assoc. f_equal. destruct r; simpl in *; try done.
    - destruct Hspec as (-> & -> & _). by rewrite ztake_zdrop.
    - destruct Hspec as (_ & -> & -> & _). done. }
  unfold dir_ok; simpl. split_and!; [done|by rewrite Hrc'| |done].
  rewrite Hcat. by apply prefix_app_r.
Qed.

Lemma dir_write_ok budget now alloc b live d :
  dir_ok live d -> CHUNK <= alloc -> dir_ok live (fst (dir_write budget now alloc b d)).
Proof.
  intros (Hwf & Hrc & Hpre & Hacc) Halloc. unfold dir_write, poll_write.
  destruct budget; [|unfold dir_ok; simpl; by rewrite app_nil_r].
  destruct (write_inner now alloc b (pipe d)) as [p r] eqn:Hw.
  eapply write_inner_spec in Hw as (Hwf' & Hspec & Hw & Hrc'); [|done..].
  unfold dir_ok; simpl. split_and!; [done|by rewrite Hrc'|by apply prefix_app_r|].
  intros Hlive. rewrite (Hacc Hlive), <- app_assoc. f_equal.
  destruct r; simpl in *; rewrite ?app_nil_r.
  - by destruct Hspec as (-> & _).
  - by destruct Hspec as (_ & ->).
  - by destruct Hspec as (_ & _ & _ & ->).
Qed.

Lemma dir_shutdown_ok live d : dir_ok live d -> dir_ok live (dir_pipe shutdown d).
Proof. done. Qed.

Lemma dir_close_ok live d : dir_ok live d -> dir_ok false (dir_pipe close_reader d).
Proof.
  intros ((Hcap & _ & _) & _ & Hpre & _). unfold dir_ok, wf; simpl. split_and!; done.
Qed.

Definition duplex_ok (d : duplex) : Prop :=
  dir_ok (second_alive d) (up d) /\ dir_ok (first_alive d) (down d).

Lemma step_ok d x c d' : duplex_ok d -> step d x c = Some d' -> duplex_ok d'.
Proof.
  intros [Hup Hdown] Hstep. unfold step in Hstep.
  destruct (alive d x) eqn:Hlive; [|done].
  destruct x, c; simpl in *; rewrite Hlive in *; repeat case_bool; simplify_eq/=;
    unfold duplex_ok; simpl; eauto 6 using dir_read_ok, dir_write_ok, dir_shutdown_ok, dir_close_ok.
Qed.

Lemma run_ok calls d d' : duplex_ok d -> run d calls = Some d' -> duplex_ok d'.
Proof.
  revert d. induction calls as [|[x c] calls IH]; simpl; intros d Hd Hrun; [by simplify_eq|].
  destruct (step d x c) as [d1|] eqn:Hs; simpl in Hrun; [|done]. eauto using step_ok.
Qed.

Lemma duplex_start_ok initial now :
  0 < initial <= usize_max -> duplex_ok (duplex_with_capacity initial now).
Proof.
  intros Hi. unfold duplex_ok, dir_ok, wf, Capacity.wf; simpl.
  split_and!; try done; word_lia.
Qed.

(** ** Properties *)

(** C7. Backpressure preserves bytes: after any calls of both ends, in any order, each end
    has received a prefix of exactly what the other end had accepted, in order, and as long
    as the receiving end exists the rest is still buffered.  Shutting one direction down, or
    dropping an end, loses nothing that its peer can still read. *)
Theorem duplex_preserves_bytes initial now calls d :
  0 < initial <= usize_max -> run (duplex_with_capacity initial now) calls = Some d ->
  (received (up d) `prefix_of` accepted (up d) /\
   (second_alive d = true -> accepted (up d) = received (up d) ++ content (pipe (up d)))) /\
  (received (down d) `prefix_of` accepted (down d) /\
   (first_alive d = true -> accepted (down d) = received (down d) ++ content (pipe (down d)))).
Proof.
  intros Hi Hrun. destruct (run_ok _ _ _ (duplex_start_ok _ _ Hi) Hrun)
    as [(_ & _ & ? & ?) (_ & _ & ? & ?)]. done.
Qed.

(** Flow control and end of stream: in every reachable state, a write from the first
    end either accepts a non-empty prefix that keeps the buffer within the capacity target,
    blocks only while the buffer holds at least the target, or fails because the direction
    was closed; a read by the second end returns the oldest buffered bytes, blocks only on an
    empty open direction, and reports end of stream only when the writer finished and
    everything it wrote was received. *)
Theorem duplex_flow_control initial now calls d :
  0 < initial <= usize_max -> run (duplex_with_capacity initial now) calls = Some d ->
  (forall now alloc b p r, CHUNK <= alloc -> write_inner now alloc b (pipe (up d)) = (p, r) ->
     write_spec b (content (pipe (up d))) (content p)
       (snd (Capacity.target (capacity (pipe (up d))) now))
       (reader_closed (pipe (up d)) || writer_closed (pipe (up d))) r) /\
  (forall now remaining p r, second_alive d = true -> 0 < remaining ->
     read_inner now remaining (pipe (up d)) = (p, r) ->
     read_spec remaining (content (pipe (up d))) (content p) (writer_closed (pipe (up d))) r /\
     (r = Ready [] -> writer_closed (pipe (up d)) = true /\ received (up d) = accepted (up d))).
Proof.
  intros Hi Hrun. destruct (run_ok _ _ _ (duplex_start_ok _ _ Hi) Hrun)
    as [(Hwf & Hrc & _ & Hacc) _]. split.
  - intros now' alloc b p r Halloc Hw. by eapply write_inner_spec in Hw as (_ & ? & _).
  - intros now' remaining p r Hlive Hrem Hr.
    eapply read_inner_spec in Hr as (_ & Hspec & _); [|done|by rewrite Hrc, Hlive|lia].
    split; [done|]. intros ->. destruct Hspec as (_ & _ & [?|[Hnil ?]]); [done|lia|].
    split; [done|]. by rewrite Hacc, Hnil, app_nil_r.
Qed.

(** ** Witnesses *)

Definition demo_calls : list (side * call) :=
  [(First, Write true 0 16384 [1; 2; 3; 4; 5]); (Second, Read true 1 2);
   (First, Write true 2 16384 [6; 7; 8; 9]); (First, Shutdown); (Second, Write true 3 16384 [9; 9]);
   (Second, Read false 4 9); (Second, Read true 4 1); (Second, Drop); (First, Read true 5 100)].

Definition demo_duplex : duplex := default (duplex_with_capacity 6 0) (run (duplex_with_capacity 6 0) demo_calls).

Lemma duplex_preserves_bytes_witness :
  received (up demo_duplex) = [1; 2; 3] /\ accepted (up demo_duplex) = [1; 2; 3; 4; 5; 6; 7; 8] /\
  (received (up demo_duplex) `prefix_of` accepted (up demo_duplex) /\
   (second_alive demo_duplex = true ->
    accepted (up demo_duplex) = received (up demo_duplex) ++ content (pipe (up demo_duplex)))) /\
  (received (down demo_duplex) `prefix_of` accepted (down demo_duplex) /\
   (first_alive demo_duplex = true ->
    accepted (down demo_duplex) = received (down demo_duplex) ++ content (pipe (down demo_duplex)))).
Proof.
  split; [vm_compute; reflexivity|]. split; [vm_compute; reflexivity|].
  apply (duplex_preserves_bytes 6 0 demo_calls); [word_lia|vm_compute; reflexivity].
Defined.

Lemma duplex_flow_control_witness :
  let d := duplex_with_capacity 6 0 in
  (forall now alloc b p r, CHUNK <= alloc -> write_inner now alloc b (pipe (up d)) = (p, r) ->
     write_spec b (content (pipe (up d))) (content p)
       (snd (Capacity.target (capacity (pipe (up d))) now))
       (reader_closed (pipe (up d)) || writer_closed (pipe (up d))) r) /\
  (forall now remaining p r, second_alive d = true -> 0 < remaining ->
     read_inner now remaining (pipe (up d)) = (p, r) ->
     read_spec remaining (content (pipe (up d))) (content p) (writer_closed (pipe (up d))) r /\
     (r = Ready [] -> writer_closed (pipe (up d)) = true /\ received (up d) = accepted (up d))).
Proof. apply (duplex_flow_control 6 0 []); [word_lia|reflexivity]. Defined.

End StreamBuffer.
