(* ===== verification/OrderedMap.v ===== *)
(** * Ordered maps ([BTreeMap<usize, V>])

    A [BTreeMap] is a finite map together with the ordered queries the sources use:
    [range(..k).next_back()], [range(a..b).next()] and [first_key_value()]. *)

From S2P Require Import Prelude.

Module OrderedMap.

Section ordered.
Context {V : Type}.
Implicit Types (m : gmap Z V) (l : list (Z * V)).

Fixpoint max_entry l : option (Z * V) :=
  match l with
  | [] => None
  | e :: l => match max_entry l with
              | Some e' => if e'.1 <? e.1 then Some e else Some e'
              | None => Some e
              end
  end.

Fixpoint min_entry l : option (Z * V) :=
  match l with
  | [] => None
  | e :: l => match min_entry l with
              | Some e' => if e.1 <? e'.1 then Some e else Some e'
              | None => Some e
              end
  end.

(** [m.range(..hi).next_back()] *)
Definition last_below (hi : Z) m : option (Z * V) :=
  max_entry (filter (fun e => e.1 < hi) (map_to_list m)).

(** [m.range(lo..hi).next()] *)
Definition first_in (lo hi : Z) m : option (Z * V) :=
  min_entry (filter (fun e => lo <= e.1 < hi) (map_to_list m)).

(** [m.first_key_value()] *)
Definition first_key_value m : option (Z * V) := min_entry (map_to_list m).

(** [m.range(lo..hi).count()] *)
Definition count_in (lo hi : Z) m : Z :=
  len (filter (fun e => lo <= e.1 < hi) (map_to_list m)).

Lemma max_entry_Some l e :
  max_entry l = Some e -> e ∈ l /\ forall e', e' ∈ l -> e'.1 <= e.1.
Proof.
  revert e. induction l as [|e0 l IH]; simpl; intros e He; [done|].
  destruct (max_entry l) as [e1|] eqn:Hm.
  - destruct (IH e1 eq_refl) as [Hin Hmax].
    destruct (e1.1 <? e0.1) eqn:Hlt; simplify_eq; zify_bool; split; try set_solver.
    all: intros e' [->|He']%elem_of_cons; try lia; specialize (Hmax e' He'); lia.
  - simplify_eq. split; [set_solver|]. intros e' [->|He']%elem_of_cons; [lia|].
    destruct l as [|e1 l]; [set_solver|]. simpl in Hm. repeat case_match; done.
Qed.

Lemma min_entry_Some l e :
  min_entry l = Some e -> e ∈ l /\ forall e', e' ∈ l -> e.1 <= e'.1.
Proof.
  revert e. induction l as [|e0 l IH]; simpl; intros e He; [done|].
  destruct (min_entry l) as [e1|] eqn:Hm.
  - destruct (IH e1 eq_refl) as [Hin Hmin].
    destruct (e0.1 <? e1.1) eqn:Hlt; simplify_eq; zify_bool; split; try set_solver.
    all: intros e' [->|He']%elem_of_cons; try lia; specialize (Hmin e' He'); lia.
  - simplify_eq. split; [set_solver|]. intros e' [->|He']%elem_of_cons; [lia|].
    destruct l as [|e1 l]; [set_solver|]. simpl in Hm. repeat case_match; done.
Qed.

Lemma max_entry_None l : max_entry l = None -> l = [].
Proof. destruct l; simpl; [done|]. repeat case_match; done. Qed.

Lemma min_entry_None l : min_entry l = None -> l = [].
Proof. destruct l; simpl; [done|]. repeat case_match; done. Qed.

Lemma last_below_Some hi m k v :
  last_below hi m = Some (k, v) <->
  m !! k = Some v /\ k < hi /\ forall k' v', m !! k' = Some v' -> k' < hi -> k' <= k.
Proof.
  unfold last_below. split.
  - intros [Hin Hmax]%max_entry_Some. apply list_elem_of_filter in Hin as [Hk Hin].
    simpl in Hk. apply elem_of_map_to_list in Hin. split_and!; try done.
    intros k' v' Hk' Hlt. apply (Hmax (k', v')), list_elem_of_filter.
    by rewrite elem_of_map_to_list.
  - intros (Hk & Hlt & Hmax).
    destruct (max_entry _) as [[k1 v1]|] eqn:Hm.
    + apply max_entry_Some in Hm as [Hin Hm]. apply list_elem_of_filter in Hin as [Hk1 Hin].
      simpl in Hk1. apply elem_of_map_to_list in Hin.
      assert (k1 <= k) by eauto. assert (k <= k1).
      { apply (Hm (k, v)), list_elem_of_filter. by rewrite elem_of_map_to_list. }
      assert (k1 = k) as -> by lia. by simplify_eq.
    + apply max_entry_None in Hm. exfalso. eapply elem_of_nil. rewrite <- Hm.
      apply list_elem_of_filter. split; [|by apply elem_of_map_to_list]. done.
Qed.

Lemma last_below_None hi m : last_below hi m = None <-> forall k v, m !! k = Some v -> hi <= k.
Proof.
  unfold last_below. split.
  - intros Hm%max_entry_None k v Hk. destruct (decide (k < hi)) as [Hlt|]; [|lia].
    exfalso. eapply elem_of_nil. rewrite <- Hm. apply list_elem_of_filter.
    split; [|by apply elem_of_map_to_list]. done.
  - intros Hall. destruct (max_entry _) as [[k v]|] eqn:Hm; [|done].
    apply max_entry_Some in Hm as [[Hk Hin]%list_elem_of_filter _].
    apply elem_of_map_to_list in Hin. apply Hall in Hin. simpl in Hk. lia.
Qed.

Lemma first_in_Some lo hi m k v :
  first_in lo hi m = Some (k, v) ->
  m !! k = Some v /\ lo <= k < hi /\ forall k' v', m !! k' = Some v' -> lo <= k' < hi -> k <= k'.
Proof.
  unfold first_in. intros [Hin Hmin]%min_entry_Some. apply list_elem_of_filter in Hin as [Hk Hin].
  simpl in Hk. apply elem_of_map_to_list in Hin. split_and!; try done; try lia.
  intros k' v' Hk' Hlt. apply (Hmin (k', v')), list_elem_of_filter.
  by rewrite elem_of_map_to_list.
Qed.

Lemma first_in_None lo hi m k v : first_in lo hi m = None -> m !! k = Some v -> ~ lo <= k < hi.
Proof.
  unfold first_in. intros Hm%min_entry_None Hk Hlt. eapply elem_of_nil. rewrite <- Hm.
  apply list_elem_of_filter. split; [|by apply elem_of_map_to_list]. done.
Qed.

Lemma first_key_value_Some m k v :
  first_key_value m = Some (k, v) ->
  m !! k = Some v /\ forall k' v', m !! k' = Some v' -> k <= k'.
Proof.
  unfold first_key_value. intros [Hin Hmin]%min_entry_Some. apply elem_of_map_to_list in Hin.
  split; [done|]. intros k' v' Hk'. apply (Hmin (k', v')). by apply elem_of_map_to_list.
Qed.

Lemma first_key_value_None m : first_key_value m = None -> m = ∅.
Proof. unfold first_key_value. intros Hm%min_entry_None. by apply map_to_list_empty_iff. Qed.

End ordered.
End OrderedMap.
