(* ===== verification/TcpStorage.v ===== *)
(** * TCP payload storage (crates/tun/src/tcp_storage.rs)

    [Storage] keeps received or unsent TCP payload as immutable blocks at logical stream
    offsets.  The first [length] bytes from [head] are published (contiguous); blocks
    beyond them are out-of-order data.  The file relates every operation to two abstract
    views: the published byte sequence ([published]) and the byte each logical offset holds
    ([byte_at]). *)

From S2P Require Import Prelude OrderedMap.
Import OrderedMap.

Module TcpStorage.

(** [struct Storage].  [target], [outstanding] and [released] are atomics shared with the
    application's stream, so their values may differ between calls.  The payload pool and
    the receive frame only decide where a block's bytes live, not what they are. *)
Record Storage := mkStorage {
  blocks : gmap Z bytes;
  head : Z;
  length : Z;
  target : Z;
  outstanding : Z;
  released : Z;
  tx : bool;
  scratch : bytes;
}.

(** [Storage::new] *)
Definition new (target outstanding released : Z) (tx : bool) : Storage :=
  mkStorage ∅ 0 0 target outstanding released tx [].

Definition set_blocks (m : gmap Z bytes) (s : Storage) : Storage :=
  mkStorage m (head s) (length s) (target s) (outstanding s) (released s) (tx s) (scratch s).

(** ** Reading published bytes *)

(** [Buffer::get_allocated]: the published bytes of one block from [offset]. *)
Definition get_allocated (s : Storage) (offset size : Z) : bytes :=
  if length s <=? offset then [] else
  let pos := head s + offset in
  match last_below (pos + 1) (blocks s) with
  | None => []                                          (* [expect("TCP block missing")] *)
  | Some (start, b) =>
      let local := pos - start in
      slice local (Z.min (len b) (local + Z.min size (length s - offset))) b
  end.

(** [Buffer::read_allocated], with [want] the length of [out]; the loop's fuel is the
    number of bytes still wanted. *)
Fixpoint read_loop (fuel : nat) (s : Storage) (offset want : Z) : bytes :=
  match fuel with
  | O => []
  | S fuel =>
      if want <=? 0 then [] else
      let part := get_allocated s offset want in
      if len part =? 0 then [] else
      part ++ read_loop fuel s (offset + len part) (want - len part)
  end.

Definition read_allocated (s : Storage) (offset want : Z) : bytes :=
  read_loop (Z.to_nat want) s offset want.

(** [Buffer::get_segment]: the block's own bytes when the segment does not cross a block
    boundary, otherwise gathered into [scratch]. *)
Definition get_segment (s : Storage) (offset size : Z) : Storage * bytes :=
  let wanted := Z.min size (sat_sub (length s) offset) in
  let direct := get_allocated s offset wanted in
  if len direct =? wanted then (s, direct) else
  let gathered := read_allocated s offset wanted in
  (mkStorage (blocks s) (head s) (length s) (target s) (outstanding s) (released s) (tx s) gathered,
   gathered).

(** [Buffer::segment_len]: how far at most 64 blocks reach. *)
Fixpoint segment_scan (n : nat) (s : Storage) (position stop : Z) : Z :=
  match n with
  | O => position
  | S n => if position =? stop then position
           else segment_scan n s (position + len (get_allocated s position (stop - position))) stop
  end.

Definition segment_len (s : Storage) (offset size : Z) : Z :=
  let stop := offset + Z.min size (sat_sub (length s) offset) in
  segment_scan 64 s offset stop - offset.

(** [Storage::segments]: the views of the logical range [[from, to)]. *)
Fixpoint segments_loop (fuel : nat) (m : gmap Z bytes) (position stop : Z) : list bytes :=
  match fuel with
  | O => []
  | S fuel =>
      if stop <=? position then [] else
      match last_below (position + 1) m with
      | None => []                                      (* [expect("TX segment")] *)
      | Some (start, b) =>
          let count := Z.min (stop - position) (start + len b - position) in
          slice (position - start) (position - start + count) b ::
            segments_loop fuel m (position + count) stop
      end
  end.

Definition segments (s : Storage) (from to : Z) : list bytes :=
  segments_loop (Z.to_nat (to - from)) (blocks s) (head s + from) (head s + to).

(** [Storage::segment_count] *)
Definition segment_count (s : Storage) (from to : Z) : Z :=
  let start := head s + from in
  let stop := head s + to in
  let prefix := match last_below start (blocks s) with
                | Some (key, b) => start <? key + len b
                | None => false
                end in
  Z.b2z prefix + count_in start stop (blocks s).

(** ** Changing the storage *)

(** [Storage::push] *)
Definition push (s : Storage) (b : bytes) : Storage * Z :=
  if len b =? 0 then (s, 0) else
  (mkStorage (<[head s + length s := b]> (blocks s)) (head s) (length s + len b) (target s)
     (outstanding s) (released s) (tx s) (scratch s), len b).

(** [Storage::take] *)
Definition take (s : Storage) : Storage * option bytes :=
  if length s =? 0 then (s, None) else
  match first_key_value (blocks s) with
  | None => (s, None)                                   (* [expect] *)
  | Some (start, b) =>
      let m := delete start (blocks s) in
      let count := Z.min (len b) (length s) in
      let m := if count <? len b then <[start + count := zdrop count b]> m else m in
      (mkStorage m (head s + count) (length s - count) (target s) (outstanding s) (released s)
         (tx s) (scratch s), Some (ztake count b))
  end.

(** [Storage::insert]: the overlapping predecessor is split around the new block... *)
Definition split_predecessor (start stop : Z) (m : gmap Z bytes) : gmap Z bytes :=
  match last_below start m with
  | Some (key, old) =>
      if start <? key + len old then
        let m := delete key m in
        let m := if stop <? key + len old then <[stop := zdrop (stop - key) old]> m else m in
        <[key := ztake (start - key) old]> m
      else m
  | None => m
  end.

(** ... blocks starting inside it are removed, keeping what sticks out past its end ... *)
Fixpoint evict (fuel : nat) (start stop : Z) (m : gmap Z bytes) : gmap Z bytes :=
  match fuel with
  | O => m
  | S fuel =>
      match first_in start stop m with
      | None => m
      | Some (key, old) =>
          let m := delete key m in
          let m := if stop <? key + len old then <[stop := zdrop (stop - key) old]> m else m in
          evict fuel start stop m
      end
  end.

(** ... and it is inserted. *)
Definition insert (start : Z) (b : bytes) (m : gmap Z bytes) : gmap Z bytes :=
  let stop := start + len b in
  let m := split_predecessor start stop m in
  let m := evict (S (Z.to_nat (len b))) start stop m in
  <[start := b]> m.

(** [Buffer::write_unallocated] *)
Definition write_unallocated (s : Storage) (offset : Z) (data : bytes) : Storage * Z :=
  if len data =? 0 then (s, 0)
  else (set_blocks (insert (head s + length s + offset) data (blocks s)) s, len data).

(** [Buffer::enqueue_unallocated] *)
Definition enqueue_unallocated (s : Storage) (count : Z) : Storage :=
  mkStorage (blocks s) (head s) (length s + count) (target s) (outstanding s) (released s) (tx s) (scratch s).

(** The removal loop of [Buffer::dequeue_allocated]. *)
Fixpoint drop_before (fuel : nat) (stop : Z) (m : gmap Z bytes) : gmap Z bytes :=
  match fuel with
  | O => m
  | S fuel =>
      match first_key_value m with
      | None => m
      | Some (start, b) =>
          if stop <=? start then m else
          let m := delete start m in
          let m := if stop <? start + len b then <[stop := zdrop (stop - start) b]> m else m in
          drop_before fuel stop m
      end
  end.

(** [Buffer::dequeue_allocated] *)
Definition dequeue_allocated (s : Storage) (count : Z) : Storage :=
  let stop := head s + count in
  let m := drop_before (S (size (blocks s))) stop (blocks s) in
  let returns := tx s && negb (count =? 0) in
  mkStorage m stop (length s - count) (target s)
    (if returns then wrap_sub (outstanding s) count else outstanding s)
    (if returns then wrap_add (released s) count else released s)
    (tx s) (if length s - count =? 0 then [] else scratch s).

(** [Buffer::dequeue_slice] *)
Definition dequeue_slice (s : Storage) (want : Z) : Storage * bytes :=
  let out := read_allocated s 0 want in (dequeue_allocated s (len out), out).

(** [Buffer::clear] *)
Definition clear (s : Storage) : Storage :=
  let s := if tx s then dequeue_allocated s (length s) else s in
  mkStorage ∅ 0 0 (target s) (outstanding s) (released s) (tx s) (scratch s).

(** [Buffer::window] *)
Definition window (s : Storage) : Z :=
  sat_sub (target s) (if tx s then outstanding s else length s + outstanding s).

(** [Buffer::enqueue_slice] *)
Definition enqueue_slice (s : Storage) (data : bytes) : Storage * Z :=
  let n := Z.min (Z.min (len data) (window s)) 65536 in
  ((if 0 <? n then fst (push s (ztake n data)) else s), n).

(** ** Views *)

(** The byte stored for a logical offset. *)
Definition byte_at (m : gmap Z bytes) (x : Z) : option Z :=
  match last_below (x + 1) m with
  | Some (k, b) => if x <? k + len b then zget b (x - k) else None
  | None => None
  end.

(** Blocks are not empty and do not overlap. *)
Definition disjoint_blocks (m : gmap Z bytes) : Prop :=
  (forall k b, m !! k = Some b -> 0 < len b) /\
  (forall k b k' b', m !! k = Some b -> m !! k' = Some b' -> k < k' -> k + len b <= k').

(** [l] is stored from offset [a] on. *)
Definition stored (m : gmap Z bytes) (a : Z) (l : bytes) : Prop :=
  forall i x, zget l i = Some x -> byte_at m (a + i) = Some x.

(** The representation invariant: [c] is the published sequence. *)
Record published (s : Storage) (c : bytes) : Prop := {
  pub_disjoint : disjoint_blocks (blocks s);
  pub_head : forall k b, blocks s !! k = Some b -> head s <= k;
  pub_length : length s = len c;
  pub_stored : stored (blocks s) (head s) c;
}.

(** ** Which bytes a block map holds *)

Definition cov (m : gmap Z bytes) (x v : Z) : Prop :=
  exists k b, m !! k = Some b /\ k <= x < k + len b /\ zget b (x - k) = Some v.

Lemma byte_at_cov m x v : disjoint_blocks m -> byte_at m x = Some v <-> cov m x v.
Proof.
  intros [Hne Hdis]. unfold byte_at, cov. split.
  - destruct (last_below (x + 1) m) as [[k b]|] eqn:Hl; [|done].
    apply last_below_Some in Hl as (Hk & Hlt & _). case_bool; [|done].
    intros. exists k, b. split_and!; done || lia.
  - intros (k & b & Hk & Hx & Hv). rewrite (proj2 (last_below_Some (x + 1) m k b)).
    + by case_bool; [|lia].
    + split_and!; [done|lia|]. intros k' b' Hk' Hlt. destruct (decide (k < k')); [|lia].
      specialize (Hdis k b k' b' Hk Hk'). lia.
Qed.

Lemma byte_at_ext m m' x :
  disjoint_blocks m -> disjoint_blocks m' -> (forall v, cov m' x v <-> cov m x v) ->
  byte_at m' x = byte_at m x.
Proof.
  intros Hm Hm' Hc. apply option_eq. intros v. rewrite !byte_at_cov by done. apply Hc.
Qed.

Lemma cov_fun m x v v' : disjoint_blocks m -> cov m x v -> cov m x v' -> v = v'.
Proof. intros Hm H1 H2. apply (byte_at_cov m x) in H1, H2; [congruence|done..]. Qed.

Lemma cov_delete m k b x v :
  disjoint_blocks m -> m !! k = Some b ->
  cov (delete k m) x v <-> cov m x v /\ ~ (k <= x < k + len b).
Proof.
  intros [Hne Hdis] Hk. split.
  - intros (k' & b' & [Hne' Hk']%lookup_delete_Some & Hx & Hv). split; [by exists k', b'|].
    pose proof (Hne k b Hk). pose proof (Hne k' b' Hk').
    destruct (decide (k < k')) as [Hlt|].
    + specialize (Hdis k b k' b' Hk Hk' Hlt). lia.
    + specialize (Hdis k' b' k b Hk' Hk). lia.
  - intros [(k' & b' & Hk' & Hx & Hv) Hout]. exists k', b'. split_and!; try done; try lia.
    apply lookup_delete_Some. split; [|done]. intros ->. simplify_eq. lia.
Qed.

Lemma cov_insert m k b x v :
  m !! k = None ->
  cov (<[k := b]> m) x v <-> cov m x v \/ (k <= x < k + len b /\ zget b (x - k) = Some v).
Proof.
  intros Hk. split.
  - intros (k' & b' & Hk' & Hx & Hv). apply lookup_insert_Some in Hk' as [[-> ->]|[? ?]]; [by right|].
    left. by exists k', b'.
  - intros [(k' & b' & Hk' & Hx & Hv)|[Hx Hv]].
    + exists k', b'. rewrite lookup_insert_ne; [done|]. by intros ->; simplify_eq.
    + exists k, b. by rewrite lookup_insert_eq.
Qed.

Lemma disjoint_delete m k : disjoint_blocks m -> disjoint_blocks (delete k m).
Proof.
  intros [Hne Hdis]. split.
  - intros k' b' [_ ?]%lookup_delete_Some. eauto.
  - intros k1 b1 k2 b2 [_ ?]%lookup_delete_Some [_ ?]%lookup_delete_Some. eauto.
Qed.

Lemma disjoint_insert m k b :
  disjoint_blocks m -> 0 < len b ->
  (forall k' b', m !! k' = Some b' -> k' < k -> k' + len b' <= k) ->
  (forall k' b', m !! k' = Some b' -> k <= k' -> k' = k \/ k + len b <= k') ->
  disjoint_blocks (<[k := b]> m).
Proof.
  intros [Hne Hdis] Hb Hl Hr. split.
  - intros k' b' [[-> ->]|[_ ?]]%lookup_insert_Some; eauto.
  - intros k1 b1 k2 b2 [[-> ->]|[? H1]]%lookup_insert_Some [[-> ->]|[? H2]]%lookup_insert_Some Hlt;
      eauto; [lia|]. destruct (Hr k2 b2 H2); lia.
Qed.

(** Cutting a block away from [[lo, stop)] of its range: the common step of [insert] and
    [dequeue_allocated].  The part past [stop] is kept as a block of its own. *)
Definition cut (key : Z) (old : bytes) (stop : Z) (m : gmap Z bytes) : gmap Z bytes :=
  let m := delete key m in
  if stop <? key + len old then <[stop := zdrop (stop - key) old]> m else m.

Lemma cut_spec key old stop m :
  disjoint_blocks m -> m !! key = Some old -> key < stop ->
  disjoint_blocks (cut key old stop m) /\
  (forall x v, cov (cut key old stop m) x v <-> cov m x v /\ ~ (key <= x < Z.min stop (key + len old))) /\
  (forall k b, cut key old stop m !! k = Some b ->
     (k = stop /\ stop < key + len old) \/ (k <> key /\ m !! k = Some b)).
Proof.
  intros Hm Hk Hlt. pose proof Hm as [Hne Hdis]. pose proof (Hne _ _ Hk). unfold cut.
  destruct (stop <? key + len old) eqn:Hs; zify_bool.
  - assert (Hfree : delete key m !! stop = None).
    { destruct (delete key m !! stop) as [b|] eqn:Hb; [|done].
      apply lookup_delete_Some in Hb as [? Hb]. specialize (Hdis key old stop b Hk Hb Hlt). lia. }
    split_and!.
    + apply disjoint_insert; [by apply disjoint_delete|rewrite len_zdrop; lia|..].
      * intros k' b' [Hne' Hk']%lookup_delete_Some Hlt'.
        destruct (decide (key < k')) as [Hl|]; [specialize (Hdis key old k' b' Hk Hk' Hl); lia|].
        specialize (Hdis k' b' key old Hk' Hk). lia.
      * intros k' b' [Hne' Hk']%lookup_delete_Some Hlt'. right. rewrite len_zdrop by lia.
        specialize (Hdis key old k' b' Hk Hk'). lia.
    + intros x v. rewrite cov_insert by done. rewrite (cov_delete m key old) by done.
      rewrite len_zdrop by lia. split.
      * intros [[? ?]|[Hx Hv]]; [split; [done|lia]|].
        rewrite zget_zdrop in Hv by lia. split; [|lia]. exists key, old. split_and!; try (done || lia).
        rewrite <- Hv. f_equal. lia.
      * intros [Hc Hout]. destruct (decide (key <= x < key + len old)) as [Hin|]; [|by left].
        right. split; [lia|]. rewrite zget_zdrop by lia.
        destruct (zget_is_Some old (x - key)) as [w Hw]; [lia|].
        assert (cov m x w) by (by exists key, old). rewrite (cov_fun m x v w) by done.
        rewrite <- Hw. f_equal. lia.
    + intros k b [[<- <-]|[? Hk']]%lookup_insert_Some; [left; split; [done|lia]|].
      apply lookup_delete_Some in Hk'. naive_solver.
  - split_and!.
    + by apply disjoint_delete.
    + intros x v. rewrite (cov_delete m key old) by done. by rewrite Z.min_r by lia.
    + intros k b Hk'%lookup_delete_Some. naive_solver.
Qed.

(** ** [Storage::insert] overwrites exactly its range *)

(** The state of the map between the steps of [insert]: nothing outside [[start, stop)]
    changed, and earlier blocks end before [start]. *)
Definition cleared (start stop : Z) (m m' : gmap Z bytes) : Prop :=
  disjoint_blocks m' /\
  (forall x v, ~ (start <= x < stop) -> cov m' x v <-> cov m x v) /\
  (forall k b, m' !! k = Some b -> k < start -> k + len b <= start).

Lemma split_predecessor_spec start stop m :
  disjoint_blocks m -> start < stop -> cleared start stop m (split_predecessor start stop m).
Proof.
  intros Hm Hlt. pose proof Hm as [Hne Hdis]. unfold split_predecessor.
  destruct (last_below start m) as [[key old]|] eqn:Hl.
  - apply last_below_Some in Hl as (Hk & Hks & Hmax).
    destruct (start <? key + len old) eqn:Ho; zify_bool.
    + destruct (cut_spec key old stop m Hm Hk ltac:(lia)) as (Hd & Hc & Hsub).
      fold (cut key old stop m).
      assert (Hfree : cut key old stop m !! key = None).
      { destruct (cut key old stop m !! key) as [b|] eqn:Hb; [|done].
        apply Hsub in Hb as [[? ?]|[? ?]]; [lia|done]. }
      assert (Hlen : len (ztake (start - key) old) = start - key) by (rewrite len_ztake; lia).
      split_and!.
      * apply disjoint_insert; [done|lia|..].
        -- intros k' b' [[? ?]|[? Hk']]%Hsub ?; [lia|]. exact (Hdis k' b' key old Hk' Hk ltac:(done)).
        -- intros k' b' [[? ?]|[? Hk']]%Hsub ?; [lia|]. specialize (Hdis key old k' b' Hk Hk'). lia.
      * intros x v Hx. rewrite cov_insert, Hc, Hlen by done. split.
        -- intros [[? ?]|[Hin Hv]]; [done|]. rewrite zget_ztake in Hv by lia.
           exists key, old. split_and!; done || lia.
        -- intros Hcov. destruct (decide (key <= x < start)) as [Hin|]; [|left; split; [done|lia]].
           right. split; [lia|]. rewrite zget_ztake by lia.
           destruct (zget_is_Some old (x - key)) as [w Hw]; [lia|].
           assert (Hcw : cov m x w) by (exists key, old; split_and!; done || lia).
           by rewrite (cov_fun m x v w).
      * intros k b [[<- <-]|[? Hk']]%lookup_insert_Some Hks'; [lia|].
        apply Hsub in Hk' as [[? ?]|[? Hk']]; [lia|].
        specialize (Hmax k b Hk' Hks'). specialize (Hdis k b key old Hk' Hk). lia.
    + split_and!; try done. intros k b Hk' Hks'. specialize (Hmax k b Hk' Hks').
      destruct (decide (k = key)) as [->|]; [simplify_eq; lia|].
      specialize (Hdis k b key old Hk' Hk). lia.
  - split_and!; try done. intros k b Hk Hks. pose proof (proj1 (last_below_None start m) Hl k b Hk). lia.
Qed.

(** Keys in a range of [n] offsets: at most [n] evictions happen. *)
Lemma evict_spec fuel start stop lo m0 m :
  cleared start stop m0 m -> start <= lo ->
  (forall k b, m !! k = Some b -> ~ (start <= k < lo)) ->
  (Z.to_nat (stop - lo) < fuel)%nat ->
  let m' := evict fuel start stop m in
  cleared start stop m0 m' /\ (forall k b, m' !! k = Some b -> ~ (start <= k < stop)).
Proof.
  revert lo m. induction fuel as [|fuel IH]; intros lo m Hcl Hlo Hgone Hfuel; [lia|]. simpl.
  destruct (first_in start stop m) as [[key old]|] eqn:Hf.
  - apply first_in_Some in Hf as (Hk & Hr & Hmin). destruct Hcl as (Hd & Hout & Hpre).
    destruct (cut_spec key old stop m Hd Hk ltac:(lia)) as (Hd' & Hc & Hsub).
    fold (cut key old stop m).
    assert (lo <= key) by (specialize (Hgone key old Hk); lia).
    apply (IH (key + 1)); [|lia| |lia].
    + split_and!; [done|..].
      * intros x v Hx. rewrite Hc, <- Hout by done. split; [naive_solver|]. split; [done|lia].
      * intros k b [[? ?]|[? Hk']]%Hsub ?; [lia|]. eauto.
    + intros k b [[? ?]|[? Hk']]%Hsub Hkr; [lia|].
      specialize (Hgone k b Hk'). specialize (Hmin k b Hk'). lia.
  - split; [done|]. intros k b Hk. by eapply first_in_None.
Qed.

Lemma insert_spec start b m :
  disjoint_blocks m -> 0 < len b ->
  disjoint_blocks (insert start b m) /\
  (forall x, byte_at (insert start b m) x =
     if (start <=? x) && (x <? start + len b) then zget b (x - start) else byte_at m x) /\
  (forall k b', insert start b m !! k = Some b' -> k = start \/ k < start \/ start + len b <= k).
Proof.
  intros Hm Hb. unfold insert. set (stop := start + len b).
  pose proof (split_predecessor_spec start stop m Hm ltac:(lia)) as Hcl.
  destruct (evict_spec (S (Z.to_nat (len b))) start stop start m _ Hcl) as [(Hd & Hout & Hpre) Hno];
    [lia|lia|lia|]. set (m2 := evict _ _ _ _) in *.
  assert (Hfree : m2 !! start = None).
  { destruct (m2 !! start) as [c|] eqn:Hc; [|done]. specialize (Hno _ _ Hc). lia. }
  assert (Hd' : disjoint_blocks (<[start := b]> m2)).
  { apply disjoint_insert; try done. intros k' b' Hk' ?. specialize (Hno k' b' Hk'). lia. }
  split_and!; [done| |].
  - intros x. apply option_eq. intros v. rewrite byte_at_cov, cov_insert by done.
    destruct ((start <=? x) && (x <? stop)) eqn:Hx.
    + zify_bool. split; [|intros; right; split; [lia|done]]. intros [Hcov|[_ ?]]; [|done].
      destruct Hcov as (k & c & Hk & Hkx & _). specialize (Hno k c Hk). specialize (Hpre k c Hk). lia.
    + apply andb_false_iff in Hx. rewrite byte_at_cov by done. rewrite <- (Hout x v) by lia.
      split; [|by left]. intros [?|[? ?]]; [done|lia].
  - intros k b' [[<- <-]|[? Hk]]%lookup_insert_Some; [by left|].
    specialize (Hno k b' Hk). lia.
Qed.

(** ** Stored sequences *)

Lemma stored_app m a l k : stored m a (l ++ k) <-> stored m a l /\ stored m (a + len l) k.
Proof.
  split.
  - intros H. split; intros i x Hi; pose proof (zget_Some_range _ _ _ Hi).
    + apply H. by rewrite zget_app_l by lia.
    + rewrite <- Z.add_assoc. apply H. rewrite zget_app_r by lia. rewrite <- Hi. f_equal; lia.
  - intros [Hl Hk] i x Hi. pose proof (zget_Some_range _ _ _ Hi). pose proof (len_nonneg l).
    destruct (decide (i < len l)).
    + rewrite zget_app_l in Hi by lia. by apply Hl.
    + rewrite zget_app_r in Hi by lia. specialize (Hk _ _ Hi). by rewrite <- Hk; f_equal; lia.
Qed.

Lemma stored_inj m a l k : stored m a l -> stored m a k -> len l = len k -> l = k.
Proof.
  intros Hl Hk Hlen. apply zlist_eq; [done|]. intros i Hi.
  destruct (zget_is_Some l i) as [x Hx]; [lia|]. destruct (zget_is_Some k i) as [y Hy]; [lia|].
  rewrite Hx, Hy. rewrite <- (Hl _ _ Hx). by apply Hk.
Qed.

Lemma stored_block m k b : disjoint_blocks m -> m !! k = Some b -> stored m k b.
Proof.
  intros Hm Hk i x Hi. apply byte_at_cov; [done|]. pose proof (zget_Some_range _ _ _ Hi).
  exists k, b. split_and!; try done; try lia. rewrite <- Hi. f_equal. lia.
Qed.

Lemma stored_zdrop m a l n : 0 <= n -> stored m a l -> stored m (a + n) (zdrop n l).
Proof.
  intros Hn Hl i x Hi. pose proof (zget_Some_range _ _ _ Hi).
  rewrite zget_zdrop in Hi by lia. rewrite <- Z.add_assoc. by apply Hl.
Qed.

Lemma stored_ztake m a l n : stored m a l -> stored m a (ztake n l).
Proof.
  intros Hl i x Hi. apply Hl. pose proof (zget_Some_range _ _ _ Hi) as Hr.
  destruct (decide (i < n)); [by rewrite zget_ztake in Hi by lia|].
  unfold ztake, len in Hr. rewrite length_take in Hr. lia.
Qed.

Lemma stored_frame m m' a l :
  stored m a l -> (forall x, a <= x < a + len l -> byte_at m' x = byte_at m x) -> stored m' a l.
Proof.
  intros Hl Hf i x Hi. pose proof (zget_Some_range _ _ _ Hi). rewrite Hf by lia. by apply Hl.
Qed.

(** The block found for a published position. *)
Lemma block_at s c pos :
  published s c -> head s <= pos < head s + length s ->
  exists start b, last_below (pos + 1) (blocks s) = Some (start, b) /\
    blocks s !! start = Some b /\ head s <= start <= pos /\ pos < start + len b.
Proof.
  intros [Hd Hh Hlen Hst] Hpos.
  destruct (zget_is_Some c (pos - head s)) as [x Hx]; [lia|].
  specialize (Hst _ _ Hx). replace (head s + (pos - head s)) with pos in Hst by lia.
  unfold byte_at in Hst. destruct (last_below (pos + 1) (blocks s)) as [[start b]|] eqn:Hl; [|done].
  apply last_below_Some in Hl as (Hk & Hlt & _). case_bool; [|done].
  exists start, b. specialize (Hh _ _ Hk). split_and!; done || lia.
Qed.

(** What [slice] of a block reads, as stored bytes. *)
Lemma stored_slice m k b i j :
  disjoint_blocks m -> m !! k = Some b -> 0 <= i -> stored m (k + i) (slice i j b).
Proof.
  intros Hm Hk Hi. unfold slice. apply stored_ztake, stored_zdrop; [done|]. by apply stored_block.
Qed.

Lemma get_allocated_spec s c offset size :
  published s c -> 0 <= offset -> 0 <= size ->
  exists n, get_allocated s offset size = slice offset (offset + n) c /\
    0 <= n <= size /\ offset + n <= Z.max offset (len c) /\
    (0 < size -> offset < len c -> 0 < n).
Proof.
  intros Hp Ho Hs. pose proof Hp as [Hd Hh Hlen Hst]. unfold get_allocated.
  destruct (length s <=? offset) eqn:Hl; zify_bool.
  { exists 0. rewrite Z.add_0_r. unfold slice. rewrite Z.sub_diag, ztake_0. split_and!; done || lia. }
  destruct (block_at s c (head s + offset) Hp ltac:(lia)) as (start & b & -> & Hb & Hr & Hr2).
  set (n := Z.min (len b - (head s + offset - start)) (Z.min size (length s - offset))).
  exists n. split_and!; try lia.
  replace (Z.min (len b) (head s + offset - start + Z.min size (length s - offset)))
    with (head s + offset - start + n) by lia.
  apply (stored_inj (blocks s) (head s + offset)).
  - replace (head s + offset) with (start + (head s + offset - start)) at 1 by lia.
    apply stored_slice; done || lia.
  - unfold slice. apply stored_ztake, stored_zdrop; done.
  - rewrite !len_slice by lia. lia.
Qed.

Lemma read_loop_spec fuel s c offset want :
  published s c -> 0 <= offset -> (Z.to_nat want <= fuel)%nat ->
  read_loop fuel s offset want = slice offset (offset + want) c.
Proof.
  intros Hp. revert offset want. induction fuel as [|fuel IH]; intros offset want Ho Hf.
  { simpl. unfold slice. replace (offset + want - offset) with want by lia.
    unfold ztake. by replace (Z.to_nat want) with 0%nat by lia. }
  simpl. destruct (want <=? 0) eqn:Hw; zify_bool.
  { unfold slice. replace (offset + want - offset) with want by lia.
    unfold ztake. by replace (Z.to_nat want) with 0%nat by lia. }
  destruct (get_allocated_spec s c offset want Hp Ho ltac:(lia)) as (n & -> & Hn & Hmax & Hpos).
  destruct (decide (offset < len c)) as [Hlt|Hge].
  - rewrite len_slice by lia. replace (offset + n - offset) with n by lia.
    destruct (n =? 0) eqn:Hn0; zify_bool; [lia|].
    rewrite IH by lia. unfold slice.
    replace (offset + n + (want - n) - (offset + n)) with (want - n) by lia.
    replace (offset + n - offset) with n by lia. replace (offset + want - offset) with want by lia.
    rewrite <- zdrop_zdrop, ztake_add by lia. f_equal. lia.
  - unfold slice. rewrite (zdrop_ge offset) by lia. unfold ztake. by rewrite !take_nil.
Qed.

(** ** Reading gives the published bytes *)

Lemma read_allocated_spec s c offset want :
  published s c -> 0 <= offset ->
  read_allocated s offset want = slice offset (offset + want) c.
Proof. intros Hp Ho. unfold read_allocated. by apply read_loop_spec. Qed.

Lemma get_segment_spec s c offset size s' out :
  published s c -> 0 <= offset -> 0 <= size -> get_segment s offset size = (s', out) ->
  out = slice offset (offset + size) c /\ published s' c /\ blocks s' = blocks s.
Proof.
  intros Hp Ho Hs Hg. pose proof Hp as [Hd Hh Hlen Hst]. unfold get_segment in Hg.
  set (w := Z.min size (sat_sub (length s) offset)) in *.
  assert (Hw : slice offset (offset + w) c = slice offset (offset + size) c).
  { unfold slice. replace (offset + w - offset) with w by lia. replace (offset + size - offset) with size by lia.
    destruct (decide (size <= w)); [by f_equal; lia|].
    rewrite !ztake_ge; [done|rewrite len_zdrop by lia; word_lia..]. }
  destruct (get_allocated_spec s c offset w Hp Ho ltac:(word_lia)) as (n & Hd1 & Hn & Hmax & _).
  case_bool; simplify_eq.
  - split_and!; [|by constructor|done]. rewrite Hd1, <- Hw. f_equal.
    rewrite Hd1 in Heqb. unfold slice in Heqb. replace (offset + n - offset) with n in Heqb by lia.
    rewrite len_ztake, len_zdrop in Heqb by lia. lia.
  - rewrite (read_allocated_spec s c) by done. split_and!; [done|by constructor|done].
Qed.

Lemma segments_loop_spec fuel s c from to :
  published s c -> 0 <= from -> to <= len c -> (Z.to_nat (to - from) <= fuel)%nat ->
  mjoin (segments_loop fuel (blocks s) (head s + from) (head s + to)) = slice from to c.
Proof.
  intros Hp. pose proof Hp as [Hd Hh Hlen Hst].
  revert from. induction fuel as [|fuel IH]; intros from Hf Ht Hfuel.
  { unfold slice, ztake. by replace (Z.to_nat (to - from)) with 0%nat by lia. }
  simpl. destruct (head s + to <=? head s + from) eqn:Hle; zify_bool.
  { unfold slice, ztake. by replace (Z.to_nat (to - from)) with 0%nat by lia. }
  destruct (block_at s c (head s + from) Hp ltac:(lia)) as (start & b & -> & Hb & Hr & Hr2).
  set (n := Z.min (head s + to - (head s + from)) (start + len b - (head s + from))).
  simpl. rewrite <- Z.add_assoc, IH by lia.
  replace (slice _ _ b) with (slice from (from + n) c).
  - unfold slice. replace (from + n - from) with n by lia.
    rewrite <- (zdrop_zdrop n from), ztake_add by lia. f_equal. lia.
  - symmetry. apply (stored_inj (blocks s) (head s + from)).
    + replace (head s + from) with (start + (head s + from - start)) at 1 by lia.
      apply stored_slice; done || lia.
    + unfold slice. apply stored_ztake, stored_zdrop; done.
    + rewrite !len_slice by lia. lia.
Qed.

Lemma segments_spec s c from to :
  published s c -> 0 <= from -> to <= len c -> mjoin (segments s from to) = slice from to c.
Proof. intros. unfold segments. by apply segments_loop_spec. Qed.

(** ** Consuming *)

Lemma drop_before_spec fuel stop m :
  disjoint_blocks m ->
  (size m < fuel)%nat \/ ((0 < fuel)%nat /\ forall k b, m !! k = Some b -> stop <= k) ->
  let m' := drop_before fuel stop m in
  disjoint_blocks m' /\ (forall k b, m' !! k = Some b -> stop <= k) /\
  (forall x v, cov m' x v <-> cov m x v /\ stop <= x).
Proof.
  revert m. induction fuel as [|fuel IH]; intros m Hd Hf; [lia|]. simpl.
  destruct (first_key_value m) as [[start b]|] eqn:Hfk.
  - apply first_key_value_Some in Hfk as [Hk Hmin].
    destruct (stop <=? start) eqn:Hs; zify_bool.
    + split_and!; [done| |].
      * intros k b' Hk'. specialize (Hmin k b' Hk'). lia.
      * intros x v. split; [|naive_solver]. intros Hc. split; [done|].
        destruct Hc as (k & b' & Hk' & ? & _). specialize (Hmin k b' Hk'). lia.
    + destruct Hf as [Hf|[_ Hf]]; [|specialize (Hf _ _ Hk); lia].
      destruct (cut_spec start b stop m Hd Hk ltac:(lia)) as (Hd' & Hc & Hsub).
      fold (cut start b stop m). destruct (IH (cut start b stop m) Hd') as (Hd2 & Hk2 & Hc2).
      { assert (size m <> 0)%nat by (intros H0%map_size_empty_inv; by rewrite H0 in Hk).
        assert (Hsz : size (delete start m) = Nat.pred (size m)) by (apply map_size_delete_Some; eauto).
        unfold cut. case_bool; [|left; lia].
        right. split; [lia|].
        intros k b' Hkb. assert (Hkb' : cut start b stop m !! k = Some b') by (unfold cut; by case_bool; [|lia]).
        apply Hsub in Hkb' as [[? ?]|[? Hk']]; [lia|].
        specialize (Hmin k b' Hk'). destruct Hd as [_ Hdis]. specialize (Hdis start b k b' Hk Hk'). lia. }
      split_and!; [done..|]. intros x v. rewrite Hc2, Hc. split; [naive_solver|].
      intros [? ?]. split; [split; [done|lia]|done].
  - apply first_key_value_None in Hfk as ->. split_and!; [done..|].
    intros x v. split; [|naive_solver]. intros (k & b & Hk & _). done.
Qed.

Lemma dequeue_spec s c n :
  published s c -> 0 <= n <= len c ->
  published (dequeue_allocated s n) (zdrop n c) /\
  (forall x, head s + n <= x -> byte_at (blocks (dequeue_allocated s n)) x = byte_at (blocks s) x).
Proof.
  intros [Hd Hh Hlen Hst] Hn.
  destruct (drop_before_spec (S (size (blocks s))) (head s + n) (blocks s) Hd ltac:(left; lia))
    as (Hd' & Hk' & Hc').
  assert (Hsame : forall x, head s + n <= x ->
            byte_at (blocks (dequeue_allocated s n)) x = byte_at (blocks s) x).
  { intros x Hx. apply byte_at_ext; [done..|]. intros v. simpl. rewrite Hc'. naive_solver lia. }
  split; [|done]. constructor; try done.
  - unfold dequeue_allocated; simpl. rewrite len_zdrop by lia. lia.
  - apply (stored_frame (blocks s)); [simpl; apply stored_zdrop; done || lia|].
    intros x Hx. apply Hsame. simpl in Hx. lia.
Qed.

Lemma take_spec s c s' r :
  published s c -> take s = (s', r) ->
  match r with
  | None => c = [] /\ s' = s
  | Some b => b <> [] /\ exists c', c = b ++ c' /\ published s' c' /\
      head s' = head s + len b /\ (forall x, head s' <= x -> byte_at (blocks s') x = byte_at (blocks s) x)
  end.
Proof.
  intros Hp. pose proof Hp as [Hd Hh Hlen Hst]. unfold take.
  destruct (length s =? 0) eqn:H0; zify_bool.
  { intros. simplify_eq. split; [|done]. apply len_zero. lia. }
  pose proof (len_nonneg c).
  destruct (block_at s c (head s) Hp ltac:(lia)) as (start & b & _ & Hb & Hr & Hr2).
  assert (start = head s) as -> by lia.
  destruct (first_key_value (blocks s)) as [[k b']|] eqn:Hf;
    [|apply first_key_value_None in Hf; by rewrite Hf in Hb].
  apply first_key_value_Some in Hf as [Hk Hmin].
  assert (k = head s) as -> by (specialize (Hmin _ _ Hb); specialize (Hh _ _ Hk); lia).
  assert (b' = b) as -> by congruence.
  set (n := Z.min (len b) (length s)).
  replace (n <? len b) with (head s + n <? head s + len b) by (apply eq_true_iff_eq; rewrite !Z.ltb_lt; lia).
  destruct (cut_spec (head s) b (head s + n) (blocks s) Hd Hb ltac:(lia)) as (Hd' & Hc & Hsub).
  replace (zdrop n b) with (zdrop (head s + n - head s) b) by (f_equal; lia).
  fold (cut (head s) b (head s + n) (blocks s)). intros Heq. injection Heq as <- <-.
  assert (Hcat : ztake n b = ztake n c).
  { apply (stored_inj (blocks s) (head s)); [by apply stored_ztake, stored_block|by apply stored_ztake|].
    rewrite !len_ztake by lia. lia. }
  assert (Hlb : len (ztake n b) = n) by (rewrite len_ztake; lia).
  assert (Hsame : forall x, head s + n <= x ->
     byte_at (cut (head s) b (head s + n) (blocks s)) x = byte_at (blocks s) x).
  { intros x Hx. apply byte_at_ext; [done..|]. intros v. rewrite Hc. naive_solver lia. }
  split; [intros Hnil; rewrite Hnil in Hlb; unfold len in Hlb; simpl in Hlb; lia|].
  exists (zdrop n c). split_and!; [by rewrite Hcat, ztake_zdrop| |simpl; lia|done].
  constructor; simpl; [done| |rewrite len_zdrop; lia|].
  - intros k' b' [[? ?]|[? Hk']]%Hsub; [lia|]. specialize (Hh _ _ Hk').
    destruct Hd as [_ Hdis]. specialize (Hdis (head s) b k' b' Hb Hk'). lia.
  - apply (stored_frame (blocks s)); [apply stored_zdrop; done || lia|].
    intros x Hx. apply Hsame. lia.
Qed.

Lemma write_unallocated_spec s c offset data :
  published s c -> 0 <= offset ->
  let s' := fst (write_unallocated s offset data) in
  published s' c /\ head s' = head s /\ length s' = length s /\
  forall x, byte_at (blocks s') x =
    let start := head s + length s + offset in
    if (start <=? x) && (x <? start + len data) then zget data (x - start) else byte_at (blocks s) x.
Proof.
  intros [Hd Hh Hlen Hst] Ho. unfold write_unallocated.
  destruct (len data =? 0) eqn:H0; zify_bool; simpl.
  { rewrite H0. split_and!; try done. intros x. case_bool; [lia|done]. }
  pose proof (len_nonneg data). pose proof (len_nonneg c).
  destruct (insert_spec (head s + length s + offset) data (blocks s) Hd ltac:(lia)) as (Hd' & Hb & Hk).
  split_and!; try done. constructor; simpl; [done| |done|].
  - (* a block before the new one starts where an old block started *)
    intros k b Hk'. destruct (decide (head s <= k)) as [|Hlt]; [done|exfalso].
    assert (Hkb : exists v, byte_at (insert (head s + length s + offset) data (blocks s)) k = Some v).
    { destruct (zget_is_Some b 0) as [v Hv]; [pose proof (proj1 Hd' k b Hk'); lia|].
      exists v. apply byte_at_cov; [done|]. exists k, b. pose proof (proj1 Hd' k b Hk').
      split_and!; try done; try lia. by rewrite Z.sub_diag. }
    destruct Hkb as [v Hv]. rewrite Hb in Hv. case_bool; [lia|].
    apply byte_at_cov in Hv as (k0 & b0 & Hk0 & ? & _); [|done]. specialize (Hh _ _ Hk0). lia.
  - apply (stored_frame (blocks s)); [done|]. intros x Hx. rewrite Hb. case_bool; [lia|done].
Qed.

Lemma enqueue_spec s c d :
  published s c -> stored (blocks s) (head s + length s) d ->
  published (enqueue_unallocated s (len d)) (c ++ d).
Proof.
  intros [Hd Hh Hlen Hst] Hs. constructor; simpl; try done; [len_lia|].
  apply stored_app. rewrite <- Hlen. done.
Qed.

Lemma published_new tg o r t : published (new tg o r t) [].
Proof.
  constructor; simpl; try done. intros i x Hx. by apply zget_Some_range in Hx; unfold len in Hx; simpl in Hx; lia.
Qed.

(** ** Receiving a stream *)

(** What the TCP socket knows of its receive buffer: the stream ranges of the segments it has
    written, whatever the buffer made of them.  Its assembler finds a range contiguous when each of
    its positions lies in one of them. *)
Definition assembled (ws : list (Z * Z)) (x : Z) : bool :=
  existsb (fun w => (fst w <=? x) && (x <? snd w)) ws.

Definition contiguous (ws : list (Z * Z)) (from count : Z) : bool :=
  forallb (assembled ws) (seqZ from count).

(** What the TCP socket does with a receive buffer.  A segment carries its position in the
    stream; the socket passes the offset past the published bytes.  It publishes only a
    range its assembler found contiguous. *)
Inductive rx_call :=
| Segment (position : Z) (data : bytes)       (* [write_unallocated] *)
| Publish (count : Z)                         (* [enqueue_unallocated] *)
| Take                                        (* [take] *)
| Dequeue (want : Z).                         (* [dequeue_slice] *)

(** The buffer, the ranges the socket has written to it, and what the application received. *)
Record Receiver := mkReceiver { storage : Storage; written : list (Z * Z); out : bytes }.

Definition rx_step (st : Receiver) (call : rx_call) : option Receiver :=
  let s := storage st in
  match call with
  | Segment position data =>
      let offset := position - (head s + length s) in
      if 0 <=? offset
      then Some (mkReceiver (fst (write_unallocated s offset data)) ((position, position + len data) :: written st) (out st))
      else None
  | Publish count =>
      if (0 <=? count) && contiguous (written st) (head s + length s) count
      then Some (mkReceiver (enqueue_unallocated s count) (written st) (out st)) else None
  | Take => let '(s', r) := take s in Some (mkReceiver s' (written st) (out st ++ default [] r))
  | Dequeue want =>
      if 0 <=? want then let '(s', b) := dequeue_slice s want in Some (mkReceiver s' (written st) (out st ++ b)) else None
  end.

Fixpoint rx_run (st : Receiver) (calls : list rx_call) : option Receiver :=
  match calls with
  | [] => Some st
  | call :: calls => st' ← rx_step st call; rx_run st' calls
  end.

(** How many bytes the calls publish. *)
Definition published_by (calls : list rx_call) : Z :=
  lsum (fun call => match call with Publish count => count | _ => 0 end) calls.

(** [l] is the part of the stream [D] from position [a] on. *)
Definition part_of (D : Z -> Z) (a : Z) (l : bytes) : Prop :=
  forall i x, zget l i = Some x -> x = D (a + i).

Definition segment_of (D : Z -> Z) (call : rx_call) : Prop :=
  match call with Segment position data => part_of D position data | _ => True end.

Lemma part_of_app D a l k : part_of D a (l ++ k) <-> part_of D a l /\ part_of D (a + len l) k.
Proof.
  split.
  - intros H. split; intros i x Hi; pose proof (zget_Some_range _ _ _ Hi).
    + apply H. by rewrite zget_app_l by lia.
    + rewrite <- Z.add_assoc. apply H. rewrite zget_app_r by lia. rewrite <- Hi. f_equal; lia.
  - intros [Hl Hk] i x Hi. pose proof (zget_Some_range _ _ _ Hi). destruct (decide (i < len l)).
    + rewrite zget_app_l in Hi by lia. by apply Hl.
    + rewrite zget_app_r in Hi by lia. rewrite (Hk _ _ Hi). f_equal; lia.
Qed.

(** Every stored byte is the stream's byte for its position, and no byte that was written past the
    published ones is missing. *)
Record rx_ok (D : Z -> Z) (st : Receiver) : Prop := {
  rx_published : exists c, published (storage st) c;
  rx_head : head (storage st) = len (out st);
  rx_bytes : forall x v, byte_at (blocks (storage st)) x = Some v -> v = D x;
  rx_kept : forall x, head (storage st) + length (storage st) <= x -> assembled (written st) x = true ->
    is_Some (byte_at (blocks (storage st)) x);
  rx_out : part_of D 0 (out st);
}.

Lemma stored_part_of D m a l :
  (forall x v, byte_at m x = Some v -> v = D x) -> stored m a l -> part_of D a l.
Proof. intros Hm Hs i x Hi. apply Hm. by apply Hs. Qed.

Lemma kept_stored m from count :
  0 <= count -> (forall x, from <= x < from + count -> is_Some (byte_at m x)) ->
  exists d, len d = count /\ stored m from d.
Proof.
  intros Hc Hkept. exists (default 0 ∘ byte_at m <$> seqZ from count).
  split; [unfold len; rewrite length_fmap, length_seqZ; lia|].
  intros i x Hi. pose proof (zget_Some_range _ _ _ Hi) as Hr. unfold zget in Hi.
  case_bool; [|done]. apply list_lookup_fmap_Some in Hi as (j & -> & Hj).
  apply lookup_seqZ in Hj as [-> ?]. destruct (Hkept (from + i)) as [v Hv]; [lia|].
  simpl. replace (from + Z.of_nat (Z.to_nat i)) with (from + i) by lia. by rewrite Hv.
Qed.

Lemma contiguous_assembled ws from count x :
  contiguous ws from count = true -> from <= x < from + count -> assembled ws x = true.
Proof.
  unfold contiguous. rewrite forallb_forall. intros H Hx. apply H. rewrite <- list_elem_of_In, elem_of_seqZ. lia.
Qed.

(** Consuming a published prefix extends what the application received. *)
Lemma rx_consume D st s' b c c' :
  rx_ok D st -> published (storage st) c -> c = b ++ c' -> published s' c' -> head s' = head (storage st) + len b ->
  (forall x, head s' <= x -> byte_at (blocks s') x = byte_at (blocks (storage st)) x) ->
  rx_ok D (mkReceiver s' (written st) (out st ++ b)).
Proof.
  intros [_ Hh Hb Hk Ho] Hp -> Hp' Hh' Hsame. pose proof (pub_length _ _ Hp). pose proof (pub_length _ _ Hp').
  pose proof (len_nonneg c'). constructor; cbn; [eauto|len_lia| | |].
  - intros x v Hv. destruct (decide (head s' <= x)); [apply Hb; by rewrite <- Hsame|].
    exfalso. apply byte_at_cov in Hv as (k & b0 & Hk' & ? & _); [|apply Hp'].
    pose proof (pub_head _ _ Hp' _ _ Hk'). lia.
  - intros x Hx Hw. rewrite Hsame by lia. apply Hk; [len_lia|done].
  - apply part_of_app. split; [done|]. apply (stored_part_of D (blocks (storage st))); [done|].
    rewrite Z.add_0_l, <- Hh. by apply (proj1 (stored_app _ _ b c')), Hp.
Qed.

Lemma dequeue_slice_spec s c want s' out :
  published s c -> 0 <= want -> dequeue_slice s want = (s', out) ->
  exists c', c = out ++ c' /\ published s' c' /\ head s' = head s + len out /\
    (forall x, head s' <= x -> byte_at (blocks s') x = byte_at (blocks s) x).
Proof.
  intros Hp Hw Hs. unfold dequeue_slice in Hs. rewrite (read_allocated_spec s c) in Hs by done.
  unfold slice in Hs. rewrite Z.add_0_l, Z.sub_0_r, zdrop_0 in Hs.
  injection Hs as <- <-. exists (zdrop (len (ztake want c)) c).
  assert (Hl : 0 <= len (ztake want c) <= len c) by (rewrite len_ztake by lia; len_lia).
  destruct (dequeue_spec s c _ Hp Hl) as [Hp' Hsame]. split_and!; [|done..].
  rewrite len_ztake by lia. destruct (decide (want <= len c)).
  - rewrite Z.min_l by lia. by rewrite ztake_zdrop.
  - rewrite Z.min_r by lia. by rewrite (ztake_ge want), zdrop_ge, app_nil_r by lia.
Qed.

Lemma rx_step_ok D st call st' :
  rx_ok D st -> segment_of D call -> rx_step st call = Some st' -> rx_ok D st'.
Proof.
  intros Hok Hseg Hstep. pose proof Hok as [[c Hp] Hh Hb Hk Ho]. destruct call as [pos data|n| |want]; cbn [rx_step] in Hstep.
  - case_bool; simplify_eq. destruct (write_unallocated_spec (storage st) c _ data Hp Heqb) as (Hp' & Hh' & Hl' & Hbytes).
    replace (head (storage st) + length (storage st) + (pos - (head (storage st) + length (storage st)))) with pos in Hbytes by lia.
    constructor; cbn [storage written out]; eauto; [congruence| |].
    + intros x v. rewrite Hbytes. simpl. case_bool; [|apply Hb]. intros Hv. rewrite (Hseg _ _ Hv). f_equal; lia.
    + intros x Hx Hw. rewrite Hbytes. simpl. case_bool; [apply zget_is_Some; lia|].
      rewrite Hh', Hl' in Hx. apply Hk; [done|]. unfold assembled in Hw. cbn in Hw. apply orb_true_iff in Hw as [Hw|Hw]; [lia|done].
  - case_bool; simplify_eq.
    destruct (kept_stored (blocks (storage st)) (head (storage st) + length (storage st)) n) as (d & <- & Hd); [done|..].
    { intros x Hx. apply Hk; [lia|]. by eapply contiguous_assembled. }
    constructor; simpl; eauto using enqueue_spec. intros x Hx. pose proof (len_nonneg d). apply Hk. lia.
  - destruct (take (storage st)) as [s1 [b|]] eqn:Ht; simplify_eq/=; eapply take_spec in Ht; eauto.
    + destruct Ht as (_ & c' & ? & ? & ? & ?). eauto using rx_consume.
    + destruct Ht as [_ ->]. rewrite app_nil_r. by destruct st.
  - case_bool; [|done]. destruct (dequeue_slice (storage st) want) as [s1 b] eqn:Hd. simplify_eq.
    destruct (dequeue_slice_spec _ _ _ _ _ Hp Heqb Hd) as (c' & ? & ? & ? & ?). eauto using rx_consume.
Qed.

(** Each call moves bytes from the published ones to the application, and only [Publish] adds some. *)
Lemma rx_step_count D st call st' :
  rx_ok D st -> segment_of D call -> rx_step st call = Some st' ->
  len (out st') + length (storage st') = len (out st) + length (storage st) + match call with Publish count => count | _ => 0 end.
Proof.
  intros [[c Hp] Hh Hb Hk Ho] Hseg Hstep. pose proof (pub_length _ _ Hp) as Hlen. destruct call as [pos data|n| |want]; cbn [rx_step] in Hstep.
  - case_bool; simplify_eq. destruct (write_unallocated_spec (storage st) c _ data Hp Heqb) as (_ & _ & Hl' & _). cbn. lia.
  - case_bool; simplify_eq. cbn. lia.
  - destruct (take (storage st)) as [s1 [b|]] eqn:Ht; simplify_eq/=; eapply take_spec in Ht; eauto.
    + destruct Ht as (_ & c' & -> & Hp' & _). pose proof (pub_length _ _ Hp'). len_lia.
    + destruct Ht as [_ ->]. rewrite app_nil_r. lia.
  - case_bool; [|done]. destruct (dequeue_slice (storage st) want) as [s1 b] eqn:Hd. simplify_eq.
    destruct (dequeue_slice_spec _ _ _ _ _ Hp Heqb Hd) as (c' & -> & Hp' & _). pose proof (pub_length _ _ Hp'). cbn. len_lia.
Qed.

Lemma rx_run_ok D calls st st' :
  rx_ok D st -> Forall (segment_of D) calls -> rx_run st calls = Some st' ->
  rx_ok D st' /\ len (out st') + length (storage st') = len (out st) + length (storage st) + published_by calls.
Proof.
  revert st. induction calls as [|call calls IH]; intros st Hok Hseg Hrun.
  { simplify_eq/=. split; [done|]. unfold published_by. cbn. lia. }
  apply Forall_cons in Hseg as [? ?]. cbn [rx_run] in Hrun.
  destruct (rx_step st call) as [st1|] eqn:Hs; simpl in Hrun; [|done].
  pose proof (rx_step_count D st call st1 Hok ltac:(done) Hs). destruct (IH st1) as [? Hc]; eauto using rx_step_ok.
  split; [done|]. rewrite Hc, H1. change (published_by (call :: calls)) with (match call with Publish count => count | _ => 0 end + published_by calls). lia.
Qed.

(** ** Transmitting *)

Inductive tx_call :=
| Push (b : bytes)                            (* the application submits a block *)
| Ack (count : Z).                            (* [dequeue_allocated] *)

Definition tx_step (s : Storage) (call : tx_call) : option Storage :=
  match call with
  | Push b => Some (fst (push s b))
  | Ack count => if (0 <=? count) && (count <=? length s) then Some (dequeue_allocated s count) else None
  end.

Fixpoint tx_run (s : Storage) (calls : list tx_call) : option Storage :=
  match calls with
  | [] => Some s
  | call :: calls => s' ← tx_step s call; tx_run s' calls
  end.

Definition submitted (calls : list tx_call) : bytes :=
  mjoin ((fun c => match c with Push b => b | Ack _ => [] end) <$> calls).
Definition acked (calls : list tx_call) : Z :=
  lsum (fun c => match c with Push _ => 0 | Ack n => n end) calls.

Definition no_tail (s : Storage) : Prop :=
  forall k b, blocks s !! k = Some b -> k + len b <= head s + length s.

Lemma push_spec s c b :
  published s c -> no_tail s ->
  published (fst (push s b)) (c ++ b) /\ no_tail (fst (push s b)) /\
  outstanding (fst (push s b)) = outstanding s /\ released (fst (push s b)) = released s /\
  tx (fst (push s b)) = tx s.
Proof.
  intros Hp Ht. pose proof Hp as [Hd Hh Hlen Hst]. unfold push.
  destruct (len b =? 0) eqn:H0; zify_bool; simpl.
  { apply len_zero in H0 as ->. by rewrite app_nil_r. }
  pose proof (len_nonneg b). pose proof (len_nonneg c). set (k0 := head s + length s).
  assert (Hfree : blocks s !! k0 = None).
  { destruct (blocks s !! k0) as [b0|] eqn:Hb; [|done]. specialize (Ht _ _ Hb).
    pose proof (proj1 Hd _ _ Hb). lia. }
  assert (Hd' : disjoint_blocks (<[k0 := b]> (blocks s))).
  { apply disjoint_insert; [done|lia|..]; intros k' b' Hk' ?; specialize (Ht _ _ Hk');
      pose proof (proj1 Hd _ _ Hk'); lia. }
  split_and!; try done.
  - constructor; simpl; [done| |len_lia|].
    + intros k b' [[<- _]|[_ Hk]]%lookup_insert_Some; [lia|eauto].
    + apply stored_app. split.
      * apply (stored_frame (blocks s)); [done|]. intros x Hx. apply byte_at_ext; [done..|].
        intros v. rewrite cov_insert by done. split; [|auto]. intros [?|[? _]]; [done|lia].
      * rewrite <- Hlen. apply stored_block; [done|]. apply lookup_insert_eq.
  - unfold no_tail; simpl. intros k b' [[<- <-]|[_ Hk]]%lookup_insert_Some; [lia|].
    specialize (Ht _ _ Hk). lia.
Qed.

Lemma no_tail_dequeue s c n :
  published s c -> no_tail s -> 0 <= n <= len c -> no_tail (dequeue_allocated s n).
Proof.
  intros Hp Ht Hn. pose proof Hp as [Hd Hh Hlen Hst].
  destruct (dequeue_spec s c n Hp Hn) as [[Hd' _ _ _] Hsame].
  intros k b Hk. simpl. pose proof (proj1 Hd' _ _ Hk).
  assert (Hlast : exists v, byte_at (blocks (dequeue_allocated s n)) (k + len b - 1) = Some v).
  { destruct (zget_is_Some b (len b - 1)) as [v Hv]; [lia|]. exists v. apply byte_at_cov; [done|].
    exists k, b. split_and!; try done; try lia. rewrite <- Hv. f_equal. lia. }
  destruct Hlast as [v Hv].
  assert (head s + n <= k) by (exact (pub_head _ _ (proj1 (dequeue_spec s c n Hp Hn)) _ _ Hk)).
  rewrite Hsame in Hv by lia. apply byte_at_cov in Hv as (k0 & b0 & Hk0 & ? & _); [|done].
  specialize (Ht _ _ Hk0). lia.
Qed.

Lemma tx_step_spec s c call s' :
  published s c -> no_tail s -> tx_step s call = Some s' -> tx s = true ->
  acked [call] <= outstanding s -> is_usize (outstanding s) -> 0 <= released s ->
  released s + acked [call] <= usize_max ->
  published s' (zdrop (acked [call]) (c ++ submitted [call])) /\ no_tail s' /\ tx s' = true /\
  outstanding s' = outstanding s - acked [call] /\ released s' = released s + acked [call] /\
  0 <= acked [call] <= len c.
Proof.
  intros Hp Ht Hstep Htx Ho Hu Hr Hr'. pose proof (len_nonneg c). pose proof (pub_length _ _ Hp).
  unfold acked, submitted in *. destruct call as [b|n]; simpl in *.
  - rewrite app_nil_r, zdrop_0. destruct (push_spec s c b Hp Ht) as (? & ? & Ho' & Hr'' & Htx').
    simplify_eq/=. rewrite Ho', Hr'', Htx'. split_and!; try done; lia.
  - rewrite app_nil_r, Z.add_0_r in *. case_bool; simplify_eq.
    destruct (dequeue_spec s c n Hp) as [Hp' _]; [lia|].
    split_and!; try done; [by eapply no_tail_dequeue; eauto; lia|..]; simpl; rewrite ?Htx; simpl; try lia.
    + destruct (n =? 0) eqn:?; zify_bool; simpl; [lia|]; unfold wrap_sub; rewrite Z.mod_small; word_lia.
    + destruct (n =? 0) eqn:?; zify_bool; simpl; [lia|]; unfold wrap_add; rewrite Z.mod_small; word_lia.
Qed.

Lemma tx_run_spec calls s c s' :
  published s c -> no_tail s -> tx_run s calls = Some s' -> tx s = true ->
  acked calls <= outstanding s -> is_usize (outstanding s) -> 0 <= released s ->
  released s + acked calls <= usize_max ->
  published s' (zdrop (acked calls) (c ++ submitted calls)) /\ no_tail s' /\ tx s' = true /\
  outstanding s' = outstanding s - acked calls /\ released s' = released s + acked calls /\
  0 <= acked calls <= len c + len (submitted calls).
Proof.
  revert s c. induction calls as [|call calls IH]; intros s c Hp Ht Hrun Htx Ho Hu Hr Hr'.
  { simplify_eq/=. unfold acked, submitted in *; simpl. rewrite app_nil_r, zdrop_0.
    pose proof (len_nonneg c). split_and!; try done; unfold len; simpl; lia. }
  cbn [tx_run] in Hrun. destruct (tx_step s call) as [s1|] eqn:Hstep; [|done]. simpl in Hrun.
  assert (Hsplit : acked (call :: calls) = acked [call] + acked calls) by (unfold acked; simpl; lia).
  assert (Hsub : submitted (call :: calls) = submitted [call] ++ submitted calls).
  { unfold submitted; simpl. by rewrite app_nil_r. }
  assert (Hpos : forall cs s0 s2, tx_run s0 cs = Some s2 -> 0 <= acked cs).
  { clear. induction cs as [|cl cs IHcs]; intros s0 s2 Hr; [done|]. cbn [tx_run] in Hr.
    destruct (tx_step s0 cl) as [s1|] eqn:Hs; [|done]. simpl in Hr. specialize (IHcs _ _ Hr).
    unfold acked in *; simpl. destruct cl; simpl in *; [lia|]. case_bool; [lia|done]. }
  specialize (Hpos _ _ _ Hrun). rewrite Hsplit, Hsub in *.
  destruct (tx_step_spec s c call s1) as (Hp1 & Ht1 & Htx1 & Ho1 & Hr1 & Hb1); try done; try lia.
  destruct (IH s1 _ Hp1 Ht1 Hrun) as (Hp2 & ? & ? & ? & ? & Hb2); try done; try word_lia.
  pose proof (len_nonneg (submitted [call])).
  rewrite len_zdrop, len_app in Hb2 by len_lia.
  rewrite app_assoc, <- zdrop_zdrop by lia. rewrite (zdrop_app_le _ (c ++ submitted [call])) by len_lia.
  split_and!; try done; try len_lia.
Qed.

(** Each round of the scan covers one block, as each round of [segments] does. *)
Lemma segment_scan_spec n s c pos stop fuel :
  published s c -> 0 <= pos <= stop -> stop <= len c ->
  pos <= segment_scan n s pos stop <= stop /\
  ((0 < n)%nat -> pos < stop -> pos < segment_scan n s pos stop) /\
  (List.length (segments_loop fuel (blocks s) (head s + pos)
     (head s + segment_scan n s pos stop)) <= n)%nat.
Proof.
  intros Hp. pose proof Hp as [Hd Hh Hlen Hst].
  revert pos fuel. induction n as [|n IH]; intros pos fuel Hpos Hstop; simpl.
  { split_and!; [lia..|]. destruct fuel; simpl; [lia|]. by rewrite Z.leb_refl. }
  destruct (pos =? stop) eqn:He; zify_bool.
  { split_and!; [lia..|]. destruct fuel; simpl; [lia|]. rewrite Z.leb_refl. simpl. lia. }
  destruct (block_at s c (head s + pos) Hp ltac:(lia)) as (start & b & Hb & Hk & Hr & Hr2).
  set (m := Z.min (stop - pos) (start + len b - (head s + pos))).
  assert (Hg : len (get_allocated s pos (stop - pos)) = m).
  { unfold get_allocated. case_bool; [lia|]. rewrite Hb. rewrite len_slice by lia. lia. }
  rewrite Hg. destruct (IH (pos + m) (pred fuel) ltac:(lia) Hstop) as (H1 & H2 & H3).
  split_and!; [lia..|]. destruct fuel as [|fuel]; simpl; [lia|].
  case_bool; [simpl; lia|]. rewrite Hb. simpl in *. apply le_n_S.
  replace (Z.min (head s + segment_scan n s (pos + m) stop - (head s + pos)) _) with m.
  - by rewrite <- Z.add_assoc.
  - destruct (decide (m = stop - pos)) as [Hm|]; [|lia].
    replace (pos + m) with stop by lia. destruct n; simpl; rewrite ?Z.eqb_refl; lia.
Qed.

(** ** Properties *)

(** C3. Receiving.  Segments of one stream arrive in any order, overlapping, duplicated, or beyond
    holes; the socket publishes ranges that it has written, going by its own record of the segments;
    the application takes whole blocks or copies into its own buffers.  No written byte is lost: what
    the application received is exactly the stream from its start, what is published continues it
    without a gap and can be read, both together are as many bytes as the socket published, and every
    byte written beyond them is stored with its value. *)
Theorem receive_reassembles_stream (D : Z -> Z) tg o r calls st :
  Forall (segment_of D) calls -> rx_run (mkReceiver (new tg o r false) [] []) calls = Some st ->
  let s := storage st in
  part_of D 0 (out st) /\ head s = len (out st) /\ len (out st) + length s = published_by calls /\
  (exists c, published s c /\ len c = length s /\ part_of D (len (out st)) c /\ read_allocated s 0 (length s) = c) /\
  (forall x, head s + length s <= x -> assembled (written st) x = true -> byte_at (blocks s) x = Some (D x)).
Proof.
  intros Hseg Hrun s.
  destruct (rx_run_ok D calls (mkReceiver (new tg o r false) [] []) st) as [[[c Hp] Hh Hb Hk Ho] Hcount]; try done.
  { constructor; simpl; [by eexists; apply published_new|done|done|done|].
    intros i x Hi. apply zget_Some_range in Hi. unfold len in Hi; simpl in Hi. lia. }
  pose proof (pub_length _ _ Hp) as Hlen. split_and!; try done.
  - exists c. split_and!; try done.
    + rewrite <- Hh. apply (stored_part_of D (blocks s)); [done|]. apply Hp.
    + rewrite (read_allocated_spec s c) by done. unfold slice. rewrite zdrop_0. apply ztake_ge. unfold s. lia.
  - intros x Hx Hw. destruct (Hk x Hx Hw) as [v Hv]. unfold s. rewrite Hv. by rewrite (Hb x v Hv).
Qed.

Definition demo_stream (x : Z) : Z := 97 + x.
Definition demo_rx : list rx_call :=
  [ Segment 10 [107; 108; 109; 110; 111; 112]; Segment 2 [99; 100; 101; 102; 103];
    Segment 8 [105; 106; 107; 108; 109]; Segment 0 [97; 98; 99; 100];
    Publish 7; Dequeue 3; Segment 7 [104]; Take; Publish 9; Take; Dequeue 2 ].

Lemma receive_reassembles_stream_witness :
  exists st, rx_run (mkReceiver (new 131072 0 0 false) [] []) demo_rx = Some st /\
    len (out st) = 9 /\ part_of demo_stream 0 (out st).
Proof.
  eexists. split; [vm_compute; reflexivity|]. split; [reflexivity|].
  refine (proj1 (receive_reassembles_stream demo_stream 131072 0 0 demo_rx _ _ _)).
  - repeat constructor; intros i x Hi; pose proof (zget_Some_range _ _ _ Hi) as Hr; unfold len in Hr;
      simpl in Hr; unfold demo_stream;
      (assert (i = 0 \/ i = 1 \/ i = 2 \/ i = 3 \/ i = 4 \/ i = 5) by lia);
      destruct_or?; subst; try lia; by injection Hi.
  - vm_compute. reflexivity.
Defined.

(** A write past the published bytes changes exactly the bytes of its own range, whatever
    blocks it overlaps, splits or swallows, and nothing that is already published. *)
Theorem write_overlays_exactly s c offset data :
  published s c -> 0 <= offset ->
  let s' := fst (write_unallocated s offset data) in
  published s' c /\ read_allocated s' 0 (length s) = c /\
  forall x, byte_at (blocks s') x =
    let start := head s + length s + offset in
    if (start <=? x) && (x <? start + len data) then zget data (x - start) else byte_at (blocks s) x.
Proof.
  intros Hp Ho s'. destruct (write_unallocated_spec s c offset data Hp Ho) as (Hp' & _ & _ & Hb).
  split_and!; try done. unfold s'. rewrite (read_allocated_spec _ c) by done.
  unfold slice. rewrite zdrop_0. apply ztake_ge. rewrite (pub_length _ _ Hp). lia.
Qed.

Lemma write_overlays_exactly_witness :
  let s := fst (write_unallocated (new 131072 0 0 false) 4 [5; 6; 7; 8]) in
  byte_at (blocks (fst (write_unallocated s 2 [1; 2; 3]))) 4 = Some 3 /\
  byte_at (blocks (fst (write_unallocated s 2 [1; 2; 3]))) 5 = Some 6.
Proof.
  set (s := fst (write_unallocated (new 131072 0 0 false) 4 [5; 6; 7; 8])).
  assert (Hs : published s []).
  { apply (write_unallocated_spec (new 131072 0 0 false) [] 4 [5; 6; 7; 8]); [apply published_new|lia]. }
  destruct (write_overlays_exactly s [] 2 [1; 2; 3] Hs ltac:(lia)) as (_ & _ & Hb).
  intros s0. unfold s0. fold s. rewrite !Hb. split; vm_compute; reflexivity.
Defined.

(** Transmitting.  After any sequence of submitted blocks and acknowledgements, every way
    the socket reads the buffer (a borrowed or gathered segment, a copy, a list of views) gives
    the submitted bytes at that offset past the acknowledged ones, independently of block
    boundaries; and the acknowledged bytes are exactly the send credit given back. *)
Theorem transmit_reads_submitted_bytes tg o r calls s offset size :
  tx_run (new tg o r true) calls = Some s -> is_usize o -> 0 <= r ->
  acked calls <= o -> r + acked calls <= usize_max -> 0 <= offset -> 0 <= size ->
  let c := zdrop (acked calls) (submitted calls) in
  snd (get_segment s offset size) = slice offset (offset + size) c /\
  read_allocated s offset size = slice offset (offset + size) c /\
  (offset + size <= length s -> mjoin (segments s offset (offset + size)) = slice offset (offset + size) c) /\
  length s = len c /\ outstanding s = o - acked calls /\ released s = r + acked calls.
Proof.
  intros Hrun Hu Hr Ho Hr' Hoff Hsize c.
  destruct (tx_run_spec calls (new tg o r true) [] s) as (Hp & _ & _ & Hout & Hrel & _); try done.
  { apply published_new. }
  simpl in Hp. fold c in Hp. destruct (get_segment s offset size) as [s1 out] eqn:Hg.
  destruct (get_segment_spec _ _ _ _ _ _ Hp Hoff Hsize Hg) as (-> & _ & _).
  split_and!; try done.
  - by apply read_allocated_spec.
  - intros. apply segments_spec; try done. rewrite <- (pub_length _ _ Hp). done.
  - by apply pub_length.
Qed.

Definition demo_tx : list tx_call := [Push [1; 2; 3; 4]; Push []; Push [5; 6; 7]; Ack 2; Push [8; 9]; Ack 3].

Lemma transmit_reads_submitted_bytes_witness :
  exists s, tx_run (new 4096 9 0 true) demo_tx = Some s /\
    snd (get_segment s 1 3) = [7; 8; 9] /\ outstanding s = 4.
Proof.
  eexists. split; [vm_compute; reflexivity|].
  edestruct (transmit_reads_submitted_bytes 4096 9 0 demo_tx) with (offset := 1) (size := 3)
    as (Hg & _ & _ & _ & Ho & _);
    [vm_compute; reflexivity|vm_compute; split; discriminate|lia|vm_compute; discriminate
    |vm_compute; discriminate|lia|lia|].
  split; [exact Hg|exact Ho].
Defined.

(** One write descriptor list never has more than 64 payload vectors: the length
    [segment_len] offers spans at most 64 blocks, stays inside the request and the published
    bytes, and makes progress whenever there is something to send. *)
Theorem segment_len_bounds_vectors s c offset size :
  published s c -> 0 <= offset <= len c -> 0 <= size ->
  let n := segment_len s offset size in
  0 <= n <= size /\ offset + n <= len c /\ (0 < size -> offset < len c -> 0 < n) /\
  (List.length (segments s offset (offset + n)) <= 64)%nat /\
  mjoin (segments s offset (offset + n)) = slice offset (offset + n) c.
Proof.
  intros Hp Hoff Hsize n. pose proof (pub_length _ _ Hp) as Hlen.
  set (stop := offset + Z.min size (sat_sub (length s) offset)) in *.
  destruct (segment_scan_spec 64 s c offset stop (Z.to_nat (offset + n - offset)) Hp)
    as (H1 & H2 & H3); [unfold stop; word_lia..|].
  assert (Hn : offset + n = segment_scan 64 s offset stop) by (unfold n, segment_len; fold stop; lia).
  assert (Hs : stop <= len c) by (unfold stop; word_lia).
  rewrite <- Hn in H1, H2, H3. split_and!; try (unfold stop in *; word_lia).
  - unfold segments. exact H3.
  - apply segments_spec; done || lia.
Qed.

Lemma segment_len_bounds_vectors_witness :
  let s := fst (push (fst (push (new 4096 9 0 true) [1; 2; 3])) [4; 5]) in
  segment_len s 1 9 = 4 /\ (List.length (segments s 1 (1 + segment_len s 1 9)) <= 64)%nat.
Proof.
  set (s := fst (push (fst (push (new 4096 9 0 true) [1; 2; 3])) [4; 5])).
  assert (Hs : published s ([] ++ [1; 2; 3] ++ [4; 5])).
  { destruct (push_spec (new 4096 9 0 true) [] [1; 2; 3]) as (Hp & Hn & _);
      [apply published_new|intros k b Hk; simpl in Hk; by rewrite lookup_empty in Hk|].
    rewrite app_assoc. by apply push_spec. }
  intros s0. unfold s0. fold s. split; [vm_compute; reflexivity|].
  apply (segment_len_bounds_vectors s _ 1 9 Hs); [vm_compute; split; discriminate|lia].
Defined.

End TcpStorage.
