(* ===== verification/Reassembly.v ===== *)
(** * Shared accounting of incomplete datagrams (crates/tun/src/reassembly.rs)

    Workers lease memory for incomplete IP datagrams from one shared allowance, guarded by a
    mutex, so every method is one atomic step. *)

From S2P Require Import Prelude Capacity.

Module Reassembly.

(** [State] under the mutex, with the number of times [pressure] was signalled. *)
Record Limits := mkLimits {
  used : Z;
  capacity : Capacity.t;
  pressure : Z;
}.

(** [Limits::new] and [Limits::default] *)
Definition new (initial now : Z) : Limits := mkLimits 0 (Capacity.new initial now) 0.
Definition default_limits (now : Z) : Limits := new (4 * Capacity.INITIAL_BYTES) now.

(** [Limits::needs_headroom] *)
Definition needs_headroom (l : Limits) (now : Z) : Limits * bool :=
  let '(c, target) := Capacity.target (capacity l) now in
  (mkLimits (used l) c (pressure l), target - target `div` 4 <? used l).

(** [Lease::resize] of a lease of [held] bytes.  The target is read only when the lease
    grows, and a refused growth signals pressure. *)
Definition resize (l : Limits) (held bytes now : Z) : Limits * Z * bool :=
  let rest := wrap_sub (used l) held in
  match checked_add rest bytes with
  | None => (l, held, false)
  | Some total =>
      if held <? bytes then
        let '(c, target) := Capacity.target (capacity l) now in
        if target <? total then (mkLimits (used l) c (pressure l + 1), held, false)
        else (mkLimits total c (pressure l), bytes, true)
      else (mkLimits total (capacity l) (pressure l), bytes, true)
  end.

(** [Drop for Lease] *)
Definition drop (l : Limits) (held : Z) : Limits :=
  mkLimits (wrap_sub (used l) held) (capacity l) (pressure l).

(** [Limits::reserve]: a refused lease is dropped with the nothing it holds. *)
Definition reserve (l : Limits) (bytes now : Z) : Limits * option Z :=
  let '(l, held, admitted) := resize l 0 bytes now in
  if admitted then (l, Some held) else (drop l held, None).

(** [Lease::complete] *)
Definition complete (l : Limits) (held now : Z) : Limits :=
  mkLimits (used l) (Capacity.complete (capacity l) held now) (pressure l).

(** ** Workers sharing one allowance *)

(** The leases that exist, and as history the bytes of the datagrams completed. *)
Record machine := mkMachine {
  limits : Limits;
  leases : gmap nat Z;
  completed : Z;
}.

Inductive action :=
| Reserve (i : nat) (bytes now : Z)
| Resize (i : nat) (bytes now : Z)
| Complete (i : nat) (now : Z)
| Drop (i : nat)
| NeedsHeadroom (now : Z).

Definition step (m : machine) (a : action) : option machine :=
  match a with
  | Reserve i bytes now =>
      match leases m !! i with
      | Some _ => None
      | None =>
          if (0 <=? bytes) && (bytes <=? usize_max) then
            let '(l, lease) := reserve (limits m) bytes now in
            Some (mkMachine l (match lease with Some b => <[i := b]> (leases m) | None => leases m end)
                    (completed m))
          else None
      end
  | Resize i bytes now =>
      held ← leases m !! i;
      if (0 <=? bytes) && (bytes <=? usize_max) then
        let '(l, held, _) := resize (limits m) held bytes now in
        Some (mkMachine l (<[i := held]> (leases m)) (completed m))
      else None
  | Complete i now =>
      held ← leases m !! i;
      Some (mkMachine (complete (limits m) held now) (leases m) (completed m + held))
  | Drop i =>
      held ← leases m !! i;
      Some (mkMachine (drop (limits m) held) (delete i (leases m)) (completed m))
  | NeedsHeadroom now => Some (mkMachine (fst (needs_headroom (limits m) now)) (leases m) (completed m))
  end.

Fixpoint run (m : machine) (acts : list action) : option machine :=
  match acts with
  | [] => Some m
  | a :: acts => m' ← step m a; run m' acts
  end.

Definition start (initial now : Z) : machine := mkMachine (new initial now) ∅ 0.

(** ** Invariant *)

Record Inv (init : Z) (m : machine) : Prop := {
  inv_used : used (limits m) = msum id (leases m);
  inv_leases : forall i b, leases m !! i = Some b -> 0 <= b;
  inv_word : used (limits m) <= usize_max;
  inv_paid : Capacity.paid init (completed m) (capacity (limits m));
  inv_bound : used (limits m) <= Z.max init (Capacity.credit (completed m));
}.

(** What one resize does, on every branch. *)
Lemma resize_spec l held bytes now :
  0 <= held <= used l -> used l <= usize_max -> 0 <= bytes ->
  let total := used l - held + bytes in
  let target := snd (Capacity.target (capacity l) now) in
  resize l held bytes now =
  if usize_max <? total then (l, held, false)
  else if bytes <=? held then (mkLimits total (capacity l) (pressure l), bytes, true)
  else let c := fst (Capacity.target (capacity l) now) in
       if total <=? target then (mkLimits total c (pressure l), bytes, true)
       else (mkLimits (used l) c (pressure l + 1), held, false).
Proof.
  intros Hh Hu Hb total target. unfold resize, wrap_sub.
  rewrite Z.mod_small by (unfold usize_max in *; lia). unfold checked_add. fold total.
  destruct (Capacity.target (capacity l) now) as [c tg] eqn:Ht. simpl in target.
  repeat case_bool; try lia; try done.
Qed.

Lemma resize_conserves l held bytes now l' h ok :
  0 <= held <= used l -> used l <= usize_max -> 0 <= bytes -> resize l held bytes now = (l', h, ok) ->
  used l' = used l - held + h /\ used l' <= usize_max /\ h = (if ok then bytes else held) /\
  (bytes <= held -> ok = true).
Proof.
  intros Hh Hu Hb. rewrite resize_spec by done.
  destruct (usize_max <? _) eqn:?, (bytes <=? held) eqn:?,
    (used l - held + bytes <=? snd (Capacity.target (capacity l) now)) eqn:?; zify_bool;
    intros [= <- <- <-]; simpl; lia.
Qed.

(** Growth within the initial allowance is always admitted. *)
Lemma resize_within l held bytes now init :
  Capacity.wf (capacity l) -> Capacity.initial (capacity l) = init -> 0 <= held <= used l -> 0 <= bytes ->
  used l <= usize_max -> used l - held + bytes <= init ->
  exists c, resize l held bytes now = (mkLimits (used l - held + bytes) c (pressure l), bytes, true) /\
    Capacity.wf c /\ Capacity.initial c = init.
Proof.
  intros Hwf Hi Hh Hb Hu Hfit. rewrite resize_spec by done.
  pose proof (Capacity.target_wf _ now Hwf) as Hwf'. pose proof (Capacity.target_initial (capacity l) now).
  rewrite Capacity.target_snd. destruct Hwf' as (? & ? & ?) eqn:He. destruct Hwf as (? & ? & ?).
  repeat case_bool; try lia; eexists; split_and!; try done; congruence.
Qed.

(** A dropped lease gives back what it held. *)
Lemma drop_used l held : 0 <= held <= used l -> used l <= usize_max -> used (drop l held) = used l - held.
Proof. intros. simpl. unfold wrap_sub. rewrite Z.mod_small; [done|]. unfold usize_max in *. lia. Qed.

Lemma drops_used leases l :
  (forall h, h ∈ leases -> 0 <= h) -> lsum id leases <= used l -> used l <= usize_max ->
  used (foldl drop l leases) = used l - lsum id leases.
Proof.
  revert l. induction leases as [|h hs IH]; cbn [foldl lsum foldr]; intros l Hpos Hsum Hu; [lia|].
  pose proof (Hpos h ltac:(set_solver)). assert (0 <= lsum id hs) by (apply lsum_nonneg; set_solver).
  change (foldr _ 0 hs) with (lsum id hs) in *. unfold id at 1 in Hsum.
  pose proof (drop_used l h ltac:(lia) ltac:(lia)) as Hd.
  rewrite IH; rewrite ?Hd; [unfold id at 2; lia|set_solver|lia|lia].
Qed.

Lemma used_nonneg init m : Inv init m -> 0 <= used (limits m).
Proof. intros [-> Hl _ _ _]. by apply msum_nonneg. Qed.

Lemma held_le_used init m i b : Inv init m -> leases m !! i = Some b -> 0 <= b <= used (limits m).
Proof.
  intros [-> Hl _ _ _] Hi. pose proof (msum_le_lookup id _ i b Hl Hi). specialize (Hl _ _ Hi).
  unfold id in *. lia.
Qed.

(** Growing or shrinking one lease, with the allowance read or not. *)
Lemma inv_resized init m i held bytes now l h ok :
  Inv init m -> from_option id 0 (leases m !! i) = held -> 0 <= bytes ->
  resize (limits m) held bytes now = (l, h, ok) ->
  Inv init (mkMachine l (<[i := h]> (leases m)) (completed m)) /\
  (ok = false -> h = held /\ used l = used (limits m)).
Proof.
  intros Hinv Hi Hb. pose proof (used_nonneg _ _ Hinv).
  assert (Hh : 0 <= held <= used (limits m)).
  { destruct (leases m !! i) eqn:Hl; simpl in Hi; subst; [by eapply held_le_used|lia]. }
  pose proof Hinv as [Hu Hl Hw Hp Hbd]. rewrite resize_spec by done.
  assert (Hsum : forall h, msum id (<[i := h]> (leases m)) = used (limits m) - held + h).
  { intros x. destruct (leases m !! i) as [y|] eqn:Hi'; simpl in Hi; [change y with (id y) in Hi'; rewrite Hi in Hi'|rewrite <- Hi]; rewrite Hu.
    - rewrite (msum_update id _ i held) by done. unfold id; lia.
    - rewrite msum_insert by done. unfold id; lia. }
  assert (Hpos : forall h, 0 <= h -> forall j b, <[i := h]> (leases m) !! j = Some b -> 0 <= b).
  { intros x Hx j b [[_ <-]|[_ ?]]%lookup_insert_Some; eauto. }
  pose proof (Capacity.paid_read _ _ _ now Hp) as Hp'. pose proof (Capacity.paid_target _ _ _ Hp').
  rewrite Capacity.target_snd. repeat case_bool; intros [= <- <- <-];
    (split; [constructor; simpl; rewrite ?Hsum; try (apply Hpos; lia); auto; try lia|try done]).
Qed.

Lemma limits_inv_start init now : 0 <= init <= usize_max -> Inv init (start init now).
Proof.
  intros Hi. constructor; simpl; rewrite ?msum_empty; try done; try word_lia.
  by apply Capacity.paid_new.
Qed.

Lemma limits_inv_step init m a m' : Inv init m -> step m a = Some m' -> Inv init m'.
Proof.
  intros Hinv Hstep. pose proof (used_nonneg _ _ Hinv). pose proof Hinv as [Hu Hl Hw Hp Hbd].
  destruct a as [i bytes now|i bytes now|i now|i|now]; simpl in Hstep.
  - destruct (leases m !! i) eqn:Hi; [done|]. case_bool; [|done]. unfold reserve in Hstep.
    destruct (resize (limits m) 0 bytes now) as [[l h] ok] eqn:Hr.
    destruct (inv_resized init m i 0 bytes now l h ok) as [[Hu' Hl' Hw' Hp' Hb'] Hno]; try done; [by rewrite Hi|].
    destruct ok; simplify_eq; [by constructor|]. destruct (Hno eq_refl) as [-> Hsame].
    assert (Hd : used (drop l 0) = used (limits m)).
    { simpl. unfold wrap_sub. rewrite Z.sub_0_r, Z.mod_small; [done|]. rewrite Hsame. word_lia. }
    constructor; cbn [limits leases completed]; rewrite ?Hd; done.
  - destruct (leases m !! i) as [held|] eqn:Hi; [|done]. simpl in Hstep. case_bool; [|done].
    destruct (resize (limits m) held bytes now) as [[l h] ok] eqn:Hr. simplify_eq.
    apply (inv_resized init m i held bytes now l h ok); try done. by rewrite Hi.
  - destruct (leases m !! i) as [held|] eqn:Hi; simplify_eq/=.
    pose proof (held_le_used _ _ _ _ Hinv Hi). pose proof (Capacity.credit_mono (completed m) (completed m + held)).
    constructor; simpl; try done; [apply Capacity.paid_complete; done || lia|lia].
  - destruct (leases m !! i) as [held|] eqn:Hi; simplify_eq/=.
    pose proof (held_le_used _ _ _ _ Hinv Hi).
    constructor; simpl; unfold wrap_sub; rewrite ?Z.mod_small by (unfold usize_max in *; lia); try done; try lia.
    + rewrite (msum_delete id _ i held Hi). unfold id in *. lia.
    + intros j b [? ?]%lookup_delete_Some. eauto.
  - unfold needs_headroom in Hstep. destruct (Capacity.target _ now) as [c tg] eqn:Ht. simplify_eq/=.
    constructor; simpl; try done. change c with (fst (c, tg)). rewrite <- Ht. by apply Capacity.paid_read.
Qed.

Lemma limits_inv_run init acts m m' : Inv init m -> run m acts = Some m' -> Inv init m'.
Proof.
  revert m. induction acts as [|a acts IH]; intros m Hinv Hrun; simpl in Hrun; [by simplify_eq|].
  destruct (step m a) eqn:Hs; [|done]. eauto using limits_inv_step.
Qed.

(** ** Properties *)

(** However workers reserve, resize, complete and drop their leases, the shared counter
    is exactly the sum of the leases that exist and never underflows, and the memory leased
    stays within the larger of the initial allowance and the consumption-paid credit of the
    datagrams actually completed: expired or malformed traffic cannot raise it. *)
Theorem reassembly_memory_bounded init now acts m :
  0 <= init <= usize_max -> run (start init now) acts = Some m ->
  used (limits m) = msum id (leases m) /\
  (forall i b, leases m !! i = Some b -> 0 <= b <= used (limits m)) /\
  0 <= used (limits m) <= Z.max init (Capacity.credit (completed m)).
Proof.
  intros Hi Hrun. pose proof (limits_inv_run _ _ _ _ (limits_inv_start _ now Hi) Hrun) as Hinv.
  pose proof (used_nonneg _ _ Hinv). destruct Hinv as [? ? ? ? ?] eqn:He.
  split_and!; try done. intros i b Hb. by eapply held_le_used.
Qed.

Definition demo_actions : list action :=
  [Reserve 0 60000 0; Reserve 1 60000 1; Reserve 2 20000 2; Resize 1 1000 3; Reserve 2 20000 4;
   Complete 0 5; Drop 0; NeedsHeadroom 6].

Lemma reassembly_memory_bounded_witness :
  exists m, run (start Capacity.INITIAL_BYTES 0) demo_actions = Some m /\
    used (limits m) = 21000 /\ pressure (limits m) = 1 /\
    0 <= used (limits m) <= Z.max Capacity.INITIAL_BYTES (Capacity.credit (completed m)).
Proof.
  eexists. split; [vm_compute; reflexivity|]. do 2 (split; [reflexivity|]).
  eapply (reassembly_memory_bounded Capacity.INITIAL_BYTES 0 demo_actions);
    [vm_compute; split; discriminate|vm_compute; reflexivity].
Defined.

(** Admission of one resize: shrinking always succeeds; growing succeeds exactly when the
    new total fits the current target, and a growth refused for the target changes no
    accounting and signals pressure to the other workers exactly once. *)
Theorem resize_admission l held bytes now :
  0 <= held <= used l -> used l <= usize_max -> 0 <= bytes ->
  let '(l', held', ok) := resize l held bytes now in
  (bytes <= held -> ok = true) /\
  (held < bytes -> used l - held + bytes <= usize_max ->
     (ok = true <-> used l - held + bytes <= snd (Capacity.target (capacity l) now)) /\
     pressure l' = if ok then pressure l else pressure l + 1) /\
  used l' = used l - held + held' /\ held' = if ok then bytes else held.
Proof.
  intros Hh Hu Hb. rewrite resize_spec by done.
  repeat case_bool; split_and!; try done; simpl; try lia.
  all: intros; split; try done; try lia; split; done || lia.
Qed.

Lemma resize_admission_witness :
  let '(l', held', ok) := resize (new 100 0) 0 101 5 in ok = false /\ pressure l' = 1 /\ held' = 0.
Proof.
  pose proof (resize_admission (new 100 0) 0 101 5 ltac:(simpl; lia) ltac:(simpl; word_lia) ltac:(lia)) as H.
  destruct (resize (new 100 0) 0 101 5) as [[l' h'] ok] eqn:He. destruct H as (_ & H & _ & Hh).
  destruct (H ltac:(lia) ltac:(simpl; word_lia)) as [Hok Hp].
  destruct ok; [|done]. exfalso. destruct (proj1 Hok eq_refl). reflexivity.
Defined.

End Reassembly.
