(* ===== verification/Packet.v ===== *)
(** * IP validation and routing keys (crates/tun/src/packet.rs)

    [parse] validates one IP packet before any transport state is allocated.  The header
    accessors are smoltcp's: they are the class [Wire], with what the code relies on as its
    laws.  [IpProtocol] values are their protocol numbers, addresses 32- and 128-bit words. *)

From S2P Require Import Prelude.

Module Packet.

(** ** Addresses and protocols *)

(** [smoltcp::wire::IpAddress] *)
Inductive IpAddress := Ipv4 (a : Z) | Ipv6 (a : Z).

#[export] Instance IpAddress_eq_dec : EqDecision IpAddress.
Proof. solve_decision. Defined.

#[export] Instance IpAddress_countable : Countable IpAddress.
Proof.
  refine (inj_countable' (fun x => match x with Ipv4 a => inl a | Ipv6 a => inr a end)
                         (fun s => match s with inl a => Ipv4 a | inr a => Ipv6 a end) _).
  by intros [].
Defined.

(** Protocol numbers ([IpProtocol]). *)
Definition HopByHop : Z := 0.
Definition Tcp : Z := 6.
Definition Udp : Z := 17.
Definition Ipv6Frag : Z := 44.
Definition Icmpv6 : Z := 58.
Definition Ipv6Opts : Z := 60.

(** The octet [octets()[i]] of a 32-bit address. *)
Definition octet (i a : Z) : Z := Z.land (Z.shiftr a (8 * (3 - i))) 255.

(** [Ipv4Addr::is_multicast] is 224.0.0.0/4; [Ipv6Addr::is_multicast] is ff00::/8;
    [Ipv6Addr::to_ipv4_mapped] recognises ::ffff:0:0/96. *)
Definition ipv4_is_multicast (a : Z) : bool := (224 <=? octet 0 a) && (octet 0 a <=? 239).
Definition ipv4_is_broadcast (a : Z) : bool := a =? 2 ^ 32 - 1.
Definition ipv6_is_multicast (a : Z) : bool := Z.shiftr a 120 =? 255.
Definition to_ipv4_mapped (a : Z) : option Z :=
  if Z.shiftr a 32 =? 65535 then Some (Z.land a (2 ^ 32 - 1)) else None.

Definition unicast (address : IpAddress) : bool :=
  match address with
  | Ipv4 ip =>
      negb (ip =? 0) && negb (ipv4_is_multicast ip) && negb (ipv4_is_broadcast ip)
      && negb (octet 0 ip =? 0) && (octet 0 ip <? 240)
  | Ipv6 ip =>
      negb (ip =? 0) && negb (ipv6_is_multicast ip) && bool_decide (to_ipv4_mapped ip = None)
  end.

(** ** IPv4 options *)

(** The fuel is the number of option bytes: every round consumes at least one. *)
Fixpoint ipv4_options_loop (fuel : nat) (options : bytes) : bool :=
  match fuel, options with
  | _, [] => true
  | O, _ => true
  | S fuel, kind :: rest =>
      if kind =? 0 then true
      else if kind =? 1 then ipv4_options_loop fuel rest
      else if (kind =? 131) || (kind =? 137) then false
      else match rest with
           | [] => false
           | n :: _ =>
               if (n <? 2) || (len options <? n) then false
               else ipv4_options_loop fuel (zdrop n options)
           end
  end.

Definition ipv4_options (options : bytes) : bool := ipv4_options_loop (length options) options.

(** ** Packets *)

Inductive Family := V4 | V6.

#[export] Instance Family_eq_dec : EqDecision Family.
Proof. solve_decision. Defined.

(** [IpRepr] *)
Record IpRepr := mkIp {
  family : Family;
  src : Z;
  dst : Z;
  next_header : Z;
  payload_len : Z;
  hop_limit : Z;
}.

Definition address (f : Family) (a : Z) : IpAddress := match f with V4 => Ipv4 a | V6 => Ipv6 a end.
Definition src_addr (ip : IpRepr) : IpAddress := address (family ip) (src ip).
Definition dst_addr (ip : IpRepr) : IpAddress := address (family ip) (dst ip).

(** [Fragment] *)
Record Fragment := mkFragment { id : Z; offset : Z; more : bool; prefix_len : Z }.

(** [FragmentKey] *)
Record FragmentKey := mkKey {
  ipv4_protocol : option Z;
  key_source : IpAddress;
  key_destination : IpAddress;
  key_id : Z;
}.

#[export] Instance FragmentKey_eq_dec : EqDecision FragmentKey.
Proof. solve_decision. Defined.

#[export] Instance FragmentKey_countable : Countable FragmentKey.
Proof.
  refine (inj_countable' (fun k => (ipv4_protocol k, key_source k, key_destination k, key_id k))
                         (fun '(p, s, d, i) => mkKey p s d i) _).
  by intros [].
Defined.

(** [Flow]: socket addresses are an address and a port. *)
Record Flow := mkFlow { source : IpAddress * Z; destination : IpAddress * Z }.

(** [RouteKey] *)
Inductive RouteKey := RFlow (protocol : Z) (flow : Flow) | RFragment (key : FragmentKey).

(** [Parsed]: the payload is the view of the packet that starts at byte [start]. *)
Record Parsed := mkParsed { ip : IpRepr; start : Z; payload : bytes; fragment : option Fragment }.

(** An IPv6 extension header: [Ipv6ExtHeader] and its [Ipv6ExtHeaderRepr]. *)
Record ExtHeader := mkExt { ext_next : Z; ext_data : bytes; ext_header_len : Z }.

(** [Ipv6OptionFailureType], and the type of an unknown option. *)
Inductive Ipv6Option := Pad | Unknown (type_ : Z).

(** What the decoder uses of [smoltcp::wire]. *)
Class Wire := {
  of_packet : bytes -> option Family;                 (* [IpVersion::of_packet] *)
  ipv4_new_checked : bytes -> bool;                   (* [Ipv4Packet::new_checked] and accessors *)
  ipv4_version : bytes -> Z;
  ipv4_verify_checksum : bytes -> bool;
  ipv4_header_len : bytes -> Z;
  ipv4_total_len : bytes -> Z;                        (* where [payload()] ends *)
  ipv4_next_header : bytes -> Z;
  ipv4_hop_limit : bytes -> Z;
  ipv4_src : bytes -> Z;
  ipv4_dst : bytes -> Z;
  ipv4_ident : bytes -> Z;
  ipv4_more_frags : bytes -> bool;
  ipv4_frag_offset : bytes -> Z;                      (* in bytes *)
  ipv6_new_checked : bytes -> bool;                   (* [Ipv6Packet::new_checked] *)
  ipv6_parse : bytes -> option IpRepr;                (* [Ipv6Repr::parse] *)
  ipv6_payload_len : bytes -> Z;
  ext_parse : bytes -> option ExtHeader;              (* [Ipv6ExtHeader], [Ipv6ExtHeaderRepr] *)
  ext_options : bytes -> option (list Ipv6Option);    (* [Ipv6OptionsIterator], [None] on an error *)
  skips_unknown : Z -> bool;                          (* [Ipv6OptionFailureType::from(t) == Skip] *)
  frag_parse : bytes -> option (Z * bool * Z);        (* [Ipv6FragmentRepr]: offset, more, ident *)
}.

(** The documented results of the checked constructors and accessors. *)
Class WireLaws `{Wire} := {
  ipv4_checked : forall d, ipv4_new_checked d = true ->
    20 <= ipv4_header_len d <= 60 /\ ipv4_header_len d <= ipv4_total_len d <= len d;
  ipv4_offset_range : forall d, 0 <= ipv4_frag_offset d <= 65528 /\ ipv4_frag_offset d `mod` 8 = 0;
  ipv6_checked : forall d, ipv6_new_checked d = true ->
    0 <= ipv6_payload_len d <= 65535 /\ 40 + ipv6_payload_len d <= len d;
  ipv6_family : forall d r, ipv6_parse d = Some r -> family r = V6;
  ext_fits : forall d h, ext_parse d = Some h ->
    0 < ext_header_len h + len (ext_data h) <= len d;
  frag_offset_range : forall d o m i, frag_parse d = Some (o, m, i) -> 0 <= o <= 8191;
}.

Section parse.
Context `{Wire}.

(** [Ipv6OptionsIterator] loop: an unknown option must be of the kind to skip. *)
Definition options_accepted (data : bytes) : bool :=
  match ext_options data with
  | None => false
  | Some os => forallb (fun o => match o with Unknown t => skips_unknown t | Pad => true end) os
  end.

(** [ipv6_extensions], with the rounds left of its eight. *)
Fixpoint ipv6_chain (rounds : nat) (index initial_len protocol : Z) (payload : bytes) :
  option (Z * bytes * option Fragment) :=
  match rounds with
  | O => None
  | S rounds =>
      if (protocol =? HopByHop) || (protocol =? Ipv6Opts) then
        if (protocol =? HopByHop) && negb (index =? 0) then None else
        h ← ext_parse payload;
        if options_accepted (ext_data h) then
          ipv6_chain rounds (index + 1) initial_len (ext_next h)
            (zdrop (ext_header_len h + len (ext_data h)) payload)
        else None
      else if protocol =? Ipv6Frag then
        if len payload <? 8 then None else
        '(o, m, i) ← frag_parse (slice 2 8 payload);
        p ← zget payload 0;
        if (p =? Tcp) || (p =? Udp) || (p =? Icmpv6) then
          let off := o * 8 in
          Some (p, zdrop 8 payload,
                if negb (off =? 0) || m then Some (mkFragment i off m (initial_len - len payload))
                else None)
        else None
      else if (protocol =? Tcp) || (protocol =? Udp) || (protocol =? Icmpv6) then
        Some (protocol, payload, None)
      else None
  end.

Definition ipv6_extensions (protocol : Z) (payload : bytes) : option (Z * bytes * option Fragment) :=
  ipv6_chain 8 0 (len payload) protocol payload.

Definition parse_ipv4 (data : bytes) : option Parsed :=
  if negb (ipv4_new_checked data) then None else
  if negb (ipv4_version data =? 4) || negb (ipv4_verify_checksum data) then None else
  let payload := slice (ipv4_header_len data) (ipv4_total_len data) data in
  let repr := mkIp V4 (ipv4_src data) (ipv4_dst data) (ipv4_next_header data) (len payload)
                (ipv4_hop_limit data) in
  if negb (ipv4_options (slice 20 (ipv4_header_len data) data)) then None else
  let fragment :=
    if ipv4_more_frags data || negb (ipv4_frag_offset data =? 0)
    then Some (mkFragment (ipv4_ident data) (ipv4_frag_offset data) (ipv4_more_frags data)
                 (ipv4_header_len data))
    else None in
  match fragment with
  | Some f =>
      if (len payload =? 0) || (65515 <? offset f + len payload)
         || (more f && negb (len payload `mod` 8 =? 0)) then None
      else Some (mkParsed repr (ipv4_header_len data) payload fragment)
  | None => Some (mkParsed repr (ipv4_header_len data) payload None)
  end.

Definition parse_ipv6 (data : bytes) : option Parsed :=
  if negb (ipv6_new_checked data) then None else
  repr ← ipv6_parse data;
  let all := slice 40 (40 + ipv6_payload_len data) data in
  '(protocol, payload, fragment) ← ipv6_extensions (next_header repr) all;
  Some (mkParsed (mkIp V6 (src repr) (dst repr) protocol (len payload) (hop_limit repr))
          (40 + (len all - len payload)) payload fragment).

Definition parse (data : bytes) : option Parsed :=
  if len data =? 0 then None else
  family ← of_packet data;
  p ← match family with V4 => parse_ipv4 data | V6 => parse_ipv6 data end;
  if negb (unicast (src_addr (ip p))) || negb (unicast (dst_addr (ip p))) || (hop_limit (ip p) =? 0)
  then None else Some p.

(** [offload_transport]: the difference of the two slices' addresses is [start]. *)
Definition offload_transport (data : bytes) : option (Z * Z) :=
  p ← parse data;
  match fragment p with Some _ => None | None => Some (next_header (ip p), start p) end.
End parse.

(** [Parsed::fragment_key] *)
Definition fragment_key (p : Parsed) : option FragmentKey :=
  f ← fragment p;
  Some (mkKey (match family (ip p) with V4 => Some (next_header (ip p)) | V6 => None end)
          (src_addr (ip p)) (dst_addr (ip p)) (id f)).

(** [Parsed::first_route] *)
Definition first_route (p : Parsed) : option RouteKey :=
  if match fragment p with Some f => negb (offset f =? 0) | None => false end then None else
  if negb ((next_header (ip p) =? Tcp) || (next_header (ip p) =? Udp)) then None else
  match payload p with
  | s0 :: s1 :: d0 :: d1 :: _ =>
      let destination := d0 * 256 + d1 in
      if destination =? 0 then None
      else Some (RFlow (next_header (ip p))
                  (mkFlow (src_addr (ip p), s0 * 256 + s1) (dst_addr (ip p), destination)))
  | _ => None
  end.

(** [Parsed::route] *)
Definition route (p : Parsed) : option RouteKey :=
  match fragment_key p with Some k => Some (RFragment k) | None => first_route p end.

(** ** Reference definitions *)

(** The option lists RFC 791 allows, without the two source-route options. *)
Inductive plain_options : bytes -> Prop :=
| options_empty : plain_options []
| options_end rest : plain_options (0 :: rest)
| options_nop rest : plain_options rest -> plain_options (1 :: rest)
| options_option kind n body rest :
    kind <> 0 -> kind <> 1 -> kind <> 131 -> kind <> 137 -> n = 2 + len body ->
    plain_options rest -> plain_options (kind :: n :: body ++ rest).

(** ** Lemmas *)

Lemma octet0 a : 0 <= a < 2 ^ 32 -> octet 0 a = a `div` 2 ^ 24.
Proof.
  intros Ha. unfold octet. rewrite Z.shiftr_div_pow2 by lia. change 255 with (Z.ones 8).
  rewrite Z.land_ones by lia. apply Z.mod_small. split; [apply Z.div_pos; lia|].
  apply Z.div_lt_upper_bound; lia.
Qed.

(** A word's leading bits, as a range. *)
Lemma shiftr_eq_range a n k : 0 <= n -> Z.shiftr a n = k <-> k * 2 ^ n <= a < (k + 1) * 2 ^ n.
Proof.
  intros Hn. rewrite Z.shiftr_div_pow2 by lia. pose proof (Z.pow_pos_nonneg 2 n ltac:(lia) Hn).
  split.
  - intros <-. pose proof (Z.div_mod a (2 ^ n) ltac:(lia)). pose proof (Z.mod_pos_bound a (2 ^ n)). nia.
  - intros Ha. symmetry. apply Z.div_unique with (r := a - k * 2 ^ n); nia.
Qed.

Lemma ipv4_options_spec fuel options :
  (length options <= fuel)%nat -> ipv4_options_loop fuel options = true <-> plain_options options.
Proof.
  revert options. induction fuel as [|fuel IH]; intros [|kind rest] Hf; simpl in *; try lia.
  { split; [constructor|done]. }
  { split; [constructor|done]. }
  destruct (kind =? 0) eqn:H0; zify_bool; [subst; split; [constructor|done]|].
  destruct (kind =? 1) eqn:H1; zify_bool.
  { subst. rewrite IH by lia. split; [by constructor|]. by inversion 1. }
  destruct ((kind =? 131) || (kind =? 137)) eqn:H2; zify_bool.
  { apply orb_true_iff in H2. split; [done|]. inversion 1; subst; destruct H2; zify_bool; lia. }
  destruct rest as [|n rest]; [split; [done|]; by inversion 1|].
  destruct ((n <? 2) || (len (kind :: n :: rest) <? n)) eqn:H3; zify_bool.
  { split; [done|]. inversion 1; subst; try lia. exfalso.
    apply orb_true_iff in H3 as [?|?]; zify_bool; len_lia. }
  replace (zdrop n (kind :: n :: rest)) with (zdrop (n - 2) rest)
    by (unfold zdrop; replace (Z.to_nat n) with (S (S (Z.to_nat (n - 2)))) by lia; done).
  rewrite IH by (unfold zdrop; rewrite length_drop; simpl in Hf; lia).
  split.
  - intros Hr. rewrite <- (ztake_zdrop (n - 2) rest) at 1. apply options_option; try done.
    rewrite len_ztake by lia. len_lia.
  - inversion 1; subst; try lia. by rewrite zdrop_app_exact by lia.
Qed.

(** Every view the chain returns is a suffix of the one it was given. *)
Lemma ipv6_chain_spec `{WireLaws} rounds index initial_len protocol payload p rest f :
  len payload <= initial_len -> ipv6_chain rounds index initial_len protocol payload = Some (p, rest, f) ->
  (exists k, 0 <= k <= len payload /\ rest = zdrop k payload) /\
  (p = Tcp \/ p = Udp \/ p = Icmpv6) /\
  match f with
  | None => True
  | Some f => 0 <= offset f <= 65528 /\ offset f `mod` 8 = 0 /\ 0 <= prefix_len f <= initial_len /\
              prefix_len f + 8 + len rest = initial_len
  end.
Proof.
  revert index protocol payload. induction rounds as [|rounds IH]; intros index protocol payload Hl Hc; [done|].
  simpl in Hc. pose proof (len_nonneg payload).
  destruct ((protocol =? HopByHop) || (protocol =? Ipv6Opts)).
  - case_bool; [done|]. destruct (ext_parse payload) as [h|] eqn:Hh; [|done]. simpl in Hc.
    apply ext_fits in Hh. case_bool; [|done].
    set (n := ext_header_len h + len (ext_data h)) in *.
    assert (Hn : len (zdrop n payload) = len payload - n) by (rewrite len_zdrop; lia).
    assert (Hle : len (zdrop n payload) <= initial_len) by lia.
    destruct (IH _ _ _ Hle Hc) as ((k & Hk & ->) & Hp & Hf).
    split_and!; try done. exists (n + k). rewrite zdrop_zdrop by lia. split; [lia|done].
  - case_bool.
    + destruct (len payload <? 8) eqn:H8; zify_bool; [done|].
      destruct (frag_parse _) as [[[o m] i]|] eqn:Ho; [|done].
      destruct (zget payload 0) as [q|] eqn:Hq; [|done]. cbn in Hc.
      destruct ((q =? Tcp) || _ || _) eqn:Hprot; [|done]. simplify_eq.
      assert (Hd : len (zdrop 8 payload) = len payload - 8) by (rewrite len_zdrop; lia).
      split_and!.
      * exists 8. split; [lia|done].
      * rewrite !orb_true_iff, !Z.eqb_eq in Hprot. tauto.
      * case_bool; [|done]. apply frag_offset_range in Ho. simpl. rewrite Z.mod_mul by lia. lia.
    + destruct ((protocol =? Tcp) || _ || _) eqn:Hprot; [|done]. simplify_eq. split_and!; try done.
      * exists 0. split; [lia|]. by rewrite zdrop_0.
      * rewrite !orb_true_iff, !Z.eqb_eq in Hprot. tauto.
Qed.

Lemma slice_zdrop {A} (l : list A) a b k :
  0 <= a <= b -> b <= len l -> 0 <= k <= b - a -> zdrop k (slice a b l) = slice (a + k) b l.
Proof.
  intros. apply zlist_eq; [rewrite len_zdrop, !len_slice by lia; lia|].
  intros i Hi. rewrite len_zdrop, len_slice in Hi by lia.
  rewrite zget_zdrop, !zget_slice by lia. f_equal. lia.
Qed.

(** What [parse] guarantees of the fragment it found. *)
Definition fragment_ok (p : Parsed) : Prop :=
  match fragment p with
  | None => True
  | Some f =>
      (0 <= offset f <= 65528 /\ offset f `mod` 8 = 0 /\ 0 <= prefix_len f <= 65535) /\
      (family (ip p) = V4 ->
       0 < len (payload p) /\ offset f + len (payload p) <= 65515 /\
       (more f = true -> len (payload p) `mod` 8 = 0))
  end.

(** What [parse] guarantees of the payload: the view [start ..] of the packet. *)
Definition payload_ok (data : bytes) (p : Parsed) : Prop :=
  0 <= start p /\ start p + len (payload p) <= len data /\
  payload p = slice (start p) (start p + len (payload p)) data /\ payload_len (ip p) = len (payload p).

Lemma parse_ipv4_spec `{WireLaws} data p :
  parse_ipv4 data = Some p ->
  family (ip p) = V4 /\ payload_ok data p /\ fragment_ok p /\
  plain_options (slice 20 (ipv4_header_len data) data).
Proof.
  unfold parse_ipv4. intros Hp. do 3 (case_bool; [done|]).
  destruct (ipv4_checked data) as [Hh Ht]; [done|]. pose proof (ipv4_offset_range data) as [Ho Hm].
  assert (Hopt : plain_options (slice 20 (ipv4_header_len data) data)) by (by eapply ipv4_options_spec).
  set (pl := slice (ipv4_header_len data) (ipv4_total_len data) data) in *.
  assert (Hl : len pl = ipv4_total_len data - ipv4_header_len data) by (apply len_slice; lia).
  assert (Hpay : pl = slice (ipv4_header_len data) (ipv4_header_len data + len pl) data).
  { rewrite Hl. unfold pl. f_equal. lia. }
  assert (Hmain : forall f, match f with
      | Some f => 0 <= offset f <= 65528 /\ offset f `mod` 8 = 0 /\ 0 <= prefix_len f <= 65535 /\
                  0 < len pl /\ offset f + len pl <= 65515 /\ (more f = true -> len pl `mod` 8 = 0)
      | None => True end ->
    p = mkParsed (mkIp V4 (ipv4_src data) (ipv4_dst data) (ipv4_next_header data) (len pl)
                    (ipv4_hop_limit data)) (ipv4_header_len data) pl f ->
    family (ip p) = V4 /\ payload_ok data p /\ fragment_ok p /\
    plain_options (slice 20 (ipv4_header_len data) data)).
  { intros f Hf ->. unfold payload_ok, fragment_ok; simpl. split_and!; try done; try lia.
    destruct f; [tauto|done]. }
  case_hyp Hp; [|by eapply (Hmain None); [done|simplify_eq]].
  case_bool; [done|]. pose proof (len_nonneg pl).
  eapply Hmain; [|by injection Hp as <-]. case_bool; simplify_eq; simpl in *.
  split_and!; try done; try lia. intros Hmore. rewrite Hmore in *. simpl in *. zify_bool. done.
Qed.

Lemma parse_ipv6_spec `{WireLaws} data p :
  parse_ipv6 data = Some p -> family (ip p) = V6 /\ payload_ok data p /\ fragment_ok p.
Proof.
  unfold parse_ipv6. intros Hp. case_bool; [done|].
  destruct (ipv6_checked data) as [Hn Ht]; [done|].
  destruct (ipv6_parse data) as [r|] eqn:Hr; [|done]. simpl in Hp.
  set (all := slice 40 (40 + ipv6_payload_len data) data) in *.
  assert (Hl : len all = ipv6_payload_len data) by (unfold all; rewrite len_slice; lia).
  destruct (ipv6_extensions (next_header r) all) as [[[q rest] f]|] eqn:Hx; [|done].
  cbn in Hp. injection Hp as <-.
  apply ipv6_chain_spec in Hx as ((k & Hk & ->) & _ & Hf); [|lia].
  assert (Hd : len (zdrop k all) = len all - k) by (rewrite len_zdrop; lia).
  unfold payload_ok, fragment_ok; simpl. split_and!; try done; try lia.
  - rewrite Hd. unfold all at 1. rewrite slice_zdrop by lia. f_equal; lia.
  - destruct f as [f|]; [|done]. split; [|done]. destruct Hf as (? & ? & ? & ?). lia.
Qed.

(** ** Header accessors of the RFCs *)

(** The byte and big-endian fields of a header. *)
Definition byte (d : bytes) (i : Z) : Z := Z.land (default 0 (zget d i)) 255.
Definition be16 (d : bytes) (i : Z) : Z := byte d i * 256 + byte d (i + 1).
Definition be32 (d : bytes) (i : Z) : Z := be16 d i * 65536 + be16 d (i + 2).
Definition be128 (d : bytes) (i : Z) : Z :=
  foldl (fun acc k => acc * 256 + byte d (i + k)) 0 (seqZ 0 16).

(** RFC 1071: the ones'-complement sum of the header's words. *)
Definition header_sum (d : bytes) (n : Z) : Z :=
  let s := foldl (fun acc k => acc + be16 d (2 * k)) 0 (seqZ 0 (n `div` 2)) in
  let s := s `mod` 65536 + s `div` 65536 in s `mod` 65536 + s `div` 65536.

(** Pad1, or a type-length-value option. *)
Fixpoint read_options (fuel : nat) (d : bytes) : option (list Ipv6Option) :=
  match fuel, d with
  | _, [] => Some []
  | O, _ => None
  | S fuel, t :: rest =>
      if t =? 0 then cons Pad <$> read_options fuel rest else
      match rest with
      | [] => None
      | n :: rest =>
          if (n <? 0) || (len rest <? n) then None
          else cons (if t =? 1 then Pad else Unknown t) <$> read_options fuel (zdrop n rest)
      end
  end.

(** The header formats of RFC 791 and RFC 8200. *)
#[export] Instance rfc_wire : Wire := {|
  of_packet d := let v := byte d 0 `div` 16 in if v =? 4 then Some V4 else if v =? 6 then Some V6 else None;
  ipv4_new_checked d :=
    (20 <=? len d) && (20 <=? 4 * Z.land (byte d 0) 15) &&
    (4 * Z.land (byte d 0) 15 <=? be16 d 2) && (be16 d 2 <=? len d);
  ipv4_version d := byte d 0 `div` 16;
  ipv4_verify_checksum d := header_sum d (4 * Z.land (byte d 0) 15) =? 65535;
  ipv4_header_len d := 4 * Z.land (byte d 0) 15;
  ipv4_total_len d := be16 d 2;
  ipv4_next_header d := byte d 9;
  ipv4_hop_limit d := byte d 8;
  ipv4_src d := be32 d 12;
  ipv4_dst d := be32 d 16;
  ipv4_ident d := be16 d 4;
  ipv4_more_frags d := Z.testbit (be16 d 6) 13;
  ipv4_frag_offset d := Z.land (be16 d 6) 8191 * 8;
  ipv6_new_checked d := 40 + Z.land (be16 d 4) 65535 <=? len d;
  ipv6_parse d := Some (mkIp V6 (be128 d 8) (be128 d 24) (byte d 6) (be16 d 4) (byte d 7));
  ipv6_payload_len d := Z.land (be16 d 4) 65535;
  ext_parse d := let n := 8 * (1 + byte d 1) in
    if n <=? len d then Some (mkExt (byte d 0) (slice 2 n d) 2) else None;
  ext_options d := read_options (length d) d;
  skips_unknown t := Z.shiftr t 6 =? 0;
  frag_parse d := Some (Z.land (Z.shiftr (be16 d 0) 3) 8191, Z.testbit (be16 d 0) 0, be32 d 2);
|}.

Lemma land_ones_range x n : 0 <= n -> 0 <= Z.land x (Z.ones n) <= 2 ^ n - 1.
Proof. intros. rewrite Z.land_ones by lia. pose proof (Z.mod_pos_bound x (2 ^ n)). lia. Qed.

#[export] Instance rfc_wire_laws : WireLaws.
Proof.
  constructor; simpl.
  - intros d Hc. zify_bool. pose proof (land_ones_range (byte d 0) 4 ltac:(lia)).
    change (Z.ones 4) with 15 in *. lia.
  - intros d. pose proof (land_ones_range (be16 d 6) 13 ltac:(lia)).
    change (Z.ones 13) with 8191 in *. rewrite Z.mod_mul by lia. lia.
  - intros d Hc. zify_bool. pose proof (land_ones_range (be16 d 4) 16 ltac:(lia)).
    change (Z.ones 16) with 65535 in *. lia.
  - by intros d r [= <-].
  - intros d h. pose proof (land_ones_range (default 0 (zget d 1)) 8 ltac:(lia)).
    change (Z.ones 8) with 255 in *. fold (byte d 1) in *. case_bool; [|done]. intros [= <-]. simpl. rewrite len_slice; lia.
  - intros d o m i [= <- <- <-]. pose proof (land_ones_range (Z.shiftr (be16 d 0) 3) 13 ltac:(lia)).
    change (Z.ones 13) with 8191 in *. lia.
Qed.

(** ** Properties *)

(** Validation before admission: every packet [parse] accepts has unicast endpoints and a
    positive hop limit, an IPv4 header without source routing, and a payload that is a view
    inside the packet with the length the header representation records; a fragment's byte
    offset is a multiple of eight in the 13-bit field's range, its header fits a packet, and
    an IPv4 fragment cannot reassemble beyond the largest datagram. *)
Theorem parse_validates `{WireLaws} data p :
  parse data = Some p ->
  unicast (src_addr (ip p)) = true /\ unicast (dst_addr (ip p)) = true /\ hop_limit (ip p) <> 0 /\
  payload_ok data p /\ fragment_ok p /\
  (family (ip p) = V4 -> plain_options (slice 20 (ipv4_header_len data) data)).
Proof.
  unfold parse. intros Hp. case_bool; [done|]. destruct (of_packet data) as [f|]; [|done]. simpl in Hp.
  destruct (match f with V4 => parse_ipv4 data | V6 => parse_ipv6 data end) as [p'|] eqn:Hf; [|done].
  simpl in Hp. case_bool; [done|]. injection Hp as <-. zify_bool.
  destruct f; [apply parse_ipv4_spec in Hf as (? & ? & ? & ?)|apply parse_ipv6_spec in Hf as (Hv & ? & ?)].
  - split_and!; done.
  - split_and!; try done. rewrite Hv. done.
Qed.

(** A fragment of a UDP datagram over IPv6 behind a hop-by-hop header. *)
Definition demo_packet : bytes :=
  [96; 0; 0; 0; 0; 24; 0; 64] ++ (32 :: replicate 14 0 ++ [1]) ++ (32 :: replicate 14 0 ++ [2]) ++
  [44; 0; 1; 4; 0; 0; 0; 0] ++ [17; 0; 0; 1; 0; 0; 0; 7] ++ [4; 1; 0; 53; 0; 9; 0; 0].

Lemma parse_validates_witness :
  exists p, parse demo_packet = Some p /\ start p = 56 /\
    fragment p = Some (mkFragment 7 0 true 8) /\ fragment_ok p.
Proof.
  eexists. split; [vm_compute; reflexivity|]. do 2 (split; [reflexivity|]).
  apply (parse_validates demo_packet). vm_compute. reflexivity.
Defined.

(** The IPv4 option scan accepts exactly the well-formed option lists without loose or
    strict source routing: an end-of-list option, no-operations, and options whose length
    byte covers at least the option's two header bytes and stays inside the header. *)
Theorem ipv4_options_exact options : ipv4_options options = true <-> plain_options options.
Proof. apply ipv4_options_spec. lia. Qed.

(** The unicast filter as address ranges: IPv4 from 1.0.0.0 up to but excluding
    224.0.0.0, and IPv6 without the unspecified address, ff00::/8 and the IPv4-mapped block. *)
Theorem unicast_ranges a :
  (0 <= a < 2 ^ 32 -> unicast (Ipv4 a) = (2 ^ 24 <=? a) && (a <? 224 * 2 ^ 24)) /\
  (0 <= a < 2 ^ 128 -> unicast (Ipv6 a) =
     negb (a =? 0) && (a <? 255 * 2 ^ 120) && negb ((65535 * 2 ^ 32 <=? a) && (a <? 65536 * 2 ^ 32))).
Proof.
  split; intros Ha; apply eq_true_iff_eq; unfold unicast.
  - unfold ipv4_is_multicast, ipv4_is_broadcast. rewrite octet0 by done.
    pose proof (Z.div_mod a (2 ^ 24) ltac:(lia)). pose proof (Z.mod_pos_bound a (2 ^ 24)).
    rewrite !andb_true_iff, !negb_true_iff, andb_false_iff, !Z.eqb_neq, !Z.leb_gt, !Z.ltb_lt, !Z.leb_le. lia.
  - unfold ipv6_is_multicast, to_ipv4_mapped.
    pose proof (shiftr_eq_range a 120 255 ltac:(lia)). pose proof (shiftr_eq_range a 32 65535 ltac:(lia)).
    rewrite !andb_true_iff, !negb_true_iff, andb_false_iff, !Z.eqb_neq, bool_decide_eq_true, Z.ltb_lt,
      Z.leb_gt, Z.ltb_ge. case_bool.
    + split; [intros [_ ?]; done|lia].
    + split; [intros [? _]; lia|intros; split; [lia|done]].
Qed.

Lemma unicast_ranges_witness :
  unicast (Ipv4 (10 * 2 ^ 24 + 1)) = true /\ unicast (Ipv4 (224 * 2 ^ 24)) = false /\
  unicast (Ipv6 (65535 * 2 ^ 32 + 5)) = false.
Proof.
  split_and!; [rewrite (proj1 (unicast_ranges _)) by lia|rewrite (proj1 (unicast_ranges _)) by lia
              |rewrite (proj2 (unicast_ranges _)) by lia]; reflexivity.
Defined.

End Packet.
