(* ===== verification/Decoder.v ===== *)
(** * Reassembly of IP datagrams (crates/tun/src/packet.rs, [Decoder])

    The decoder keeps one assembly per datagram identity.  The range tracker is smoltcp's
    [Assembler]: it is a class here, with its documented behaviour as laws.  Leases are the
    accounting of [Reassembly]. *)

From S2P Require Import Prelude Capacity Reassembly Packet.
Import Packet.

Module Decoder.

(** ** smoltcp's range tracker *)

Class Assembler (A : Type) := {
  asm_new : A;
  asm_clear : A -> A;
  asm_add : A -> Z -> Z -> option A;              (* [None] is [TooManyHolesError] *)
  asm_iter : A -> list (Z * Z);                   (* [iter_data]: start and end of each range *)
  asm_front : A -> Z;                             (* [peek_front] *)
  asm_max : nat;                                  (* how many separate ranges fit *)
}.

(** The positions a tracker holds. *)
Definition covers `{Assembler A} (a : A) (x : Z) : Prop :=
  exists s t, (s, t) ∈ asm_iter a /\ s <= x < t.

Class AssemblerLaws (A : Type) `{Assembler A} := {
  asm_new_empty : forall x, ~ covers asm_new x;
  asm_clear_new : forall a, asm_clear a = asm_new;
  asm_add_covers : forall a o n a', 0 <= o -> 0 < n -> asm_add a o n = Some a' ->
    forall x, covers a' x <-> covers a x \/ o <= x < o + n;
  asm_range_nonempty : forall a s t, (s, t) ∈ asm_iter a -> s < t;
  asm_front_covered : forall a x, 0 <= x < asm_front a -> covers a x;
  asm_front_gap : forall a, 0 <= asm_front a /\ ~ covers a (asm_front a);
  asm_room : forall a o n, (length (asm_iter a) < asm_max)%nat -> asm_add a o n <> None;
  asm_count : forall a o n a', asm_add a o n = Some a' -> (length (asm_iter a') <= S (length (asm_iter a)))%nat;
}.

(** ** State *)

(** [REASSEMBLY_LIFETIME], in nanoseconds *)
Definition REASSEMBLY_LIFETIME : Z := 60 * 1000000000.

(** [fragments::Binding]: [Arc] identity is [b_id]; the [active] flag, which other owners
    change, is an argument where the code loads it. *)
Record Binding := mkBinding { b_id : nat; b_key : FragmentKey; b_expires : Z; b_shard : Z }.

(** [Binding::active] *)
Definition binding_active (flag : bool) (b : Binding) (now : Z) : bool := (now <? b_expires b) && flag.

(** [Arc::ptr_eq] *)
Definition ptr_eq (x y : Binding) : bool := bool_decide (b_id x = b_id y).

(** [Vec::min_by_key] over the entries in the order the hash map yields them: the first of
    the entries with the least key. *)
Fixpoint min_by_key {B} (f : B -> Z) (l : list B) : option B :=
  match l with
  | [] => None
  | x :: l => match min_by_key f l with
              | Some y => if f y <? f x then Some y else Some x
              | None => Some x
              end
  end.

Section decoder.
Context {A : Type} `{Assembler A}.
(** [TcpPacket::new_checked(data).is_ok()] *)
Context (tcp_checked : bytes -> bool).
(** [size_of::<(FragmentKey, Assembly)>()] *)
Context (ASSEMBLY_METADATA : Z).

Record Assembly := mkAssembly {
  binding : option Binding;
  lease : Z;
  expires : Z;
  ranges : A;
  data : bytes;
  capacity : Z;                                   (* [data.capacity()] *)
  protocol : Z;
  prefix : Z;                                     (* [prefix_len] *)
  total : option Z;
  poisoned : bool;
}.

Record t := mkDecoder {
  fragments : gmap FragmentKey Assembly;
  limits : Reassembly.Limits;
  next_expiry : option Z;
}.

Definition new (l : Reassembly.Limits) : t := mkDecoder ∅ l None.

(** [Decoder::deadline] *)
Definition deadline (d : t) : option Z := if (size (fragments d) =? 0)%nat then None else next_expiry d.

(** An assembly dropped from the map drops its lease. *)
Definition remove (key : FragmentKey) (d : t) : t :=
  match fragments d !! key with
  | None => d
  | Some a => mkDecoder (delete key (fragments d)) (Reassembly.drop (limits d) (lease a)) (next_expiry d)
  end.

(** [Decoder::expire].  The leases of all expired assemblies are dropped. *)
Definition expire (now : Z) (d : t) : t :=
  match next_expiry d with
  | Some at_ =>
      if at_ <=? now then
        let kept := filter (fun '(_, a) => now < expires a) (fragments d) in
        let gone := filter (fun '(_, a) => ~ now < expires a) (fragments d) in
        mkDecoder kept
          (foldl Reassembly.drop (limits d) (lease ∘ snd <$> map_to_list gone))
          (min_by_key Datatypes.id (expires ∘ snd <$> map_to_list kept))
      else d
  | None => d
  end.

(** [Decoder::discard_oldest], with the order the hash map yields its entries in. *)
Definition discard_oldest (order : list (FragmentKey * Assembly)) (d : t) : t * option Binding :=
  match min_by_key (expires ∘ snd) (filter (fun '(_, a) => poisoned a = false) order) with
  | None => (d, None)
  | Some (key, _) =>
      (remove key d, match fragments d !! key with Some a => binding a | None => None end)
  end.

(** [Decoder::retains] *)
Definition retains (b : Binding) (d : t) : bool :=
  match fragments d !! b_key b with
  | Some a => match binding a with Some current => ptr_eq current b | None => false end
  | None => false
  end.

(** [complete_transport_header] *)
Definition complete_transport_header (protocol : Z) (data : bytes) : bool :=
  if protocol =? Tcp then tcp_checked data
  else if (protocol =? Udp) || (protocol =? Icmpv6) then 8 <=? len data
  else false.

(** [Assembly::poison]: shrinks the lease to the metadata. *)
Definition poison (clock : Z) (l : Reassembly.Limits) (a : Assembly) : Reassembly.Limits * Assembly :=
  let '(l, held, _) := Reassembly.resize l (lease a) ASSEMBLY_METADATA clock in
  (l, mkAssembly (binding a) held (expires a) (asm_clear (ranges a)) [] 0 (protocol a) (prefix a)
        (total a) true).

(** The entry [reassemble] works on, created when the key is new. *)
Definition entry (key : FragmentKey) (proto prefix_len now : Z) (b : option Binding) (d : t) :
  t * option Assembly :=
  match fragments d !! key with
  | Some a => (d, Some a)
  | None =>
      match Reassembly.reserve (limits d) ASSEMBLY_METADATA now with
      | (l, None) => (mkDecoder (fragments d) l (next_expiry d), None)
      | (l, Some held) =>
          let exp := match b with Some b => b_expires b | None => now + REASSEMBLY_LIFETIME end in
          let next := match next_expiry d with Some at_ => Z.min at_ exp | None => exp end in
          let a := mkAssembly b held exp asm_new [] 0 proto prefix_len None false in
          (mkDecoder (<[key := a]> (fragments d)) l (Some next), Some a)
      end
  end.

(** The disjunction that poisons an assembly; [pl] is the header length in effect. *)
Definition rejected (ipv4 : bool) (proto pl : Z) (f : Fragment) (bs : bytes) (a : Assembly) : bool :=
  let stop := offset f + len bs in
  (len bs =? 0) || (65535 - pl <? stop) || negb (pl =? prefix a)
  || (negb ipv4 && (offset f =? 0) && negb (complete_transport_header proto bs))
  || negb (proto =? protocol a)
  || (more f && negb (len bs `mod` 8 =? 0))
  || match total a with
     | Some n => (n <? stop) || (negb (more f) && negb (stop =? n))
     | None => false
     end
  || (negb (more f) && (stop <? len (data a)))
  || (negb ipv4 && existsb (fun '(s, e) => (s <? stop) && (offset f <? e)) (asm_iter (ranges a)))
  || (65535 - pl <? len (data a)).

(** [v.reserve_exact(n)]: a reallocation leaves the capacity the allocator supplied, which is
    at least what was asked for. *)
Definition reserve_exact (cap needed alloc : Z) : Z := if cap <? needed then Z.max needed alloc else cap.

(** Storing an accepted fragment: the part of [reassemble] after the admission checks.  The
    result is the datagram when it is complete. *)
Definition store (key : FragmentKey) (f : Fragment) (bs : bytes) (now clock alloc : Z) (a : Assembly) (d : t) :
  t * option bytes :=
  let stop := offset f + len bs in
  let length := Z.max (len (data a)) stop in
  let put l a := mkDecoder (<[key := a]> (fragments d)) l (next_expiry d) in
  let abandon l held := (mkDecoder (delete key (fragments d)) (Reassembly.drop l held) (next_expiry d), None) in
  match Reassembly.resize (limits d) (lease a) (ASSEMBLY_METADATA + Z.max (capacity a) length) now with
  | (l, held, false) => abandon l held
  | (l, held, true) =>
      let cap := reserve_exact (capacity a) length alloc in
      match Reassembly.resize l held (ASSEMBLY_METADATA + cap) now with
      | (l, held, false) => abandon l held
      | (l, held, true) =>
          let grown := resize length 0 (data a) in
          let a := mkAssembly (binding a) held (expires a) (ranges a) grown cap (protocol a)
                     (prefix a) (total a) false in
          match asm_add (ranges a) (offset f) (len bs) with
          | None => let '(l, a) := poison clock l a in (put l a, None)
          | Some r =>
              let total := if more f then total a else Some stop in
              let whole := overwrite (offset f) bs grown in
              let a := mkAssembly (binding a) held (expires a) r whole cap (protocol a) (prefix a) total false in
              if bool_decide (total = Some (asm_front r)) then
                (mkDecoder (delete key (fragments d)) (Reassembly.drop (Reassembly.complete l held now) held)
                   (next_expiry d), Some whole)
              else (put l a, None)
          end
      end
  end.

(** [Decoder::reassemble].  [clock] is the later reading [poison] takes, [alloc] the capacity
    an allocation leaves. *)
Definition reassemble (key : FragmentKey) (proto : Z) (f : Fragment) (bs : bytes) (now clock alloc : Z)
  (b : option Binding) (d : t) : t * option bytes :=
  let d := expire now d in
  match entry key proto (prefix_len f) now b d with
  | (d, None) => (d, None)
  | (d, Some a) =>
      if poisoned a then (d, None) else
      let ipv4 := bool_decide (ipv4_protocol key <> None) in
      let a := if ipv4 then
                 mkAssembly (binding a) (lease a) (expires a) (ranges a) (data a) (capacity a)
                   (protocol a) (Z.max (prefix a) (prefix_len f)) (total a) (poisoned a)
               else a in
      let pl := if ipv4 then prefix a else prefix_len f in
      if rejected ipv4 proto pl f bs a then
        let '(l, a) := poison clock (limits d) a in
        (mkDecoder (<[key := a]> (fragments d)) l (next_expiry d), None)
      else store key f bs now clock alloc a d
  end.

(** [Decoder::decode_fragment] after [parse]: an assembly of another binding is dropped. *)
Definition decode_fragment (flag : bool) (b : Binding) (proto : Z) (f : Fragment) (bs : bytes)
  (now clock alloc : Z) (d : t) : t * option bytes :=
  if negb (binding_active flag b now) then (d, None) else
  let stale := match fragments d !! b_key b with
               | Some a => match binding a with Some old => negb (ptr_eq old b) | None => true end
               | None => false
               end in
  reassemble (b_key b) proto f bs now clock alloc (Some b) (if stale then remove (b_key b) d else d).

(** [Parsed::decode_with] and [Decoder::decode]: the header representation with its payload. *)
Definition decode `{Wire} (bs : bytes) (now clock alloc : Z) (d : t) : t * option (IpRepr * bytes) :=
  match parse bs with
  | None => (d, None)
  | Some p =>
      let with_payload b := (mkIp (family (ip p)) (src (ip p)) (dst (ip p)) (next_header (ip p)) (len b)
                               (hop_limit (ip p)), b) in
      match fragment p, fragment_key p with
      | Some f, Some key =>
          let '(d, r) := reassemble key (next_header (ip p)) f (payload p) now clock alloc None d in
          (d, with_payload <$> r)
      | _, _ => (d, Some (with_payload (payload p)))
      end
  end.

(** ** Sequences of calls *)

Inductive op :=
| Deliver (key : FragmentKey) (proto : Z) (f : Fragment) (bs : bytes) (now clock alloc : Z)
    (b : option Binding)
| DeliverBound (flag : bool) (b : Binding) (proto : Z) (f : Fragment) (bs : bytes) (now clock alloc : Z)
| Expire (now : Z)
| Discard (order : list (FragmentKey * Assembly) -> list (FragmentKey * Assembly))
                                                  (* the hash map's iteration order *)
| Others (l : Reassembly.Limits).                 (* another worker changed the shared accounting *)

(** A completed datagram is reported with its key. *)
Definition step (d : t) (o : op) : t * option (FragmentKey * bytes) :=
  match o with
  | Deliver key proto f bs now clock alloc b =>
      let '(d, r) := reassemble key proto f bs now clock alloc b d in (d, pair key <$> r)
  | DeliverBound flag b proto f bs now clock alloc =>
      let '(d, r) := decode_fragment flag b proto f bs now clock alloc d in (d, pair (b_key b) <$> r)
  | Expire now => (expire now d, None)
  | Discard order => (fst (discard_oldest (order (map_to_list (fragments d))) d), None)
  | Others l => (mkDecoder (fragments d) l (next_expiry d), None)
  end.

Fixpoint run (d : t) (os : list op) : t * list (FragmentKey * bytes) :=
  match os with
  | [] => (d, [])
  | o :: os => let '(d, r) := step d o in let '(d, rs) := run d os in (d, option_list r ++ rs)
  end.

(** [f] and its bytes are a fragment of the datagram payload [D]. *)
Definition fragment_of (D : bytes) (f : Fragment) (bs : bytes) : Prop :=
  0 <= offset f /\ offset f + len bs <= len D /\ bs = slice (offset f) (offset f + len bs) D /\
  (more f = false -> offset f + len bs = len D).

(** Every fragment delivered under [key] belongs to [D]. *)
Definition op_of (key : FragmentKey) (D : bytes) (o : op) : Prop :=
  match o with
  | Deliver k _ f bs _ _ _ _ => k = key -> fragment_of D f bs
  | DeliverBound _ b _ f bs _ _ _ => b_key b = key -> fragment_of D f bs
  | _ => True
  end.

(** ** Contents of an assembly *)

Record content_ok (D : bytes) (a : Assembly) : Prop := {
  ok_covered : forall x, covers (ranges a) x -> 0 <= x < len (data a) /\ zget (data a) x = zget D x;
  ok_length : len (data a) <= len D;
  ok_total : forall n, total a = Some n -> n = len D;
}.

Definition asm_ok (D : bytes) (a : Assembly) : Prop := poisoned a = true \/ content_ok D a.

Definition dec_ok (key : FragmentKey) (D : bytes) (d : t) : Prop :=
  forall a, fragments d !! key = Some a -> asm_ok D a.

Lemma lookup_expire now d key a :
  fragments (expire now d) !! key = Some a -> fragments d !! key = Some a.
Proof.
  unfold expire. destruct (next_expiry d); [|done]. case_bool; [|done]. simpl.
  rewrite map_lookup_filter_Some. tauto.
Qed.

Lemma lookup_remove k key d a :
  fragments (remove k d) !! key = Some a -> fragments d !! key = Some a.
Proof.
  unfold remove. destruct (fragments d !! k); [|done]. simpl. rewrite lookup_delete_Some. tauto.
Qed.

(** Only the delivered key's assembly changes. *)
Lemma lookup_reassemble_ne key proto f bs now clock alloc b d key' :
  key' <> key ->
  fragments (fst (reassemble key proto f bs now clock alloc b d)) !! key' = fragments (expire now d) !! key'.
Proof.
  intros Hne. unfold reassemble, entry. set (d0 := expire now d).
  destruct (fragments d0 !! key) as [a|] eqn:Ha;
    [|destruct (Reassembly.reserve _ _ _) as [l [held|]]; [|done]];
    (cbn [poisoned]; unfold poison, store;
     repeat match goal with
     | |- context [let '(_, _) := ?x in _] => destruct x as [[? ?] ?] eqn:?
     | |- context [match ?x with _ => _ end] => destruct x eqn:?
     end; simpl; rewrite ?lookup_insert_ne, ?lookup_delete_ne, ?lookup_insert_ne by done; done).
Qed.

Section contents.
Context `{!AssemblerLaws A}.

Lemma poison_poisoned clock l a : poisoned (snd (poison clock l a)) = true.
Proof. unfold poison. by destruct (Reassembly.resize _ _ _ _) as [[? ?] ?]. Qed.

(** Writing an accepted fragment keeps the covered bytes those of [D]. *)
Lemma content_stored D f bs a r :
  fragment_of D f bs -> len bs <> 0 -> content_ok D a ->
  asm_add (ranges a) (offset f) (len bs) = Some r ->
  let out := overwrite (offset f) bs (resize (Z.max (len (data a)) (offset f + len bs)) 0 (data a)) in
  len out = Z.max (len (data a)) (offset f + len bs) /\
  (forall x, covers r x -> 0 <= x < len out /\ zget out x = zget D x).
Proof.
  intros (Ho & Hend & Hbs & _) Hne [Hcov Hlen Htot] Hadd. pose proof (len_nonneg bs).
  pose proof (len_nonneg (data a)). simpl.
  set (n := Z.max (len (data a)) (offset f + len bs)).
  assert (Hl : len (resize n 0 (data a)) = n) by (rewrite len_resize; lia).
  assert (Hl' : len (overwrite (offset f) bs (resize n 0 (data a))) = n)
    by (rewrite len_overwrite; lia).
  split; [done|]. intros x Hx. rewrite Hl', zget_overwrite by lia.
  assert (Hpos : 0 < len bs) by lia. apply (asm_add_covers _ _ _ _ Ho Hpos Hadd) in Hx.
  destruct ((offset f <=? x) && (x <? offset f + len bs)) eqn:Hin; zify_bool.
  - split; [lia|]. rewrite Hbs, zget_slice by lia. f_equal. lia.
  - destruct Hx as [Hx|Hx]; [|apply andb_false_iff in Hin as [?|?]; zify_bool; lia].
    destruct (Hcov x Hx) as [? Heq]. rewrite zget_resize by lia. split; [lia|done].
Qed.

(** A complete assembly holds exactly [D]. *)
Lemma content_complete (D : bytes) (r : A) (out : bytes) :
  len out <= len D -> 0 < len D -> (forall x, covers r x -> 0 <= x < len out /\ zget out x = zget D x) ->
  asm_front r = len D -> out = D.
Proof.
  intros Hle Hpos Hcov Hf.
  assert (Hall : forall x, 0 <= x < len D -> 0 <= x < len out /\ zget out x = zget D x).
  { intros x Hx. apply Hcov, asm_front_covered. lia. }
  apply zlist_eq; [|intros x Hx; apply Hall; lia].
  destruct (Hall (len D - 1) ltac:(lia)). lia.
Qed.

(** The acceptance tests that later steps use. *)
Lemma accepted_facts ipv4 proto pl f bs a :
  rejected ipv4 proto pl f bs a = false ->
  len bs <> 0 /\ offset f + len bs <= 65535 - pl /\
  (forall n, total a = Some n -> offset f + len bs <= n /\ (more f = false -> offset f + len bs = n)) /\
  (more f = false -> len (data a) <= offset f + len bs).
Proof.
  unfold rejected. rewrite !orb_false_iff. intros [[[[[[[[[H1 H2] _] _] _] _] H7] H8] _] _].
  zify_bool. split_and!; try done.
  - intros n Hn. rewrite Hn in H7. apply orb_false_iff in H7 as [? H7]. zify_bool.
    split; [lia|]. intros Hm. rewrite Hm in H7. simpl in H7. zify_bool. done.
  - intros Hm. rewrite Hm in H8. simpl in H8. zify_bool. lia.
Qed.

Lemma store_content key D f bs now clock alloc a d d' r :
  fragment_of D f bs -> content_ok D a -> len bs <> 0 ->
  store key f bs now clock alloc a d = (d', r) ->
  dec_ok key D d' /\ (forall out, r = Some out -> out = D).
Proof.
  intros Hf Ha Hne. unfold store.
  destruct (Reassembly.resize (limits d) _ _ _) as [[l held] ok].
  destruct ok; [|intros [= <- <-]; split; [|done]; intros x; simpl; by rewrite lookup_delete_eq].
  destruct (Reassembly.resize l _ _ _) as [[l' held'] ok'].
  destruct ok'; [|intros [= <- <-]; split; [|done]; intros x; simpl; by rewrite lookup_delete_eq].
  cbn [ranges total data]. destruct (asm_add (ranges a) (offset f) (len bs)) as [q|] eqn:Hadd.
  - destruct (content_stored D f bs a q Hf Hne Ha Hadd) as [Hl Hcov]. cbn [binding expires ranges protocol prefix].
    set (whole := overwrite _ _ _) in *. destruct Hf as (Ho & Hend & Hbs & Hlast).
    pose proof (len_nonneg bs). pose proof (ok_length _ _ Ha).
    assert (Htot : forall n, (if more f then total a else Some (offset f + len bs)) = Some n -> n = len D).
    { intros n. destruct (more f); [apply Ha|]. intros [= <-]. auto. }
    case_bool_decide as Hc; intros [= <- <-].
    + split; [intros x; simpl; by rewrite lookup_delete_eq|]. intros out [= <-].
      apply (content_complete D q); [lia..|done|]. by apply Htot.
    + split; [|done]. intros x. simpl. rewrite lookup_insert_eq. intros [= <-]. right.
      constructor; simpl; [done|lia|done].
  - cbn [ranges]. destruct (poison clock l' _) as [l2 a2] eqn:Hp. intros [= <- <-]. split; [|done].
    intros x. simpl. rewrite lookup_insert_eq. intros [= <-]. left.
    change a2 with (snd (l2, a2)). rewrite <- Hp. apply poison_poisoned.
Qed.

Lemma reassemble_content key D proto f bs now clock alloc b d d' r :
  fragment_of D f bs -> dec_ok key D d -> reassemble key proto f bs now clock alloc b d = (d', r) ->
  dec_ok key D d' /\ (forall out, r = Some out -> out = D).
Proof.
  intros Hf Hd. unfold reassemble.
  assert (Hd0 : dec_ok key D (expire now d)) by (intros a Ha; eauto using lookup_expire).
  destruct (entry key proto (prefix_len f) now b (expire now d)) as [d1 o] eqn:He.
  assert (Hd1 : dec_ok key D d1 /\ forall a, o = Some a -> asm_ok D a).
  { unfold entry in He. destruct (fragments (expire now d) !! key) as [a|] eqn:Ha.
    - simplify_eq. split; [done|]. intros ? [= <-]. auto.
    - destruct (Reassembly.reserve _ _ _) as [l [held|]]; simplify_eq; [|split; [done|]; done].
      assert (Hnew : forall a, a = mkAssembly b held
          match b with Some b => b_expires b | None => now + REASSEMBLY_LIFETIME end
          asm_new [] 0 proto (prefix_len f) None false -> asm_ok D a).
      { intros a ->. right. constructor; simpl; [|apply len_nonneg|done].
        intros x Hx. by apply asm_new_empty in Hx. }
      split; [intros a; simpl; rewrite lookup_insert_eq|]; intros; simplify_eq; auto. }
  destruct Hd1 as [Hd1 Ho]. destruct o as [a|]; [|by intros [= <- <-]].
  specialize (Ho a eq_refl). destruct (poisoned a) eqn:Hp; [by intros [= <- <-]|].
  destruct Ho as [Ho|Ha]; [congruence|].
  set (ipv4 := bool_decide _). set (a1 := if ipv4 then _ else a).
  assert (Ha1 : content_ok D a1) by (unfold a1; destruct ipv4; [destruct Ha; by constructor|done]).
  destruct (rejected ipv4 proto _ f bs a1) eqn:Hrej.
  - destruct (poison clock (limits d1) a1) as [l2 a2] eqn:Hq. intros [= <- <-]. split; [|done].
    intros x. simpl. rewrite lookup_insert_eq. intros [= <-]. left.
    change a2 with (snd (l2, a2)). rewrite <- Hq. apply poison_poisoned.
  - apply accepted_facts in Hrej as (? & _). intros Hs. eapply store_content; eauto.
Qed.

Lemma dec_ok_sub key D d d' :
  dec_ok key D d -> (forall a, fragments d' !! key = Some a -> fragments d !! key = Some a) -> dec_ok key D d'.
Proof. intros Hd Hsub a Ha. eauto. Qed.

Lemma lookup_discard order d key a :
  fragments (fst (discard_oldest order d)) !! key = Some a -> fragments d !! key = Some a.
Proof.
  unfold discard_oldest. destruct (min_by_key _ _) as [[k ?]|]; [|done]. apply lookup_remove.
Qed.

Lemma step_content key D d o d' r :
  dec_ok key D d -> op_of key D o -> step d o = (d', r) ->
  dec_ok key D d' /\ (forall out, r = Some (key, out) -> out = D).
Proof.
  intros Hd Ho Hstep.
  assert (Hdeliver : forall k proto f bs now clock alloc b d0 d1 q, dec_ok key D d0 ->
    (k = key -> fragment_of D f bs) -> reassemble k proto f bs now clock alloc b d0 = (d1, q) ->
    dec_ok key D d1 /\ (forall out, pair k <$> q = Some (key, out) -> out = D)).
  { intros k proto f bs now clock alloc b d0 d1 q Hd0 Hk Hr. destruct (decide (k = key)) as [->|Hne].
    - eapply reassemble_content in Hr as [? Hout]; eauto. split; [done|].
      intros out Hq. destruct q; simplify_eq/=. by apply Hout.
    - split; [|intros out Hq; destruct q; simplify_eq/=].
      intros a Ha. change d1 with (fst (d1, q)) in Ha. rewrite <- Hr, lookup_reassemble_ne in Ha by done.
      eauto using lookup_expire. }
  destruct o as [k proto f bs now clock alloc b|flag b proto f bs now clock alloc|now|order|l]; simpl in *.
  - destruct (reassemble _ _ _ _ _ _ _ _ d) as [d1 q] eqn:Hr. simplify_eq. eauto.
  - destruct (decode_fragment _ _ _ _ _ _ _ _ d) as [d1 q] eqn:Hr. simplify_eq. unfold decode_fragment in Hr.
    case_bool; [simplify_eq; by split|]. eapply Hdeliver; [|done|done].
    case_bool; [|done]. eapply dec_ok_sub; eauto using lookup_remove.
  - simplify_eq. split; [|done]. eapply dec_ok_sub; eauto using lookup_expire.
  - simplify_eq. split; [|done]. eapply dec_ok_sub; eauto using lookup_discard.
  - simplify_eq. by split.
Qed.

Lemma run_content key D os d d' rs :
  dec_ok key D d -> Forall (op_of key D) os -> run d os = (d', rs) ->
  dec_ok key D d' /\ (forall out, (key, out) ∈ rs -> out = D).
Proof.
  revert d rs. induction os as [|o os IH]; simpl; intros d rs Hd Hos Hrun.
  { simplify_eq. split; [done|]. by intros out ?%elem_of_nil. }
  apply Forall_cons in Hos as [Ho Hos]. destruct (step d o) as [d1 r] eqn:Hs.
  destruct (run d1 os) as [d2 rs2] eqn:Hr. simplify_eq.
  destruct (step_content _ _ _ _ _ _ Hd Ho Hs) as [Hd1 Hout].
  destruct (IH d1 rs2 Hd1 Hos Hr) as [Hd2 Hrs]. split; [done|].
  intros out [Hin|Hin]%elem_of_app; [|auto]. destruct r; simpl in Hin; [|by apply elem_of_nil in Hin].
  apply list_elem_of_singleton in Hin as <-. auto.
Qed.
(** ** Poisoned datagrams *)

(** Calls before the deadline [stop] that respect the datagram's binding. *)
Definition op_before (key : FragmentKey) (stop : Z) (bnd : option Binding) (o : op) : Prop :=
  match o with
  | Deliver _ _ _ _ now _ _ _ => now < stop
  | DeliverBound _ b _ _ _ now _ _ =>
      now < stop /\ (b_key b = key -> exists old, bnd = Some old /\ b_id old = b_id b)
  | Expire now => now < stop
  | Discard order => forall l, order l ≡ₚ l
  | Others _ => True
  end.

Lemma expire_keeps now d key a :
  fragments d !! key = Some a -> now < expires a -> fragments (expire now d) !! key = Some a.
Proof.
  intros Ha Hn. unfold expire. destruct (next_expiry d); [|done]. case_bool; [|done]. simpl.
  by apply map_lookup_filter_Some.
Qed.

Lemma min_by_key_elem {B} (f : B -> Z) l x : min_by_key f l = Some x -> x ∈ l.
Proof.
  revert x. induction l as [|y l IH]; simpl; intros x Hx; [done|].
  destruct (min_by_key f l) as [z|]; [case_bool|]; simplify_eq; set_solver.
Qed.

Lemma reassemble_poisoned key proto f bs now clock alloc b d a :
  fragments d !! key = Some a -> poisoned a = true -> now < expires a ->
  reassemble key proto f bs now clock alloc b d = (expire now d, None).
Proof.
  intros Ha Hp Hn. unfold reassemble, entry. rewrite (expire_keeps now d key a) by done. by rewrite Hp.
Qed.

Lemma step_poisoned key a d o d' r :
  fragments d !! key = Some a -> poisoned a = true -> op_before key (expires a) (binding a) o ->
  step d o = (d', r) -> fragments d' !! key = Some a /\ (forall out, r <> Some (key, out)).
Proof.
  intros Ha Hp Ho Hstep.
  assert (Hdeliver : forall k proto f bs now clock alloc b d0 d1 q,
    fragments d0 !! key = Some a -> now < expires a ->
    reassemble k proto f bs now clock alloc b d0 = (d1, q) ->
    fragments d1 !! key = Some a /\ (forall out, pair k <$> q <> Some (key, out))).
  { intros k proto f bs now clock alloc b d0 d1 q H0 Hn Hr. destruct (decide (k = key)) as [->|Hne].
    - rewrite (reassemble_poisoned key proto f bs now clock alloc b d0 a H0 Hp Hn) in Hr. simplify_eq.
      split; [by apply expire_keeps|done].
    - split; [|intros out Hq; destruct q; simplify_eq/=].
      change d1 with (fst (d1, q)). rewrite <- Hr, lookup_reassemble_ne by done. by apply expire_keeps. }
  destruct o as [k proto f bs now clock alloc b|flag b proto f bs now clock alloc|now|order|l]; simpl in *.
  - destruct (reassemble _ _ _ _ _ _ _ _ d) as [d1 q] eqn:Hr. simplify_eq. eauto.
  - destruct Ho as [Hn Hb]. destruct (decode_fragment _ _ _ _ _ _ _ _ d) as [d1 q] eqn:Hr. simplify_eq.
    unfold decode_fragment in Hr. case_bool; [simplify_eq; by split|]. eapply Hdeliver; [|done|done].
    case_bool; [|done]. unfold remove. destruct (decide (b_key b = key)) as [Hk|Hk].
    + destruct (Hb Hk) as (old & Hold & Hid). exfalso. rewrite Hk, Ha, Hold in *. unfold ptr_eq in *.
      rewrite bool_decide_eq_true_2 in * by done. done.
    + destruct (fragments d !! b_key b); [|done]. simpl. by rewrite lookup_delete_ne.
  - simplify_eq. split; [by apply expire_keeps|done].
  - simplify_eq. split; [|done]. unfold discard_oldest.
    destruct (min_by_key _ _) as [[k x]|] eqn:Hm; [|done]. simpl.
    apply min_by_key_elem, list_elem_of_filter in Hm as [Hx Hin].
    rewrite Ho, elem_of_map_to_list in Hin. unfold remove. rewrite Hin. simpl.
    rewrite lookup_delete_ne; [done|]. intros ->. congruence.
  - simplify_eq. by split.
Qed.

Lemma run_poisoned key a os d d' rs :
  fragments d !! key = Some a -> poisoned a = true -> Forall (op_before key (expires a) (binding a)) os ->
  run d os = (d', rs) -> fragments d' !! key = Some a /\ (forall out, (key, out) ∉ rs).
Proof.
  revert d rs. induction os as [|o os IH]; simpl; intros d rs Ha Hp Hos Hrun.
  { simplify_eq. split; [done|]. by intros out ?%elem_of_nil. }
  apply Forall_cons in Hos as [Ho Hos]. destruct (step d o) as [d1 r] eqn:Hs.
  destruct (run d1 os) as [d2 rs2] eqn:Hr. simplify_eq.
  destruct (step_poisoned _ _ _ _ _ _ Ha Hp Ho Hs) as [Ha1 Hout].
  destruct (IH d1 rs2 Ha1 Hp Hos Hr) as [Ha2 Hrs]. split; [done|].
  intros out [Hin|Hin]%elem_of_app; [|by eapply Hrs]. destruct r; simpl in Hin; [|by apply elem_of_nil in Hin].
  apply list_elem_of_singleton in Hin as <-. by eapply Hout.
Qed.

(** An IPv6 fragment that touches a byte already received is refused by the overlap test. *)
Lemma rejected_overlap proto pl f bs a x :
  covers (ranges a) x -> offset f <= x < offset f + len bs -> rejected false proto pl f bs a = true.
Proof.
  intros (s & e & Hin & Hse) Hx. unfold rejected. rewrite !orb_true_iff. left. right. simpl.
  apply existsb_exists. exists (s, e). rewrite <- list_elem_of_In. split; [done|].
  rewrite andb_true_iff, !Z.ltb_lt. lia.
Qed.

Lemma reassemble_overlap key proto f bs now clock alloc b d a x d' r :
  ipv4_protocol key = None -> fragments d !! key = Some a -> now < expires a ->
  covers (ranges a) x -> offset f <= x < offset f + len bs ->
  reassemble key proto f bs now clock alloc b d = (d', r) ->
  r = None /\ exists a', fragments d' !! key = Some a' /\ poisoned a' = true /\
    expires a' = expires a /\ binding a' = binding a.
Proof.
  intros Hk Ha Hn Hc Hx. unfold reassemble, entry. rewrite (expire_keeps now d key a) by done.
  destruct (poisoned a) eqn:Hp.
  { intros [= <- <-]. split; [done|]. exists a. rewrite (expire_keeps now d key a) by done. done. }
  rewrite Hk, bool_decide_eq_false_2 by (by intros []). rewrite (rejected_overlap proto _ f bs a x) by done.
  unfold poison. destruct (Reassembly.resize _ _ _ _) as [[l held] ok]. intros [= <- <-].
  split; [done|]. eexists. simpl. by rewrite lookup_insert_eq.
Qed.

End contents.

(** ** Accounting *)

Record acct_ok (a : Assembly) : Prop := {
  acct_lease : lease a = ASSEMBLY_METADATA + capacity a;
  acct_capacity : len (data a) <= capacity a;
  acct_poisoned : poisoned a = true -> capacity a = 0;
}.

(** [base] is what the other workers hold. *)
Record Acct (base : Z) (d : t) : Prop := {
  acct_used : Reassembly.used (limits d) = base + msum lease (fragments d);
  acct_word : Reassembly.used (limits d) <= usize_max;
  acct_base : 0 <= base;
  acct_all : forall key a, fragments d !! key = Some a -> acct_ok a;
}.

Section accounting.
Context (METADATA_nonneg : 0 <= ASSEMBLY_METADATA).

Lemma acct_lease_nonneg base d key a : Acct base d -> fragments d !! key = Some a -> 0 <= lease a.
Proof.
  intros Hd Ha. destruct (acct_all _ _ Hd _ _ Ha) as [Hl Hc _]. pose proof (len_nonneg (data a)). lia.
Qed.

Lemma acct_held base d key a :
  Acct base d -> fragments d !! key = Some a -> 0 <= lease a <= Reassembly.used (limits d).
Proof.
  intros Hd Ha. pose proof (acct_lease_nonneg _ _ _ _ Hd Ha).
  pose proof (msum_le_lookup lease (fragments d) key a ltac:(eauto using acct_lease_nonneg) Ha).
  destruct Hd. lia.
Qed.

Lemma acct_put base d key a a' l n :
  Acct base d -> fragments d !! key = Some a -> acct_ok a' ->
  Reassembly.used l = Reassembly.used (limits d) - lease a + lease a' -> Reassembly.used l <= usize_max ->
  Acct base (mkDecoder (<[key := a']> (fragments d)) l n).
Proof.
  intros [Hu Hw Hb Hall] Ha Ha' Hl Hlw. constructor; simpl; try done.
  - rewrite (msum_update lease _ key a) by done. lia.
  - intros k x [[_ <-]|[_ ?]]%lookup_insert_Some; eauto.
Qed.

Lemma acct_del base d key a l n :
  Acct base d -> fragments d !! key = Some a ->
  Reassembly.used l = Reassembly.used (limits d) - lease a ->
  Acct base (mkDecoder (delete key (fragments d)) l n).
Proof.
  intros Hd Ha Hl. pose proof (acct_held _ _ _ _ Hd Ha). destruct Hd as [Hu Hw Hb Hall].
  constructor; simpl; try done; [|lia|].
  - rewrite (msum_delete lease _ key a) by done. lia.
  - intros k x [_ ?]%lookup_delete_Some. eauto.
Qed.

Lemma acct_remove base d key : Acct base d -> Acct base (remove key d).
Proof.
  intros Hd. unfold remove. destruct (fragments d !! key) as [a|] eqn:Ha; [|done].
  eapply acct_del; eauto. apply Reassembly.drop_used; [by eapply acct_held|apply Hd].
Qed.

Lemma acct_expire base now d : Acct base d -> Acct base (expire now d).
Proof.
  intros Hd. unfold expire. destruct (next_expiry d); [|done]. case_bool; [|done].
  pose proof Hd as [Hu Hw Hb Hall].
  set (P := fun x : FragmentKey * Assembly => match x with (_, a) => now < expires a end).
  set (gone := filter (fun x => ~ P x) (fragments d)).
  assert (Hsum : lsum Datatypes.id (lease ∘ snd <$> map_to_list gone) = msum lease gone).
  { rewrite msum_to_list. generalize (map_to_list gone). intros l. induction l; simpl; [done|].
    f_equal. exact IHl. }
  pose proof (msum_filter lease P (fragments d)) as Hpart. fold gone in Hpart.
  assert (Hpos : 0 <= msum lease (filter P (fragments d))).
  { apply msum_nonneg. intros k a [Ha _]%map_lookup_filter_Some. eauto using acct_lease_nonneg. }
  assert (Hdrop : Reassembly.used (foldl Reassembly.drop (limits d) (lease ∘ snd <$> map_to_list gone)) =
                  Reassembly.used (limits d) - msum lease gone).
  { rewrite <- Hsum. apply Reassembly.drops_used; [|lia|done].
    intros h (e & -> & He)%list_elem_of_fmap. destruct e as [k a].
    apply elem_of_map_to_list, map_lookup_filter_Some in He as [Ha _]. simpl. eauto using acct_lease_nonneg. }
  assert (0 <= msum lease gone).
  { apply msum_nonneg. intros k a [Ha _]%map_lookup_filter_Some. eauto using acct_lease_nonneg. }
  match goal with |- Acct _ (mkDecoder ?k ?l _) =>
    change k with (filter P (fragments d));
    change l with (foldl Reassembly.drop (limits d) (lease ∘ snd <$> map_to_list gone))
  end.
  constructor; cbn [limits fragments]; rewrite ?Hdrop; [lia|lia|done|].
  intros k a [Ha _]%map_lookup_filter_Some. eauto.
Qed.

Lemma acct_entry base key proto pl now b d d' o :
  Acct base d -> entry key proto pl now b d = (d', o) ->
  Acct base d' /\ (forall a, o = Some a -> fragments d' !! key = Some a).
Proof.
  intros Hd. pose proof Hd as [Hu Hw Hb Hall]. unfold entry, Reassembly.reserve.
  destruct (fragments d !! key) as [a|] eqn:Ha; [by intros [= <- <-]; split; [|intros ? [= <-]]|].
  assert (Hpos : 0 <= msum lease (fragments d)) by (apply msum_nonneg; eauto using acct_lease_nonneg).
  destruct (Reassembly.resize (limits d) 0 ASSEMBLY_METADATA now) as [[l h] ok] eqn:Hr.
  apply Reassembly.resize_conserves in Hr as (Hl & Hlw & -> & _); [|lia|done|done].
  destruct ok; intros [= <- <-].
  - split; [|intros a [= <-]; simpl; by rewrite lookup_insert_eq].
    constructor; simpl; try done; [rewrite msum_insert by done; simpl; lia|].
    intros k a [[_ <-]|[_ ?]]%lookup_insert_Some; [|eauto]. by constructor; simpl; unfold len; simpl; lia.
  - split; [|done]. pose proof (Reassembly.drop_used l 0 ltac:(lia) Hlw) as Hdr.
    constructor; cbn [limits fragments]; rewrite ?Hdr; try done; lia.
Qed.

(** Shrinking a lease to the metadata always succeeds. *)
Lemma acct_poison base key clock d a a0 n :
  Acct base d -> fragments d !! key = Some a0 -> lease a = lease a0 -> acct_ok a ->
  Acct base (mkDecoder (<[key := snd (poison clock (limits d) a)]> (fragments d))
               (fst (poison clock (limits d) a)) n).
Proof.
  intros Hd Ha Hsame Hok. pose proof (acct_held _ _ _ _ Hd Ha). pose proof (acct_word _ _ Hd).
  pose proof (len_nonneg (data a)). destruct Hok as [Hl Hc _]. unfold poison.
  destruct (Reassembly.resize _ _ _ _) as [[l h] ok] eqn:Hr. simpl.
  apply Reassembly.resize_conserves in Hr as (Hlu & Hlw & Hh & Hshrink); [|lia|done|done].
  rewrite Hshrink in Hh by lia. subst h.
  eapply acct_put; eauto; [constructor; simpl; unfold len; simpl; lia|simpl; lia].
Qed.

Lemma acct_store base key f bs now clock alloc a a0 d d' r :
  Acct base d -> fragments d !! key = Some a0 -> lease a = lease a0 -> acct_ok a -> poisoned a = false ->
  0 <= offset f -> store key f bs now clock alloc a d = (d', r) -> Acct base d'.
Proof.
  intros Hd Ha Hsame Hok Hp Ho. pose proof (acct_held _ _ _ _ Hd Ha). pose proof (acct_word _ _ Hd).
  pose proof (len_nonneg (data a)). pose proof (len_nonneg bs). destruct Hok as [Hl Hc _]. unfold store.
  destruct (Reassembly.resize (limits d) _ _ _) as [[l h] ok] eqn:Hr.
  apply Reassembly.resize_conserves in Hr as (Hlu & Hlw & Hh & _); [|lia|done|lia].
  assert (Hfail : forall l h, Reassembly.used l = Reassembly.used (limits d) - lease a + h ->
     0 <= h -> Reassembly.used l <= usize_max ->
     Acct base (mkDecoder (delete key (fragments d)) (Reassembly.drop l h) (next_expiry d))).
  { intros l0 h0 Hl0 Hh0 Hw0. eapply acct_del; eauto. rewrite Reassembly.drop_used; lia. }
  destruct ok; [|intros [= <- <-]; apply Hfail; done || lia].
  set (cap := reserve_exact _ _ _). set (n := Z.max (len (data a)) (offset f + len bs)) in *.
  assert (Hcap : n <= cap) by (unfold cap, reserve_exact; case_bool; lia).
  destruct (Reassembly.resize l h _ _) as [[l2 h2] ok2] eqn:Hr2.
  apply Reassembly.resize_conserves in Hr2 as (Hlu2 & Hlw2 & Hh2 & _); [|lia|done|lia].
  destruct ok2; [|intros [= <- <-]; apply Hfail; done || lia].
  assert (Hgrown : len (resize n 0 (data a)) = n) by (rewrite len_resize; lia).
  cbn [ranges total binding expires protocol prefix].
  destruct (asm_add (ranges a) (offset f) (len bs)) as [q|].
  - assert (Hwhole : len (overwrite (offset f) bs (resize n 0 (data a))) = n) by (rewrite len_overwrite; lia).
    case_bool_decide; intros [= <- <-].
    + eapply acct_del; eauto. rewrite Reassembly.drop_used; simpl; lia.
    + eapply acct_put; eauto; [constructor; simpl; done || lia|simpl; lia].
  - set (a2 := mkAssembly _ _ _ _ _ _ _ _ _ _).
    destruct (poison clock l2 a2) as [l3 a3] eqn:Hq. intros [= <- <-].
    set (d2 := mkDecoder (<[key := a2]> (fragments d)) l2 (next_expiry d)).
    assert (Hd2 : Acct base d2) by (eapply acct_put; eauto; [constructor; simpl; done || lia|simpl; lia]).
    pose proof (acct_poison base key clock d2 a2 a2 (next_expiry d) Hd2) as Hfin.
    cbn [limits fragments d2] in Hfin. rewrite Hq in Hfin. simpl in Hfin. rewrite insert_insert_eq in Hfin.
    apply Hfin; [apply lookup_insert_eq|done|constructor; simpl; done || lia].
Qed.

Lemma acct_reassemble base key proto f bs now clock alloc b d d' r :
  Acct base d -> 0 <= offset f -> reassemble key proto f bs now clock alloc b d = (d', r) -> Acct base d'.
Proof.
  intros Hd Ho. unfold reassemble.
  destruct (entry _ _ _ _ _ (expire now d)) as [d1 o] eqn:He.
  apply (acct_entry base) in He as [Hd1 Hlook]; [|by apply acct_expire].
  destruct o as [a|]; [|by intros [= <- <-]]. specialize (Hlook a eq_refl).
  destruct (poisoned a) eqn:Hp; [by intros [= <- <-]|].
  set (ipv4 := bool_decide _). set (a1 := if ipv4 then _ else a).
  assert (Ha1 : lease a1 = lease a /\ acct_ok a1 /\ poisoned a1 = false).
  { pose proof (acct_all _ _ Hd1 _ _ Hlook) as Hok. unfold a1. destruct ipv4; [|done].
    split_and!; try done. destruct Hok. by constructor. }
  destruct Ha1 as (Hl & Hok & Hp1). case_bool.
  - destruct (poison clock (limits d1) a1) as [l2 a2] eqn:Hq. intros [= <- <-].
    pose proof (acct_poison base key clock d1 a1 a (next_expiry d1) Hd1 Hlook Hl Hok) as Hfin.
    by rewrite Hq in Hfin.
  - intros Hs. eapply acct_store; eauto.
Qed.

(** Calls of this decoder alone, on fragments whose offset [parse] produced. *)
Definition op_own (o : op) : Prop :=
  match o with
  | Deliver _ _ f _ _ _ _ _ => 0 <= offset f
  | DeliverBound _ _ _ f _ _ _ _ => 0 <= offset f
  | Others _ => False
  | _ => True
  end.

Lemma acct_step base d o : Acct base d -> op_own o -> Acct base (fst (step d o)).
Proof.
  intros Hd Ho. destruct o as [k proto f bs now clock alloc b|flag b proto f bs now clock alloc|now|order|l];
    simpl in *; [..|done].
  - destruct (reassemble _ _ _ _ _ _ _ _ d) as [d1 q] eqn:Hr. eauto using acct_reassemble.
  - unfold decode_fragment. case_bool; [done|]. destruct (reassemble _ _ _ _ _ _ _ _ _) as [d1 q] eqn:Hr.
    simpl. eapply acct_reassemble; [|done|done]. case_bool; [by apply acct_remove|done].
  - by apply acct_expire.
  - unfold discard_oldest. destruct (min_by_key _ _) as [[k x]|]; [by apply acct_remove|done].
Qed.

Lemma acct_run base os d : Acct base d -> Forall op_own os -> Acct base (fst (run d os)).
Proof.
  revert d. induction os as [|o os IH]; intros d Hd Hos; [done|]. apply Forall_cons in Hos as [Ho Hos].
  simpl. pose proof (acct_step base d o Hd Ho) as Hd1. destruct (step d o) as [d1 r]. simpl in Hd1.
  specialize (IH d1 Hd1 Hos). by destruct (run d1 os).
Qed.

(** ** Completion of a datagram *)

Section completion.
Context `{!AssemblerLaws A}.
Context (key : FragmentKey) (D : bytes) (proto max_prefix max_alloc base init t0 : Z).
Context (Hsize : 0 < len D <= 65535 - max_prefix) (Hprefix : 0 <= max_prefix).
Context (Halloc : 65535 <= max_alloc) (Hbase : 0 <= base).
Context (Hinit : base + ASSEMBLY_METADATA + max_alloc <= init <= usize_max).

(** One arrival: a fragment, and the clock readings and allocation of its delivery. *)
Record arrival := mkArrival { fr : Fragment; payload : bytes; at_ : Z; later : Z; allocated : Z }.

Definition deliver (x : arrival) : op := Deliver key proto (fr x) (payload x) (at_ x) (later x) (allocated x) None.

Definition holds_byte (x : arrival) (i : Z) : Prop := offset (fr x) <= i < offset (fr x) + len (payload x).

(** A fragment as a correct sender emits it, arriving within the lifetime. *)
Record arrival_ok (x : arrival) : Prop := {
  arr_fragment : fragment_of D (fr x) (payload x);
  arr_nonempty : len (payload x) <> 0;
  arr_multiple : more (fr x) = true -> len (payload x) `mod` 8 = 0;
  arr_prefix : 0 <= prefix_len (fr x) <= max_prefix;
  arr_time : t0 <= at_ x < t0 + REASSEMBLY_LIFETIME;
  arr_alloc : allocated x <= max_alloc;
}.

(** What IPv6 asks of a sender besides: one header chain, and ports in the first fragment. *)
Definition arrival_v6 (x : arrival) : Prop :=
  ipv4_protocol key = None ->
  prefix_len (fr x) = max_prefix /\ (offset (fr x) = 0 -> complete_transport_header proto (payload x) = true).

(** It also asks that no byte is sent twice. *)
Definition arrival_apart (done : list arrival) (x : arrival) : Prop :=
  ipv4_protocol key = None -> forall y i, y ∈ done -> holds_byte x i -> ~ holds_byte y i.

Fixpoint arrivals_apart (done xs : list arrival) : Prop :=
  match xs with [] => True | x :: xs => arrival_apart done x /\ arrivals_apart (done ++ [x]) xs end.

Record assembling (done : list arrival) (a : Assembly) : Prop := {
  live_content : content_ok D a;
  live_clean : poisoned a = false;
  live_protocol : protocol a = proto;
  live_prefix : prefix a <= max_prefix;
  live_prefix_v6 : ipv4_protocol key = None -> prefix a = max_prefix;
  live_expires : t0 + REASSEMBLY_LIFETIME <= expires a;
  live_acct : acct_ok a;
  live_capacity : capacity a <= max_alloc;
  live_covers : forall x i, x ∈ done -> holds_byte x i -> covers (ranges a) i;
  live_exact : forall i, covers (ranges a) i -> exists x, x ∈ done /\ holds_byte x i;
  live_total : forall x, x ∈ done -> more (fr x) = false -> total a = Some (len D);
  live_count : (length (asm_iter (ranges a)) <= length done)%nat;
  live_open : total a <> Some (asm_front (ranges a));
}.

Definition budget (d : t) (held : Z) : Prop :=
  Reassembly.used (limits d) = base + held /\ Capacity.wf (Reassembly.capacity (limits d)) /\
  Capacity.initial (Reassembly.capacity (limits d)) = init.

(** Only this datagram is being assembled, from the arrivals so far. *)
Definition live (done : list arrival) (d : t) : Prop :=
  (done = [] /\ fragments d = ∅ /\ budget d 0) \/
  (exists a, fragments d = {[key := a]} /\ assembling done a /\ budget d (lease a)).

Lemma live_expire done d now :
  now < t0 + REASSEMBLY_LIFETIME -> live done d -> live done (expire now d).
Proof.
  intros Hn. unfold expire. destruct (next_expiry d); [|done]. case_bool; [|done].
  intros [(-> & Hf & Hb)|(a & Hf & Ha & Hb)].
  - left. rewrite Hf. simpl. rewrite !map_filter_empty. done.
  - right. exists a. rewrite Hf. simpl. pose proof (live_expires _ _ Ha).
    rewrite map_filter_singleton_True, map_filter_singleton_False by (simpl; lia).
    rewrite map_to_list_empty. simpl. done.
Qed.

(** The entry for the next arrival. *)
Lemma live_entry done d x d' o :
  arrival_ok x -> arrival_v6 x -> live done d -> entry key proto (prefix_len (fr x)) (at_ x) None d = (d', o) ->
  exists a, o = Some a /\ fragments d' = {[key := a]} /\ assembling done a /\ budget d' (lease a).
Proof.
  intros Hx Hv6 Hl. unfold entry. destruct Hl as [(-> & Hf & Hb)|(a & Hf & Ha & Hb)]; rewrite Hf.
  - rewrite lookup_empty. unfold Reassembly.reserve. destruct Hb as (Hu & Hwf & Hi).
    destruct (Reassembly.resize_within (limits d) 0 ASSEMBLY_METADATA (at_ x) init) as (c & -> & Hwf' & Hi');
      try done; try lia. intros [= <- <-]. eexists. split; [done|].
    split; [done|]. split; [|split_and!; simpl; done || lia].
    destruct Hx as [_ _ _ ? ? _].
    constructor; simpl; try done; try lia; [|by intros Hk; apply Hv6|constructor; simpl; unfold len; simpl; done || lia|..].
    + constructor; simpl; [by intros i ?%asm_new_empty|rewrite len_nil; lia|done].
    + by intros y i ?%elem_of_nil.
    + by intros i ?%asm_new_empty.
    + by intros y ?%elem_of_nil.
    + destruct (asm_iter asm_new) as [|[s e] l] eqn:Hit; [simpl; lia|].
      exfalso. assert (Hin : (s, e) ∈ asm_iter asm_new) by (rewrite Hit; set_solver).
      pose proof (asm_range_nonempty _ _ _ Hin). apply (asm_new_empty s). exists s, e. split; [done|lia].
  - rewrite lookup_singleton_eq. intros [= <- <-]. exists a. done.
Qed.

(** A correct sender's fragment passes every test. *)
Lemma live_accepted done a x :
  arrival_ok x -> arrival_v6 x -> arrival_apart done x -> assembling done a -> prefix_len (fr x) <= prefix a ->
  let ipv4 := bool_decide (ipv4_protocol key <> None) in
  rejected ipv4 proto (if ipv4 then prefix a else prefix_len (fr x)) (fr x) (payload x) a = false.
Proof.
  intros [(Ho & Hend & Hbs & Hlast) Hne Hm8 Hpl _ _] Hv6 Hap [[Hcov Hlen Htot] Hp Hproto Hprl Hpr6 _ _ _ _ Hex _ _ _] Hle ipv4.
  assert ((if ipv4 then prefix a else prefix_len (fr x)) = prefix a) as ->.
  { unfold ipv4. case_bool_decide as Hk; [done|]. rewrite Hpr6 by done. by apply Hv6. }
  unfold rejected. rewrite !orb_false_iff. simpl. rewrite Hproto.
  split_and!; try done; try (apply Z.eqb_neq; done); try (apply Z.ltb_ge; lia); try (apply negb_false_iff, Z.eqb_refl).
  - unfold ipv4. case_bool_decide as Hk; [done|]. destruct (Hv6 Hk) as [_ Hfirst].
    destruct (Z.eqb_spec (offset (fr x)) 0) as [Hz|]; [by rewrite Hfirst|done].
  - destruct (more (fr x)); [|done]. simpl. apply negb_false_iff, Z.eqb_eq. auto.
  - destruct (total a) as [n|] eqn:Hn; [|done]. rewrite (Htot n eq_refl). apply orb_false_iff.
    split; [apply Z.ltb_ge; lia|]. destruct (more (fr x)); [done|]. simpl.
    apply negb_false_iff, Z.eqb_eq. auto.
  - destruct (more (fr x)); [done|]. simpl. apply Z.ltb_ge. rewrite Hlast by done. lia.
  - unfold ipv4. case_bool_decide as Hk; [done|]. cbn [negb andb]. apply not_true_iff_false.
    intros ([s e] & Hin & Hov)%existsb_exists. apply list_elem_of_In in Hin. pose proof (asm_range_nonempty _ _ _ Hin).
    apply andb_true_iff in Hov as [Hs%Z.ltb_lt He%Z.ltb_lt]. pose proof (len_nonneg (payload x)).
    destruct (Hex (Z.max s (offset (fr x)))) as (y & Hy & Hby); [exists s, e; split; [done|lia]|].
    apply (Hap Hk y (Z.max s (offset (fr x))) Hy); [unfold holds_byte; lia|done].
Qed.

(** Storing it either completes the datagram or records the arrival. *)
Lemma live_store done d a0 a x d' r :
  arrival_ok x -> fragments d = {[key := a0]} -> assembling done a -> budget d (lease a) ->
  (length done < asm_max)%nat ->
  store key (fr x) (payload x) (at_ x) (later x) (allocated x) a d = (d', r) ->
  r = Some D \/ (r = None /\ live (done ++ [x]) d').
Proof.
  intros Hx Hf Ha (Hu & Hwf & Hi) Hroom. unfold store.
  pose proof Hx as [Hfr Hne _ _ _ Hal]. pose proof Hfr as (Ho & Hend & _ & Hlast).
  pose proof Ha as [Hcont Hp Hproto Hprl Hpr6 Hexp [Hl Hc _] Hcap Hcov Hex Htot Hcount Hopen].
  pose proof (ok_length _ _ Hcont) as Hdl. pose proof (len_nonneg (data a)). pose proof (len_nonneg (payload x)).
  set (n := Z.max (len (data a)) (offset (fr x) + len (payload x))).
  destruct (Reassembly.resize_within (limits d) (lease a) (ASSEMBLY_METADATA + Z.max (capacity a) n) (at_ x) init)
    as (c & -> & Hwf1 & Hi1); try done; try lia.
  set (cap := reserve_exact _ _ _).
  assert (Hcap' : n <= cap <= max_alloc) by (unfold cap, reserve_exact; case_bool; lia).
  destruct (Reassembly.resize_within (Reassembly.mkLimits
      (Reassembly.used (limits d) - lease a + (ASSEMBLY_METADATA + Z.max (capacity a) n)) c
      (Reassembly.pressure (limits d))) (ASSEMBLY_METADATA + Z.max (capacity a) n)
      (ASSEMBLY_METADATA + cap) (at_ x) init) as (c2 & -> & Hwf2 & Hi2); simpl; try done; try lia.
  destruct (asm_add (ranges a) (offset (fr x)) (len (payload x))) as [q|] eqn:Hadd;
    [|exfalso; revert Hadd; apply asm_room; lia].
  destruct (content_stored D (fr x) (payload x) a q Hfr Hne Hcont Hadd) as [Hwl Hwc]. fold n in Hwl, Hwc.
  set (whole := overwrite _ _ _) in *.
  assert (Ht : forall m, (if more (fr x) then total a else Some (offset (fr x) + len (payload x))) = Some m ->
               m = len D).
  { intros m. destruct (more (fr x)); [apply Hcont|]. intros [= <-]. auto. }
  case_bool_decide as Hdone; intros [= <- <-].
  - left. f_equal. apply (content_complete D q); [lia|lia|done|]. by apply Ht.
  - right. split; [done|]. right. eexists. simpl. rewrite Hf, insert_singleton_eq.
    split; [done|]. split; [|split_and!; simpl; done || lia].
    assert (Hadds := asm_add_covers _ _ _ _ Ho ltac:(apply Z.le_neq; split; done) Hadd).
    constructor; simpl; try done; try lia.
    + constructor; simpl; [done|lia|done].
    + constructor; simpl; done || lia.
    + intros y i [Hy|Hy]%elem_of_app Hi0; apply Hadds; [left; eauto|].
      apply list_elem_of_singleton in Hy as ->. right. done.
    + intros i [Hc0|Hi0]%Hadds; [destruct (Hex i Hc0) as (y & Hy & ?); exists y|exists x];
        (split; [apply elem_of_app|done]); [by left|right; by apply list_elem_of_singleton].
    + intros y [Hy|Hy]%elem_of_app Hm.
      * specialize (Htot y Hy Hm). destruct (more (fr x)) eqn:Hmx; [done|]. f_equal. auto.
      * apply list_elem_of_singleton in Hy as ->. rewrite Hm. f_equal. auto.
    + apply asm_count in Hadd. rewrite length_app. simpl. lia.
Qed.

Lemma live_step done d x d' r :
  arrival_ok x -> arrival_v6 x -> arrival_apart done x -> live done d -> (length done < asm_max)%nat -> step d (deliver x) = (d', r) ->
  r = Some (key, D) \/ (r = None /\ live (done ++ [x]) d').
Proof.
  intros Hx Hv6 Hap Hl Hroom. unfold deliver, step, reassemble.
  apply (live_expire done d (at_ x)) in Hl; [|apply Hx].
  destruct (entry _ _ _ _ _ (expire (at_ x) d)) as [d1 o] eqn:He.
  destruct (live_entry _ _ _ _ _ Hx Hv6 Hl He) as (a & -> & Hf & Ha & Hb).
  rewrite (live_clean _ _ Ha). cbn zeta. set (a1 := if bool_decide _ then _ else a).
  assert (Ha1 : assembling done a1 /\ prefix_len (fr x) <= prefix a1 /\ lease a1 = lease a).
  { pose proof (arr_prefix _ Hx). unfold a1. case_bool_decide as Hk.
    - split; [|simpl; split; [lia|done]]. destruct Ha as [[? ? ?] Hcl ? ? ? ? [? ? ?] ? ? ? ? ? ?].
      constructor; simpl; try done; try lia; by constructor.
    - split_and!; [done| |done]. rewrite (live_prefix_v6 _ _ Ha Hk). lia. }
  destruct Ha1 as (Ha1 & Hle & Hlease). rewrite <- Hlease in Hb. rewrite (live_accepted done a1 x) by done.
  destruct (store _ _ _ _ _ _ a1 d1) as [d3 q] eqn:Hs. intros [= <- <-].
  apply (live_store done d1 a a1 x) in Hs as [->|[-> Hlive]]; try done; [by left|by right].
Qed.

(** A datagram all of whose bytes arrived is not still open. *)
Lemma live_not_complete done d :
  live done d -> (forall i, 0 <= i < len D -> exists x, x ∈ done /\ holds_byte x i) ->
  (exists x, x ∈ done /\ more (fr x) = false) -> False.
Proof.
  intros [(-> & _)|(a & _ & Ha & _)] Hall (z & Hz & Hm); [by apply elem_of_nil in Hz|].
  apply (live_open _ _ Ha). rewrite (live_total _ _ Ha z Hz Hm). f_equal.
  destruct (asm_front_gap (ranges a)) as [Hpos Hgap].
  destruct (Z.lt_trichotomy (len D) (asm_front (ranges a))) as [Hlt|[Heq|Hgt]]; [|done|].
  - exfalso. assert (Hc : covers (ranges a) (len D)) by (apply asm_front_covered; lia).
    destruct (ok_covered _ _ (live_content _ _ Ha) _ Hc). pose proof (ok_length _ _ (live_content _ _ Ha)). lia.
  - exfalso. apply Hgap. destruct (Hall (asm_front (ranges a))) as (x & Hx & Hi); [lia|].
    by eapply (live_covers _ _ Ha).
Qed.

Lemma live_run xs done d d' rs :
  Forall arrival_ok xs -> Forall arrival_v6 xs -> arrivals_apart done xs -> live done d -> (length done + length xs <= asm_max)%nat ->
  run d (deliver <$> xs) = (d', rs) -> (key, D) ∈ rs \/ live (done ++ xs) d'.
Proof.
  revert done d rs. induction xs as [|x xs IH]; intros done d rs Hxs Hv6 Hap Hl Hroom Hrun.
  { simplify_eq/=. right. by rewrite app_nil_r. }
  apply Forall_cons in Hxs as [Hx Hxs]. apply Forall_cons in Hv6 as [Hx6 Hv6]. destruct Hap as [Hapx Hap]. rewrite fmap_cons in Hrun. cbn [run length] in Hrun, Hroom.
  destruct (step d (deliver x)) as [d1 r] eqn:Hs. destruct (run d1 (deliver <$> xs)) as [d2 rs2] eqn:Hr.
  simplify_eq.
  destruct (live_step _ _ _ _ _ Hx Hx6 Hapx Hl ltac:(lia) Hs) as [->|[-> Hl1]]; [left; set_solver|].
  destruct (IH (done ++ [x]) d1 rs2 Hxs Hv6 Hap Hl1) as [?|?]; [rewrite length_app; simpl; lia|done| |].
  - left. set_solver.
  - right. by rewrite <- app_assoc in *.
Qed.

(** A datagram all of whose bytes arrive is delivered. *)
Lemma run_completes xs d d' rs :
  Forall arrival_ok xs -> Forall arrival_v6 xs -> arrivals_apart [] xs ->
  fragments d = ∅ -> budget d 0 -> (length xs <= asm_max)%nat ->
  (forall i, 0 <= i < len D -> exists x, x ∈ xs /\ holds_byte x i) -> (exists x, x ∈ xs /\ more (fr x) = false) ->
  run d (deliver <$> xs) = (d', rs) -> (key, D) ∈ rs.
Proof.
  intros Hxs Hv6 Hap Hf Hb Hroom Hall Hlast Hrun.
  destruct (live_run xs [] d d' rs) as [?|Hl]; try done; [by left|]. exfalso. by eapply live_not_complete.
Qed.

(** IPv4 asks nothing more of a sender. *)
Lemma ipv4_unconstrained before xs : ipv4_protocol key <> None -> Forall arrival_v6 xs /\ arrivals_apart before xs.
Proof.
  intros Hk. split; [apply Forall_forall; by intros x _ ?|]. revert before.
  induction xs as [|x xs IH]; intros before; cbn; [done|]. split; [by intros ?|apply IH].
Qed.
End completion.
End accounting.
(** ** Properties *)

(** C6. Reassembly is faithful: whatever else the decoder does in between (other datagrams,
    expiry, discards under pressure, accounting by other workers), if every fragment
    delivered under a key belongs to one datagram, then every datagram it completes for that
    key is exactly that payload, whatever the order, overlap or repetition of the fragments. *)
Theorem reassembly_yields_datagram `{!AssemblerLaws A} key D l os d rs out :
  Forall (op_of key D) os -> run (new l) os = (d, rs) -> (key, out) ∈ rs -> out = D.
Proof.
  intros Hos Hrun. apply (run_content key D os (new l) d rs); [|done..].
  intros a Ha. simpl in Ha. by rewrite lookup_empty in Ha.
Qed.

(** C11. Reassembly of one IPv4 datagram completes.  Let the decoder hold no assembly, and let only
    fragments of this datagram be given to it, within one reassembly lifetime, in any order and with
    any overlaps and repetitions, none empty and all but the last a multiple of eight bytes, that carry
    every byte and include the last one, no more of them (repetitions counted) than the range tracker
    has slots.  If the shared allowance
    has room for one assembly with the largest buffer beside what other workers hold, and the payload
    with the longest header fits in 65535 bytes, the datagram is delivered. *)
Theorem ipv4_reassembly_completes `{!AssemblerLaws A} key D proto max_prefix max_alloc base init t0 d xs d' rs :
  0 <= ASSEMBLY_METADATA -> ipv4_protocol key <> None ->
  0 < len D <= 65535 - max_prefix -> 0 <= max_prefix -> 65535 <= max_alloc -> 0 <= base ->
  base + ASSEMBLY_METADATA + max_alloc <= init <= usize_max ->
  fragments d = ∅ -> budget base init d 0 ->
  Forall (arrival_ok D max_prefix max_alloc t0) xs -> (length xs <= asm_max)%nat ->
  (forall i, 0 <= i < len D -> exists x, x ∈ xs /\ holds_byte x i) ->
  (exists x, x ∈ xs /\ more (fr x) = false) ->
  run d (deliver key proto <$> xs) = (d', rs) -> (key, D) ∈ rs.
Proof.
  intros Hm Hk Hs Hp Ha Hb Hi Hf Hbud Hxs Hroom Hall Hlast Hrun.
  destruct (ipv4_unconstrained key proto max_prefix [] xs Hk) as [Hv6 Hap]. by eapply run_completes.
Qed.

(** RFC 5722: an IPv6 fragment that overlaps received bytes of its datagram poisons it.
    Nothing is delivered for that identity until the assembly's original expiry, whatever
    fragments arrive and whatever is discarded under pressure. *)
Theorem ipv6_overlap_poisons `{!AssemblerLaws A} key proto f bs now clock alloc b d a x os d1 r d2 rs :
  ipv4_protocol key = None -> fragments d !! key = Some a -> now < expires a ->
  covers (ranges a) x -> offset f <= x < offset f + len bs ->
  reassemble key proto f bs now clock alloc b d = (d1, r) ->
  Forall (op_before key (expires a) (binding a)) os -> run d1 os = (d2, rs) ->
  r = None /\ (forall out, (key, out) ∉ rs) /\
  exists a', fragments d2 !! key = Some a' /\ poisoned a' = true /\ expires a' = expires a.
Proof.
  intros Hk Ha Hn Hc Hx Hr Hos Hrun.
  destruct (reassemble_overlap _ _ _ _ _ _ _ _ _ _ _ _ _ Hk Ha Hn Hc Hx Hr) as (-> & a' & Ha' & Hp & He & Hb).
  rewrite <- He, <- Hb in Hos. destruct (run_poisoned key a' os d1 d2 rs Ha' Hp Hos Hrun) as [? ?].
  split_and!; eauto.
Qed.

(** Everything the decoder stores is paid for: after any calls, the shared counter is what
    the other workers hold plus this decoder's leases, every assembly's lease is its metadata
    and the full capacity of its buffer, which holds its data, and a poisoned one keeps no
    buffer. *)
Theorem decoder_memory_accounted l os :
  0 <= ASSEMBLY_METADATA -> 0 <= Reassembly.used l <= usize_max -> Forall op_own os ->
  let d := fst (run (new l) os) in
  Reassembly.used (limits d) = Reassembly.used l + msum lease (fragments d) /\
  Reassembly.used (limits d) <= usize_max /\
  forall key a, fragments d !! key = Some a ->
    lease a = ASSEMBLY_METADATA + capacity a /\ len (data a) <= capacity a /\
    (poisoned a = true -> capacity a = 0).
Proof.
  intros Hm Hl Hos. simpl.
  destruct (acct_run Hm (Reassembly.used l) os (new l)) as [Hu Hw _ Hall]; [|done|].
  { constructor; simpl; rewrite ?msum_empty; try done; try lia. }
  split_and!; try done. intros key a Ha. by destruct (Hall key a Ha).
Qed.

End decoder.

(** ** A range tracker *)

(** Ranges in the order they were added, up to 32 of them. *)
Fixpoint front_loop (fuel : nat) (l : list (Z * Z)) (x : Z) : Z :=
  match fuel with
  | O => x
  | S fuel =>
      match List.find (fun '(s, t) => (s <=? x) && (x <? t)) l with
      | Some (_, t) => front_loop fuel l t
      | None => x
      end
  end.

Definition ranges_of (l : list (Z * Z)) : list (Z * Z) := filter (fun '(s, t) => s < t) l.

#[export] Instance list_assembler : Assembler (list (Z * Z)) := {|
  asm_new := [];
  asm_clear _ := [];
  asm_add l o n := if (length (ranges_of l) <? 32)%nat then Some ((o, o + n) :: l) else None;
  asm_iter l := ranges_of l;
  asm_front l := front_loop (S (length (ranges_of l))) (ranges_of l) 0;
  asm_max := 32;
|}.

Definition open_ranges (l : list (Z * Z)) (x : Z) : nat := length (filter (fun '(_, t) => x < t) l).

Lemma open_ranges_le l x y : x <= y -> (open_ranges l y <= open_ranges l x)%nat.
Proof.
  intros Hxy. induction l as [|[s t] l IH]; unfold open_ranges in *; simpl; [done|].
  rewrite !filter_cons. destruct (decide (y < t)), (decide (x < t)); simpl; lia.
Qed.

Lemma open_ranges_lt l x s t : (s, t) ∈ l -> x < t -> (open_ranges l t < open_ranges l x)%nat.
Proof.
  induction l as [|[s' t'] l IH]; intros Hin Hx; [by apply elem_of_nil in Hin|].
  pose proof (open_ranges_le l x t ltac:(lia)).
  unfold open_ranges in *. rewrite !filter_cons.
  apply elem_of_cons in Hin as [[= <- <-]|Hin].
  - rewrite decide_False, decide_True by lia. simpl. lia.
  - specialize (IH Hin Hx). destruct (decide (t < t')), (decide (x < t')); simpl; lia.
Qed.

Lemma front_loop_spec fuel l x :
  (open_ranges l x < fuel)%nat ->
  let r := front_loop fuel l x in
  x <= r /\ (forall y, x <= y < r -> exists s t, (s, t) ∈ l /\ s <= y < t) /\
  ~ (exists s t, (s, t) ∈ l /\ s <= r < t).
Proof.
  revert x. induction fuel as [|fuel IH]; intros x Hf; simpl; [lia|].
  destruct (List.find _ l) as [[s t]|] eqn:Hfind.
  - apply List.find_some in Hfind as [Hin Hst]. rewrite <- list_elem_of_In in Hin. zify_bool.
    pose proof (open_ranges_lt l x s t Hin ltac:(lia)).
    destruct (IH t ltac:(lia)) as (Hle & Hcov & Hgap). split_and!; [lia| |done].
    intros y Hy. destruct (decide (y < t)); [exists s, t; split; [done|lia]|apply Hcov; lia].
  - split_and!; [lia|lia|]. intros (s & t & Hin & Hst). rewrite list_elem_of_In in Hin.
    apply (List.find_none _ _ Hfind) in Hin. simpl in Hin.
    rewrite (proj2 (Z.leb_le s x)), (proj2 (Z.ltb_lt x t)) in Hin by lia. done.
Qed.

Lemma front_list l :
  let r := front_loop (S (length (ranges_of l))) (ranges_of l) 0 in
  0 <= r /\ (forall y, 0 <= y < r -> exists s t, (s, t) ∈ ranges_of l /\ s <= y < t) /\
  ~ (exists s t, (s, t) ∈ ranges_of l /\ s <= r < t).
Proof.
  apply front_loop_spec. unfold open_ranges. generalize (ranges_of l). intros k.
  apply Nat.lt_succ_r, length_filter.
Qed.

#[export] Instance list_assembler_laws : AssemblerLaws (list (Z * Z)).
Proof.
  constructor; unfold covers; cbn [asm_new asm_clear asm_add asm_iter asm_front asm_max list_assembler].
  - intros x (s & t & Hin & _). by apply elem_of_nil in Hin.
  - done.
  - intros l o n l' Ho Hn Hadd x. case_bool; simplify_eq. unfold ranges_of.
    rewrite filter_cons_True by lia. split.
    + intros (s & t & [[= -> ->]|Hin]%elem_of_cons & Hst); [right; lia|left; eauto].
    + intros [(s & t & Hin & Hst)|Hx]; [exists s, t|exists o, (o + n)]; set_solver by lia.
  - intros l s t Hin. by apply list_elem_of_filter in Hin as [? _].
  - intros l x Hx. by apply front_list.
  - intros l. split; apply front_list.
  - intros l o n Hroom. by rewrite (proj2 (Nat.ltb_lt _ _)).
  - intros l o n l' Hadd. case_bool; simplify_eq. unfold ranges_of. rewrite filter_cons.
    case_decide; simpl; lia.
Qed.

(** ** Witnesses *)

Definition demo_tcp (b : bytes) : bool := 20 <=? len b.
Definition demo_key4 : FragmentKey := mkKey (Some Udp) (Ipv4 (10 * 2 ^ 24 + 1)) (Ipv4 (10 * 2 ^ 24 + 2)) 7.
Definition demo_key6 : FragmentKey := mkKey None (Ipv6 (2 ^ 125 + 1)) (Ipv6 (2 ^ 125 + 2)) 7.
Definition demo_payload : bytes := [1; 2; 3; 4; 5; 6; 7; 8; 9; 10; 11; 12].
Definition demo_first : Fragment := mkFragment 7 0 true 20.
Definition demo_last : Fragment := mkFragment 7 8 false 20.
Definition demo_limits : Reassembly.Limits := Reassembly.new (4 * Capacity.INITIAL_BYTES) 0.

Definition demo_arrivals : list arrival :=
  [ mkArrival demo_last [9; 10; 11; 12] 10 10 12; mkArrival demo_first [1; 2; 3; 4; 5; 6; 7; 8] 11 11 12 ].

Definition demo_ops : list (op (A := list (Z * Z))) :=
  [ Deliver demo_key4 Udp demo_last [9; 10; 11; 12] 10 10 64 None;
    Deliver demo_key6 Udp demo_first [0; 0; 0; 0; 0; 0; 0; 0] 10 10 64 None;
    Deliver demo_key4 Udp demo_last [9; 10; 11; 12] 11 11 64 None;
    Discard (fun l => rev l);
    Deliver demo_key4 Udp demo_last [9; 10; 11; 12] 12 12 64 None;
    Deliver demo_key4 Udp demo_first [1; 2; 3; 4; 5; 6; 7; 8] 13 13 64 None ].

Lemma demo_fragments : fragment_of demo_payload demo_last [9; 10; 11; 12] /\
  fragment_of demo_payload demo_first [1; 2; 3; 4; 5; 6; 7; 8].
Proof. unfold fragment_of. repeat split; try reflexivity; try (vm_compute; discriminate); done. Qed.

Lemma reassembly_yields_datagram_witness :
  let rs := snd (run demo_tcp 200 (new demo_limits) demo_ops) in
  rs = [(demo_key4, demo_payload)] /\ forall out, (demo_key4, out) ∈ rs -> out = demo_payload.
Proof.
  split; [vm_compute; reflexivity|].
  assert (Hops : Forall (op_of demo_key4 demo_payload) demo_ops).
  { destruct demo_fragments. repeat constructor; done. }
  intros out. exact (reassembly_yields_datagram demo_tcp 200 demo_key4 demo_payload demo_limits demo_ops
    _ _ out Hops (surjective_pairing _)).
Defined.

Lemma demo_arrivals_ok : Forall (arrival_ok demo_payload 20 65535 0) demo_arrivals.
Proof.
  destruct demo_fragments as [Hl Hf].
  constructor; [|constructor; [|constructor]]; constructor; simpl; try lia; try done; unfold REASSEMBLY_LIFETIME; lia.
Qed.

Lemma ipv4_reassembly_completes_witness :
  (demo_key4, demo_payload) ∈ snd (run demo_tcp 200 (new demo_limits) (deliver demo_key4 Udp <$> demo_arrivals)).
Proof.
  apply (ipv4_reassembly_completes demo_tcp 200 demo_key4 demo_payload Udp 20 65535 0 (4 * Capacity.INITIAL_BYTES) 0
            (new demo_limits) demo_arrivals
            (fst (run demo_tcp 200 (new demo_limits) (deliver demo_key4 Udp <$> demo_arrivals)))).
  - lia.
  - discriminate.
  - vm_compute. split; [reflexivity|discriminate].
  - lia.
  - lia.
  - lia.
  - vm_compute. split; discriminate.
  - reflexivity.
  - split; [reflexivity|]. split; [|reflexivity]. vm_compute. repeat split; discriminate.
  - exact demo_arrivals_ok.
  - simpl. lia.
  - intros i Hi. change (len demo_payload) with 12 in Hi. destruct (decide (i < 8)).
    + exists (mkArrival demo_first [1; 2; 3; 4; 5; 6; 7; 8] 11 11 12). split; [right; left|].
      unfold holds_byte; simpl. unfold len; simpl. lia.
    + exists (mkArrival demo_last [9; 10; 11; 12] 10 10 12). split; [left|].
      unfold holds_byte; simpl. unfold len; simpl. lia.
  - exists (mkArrival demo_last [9; 10; 11; 12] 10 10 12). split; [left|reflexivity].
  - apply surjective_pairing.
Defined.

Definition demo_d0 : t (A := list (Z * Z)) :=
  fst (step demo_tcp 200 (new demo_limits)
         (Deliver demo_key6 Udp (mkFragment 7 0 true 0) [1; 2; 3; 4; 5; 6; 7; 8] 10 10 64 None)).
Definition demo_assembly : Assembly (A := list (Z * Z)) :=
  mkAssembly None 264 (10 + REASSEMBLY_LIFETIME) [(0, 8)] [1; 2; 3; 4; 5; 6; 7; 8] 64 Udp 0 None false.
Definition demo_overlap : t (A := list (Z * Z)) * option bytes :=
  reassemble demo_tcp 200 demo_key6 Udp (mkFragment 7 4 true 0) [5; 5; 5; 5; 5; 5; 5; 5] 11 11 64 None demo_d0.
Definition demo_rest : list (op (A := list (Z * Z))) :=
  [Deliver demo_key6 Udp (mkFragment 7 8 false 0) [9; 9] 12 12 64 None; Discard (fun l => rev l)].

Lemma ipv6_overlap_poisons_witness :
  snd demo_overlap = None /\ forall out, (demo_key6, out) ∉ snd (run demo_tcp 200 (fst demo_overlap) demo_rest).
Proof.
  destruct (ipv6_overlap_poisons demo_tcp 200 demo_key6 Udp (mkFragment 7 4 true 0) [5; 5; 5; 5; 5; 5; 5; 5]
    11 11 64 None demo_d0 demo_assembly 4 demo_rest (fst demo_overlap) (snd demo_overlap)
    (fst (run demo_tcp 200 (fst demo_overlap) demo_rest)) (snd (run demo_tcp 200 (fst demo_overlap) demo_rest)))
    as (Hr & Hrs & _); [reflexivity|vm_compute; reflexivity|vm_compute; reflexivity| | |apply surjective_pairing
                       | |apply surjective_pairing|split; [exact Hr|exact Hrs]].
  - exists 0, 8. split; [left|lia].
  - unfold len; simpl. lia.
  - constructor; [vm_compute; reflexivity|constructor; [|constructor]].
    intros l. simpl. symmetry. apply Permutation_rev.
Defined.

Lemma decoder_memory_accounted_witness :
  let d := fst (run demo_tcp 200 (new demo_limits) demo_ops) in
  Reassembly.used (limits d) = Reassembly.used demo_limits + msum lease (fragments d).
Proof.
  assert (Hops : Forall op_own demo_ops) by (repeat (constructor; [simpl; done || lia|]); constructor).
  destruct (decoder_memory_accounted demo_tcp 200 demo_limits demo_ops ltac:(lia)
              ltac:(vm_compute; split; discriminate) Hops) as [Hd _].
  exact Hd.
Defined.

End Decoder.
