(* ===== verification/UdpEncoder.v ===== *)
(** * UDP packets to the device (crates/tun/src/udp.rs)

    The encoder that puts UDP datagrams into IP packets, fragmenting those beyond the MTU, the
    arena its packets are built in (storage.rs), and the validation of a received datagram
    ([Packet::udp_with_checksum], packet.rs).  smoltcp's emitters and checksums are the class
    [Emit], with their documented results as laws. *)

From S2P Require Import Prelude Capacity Reassembly Packet Decoder.
Import Packet.

Module UdpEncoder.

(** ** smoltcp *)

Class Emit := {
  (* the twenty bytes [Ipv4Repr::emit], the setters of the identification, the two flags and the
     byte offset, and [fill_checksum] leave *)
  ipv4_header : IpRepr -> Z -> bool -> bool -> Z -> bytes;
  ipv6_header : IpRepr -> bytes;                      (* [Ipv6Repr::emit] *)
  frag_header : Z -> bool -> Z -> bytes;              (* [Ipv6FragmentRepr::emit] *)
  udp_header : Z -> Z -> Z -> Z -> bytes;             (* the setters of ports, length and checksum *)
  udp_emit : IpAddress -> IpAddress -> Z -> Z -> bytes -> bytes;      (* [UdpRepr::emit] *)
  pseudo_header : IpAddress -> IpAddress -> Z -> Z -> Z;              (* [checksum::pseudo_header] *)
  checksum_data : bytes -> Z;                         (* [checksum::data] *)
  combine : list Z -> Z;                              (* [checksum::combine] *)
  udp_new_checked : bytes -> bool;                    (* [UdpPacket::new_checked] and accessors *)
  udp_src_port : bytes -> Z;
  udp_dst_port : bytes -> Z;
  udp_len : bytes -> Z;
  udp_checksum : bytes -> Z;
  udp_parse : bool -> IpAddress -> IpAddress -> bytes -> bool;
                                                      (* [UdpRepr::parse], unless the checksum is trusted *)
}.

(** What can be put into a header. *)
Record repr_ok (r : IpRepr) : Prop := {
  r_src : 0 <= src r < match family r with V4 => 2 ^ 32 | V6 => 2 ^ 128 end;
  r_dst : 0 <= dst r < match family r with V4 => 2 ^ 32 | V6 => 2 ^ 128 end;
  r_next : 0 <= next_header r <= 255;
  r_payload : 0 <= payload_len r <= match family r with V4 => 65515 | V6 => 65535 end;
  r_hop : 0 <= hop_limit r <= 255;
}.

(** The fields of an IPv4 packet without options are [r]'s, and these fragment fields. *)
Record ipv4_reads `{Wire} (d : bytes) (r : IpRepr) (id : Z) (more : bool) (offset : Z) : Prop := {
  rd_family : of_packet d = Some V4;
  rd_checked : ipv4_new_checked d = true;
  rd_version : ipv4_version d = 4;
  rd_verified : ipv4_verify_checksum d = true;
  rd_header : ipv4_header_len d = 20;
  rd_total : ipv4_total_len d = 20 + payload_len r;
  rd_next : ipv4_next_header d = next_header r;
  rd_hop : ipv4_hop_limit d = hop_limit r;
  rd_src : ipv4_src d = src r;
  rd_dst : ipv4_dst d = dst r;
  rd_ident : ipv4_ident d = id;
  rd_more : ipv4_more_frags d = more;
  rd_offset : ipv4_frag_offset d = offset;
}.

(** The documented results: what is emitted is read back, and the Internet checksum is the sum of
    16-bit words modulo 65535 that is zero only for zero words. *)
Class EmitLaws `{Wire} `{Emit} := {
  ipv4_header_len20 : forall r id df more o, len (ipv4_header r id df more o) = 20;
  ipv4_header_reads : forall r id df more o p,
    family r = V4 -> repr_ok r -> 0 <= id < 65536 -> 0 <= o <= 65528 -> o `mod` 8 = 0 -> len p = payload_len r ->
    ipv4_reads (ipv4_header r id df more o ++ p) r id more o;
  ipv6_header_len40 : forall r, len (ipv6_header r) = 40;
  ipv6_header_reads : forall r p, family r = V6 -> repr_ok r -> len p = payload_len r ->
    of_packet (ipv6_header r ++ p) = Some V6 /\ ipv6_new_checked (ipv6_header r ++ p) = true /\
    ipv6_parse (ipv6_header r ++ p) = Some r /\ ipv6_payload_len (ipv6_header r ++ p) = payload_len r;
  frag_header_len6 : forall o more id, len (frag_header o more id) = 6;
  frag_header_reads : forall o more id, 0 <= o <= 8191 -> 0 <= id < 2 ^ 32 ->
    frag_parse (frag_header o more id) = Some (o, more, id);
  udp_header_len8 : forall s d n c, len (udp_header s d n c) = 8;
  udp_header_bytes : forall s d n c, Forall is_byte (udp_header s d n c);
  udp_header_reads : forall s d n c p,
    0 <= s < 65536 -> 0 <= d < 65536 -> 0 <= n < 65536 -> 0 <= c < 65536 -> n = 8 + len p ->
    let x := udp_header s d n c ++ p in
    udp_new_checked x = true /\ udp_src_port x = s /\ udp_dst_port x = d /\ udp_len x = n /\ udp_checksum x = c;
  udp_emit_spec : forall a b s d p,
    let n := 8 + len p in
    let sum := 65535 - combine [pseudo_header a b Udp n; checksum_data (udp_header s d n 0 ++ p)] in
    udp_emit a b s d p = udp_header s d n (if sum =? 0 then 65535 else sum) ++ p;
  udp_parse_accepts : forall verified a b x,
    udp_new_checked x = true -> udp_dst_port x <> 0 ->
    combine [pseudo_header a b Udp (udp_len x); checksum_data (ztake (udp_len x) x)] = 65535 ->
    udp_parse verified a b x = true;
  combine_range : forall l, Forall (fun x => 0 <= x <= 65535) l -> 0 <= combine l <= 65535;
  combine_sum : forall l, Forall (fun x => 0 <= x <= 65535) l -> combine l `mod` 65535 = lsum Datatypes.id l `mod` 65535;
  combine_zero : forall l, Forall (fun x => 0 <= x <= 65535) l -> combine l = 0 -> lsum Datatypes.id l = 0;
  pseudo_range : forall a b n, 0 <= n -> 0 < pseudo_header a b Udp n <= 65535;
  data_range : forall b, Forall is_byte b -> 0 <= checksum_data b <= 65535;
  data_app : forall a b, Forall is_byte a -> Forall is_byte b -> len a `mod` 2 = 0 ->
    checksum_data (a ++ b) `mod` 65535 = (checksum_data a + checksum_data b) `mod` 65535;
  data_udp : forall s d n c,
    0 <= s < 65536 -> 0 <= d < 65536 -> 0 <= n < 65536 -> 0 <= c < 65536 ->
    checksum_data (udp_header s d n c) `mod` 65535 = (s + d + n + c) `mod` 65535;
}.

(** ** The encoder *)

(** [Encoder]: the identifiers are shared by its clones. *)
Record Encoder := mkEncoder { mtu : Z; id4 : Z; id6 : Z }.

Abbreviation SocketAddr := (IpAddress * Z)%type.

Definition is_ipv4 (a : SocketAddr) : bool := match fst a with Ipv4 _ => true | Ipv6 _ => false end.
Definition word (a : SocketAddr) : Z := match fst a with Ipv4 w | Ipv6 w => w end.

(** [IpRepr::new], [header_len] and [buffer_len] *)
Definition ip_new (source destination : SocketAddr) (protocol payload_len hop : Z) : IpRepr :=
  mkIp (if is_ipv4 source then V4 else V6) (word source) (word destination) protocol payload_len hop.
Definition header_len (r : IpRepr) : Z := match family r with V4 => 20 | V6 => 40 end.
Definition buffer_len (r : IpRepr) : Z := header_len r + payload_len r.
Definition set_payload_len n r := mkIp (family r) (src r) (dst r) (next_header r) n (hop_limit r).
Definition set_next_header n r := mkIp (family r) (src r) (dst r) n (payload_len r) (hop_limit r).

(** [PacketArena::encode] hands out zeroed bytes for a small packet, and a block of the pool, with
    what an earlier packet left in it, for a large one. *)
Definition BLOCK : Z := 16 * 1024.
Definition arena (n : Z) (stale : bytes) : bytes :=
  ztake n (resize n 0 (if BLOCK `div` 2 <? n then stale else [])).

Section encoder.
Context `{Emit}.

(** [Encoder::can_offload] *)
Definition can_offload (e : Encoder) (source destination : SocketAddr) (size : Z) : bool :=
  eqb (is_ipv4 source) (is_ipv4 destination) && negb (snd source =? 0)
  && (size + (if is_ipv4 source then 28 else 48) <=? mtu e).

Definition max_payload (source : SocketAddr) : Z := if is_ipv4 source then 65507 else 65527.

(** The header [IpRepr::emit] writes. *)
Definition ip_header (r : IpRepr) : bytes :=
  match family r with V4 => ipv4_header r 0 true false 0 | V6 => ipv6_header r end.

(** [Encoder::header] *)
Definition header (e : Encoder) (source destination : SocketAddr) (size total : Z) : option bytes :=
  if negb (can_offload e source destination size) || (max_payload source <? total) then None else
  let ip := ip_new source destination Udp (8 + total) 64 in
  Some (ip_header ip ++ udp_header (snd source) (snd destination) ((8 + total) `mod` 65536)
          (pseudo_header (fst source) (fst destination) Udp (8 + total))).

(** [copy_fragment], filling [n] bytes. *)
Definition copy_fragment (header payload : bytes) (offset n : Z) : bytes :=
  if offset =? 0 then header ++ ztake (n - len header) payload
  else slice (offset - len header) (offset - len header + n) payload.

(** The UDP header of a datagram that is sent in fragments. *)
Definition transport (source destination : SocketAddr) (payload : bytes) : bytes :=
  let length := 8 + len payload in
  let bare := udp_header (snd source) (snd destination) (length `mod` 65536) 0 in
  let sum := 65535 - combine [pseudo_header (fst source) (fst destination) Udp length;
                              checksum_data bare; checksum_data payload] in
  udp_header (snd source) (snd destination) (length `mod` 65536) (if sum =? 0 then 65535 else sum).

(** One IPv4 fragment. *)
Definition frame4 (ip : IpRepr) (id size count : Z) (transport payload stale : bytes) (index : Z) : bytes :=
  let length := len transport + len payload in
  let n := Z.min (length - index * size) size in
  let b := arena (20 + n) stale in
  let b := overwrite 0 (ipv4_header (set_payload_len n ip) id false (index + 1 <? count) (index * size)) b in
  overwrite 20 (copy_fragment transport payload (index * size) n) b.

(** One IPv6 fragment: the byte after the next header is not written. *)
Definition frame6 (ip : IpRepr) (id size count : Z) (transport payload stale : bytes) (index : Z) : bytes :=
  let length := len transport + len payload in
  let n := Z.min (length - index * size) size in
  let b := arena (48 + n) stale in
  let b := overwrite 0 (ipv6_header (set_payload_len (n + 8) (set_next_header Ipv6Frag ip))) b in
  let b := overwrite 40 [Udp] b in
  let b := overwrite 42 (frag_header ((index * size) `div` 8) (index + 1 <? count) id) b in
  overwrite 48 (copy_fragment transport payload (index * size) n) b.

Definition div_ceil (a b : Z) : Z := (a + b - 1) `div` b.

(** [Encoder::encode]; [stale] is what the blocks of the pool hold. *)
Definition encode (e : Encoder) (source destination : SocketAddr) (payload : bytes) (stale : Z -> bytes) :
  Encoder * option (list bytes) :=
  if negb (eqb (is_ipv4 source) (is_ipv4 destination)) || (snd source =? 0) || (max_payload source <? len payload)
  then (e, None) else
  let ip := ip_new source destination Udp (8 + len payload) 64 in
  if buffer_len ip <=? mtu e then
    let b := arena (buffer_len ip) (stale 0) in
    let b := overwrite 0 (ip_header ip) b in
    (e, Some [overwrite (header_len ip) (udp_emit (fst source) (fst destination) (snd source) (snd destination) payload) b])
  else
    let t := transport source destination payload in
    let length := 8 + len payload in
    match family ip with
    | V4 =>
        let size := (mtu e - 20) `div` 8 * 8 in
        let count := div_ceil length size in
        (mkEncoder (mtu e) ((id4 e + 1) `mod` 65536) (id6 e),
         Some ((fun i => frame4 ip (id4 e) size count t payload (stale i) i) <$> seqZ 0 count))
    | V6 =>
        let size := (mtu e - 48) `div` 8 * 8 in
        let count := div_ceil length size in
        (mkEncoder (mtu e) (id4 e) ((id6 e + 1) `mod` 2 ^ 32),
         Some ((fun i => frame6 ip (id6 e) size count t payload (stale i) i) <$> seqZ 0 count))
    end.

(** [reply_flow] *)
Definition reply_flow (f : Flow) (from : SocketAddr) : option (SocketAddr * SocketAddr) :=
  if eqb (is_ipv4 from) (is_ipv4 (source f)) && unicast (fst from) then Some (from, source f) else None.

(** ** Received datagrams *)

(** [Packet::flow] *)
Definition flow (r : IpRepr) (s d : Z) : option Flow :=
  if negb (d =? 0) then Some (mkFlow (src_addr r, s) (dst_addr r, d)) else None.

(** [Packet::udp_with_checksum] *)
Definition udp_with_checksum (verified : bool) (r : IpRepr) (payload : bytes) : option (Flow * bytes) :=
  if negb (udp_new_checked payload) then None else
  if negb verified && bool_decide (family r = V6) && (udp_checksum payload =? 0) then None else
  if negb (udp_parse verified (src_addr r) (dst_addr r) payload) then None else
  f ← flow r (udp_src_port payload) (udp_dst_port payload);
  Some (f, slice 8 (udp_len payload) payload).
End encoder.

(** ** Checksums *)

Section roundtrip.
Context `{EmitLaws}.

Lemma combine_full l : Forall (fun x => 0 <= x <= 65535) l -> 0 < lsum Datatypes.id l -> lsum Datatypes.id l `mod` 65535 = 0 -> combine l = 65535.
Proof.
  intros Hl Hpos Hm. pose proof (combine_range l Hl) as Hr. pose proof (combine_sum l Hl) as Hs. rewrite Hm in Hs.
  destruct (decide (combine l = 0)) as [Hz|]; [apply combine_zero in Hz; [lia|done]|].
  apply Z.mod_divide in Hs as [k Hk]; [|lia]. nia.
Qed.

(** The complement of a sum, written where the sum had zero, makes the sum all ones. *)
Lemma checksum_closes s d n p a b sum0 :
  0 <= s < 65536 -> 0 <= d < 65536 -> 0 <= n < 65536 -> Forall is_byte p ->
  let c := if 65535 - sum0 =? 0 then 65535 else 65535 - sum0 in
  0 <= sum0 <= 65535 -> sum0 `mod` 65535 = (pseudo_header a b Udp n + (s + d + n) + checksum_data p) `mod` 65535 ->
  0 < c < 65536 /\ combine [pseudo_header a b Udp n; checksum_data (udp_header s d n c ++ p)] = 65535.
Proof.
  intros Hs Hd Hn Hp c Hr Hm. assert (Hc : 0 < c < 65536 /\ (sum0 + c) `mod` 65535 = 0).
  { unfold c. destruct (Z.eqb_spec (65535 - sum0) 0); [replace sum0 with 65535 by lia; done|].
    split; [lia|]. replace (sum0 + (65535 - sum0)) with 65535 by lia. done. }
  destruct Hc as [Hc Hsum]. split; [done|]. pose proof (pseudo_range a b n ltac:(lia)).
  pose proof (udp_header_bytes s d n c) as Hb. pose proof (data_range (udp_header s d n c ++ p) ltac:(by apply Forall_app)).
  apply combine_full; [repeat constructor; lia|cbn; unfold Datatypes.id; lia|]. cbn [lsum foldr fmap list_fmap]. unfold Datatypes.id.
  pose proof (data_app (udp_header s d n c) p Hb Hp ltac:(rewrite udp_header_len8; done)) as Happ.
  pose proof (data_udp s d n c Hs Hd Hn ltac:(lia)) as Hu.
  revert Hm Hsum Happ Hu. generalize (checksum_data (udp_header s d n c ++ p)) (checksum_data (udp_header s d n c)) (checksum_data p) (pseudo_header a b Udp n).
  intros x y z w Hm Hsum Happ Hu. cbn.
  apply Z.mod_divide in Hsum as [k Hk]; [|lia]. apply Z.mod_divide; [lia|].
  pose proof (Z.div_mod x 65535 ltac:(lia)). pose proof (Z.div_mod (y + z) 65535 ltac:(lia)). pose proof (Z.div_mod y 65535 ltac:(lia)).
  pose proof (Z.div_mod (s + d + n + c) 65535 ltac:(lia)). pose proof (Z.div_mod sum0 65535 ltac:(lia)). pose proof (Z.div_mod (w + (s + d + n) + z) 65535 ltac:(lia)).
  exists (x `div` 65535 - (y + z) `div` 65535 + y `div` 65535 - (s + d + n + c) `div` 65535
          + (w + (s + d + n) + z) `div` 65535 - sum0 `div` 65535 + k). lia.
Qed.

(** A datagram's header carries a checksum that closes the sum. *)
Definition closed (source destination : SocketAddr) (payload head : bytes) : Prop :=
  exists c, 0 < c < 65536 /\ head = udp_header (snd source) (snd destination) (8 + len payload) c /\
    combine [pseudo_header (fst source) (fst destination) Udp (8 + len payload); checksum_data (head ++ payload)] = 65535.

Section datagram.
Context (source destination : SocketAddr) (payload : bytes).
Context (Hs : 0 < snd source < 65536) (Hd : 0 < snd destination < 65536).
Context (Hp : Forall is_byte payload) (Hn : 8 + len payload < 65536).

Lemma transport_closed : closed source destination payload (transport source destination payload).
Proof.
  pose proof (len_nonneg payload). unfold transport. rewrite Z.mod_small by lia. set (sum0 := combine _).
  set (bare := udp_header _ _ _ 0) in *. set (n := 8 + len payload) in *.
  pose proof (pseudo_range (fst source) (fst destination) n ltac:(lia)). pose proof (data_range bare (udp_header_bytes _ _ _ _)).
  pose proof (data_range payload Hp). pose proof (data_udp (snd source) (snd destination) n 0 ltac:(lia) ltac:(lia) ltac:(lia) ltac:(lia)) as Hu.
  assert (Hall : Forall (fun x => 0 <= x <= 65535) [pseudo_header (fst source) (fst destination) Udp n; checksum_data bare; checksum_data payload])
    by (repeat constructor; lia).
  destruct (checksum_closes (snd source) (snd destination) n payload (fst source) (fst destination) sum0) as [Hc Hsum];
    [lia..|done|by apply combine_range| |].
  - unfold sum0. rewrite combine_sum by done. cbn [lsum foldr]. unfold Datatypes.id. fold bare in Hu.
    rewrite Z.add_0_r, Z.add_assoc, <- (Z.add_mod_idemp_l (_ + _)), <- (Z.add_mod_idemp_r _ (checksum_data bare)), Hu by lia.
    rewrite Z.add_mod_idemp_r, Z.add_mod_idemp_l by lia. f_equal. lia.
  - eexists. split; [exact Hc|]. done.
Qed.

Lemma emit_closed : exists head, closed source destination payload head /\
  udp_emit (fst source) (fst destination) (snd source) (snd destination) payload = head ++ payload.
Proof.
  pose proof (len_nonneg payload). rewrite udp_emit_spec. set (sum0 := combine _). set (n := 8 + len payload) in *.
  pose proof (pseudo_range (fst source) (fst destination) n ltac:(lia)). pose proof (data_range payload Hp).
  pose proof (udp_header_bytes (snd source) (snd destination) n 0) as Hb.
  pose proof (data_range (udp_header (snd source) (snd destination) n 0 ++ payload) ltac:(by apply Forall_app)).
  pose proof (data_udp (snd source) (snd destination) n 0 ltac:(lia) ltac:(lia) ltac:(lia) ltac:(lia)) as Hu.
  pose proof (data_app _ payload Hb Hp ltac:(by rewrite udp_header_len8)) as Happ.
  destruct (checksum_closes (snd source) (snd destination) n payload (fst source) (fst destination) sum0) as [Hc Hsum];
    [lia..|done|apply combine_range; repeat constructor; lia| |].
  - unfold sum0. rewrite combine_sum by (repeat constructor; lia). cbn [lsum foldr]. unfold Datatypes.id.
    rewrite Z.add_0_r, <- Z.add_mod_idemp_r, Happ by lia. rewrite Z.add_mod_idemp_r by lia.
    rewrite <- (Z.add_mod_idemp_r _ (_ + checksum_data payload)), <- (Z.add_mod_idemp_l _ (checksum_data payload)), Hu by lia.
    rewrite Z.add_mod_idemp_l, Z.add_mod_idemp_r by lia. f_equal. lia.
  - eexists. split; [|reflexivity]. eexists. split; [exact Hc|]. done.
Qed.

Lemma len_closed head : closed source destination payload head -> len head = 8.
Proof. intros (c & _ & -> & _). apply udp_header_len8. Qed.

(** Such a datagram is accepted, with or without the checksum. *)
Lemma closed_accepted verified r head :
  closed source destination payload head -> src_addr r = fst source -> dst_addr r = fst destination ->
  udp_with_checksum verified r (head ++ payload) = Some (mkFlow source destination, payload).
Proof.
  intros (c & Hc & -> & Hsum) Hsrc Hdst. pose proof (len_nonneg payload). set (n := 8 + len payload) in *.
  destruct (udp_header_reads (snd source) (snd destination) n c payload) as (Hnew & Hsp & Hdp & Hlen & Hck); [lia..|done|].
  unfold udp_with_checksum. rewrite Hnew, Hck, Hsp, Hdp, Hlen, Hsrc, Hdst. cbn [negb].
  assert (Hl : len (udp_header (snd source) (snd destination) n c ++ payload) = n) by (rewrite len_app, udp_header_len8; done).
  rewrite udp_parse_accepts; [|done|lia|rewrite Hlen, ztake_ge by lia; done].
  replace (c =? 0) with false by (symmetry; apply Z.eqb_neq; lia). rewrite andb_false_r. cbn [negb].
  unfold flow. rewrite Hsrc, Hdst. replace (snd destination =? 0) with false by (symmetry; apply Z.eqb_neq; lia). cbn [negb mbind option_bind].
  unfold slice. rewrite (zdrop_app_exact 8) by (by rewrite udp_header_len8). rewrite ztake_ge by lia. by destruct source, destination.
Qed.
End datagram.

(** ** Packets *)

Lemma parse_ipv4_emitted r id df more o p :
  family r = V4 -> repr_ok r -> 0 <= id < 65536 -> 0 <= o <= 65528 -> o `mod` 8 = 0 -> len p = payload_len r ->
  unicast (src_addr r) = true -> unicast (dst_addr r) = true -> hop_limit r <> 0 ->
  (more || negb (o =? 0) = true -> 0 < len p /\ o + len p <= 65515 /\ (more = true -> len p `mod` 8 = 0)) ->
  parse (ipv4_header r id df more o ++ p) =
    Some (mkParsed r 20 p (if more || negb (o =? 0) then Some (mkFragment id o more 20) else None)).
Proof.
  intros Hf Hr Hid Ho Ho8 Hlen Hus Hud Hhop Hfrag. pose proof (len_nonneg p).
  destruct (ipv4_header_reads r id df more o p Hf Hr Hid Ho Ho8 Hlen). set (d := _ ++ p) in *.
  assert (Hld : len d = 20 + len p) by (unfold d; rewrite len_app, ipv4_header_len20; done).
  assert (Hpay : slice 20 (20 + payload_len r) d = p).
  { unfold slice, d. rewrite zdrop_app_exact by (by rewrite ipv4_header_len20). rewrite ztake_ge; [done|lia]. }
  unfold parse. replace (len d =? 0) with false by (symmetry; apply Z.eqb_neq; lia). rewrite rd_family0. cbn [mbind option_bind].
  unfold parse_ipv4. rewrite rd_checked0, rd_version0, rd_verified0, rd_header0, rd_total0, rd_next0, rd_hop0, rd_src0, rd_dst0, rd_ident0, rd_more0, rd_offset0, Hpay.
  cbn [negb orb Z.eqb Pos.eqb]. assert (slice 20 20 d = []) as -> by (unfold slice; apply ztake_0). cbn [ipv4_options length ipv4_options_loop negb].
  assert (mkIp V4 (src r) (dst r) (next_header r) (len p) (hop_limit r) = r) as -> by (rewrite Hlen, <- Hf; by destruct r).
  destruct (more || negb (o =? 0)) eqn:Hm.
  - destruct (Hfrag eq_refl) as (Hpos & Hend & H8). cbn [offset Packet.more].
    replace (len p =? 0) with false by (symmetry; apply Z.eqb_neq; lia). replace (65515 <? o + len p) with false by (symmetry; apply Z.ltb_ge; lia).
    assert (more && negb (len p `mod` 8 =? 0) = false) as -> by (destruct more; [by rewrite H8|done]). cbn [orb mbind option_bind ip].
    rewrite Hus, Hud. replace (hop_limit r =? 0) with false by (symmetry; by apply Z.eqb_neq). done.
  - cbn [mbind option_bind ip]. rewrite Hus, Hud. replace (hop_limit r =? 0) with false by (symmetry; by apply Z.eqb_neq). done.
Qed.

Lemma parse_ipv6_emitted r p q rest f :
  family r = V6 -> repr_ok r -> len p = payload_len r ->
  unicast (src_addr r) = true -> unicast (dst_addr r) = true -> hop_limit r <> 0 ->
  ipv6_extensions (next_header r) p = Some (q, rest, f) ->
  parse (ipv6_header r ++ p) = Some (mkParsed (mkIp V6 (src r) (dst r) q (len rest) (hop_limit r)) (40 + (len p - len rest)) rest f).
Proof.
  intros Hf Hr Hlen Hus Hud Hhop Hext. pose proof (len_nonneg p).
  destruct (ipv6_header_reads r p Hf Hr Hlen) as (Hfam & Hchk & Hparse & Hpl). set (d := _ ++ p) in *.
  assert (Hld : len d = 40 + len p) by (unfold d; rewrite len_app, ipv6_header_len40; done).
  unfold parse. replace (len d =? 0) with false by (symmetry; apply Z.eqb_neq; lia). rewrite Hfam. cbn [mbind option_bind].
  unfold parse_ipv6. rewrite Hchk, Hparse, Hpl. cbn [negb mbind option_bind].
  assert (slice 40 (40 + payload_len r) d = p) as ->.
  { unfold slice, d. rewrite zdrop_app_exact by (by rewrite ipv6_header_len40). rewrite ztake_ge; [done|lia]. }
  rewrite Hext. cbn [mbind option_bind ip hop_limit]. unfold src_addr, dst_addr in *. rewrite Hf in Hus, Hud. cbn [family src dst].
  rewrite Hus, Hud. replace (hop_limit r =? 0) with false by (symmetry; by apply Z.eqb_neq). done.
Qed.

Lemma extensions_plain p : ipv6_extensions Udp p = Some (Udp, p, None).
Proof. done. Qed.

Lemma extensions_fragment reserved o more id chunk :
  0 <= o <= 8191 -> 0 <= id < 2 ^ 32 -> more || negb (o =? 0) = true ->
  ipv6_extensions Ipv6Frag ([Udp; reserved] ++ frag_header o more id ++ chunk) = Some (Udp, chunk, Some (mkFragment id (o * 8) more 0)).
Proof.
  intros Ho Hid Hm. set (p := [Udp; reserved] ++ _). pose proof (len_nonneg chunk).
  assert (Hl : len p = 8 + len chunk) by (unfold p; rewrite !len_app, frag_header_len6; unfold len; cbn; lia).
  unfold ipv6_extensions. cbn [ipv6_chain]. cbn [Z.eqb Pos.eqb orb Ipv6Frag HopByHop Ipv6Opts].
  replace (len p <? 8) with false by (symmetry; apply Z.ltb_ge; lia).
  assert (slice 2 8 p = frag_header o more id) as ->.
  { unfold slice, p. rewrite (zdrop_app_exact 2) by done. rewrite ztake_app_exact; [done|by rewrite frag_header_len6]. }
  rewrite frag_header_reads by done. cbn [mbind option_bind]. replace (zget p 0) with (Some Udp) by done. cbn [mbind option_bind].
  cbn [Z.eqb Pos.eqb orb Udp Tcp Icmpv6]. do 2 f_equal.
  - f_equal. unfold p. rewrite app_assoc. apply zdrop_app_exact. rewrite len_app, frag_header_len6. done.
  - replace (len p - len p) with 0 by lia. destruct more; cbn [orb] in *; [by rewrite orb_true_r|].
    replace (o * 8 =? 0) with false; [done|]. symmetry. apply Z.eqb_neq. apply negb_true_iff, Z.eqb_neq in Hm. lia.
Qed.

(** ** Frames *)

Lemma len_arena n stale : 0 <= n -> len (arena n stale) = n.
Proof. intros Hn. unfold arena. rewrite len_ztake, len_resize by lia. lia. Qed.

Lemma overwrite_skip {B} a (d x y : list B) : len x <= a -> overwrite a d (x ++ y) = x ++ overwrite (a - len x) d y.
Proof.
  intros Ha. pose proof (len_nonneg d). pose proof (len_nonneg x). unfold overwrite. rewrite ztake_app_ge, (zdrop_app_ge (a + len d)) by lia.
  rewrite <- app_assoc. do 3 f_equal. f_equal. lia.
Qed.

Lemma overwrite_front {B} (d y : list B) : overwrite 0 d y = d ++ zdrop (len d) y.
Proof. unfold overwrite. by rewrite ztake_0, Z.add_0_l. Qed.

Lemma overwrite_whole {B} (d y : list B) : len d = len y -> overwrite 0 d y = d.
Proof. intros Hl. rewrite overwrite_front, zdrop_ge by lia. by rewrite app_nil_r. Qed.

(** A frame's part of the datagram. *)
Lemma copy_fragment_slice t payload o n :
  len t = 8 -> 0 <= o -> (o = 0 -> 8 <= n) -> (o <> 0 -> 8 <= o) -> 0 <= n -> o + n <= len t + len payload ->
  copy_fragment t payload o n = slice o (o + n) (t ++ payload).
Proof.
  intros Ht Ho Hz Hnz Hn Hend. unfold copy_fragment, slice. destruct (Z.eqb_spec o 0) as [->|Hne].
  - rewrite zdrop_0, ztake_app_ge by (specialize (Hz eq_refl); lia). do 2 f_equal. lia.
  - specialize (Hnz Hne). rewrite zdrop_app_ge by lia. f_equal. lia.
Qed.

(** The cut of a datagram of [L] bytes into [count] pieces of [size]. *)
Record cut (L size count : Z) : Prop := {
  cut_total : 8 <= L;
  cut_size : 8 <= size /\ size `mod` 8 = 0;
  cut_count : (count - 1) * size < L <= count * size;
}.

Lemma cut_div_ceil L size : 8 <= L -> 8 <= size -> size `mod` 8 = 0 -> cut L size (div_ceil L size).
Proof.
  intros HL Hs H8. constructor; [done|done|]. unfold div_ceil. pose proof (Z.div_mod (L + size - 1) size ltac:(lia)).
  pose proof (Z.mod_pos_bound (L + size - 1) size ltac:(lia)). nia.
Qed.

Definition piece_len (L size i : Z) : Z := Z.min (L - i * size) size.

Lemma cut_piece L size count i : cut L size count -> 0 <= i < count ->
  0 < piece_len L size i /\ i * size + piece_len L size i <= L /\ (i * size) `mod` 8 = 0 /\
  (i + 1 < count -> piece_len L size i = size) /\ (i + 1 = count -> i * size + piece_len L size i = L) /\
  (i <> 0 -> 8 <= i * size) /\ (i * size = 0 -> 8 <= piece_len L size i).
Proof.
  intros [HL [Hs H8] Hc] Hi. unfold piece_len. split_and!; try nia. by rewrite Z.mul_mod, H8, Z.mul_0_r by lia.
Qed.

Lemma frame4_shape ip id size count t payload stale i :
  len t = 8 -> cut (8 + len payload) size count -> 0 <= i < count ->
  let n := piece_len (8 + len payload) size i in
  frame4 ip id size count t payload stale i =
    ipv4_header (set_payload_len n ip) id false (i + 1 <? count) (i * size) ++ slice (i * size) (i * size + n) (t ++ payload).
Proof.
  intros Ht Hcut Hi n. destruct (cut_piece _ _ _ _ Hcut Hi) as (Hn & Hend & _ & _ & _ & Hge & Hfirst). destruct Hcut as [_ [Hs _] Hc]. fold n in Hn, Hend.
  unfold frame4. rewrite Ht. change (Z.min _ _) with n. rewrite overwrite_front, ipv4_header_len20, overwrite_skip by (by rewrite ipv4_header_len20).
  rewrite ipv4_header_len20, Z.sub_diag. rewrite (copy_fragment_slice t payload (i * size) n); [|done|nia| |nia|lia|lia].
  - f_equal. apply overwrite_whole. rewrite len_slice, len_zdrop, len_arena; [lia..|nia|rewrite len_app; lia].
  - exact Hfirst.
Qed.

Lemma frame6_shape ip id size count t payload stale i :
  len t = 8 -> cut (8 + len payload) size count -> 0 <= i < count ->
  let n := piece_len (8 + len payload) size i in
  exists reserved, frame6 ip id size count t payload stale i =
    ipv6_header (set_payload_len (n + 8) (set_next_header Ipv6Frag ip)) ++
    [Udp; reserved] ++ frag_header ((i * size) `div` 8) (i + 1 <? count) id ++ slice (i * size) (i * size + n) (t ++ payload).
Proof.
  intros Ht Hcut Hi n. destruct (cut_piece _ _ _ _ Hcut Hi) as (Hn & Hend & _ & _ & _ & Hge & Hfirst). destruct Hcut as [_ [Hs _] Hc]. fold n in Hn, Hend.
  unfold frame6. rewrite Ht. change (Z.min _ _) with n. set (h := ipv6_header _). set (f := frag_header _ _ _). set (b := arena _ _).
  assert (Hh : len h = 40) by apply ipv6_header_len40. assert (Hf : len f = 6) by apply frag_header_len6.
  assert (Hb : len b = 48 + n) by (apply len_arena; lia).
  rewrite (copy_fragment_slice t payload (i * size) n); [|done|nia| |nia|lia|lia].
  - set (c := slice _ _ _). assert (Hcl : len c = n) by (unfold c; rewrite len_slice; [lia|nia|rewrite len_app; lia]).
    destruct (zget_is_Some b 41) as [reserved Hres]; [lia|]. exists reserved.
    rewrite (overwrite_front h), (overwrite_skip 40), Hh, Z.sub_diag, (overwrite_front [Udp]) by lia.
    assert (zdrop (len [Udp]) (zdrop 40 b) = reserved :: zdrop 42 b) as ->.
    { change (len [Udp]) with 1. rewrite zdrop_zdrop by lia. apply list_eq. intros [|k].
      - unfold zget in Hres. cbn in Hres. unfold zdrop. rewrite lookup_drop. cbn. exact Hres.
      - change ((reserved :: zdrop 42 b) !! S k) with (zdrop 42 b !! k). unfold zdrop. rewrite !lookup_drop. done. }
    rewrite (overwrite_skip 42 f), Hh by lia. cbn [app]. change (Udp :: reserved :: zdrop 42 b) with ([Udp; reserved] ++ zdrop 42 b).
    rewrite (overwrite_skip (42 - 40) f [Udp; reserved]) by (unfold len; cbn; lia). change (42 - 40 - len [Udp; reserved]) with 0.
    rewrite (overwrite_front f), Hf, (overwrite_skip 48 c), Hh by lia. rewrite (overwrite_skip (48 - 40) c [Udp; reserved]) by (unfold len; cbn; lia).
    change (48 - 40 - len [Udp; reserved]) with 6. rewrite (overwrite_skip 6 c f), Hf by lia. rewrite (overwrite_whole c); [done|].
    change (6 - 6) with 0. rewrite !len_zdrop, Hb by lia. lia.
  - exact Hfirst.
Qed.

(** ** Delivery *)

Section delivery.
Context {A : Type} `{!Decoder.Assembler A} `{!Decoder.AssemblerLaws A}.
Context (tcp_checked : bytes -> bool) (ASSEMBLY_METADATA : Z) (Hmeta : 0 <= ASSEMBLY_METADATA).

(** A frame at the receiver, with the clock readings and the allocation of its decoding. *)
Record reception := mkReception { frame : bytes; now : Z; clock : Z; alloc : Z }.

Fixpoint decode_all (d : Decoder.t) (xs : list reception) : Decoder.t * list (IpRepr * bytes) :=
  match xs with
  | [] => (d, [])
  | x :: xs =>
      let '(d, r) := Decoder.decode tcp_checked ASSEMBLY_METADATA (frame x) (now x) (clock x) (alloc x) d in
      let '(d, rs) := decode_all d xs in (d, option_list r ++ rs)
  end.

Section datagrams.
Context (fam : Family) (s d id prefix : Z) (D : bytes) (size count : Z) (Hcut : cut (len D) size count).

Definition frag_key : FragmentKey :=
  mkKey (match fam with V4 => Some Udp | V6 => None end) (address fam s) (address fam d) id.

(** The frame that carries piece [i]. *)
Definition carries_piece (bs : bytes) (i : Z) : Prop :=
  exists n start, parse bs = Some (mkParsed (mkIp fam s d Udp n 64) start
    (slice (i * size) (i * size + piece_len (len D) size i) D) (Some (mkFragment id (i * size) (i + 1 <? count) prefix))).

(** Its arrival at the decoder. *)
Definition arrived (x : reception) (i : Z) : Decoder.arrival :=
  Decoder.mkArrival (mkFragment id (i * size) (i + 1 <? count) prefix)
    (slice (i * size) (i * size + piece_len (len D) size i) D) (now x) (clock x) (alloc x).

Lemma decode_all_run xs js dec :
  Forall2 (fun x i => carries_piece (frame x) i) xs js ->
  decode_all dec xs =
    prod_map Datatypes.id (fmap (M := list) (fun r : FragmentKey * bytes => (mkIp fam s d Udp (len (snd r)) 64, snd r)))
      (Decoder.run tcp_checked ASSEMBLY_METADATA dec (Decoder.deliver frag_key Udp <$> zip_with arrived xs js)).
Proof.
  intros Hxs. revert dec. induction Hxs as [|x i xs js Hx Hxs IH]; intros dec; [done|]. cbn [decode_all zip_with fmap list_fmap Decoder.run].
  destruct Hx as (n & start & Hparse). unfold Decoder.decode. rewrite Hparse. unfold fragment_key.
  cbn [fragment mbind option_bind ip family src dst next_header hop_limit src_addr dst_addr payload Packet.id].
  unfold Decoder.deliver at 1. cbn [Decoder.step arrived Decoder.fr Decoder.payload Decoder.at_ Decoder.later Decoder.allocated].
  change (mkKey _ _ _ id) with frag_key. destruct (Decoder.reassemble _ _ frag_key _ _ _ _ _ _ _ dec) as [dec' r]. rewrite IH.
  destruct (Decoder.run _ _ dec' _) as [dec2 rs]. by destruct r.
Qed.

Lemma deliver_keys xs dec dec' rs r :
  Decoder.run tcp_checked ASSEMBLY_METADATA dec (Decoder.deliver frag_key Udp <$> xs) = (dec', rs) -> r ∈ rs -> fst r = frag_key.
Proof.
  revert dec rs. induction xs as [|x xs IH]; intros dec rs; cbn [fmap list_fmap Decoder.run]; [intros [= _ <-] Hin; by apply elem_of_nil in Hin|].
  unfold Decoder.deliver at 1. cbn [Decoder.step]. destruct (Decoder.reassemble _ _ _ _ _ _ _ _ _ _ dec) as [d1 o].
  destruct (Decoder.run _ _ d1 _) as [d2 rs2] eqn:Hr. intros [= -> <-]. intros [Hin|Hin]%elem_of_app; [|by eapply IH].
  destruct o; cbn in Hin; [|by apply elem_of_nil in Hin]. apply list_elem_of_singleton in Hin as ->. done.
Qed.

Lemma apart_distinct before xs :
  NoDup (offset ∘ Decoder.fr <$> before ++ xs) ->
  (forall x y i, x ∈ before ++ xs -> y ∈ before ++ xs -> offset (Decoder.fr x) <> offset (Decoder.fr y) ->
    Decoder.holds_byte x i -> ~ Decoder.holds_byte y i) ->
  Decoder.arrivals_apart frag_key before xs.
Proof.
  revert before. induction xs as [|x xs IH]; intros before Hnd Hap; cbn; [done|]. split.
  - intros _ y i Hy. apply Hap; [set_solver|set_solver|]. rewrite fmap_app in Hnd. apply NoDup_app in Hnd as (_ & Hnd & _).
    intros Heq. apply (Hnd (offset (Decoder.fr y))); [by apply list_elem_of_fmap_2' with y|]. rewrite <- Heq. cbn. left.
  - apply IH; by rewrite <- app_assoc.
Qed.

(** Every piece is a fragment of the datagram as a correct sender emits it. *)
Lemma piece_ok x i max_prefix max_alloc t0 :
  0 <= i < count -> 0 <= prefix <= max_prefix -> t0 <= now x < t0 + Decoder.REASSEMBLY_LIFETIME -> alloc x <= max_alloc ->
  Decoder.arrival_ok D max_prefix max_alloc t0 (arrived x i).
Proof.
  intros Hi Hp Ht Ha. destruct (cut_piece _ _ _ _ Hcut Hi) as (Hn & Hend & _ & Hmid & Hlast & _). destruct Hcut as [HL [Hs H8] Hc].
  assert (Hlen : len (slice (i * size) (i * size + piece_len (len D) size i) D) = piece_len (len D) size i) by (rewrite len_slice; [lia|nia|lia]).
  constructor; cbn [arrived Decoder.fr Decoder.payload Decoder.at_ Decoder.allocated prefix_len]; [|rewrite Hlen; lia| |done..].
  - unfold Decoder.fragment_of. cbn [offset more]. rewrite Hlen. split_and!; [nia|lia|done|]. intros Hm%Z.ltb_ge. apply Hlast. lia.
  - cbn [more]. intros Hm%Z.ltb_lt. rewrite Hlen, Hmid by done. done.
Qed.

(** The room a decoder has for the datagram, and when its frames come. *)
Record receiver_ok (base init max_alloc t0 : Z) (dec : Decoder.t (A := A)) (xs : list reception) : Prop := {
  rx_empty : Decoder.fragments dec = ∅;
  rx_alloc : 65535 <= max_alloc;
  rx_room : 0 <= base /\ base + ASSEMBLY_METADATA + max_alloc <= init <= usize_max;
  rx_budget : Decoder.budget base init dec 0;
  rx_times : Forall (fun x => t0 <= now x < t0 + Decoder.REASSEMBLY_LIFETIME /\ alloc x <= max_alloc) xs;
  rx_count : (length xs <= Decoder.asm_max)%nat;
}.

Lemma arrived_lookup xs js a :
  a ∈ zip_with arrived xs js -> exists x i, x ∈ xs /\ i ∈ js /\ a = arrived x i.
Proof.
  intros Ha. apply elem_of_lookup_zip_with_1 in Ha as (k & x & i & -> & Hx & Hi). exists x, i.
  split_and!; [by eapply list_elem_of_lookup_2..|done].
Qed.

(** The pieces of a datagram, in any order, give the datagram and nothing else. *)
Lemma pieces_delivered xs js dec base init max_alloc t0 :
  Forall2 (fun x i => carries_piece (frame x) i) xs js -> js ≡ₚ seqZ 0 count -> 0 <= prefix -> len D <= 65535 - prefix ->
  receiver_ok base init max_alloc t0 dec xs ->
  let outs := snd (decode_all dec xs) in
  outs <> [] /\ Forall (fun o => o = (mkIp fam s d Udp (len D) 64, D)) outs.
Proof.
  intros Hxs Hjs Hpre HD [Hempty Halloc [Hbase Hinit] Hbud Htimes Hroom] outs. unfold outs. rewrite (decode_all_run xs js) by done.
  destruct (Decoder.run _ _ dec _) as [dec' rs] eqn:Hrun. cbn [prod_map snd].
  assert (Hok : forall a, a ∈ zip_with arrived xs js -> exists x i, 0 <= i < count /\ a = arrived x i /\ t0 <= now x < t0 + Decoder.REASSEMBLY_LIFETIME /\ alloc x <= max_alloc).
  { intros a Ha. destruct (arrived_lookup _ _ _ Ha) as (x & i & Hx & Hi & ->). exists x, i. rewrite Hjs in Hi. apply elem_of_seqZ in Hi.
    rewrite Forall_forall in Htimes. specialize (Htimes x Hx). split_and!; [lia|lia|done|lia..]. }
  pose proof Hcut as [HL [Hs H8] Hc]. assert (Hlen : length (zip_with arrived xs js) = length xs) by (rewrite length_zip_with; apply Forall2_length in Hxs; lia).
  assert (Hfound : (frag_key, D) ∈ rs).
  { apply (Decoder.run_completes tcp_checked ASSEMBLY_METADATA Hmeta frag_key D Udp prefix max_alloc base init t0)
      with (xs := zip_with arrived xs js) (d := dec) (d' := dec'); try done; try lia; try exact Hrun.
    - apply Forall_forall. intros a Ha. destruct (Hok a Ha) as (x & i & Hi & -> & ? & ?). by apply piece_ok.
    - apply Forall_forall. intros a Ha _. destruct (Hok a Ha) as (x & i & Hi & -> & _). split; [done|]. cbn [arrived Decoder.fr Decoder.payload offset].
      intros Hz. destruct (cut_piece _ _ _ _ Hcut Hi) as (Hn & Hend & _ & _ & _ & _ & Hfirst). unfold Decoder.complete_transport_header. cbn.
      apply Z.leb_le. rewrite len_slice; [specialize (Hfirst Hz); lia|nia|lia].
    - apply apart_distinct; cbn [app].
      + assert (offset ∘ Decoder.fr <$> zip_with arrived xs js = (fun i => i * size) <$> js) as ->.
        { clear -Hxs. induction Hxs; cbn; [done|]. by f_equal. }
        apply NoDup_fmap_2_strong; [intros i j _ _ ?; nia|]. rewrite Hjs. apply NoDup_seqZ.
      + intros a b k Ha Hb Hne. destruct (Hok a Ha) as (x & i & Hi & -> & _). destruct (Hok b Hb) as (y & j & Hj & -> & _).
        destruct (cut_piece _ _ _ _ Hcut Hi) as (Hni & Hei & _), (cut_piece _ _ _ _ Hcut Hj) as (Hnj & Hej & _).
        unfold Decoder.holds_byte. cbn [arrived Decoder.fr Decoder.payload offset] in *. rewrite !len_slice by (nia || lia).
        assert (Hpi : piece_len (len D) size i <= size) by apply Z.le_min_r. assert (Hpj : piece_len (len D) size j <= size) by apply Z.le_min_r.
        assert (Hd : i < j \/ j < i) by (destruct (Z.lt_trichotomy i j) as [?|[->|?]]; [lia|done|lia]).
        destruct Hd; [assert ((i + 1) * size <= j * size) by (apply Z.mul_le_mono_nonneg_r; lia)|assert ((j + 1) * size <= i * size) by (apply Z.mul_le_mono_nonneg_r; lia)]; lia.
    - intros k Hk. assert (Hi : 0 <= k `div` size < count) by (pose proof (Z.div_mod k size ltac:(lia)); pose proof (Z.mod_pos_bound k size ltac:(lia)); nia).
      assert (Hin : k `div` size ∈ js) by (rewrite Hjs; apply elem_of_seqZ; lia). apply list_elem_of_lookup_1 in Hin as [p Hp].
      destruct (Forall2_lookup_r _ _ _ _ _ Hxs Hp) as (x & Hx & _). exists (arrived x (k `div` size)). split.
      + apply list_elem_of_lookup_2 with p. by rewrite lookup_zip_with, Hx, Hp.
      + destruct (cut_piece _ _ _ _ Hcut Hi) as (Hn & He & _). unfold Decoder.holds_byte. cbn [arrived Decoder.fr Decoder.payload offset].
        rewrite len_slice by (nia || lia). pose proof (Z.div_mod k size ltac:(lia)). pose proof (Z.mod_pos_bound k size ltac:(lia)). unfold piece_len. lia.
    - assert (Hin : count - 1 ∈ js) by (rewrite Hjs; apply elem_of_seqZ; nia). apply list_elem_of_lookup_1 in Hin as [p Hp].
      destruct (Forall2_lookup_r _ _ _ _ _ Hxs Hp) as (x & Hx & _). exists (arrived x (count - 1)). split.
      + apply list_elem_of_lookup_2 with p. by rewrite lookup_zip_with, Hx, Hp.
      + cbn. apply Z.ltb_ge. lia. }
  split; [intros Hnil; apply fmap_nil_inv in Hnil; subst; by apply elem_of_nil in Hfound|].
  apply Forall_fmap, Forall_forall. intros [k out] Hin. cbn. pose proof (deliver_keys _ _ _ _ _ Hrun Hin) as Hk. cbn in Hk. subst k.
  destruct (Decoder.run_content tcp_checked ASSEMBLY_METADATA frag_key D (Decoder.deliver frag_key Udp <$> zip_with arrived xs js) dec dec' rs) as [_ Hsame]; [| |exact Hrun|by rewrite (Hsame out Hin)].
  - intros a Ha. by rewrite Hempty in Ha.
  - apply Forall_fmap, Forall_forall. intros a Ha. destruct (Hok a Ha) as (x & i & Hi & -> & Ht & Hal). intros _.
    by apply (piece_ok x i prefix max_alloc t0).
Qed.
End datagrams.

(** A usable endpoint. *)
Record addr_ok (a : SocketAddr) : Prop := {
  a_word : 0 <= word a < if is_ipv4 a then 2 ^ 32 else 2 ^ 128;
  a_unicast : unicast (fst a) = true;
  a_port : 0 < snd a < 65536;
}.

Record encoder_ok (e : Encoder) : Prop := {
  e_mtu : 1280 <= mtu e <= 65535;
  e_id4 : 0 <= id4 e < 65536;
  e_id6 : 0 <= id6 e < 2 ^ 32;
}.

Lemma frames_delivered fam s d id prefix D size count (f : Z -> bytes) dec xs base init max_alloc t0 :
  cut (len D) size count -> (forall i, 0 <= i < count -> carries_piece fam s d id prefix D size count (f i) i) ->
  frame <$> xs ≡ₚ f <$> seqZ 0 count -> 0 <= prefix -> len D <= 65535 - prefix -> receiver_ok base init max_alloc t0 dec xs ->
  let outs := snd (decode_all dec xs) in
  outs <> [] /\ Forall (fun o => o = (mkIp fam s d Udp (len D) 64, D)) outs.
Proof.
  intros Hcut Hf Hperm Hpre HD Hrx. apply Permutation_map_inv in Hperm as (js & Hmap & Hjs).
  apply (pieces_delivered fam s d id prefix D size count Hcut xs js dec base init max_alloc t0); try done.
  assert (Hall : forall i, i ∈ js -> 0 <= i < count) by (intros i Hi; rewrite <- Hjs in Hi; apply elem_of_seqZ in Hi; lia).
  clear -Hmap Hf Hall. revert js Hmap Hall. induction xs as [|x xs IH]; intros [|i js] Hmap Hall; try done. injection Hmap as Hx Hmap. constructor.
  - rewrite Hx. apply Hf, Hall. left.
  - apply IH; [done|]. intros j Hj. apply Hall. by right.
Qed.

Section encoded.
Context (e : Encoder) (source destination : SocketAddr) (payload : bytes) (stale : Z -> bytes).
Context (He : encoder_ok e) (Hsrc : addr_ok source) (Hdst : addr_ok destination).
Context (Hfam : is_ipv4 source = is_ipv4 destination) (Hmax : len payload <= max_payload source) (Hbytes : Forall is_byte payload).

Let r n := ip_new source destination Udp n 64.
Let t := transport source destination payload.

Lemma total_small : 8 + len payload < 65536.
Proof. revert Hmax. unfold max_payload. destruct (is_ipv4 source); lia. Qed.

Lemma len_t : len t = 8.
Proof. eapply len_closed, transport_closed; [apply Hsrc|apply Hdst|done|apply total_small]. Qed.

Lemma addresses n : src_addr (r n) = fst source /\ dst_addr (r n) = fst destination.
Proof. revert Hfam. unfold r, src_addr, dst_addr, ip_new, word, is_ipv4. cbn. by destruct (fst source), (fst destination). Qed.

Lemma r_ok n : 0 <= n <= (if is_ipv4 source then 65515 else 65535) -> repr_ok (r n).
Proof.
  intros Hn. pose proof (a_word _ Hsrc). pose proof (a_word _ Hdst). rewrite <- Hfam in *. unfold r, ip_new.
  constructor; cbn; destruct (is_ipv4 source); lia || (unfold Udp; lia).
Qed.

Lemma r_unicast n : unicast (src_addr (r n)) = true /\ unicast (dst_addr (r n)) = true.
Proof. destruct (addresses n) as [-> ->]. split; [apply Hsrc|apply Hdst]. Qed.

Lemma frame4_piece size count i :
  is_ipv4 source = true -> cut (8 + len payload) size count -> 1 < count -> 0 <= i < count ->
  let f := frame4 (r (8 + len payload)) (id4 e) size count t payload (stale i) i in
  carries_piece V4 (word source) (word destination) (id4 e) 20 (t ++ payload) size count f i /\ len f <= 20 + size.
Proof.
  intros H4 Hcut Hc1 Hi f. destruct (cut_piece _ _ _ _ Hcut Hi) as (Hn & Hend & Ho8 & Hmid & Hlast & Hge & _).
  assert (HD : len (t ++ payload) = 8 + len payload) by (by rewrite len_app, len_t). set (n := piece_len (8 + len payload) size i) in *.
  pose proof Hmax as Hm. unfold max_payload in Hm. rewrite H4 in Hm. destruct Hcut as [_ [Hs H8] Hc].
  assert (Hlen : len (slice (i * size) (i * size + n) (t ++ payload)) = n) by (rewrite len_slice; [lia|nia|lia]).
  unfold f. rewrite frame4_shape by (done || apply len_t || (constructor; lia)). fold n. split.
  - unfold carries_piece. rewrite HD. fold n.
    exists n, 20. change (set_payload_len n (r (8 + len payload))) with (r n).
    assert (Hr : repr_ok (r n)) by (apply r_ok; rewrite H4; nia). assert (family (r n) = V4) by (unfold r, ip_new; cbn; by rewrite H4).
    destruct (r_unicast n). rewrite parse_ipv4_emitted; [|done|done|apply He|nia|done|by rewrite Hlen|done|done|done|].
    + assert (Hfr : (i + 1 <? count) || negb (i * size =? 0) = true).
      { apply orb_true_iff. destruct (decide (i = 0)) as [->|]; [left; apply Z.ltb_lt; lia|right; apply negb_true_iff, Z.eqb_neq; nia]. }
      rewrite Hfr. unfold r, ip_new. rewrite H4. done.
    + rewrite Hlen. intros _. split_and!; [lia|lia|]. intros ?%Z.ltb_lt. by rewrite Hmid.
  - rewrite len_app, ipv4_header_len20, Hlen. unfold n, piece_len. lia.
Qed.

Lemma frame6_piece size count i :
  is_ipv4 source = false -> cut (8 + len payload) size count -> 1 < count -> 0 <= i < count -> size <= 65527 ->
  let f := frame6 (r (8 + len payload)) (id6 e) size count t payload (stale i) i in
  carries_piece V6 (word source) (word destination) (id6 e) 0 (t ++ payload) size count f i /\ len f <= 48 + size.
Proof.
  intros H6 Hcut Hc1 Hi Hs16 f. destruct (cut_piece _ _ _ _ Hcut Hi) as (Hn & Hend & Ho8 & Hmid & Hlast & Hge & _).
  assert (HD : len (t ++ payload) = 8 + len payload) by (by rewrite len_app, len_t). set (n := piece_len (8 + len payload) size i) in *.
  pose proof Hmax as Hm. unfold max_payload in Hm. rewrite H6 in Hm.
  destruct (frame6_shape (r (8 + len payload)) (id6 e) size count t payload (stale i) i len_t Hcut Hi) as (reserved & Hf). fold n in Hf.
  destruct Hcut as [_ [Hs H8] Hc]. assert (Hlen : len (slice (i * size) (i * size + n) (t ++ payload)) = n) by (rewrite len_slice; [lia|nia|lia]).
  assert (Hnsize : n <= size) by (unfold n, piece_len; lia).
  assert (Hp : len ([Udp; reserved] ++ frag_header ((i * size) `div` 8) (i + 1 <? count) (id6 e) ++ slice (i * size) (i * size + n) (t ++ payload)) = n + 8)
    by (rewrite !len_app, frag_header_len6, Hlen; unfold len; cbn; lia).
  assert (Hdiv : (i * size) `div` 8 * 8 = i * size) by (pose proof (Z.div_mod (i * size) 8 ltac:(lia)); lia).
  unfold f. rewrite Hf. split.
  - unfold carries_piece. rewrite HD. fold n. exists n, 48. set (q := set_payload_len _ _).
    assert (Hr : repr_ok q).
    { destruct (r_ok 0) as [? ? _ _ ?]; [rewrite H6; lia|]. unfold q. unfold r, ip_new in *. cbn in *. rewrite H6 in *. constructor; cbn; try done; unfold Ipv6Frag; lia. }
    assert (Hq : family q = V6) by (unfold q, r, ip_new; cbn; by rewrite H6).
    destruct (r_unicast 0) as [Hus Hud].
    rewrite (parse_ipv6_emitted q _ Udp (slice (i * size) (i * size + n) (t ++ payload)) (Some (mkFragment (id6 e) (i * size) (i + 1 <? count) 0)));
      [|done|done|exact Hp|exact Hus|exact Hud|done|].
    + rewrite Hp, Hlen. replace (40 + (n + 8 - n)) with 48 by lia. unfold q, r, ip_new. cbn. done.
    + change (next_header q) with Ipv6Frag. rewrite extensions_fragment; [by rewrite Hdiv|nia|apply He|].
      apply orb_true_iff. destruct (decide (i = 0)) as [->|]; [left; apply Z.ltb_lt; lia|right; apply negb_true_iff, Z.eqb_neq; nia].
  - rewrite len_app, ipv6_header_len40, Hp. lia.
Qed.

(** What the receiver makes of a datagram. *)
Definition accepted (o : IpRepr * bytes) : Prop :=
  udp_with_checksum false (fst o) (snd o) = Some (mkFlow source destination, payload).

Definition delivers (frames : list bytes) : Prop :=
  forall dec xs base init max_alloc t0,
    frame <$> xs ≡ₚ frames -> receiver_ok base init max_alloc t0 dec xs ->
    let outs := snd (decode_all dec xs) in outs <> [] /\ Forall accepted outs.

(** A packet within the MTU. *)
Lemma whole_delivered :
  let ip := r (8 + len payload) in
  let f := overwrite (header_len ip) (udp_emit (fst source) (fst destination) (snd source) (snd destination) payload)
             (overwrite 0 (ip_header ip) (arena (buffer_len ip) (stale 0))) in
  len f = buffer_len ip /\ delivers [f].
Proof.
  intros ip f. destruct (emit_closed source destination payload) as (head & Hclosed & Hemit); [apply Hsrc|apply Hdst|done|apply total_small|].
  pose proof (len_closed _ _ _ _ Hclosed) as Hhead. pose proof (len_nonneg payload).
  assert (Hlh : len (ip_header ip) = header_len ip).
  { unfold ip_header, header_len. destruct (family ip); [apply ipv4_header_len20|apply ipv6_header_len40]. }
  assert (Hbuf : buffer_len ip = header_len ip + (8 + len payload)) by done.
  assert (Hhl : 20 <= header_len ip <= 40) by (unfold header_len; destruct (family ip); lia).
  assert (Hf : f = ip_header ip ++ head ++ payload).
  { unfold f. rewrite Hemit, overwrite_front, Hlh, overwrite_skip, Hlh, Z.sub_diag by lia. f_equal. apply overwrite_whole.
    rewrite len_zdrop, len_arena, len_app, Hhead by lia. lia. }
  split; [rewrite Hf, !len_app, Hlh, Hhead; lia|]. intros dec xs base init max_alloc t0 Hperm _.
  symmetry in Hperm. apply Permutation_length_1_inv in Hperm. destruct xs as [|x [|]]; try done. injection Hperm as Hx.
  assert (Hr : repr_ok ip) by (apply r_ok; revert Hmax; unfold max_payload; destruct (is_ipv4 source); lia).
  destruct (r_unicast (8 + len payload)) as [Hus Hud]. fold ip in Hus, Hud.
  assert (Hparse : exists start, parse f = Some (mkParsed ip start (head ++ payload) None)).
  { rewrite Hf. unfold ip_header. destruct (family ip) eqn:Hfm.
    - exists 20. rewrite parse_ipv4_emitted; [done|done|done|lia|lia|done| |done|done|done|done]. rewrite len_app, Hhead. done.
    - eexists. rewrite (parse_ipv6_emitted ip _ Udp (head ++ payload) None); [|done|done|rewrite len_app, Hhead; done|done..].
      do 2 f_equal. rewrite len_app, Hhead. unfold ip, r, ip_new in *. cbn in *. by rewrite Hfm. }
  destruct Hparse as [start Hparse]. cbn [decode_all snd]. unfold Decoder.decode. rewrite Hx, Hparse. cbn [fragment ip].
  split; [done|]. constructor; [|done]. unfold accepted. cbn [fst snd Packet.payload]. destruct (addresses (8 + len payload)) as [Ha Hb].
  apply closed_accepted; [apply Hsrc|apply Hdst|apply total_small|done|exact Ha|exact Hb].
Qed.

Lemma datagram_accepted fam D o :
  fam = (if is_ipv4 source then V4 else V6) -> D = t ++ payload ->
  o = (mkIp fam (word source) (word destination) Udp (len D) 64, D) -> accepted o.
Proof.
  intros -> -> ->. unfold accepted. cbn [fst snd]. destruct (addresses (len (t ++ payload))) as [Ha Hb].
  apply closed_accepted; [apply Hsrc|apply Hdst|apply total_small| |exact Ha|exact Hb].
  apply transport_closed; [apply Hsrc|apply Hdst|done|apply total_small].
Qed.

Lemma cut_delivered fam id prefix size count (f : Z -> bytes) :
  fam = (if is_ipv4 source then V4 else V6) -> 0 <= prefix -> 8 + len payload <= 65535 - prefix -> cut (8 + len payload) size count ->
  (forall i, 0 <= i < count -> carries_piece fam (word source) (word destination) id prefix (t ++ payload) size count (f i) i) ->
  delivers (f <$> seqZ 0 count).
Proof.
  intros Hf Hp Hle Hcut Hpieces dec xs base init max_alloc t0 Hperm Hrx. assert (HD : len (t ++ payload) = 8 + len payload) by (by rewrite len_app, len_t).
  destruct (frames_delivered fam (word source) (word destination) id prefix (t ++ payload) size count f dec xs base init max_alloc t0) as [Hne Hall];
    [by rewrite HD|done|done|done|by rewrite HD|done|]. split; [done|]. eapply Forall_impl; [exact Hall|]. intros o Ho. by eapply datagram_accepted.
Qed.

(** A cut into pieces that leave room for the headers. *)
Lemma size_cut head : 20 <= head <= 48 -> mtu e - head < 8 + len payload ->
  let size := (mtu e - head) `div` 8 * 8 in
  cut (8 + len payload) size (div_ceil (8 + len payload) size) /\ 1 < div_ceil (8 + len payload) size /\ head + size <= mtu e.
Proof.
  intros Hh Hbig size. pose proof (len_nonneg payload). destruct He as [Hm _ _].
  assert (Hsize : 8 <= size <= mtu e - head) by (unfold size; pose proof (Z.div_mod (mtu e - head) 8 ltac:(lia)); pose proof (Z.mod_pos_bound (mtu e - head) 8 ltac:(lia)); lia).
  assert (Hcut : cut (8 + len payload) size (div_ceil (8 + len payload) size)) by (apply cut_div_ceil; [lia|lia|unfold size; by rewrite Z.mod_mul]).
  split_and!; [done| |lia]. destruct Hcut as [_ _ Hc]. nia.
Qed.
End encoded.

(** ** Properties *)

(** C4. A UDP datagram sent to the device comes back as it was: for any MTU of at least 1280, any two
    unicast endpoints of one family and any payload their family can carry, every packet the encoder
    emits fits the MTU, and a decoder with room that receives the packets within the reassembly
    lifetime, in any order, yields the datagram and nothing else; its checksum is accepted and it has
    the endpoints and the payload it was sent with.  What reused memory held plays no role. *)
Theorem udp_datagram_roundtrip e source destination payload stale :
  encoder_ok e -> addr_ok source -> addr_ok destination -> is_ipv4 source = is_ipv4 destination ->
  len payload <= max_payload source -> Forall is_byte payload ->
  encoder_ok (fst (encode e source destination payload stale)) /\
  exists frames, snd (encode e source destination payload stale) = Some frames /\
    Forall (fun f => len f <= mtu e) frames /\ delivers source destination payload frames.
Proof.
  intros He Hsrc Hdst Hfam Hmax Hbytes. unfold encode. rewrite Hfam, eqb_reflx. cbn [negb orb].
  replace (snd source =? 0) with false by (symmetry; apply Z.eqb_neq; pose proof (a_port _ Hsrc); lia).
  replace (max_payload source <? len payload) with false by (symmetry; by apply Z.ltb_ge). cbn [orb].
  pose proof (len_t source destination payload Hsrc Hdst Hfam Hmax Hbytes) as Ht.
  destruct (Z.leb_spec (buffer_len (ip_new source destination Udp (8 + len payload) 64)) (mtu e)) as [Hfit|Hbig]; cbn [fst snd].
  { split; [done|]. destruct (whole_delivered source destination payload stale Hsrc Hdst Hfam Hmax Hbytes) as [Hlen Hdel].
    eexists. split_and!; [done| |exact Hdel]. constructor; [|done]. rewrite Hlen. exact Hfit. }
  assert (Hover : mtu e < (if is_ipv4 source then 20 else 40) + (8 + len payload)) by (revert Hbig; unfold buffer_len, header_len; cbn; by destruct (is_ipv4 source)).
  change (family (ip_new source destination Udp (8 + len payload) 64)) with (if is_ipv4 source then V4 else V6). assert (Hcase : is_ipv4 source = true \/ is_ipv4 source = false) by (destruct (is_ipv4 source); auto).
  destruct Hcase as [H4|H4]; rewrite H4 in Hover |- *; cbn [fst snd].
  - split; [destruct He; constructor; cbn; [done|apply Z.mod_pos_bound; lia|done]|]. eexists. split; [done|].
    destruct (size_cut e payload He 20 ltac:(lia) ltac:(lia)) as (Hcut & Hc1 & Hfits). set (size := (mtu e - 20) `div` 8 * 8) in *.
    set (count := div_ceil _ size) in *. pose proof (frame4_piece e source destination payload stale He Hsrc Hdst Hfam Hmax Hbytes size count) as Hpiece. split.
    + apply Forall_fmap, Forall_forall. intros i Hi%elem_of_seqZ. destruct (Hpiece i H4 Hcut Hc1 ltac:(lia)) as [_ Hle]. unfold compose. lia.
    + apply cut_delivered with V4 (id4 e) 20 size; try done; [by rewrite H4|unfold max_payload in Hmax; rewrite H4 in Hmax; lia|].
      intros i Hi. by apply Hpiece.
  - split; [destruct He; constructor; cbn; [done|done|apply Z.mod_pos_bound; lia]|]. eexists. split; [done|].
    destruct (size_cut e payload He 48 ltac:(lia) ltac:(lia)) as (Hcut & Hc1 & Hfits). set (size := (mtu e - 48) `div` 8 * 8) in *.
    set (count := div_ceil _ size) in *. pose proof (frame6_piece e source destination payload stale He Hsrc Hdst Hfam Hmax Hbytes size count) as Hpiece.
    pose proof (e_mtu _ He). split.
    + apply Forall_fmap, Forall_forall. intros i Hi%elem_of_seqZ. destruct (Hpiece i H4 Hcut Hc1 ltac:(lia) ltac:(lia)) as [_ Hle]. unfold compose. lia.
    + apply cut_delivered with V6 (id6 e) 0 size; try done; [by rewrite H4|unfold max_payload in Hmax; rewrite H4 in Hmax; lia|].
      intros i Hi. apply Hpiece; try done; lia.
Qed.
End delivery.
End roundtrip.

(** ** Emitters *)

(** The ones'-complement sum of a number of words. *)
Definition norm (s : Z) : Z := if s =? 0 then 0 else (s - 1) `mod` 65535 + 1.

Fixpoint words (b : bytes) : Z :=
  match b with
  | x :: y :: b => x * 256 + y + words b
  | [x] => x * 256
  | [] => 0
  end.

Definition address_words (a : IpAddress) : Z := match a with Ipv4 w => words (be_put 4 w) | Ipv6 w => words (be_put 16 w) end.

Definition ipv4_fields (r : IpRepr) (id : Z) (df more : bool) (o c : Z) : bytes :=
  [69; 0] ++ be_put 2 (20 + payload_len r) ++ be_put 2 id
  ++ be_put 2 ((if df then 16384 else 0) + (if more then 8192 else 0) + o `div` 8)
  ++ be_put 1 (hop_limit r) ++ be_put 1 (next_header r) ++ be_put 2 c ++ be_put 4 (src r) ++ be_put 4 (dst r).

(** The header formats of RFC 791, RFC 8200 and RFC 768. *)
#[export] Instance rfc_emit : Emit := {|
  ipv4_header r id df more o := ipv4_fields r id df more o (65535 - header_sum (ipv4_fields r id df more o 0) 20);
  ipv6_header r := [96; 0; 0; 0] ++ be_put 2 (payload_len r) ++ be_put 1 (next_header r) ++ be_put 1 (hop_limit r)
                   ++ be_put 16 (src r) ++ be_put 16 (dst r);
  frag_header o more id := be_put 2 (o * 8 + if more then 1 else 0) ++ be_put 4 id;
  udp_header s d n c := be_put 2 s ++ be_put 2 d ++ be_put 2 n ++ be_put 2 c;
  udp_emit a b s d p :=
    let n := 8 + len p in
    let h c := be_put 2 s ++ be_put 2 d ++ be_put 2 n ++ be_put 2 c in
    let pseudo := norm (address_words a + address_words b + Udp + n) in
    let sum := 65535 - norm (pseudo + (norm (words (h 0 ++ p)) + 0)) in
    h (if sum =? 0 then 65535 else sum) ++ p;
  pseudo_header a b protocol n := norm (address_words a + address_words b + protocol + n);
  checksum_data b := norm (words b);
  combine l := norm (lsum Datatypes.id l);
  udp_new_checked x := (8 <=? len x) && (8 <=? be16 x 4) && (be16 x 4 <=? len x);
  udp_src_port x := be16 x 0;
  udp_dst_port x := be16 x 2;
  udp_len x := be16 x 4;
  udp_checksum x := be16 x 6;
  udp_parse verified a b x :=
    (8 <=? len x) && (8 <=? be16 x 4) && (be16 x 4 <=? len x) && negb (be16 x 2 =? 0) &&
    (verified || (be16 x 6 =? 0) ||
     (norm (norm (address_words a + address_words b + Udp + be16 x 4) + (norm (words (ztake (be16 x 4) x)) + 0)) =? 65535));
|}.

Lemma norm_spec s : 0 <= s -> 0 <= norm s <= 65535 /\ norm s `mod` 65535 = s `mod` 65535 /\ (norm s = 0 -> s = 0) /\ (0 < s -> 0 < norm s).
Proof.
  intros Hs. unfold norm. destruct (Z.eqb_spec s 0) as [->|Hne]; [done|]. pose proof (Z.mod_pos_bound (s - 1) 65535 ltac:(lia)).
  split_and!; try lia. rewrite Z.add_mod_idemp_l by lia. f_equal. lia.
Qed.

Lemma words_nonneg b : Forall is_byte b -> 0 <= words b.
Proof.
  assert (Hpair : forall n b, (length b <= n)%nat -> Forall is_byte b -> 0 <= words b).
  { induction n as [|n IH]; intros [|x [|y l]] Hl Hb; cbn [words length] in *; try lia; repeat (apply Forall_cons in Hb as [? Hb]);
      unfold is_byte in *; try lia. specialize (IH l ltac:(lia) Hb). lia. }
  intros Hb. by apply (Hpair (length b)).
Qed.

Lemma words_app a b : len a `mod` 2 = 0 -> words (a ++ b) = words a + words b.
Proof.
  assert (Hpair : forall n a, (length a <= n)%nat -> len a `mod` 2 = 0 -> words (a ++ b) = words a + words b).
  { induction n as [|n IH]; intros [|x [|y l]] Hl Hm; cbn [words length app] in *; try lia; try done.
    rewrite IH; [lia|lia|]. rewrite !len_cons in Hm. replace (1 + (1 + len l)) with (len l + 1 * 2) in Hm by lia. by rewrite Z.mod_add in Hm by lia. }
  by apply (Hpair (length a)).
Qed.

Lemma land255 x : 0 <= x < 256 -> Z.land x 255 = x.
Proof. intros Hx. change 255 with (Z.ones 8). rewrite Z.land_ones by lia. by apply Z.mod_small. Qed.

(** A field of a header, at its place. *)
Lemma byte_at d pre x rest i : d = pre ++ x :: rest -> len pre = i -> 0 <= x < 256 -> byte d i = x.
Proof.
  intros -> Hi Hx. unfold byte. rewrite zget_app_r by lia. replace (i - len pre) with 0 by lia. by apply land255.
Qed.

Lemma be16_at d pre v rest i : d = pre ++ be_put 2 v ++ rest -> len pre = i -> 0 <= v < 65536 -> be16 d i = v.
Proof.
  intros Hd Hi Hv. cbn [be_put app] in Hd. unfold be16.
  rewrite (byte_at d pre _ _ i Hd Hi) by (apply Z.mod_pos_bound; lia).
  rewrite (byte_at d (pre ++ [(v `div` 256 ^ Z.of_nat 1) `mod` 256]) ((v `div` 256 ^ Z.of_nat 0) `mod` 256) rest (i + 1)).
  - change (256 ^ Z.of_nat 1) with 256. change (256 ^ Z.of_nat 0) with 1. rewrite Z.div_1_r.
    rewrite (Z.mod_small (v `div` 256)) by (split; [apply Z.div_pos; lia|apply Z.div_lt_upper_bound; lia]).
    pose proof (Z.div_mod v 256 ltac:(lia)). lia.
  - rewrite Hd, <- app_assoc. done.
  - rewrite len_app. cbn. unfold len at 2. cbn. lia.
  - apply Z.mod_pos_bound. lia.
Qed.

Lemma be_put_split4 v : be_put 4 v = be_put 2 (v `div` 65536) ++ be_put 2 v.
Proof.
  cbn [be_put app]. change (256 ^ Z.of_nat 3) with (65536 * 256). change (256 ^ Z.of_nat 2) with (65536 * 1).
  change (256 ^ Z.of_nat 1) with 256. change (256 ^ Z.of_nat 0) with 1. rewrite <- !Z.div_div by lia. done.
Qed.

Lemma be32_at d pre v rest i : d = pre ++ be_put 4 v ++ rest -> len pre = i -> 0 <= v < 2 ^ 32 ->
  be32 d i = v /\ be16 d i = v `div` 65536 /\ be16 d (i + 2) = v `mod` 65536.
Proof.
  intros Hd Hi Hv. rewrite be_put_split4, <- app_assoc in Hd. pose proof (Z.div_mod v 65536 ltac:(lia)).
  pose proof (Z.mod_pos_bound v 65536 ltac:(lia)).
  assert (Hhi : be16 d i = v `div` 65536) by (eapply be16_at; [exact Hd|done|split; [apply Z.div_pos; lia|apply Z.div_lt_upper_bound; lia]]).
  assert (Hlow : be_put 2 v = be_put 2 (v `mod` 65536)).
  { cbn [be_put]. change (256 ^ Z.of_nat 1) with 256. change (256 ^ Z.of_nat 0) with 1. rewrite !Z.div_1_r.
    f_equal; [|f_equal]; Z.to_euclidean_division_equations; lia. }
  assert (Hlo : be16 d (i + 2) = v `mod` 65536).
  { eapply (be16_at d (pre ++ be_put 2 (v `div` 65536)) _ rest); [rewrite Hd, <- app_assoc, <- Hlow; done|rewrite len_app, len_be_put; lia|lia]. }
  unfold be32. rewrite Hhi, Hlo. split_and!; [lia|done|done].
Qed.

Lemma bytes_at l pre rest : Forall is_byte l -> (fun k => byte (pre ++ l ++ rest) (len pre + k)) <$> seqZ 0 (len l) = l.
Proof.
  intros Hl. apply list_eq. intros k. rewrite list_lookup_fmap. destruct (l !! k) as [x|] eqn:Hk.
  - assert (k < length l)%nat by (by eapply lookup_lt_Some). rewrite lookup_seqZ_lt by (unfold len; lia). cbn. f_equal.
    rewrite Z.add_0_l. unfold byte. rewrite zget_app_r by (unfold len; lia). replace (len pre + Z.of_nat k - len pre) with (Z.of_nat k) by lia.
    rewrite zget_app_l by (unfold len; lia). unfold zget. rewrite (proj2 (Z.leb_le 0 (Z.of_nat k))), Nat2Z.id, Hk by lia. cbn.
    apply land255. rewrite Forall_lookup in Hl. specialize (Hl k x Hk). unfold is_byte in Hl. lia.
  - rewrite lookup_seqZ_ge; [done|]. apply lookup_ge_None in Hk. unfold len. lia.
Qed.

Lemma be128_at d pre v rest i : d = pre ++ be_put 16 v ++ rest -> len pre = i -> 0 <= v < 2 ^ 128 -> be128 d i = v.
Proof.
  intros -> <- Hv. transitivity (be_get ((fun k => byte (pre ++ be_put 16 v ++ rest) (len pre + k)) <$> seqZ 0 (len (be_put 16 v)))).
  - unfold be128, be_get. rewrite foldl_fmap, len_be_put. done.
  - rewrite bytes_at by apply be_put_bytes. apply be_get_put. change (256 ^ Z.of_nat 16) with (2 ^ 128). lia.
Qed.

Lemma byte_put_at d pre v rest i : d = pre ++ be_put 1 v ++ rest -> len pre = i -> 0 <= v <= 255 -> byte d i = v.
Proof.
  intros Hd Hi Hv. cbn [be_put app] in Hd. change (256 ^ Z.of_nat 0) with 1 in Hd. rewrite Z.div_1_r, Z.mod_small in Hd by lia.
  eapply byte_at; [exact Hd|done|lia].
Qed.

Definition flags (df more : bool) (o : Z) : Z := (if df then 16384 else 0) + (if more then 8192 else 0) + o `div` 8.

Lemma flags_range df more o : 0 <= o <= 65528 -> 0 <= flags df more o < 65536.
Proof. intros Ho. unfold flags. destruct df, more; Z.to_euclidean_division_equations; lia. Qed.

Lemma flags_read df more o : 0 <= o <= 65528 -> o `mod` 8 = 0 ->
  Z.testbit (flags df more o) 13 = more /\ Z.land (flags df more o) 8191 * 8 = o.
Proof.
  intros Ho H8. assert (Hq : 0 <= o `div` 8 <= 8191) by (Z.to_euclidean_division_equations; lia). split.
  - rewrite Z.testbit_odd, Z.shiftr_div_pow2 by lia. change (2 ^ 13) with 8192. unfold flags.
    assert (((if df then 16384 else 0) + (if more then 8192 else 0) + o `div` 8) `div` 8192 = (if df then 2 else 0) + if more then 1 else 0) as ->.
    { revert Hq. generalize (o `div` 8). intros q Hq. destruct df, more; Z.to_euclidean_division_equations; lia. }
    by destruct df, more.
  - change 8191 with (Z.ones 13). rewrite Z.land_ones by lia. change (2 ^ 13) with 8192.
    assert (flags df more o `mod` 8192 = o `div` 8) as ->; [|Z.to_euclidean_division_equations; lia].
    unfold flags. revert Hq. generalize (o `div` 8). intros q Hq. destruct df, more; Z.to_euclidean_division_equations; lia.
Qed.

(** The words of an IPv4 header. *)
Lemma ipv4_fields_read r id df more o c p :
  family r = V4 -> repr_ok r -> 0 <= id < 65536 -> 0 <= o <= 65528 -> 0 <= c < 65536 ->
  let d := ipv4_fields r id df more o c ++ p in
  byte d 0 = 69 /\ be16 d 0 = 17664 /\ be16 d 2 = 20 + payload_len r /\ be16 d 4 = id /\ be16 d 6 = flags df more o /\
  byte d 8 = hop_limit r /\ byte d 9 = next_header r /\ be16 d 10 = c /\
  (be32 d 12 = src r /\ be16 d 12 = src r `div` 65536 /\ be16 d 14 = src r `mod` 65536) /\
  (be32 d 16 = dst r /\ be16 d 16 = dst r `div` 65536 /\ be16 d 18 = dst r `mod` 65536).
Proof.
  intros Hf [Hs Hd Hn Hp Hh] Hid Ho Hc d. rewrite Hf in *. pose proof (flags_range df more o Ho) as Hfl. unfold d, ipv4_fields. fold (flags df more o).
  set (B := be_put 2 (20 + payload_len r)). set (C := be_put 2 id). set (F := be_put 2 (flags df more o)). set (G := be_put 1 (hop_limit r)).
  set (N := be_put 1 (next_header r)). set (K := be_put 2 c). set (S := be_put 4 (src r)). set (T := be_put 4 (dst r)).
  rewrite <- !app_assoc. assert (HB : len B = 2) by apply len_be_put. assert (HC : len C = 2) by apply len_be_put. assert (HF : len F = 2) by apply len_be_put.
  assert (HG : len G = 1) by apply len_be_put. assert (HN : len N = 1) by apply len_be_put. assert (HK : len K = 2) by apply len_be_put. assert (HS : len S = 4) by apply len_be_put.
  split_and!; [done|done|..].
  - apply be16_at with [69; 0] (C ++ F ++ G ++ N ++ K ++ S ++ T ++ p); [done|done|lia].
  - apply be16_at with ([69; 0] ++ B) (F ++ G ++ N ++ K ++ S ++ T ++ p); [by rewrite <- !app_assoc|rewrite len_app, HB; done|lia].
  - apply be16_at with ([69; 0] ++ B ++ C) (G ++ N ++ K ++ S ++ T ++ p); [by rewrite <- !app_assoc|rewrite !len_app, HB, HC; done|lia].
  - apply byte_put_at with ([69; 0] ++ B ++ C ++ F) (N ++ K ++ S ++ T ++ p); [by rewrite <- !app_assoc|rewrite !len_app, HB, HC, HF; done|lia].
  - apply byte_put_at with ([69; 0] ++ B ++ C ++ F ++ G) (K ++ S ++ T ++ p); [by rewrite <- !app_assoc|rewrite !len_app, HB, HC, HF, HG; done|lia].
  - apply be16_at with ([69; 0] ++ B ++ C ++ F ++ G ++ N) (S ++ T ++ p); [by rewrite <- !app_assoc|rewrite !len_app, HB, HC, HF, HG, HN; done|lia].
  - apply (be32_at _ ([69; 0] ++ B ++ C ++ F ++ G ++ N ++ K) _ (T ++ p)); [by rewrite <- !app_assoc|rewrite !len_app, HB, HC, HF, HG, HN, HK; done|lia].
  - apply (be32_at _ ([69; 0] ++ B ++ C ++ F ++ G ++ N ++ K) _ (T ++ p)); [by rewrite <- !app_assoc|rewrite !len_app, HB, HC, HF, HG, HN, HK; done|lia].
  - apply (be32_at _ ([69; 0] ++ B ++ C ++ F ++ G ++ N ++ K) _ (T ++ p) 12); [by rewrite <- !app_assoc|rewrite !len_app, HB, HC, HF, HG, HN, HK; done|lia].
  - apply (be32_at _ ([69; 0] ++ B ++ C ++ F ++ G ++ N ++ K ++ S) _ p); [by rewrite <- !app_assoc|rewrite !len_app, HB, HC, HF, HG, HN, HK, HS; done|lia].
  - apply (be32_at _ ([69; 0] ++ B ++ C ++ F ++ G ++ N ++ K ++ S) _ p); [by rewrite <- !app_assoc|rewrite !len_app, HB, HC, HF, HG, HN, HK, HS; done|lia].
  - apply (be32_at _ ([69; 0] ++ B ++ C ++ F ++ G ++ N ++ K ++ S) _ p 16); [by rewrite <- !app_assoc|rewrite !len_app, HB, HC, HF, HG, HN, HK, HS; done|lia].
Qed.

(** Two carries fold a sum of ten words. *)
Lemma fold_carries s : 0 < s < 2 ^ 20 ->
  let f := s `mod` 65536 + s `div` 65536 in let g := f `mod` 65536 + f `div` 65536 in
  0 < g <= 65535 /\ exists k, s = g + k * 65535.
Proof.
  intros Hs f g. pose proof (Z.div_mod s 65536 ltac:(lia)). pose proof (Z.mod_pos_bound s 65536 ltac:(lia)).
  assert (0 <= s `div` 65536 <= 15) by (Z.to_euclidean_division_equations; lia).
  pose proof (Z.div_mod f 65536 ltac:(lia)). pose proof (Z.mod_pos_bound f 65536 ltac:(lia)).
  assert (0 <= f `div` 65536 <= 1) by (unfold f in *; Z.to_euclidean_division_equations; lia).
  unfold g. split; [unfold f in *; lia|]. exists (s `div` 65536 + f `div` 65536). unfold f in *. lia.
Qed.

Definition header_words (r : IpRepr) (id : Z) (df more : bool) (o c : Z) : Z :=
  17664 + (20 + payload_len r) + id + flags df more o + (hop_limit r * 256 + next_header r) + c
  + src r `div` 65536 + src r `mod` 65536 + dst r `div` 65536 + dst r `mod` 65536.

Lemma header_sum_fields r id df more o c p :
  family r = V4 -> repr_ok r -> 0 <= id < 65536 -> 0 <= o <= 65528 -> 0 <= c < 65536 ->
  let w := header_words r id df more o c in let f := w `mod` 65536 + w `div` 65536 in
  header_sum (ipv4_fields r id df more o c ++ p) 20 = f `mod` 65536 + f `div` 65536.
Proof.
  intros Hf Hr Hid Ho Hc w f. destruct (ipv4_fields_read r id df more o c p Hf Hr Hid Ho Hc) as (_ & H0 & H2 & H4 & H6 & H8 & H9 & H10 & (_ & H12 & H14) & (_ & H16 & H18)).
  unfold header_sum. change (seqZ 0 (20 `div` 2)) with [0; 1; 2; 3; 4; 5; 6; 7; 8; 9]. cbn [foldl].
  change (2 * 0) with 0. change (2 * 1) with 2. change (2 * 2) with 4. change (2 * 3) with 6. change (2 * 4) with 8. change (2 * 5) with 10.
  change (2 * 6) with 12. change (2 * 7) with 14. change (2 * 8) with 16. change (2 * 9) with 18.
  assert (Hw : be16 (ipv4_fields r id df more o c ++ p) 8 = hop_limit r * 256 + next_header r) by (unfold be16; change (8 + 1) with 9; by rewrite H8, H9).
  rewrite H0, H2, H4, H6, Hw, H10, H12, H14, H16, H18, Z.add_0_l. done.
Qed.

Lemma len_ipv4_fields r id df more o c : len (ipv4_fields r id df more o c) = 20.
Proof. unfold ipv4_fields. rewrite !len_app, !len_be_put. done. Qed.

(** The checksum written where the sum had zero makes it all ones. *)
Lemma header_sum_verifies r id df more o p :
  family r = V4 -> repr_ok r -> 0 <= id < 65536 -> 0 <= o <= 65528 ->
  let c := 65535 - header_sum (ipv4_fields r id df more o 0) 20 in
  0 <= c < 65536 /\ header_sum (ipv4_fields r id df more o c ++ p) 20 = 65535.
Proof.
  intros Hf Hr Hid Ho c. pose proof (header_sum_fields r id df more o 0 [] Hf Hr Hid Ho ltac:(lia)) as H0. rewrite app_nil_r in H0. cbn zeta in H0.
  pose proof (flags_range df more o Ho). pose proof Hr as [Hs Hd Hn Hp Hh]. rewrite Hf in *.
  assert (Hdm : forall v, 0 <= v < 2 ^ 32 -> 0 <= v `div` 65536 <= 65535 /\ 0 <= v `mod` 65536 <= 65535)
    by (intros v Hv; Z.to_euclidean_division_equations; lia).
  pose proof (Hdm _ Hs). pose proof (Hdm _ Hd).
  assert (Hw : forall c, 0 <= c <= 65535 -> 0 < header_words r id df more o c < 2 ^ 20) by (intros c' Hc'; unfold header_words; lia).
  destruct (fold_carries _ (Hw 0 ltac:(lia))) as [Hg0 [k0 Hk0]]. cbn zeta in Hg0, Hk0. rewrite <- H0 in Hg0, Hk0.
  assert (Hc : 0 <= c < 65535) by (unfold c; lia). split; [lia|].
  rewrite header_sum_fields by (done || lia). cbn zeta. destruct (fold_carries _ (Hw c ltac:(lia))) as [Hg [k Hk]]. cbn zeta in Hg, Hk.
  revert Hg Hk. generalize (header_words r id df more o c `mod` 65536 + header_words r id df more o c `div` 65536). intros f Hg Hk.
  assert (Hsum : header_words r id df more o c = header_words r id df more o 0 + c) by (unfold header_words; lia).
  assert (Hdef : c = 65535 - header_sum (ipv4_fields r id df more o 0) 20) by done. clearbody c. lia.
Qed.

Lemma ipv6_header_read r p :
  family r = V6 -> repr_ok r -> len p = payload_len r ->
  let d := @ipv6_header rfc_emit r ++ p in
  byte d 0 = 96 /\ be16 d 4 = payload_len r /\ byte d 6 = next_header r /\ byte d 7 = hop_limit r /\ be128 d 8 = src r /\ be128 d 24 = dst r /\
  len d = 40 + len p.
Proof.
  intros Hf [Hs Hd Hn Hp Hh] Hl d. rewrite Hf in *. unfold d. cbn [ipv6_header rfc_emit].
  set (B := be_put 2 (payload_len r)). set (N := be_put 1 (next_header r)). set (G := be_put 1 (hop_limit r)). set (S := be_put 16 (src r)). set (T := be_put 16 (dst r)).
  rewrite <- !app_assoc. assert (HB : len B = 2) by apply len_be_put. assert (HG : len G = 1) by apply len_be_put.
  assert (HN : len N = 1) by apply len_be_put. assert (HS : len S = 16) by apply len_be_put. assert (HT : len T = 16) by apply len_be_put. split_and!.
  - done.
  - apply be16_at with [96; 0; 0; 0] (N ++ G ++ S ++ T ++ p); [done|done|lia].
  - apply byte_put_at with ([96; 0; 0; 0] ++ B) (G ++ S ++ T ++ p); [by rewrite <- !app_assoc|rewrite len_app, HB; done|lia].
  - apply byte_put_at with ([96; 0; 0; 0] ++ B ++ N) (S ++ T ++ p); [by rewrite <- !app_assoc|rewrite !len_app, HB, HN; done|lia].
  - apply be128_at with ([96; 0; 0; 0] ++ B ++ N ++ G) (T ++ p); [by rewrite <- !app_assoc|rewrite !len_app, HB, HN, HG; done|lia].
  - apply be128_at with ([96; 0; 0; 0] ++ B ++ N ++ G ++ S) p; [by rewrite <- !app_assoc|rewrite !len_app, HB, HN, HG, HS; done|lia].
  - rewrite !len_app, HB, HN, HG, HS, HT. unfold len at 1. cbn. lia.
Qed.

Lemma udp_header_read s d n c p :
  0 <= s < 65536 -> 0 <= d < 65536 -> 0 <= n < 65536 -> 0 <= c < 65536 ->
  let x := (be_put 2 s ++ be_put 2 d ++ be_put 2 n ++ be_put 2 c) ++ p in
  be16 x 0 = s /\ be16 x 2 = d /\ be16 x 4 = n /\ be16 x 6 = c.
Proof.
  intros Hs Hd Hn Hc x. unfold x. rewrite <- !app_assoc. split_and!.
  - apply be16_at with [] (be_put 2 d ++ be_put 2 n ++ be_put 2 c ++ p); [done|done|lia].
  - apply be16_at with (be_put 2 s) (be_put 2 n ++ be_put 2 c ++ p); [done|by rewrite len_be_put|lia].
  - apply be16_at with (be_put 2 s ++ be_put 2 d) (be_put 2 c ++ p); [by rewrite <- !app_assoc|by rewrite len_app, !len_be_put|lia].
  - apply be16_at with (be_put 2 s ++ be_put 2 d ++ be_put 2 n) p; [by rewrite <- !app_assoc|by rewrite !len_app, !len_be_put|lia].
Qed.

Lemma words_put2 v : 0 <= v < 65536 -> words (be_put 2 v) = v.
Proof.
  intros Hv. cbn [be_put words]. change (256 ^ Z.of_nat 1) with 256. change (256 ^ Z.of_nat 0) with 1. Z.to_euclidean_division_equations; lia.
Qed.

Lemma address_words_nonneg a : 0 <= address_words a.
Proof. destruct a; apply words_nonneg, be_put_bytes. Qed.

Lemma lsum_words l : Forall (fun x => 0 <= x <= 65535) l -> 0 <= lsum Datatypes.id l.
Proof. intros Hl. apply lsum_nonneg. intros x Hx. rewrite Forall_forall in Hl. specialize (Hl x Hx). unfold Datatypes.id. lia. Qed.

#[export] Instance rfc_emit_laws : EmitLaws.
Proof.
  constructor.
  - intros. apply len_ipv4_fields.
  - intros r id df more o p Hf Hr Hid Ho Ho8 Hl. destruct (header_sum_verifies r id df more o p Hf Hr Hid Ho) as [Hc Hsum].
    cbn [ipv4_header rfc_emit]. set (c := 65535 - _) in *.
    destruct (ipv4_fields_read r id df more o c p Hf Hr Hid Ho Hc) as (H0 & _ & H2 & H4 & H6 & H8 & H9 & _ & (H12 & _) & (H16 & _)).
    destruct (flags_read df more o Ho Ho8) as [Hmore Hoff]. pose proof (len_nonneg p). destruct Hr as [Hs Hd Hn Hp Hh]. rewrite Hf in *.
    constructor; cbn [of_packet ipv4_new_checked ipv4_version ipv4_verify_checksum ipv4_header_len ipv4_total_len ipv4_next_header ipv4_hop_limit
      ipv4_src ipv4_dst ipv4_ident ipv4_more_frags ipv4_frag_offset rfc_wire]; rewrite ?H0, ?H2, ?H4, ?H6, ?H8, ?H9, ?H12, ?H16; try done.
    + rewrite len_app, len_ipv4_fields. change (4 * Z.land 69 15) with 20. rewrite !andb_true_iff, !Z.leb_le. lia.
    + change (4 * Z.land 69 15) with 20. by rewrite Hsum.
  - intros r. cbn [ipv6_header rfc_emit]. rewrite !len_app, !len_be_put. done.
  - intros r p Hf Hr Hl. destruct (ipv6_header_read r p Hf Hr Hl) as (H0 & H4 & H6 & H7 & H8 & H24 & Hlen). pose proof (len_nonneg p).
    assert (Hp : Z.land (payload_len r) 65535 = payload_len r).
    { change 65535 with (Z.ones 16). rewrite Z.land_ones by lia. apply Z.mod_small. destruct Hr as [_ _ _ Hp _]. rewrite Hf in Hp. lia. }
    cbn [of_packet ipv6_new_checked ipv6_parse ipv6_payload_len rfc_wire]. rewrite H0, H4, H6, H7, H8, H24, Hlen, Hp. split_and!; [done| | |done].
    + apply Z.leb_le. lia.
    + rewrite <- Hf. by destruct r.
  - intros o more id. cbn [frag_header rfc_emit]. rewrite len_app, !len_be_put. done.
  - intros o more id Ho Hid. cbn [frag_parse rfc_wire frag_header rfc_emit]. set (v := o * 8 + _).
    assert (Hv : 0 <= v < 65536) by (unfold v; destruct more; lia).
    rewrite (be16_at _ [] v (be_put 4 id) 0) by done.
    destruct (be32_at (be_put 2 v ++ be_put 4 id) (be_put 2 v) id [] 2) as [-> _]; [by rewrite app_nil_r|by rewrite len_be_put|done|].
    rewrite Z.shiftr_div_pow2 by lia. assert (v `div` 2 ^ 3 = o) as -> by (unfold v; destruct more; Z.to_euclidean_division_equations; lia).
    change 8191 with (Z.ones 13). rewrite Z.land_ones, Z.mod_small by lia. do 3 f_equal. rewrite Z.bit0_odd. unfold v. destruct more.
    + rewrite Z.odd_add, Z.odd_mul. by rewrite andb_false_r.
    + rewrite Z.odd_add, Z.odd_mul. by rewrite andb_false_r.
  - intros. cbn [udp_header rfc_emit]. rewrite !len_app, !len_be_put. done.
  - intros. cbn [udp_header rfc_emit]. repeat (apply Forall_app; split); apply be_put_bytes.
  - intros s d n c p Hs Hd Hn Hc Hlen x. destruct (udp_header_read s d n c p Hs Hd Hn Hc) as (H0 & H2 & H4 & H6).
    unfold x. cbn [udp_new_checked udp_src_port udp_dst_port udp_len udp_checksum udp_header rfc_emit]. rewrite H0, H2, H4, H6. split_and!; try done.
    rewrite !len_app, !len_be_put. pose proof (len_nonneg p). rewrite !andb_true_iff, !Z.leb_le. lia.
  - intros a b s d p. done.
  - intros verified a b x Hnew Hdst Hsum. cbn [udp_new_checked udp_dst_port udp_len combine pseudo_header checksum_data udp_parse rfc_emit] in *.
    rewrite Hnew. cbn [lsum foldr] in Hsum. unfold Datatypes.id in Hsum. rewrite Hsum. replace (be16 x 2 =? 0) with false by (symmetry; by apply Z.eqb_neq).
    cbn. by rewrite orb_true_r.
  - intros l Hl. by apply norm_spec, lsum_words.
  - intros l Hl. by apply norm_spec, lsum_words.
  - intros l Hl. by apply norm_spec, lsum_words.
  - intros a b n Hn. cbn [pseudo_header rfc_emit]. pose proof (address_words_nonneg a). pose proof (address_words_nonneg b).
    destruct (norm_spec (address_words a + address_words b + Udp + n)) as (Hr & _ & _ & Hpos); [unfold Udp; lia|]. split; [apply Hpos; unfold Udp; lia|lia].
  - intros b Hb. by apply norm_spec, words_nonneg.
  - intros a b Ha Hb Heven. cbn [checksum_data rfc_emit]. pose proof (words_nonneg a Ha). pose proof (words_nonneg b Hb). rewrite words_app by done.
    destruct (norm_spec (words a + words b) ltac:(lia)) as (_ & -> & _). destruct (norm_spec (words a) ltac:(lia)) as (_ & Ha' & _).
    destruct (norm_spec (words b) ltac:(lia)) as (_ & Hb' & _). rewrite (Z.add_mod (norm _)), Ha', Hb' by lia. by rewrite <- Z.add_mod by lia.
  - intros s d n c Hs Hd Hn Hc. cbn [checksum_data udp_header rfc_emit]. rewrite !words_app, !words_put2 by (done || by rewrite len_be_put).
    destruct (norm_spec (s + (d + (n + c))) ltac:(lia)) as (_ & -> & _). f_equal. lia.
Qed.

(** ** Witness *)

#[local] Existing Instances Decoder.list_assembler Decoder.list_assembler_laws.

(** A datagram over IPv6 that takes two frames, which arrive in the other order. *)
Definition demo_encoder : Encoder := mkEncoder 1280 65535 7.
Definition demo_source : SocketAddr := (Ipv6 (2 ^ 125 + 1), 53).
Definition demo_destination : SocketAddr := (Ipv6 (2 ^ 125 + 2), 4000).
Definition demo_datagram : bytes := replicate 2000 7.
Definition demo_arrival (f : bytes) : reception := mkReception f 10 10 2048.

Lemma udp_datagram_roundtrip_witness : exists frames,
  snd (encode demo_encoder demo_source demo_destination demo_datagram (fun _ => [])) = Some frames /\
  let outs := snd (decode_all (A := list (Z * Z)) Decoder.demo_tcp 200 (Decoder.new Decoder.demo_limits) (demo_arrival <$> rev frames)) in
  outs <> [] /\ Forall (accepted demo_source demo_destination demo_datagram) outs.
Proof.
  destruct (udp_datagram_roundtrip (A := list (Z * Z)) Decoder.demo_tcp 200 ltac:(lia) demo_encoder demo_source demo_destination demo_datagram (fun _ => []))
    as (_ & frames & Hf & _ & Hdel).
  - constructor; vm_compute; split; congruence.
  - constructor; [vm_compute; split; congruence|reflexivity|vm_compute; split; congruence].
  - constructor; [vm_compute; split; congruence|reflexivity|vm_compute; split; congruence].
  - reflexivity.
  - vm_compute; congruence.
  - unfold demo_datagram. apply Forall_replicate. unfold is_byte. lia.
  - exists frames. split; [exact Hf|]. assert (Hn : length frames = 2%nat) by (vm_compute in Hf; injection Hf as <-; reflexivity).
    apply (Hdel (Decoder.new Decoder.demo_limits) _ 0 (4 * Capacity.INITIAL_BYTES) 65535 0).
    + rewrite <- list_fmap_compose. change (frame ∘ demo_arrival) with (fun f : bytes => f). rewrite list_fmap_id. symmetry. apply Permutation_rev.
    + constructor.
      * reflexivity.
      * lia.
      * vm_compute. repeat split; congruence.
      * split; [reflexivity|]. split; [|reflexivity]. vm_compute. repeat split; discriminate.
      * apply Forall_fmap, Forall_forall. intros f _. vm_compute. repeat split; congruence.
      * rewrite length_fmap, length_rev, Hn. cbn. lia.
Defined.
End UdpEncoder.
