(* ===== verification/Fragments.v ===== *)
(** * Routing of fragments to workers (crates/tun/src/fragments.rs)

    Receive workers share a table, sharded by endpoint hash, that binds a datagram identity to
    the worker its first fragment selects.  Every method holds one shard's mutex, so it is one
    atomic step; the [active] flag of a binding is shared with the deliveries in flight. *)

From S2P Require Import Prelude Capacity Reassembly Packet Decoder.
Import Packet.

Module Fragments.
Import Decoder.

(** [crate::Received] *)
Record Received := mkReceived {
  frame_bytes : bytes;
  allocation_size : Z;
  checksum_verified : bool;
  udp_segment_size : option Z;
}.

Section routes.
(** [size_of::<Received>()] and [ENTRY_BYTES], which depend on the layout. *)
Context (RECEIVED_SIZE ENTRY_BYTES : Z).

(** [Pending]: [capacity] is that of the vector of frames. *)
Record Pending := mkPending { frames : list Received; capacity : Z; retained : Z; lease : Z }.

(** [Pending::push], with the accounting it leaves.  A refused frame leaves the lease resized
    as far as it was. *)
Definition push (p : Pending) (frame : Received) (now alloc : Z) (l : Reassembly.Limits) :
  Reassembly.Limits * Pending * bool :=
  let kept := retained p + allocation_size frame in
  let cap := Z.max (capacity p) (len (frames p) + 1) in
  match Reassembly.resize l (lease p) (kept + cap * RECEIVED_SIZE) now with
  | (l, held, false) => (l, mkPending (frames p) (capacity p) (retained p) held, false)
  | (l, held, true) =>
      let cap := reserve_exact (capacity p) (len (frames p) + 1) alloc in
      match Reassembly.resize l held (kept + cap * RECEIVED_SIZE) now with
      | (l, held, false) => (l, mkPending (frames p) cap (retained p) held, false)
      | (l, held, true) => (l, mkPending (frames p ++ [frame]) cap kept held, true)
      end
  end.

(** [Pending::size] *)
Definition pending_size (p : Pending) : Z :=
  lsum (fun f => len (frame_bytes f)) (frames p) + capacity p * RECEIVED_SIZE.

(** [Delivery], and [Delivery::size] *)
Record Delivery := mkDelivery {
  owner : Z;
  d_binding : Binding;
  frame : Received;
  d_pending : option Pending;
}.

Definition delivery_size (d : Delivery) : Z :=
  len (frame_bytes (frame d)) + match d_pending d with Some p => pending_size p | None => 0 end.

(** [Entry] *)
Record Entry := mkEntry { e_binding : Binding; e_owner : option Z; e_pending : option Pending }.

(** [Shard] *)
Record Shard := mkShard { entries : gmap FragmentKey Entry; next_expiry : option Z }.

(** [Routes], with the [active] flags of the bindings made so far.  A binding's own lease is
    released with its last owner, outside this table. *)
Record Routes := mkRoutes {
  shards : list Shard;
  limits : Reassembly.Limits;
  flags : gmap nat bool;
  next_id : nat;
}.

(** [Routes::new] *)
Definition new (count : Z) (l : Reassembly.Limits) : Routes :=
  mkRoutes (replicate (Z.to_nat count) (mkShard ∅ None)) l ∅ 0.

(** [Drop for Entry] with the fields it owns. *)
Definition drop_entry (s : Reassembly.Limits * gmap nat bool) (e : Entry) :
  Reassembly.Limits * gmap nat bool :=
  (match e_pending e with Some p => Reassembly.drop (fst s) (lease p) | None => fst s end,
   <[b_id (e_binding e) := false]> (snd s)).

Definition put_shard (i : Z) (s : Shard) (r : Routes) : Routes :=
  mkRoutes (<[Z.to_nat i := s]> (shards r)) (limits r) (flags r) (next_id r).

Definition set_shared (s : Reassembly.Limits * gmap nat bool) (r : Routes) : Routes :=
  mkRoutes (shards r) (fst s) (snd s) (next_id r).

(** Entries removed from shard [i]: what is kept, and the effects of the drops. *)
Definition keep_only (i : Z) (P : Entry -> bool) (s : Shard) (next : option Z) (r : Routes) : Routes :=
  let gone := snd <$> map_to_list (filter (fun '(_, e) => P e = false) (entries s)) in
  set_shared (foldl drop_entry (limits r, flags r) gone)
    (put_shard i (mkShard (filter (fun '(_, e) => P e = true) (entries s)) next) r).

(** [Shard::expire] on shard [i] *)
Definition expire_shard (i now : Z) (r : Routes) : Routes :=
  match shards r !! Z.to_nat i with
  | Some s =>
      match next_expiry s with
      | Some at_ =>
          if at_ <=? now then
            let alive e := now <? b_expires (e_binding e) in
            keep_only i alive s
              (min_by_key Datatypes.id
                 ((fun x => b_expires (e_binding x.2)) <$>
                    map_to_list (filter (fun '(_, e) => alive e = true) (entries s)))) r
          else r
      | None => r
      end
  | None => r
  end.

(** [entries.remove(&key)] on shard [i] *)
Definition remove_entry (i : Z) (key : FragmentKey) (r : Routes) : Routes :=
  match shards r !! Z.to_nat i with
  | Some s =>
      match entries s !! key with
      | Some e =>
          set_shared (drop_entry (limits r, flags r) e)
            (put_shard i (mkShard (delete key (entries s)) (next_expiry s)) r)
      | None => r
      end
  | None => r
  end.

(** The vacant entry [route] fills, unless the reservation fails. *)
Definition ensure_entry (i : Z) (key : FragmentKey) (now : Z) (r : Routes) : Routes * bool :=
  match shards r !! Z.to_nat i with
  | None => (r, false)                            (* the index is out of range: a panic *)
  | Some s =>
      match entries s !! key with
      | Some _ => (r, true)
      | None =>
          match Reassembly.reserve (limits r) ENTRY_BYTES now with
          | (l, None) => (mkRoutes (shards r) l (flags r) (next_id r), false)
          | (l, Some _) =>
              let expires := now + REASSEMBLY_LIFETIME in
              let b := mkBinding (next_id r) key expires i in
              let next := match next_expiry s with
                          | Some at_ => if expires <? at_ then expires else at_
                          | None => expires
                          end in
              (mkRoutes (<[Z.to_nat i := mkShard (<[key := mkEntry b None None]> (entries s)) (Some next)]>
                           (shards r))
                 l (<[next_id r := true]> (flags r)) (S (next_id r)), true)
          end
      end
  end.

(** [Routes::route] *)
Definition route (i : Z) (key : FragmentKey) (first_owner : option Z) (f : Received) (now alloc : Z)
  (r : Routes) : Routes * option Delivery :=
  match ensure_entry i key now (expire_shard i now r) with
  | (r, false) => (r, None)
  | (r, true) =>
      match shards r !! Z.to_nat i with
      | None => (r, None)
      | Some s =>
          match entries s !! key with
          | None => (r, None)
          | Some e =>
              let put e r := put_shard i (mkShard (<[key := e]> (entries s)) (next_expiry s)) r in
              let o := match e_owner e with None => first_owner | Some o => Some o end in
              match o with
              | Some w => (put (mkEntry (e_binding e) o None) r, Some (mkDelivery w (e_binding e) f (e_pending e)))
              | None =>
                  let '(l, opened) :=
                    match e_pending e with
                    | Some p => (limits r, Some p)
                    | None =>
                        let '(l, lease) := Reassembly.reserve (limits r) 0 now in
                        (l, mkPending [] 0 0 <$> lease)
                    end in
                  match opened with
                  | None => (mkRoutes (shards r) l (flags r) (next_id r), None)
                  | Some p =>
                      let '(l, p, ok) := push p f now alloc l in
                      let r := put (mkEntry (e_binding e) None (Some p)) (mkRoutes (shards r) l (flags r) (next_id r)) in
                      (if ok then r else remove_entry i key r, None)
                  end
              end
          end
      end
  end.

(** [Routes::finish] *)
Definition finish (b : Binding) (r : Routes) : Routes :=
  match shards r !! Z.to_nat (b_shard b) with
  | Some s =>
      match entries s !! b_key b with
      | Some e => if ptr_eq (e_binding e) b then remove_entry (b_shard b) (b_key b) r else r
      | None => r
      end
  | None => r
  end.

(** [Routes::discard_oldest_pending], with the hash map's iteration order. *)
Definition discard_oldest_pending (i : Z)
  (order : list (FragmentKey * Entry) -> list (FragmentKey * Entry)) (r : Routes) : Routes * bool :=
  match shards r !! Z.to_nat i with
  | Some s =>
      match min_by_key (fun x => b_expires (e_binding x.2))
              (filter (fun '(_, e) => bool_decide (e_pending e <> None) = true) (order (map_to_list (entries s)))) with
      | Some (key, _) => (remove_entry i key r, true)
      | None => (r, false)
      end
  | None => (r, false)
  end.

(** The scan of [Routes::expire] when its timer fires. *)
Definition expire_all (now : Z) (r : Routes) : Routes :=
  foldl (fun r i => expire_shard i now r) r (seqZ 0 (len (shards r))).

(** ** Sequences of calls *)

(** The entry for a key, and the state with its history: the frames the table took in, tagged
    by binding, and the deliveries it made. *)
Definition entry_at (r : Routes) (i : nat) (k : FragmentKey) : option Entry :=
  s ← shards r !! i; entries s !! k.

Record machine := mkMachine {
  routes : Routes;
  taken : list (nat * Received);
  deliveries : list Delivery;
}.

Inductive action :=
| Route (i : Z) (key : FragmentKey) (first_owner : option Z) (f : Received) (now alloc : Z)
| Finish (b : Binding)
| Discard (i : Z) (order : list (FragmentKey * Entry) -> list (FragmentKey * Entry))
| ExpireAll (now : Z)
| Others (l : Reassembly.Limits).

(** The binding that took a frame in: that of its delivery, or of the entry now holding it. *)
Definition taken_by (r : Routes) (i : Z) (key : FragmentKey) (d : option Delivery) : option nat :=
  match d with
  | Some d => Some (b_id (d_binding d))
  | None => (fun e => b_id (e_binding e)) <$> entry_at r (Z.to_nat i) key
  end.

Definition step (m : machine) (a : action) : machine :=
  match a with
  | Route i key first_owner f now alloc =>
      let '(r, d) := route i key first_owner f now alloc (routes m) in
      mkMachine r (taken m ++ ((fun id => (id, f)) <$> option_list (taken_by r i key d)))
        (deliveries m ++ option_list d)
  | Finish b => mkMachine (finish b (routes m)) (taken m) (deliveries m)
  | Discard i order => mkMachine (fst (discard_oldest_pending i order (routes m))) (taken m) (deliveries m)
  | ExpireAll now => mkMachine (expire_all now (routes m)) (taken m) (deliveries m)
  | Others l => mkMachine (mkRoutes (shards (routes m)) l (flags (routes m)) (next_id (routes m)))
                  (taken m) (deliveries m)
  end.

Definition run (m : machine) (acts : list action) : machine := foldl step m acts.

Definition start (count : Z) (l : Reassembly.Limits) : machine := mkMachine (new count l) [] [].

(** The frames a delivery carries, in the order its consumer decodes them. *)
Definition carried (d : Delivery) : list Received := from_option frames [] (d_pending d) ++ [frame d].

Definition taken_frames (id : nat) (l : list (nat * Received)) : list Received :=
  snd <$> filter (fun x => x.1 = id) l.
Definition delivered_frames (id : nat) (l : list Delivery) : list Received :=
  mjoin (carried <$> filter (fun d => b_id (d_binding d) = id) l).

(** ** The table *)

Record Table (r : Routes) : Prop := {
  tab_key : forall i k e, entry_at r i k = Some e -> b_key (e_binding e) = k /\ (b_id (e_binding e) < next_id r)%nat;
  tab_flag : forall i k e, entry_at r i k = Some e -> flags r !! b_id (e_binding e) = Some true;
  tab_unique : forall i k e i' k' e', entry_at r i k = Some e -> entry_at r i' k' = Some e' ->
    b_id (e_binding e) = b_id (e_binding e') -> i = i' /\ k = k';
  tab_active : forall id, flags r !! id = Some true -> exists i k e, entry_at r i k = Some e /\ b_id (e_binding e) = id;
  tab_owner : forall i k e, entry_at r i k = Some e -> e_owner e <> None -> e_pending e = None;
  tab_fresh : forall id, (next_id r <= id)%nat -> flags r !! id = None;
}.

(** Removals: some entries go, and exactly their bindings become inactive. *)
Record shrinks (r r' : Routes) : Prop := {
  shr_sub : forall i k e, entry_at r' i k = Some e -> entry_at r i k = Some e;
  shr_gone : forall i k e, entry_at r i k = Some e -> entry_at r' i k = None ->
    flags r' !! b_id (e_binding e) = Some false;
  shr_kept : forall id, (forall i k e, entry_at r i k = Some e -> entry_at r' i k = None -> b_id (e_binding e) <> id) ->
    flags r' !! id = flags r !! id;
  shr_next : next_id r' = next_id r;
}.

Lemma shrinks_refl r : shrinks r r.
Proof. constructor; try done. intros i k e H1 H2. congruence. Qed.

Lemma table_shrinks r r' : Table r -> shrinks r r' -> Table r'.
Proof.
  intros [Hk Hf Hu Ha Ho Hn] [Hsub Hgone Hkept Hnext].
  assert (Hsame : forall i k e, entry_at r' i k = Some e -> flags r' !! b_id (e_binding e) = flags r !! b_id (e_binding e)).
  { intros i k e He. apply Hkept. intros i' k' e' He' Hno Hid.
    destruct (Hu _ _ _ _ _ _ He' (Hsub _ _ _ He) Hid) as [-> ->]. congruence. }
  constructor.
  - intros i k e He. rewrite Hnext. eauto.
  - intros i k e He. rewrite (Hsame i k e He). eauto.
  - intros i k e i' k' e' He He'. eauto.
  - intros id Hid. destruct (flags r !! id) as [[]|] eqn:Hold.
    + destruct (Ha id Hold) as (i & k & e & He & <-).
      destruct (entry_at r' i k) as [e'|] eqn:He'; [|by rewrite (Hgone i k e He He') in Hid].
      pose proof (Hsub _ _ _ He'). simplify_eq. eauto 6.
    + assert (flags r' !! id = flags r !! id); [|congruence]. apply Hkept.
      intros i k e He _ <-. specialize (Hf _ _ _ He). congruence.
    + assert (flags r' !! id = flags r !! id); [|congruence]. apply Hkept.
      intros i k e He _ <-. specialize (Hf _ _ _ He). congruence.
  - eauto.
  - intros id Hid. rewrite Hkept; [apply Hn; lia|]. intros i k e He _ <-.
    destruct (Hk _ _ _ He). lia.
Qed.

Lemma entry_at_put r i s s0 j k l fl n :
  shards r !! i = Some s0 ->
  entry_at (mkRoutes (<[i := s]> (shards r)) l fl n) j k = if decide (j = i) then entries s !! k else entry_at r j k.
Proof.
  intros Hs. unfold entry_at. simpl. case_decide as Hj.
  - subst. by rewrite list_lookup_insert_eq by (by eapply lookup_lt_Some).
  - by rewrite list_lookup_insert_ne.
Qed.

Lemma drops_flags es s id :
  snd (foldl drop_entry s es) !! id =
  if decide (id ∈ (fun e => b_id (e_binding e)) <$> es) then Some false else snd s !! id.
Proof.
  revert s. induction es as [|e es IH]; intros s; simpl; [done|]. rewrite IH.
  case_decide as H1; case_decide as H2; try done.
  - exfalso. apply H2. set_solver.
  - simpl. rewrite lookup_insert. case_decide; [done|]. set_solver.
  - simpl. rewrite lookup_insert_ne; [done|]. set_solver.
Qed.

Lemma shrinks_keep i P s next r :
  Table r -> shards r !! Z.to_nat i = Some s -> shrinks r (keep_only i P s next r).
Proof.
  intros Ht Hs. unfold keep_only, put_shard, set_shared. simpl.
  set (gone := snd <$> _).
  assert (Hgone : forall e, e ∈ gone <-> exists k, entries s !! k = Some e /\ P e = false).
  { intros e. unfold gone. rewrite list_elem_of_fmap. split.
    - intros ([k e'] & -> & He). apply elem_of_map_to_list, map_lookup_filter_Some in He as [? ?]. eauto.
    - intros (k & He & Hp). exists (k, e). split; [done|]. by apply elem_of_map_to_list, map_lookup_filter_Some. }
  assert (Hat : forall j k, j = Z.to_nat i -> entry_at r j k = entries s !! k).
  { intros j k ->. unfold entry_at. by rewrite Hs. }
  constructor; simpl.
  - intros j k e. rewrite (entry_at_put r _ _ s) by done. simpl. case_decide; [|done].
    rewrite map_lookup_filter_Some, Hat by done. tauto.
  - intros j k e He. rewrite (entry_at_put r _ _ s) by done. simpl. case_decide as Hj; [|congruence].
    intros Hno. rewrite Hat in He by done. rewrite drops_flags, decide_True; [done|].
    apply list_elem_of_fmap. exists e. split; [done|]. apply Hgone. exists k. split; [done|].
    apply map_lookup_filter_None in Hno as [?|Hno]; [congruence|]. specialize (Hno e He).
    by apply not_true_iff_false.
  - intros id Hid. rewrite drops_flags, decide_False; [done|].
    intros (e & -> & He)%list_elem_of_fmap. apply Hgone in He as (k & He & Hp).
    apply (Hid (Z.to_nat i) k e); [by rewrite Hat| |done]. rewrite (entry_at_put r _ _ s), decide_True by done.
    simpl. apply map_lookup_filter_None. right. intros x Hx. simplify_eq. by rewrite Hp.
  - done.
Qed.

Lemma shrinks_expire_shard i now r : Table r -> shrinks r (expire_shard i now r).
Proof.
  intros Ht. unfold expire_shard. destruct (shards r !! Z.to_nat i) as [s|] eqn:Hs; [|apply shrinks_refl].
  destruct (next_expiry s); [|apply shrinks_refl]. case_bool; [by apply shrinks_keep|apply shrinks_refl].
Qed.

Lemma shrinks_remove i key r : Table r -> shrinks r (remove_entry i key r).
Proof.
  intros Ht. unfold remove_entry. destruct (shards r !! Z.to_nat i) as [s|] eqn:Hs; [|apply shrinks_refl].
  destruct (entries s !! key) as [e|] eqn:He; [|apply shrinks_refl].
  assert (Hat : entry_at r (Z.to_nat i) key = Some e) by (unfold entry_at; by rewrite Hs).
  unfold set_shared, put_shard. constructor; simpl.
  - intros j k x. rewrite (entry_at_put r _ _ s) by done. simpl. case_decide; [|done]. subst.
    rewrite lookup_delete_Some. unfold entry_at. rewrite Hs. tauto.
  - intros j k x Hx. rewrite (entry_at_put r _ _ s) by done. simpl. case_decide; [|congruence]. subst.
    destruct (decide (k = key)) as [->|Hne].
    + intros _. simplify_eq. apply lookup_insert_eq.
    + rewrite lookup_delete_ne by done. unfold entry_at in Hx. rewrite Hs in Hx. simpl in Hx. congruence.
  - intros id Hid. rewrite lookup_insert_ne; [done|]. apply (Hid _ _ _ Hat).
    rewrite (entry_at_put r _ _ s), decide_True by done. simpl. apply lookup_delete_eq.
  - done.
Qed.

Lemma shrinks_finish b r : Table r -> shrinks r (finish b r).
Proof.
  intros Ht. unfold finish. destruct (shards r !! _) as [s|]; [|apply shrinks_refl].
  destruct (entries s !! _); [|apply shrinks_refl]. case_bool; [by apply shrinks_remove|apply shrinks_refl].
Qed.

Lemma shrinks_discard i order r : Table r -> shrinks r (fst (discard_oldest_pending i order r)).
Proof.
  intros Ht. unfold discard_oldest_pending. destruct (shards r !! _) as [s|]; [|apply shrinks_refl].
  destruct (min_by_key _ _) as [[k e]|]; [by apply shrinks_remove|apply shrinks_refl].
Qed.

(** ** History *)

Record Inv (m : machine) : Prop := {
  inv_table : Table (routes m);
  inv_out : forall id, delivered_frames id (deliveries m) `prefix_of` taken_frames id (taken m);
  inv_live : forall i k e, entry_at (routes m) i k = Some e ->
    taken_frames (b_id (e_binding e)) (taken m) =
    delivered_frames (b_id (e_binding e)) (deliveries m) ++ from_option frames [] (e_pending e);
  inv_owner : forall d i k e, d ∈ deliveries m -> entry_at (routes m) i k = Some e ->
    b_id (d_binding d) = b_id (e_binding e) -> e_owner e = Some (owner d);
  inv_same : forall d d', d ∈ deliveries m -> d' ∈ deliveries m ->
    b_id (d_binding d) = b_id (d_binding d') -> owner d = owner d';
  inv_taken : forall x, x ∈ taken m -> (x.1 < next_id (routes m))%nat;
  inv_deliv : forall d, d ∈ deliveries m -> (b_id (d_binding d) < next_id (routes m))%nat;
}.

Lemma inv_shrinks r r' tk ds : Inv (mkMachine r tk ds) -> shrinks r r' -> Inv (mkMachine r' tk ds).
Proof.
  intros [Ht Hout Hlive Hown Hsame Htk Hdl] Hs. pose proof (shr_sub _ _ Hs) as Hsub.
  pose proof (shr_next _ _ Hs) as Hn.
  constructor; simpl in *; rewrite ?Hn; eauto using table_shrinks.
Qed.

(** The same table with other accounting. *)
Lemma inv_limits r tk ds l :
  Inv (mkMachine r tk ds) -> Inv (mkMachine (mkRoutes (shards r) l (flags r) (next_id r)) tk ds).
Proof. intros [Ht ? ? ? ? ? ?]. constructor; try done. by destruct Ht. Qed.

Lemma taken_frames_app id l k : taken_frames id (l ++ k) = taken_frames id l ++ taken_frames id k.
Proof. unfold taken_frames. by rewrite filter_app, fmap_app. Qed.

Lemma delivered_frames_app id l k : delivered_frames id (l ++ k) = delivered_frames id l ++ delivered_frames id k.
Proof. unfold delivered_frames. by rewrite filter_app, fmap_app, join_app. Qed.

Lemma taken_frames_one id id' f : taken_frames id [(id', f)] = if decide (id' = id) then [f] else [].
Proof. unfold taken_frames. rewrite filter_cons. simpl. by case_decide. Qed.

Lemma delivered_frames_one id d :
  delivered_frames id [d] = if decide (b_id (d_binding d) = id) then carried d else [].
Proof.
  unfold delivered_frames. rewrite filter_cons. case_decide; simpl; [by rewrite app_nil_r|done].
Qed.

Lemma taken_frames_none id l : (forall x, x ∈ l -> x.1 <> id) -> taken_frames id l = [].
Proof.
  intros Hl. unfold taken_frames.
  induction l as [|x l IH]; [done|]. rewrite filter_cons_False by (apply Hl; set_solver). apply IH. set_solver.
Qed.

Lemma delivered_frames_none id l : (forall d, d ∈ l -> b_id (d_binding d) <> id) -> delivered_frames id l = [].
Proof.
  intros Hl. unfold delivered_frames.
  induction l as [|x l IH]; [done|]. rewrite filter_cons_False by (apply Hl; set_solver). apply IH. set_solver.
Qed.

Lemma inv_ensure i key now r tk ds r' ok :
  Inv (mkMachine r tk ds) -> ensure_entry i key now r = (r', ok) ->
  Inv (mkMachine r' tk ds) /\ (ok = true -> exists e, entry_at r' (Z.to_nat i) key = Some e).
Proof.
  intros Hinv. unfold ensure_entry. destruct (shards r !! Z.to_nat i) as [s|] eqn:Hs; [|by intros [= <- <-]].
  destruct (entries s !! key) as [e|] eqn:He.
  { intros [= <- <-]. split; [done|]. intros _. exists e. unfold entry_at. by rewrite Hs. }
  destruct (Reassembly.reserve _ _ _) as [l [held|]]; intros [= <- <-]; [|by split; [apply inv_limits|]].
  pose proof Hinv as [[Hk Hf Hu Ha Ho Hn] Hout Hlive Hown Hsame Htk Hdl]. simpl in *.
  set (b := mkBinding _ _ _ _). set (e := mkEntry b None None).
  set (r' := mkRoutes _ _ _ _).
  assert (Hat : forall j k, entry_at r' j k =
            if decide (j = Z.to_nat i /\ k = key) then Some e else entry_at r j k).
  { intros j k. unfold r'. rewrite (entry_at_put r _ _ s) by done. simpl.
    unfold entry_at. destruct (decide (j = Z.to_nat i)) as [->|Hj].
    - rewrite Hs. simpl. destruct (decide (k = key)) as [->|Hk'].
      + by rewrite lookup_insert_eq, decide_True.
      + rewrite lookup_insert_ne by done. by rewrite decide_False by tauto.
    - by rewrite decide_False by tauto. }
  assert (Hfresh : forall j k x, entry_at r j k = Some x -> b_id (e_binding x) <> next_id r).
  { intros j k x Hx. destruct (Hk _ _ _ Hx). lia. }
  split; [|intros _; exists e; rewrite Hat, decide_True; done].
  constructor; simpl.
  - constructor; simpl.
    + intros j k x. rewrite Hat. case_decide as Hd; [destruct Hd; intros [= <-]; simpl; split; [done|lia]|].
      intros Hx. destruct (Hk _ _ _ Hx). split; [done|lia].
    + intros j k x. rewrite Hat. case_decide as Hd; [intros [= <-]; apply lookup_insert_eq|].
      intros Hx. rewrite lookup_insert_ne by (apply not_eq_sym; eauto). eauto.
    + intros j k x j' k' x'. rewrite !Hat. case_decide as Hd; case_decide as Hd'; intros Hx Hx' Hid; simplify_eq.
      * destruct Hd, Hd'; by subst.
      * exfalso. eapply Hfresh; [exact Hx'|]. by rewrite <- Hid.
      * exfalso. eapply Hfresh; [exact Hx|]. by rewrite Hid.
      * eauto.
    + intros id. rewrite lookup_insert_Some. intros [[<- _]|[Hne Hid]].
      * exists (Z.to_nat i), key, e. by rewrite Hat, decide_True.
      * destruct (Ha id Hid) as (j & k & x & Hx & <-). exists j, k, x. rewrite Hat, decide_False; [done|].
        intros [-> ->]. unfold entry_at in Hx. rewrite Hs in Hx. simpl in Hx. congruence.
    + intros j k x. rewrite Hat. case_decide; [intros [= <-]; done|eauto].
    + intros id Hid. rewrite lookup_insert_ne by lia. apply Hn. lia.
  - done.
  - intros j k x. rewrite Hat. case_decide; [|eauto]. intros [= <-]. simpl.
    rewrite taken_frames_none, delivered_frames_none; [done| |].
    + intros d Hd Hid. specialize (Hdl d Hd). lia.
    + intros y Hy Hid. specialize (Htk y Hy). lia.
  - intros d j k x Hd. rewrite Hat. case_decide; [|eauto]. intros [= <-]. simpl. intros Hid.
    specialize (Hdl d Hd). lia.
  - done.
  - intros y Hy. specialize (Htk y Hy). lia.
  - intros d Hd. specialize (Hdl d Hd). lia.
Qed.

Lemma reserve_zero l now : exists l' held, Reassembly.reserve l 0 now = (l', Some held).
Proof.
  unfold Reassembly.reserve, Reassembly.resize, checked_add, wrap_sub. rewrite Z.add_0_r.
  pose proof (Z.mod_pos_bound (Reassembly.used l - 0) (2 ^ 64) ltac:(lia)).
  rewrite (proj2 (Z.leb_le _ usize_max)) by (unfold usize_max; lia). simpl. eauto.
Qed.

Lemma push_frames p f now alloc l l' p' ok :
  push p f now alloc l = (l', p', ok) -> frames p' = if ok then frames p ++ [f] else frames p.
Proof.
  unfold push. destruct (Reassembly.resize _ _ _ _) as [[l1 h1] []]; [|by intros [= <- <- <-]].
  destruct (Reassembly.resize _ _ _ _) as [[l2 h2] []]; by intros [= <- <- <-].
Qed.

(** Replacing an entry by one of the same binding. *)
Definition with_entry (i : nat) (s : Shard) (key : FragmentKey) (e : Entry) (l : Reassembly.Limits) (r : Routes) : Routes :=
  mkRoutes (<[i := mkShard (<[key := e]> (entries s)) (next_expiry s)]> (shards r)) l (flags r) (next_id r).

Lemma entry_at_with i s key e l r j k :
  shards r !! i = Some s ->
  entry_at (with_entry i s key e l r) j k = if decide (j = i /\ k = key) then Some e else entry_at r j k.
Proof.
  intros Hs. unfold with_entry. rewrite (entry_at_put r _ _ s) by done. simpl. unfold entry_at.
  destruct (decide (j = i)) as [->|Hj].
  - rewrite Hs. simpl. destruct (decide (k = key)) as [->|Hk].
    + by rewrite lookup_insert_eq, decide_True.
    + rewrite lookup_insert_ne by done. by rewrite decide_False by tauto.
  - by rewrite decide_False by tauto.
Qed.

Lemma table_with i s key e e' l r :
  Table r -> shards r !! i = Some s -> entry_at r i key = Some e -> e_binding e' = e_binding e ->
  (e_owner e' <> None -> e_pending e' = None) -> Table (with_entry i s key e' l r).
Proof.
  intros [Hk Hf Hu Ha Ho Hn] Hs He Hb Hown.
  assert (Hat : forall j k x, entry_at (with_entry i s key e' l r) j k = Some x ->
            exists y, entry_at r j k = Some y /\ e_binding x = e_binding y).
  { intros j k x. rewrite entry_at_with by done. case_decide as Hd; [destruct Hd as [-> ->]; intros [= <-]|]; eauto. }
  constructor; simpl.
  - intros j k x Hx. destruct (Hat _ _ _ Hx) as (y & Hy & ->). eauto.
  - intros j k x Hx. destruct (Hat _ _ _ Hx) as (y & Hy & ->). eauto.
  - intros j k x j' k' x' Hx Hx'. destruct (Hat _ _ _ Hx) as (y & Hy & ->), (Hat _ _ _ Hx') as (y' & Hy' & ->). eauto.
  - intros id Hid. destruct (Ha id Hid) as (j & k & x & Hx & <-).
    destruct (decide (j = i /\ k = key)) as [[-> ->]|Hne].
    + exists i, key, e'. rewrite entry_at_with, decide_True by done. simplify_eq. by rewrite Hb.
    + exists j, k, x. by rewrite entry_at_with, decide_False by done.
  - intros j k x. rewrite entry_at_with by done. case_decide; [by intros [= <-]|eauto].
  - done.
Qed.

(** The history a replacement must match: [tf] frames taken and [ds'] deliveries, all of this
    binding. *)
Lemma inv_with i s key e e' l r tk ds tf ds' :
  Inv (mkMachine r tk ds) -> shards r !! i = Some s -> entry_at r i key = Some e ->
  e_binding e' = e_binding e -> (e_owner e' <> None -> e_pending e' = None) ->
  (e_owner e <> None -> e_owner e' = e_owner e) ->
  (forall x, x ∈ tf -> x.1 = b_id (e_binding e)) ->
  (forall d, d ∈ ds' -> b_id (d_binding d) = b_id (e_binding e) /\ e_owner e' = Some (owner d)) ->
  from_option frames [] (e_pending e) ++ (snd <$> tf) =
    delivered_frames (b_id (e_binding e)) ds' ++ from_option frames [] (e_pending e') ->
  Inv (mkMachine (with_entry i s key e' l r) (tk ++ tf) (ds ++ ds')).
Proof.
  intros [Ht Hout Hlive Hown Hsame Htk Hdl] Hs He Hb Hop Hko Htf Hds Heq. simpl in *.
  pose proof (tab_unique _ Ht) as Hu. destruct (tab_key _ Ht _ _ _ He) as [_ Hlt].
  set (id := b_id (e_binding e)) in *.
  assert (Hid : taken_frames id tf = snd <$> tf).
  { unfold taken_frames. clear -Htf.
    induction tf as [|x tf IH]; [done|]. rewrite filter_cons_True by (apply Htf; set_solver).
    simpl. f_equal. apply IH. set_solver. }
  assert (Hother : forall id', id' <> id -> taken_frames id' tf = [] /\ delivered_frames id' ds' = []).
  { intros id' Hne. split; [apply taken_frames_none|apply delivered_frames_none].
    - intros x Hx. rewrite (Htf x Hx). auto.
    - intros d Hd. rewrite (proj1 (Hds d Hd)). auto. }
  assert (Hfull : taken_frames id (tk ++ tf) = delivered_frames id (ds ++ ds') ++ from_option frames [] (e_pending e')).
  { pose proof (Hlive _ _ _ He) as Hl. fold id in Hl.
    rewrite taken_frames_app, delivered_frames_app, Hid, Hl, <- !app_assoc. by rewrite Heq. }
  constructor; simpl.
  - by eapply table_with.
  - intros id'. destruct (decide (id' = id)) as [->|Hne].
    + rewrite Hfull. by apply prefix_app_r.
    + destruct (Hother id' Hne) as [H1 H2]. rewrite taken_frames_app, delivered_frames_app, H1, H2, !app_nil_r. done.
  - intros j k x. rewrite entry_at_with by done. case_decide as Hd.
    + intros [= <-]. rewrite Hb. exact Hfull.
    + intros Hx. assert (Hne : b_id (e_binding x) <> id).
      { intros Hbad. destruct (Hu _ _ _ _ _ _ Hx He Hbad) as [-> ->]. tauto. }
      destruct (Hother _ Hne) as [H1 H2]. rewrite taken_frames_app, delivered_frames_app, H1, H2, !app_nil_r. eauto.
  - intros d j k x Hd. rewrite entry_at_with by done. apply elem_of_app in Hd. case_decide as Hjk.
    + intros [= <-]. rewrite Hb. intros Hdb. destruct Hd as [Hd|Hd]; [|by apply Hds].
      pose proof (Hown d _ _ _ Hd He Hdb) as Hw. rewrite Hko; congruence.
    + intros Hx Hdb. destruct Hd as [Hd|Hd]; [eauto|]. destruct (Hds d Hd) as [Hd1 _].
      destruct (Hu _ _ _ _ _ _ Hx He) as [-> ->]; [rewrite <- Hdb; exact Hd1|tauto].
  - assert (Hnew : forall d, d ∈ ds ++ ds' -> b_id (d_binding d) = id -> e_owner e' = Some (owner d)).
    { intros d [Hd|Hd]%elem_of_app Hdi; [|by apply Hds]. pose proof (Hown d _ _ _ Hd He Hdi). rewrite Hko; congruence. }
    intros d d' Hd Hd' Hdd. destruct (decide (b_id (d_binding d) = id)) as [Hdi|Hdi].
    + pose proof (Hnew d Hd Hdi). pose proof (Hnew d' Hd' ltac:(congruence)). congruence.
    + apply elem_of_app in Hd as [Hd|Hd]; [|by destruct (Hds d Hd)].
      apply elem_of_app in Hd' as [Hd'|Hd']; [eauto|]. destruct (Hds d' Hd'). congruence.
  - intros x [Hx|Hx]%elem_of_app; [eauto|]. by rewrite (Htf x Hx).
  - intros d [Hd|Hd]%elem_of_app; [eauto|]. by rewrite (proj1 (Hds d Hd)).
Qed.

Lemma inv_route i key first_owner f now alloc m :
  Inv m -> Inv (step m (Route i key first_owner f now alloc)).
Proof.
  destruct m as [r0 tk ds]. intros Hinv. cbn [step routes taken deliveries]. unfold route.
  apply (inv_shrinks _ (expire_shard i now r0)) in Hinv; [|apply shrinks_expire_shard, Hinv].
  destruct (ensure_entry i key now _) as [r ok] eqn:Hens.
  destruct (inv_ensure _ _ _ _ _ _ _ _ Hinv Hens) as [Hr Hex]. destruct ok.
  2:{ assert (Hnone : entry_at r (Z.to_nat i) key = None).
      { unfold ensure_entry in Hens. destruct (shards (expire_shard i now r0) !! Z.to_nat i) as [s|] eqn:Hs.
        - destruct (entries s !! key) eqn:He; [done|].
          destruct (Reassembly.reserve _ _ _) as [l [?|]]; simplify_eq. unfold entry_at. simpl. by rewrite Hs.
        - simplify_eq. unfold entry_at. by rewrite Hs. }
      simpl. rewrite Hnone. simpl. by rewrite !app_nil_r. }
  destruct (Hex eq_refl) as [e He]. unfold entry_at in He.
  destruct (shards r !! Z.to_nat i) as [s|] eqn:Hs; [|done]. simpl in He. rewrite He.
  assert (Hat : entry_at r (Z.to_nat i) key = Some e) by (unfold entry_at; by rewrite Hs).
  destruct (match e_owner e with Some o => Some o | None => first_owner end) as [w|] eqn:Ho.
  - cbn [taken_by option_list d_binding].
    apply (inv_with (Z.to_nat i) s key e (mkEntry (e_binding e) (Some w) None) (limits r) r tk ds); try done.
    + intros Hne. simpl. by destruct (e_owner e).
    + intros x Hx. by apply list_elem_of_singleton in Hx as ->.
    + intros d Hd. by apply list_elem_of_singleton in Hd as ->.
    + simpl. rewrite delivered_frames_one. simpl. rewrite decide_True by done. unfold carried. simpl.
      by rewrite app_nil_r.
  - assert (Hown : e_owner e = None) by (by destruct (e_owner e)).
    assert (Hopen : exists l p, match e_pending e with
        | Some p => (limits r, Some p)
        | None => let '(l, lease) := Reassembly.reserve (limits r) 0 now in (l, mkPending [] 0 0 <$> lease)
        end = (l, Some p) /\ frames p = from_option frames [] (e_pending e)).
    { destruct (e_pending e) as [p|]; [eauto|]. destruct (reserve_zero (limits r) now) as (l & h & ->). simpl. eauto. }
    destruct Hopen as (l & p & -> & Hp). destruct (push p f now alloc l) as [[l' p'] ok] eqn:Hpush.
    apply push_frames in Hpush. set (e' := mkEntry (e_binding e) None (Some p')).
    change (put_shard i _ _) with (with_entry (Z.to_nat i) s key e' l' r).
    destruct ok.
    + assert (Ht : taken_by (with_entry (Z.to_nat i) s key e' l' r) i key None = Some (b_id (e_binding e))).
      { simpl. by rewrite entry_at_with, decide_True by done. }
      rewrite Ht. cbn [option_list fmap list_fmap].
      apply (inv_with (Z.to_nat i) s key e e' l' r tk ds _ []); try done.
      * intros x Hx. by apply list_elem_of_singleton in Hx as ->.
      * by intros d ?%elem_of_nil.
      * simpl. by rewrite Hpush, Hp.
    + assert (Hmid : Inv (mkMachine (with_entry (Z.to_nat i) s key e' l' r) (tk ++ []) (ds ++ []))).
      { apply (inv_with (Z.to_nat i) s key e e' l' r tk ds [] []); try done.
        - by intros x ?%elem_of_nil.
        - by intros d ?%elem_of_nil.
        - simpl. by rewrite Hpush, Hp, app_nil_r. }
      assert (Ht : taken_by (remove_entry i key (with_entry (Z.to_nat i) s key e' l' r)) i key None = None).
      { simpl. unfold remove_entry. simpl.
        rewrite list_lookup_insert_eq by (by eapply lookup_lt_Some). simpl. rewrite lookup_insert_eq.
        unfold entry_at, set_shared, put_shard. simpl.
        rewrite list_lookup_insert_eq by (rewrite length_insert; by eapply lookup_lt_Some). simpl.
        by rewrite lookup_delete_eq. }
      rewrite Ht. cbn [option_list fmap list_fmap]. eapply inv_shrinks; [exact Hmid|].
      apply shrinks_remove, Hmid.
Qed.

Lemma inv_expire_all now idx r tk ds :
  Inv (mkMachine r tk ds) -> Inv (mkMachine (foldl (fun r i => expire_shard i now r) r idx) tk ds).
Proof.
  revert r. induction idx as [|i idx IH]; intros r Hr; [done|]. simpl. apply IH.
  eapply inv_shrinks; [exact Hr|]. apply shrinks_expire_shard, Hr.
Qed.

Lemma routes_inv_step m a : Inv m -> Inv (step m a).
Proof.
  intros Hinv. destruct a as [i key o f now alloc|b|i order|now|l]; [by apply inv_route|..];
    destruct m as [r tk ds]; simpl.
  - eapply inv_shrinks; [exact Hinv|]. apply shrinks_finish, Hinv.
  - eapply inv_shrinks; [exact Hinv|]. apply shrinks_discard, Hinv.
  - by apply inv_expire_all.
  - by apply inv_limits.
Qed.

Lemma routes_inv_start count l : Inv (start count l).
Proof.
  assert (Hno : forall i k, entry_at (new count l) i k = None).
  { intros i k. unfold entry_at, new. simpl. destruct (replicate _ _ !! i) as [s|] eqn:Hs; [|done].
    apply lookup_replicate in Hs as [-> _]. simpl. apply lookup_empty. }
  constructor; simpl; try (by intros; rewrite Hno in *); try (by intros ? ?%elem_of_nil); try done.
  - constructor; try (by intros; rewrite Hno in *); by intros.
  - by intros d d' ?%elem_of_nil.
Qed.

Lemma routes_inv_run acts m : Inv m -> Inv (run m acts).
Proof. revert m. induction acts as [|a acts IH]; intros m Hm; [done|]. apply IH, routes_inv_step, Hm. Qed.

(** ** Properties *)

(** C17. Fragments of one datagram meet: whatever is routed, finished, expired or discarded in
    between and on whichever shard, all deliveries of a binding name the same worker, and
    the frames they carry are, in order and without loss or repetition, those the binding
    took in; as long as its entry exists the rest is exactly its pending batch. *)
Theorem routing_binds_datagrams count l acts :
  let m := run (start count l) acts in
  (forall d d', d ∈ deliveries m -> d' ∈ deliveries m ->
     b_id (d_binding d) = b_id (d_binding d') -> owner d = owner d') /\
  (forall id, delivered_frames id (deliveries m) `prefix_of` taken_frames id (taken m)) /\
  (forall i k e, entry_at (routes m) i k = Some e ->
     taken_frames (b_id (e_binding e)) (taken m) =
     delivered_frames (b_id (e_binding e)) (deliveries m) ++ from_option frames [] (e_pending e)).
Proof.
  intros m. assert (Hm : Inv m) by (apply routes_inv_run, routes_inv_start). split_and!; apply Hm.
Qed.

(** Stale deliveries stay dead: a binding is active exactly while the table holds its
    entry, so after completion, expiry, discard or refused admission every delivery still
    queued for it is refused, while an identity used again gets a binding of its own. *)
Theorem binding_active_iff_routed count l acts :
  let r := routes (run (start count l) acts) in
  (forall id, flags r !! id = Some true <-> exists i k e, entry_at r i k = Some e /\ b_id (e_binding e) = id) /\
  (forall i k e i' k' e', entry_at r i k = Some e -> entry_at r i' k' = Some e' ->
     b_id (e_binding e) = b_id (e_binding e') -> i = i' /\ k = k').
Proof.
  intros r. assert (Ht : Table r) by (apply routes_inv_run, routes_inv_start). split; [|apply Ht].
  intros id. split; [apply Ht|]. intros (i & k & e & He & <-). by eapply Ht.
Qed.

End routes.
End Fragments.
