(* ===== verification/NetText.v ===== *)
(** * Text of addresses, ports and names

    The textual forms the sources use through the Rust standard library: [u16] and
    [SocketAddr] with their [Display] and [FromStr] (core::net), [str::from_utf8] and
    [str::rsplit_once].  Text is its UTF-8 bytes. *)

From S2P Require Import Prelude Packet.
Import Packet.

Module NetText.

(** [kotoconn_config::Target] *)
Inductive Target := Domain (name : bytes) (port : Z) | Ip (address : IpAddress) (port : Z).

#[export] Instance Target_eq_dec : EqDecision Target.
Proof. solve_decision. Defined.

(** [Target::port] *)
Definition target_port (t : Target) : Z := match t with Domain _ p | Ip _ p => p end.

Definition COLON : Z := 58.
Definition DOT : Z := 46.
Definition OPEN : Z := 91.
Definition CLOSE : Z := 93.
Definition PERCENT : Z := 37.

(** ** Numbers *)

(** [char::to_digit(radix)] *)
Definition to_digit (radix c : Z) : option Z :=
  let d := if (48 <=? c) && (c <=? 57) then c - 48
           else if (97 <=? c) && (c <=? 122) then c - 87
           else if (65 <=? c) && (c <=? 90) then c - 55
           else 99 in
  if d <? radix then Some d else None.

(** The character of a digit, as [Display] and [LowerHex] write it. *)
Definition digit_char (d : Z) : Z := if d <? 10 then 48 + d else 87 + d.

Fixpoint to_digits (fuel : nat) (radix n : Z) (acc : list Z) : list Z :=
  match fuel with
  | O => acc
  | S fuel =>
      let acc := n `mod` radix :: acc in
      if n <? radix then acc else to_digits fuel radix (n `div` radix) acc
  end.

(** [{n}] and [{n:x}]; the fuel bounds the digits of the type. *)
Definition print (fuel : nat) (radix n : Z) : bytes := digit_char <$> to_digits fuel radix n [].

Definition value (radix : Z) (ds : list Z) : Z := foldl (fun acc d => acc * radix + d) 0 ds.

Fixpoint read_digits (radix : Z) (s : bytes) : list Z * bytes :=
  match s with
  | [] => ([], [])
  | c :: s' =>
      match to_digit radix c with
      | Some d => let '(ds, rest) := read_digits radix s' in (d :: ds, rest)
      | None => ([], s)
      end
  end.

(** [Parser::read_number]: [max] is [max_digits], [bound] the largest value of the type. *)
Definition read_number (radix : Z) (max : option Z) (zero_prefix : bool) (bound : Z) (s : bytes) :
  option (Z * bytes) :=
  let '(ds, rest) := read_digits radix s in
  if len ds =? 0 then None else
  if match max with Some m => m <? len ds | None => false end then None else
  if negb zero_prefix && bool_decide (head ds = Some 0) && (1 <? len ds) then None else
  if value radix ds <=? bound then Some (value radix ds, rest) else None.

(** [str::parse::<u16>]: an optional plus sign and digits, nothing else. *)
Definition parse_u16 (s : bytes) : option Z :=
  let s := match s with c :: ((_ :: _) as t) => if c =? 43 then t else s | _ => s end in
  match read_number 10 None true 65535 s with
  | Some (n, []) => Some n
  | _ => None
  end.

Definition print_u16 (n : Z) : bytes := print 5 10 n.

(** ** Strings *)

(** [str::from_utf8(s).is_ok()] *)
Definition cont (c : Z) : bool := (128 <=? c) && (c <=? 191).

Fixpoint utf8 (s : bytes) : bool :=
  match s with
  | [] => true
  | c :: s1 =>
      if c <? 128 then utf8 s1 else
      match s1 with
      | [] => false
      | c1 :: s2 =>
          if (194 <=? c) && (c <=? 223) then cont c1 && utf8 s2 else
          match s2 with
          | [] => false
          | c2 :: s3 =>
              if c =? 224 then (160 <=? c1) && (c1 <=? 191) && cont c2 && utf8 s3
              else if c =? 237 then (128 <=? c1) && (c1 <=? 159) && cont c2 && utf8 s3
              else if (225 <=? c) && (c <=? 239) then cont c1 && cont c2 && utf8 s3
              else match s3 with
                   | [] => false
                   | c3 :: s4 =>
                       if c =? 240 then (144 <=? c1) && (c1 <=? 191) && cont c2 && cont c3 && utf8 s4
                       else if (241 <=? c) && (c <=? 243) then cont c1 && cont c2 && cont c3 && utf8 s4
                       else if c =? 244 then (128 <=? c1) && (c1 <=? 143) && cont c2 && cont c3 && utf8 s4
                       else false
                   end
          end
      end
  end.

(** [str::rsplit_once(c)] *)
Fixpoint split_once (c : Z) (s : bytes) : option (bytes * bytes) :=
  match s with
  | [] => None
  | x :: s => if x =? c then Some ([], s)
              else match split_once c s with Some (a, b) => Some (x :: a, b) | None => None end
  end.

Definition rsplit_once (c : Z) (s : bytes) : option (bytes * bytes) :=
  match split_once c (rev s) with Some (a, b) => Some (rev b, rev a) | None => None end.

(** ** Addresses *)

(** [Parser::read_separator] *)
Definition read_separator {B} (sep : Z) (index : nat) (inner : bytes -> option (B * bytes)) (s : bytes) :
  option (B * bytes) :=
  match index with
  | O => inner s
  | S _ => match s with c :: s => if c =? sep then inner s else None | [] => None end
  end.

Definition read_given_char (c : Z) (s : bytes) : option bytes :=
  match s with x :: s => if x =? c then Some s else None | [] => None end.

(** [Parser::read_ipv4_addr] *)
Definition read_octet (index : nat) : bytes -> option (Z * bytes) :=
  read_separator DOT index (read_number 10 (Some 3) false 255).

Definition read_ipv4 (s : bytes) : option (list Z * bytes) :=
  '(a, s) ← read_octet 0 s; '(b, s) ← read_octet 1 s;
  '(c, s) ← read_octet 2 s; '(d, s) ← read_octet 3 s; Some ([a; b; c; d], s).

(** [read_groups] of [Parser::read_ipv6_addr], from group [i] on with [left] slots left; the
    flag says that the last two groups were written as an IPv4 address. *)
Fixpoint read_groups (left i : nat) (s : bytes) : list Z * bool * bytes :=
  match left with
  | O => ([], false, s)
  | S left' =>
      match (if (1 <? left)%nat then read_separator COLON i read_ipv4 s else None) with
      | Some ([a; b; c; d], s) => ([a * 256 + b; c * 256 + d], true, s)
      | _ =>
          match read_separator COLON i (read_number 16 (Some 4) true 65535) s with
          | Some (g, s) => let '(gs, v4, s) := read_groups left' (S i) s in (g :: gs, v4, s)
          | None => ([], false, s)
          end
      end
  end.

(** [Parser::read_ipv6_addr] *)
Definition read_ipv6 (s : bytes) : option (list Z * bytes) :=
  let '(head, v4, s) := read_groups 8 0 s in
  if (length head =? 8)%nat then Some (head, s) else
  if v4 then None else
  s ← read_given_char COLON s; s ← read_given_char COLON s;
  let '(tail, _, s) := read_groups (8 - (length head + 1)) 0 s in
  Some (head ++ replicate (8 - length head - length tail) 0 ++ tail, s).

(** The word of its octets or 16-bit groups, and back. *)
Definition join (base : Z) (gs : list Z) : Z := value base gs.
Definition octets (a : Z) : list Z := [a `div` 2 ^ 24; (a `div` 2 ^ 16) `mod` 256; (a `div` 2 ^ 8) `mod` 256; a `mod` 256].
Definition groups (a : Z) : list Z := (fun i => (a `div` 2 ^ (16 * i)) `mod` 65536) <$> [7; 6; 5; 4; 3; 2; 1; 0].

Definition read_port (s : bytes) : option (Z * bytes) :=
  s ← read_given_char COLON s; read_number 10 None true 65535 s.

(** [Parser::read_scope_id], an optional part whose value the sources drop. *)
Definition skip_scope (s : bytes) : bytes :=
  match s with
  | c :: t => if c =? PERCENT then
                match read_number 10 None true u32_max t with Some (_, rest) => rest | None => s end
              else s
  | [] => s
  end.

(** [Parser::read_socket_addr_v4] and [read_socket_addr_v6] *)
Definition read_socket_v4 (s : bytes) : option (IpAddress * Z * bytes) :=
  match read_ipv4 s with
  | Some (o, s) =>
      match read_port s with Some (p, s) => Some (Ipv4 (join 256 o), p, s) | None => None end
  | None => None
  end.

Definition read_socket_v6 (s : bytes) : option (IpAddress * Z * bytes) :=
  match read_given_char OPEN s with
  | Some s =>
      match read_ipv6 s with
      | Some (g, s) =>
          match read_given_char CLOSE (skip_scope s) with
          | Some s => match read_port s with Some (p, s) => Some (Ipv6 (join 65536 g), p, s) | None => None end
          | None => None
          end
      | None => None
      end
  | None => None
  end.

(** [SocketAddr::from_str]: the whole text is one address. *)
Definition socket_parse (s : bytes) : option (IpAddress * Z) :=
  match (match read_socket_v4 s with Some r => Some r | None => read_socket_v6 s end) with
  | Some (a, p, []) => Some (a, p)
  | _ => None
  end.

(** [Display] of an IPv4 address. *)
Fixpoint sep_by (c : Z) (l : list bytes) : bytes :=
  match l with [] => [] | [x] => x | x :: l => x ++ c :: sep_by c l end.

Definition print_ipv4 (a : Z) : bytes := sep_by DOT (print 3 10 <$> octets a).
Definition print_groups (gs : list Z) : bytes := sep_by COLON (print 4 16 <$> gs).

(** The first longest run of zero groups: its start and length. *)
Fixpoint zero_run (gs : list Z) : nat :=
  match gs with g :: gs => if g =? 0 then S (zero_run gs) else O | [] => O end.

Fixpoint longest_zero (i : nat) (gs : list Z) (best : nat * nat) : nat * nat :=
  match gs with
  | [] => best
  | _ :: gs' => longest_zero (S i) gs' (if (best.2 <? zero_run gs)%nat then (i, zero_run gs) else best)
  end.

(** [Display] of an IPv6 address. *)
Definition print_ipv6 (a : Z) : bytes :=
  match to_ipv4_mapped a with
  | Some v4 => [COLON; COLON; 102; 102; 102; 102; COLON] ++ print_ipv4 v4
  | None =>
      let gs := groups a in
      let '(start, n) := longest_zero 0 gs (O, O) in
      if (1 <? n)%nat then print_groups (take start gs) ++ [COLON; COLON] ++ print_groups (drop (start + n) gs)
      else print_groups gs
  end.

(** [SocketAddr::new(address, port).to_string()] *)
Definition socket_print (a : IpAddress) (port : Z) : bytes :=
  match a with
  | Ipv4 a => print_ipv4 a ++ COLON :: print_u16 port
  | Ipv6 a => OPEN :: print_ipv6 a ++ CLOSE :: COLON :: print_u16 port
  end.

(** ** Numbers round-trip *)

Lemma to_digit_char radix d : 0 <= d < radix -> radix <= 16 -> to_digit radix (digit_char d) = Some d.
Proof.
  intros Hd Hr. unfold to_digit, digit_char. repeat case_bool; try lia; f_equal; lia.
Qed.

Lemma to_digits_spec fuel radix n acc :
  2 <= radix -> 0 <= n < radix ^ Z.of_nat fuel -> (0 < fuel)%nat ->
  exists ds, to_digits fuel radix n acc = ds ++ acc /\ (length ds <= fuel)%nat /\ ds <> [] /\
    Forall (fun d => 0 <= d < radix) ds /\ value radix ds = n /\ (head ds = Some 0 -> ds = [0]).
Proof.
  intros Hr. revert n acc. induction fuel as [|fuel IH]; intros n acc Hn Hf; [lia|]. simpl.
  pose proof (Z.mod_pos_bound n radix ltac:(lia)) as Hm.
  case_bool.
  - exists [n `mod` radix]. rewrite Z.mod_small by lia.
    split_and!; [done|simpl; lia|done|constructor; [lia|constructor]|unfold value; simpl; lia|simpl; congruence].
  - assert (Hdiv : 0 <= n `div` radix < radix ^ Z.of_nat fuel).
    { split; [apply Z.div_pos; lia|]. apply Z.div_lt_upper_bound; [lia|].
      rewrite <- Z.pow_succ_r, <- Nat2Z.inj_succ by lia. lia. }
    assert (Hpos : 1 <= n `div` radix) by (apply Z.div_le_lower_bound; lia).
    destruct fuel as [|fuel]; [simpl in Hdiv; lia|].
    destruct (IH (n `div` radix) (n `mod` radix :: acc) Hdiv ltac:(lia)) as (ds & -> & Hl & Hne & Hall & Hv & Hh).
    exists (ds ++ [n `mod` radix]). rewrite <- app_assoc. split_and!; [done| | | | |].
    + rewrite length_app. simpl. lia.
    + destruct ds; done.
    + apply Forall_app. split; [done|]. constructor; [lia|constructor].
    + unfold value in *. rewrite foldl_app. simpl. rewrite Hv. pose proof (Z.div_mod n radix). lia.
    + intros Hhd. exfalso. destruct ds as [|d ds]; [done|]. simpl in *. specialize (Hh Hhd).
      rewrite Hh in Hv. unfold value in Hv. simpl in Hv. lia.
Qed.

(** No digit of the radix follows. *)
Definition stops (radix : Z) (s : bytes) : Prop :=
  match s with [] => True | c :: _ => to_digit radix c = None end.

Lemma read_digits_chars radix ds rest :
  radix <= 16 -> Forall (fun d => 0 <= d < radix) ds -> stops radix rest ->
  read_digits radix ((digit_char <$> ds) ++ rest) = (ds, rest).
Proof.
  intros Hr Hds Hrest. induction Hds as [|d ds Hd _ IH].
  - destruct rest; [done|]. simpl in *. by rewrite Hrest.
  - rewrite fmap_cons. cbn [app read_digits]. rewrite to_digit_char by done. by rewrite IH.
Qed.

Lemma read_number_print fuel radix max zp bound n rest :
  2 <= radix <= 16 -> 0 <= n < radix ^ Z.of_nat fuel -> (0 < fuel)%nat -> n <= bound ->
  (forall m, max = Some m -> Z.of_nat fuel <= m) -> stops radix rest ->
  read_number radix max zp bound (print fuel radix n ++ rest) = Some (n, rest).
Proof.
  intros Hr Hn Hf Hb Hmax Hrest. unfold read_number, print.
  destruct (to_digits_spec fuel radix n [] ltac:(lia) Hn Hf) as (ds & -> & Hl & Hne & Hall & Hv & Hh).
  rewrite app_nil_r, read_digits_chars by (done || lia).
  assert (Hlen : 0 < len ds) by (destruct ds; [done|len_lia]).
  rewrite (proj2 (Z.eqb_neq (len ds) 0)) by lia.
  replace (match max with Some m => m <? len ds | None => false end) with false.
  2:{ destruct max as [m|]; [|done]. symmetry. apply Z.ltb_ge. specialize (Hmax m eq_refl). unfold len. lia. }
  replace (negb zp && bool_decide (head ds = Some 0) && (1 <? len ds)) with false.
  2:{ symmetry. destruct zp; [done|]. simpl. case_bool_decide as Hz; [|done]. rewrite (Hh Hz). done. }
  rewrite Hv, (proj2 (Z.leb_le n bound)) by done. done.
Qed.

(** A printed port, read back. *)
Lemma parse_print_u16 p : 0 <= p <= 65535 -> parse_u16 (print_u16 p) = Some p.
Proof.
  intros Hp. unfold parse_u16, print_u16.
  pose proof (read_number_print 5 10 None true 65535 p [] ltac:(lia) ltac:(simpl; lia) ltac:(lia) ltac:(lia)
                ltac:(done) I) as Hr.
  rewrite app_nil_r in Hr. unfold print in *.
  destruct (to_digits_spec 5 10 p [] ltac:(lia) ltac:(simpl; lia) ltac:(lia)) as (ds & Hds & _ & Hne & Hall & _).
  rewrite app_nil_r in Hds. rewrite Hds in *. destruct ds as [|d ds]; [done|].
  assert (Hc : (digit_char d =? 43) = false).
  { apply Forall_cons in Hall as [Hd _]. unfold digit_char. case_bool; apply Z.eqb_neq; lia. }
  rewrite fmap_cons in *. destruct (digit_char <$> ds); [|rewrite Hc]; by rewrite Hr.
Qed.

Lemma print_u16_chars p : 0 <= p <= 65535 -> Forall (fun c => 48 <= c <= 57) (print_u16 p) /\ print_u16 p <> [] /\
  len (print_u16 p) <= 5.
Proof.
  intros Hp. unfold print_u16, print.
  destruct (to_digits_spec 5 10 p [] ltac:(lia) ltac:(simpl; lia) ltac:(lia)) as (ds & -> & Hl & Hne & Hall & _).
  rewrite app_nil_r. split_and!.
  - apply Forall_fmap. eapply Forall_impl; [exact Hall|]. intros d Hd. simpl in *. unfold digit_char. case_bool; lia.
  - by destruct ds.
  - unfold len. rewrite length_fmap. lia.
Qed.

(** ** Strings *)

Lemma utf8_app a b : utf8 a = true -> utf8 b = true -> utf8 (a ++ b) = true.
Proof.
  intros Ha Hb. remember (length a) as n eqn:Hn. revert a Hn Ha.
  induction (lt_wf n) as [n _ IH]. intros a -> Ha. destruct a as [|c s1]; [done|].
  simpl in *. assert (Hrec : forall t, (length t < S (length s1))%nat -> utf8 t = true -> utf8 (t ++ b) = true) by eauto.
  clear IH. destruct (c <? 128); [apply Hrec; done || lia|].
  destruct s1 as [|c1 s2]; [done|]. simpl in *.
  destruct ((194 <=? c) && (c <=? 223)).
  { apply andb_true_iff in Ha as [-> Ha]. apply Hrec; done || lia. }
  destruct s2 as [|c2 s3]; [done|]. simpl in *.
  destruct (c =? 224); [rewrite !andb_true_iff in *; split_and!; try apply Ha; apply Hrec; [lia|apply Ha]|].
  destruct (c =? 237); [rewrite !andb_true_iff in *; split_and!; try apply Ha; apply Hrec; [lia|apply Ha]|].
  destruct ((225 <=? c) && (c <=? 239));
    [rewrite !andb_true_iff in *; split_and!; try apply Ha; apply Hrec; [lia|apply Ha]|].
  destruct s3 as [|c3 s4]; [done|]. simpl in *.
  destruct (c =? 240); [rewrite !andb_true_iff in *; split_and!; try apply Ha; apply Hrec; [lia|apply Ha]|].
  destruct ((241 <=? c) && (c <=? 243));
    [rewrite !andb_true_iff in *; split_and!; try apply Ha; apply Hrec; [lia|apply Ha]|].
  destruct (c =? 244); [|done].
  rewrite !andb_true_iff in *; split_and!; try apply Ha; apply Hrec; [lia|apply Ha].
Qed.

Lemma utf8_ascii s : Forall (fun c => c < 128) s -> utf8 s = true.
Proof. induction 1 as [|c s Hc _ IH]; simpl; [done|]. by rewrite (proj2 (Z.ltb_lt c 128)). Qed.

Lemma split_once_app c a b : c ∉ a -> split_once c (a ++ c :: b) = Some (a, b).
Proof.
  induction a as [|x a IH]; simpl; intros Hc; [by rewrite Z.eqb_refl|].
  rewrite (proj2 (Z.eqb_neq x c)) by set_solver. rewrite IH by set_solver. done.
Qed.

Lemma rsplit_once_app c a b : c ∉ b -> rsplit_once c (a ++ c :: b) = Some (a, b).
Proof.
  intros Hb. unfold rsplit_once. rewrite rev_app_distr. simpl. rewrite <- app_assoc. simpl.
  rewrite split_once_app; [by rewrite !rev_involutive|]. by rewrite <- Permutation_rev.
Qed.

(** ** Addresses round-trip *)

Lemma join_octets a : 0 <= a < 2 ^ 32 -> join 256 (octets a) = a /\ Forall (fun o => 0 <= o <= 255) (octets a).
Proof.
  intros Ha. unfold join, value, octets. cbn [foldl].
  pose proof (Z.div_mod a 256 ltac:(lia)). pose proof (Z.mod_pos_bound a 256 ltac:(lia)).
  change (2 ^ 24) with (256 * (256 * 256)). change (2 ^ 16) with (256 * 256). change (2 ^ 8) with 256.
  rewrite <- !Z.div_div by lia. set (q1 := a `div` 256) in *.
  pose proof (Z.div_mod q1 256 ltac:(lia)). pose proof (Z.mod_pos_bound q1 256 ltac:(lia)).
  set (q2 := q1 `div` 256) in *.
  pose proof (Z.div_mod q2 256 ltac:(lia)). pose proof (Z.mod_pos_bound q2 256 ltac:(lia)).
  split; [lia|]. repeat (constructor; [lia|]). constructor.
Qed.

Lemma join_groups a : 0 <= a < 2 ^ 128 -> join 65536 (groups a) = a /\ Forall (fun g => 0 <= g <= 65535) (groups a).
Proof.
  intros Ha. unfold groups. split.
  2:{ apply Forall_fmap, Forall_forall. intros i _. simpl.
      pose proof (Z.mod_pos_bound (a `div` 2 ^ (16 * i)) 65536 ltac:(lia)). lia. }
  unfold join, value. cbn [fmap list_fmap foldl].
  set (q i := a `div` 2 ^ (16 * i)).
  assert (Hstep : forall i, 0 <= i -> q i = 65536 * q (i + 1) + q i `mod` 65536).
  { intros i Hi. unfold q. replace (16 * (i + 1)) with (16 * i + 16) by lia.
    rewrite Z.pow_add_r, <- Z.div_div by lia. apply Z.div_mod. lia. }
  assert (H0 : q 0 = a) by (unfold q; apply Z.div_1_r).
  assert (H8 : q 8 = 0) by (unfold q; apply Z.div_small; lia).
  pose proof (Hstep 0 ltac:(lia)) as S0. pose proof (Hstep 1 ltac:(lia)) as S1.
  pose proof (Hstep 2 ltac:(lia)) as S2. pose proof (Hstep 3 ltac:(lia)) as S3.
  pose proof (Hstep 4 ltac:(lia)) as S4. pose proof (Hstep 5 ltac:(lia)) as S5.
  pose proof (Hstep 6 ltac:(lia)) as S6. pose proof (Hstep 7 ltac:(lia)) as S7.
  change (0 + 1) with 1 in S0. change (1 + 1) with 2 in S1. change (2 + 1) with 3 in S2.
  change (3 + 1) with 4 in S3. change (4 + 1) with 5 in S4. change (5 + 1) with 6 in S5.
  change (6 + 1) with 7 in S6. change (7 + 1) with 8 in S7.
  fold (q 0) (q 1) (q 2) (q 3) (q 4) (q 5) (q 6) (q 7). lia.
Qed.

Lemma sep_by_cons c x l : sep_by c (x :: l) = x ++ mjoin ((fun y => c :: y) <$> l).
Proof.
  revert x. induction l as [|y l IH]; intros x; [by rewrite app_nil_r|].
  change (x ++ c :: sep_by c (y :: l) = x ++ mjoin ((fun y => c :: y) <$> y :: l)). by rewrite IH.
Qed.

Lemma stops_sep radix c rest : to_digit radix c = None -> stops radix (c :: rest).
Proof. done. Qed.

Lemma read_ipv4_print a rest :
  0 <= a < 2 ^ 32 -> stops 10 rest -> read_ipv4 (print_ipv4 a ++ rest) = Some (octets a, rest).
Proof.
  intros Ha Hrest. destruct (join_octets a Ha) as [_ Hall]. unfold print_ipv4, octets in *.
  repeat match goal with H : Forall _ (_ :: _) |- _ => apply Forall_cons in H as [? H] end.
  cbn [fmap list_fmap]. rewrite sep_by_cons. cbn [fmap list_fmap mjoin list_join].
  rewrite app_nil_r, <- !app_assoc. unfold read_ipv4, read_octet. cbn [read_separator].
  assert (Hnum : forall o r, 0 <= o <= 255 -> stops 10 r ->
    read_number 10 (Some 3) false 255 (print 3 10 o ++ r) = Some (o, r)).
  { intros o r Ho Hr. apply read_number_print; try done; try lia. intros m [= <-]. lia. }
  rewrite Hnum by done. cbn [mbind option_bind]. cbn [app]. rewrite Z.eqb_refl.
  rewrite <- ?app_assoc. cbn [app]. rewrite Hnum by done. cbn [mbind option_bind app]. rewrite Z.eqb_refl.
  rewrite <- ?app_assoc. cbn [app]. rewrite Hnum by done. cbn [mbind option_bind app]. rewrite Z.eqb_refl.
  rewrite Hnum by done. done.
Qed.

(** The IPv4 attempt fails on text whose leading decimal digits no dot follows. *)
Definition no_dot (s : bytes) : Prop := match s with c :: _ => c <> DOT | [] => True end.

Lemma read_ipv4_none s : no_dot (snd (read_digits 10 s)) -> read_ipv4 s = None.
Proof.
  intros Hs.
  assert (Hn : read_number 10 (Some 3) false 255 s = None \/
               exists v, read_number 10 (Some 3) false 255 s = Some (v, snd (read_digits 10 s))).
  { unfold read_number. destruct (read_digits 10 s) as [ds r]. repeat case_bool; eauto. }
  unfold read_ipv4, read_octet. cbn [read_separator]. destruct Hn as [->|[v ->]]; [done|].
  cbn [mbind option_bind].
  destruct (snd (read_digits 10 s)) as [|c r]; [done|]. simpl in Hs. by rewrite (proj2 (Z.eqb_neq c DOT) Hs).
Qed.

Lemma no_dot_digits w rest :
  DOT ∉ w -> stops 10 rest -> no_dot rest -> no_dot (snd (read_digits 10 (w ++ rest))).
Proof.
  intros Hw Hs Hr. induction w as [|c w IH]; simpl.
  - destruct rest as [|c rest]; [done|]. simpl in *. by rewrite Hs.
  - destruct (to_digit 10 c); [|simpl; set_solver].
    destruct (read_digits 10 (w ++ rest)) as [ds r]. simpl in *. apply IH. set_solver.
Qed.

Lemma print_hex_no_dot g : 0 <= g <= 65535 -> DOT ∉ print 4 16 g.
Proof.
  intros Hg. unfold print.
  destruct (to_digits_spec 4 16 g [] ltac:(lia) ltac:(simpl; lia) ltac:(lia)) as (ds & -> & _ & _ & Hall & _).
  rewrite app_nil_r. intros (d & Hd & Hin)%list_elem_of_fmap.
  rewrite Forall_forall in Hall. specialize (Hall d Hin). simpl in Hall. unfold digit_char, DOT in Hd.
  destruct (d <? 10); lia.
Qed.

(** What can follow the groups: the closing bracket or a double colon. *)
Inductive group_end : bytes -> Prop :=
| end_close t : group_end (CLOSE :: t)
| end_double t : group_end (COLON :: COLON :: t).

Lemma group_end_spec rest :
  group_end rest -> stops 10 rest /\ stops 16 rest /\ no_dot rest /\ read_ipv4 rest = None /\
  read_number 16 (Some 4) true 65535 rest = None.
Proof. intros [t|t]; split_and!; done. Qed.

(** One round of [read_groups]. *)
Lemma read_groups_number left i s g s' gs v4 r :
  read_separator COLON i read_ipv4 s = None ->
  read_separator COLON i (read_number 16 (Some 4) true 65535) s = Some (g, s') ->
  read_groups left (S i) s' = (gs, v4, r) -> read_groups (S left) i s = (g :: gs, v4, r).
Proof. intros H1 H2 H3. cbn [read_groups]. rewrite H1, H2, H3. by destruct (_ <? _)%nat. Qed.

Lemma read_groups_ipv4 left i s a b c d r :
  read_separator COLON i read_ipv4 s = Some ([a; b; c; d], r) ->
  read_groups (S (S left)) i s = ([a * 256 + b; c * 256 + d], true, r).
Proof. intros H1. cbn [read_groups]. rewrite H1. done. Qed.

Definition body (i : nat) (gs : list Z) : bytes :=
  match i with O => print_groups gs | S _ => mjoin ((fun g => COLON :: print 4 16 g) <$> gs) end.

Lemma body_cons i g gs : body i (g :: gs) = (match i with O => [] | S _ => [COLON] end) ++ print 4 16 g ++ body 1 gs.
Proof.
  destruct i; [|done]. unfold body, print_groups. rewrite fmap_cons, sep_by_cons.
  cbn [app]. f_equal. by rewrite <- list_fmap_compose.
Qed.

Lemma body_end gs rest : group_end rest ->
  stops 16 (body 1 gs ++ rest) /\ stops 10 (body 1 gs ++ rest) /\ no_dot (body 1 gs ++ rest).
Proof.
  intros Hr. destruct gs as [|g gs]; [|by split_and!]. destruct (group_end_spec _ Hr) as (? & ? & ? & _). done.
Qed.

Lemma read_groups_body gs left i rest :
  (length gs <= left)%nat -> Forall (fun g => 0 <= g <= 65535) gs -> group_end rest ->
  read_groups left i (body i gs ++ rest) = (gs, false, rest).
Proof.
  intros Hl Hall Hend. revert left i Hl. induction Hall as [|g gs Hg _ IH]; intros left i Hl.
  - destruct left as [|left]; [destruct i; done|]. destruct (group_end_spec _ Hend) as (_ & _ & _ & Hv4 & Hnum).
    cbn [read_groups]. destruct i as [|i]; simpl.
    + rewrite Hv4, Hnum. by destruct (_ <? _)%nat.
    + inversion Hend as [t|t]; subst; simpl; by destruct (_ <? _)%nat.
  - destruct left as [|left]; [simpl in Hl; lia|]. rewrite body_cons, <- !app_assoc.
    destruct (body_end gs rest Hend) as (Hs16 & Hs10 & Hnd).
    assert (Hv4 : read_ipv4 (print 4 16 g ++ body 1 gs ++ rest) = None).
    { apply read_ipv4_none, no_dot_digits; auto using print_hex_no_dot. }
    assert (Hsep : forall B (inner : bytes -> option (B * bytes)),
      read_separator COLON i inner ((match i with O => [] | S _ => [COLON] end) ++ print 4 16 g ++ body 1 gs ++ rest) =
      inner (print 4 16 g ++ body 1 gs ++ rest)).
    { intros B inner. destruct i; [done|]. cbn [app read_separator]. by rewrite Z.eqb_refl. }
    eapply read_groups_number.
    + by rewrite Hsep.
    + rewrite Hsep. apply read_number_print; try done; try lia. intros m [= <-]. lia.
    + apply (IH left (S i)). simpl in Hl. lia.
Qed.

Lemma zero_run_spec l : take (zero_run l) l = replicate (zero_run l) 0 /\ (zero_run l <= length l)%nat.
Proof.
  induction l as [|g l [IH1 IH2]]; [done|]. simpl. case_bool; simpl; [|split; [done|lia]].
  subst. rewrite IH1. split; [done|lia].
Qed.

Lemma longest_zero_spec gs i best s n :
  (i <= length gs)%nat -> longest_zero i (drop i gs) best = (s, n) ->
  (take best.2 (drop best.1 gs) = replicate best.2 0 /\ (best.1 + best.2 <= length gs)%nat) ->
  take n (drop s gs) = replicate n 0 /\ (s + n <= length gs)%nat.
Proof.
  remember (length gs - i)%nat as k eqn:Hk. revert i Hk best. induction k as [|k IH]; intros i Hk best Hi Hlz Hb.
  - rewrite drop_ge in Hlz by lia. simpl in Hlz. by destruct best; simplify_eq.
  - destruct (drop i gs) as [|g l] eqn:Hd; [apply (f_equal length) in Hd; rewrite length_drop in Hd; simpl in Hd; lia|].
    cbn [longest_zero] in Hlz. destruct (zero_run_spec (g :: l)) as [Hz1 Hz2].
    set (z := zero_run (g :: l)) in *. assert (Hl : l = drop (S i) gs) by (by rewrite <- Nat.add_1_r, <- drop_drop, Hd).
    rewrite Hl in Hlz. eapply (IH (S i)); [lia| |exact Hlz|]; [lia|].
    destruct (best.2 <? z)%nat; [|done]. cbn [fst snd]. rewrite Hd. split; [exact Hz1|]. apply (f_equal length) in Hd. rewrite length_drop in Hd. lia.
Qed.

Lemma mapped_split a v4 :
  0 <= a < 2 ^ 128 -> to_ipv4_mapped a = Some v4 -> a = 65535 * 2 ^ 32 + v4 /\ 0 <= v4 < 2 ^ 32.
Proof.
  intros Ha. unfold to_ipv4_mapped. case_bool; [|done]. intros [= <-].
  change (2 ^ 32 - 1) with (Z.ones 32). rewrite Z.land_ones by lia.
  rewrite Z.shiftr_div_pow2 in Heqb by lia. pose proof (Z.div_mod a (2 ^ 32) ltac:(lia)).
  pose proof (Z.mod_pos_bound a (2 ^ 32) ltac:(lia)). lia.
Qed.

Lemma read_ipv6_mapped v4 t :
  0 <= v4 < 2 ^ 32 ->
  exists g, read_ipv6 ([COLON; COLON; 102; 102; 102; 102; COLON] ++ print_ipv4 v4 ++ CLOSE :: t) = Some (g, CLOSE :: t) /\
    join 65536 g = 65535 * 2 ^ 32 + v4.
Proof.
  intros Hv. destruct (join_octets v4 Hv) as [Hj _].
  assert (Htail : read_groups 7 0 ([102; 102; 102; 102; COLON] ++ print_ipv4 v4 ++ CLOSE :: t) =
    ([65535; v4 `div` 2 ^ 24 * 256 + (v4 `div` 2 ^ 16) `mod` 256; (v4 `div` 2 ^ 8) `mod` 256 * 256 + v4 `mod` 256],
     true, CLOSE :: t)).
  { eapply (read_groups_number 6).
    - apply read_ipv4_none. exact (ltac:(discriminate) : 102 <> DOT).
    - apply (read_number_print 4 16 _ _ _ 65535); try done; try lia. intros m [= <-]. lia.
    - apply (read_groups_ipv4 4). cbn [read_separator app]. by rewrite Z.eqb_refl, read_ipv4_print. }
  eexists. split.
  - unfold read_ipv6. cbn [app] in *.
    change (COLON :: COLON :: 102 :: 102 :: 102 :: 102 :: COLON :: print_ipv4 v4 ++ CLOSE :: t)
      with (body 0 [] ++ COLON :: COLON :: 102 :: 102 :: 102 :: 102 :: COLON :: print_ipv4 v4 ++ CLOSE :: t).
    rewrite (read_groups_body [] 8 0) by (simpl; lia || constructor).
    cbn [length Nat.eqb read_given_char mbind option_bind]. rewrite !Z.eqb_refl.
    cbn [mbind option_bind Nat.sub Nat.add read_given_char]. rewrite Z.eqb_refl. cbn [mbind option_bind].
    rewrite Htail. reflexivity.
  - unfold join, value, octets in *. cbn [app replicate foldl length Nat.sub] in *. lia.
Qed.

Lemma read_ipv6_print a t :
  0 <= a < 2 ^ 128 ->
  exists g, read_ipv6 (print_ipv6 a ++ CLOSE :: t) = Some (g, CLOSE :: t) /\ join 65536 g = a.
Proof.
  intros Ha. unfold print_ipv6. destruct (to_ipv4_mapped a) as [v4|] eqn:Hm.
  { destruct (mapped_split a v4 Ha Hm) as [Heq Hv]. destruct (read_ipv6_mapped v4 t Hv) as (g & Hg & Hj).
    exists g. rewrite <- app_assoc. split; [exact Hg|]. by rewrite Hj, Heq. }
  destruct (join_groups a Ha) as [Hj Hall]. exists (groups a). split; [|done].
  assert (Hlen : length (groups a) = 8%nat) by done.
  destruct (longest_zero 0 (groups a) (O, O)) as [s n] eqn:Hlz.
  destruct (longest_zero_spec (groups a) 0 (O, O) s n) as [Hz Hsn]; [lia|done|simpl; split; [done|lia]|]. rewrite Hlen in Hsn.
  unfold read_ipv6. destruct (1 <? n)%nat eqn:Hn.
  - apply Nat.ltb_lt in Hn. rewrite <- !app_assoc.
    change (print_groups (take s (groups a))) with (body 0 (take s (groups a))).
    rewrite read_groups_body; [|rewrite length_take; lia|by apply Forall_take|constructor].
    rewrite length_take, Hlen, Nat.min_l by lia. rewrite (proj2 (Nat.eqb_neq s 8)) by lia.
    cbn [app read_given_char mbind option_bind]. rewrite !Z.eqb_refl.
    cbn [mbind option_bind read_given_char]. rewrite Z.eqb_refl. cbn [mbind option_bind].
    change (print_groups (drop (s + n) (groups a))) with (body 0 (drop (s + n) (groups a))).
    rewrite read_groups_body; [|rewrite length_drop; lia|by apply Forall_drop|constructor].
    do 2 f_equal. rewrite length_drop, Hlen. replace (8 - s - (8 - (s + n)))%nat with n by lia.
    rewrite <- Hz, <- drop_drop, take_drop, take_drop. done.
  - change (print_groups (groups a)) with (body 0 (groups a)).
    rewrite read_groups_body; [|lia|done|constructor]. by rewrite Hlen.
Qed.

Lemma socket_parse_v4 s o r p :
  read_ipv4 s = Some (o, r) -> read_port r = Some (p, []) -> socket_parse s = Some (Ipv4 (join 256 o), p).
Proof. intros H1 H2. unfold socket_parse, read_socket_v4. by rewrite H1, H2. Qed.

Lemma read_socket_v6_spec s g r p :
  read_ipv6 s = Some (g, CLOSE :: r) -> read_port r = Some (p, []) ->
  read_socket_v6 (OPEN :: s) = Some (Ipv6 (join 65536 g), p, []).
Proof.
  intros H1 H2. unfold read_socket_v6. change (read_given_char OPEN (OPEN :: s)) with (Some s). cbn iota.
  rewrite H1. change (read_given_char CLOSE (skip_scope (CLOSE :: r))) with (Some r). cbn iota. by rewrite H2.
Qed.

Lemma socket_parse_v6 s g r p :
  read_ipv6 s = Some (g, CLOSE :: r) -> read_port r = Some (p, []) ->
  socket_parse (OPEN :: s) = Some (Ipv6 (join 65536 g), p).
Proof.
  intros H1 H2. unfold socket_parse, read_socket_v4.
  rewrite read_ipv4_none by exact (ltac:(discriminate) : OPEN <> DOT).
  by rewrite (read_socket_v6_spec s g r p H1 H2).
Qed.

Lemma read_port_print port : 0 <= port <= 65535 -> read_port (COLON :: print_u16 port) = Some (port, []).
Proof.
  intros Hp. unfold read_port. cbn [read_given_char]. rewrite Z.eqb_refl. cbn [mbind option_bind].
  rewrite <- (app_nil_r (print_u16 port)). apply read_number_print; try done; lia.
Qed.

(** The words of each family. *)
Definition address_ok (a : IpAddress) : Prop :=
  match a with Ipv4 a => 0 <= a < 2 ^ 32 | Ipv6 a => 0 <= a < 2 ^ 128 end.

(** The text of a socket address parses back to it. *)
Lemma socket_parse_print a port :
  address_ok a -> 0 <= port <= 65535 -> socket_parse (socket_print a port) = Some (a, port).
Proof.
  intros Ha Hp. pose proof (read_port_print port Hp) as Hport. unfold socket_print. destruct a as [a|a].
  - erewrite socket_parse_v4; [|by apply read_ipv4_print|exact Hport]. by rewrite (proj1 (join_octets a Ha)).
  - destruct (read_ipv6_print a (COLON :: print_u16 port) Ha) as (g & Hg & Hj).
    by rewrite (socket_parse_v6 _ g _ port Hg Hport), Hj.
Qed.

(** ** The text of an address is ASCII *)

Definition ascii (s : bytes) : Prop := Forall (fun c => c < 128) s.

Lemma print_ascii fuel radix n : radix <= 36 -> 0 < radix -> ascii (print fuel radix n).
Proof.
  intros Hr Hp. apply Forall_fmap.
  assert (Hd : forall fuel n acc, Forall (fun d => d < radix) acc -> Forall (fun d => d < radix) (to_digits fuel radix n acc)).
  { clear - Hp. induction fuel as [|fuel IH]; intros n acc Hacc; [done|]. cbn [to_digits].
    assert (Forall (fun d => d < radix) (n `mod` radix :: acc))
      by (constructor; [apply Z.mod_pos_bound; lia|done]).
    case_bool; auto. }
  eapply Forall_impl; [apply Hd; constructor|]. intros d Hlt. simpl in *. unfold digit_char. case_bool; lia.
Qed.

Lemma sep_by_ascii c l : c < 128 -> Forall ascii l -> ascii (sep_by c l).
Proof.
  intros Hc Hl. induction Hl as [|x l Hx Hl IH]; [constructor|]. destruct l; [done|].
  apply Forall_app. split; [done|]. by constructor.
Qed.

Lemma socket_print_utf8 a port : utf8 (socket_print a port) = true.
Proof.
  apply utf8_ascii.
  assert (Hp : ascii (print_u16 port)) by (apply print_ascii; lia).
  assert (H4 : forall a, ascii (print_ipv4 a)).
  { intros v. apply sep_by_ascii; [done|]. apply Forall_fmap, Forall_true. intros. simpl. apply print_ascii; lia. }
  assert (H6 : forall gs, ascii (print_groups gs)).
  { intros v. apply sep_by_ascii; [done|]. apply Forall_fmap, Forall_true. intros. simpl. apply print_ascii; lia. }
  unfold socket_print, print_ipv6. destruct a as [a|a].
  - apply Forall_app. split; [apply H4|]. by constructor.
  - constructor; [done|]. apply Forall_app. split; [|constructor; [done|]; by constructor].
    destruct (to_ipv4_mapped a); [apply Forall_app; split; [by repeat constructor|apply H4]|].
    destruct (longest_zero _ _ _) as [start n]. destruct (_ <? _)%nat; [|apply H6].
    apply Forall_app; split; [apply H6|]. constructor; [done|]. constructor; [done|]. apply H6.
Qed.

End NetText.
