(* ===== verification/VarInt.v ===== *)
(** * QUIC variable-length integers

    The wire formats use [quinn::VarInt], a library: here a class with what its documentation
    promises, and the encoding of RFC 9000, section 16, as its instance. *)

From S2P Require Import Prelude.

Module VarInt.

Class VarIntCodec := {
  encode : Z -> option bytes;                     (* [VarInt::from_u64(v)?.encode(out)] *)
  decode : bytes -> option (Z * bytes);           (* [VarInt::decode(buf)], with what is left *)
}.

Class VarIntLaws `{VarIntCodec} := {
  encode_total : forall v, 0 <= v < 2 ^ 62 -> is_Some (encode v);
  encode_bound : forall v, encode v <> None -> v < 2 ^ 62;
  (* The two high bits of the first byte give the length. *)
  encode_shape : forall v b, encode v = Some b ->
    exists c t, b = c :: t /\ is_byte c /\ len b = 2 ^ (Z.shiftr c 6);
  decode_encode : forall v b rest, encode v = Some b -> decode (b ++ rest) = Some (v, rest);
  decode_range : forall b v rest, Forall is_byte b -> decode b = Some (v, rest) -> 0 <= v < 2 ^ 62;
  decode_suffix : forall b v rest, decode b = Some (v, rest) -> exists used, b = used ++ rest;
}.

(** ** RFC 9000 *)

(** The prefix byte of an [n]-byte encoding carries [k = log2 n] and the six high bits. *)
Definition tagged (k : Z) (n : nat) (v : Z) : bytes := be_put n (k * 2 ^ (8 * Z.of_nat n - 2) + v).

#[export] Instance rfc_varint : VarIntCodec := {|
  encode v :=
    if v <? 0 then None
    else if v <? 2 ^ 6 then Some (tagged 0 1 v)
    else if v <? 2 ^ 14 then Some (tagged 1 2 v)
    else if v <? 2 ^ 30 then Some (tagged 2 4 v)
    else if v <? 2 ^ 62 then Some (tagged 3 8 v)
    else None;
  decode b :=
    match b with
    | [] => None
    | c :: _ =>
        let n := 2 ^ Z.shiftr c 6 in
        if len b <? n then None
        else Some (be_get (ztake n b) `mod` 2 ^ (8 * n - 2), zdrop n b)
    end;
|}.

Lemma tagged_shape k n v :
  0 <= k <= 3 -> Z.of_nat n = 2 ^ k -> 0 <= v < 2 ^ (8 * Z.of_nat n - 2) ->
  (exists t, tagged k n v = k * 64 + v `div` 256 ^ (Z.of_nat n - 1) :: t) /\
  0 <= v `div` 256 ^ (Z.of_nat n - 1) < 64.
Proof.
  intros Hk Hn Hv. assert (Hpos : 1 <= Z.of_nat n) by (rewrite Hn; apply (Z.pow_le_mono_r 2 0 k); lia).
  destruct n as [|n]; [lia|]. rewrite Nat2Z.inj_succ in *.
  replace (Z.succ (Z.of_nat n) - 1) with (Z.of_nat n) by lia.
  assert (H256 : 256 ^ Z.of_nat n = 2 ^ (8 * Z.of_nat n)) by (change 256 with (2 ^ 8); by rewrite <- Z.pow_mul_r by lia).
  assert (Hsplit : 2 ^ (8 * Z.succ (Z.of_nat n) - 2) = 64 * 256 ^ Z.of_nat n).
  { rewrite H256. replace (8 * Z.succ (Z.of_nat n) - 2) with (6 + 8 * Z.of_nat n) by lia. by rewrite Z.pow_add_r by lia. }
  assert (Hd : 0 <= v `div` 256 ^ Z.of_nat n < 64).
  { split; [apply Z.div_pos; lia|]. apply Z.div_lt_upper_bound; lia. }
  split; [|done]. exists (be_put n (k * 2 ^ (8 * Z.succ (Z.of_nat n) - 2) + v)). unfold tagged.
  rewrite Nat2Z.inj_succ. cbn [be_put]. f_equal.
  rewrite Hsplit, Z.mul_assoc, Z.add_comm, Z.div_add by lia. rewrite Z.mod_small; lia.
Qed.

Lemma tagged_decode k n v rest :
  0 <= k <= 3 -> Z.of_nat n = 2 ^ k -> 0 <= v < 2 ^ (8 * Z.of_nat n - 2) ->
  (exists c t, tagged k n v = c :: t /\ is_byte c /\ len (tagged k n v) = 2 ^ (Z.shiftr c 6)) /\
  decode (tagged k n v ++ rest) = Some (v, rest).
Proof.
  intros Hk Hn Hv. destruct (tagged_shape k n v Hk Hn Hv) as [[t Ht] Hd].
  set (c := k * 64 + v `div` 256 ^ (Z.of_nat n - 1)) in *.
  assert (Hc : Z.shiftr c 6 = k).
  { rewrite Z.shiftr_div_pow2 by lia. unfold c. change (2 ^ 6) with 64. rewrite Z.add_comm, Z.div_add by lia.
    rewrite Z.div_small by lia. lia. }
  assert (Hl : len (tagged k n v) = 2 ^ Z.shiftr c 6) by (unfold tagged; rewrite len_be_put, Hc; lia).
  split; [exists c, t; split_and!; try done; unfold is_byte; lia|].
  rewrite Ht. cbn [decode rfc_varint app]. rewrite Hc.
  change (c :: t ++ rest) with ((c :: t) ++ rest). rewrite <- Ht.
  assert (Hlen : len (tagged k n v) = 2 ^ k) by (by rewrite Hl, Hc). clear Ht Hc Hl.
  rewrite (proj2 (Z.ltb_ge _ _)) by len_lia.
  rewrite ztake_app_exact, zdrop_app_exact by done. do 2 f_equal. unfold tagged.
  assert (Hpow : 256 ^ Z.of_nat n = 4 * 2 ^ (8 * Z.of_nat n - 2)).
  { change 256 with (2 ^ 8). rewrite <- Z.pow_mul_r by lia. change 4 with (2 ^ 2).
    rewrite <- Z.pow_add_r by lia. f_equal. lia. }
  rewrite be_get_put by (rewrite Hpow; nia). rewrite <- Hn.
  rewrite Z.add_comm, Z.mod_add by lia. apply Z.mod_small. lia.
Qed.

Lemma rfc_encode_cases v b :
  encode v = Some b -> exists k n, b = tagged k n v /\ 0 <= k <= 3 /\ Z.of_nat n = 2 ^ k /\
    0 <= v < 2 ^ (8 * Z.of_nat n - 2).
Proof.
  cbn [encode rfc_varint]. repeat case_bool; intros [= <-].
  - exists 0, 1%nat. split_and!; done || lia.
  - exists 1, 2%nat. split_and!; done || lia.
  - exists 2, 4%nat. split_and!; done || lia.
  - exists 3, 8%nat. split_and!; done || lia.
Qed.

#[export] Instance rfc_varint_laws : VarIntLaws.
Proof.
  constructor.
  - intros v Hv. cbn [encode rfc_varint]. repeat case_bool; eauto; lia.
  - intros v. cbn [encode rfc_varint]. repeat case_bool; done || lia.
  - intros v b (k & n & -> & Hk & Hn & Hv)%rfc_encode_cases. by apply (tagged_decode k n v []).
  - intros v b rest (k & n & -> & Hk & Hn & Hv)%rfc_encode_cases. by apply tagged_decode.
  - intros b v rest Hb. cbn [decode rfc_varint]. destruct b as [|c t]; [done|]. case_bool; [done|].
    intros [= <- _]. apply Forall_cons in Hb as [Hc _].
    assert (Hs : 0 <= Z.shiftr c 6 <= 3).
    { rewrite Z.shiftr_div_pow2 by lia. unfold is_byte in Hc. change (2 ^ 6) with 64.
      split; [apply Z.div_pos; lia|]. apply Z.lt_succ_r, Z.div_lt_upper_bound; lia. }
    set (e := 8 * 2 ^ Z.shiftr c 6 - 2).
    assert (He : 0 <= e <= 62).
    { pose proof (Z.pow_le_mono_r 2 0 (Z.shiftr c 6)). pose proof (Z.pow_le_mono_r 2 (Z.shiftr c 6) 3). unfold e. lia. }
    pose proof (Z.pow_pos_nonneg 2 e ltac:(lia) ltac:(lia)). pose proof (Z.pow_le_mono_r 2 e 62).
    pose proof (Z.mod_pos_bound (be_get (ztake (2 ^ Z.shiftr c 6) (c :: t))) (2 ^ e)). lia.
  - intros b v rest. cbn [decode rfc_varint]. destruct b as [|c t]; [done|]. case_bool; [done|].
    intros [= _ <-]. eexists. symmetry. apply ztake_zdrop.
Qed.

End VarInt.
