(* ===== verification/HysteriaWire.v ===== *)
(** * Hysteria 2 framing (crates/hysteria2/src/wire.rs)

    Addresses, stream requests and responses, and the fragmentation of UDP packets over QUIC
    datagrams with its bounded reassembly. *)

From S2P Require Import Prelude Packet NetText VarInt.
Import NetText.

Module HysteriaWire.

Definition TCP_REQUEST : Z := 1025.
Definition MAX_ADDRESS : Z := 2048.
Definition MAX_PADDING : Z := 4096.
Definition MAX_PAYLOAD : Z := 65507.
Definition MAX_PENDING : Z := 64.
Definition MAX_BUFFERED : Z := 256 * 1024.

Inductive error :=
| InvalidDomain | AddressTooLong | MissingPort | InvalidPort | InvalidVarInt | UnexpectedEof
| OversizedField | InvalidUtf8 | Rejected | ShortDatagram | InvalidFragmentIndex
| InvalidAddressLength | OversizedDatagram | OversizedPayload | CannotFitAddress
| TooManyFragments | Inconsistent | OversizedReassembled | Panicked.

Notation "'Res' A" := (res error A) (at level 10, A at next level).

(** ** Addresses *)

Definition name_ok (name : bytes) : bool :=
  negb (len name =? 0) &&
  forallb (fun c => negb ((c =? COLON) || (c =? OPEN) || (c =? CLOSE) || (c =? 0))) name.

Definition domain_text (name : bytes) (port : Z) : bytes := name ++ COLON :: print_u16 port.

Definition address (target : Target) : Res bytes :=
  value ← match target with
          | Ip a port => Ok (socket_print a port)
          | Domain name port => if name_ok name then Ok (domain_text name port) else Err InvalidDomain
          end;
  if len value <=? MAX_ADDRESS then Ok value else Err AddressTooLong.

Definition parse_address (value : bytes) : Res Target :=
  if negb (len value <=? MAX_ADDRESS) then Err AddressTooLong else
  match socket_parse value with
  | Some (a, port) => Ok (Ip a port)
  | None =>
      match rsplit_once COLON value with
      | None => Err MissingPort
      | Some (name, port) =>
          if name_ok name then
            match parse_u16 port with Some p => Ok (Domain name p) | None => Err InvalidPort end
          else Err InvalidDomain
      end
  end.

(** [std::str::from_utf8] before [parse_address] *)
Definition parse_address_bytes (b : bytes) : Res Target :=
  if utf8 b then parse_address b else Err InvalidUtf8.

Section wire.
Context `{VarInt.VarIntCodec}.

(** ** Stream framing *)

Definition put_varint (out : bytes) (v : Z) : Res bytes :=
  match VarInt.encode v with Some b => Ok (out ++ b) | None => Err InvalidVarInt end.

Definition put_field (out value : bytes) : Res bytes :=
  out ← put_varint out (len value); Ok (out ++ value).

(** [read_exact] *)
Definition read_exact (n : Z) (input : bytes) : Res (bytes * bytes) :=
  if len input <? n then Err UnexpectedEof else Ok (ztake n input, zdrop n input).

Definition read_varint (input : bytes) : Res (Z * bytes) :=
  '(first, input) ← read_exact 1 input;
  let length := 2 ^ Z.shiftr (default 0 (head first)) 6 in
  '(rest, input) ← read_exact (length - 1) input;
  match VarInt.decode (first ++ rest) with Some (v, _) => Ok (v, input) | None => Err InvalidVarInt end.

Definition read_field (max : Z) (input : bytes) : Res (bytes * bytes) :=
  '(length, input) ← read_varint input;
  if length <=? max then read_exact length input else Err OversizedField.

(** [request] and [response] write; the padding text is random. *)
Definition request (padding : bytes) (target : Target) : Res bytes :=
  out ← put_varint [] TCP_REQUEST;
  text ← address target;
  out ← put_field out text;
  put_field out padding.

Definition read_request (input : bytes) : Res (Target * bytes) :=
  '(text, input) ← read_field MAX_ADDRESS input;
  target ← parse_address_bytes text;
  '(_, input) ← read_field MAX_PADDING input;
  Ok (target, input).

Definition response (padding : bytes) : Res bytes :=
  out ← put_field [0] []; put_field out padding.

Definition read_response (input : bytes) : Res bytes :=
  '(status, input) ← read_exact 1 input;
  '(_, input) ← read_field MAX_ADDRESS input;
  '(_, input) ← read_field MAX_PADDING input;
  if bool_decide (status = [0]) then Ok input else Err Rejected.

(** ** Datagrams *)

(** [Packet] of the protocol crate. *)
Record Packet := mkPacket { target : Target; payload : bytes }.

Record Fragment := mkFragment {
  session : Z;
  packet : Z;
  index : Z;
  count : Z;
  f_target : Target;
  f_payload : bytes;
}.

(** [Fragment::decode] *)
Definition decode (b : bytes) : Res Fragment :=
  if len b <? 9 then Err ShortDatagram else
  let session := be_get (slice 0 4 b) in
  let packet := be_get (slice 4 6 b) in
  let index := be_get (slice 6 7 b) in
  let count := be_get (slice 7 8 b) in
  if negb ((0 <? count) && ((count =? 1) || (index <? count))) then Err InvalidFragmentIndex else
  match VarInt.decode (zdrop 8 b) with
  | None => Err InvalidVarInt
  | Some (length, b) =>
      if negb ((length <=? MAX_ADDRESS) && (length <=? len b)) then Err InvalidAddressLength else
      target ← parse_address_bytes (ztake length b);
      let payload := zdrop length b in
      if len payload <=? MAX_PAYLOAD then Ok (mkFragment session packet index count target payload)
      else Err OversizedDatagram
  end.

(** The header of fragment [index] of [count]. *)
Definition header (session packet index count : Z) (field : bytes) : bytes :=
  be_put 4 session ++ be_put 2 packet ++ [index `mod` 256; count `mod` 256] ++ field.

(** [payload.len().div_ceil(capacity).max(1)] *)
Definition fragment_count (n capacity : Z) : Z := Z.max ((n + capacity - 1) `div` capacity) 1.

(** [payload[index * capacity..min(start + capacity, len)]] *)
Definition chunk (capacity : Z) (payload : bytes) (index : Z) : bytes :=
  slice (index * capacity) (Z.min (index * capacity + capacity) (len payload)) payload.

(** [fragments] *)
Definition fragments (session packet : Z) (value : Packet) (mtu : Z) : Res (list bytes) :=
  if negb (len (payload value) <=? MAX_PAYLOAD) then Err OversizedPayload else
  text ← address (target value);
  field ← put_field [] text;
  let head index count := header session packet index count field in
  if negb (len (head 0 1) <? mtu) then Err CannotFitAddress else
  let capacity := mtu - len (head 0 1) in
  let count := fragment_count (len (payload value)) capacity in
  if negb (count <=? 255) then Err TooManyFragments else
  Ok ((fun index => head index count ++ chunk capacity (payload value) index) <$> seqZ 0 count).

End wire.

(** ** Reassembly *)

Abbreviation key := (Z * Z)%type.

Record Pending := mkPending {
  p_target : Target;
  parts : list (option bytes);
  p_bytes : Z;
  received : Z;
  created : Z;
}.

Record Reassembly := mkReassembly {
  pending : gmap key Pending;
  order : list key;
  buffered : Z;
}.

Definition empty : Reassembly := mkReassembly ∅ [] 0.

(** Ten seconds, in nanoseconds. *)
Definition RETENTION : Z := 10 * 1000000000.

(** [Reassembly::remove] *)
Definition remove (k : key) (r : Reassembly) : Reassembly * option Pending :=
  match pending r !! k with
  | None => (r, None)
  | Some p => (mkReassembly (delete k (pending r)) (filter (fun x => x <> k) (order r)) (buffered r - p_bytes p), Some p)
  end.

(** The expiry loop of [receive].  The fuel is the number of entries and one more. *)
Fixpoint expire_loop (fuel : nat) (now : Z) (r : Reassembly) : Reassembly :=
  match fuel with
  | O => r
  | S fuel =>
      match order r with
      | [] => r
      | k :: _ =>
          if match pending r !! k with
             | Some p => sat_sub now (created p) <? RETENTION
             | None => false
             end
          then r else expire_loop fuel now (fst (remove k r))
      end
  end.

(** The condition of the eviction loop, and the loop. *)
Definition over (k : key) (n : Z) (r : Reassembly) : bool :=
  (MAX_BUFFERED <? buffered r + n) ||
  (bool_decide (pending r !! k = None) && (MAX_PENDING <=? Z.of_nat (size (pending r)))).

Fixpoint evict_loop (fuel : nat) (k : key) (n : Z) (r : Reassembly) : Reassembly :=
  match fuel with
  | O => r
  | S fuel =>
      if over k n r then
        match order r with
        | [] => r
        | oldest :: _ => evict_loop fuel k n (fst (remove oldest r))
        end
      else r
  end.

Definition key_of (part : Fragment) : key := (session part, packet part).

(** [self.pending.entry(key).or_insert_with(..)] *)
Definition ensure_slot (now : Z) (part : Fragment) (r : Reassembly) : Reassembly :=
  match pending r !! key_of part with
  | Some _ => r
  | None =>
      mkReassembly
        (<[key_of part := mkPending (f_target part) (replicate (Z.to_nat (count part)) None) 0 0 now]> (pending r))
        (order r ++ [key_of part]) (buffered r)
  end.

(** The slot takes the payload, with both counts. *)
Definition fill (i : nat) (b : bytes) (p : Pending) : Pending :=
  mkPending (p_target p) (<[i := Some b]> (parts p)) (p_bytes p + len b) (received p + 1) (created p).

(** The rest of [receive]: the slot of the fragment.  [Panicked] is the [expect]. *)
Definition insert_part (part : Fragment) (r : Reassembly) : Reassembly * Res (option (Z * Packet)) :=
  let k := key_of part in
  let i := Z.to_nat (index part) in
  match pending r !! k with
  | None => (r, Err Panicked)
  | Some p =>
      match parts p !! i with
      | None => (r, Err Panicked)
      | Some (Some _) => (r, Ok None)
      | Some None =>
          let n := len (f_payload part) in
          let p := fill i (f_payload part) p in
          let r := mkReassembly (<[k := p]> (pending r)) (order r) (buffered r + n) in
          if MAX_PAYLOAD <? p_bytes p then (fst (remove k r), Err OversizedReassembled)
          else if negb (received p =? len (parts p)) then (r, Ok None)
          else
            match mapM Datatypes.id (parts p) with
            | Some fragments => (fst (remove k r), Ok (Some (session part, mkPacket (p_target p) (mjoin fragments))))
            | None => (fst (remove k r), Err Panicked)
            end
      end
  end.

(** The check of a fragment against the packet it continues. *)
Definition inconsistent (part : Fragment) (r : Reassembly) : bool :=
  match pending r !! key_of part with
  | Some p => negb (bool_decide (p_target p = f_target part) && (len (parts p) =? count part))
  | None => false
  end.

(** [Reassembly::receive] *)
Definition receive (now : Z) (part : Fragment) (r : Reassembly) : Reassembly * Res (option (Z * Packet)) :=
  let r := expire_loop (S (length (order r))) now r in
  if count part =? 1 then (r, Ok (Some (session part, mkPacket (f_target part) (f_payload part)))) else
  if inconsistent part r then (fst (remove (key_of part) r), Err Inconsistent) else
  insert_part part
    (ensure_slot now part (evict_loop (S (length (order r))) (key_of part) (len (f_payload part)) r)).

(** The datagrams of a connection, each with the time it arrives at: [Fragment::decode] and [receive]. *)
Fixpoint datagrams `{VarInt.VarIntCodec} (l : list (Z * bytes)) (r : Reassembly) :
  Reassembly * list (Res (option (Z * Packet))) :=
  match l with
  | [] => (r, [])
  | (now, b) :: l =>
      let '(r, out) :=
        match decode b with
        | Ok part => receive now part r
        | Err e => (r, Err e)
        end in
      let '(r, outs) := datagrams l r in
      (r, out :: outs)
  end.

(** ** Invariant of the reassembly *)

Definition slot_filled (o : option bytes) : Z := match o with Some _ => 1 | None => 0 end.
Definition filled (l : list (option bytes)) : Z := lsum slot_filled l.
Definition stored (l : list (option bytes)) : Z := lsum (from_option len 0) l.

Record pending_ok (p : Pending) : Prop := {
  po_count : 2 <= len (parts p) <= 255;
  po_received : received p = filled (parts p);
  po_bytes : p_bytes p = stored (parts p);
  po_open : received p < len (parts p);
  po_small : p_bytes p <= MAX_PAYLOAD;
}.

Record Inv (r : Reassembly) : Prop := {
  inv_nodup : NoDup (order r);
  inv_order : forall k, k ∈ order r <-> pending r !! k <> None;
  inv_bytes : buffered r = msum p_bytes (pending r);
  inv_pending : forall k p, pending r !! k = Some p -> pending_ok p;
  inv_count : Z.of_nat (size (pending r)) <= MAX_PENDING;
  inv_buffered : buffered r <= MAX_BUFFERED;
}.

(** What [Fragment::decode] guarantees of a part. *)
Definition part_ok (f : Fragment) : Prop :=
  1 <= count f <= 255 /\ (count f = 1 \/ 0 <= index f < count f) /\ len (f_payload f) <= MAX_PAYLOAD.

Lemma stored_nonneg l : 0 <= stored l.
Proof. apply lsum_nonneg. intros [b|] _; simpl; [apply len_nonneg|lia]. Qed.

Lemma filled_cons o l : filled (o :: l) = slot_filled o + filled l.
Proof. done. Qed.

Lemma filled_le l : 0 <= filled l <= len l.
Proof.
  induction l as [|o l IH]; [done|]. rewrite filled_cons, len_cons. destruct o; simpl; lia.
Qed.

Lemma filled_all l i : filled l = len l -> l !! i <> Some None.
Proof.
  revert i. induction l as [|o l IH]; intros i; [done|]. rewrite filled_cons, len_cons.
  pose proof (filled_le l). destruct o; simpl; intros Hf; [|lia]. destruct i; [done|]. apply IH. lia.
Qed.

Lemma p_bytes_nonneg r : Inv r -> 0 <= buffered r.
Proof.
  intros Hr. rewrite (inv_bytes _ Hr). apply msum_nonneg. intros k p Hp.
  rewrite (po_bytes _ (inv_pending _ Hr _ _ Hp)). apply stored_nonneg.
Qed.

Lemma filter_all {B} (P : B -> Prop) `{!forall x, Decision (P x)} (l : list B) : (forall x, x ∈ l -> P x) -> filter P l = l.
Proof.
  induction l as [|x l IH]; intros Hl; [done|]. rewrite filter_cons_True by (apply Hl; set_solver).
  f_equal. apply IH. set_solver.
Qed.

Lemma remove_spec k r :
  Inv r ->
  let r' := fst (remove k r) in
  Inv r' /\ pending r' = delete k (pending r) /\ order r' = filter (fun x => x <> k) (order r).
Proof.
  intros Hr. pose proof (p_bytes_nonneg _ Hr). pose proof Hr as [Hnd Hord Hby Hpend Hcnt Hbuf].
  unfold remove. destruct (pending r !! k) as [p|] eqn:Hp; simpl.
  - pose proof (Hpend _ _ Hp) as Hok. pose proof (stored_nonneg (parts p)). pose proof (po_bytes _ Hok).
    split_and!; try done. constructor; simpl.
    + by apply NoDup_filter.
    + intros k'. rewrite list_elem_of_filter, Hord. destruct (decide (k' = k)) as [->|Hne].
      * rewrite lookup_delete_eq. tauto.
      * rewrite lookup_delete_ne by done. tauto.
    + rewrite (msum_delete p_bytes _ k p Hp). lia.
    + intros k' p' [_ ?]%lookup_delete_Some. eauto.
    + assert (Hs : size (delete k (pending r)) = Nat.pred (size (pending r))) by (apply map_size_delete_Some; eauto). rewrite Hs. lia.
    + lia.
  - split_and!; [done|by rewrite delete_id|]. symmetry. apply filter_all.
    intros x Hx ->. by apply Hord in Hx.
Qed.

Lemma expire_loop_spec fuel now r :
  Inv r -> (length (order r) < fuel)%nat ->
  let r' := expire_loop fuel now r in
  Inv r' /\ pending r' ⊆ pending r /\
  match order r' with
  | [] => True
  | k :: _ => exists p, pending r' !! k = Some p /\ sat_sub now (created p) < RETENTION
  end.
Proof.
  revert r. induction fuel as [|fuel IH]; intros r Hr Hf; [lia|]. simpl.
  destruct (order r) as [|k l] eqn:Ho; [by rewrite Ho|].
  assert (Hk : pending r !! k <> None) by (apply (inv_order _ Hr); rewrite Ho; set_solver).
  destruct (pending r !! k) as [p|] eqn:Hp; [|done]. case_bool.
  - rewrite Ho. split_and!; eauto.
  - destruct (remove_spec k r Hr) as (Hr' & Hpe & Hor).
    destruct (IH (fst (remove k r)) Hr') as (? & Hsub & ?).
    + rewrite Hor, Ho, filter_cons_False by tauto. pose proof (length_filter (fun x => x <> k) l). simpl in Hf. lia.
    + split_and!; try done. etransitivity; [exact Hsub|]. rewrite Hpe. apply delete_subseteq.
Qed.

Lemma remove_gone k r : Inv r -> pending (fst (remove k r)) !! k = None.
Proof. intros Hr. destruct (remove_spec k r Hr) as (_ & -> & _). apply lookup_delete_eq. Qed.

Lemma over_empty k n r : Inv r -> order r = [] -> n <= MAX_PAYLOAD -> over k n r = false.
Proof.
  intros Hr Ho Hn.
  assert (He : pending r = ∅).
  { apply map_empty. intros x. destruct (pending r !! x) eqn:Hx; [|done].
    exfalso. assert (x ∈ order r) by (apply (inv_order _ Hr); congruence). rewrite Ho in *. set_solver. }
  unfold over. rewrite (inv_bytes _ Hr), He, msum_empty, map_size_empty. apply orb_false_iff.
  split; [apply Z.ltb_ge; unfold MAX_BUFFERED, MAX_PAYLOAD in *; lia|]. by rewrite andb_false_r.
Qed.

Lemma evict_loop_spec fuel k n r :
  Inv r -> (length (order r) < fuel)%nat -> n <= MAX_PAYLOAD ->
  let r' := evict_loop fuel k n r in Inv r' /\ pending r' ⊆ pending r /\ over k n r' = false.
Proof.
  intros Hr Hf Hn. revert r Hr Hf. induction fuel as [|fuel IH]; intros r Hr Hf; [lia|]. simpl.
  destruct (over k n r) eqn:Hov; [|by split_and!]. destruct (order r) as [|x l] eqn:Ho.
  { by rewrite over_empty in Hov. }
  destruct (remove_spec x r Hr) as (Hr' & Hpe & Hor).
  destruct (IH (fst (remove x r)) Hr') as (? & Hsub & ?).
  + rewrite Hor, Ho, filter_cons_False by tauto. pose proof (length_filter (fun y => y <> x) l). simpl in Hf. lia.
  + split_and!; try done. etransitivity; [exact Hsub|]. rewrite Hpe. apply delete_subseteq.
Qed.

Lemma remove_inv k r : Inv r -> Inv (fst (remove k r)).
Proof. intros Hr. apply (remove_spec k r Hr). Qed.

Lemma over_false k n r :
  over k n r = false ->
  buffered r + n <= MAX_BUFFERED /\ (pending r !! k = None -> Z.of_nat (size (pending r)) < MAX_PENDING).
Proof.
  unfold over. intros [Ha Hb]%orb_false_iff. zify_bool. split; [lia|]. intros Hk.
  rewrite bool_decide_true in Hb by done. simpl in Hb. zify_bool. lia.
Qed.

Lemma filled_fresh n : filled (replicate n None) = 0.
Proof. induction n as [|n IH]; [done|]. unfold filled in *. simpl. lia. Qed.

Lemma stored_fresh n : stored (replicate n None) = 0.
Proof. induction n as [|n IH]; [done|]. unfold stored in *. simpl. lia. Qed.

(** After the entry is made sure of, the fragment's packet is pending and has room. *)
Lemma ensure_slot_spec now part n r :
  Inv r -> part_ok part -> count part <> 1 -> over (key_of part) n r = false -> inconsistent part r = false ->
  let r' := ensure_slot now part r in
  Inv r' /\ buffered r' = buffered r /\
  exists p, pending r' !! key_of part = Some p /\ p_target p = f_target part /\ len (parts p) = count part.
Proof.
  intros Hr (Hc & Hi & Hl) Hne Hov Hin. pose proof (over_false _ _ _ Hov) as [Hb Hs].
  unfold ensure_slot, inconsistent in *. destruct (pending r !! key_of part) as [p|] eqn:Hp.
  - split_and!; [done..|]. exists p. zify_bool. by case_bool_decide.
  - specialize (Hs eq_refl). pose proof Hr as [Hnd Hord Hby Hpend Hcnt Hbuf]. split_and!; [|done|].
    + constructor; cbn [pending order buffered].
      * apply NoDup_app. split_and!; [done| |apply NoDup_singleton].
        intros k Hk ->%list_elem_of_singleton. by apply Hord in Hk.
      * intros k. rewrite elem_of_app, list_elem_of_singleton, Hord.
        destruct (decide (k = key_of part)) as [->|Hk].
        -- rewrite lookup_insert_eq. naive_solver.
        -- rewrite lookup_insert_ne by done. naive_solver.
      * by rewrite msum_insert.
      * intros k p [[<- <-]|[_ ?]]%lookup_insert_Some; [|eauto].
        assert (len (replicate (Z.to_nat (count part)) (@None bytes)) = count part)
          by (unfold len; rewrite length_replicate; lia).
        constructor; cbn [parts received p_bytes]; rewrite ?filled_fresh, ?stored_fresh; unfold MAX_PAYLOAD; lia.
      * rewrite map_size_insert_None by done. unfold MAX_PENDING in *. lia.
      * done.
    + eexists. cbn [pending]. rewrite lookup_insert_eq. split_and!; [done..|]. cbn [parts].
      unfold len. rewrite length_replicate. lia.
Qed.

Lemma filled_insert l i b : l !! i = Some None -> filled (<[i := Some b]> l) = filled l + 1.
Proof. intros Hi. unfold filled. rewrite (lsum_insert _ _ _ _ _ Hi). simpl. lia. Qed.

Lemma stored_insert l i b : l !! i = Some None -> stored (<[i := Some b]> l) = stored l + len b.
Proof. intros Hi. unfold stored. rewrite (lsum_insert _ _ _ _ _ Hi). simpl. lia. Qed.

Lemma len_insert {B} (l : list B) i x : len (<[i := x]> l) = len l.
Proof. unfold len. by rewrite length_insert. Qed.

Lemma remove_filled k p p' n r :
  pending r !! k = Some p -> p_bytes p' = p_bytes p + n ->
  fst (remove k (mkReassembly (<[k := p']> (pending r)) (order r) (buffered r + n))) = fst (remove k r).
Proof.
  intros Hp Hn. unfold remove. cbn [pending order buffered]. rewrite lookup_insert_eq, Hp, delete_insert_eq. simpl.
  f_equal. lia.
Qed.

Lemma filled_mapM l : filled l = len l -> exists bs, mapM Datatypes.id l = Some bs.
Proof.
  induction l as [|o l IH]; [by exists []|]. rewrite filled_cons, len_cons. pose proof (filled_le l).
  destruct o as [b|]; simpl; intros Hf; [|lia]. destruct IH as [bs Hbs]; [lia|].
  exists (b :: bs). by rewrite Hbs.
Qed.

(** The ways a fragment of a pending packet ends. *)
Inductive part_outcome (part : Fragment) (r : Reassembly) (p : Pending) :
  Reassembly * Res (option (Z * Packet)) -> Prop :=
| outcome_duplicate b :
    parts p !! Z.to_nat (index part) = Some (Some b) -> part_outcome part r p (r, Ok None)
| outcome_oversized :
    parts p !! Z.to_nat (index part) = Some None ->
    MAX_PAYLOAD < p_bytes p + len (f_payload part) ->
    part_outcome part r p (fst (remove (key_of part) r), Err OversizedReassembled)
| outcome_stored p' :
    parts p !! Z.to_nat (index part) = Some None ->
    p' = fill (Z.to_nat (index part)) (f_payload part) p ->
    p_bytes p' <= MAX_PAYLOAD -> received p' < len (parts p') ->
    part_outcome part r p
      (mkReassembly (<[key_of part := p']> (pending r)) (order r) (buffered r + len (f_payload part)), Ok None)
| outcome_complete bs :
    parts p !! Z.to_nat (index part) = Some None ->
    p_bytes p + len (f_payload part) <= MAX_PAYLOAD ->
    mapM Datatypes.id (<[Z.to_nat (index part) := Some (f_payload part)]> (parts p)) = Some bs ->
    part_outcome part r p
      (fst (remove (key_of part) r), Ok (Some (session part, mkPacket (p_target p) (mjoin bs)))).

Lemma insert_part_outcome part r p :
  pending r !! key_of part = Some p -> pending_ok p -> 0 <= index part < len (parts p) ->
  part_outcome part r p (insert_part part r).
Proof.
  intros Hp [Hc Hr Hb Ho Hs] Hi. unfold insert_part. rewrite Hp.
  destruct (parts p !! Z.to_nat (index part)) as [[b|]|] eqn:Hx.
  - by econstructor.
  - cbn [fill p_bytes p_target received parts].
    assert (Hf : received p + 1 = filled (<[Z.to_nat (index part) := Some (f_payload part)]> (parts p)))
      by (rewrite filled_insert; [lia|done]).
    pose proof (filled_le (<[Z.to_nat (index part) := Some (f_payload part)]> (parts p))) as Hle.
    destruct (MAX_PAYLOAD <? _) eqn:Hm; zify_bool.
    + rewrite (remove_filled _ p) by done. by constructor.
    + destruct (_ =? _) eqn:Hq; simpl; zify_bool.
      * destruct (filled_mapM (<[Z.to_nat (index part) := Some (f_payload part)]> (parts p))) as [bs Hbs]; [lia|].
        rewrite Hbs, (remove_filled _ p) by done. by constructor.
      * apply outcome_stored; [done..|cbn; lia|cbn; lia].
  - apply lookup_ge_None in Hx. unfold len in Hi. lia.
Qed.

Lemma part_outcome_inv part r p out :
  Inv r -> pending r !! key_of part = Some p -> buffered r + len (f_payload part) <= MAX_BUFFERED ->
  part_outcome part r p out -> Inv (fst out).
Proof.
  intros Hr Hp Hb [b Hx|Hx Hm|p' Hx -> Hm Hq|bs Hx Hm Hbs]; simpl; [done|by apply remove_inv| |by apply remove_inv].
  pose proof Hr as [Hnd Hord Hby Hpend Hcnt Hbuf]. destruct (Hpend _ _ Hp) as [Hc Hre Hpb Ho Hs].
  constructor; cbn [pending order buffered]; [done| |..].
  - intros k. rewrite Hord. destruct (decide (k = key_of part)) as [->|Hk].
    + rewrite lookup_insert_eq, Hp. done.
    + by rewrite lookup_insert_ne by done.
  - rewrite (msum_update p_bytes _ _ p) by done. cbn. lia.
  - intros k q [[<- <-]|[_ ?]]%lookup_insert_Some; [|eauto]. cbn [fill received parts p_bytes] in *.
    constructor; cbn [fill received parts p_bytes]; rewrite ?len_insert, ?filled_insert, ?stored_insert in * by done; lia.
  - by rewrite map_size_insert_Some by eauto.
  - done.
Qed.

(** One call of [receive]: the state after expiry, then the three ways on. *)
Inductive received_as (now : Z) (part : Fragment) (r : Reassembly) :
  Reassembly * Res (option (Z * Packet)) -> Prop :=
| received_whole r1 :
    Inv r1 -> pending r1 ⊆ pending r -> count part = 1 ->
    received_as now part r (r1, Ok (Some (session part, mkPacket (f_target part) (f_payload part))))
| received_inconsistent r1 :
    Inv r1 -> pending r1 ⊆ pending r ->
    received_as now part r (r1, Err Inconsistent)
| received_part r2 p out :
    Inv r2 -> pending r2 ⊆ pending r -> count part <> 1 ->
    over (key_of part) (len (f_payload part)) r2 = false ->
    pending (ensure_slot now part r2) !! key_of part = Some p ->
    p_target p = f_target part -> len (parts p) = count part ->
    Inv (ensure_slot now part r2) ->
    part_outcome part (ensure_slot now part r2) p out ->
    Inv (fst out) ->
    received_as now part r out.

Lemma inconsistent_weaken part r r' : pending r' ⊆ pending r -> inconsistent part r = false -> inconsistent part r' = false.
Proof.
  unfold inconsistent. intros Hsub. destruct (pending r' !! key_of part) as [p|] eqn:Hp; [|done].
  by rewrite (lookup_weaken _ _ _ _ Hp Hsub).
Qed.

Lemma receive_spec now part r : Inv r -> part_ok part -> received_as now part r (receive now part r).
Proof.
  intros Hr Hok. unfold receive.
  destruct (expire_loop_spec (S (length (order r))) now r Hr ltac:(lia)) as (Hr1 & Hsub & _).
  set (r1 := expire_loop _ now r) in *. destruct (count part =? 1) eqn:Hc; zify_bool; [by constructor|].
  destruct (inconsistent part r1) eqn:Hin.
  { pose proof (remove_spec (key_of part) r1 Hr1) as (? & Hd & _). constructor; [done|].
    rewrite Hd. etransitivity; [apply delete_subseteq|done]. }
  pose proof Hok as (Hcc & Hix & Hlp).
  destruct (evict_loop_spec (S (length (order r1))) (key_of part) (len (f_payload part)) r1 Hr1 ltac:(lia) Hlp)
    as (Hr2 & Hsub2 & Hov).
  set (r2 := evict_loop _ _ _ r1) in *.
  destruct (ensure_slot_spec now part _ r2 Hr2 Hok Hc Hov (inconsistent_weaken _ _ _ Hsub2 Hin))
    as (Hr3 & Hb & p & Hp & Ht & Hl).
  assert (Hout : part_outcome part (ensure_slot now part r2) p (insert_part part (ensure_slot now part r2))).
  { apply insert_part_outcome; [done|by eapply inv_pending|lia]. }
  apply (received_part now part r r2 p); try done; [by etransitivity|].
  eapply part_outcome_inv; try done. rewrite Hb. by apply over_false in Hov as [? _].
Qed.

Lemma receive_inv now part r : Inv r -> part_ok part -> Inv (fst (receive now part r)).
Proof. intros Hr Hok. by destruct (receive_spec now part r Hr Hok). Qed.

Lemma Inv_empty : Inv empty.
Proof.
  constructor; unfold empty; cbn [pending order buffered]; [apply NoDup_nil_2| |done|done|done|done].
  intros k. rewrite lookup_empty. set_solver.
Qed.

Lemma slice_bytes a c b : Forall is_byte b -> Forall is_byte (slice a c b).
Proof. intros. unfold slice, ztake, zdrop. by apply Forall_take, Forall_drop. Qed.

Lemma decode_part_ok `{VarInt.VarIntCodec} b part : Forall is_byte b -> decode b = Ok part -> part_ok part.
Proof.
  unfold decode. intros Hb. destruct (len b <? 9) eqn:Hl; zify_bool; [done|].
  pose proof (be_get_range _ (slice_bytes 6 7 b Hb)). pose proof (be_get_range _ (slice_bytes 7 8 b Hb)).
  rewrite !len_slice in * by lia.
  destruct (negb _) eqn:Hc; [done|]. apply negb_false_iff, andb_true_iff in Hc as [Hc1 Hc0]. zify_bool.
  destruct (VarInt.decode _) as [[n rest]|]; [|done].
  destruct (negb _); [done|]. destruct (parse_address_bytes _); [|done]. cbn [mbind res_bind].
  destruct (_ <=? MAX_PAYLOAD) eqn:Hp; zify_bool; [|done]. intros [= <-].
  apply orb_true_iff in Hc0. unfold part_ok. cbn [count index f_payload]. destruct Hc0; zify_bool; lia.
Qed.

Lemma decode_no_panic `{VarInt.VarIntCodec} b : decode b <> Err Panicked.
Proof.
  unfold decode, parse_address_bytes, parse_address, mbind, res_bind. repeat (case_match; simplify_eq; try done).
Qed.

(** ** What is delivered *)

(** A fragment of the packet for [T] whose pieces are [cs]. *)
Definition part_of (T : Target) (cs : list bytes) (part : Fragment) : Prop :=
  f_target part = T /\ count part = len cs /\ zget cs (index part) = Some (f_payload part).

(** A pending packet that holds only pieces of that packet. *)
Definition agrees (T : Target) (cs : list bytes) (p : Pending) : Prop :=
  p_target p = T /\ len (parts p) = len cs /\
  forall i b, parts p !! i = Some (Some b) -> cs !! i = Some b.

Lemma zget_lookup {B} (l : list B) i x : zget l i = Some x -> l !! Z.to_nat i = Some x.
Proof. unfold zget. by case_bool. Qed.

Lemma agrees_fill T cs p part :
  agrees T cs p -> part_of T cs part -> agrees T cs (fill (Z.to_nat (index part)) (f_payload part) p).
Proof.
  intros (Ht & Hl & Hg) (_ & _ & Hx). split_and!; cbn [fill p_target parts]; [done|by rewrite len_insert|].
  intros i b Hi. apply list_lookup_insert_Some in Hi as [(<- & Hb & _)|[_ ?]]; [|by apply Hg].
  injection Hb as <-. by apply zget_lookup.
Qed.

Lemma agrees_complete T cs p bs : agrees T cs p -> mapM Datatypes.id (parts p) = Some bs -> bs = cs.
Proof.
  intros (_ & Hl & Hg) Hm. apply mapM_Some in Hm. apply list_eq_same_length with (n := length cs); [done| |].
  - apply Forall2_length in Hm. unfold len in Hl. lia.
  - intros i x y Hi Hx Hy. destruct (Forall2_lookup_r _ _ _ _ _ Hm Hx) as (o & Ho & Hid).
    unfold Datatypes.id in Hid. subst o. apply Hg in Ho. congruence.
Qed.

Lemma agrees_fresh T cs n now : n = len cs -> agrees T cs (mkPending T (replicate (Z.to_nat n) None) 0 0 now).
Proof.
  intros ->. split_and!; cbn [p_target parts]; [done|unfold len; rewrite length_replicate; lia|].
  by intros i b [[=] _]%lookup_replicate.
Qed.

Lemma receive_agrees T cs K now part r :
  Inv r -> part_ok part ->
  (forall p, pending r !! K = Some p -> agrees T cs p) ->
  (key_of part = K -> part_of T cs part) ->
  let '(r', out) := receive now part r in
  (forall p, pending r' !! K = Some p -> agrees T cs p) /\
  (key_of part = K -> forall v, out = Ok (Some v) -> v = (fst K, mkPacket T (mjoin cs))).
Proof.
  intros Hr Hok Hag Hpart.
  destruct (receive_spec now part r Hr Hok) as [r1 _ Hsub Hc|r1 _ Hsub|r2 p out _ Hsub Hc _ Hp Ht Hl _ Hout _].
  - split; [intros q Hq; eapply Hag, lookup_weaken; done|].
    intros Hk v [= <-]. destruct (Hpart Hk) as (<- & Hcs & Hx). subst K. cbn [fst key_of]. repeat f_equal.
    assert (Hone : cs = [f_payload part]); [|rewrite Hone; simpl; by rewrite app_nil_r].
    apply zget_Some_range in Hx as Hi. rewrite <- Hcs, Hc in Hi. replace (index part) with 0 in Hx by lia.
    destruct cs as [|c [|c' cs]]; [done| |rewrite !len_cons in Hcs; pose proof (len_nonneg cs); lia].
    by injection Hx as ->.
  - split; [intros q Hq; eapply Hag, lookup_weaken; done|done].
  - assert (Hag3 : forall q, pending (ensure_slot now part r2) !! K = Some q -> agrees T cs q).
    { unfold ensure_slot. destruct (pending r2 !! key_of part) eqn:He.
      - intros q Hq. eapply Hag, lookup_weaken; done.
      - cbn [pending]. intros q [[Hk <-]|[_ Hq]]%lookup_insert_Some; [|eapply Hag, lookup_weaken; done].
        destruct (Hpart Hk) as (<- & Hcs & _). by apply agrees_fresh. }
    destruct Hout as [b Hx|Hx Hm|p' Hx -> Hm Hq|bs Hx Hm Hbs].
    + done.
    + split; [|done]. intros q. unfold remove. rewrite Hp. cbn [fst pending]. intros [_ ?]%lookup_delete_Some. auto.
    + split; [|done]. cbn [pending]. intros q [[Hk <-]|[_ ?]]%lookup_insert_Some; [|auto]. subst K.
      apply agrees_fill; auto.
    + split.
      * intros q. unfold remove. rewrite Hp. cbn [fst pending]. intros [_ ?]%lookup_delete_Some. auto.
      * intros Hk v [= <-]. subst K. specialize (Hpart eq_refl). specialize (Hag3 p Hp).
        pose proof (agrees_fill _ _ _ _ Hag3 Hpart) as Hf.
        rewrite (agrees_complete _ _ _ _ Hf Hbs). destruct Hag3 as (-> & _). done.
Qed.

(** ** A packet whose fragments arrive *)

(** Entries that are still fresh survive expiry; the totals only shrink. *)
Lemma remove_shrinks k r : Inv r -> buffered (fst (remove k r)) <= buffered r.
Proof.
  intros Hr. unfold remove. destruct (pending r !! k) as [p|] eqn:Hp; simpl; [|lia].
  pose proof (po_bytes _ (inv_pending _ Hr _ _ Hp)). pose proof (stored_nonneg (parts p)). lia.
Qed.

Lemma expire_loop_keeps fuel now r K p :
  Inv r -> pending r !! K = Some p -> sat_sub now (created p) < RETENTION ->
  pending (expire_loop fuel now r) !! K = Some p.
Proof.
  revert r. induction fuel as [|fuel IH]; intros r Hr Hp Hf; [done|]. simpl.
  destruct (order r) as [|k l] eqn:Ho; [done|]. case_bool; [done|].
  apply IH; [by apply remove_inv| |done]. destruct (remove_spec k r Hr) as (_ & -> & _).
  rewrite lookup_delete_ne; [done|]. intros ->. rewrite Hp in *. zify_bool. lia.
Qed.

Lemma expire_loop_shrinks fuel now r : Inv r -> buffered (expire_loop fuel now r) <= buffered r.
Proof.
  revert r. induction fuel as [|fuel IH]; intros r Hr; [simpl; lia|]. simpl.
  destruct (order r) as [|k l] eqn:Ho; [lia|]. case_bool; [lia|].
  pose proof (remove_shrinks k r Hr). pose proof (IH _ (remove_inv k r Hr)). lia.
Qed.

Lemma expire_loop_none fuel now r K : Inv r -> pending r !! K = None -> pending (expire_loop fuel now r) !! K = None.
Proof.
  revert r. induction fuel as [|fuel IH]; intros r Hr Hp; [done|]. simpl.
  destruct (order r) as [|k l]; [done|]. case_bool; [done|].
  apply IH; [by apply remove_inv|]. destruct (remove_spec k r Hr) as (_ & -> & _). by apply lookup_delete_None; right.
Qed.

Section arrival.
Context (T : Target) (cs : list bytes) (K : key) (t0 : Z).
Hypothesis pieces : 2 <= len cs <= 255.
Hypothesis small : lsum len cs <= MAX_PAYLOAD.

(** The pieces [seen] are there, and the buffer has room for the rest of the packet and for one more
    copy of any piece: a duplicate counts as new bytes when it is admitted. *)
Record arriving (seen : list nat) (r : Reassembly) : Prop := {
  arr_inv : Inv r;
  arr_slot :
    match pending r !! K with
    | None => seen = [] /\ Z.of_nat (size (pending r)) < MAX_PENDING /\ buffered r + 2 * lsum len cs <= MAX_BUFFERED
    | Some p =>
        agrees T cs p /\ t0 <= created p /\
        (forall i, i ∈ seen <-> exists b, parts p !! i = Some (Some b)) /\
        buffered r + (2 * lsum len cs - p_bytes p) <= MAX_BUFFERED
    end;
}.

Lemma stored_agrees p : agrees T cs p -> stored (parts p) <= lsum len cs.
Proof using.
  intros (_ & Hl & Hg). revert Hl Hg. generalize (parts p) cs. clear.
  induction l as [|o l IH]; intros [|c cs] Hl Hg; try done. rewrite !len_cons in Hl.
  assert (Hs : stored l <= lsum len cs) by (apply IH; [lia|intros i; apply (Hg (S i))]).
  unfold stored in *. simpl. destruct o as [b|]; simpl.
  - specialize (Hg 0%nat b eq_refl). injection Hg as ->. lia.
  - pose proof (len_nonneg c). lia.
Qed.

Lemma filled_full l : (forall i, (i < length l)%nat -> exists b, l !! i = Some (Some b)) -> filled l = len l.
Proof using.
  clear. induction l as [|o l IH]; intros Hl; [done|]. rewrite filled_cons, len_cons.
  destruct (Hl 0%nat) as [b [= ->]]; [simpl; lia|]. simpl. rewrite IH; [lia|].
  intros i Hi. apply (Hl (S i)). simpl. lia.
Qed.

(** Expiry, the consistency check and eviction leave the packet alone. *)
Lemma arriving_expire seen now r :
  arriving seen r -> t0 <= now < t0 + RETENTION ->
  arriving seen (expire_loop (S (length (order r))) now r).
Proof using.
  intros [Hr Hs] Hnow. destruct (expire_loop_spec (S (length (order r))) now r Hr ltac:(lia)) as (Hr1 & Hsub & _).
  pose proof (expire_loop_shrinks (S (length (order r))) now r Hr). set (r1 := expire_loop _ _ _) in *.
  constructor; [done|]. destruct (pending r !! K) as [p|] eqn:Hp.
  - destruct Hs as (? & ? & ? & ?).
    assert (pending r1 !! K = Some p) as -> by (apply expire_loop_keeps; [done..|word_lia]). split_and!; try done. lia.
  - destruct (pending r1 !! K) as [q|] eqn:Hq; [by rewrite (lookup_weaken _ _ _ _ Hq Hsub) in Hp|].
    pose proof (map_subseteq_size _ _ Hsub). split_and!; [apply Hs|lia..].
Qed.

Lemma piece_le i c : cs !! i = Some c -> len c <= lsum len cs.
Proof using.
  clear. revert i. induction cs as [|d ds IH]; intros [|i] Hi; simplify_eq/=.
  - pose proof (lsum_nonneg len ds ltac:(intros; apply len_nonneg)). lia.
  - pose proof (IH i Hi). pose proof (len_nonneg d). lia.
Qed.

Lemma arriving_room seen r part :
  arriving seen r -> part_of T cs part -> over K (len (f_payload part)) r = false.
Proof using.
  clear pieces small. intros [Hr Hs] (_ & _ & Hx%zget_lookup). apply piece_le in Hx. unfold over. apply orb_false_iff.
  destruct (pending r !! K) as [p|] eqn:Hp.
  - rewrite bool_decide_false by done. split; [|done]. apply Z.ltb_ge.
    destruct Hs as (Hag & _ & _ & Hb). pose proof (po_bytes _ (inv_pending _ Hr _ _ Hp)).
    pose proof (stored_agrees p Hag). lia.
  - destruct Hs as (_ & Hsz & Hb). rewrite bool_decide_true by done. pose proof (len_nonneg (f_payload part)).
    split; [apply Z.ltb_ge; lia|simpl; apply Z.leb_gt; lia].
Qed.

Lemma arriving_consistent seen r part :
  arriving seen r -> part_of T cs part -> key_of part = K -> inconsistent part r = false.
Proof using.
  clear pieces small. intros [Hr Hs] (Ht & Hc & _) Hk. unfold inconsistent. rewrite Hk.
  destruct (pending r !! K) as [p|] eqn:Hp; [|done]. destruct Hs as ((Hpt & Hl & _) & _).
  rewrite bool_decide_true by congruence. rewrite Hl, Hc, Z.eqb_refl. done.
Qed.

(** Once the entry is made sure of, it holds exactly the pieces [seen]. *)
Lemma arriving_slot seen now r part :
  arriving seen r -> part_of T cs part -> part_ok part -> count part <> 1 -> key_of part = K -> t0 <= now ->
  let r' := ensure_slot now part r in
  Inv r' /\ exists p, pending r' !! K = Some p /\ agrees T cs p /\ t0 <= created p /\
    (forall i, i ∈ seen <-> exists b, parts p !! i = Some (Some b)) /\
    buffered r' + (2 * lsum len cs - p_bytes p) <= MAX_BUFFERED.
Proof using.
  clear pieces small. intros Ha Hpart Hok Hc Hk Hnow. pose proof Ha as [Hr Hs].
  pose proof (arriving_room _ _ _ Ha Hpart) as Hov. rewrite <- Hk in Hov.
  destruct (ensure_slot_spec now part _ r Hr Hok Hc Hov (arriving_consistent _ _ _ Ha Hpart Hk)) as (Hr' & _ & _).
  split; [done|]. unfold ensure_slot in *. rewrite Hk in *. destruct (pending r !! K) as [p|] eqn:Hp.
  - exists p. by split.
  - destruct Hs as (-> & _ & Hb). destruct Hpart as (Ht & Hcs & _). eexists. cbn [pending buffered].
    rewrite lookup_insert_eq. split; [done|]. split_and!; cbn [created parts p_bytes]; [|done| |lia].
    + rewrite Ht. by apply agrees_fresh.
    + intros i. split; [set_solver|]. by intros [b [[=] _]%lookup_replicate].
Qed.

Lemma agrees_full p : agrees T cs p -> (forall i, (i < length cs)%nat -> exists b, parts p !! i = Some (Some b)) ->
  filled (parts p) = len (parts p).
Proof using.
  clear. intros (_ & Hl & _) Hf. apply filled_full. intros i Hi. apply Hf. unfold len in Hl. lia.
Qed.

Lemma fill_seen p i b j :
  (i < length (parts p))%nat ->
  (exists x, parts (fill i b p) !! j = Some (Some x)) <-> j = i \/ exists x, parts p !! j = Some (Some x).
Proof using.
  clear. intros Hi. cbn [fill parts]. destruct (decide (j = i)) as [->|Hne].
  - rewrite list_lookup_insert_eq by done. naive_solver.
  - rewrite list_lookup_insert_ne by done. naive_solver.
Qed.

Lemma open_slot l : filled l < len l -> exists j, (j < length l)%nat /\ l !! j = Some None.
Proof using.
  clear. induction l as [|[b|] l IH]; intros Hl; [done| |exists 0%nat; simpl; split; [lia|done]].
  rewrite filled_cons, len_cons in Hl. destruct IH as (j & Hj & ?); [simpl in Hl; lia|].
  exists (S j). simpl. split; [lia|done].
Qed.

Lemma arriving_recorded seen r p :
  Inv r -> pending r !! K = Some p -> agrees T cs p -> t0 <= created p ->
  (forall i, i ∈ seen <-> exists b, parts p !! i = Some (Some b)) ->
  buffered r + (2 * lsum len cs - p_bytes p) <= MAX_BUFFERED ->
  arriving seen r /\ exists j, (j < length cs)%nat /\ j ∉ seen.
Proof using.
  clear pieces small. intros Hr Hp Hag Hc Hseen Hb. split.
  - constructor; [done|]. by rewrite Hp.
  - destruct (inv_pending _ Hr _ _ Hp) as [_ Hrec _ Ho _]. destruct (open_slot (parts p)) as (j & Hj & Hn); [lia|].
    exists j. destruct Hag as (_ & Hl & _). split; [unfold len in Hl; lia|]. rewrite Hseen. naive_solver.
Qed.

(** One fragment of the packet: it is recorded, or it completes the packet. *)
Lemma arriving_step seen now r part :
  arriving seen r -> part_of T cs part -> key_of part = K -> t0 <= now < t0 + RETENTION ->
  let '(r', out) := receive now part r in
  ((out = Ok None /\ arriving (Z.to_nat (index part) :: seen) r' /\
    exists j, (j < length cs)%nat /\ j ∉ Z.to_nat (index part) :: seen) \/
   (out = Ok (Some (session part, mkPacket T (mjoin cs))) /\ pending r' !! K = None /\ Inv r' /\
    forall j, (j < length cs)%nat -> j ∈ Z.to_nat (index part) :: seen)).
Proof using pieces small.
  intros Ha Hpart Hk Hnow. pose proof Hpart as (Ht & Hcs & Hx).
  assert (Hok : part_ok part).
  { apply zget_Some_range in Hx as Hi. apply zget_lookup in Hx. pose proof (piece_le _ _ Hx).
    split_and!; [lia..|right; lia|lia]. }
  assert (Hc : count part <> 1) by lia. unfold receive.
  pose proof (arriving_expire seen now r Ha Hnow) as Ha1. set (r1 := expire_loop _ _ _) in *.
  rewrite (proj2 (Z.eqb_neq _ _) Hc), (arriving_consistent _ _ _ Ha1 Hpart Hk).
  cbn [evict_loop]. rewrite Hk, (arriving_room _ _ _ Ha1 Hpart).
  destruct (arriving_slot seen now r1 part Ha1 Hpart Hok Hc Hk ltac:(lia)) as (Hr' & p & Hp & Hag & Hcr & Hseen & Hb).
  set (r2 := ensure_slot now part r1) in *. pose proof (inv_pending _ Hr' _ _ Hp) as Hpok.
  assert (Hlen : length (parts p) = length cs) by (destruct Hag as (_ & Hl & _); unfold len in Hl; lia).
  pose proof (zget_Some_range _ _ _ Hx) as Hi. assert (Hir : (Z.to_nat (index part) < length (parts p))%nat) by (unfold len in Hi; lia).
  assert (Hbuf : buffered r2 + len (f_payload part) <= MAX_BUFFERED).
  { apply zget_lookup in Hx. pose proof (piece_le _ _ Hx). pose proof (stored_agrees p Hag). pose proof (po_bytes _ Hpok). lia. }
  assert (Hkp : pending r2 !! key_of part = Some p) by (by rewrite Hk).
  assert (Hout : part_outcome part r2 p (insert_part part r2))
    by (apply insert_part_outcome; [done..|unfold len; unfold len in Hi; lia]).
  pose proof (part_outcome_inv _ _ _ _ Hr' Hkp Hbuf Hout) as Hinv.
  pose proof (agrees_fill T cs p part Hag Hpart) as Hagf. pose proof (stored_agrees _ Hagf) as Hstf.
  destruct Hout as [b Hs|Hs Hm|p' Hs -> Hm Hq|bs Hs Hm Hbs]; simpl in Hinv.
  - left. split; [done|]. apply (arriving_recorded _ r2 p); try done. intros i. rewrite elem_of_cons, Hseen. naive_solver.
  - cbn [fill parts] in Hstf. rewrite stored_insert in Hstf by done. pose proof (po_bytes _ Hpok). lia.
  - left. split; [done|]. apply (arriving_recorded _ _ (fill (Z.to_nat (index part)) (f_payload part) p)); try done.
    + cbn [pending]. by rewrite Hk, lookup_insert_eq.
    + intros i. rewrite elem_of_cons, Hseen, fill_seen by done. done.
    + cbn [buffered fill p_bytes]. lia.
  - right. pose proof (agrees_complete _ _ _ _ Hagf Hbs) as ->. destruct Hag as (<- & _). split_and!; [done| |done|].
    + rewrite Hk. by apply remove_gone.
    + intros j Hj. rewrite elem_of_cons, Hseen, <- (fill_seen p _ (f_payload part)) by done.
      apply mapM_Some in Hbs. destruct (lookup_lt_is_Some_2 cs j Hj) as [c Hcj].
      destruct (Forall2_lookup_r _ _ _ _ _ Hbs Hcj) as (o & Ho & Hid). exists c. cbn [fill parts].
      unfold Datatypes.id in Hid. by rewrite Ho, Hid.
Qed.

(** Every fragment but the last missing one is recorded; that one completes the packet. *)
Lemma arriving_all `{VarInt.VarIntCodec} (frame : nat -> bytes) (part : nat -> Fragment) l seen r now i0 :
  (forall i, (i < length cs)%nat ->
    decode (frame i) = Ok (part i) /\ part_of T cs (part i) /\ key_of (part i) = K /\ Z.to_nat (index (part i)) = i) ->
  arriving seen r ->
  Forall (fun d => t0 <= fst d < t0 + RETENTION /\ (snd d < length cs)%nat) (l ++ [(now, i0)]) ->
  i0 ∉ seen ++ l.*2 ->
  (forall j, (j < length cs)%nat -> j = i0 \/ j ∈ seen ++ l.*2) ->
  let '(r', outs) := datagrams ((fun d => (fst d, frame (snd d))) <$> (l ++ [(now, i0)])) r in
  outs = replicate (length l) (Ok None) ++ [Ok (Some (fst K, mkPacket T (mjoin cs)))] /\
  pending r' !! K = None /\ Inv r'.
Proof using pieces small.
  intros Hframe. revert seen r. induction l as [|[t i] l IH]; intros seen r Ha Hl Hi0 Hcov.
  - apply Forall_app in Hl as [_ [[Ht Hi] _]%Forall_cons]. cbn [fst snd] in *.
    destruct (Hframe i0 Hi) as (Hd & Hpart & Hk & Hidx). simpl. rewrite Hd.
    pose proof (arriving_step seen now r (part i0) Ha Hpart Hk Ht) as Hs.
    destruct (receive now (part i0) r) as [r' out]. rewrite Hidx in Hs.
    destruct Hs as [(_ & _ & j & Hj & Hn)|(-> & ? & ? & _)].
    + destruct Hn. destruct (Hcov j Hj) as [->|Hin]; [set_solver|]. rewrite app_nil_r in Hin. set_solver.
    + split_and!; [|done..]. simpl. do 3 f_equal. by rewrite <- Hk.
  - apply Forall_cons in Hl as [[Ht Hi] Hl]. cbn [fst snd] in *.
    destruct (Hframe i Hi) as (Hd & Hpart & Hk & Hidx). simpl. rewrite Hd.
    pose proof (arriving_step seen t r (part i) Ha Hpart Hk Ht) as Hs.
    destruct (receive t (part i) r) as [r' out]. rewrite Hidx in Hs.
    destruct Hs as [(-> & Ha' & _)|(_ & _ & _ & Hall)].
    + specialize (IH (i :: seen) r' Ha' Hl). destruct (datagrams _ r') as [r'' outs].
      destruct IH as (-> & ? & ?); [set_solver|intros j Hj; specialize (Hcov j Hj); set_solver|].
      split_and!; done.
    + destruct Hi0. apply Forall_app in Hl as [_ [[_ Hi'] _]%Forall_cons]. specialize (Hall i0 Hi'). set_solver.
Qed.
End arrival.



(** ** Round trips *)

(** The target the receiver sees: the text of a domain that is a socket address is read as one. *)
Definition wire_target (t : Target) : Target :=
  match t with
  | Ip _ _ => t
  | Domain name port =>
      match socket_parse (domain_text name port) with Some (a, p) => Ip a p | None => t end
  end.

(** A value of the [Target] type: an address and a port of their widths, a [String]. *)
Definition target_ok (t : Target) : Prop :=
  0 <= target_port t <= 65535 /\
  match t with Ip a _ => address_ok a | Domain name _ => utf8 name = true end.

Lemma address_len t text : address t = Ok text -> len text <= MAX_ADDRESS.
Proof.
  unfold address. destruct t as [name port|a port]; cbn [mbind res_bind]; [destruct (name_ok name); [|done]|];
    cbn [mbind res_bind]; destruct (_ <=? MAX_ADDRESS) eqn:Hl; zify_bool; intros [= <-]; done.
Qed.

Lemma domain_text_split name port :
  0 <= port <= 65535 -> rsplit_once COLON (domain_text name port) = Some (name, print_u16 port).
Proof.
  intros Hp. apply rsplit_once_app. intros Hin. destruct (print_u16_chars port Hp) as [Hc _].
  rewrite Forall_forall in Hc. specialize (Hc COLON Hin). unfold COLON in Hc. lia.
Qed.

Lemma domain_text_utf8 name port :
  0 <= port <= 65535 -> utf8 name = true -> utf8 (domain_text name port) = true.
Proof.
  intros Hp Hn. apply utf8_app; [done|]. apply utf8_ascii. constructor; [done|].
  destruct (print_u16_chars port Hp) as [Hc _]. eapply Forall_impl; [exact Hc|]. simpl. lia.
Qed.

Lemma parse_address_address t text :
  target_ok t -> address t = Ok text -> parse_address_bytes text = Ok (wire_target t).
Proof.
  intros [Hport Hok] Ha. pose proof (address_len t text Ha) as Hl. unfold address in Ha.
  unfold parse_address_bytes, parse_address. rewrite (proj2 (Z.leb_le _ _) Hl). cbn [negb].
  destruct t as [name port|a port]; cbn [mbind res_bind target_port] in *.
  - destruct (name_ok name) eqn:Hn; [|done]. cbn [mbind res_bind] in Ha.
    destruct (_ <=? MAX_ADDRESS); [|done]. injection Ha as <-. rewrite domain_text_utf8 by done. cbn [wire_target].
    destruct (socket_parse _) as [[a p]|]; [done|]. rewrite domain_text_split, Hn, parse_print_u16 by done. done.
  - destruct (_ <=? MAX_ADDRESS); [|done]. injection Ha as <-.
    rewrite socket_print_utf8, socket_parse_print by done. done.
Qed.

(** The pieces of a payload are the payload. *)
Lemma chunk_step c payload i :
  0 <= i -> 0 < c -> ztake (i * c) payload ++ chunk c payload i = ztake ((i + 1) * c) payload.
Proof.
  intros Hi Hc. unfold chunk, slice. rewrite Z.mul_add_distr_r, Z.mul_1_l, <- ztake_add by nia. f_equal.
  destruct (decide (i * c + c <= len payload)).
  - f_equal. lia.
  - assert (0 <= i * c) by nia. destruct (decide (i * c <= len payload)).
    + rewrite !ztake_ge; [done|rewrite len_zdrop by done; lia..].
    + rewrite zdrop_ge by lia. unfold ztake. by rewrite !take_nil.
Qed.

Lemma chunks_join c payload n :
  0 < c -> mjoin (chunk c payload <$> seqZ 0 (Z.of_nat n)) = ztake (Z.of_nat n * c) payload.
Proof.
  intros Hc. induction n as [|n IH]; [done|].
  replace (Z.of_nat (S n)) with (Z.of_nat n + 1) by lia.
  rewrite seqZ_app, fmap_app, join_app, IH by lia.
  change (seqZ (0 + Z.of_nat n) 1) with [0 + (0 + Z.of_nat n)]. rewrite !Z.add_0_l.
  etransitivity; [|apply chunk_step; lia]. simpl. by rewrite app_nil_r.
Qed.

Lemma fragment_count_covers n c : 0 <= n -> 0 < c -> 1 <= fragment_count n c /\ n <= fragment_count n c * c.
Proof.
  intros Hn Hc. unfold fragment_count. split; [lia|].
  pose proof (Z.div_mod (n + c - 1) c ltac:(lia)). pose proof (Z.mod_pos_bound (n + c - 1) c Hc). nia.
Qed.

Lemma lsum_len_join (l : list bytes) : lsum len l = len (mjoin l).
Proof. induction l as [|b l IH]; [done|]. simpl. rewrite len_app. lia. Qed.

Section traces.
Context `{VarInt.VarIntCodec}.

(** One datagram and the rest. *)
Lemma datagrams_inv l r :
  Inv r -> Forall (fun d => Forall is_byte (snd d)) l -> Inv (fst (datagrams l r)).
Proof.
  intros Hr Hl. revert r Hr. induction Hl as [|[now b] l Hb Hl IH]; intros r Hr; [done|]. simpl.
  destruct (decode b) as [part|e] eqn:Hd; simpl.
  - pose proof (receive_inv now part r Hr (decode_part_ok _ _ Hb Hd)) as Hr'.
    destruct (receive now part r) as [r' out]. specialize (IH r' Hr'). by destruct (datagrams l r').
  - specialize (IH r Hr). by destruct (datagrams l r).
Qed.

(** What one call may return: never a panic, never an oversized packet. *)
Definition sound_output (out : Res (option (Z * Packet))) : Prop :=
  match out with
  | Ok (Some (_, v)) => len (payload v) <= MAX_PAYLOAD
  | Ok None => True
  | Err e => e <> Panicked
  end.

Lemma mapM_stored l bs : mapM Datatypes.id l = Some bs -> len (mjoin bs) = stored l.
Proof.
  intros Hm%mapM_Some. induction Hm as [|o b l bs Hb Hm IH]; [done|].
  unfold Datatypes.id in Hb. subst o. unfold stored in *. simpl. rewrite len_app. lia.
Qed.

Lemma receive_sound now part r : Inv r -> part_ok part -> sound_output (snd (receive now part r)).
Proof.
  intros Hr Hok. destruct (receive_spec now part r Hr Hok) as [r1 _ _ _|r1 _ _|r2 p out _ _ _ _ Hp _ _ Hr3 Hout _].
  - apply Hok.
  - done.
  - destruct Hout as [b Hx|Hx Hm|p' Hx -> Hm Hq|bs Hx Hm Hbs]; simpl; try done.
    rewrite (mapM_stored _ _ Hbs), stored_insert by done. pose proof (po_bytes _ (inv_pending _ Hr3 _ _ Hp)). lia.
Qed.

Lemma datagrams_sound l r :
  Inv r -> Forall (fun d => Forall is_byte (snd d)) l -> Forall sound_output (snd (datagrams l r)).
Proof.
  intros Hr Hl. revert r Hr. induction Hl as [|[now b] l Hb Hl IH]; intros r Hr; [by constructor|]. simpl.
  destruct (decode b) as [part|e] eqn:Hd; simpl.
  - pose proof (decode_part_ok _ _ Hb Hd) as Hok. pose proof (receive_inv now part r Hr Hok) as Hr'.
    pose proof (receive_sound now part r Hr Hok). destruct (receive now part r) as [r' out].
    specialize (IH r' Hr'). destruct (datagrams l r'). by constructor.
  - specialize (IH r Hr). destruct (datagrams l r). constructor; [|done]. simpl. intros ->.
    by apply decode_no_panic in Hd.
Qed.

Lemma datagrams_agree T cs K l r :
  Inv r -> Forall (fun d => Forall is_byte (snd d)) l ->
  (forall p, pending r !! K = Some p -> agrees T cs p) ->
  (forall d part, d ∈ l -> decode (snd d) = Ok part -> key_of part = K -> part_of T cs part) ->
  forall i d part v,
    l !! i = Some d -> decode (snd d) = Ok part -> key_of part = K ->
    snd (datagrams l r) !! i = Some (Ok (Some v)) -> v = (fst K, mkPacket T (mjoin cs)).
Proof.
  intros Hr Hl. revert r Hr. induction Hl as [|[now b] l Hb Hl IH]; intros r Hr Hag Hof i d part v Hi Hd Hk; [done|].
  assert (Hof' : forall d part, d ∈ l -> decode (snd d) = Ok part -> key_of part = K -> part_of T cs part)
    by (intros; eapply Hof; [by apply list_elem_of_further|..]; done).
  simpl. destruct (decode b) as [part'|e] eqn:Hdb.
  - pose proof (decode_part_ok _ _ Hb Hdb) as Hok. pose proof (receive_inv now part' r Hr Hok) as Hr'.
    pose proof (receive_agrees T cs K now part' r Hr Hok Hag (Hof (now, b) part' (list_elem_of_here _ _) Hdb)) as Hs.
    destruct (receive now part' r) as [r' out]. destruct Hs as [Hag' Hout].
    specialize (IH r' Hr' Hag' Hof'). destruct (datagrams l r') as [r'' outs]. destruct i as [|i]; simpl in *.
    + injection Hi as <-. simpl in Hd. rewrite Hdb in Hd. injection Hd as <-. intros [= ->]. by apply Hout.
    + by eapply IH.
  - specialize (IH r Hr Hag Hof'). destruct (datagrams l r) as [r'' outs]. destruct i as [|i]; simpl in *.
    + injection Hi as <-. simpl in Hd. congruence.
    + by eapply IH.
Qed.

Context `{!VarInt.VarIntLaws}.

Lemma put_varint_Ok out v out' :
  put_varint out v = Ok out' -> exists b, VarInt.encode v = Some b /\ out' = out ++ b.
Proof. unfold put_varint. destruct (VarInt.encode v) as [b|]; [|done]. intros [= <-]. eauto. Qed.

Lemma put_field_Ok out value out' :
  put_field out value = Ok out' ->
  exists b, VarInt.encode (len value) = Some b /\ out' = out ++ b ++ value.
Proof.
  unfold put_field. destruct (put_varint out (len value)) as [o|] eqn:Hv; [|done]. intros [= <-].
  apply put_varint_Ok in Hv as (b & ? & ->). exists b. by rewrite app_assoc.
Qed.

(** The header of a frame is read back. *)
Lemma decode_header s id i n field rest :
  0 <= s < 2 ^ 32 -> 0 <= id < 2 ^ 16 -> 0 <= i < n -> n <= 255 ->
  let b := header s id i n field ++ rest in
  be_get (slice 0 4 b) = s /\ be_get (slice 4 6 b) = id /\ be_get (slice 6 7 b) = i /\
  be_get (slice 7 8 b) = n /\ zdrop 8 b = field ++ rest /\ len b = 8 + len field + len rest.
Proof.
  intros Hs Hid Hi Hn b. assert (L4 : len (be_put 4 s) = 4) by apply len_be_put. assert (L2 : len (be_put 2 id) = 2) by apply len_be_put.
  assert (Hb : b = be_put 4 s ++ be_put 2 id ++ [i] ++ [n] ++ (field ++ rest)).
  { unfold b, header. rewrite !Z.mod_small by lia. by rewrite <- !app_assoc. }
  rewrite Hb. unfold slice. split_and!.
  - rewrite zdrop_0, ztake_app_exact by lia. by apply be_get_put.
  - rewrite zdrop_app_exact, ztake_app_exact by lia. by apply be_get_put.
  - rewrite app_assoc, zdrop_app_exact, ztake_app_exact by (rewrite ?len_app; done || lia). cbn. lia.
  - replace (be_put 4 s ++ _) with ((be_put 4 s ++ be_put 2 id ++ [i]) ++ [n] ++ field ++ rest) by (by rewrite <- !app_assoc).
    rewrite zdrop_app_exact by (rewrite !len_app, L4, L2; done). rewrite ztake_app_exact by done. cbn. lia.
  - replace (be_put 4 s ++ _) with ((be_put 4 s ++ be_put 2 id ++ [i; n]) ++ field ++ rest) by (by rewrite <- !app_assoc).
    rewrite zdrop_app_exact by (rewrite !len_app, L4, L2; done). done.
  - rewrite !len_app, L4, L2, !len_cons, !len_nil. lia.
Qed.

Lemma decode_frame s id i n t text field payload :
  0 <= s < 2 ^ 32 -> 0 <= id < 2 ^ 16 -> 0 <= i < n -> n <= 255 ->
  target_ok t -> address t = Ok text -> put_field [] text = Ok field -> len payload <= MAX_PAYLOAD ->
  decode (header s id i n field ++ payload) = Ok (mkFragment s id i n (wire_target t) payload).
Proof.
  intros Hs Hid Hi Hn Ht Ha Hf Hp.
  destruct (decode_header s id i n field payload Hs Hid Hi Hn) as (E1 & E2 & E3 & E4 & E5 & E6).
  apply put_field_Ok in Hf as (b & Hb & ->). cbn [app] in *.
  destruct (VarInt.encode_shape _ _ Hb) as (c & tl & -> & _). pose proof (address_len _ _ Ha).
  unfold decode. rewrite E1, E2, E3, E4, E5, E6. rewrite len_app, len_cons.
  pose proof (len_nonneg tl). pose proof (len_nonneg text). pose proof (len_nonneg payload).
  rewrite (proj2 (Z.ltb_ge _ 9)) by lia. rewrite (proj2 (Z.ltb_lt 0 n)), (proj2 (Z.ltb_lt i n)), orb_true_r by lia. cbn [andb negb].
  rewrite <- app_assoc, (VarInt.decode_encode _ _ _ Hb).
  rewrite (proj2 (Z.leb_le _ MAX_ADDRESS)), (proj2 (Z.leb_le _ (len (text ++ payload)))) by (rewrite ?len_app; lia). cbn [andb negb].
  rewrite ztake_app_exact, zdrop_app_exact, (parse_address_address t text) by done. cbn [mbind res_bind].
  by rewrite (proj2 (Z.leb_le _ MAX_PAYLOAD)).
Qed.

(** The frames of a packet, as the receiver decodes them. *)
Lemma fragments_decode s id v mtu frames :
  0 <= s < 2 ^ 32 -> 0 <= id < 2 ^ 16 -> target_ok (target v) -> fragments s id v mtu = Ok frames ->
  exists cs, mjoin cs = payload v /\ length cs = length frames /\ 1 <= len cs <= 255 /\
    len (payload v) <= MAX_PAYLOAD /\
    forall i, (i < length cs)%nat -> exists f c,
      frames !! i = Some f /\ cs !! i = Some c /\ len f <= mtu /\
      decode f = Ok (mkFragment s id (Z.of_nat i) (len cs) (wire_target (target v)) c).
Proof.
  intros Hs Hid Ht. unfold fragments. destruct (len (payload v) <=? MAX_PAYLOAD) eqn:Hp; zify_bool; [|done]. cbn [negb].
  destruct (address (target v)) as [text|] eqn:Ha; [|done]. cbn [mbind res_bind].
  destruct (put_field [] text) as [field|] eqn:Hf; [|done]. cbn [mbind res_bind].
  set (hl := len (header s id 0 1 field)). destruct (hl <? mtu) eqn:Hm; zify_bool; [|done]. cbn [negb].
  set (cap := mtu - hl). pose proof (len_nonneg (payload v)) as Hpn.
  destruct (fragment_count_covers (len (payload v)) cap Hpn ltac:(unfold cap; lia)) as [Hc1 Hcov].
  set (n := fragment_count _ cap) in *. destruct (n <=? 255) eqn:Hn; zify_bool; [|done]. cbn [negb]. intros [= <-].
  assert (Hlen : len (chunk cap (payload v) <$> seqZ 0 n) = n)
    by (unfold len; rewrite length_fmap, length_seqZ; lia).
  exists (chunk cap (payload v) <$> seqZ 0 n). split_and!; try lia.
  - rewrite <- (Z2Nat.id n) by lia. rewrite chunks_join by (unfold cap; lia). apply ztake_ge. lia.
  - by rewrite !length_fmap.
  - intros i Hi. rewrite length_fmap, length_seqZ in Hi.
    assert (Hq : seqZ 0 n !! i = Some (Z.of_nat i)) by (apply lookup_seqZ; lia).
    exists (header s id (Z.of_nat i) n field ++ chunk cap (payload v) (Z.of_nat i)), (chunk cap (payload v) (Z.of_nat i)).
    rewrite !list_lookup_fmap, Hq. split_and!; [done|done| |].
    + assert (Hh : len (header s id (Z.of_nat i) n field) = hl) by (unfold hl, header; rewrite !len_app; done).
      assert (Hck : len (chunk cap (payload v) (Z.of_nat i)) <= cap).
      { unfold chunk, slice, ztake, len. rewrite length_take. unfold cap. lia. }
      rewrite len_app, Hh. assert (cap = mtu - hl) by done. lia.
    + rewrite Hlen. eapply decode_frame; try done; [lia|].
      assert (Hsub : forall a b, len (slice a b (payload v)) <= len (payload v)).
      { intros a b. unfold slice, ztake, zdrop, len. rewrite length_take, length_drop. lia. }
      unfold chunk. specialize (Hsub (Z.of_nat i * cap) (Z.min (Z.of_nat i * cap + cap) (len (payload v)))). lia.
Qed.

(** C10. A packet that was cut into fragments arrives whole, on a connection with room for it.  Let the
    reassembly, after any datagrams, hold nothing under the packet's session and id, fewer than 64
    unfinished packets, and so few bytes that twice the payload still fits in 256 KiB; and let all the
    packet's frames then come within ten seconds, with no other datagram between them, in any order and
    each but the last missing one any number of times.  Then every frame is within the path's datagram
    size, every call before the last missing frame returns nothing, and that frame returns the session,
    the payload and the target as the wire carries it (a name that is an address's text comes back as
    the address). *)
Theorem fragments_reassemble s id v mtu frames t0 l now i0 pre :
  0 <= s < 2 ^ 32 -> 0 <= id < 2 ^ 16 -> target_ok (target v) -> fragments s id v mtu = Ok frames ->
  (* the state of a connection with room for the packet *)
  Forall (fun d => Forall is_byte (snd d)) pre ->
  let r := fst (datagrams pre empty) in
  pending r !! (s, id) = None -> Z.of_nat (size (pending r)) < MAX_PENDING ->
  buffered r + 2 * len (payload v) <= MAX_BUFFERED ->
  (* the frames arrive within ten seconds, the last missing one at the end *)
  Forall (fun d => t0 <= fst d < t0 + RETENTION /\ (snd d < length frames)%nat) (l ++ [(now, i0)]) ->
  i0 ∉ l.*2 -> (forall j, (j < length frames)%nat -> j = i0 \/ j ∈ l.*2) ->
  let run := datagrams ((fun d => (fst d, default [] (frames !! snd d))) <$> (l ++ [(now, i0)])) r in
  snd run = replicate (length l) (Ok None) ++ [Ok (Some (s, mkPacket (wire_target (target v)) (payload v)))] /\
  pending (fst run) !! (s, id) = None /\ Forall (fun f => len f <= mtu) frames.
Proof.
  intros Hs Hid Ht Hf Hpre r Hk Hsz Hb Hl Hi0 Hcov run. subst run.
  destruct (fragments_decode s id v mtu frames Hs Hid Ht Hf) as (cs & Hcs & Hlen & Hn & Hp & Hdec).
  assert (Hr : Inv r) by (apply datagrams_inv; [apply Inv_empty|done]).
  assert (Hsum : lsum len cs = len (payload v)) by (by rewrite lsum_len_join, Hcs).
  assert (Hmtu : Forall (fun f => len f <= mtu) frames).
  { apply Forall_lookup. intros i f Hif. apply lookup_lt_Some in Hif as Hlt.
    destruct (Hdec i) as (f' & c & Hf' & _ & ? & _); [lia|]. by simplify_eq. }
  rewrite <- Hlen in Hl, Hcov. set (part i := mkFragment s id (Z.of_nat i) (len cs) (wire_target (target v)) (default [] (cs !! i))).
  assert (Hframe : forall i, (i < length cs)%nat ->
    decode (default [] (frames !! i)) = Ok (part i) /\ part_of (wire_target (target v)) cs (part i) /\
    key_of (part i) = (s, id) /\ Z.to_nat (index (part i)) = i).
  { intros i Hi. destruct (Hdec i Hi) as (f & c & Hfi & Hci & _ & Hd). unfold part. rewrite Hfi, Hci. cbn [default].
    split_and!; [done| |done|cbn; lia]. split_and!; [done..|]. cbn [index f_payload]. unfold zget.
    rewrite (proj2 (Z.leb_le 0 _)) by lia. by rewrite Nat2Z.id. }
  destruct (decide (len cs = 1)) as [H1|H1].
  - assert (l = []) as ->.
    { destruct l as [|[t i] l]; [done|]. destruct Hi0. apply Forall_cons in Hl as [[_ Hi] Hl].
      apply Forall_app in Hl as [_ [[_ Hi'] _]%Forall_cons]. cbn in *. unfold len in H1.
      replace i with i0 by lia. set_solver. }
    apply Forall_cons in Hl as [[_ Hi] _]. destruct (Hframe i0 Hi) as (Hd & (_ & Hc & Hx) & Hkp & _). simpl. rewrite Hd.
    unfold receive. rewrite (proj2 (Z.eqb_eq _ 1)) by (cbn; lia). cbn [fst snd]. split_and!; [|by apply expire_loop_none|done].
    cbn [session part f_target f_payload app]. do 4 f_equal. rewrite <- Hcs.
    destruct cs as [|c [|c' cs]]; rewrite ?len_cons in H1; [done| |pose proof (len_nonneg cs); lia].
    cbn in Hi. replace i0 with 0%nat by lia. cbn. by rewrite app_nil_r.
  - pose proof (arriving_all (wire_target (target v)) cs (s, id) t0 ltac:(lia) ltac:(lia)
      (fun i => default [] (frames !! i)) part l [] r now i0 Hframe) as Hall.
    destruct (datagrams _ r) as [r' outs]. rewrite Hcs in Hall. destruct Hall as (-> & ? & _); try done.
    constructor; [done|]. rewrite Hk. split_and!; [done..|lia].
Qed.

Lemma read_varint_encode v b rest : VarInt.encode v = Some b -> read_varint (b ++ rest) = Ok (v, rest).
Proof.
  intros He. destruct (VarInt.encode_shape _ _ He) as (c & t & -> & _ & Hl). rewrite len_cons in Hl.
  pose proof (len_nonneg t). pose proof (len_nonneg rest). unfold read_varint, read_exact. rewrite <- app_comm_cons.
  rewrite (proj2 (Z.ltb_ge _ 1)) by len_lia. cbn [mbind res_bind].
  change (ztake 1 (c :: t ++ rest)) with [c]. change (zdrop 1 (c :: t ++ rest)) with (t ++ rest). change (default 0 (head [c])) with c.
  replace (2 ^ Z.shiftr c 6 - 1) with (len t) by lia. rewrite (proj2 (Z.ltb_ge _ (len t))) by len_lia. cbn [mbind res_bind].
  rewrite ztake_app_exact, zdrop_app_exact by done. cbn [app].
  pose proof (VarInt.decode_encode _ _ [] He) as Hd. rewrite app_nil_r in Hd. by rewrite Hd.
Qed.

Lemma read_field_put out value out' rest max :
  put_field out value = Ok out' -> len value <= max ->
  exists field, out' = out ++ field /\ read_field max (field ++ rest) = Ok (value, rest).
Proof.
  intros (b & He & ->)%put_field_Ok Hm. exists (b ++ value). split; [done|].
  unfold read_field. rewrite <- app_assoc, (read_varint_encode _ _ _ He). cbn [mbind res_bind].
  rewrite (proj2 (Z.leb_le _ max)) by done. unfold read_exact. rewrite (proj2 (Z.ltb_ge _ (len value))) by len_lia.
  by rewrite ztake_app_exact, zdrop_app_exact.
Qed.

(** The stream framing round trips: the request a client writes starts with the id that the
    stream classifier reads, [read_request] gives back its target and consumes exactly the request,
    and [read_response] accepts the response a server writes and consumes exactly it, whatever the
    random padding.  An IP target comes back as it is; a domain whose text reads as a socket
    address comes back as that address. *)
Theorem stream_framing_roundtrip t padding out rest :
  target_ok t -> len padding <= MAX_PADDING -> request padding t = Ok out ->
  (exists body, read_varint (out ++ rest) = Ok (TCP_REQUEST, body) /\ read_request body = Ok (wire_target t, rest)) /\
  (forall reply, response padding = Ok reply -> read_response (reply ++ rest) = Ok rest).
Proof.
  intros Ht Hp Hreq. split.
  - unfold request in Hreq. destruct (put_varint [] TCP_REQUEST) as [o|] eqn:H1; [|done]. cbn [mbind res_bind] in Hreq.
    destruct (address t) as [text|] eqn:Ha; [|done]. cbn [mbind res_bind] in Hreq.
    destruct (put_field o text) as [o2|] eqn:H2; [|done]. cbn [mbind res_bind] in Hreq.
    apply put_varint_Ok in H1 as (b & Hb & ->).
    destruct (read_field_put _ _ _ rest MAX_PADDING Hreq Hp) as (f2 & -> & Hf2).
    destruct (read_field_put _ _ _ (f2 ++ rest) MAX_ADDRESS H2 (address_len _ _ Ha)) as (f1 & -> & Hf1).
    exists (f1 ++ f2 ++ rest). cbn [app]. rewrite <- !app_assoc, (read_varint_encode _ _ _ Hb). split; [done|].
    unfold read_request. rewrite Hf1. cbn [mbind res_bind]. rewrite (parse_address_address t text) by done.
    cbn [mbind res_bind]. rewrite Hf2. done.
  - intros reply Hr. unfold response in Hr. destruct (put_field [0] []) as [o|] eqn:H1; [|done]. cbn [mbind res_bind] in Hr.
    destruct (read_field_put _ _ _ rest MAX_PADDING Hr Hp) as (f2 & -> & Hf2).
    destruct (read_field_put _ _ _ (f2 ++ rest) MAX_ADDRESS H1 ltac:(done)) as (f1 & -> & Hf1).
    rewrite <- !app_assoc. cbn [app]. unfold read_response, read_exact. rewrite (proj2 (Z.ltb_ge _ 1)) by len_lia.
    cbn [mbind res_bind]. change (ztake 1 (0 :: f1 ++ f2 ++ rest)) with [0].
    change (zdrop 1 (0 :: f1 ++ f2 ++ rest)) with (f1 ++ f2 ++ rest).
    rewrite Hf1. cbn [mbind res_bind]. rewrite Hf2. done.
Qed.

(** Whatever datagrams arrive, the reassembly stays bounded: at most 64 packets and 256 KiB
    are pending, the byte count is the sum over the pending packets, the eviction order lists
    exactly the pending packets once each, no call reaches one of the [expect]s, and no packet
    larger than the largest UDP payload is delivered. *)
Theorem hysteria_reassembly_bounded l :
  Forall (fun d => Forall is_byte (snd d)) l ->
  let '(r, outs) := datagrams l empty in
  Z.of_nat (size (pending r)) <= MAX_PENDING /\
  buffered r = msum p_bytes (pending r) /\ buffered r <= MAX_BUFFERED /\
  NoDup (order r) /\ (forall k, k ∈ order r <-> pending r !! k <> None) /\
  Forall sound_output outs.
Proof.
  intros Hl. pose proof (datagrams_inv l empty Inv_empty Hl) as Hr. pose proof (datagrams_sound l empty Inv_empty Hl).
  destruct (datagrams l empty) as [r outs]. cbn [fst snd] in *. destruct Hr. done.
Qed.

(** C24. A packet that is delivered is the packet that was sent: when every datagram that carries
    the session and packet id [K] is one of the pieces [cs] of a packet for [T], each datagram of
    [K] that completes anything delivers exactly that packet, whatever else arrives on the
    connection, in whatever order, with whatever expiry and eviction in between. *)
Theorem hysteria_delivers_sent_packet T cs K l i d part v :
  Forall (fun d => Forall is_byte (snd d)) l ->
  (forall d part, d ∈ l -> decode (snd d) = Ok part -> key_of part = K -> part_of T cs part) ->
  l !! i = Some d -> decode (snd d) = Ok part -> key_of part = K ->
  snd (datagrams l empty) !! i = Some (Ok (Some v)) -> v = (fst K, mkPacket T (mjoin cs)).
Proof.
  intros Hl Hof Hi Hd Hk Hout. eapply (datagrams_agree T cs K l empty Inv_empty Hl); try done.
Qed.

End traces.

(** ** Concrete runs *)

#[local] Existing Instance VarInt.rfc_varint.
#[local] Existing Instance VarInt.rfc_varint_laws.

Definition demo_target : Target := Domain [97; 46; 98] 53.
Definition demo_packet : Packet := mkPacket demo_target [1; 2; 3; 4; 5; 6; 7].
Definition demo_frames : list bytes :=
  match fragments 42 9 demo_packet 18 with Ok l => l | Err _ => [] end.
Definition demo_arrival : list (Z * nat) := [(5, 2%nat); (6, 0%nat); (7, 2%nat)].
Definition demo_request : bytes :=
  match request [80; 81] demo_target with Ok out => out | Err _ => [] end.
Definition demo_pieces : list bytes := [[1; 2; 3]; [4; 5; 6]; [7]].
Definition demo_datagrams : list (Z * bytes) :=
  (fun d => (fst d, default [] (demo_frames !! snd d))) <$> (demo_arrival ++ [(8, 1%nat)]).

Lemma demo_bytes : Forall (fun d => Forall is_byte (snd d)) demo_datagrams.
Proof. vm_compute. repeat first [constructor|done]. Qed.

Lemma fragments_reassemble_witness :
  snd (datagrams ((fun d => (fst d, default [] (demo_frames !! snd d))) <$> (demo_arrival ++ [(8, 1%nat)]))
         (fst (datagrams [] empty))) =
  replicate (length demo_arrival) (Ok None) ++
    [Ok (Some (42, mkPacket (wire_target (target demo_packet)) (payload demo_packet)))].
Proof.
  pose proof (fragments_reassemble 42 9 demo_packet 18 demo_frames 0 demo_arrival 8 1 []) as Hw.
  apply Hw; clear Hw.
  - lia.
  - lia.
  - by split; [cbn; lia|].
  - vm_compute. reflexivity.
  - constructor.
  - reflexivity.
  - reflexivity.
  - vm_compute. discriminate.
  - change (length demo_frames) with 3%nat. unfold RETENTION. repeat constructor; cbn; lia.
  - change (demo_arrival.*2) with [2; 0; 2]%nat. set_solver by lia.
  - change (length demo_frames) with 3%nat. change (demo_arrival.*2) with [2; 0; 2]%nat. intros j Hj.
    destruct j as [|[|[|j]]]; [right|left|right|lia]; set_solver.
Defined.

Lemma stream_framing_roundtrip_witness :
  exists body, read_varint (demo_request ++ [9; 9]) = Ok (TCP_REQUEST, body) /\
    read_request body = Ok (demo_target, [9; 9]).
Proof.
  apply (stream_framing_roundtrip demo_target [80; 81] demo_request [9; 9]).
  - by split; [cbn; lia|].
  - vm_compute. discriminate.
  - vm_compute. reflexivity.
Defined.

Lemma hysteria_reassembly_bounded_witness :
  Z.of_nat (size (pending (fst (datagrams demo_datagrams empty)))) <= MAX_PENDING.
Proof.
  pose proof (hysteria_reassembly_bounded demo_datagrams demo_bytes) as Hw.
  destruct (datagrams demo_datagrams empty). apply Hw.
Defined.

Lemma demo_parts :
  Forall (fun d => match decode (snd d) with Ok part => part_of demo_target demo_pieces part | Err _ => True end)
    demo_datagrams.
Proof.
  let l := eval vm_compute in demo_datagrams in replace demo_datagrams with l by (vm_compute; reflexivity).
  do 4 (apply Forall_cons; split; [vm_compute; by repeat constructor|]). by constructor.
Qed.

Lemma hysteria_delivers_sent_packet_witness :
  (42, mkPacket demo_target [1; 2; 3; 4; 5; 6; 7]) = (fst (42, 9), mkPacket demo_target (mjoin demo_pieces)).
Proof.
  apply (hysteria_delivers_sent_packet demo_target demo_pieces (42, 9) demo_datagrams 3
    (8, default [] (demo_frames !! 1%nat)) (mkFragment 42 9 1 3 demo_target [4; 5; 6])).
  - exact demo_bytes.
  - intros d part Hd Hdec _. pose proof (proj1 (Forall_forall _ _) demo_parts d Hd) as Hp. cbv beta in Hp. by rewrite Hdec in Hp.
  - reflexivity.
  - vm_compute. reflexivity.
  - reflexivity.
  - vm_compute. reflexivity.
Defined.

End HysteriaWire.
