(* ===== verification/Relay.v ===== *)
(** * Byte relay (crates/protocol/src/chunk.rs)

    The [Stream] interface with its default chunk methods, the [Prefix] stream that replays a
    handshake's read-ahead, and the relay that moves two streams into each other.  A stream is a
    class of poll functions over its own state; [StreamContract] states what the relay relies on,
    as the effect of each call on a log of the stream's history. *)

From S2P Require Import Prelude.

Module Relay.

(** ** The [Stream] trait *)

(** [Poll<io::Result<A>>] *)
Inductive poll (A : Type) := Pending | Ready (a : A).
Arguments Pending {A}.
Arguments Ready {A} a.

Inductive error := WriteZero | Other (code : Z).

Abbreviation io A := (poll (res error A)).

(** A read fills at most the given room; a chunk read also passes the relay's [ChunkBuffer], here
    whether it holds a lease.  A chunk write consumes the prefix it accepts. *)
Class Stream (S : Type) := {
  poll_read : Z -> S -> S * io bytes;
  poll_write : bytes -> S -> S * io Z;
  poll_flush : S -> S * io unit;
  poll_shutdown : S -> S * io unit;
  poll_direct : S -> S * io bool;
  poll_read_chunk : S -> bool -> S * bool * io bytes;
  poll_write_chunk : bytes -> S -> S * io Z;
  consume_chunk : Z -> S -> S;
}.

(** The room of a chunk lease. *)
Definition CHUNK_LEASE : Z := 65536.

(** The default [poll_read_chunk]: the lease is kept until a read gives bytes. *)
Definition default_read_chunk {S} (read : Z -> S -> S * io bytes) (s : S) (leased : bool) : S * bool * io bytes :=
  match read CHUNK_LEASE s with
  | (s, Pending) => (s, true, Pending)
  | (s, Ready (Err e)) => (s, true, Ready (Err e))
  | (s, Ready (Ok [])) => (s, false, Ready (Ok []))
  | (s, Ready (Ok b)) => (s, false, Ready (Ok b))
  end.

(** The default [poll_write_chunk]: [poll_write] and [advance]; the caller's chunk loses [n] bytes. *)
Definition default_write_chunk {S} (write : bytes -> S -> S * io Z) (chunk : bytes) (s : S) : S * io Z :=
  write chunk s.

(** ** Prefix *)

Record Prefix (S : Type) := mkPrefix { p_bytes : bytes; inner : S; prefix_read : bool }.
Arguments mkPrefix {S} p_bytes inner prefix_read.
Arguments p_bytes {S} _.
Arguments inner {S} _.
Arguments prefix_read {S} _.

Section prefix.
Context {S : Type} `{Stream S}.

Definition with_inner {A} (p : Prefix S) (r : S * A) : Prefix S * A :=
  (mkPrefix (p_bytes p) (fst r) (prefix_read p), snd r).

(** [<Prefix as AsyncRead>::poll_read] *)
Definition prefix_poll_read (room : Z) (p : Prefix S) : Prefix S * io bytes :=
  if negb (len (p_bytes p) =? 0) then
    let n := Z.min room (len (p_bytes p)) in
    (mkPrefix (zdrop n (p_bytes p)) (inner p) (prefix_read p), Ready (Ok (ztake n (p_bytes p))))
  else with_inner p (poll_read room (inner p)).

(** [<Prefix as Stream>::poll_direct] *)
Definition prefix_poll_direct (p : Prefix S) : Prefix S * io bool :=
  if len (p_bytes p) =? 0 then with_inner p (poll_direct (inner p)) else (p, Ready (Ok false)).

(** [<Prefix as Stream>::poll_read_chunk] *)
Definition prefix_read_chunk (p : Prefix S) (leased : bool) : Prefix S * bool * io bytes :=
  let first := negb (len (p_bytes p) =? 0) in
  if first then (mkPrefix [] (inner p) first, leased, Ready (Ok (p_bytes p)))
  else
    let '(s, leased, r) := poll_read_chunk (inner p) leased in
    (mkPrefix (p_bytes p) s first, leased, r).

(** [<Prefix as Stream>::consume_chunk] *)
Definition prefix_consume (n : Z) (p : Prefix S) : Prefix S :=
  if prefix_read p then p else mkPrefix (p_bytes p) (consume_chunk n (inner p)) (prefix_read p).

#[export] Instance prefix_stream : Stream (Prefix S) := {|
  poll_read := prefix_poll_read;
  poll_write b p := with_inner p (poll_write b (inner p));
  poll_flush p := with_inner p (poll_flush (inner p));
  poll_shutdown p := with_inner p (poll_shutdown (inner p));
  poll_direct := prefix_poll_direct;
  poll_read_chunk := prefix_read_chunk;
  poll_write_chunk b p := with_inner p (poll_write_chunk b (inner p));
  consume_chunk := prefix_consume;
|}.

(** [prefix]: a boxed stream is the inner one, or a [Prefix] of it. *)
Definition prefix (b : bytes) (s : S) : S + Prefix S :=
  if len b =? 0 then inl s else inr (mkPrefix b s false).
End prefix.

(** ** The relay *)

Record Direction := mkDirection {
  leased : bool;
  d_bytes : bytes;
  transferred : Z;
  eof : bool;
  done : bool;
}.

(** [Direction::default()] *)
Definition fresh : Direction := mkDirection false [] 0 false false.

Section direction.
Context {R W : Type} `{Stream R, Stream W}.

(** The top of the loop: a chunk is read when none is held.  [inl] leaves the call. *)
Definition fetch (d : Direction) (r : R) (w : W) : Direction * R * W * (io unit + unit) :=
  if (len (d_bytes d) =? 0) && negb (eof d) then
    match poll_read_chunk r (leased d) with
    | (r, leased, Ready (Err e)) => (mkDirection leased (d_bytes d) (transferred d) (eof d) (done d), r, w, inl (Ready (Err e)))
    | (r, leased, Ready (Ok b)) => (mkDirection leased b (transferred d) (len b =? 0) (done d), r, w, inr tt)
    | (r, leased, Pending) =>
        let d := mkDirection leased (d_bytes d) (transferred d) (eof d) (done d) in
        match poll_flush w with
        | (w, Ready (Err e)) => (d, r, w, inl (Ready (Err e)))
        | (w, _) => (d, r, w, inl Pending)
        end
    end
  else (d, r, w, inr tt).

(** The rest of a round: end of stream, or one write of the chunk. *)
Definition forward (d : Direction) (r : R) (w : W) : Direction * R * W * (io unit + unit) :=
  if eof d then
    match poll_shutdown w with
    | (w, Pending) => (d, r, w, inl Pending)
    | (w, Ready (Err e)) => (d, r, w, inl (Ready (Err e)))
    | (w, Ready (Ok _)) => (mkDirection (leased d) (d_bytes d) (transferred d) (eof d) true, r, w, inl (Ready (Ok tt)))
    end
  else
    match poll_write_chunk (d_bytes d) w with
    | (w, Pending) => (d, r, w, inl Pending)
    | (w, Ready (Err e)) => (d, r, w, inl (Ready (Err e)))
    | (w, Ready (Ok n)) =>
        let rest := mkDirection (leased d) (zdrop n (d_bytes d)) (transferred d) (eof d) (done d) in
        if n =? 0 then (rest, r, w, inl (Ready (Err WriteZero)))
        else
          (mkDirection (leased d) (zdrop n (d_bytes d)) (wrap_add (transferred d) n) (eof d) (done d),
           consume_chunk n r, w, inr tt)
    end.

(** The rounds of one call; after the last one the task wakes itself and yields. *)
Fixpoint rounds (n : nat) (d : Direction) (r : R) (w : W) : Direction * R * W * io unit :=
  match n with
  | O => (d, r, w, Pending)
  | S n =>
      match fetch d r w with
      | (d, r, w, inl out) => (d, r, w, out)
      | (d, r, w, inr _) =>
          match forward d r w with
          | (d, r, w, inl out) => (d, r, w, out)
          | (d, r, w, inr _) => rounds n d r w
          end
      end
  end.

(** [Direction::poll] *)
Definition direction_poll (d : Direction) (r : R) (w : W) : Direction * R * W * io unit :=
  if done d then (d, r, w, Ready (Ok tt)) else rounds 32 d r w.
End direction.

Section copy.
Context {A B : Type} `{Stream A, Stream B}.

Record Copy := mkCopy { upload : Direction; download : Direction; a : A; b : B }.

(** One poll of [copy_bidirectional]'s future. *)
Definition copy_poll (c : Copy) : Copy * io (Z * Z) :=
  match direction_poll (upload c) (a c) (b c) with
  | (up, a, b, Ready (Err e)) => (mkCopy up (download c) a b, Ready (Err e))
  | (up, a, b, first) =>
      match direction_poll (download c) b a with
      | (down, b, a, Ready (Err e)) => (mkCopy up down a b, Ready (Err e))
      | (down, b, a, second) =>
          (mkCopy up down a b,
           match first, second with
           | Ready _, Ready _ => Ready (Ok (transferred up, transferred down))
           | _, _ => Pending
           end)
      end
  end.

(** [copy_bidirectional] polled up to [n] times, until it is ready. *)
Fixpoint copy_run (n : nat) (c : Copy) : Copy * io (Z * Z) :=
  match n with
  | O => (c, Pending)
  | S n => match copy_poll c with (c, Pending) => copy_run n c | done => done end
  end.

(** [relay]: the direct hand-off of [b] to [a], which may decline, before the copy.  The completion
    of an accepted hand-off is [a]'s own future, of type [F]. *)
Definition relay_start {F} (take_over : A -> B -> option F) (a : A) (b : B) : io (F + Copy) :=
  match poll_direct b with
  | (_, Pending) => Pending
  | (_, Ready (Err e)) => Ready (Err e)
  | (b, Ready (Ok direct)) =>
      if direct then
        match take_over a b with
        | Some f => Ready (Ok (inl f))
        | None => Ready (Ok (inr (mkCopy fresh fresh a b)))
        end
      else Ready (Ok (inr (mkCopy fresh fresh a b)))
  end.
End copy.
Arguments Copy A B : clear implicits.
Arguments mkCopy {A B} upload download a b.

(** ** The contract of a stream *)

(** What a stream's callers have seen of it: the bytes read from it and whether it ended, the bytes
    it accepted and whether it was shut down, and the receive credit returned to it. *)
Record Log := mkLog { taken : bytes; ended : bool; put : bytes; shut : bool; credit : Z }.

Definition log_read (c : bytes) (l : Log) : Log :=
  mkLog (taken l ++ c) (ended l || (len c =? 0)) (put l) (shut l) (credit l).
Definition log_write (c : bytes) (l : Log) : Log := mkLog (taken l) (ended l) (put l ++ c) (shut l) (credit l).
Definition log_shut (l : Log) : Log := mkLog (taken l) (ended l) (put l) true (credit l).
Definition log_consume (n : Z) (l : Log) : Log := mkLog (taken l) (ended l) (put l) (shut l) (credit l + n).

(** The entry a call leaves: only a ready success is an event. *)
Definition logged {X} (f : X -> Log -> Log) (r : io X) (l : Log) : Log :=
  match r with Ready (Ok x) => f x l | _ => l end.

(** "Chunk writes consume exactly the accepted prefix.  Pending never changes the caller's chunk." *)
Class StreamContract (S : Type) `{Stream S} (history : S -> Log -> Prop) : Prop := {
  read_chunk_logged s l k s' k' r :
    history s l -> poll_read_chunk s k = (s', k', r) -> history s' (logged log_read r l);
  write_chunk_logged s l c s' r :
    history s l -> poll_write_chunk c s = (s', r) ->
    history s' (logged (fun n => log_write (ztake n c)) r l) /\
    (forall n, r = Ready (Ok n) -> 0 <= n <= len c);
  flush_logged s l s' r : history s l -> poll_flush s = (s', r) -> history s' l;
  shutdown_logged s l s' r :
    history s l -> poll_shutdown s = (s', r) -> history s' (logged (fun _ => log_shut) r l);
  consume_logged s l n : history s l -> history (consume_chunk n s) (log_consume n l);
}.

(** ** The relay moves exactly the bytes it reads *)

(** The state of one direction against the two logs, from the logs [r0] and [w0] it started with:
    the bytes read are those written and the chunk held, credit is returned for the written ones. *)
Record Moved (r0 w0 : Log) (d : Direction) (r w : Log) (moved : bytes) : Prop := {
  m_taken : taken r = taken r0 ++ moved ++ d_bytes d;
  m_put : put w = put w0 ++ moved;
  m_credit : credit r = credit r0 + len moved;
  m_count : transferred d = len moved `mod` 2 ^ 64;
  m_eof : eof d = true -> d_bytes d = [] /\ ended r = true;
  m_done : done d = true -> eof d = true /\ shut w = true;
  m_open : done d = false -> shut w = shut w0;
}.

(** The part of a log a direction leaves to the other one. *)
Definition same_writes (l l' : Log) : Prop := put l' = put l /\ shut l' = shut l.
Definition same_reads (l l' : Log) : Prop := taken l' = taken l /\ ended l' = ended l /\ credit l' = credit l.

Section moving.
Context {R W : Type} `{SR : Stream R, SW : Stream W}.
Context (HR : R -> Log -> Prop) (HW : W -> Log -> Prop).
Context `{CR : !StreamContract R HR, CW : !StreamContract W HW}.
Context (r0 w0 : Log).

(** Direction, logs and history after a step that began with the logs [lr] and [lw]. *)
Definition advanced (lr lw : Log) (d : Direction) (r : R) (w : W) : Prop :=
  exists lr' lw' moved, HR r lr' /\ HW w lw' /\ Moved r0 w0 d lr' lw' moved /\
    same_writes lr lr' /\ same_reads lw lw'.

Lemma fetch_advances d r w lr lw moved d' r' w' out :
  HR r lr -> HW w lw -> Moved r0 w0 d lr lw moved -> done d = false ->
  fetch d r w = (d', r', w', out) ->
  advanced lr lw d' r' w' /\ done d' = false /\ out <> inl (Ready (Ok tt)) /\
  (out = inr tt -> eof d' = false -> d_bytes d' <> []).
Proof.
  intros Hr Hw [Ht Hp Hc Hn He Hd Ho] Hdone. unfold fetch.
  destruct (_ && _) eqn:Hcond; zify_bool.
  2:{ intros [= <- <- <- <-]. split_and!; [|done..|].
      - exists lr, lw, moved. by split_and!.
      - intros _ Heof. rewrite Heof in Hcond. simpl in Hcond. rewrite andb_true_r in Hcond. zify_bool.
        intros Hnil. rewrite Hnil in Hcond. done. }
  apply len_zero in H. destruct (poll_read_chunk r (leased d)) as [[r1 k] o] eqn:Hread.
  pose proof (read_chunk_logged _ _ _ _ _ _ Hr Hread) as Hlog.
  destruct o as [|[c|e]]; cbn [logged] in Hlog.
  - destruct (poll_flush w) as [w1 fo] eqn:Hf. pose proof (flush_logged _ _ _ _ Hw Hf) as Hw1.
    assert (Hadv : advanced lr lw (mkDirection k (d_bytes d) (transferred d) (eof d) (done d)) r1 w1).
    { exists lr, lw, moved. by split_and!. }
    destruct fo as [|[[]|e]]; intros [= <- <- <- <-]; by split_and!.
  - intros [= <- <- <- <-]. split_and!; [|done..|].
    + exists (log_read c lr), lw, moved. split_and!; [done..| |done|done].
      constructor; cbn [d_bytes log_read taken ended put shut credit eof transferred done]; try done.
      * by rewrite Ht, H, app_nil_r, <- app_assoc.
      * intros Hz. zify_bool. apply len_zero in Hz as ->. by rewrite orb_true_r.
      * by rewrite Hdone.
    + cbn. intros _ Hz ->. done.
  - intros [= <- <- <- <-]. split_and!; [|done..]. exists lr, lw, moved. by split_and!.
Qed.

Lemma forward_advances d r w lr lw moved d' r' w' out :
  HR r lr -> HW w lw -> Moved r0 w0 d lr lw moved -> done d = false ->
  forward d r w = (d', r', w', out) ->
  advanced lr lw d' r' w' /\ (done d' = true <-> out = inl (Ready (Ok tt))).
Proof.
  intros Hr Hw Hm Hdone. pose proof Hm as [Ht Hp Hc Hn He Hd Ho]. unfold forward. destruct (eof d) eqn:Heof.
  - destruct (poll_shutdown w) as [w1 o] eqn:Hs. pose proof (shutdown_logged _ _ _ _ Hw Hs) as Hlog.
    destruct o as [|[[]|e]]; cbn [logged] in Hlog; intros [= <- <- <- <-].
    + split; [exists lr, lw, moved; by split_and!|by rewrite Hdone].
    + split; [|done]. exists lr, (log_shut lw), moved. split_and!; try done.
    + split; [exists lr, lw, moved; by split_and!|by rewrite Hdone].
  - destruct (poll_write_chunk (d_bytes d) w) as [w1 o] eqn:Hs.
    destruct (write_chunk_logged _ _ _ _ _ Hw Hs) as [Hlog Hbound].
    destruct o as [|[n|e]]; cbn [logged] in Hlog.
    + intros [= <- <- <- <-]. split; [exists lr, lw, moved; by split_and!|by rewrite Hdone].
    + specialize (Hbound n eq_refl). destruct (n =? 0) eqn:Hz; zify_bool; intros [= <- <- <- <-].
      * subst n. split; [|by rewrite Hdone]. exists lr, (log_write (ztake 0 (d_bytes d)) lw), moved.
        split_and!; try done. constructor; cbn [d_bytes eof transferred done log_write taken put shut ended credit]; try done.
        by rewrite ztake_0, app_nil_r.
      * split; [|by rewrite Hdone].
        exists (log_consume n lr), (log_write (ztake n (d_bytes d)) lw), (moved ++ ztake n (d_bytes d)).
        split_and!; try done; [by apply consume_logged|].
        assert (Hln : len (ztake n (d_bytes d)) = n) by (rewrite len_ztake; lia).
        constructor; cbn [d_bytes eof transferred done log_write log_consume taken put shut ended credit];
          rewrite ?len_app, ?Hln; try done.
        -- by rewrite Ht, <- app_assoc, ztake_zdrop.
        -- by rewrite Hp, app_assoc.
        -- lia.
        -- unfold wrap_add. rewrite Hn, Zplus_mod_idemp_l. done.
    + intros [= <- <- <- <-]. split; [exists lr, lw, moved; by split_and!|by rewrite Hdone].
Qed.

Lemma rounds_advances n d r w lr lw moved d' r' w' out :
  HR r lr -> HW w lw -> Moved r0 w0 d lr lw moved -> done d = false ->
  rounds n d r w = (d', r', w', out) ->
  advanced lr lw d' r' w' /\ (done d' = true <-> out = Ready (Ok tt)).
Proof.
  revert d r w lr lw moved. induction n as [|n IH]; intros d r w lr lw moved Hr Hw Hm Hdone; simpl.
  { intros [= <- <- <- <-]. split; [exists lr, lw, moved; by split_and!|by rewrite Hdone]. }
  destruct (fetch d r w) as [[[d1 r1] w1] o1] eqn:Hf.
  destruct (fetch_advances _ _ _ _ _ _ _ _ _ _ Hr Hw Hm Hdone Hf)
    as ((lr1 & lw1 & m1 & Hr1 & Hw1 & Hm1 & Hsw1 & Hsr1) & Hd1 & Ho1 & _).
  destruct o1 as [o1|[]].
  { intros [= <- <- <- <-]. split; [exists lr1, lw1, m1; by split_and!|].
    rewrite Hd1. split; [done|]. intros ->. done. }
  destruct (forward d1 r1 w1) as [[[d2 r2] w2] o2] eqn:Hg.
  destruct (forward_advances _ _ _ _ _ _ _ _ _ _ Hr1 Hw1 Hm1 Hd1 Hg)
    as ((lr2 & lw2 & m2 & Hr2 & Hw2 & Hm2 & Hsw2 & Hsr2) & Hd2).
  assert (Hsw : same_writes lr lr2) by (unfold same_writes in *; naive_solver congruence).
  assert (Hsr : same_reads lw lw2) by (unfold same_reads in *; naive_solver congruence).
  destruct o2 as [o2|[]].
  { intros [= <- <- <- <-]. split; [exists lr2, lw2, m2; by split_and!|].
    rewrite Hd2. split; [by intros [= ->]|by intros ->]. }
  assert (Hd2' : done d2 = false) by (destruct (done d2); [by destruct Hd2 as [Hd2 _]; specialize (Hd2 eq_refl)|done]).
  intros Hrun. destruct (IH _ _ _ _ _ _ Hr2 Hw2 Hm2 Hd2' Hrun) as ((lr3 & lw3 & m3 & ? & ? & ? & ? & ?) & ?).
  split; [|done]. exists lr3, lw3, m3. unfold same_writes, same_reads in *. split_and!; try done; naive_solver congruence.
Qed.

Lemma direction_poll_advances d r w lr lw moved d' r' w' out :
  HR r lr -> HW w lw -> Moved r0 w0 d lr lw moved -> direction_poll d r w = (d', r', w', out) ->
  advanced lr lw d' r' w' /\ (done d' = true <-> out = Ready (Ok tt)).
Proof.
  intros Hr Hw Hm. unfold direction_poll. destruct (done d) eqn:Hd; [|by eapply rounds_advances].
  intros [= <- <- <- <-]. rewrite Hd. split; [|done]. exists lr, lw, moved. by split_and!.
Qed.
End moving.

(** A direction is not disturbed by calls of the other one. *)
Lemma moved_frame r0 w0 d r w r' w' moved :
  Moved r0 w0 d r w moved -> same_reads r r' -> same_writes w w' -> Moved r0 w0 d r' w' moved.
Proof. intros [] (? & ? & ?) (? & ?). constructor; try congruence; naive_solver congruence. Qed.

Lemma moved_fresh r w : Moved r w fresh r w [].
Proof. constructor; cbn; rewrite ?app_nil_r, ?Z.add_0_r; done. Qed.

Section copying.
Context {A B : Type} `{SA : Stream A, SB : Stream B}.
Context (HA : A -> Log -> Prop) (HB : B -> Log -> Prop).
Context `{CA : !StreamContract A HA, CB : !StreamContract B HB}.
Context (a0 b0 : Log).

(** Both directions of a copy, started with the logs [a0] and [b0]. *)
Definition copied (c : Copy A B) (la lb : Log) (up down : bytes) : Prop :=
  HA (a c) la /\ HB (b c) lb /\ Moved a0 b0 (upload c) la lb up /\ Moved b0 a0 (download c) lb la down.

Lemma copy_poll_copies c la lb up down c' out :
  copied c la lb up down -> copy_poll c = (c', out) ->
  exists la' lb' up' down', copied c' la' lb' up' down' /\
    forall n m, out = Ready (Ok (n, m)) ->
      done (upload c') = true /\ done (download c') = true /\
      n = transferred (upload c') /\ m = transferred (download c').
Proof.
  intros (Ha & Hb & Hu & Hd). unfold copy_poll.
  destruct (direction_poll (upload c) (a c) (b c)) as [[[u1 a1] b1] o1] eqn:H1.
  destruct (direction_poll_advances HA HB a0 b0 _ _ _ _ _ _ _ _ _ _ Ha Hb Hu H1)
    as ((la1 & lb1 & up1 & Ha1 & Hb1 & Hu1 & Hsw & Hsr) & Hdone1).
  pose proof (moved_frame _ _ _ _ _ _ _ _ Hd Hsr Hsw) as Hd1.
  destruct o1 as [|[[]|e]].
  3:{ intros [= <- <-]. exists la1, lb1, up1, down. by split_and!. }
  all: destruct (direction_poll (download c) b1 a1) as [[[d2 b2] a2] o2] eqn:H2;
    destruct (direction_poll_advances HB HA b0 a0 _ _ _ _ _ _ _ _ _ _ Hb1 Ha1 Hd1 H2)
      as ((lb2 & la2 & down2 & Hb2 & Ha2 & Hd2 & Hsw2 & Hsr2) & Hdone2);
    pose proof (moved_frame _ _ _ _ _ _ _ _ Hu1 Hsr2 Hsw2) as Hu2;
    destruct o2 as [|[[]|e]]; intros [= <- <-]; exists la2, lb2, up1, down2; (split; [by split_and!|]); try done.
  intros n m [= <- <-]. cbn [upload download]. split_and!; [by apply Hdone1|by apply Hdone2|done..].
Qed.

Lemma copy_run_copies n c la lb up down c' out :
  copied c la lb up down -> copy_run n c = (c', out) ->
  exists la' lb' up' down', copied c' la' lb' up' down' /\
    forall n m, out = Ready (Ok (n, m)) ->
      done (upload c') = true /\ done (download c') = true /\
      n = transferred (upload c') /\ m = transferred (download c').
Proof.
  revert c la lb up down. induction n as [|n IH]; intros c la lb up down Hc; simpl.
  { intros [= <- <-]. exists la, lb, up, down. by split. }
  destruct (copy_poll c) as [c1 o1] eqn:H1.
  destruct (copy_poll_copies _ _ _ _ _ _ _ Hc H1) as (la1 & lb1 & up1 & down1 & Hc1 & Hout).
  destruct o1 as [|x]; [by eapply IH|]. intros [= <- <-]. exists la1, lb1, up1, down1. by split.
Qed.

(** C8. The relay moves each stream into the other exactly.  After any number of polls, whatever
    the two streams answer, the bytes read from a side are the bytes its peer accepted followed by
    the one chunk still held, in order and without loss or repetition; receive credit was returned
    for exactly the accepted bytes; a side is shut down only after its peer has ended and
    everything read has been written; and when the relay completes, both sides have ended, both
    are shut down, nothing is held, and the counts are those of the bytes moved. *)
Theorem relay_moves_streams n x y c out :
  HA x a0 -> HB y b0 -> copy_run n (mkCopy fresh fresh x y) = (c, out) ->
  exists la lb up down,
    HA (a c) la /\ HB (b c) lb /\
    taken la = taken a0 ++ up ++ d_bytes (upload c) /\ put lb = put b0 ++ up /\
    taken lb = taken b0 ++ down ++ d_bytes (download c) /\ put la = put a0 ++ down /\
    credit la = credit a0 + len up /\ credit lb = credit b0 + len down /\
    (shut lb = true -> shut b0 = true \/ ended la = true /\ d_bytes (upload c) = []) /\
    (shut la = true -> shut a0 = true \/ ended lb = true /\ d_bytes (download c) = []) /\
    (forall i o, out = Ready (Ok (i, o)) ->
       i = len up `mod` 2 ^ 64 /\ o = len down `mod` 2 ^ 64 /\ ended la = true /\ ended lb = true /\
       shut la = true /\ shut lb = true /\ d_bytes (upload c) = [] /\ d_bytes (download c) = []).
Proof.
  intros Hx Hy Hrun.
  destruct (copy_run_copies n (mkCopy fresh fresh x y) a0 b0 [] [] c out) as (la & lb & up & down & Hc & Hout).
  { split_and!; [done|done|apply moved_fresh..]. } { done. }
  destruct Hc as (Ha & Hb & [U1 U2 U3 U4 U5 U6 U7] & [D1 D2 D3 D4 D5 D6 D7]). exists la, lb, up, down.
  split_and!; try done.
  - intros Hs. destruct (done (upload c)) eqn:Hd; [|left; by rewrite <- (U7 eq_refl)].
    right. destruct (U6 eq_refl) as [He _]. destruct (U5 He). done.
  - intros Hs. destruct (done (download c)) eqn:Hd; [|left; by rewrite <- (D7 eq_refl)].
    right. destruct (D6 eq_refl) as [He _]. destruct (D5 He). done.
  - intros i o Ho. destruct (Hout i o Ho) as (Hdu & Hdd & -> & ->).
    destruct (U6 Hdu) as [HeU HsU], (D6 Hdd) as [HeD HsD]. destruct (U5 HeU), (D5 HeD). done.
Qed.
End copying.

(** ** Completion *)

(** A stream that never makes its caller wait and has [remaining] bytes to give. *)
Class Eager (S : Type) `{Stream S} (remaining : S -> nat) : Prop := {
  eager_read s k : exists s' k' c,
    poll_read_chunk s k = (s', k', Ready (Ok c)) /\ (length c + remaining s' = remaining s)%nat;
  eager_write s c : c <> [] -> exists s' n,
    poll_write_chunk c s = (s', Ready (Ok n)) /\ 0 < n <= len c /\ remaining s' = remaining s;
  eager_shutdown s : exists s', poll_shutdown s = (s', Ready (Ok tt)) /\ remaining s' = remaining s;
  eager_consume s n : remaining (consume_chunk n s) = remaining s;
}.

Section eager.
Context {R W : Type} `{SR : Stream R, SW : Stream W} (left : R -> nat) (other : W -> nat).
Context `{ER : !Eager R left, EW : !Eager W other}.

(** What a direction still has to move. *)
Definition todo (d : Direction) (r : R) : nat := if done d then 0 else S (length (d_bytes d) + left r).

(** Each round moves at least one byte, or finishes. *)
Lemma rounds_progress n d r w :
  done d = false -> (eof d = true -> d_bytes d = []) ->
  exists d' r' w' out, rounds (S n) d r w = (d', r', w', out) /\ other w' = other w /\
    (eof d' = true -> d_bytes d' = []) /\ (todo d' r' < todo d r)%nat /\
    (out = Ready (Ok tt) /\ done d' = true \/ out = Pending /\ done d' = false).
Proof.
  revert d r w. induction n as [n IH] using lt_wf_ind. intros d r w Hdone Heof.
  cbn [rounds].
  assert (Hfetch : exists d1 r1, fetch d r w = (d1, r1, w, inr tt) /\ done d1 = false /\
    (length (d_bytes d1) + left r1 <= length (d_bytes d) + left r)%nat /\
    (eof d1 = true /\ d_bytes d1 = [] \/ eof d1 = false /\ d_bytes d1 <> [])).
  { unfold fetch. destruct (_ && _) eqn:Hc; zify_bool.
    - apply len_zero in H. destruct (eager_read r (leased d)) as (r1 & k & c & -> & Hl).
      eexists _, r1. split_and!; [done|done| |].
      + cbn [d_bytes]. rewrite H. simpl. lia.
      + cbn [eof d_bytes]. destruct c; [by left|]. right. split; [|done]. apply Z.eqb_neq. len_lia.
    - exists d, r. split_and!; try done. destruct (eof d); [left; auto|]. right. split; [done|].
      rewrite andb_true_r in Hc. zify_bool. intros Hn. by rewrite Hn in Hc. }
  destruct Hfetch as (d1 & r1 & -> & Hd1 & Hle & [[He Hb]|[He Hb]]); unfold forward; rewrite He.
  - destruct (eager_shutdown w) as (w1 & -> & Hw1). eexists _, r1, w1, _. split_and!; try done; [|by left].
    unfold todo. rewrite Hdone. cbn [done]. lia.
  - destruct (eager_write w (d_bytes d1) Hb) as (w1 & k & -> & Hk & Hw1). rewrite (proj2 (Z.eqb_neq k 0)) by lia.
    set (d2 := mkDirection _ _ _ _ _).
    assert (Hlt : (length (d_bytes d2) + left (consume_chunk k r1) < length (d_bytes d1) + left r1)%nat).
    { rewrite eager_consume. cbn [d2 d_bytes]. unfold zdrop. rewrite length_drop. unfold len in Hk. lia. }
    assert (Hd2 : done d2 = false) by done. assert (Heof2 : eof d2 = true -> d_bytes d2 = []) by (cbn; congruence).
    destruct n as [|n].
    + eexists d2, _, w1, _. split_and!; try done; [|by right]. unfold todo. rewrite Hdone, Hd2. lia.
    + destruct (IH n ltac:(lia) d2 (consume_chunk k r1) w1 Hd2 Heof2)
        as (d3 & r3 & w3 & out & Hrun & Hw3 & He3 & Ht3 & Hout).
      exists d3, r3, w3, out. split_and!; try done; [congruence|].
      unfold todo in *. rewrite Hdone, Hd2 in *. lia.
Qed.

Lemma direction_poll_progress d r w :
  (eof d = true -> d_bytes d = []) ->
  exists d' r' w' out, direction_poll d r w = (d', r', w', out) /\ other w' = other w /\
    (eof d' = true -> d_bytes d' = []) /\ (todo d' r' <= pred (todo d r))%nat /\
    (out = Ready (Ok tt) /\ done d' = true \/ out = Pending /\ done d' = false).
Proof.
  intros Heof. unfold direction_poll. destruct (done d) eqn:Hd.
  - eexists _, _, _, _. split_and!; try done; [|by left]. unfold todo. rewrite Hd. lia.
  - destruct (rounds_progress 31 d r w Hd Heof) as (d' & r' & w' & out & ? & ? & ? & ? & ?).
    exists d', r', w', out. split_and!; try done. lia.
Qed.
End eager.

Section eager_copy.
Context {A B : Type} `{SA : Stream A, SB : Stream B} (ra : A -> nat) (rb : B -> nat).
Context `{EA : !Eager A ra, EB : !Eager B rb}.

Lemma eager_copy_run n c :
  (eof (upload c) = true -> d_bytes (upload c) = []) -> (eof (download c) = true -> d_bytes (download c) = []) ->
  (todo ra (upload c) (a c) + todo rb (download c) (b c) <= n)%nat ->
  exists c' i o, copy_run (S n) c = (c', Ready (Ok (i, o))).
Proof.
  revert c. induction n as [n IH] using lt_wf_ind. intros c Hu Hd Hn. cbn [copy_run]. unfold copy_poll.
  destruct (direction_poll_progress ra rb (upload c) (a c) (b c) Hu) as (u1 & a1 & b1 & o1 & -> & Hb1 & Hu1 & Ht1 & Ho1).
  destruct (direction_poll_progress rb ra (download c) b1 a1 Hd) as (d2 & b2 & a2 & o2 & H2 & Ha2 & Hd2 & Ht2 & Ho2).
  assert (Et1 : todo ra u1 a2 = todo ra u1 a1) by (unfold todo; by rewrite Ha2).
  assert (Et2 : todo rb (download c) b1 = todo rb (download c) (b c)) by (unfold todo; by rewrite Hb1).
  assert (Hpos : forall d x, done d = false -> (0 < todo ra d x)%nat) by (intros d x Hx; unfold todo; rewrite Hx; lia).
  assert (Hpos' : forall d x, done d = false -> (0 < todo rb d x)%nat) by (intros d x Hx; unfold todo; rewrite Hx; lia).
  destruct Ho1 as [[-> Hdu]|[-> Hdu]], Ho2 as [[-> Hdd]|[-> Hdd]]; rewrite H2; cbn iota.
  1: by eauto.
  all: destruct n as [|n]; [exfalso; first [pose proof (Hpos u1 a1 Hdu); lia|pose proof (Hpos' d2 b2 Hdd); lia]|].
  all: apply (IH n); cbn [upload download a b]; try done; try lia.
Qed.

(** C39. The relay finishes: between two streams that never make their caller wait it completes
    with at most three polls more than the bytes they have to give, however many more it is allowed,
    and not by running out of them. *)
Theorem relay_completes x y n :
  (ra x + rb y + 2 <= n)%nat ->
  exists c i o, copy_run (S n) (mkCopy fresh fresh x y) = (c, Ready (Ok (i, o))).
Proof. intros Hn. apply eager_copy_run; [done..|]. cbn. lia. Qed.
End eager_copy.

(** ** Replaying a handshake's read-ahead *)

(** The reads a caller makes, and the bytes they give. *)
Inductive read_call := Read (room : Z) | ReadChunk (leased : bool).

Definition given (r : io bytes) : bytes := match r with Ready (Ok c) => c | _ => [] end.

Definition read_once {S} `{Stream S} (s : S) (r : read_call) : S * bytes :=
  match r with
  | Read room => let '(s, o) := poll_read room s in (s, given o)
  | ReadChunk leased => let '(s, _, o) := poll_read_chunk s leased in (s, given o)
  end.

Fixpoint reads {S} `{Stream S} (l : list read_call) (s : S) : S * bytes :=
  match l with
  | [] => (s, [])
  | r :: l =>
      let '(s, c) := read_once s r in
      let '(s, cs) := reads l s in
      (s, c ++ cs)
  end.

Section replay.
Context {S : Type} `{SS : Stream S}.

(** Reads of an empty prefix are reads of the stream. *)
Lemma reads_inner l s first :
  let '(p, out) := reads l (mkPrefix [] s first) in
  let '(s', out') := reads l s in inner p = s' /\ p_bytes p = [] /\ out = out'.
Proof.
  revert s first. induction l as [|[room|k] l IH]; intros s first; [done| |]; cbn [reads read_once].
  - cbn [poll_read prefix_stream]. unfold prefix_poll_read, with_inner. cbn [p_bytes inner prefix_read].
    change (negb (len [] =? 0)) with false. cbn iota. destruct (poll_read room s) as [s1 o]. cbn [fst snd].
    specialize (IH s1 first). destruct (reads l (mkPrefix [] s1 first)) as [p out], (reads l s1) as [s' out'].
    destruct IH as (? & ? & ->). done.
  - cbn [poll_read_chunk prefix_stream]. unfold prefix_read_chunk. cbn [p_bytes inner prefix_read].
    change (negb (len [] =? 0)) with false. cbn iota. destruct (poll_read_chunk s k) as [[s1 k'] o].
    specialize (IH s1 false). destruct (reads l (mkPrefix [] s1 false)) as [p out], (reads l s1) as [s' out'].
    destruct IH as (? & ? & ->). done.
Qed.

(** A stream with a prefix replays it unchanged: for any sequence of ordinary and chunk reads,
    what they give, followed by the part of the prefix not yet read, is the prefix followed by what
    the stream under it gives; and that stream is not read before the whole prefix has been. *)
Lemma reads_prefix pre s first l :
  Forall (fun r => match r with Read room => 0 <= room | ReadChunk _ => True end) l ->
  let '(p, out) := reads l (mkPrefix pre s first) in
  exists k, let '(s', out') := reads (drop k l) s in
    inner p = s' /\ out ++ p_bytes p = pre ++ out' /\ (p_bytes p <> [] -> drop k l = []).
Proof.
  intros Hl. revert pre first. induction Hl as [|r l Hr Hl IH]; intros pre first.
  { exists 0%nat. cbn. by rewrite app_nil_r. }
  destruct (decide (pre = [])) as [->|Hne].
  { pose proof (reads_inner (r :: l) s first) as Hi. destruct (reads (r :: l) (mkPrefix [] s first)) as [p out].
    exists 0%nat. rewrite drop_0. destruct (reads (r :: l) s) as [s' out']. destruct Hi as (? & -> & ->).
    by rewrite app_nil_r. }
  assert (Hz : negb (len pre =? 0) = true).
  { apply negb_true_iff, Z.eqb_neq. intros ?%len_zero. done. }
  destruct r as [room|k]; cbn [reads read_once].
  - cbn [poll_read prefix_stream]. unfold prefix_poll_read. cbn [p_bytes inner prefix_read]. rewrite Hz. cbn [given].
    set (n := Z.min room (len pre)). specialize (IH (zdrop n pre) first).
    destruct (reads l _) as [p out]. destruct IH as (k & IH). exists (Datatypes.S k). cbn [drop].
    destruct (reads (drop k l) s) as [s' out']. destruct IH as (? & Heq & ?). split_and!; try done.
    by rewrite <- app_assoc, Heq, app_assoc, ztake_zdrop.
  - cbn [poll_read_chunk prefix_stream]. unfold prefix_read_chunk. cbn [p_bytes inner prefix_read]. rewrite Hz. cbn [given].
    pose proof (reads_inner l s true) as Hi. destruct (reads l _) as [p out]. exists 1%nat. cbn [drop]. rewrite drop_0.
    destruct (reads l s) as [s' out']. destruct Hi as (? & -> & ->). split_and!; try done. by rewrite app_nil_r.
Qed.

(** The contract passes through a prefix, so that the relay's theorem holds of the stream it makes. *)
Definition prefix_history (H : S -> Log -> Prop) (pre t0 : bytes) (p : Prefix S) (l : Log) : Prop :=
  exists li x c, H (inner p) li /\ taken li = t0 ++ x /\ taken l ++ p_bytes p = pre ++ x /\
    (p_bytes p <> [] -> x = []) /\ l = mkLog (taken l) (ended li) (put li) (shut li) (credit li + c).

#[export] Instance prefix_contract (H : S -> Log -> Prop) `{!StreamContract S H} pre t0 :
  StreamContract (Prefix S) (prefix_history H pre t0).
Proof.
  constructor.
  - intros p l k p' k' r (li & x & c & Hi & Ht & Htk & Hx & Hl). cbn [poll_read_chunk prefix_stream]. unfold prefix_read_chunk.
    destruct (negb (len (p_bytes p) =? 0)) eqn:Hz.
    + intros [= <- <- <-]. cbn [logged]. exists li, x, c. cbn [inner p_bytes log_read taken].
      split_and!; try done; [by rewrite app_nil_r|].
      rewrite Hl. unfold log_read. cbn. zify_bool. rewrite (proj2 (Z.eqb_neq _ _) Hz), orb_false_r. done.
    + destruct (poll_read_chunk (inner p) k) as [[s1 k1] o] eqn:Hr. intros [= <- <- <-].
      pose proof (read_chunk_logged _ _ _ _ _ _ Hi Hr) as Hlog. zify_bool. apply len_zero in Hz. rewrite Hz in *.
      destruct o as [|[b|e]]; cbn [logged] in *.
      * exists li, x, c. cbn [inner p_bytes]. rewrite ?Hz. by split_and!.
      * exists (log_read b li), (x ++ b), c. cbn [inner p_bytes log_read taken]. rewrite ?Hz, app_nil_r in *.
        split_and!; try done; [by rewrite Ht, app_assoc|by rewrite Htk, app_assoc|].
        rewrite Hl. done.
      * exists li, x, c. cbn [inner p_bytes]. rewrite ?Hz. by split_and!.
  - intros p l b p' r (li & x & c & Hi & Ht & Htk & Hx & Hl). cbn [poll_write_chunk prefix_stream]. unfold with_inner.
    destruct (poll_write_chunk b (inner p)) as [s1 o] eqn:Hw. intros [= <- <-].
    destruct (write_chunk_logged _ _ _ _ _ Hi Hw) as [Hlog ?]. split; [|done].
    destruct o as [|[n|e]]; cbn [logged] in *; [by exists li, x, c|eexists _, x, c; split; [exact Hlog|]|by exists li, x, c].
    split_and!; try done. rewrite Hl. done.
  - intros p l p' r (li & x & c & Hi & Hrest). cbn [poll_flush prefix_stream]. unfold with_inner.
    destruct (poll_flush (inner p)) as [s1 o] eqn:Hf. intros [= <- <-]. exists li, x, c. split; [by eapply flush_logged|done].
  - intros p l p' r (li & x & c & Hi & Ht & Htk & Hx & Hl). cbn [poll_shutdown prefix_stream]. unfold with_inner.
    destruct (poll_shutdown (inner p)) as [s1 o] eqn:Hw. intros [= <- <-].
    pose proof (shutdown_logged _ _ _ _ Hi Hw) as Hlog.
    destruct o as [|[[]|e]]; cbn [logged] in *; [by exists li, x, c|eexists _, x, c; split; [exact Hlog|]|by exists li, x, c].
    split_and!; try done. rewrite Hl. done.
  - intros p l n (li & x & c & Hi & Ht & Htk & Hx & Hl). cbn [consume_chunk prefix_stream]. unfold prefix_consume.
    destruct (prefix_read p).
    + exists li, x, (c + n). split_and!; try done. rewrite Hl. unfold log_consume. cbn. f_equal. lia.
    + exists (log_consume n li), x, c. cbn [inner p_bytes]. split_and!; try done; [by apply consume_logged|].
      rewrite Hl. unfold log_consume. cbn. f_equal. lia.
Qed.
End replay.

(** ** A concrete stream *)

(** A stream that gives its chunks one by one and accepts up to [accept] bytes a time. *)
Record Feed := mkFeed { chunks : list bytes; accept : Z; f_log : Log }.

Definition feed_write (c : bytes) (s : Feed) : Feed * io Z :=
  let n := Z.min (Z.max 1 (accept s)) (len c) in
  (mkFeed (chunks s) (accept s) (log_write (ztake n c) (f_log s)), Ready (Ok n)).

#[export] Instance feed_stream : Stream Feed := {|
  poll_read room s :=
    match chunks s with
    | [] => (mkFeed [] (accept s) (log_read [] (f_log s)), Ready (Ok []))
    | c :: cs => (mkFeed (zdrop room c :: cs) (accept s) (log_read (ztake room c) (f_log s)), Ready (Ok (ztake room c)))
    end;
  poll_write := feed_write;
  poll_flush s := (s, Ready (Ok tt));
  poll_shutdown s := (mkFeed (chunks s) (accept s) (log_shut (f_log s)), Ready (Ok tt));
  poll_direct s := (s, Ready (Ok true));
  poll_read_chunk s leased :=
    match chunks s with
    | [] => (mkFeed [] (accept s) (log_read [] (f_log s)), false, Ready (Ok []))
    | c :: cs => (mkFeed cs (accept s) (log_read c (f_log s)), false, Ready (Ok c))
    end;
  poll_write_chunk := feed_write;
  consume_chunk n s := mkFeed (chunks s) (accept s) (log_consume n (f_log s));
|}.

Definition feed_history (s : Feed) (l : Log) : Prop := f_log s = l.

#[export] Instance feed_contract : StreamContract Feed feed_history.
Proof.
  constructor; unfold feed_history; cbn.
  - intros s l k s' k' r <-. destruct (chunks s); by intros [= <- <- <-].
  - intros s l c s' r <- [= <- <-]. split; [done|]. intros n [= <-]. pose proof (len_nonneg c). lia.
  - by intros s l s' r <- [= <- <-].
  - by intros s l s' r <- [= <- <-].
  - by intros s l n <-.
Qed.

Definition feed_left (s : Feed) : nat := length (mjoin (chunks s)).

#[export] Instance feed_eager : Eager Feed feed_left.
Proof.
  constructor; unfold feed_left; cbn.
  - intros s k. destruct (chunks s) as [|c cs]; eexists _, _, _; (split; [done|]); cbn; [done|]. by rewrite length_app.
  - intros s c Hc. eexists _, _. split_and!; [done| | |done].
    + destruct c; [done|]. len_lia.
    + lia.
  - by intros s; eexists.
  - done.
Qed.

Definition no_log : Log := mkLog [] false [] false 0.
Definition demo_a : Feed := mkFeed [[1; 2; 3]; [4]] 2 no_log.
Definition demo_b : Feed := mkFeed [[9]] 1 no_log.

Lemma relay_moves_streams_witness :
  let c := fst (copy_run 3 (mkCopy fresh fresh demo_a demo_b)) in
  snd (copy_run 3 (mkCopy fresh fresh demo_a demo_b)) = Ready (Ok (4, 1)) /\
  exists la lb up down, feed_history (a c) la /\ feed_history (b c) lb /\
    taken la = [] ++ up ++ d_bytes (upload c) /\ put lb = [] ++ up /\ put la = [] ++ down.
Proof.
  split; [vm_compute; reflexivity|].
  destruct (relay_moves_streams feed_history feed_history no_log no_log 3 demo_a demo_b
    (fst (copy_run 3 (mkCopy fresh fresh demo_a demo_b))) (snd (copy_run 3 (mkCopy fresh fresh demo_a demo_b))))
    as (la & lb & up & down & H1 & H2 & H3 & H4 & _ & H6 & _).
  - reflexivity.
  - reflexivity.
  - apply surjective_pairing.
  - exists la, lb, up, down. exact (conj H1 (conj H2 (conj H3 (conj H4 H6)))).
Defined.

Lemma relay_completes_witness :
  exists c i o, copy_run 8 (mkCopy fresh fresh demo_a demo_b) = (c, Ready (Ok (i, o))).
Proof. apply (relay_completes feed_left feed_left demo_a demo_b 7). vm_compute. lia. Defined.

End Relay.
