(* ===== verification/NaivePadding.v ===== *)
(** * Naive padding (crates/naive/src/padding.rs)

    The codec that pads the first eight writes of each direction of a tunnel, the writer that feeds
    it and the reader loop that runs it over whatever pieces the transport delivers. *)

From S2P Require Import Prelude.

Module NaivePadding.

Definition FIRST_PADDINGS : nat := 8.
Definition MAX_PAYLOAD : Z := 65535.

Inductive error := OversizedPayload | BytesRemaining.

(** [Codec]: the [u8] counts down from eight, so the loop of [decode] recurses on it. *)
Abbreviation Codec := nat.

(** [Codec::new] *)
Definition new (enabled : bool) : Codec := if enabled then FIRST_PADDINGS else O.

(** A complete frame at the front of the buffer: its payload, and what follows its padding. *)
Definition frame_head (source : bytes) : option (bytes * bytes) :=
  match source with
  | hi :: lo :: padding :: body =>
      let payload := hi * 256 + lo in
      let total := 3 + payload + padding in
      if len source <? total then None
      else Some (ztake payload body, zdrop (payload + padding) body)
  | _ => None
  end.

(** [<Codec as Decoder>::decode] *)
Fixpoint decode (remaining : Codec) (source : bytes) : Codec * bytes * option bytes :=
  if len source =? 0 then (remaining, source, None) else
  match remaining with
  | O => (O, [], Some source)
  | S remaining' =>
      match frame_head source with
      | None => (remaining, source, None)
      | Some (payload, rest) =>
          if len payload =? 0 then decode remaining' rest else (remaining', rest, Some payload)
      end
  end.

(** [<Codec as Encoder>::encode], with the random padding length: what is added to the destination. *)
Definition encode (padding : Z) (remaining : Codec) (b : bytes) : res error (Codec * bytes) :=
  if len b =? 0 then Ok (remaining, []) else
  if MAX_PAYLOAD <? len b then Err OversizedPayload else
  match remaining with
  | O => Ok (O, b)
  | S remaining' => Ok (remaining', be_put 2 (len b) ++ [padding] ++ b ++ replicate (Z.to_nat padding) 0)
  end.

(** [<Padding as AsyncWrite>::poll_write]: one item of at most the largest payload; the number of
    bytes accepted. *)
Definition poll_write (padding : Z) (remaining : Codec) (b : bytes) : res error (Codec * bytes * Z) :=
  let b := ztake (Z.min (len b) MAX_PAYLOAD) b in
  '(remaining, out) ← encode padding remaining b; Ok (remaining, out, len b).

(** A sequence of writes: what goes on the wire and what was accepted. *)
Fixpoint write_all (remaining : Codec) (ws : list (Z * bytes)) : res error (bytes * bytes) :=
  match ws with
  | [] => Ok ([], [])
  | (padding, b) :: ws =>
      '(remaining, out, n) ← poll_write padding remaining b;
      '(wire, accepted) ← write_all remaining ws;
      Ok (out ++ wire, ztake n b ++ accepted)
  end.

(** The framed reader: a piece is appended to the buffer, which is then decoded until it gives no
    item.  The calls that give one lower the counter or empty the buffer. *)
Fixpoint drain (fuel : nat) (remaining : Codec) (buffer : bytes) : Codec * bytes * list bytes :=
  match fuel with
  | O => (remaining, buffer, [])
  | S fuel =>
      match decode remaining buffer with
      | (remaining, buffer, None) => (remaining, buffer, [])
      | (remaining, buffer, Some item) =>
          let '(remaining, buffer, items) := drain fuel remaining buffer in
          (remaining, buffer, item :: items)
      end
  end.

Fixpoint read_all (remaining : Codec) (buffer : bytes) (pieces : list bytes) : Codec * bytes * list bytes :=
  match pieces with
  | [] => (remaining, buffer, [])
  | piece :: pieces =>
      let '(remaining, buffer, items) := drain (S (S remaining)) remaining (buffer ++ piece) in
      let '(remaining, buffer, more) := read_all remaining buffer pieces in
      (remaining, buffer, items ++ more)
  end.

(** [Decoder::decode_eof] of a drained reader. *)
Definition finish (remaining : Codec) (buffer : bytes) : res error (option bytes) :=
  match decode remaining buffer with
  | (_, _, Some item) => Ok (Some item)
  | (_, rest, None) => if len rest =? 0 then Ok None else Err BytesRemaining
  end.

(** ** Reference: the stream a buffer stands for *)

(** Counter, undecoded rest and payload bytes of a buffer. *)
Fixpoint unframe (remaining : Codec) (source : bytes) : Codec * bytes * bytes :=
  if len source =? 0 then (remaining, source, []) else
  match remaining with
  | O => (O, [], source)
  | S remaining' =>
      match frame_head source with
      | None => (remaining, source, [])
      | Some (payload, rest) =>
          let '(r, rest, out) := unframe remaining' rest in (r, rest, payload ++ out)
      end
  end.

Lemma frame_head_app source more payload rest :
  Forall is_byte source -> frame_head source = Some (payload, rest) ->
  frame_head (source ++ more) = Some (payload, rest ++ more).
Proof.
  destruct source as [|hi [|lo [|p body]]]; try done. intros Hb. cbn [frame_head app].
  repeat (apply Forall_cons in Hb as [? Hb]). unfold is_byte in *.
  destruct (_ <? _) eqn:Hl; [done|]. zify_bool. intros [= <- <-]. rewrite !len_cons in *. rewrite len_app.
  pose proof (len_nonneg more). rewrite (proj2 (Z.ltb_ge _ _)) by lia.
  by rewrite ztake_app_le, zdrop_app_le by lia.
Qed.

Lemma frame_head_bytes source payload rest :
  Forall is_byte source -> frame_head source = Some (payload, rest) -> Forall is_byte payload /\ Forall is_byte rest.
Proof.
  destruct source as [|hi [|lo [|p body]]]; try done. intros Hb. cbn [frame_head].
  repeat (apply Forall_cons in Hb as [? Hb]). destruct (_ <? _); [done|]. intros [= <- <-].
  unfold ztake, zdrop. split; [by apply Forall_take|by apply Forall_drop].
Qed.

Lemma unframe_nil r : unframe r [] = (r, [], []).
Proof. by destruct r. Qed.

Lemma unframe_rest_bytes r source r' rest out :
  Forall is_byte source -> unframe r source = (r', rest, out) -> Forall is_byte rest.
Proof.
  revert source out. induction r as [|r IH]; intros source out Hb; cbn [unframe].
  - destruct (_ =? 0); intros [= <- <- <-]; [done|constructor].
  - destruct (_ =? 0); [by intros [= <- <- <-]|]. destruct (frame_head source) as [[p rest']|] eqn:Hf.
    + destruct (frame_head_bytes _ _ _ Hb Hf) as [_ Hr]. destruct (unframe r rest') as [[r1 rest1] o1] eqn:Hu.
      intros [= <- <- <-]. by eapply IH.
    + by intros [= <- <- <-].
Qed.

(** The reference does not depend on where the input is cut. *)
Lemma unframe_app r source more :
  Forall is_byte source ->
  unframe r (source ++ more) =
  let '(r1, rest1, o1) := unframe r source in
  let '(r2, rest2, o2) := unframe r1 (rest1 ++ more) in (r2, rest2, o1 ++ o2).
Proof.
  revert source. induction r as [|r IH]; intros source Hb.
  - destruct source as [|c source]; [by rewrite unframe_nil; destruct (unframe 0 ([] ++ more)) as [[? ?] ?]|].
    cbn [unframe app]. rewrite !(proj2 (Z.eqb_neq _ 0)) by len_lia. destruct more as [|m more]; cbn; [|done].
    by rewrite len_nil.
  - destruct source as [|c source].
    { rewrite unframe_nil. by destruct (unframe (S r) ([] ++ more)) as [[? ?] ?]. }
    destruct (frame_head (c :: source)) as [[p rest]|] eqn:Hf.
    + pose proof (frame_head_app _ more _ _ Hb Hf) as Hf'. destruct (frame_head_bytes _ _ _ Hb Hf) as [_ Hr].
      cbn [unframe]. rewrite Hf, Hf', !(proj2 (Z.eqb_neq _ 0)) by len_lia. rewrite IH by done.
      destruct (unframe r rest) as [[r1 rest1] o1]. destruct (unframe r1 (rest1 ++ more)) as [[r2 rest2] o2].
      by rewrite app_assoc.
    + assert (unframe (S r) (c :: source) = (S r, c :: source, [])) as ->.
      { cbn [unframe]. by rewrite Hf, (proj2 (Z.eqb_neq _ 0)) by len_lia. }
      by destruct (unframe (S r) ((c :: source) ++ more)) as [[? ?] ?].
Qed.

(** Decoding item by item gives the reference's bytes. *)
Lemma decode_unframe r source :
  match decode r source with
  | (r', rest, None) => unframe r source = (r', rest, []) /\ unframe r' rest = (r', rest, [])
  | (r', rest, Some item) =>
      item <> [] /\ ((r' < r)%nat \/ rest = []) /\
      unframe r source = let '(r2, rest2, o2) := unframe r' rest in (r2, rest2, item ++ o2)
  end.
Proof.
  revert source. induction r as [|r IH]; intros source; cbn [decode unframe].
  - destruct (len source =? 0) eqn:Hz; zify_bool.
    + by rewrite (proj1 (len_zero source) Hz).
    + split_and!; [intros ->; done|by right|]. by rewrite unframe_nil, app_nil_r.
  - destruct (len source =? 0) eqn:Hz; zify_bool; [by rewrite (proj1 (len_zero source) Hz)|].
    destruct (frame_head source) as [[p rest]|] eqn:Hf.
    2:{ split; [done|]. cbn [unframe]. rewrite Hf. by destruct (len source =? 0). }
    destruct (len p =? 0) eqn:Hp; zify_bool.
    + apply len_zero in Hp as ->. specialize (IH rest). destruct (decode r rest) as [[r' rest'] [item|]].
      * destruct IH as (Hi & Hlt & ->). split_and!; [done|destruct Hlt; [left; lia|by right]|].
        by destruct (unframe r' rest') as [[? ?] ?].
      * destruct IH as (-> & ?). done.
    + split_and!; [intros ->; done|left; lia|]. by destruct (unframe r rest) as [[? ?] ?].
Qed.

Lemma drain_unframe fuel r source :
  (r + 2 <= fuel)%nat ->
  let '(r', rest, items) := drain fuel r source in
  unframe r source = (r', rest, mjoin items) /\ unframe r' rest = (r', rest, []).
Proof.
  assert (Hempty : forall fuel r, drain (S fuel) r [] = (r, [], [])) by (by intros f [|r0]).
  revert r source. induction fuel as [|fuel IH]; intros r source Hf; [lia|]. cbn [drain].
  pose proof (decode_unframe r source) as Hd. destruct (decode r source) as [[r' rest] [item|]].
  - destruct Hd as (_ & [Hlt| ->] & ->).
    + specialize (IH r' rest ltac:(lia)). destruct (drain fuel r' rest) as [[r2 rest2] items].
      by destruct IH as [-> ?].
    + destruct fuel as [|fuel]; [lia|]. rewrite Hempty, !unframe_nil. done.
  - done.
Qed.

Lemma read_all_unframe r buffer pieces :
  Forall (Forall is_byte) pieces -> Forall is_byte buffer -> unframe r buffer = (r, buffer, []) ->
  let '(r', rest, items) := read_all r buffer pieces in 
  unframe r (buffer ++ mjoin pieces) = (r', rest, mjoin items) /\ unframe r' rest = (r', rest, []).
Proof.
  intros Hp. revert r buffer. induction Hp as [|piece pieces Hb Hp IH]; intros r buffer Hbuf Hu; cbn [read_all].
  { by rewrite app_nil_r. }
  pose proof (drain_unframe (S (S r)) r (buffer ++ piece) ltac:(lia)) as Hd.
  destruct (drain (S (S r)) r (buffer ++ piece)) as [[r1 rest1] items]. destruct Hd as [Hd1 Hd2].
  assert (Hb1 : Forall is_byte (buffer ++ piece)) by (by apply Forall_app).
  pose proof (unframe_rest_bytes _ _ _ _ _ Hb1 Hd1) as Hr1. specialize (IH r1 rest1 Hr1 Hd2).
  destruct (read_all r1 rest1 pieces) as [[r2 rest2] more]. change (mjoin (piece :: pieces)) with (piece ++ mjoin pieces).
  destruct IH as [IH ?]. split; [|done]. rewrite app_assoc, unframe_app by done. rewrite Hd1, IH. by rewrite join_app.
Qed.

(** One write at the front of the wire is one frame, or raw bytes. *)
Lemma frame_head_encoded padding b more :
  0 <= padding <= 255 -> len b <= MAX_PAYLOAD ->
  frame_head (be_put 2 (len b) ++ [padding] ++ (b ++ replicate (Z.to_nat padding) 0) ++ more) = Some (b, more).
Proof.
  intros Hp Hb. pose proof (len_nonneg b). unfold MAX_PAYLOAD in Hb.
  assert (Hput : be_put 2 (len b) = [(len b `div` 256) `mod` 256; len b `mod` 256]).
  { cbn [be_put]. rewrite Z.pow_0_r, Z.div_1_r. done. }
  rewrite Hput. cbn [app frame_head]. rewrite (Z.mod_small (len b `div` 256)) by (split; [apply Z.div_pos; lia|apply Z.div_lt_upper_bound; lia]).
  replace (len b `div` 256 * 256 + len b `mod` 256) with (len b) by (pose proof (Z.div_mod (len b) 256); lia).
  assert (Hr : len (replicate (Z.to_nat padding) 0) = padding) by (unfold len; rewrite length_replicate; lia).
  rewrite !len_cons, !len_app, Hr. pose proof (len_nonneg more). rewrite (proj2 (Z.ltb_ge _ _)) by lia.
  rewrite <- app_assoc, ztake_app_exact by done.
  rewrite app_assoc, zdrop_app_exact by (rewrite len_app; lia). done.
Qed.

Lemma write_all_unframe r ws wire accepted :
  Forall (fun w => 0 <= fst w <= 255) ws -> write_all r ws = Ok (wire, accepted) ->
  exists r', unframe r wire = (r', [], accepted).
Proof.
  intros Hw. revert r wire accepted. induction Hw as [|[padding b] ws Hp Hw IH]; intros r wire accepted; cbn [write_all].
  { intros [= <- <-]. exists r. apply unframe_nil. }
  cbn [fst] in Hp. unfold poll_write, encode. set (b' := ztake _ b).
  assert (Hl : len b' <= MAX_PAYLOAD).
  { unfold b'. pose proof (len_nonneg b). rewrite len_ztake; unfold MAX_PAYLOAD; lia. }
  assert (Hn : ztake (len b') b = b').
  { unfold b'. pose proof (len_nonneg b). rewrite len_ztake by (unfold MAX_PAYLOAD; lia). f_equal. unfold MAX_PAYLOAD. lia. }
  destruct (len b' =? 0) eqn:Hz; zify_bool; cbn [mbind res_bind].
  - destruct (write_all r ws) as [[w a]|e] eqn:Hrest; [|done]. cbn [mbind res_bind]. intros [= <- <-].
    rewrite Hn, (proj1 (len_zero b') Hz). cbn [app]. by eapply IH.
  - rewrite (proj2 (Z.ltb_ge _ _)) by lia. destruct r as [|r]; cbn [mbind res_bind].
    + destruct (write_all 0 ws) as [[w a]|e] eqn:Hrest; [|done]. cbn [mbind res_bind]. intros [= <- <-]. rewrite Hn.
      destruct (IH 0%nat w a Hrest) as (r' & Hu). exists 0%nat. cbn [unframe] in *.
      rewrite (proj2 (Z.eqb_neq _ 0)) by len_lia. destruct (len w =? 0) eqn:Hw0; zify_bool.
      * apply len_zero in Hw0 as ->. injection Hu as _ <-. done.
      * by injection Hu as _ ->.
    + destruct (write_all r ws) as [[w a]|e] eqn:Hrest; [|done]. cbn [mbind res_bind]. intros [= <- <-]. rewrite Hn.
      destruct (IH r w a Hrest) as (r' & Hu). exists r'. cbn [unframe].
      pose proof (frame_head_encoded padding b' w Hp Hl) as Hfh. cbn [be_put app] in Hfh.
      rewrite Hfh, Hu. by rewrite (proj2 (Z.eqb_neq _ 0)) by len_lia.
Qed.

Lemma write_all_bytes r ws wire accepted :
  Forall (fun w => 0 <= fst w <= 255 /\ Forall is_byte (snd w)) ws ->
  write_all r ws = Ok (wire, accepted) -> Forall is_byte wire.
Proof.
  intros Hw. revert r wire accepted. induction Hw as [|[padding b] ws [Hp Hb] Hw IH]; intros r wire accepted; cbn [write_all].
  { intros [= <- <-]. constructor. }
  cbn [fst snd] in *. destruct (poll_write padding r b) as [[[r1 out] n]|e] eqn:He; [|done]. cbn [mbind res_bind].
  destruct (write_all r1 ws) as [[w a]|e] eqn:Hrest; [|done]. intros [= <- <-]. apply Forall_app. split; [|by eapply IH].
  unfold poll_write, encode in He. set (b' := ztake _ b) in *.
  assert (Hb' : Forall is_byte b') by (by apply Forall_take). destruct (len b' =? 0); [by simplify_eq/=; constructor|].
  destruct (_ <? _); [done|]. destruct r; simplify_eq/=; [done|].
  repeat first [apply Forall_cons; split]; try (unfold is_byte; lia || (apply Z.mod_pos_bound; lia)).
  apply Forall_app. split; [done|]. apply Forall_replicate. done.
Qed.

Lemma join_bytes (l : list bytes) : Forall is_byte (mjoin l) -> Forall (Forall is_byte) l.
Proof. induction l as [|b l IH]; [by constructor|]. cbn. intros [? ?]%Forall_app. constructor; auto. Qed.

(** The bytes a sequence of writes accepts: each up to the largest payload. *)
Definition accepted_bytes (ws : list (Z * bytes)) : bytes := mjoin ((fun w => ztake MAX_PAYLOAD (snd w)) <$> ws).

Lemma write_all_total r ws : exists wire, write_all r ws = Ok (wire, accepted_bytes ws).
Proof.
  revert r. induction ws as [|[padding b] ws IH]; intros r; [by exists []|]. cbn [write_all].
  assert (Hb : ztake (Z.min (len b) MAX_PAYLOAD) b = ztake MAX_PAYLOAD b).
  { destruct (decide (len b <= MAX_PAYLOAD)); [rewrite !ztake_ge by lia; done|]. f_equal. lia. }
  assert (Hw : exists r' out, poll_write padding r b = Ok (r', out, len (ztake MAX_PAYLOAD b))).
  { unfold poll_write, encode. rewrite Hb. destruct (_ =? 0); [by eexists _, _|].
    rewrite (proj2 (Z.ltb_ge _ _)); [destruct r; by eexists _, _|].
    rewrite len_ztake by done. lia. }
  destruct Hw as (r' & out & ->). cbn [mbind res_bind]. destruct (IH r') as (wire & ->). cbn [mbind res_bind].
  exists (out ++ wire). do 2 f_equal. change (accepted_bytes ((padding, b) :: ws)) with (ztake MAX_PAYLOAD b ++ accepted_bytes ws).
  f_equal. unfold ztake, len. rewrite length_take, Nat2Z.id. by rewrite <- take_take, take_ge with (n := length b).
Qed.

(** Padding is transparent: whatever is written, with whatever random padding, encoding
    succeeds; and however the transport cuts the wire into pieces, the reader's items are exactly
    the accepted bytes, each write up to the largest payload, and it ends cleanly.  A transport
    that stops early delivers a prefix of them. *)
Theorem padding_roundtrip enabled ws :
  Forall (fun w => 0 <= fst w <= 255 /\ Forall is_byte (snd w)) ws ->
  exists wire, write_all (new enabled) ws = Ok (wire, accepted_bytes ws) /\
  forall pieces missing, mjoin pieces ++ missing = wire ->
  let '(r, rest, items) := read_all (new enabled) [] pieces in
  mjoin items `prefix_of` accepted_bytes ws /\
  (missing = [] -> mjoin items = accepted_bytes ws /\ finish r rest = Ok None).
Proof.
  intros Hws. destruct (write_all_total (new enabled) ws) as (wire & Hwrite). exists wire. split; [done|].
  intros pieces missing Hwire. set (accepted := accepted_bytes ws) in *.
  destruct (write_all_unframe (new enabled) ws wire accepted) as (r' & Hu); [|done|].
  { eapply Forall_impl; [exact Hws|]. by intros ? [? ?]. }
  pose proof (write_all_bytes _ _ _ _ Hws Hwrite) as Hbytes. rewrite <- Hwire in Hbytes.
  apply Forall_app in Hbytes as [Hbytes _]. pose proof (join_bytes _ Hbytes) as Hpieces.
  pose proof (read_all_unframe (new enabled) [] pieces Hpieces ltac:(constructor) (unframe_nil _)) as Hread.
  destruct (read_all (new enabled) [] pieces) as [[r rest] items]. cbn [app] in Hread. destruct Hread as [Hread Hrest].
  rewrite <- Hwire, unframe_app, Hread in Hu by done. destruct (unframe r (rest ++ missing)) as [[r2 rest2] o2] eqn:H2.
  injection Hu as <- -> <-. split; [by exists o2|]. intros ->. rewrite app_nil_r in *.
  rewrite Hrest in H2. injection H2 as <- -> <-. rewrite app_nil_r. split; [done|]. by destruct r.
Qed.

Definition demo_writes : list (Z * bytes) := [(2, [1; 2; 3]); (0, []); (255, [4])].
Definition demo_wire : bytes := match write_all (new true) demo_writes with Ok (w, _) => w | Err _ => [] end.
Definition demo_pieces : list bytes := [ztake 1 demo_wire; ztake 6 (zdrop 1 demo_wire); zdrop 7 demo_wire].

Lemma padding_roundtrip_witness :
  let '(r, rest, items) := read_all (new true) [] demo_pieces in
  mjoin items = accepted_bytes demo_writes /\ finish r rest = Ok None.
Proof.
  destruct (padding_roundtrip true demo_writes) as (wire & Hw & Hp).
  - repeat constructor; unfold is_byte; cbn; lia.
  - specialize (Hp demo_pieces []). destruct (read_all (new true) [] demo_pieces) as [[r rest] items].
    apply Hp; [|reflexivity]. assert (Hd : write_all (new true) demo_writes = Ok (demo_wire, accepted_bytes demo_writes)) by (vm_compute; reflexivity).
    rewrite Hd in Hw. injection Hw as <-. vm_compute. reflexivity.
Defined.

End NaivePadding.
