(* ===== verification/Carrier.v ===== *)
(** * Carriers and targets (crates/protocol/src/lib.rs)

    What a carrier offers to the adapters above it, the check a request passes before any I/O, and
    the target an endpoint is reached by. *)

From S2P Require Import Prelude Packet NetText.
Import NetText.

Module Carrier.

Abbreviation IpAddress := Packet.IpAddress.

Inductive TransportProtocol := TCP | UDP.

#[export] Instance TransportProtocol_eq_dec : EqDecision TransportProtocol.
Proof. solve_decision. Defined.

Inductive error := LacksCapabilities | NoAddresses | RequiresIp | ResolverFailed.

Record Capabilities := mkCapabilities { tcp : bool; udp : bool; domain_targets : bool }.

Definition TCP_ONLY : Capabilities := mkCapabilities true false false.
Definition UDP_ONLY : Capabilities := mkCapabilities false true false.
Definition BOTH : Capabilities := mkCapabilities true true false.

(** [Capabilities::require] *)
Definition require (c required : Capabilities) : res error unit :=
  if (tcp required && negb (tcp c)) || (udp required && negb (udp c)) ||
     (domain_targets required && negb (domain_targets c))
  then Err LacksCapabilities else Ok tt.

Definition is_domain (t : Target) : bool := match t with Domain _ _ => true | Ip _ _ => false end.

(** [Capabilities::require_for] *)
Definition require_for (c : Capabilities) (protocol : TransportProtocol) (t : Target) : res error unit :=
  let transport := match protocol with TCP => TCP_ONLY | UDP => UDP_ONLY end in
  require c (mkCapabilities (tcp transport) (udp transport) (is_domain t)).

(** [Endpoint::target], with the resolver's answer for the endpoint's own name. *)
Definition endpoint_target (resolve : bytes -> res error (list IpAddress)) (c : Capabilities) (address : Target) :
  res error Target :=
  match address with
  | Domain name port =>
      if negb (domain_targets c) then
        addresses ← resolve name;
        match addresses with a :: _ => Ok (Ip a port) | [] => Err NoAddresses end
      else Ok address
  | Ip _ _ => Ok address
  end.

(** [from_server] *)
Definition from_server (server source : Target) : bool :=
  match server with
  | Domain _ port => target_port source =? port
  | Ip _ _ => bool_decide (server = source)
  end.

(** [socket_addr] and [target] *)
Definition socket_addr (t : Target) : res error (IpAddress * Z) :=
  match t with Ip a port => Ok (a, port) | Domain _ _ => Err RequiresIp end.

Definition target (a : IpAddress * Z) : Target := Ip (fst a) (snd a).

(** What [require_for] means: the transport is offered, and so are names if the target is one. *)
Lemma require_for_spec c protocol t :
  require_for c protocol t = Ok tt <->
  (match protocol with TCP => tcp c | UDP => udp c end = true /\ (is_domain t = true -> domain_targets c = true)).
Proof.
  unfold require_for, require. destruct c as [[] [] []], protocol, (is_domain t); cbn; naive_solver.
Qed.

(** An endpoint is asked for by a target its carrier accepts: the only check left is the transport. *)
Lemma endpoint_target_accepted resolve c protocol address t :
  endpoint_target resolve c address = Ok t ->
  target_port t = target_port address /\
  (require_for c protocol t = Ok tt <-> match protocol with TCP => tcp c | UDP => udp c end = true).
Proof.
  intros He.
  assert (Ht : target_port t = target_port address /\ (is_domain t = true -> domain_targets c = true)).
  { unfold endpoint_target in He. destruct address as [name port|a port]; [|by injection He as <-].
    destruct (domain_targets c); cbn [negb] in He; [by injection He as <-|].
    destruct (resolve name) as [[|a l]|e]; cbn in He; try done. by injection He as <-. }
  destruct Ht as [? Hd]. split; [done|]. rewrite require_for_spec. naive_solver.
Qed.

End Carrier.
