(* ===== verification/DnsCache.v ===== *)
(** * DNS response cache (crates/dns/src/cache.rs)

    The cache of upstream responses: which requests have a key, which responses are stored and for
    how long, and how a hit is aged.  Messages are hickory's, reduced to the fields the code reads;
    their encoding and the negative TTL are its functions.  Storage is moka's: an entry may be
    evicted at any time, and the code checks the age itself. *)

From S2P Require Import Prelude.

Module DnsCache.

Definition SOA : Z := 6.
Definition ANY : Z := 255.
Definition NoError : Z := 0.
Definition NXDomain : Z := 3.

(** [Query] and [Record]. *)
Record Query := mkQuery { q_name : bytes; query_type : Z; query_class : Z }.
Record Rr := mkRr { rr_name : bytes; record_type : Z; ttl : Z; rdata : bytes }.

(** [Message]; [settings] are the other flags and EDNS settings, [edns_options] the options of an
    EDNS record. *)
Record Message := mkMessage {
  id : Z;
  is_query : bool;
  op_code : Z;
  truncation : bool;
  response_code : Z;
  queries : list Query;
  answers : list Rr;
  authorities : list Rr;
  additionals : list Rr;
  signature : bool;
  edns_options : list bytes;
  settings : bytes;
}.

#[export] Instance Query_eq_dec : EqDecision Query.
Proof. solve_decision. Defined.
#[export] Instance Rr_eq_dec : EqDecision Rr.
Proof. solve_decision. Defined.
#[export] Instance Message_eq_dec : EqDecision Message.
Proof. solve_decision. Defined.

(** A message with its id and questions replaced. *)
Definition with_id (i : Z) (qs : list Query) (m : Message) : Message :=
  mkMessage i (is_query m) (op_code m) (truncation m) (response_code m) qs (answers m) (authorities m)
    (additionals m) (signature m) (edns_options m) (settings m).

Definition with_sections (an au ad : list Rr) (m : Message) : Message :=
  mkMessage (id m) (is_query m) (op_code m) (truncation m) (response_code m) (queries m) an au ad
    (signature m) (edns_options m) (settings m).

Definition with_ttl (t : Z) (r : Rr) : Rr := mkRr (rr_name r) (record_type r) t (rdata r).

(** [Message::to_vec], [DnsResponse::negative_ttl] and the equality of [Name]s. *)
Class Hickory := {
  to_vec : Message -> option bytes;
  negative_ttl : Message -> option Z;
  same_name : bytes -> bytes -> bool;
}.

(** A name without the case of its ASCII letters. *)
Definition folded (name : bytes) : bytes := (fun c => if (65 <=? c) && (c <=? 90) then c + 32 else c) <$> name.

(** Distinct messages have distinct encodings; names are equal when they differ in case only. *)
Class HickoryLaws `{Hickory} := {
  to_vec_inj m m' b : to_vec m = Some b -> to_vec m' = Some b -> m = m';
  same_name_folded a b : same_name a b = true <-> folded a = folded b;
}.

(** [Entry]; times and durations in nanoseconds. *)
Record Entry := mkEntry { message : Message; inserted : Z; e_ttl : Z }.

Definition SECOND : Z := 1000000000.

Abbreviation ResponseCache := (gmap bytes Entry).

Section cache.
Context `{Hickory}.

(** [ResponseCache::key] *)
Definition key (request : Message) : option bytes :=
  if signature request || negb (len (additionals request) =? 0) || negb (len (edns_options request) =? 0)
  then None else to_vec (with_id 0 (queries request) request).

(** [DnsResponse::from_message] *)
Definition from_message (m : Message) : option Message := match to_vec m with Some _ => Some m | None => None end.

(** The TTL of a record after [seconds]. *)
Definition aged (seconds : Z) (r : Rr) : Rr := with_ttl (sat_sub (ttl r) seconds) r.

(** [ResponseCache::get] *)
Definition get (now : Z) (k : bytes) (request : Message) (c : ResponseCache) : ResponseCache * option Message :=
  match c !! k with
  | None => (c, None)
  | Some e =>
      let elapsed := sat_sub now (inserted e) in
      if e_ttl e <=? elapsed then (delete k c, None) else
      let seconds := Z.min (elapsed `div` SECOND) u32_max in
      let m := with_id (id request) (queries request) (message e) in
      (c, from_message (with_sections (aged seconds <$> answers m) (aged seconds <$> authorities m)
                          (aged seconds <$> additionals m) m))
  end.

(** The responses that are not stored. *)
Definition uncacheable (r : Message) : bool :=
  truncation r || signature r || negb ((response_code r =? NoError) || (response_code r =? NXDomain)) ||
  negb (len (edns_options r) =? 0).

(** A response that has an answer to its question. *)
Definition positive (r : Message) : bool :=
  let query_type := query_type <$> head (queries r) in
  (response_code r =? NoError) &&
  existsb (fun a => bool_decide (Some (record_type a) = query_type) || bool_decide (query_type = Some ANY)) (answers r).

Definition minimum (l : list Z) : option Z :=
  match l with [] => None | x :: l => Some (foldl Z.min x l) end.

Definition records (r : Message) : list Rr := answers r ++ authorities r ++ additionals r.

(** How long a response may be stored, in seconds. *)
Definition lifetime (r : Message) : option Z :=
  let records_ttl := minimum (ttl <$> records r) in
  if positive r then records_ttl
  else match negative_ttl r with
       | Some t => Some (match records_ttl with Some x => Z.min x t | None => t end)
       | None => None
       end.

(** The entry [insert] stores, if any. *)
Definition stored (now : Z) (r : Message) : option Entry :=
  if uncacheable r then None else
  match lifetime r with
  | None => None
  | Some t =>
      if negb (0 <? t) then None else
      let m := if positive r then r
               else with_sections (answers r)
                      ((fun a => if record_type a =? SOA then with_ttl (Z.min (ttl a) t) a else a) <$> authorities r)
                      (additionals r) r in
      Some (mkEntry m now (t * SECOND))
  end.

(** [ResponseCache::insert] *)
Definition insert (now : Z) (k : bytes) (r : Message) (c : ResponseCache) : ResponseCache :=
  match stored now r with Some e => <[k := e]> c | None => c end.
End cache.

(** ** Sequences of operations *)

Inductive op :=
| Get (now : Z) (k : bytes) (request : Message)
| Insert (now : Z) (k : bytes) (response : Message)
| Evict (k : bytes).

Section runs.
Context `{Hickory}.

Definition step (c : ResponseCache) (o : op) : ResponseCache * option Message :=
  match o with
  | Get now k request => get now k request c
  | Insert now k r => (insert now k r c, None)
  | Evict k => (delete k c, None)
  end.

Definition run (ops : list op) : ResponseCache := foldl (fun c o => fst (step c o)) ∅ ops.

(** The response stored last under a key, with its time: what a cache that forgets nothing holds. *)
Definition latest (k : bytes) (ops : list op) : option (Z * Message) :=
  foldl (fun acc o =>
    match o with
    | Insert now k' r => if bool_decide (k' = k) && bool_decide (stored now r <> None) then Some (now, r) else acc
    | _ => acc
    end) None ops.

(** Every entry is the one its key was given last. *)
Lemma run_latest ops k e :
  run ops !! k = Some e -> exists t r, latest k ops = Some (t, r) /\ stored t r = Some e.
Proof.
  induction ops as [|o ops IH] using rev_ind; [done|].
  unfold run, latest in *. rewrite !foldl_app. cbn [foldl]. set (c := foldl _ ∅ ops) in *. set (l := foldl _ None ops) in *.
  destruct o as [now k' request|now k' r|k']; cbn [step fst].
  - unfold get. destruct (c !! k') as [e'|] eqn:He'; [|done]. destruct (_ <=? _); [|done].
    cbn [fst]. intros [_ ?]%lookup_delete_Some. auto.
  - unfold insert. destruct (stored now r) as [e'|] eqn:Hs.
    + intros [[-> <-]|[Hne ?]]%lookup_insert_Some.
      * rewrite !bool_decide_true by done. eauto.
      * rewrite (bool_decide_false (k' = k)) by done. auto.
    + rewrite (bool_decide_false (None <> None)) by auto. rewrite andb_false_r. auto.
  - intros [_ ?]%lookup_delete_Some. auto.
Qed.

Lemma latest_in k ops t r : latest k ops = Some (t, r) -> Insert t k r ∈ ops.
Proof.
  induction ops as [|o ops IH] using rev_ind; [done|]. unfold latest in *. rewrite foldl_app. cbn [foldl].
  rewrite elem_of_app, list_elem_of_singleton. destruct o as [now k' request|now k' r'|k']; [by auto| |by auto].
  destruct (bool_decide (k' = k)) eqn:Hk; cbn [andb]; [|by auto]. apply bool_decide_eq_true in Hk as ->.
  destruct (bool_decide _); [intros [= -> ->]|]; by auto.
Qed.

Lemma foldl_min_le l x y : y = x \/ y ∈ l -> foldl Z.min x l <= y.
Proof.
  revert x y. induction l as [|z l IH]; intros x y Hy; cbn [foldl].
  - destruct Hy as [->|Hy]; [lia|set_solver].
  - destruct Hy as [->|[->|Hy]%elem_of_cons].
    + transitivity (Z.min x z); [apply IH; by left|lia].
    + transitivity (Z.min x z); [apply IH; by left|lia].
    + apply IH. by right.
Qed.

Lemma minimum_le l m x : minimum l = Some m -> x ∈ l -> m <= x.
Proof.
  destruct l as [|y l]; [done|]. intros [= <-] Hx. apply foldl_min_le. set_solver.
Qed.

(** The lifetime of a response is at most the TTL of each of its records. *)
Lemma lifetime_le r t a : lifetime r = Some t -> a ∈ records r -> t <= ttl a.
Proof.
  unfold lifetime. intros Ht Ha. assert (Hin : ttl a ∈ ttl <$> records r) by (by apply list_elem_of_fmap_2).
  destruct (minimum (ttl <$> records r)) as [m|] eqn:Hm.
  - pose proof (minimum_le _ _ _ Hm Hin). destruct (positive r); [by injection Ht as <-|].
    destruct (negative_ttl r); [injection Ht as <-; lia|done].
  - destruct (ttl <$> records r); [set_solver|done].
Qed.

(** A record as stored and as served after [seconds]. *)
Definition serves (seconds : Z) (a b : Rr) : Prop :=
  rr_name b = rr_name a /\ record_type b = record_type a /\ rdata b = rdata a /\
  1 <= ttl b <= ttl a - seconds /\ (record_type a <> SOA -> ttl b = ttl a - seconds).

Lemma aged_serves t seconds a : 0 <= seconds < t -> t <= ttl a -> serves seconds a (aged seconds a).
Proof. intros Hs Ht. unfold serves, aged, with_ttl, sat_sub. cbn. split_and!; try done; lia. Qed.

Lemma capped_serves t seconds a :
  0 <= seconds < t -> t <= ttl a ->
  serves seconds a (aged seconds (if record_type a =? SOA then with_ttl (Z.min (ttl a) t) a else a)).
Proof.
  intros Hs Ht. destruct (_ =? _) eqn:He; zify_bool; [|by apply (aged_serves t)].
  unfold serves, aged, with_ttl, sat_sub. cbn. split_and!; try done; lia.
Qed.

Lemma Forall2_fmap_r_in {B} (P : B -> B -> Prop) (f : B -> B) (l : list B) :
  (forall x, x ∈ l -> P x (f x)) -> Forall2 P l (f <$> l).
Proof.
  induction l as [|x l IH]; intros Hl; [constructor|]. constructor; [apply Hl; set_solver|]. apply IH. set_solver.
Qed.

(** The sections of a hit. *)
Lemma stored_serves t0 r e seconds :
  stored t0 r = Some e -> 0 <= seconds -> seconds * SECOND < e_ttl e ->
  uncacheable r = false /\ inserted e = t0 /\ response_code (message e) = response_code r /\
  is_query (message e) = is_query r /\ truncation (message e) = false /\
  Forall2 (serves seconds) (answers r) (aged seconds <$> answers (message e)) /\
  Forall2 (serves seconds) (authorities r) (aged seconds <$> authorities (message e)) /\
  Forall2 (serves seconds) (additionals r) (aged seconds <$> additionals (message e)).
Proof.
  unfold stored. destruct (uncacheable r) eqn:Hu; [done|]. destruct (lifetime r) as [t|] eqn:Ht; [|done].
  destruct (0 <? t) eqn:Hp; [|done]. cbn [negb]. zify_bool. intros [= <-] Hs0. cbn [e_ttl message inserted]. intros Hs.
  assert (Hlt : seconds < t) by (unfold SECOND in Hs; lia).
  assert (Htr : truncation r = false) by (unfold uncacheable in Hu; zify_bool; done).
  assert (Hle : forall a, a ∈ records r -> t <= ttl a) by (intros; by eapply lifetime_le).
  unfold records in Hle.
  destruct (positive r); cbn [message answers authorities additionals with_sections response_code is_query truncation];
    split_and!; try done; try (rewrite <- list_fmap_compose);
    apply Forall2_fmap_r_in; intros a Ha; try (apply (aged_serves t); [lia|apply Hle; set_solver]).
  apply (capped_serves t); [lia|apply Hle; set_solver].
Qed.

(** Saturating the age at the width of a TTL changes nothing. *)
Lemma serves_saturated s l l' :
  Forall (fun a => ttl a <= u32_max) l -> Forall2 (serves s) l (aged s <$> l') ->
  Forall2 (serves s) l (aged (Z.min s u32_max) <$> l').
Proof.
  intros Hl Hs. destruct l as [|a l]; [by destruct l'; inversion Hs|].
  rewrite Z.min_l; [done|]. apply Forall_cons in Hl as [Ha _]. inversion Hs as [|? ? ? ? (_ & _ & _ & Hb & _)]. lia.
Qed.

(** The response of a hit: the entry's message under the request's id and question, aged. *)
Definition hit (now : Z) (request : Message) (e : Entry) : Message :=
  let seconds := Z.min (sat_sub now (inserted e) `div` SECOND) u32_max in
  let m := with_id (id request) (queries request) (message e) in
  with_sections (aged seconds <$> answers m) (aged seconds <$> authorities m) (aged seconds <$> additionals m) m.

(** The cache serves only fresh, storable answers, aged exactly: a response served for a key
    carries the request's id and question and is the response stored last under that key; that one
    was complete, unsigned, without client-specific options, and answered or denied the name; each
    of its records is served with a TTL lowered by the whole seconds since (a denial's SOA at most
    so much), never below one second and never past the lifetime.  And what is stored is served:
    a storable response is a hit until its lifetime ends. *)
Theorem dns_cache_serves_fresh ops now k request :
  Forall (fun o => match o with Insert _ _ r => Forall (fun a => ttl a <= u32_max) (records r) | _ => True end) ops ->
  (forall m, snd (get now k request (run ops)) = Some m ->
    exists t0 r, latest k ops = Some (t0, r) /\ uncacheable r = false /\
      id m = id request /\ queries m = queries request /\ response_code m = response_code r /\
      let seconds := sat_sub now t0 `div` SECOND in
      Forall2 (serves seconds) (answers r) (answers m) /\
      Forall2 (serves seconds) (authorities r) (authorities m) /\
      Forall2 (serves seconds) (additionals r) (additionals m)) /\
  (forall t0 r e, stored t0 r = Some e -> sat_sub now t0 < e_ttl e ->
    snd (get now k request (insert t0 k r (run ops))) = from_message (hit now request e)).
Proof.
  intros Hops. split.
  - intros m. unfold get. destruct (run ops !! k) as [e|] eqn:He; [|done].
    destruct (run_latest _ _ _ He) as (t0 & r & Hl & Hs).
    destruct (e_ttl e <=? _) eqn:Hfresh; zify_bool; [done|]. cbn [snd]. unfold from_message.
    destruct (to_vec _); [|done]. intros [= <-].
    pose proof (proj1 (Forall_forall _ _) Hops _ (latest_in _ _ _ _ Hl)) as Hu32. cbn beta iota in Hu32.
    assert (Hins : inserted e = t0) by (unfold stored in Hs; repeat case_match; by simplify_eq/=). rewrite Hins in *.
    assert (Hnn : 0 <= sat_sub now t0) by (unfold sat_sub; lia).
    set (s := sat_sub now t0 `div` SECOND). assert (Hsn : 0 <= s) by (apply Z.div_pos; [done|unfold SECOND; lia]).
    assert (Hmul : s * SECOND <= sat_sub now t0) by (unfold s; rewrite Z.mul_comm; apply Z.mul_div_le; unfold SECOND; lia).
    destruct (stored_serves t0 r e s Hs Hsn ltac:(lia)) as (Hu & _ & Hrc & _ & _ & Han & Hau & Had).
    exists t0, r. cbn [id queries response_code with_sections with_id answers authorities additionals].
    unfold records in Hu32. apply Forall_app in Hu32 as [? [? ?]%Forall_app].
    split_and!; try done; by apply serves_saturated.
  - intros t0 r e Hs Hf. unfold insert. rewrite Hs. unfold get. rewrite lookup_insert_eq.
    assert (Hins : inserted e = t0) by (unfold stored in Hs; repeat case_match; by simplify_eq/=). rewrite Hins in *.
    rewrite (proj2 (Z.leb_gt _ _)) by lia. cbn [snd]. unfold hit. by rewrite Hins.
Qed.
End runs.

(** ** A concrete codec *)

Definition message_tuple (m : Message) :=
  (id m, is_query m, op_code m, truncation m, response_code m,
   (fun q => (q_name q, query_type q, query_class q)) <$> queries m,
   ((fun r => (rr_name r, record_type r, ttl r, rdata r)) <$> answers m,
    (fun r => (rr_name r, record_type r, ttl r, rdata r)) <$> authorities m,
    (fun r => (rr_name r, record_type r, ttl r, rdata r)) <$> additionals m),
   signature m, edns_options m, settings m).

Lemma message_tuple_inj m m' : message_tuple m = message_tuple m' -> m = m'.
Proof.
  assert (Hr : forall l l' : list Rr,
    (fun r => (rr_name r, record_type r, ttl r, rdata r)) <$> l = (fun r => (rr_name r, record_type r, ttl r, rdata r)) <$> l' -> l = l').
  { apply list_fmap_eq_inj. intros [] [] [=]. by subst. }
  assert (Hq : forall l l' : list Query, (fun q => (q_name q, query_type q, query_class q)) <$> l = (fun q => (q_name q, query_type q, query_class q)) <$> l' -> l = l').
  { apply list_fmap_eq_inj. intros [] [] [=]. by subst. }
  destruct m, m'. cbn. intros [= -> -> -> -> -> ->%Hq ->%Hr ->%Hr ->%Hr -> -> ->]. done.
Qed.

(** One number that determines the message; the negative TTL is that of the first SOA record. *)
Definition demo_hickory : Hickory := {|
  to_vec m := Some [Zpos (encode (message_tuple m))];
  negative_ttl m := ttl <$> head (filter (fun r => record_type r = SOA) (authorities m));
  same_name a b := bool_decide (folded a = folded b);
|}.

Definition demo_hickory_laws : @HickoryLaws demo_hickory.
Proof.
  constructor; [|intros a b; apply bool_decide_eq_true]. intros m m' b [= <-] [= He%encode_inj]. symmetry. by apply message_tuple_inj.
Qed.

Definition demo_question : Message := mkMessage 7 true 0 false 0 [mkQuery [97] 1 1] [] [] [] false [] [].
Definition demo_answer : Message :=
  mkMessage 9 false 0 false 0 [mkQuery [97] 1 1] [mkRr [97] 1 60 [1; 2; 3; 4]] [] [mkRr [98] 1 20 [5]] false [] [].
Definition demo_cache_ops : list op := [Insert 0 [5] demo_answer; Evict [6]].

Lemma dns_cache_serves_fresh_witness :
  let c := @run demo_hickory demo_cache_ops in
  exists t0 r, @latest demo_hickory [5] demo_cache_ops = Some (t0, r) /\ uncacheable r = false.
Proof.
  intros c. destruct (@dns_cache_serves_fresh demo_hickory demo_cache_ops (3 * SECOND) [5] demo_question) as [Hw _].
  - repeat constructor; cbn; discriminate.
  - destruct (Hw (hit (3 * SECOND) demo_question (mkEntry demo_answer 0 (20 * SECOND)))) as (t0 & r & H1 & H2 & _).
    + vm_compute. reflexivity.
    + exists t0, r. exact (conj H1 H2).
Defined.

End DnsCache.
