(* ===== verification/DnsService.v ===== *)
(** * DNS service (crates/dns/src/service.rs)

    A query: the admission of the request, the cache, the exchange with the upstream and its TCP
    retry, and the checks on the response; and the exchange itself, with its pooled connections. *)

From S2P Require Import Prelude Packet NetText Carrier DnsCache.
Import NetText Carrier DnsCache.

Module DnsService.

Definition AXFR : Z := 252.
Definition IXFR : Z := 251.
Definition QUERY : Z := 0.

(** hickory's [NetError]. *)
Inductive NetError := Timeout | ConnectionClosed | Failed (code : Z).

Inductive error :=
| NotOrdinary | Authenticated | ZoneTransfer | DeadlineRange | Mismatch | Unencodable
| ZeroTimeout | ZeroPort | Unsupported | Net (e : NetError) | OutOfRounds.

(** ** The exchange *)

(** The pooled connection of each transport, by the generation it was made in; the generations
    whose connection has finished. *)
Record Pool := mkPool { slot : TransportProtocol -> option Z; generation : Z; finished : gset Z }.

Definition set_slot (protocol : TransportProtocol) (v : option Z) (p : Pool) : Pool :=
  mkPool (fun q => if bool_decide (q = protocol) then v else slot p q) (generation p) (finished p).

(** One round's environment: what other queries and the network do to the pool before the
    connection is taken and while the request waits, whether it is taken before the deadline, and how
    connecting and sending end. *)
Record Round := mkRound {
  before : Pool -> Pool;
  in_time : bool;
  connect : res NetError unit;
  during : Pool -> Pool;
  sent : res NetError Message;
}.

(** [NetError::is_connection_closed] *)
Definition connection_closed (e : NetError) : bool := match e with ConnectionClosed => true | _ => false end.

(** Taking the pooled connection, or making one: its generation and whether it was pooled. *)
Definition acquire (protocol : TransportProtocol) (in_time : bool) (c : res NetError unit) (p : Pool) :
  Pool * res NetError (Z * bool) :=
  if negb in_time then (p, Err Timeout) else
  let p := match slot p protocol with
           | Some g => if bool_decide (g ∈ finished p) then set_slot protocol None p else p
           | None => p
           end in
  match slot p protocol with
  | Some g => (p, Ok (g, true))
  | None =>
      match c with
      | Err e => (p, Err e)
      | Ok _ =>
          let g := generation p in
          let p := mkPool (slot p) (wrap_add g 1) (finished p) in
          (set_slot protocol (Some g) p, Ok (g, false))
      end
  end.

(** [Service::exchange]: the loop, with the rounds the environment has for it. *)
Fixpoint exchange_loop (protocol : TransportProtocol) (reconnected : bool) (rounds : list Round) (p : Pool) :
  Pool * res error Message :=
  match rounds with
  | [] => (p, Err OutOfRounds)
  | r :: rounds =>
      match acquire protocol (in_time r) (connect r) (before r p) with
      | (p, Err e) => (p, Err (Net e))
      | (p, Ok (g, reused)) =>
          let p := during r p in
          match sent r with
          | Ok m => (p, Ok m)
          | Err e =>
              let p := if bool_decide (slot p protocol = Some g) then set_slot protocol None p else p in
              if reused && negb reconnected && bool_decide (protocol = TCP) &&
                 (connection_closed e || bool_decide (g ∈ finished p))
              then exchange_loop protocol true rounds p
              else (p, Err (Net e))
          end
      end
  end.

Definition exchange (protocol : TransportProtocol) (rounds : list Round) (p : Pool) : Pool * res error Message :=
  exchange_loop protocol false rounds p.

(** ** Queries *)

Record Config := mkConfig {
  timeout : Z;
  server : IpAddress * Z;
  upstream_protocol : TransportProtocol;
  cache_capacity : Z;
}.

Record Service := mkService {
  config : Config;
  pool : Pool;
  cache : option ResponseCache;
  tcp_fallback : bool;
}.

(** [Service::new] *)
Definition new (c : Config) (capabilities : Capabilities) : res error Service :=
  if timeout c =? 0 then Err ZeroTimeout else
  if snd (server c) =? 0 then Err ZeroPort else
  match require_for capabilities (upstream_protocol c) (target (server c)) with
  | Err _ => Err Unsupported
  | Ok _ =>
      let fallback :=
        bool_decide (upstream_protocol c = UDP) &&
        match require_for capabilities TCP (target (server c)) with Ok _ => true | Err _ => false end in
      Ok (mkService c (mkPool (fun _ => None) 0 ∅) (if 0 <? cache_capacity c then Some ∅ else None) fallback)
  end.

(** The environment of a query: the times it starts and ends at, and the rounds of its exchanges. *)
Record Env := mkEnv { now : Z; later : Z; first_rounds : list Round; second_rounds : list Round }.

Section query.
Context `{Hickory}.

(** The range of an instant. *)
Context (instant_max : Z).

(** [PartialEq] of [Query]: the names, types and classes; and of the lists of them. *)
Definition same_query (q q' : Query) : bool :=
  same_name (q_name q) (q_name q') && (query_type q =? query_type q') && (query_class q =? query_class q').

Fixpoint same_queries (l l' : list Query) : bool :=
  match l, l' with
  | [], [] => true
  | q :: l, q' :: l' => same_query q q' && same_queries l l'
  | _, _ => false
  end.

(** The requests the service forwards. *)
Definition admitted (request : Message) : res error unit :=
  if negb (is_query request && (op_code request =? QUERY) && (len (queries request) =? 1)) then Err NotOrdinary else
  if signature request then Err Authenticated else
  match queries request with
  | q :: _ => if (query_type q =? AXFR) || (query_type q =? IXFR) then Err ZoneTransfer else Ok tt
  | [] => Err NotOrdinary
  end.

(** The answer of the upstream: over the configured transport, and over TCP when it was cut short. *)
Definition upstream (e : Env) (s : Service) : Service * res error Message :=
  let '(p, r) := exchange (upstream_protocol (config s)) (first_rounds e) (pool s) in
  let s := mkService (config s) p (cache s) (tcp_fallback s) in
  match r with
  | Err e => (s, Err e)
  | Ok m =>
      if truncation m && tcp_fallback s then
        let '(p, r) := exchange TCP (second_rounds e) (pool s) in
        (mkService (config s) p (cache s) (tcp_fallback s), r)
      else (s, Ok m)
  end.

(** The checks on a response, and the id and question restored. *)
Definition accept (request m : Message) : res error Message :=
  if negb (negb (is_query m) && same_queries (queries m) (queries request)) then Err Mismatch else
  match from_message (with_id (id request) (queries request) m) with
  | Some m => Ok m
  | None => Err Unencodable
  end.

Definition with_cache (c : option ResponseCache) (s : Service) : Service :=
  mkService (config s) (pool s) c (tcp_fallback s).

(** [Service::query] *)
Definition query (e : Env) (request : Message) (s : Service) : Service * res error Message :=
  match admitted request with
  | Err err => (s, Err err)
  | Ok _ =>
      let k := match cache s with Some _ => key request | None => None end in
      let '(s, hit) :=
        match cache s, k with
        | Some c, Some k => let '(c, r) := get (now e) k request c in (with_cache (Some c) s, r)
        | _, _ => (s, None)
        end in
      match hit with
      | Some m => (s, Ok m)
      | None =>
          if instant_max <? now e + timeout (config s) then (s, Err DeadlineRange) else
          match upstream e s with
          | (s, Err err) => (s, Err err)
          | (s, Ok m) =>
              match accept request m with
              | Err err => (s, Err err)
              | Ok m =>
                  (match cache s, k with
                   | Some c, Some k => with_cache (Some (insert (later e) k m c)) s
                   | _, _ => s
                   end, Ok m)
              end
          end
      end
  end.
End query.

(** ** Exchanges end *)

(** One round. *)
Lemma exchange_step protocol rc r rounds p :
  exchange_loop protocol rc (r :: rounds) p =
  match acquire protocol (in_time r) (connect r) (before r p) with
  | (p, Err e) => (p, Err (Net e))
  | (p, Ok (g, reused)) =>
      let p := during r p in
      match sent r with
      | Ok m => (p, Ok m)
      | Err e =>
          let p := if bool_decide (slot p protocol = Some g) then set_slot protocol None p else p in
          if reused && negb rc && bool_decide (protocol = TCP) &&
             (connection_closed e || bool_decide (g ∈ finished p))
          then exchange_loop protocol true rounds p
          else (p, Err (Net e))
      end
  end.
Proof. done. Qed.

(** After a reconnection the next round is the last. *)
Lemma exchange_loop_once protocol r rounds p :
  exchange_loop protocol true (r :: rounds) p = exchange_loop protocol true [r] p /\
  snd (exchange_loop protocol true [r] p) <> Err OutOfRounds.
Proof.
  rewrite !exchange_step. destruct (acquire _ _ _ _) as [p1 [[g reused]|e]]; [|done]. destruct (sent r) as [m|e]; [done|].
  cbn [negb]. rewrite !andb_false_r. done.
Qed.

(** An exchange ends after at most one reconnection: it never uses more than two rounds, and
    over UDP, or on a connection it made itself, never more than one; and a connection that failed
    is not left in the pool for the next query. *)
Theorem dns_exchange_ends protocol r1 r2 rounds p :
  exchange protocol (r1 :: r2 :: rounds) p = exchange protocol [r1; r2] p /\
  snd (exchange protocol [r1; r2] p) <> Err OutOfRounds /\
  (protocol = UDP \/ (forall q, slot (before r1 q) protocol = None) ->
     exchange protocol [r1; r2] p = exchange protocol [r1] p) /\
  (forall g reused p1 e, acquire protocol (in_time r1) (connect r1) (before r1 p) = (p1, Ok (g, reused)) ->
     sent r1 = Err e -> slot (fst (exchange protocol [r1] p)) protocol <> Some g).
Proof.
  unfold exchange. split_and!.
  - rewrite !(exchange_step _ _ r1). destruct (acquire _ _ _ _) as [p1 [[g reused]|e]]; [|done]. destruct (sent r1) as [m|e]; [done|].
    cbn [negb]. destruct (_ && _); [|done]. apply exchange_loop_once.
  - rewrite !(exchange_step _ _ r1). destruct (acquire _ _ _ _) as [p1 [[g reused]|e]]; [|done]. destruct (sent r1) as [m|e]; [done|].
    cbn [negb]. destruct (_ && _); [|done]. apply (exchange_loop_once _ r2 []).
  - intros Hone. rewrite !(exchange_step _ _ r1). destruct (acquire _ _ _ _) as [p1 [[g reused]|e]] eqn:Ha; [|done].
    destruct (sent r1) as [m|e]; [done|]. cbn [negb].
    assert (reused && true && bool_decide (protocol = TCP) = false) as ->; [|done].
    destruct Hone as [->|Hnone]; [by rewrite andb_false_r|]. unfold acquire in Ha.
    destruct (in_time r1); [|done]. cbn [negb] in Ha. rewrite Hnone in Ha. rewrite Hnone in Ha.
    destruct (connect r1); by simplify_eq/=.
  - intros g reused p1 e Ha He. rewrite !(exchange_step _ _ r1). rewrite Ha, He.
    set (p2 := during r1 p1).
    set (p3 := if bool_decide (slot p2 protocol = Some g) then set_slot protocol None p2 else p2).
    assert (Hs : slot p3 protocol <> Some g).
    { unfold p3. destruct (bool_decide (slot p2 protocol = Some g)) eqn:Hb.
      - cbn. by rewrite bool_decide_true.
      - by apply bool_decide_eq_false in Hb. }
    cbv zeta. fold p3. match goal with |- context [if ?b then _ else _] => destruct b end; exact Hs.
Qed.

(** ** Sequences of queries *)

Inductive event := Query' (e : Env) (request : Message) | Evicted (k : bytes).

Section service.
Context `{HickoryLaws}.
Context (instant_max : Z).

Definition handle (s : Service) (ev : event) : Service * option (res error Message) :=
  match ev with
  | Query' e request => let '(s, r) := query instant_max e request s in (s, Some r)
  | Evicted k => (with_cache (delete k <$> cache s) s, None)
  end.

Fixpoint serve (s : Service) (evs : list event) : Service * list (option (res error Message)) :=
  match evs with
  | [] => (s, [])
  | ev :: evs =>
      let '(s, o) := handle s ev in
      let '(s, os) := serve s evs in
      (s, o :: os)
  end.

(** Requests that differ in their id only. *)
Definition same_question (q q' : Message) : Prop := with_id 0 (queries q) q = with_id 0 (queries q') q'.

(** A response that stands for [request]. *)
Definition answers_request (request m : Message) : Prop :=
  id m = id request /\ queries m = queries request /\ is_query m = false.

(** The questions are the same, but for the case of letters in the names. *)
Definition asks_same (q q' : Query) : Prop :=
  folded (q_name q) = folded (q_name q') /\ query_type q = query_type q' /\ query_class q = query_class q'.

Lemma same_queries_spec l l' : same_queries l l' = true <-> Forall2 asks_same l l'.
Proof.
  revert l'. induction l as [|q l IH]; intros [|q' l']; cbn; try (by split; [try done; constructor|inversion 1]).
  rewrite Forall2_cons, andb_true_iff, IH. unfold same_query, asks_same. rewrite !andb_true_iff, same_name_folded, !Z.eqb_eq. tauto.
Qed.

(** [m] is a message that is itself a response to [request]'s question, with its id and question replaced. *)
Definition restored (request r m : Message) : Prop :=
  is_query r = false /\ Forall2 asks_same (queries r) (queries request) /\ m = with_id (id request) (queries request) r.

(** [m] is [m0], which was received at [t0], as a cache serves it at [now]. *)
Definition cached_from (t0 : Z) (m0 : Message) (now : Z) (m : Message) : Prop :=
  uncacheable m0 = false /\ response_code m = response_code m0 /\
  let seconds := Z.min (sat_sub now t0 `div` SECOND) u32_max in
  Forall2 (serves seconds) (answers m0) (answers m) /\
  Forall2 (serves seconds) (authorities m0) (authorities m) /\
  Forall2 (serves seconds) (additionals m0) (additionals m).

(** The entries of the cache are responses given to earlier queries with the key they are under. *)
Definition provenance (past : list (Env * Message * Message)) (c : ResponseCache) : Prop :=
  forall k en, c !! k = Some en -> exists e q0 m0,
    (e, q0, m0) ∈ past /\ key q0 = Some k /\ (exists r, restored q0 r m0) /\ stored (later e) m0 = Some en.

(** What a query may answer: the upstream's response for it, or a cached one for its question. *)
Definition answered (past : list (Env * Message * Message)) (s : Service) (e : Env) (request m : Message) : Prop :=
  answers_request request m /\
  ((exists r, snd (upstream e s) = Ok r /\ restored request r m) \/
   exists e0 q0 m0, (e0, q0, m0) ∈ past /\ same_question q0 request /\ (exists r, restored q0 r m0) /\ cached_from (later e0) m0 (now e) m).

Lemma key_question q q' k : key q = Some k -> key q' = Some k -> same_question q q'.
Proof.
  unfold key. destruct (_ || _); [done|]. destruct (_ || _); [done|]. apply to_vec_inj.
Qed.

Lemma from_message_Some m m' : from_message m = Some m' -> m' = m.
Proof. unfold from_message. destruct (to_vec m); [by intros [= <-]|done]. Qed.

Lemma get_provenance past t k request c c' m e :
  provenance past c -> get t k request c = (c', Some m) -> key request = Some k -> now e = t ->
  answers_request request m /\
  exists e0 q0 m0, (e0, q0, m0) ∈ past /\ same_question q0 request /\ (exists r, restored q0 r m0) /\ cached_from (later e0) m0 (now e) m.
Proof.
  intros Hp. unfold get. destruct (c !! k) as [en|] eqn:Hk; [|done]. destruct (Hp _ _ Hk) as (e0 & q0 & m0 & Hin & Hkey & Hans & Hs).
  destruct (e_ttl en <=? _) eqn:Hf; zify_bool; [done|]. intros [= _ Hm%from_message_Some] Hreq <-.
  set (sec := Z.min (sat_sub (now e) (inserted en) `div` SECOND) u32_max) in *.
  assert (Hs0 : 0 <= sec).
  { unfold sec, u32_max. assert (0 <= sat_sub (now e) (inserted en) `div` SECOND); [|lia].
    apply Z.div_pos; unfold sat_sub, SECOND; lia. }
  assert (Hs1 : sec * SECOND < e_ttl en).
  { assert (sec * SECOND <= sat_sub (now e) (inserted en)); [|lia]. unfold sec.
    pose proof (Z.mul_div_le (sat_sub (now e) (inserted en)) SECOND ltac:(done)). unfold SECOND in *. lia. }
  destruct (stored_serves (later e0) m0 en sec Hs Hs0 Hs1) as (Hu & Hi & Hrc & Hq & _ & Han & Hau & Had).
  subst m. cbn. split.
  - destruct Hans as (r & Hr & _ & ->). split_and!; try done. cbn in *. congruence.
  - exists e0, q0, m0. split_and!; [done|by eapply key_question|done|].
    unfold cached_from. rewrite <- Hi. by split_and!.
Qed.

Lemma accept_answers request m m' :
  accept request m = Ok m' -> answers_request request m' /\ restored request m m'.
Proof.
  unfold accept. destruct (negb _) eqn:Hc; [done|]. zify_bool.
  destruct (from_message _) as [m1|] eqn:Hf; [|done]. intros [= <-]. apply from_message_Some in Hf as ->.
  split; [done|]. split_and!; [done|by apply same_queries_spec|done].
Qed.

Lemma upstream_cache e s : cache (fst (upstream e s)) = cache s.
Proof.
  unfold upstream. destruct (exchange _ _ _) as [p [m|err]]; [|done]. destruct (_ && _); [|done].
  by destruct (exchange _ _ _) as [p' r'].
Qed.

Lemma get_subset t k request c : fst (get t k request c) ⊆ c.
Proof. unfold get. destruct (c !! k); [|done]. destruct (_ <=? _); [apply delete_subseteq|done]. Qed.

Lemma provenance_subset past c c' : c' ⊆ c -> provenance past c -> provenance past c'.
Proof. intros Hsub Hp k en Hk. apply Hp. by eapply lookup_weaken. Qed.

Lemma provenance_more past x c : provenance past c -> provenance (past ++ [x]) c.
Proof. intros Hp k en Hk. destruct (Hp k en Hk) as (e & q & m & ? & ?). exists e, q, m. split; [set_solver|done]. Qed.

Lemma upstream_with_cache e c s : snd (upstream e (with_cache c s)) = snd (upstream e s).
Proof.
  unfold upstream, with_cache. cbn [config pool cache tcp_fallback].
  destruct (exchange _ _ _) as [p [m|err]]; [|done]. cbn [tcp_fallback config pool cache].
  destruct (truncation m && tcp_fallback s); [|done]. by destruct (exchange TCP _ _).
Qed.

(** One query: its answer, and the cache it leaves. *)
Lemma query_answered past e request s s' out :
  (forall c, cache s = Some c -> provenance past c) ->
  query instant_max e request s = (s', out) ->
  (forall m, out = Ok m -> answered past s e request m) /\
  (forall c, cache s' = Some c -> provenance (match out with Ok m => past ++ [(e, request, m)] | Err _ => past end) c).
Proof.
  intros Hc. unfold query. destruct (admitted request) as [[]|err]; [|by intros [= <- <-]].
  set (k := match cache s with Some _ => key request | None => None end).
  set (look := match cache s, k with Some c, Some k => _ | _, _ => _ end).
  assert (Hlook : exists c1 hit, look = (with_cache c1 s, hit) /\
    (forall c, c1 = Some c -> provenance past c) /\ (c1 = None <-> cache s = None) /\
    (forall m, hit = Some m -> answered past s e request m)).
  { unfold look, k. destruct (cache s) as [c|] eqn:Hcs.
    - destruct (key request) as [k'|] eqn:Hk.
      + destruct (get (now e) k' request c) as [c1 hit] eqn:Hg. exists (Some c1), hit.
        pose proof (get_subset (now e) k' request c) as Hsub. rewrite Hg in Hsub. cbn [fst] in Hsub.
        split_and!; [done|intros ? [= <-]; eapply provenance_subset; eauto|done|].
        intros m ->. destruct (get_provenance past (now e) k' request c c1 m e (Hc _ eq_refl) Hg Hk eq_refl) as [Hq Hx].
        split; [exact Hq|]. right. exact Hx.
      + exists (Some c), None. split_and!; [destruct s; cbn in *; by subst|by intros ? [= <-]; apply Hc|done|done].
    - exists None, None. split_and!; [destruct s; cbn in *; by subst|done|done|done]. }
  destruct Hlook as (c1 & hit & -> & Hc1 & Hnone & Hhit). destruct hit as [m|].
  { intros [= <- <-]. split; [by intros m' [= <-]; apply Hhit|]. cbn [with_cache cache].
    intros c Hcc. by apply provenance_more, Hc1. }
  destruct (_ <? _); [by intros [= <- <-]|].
  pose proof (upstream_cache e (with_cache c1 s)) as Hup. pose proof (upstream_with_cache e c1 s) as Hres.
  destruct (upstream e (with_cache c1 s)) as [s2 [r|err]]; cbn [fst snd cache with_cache] in *.
  2:{ intros [= <- <-]. split; [done|]. intros c. rewrite Hup. apply Hc1. }
  destruct (accept request r) as [m|err] eqn:Ha.
  2:{ intros [= <- <-]. split; [done|]. intros c. rewrite Hup. apply Hc1. }
  destruct (accept_answers _ _ _ Ha) as [Hans Hm]. intros [= <- <-]. split.
  - intros m' [= <-]. split; [done|]. left. exists r. by split.
  - rewrite Hup. destruct c1 as [c|]; [|intros c; rewrite Hup; done].
    destruct k as [k'|] eqn:Hk; [|intros c'; rewrite Hup; intros [= <-]; by apply provenance_more, Hc1].
    cbn [cache with_cache]. intros c' [= <-]. unfold insert. destruct (stored (later e) m) as [en|] eqn:Hs.
    + intros k0 en0 [[<- <-]|[_ Hl]]%lookup_insert_Some.
      * exists e, request, m. split_and!; [set_solver| |by exists r|done]. unfold k in Hk. by destruct (cache s).
      * by apply (provenance_more past _ c (Hc1 c eq_refl)).
    + by apply provenance_more, Hc1.
Qed.

(** The queries answered by a run, in order. *)
Fixpoint given (evs : list event) (outs : list (option (res error Message))) : list (Env * Message * Message) :=
  match evs, outs with
  | Query' e request :: evs, Some (Ok m) :: outs => (e, request, m) :: given evs outs
  | _ :: evs, _ :: outs => given evs outs
  | _, _ => []
  end.

Lemma serve_answered past s evs s' outs :
  (forall c, cache s = Some c -> provenance past c) -> serve s evs = (s', outs) ->
  forall i e request m, evs !! i = Some (Query' e request) -> outs !! i = Some (Some (Ok m)) ->
  answers_request request m /\
  ((exists r, snd (upstream e (fst (serve s (take i evs)))) = Ok r /\ restored request r m) \/
   exists e0 q0 m0, (e0, q0, m0) ∈ past ++ given (take i evs) (take i outs) /\
     same_question q0 request /\ (exists r, restored q0 r m0) /\ cached_from (later e0) m0 (now e) m).
Proof.
  revert past s outs. induction evs as [|ev evs IH]; intros past s outs Hc; cbn [serve]; [done|].
  destruct (handle s ev) as [s1 o] eqn:Hh. destruct (serve s1 evs) as [s2 os] eqn:Hs. intros [= <- <-].
  intros i e request m. destruct ev as [e1 q1|k1]; cbn [handle] in Hh.
  - destruct (query instant_max e1 q1 s) as [s1' r1] eqn:Hq. injection Hh as <- <-.
    destruct (query_answered past e1 q1 s s1' r1 Hc Hq) as [Hans Hprov]. destruct i as [|i]; cbn [lookup list_lookup].
    + intros [= -> ->] [= ->]. destruct (Hans m eq_refl) as [Hq' [(r & Hr & Hm)|Hcached]]; (split; [done|]).
      * left. by exists r.
      * right. cbn. by rewrite app_nil_r.
    + intros He Ho. destruct (IH _ s1' os Hprov Hs i e request m He Ho) as [Ha [Hf|(e0 & q0 & m0 & Hin & Hrest)]]; (split; [done|]).
      * left. cbn [take serve handle]. rewrite Hq. by destruct (serve s1' (take i evs)).
      * right. exists e0, q0, m0. split; [|done]. cbn [take given]. destruct r1; [|done].
        by rewrite <- app_assoc in Hin.
  - injection Hh as <- <-. destruct i as [|i]; cbn [lookup list_lookup]; [done|]. intros He Ho.
    assert (Hgoal : forall c, cache (with_cache (delete k1 <$> cache s) s) = Some c -> provenance past c);
      [|pose proof (IH past _ os Hgoal Hs i e request m He Ho) as Hi; cbn [take serve handle given];
        by destruct (serve (with_cache (delete k1 <$> cache s) s) (take i evs))].
    cbn [cache with_cache]. destruct (cache s) as [c|] eqn:Hcs; [|done].
    intros c' [= <-]. eapply provenance_subset; [apply delete_subseteq|]. by apply Hc.
Qed.

(** C29. Every answer is for the question asked: a successful query returns a response with the
    request's id and question; it is what the upstream gave for this query, or an earlier answer to
    a request that differs in nothing but its id, complete and still fresh, with every TTL aged.  What
    the upstream gave was in either case a response that itself carried the question of the request it
    was given for, the same names but for case, the same types and classes; a response to another
    question is never taken for an answer.  This
    holds whatever the cache evicts and however connections fail in between. *)
Theorem dns_answers_match_question c capabilities s evs i e request m :
  new c capabilities = Ok s ->
  evs !! i = Some (Query' e request) -> snd (serve s evs) !! i = Some (Some (Ok m)) ->
  answers_request request m /\
  ((exists r, snd (upstream e (fst (serve s (take i evs)))) = Ok r /\ restored request r m) \/
   exists e0 q0 m0, (e0, q0, m0) ∈ given (take i evs) (take i (snd (serve s evs))) /\
     same_question q0 request /\ (exists r, restored q0 r m0) /\ cached_from (later e0) m0 (now e) m).
Proof.
  intros Hnew He Ho. apply (serve_answered [] s evs (fst (serve s evs)) (snd (serve s evs))); try done; [|apply surjective_pairing].
  unfold new in Hnew. intros c' Hc' k en Hk. exfalso.
  do 2 (destruct (_ =? 0); [done|]). destruct (require_for _ _ _); [|done]. injection Hnew as <-. cbn [cache] in Hc'.
  destruct (0 <? cache_capacity c); [|done]. injection Hc' as <-. done.
Qed.
End service.

(** ** Concrete runs *)

Definition demo_round : Round := mkRound (fun p => p) true (Ok tt) (fun p => p) (Ok demo_answer).
Definition demo_failure : Round := mkRound (fun p => p) true (Ok tt) (fun p => p) (Err ConnectionClosed).
Definition demo_config : Config := mkConfig SECOND (Packet.Ipv4 1, 53) UDP 16.
Definition demo_service : Service := mkService demo_config (mkPool (fun _ => None) 0 ∅) (Some ∅) true.
Definition demo_env (t : Z) : Env := mkEnv t t [demo_round] [].
Definition demo_second : Message := with_id 8 (queries demo_question) demo_question.
Definition demo_events : list event := [Query' (demo_env 0) demo_question; Query' (demo_env (3 * SECOND)) demo_second].
Definition demo_hit : Message :=
  hit (3 * SECOND) demo_second (mkEntry (with_id 7 (queries demo_question) demo_answer) 0 (20 * SECOND)).

Lemma dns_answers_match_question_witness :
  snd (@serve demo_hickory (100 * SECOND) demo_service demo_events) !! 1%nat = Some (Some (Ok demo_hit)) /\
  answers_request demo_second demo_hit.
Proof.
  split; [vm_compute; reflexivity|].
  apply (@dns_answers_match_question demo_hickory demo_hickory_laws (100 * SECOND) demo_config BOTH demo_service
    demo_events 1 (demo_env (3 * SECOND)) demo_second demo_hit).
  - vm_compute. reflexivity.
  - reflexivity.
  - vm_compute. reflexivity.
Defined.

Lemma dns_exchange_ends_witness :
  let p := mkPool (fun _ => Some 4) 5 ∅ in
  snd (exchange TCP [demo_failure; demo_round] p) = Ok demo_answer /\
  snd (exchange TCP [demo_failure; demo_round] p) <> Err OutOfRounds.
Proof.
  split; [reflexivity|]. apply (dns_exchange_ends TCP demo_failure demo_round []).
Defined.

End DnsService.
