(* ===== verification/QuicSniff.v ===== *)
(** * QUIC Initial inspection (crates/inbounds/src/sniff/quic.rs, sniff/tls.rs)

    The inspector that finds a client hello in QUIC Initial packets: header parsing, packet number
    recovery, the frame loop and the reassembly of CRYPTO data, and the handshake check on its
    contiguous prefix.  rustls's key derivation, decryption and acceptor are classes. *)

From S2P Require Import Prelude VarInt.

Module QuicSniff.

Definition MAX_BYTES : Z := 64 * 1024.

(** [SniffProtocol], [SniffResult] and [Outcome]. *)
Inductive SniffProtocol := Http | Tls | Quic.
Record SniffResult := mkSniff { protocol : SniffProtocol; domain : option bytes }.
Inductive Outcome := NeedMore | Unknown | Found (r : SniffResult).

(** ** Cursor *)

(** [Cursor::take], [byte], [varint] and [size]: the value and the bytes left. *)
Definition take (count : Z) (c : bytes) : option (bytes * bytes) :=
  if len c <? count then None else Some (ztake count c, zdrop count c).

Definition byte (c : bytes) : option (Z * bytes) :=
  match take 1 c with Some (b :: _, c) => Some (b, c) | _ => None end.

Definition varint (c : bytes) : option (Z * bytes) :=
  match c with
  | [] => None
  | first :: _ =>
      let length := Z.shiftl 1 (Z.shiftr first 6) in
      match take length c with
      | None => None
      | Some (b, rest) =>
          Some (foldl (fun value byte => Z.lor (Z.shiftl value 8) byte) (Z.land first 63) (tail b), rest)
      end
  end.

(** The [u64] of a varint always fits a [usize] of 64 bits. *)
Definition size (c : bytes) : option (Z * bytes) := varint c.

(** ** Packet numbers *)

(** [packet_number] *)
Definition packet_number (truncated length : Z) (largest : option Z) : Z :=
  let expected := match largest with None => 0 | Some n => n + 1 end in
  let window := Z.shiftl 1 (length * 8) in
  let half := window `div` 2 in
  let candidate := Z.lor (Z.land expected (Z.lxor u64_max (window - 1))) truncated in
  if (candidate + half <=? expected) && (candidate + window <? 2 ^ 62) then candidate + window
  else if (expected + half <? candidate) && (window <=? candidate) then candidate - window
  else candidate.

(** ** The inspector *)

Record Inspector := mkInspector {
  connection : option (Z * bytes);
  largest_packet : option Z;
  crypto : bytes;
  received : list bool;
  contiguous : Z;
}.

(** [Inspector::default()] *)
Definition fresh : Inspector := mkInspector None None [] [] 0.

(** The loop over a CRYPTO fragment: each byte is stored, a second copy must agree. *)
Fixpoint store (position : nat) (fragment : bytes) (crypto : bytes) (received : list bool) : option (bytes * list bool) :=
  match fragment with
  | [] => Some (crypto, received)
  | b :: fragment =>
      match crypto !! position, received !! position with
      | Some old, Some seen =>
          if seen && negb (old =? b) then None
          else store (S position) fragment (<[position := b]> crypto) (<[position := true]> received)
      | _, _ => None
      end
  end.

(** The first position not received, from [i] on. *)
Fixpoint advance (received : list bool) (i : nat) : nat :=
  match received with true :: received => advance received (S i) | _ => i end.

(** A CRYPTO frame. *)
Definition crypto_frame (offset : Z) (fragment : bytes) (s : Inspector) : option Inspector :=
  match checked_add offset (len fragment) with
  | None => None
  | Some stop =>
      if MAX_BYTES <? stop then None else
      match store (Z.to_nat offset) fragment (resize stop 0 (crypto s)) (resize stop false (received s)) with
      | None => None
      | Some (crypto, received) =>
          Some (mkInspector (connection s) (largest_packet s) crypto received
                  (Z.of_nat (advance (drop (Z.to_nat (contiguous s)) received) (Z.to_nat (contiguous s)))))
      end
  end.

(** [count] varints skipped. *)
Fixpoint skip (count : nat) (c : bytes) : option bytes :=
  match count with
  | O => Some c
  | S count => '(_, c) ← varint c; skip count c
  end.

(** One frame: what is left, and the CRYPTO data if it is such a frame. *)
Definition frame (c : bytes) : option (bytes * option (Z * bytes)) :=
  '(kind, c) ← varint c;
  if (kind =? 0) || (kind =? 1) then Some (c, None)
  else if (kind =? 2) || (kind =? 3) then
    '(_, c) ← varint c; '(_, c) ← varint c; '(ranges, c) ← size c; '(_, c) ← varint c;
    if len c `div` 2 <? ranges then None else
    c ← skip (2 * Z.to_nat ranges) c;
    c ← (if kind =? 3 then skip 3 c else Some c);
    Some (c, None)
  else if kind =? 6 then
    '(offset, c) ← size c; '(length, c) ← size c; '(fragment, c) ← take length c;
    Some (c, Some (offset, fragment))
  else None.

(** [Inspector::frames]; every frame takes at least a byte. *)
Fixpoint frames_loop (fuel : nat) (c : bytes) (s : Inspector) : option Inspector :=
  match fuel with
  | O => Some s
  | S fuel =>
      if len c =? 0 then Some s else
      match frame c with
      | None => None
      | Some (c, None) => frames_loop fuel c s
      | Some (c, Some (offset, fragment)) =>
          match crypto_frame offset fragment s with
          | None => None
          | Some s => frames_loop fuel c s
          end
      end
  end.

Definition frames (c : bytes) (s : Inspector) : option Inspector := frames_loop (length c) c s.

(** ** Packets *)

Inductive Version := V1 | V2 | V1Draft.

(** rustls: the server's remote keys of an Initial packet.  Removing header protection changes the
    first byte and the packet number field; decryption takes the number and the header. *)
Class QuicKeys := {
  sample_len : Z;
  header_decrypt : Version -> bytes -> bytes -> Z -> bytes -> option (Z * bytes);
  packet_decrypt : Version -> bytes -> Z -> bytes -> bytes -> option bytes;
}.

(** The version and the packet type of its Initial packets. *)
Definition initial_version (version : Z) : option (Version * Z) :=
  if version =? 1 then Some (V1, 0)
  else if version =? 1798521807 then Some (V2, 1)
  else if (4278190109 <=? version) && (version <=? 4278190112) then Some (V1Draft, 0)
  else None.

(** The fields of an Initial header: version, destination id, where the packet number starts and
    the length that follows it, and the rest of the datagram. *)
Definition initial_header (datagram : bytes) : option (Version * Z * bytes * Z * Z * bytes) :=
  '(first, c) ← byte datagram;
  if negb (Z.land first 192 =? 192) then None else
  '(version, c) ← take 4 c;
  let version := be_get version in
  '(tls_version, initial_type) ← initial_version version;
  if negb (Z.land (Z.shiftr first 4) 3 =? initial_type) then None else
  '(dcid_len, c) ← byte c;
  if 20 <? dcid_len then None else
  '(dcid, c) ← take dcid_len c;
  '(scid_len, c) ← byte c;
  if 20 <? scid_len then None else
  '(_, c) ← take scid_len c;
  '(token_len, c) ← size c;
  '(_, c) ← take token_len c;
  '(payload_len, c) ← size c;
  let pn_offset := len datagram - len c in
  '(_, rest) ← take payload_len c;
  Some (tls_version, version, dcid, pn_offset, payload_len, rest).

Section inspect.
Context `{QuicKeys}.

(** The packet number and plaintext of a protected packet. *)
Definition unprotect (tls_version : Version) (dcid : bytes) (pn_offset : Z) (packet : bytes) (largest : option Z) :
  option (Z * bytes) :=
  let sample_start := pn_offset + 4 in
  if len packet <? sample_start + sample_len then None else
  let sample := slice sample_start (sample_start + sample_len) packet in
  first ← zget packet 0;
  '(first, pn) ← header_decrypt tls_version dcid sample first (slice pn_offset (pn_offset + 4) packet);
  if negb (Z.land first 12 =? 0) then None else
  let pn_len := Z.land first 3 + 1 in
  let packet := first :: zdrop 1 (overwrite pn_offset pn packet) in
  let truncated := foldl (fun number byte => Z.lor (Z.shiftl number 8) byte) 0 (slice pn_offset (pn_offset + pn_len) packet) in
  let number := packet_number truncated pn_len largest in
  plaintext ← packet_decrypt tls_version dcid number (ztake (pn_offset + pn_len) packet) (zdrop (pn_offset + pn_len) packet);
  Some (number, plaintext).

(** [Inspector::initial] *)
Definition initial (datagram : bytes) (s : Inspector) : option (bytes * Inspector) :=
  '(tls_version, version, dcid, pn_offset, payload_len, rest) ← initial_header datagram;
  if match connection s with
     | Some (v, d) => negb (v =? version) || negb (bool_decide (d = dcid))
     | None => false
     end then None else
  '(number, plaintext) ← unprotect tls_version dcid pn_offset (ztake (pn_offset + payload_len) datagram) (largest_packet s);
  let largest := match largest_packet s with None => number | Some previous => Z.max previous number end in
  s ← frames plaintext (mkInspector (Some (version, dcid)) (Some largest) (crypto s) (received s) (contiguous s));
  Some (rest, s).
End inspect.

(** ** TLS *)

(** rustls's [Acceptor]: [read_tls] takes bytes from a slice, [accept] looks for a client hello and
    gives its server name. *)
Class TlsAcceptor (A : Type) := {
  acceptor : A;
  read_tls : A -> bytes -> A * res unit Z;
  accept : A -> A * res unit (option (option bytes));
}.

Section tls.
Context {A : Type} `{TlsAcceptor A}.

(** [tls::records]; a successful read takes at least a byte. *)
Fixpoint records (fuel : nat) (a : A) (b : bytes) : A * Outcome :=
  match fuel with
  | O => (a, NeedMore)
  | S fuel =>
      if len b =? 0 then (a, NeedMore) else
      match read_tls a b with
      | (a, Err _) => (a, Unknown)
      | (a, Ok n) =>
          if n =? 0 then (a, Unknown) else
          match accept a with
          | (a, Err _) => (a, Unknown)
          | (a, Ok (Some name)) => (a, Found (mkSniff Tls name))
          | (a, Ok None) => records fuel a (zdrop n b)
          end
      end
  end.

(** [chunks(16384)] *)
Fixpoint chunks (fuel : nat) (b : bytes) : list bytes :=
  match fuel with
  | O => []
  | S fuel => if len b =? 0 then [] else ztake 16384 b :: chunks fuel (zdrop 16384 b)
  end.

(** The records that carry the handshake message, fed until one decides. *)
Fixpoint feed (a : A) (l : list bytes) : Outcome :=
  match l with
  | [] => NeedMore
  | chunk :: l =>
      let record := [22; 3; 3] ++ be_put 2 (len chunk) ++ chunk in
      match records (length record) a record with
      | (a, NeedMore) => feed a l
      | (_, outcome) => outcome
      end
  end.

(** [tls::handshake] *)
Definition handshake (b : bytes) : Outcome :=
  match b with
  | kind :: s2 :: s1 :: s0 :: _ =>
      if negb (kind =? 1) then Unknown else
      let size := Z.lor (Z.lor (Z.shiftl s2 16) (Z.shiftl s1 8)) s0 + 4 in
      if MAX_BYTES <? size then Unknown else
      if len b <? size then NeedMore else
      match feed acceptor (chunks (length b) (ztake size b)) with
      | Found r => Found (mkSniff Quic (domain r))
      | outcome => outcome
      end
  | _ => NeedMore
  end.

Context `{QuicKeys}.

(** [Inspector::inspect]; every packet takes at least its first byte. *)
Fixpoint inspect_loop (fuel : nat) (datagram : bytes) (s : Inspector) : Inspector * Outcome :=
  match fuel with
  | O => (s, NeedMore)
  | S fuel =>
      if len datagram =? 0 then (s, NeedMore) else
      match initial datagram s with
      | None => (s, Unknown)
      | Some (rest, s) =>
          match handshake (ztake (contiguous s) (crypto s)) with
          | NeedMore =>
              if match rest with first :: _ => Z.land first 128 =? 0 | [] => false end then (s, NeedMore)
              else inspect_loop fuel rest s
          | outcome => (s, outcome)
          end
      end
  end.

Definition inspect (datagram : bytes) (s : Inspector) : Inspector * Outcome :=
  inspect_loop (length datagram) datagram s.
End tls.

(** ** Packet numbers are recovered *)

(** [e & !(2^k - 1)] *)
Lemma mask_high e k : 0 <= k <= 64 -> 0 <= e < 2 ^ 64 ->
  Z.land e (Z.lxor u64_max (Z.shiftl 1 k - 1)) = Z.shiftl (e `div` 2 ^ k) k.
Proof.
  intros Hk He. rewrite <- Z.shiftr_div_pow2, Z.shiftl_1_l by lia.
  replace (2 ^ k - 1) with (Z.ones k) by (rewrite Z.ones_equiv; lia). change u64_max with (Z.ones 64).
  apply Z.bits_inj'. intros i Hi. rewrite Z.land_spec, Z.lxor_spec, Z.shiftl_spec by done.
  destruct (decide (i < k)) as [Hlt|Hge].
  - rewrite !Z.ones_spec_low by lia. rewrite (Z.testbit_neg_r _ (i - k)) by lia. apply andb_false_r.
  - rewrite (Z.ones_spec_high k), Z.shiftr_spec by lia. replace (i - k + k) with i by lia.
    destruct (decide (i < 64)).
    + rewrite Z.ones_spec_low by lia. apply andb_true_r.
    + rewrite <- (Z.mod_small e (2 ^ 64)) by done. by rewrite Z.mod_pow2_bits_high by lia.
Qed.

(** A truncated packet number is recovered: a number within half a window of the one expected
    next is what [packet_number] gives for its low bytes, whatever was received before. *)
Theorem packet_number_recovers n length largest :
  let expected := match largest with None => 0 | Some m => m + 1 end in
  1 <= length <= 4 -> 0 <= n < 2 ^ 62 -> 0 <= expected <= 2 ^ 62 ->
  expected - 2 ^ (8 * length - 1) < n <= expected + 2 ^ (8 * length - 1) ->
  packet_number (n `mod` 2 ^ (8 * length)) length largest = n.
Proof.
  intros expected Hl Hn He Hw. unfold packet_number. fold expected.
  replace (length * 8) with (8 * length) by lia. rewrite mask_high by lia. rewrite Z.shiftl_1_l.
  set (w := 2 ^ (8 * length)) in *. set (h := 2 ^ (8 * length - 1)) in *.
  assert (Hwh : w = 2 * h).
  { unfold w, h. replace (8 * length) with (1 + (8 * length - 1)) at 1 by lia. rewrite Z.pow_add_r by lia. done. }
  assert (Hh : 0 < h) by (apply Z.pow_pos_nonneg; lia).
  assert (Hdiv : w `div` 2 = h) by (rewrite Hwh, Z.mul_comm; apply Z.div_mul; lia). rewrite Hdiv.
  pose proof (Z.mod_pos_bound n w ltac:(lia)) as Hnm. rewrite lor_shiftl_add by (fold w; lia). fold w.
  pose proof (Z.div_mod n w ltac:(lia)) as Hnd. pose proof (Z.div_mod expected w ltac:(lia)) as Hed.
  pose proof (Z.mod_pos_bound expected w ltac:(lia)) as Hem.
  set (qe := expected `div` w) in *. set (qn := n `div` w) in *.
  assert (Hq : qn = qe - 1 \/ qn = qe \/ qn = qe + 1).
  { assert (qn - qe < 2) by (apply (Z.mul_lt_mono_pos_l w); lia).
    assert (-2 < qn - qe) by (apply (Z.mul_lt_mono_pos_l w); lia). lia. }
  assert (Hqw : w * qn = w * qe - w \/ w * qn = w * qe \/ w * qn = w * qe + w)
    by (destruct Hq as [-> |[-> | ->]]; lia). clear Hq. rewrite (Z.mul_comm qe w).
  generalize dependent (w * qn). generalize dependent (w * qe). intros P Hed N Hnd Hqw.
  repeat match goal with |- context [if ?b then _ else _] => destruct b eqn:?; zify_bool end;
    repeat match goal with H : (_ && _) = false |- _ => apply andb_false_iff in H as [?|?]; zify_bool end; lia.
Qed.

Lemma packet_number_recovers_witness : packet_number (259 `mod` 2 ^ (8 * 1)) 1 (Some 200) = 259.
Proof. apply (packet_number_recovers 259 1 (Some 200)); cbn; lia. Defined.

(** The cursor's integers are QUIC's. *)
Lemma varint_rfc c : Forall is_byte c -> varint c = @VarInt.decode VarInt.rfc_varint c.
Proof.
  intros Hc. destruct c as [|first rest]; [done|]. cbn [VarInt.decode VarInt.rfc_varint]. unfold varint, take.
  rewrite Z.shiftl_1_l. set (n := 2 ^ Z.shiftr first 6). destruct (len (first :: rest) <? n) eqn:Hl; zify_bool; [done|].
  apply Forall_cons in Hc as [Hf Hr]. unfold is_byte in Hf.
  assert (Hk : 0 <= Z.shiftr first 6 <= 3).
  { rewrite Z.shiftr_div_pow2 by lia. change (2 ^ 6) with 64. split; [apply Z.div_pos; lia|].
    assert (first `div` 64 < 4); [apply Z.div_lt_upper_bound; lia|lia]. }
  assert (Hn : 1 <= n). { change 1 with (2 ^ 0). apply Z.pow_le_mono_r; lia. }
  replace (ztake n (first :: rest)) with (first :: ztake (n - 1) rest)
    by (unfold ztake; replace (Z.to_nat n) with (S (Z.to_nat (n - 1))) by lia; done).
  cbn [tail]. assert (Hb : Forall is_byte (ztake (n - 1) rest)) by (by apply Forall_take).
  assert (Hlen : len (ztake (n - 1) rest) = n - 1) by (rewrite len_cons in Hl; rewrite len_ztake; lia).
  pose proof (be_get_range _ Hb) as Hrange. rewrite fold_shift_bytes by done. rewrite be_get_cons, Hlen in *.
  do 2 f_equal. change 63 with (Z.ones 6). rewrite Z.land_ones by lia.
  assert (Hp : 2 ^ (8 * n - 2) = 64 * 256 ^ (n - 1)).
  { change 64 with (2 ^ 6). change 256 with (2 ^ 8). rewrite <- Z.pow_mul_r, <- Z.pow_add_r by lia. f_equal. lia. }
  rewrite Hp. change (2 ^ 6) with 64. pose proof (Z.div_mod first 64 ltac:(lia)). pose proof (Z.mod_pos_bound first 64 ltac:(lia)).
  apply (Z.mod_unique_pos _ _ (first `div` 64)); nia.
Qed.

(** ** CRYPTO data is reassembled *)

(** The CRYPTO data of a plaintext, in order. *)
Fixpoint crypto_frames_loop (fuel : nat) (c : bytes) : option (list (Z * bytes)) :=
  match fuel with
  | O => Some []
  | S fuel =>
      if len c =? 0 then Some [] else
      match frame c with
      | None => None
      | Some (c, None) => crypto_frames_loop fuel c
      | Some (c, Some f) => match crypto_frames_loop fuel c with Some fs => Some (f :: fs) | None => None end
      end
  end.

Definition crypto_frames (c : bytes) : option (list (Z * bytes)) := crypto_frames_loop (length c) c.

Fixpoint apply_frames (fs : list (Z * bytes)) (s : Inspector) : option Inspector :=
  match fs with
  | [] => Some s
  | (offset, fragment) :: fs =>
      match crypto_frame offset fragment s with Some s => apply_frames fs s | None => None end
  end.

(** The frame loop is the CRYPTO data of its plaintext, applied in order. *)
Lemma frames_apply c fs s : crypto_frames c = Some fs -> frames c s = apply_frames fs s.
Proof.
  unfold crypto_frames, frames. generalize (length c). intros fuel. revert c fs s.
  induction fuel as [|fuel IH]; intros c fs s; cbn [crypto_frames_loop frames_loop]; [by intros [= <-]|].
  destruct (len c =? 0); [by intros [= <-]|]. destruct (frame c) as [[c' [[o f]|]]|]; [|by apply IH|done].
  destruct (crypto_frames_loop fuel c') as [fs'|] eqn:Hfs; [|done]. intros [= <-]. cbn [apply_frames].
  destruct (crypto_frame o f s); [|done]. by apply IH.
Qed.

Lemma frames_reject c s : crypto_frames c = None -> frames c s = None.
Proof.
  unfold crypto_frames, frames. generalize (length c). intros fuel. revert c s.
  induction fuel as [|fuel IH]; intros c s; cbn [crypto_frames_loop frames_loop]; [done|].
  destruct (len c =? 0); [done|]. destruct (frame c) as [[c' [[o f]|]]|]; [|by apply IH|done].
  destruct (crypto_frames_loop fuel c') as [fs'|] eqn:Hfs; [done|]. intros _. destruct (crypto_frame o f s); [|done]. by apply IH.
Qed.

(** A fragment of the stream [D]. *)
Definition piece_of (D : bytes) (f : Z * bytes) : Prop :=
  0 <= fst f /\ fst f + len (snd f) <= MAX_BYTES /\
  forall i b, snd f !! i = Some b -> D !! (Z.to_nat (fst f) + i)%nat = Some b.

Definition covered (fs : list (Z * bytes)) (i : nat) : Prop :=
  exists o f, (o, f) ∈ fs /\ (Z.to_nat o <= i < Z.to_nat o + length f)%nat.

(** The buffers hold bytes of [D] where they are marked, which is where [fs] covers. *)
Record holds (D : bytes) (fs : list (Z * bytes)) (c : bytes) (r : list bool) : Prop := {
  h_len : length r = length c;
  h_size : len c <= MAX_BYTES;
  h_data : forall i, r !! i = Some true -> c !! i = D !! i;
  h_seen : forall i, r !! i = Some true <-> covered fs i;
}.

Lemma lookup_resize_bool n (r : list bool) i : resize n false r !! i = Some true <-> r !! i = Some true.
Proof.
  unfold resize. destruct (decide (i < length r)%nat).
  - by rewrite lookup_app_l.
  - rewrite lookup_app_r by lia. rewrite (lookup_ge_None_2 r) by lia. split; [|done].
    intros [Hx _]%lookup_replicate. done.
Qed.

Lemma lookup_resize_old n (c : bytes) i b : c !! i = Some b -> resize n 0 c !! i = Some b.
Proof. intros Hi. unfold resize. rewrite lookup_app_l; [done|]. by eapply lookup_lt_Some. Qed.

Lemma length_resize {B} n (x : B) l : Z.of_nat (length (resize n x l)) = Z.max n (Z.of_nat (length l)).
Proof. pose proof (len_resize n x l) as Hl. unfold len in Hl. done. Qed.

(** Storing a piece of the stream never conflicts. *)
Lemma store_piece (D : bytes) (p : nat) (f c : bytes) (r : list bool) :
  length r = length c -> (p + length f <= length c)%nat ->
  (forall i b, f !! i = Some b -> D !! (p + i)%nat = Some b) ->
  (forall i, r !! i = Some true -> c !! i = D !! i) ->
  exists c' r', store p f c r = Some (c', r') /\ length r' = length c' /\ length c' = length c /\
    (forall i, r' !! i = Some true -> c' !! i = D !! i) /\
    (forall i, r' !! i = Some true <-> r !! i = Some true \/ (p <= i < p + length f)%nat).
Proof.
  revert p c r. induction f as [|b f IH]; intros p c r Hlen Hfit Hf Hok; cbn [store length] in *.
  { exists c, r. split_and!; try done. intros i. split; [by left|]. intros [?|?]; [done|lia]. }
  destruct (lookup_lt_is_Some_2 c p) as [old Hold]; [lia|]. destruct (lookup_lt_is_Some_2 r p) as [seen Hseen]; [lia|].
  rewrite Hold, Hseen. specialize (Hf 0%nat b eq_refl) as Hb. rewrite Nat.add_0_r in Hb.
  assert (seen && negb (old =? b) = false) as ->.
  { destruct seen; [|done]. specialize (Hok p Hseen). assert (old = b) as -> by congruence. by rewrite Z.eqb_refl. }
  destruct (IH (S p) (<[p := b]> c) (<[p := true]> r)) as (c' & r' & -> & Hl1 & Hl2 & Hok' & Hseen').
  - by rewrite !length_insert.
  - rewrite length_insert. lia.
  - intros i x Hx. replace (S p + i)%nat with (p + S i)%nat by lia. by apply Hf.
  - intros i. destruct (decide (i = p)) as [->|Hne].
    + rewrite !list_lookup_insert_eq by lia. intros _. congruence.
    + rewrite !list_lookup_insert_ne by done. apply Hok.
  - exists c', r'. rewrite length_insert in Hl2. split_and!; try done. intros i. rewrite Hseen'.
    destruct (decide (i = p)) as [->|Hne].
    + rewrite list_lookup_insert_eq by lia. split; intros _; [right; lia|left; done].
    + rewrite list_lookup_insert_ne by done. split; (intros [?|?]; [by left|right; lia]).
Qed.

(** A byte that was received is never replaced by another. *)
Lemma store_agrees (p : nat) (f c : bytes) (r : list bool) c' r' i b :
  store p f c r = Some (c', r') -> f !! i = Some b -> r !! (p + i)%nat = Some true -> c !! (p + i)%nat = Some b.
Proof.
  revert p c r i. induction f as [|x f IH]; intros p c r i; cbn [store]; [done|].
  destruct (c !! p) as [old|] eqn:Hold; [|done]. destruct (r !! p) as [seen|] eqn:Hseen; [|done].
  destruct (seen && negb (old =? x)) eqn:Hc; [done|]. intros Hs. destruct i as [|i]; cbn [lookup list_lookup].
  - intros [= ->]. rewrite Nat.add_0_r. intros Hr. simplify_eq. cbn [andb] in Hc. zify_bool. congruence.
  - intros Hi Hr. replace (p + S i)%nat with (S p + i)%nat in * by lia.
    pose proof (IH (S p) _ _ i Hs Hi) as Hgoal. rewrite list_lookup_insert_ne in Hgoal by lia.
    rewrite list_lookup_insert_ne in Hgoal by lia. auto.
Qed.

Lemma advance_spec (r : list bool) (i : nat) :
  (i <= advance r i)%nat /\ (forall j, (j < advance r i - i)%nat -> r !! j = Some true) /\
  r !! (advance r i - i)%nat <> Some true.
Proof.
  revert i. induction r as [|[] r IH]; intros i; cbn [advance].
  - split_and!; [lia|intros; lia|done].
  - destruct (IH (S i)) as (H1 & H2 & H3). split_and!; [lia| |].
    + intros [|j] Hj; [done|]. cbn. apply H2. lia.
    + replace (advance r (S i) - i)%nat with (S (advance r (S i) - S i)) by lia. done.
  - split_and!; [lia|intros; lia|]. by rewrite Nat.sub_diag.
Qed.

Record inspector_ok (D : bytes) (fs : list (Z * bytes)) (s : Inspector) : Prop := {
  i_holds : holds D fs (crypto s) (received s);
  i_nonneg : 0 <= contiguous s;
  i_before : forall j, (j < Z.to_nat (contiguous s))%nat -> covered fs j;
  i_gap : ~ covered fs (Z.to_nat (contiguous s));
}.

Lemma inspector_fresh D : inspector_ok D [] fresh.
Proof.
  assert (Hn : forall i, ~ covered [] i) by (intros i (o & f & Hin & _); set_solver).
  constructor; cbn; [|lia|intros j Hj; lia|apply Hn].
  constructor; cbn; [done|done|done|]. intros i. split; [done|]. intros []%Hn.
Qed.

Lemma crypto_frame_ok D fs o f s :
  inspector_ok D fs s -> piece_of D (o, f) ->
  exists s', crypto_frame o f s = Some s' /\ inspector_ok D (fs ++ [(o, f)]) s'.
Proof.
  intros [[Hlen Hsize Hdata Hseen] Hnn Hbefore Hgap] (Ho & Hmax & Hpiece). cbn [fst snd] in *.
  pose proof (len_nonneg f). unfold crypto_frame, checked_add. unfold MAX_BYTES in *.
  rewrite (proj2 (Z.leb_le _ usize_max)) by (unfold usize_max; lia).
  rewrite (proj2 (Z.ltb_ge _ (o + len f))) by lia.
  pose proof (length_resize (o + len f) 0 (crypto s)) as L1. pose proof (length_resize (o + len f) false (received s)) as L2.
  unfold len in *.
  destruct (store_piece D (Z.to_nat o) f (resize (o + Z.of_nat (length f)) 0 (crypto s)) (resize (o + Z.of_nat (length f)) false (received s)))
    as (c' & r' & -> & Hl1 & Hl2 & Hok & Hs'); [lia|lia|done| |].
  { intros i Hi%lookup_resize_bool. specialize (Hdata i Hi). rewrite <- Hdata.
    destruct (lookup_lt_is_Some_2 (crypto s) i) as [x Hx]; [rewrite <- Hlen; by eapply lookup_lt_Some|].
    rewrite Hx. by apply lookup_resize_old. }
  eexists. split; [done|].
  assert (Hcov : forall i, r' !! i = Some true <-> covered (fs ++ [(o, f)]) i).
  { intros i. rewrite Hs', lookup_resize_bool, Hseen. unfold covered. setoid_rewrite elem_of_app. split.
    - intros [(o' & f' & ? & ?)|?]; [by exists o', f'; eauto|]. exists o, f. split; [set_solver|done].
    - intros (o' & f' & [Hin|Hin%list_elem_of_singleton] & Hr); [by left; exists o', f'|]. simplify_eq. by right. }
  set (n := Z.to_nat (contiguous s)) in *. destruct (advance_spec (drop n r') n) as (A1 & A2 & A3).
  constructor; cbn [crypto received contiguous].
  - constructor; [done|unfold len, MAX_BYTES; lia|done|done].
  - lia.
  - rewrite Nat2Z.id. intros j Hj. destruct (decide (j < n)%nat).
    + destruct (Hbefore j) as (o' & f' & ? & ?); [done|]. exists o', f'. split; [set_solver|done].
    + apply Hcov. specialize (A2 (j - n)%nat ltac:(lia)). rewrite lookup_drop in A2. by replace (n + (j - n))%nat with j in A2 by lia.
  - rewrite Nat2Z.id. intros Hc%Hcov. apply A3. rewrite lookup_drop. by replace (n + (advance (drop n r') n - n))%nat with (advance (drop n r') n) by lia.
Qed.

(** The plaintexts of a connection's Initial packets, in the order they arrive. *)
Fixpoint frames_all (l : list bytes) (s : Inspector) : option Inspector :=
  match l with
  | [] => Some s
  | plaintext :: l => s ← frames plaintext s; frames_all l s
  end.

Lemma apply_frames_ok D fs0 fs s :
  inspector_ok D fs0 s -> Forall (piece_of D) fs ->
  exists s', apply_frames fs s = Some s' /\ inspector_ok D (fs0 ++ fs) s'.
Proof.
  revert fs0 s. induction fs as [|[o f] fs IH]; intros fs0 s Hok Hp; cbn [apply_frames].
  { exists s. by rewrite app_nil_r. }
  apply Forall_cons_1 in Hp as [Hp Hps]. destruct (crypto_frame_ok D fs0 o f s) as (s' & -> & Hok'); [done..|].
  destruct (IH (fs0 ++ [(o, f)]) s') as (s'' & -> & Hok''); [done..|]. exists s''. by rewrite <- app_assoc in Hok''.
Qed.

Lemma frames_all_ok D l fss fs0 s :
  inspector_ok D fs0 s -> Forall2 (fun p fs => crypto_frames p = Some fs) l fss -> Forall (piece_of D) (concat fss) ->
  exists s', frames_all l s = Some s' /\ inspector_ok D (fs0 ++ concat fss) s'.
Proof.
  intros Hok HF. revert fs0 s Hok. induction HF as [|p fs l fss Hp HF IH]; intros fs0 s Hok Hall; cbn [frames_all concat].
  { exists s. by rewrite app_nil_r. }
  cbn [concat] in Hall. apply Forall_app in Hall as [H1 H2]. rewrite (frames_apply p fs s Hp).
  destruct (apply_frames_ok D fs0 fs s) as (s1 & -> & Hok1); [done..|]. cbn [mbind option_bind].
  destruct (IH (fs0 ++ fs) s1) as (s2 & -> & Hok2); [done..|]. exists s2. by rewrite <- app_assoc in Hok2.
Qed.

Lemma covered_in D fs i : Forall (piece_of D) fs -> covered fs i -> (i < length D)%nat.
Proof.
  intros HF (o & f & Hin & Hr). rewrite Forall_forall in HF. destruct (HF _ Hin) as (_ & _ & Hp). cbn [fst snd] in Hp.
  destruct (lookup_lt_is_Some_2 f (i - Z.to_nat o)) as [b Hb]; [lia|]. specialize (Hp _ _ Hb).
  apply lookup_lt_Some in Hp. lia.
Qed.

Lemma prefix_eq (c d : bytes) (n : Z) :
  (forall j, (j < Z.to_nat n)%nat -> c !! j = d !! j) -> ztake n c = ztake n d.
Proof.
  intros Hj. unfold ztake. apply list_eq. intros i. destruct (decide (i < Z.to_nat n)%nat).
  - rewrite !lookup_take_lt by done. by apply Hj.
  - by rewrite !lookup_take_ge by lia.
Qed.

(** C25. The CRYPTO data of Initial packets is reassembled, within the inspector's 64 KiB.  Whatever the
    order, the cuts, the repetitions and the overlaps in which pieces of a handshake stream arrive, over
    any number of packets, if every piece ends within the first 64 KiB of the stream, no frame is refused, the bytes handed to the TLS inspection are the stream's own, and
    they reach exactly to the first byte that no frame has carried. *)
Theorem quic_crypto_reassembles D l fss :
  Forall2 (fun p fs => crypto_frames p = Some fs) l fss -> Forall (piece_of D) (concat fss) ->
  exists s, frames_all l fresh = Some s /\
    ztake (contiguous s) (crypto s) = ztake (contiguous s) D /\
    0 <= contiguous s <= len D /\
    (forall i, Z.of_nat i < contiguous s -> covered (concat fss) i) /\
    ~ covered (concat fss) (Z.to_nat (contiguous s)).
Proof.
  intros HF Hp. destruct (frames_all_ok D l fss [] fresh) as (s & Hs & [[Hlen Hsize Hdata Hseen] Hnn Hbefore Hgap]);
    [apply inspector_fresh|done..|]. cbn [app] in *.
  exists s. split; [done|]. split_and!; [|done| | |done].
  - apply prefix_eq. intros j Hj. by apply Hdata, Hseen, Hbefore.
  - destruct (decide (contiguous s = 0)); [pose proof (len_nonneg D); lia|].
    set (i := (Z.to_nat (contiguous s) - 1)%nat). assert (covered (concat fss) i) as Hi by (apply Hbefore; lia).
    apply (covered_in D) in Hi; [unfold len; lia|done].
  - intros i Hi. apply Hbefore. lia.
Qed.

(** Two packets carry a hello of ten bytes, the tail first, with an overlap and padding between. *)
Definition demo_hello : bytes := [1; 0; 0; 6; 3; 3; 7; 8; 9; 10].
Definition demo_plaintexts : list bytes :=
  [[6; 4; 6; 3; 3; 7; 8; 9; 10; 0; 0]; [1; 6; 0; 3; 1; 0; 0; 6; 2; 4; 0; 6; 3; 3]].

Lemma quic_crypto_reassembles_witness :
  exists s, frames_all demo_plaintexts fresh = Some s /\ ztake (contiguous s) (crypto s) = demo_hello.
Proof.
  destruct (quic_crypto_reassembles demo_hello demo_plaintexts [[(4, [3; 3; 7; 8; 9; 10])]; [(0, [1; 0; 0]); (2, [0; 6; 3; 3])]])
    as (s & Hs & Ht & _).
  - repeat constructor.
  - cbn [concat app]. repeat (apply Forall_cons_2 || apply Forall_nil_2); (split; [|split]); cbn [fst snd];
      try (unfold len, MAX_BYTES; cbn; lia); intros i b Hi; do 6 (destruct i as [|i]; [exact Hi || discriminate|]); discriminate.
  - exists s. split; [exact Hs|]. rewrite Ht. assert (frames_all demo_plaintexts fresh = Some s) as He by exact Hs.
    vm_compute in He. injection He as <-. reflexivity.
Defined.

End QuicSniff.
