(* ===== verification/Sniff.v ===== *)
(** * Sniffing (crates/inbounds/src/sniff.rs)

    Inspection of the first bytes of a TCP stream, or the first datagrams of a UDP session, before
    routing.  Interruption and the timer may end it at any poll; whatever was read is put back, as a
    [Relay.Prefix] of the stream or as the replay queue of the receiver. *)

From S2P Require Import Prelude Packet NetText VarInt Relay QuicSniff.
Import NetText.

Module Sniff.
Import QuicSniff.
#[local] Existing Instances Relay.prefix_stream Relay.feed_stream.

Definition MAX_PACKETS : nat := 32.

(** ** HTTP *)

(** httparse's [Request::parse] with room for some headers, and the host of http's [Authority]. *)
Inductive parsed := Partial | Invalid | Complete (headers : list (bytes * bytes)).

Class HttpParser := {
  request_parse : Z -> bytes -> parsed;
  authority_host : bytes -> option bytes;
}.

Definition lower (c : Z) : Z := if (65 <=? c) && (c <=? 90) then c + 32 else c.
Definition to_ascii_lowercase (s : bytes) : bytes := lower <$> s.
Definition eq_ignore_ascii_case (a b : bytes) : bool := bool_decide (to_ascii_lowercase a = to_ascii_lowercase b).

Fixpoint trim_start_matches (c : Z) (s : bytes) : bytes :=
  match s with x :: s' => if x =? c then trim_start_matches c s' else s | [] => [] end.
Definition trim_end_matches (c : Z) (s : bytes) : bytes := reverse (trim_start_matches c (reverse s)).

(** [str::parse::<IpAddr>]: all of the text is one address. *)
Definition is_ip (s : bytes) : bool :=
  match read_ipv4 s with
  | Some (_, rest) => len rest =? 0
  | None => match read_ipv6 s with Some (_, rest) => len rest =? 0 | None => false end
  end.

Definition HOST : bytes := [104; 111; 115; 116].

Section http.
Context `{HttpParser}.

Definition domain_from_authority (authority : bytes) : option bytes :=
  host ← authority_host authority;
  let host := trim_end_matches CLOSE (trim_start_matches OPEN host) in
  if is_ip host || (len host =? 0) then None else Some (to_ascii_lowercase host).

Definition http (b : bytes) : Outcome :=
  match request_parse 64 b with
  | Partial => NeedMore
  | Invalid => Unknown
  | Complete headers =>
      let domain :=
        match list_find (fun h => eq_ignore_ascii_case (fst h) HOST = true) headers with
        | Some (_, (_, value)) => if utf8 value then domain_from_authority value else None
        | None => None
        end in
      Found (mkSniff Http domain)
  end.
End http.

(** ** The select around an inspection *)

(** What a poll of the [select!] finds before it polls the inspection. *)
Record wake := mkWake { interrupted : bool; elapsed : bool }.

(** [select! { biased; ... }]: interruption, the timer, then the inspection, on each poll. *)
Fixpoint select {St R} (none : R) (inspecting : St -> St * Relay.poll R) (ws : list wake) (st : St) : St * Relay.poll R :=
  match ws with
  | [] => (st, Relay.Pending)
  | w :: ws =>
      if interrupted w then (st, Relay.Ready none)
      else if elapsed w then (st, Relay.Ready none)
      else match inspecting st with
           | (st, Relay.Pending) => select none inspecting ws st
           | done => done
           end
  end.

(** ** TCP *)

Section tcp.
Context {A S : Type} `{TlsAcceptor A, Relay.Stream S, HttpParser}.

(** The variables of [tcp]; [reading] when the inspection is suspended in its read. *)
Record Tcp := mkTcp { t_bytes : bytes; t_acceptor : A; fed : Z; reading : bool; stream : S }.

(** The top of the loop: the outcome of the bytes so far, and the result it returns. *)
Definition look (t : Tcp) : Tcp * option (option SniffResult) :=
  let '(a, outcome) :=
    match t_bytes t with
    | 22 :: _ => records (length (zdrop (fed t) (t_bytes t))) (t_acceptor t) (zdrop (fed t) (t_bytes t))
    | b => (t_acceptor t, http b)
    end in
  let t := mkTcp (t_bytes t) a (len (t_bytes t)) true (stream t) in
  match outcome with
  | Found result => (t, Some (Some result))
  | Unknown => (t, Some None)
  | NeedMore => (t, if len (t_bytes t) =? MAX_BYTES then Some None else None)
  end.

(** The loop, resumed at its read. *)
Fixpoint pull (fuel : nat) (t : Tcp) : Tcp * Relay.poll (res Relay.error (option SniffResult)) :=
  match fuel with
  | O => (t, Relay.Pending)
  | Datatypes.S fuel =>
      let remaining := Z.min (MAX_BYTES - len (t_bytes t)) 4096 in
      match Relay.poll_read remaining (stream t) with
      | (s, Relay.Pending) => (mkTcp (t_bytes t) (t_acceptor t) (fed t) true s, Relay.Pending)
      | (s, Relay.Ready (Err e)) => (mkTcp (t_bytes t) (t_acceptor t) (fed t) true s, Relay.Ready (Err e))
      | (s, Relay.Ready (Ok c)) =>
          let t := mkTcp (t_bytes t ++ c) (t_acceptor t) (fed t) true s in
          if len c =? 0 then (t, Relay.Ready (Ok None)) else
          match look t with
          | (t, Some result) => (t, Relay.Ready (Ok result))
          | (t, None) => pull fuel t
          end
      end
  end.

(** A read of at least a byte leaves less room, so that the room bounds the rounds. *)
Definition room (t : Tcp) : nat := Z.to_nat (MAX_BYTES - len (t_bytes t)).

(** A poll of [inspecting]. *)
Definition inspecting (t : Tcp) : Tcp * Relay.poll (res Relay.error (option SniffResult)) :=
  if reading t then pull (room t) t
  else match look t with
       | (t, Some result) => (t, Relay.Ready (Ok result))
       | (t, None) => pull (room t) t
       end.

(** [tcp], polled as [ws] says. *)
Definition tcp (ws : list wake) (s : S) : Relay.io ((S + Relay.Prefix S) * option SniffResult) :=
  match select (Ok None) inspecting ws (mkTcp [] acceptor 0 false s) with
  | (_, Relay.Pending) => Relay.Pending
  | (_, Relay.Ready (Err e)) => Relay.Ready (Err e)
  | (t, Relay.Ready (Ok result)) => Relay.Ready (Ok (Relay.prefix (t_bytes t) (stream t), result))
  end.
End tcp.
Arguments Tcp A S : clear implicits.

(** ** UDP *)

Section udp.
Context {A P C : Type} `{TlsAcceptor A, QuicKeys} (payload : P -> bytes).

(** [queue::Receiver]: its replay queue, before the channel. *)
Record Receiver := mkReceiver { replay : list P; channel : C }.

Context (poll_channel : C -> C * Relay.poll (option P)).

(** [Receiver::poll_recv] *)
Definition recv (r : Receiver) : Receiver * Relay.poll (option P) :=
  match replay r with
  | x :: l => (mkReceiver l (channel r), Relay.Ready (Some x))
  | [] => let '(c, o) := poll_channel (channel r) in (mkReceiver [] c, o)
  end.

(** [Receiver::prepend] *)
Definition prepend (l : list P) (r : Receiver) : Receiver := mkReceiver (l ++ replay r) (channel r).

(** The variables of [udp]. *)
Record Udp := mkUdp { packets : list P; u_bytes : Z; quic : Inspector; incoming : Receiver }.

(** The [while] loop, resumed at its [recv], with room for [n] packets. *)
Fixpoint gather (n : nat) (u : Udp) : Udp * Relay.poll (option SniffResult) :=
  match n with
  | O => (u, Relay.Ready None)
  | S n =>
      if MAX_BYTES <=? u_bytes u then (u, Relay.Ready None) else
      match recv (incoming u) with
      | (r, Relay.Pending) => (mkUdp (packets u) (u_bytes u) (quic u) r, Relay.Pending)
      | (r, Relay.Ready None) => (mkUdp (packets u) (u_bytes u) (quic u) r, Relay.Ready None)
      | (r, Relay.Ready (Some packet)) =>
          let total := u_bytes u + len (payload packet) in
          let '(q, outcome) := if total <=? MAX_BYTES then inspect (payload packet) (quic u) else (quic u, Unknown) in
          let u := mkUdp (packets u ++ [packet]) total q r in
          match outcome with
          | Found result => (u, Relay.Ready (Some result))
          | Unknown => (u, Relay.Ready None)
          | NeedMore => gather n u
          end
      end
  end.

(** [udp], polled as [ws] says: the receiver it leaves, and the result. *)
Definition udp (ws : list wake) (r : Receiver) : Receiver * Relay.poll (option SniffResult) :=
  match select None (fun u => gather (MAX_PACKETS - length (packets u)) u) ws (mkUdp [] 0 fresh r) with
  | (u, Relay.Pending) => (incoming u, Relay.Pending)
  | (u, Relay.Ready result) => (prepend (packets u) (incoming u), Relay.Ready result)
  end.
End udp.
Arguments Receiver P C : clear implicits.
Arguments Udp P C : clear implicits.

(** ** Nothing of a stream is lost *)

Lemma select_inv {St R} (I : St -> Prop) (none : R) inspecting ws st :
  (forall st, I st -> I (fst (inspecting st))) -> I st -> I (fst (select none inspecting ws st)).
Proof.
  intros Hstep. revert st. induction ws as [|w ws IH]; intros st Hst; [done|]. cbn [select].
  destruct (interrupted w); [done|]. destruct (elapsed w); [done|].
  specialize (Hstep st Hst). destruct (inspecting st) as [st' []]; [by apply IH|done].
Qed.

Lemma reads_app {S} `{Relay.Stream S} l k (s : S) :
  Relay.reads (l ++ k) s = (fst (Relay.reads k (fst (Relay.reads l s))), snd (Relay.reads l s) ++ snd (Relay.reads k (fst (Relay.reads l s)))).
Proof.
  revert s. induction l as [|c l IH]; intros s; cbn [app Relay.reads]; [by rewrite <- surjective_pairing|].
  destruct (Relay.read_once s c) as [s1 x]. rewrite (IH s1). destruct (Relay.reads l s1) as [s2 y]. cbn [fst snd].
  by rewrite app_assoc.
Qed.

(** A read fills no more than its buffer. *)
Class ReadLaw (S : Type) `{Relay.Stream S} : Prop :=
  read_fits n (s s' : S) c : 0 <= n -> Relay.poll_read n s = (s', Relay.Ready (Ok c)) -> len c <= n.

(** The reads a session makes of what [tcp] gave it: the stream, what is left of the replay, the bytes. *)
Definition session_reads {S} `{Relay.Stream S} (l : list Relay.read_call) (x : S + Relay.Prefix S) : S * bytes * bytes :=
  match x with
  | inl s => let '(s, out) := Relay.reads l s in (s, [], out)
  | inr p => let '(p, out) := Relay.reads l p in (Relay.inner p, Relay.p_bytes p, out)
  end.

Section transparent.
Context {A S : Type} `{TlsAcceptor A, SS : Relay.Stream S, HttpParser, !ReadLaw S}.
Implicit Types t : Tcp A S.

(** The bytes kept are those read from [s0]. *)
Definition kept (s0 : S) t : Prop :=
  len (t_bytes t) <= MAX_BYTES /\ exists l, Relay.reads l s0 = (stream t, t_bytes t).

Lemma look_kept s0 t : kept s0 t -> kept s0 (fst (look t)).
Proof.
  intros [Hl Hk]. unfold look. destruct (match t_bytes t with 22 :: _ => _ | _ => _ end) as [a []]; split; done.
Qed.

Lemma look_more t t' : look t = (t', None) -> len (t_bytes t') <> MAX_BYTES /\ t_bytes t' = t_bytes t.
Proof.
  unfold look. destruct (match t_bytes t with 22 :: _ => _ | _ => _ end) as [a []]; [|done..].
  cbn [t_bytes]. destruct (len (t_bytes t) =? MAX_BYTES) eqn:Hz; intros [= <-]. zify_bool. done.
Qed.

Lemma reads_more s0 l s b room s1 o :
  Relay.reads l s0 = (s, b) -> Relay.poll_read room s = (s1, o) ->
  Relay.reads (l ++ [Relay.Read room]) s0 = (s1, b ++ Relay.given o).
Proof.
  intros Hl Hr. rewrite reads_app, Hl. cbn [fst snd Relay.reads Relay.read_once]. rewrite Hr. cbn [fst snd].
  by rewrite app_nil_r.
Qed.

Lemma pull_kept s0 fuel t : kept s0 t -> kept s0 (fst (pull fuel t)).
Proof.
  revert t. induction fuel as [|fuel IH]; intros t [Hl [l Hk]]; [by split; eauto|]. cbn [pull].
  destruct (Relay.poll_read _ (stream t)) as [s1 o] eqn:Hr. pose proof (reads_more _ _ _ _ _ _ _ Hk Hr) as Hmore.
  destruct o as [|[c|e]]; cbn [Relay.given] in Hmore.
  - split; [done|]. exists (l ++ [Relay.Read (Z.min (MAX_BYTES - len (t_bytes t)) 4096)]). by rewrite app_nil_r in Hmore.
  - apply read_fits in Hr; [|lia].
    assert (Hk' : kept s0 (mkTcp (t_bytes t ++ c) (t_acceptor t) (fed t) true s1)).
    { split; [cbn [t_bytes]; rewrite len_app; lia|eauto]. }
    destruct (len c =? 0); [done|]. pose proof (look_kept _ _ Hk') as Hlook.
    destruct (look _) as [t1 [r|]]; [done|by apply IH].
  - split; [done|]. exists (l ++ [Relay.Read (Z.min (MAX_BYTES - len (t_bytes t)) 4096)]). by rewrite app_nil_r in Hmore.
Qed.

Lemma inspecting_kept s0 t : kept s0 t -> kept s0 (fst (inspecting t)).
Proof.
  intros Hk. unfold inspecting. destruct (reading t); [by apply pull_kept|].
  pose proof (look_kept _ _ Hk) as Hlook. destruct (look t) as [t1 [r|]]; [done|by apply pull_kept].
Qed.

(** The room is enough fuel: the loop stops only where the code does. *)
Lemma pull_enough fuel k t :
  (room t <= fuel)%nat -> len (t_bytes t) < MAX_BYTES -> pull (fuel + k) t = pull fuel t.
Proof.
  revert t. induction fuel as [|fuel IH]; intros t Hf Hm; [unfold room in Hf; lia|]. cbn [Nat.add pull].
  destruct (Relay.poll_read _ (stream t)) as [s1 [|[c|e]]] eqn:Hr; [done| |done].
  apply read_fits in Hr; [|lia].
  destruct (len c =? 0) eqn:Hz; [done|]. pose proof (look_more (mkTcp (t_bytes t ++ c) (t_acceptor t) (fed t) true s1)) as Hlook.
  destruct (look _) as [t1 [r|]]; [done|]. destruct (Hlook t1 eq_refl) as [Hne Heq]. cbn [t_bytes] in Heq.
  zify_bool. pose proof (len_nonneg c). assert (len (t_bytes t1) = len (t_bytes t) + len c) by (rewrite Heq, len_app; lia).
  apply IH; [unfold room in *; lia|lia].
Qed.

(** C32. Sniffing a TCP stream changes nothing of it.  Whatever the bytes are, however the reads cut
    them, and wherever interruption or the timer ends the inspection, at most [MAX_BYTES] bytes have
    been read, and the session that goes on with any ordinary and chunk reads gets exactly the bytes
    it would have got from the stream itself. *)
Theorem sniff_tcp_transparent ws (s : S) out result l :
  tcp ws s = Relay.Ready (Ok (out, result)) ->
  Forall (fun r => match r with Relay.Read room => 0 <= room | Relay.ReadChunk _ => True end) l ->
  (match out with inl _ => True | inr p => len (Relay.p_bytes p) <= MAX_BYTES end) /\
  exists l0, session_reads l out = (fst (Relay.reads l0 s), snd (fst (session_reads l out)), snd (session_reads l out)) /\
    snd (session_reads l out) ++ snd (fst (session_reads l out)) = snd (Relay.reads l0 s).
Proof.
  unfold tcp. intros Hrun Hl. assert (Hk : kept s (mkTcp [] acceptor 0 false s)) by (split; [done|by exists []]).
  apply (select_inv _ (Ok None) inspecting ws) in Hk; [|apply inspecting_kept].
  destruct (select _ _ _ _) as [t [|[r|e]]]; [done| |done]. injection Hrun as <- <-.
  destruct Hk as [Hm [l1 Hk]]. cbn [fst] in *. unfold Relay.prefix. destruct (len (t_bytes t) =? 0) eqn:Hz.
  - split; [done|]. zify_bool. apply len_zero in Hz. exists (l1 ++ l). rewrite reads_app, Hk, Hz. cbn [session_reads fst snd app].
    destruct (Relay.reads l (stream t)). cbn. by rewrite app_nil_r.
  - split; [done|]. pose proof (Relay.reads_prefix (t_bytes t) (stream t) false l Hl) as Hp. cbn [session_reads].
    destruct (Relay.reads l _) as [p x]. destruct Hp as (k & Hp). exists (l1 ++ drop k l). rewrite reads_app, Hk. cbn [fst snd].
    destruct (Relay.reads (drop k l) (stream t)) as [s' x']. destruct Hp as (<- & Heq & _). by split.
Qed.
End transparent.

(** ** No datagram is lost, repeated or reordered *)

Section replayed.
Context {A P C : Type} `{TlsAcceptor A, QuicKeys} (payload : P -> bytes) (poll_channel : C -> C * Relay.poll (option P)).
Implicit Types (r : Receiver P C) (u : Udp P C).

(** [k] calls of [recv], and the datagrams they give. *)
Fixpoint recvs (k : nat) r : Receiver P C * list P :=
  match k with
  | O => (r, [])
  | S k =>
      let '(r, o) := recv poll_channel r in
      let '(r', l) := recvs k r in
      (r', match o with Relay.Ready (Some x) => x :: l | _ => l end)
  end.

Lemma recvs_add k n r :
  recvs (k + n) r = (fst (recvs n (fst (recvs k r))), snd (recvs k r) ++ snd (recvs n (fst (recvs k r)))).
Proof.
  revert r. induction k as [|k IH]; intros r; cbn [Nat.add recvs]; [by rewrite <- surjective_pairing|].
  destruct (recv poll_channel r) as [r1 o]. rewrite (IH r1). destruct (recvs k r1) as [r2 l]. cbn [fst snd].
  by destruct o as [|[x|]].
Qed.

Lemma recvs_prepend held n r :
  recvs (length held + n) (prepend held r) = (fst (recvs n r), held ++ snd (recvs n r)).
Proof.
  induction held as [|x held IH]; [destruct r; cbn; by rewrite <- surjective_pairing|]. cbn [length Nat.add recvs recv prepend app replay].
  unfold prepend in *. cbn [channel]. by rewrite IH.
Qed.

Definition size_of (l : list P) : Z := lsum (fun p => len (payload p)) l.

(** The datagrams held are those received from [r0]; only the last may exceed the bound. *)
Record held_of (r0 : Receiver P C) u : Prop := {
  held_recvs : exists k, recvs k r0 = (incoming u, packets u);
  held_count : (length (packets u) <= MAX_PACKETS)%nat;
  held_bytes : u_bytes u = size_of (packets u);
  held_bound : forall l x, packets u = l ++ [x] -> size_of l < MAX_BYTES;
}.

Lemma recvs_more r0 k r l r1 o :
  recvs k r0 = (r, l) -> recv poll_channel r = (r1, o) ->
  recvs (k + 1) r0 = (r1, l ++ match o with Relay.Ready (Some x) => [x] | _ => [] end).
Proof. intros Hk Hr. rewrite recvs_add, Hk. cbn [fst snd recvs]. rewrite Hr. by destruct o as [|[x|]]. Qed.

Lemma gather_held r0 n u :
  (length (packets u) + n <= MAX_PACKETS)%nat -> held_of r0 u -> held_of r0 (fst (gather payload poll_channel n u)).
Proof.
  revert u. induction n as [|n IH]; intros u Hn [[k Hk] Hc Hb Hm]; [by constructor; eauto|]. cbn [gather].
  destruct (MAX_BYTES <=? u_bytes u) eqn:Hfull; [by constructor; eauto|]. zify_bool.
  destruct (recv poll_channel (incoming u)) as [r1 o] eqn:Hr. pose proof (recvs_more _ _ _ _ _ _ Hk Hr) as Hmore.
  destruct o as [|[x|]]; [rewrite app_nil_r in Hmore; by constructor; eauto| |rewrite app_nil_r in Hmore; by constructor; eauto].
  destruct (if u_bytes u + len (payload x) <=? MAX_BYTES then _ else _) as [q out].
  assert (Hh : held_of r0 (mkUdp (packets u ++ [x]) (u_bytes u + len (payload x)) q r1)).
  { constructor; cbn [packets u_bytes incoming]; [by eauto| | |].
    - rewrite length_app. cbn. lia.
    - unfold size_of in *. rewrite lsum_app, Hb. cbn. lia.
    - intros l y [<- _]%app_inj_tail. lia. }
  destruct out; [|done..]. apply IH; [|done]. cbn [packets]. rewrite length_app. cbn. lia.
Qed.

(** Sniffing a UDP session puts back what it read.  Wherever it ends, at most 32 datagrams were
    held, all but the last of them below the byte bound together, and any number of later receives
    gives the datagrams, each with its addresses, that as many receives would have given without the
    inspection. *)
Theorem sniff_udp_replays ws r r' result :
  udp payload poll_channel ws r = (r', Relay.Ready result) ->
  exists k held, (length held <= MAX_PACKETS)%nat /\
    (forall l x, held = l ++ [x] -> size_of l < MAX_BYTES) /\
    forall n, recvs (length held + n) r' = recvs (k + n) r.
Proof.
  unfold udp. intros Hrun. assert (Hh : held_of r (mkUdp [] 0 fresh r)).
  { constructor; [by exists 0%nat|cbn; lia|done|]. by intros [] ?. }
  apply (select_inv _ None (fun u => gather payload poll_channel (MAX_PACKETS - length (packets u)) u) ws) in Hh.
  2:{ intros u Hu. apply gather_held; [|done]. pose proof (held_count _ _ Hu). lia. }
  destruct (select _ _ _ _) as [u [|out]]; [done|]. injection Hrun as <- <-. destruct Hh as [[k Hk] Hc _ Hm]. cbn [fst] in *.
  exists k, (packets u). split_and!; [done..|]. intros n. by rewrite recvs_prepend, recvs_add, Hk.
Qed.
End replayed.

(** ** Concrete parameters *)

(** An acceptor that knows nothing of TLS, and a parser that waits for a line. *)
#[export] Instance demo_acceptor : TlsAcceptor unit := {|
  acceptor := tt;
  read_tls _ b := (tt, Ok (len b));
  accept _ := (tt, Ok None);
|}.

#[export] Instance demo_keys : QuicKeys := {|
  sample_len := 16;
  header_decrypt _ _ _ first pn := Some (first, pn);
  packet_decrypt _ _ _ _ b := Some b;
|}.

#[export] Instance demo_http : HttpParser := {|
  request_parse _ b := if bool_decide (10 ∈ b) then Complete [(HOST, ztake 3 b)] else Partial;
  authority_host b := Some b;
|}.

#[export] Instance feed_reads : ReadLaw Relay.Feed.
Proof.
  intros n s s' c Hn. cbn. destruct (Relay.chunks s); intros [= <- <-]; [done|]. rewrite len_ztake; lia.
Qed.

Definition demo_stream : Relay.Feed := Relay.mkFeed [[65; 66]; [67; 10; 1]; [2]] 1 Relay.no_log.
Definition demo_wake : wake := mkWake false false.

Lemma sniff_tcp_transparent_witness :
  exists out, tcp (A := unit) [demo_wake] demo_stream = Relay.Ready (Ok (out, None)) /\
  exists l0, snd (session_reads [Relay.Read 2; Relay.ReadChunk false] out) ++ snd (fst (session_reads [Relay.Read 2; Relay.ReadChunk false] out))
    = snd (Relay.reads l0 demo_stream).
Proof.
  eexists. split; [vm_compute; reflexivity|].
  edestruct (sniff_tcp_transparent (A := unit) [demo_wake] demo_stream) as (_ & l0 & _ & Hl0); [vm_compute; reflexivity| |exists l0; exact Hl0].
  repeat (apply Forall_cons_2 || apply Forall_nil_2); [lia|exact I].
Defined.

(** A channel that gives its datagrams, then waits. *)
Definition demo_channel (l : list bytes) : list bytes * Relay.poll (option bytes) :=
  match l with x :: l => (l, Relay.Ready (Some x)) | [] => ([], Relay.Pending) end.

Definition demo_receiver : Receiver bytes (list bytes) := mkReceiver [[9]] [[1; 2]; [3]].

(** The first datagram is no QUIC packet: it is put back, before the channel. *)
Lemma sniff_udp_replays_witness :
  exists k (held : list bytes), forall n,
    recvs demo_channel (length held + n) (fst (udp (A := unit) id demo_channel [demo_wake] demo_receiver)) = recvs demo_channel (k + n) demo_receiver.
Proof.
  destruct (sniff_udp_replays (A := unit) id demo_channel [demo_wake] demo_receiver
    (fst (udp (A := unit) id demo_channel [demo_wake] demo_receiver)) None) as (k & held & _ & _ & Hn).
  - vm_compute. reflexivity.
  - exists k, held. exact Hn.
Defined.

End Sniff.
