(* ===== verification/AnyTlsWire.v ===== *)
(** * AnyTLS framing (crates/anytls/src/wire.rs)

    Authentication, addresses, the padded record writer, the validation of padding schemes and the
    frame decoder, with the writer loop of a session (crates/anytls/src/session.rs).  The frame
    codec, the padding factory and the address codec of the libraries are classes. *)

From S2P Require Import Prelude Packet NetText Carrier.
Import NetText.

Module AnyTlsWire.

(** ** The libraries *)

(** [anytls::core::Command]; the session names only some of them. *)
Inductive Command := Waste | Syn | Psh | Fin | Alert | UpdatePaddingScheme | SynAck | Other (code : Z).
Record Frame := mkFrame { cmd : Command; sid : Z; data : bytes }.

#[export] Instance command_eq_dec : EqDecision Command.
Proof. solve_decision. Defined.

Class FrameCodec := {
  HEADER_OVERHEAD_SIZE : Z;
  to_bytes : Frame -> option bytes;
  from_bytes : bytes -> option Frame;
}.

(** A frame is a header of fixed length, which holds the length of its data in sixteen bits, and
    the data. *)
Class FrameLaws `{FrameCodec} : Prop := {
  header_pos : 0 < HEADER_OVERHEAD_SIZE;
  to_bytes_some f : len (data f) <= u16_max -> 0 <= sid f <= u32_max -> (forall c, cmd f <> Other c) -> is_Some (to_bytes f);
  to_bytes_len f b : to_bytes f = Some b -> len b = HEADER_OVERHEAD_SIZE + len (data f);
  from_to_bytes f b rest : to_bytes f = Some b -> from_bytes (b ++ rest) = Some f;
  from_bytes_len b f : from_bytes b = Some f -> HEADER_OVERHEAD_SIZE + len (data f) <= len b;
  from_bytes_more b f rest : from_bytes b = Some f -> from_bytes (b ++ rest) = Some f;
}.

(** [PaddingFactory]: [generate] is [generate_record_payload_sizes] with the numbers it draws. *)
Class Padding (F : Type) := {
  CHECK_MARK : Z;
  default_factory : F;
  new_factory : bytes -> option F;
  stop : F -> Z;
  generate : F -> Z -> Z -> list Z;
}.

(** fast_socks5's [TargetAddr::to_be_bytes] and [read_address], which takes the family byte apart. *)
Inductive TargetAddr := AddrIp (address : Packet.IpAddress) (port : Z) | AddrDomain (name : bytes) (port : Z).
Class AddrCodec := {
  to_be_bytes : TargetAddr -> option bytes;
  read_address : Z -> bytes -> option (TargetAddr * bytes);
}.

Inductive error :=
  | Io | AuthenticationFailed | InvalidAuthPadding | EmptyDomain | Address
  | RecordTooLarge | InvalidSize | Codec
  | SchemeTooLarge | InvalidLine | InvalidStop | InvalidPacket | InvalidRange | InvalidNumber | NotPositive | InvalidScheme.

Abbreviation Res := (res error).

(** ** Authentication *)

(** [read_exact] of [n] bytes. *)
Definition read_exact (n : Z) (io : bytes) : Res (bytes * bytes) :=
  if len io <? n then Err Io else Ok (ztake n io, zdrop n io).

(** [authenticate]: what follows the preamble. *)
Definition authenticate (password io : bytes) : Res bytes :=
  '(supplied, io) ← read_exact 32 io;
  _ ← ensure (bool_decide (password = supplied)) AuthenticationFailed;
  '(length, io) ← read_exact 2 io;
  '(_, io) ← read_exact (be_get length) io;
  Ok io.

Section padding.
Context {F : Type} `{Padding F}.

(** [send_authentication] *)
Definition send_authentication (password : bytes) (padding : F) (draw : Z) : Res bytes :=
  let size := default 0 (head (generate padding 0 draw)) in
  if negb ((0 <=? size) && (size <=? u16_max)) then Err InvalidAuthPadding else
  let b := password ++ be_put 2 size in
  Ok (resize (34 + size) 0 b).

(** ** Addresses *)

Context `{AddrCodec}.

Definition address (target : Target) : Res bytes :=
  a ← match target with
      | Ip address port => Ok (AddrIp address port)
      | Domain name port => _ ← ensure (negb (len name =? 0)) EmptyDomain; Ok (AddrDomain name port)
      end;
  ok_or (to_be_bytes a) Address.

(** [kotoconn_protocol::target] *)
Definition read_target_family (io : bytes) (family : Z) : Res (Target * bytes) :=
  '(a, io) ← ok_or (read_address family io) Io;
  match a with
  | AddrIp address port => Ok (Carrier.target (address, port), io)
  | AddrDomain name port => _ ← ensure (negb (len name =? 0)) EmptyDomain; Ok (Domain name port, io)
  end.

Definition read_target (io : bytes) : Res (Target * bytes) :=
  match io with family :: io => read_target_family io family | [] => Err Io end.

(** ** Padded records *)

Context `{FrameCodec}.

(** The loop over the record sizes: what is written, each write a record, and the bytes left. *)
Fixpoint records (sizes : list Z) (b : bytes) : Res (list bytes * bytes) :=
  match sizes with
  | [] => Ok ([], b)
  | size :: sizes =>
      if size =? CHECK_MARK then if len b =? 0 then Ok ([], b) else records sizes b
      else if size <? 0 then Err InvalidSize
      else if negb (size <=? u16_max) then Err RecordTooLarge
      else if size <=? len b then
        '(out, b') ← records sizes (zdrop size b); Ok (ztake size b :: out, b')
      else
        record ← (if len b + HEADER_OVERHEAD_SIZE <=? size then
                    w ← ok_or (to_bytes (mkFrame Waste 0 (replicate (Z.to_nat (size - len b - HEADER_OVERHEAD_SIZE)) 0))) Codec;
                    Ok (b ++ w)
                  else Ok b);
        '(out, b') ← records sizes []; Ok (record :: out, b')
  end.

(** [write_records] *)
Definition write_records (b : bytes) (padding : option F) (packet draw : Z) : Res (list bytes) :=
  let sizes := match padding with
               | Some p => if packet <? stop p then generate p packet draw else []
               | None => []
               end in
  '(out, b) ← records sizes b; Ok (out ++ [b]).

(** ** Padding schemes *)

(** [str::lines]: pieces that end in a line feed, without it and a carriage return before it; what
    follows the last line feed is a line when it is not empty. *)
Fixpoint split (c : Z) (s : bytes) : list bytes :=
  match s with
  | [] => [[]]
  | x :: s =>
      match split c s with
      | l :: ls => if x =? c then [] :: l :: ls else (x :: l) :: ls
      | [] => []
      end
  end.

Definition strip_cr (l : bytes) : bytes :=
  match rev l with c :: t => if c =? 13 then rev t else l | [] => l end.

Definition lines (s : bytes) : list bytes :=
  let l := split 10 s in
  let complete := strip_cr <$> take (length l - 1) l in
  match last l with Some ((_ :: _) as x) => complete ++ [x] | _ => complete end.

(** [str::parse] of an unsigned type whose largest value is [bound]. *)
Definition parse_uint (bound : Z) (s : bytes) : option Z :=
  let s := match s with c :: ((_ :: _) as t) => if c =? 43 then t else s | _ => s end in
  match read_number 10 None true bound s with
  | Some (n, []) => Some n
  | _ => None
  end.

Definition STOP : bytes := [115; 116; 111; 112].

(** The loop over the ranges of a line. *)
Fixpoint check_ranges (key : bytes) (ranges : list bytes) : Res unit :=
  match ranges with
  | [] => Ok tt
  | range :: ranges =>
      if bool_decide (range = [99]) && negb (bool_decide (key = [48])) then check_ranges key ranges else
      '(min, max) ← ok_or (split_once 45 range) InvalidRange;
      min ← ok_or (parse_uint u16_max min) InvalidNumber;
      max ← ok_or (parse_uint u16_max max) InvalidNumber;
      _ ← ensure ((0 <? min) && (0 <? max)) NotPositive;
      check_ranges key ranges
  end.

(** The loop over the lines of a scheme. *)
Fixpoint check_lines (ls : list bytes) : Res unit :=
  match ls with
  | [] => Ok tt
  | line :: ls =>
      '(key, value) ← ok_or (split_once 61 line) InvalidLine;
      _ ← (if bool_decide (key = STOP) then ensure (bool_decide (is_Some (parse_uint u32_max value))) InvalidStop
           else _ ← ensure (bool_decide (is_Some (parse_uint u32_max key))) InvalidPacket;
                check_ranges key (split 44 value));
      check_lines ls
  end.

Definition padding_scheme (raw : option bytes) : Res F :=
  match raw with
  | None => Ok default_factory
  | Some raw =>
      _ ← ensure (len raw <=? u16_max) SchemeTooLarge;
      _ ← check_lines (lines raw);
      ok_or (new_factory raw) InvalidScheme
  end.

(** ** Decoding *)

(** [<Frames as Decoder>::decode]: a frame, and the buffer after it. *)
Definition decode (b : bytes) : option (Frame * bytes) :=
  match from_bytes b with
  | None => None
  | Some frame => Some (frame, zdrop (HEADER_OVERHEAD_SIZE + len (data frame)) b)
  end.

(** [FramedRead]: the frames of the buffer, and of the buffer as pieces arrive. *)
Fixpoint deframe_loop (fuel : nat) (b : bytes) : list Frame * bytes :=
  match fuel with
  | O => ([], b)
  | S fuel =>
      match decode b with
      | None => ([], b)
      | Some (f, b) => let '(fs, b) := deframe_loop fuel b in (f :: fs, b)
      end
  end.
Definition deframe (b : bytes) : list Frame * bytes := deframe_loop (length b) b.

Fixpoint framed_read (b : bytes) (pieces : list bytes) : list Frame * bytes :=
  match pieces with
  | [] => ([], b)
  | piece :: pieces =>
      let '(fs, b) := deframe (b ++ piece) in
      let '(fs', b) := framed_read b pieces in
      (fs ++ fs', b)
  end.

(** ** The writer of a session *)

(** [Session::send]: the bytes of a batch of frames. *)
Definition encode (frames : list Frame) : Res bytes :=
  match mapM to_bytes frames with Some bs => Ok (concat bs) | None => Err Codec end.

(** The [writing] task: an empty batch flushes; another is one counted write.  Each batch comes with
    the session's factory at that time, which only a client uses, and the numbers drawn. *)
Fixpoint writing (client : bool) (packet : Z) (l : list (bytes * F * Z)) : Res (list bytes) :=
  match l with
  | [] => Ok []
  | (b, padding, draw) :: l =>
      if len b =? 0 then writing client packet l else
      out ← write_records b (if client then Some padding else None) packet draw;
      out' ← writing client (Z.min u32_max (packet + 1)) l;
      Ok (out ++ out')
  end.
End padding.

(** ** Frames survive padding and cutting *)

Definition is_waste (f : Frame) : Prop := cmd f = Waste.
#[export] Instance is_waste_dec f : Decision (is_waste f) := decide (cmd f = Waste).

(** The frames the engine acts on. *)
Definition useful (fs : list Frame) : list Frame := filter (fun f => ~ is_waste f) fs.

Lemma useful_app a b : useful (a ++ b) = useful a ++ useful b.
Proof. apply filter_app. Qed.

Lemma useful_waste fs : Forall is_waste fs -> useful fs = [].
Proof.
  unfold useful. induction 1 as [|f fs Hf _ IH]; [done|]. rewrite filter_cons_False; [done|]. intros Hn. by apply Hn.
Qed.

Section framing.
Context `{FrameLaws}.

Lemma decode_shorter b f b' : decode b = Some (f, b') -> (length b' < length b)%nat.
Proof.
  unfold decode. destruct (from_bytes b) as [g|] eqn:Hb; [|done]. intros [= <- <-]. apply from_bytes_len in Hb.
  pose proof header_pos. pose proof (len_nonneg (data g)). unfold zdrop, len in *. rewrite length_drop. lia.
Qed.

Lemma deframe_fuel n b : (length b <= n)%nat -> deframe_loop n b = deframe b.
Proof.
  unfold deframe. revert b. assert (Hgen : forall m n b, (length b <= m)%nat -> (length b <= n)%nat -> deframe_loop m b = deframe_loop n b).
  { clear n. induction m as [|m IH]; intros n b Hm Hn.
    - destruct b; [|cbn in Hm; lia]. destruct n; [done|]. cbn [deframe_loop]. destruct (decode []) as [[f b']|] eqn:Hd; [|done].
      apply decode_shorter in Hd. cbn in Hd. lia.
    - destruct n as [|n].
      + destruct b; [|cbn in Hn; lia]. cbn [deframe_loop]. destruct (decode []) as [[f b']|] eqn:Hd; [|done].
        apply decode_shorter in Hd. cbn in Hd. lia.
      + cbn [deframe_loop]. destruct (decode b) as [[f b']|] eqn:Hd; [|done]. apply decode_shorter in Hd.
        rewrite (IH n b'); [done|lia..]. }
  intros b Hb. by apply Hgen.
Qed.

Lemma deframe_step b :
  deframe b = match decode b with None => ([], b) | Some (f, b') => (f :: fst (deframe b'), snd (deframe b')) end.
Proof.
  destruct (decode b) as [[f b']|] eqn:Hd.
  - pose proof (decode_shorter _ _ _ Hd). unfold deframe at 1. destruct (length b) as [|n] eqn:Hl; [lia|]. cbn [deframe_loop]. rewrite Hd.
    rewrite (deframe_fuel n b') by lia. by destruct (deframe b').
  - unfold deframe. destruct (length b); cbn [deframe_loop]; [done|]. by rewrite Hd.
Qed.

Lemma decode_more b f b' x : decode b = Some (f, b') -> decode (b ++ x) = Some (f, b' ++ x).
Proof.
  unfold decode. destruct (from_bytes b) as [g|] eqn:Hb; [|done]. intros [= <- <-]. rewrite (from_bytes_more _ _ x Hb).
  apply from_bytes_len in Hb. by rewrite zdrop_app_le.
Qed.

(** What was decoded does not depend on when the rest arrives. *)
Lemma deframe_app b x :
  deframe (b ++ x) = (fst (deframe b) ++ fst (deframe (snd (deframe b) ++ x)), snd (deframe (snd (deframe b) ++ x))).
Proof.
  remember (length b) as n eqn:Hn. revert b Hn. induction n as [n IH] using lt_wf_ind. intros b ->.
  rewrite (deframe_step b). destruct (decode b) as [[f b']|] eqn:Hd; cbn [fst snd app]; [|by rewrite <- surjective_pairing].
  rewrite deframe_step, (decode_more _ _ _ x Hd). pose proof (decode_shorter _ _ _ Hd).
  by rewrite (IH (length b') ltac:(lia) b' eq_refl).
Qed.

Lemma deframe_rest b : deframe (snd (deframe b)) = ([], snd (deframe b)).
Proof.
  pose proof (deframe_app b []) as Hd. rewrite !app_nil_r in Hd. destruct (deframe (snd (deframe b))) as [fs r] eqn:Hr.
  cbn [fst snd] in Hd. rewrite Hd in Hr. cbn [snd] in Hr.
  assert (fs = []) as ->.
  { apply (f_equal (fun p => length (fst p))) in Hd. cbn [fst] in Hd. rewrite length_app in Hd. destruct fs; [done|]. cbn in Hd. lia. }
  by rewrite Hd.
Qed.

Lemma framed_read_concat pieces b : deframe b = ([], b) -> framed_read b pieces = deframe (b ++ concat pieces).
Proof.
  revert b. induction pieces as [|x pieces IH]; intros b Hb; cbn [framed_read concat]; [by rewrite app_nil_r|].
  rewrite app_assoc, (deframe_app (b ++ x)). pose proof (deframe_rest (b ++ x)) as Hr.
  destruct (deframe (b ++ x)) as [fs r]. cbn [fst snd] in *. rewrite (IH r Hr). by destruct (deframe (r ++ concat pieces)).
Qed.

Lemma decode_encoded f b rest : to_bytes f = Some b -> decode (b ++ rest) = Some (f, rest).
Proof.
  intros Hb. unfold decode. rewrite (from_to_bytes _ _ _ Hb). by rewrite zdrop_app_exact by (by rewrite (to_bytes_len _ _ Hb)).
Qed.

Lemma deframe_nil : deframe [] = ([], []).
Proof. done. Qed.

Lemma deframe_frames fs bs : mapM to_bytes fs = Some bs -> deframe (concat bs) = (fs, []).
Proof.
  intros Hm%mapM_Some. induction Hm as [|f b fs bs Hb _ IH]; [done|]. cbn [concat].
  by rewrite deframe_step, (decode_encoded _ _ _ Hb), IH.
Qed.
End framing.

Section roundtrip.
Context {F : Type} `{Padding F, FrameLaws}.

(** A byte string that is the encoding of a list of frames. *)
Definition encodes (fs : list Frame) (b : bytes) : Prop := exists bs, mapM to_bytes fs = Some bs /\ b = concat bs.

Lemma encodes_nil : encodes [] [].
Proof. by exists []. Qed.

Lemma encodes_app fs gs a b : encodes fs a -> encodes gs b -> encodes (fs ++ gs) (a ++ b).
Proof.
  intros (xs & Hx%mapM_Some & ->) (ys & Hy%mapM_Some & ->). exists (xs ++ ys). split; [|by rewrite concat_app].
  apply mapM_Some. by apply Forall2_app.
Qed.

Lemma records_spec sizes b out b' :
  records sizes b = Ok (out, b') -> exists ws w, Forall is_waste ws /\ encodes ws w /\ concat out ++ b' = b ++ w.
Proof.
  revert b out b'. induction sizes as [|size sizes IH]; intros b out b'; cbn [records].
  { intros [= <- <-]. exists [], []. split_and!; [done|apply encodes_nil|by rewrite app_nil_r]. }
  destruct (size =? CHECK_MARK).
  { destruct (len b =? 0); [|by apply IH]. intros [= <- <-]. exists [], []. split_and!; [done|apply encodes_nil|by rewrite app_nil_r]. }
  destruct (size <? 0); [done|]. destruct (negb _); [done|]. destruct (size <=? len b).
  - destruct (records sizes (zdrop size b)) as [[o1 b1]|] eqn:Hrec; [|done]. intros [= <- <-].
    destruct (IH _ _ _ Hrec) as (ws & w & Hw & He & Heq). exists ws, w. split_and!; [done..|]. cbn [concat].
    by rewrite <- app_assoc, Heq, app_assoc, ztake_zdrop.
  - assert (Hrecord : forall record, (if len b + HEADER_OVERHEAD_SIZE <=? size then
        w ← ok_or (to_bytes (mkFrame Waste 0 (replicate (Z.to_nat (size - len b - HEADER_OVERHEAD_SIZE)) 0))) Codec; Ok (b ++ w)
        else Ok b) = Ok record -> exists ws w, Forall is_waste ws /\ encodes ws w /\ record = b ++ w).
    { intros record. destruct (_ <=? size).
      - destruct (to_bytes _) as [w|] eqn:Hw; [|done]. intros [= <-]. exists [mkFrame Waste 0 (replicate (Z.to_nat (size - len b - HEADER_OVERHEAD_SIZE)) 0)], w.
        split_and!; [by repeat constructor| |done]. exists [w]. cbn. rewrite Hw. by rewrite app_nil_r.
      - intros [= <-]. exists [], []. split_and!; [done|apply encodes_nil|by rewrite app_nil_r]. }
    destruct (if len b + _ <=? size then _ else _) as [record|]; [|done]. cbn [mbind res_bind].
    destruct (Hrecord record eq_refl) as (ws & w & Hw & He & ->).
    destruct (records sizes []) as [[o1 b1]|] eqn:Hrec; [|done]. intros [= <- <-].
    destruct (IH _ _ _ Hrec) as (ws' & w' & Hw' & He' & Heq). exists (ws ++ ws'), (w ++ w').
    split_and!; [by apply Forall_app|by apply encodes_app|]. cbn [concat]. rewrite <- !app_assoc, Heq. done.
Qed.

Lemma write_records_spec b padding packet draw out :
  write_records b padding packet draw = Ok out ->
  exists ws w, Forall is_waste ws /\ encodes ws w /\ concat out = b ++ w.
Proof.
  unfold write_records. destruct (records _ b) as [[o b']|] eqn:Hrec; [|done]. intros [= <-].
  destruct (records_spec _ _ _ _ Hrec) as (ws & w & Hw & He & Heq). exists ws, w. split_and!; [done..|].
  rewrite concat_app. cbn. by rewrite app_nil_r.
Qed.

Lemma encode_encodes fs b : encode fs = Ok b -> encodes fs b.
Proof. unfold encode. destruct (mapM to_bytes fs) as [bs|] eqn:Hm; [|done]. intros [= <-]. by exists bs. Qed.

Lemma writing_spec client packet l fss out :
  writing client packet l = Ok out -> Forall2 (fun fs w => encode fs = Ok (fst (fst w))) fss l ->
  exists fs, encodes fs (concat out) /\ useful fs = useful (concat fss).
Proof.
  intros Hw HF. revert packet out Hw. induction HF as [|fs [[b p] draw] fss l Hb HF IH]; intros packet out; cbn [writing].
  { intros [= <-]. exists []. split; [apply encodes_nil|done]. }
  cbn [fst] in Hb. apply encode_encodes in Hb. cbn [concat]. rewrite useful_app. destruct (len b =? 0) eqn:Hz.
  { zify_bool. apply len_zero in Hz as ->. intros Hrun. destruct (IH _ _ Hrun) as (gs & Hg & Hu).
    exists (fs ++ gs). rewrite useful_app, Hu. split; [|done]. by apply (encodes_app fs gs []). }
  destruct (write_records _ _ _ _) as [o1|] eqn:Hw1; [|done]. cbn [mbind res_bind].
  destruct (writing client _ l) as [o2|] eqn:Hw2; [|done]. intros [= <-].
  destruct (write_records_spec _ _ _ _ _ Hw1) as (ws & w & Hwaste & He & Ho1). destruct (IH _ _ Hw2) as (gs & Hg & Hu).
  exists ((fs ++ ws) ++ gs). rewrite concat_app, Ho1, !useful_app, (useful_waste ws Hwaste), app_nil_r, Hu.
  split; [|done]. by apply encodes_app, Hg; apply encodes_app.
Qed.

(** Frames cross the padded connection unchanged.  Whatever batches a session sends, whatever
    record sizes its padding draws for them and however the transport cuts the bytes, the peer's
    decoder ends with an empty buffer and gives the same frames in the same order, and nothing else
    but waste frames. *)
Theorem anytls_frames_roundtrip client packet l fss out pieces :
  writing client packet l = Ok out -> Forall2 (fun fs w => encode fs = Ok (fst (fst w))) fss l ->
  concat pieces = concat out ->
  exists fs, framed_read [] pieces = (fs, []) /\ useful fs = useful (concat fss).
Proof.
  intros Hw HF Hp. destruct (writing_spec _ _ _ _ _ Hw HF) as (fs & (bs & Hm & Hb) & Hu). exists fs. split; [|done].
  rewrite framed_read_concat by done. cbn [app]. rewrite Hp, Hb. by apply deframe_frames.
Qed.
End roundtrip.

(** ** Accepted schemes never break a write *)

(** [v as i32] *)
Definition cast_i32 (v : Z) : Z := (v + 2 ^ 31) `mod` 2 ^ 32 - 2 ^ 31.

Definition i64_max : Z := 2 ^ 63 - 1.

(** "It accepts i64 ranges and casts them to i32": a size is the check mark, or was drawn between the
    ends of a range of the scheme. *)
Class PaddingLaws (F : Type) `{Padding F} : Prop := {
  generated raw p packet draw s :
    new_factory raw = Some p -> s ∈ generate p packet draw ->
    s = CHECK_MARK \/
    exists line key value range lo hi a b v, line ∈ lines raw /\ split_once 61 line = Some (key, value) /\ key <> STOP /\
      range ∈ split 44 value /\ split_once 45 range = Some (lo, hi) /\
      parse_uint i64_max lo = Some a /\ parse_uint i64_max hi = Some b /\
      Z.min a b <= v <= Z.max a b /\ s = cast_i32 v;
  default_generated packet draw s :
    s ∈ generate default_factory packet draw -> s = CHECK_MARK \/ 0 <= s <= u16_max;
}.

Lemma parse_uint_widen n m s v : n <= m -> parse_uint n s = Some v -> parse_uint m s = Some v /\ v <= n.
Proof.
  intros Hnm. unfold parse_uint, read_number. destruct (read_digits 10 _) as [ds rest].
  destruct (len ds =? 0); [done|]. cbn [negb andb]. destruct (value 10 ds <=? n) eqn:Hv; [|done]. zify_bool.
  rewrite (proj2 (Z.leb_le _ m)) by lia. destruct rest; [|done]. by intros [= <-].
Qed.

(** A checked range other than the mark has positive 16-bit ends. *)
Lemma check_ranges_spec key ranges range lo hi :
  check_ranges key ranges = Ok tt -> range ∈ ranges -> split_once 45 range = Some (lo, hi) ->
  exists a b, parse_uint u16_max lo = Some a /\ parse_uint u16_max hi = Some b /\ 0 < a /\ 0 < b.
Proof.
  intros Hc Hin Hs. induction ranges as [|r ranges IH]; [by apply elem_of_nil in Hin|]. cbn [check_ranges] in Hc.
  destruct (bool_decide (r = [99]) && _) eqn:Hm.
  { apply elem_of_cons in Hin as [->|Hin]; [|by apply IH]. zify_bool. apply bool_decide_eq_true in H as ->. done. }
  destruct (split_once 45 r) as [[l h]|] eqn:Hr; [|done]. cbn [ok_or mbind res_bind] in Hc.
  destruct (parse_uint u16_max l) as [a|] eqn:Ha; [|done]. cbn [ok_or mbind res_bind] in Hc.
  destruct (parse_uint u16_max h) as [b|] eqn:Hb; [|done]. cbn [ok_or mbind res_bind] in Hc.
  destruct ((0 <? a) && (0 <? b)) eqn:Hp; [|done]. cbn [ensure mbind res_bind] in Hc. zify_bool.
  apply elem_of_cons in Hin as [->|Hin]; [|by apply IH]. rewrite Hr in Hs. injection Hs as <- <-. by exists a, b.
Qed.

Lemma check_lines_spec ls line key value :
  check_lines ls = Ok tt -> line ∈ ls -> split_once 61 line = Some (key, value) -> key <> STOP ->
  check_ranges key (split 44 value) = Ok tt.
Proof.
  intros Hc Hin Hs Hk. induction ls as [|l ls IH]; [by apply elem_of_nil in Hin|]. cbn [check_lines] in Hc.
  destruct (split_once 61 l) as [[k v]|] eqn:Hl; [|done]. cbn [ok_or mbind res_bind] in Hc.
  destruct (if bool_decide (k = STOP) then _ else _) as [[]|] eqn:Hthis; [|done]. cbn [mbind res_bind] in Hc.
  apply elem_of_cons in Hin as [->|Hin]; [|by apply IH]. rewrite Hl in Hs. injection Hs as <- <-.
  rewrite bool_decide_eq_false_2 in Hthis by done. destruct (ensure _ _) as [[]|]; done.
Qed.

Section accepted.
Context {F : Type} `{Padding F, !PaddingLaws F, FrameLaws}.

(** A size [records] takes. *)
Definition size_ok (s : Z) : Prop := s = CHECK_MARK \/ 0 <= s <= u16_max.

Lemma records_total sizes b : Forall size_ok sizes -> exists r, records sizes b = Ok r.
Proof.
  intros HF. revert b. induction HF as [|s sizes Hs HF IH]; intros b; cbn [records]; [by eexists|].
  destruct (s =? CHECK_MARK) eqn:Hm; [destruct (len b =? 0); [by eexists|apply IH]|]. zify_bool. destruct Hs as [|Hs]; [done|].
  rewrite (proj2 (Z.ltb_ge s 0)), (proj2 (Z.leb_le s u16_max)) by lia. cbn [negb].
  destruct (s <=? len b); [destruct (IH (zdrop s b)) as [[] ->]; by eexists|].
  destruct (_ <=? s) eqn:Hw; zify_bool.
  - destruct (to_bytes_some (mkFrame Waste 0 (replicate (Z.to_nat (s - len b - HEADER_OVERHEAD_SIZE)) 0))) as [w ->]; cbn [data sid cmd].
    + unfold len at 1. rewrite length_replicate. pose proof header_pos. pose proof (len_nonneg b). lia.
    + by unfold u32_max.
    + done.
    + destruct (IH []) as [[] He]. cbn [ok_or mbind res_bind]. rewrite He. by eexists.
  - destruct (IH []) as [[] He]. cbn [mbind res_bind]. rewrite He. by eexists.
Qed.

Lemma scheme_sizes raw p packet draw : padding_scheme raw = Ok p -> Forall size_ok (generate p packet draw).
Proof.
  intros Hp. apply Forall_forall. intros s Hs. destruct raw as [raw|]; cbn [padding_scheme] in Hp.
  2:{ injection Hp as <-. by eapply default_generated. }
  destruct (len raw <=? u16_max); [|done]. cbn [ensure mbind res_bind] in Hp.
  destruct (check_lines (lines raw)) as [[]|] eqn:Hl; [|done]. cbn [mbind res_bind] in Hp.
  destruct (new_factory raw) as [q|] eqn:Hn; [|done]. injection Hp as ->.
  destruct (generated _ _ _ _ _ Hn Hs) as [->|(line & key & value & range & lo & hi & a & b & v & Hin & Hkv & Hk & Hr & Hlo & Ha & Hb & Hv & ->)]; [by left|].
  right. destruct (check_ranges_spec key (split 44 value) range lo hi) as (a' & b' & Ha' & Hb' & ? & ?);
    [by eapply check_lines_spec|done..|].
  apply (parse_uint_widen u16_max i64_max) in Ha' as [Ha' ?]; [|done]. apply (parse_uint_widen u16_max i64_max) in Hb' as [Hb' ?]; [|done].
  assert (a' = a) as -> by congruence. assert (b' = b) as -> by congruence. unfold cast_i32, u16_max in *.
  rewrite Z.mod_small by lia. lia.
Qed.

(** A padding scheme that passes the validation, the peer's or the default one, never breaks the
    connection: for every write, every packet number and every draw of the factory, each record size
    is usable and the padded write succeeds. *)
Theorem accepted_scheme_writes raw p b packet draw :
  padding_scheme raw = Ok p ->
  Forall size_ok (generate p packet draw) /\ exists out, write_records b (Some p) packet draw = Ok out.
Proof.
  intros Hp. pose proof (scheme_sizes raw p packet draw Hp) as Hs. split; [done|]. unfold write_records.
  destruct (packet <? stop p); [|by eexists]. destruct (records_total _ b Hs) as [[] ->]. by eexists.
Qed.
End accepted.

Lemma read_exact_app n a r : len a = n -> read_exact n (a ++ r) = Ok (a, r).
Proof.
  intros Hn. unfold read_exact. pose proof (len_nonneg r). rewrite len_app, (proj2 (Z.ltb_ge _ n)) by lia.
  by rewrite ztake_app_exact, zdrop_app_exact.
Qed.

(** What [send_authentication] writes passes [authenticate], and what follows it is left. *)
Lemma authentication_roundtrip {F} `{Padding F} password padding draw b rest :
  len password = 32 -> send_authentication password padding draw = Ok b -> authenticate password (b ++ rest) = Ok rest.
Proof.
  intros Hlen. unfold send_authentication. set (size := default 0 _). destruct (negb _) eqn:Hs; [done|]. zify_bool.
  intros Hb. assert (resize (34 + size) 0 (password ++ be_put 2 size) = b) as <- by congruence.
  unfold authenticate, resize. rewrite !len_app, len_be_put, Hlen. replace (34 + size - (32 + Z.of_nat 2)) with size by lia.
  rewrite <- !app_assoc, read_exact_app by done. cbn [mbind res_bind]. rewrite bool_decide_eq_true_2 by done.
  cbn [ensure mbind res_bind]. rewrite read_exact_app by apply len_be_put. cbn [mbind res_bind].
  rewrite be_get_put by (unfold u16_max in *; lia). rewrite read_exact_app; [done|]. unfold len. rewrite length_replicate. lia.
Qed.

(** ** Concrete parameters *)

Definition code (c : Command) : Z :=
  match c with Waste => 0 | Syn => 1 | Psh => 2 | Fin => 3 | Alert => 5 | UpdatePaddingScheme => 6 | SynAck => 7 | Other n => n end.
Definition decode_command (n : Z) : Command :=
  if n =? 0 then Waste else if n =? 1 then Syn else if n =? 2 then Psh else if n =? 3 then Fin else if n =? 5 then Alert
  else if n =? 6 then UpdatePaddingScheme else if n =? 7 then SynAck else Other n.

(** The AnyTLS frame: a command byte, the stream, the length and the data. *)
#[export] Instance demo_codec : FrameCodec := {|
  HEADER_OVERHEAD_SIZE := 7;
  to_bytes f :=
    if (len (data f) <=? u16_max) && (0 <=? sid f) && (sid f <=? u32_max) && bool_decide (decode_command (code (cmd f)) = cmd f)
    then Some (code (cmd f) :: be_put 4 (sid f) ++ be_put 2 (len (data f)) ++ data f) else None;
  from_bytes b :=
    match b with
    | c :: rest =>
        let n := be_get (slice 4 6 rest) in
        if len b <? 7 + n then None
        else if len b <? 7 then None
        else if n <? 0 then None
        else Some (mkFrame (decode_command c) (be_get (ztake 4 rest)) (ztake n (zdrop 6 rest)))
    | [] => None
    end;
|}.

#[export] Instance demo_laws : FrameLaws.
Proof.
  constructor.
  - done.
  - intros f Hl Hs Hc. cbn [to_bytes demo_codec]. rewrite !(proj2 (Z.leb_le _ _)) by lia.
    rewrite bool_decide_eq_true_2; [by eexists|]. destruct (cmd f); try done. by destruct (Hc code0).
  - intros f b. cbn [to_bytes demo_codec]. destruct (_ && _); [|done]. intros Hb.
    assert (code (cmd f) :: be_put 4 (sid f) ++ be_put 2 (len (data f)) ++ data f = b) as <- by congruence.
    rewrite len_cons, !len_app, !len_be_put. cbn. lia.
  - intros f b rest. cbn [to_bytes demo_codec]. destruct (_ && _) eqn:Hc; [|done]. zify_bool. intros Hb.
    assert (code (cmd f) :: be_put 4 (sid f) ++ be_put 2 (len (data f)) ++ data f = b) as <- by congruence.
    apply bool_decide_eq_true in H0. cbn [from_bytes demo_codec app]. rewrite <- !app_assoc. pose proof (len_nonneg (data f)).
    pose proof (len_nonneg rest). unfold u16_max, u32_max in *.
    assert (slice 4 6 (be_put 4 (sid f) ++ be_put 2 (len (data f)) ++ data f ++ rest) = be_put 2 (len (data f))) as ->.
    { unfold slice. rewrite zdrop_app_exact by (by rewrite len_be_put). by rewrite ztake_app_exact by (by rewrite len_be_put). }
    rewrite be_get_put by lia. rewrite len_cons, !len_app, !len_be_put.
    rewrite !(proj2 (Z.ltb_ge _ _)) by lia. rewrite ztake_app_exact by (by rewrite len_be_put). rewrite be_get_put by lia.
    rewrite app_assoc, zdrop_app_exact by (by rewrite len_app, !len_be_put). rewrite ztake_app_exact by done.
    rewrite H0. by destruct f.
  - intros b f. cbn [from_bytes demo_codec]. destruct b as [|c b]; [done|]. destruct (_ <? 7 + _) eqn:H1; [done|].
    destruct (_ <? 7) eqn:H2; [done|]. destruct (_ <? 0) eqn:H3; [done|]. intros [= <-]. zify_bool. cbn [data].
    rewrite len_ztake by lia. cbn [HEADER_OVERHEAD_SIZE demo_codec]. lia.
  - intros b f rest. cbn [from_bytes demo_codec]. destruct b as [|c b]; [done|]. destruct (_ <? 7 + _) eqn:H1; [done|].
    destruct (_ <? 7) eqn:H2; [done|]. destruct (_ <? 0) eqn:H3; [done|]. intros [= <-]. zify_bool.
    rewrite len_cons in *. cbn [app].
    assert (slice 4 6 (b ++ rest) = slice 4 6 b) as ->.
    { unfold slice. rewrite zdrop_app_le by lia. rewrite ztake_app_le; [done|]. rewrite len_zdrop by lia. lia. }
    pose proof (len_nonneg rest). rewrite len_cons, len_app. rewrite !(proj2 (Z.ltb_ge _ _)) by lia.
    rewrite ztake_app_le, zdrop_app_le by lia. rewrite ztake_app_le; [done|]. rewrite len_zdrop by lia. lia.
Qed.

(** A factory whose every schedule is a record of nine bytes, a mark and nine more. *)
#[export] Instance demo_padding : Padding unit := {|
  CHECK_MARK := -1;
  default_factory := tt;
  new_factory raw := if bool_decide (raw = [49; 61; 57; 45; 57]) then Some tt else None;
  stop _ := 8;
  generate _ packet _ := [9; -1; 9];
|}.

#[export] Instance demo_padding_laws : PaddingLaws unit.
Proof.
  constructor.
  - intros raw p packet draw s. cbn [new_factory demo_padding]. case_bool_decide as Hr; [|done]. subst raw. intros _ Hs.
    assert (s = -1 \/ s = 9) as [->| ->] by (cbn in Hs; set_solver); [by left|]. right.
    exists [49; 61; 57; 45; 57], [49], [57; 45; 57], [57; 45; 57], [57], [57], 9, 9, 9.
    split_and!; try reflexivity; try done; apply (bool_decide_unpack _); vm_compute; exact I.
  - intros packet draw s Hs. assert (s = -1 \/ s = 9) as [->| ->] by (cbn in Hs; set_solver); [by left|right; done].
Qed.

Definition demo_batches : list (list Frame) := [[mkFrame Syn 1 []; mkFrame Psh 1 [5; 6]]; []; [mkFrame Fin 1 []]].
Definition demo_writes : list (bytes * unit * Z) :=
  (fun fs => (match encode fs with Ok b => b | Err _ => [] end, tt, 0)) <$> demo_batches.
Definition demo_wire : list bytes := match writing true 1 demo_writes with Ok out => out | Err _ => [] end.

(** The client pads three batches, the bytes arrive in pieces of one and the rest. *)
Lemma anytls_frames_roundtrip_witness :
  exists fs, framed_read [] [ztake 1 (concat demo_wire); zdrop 1 (concat demo_wire)] = (fs, []) /\
    useful fs = [mkFrame Syn 1 []; mkFrame Psh 1 [5; 6]; mkFrame Fin 1 []].
Proof.
  apply (anytls_frames_roundtrip true 1 demo_writes demo_batches demo_wire).
  - vm_compute. reflexivity.
  - repeat constructor.
  - vm_compute. reflexivity.
Defined.

Lemma accepted_scheme_writes_witness :
  exists out, write_records [1; 2; 3] (Some tt) 2 0 = Ok out.
Proof.
  apply (accepted_scheme_writes (Some [49; 61; 57; 45; 57]) tt [1; 2; 3] 2 0). vm_compute. reflexivity.
Defined.

End AnyTlsWire.
