(* ===== verification/AnyTlsSession.v ===== *)
(** * AnyTLS sessions (crates/anytls/src/session.rs, crates/anytls/src/stream.rs)

    A multiplexed session: the session task, its writer task and the logical streams of its callers,
    as one machine.  The tasks share the message and drop channels, the write channel, the receive
    credit and the status of each stream.  The session task is suspended only between the actions of
    a frame or in a send, where nothing it owns can change; a step of the machine is one message, one
    frame, one action, one write or one poll of a stream.  The protocol engine is a class. *)

From Stdlib Require Import Ascii String.
From S2P Require Import Prelude Packet NetText Carrier Relay AnyTlsWire.

Module AnyTlsSession.
Import AnyTlsWire NetText.

Definition MAX_STREAMS : Z := 128.
Definition RECEIVE_BYTES : Z := 4 * 1024 * 1024.
Definition CHUNK : Z := 16 * 1024.
Definition MESSAGES : nat := 64.
Definition WRITES : nat := 16.

(** The bytes of a literal. *)
Definition text (s : string) : bytes := (fun c => Z.of_N (N_of_ascii c)) <$> list_ascii_of_string s.

(** ** The engine *)

(** [anytls::core::ProtocolAction] *)
Inductive Action :=
  | SendFrame (f : Frame)
  | SendFrameSync (f : Frame)
  | PushStreamData (sid : Z) (data : bytes)
  | EnsureIncomingStream (sid : Z)
  | CloseLocalStream (sid : Z)
  | CloseRemoteStream (sid : Z) (message : bytes)
  | AlertAndFail (message : bytes)
  | ReleaseWriteBuffering.

(** [anytls::core::Engine] over the session's [State], with the padding it holds. *)
Class Engine (E F : Type) := {
  on_session_start : E -> option (E * list Action);
  on_frame : E -> bool -> Frame -> option (E * list Action);
  padding_of : E -> F;
}.

(** ** State *)

Record Status := mkStatus { closed : bool; accepted : bool; error_text : option bytes }.

(** [Status::close]: the first error stays. *)
Definition status_close (error : option bytes) (s : Status) : Status :=
  mkStatus true (accepted s) (match error_text s with Some e => Some e | None => error end).

(** [Status::default()] *)
Definition status_new : Status := mkStatus false false None.

(** A [Received]: its bytes and the permits it holds. *)
Record Received := mkReceived { r_bytes : bytes; r_credit : Z }.

Inductive Error := Wire (e : AnyTlsWire.error) | Busy | SidsExhausted | SidOrder | EngineFailed | AlertReceived
  | InvalidText | Rejected | Failed (message : bytes) | BrokenPipe (text : option bytes).

(** [LogicalStream] with the channel, the status and the acknowledgement it shares with the session:
    [open] while the entry holds the sending half, [alive] while the handle exists.  [given], [got]
    and [written] record what was queued for it, read from it and accepted by it. *)
Record LogicalStream := mkStream {
  queue : list Received;
  pending : option Received;
  open : bool;
  alive : bool;
  status : Status;
  flushing : option (option (res Error unit));
  shutdown : bool;
  given : bytes;
  got : bytes;
  head_bytes : bytes;
  written : bytes;
}.

Definition stream_new (head : bytes) : LogicalStream := mkStream [] None true true status_new None false [] [] head [].

Definition set_incoming q p s := mkStream q p (open s) (alive s) (status s) (flushing s) (shutdown s) (given s) (got s) (head_bytes s) (written s).
Definition set_open o s := mkStream (queue s) (pending s) o (alive s) (status s) (flushing s) (shutdown s) (given s) (got s) (head_bytes s) (written s).
Definition set_alive a s := mkStream (queue s) (pending s) (open s) a (status s) (flushing s) (shutdown s) (given s) (got s) (head_bytes s) (written s).
Definition set_status st s := mkStream (queue s) (pending s) (open s) (alive s) st (flushing s) (shutdown s) (given s) (got s) (head_bytes s) (written s).
Definition set_flushing f s := mkStream (queue s) (pending s) (open s) (alive s) (status s) f (shutdown s) (given s) (got s) (head_bytes s) (written s).
Definition set_shutdown b s := mkStream (queue s) (pending s) (open s) (alive s) (status s) (flushing s) b (given s) (got s) (head_bytes s) (written s).
Definition log_given b s := mkStream (queue s) (pending s) (open s) (alive s) (status s) (flushing s) (shutdown s) (given s ++ b) (got s) (head_bytes s) (written s).
Definition log_got b s := mkStream (queue s) (pending s) (open s) (alive s) (status s) (flushing s) (shutdown s) (given s) (got s ++ b) (head_bytes s) (written s).
Definition log_written b s := mkStream (queue s) (pending s) (open s) (alive s) (status s) (flushing s) (shutdown s) (given s) (got s) (head_bytes s) (written s ++ b).

Inductive Message :=
  | Open (address : bytes)
  | Data (sid : Z) (b : bytes)
  | Flush (sid : Z)
  | Close (sid : Z).

(** A [Write], with the stream whose acknowledgement it completes, and its frames. *)
Record Write := mkWrite { w_frames : list Frame; w_bytes : bytes; w_complete : option Z }.

Section session.
Context {E F : Type} `{Padding F, FrameCodec, Engine E F}.
(** [size_of::<Received>()], the numbers the padding draws for each packet, and the server's handler
    of a new stream. *)
Context (received_size : Z) (draw : Z -> Z) (incoming : option (Z -> bool)).

Record Session := mkSession {
  state : E;
  padding : F;
  entries : gset Z;
  receive_credit : Z;
  next_sid : Z;
  started : bool;
  draining : bool;
  actions : list Action;
  streams : gmap Z LogicalStream;
  messages : list Message;
  dropped : list Z;
  writes : list Write;
  packet : Z;
  wire : list bytes;
  sent : list Frame;
  idles : Z;
  ended : bool;
}.

Definition set_state x s := mkSession x (padding s) (entries s) (receive_credit s) (next_sid s) (started s) (draining s) (actions s) (streams s) (messages s) (dropped s) (writes s) (packet s) (wire s) (sent s) (idles s) (ended s).
Definition set_padding x s := mkSession (state s) x (entries s) (receive_credit s) (next_sid s) (started s) (draining s) (actions s) (streams s) (messages s) (dropped s) (writes s) (packet s) (wire s) (sent s) (idles s) (ended s).
Definition set_entries x s := mkSession (state s) (padding s) x (receive_credit s) (next_sid s) (started s) (draining s) (actions s) (streams s) (messages s) (dropped s) (writes s) (packet s) (wire s) (sent s) (idles s) (ended s).
Definition set_credit x s := mkSession (state s) (padding s) (entries s) x (next_sid s) (started s) (draining s) (actions s) (streams s) (messages s) (dropped s) (writes s) (packet s) (wire s) (sent s) (idles s) (ended s).
Definition set_next_sid x s := mkSession (state s) (padding s) (entries s) (receive_credit s) x (started s) (draining s) (actions s) (streams s) (messages s) (dropped s) (writes s) (packet s) (wire s) (sent s) (idles s) (ended s).
Definition set_started x s := mkSession (state s) (padding s) (entries s) (receive_credit s) (next_sid s) x (draining s) (actions s) (streams s) (messages s) (dropped s) (writes s) (packet s) (wire s) (sent s) (idles s) (ended s).
Definition set_draining x s := mkSession (state s) (padding s) (entries s) (receive_credit s) (next_sid s) (started s) x (actions s) (streams s) (messages s) (dropped s) (writes s) (packet s) (wire s) (sent s) (idles s) (ended s).
Definition set_actions x s := mkSession (state s) (padding s) (entries s) (receive_credit s) (next_sid s) (started s) (draining s) x (streams s) (messages s) (dropped s) (writes s) (packet s) (wire s) (sent s) (idles s) (ended s).
Definition set_streams x s := mkSession (state s) (padding s) (entries s) (receive_credit s) (next_sid s) (started s) (draining s) (actions s) x (messages s) (dropped s) (writes s) (packet s) (wire s) (sent s) (idles s) (ended s).
Definition set_messages x s := mkSession (state s) (padding s) (entries s) (receive_credit s) (next_sid s) (started s) (draining s) (actions s) (streams s) x (dropped s) (writes s) (packet s) (wire s) (sent s) (idles s) (ended s).
Definition set_dropped x s := mkSession (state s) (padding s) (entries s) (receive_credit s) (next_sid s) (started s) (draining s) (actions s) (streams s) (messages s) x (writes s) (packet s) (wire s) (sent s) (idles s) (ended s).
Definition set_writer w p o s := mkSession (state s) (padding s) (entries s) (receive_credit s) (next_sid s) (started s) (draining s) (actions s) (streams s) (messages s) (dropped s) w p o (sent s) (idles s) (ended s).
Definition set_sent x s := mkSession (state s) (padding s) (entries s) (receive_credit s) (next_sid s) (started s) (draining s) (actions s) (streams s) (messages s) (dropped s) (writes s) (packet s) (wire s) x (idles s) (ended s).
Definition set_idles x s := mkSession (state s) (padding s) (entries s) (receive_credit s) (next_sid s) (started s) (draining s) (actions s) (streams s) (messages s) (dropped s) (writes s) (packet s) (wire s) (sent s) x (ended s).
Definition set_ended x s := mkSession (state s) (padding s) (entries s) (receive_credit s) (next_sid s) (started s) (draining s) (actions s) (streams s) (messages s) (dropped s) (writes s) (packet s) (wire s) (sent s) (idles s) x.

Definition client : bool := match incoming with None => true | Some _ => false end.

(** [Session::start] *)
Definition start (e : E) (p : F) : Session :=
  mkSession e p ∅ RECEIVE_BYTES 0 false false [] ∅ [] [] [] 1 [] [] 0 false.

Definition on_stream (sid : Z) (f : LogicalStream -> LogicalStream) (s : Session) : Session :=
  set_streams (alter f sid (streams s)) s.

(** ** Handlers *)

(** Handlers change the session and may fail, which ends it. *)
Definition Handler (A : Type) : Type := Session -> Session * res Error A.

Definition ret {A} (a : A) : Handler A := fun s => (s, Ok a).
Definition fail {A} (e : Error) : Handler A := fun s => (s, Err e).
Definition bind {A B} (m : Handler A) (k : A -> Handler B) : Handler B :=
  fun s => match m s with (s, Ok a) => k a s | (s, Err e) => (s, Err e) end.
Definition modify (f : Session -> Session) : Handler unit := fun s => (f s, Ok tt).

Notation "m ;; k" := (bind m (fun _ => k)) (at level 100, right associativity).

(** The writer takes one write: its bytes go out padded and its acknowledgement is completed. *)
Definition write_one : Handler unit := fun s =>
  match writes s with
  | [] => (s, Ok tt)
  | w :: ws =>
      let ack r s := match w_complete w with Some sid => on_stream sid (set_flushing (Some (Some r))) s | None => s end in
      if len (w_bytes w) =? 0 then (ack (Ok tt) (set_writer ws (packet s) (wire s) s), Ok tt) else
      match write_records (w_bytes w) (if client then Some (padding_of (state s)) else None) (packet s) (draw (packet s)) with
      | Ok out => (ack (Ok tt) (set_writer ws (Z.min u32_max (packet s + 1)) (wire s ++ out) s), Ok tt)
      | Err e => (ack (Err (Wire e)) s, Err (Wire e))
      end
  end.

(** [n] writes of the writer, or up to its failure. *)
Fixpoint write_some (n : nat) : Handler unit :=
  match n with O => ret tt | S n => write_one ;; write_some n end.

(** [Session::send]: waits for room in the write channel. *)
Definition send (frames : list Frame) (complete : option Z) : Handler unit := fun s =>
  match encode frames with
  | Err e => (s, Err (Wire e))
  | Ok b =>
      match write_some (length (writes s) - (WRITES - 1)) s with
      | (s, Err e) => (s, Err e)
      | (s, Ok _) => (set_sent (sent s ++ frames) (set_writer (writes s ++ [mkWrite frames b complete]) (packet s) (wire s) s), Ok tt)
      end
  end.

(** [Session::flush_frames]: returns when the writer has written the frames, and all before them. *)
Definition flush_frames (frames : list Frame) : Handler unit :=
  send frames None ;; (fun s => write_some (length (writes s)) s).

(** [Session::idle] *)
Definition idle : Handler unit := modify (fun s => if decide (entries s = ∅) then set_idles (idles s + 1) s else s).

(** The entry is removed and dropped: the receiver's channel closes, and its status. *)
Definition remove_entry (sid : Z) (error : option bytes) (s : Session) : Session :=
  on_stream sid (fun l => set_open false (set_status (status_close error (status l)) l)) (set_entries (entries s ∖ {[sid]}) s).

(** [Session::close] *)
Definition close (sid : Z) (error : option bytes) : Handler unit := fun s =>
  if decide (sid ∈ entries s)
  then (modify (remove_entry sid error) ;; flush_frames [mkFrame Fin sid []] ;; idle) s
  else ret tt s.

(** [Session::stream] *)
Definition stream (sid : Z) (head : bytes) : Handler unit :=
  modify (fun s => set_entries (entries s ∪ {[sid]}) (set_streams (<[sid := stream_new head]> (streams s)) s)).

(** The handle of a stream is dropped: its queue goes with it, and the session is told. *)
Definition drop_stream (sid : Z) (s : Session) : Session :=
  match streams s !! sid with
  | Some l =>
      if alive l then
        let freed := lsum r_credit (queue l) + from_option r_credit 0 (pending l) in
        let s := set_streams (<[sid := set_alive false (set_incoming [] None l)]> (streams s)) (set_credit (receive_credit s + freed) s) in
        if ended s then s else set_dropped (dropped s ++ [sid]) s
      else s
  | None => s
  end.
(** The frames the engine sends when a session starts. *)
Fixpoint start_frames (l : list Action) : list Frame :=
  match l with
  | [] => []
  | SendFrame f :: l => f :: start_frames l
  | _ :: l => start_frames l
  end.

Definition started_frames : Handler (list Frame) := fun s =>
  if started s then (s, Ok [])
  else match on_session_start (state s) with
       | None => (s, Err EngineFailed)
       | Some (e, actions) => (set_started true (set_state e s), Ok (start_frames actions))
       end.

(** [Message::Open]; [listening] is whether the opener still waits for the stream. *)
Definition message_open (address : bytes) (listening : bool) : Handler unit := fun s =>
  if negb (client && bool_decide (entries s = ∅)) then (s, Err Busy) else
  if u32_max <? next_sid s + 1 then (s, Err SidsExhausted) else
  let sid := next_sid s + 1 in
  (modify (set_next_sid sid) ;; stream sid address ;;
   bind started_frames (fun frames =>
   flush_frames (frames ++ [mkFrame Syn sid []; mkFrame Psh sid address]) ;;
   if listening then ret tt else modify (drop_stream sid))) s.

(** [Session::message] *)
Definition message (listening : bool) (m : Message) : Handler unit := fun s =>
  match m with
  | Open address => message_open address listening s
  | Data sid b => if decide (sid ∈ entries s) then send [mkFrame Psh sid b] None s else ret tt s
  | Flush sid =>
      if decide (sid ∈ entries s) then send [] (Some sid) s
      else modify (on_stream sid (set_flushing (Some (Some (Err (BrokenPipe None)))))) s
  | Close sid => (close sid None ;; modify (on_stream sid (set_flushing (Some (Some (Ok tt)))))) s
  end.

(** [Session::received] up to its loop over the actions. *)
Definition received (f : Frame) : Handler unit := fun s =>
  if decide (cmd f = Alert) then (s, Err AlertReceived) else
  let update := client && bool_decide (cmd f = UpdatePaddingScheme) in
  match (if update then if utf8 (data f) then _ ← padding_scheme (F := F) (Some (data f)); Ok tt else Err Io else Ok tt) with
  | Err e => (s, Err (Wire e))
  | Ok _ =>
      match on_frame (state s) client f with
      | None => (s, Err EngineFailed)
      | Some (e, l) =>
          let s := set_actions l (set_state e s) in
          let s := if client && bool_decide (cmd f = SynAck) && (len (data f) =? 0) && bool_decide (sid f ∈ entries s)
                   then on_stream (sid f) (fun l => set_status (mkStatus (closed (status l)) true (error_text (status l))) l) s else s in
          (if update then set_padding (padding_of e) s else s, Ok tt)
      end
  end.

Definition QUEUE_FULL : bytes := text "AnyTLS receive queue full or consumer closed".

(** [ProtocolAction::PushStreamData] *)
Definition push_data (sid : Z) (data : bytes) : Handler unit := fun s =>
  if decide (sid ∈ entries s) then
    let cost := (len data + received_size) `mod` 2 ^ 32 in
    if receive_credit s <? cost then close sid (Some QUEUE_FULL) s else
    match streams s !! sid with
    | Some l =>
        if alive l then
          ret tt (set_streams (<[sid := log_given data (set_incoming (queue l ++ [mkReceived data cost]) (pending l) l)]> (streams s))
                    (set_credit (receive_credit s - cost) s))
        else close sid (Some QUEUE_FULL) s
    | None => close sid (Some QUEUE_FULL) s
    end
  else ret tt s.

(** [ProtocolAction::EnsureIncomingStream] *)
Definition ensure_stream (sid : Z) : Handler unit := fun s =>
  if negb (next_sid s <? sid) then (s, Err SidOrder) else
  let s := set_next_sid sid s in
  if MAX_STREAMS <=? Z.of_nat (size (entries s)) then
    send [mkFrame SynAck sid (text "stream limit reached");
          mkFrame Fin sid []] None s
  else
    (stream sid [] ;; send [mkFrame SynAck sid []] None ;;
     match incoming with
     | Some accept => if accept sid then ret tt else (modify (drop_stream sid) ;; fail Rejected)
     | None => modify (drop_stream sid)
     end) s.

(** An action of [Session::received]. *)
Definition act (a : Action) : Handler unit := fun s =>
  match a with
  | SendFrame f => send [f] None s
  | SendFrameSync f => flush_frames [f] s
  | PushStreamData sid data => push_data sid data s
  | EnsureIncomingStream sid => ensure_stream sid s
  | CloseLocalStream sid =>
      if decide (sid ∈ entries s) then (modify (remove_entry sid None) ;; idle) s else ret tt s
  | CloseRemoteStream sid message => close sid (Some message) s
  | AlertAndFail message => (flush_frames [mkFrame Alert 0 message] ;; fail (Failed message)) s
  | ReleaseWriteBuffering => ret tt s
  end.

(** ** Logical streams *)

Definition broken (l : LogicalStream) : Error := BrokenPipe (error_text (status l)).

(** [<LogicalStream as AsyncRead>::poll_read], for a caller with [room]: the stream, the permits it
    releases and the result. *)
Definition take_pending (room : Z) (l : LogicalStream) (r : Received) : LogicalStream * Z * Relay.poll (res Error bytes) :=
  let n := Z.min room (len (r_bytes r)) in
  let rest := zdrop n (r_bytes r) in
  let l := log_got (ztake n (r_bytes r)) l in
  if len rest =? 0 then (set_incoming (queue l) None l, r_credit r, Relay.Ready (Ok (ztake n (r_bytes r))))
  else (set_incoming (queue l) (Some (mkReceived rest (r_credit r))) l, 0, Relay.Ready (Ok (ztake n (r_bytes r)))).

Definition stream_read (room : Z) (l : LogicalStream) : LogicalStream * Z * Relay.poll (res Error bytes) :=
  if room =? 0 then (l, 0, Relay.Ready (Ok [])) else
  match pending l with
  | Some r => take_pending room l r
  | None =>
      match queue l with
      | r :: q => take_pending room (set_incoming q (Some r) l) r
      | [] => if open l then (l, 0, Relay.Pending)
              else (l, 0, Relay.Ready (match error_text (status l) with Some _ => Err (broken l) | None => Ok [] end))
      end
  end.

(** [LogicalStream::poll_ack]; the acknowledgement of an ended session never comes. *)
Definition poll_ack (over : bool) (l : LogicalStream) : LogicalStream * Relay.poll (res Error unit) :=
  match flushing l with
  | None => (l, Relay.Ready (Ok tt))
  | Some None => if over then (set_flushing None l, Relay.Ready (Err (BrokenPipe None))) else (l, Relay.Pending)
  | Some (Some r) => (set_flushing None l, Relay.Ready r)
  end.

(** [poll_reserve] and [send_item] of the message channel. *)
Definition reserve (s : Session) (l : LogicalStream) : Relay.poll (res Error unit) :=
  if ended s then Relay.Ready (Err (broken l))
  else if (MESSAGES <=? length (messages s))%nat then Relay.Pending
  else Relay.Ready (Ok tt).

Definition put_stream (sid : Z) (l : LogicalStream) (s : Session) : Session := set_streams (<[sid := l]> (streams s)) s.
Definition post (m : Message) (s : Session) : Session := set_messages (messages s ++ [m]) s.

(** [poll_write] *)
Definition stream_write (sid : Z) (b : bytes) (l : LogicalStream) (s : Session) : Session * Relay.poll (res Error Z) :=
  if shutdown l || closed (status l) then (s, Relay.Ready (Err (broken l))) else
  match poll_ack (ended s) l with
  | (l, Relay.Pending) => (put_stream sid l s, Relay.Pending)
  | (l, Relay.Ready (Err e)) => (put_stream sid l s, Relay.Ready (Err e))
  | (l, Relay.Ready (Ok _)) =>
      if len b =? 0 then (put_stream sid l s, Relay.Ready (Ok 0)) else
      match reserve s l with
      | Relay.Pending => (put_stream sid l s, Relay.Pending)
      | Relay.Ready (Err e) => (put_stream sid l s, Relay.Ready (Err e))
      | Relay.Ready (Ok _) =>
          let n := Z.min (len b) CHUNK in
          (post (Data sid (ztake n b)) (put_stream sid (log_written (ztake n b) l) s), Relay.Ready (Ok n))
      end
  end.

Definition finish_ack (sid : Z) (l : LogicalStream) (s : Session) : Session * Relay.poll (res Error unit) :=
  let '(l, r) := poll_ack (ended s) l in (put_stream sid l s, r).

(** [poll_flush] *)
Definition stream_flush (sid : Z) (l : LogicalStream) (s : Session) : Session * Relay.poll (res Error unit) :=
  match flushing l with
  | Some _ => finish_ack sid l s
  | None =>
      if closed (status l) then (s, Relay.Ready (Err (broken l))) else
      match reserve s l with
      | Relay.Pending => (s, Relay.Pending)
      | Relay.Ready (Err e) => (s, Relay.Ready (Err e))
      | Relay.Ready (Ok _) => finish_ack sid (set_flushing (Some None) l) (post (Flush sid) s)
      end
  end.

(** [poll_shutdown] *)
Definition stream_shutdown (sid : Z) (l : LogicalStream) (s : Session) : Session * Relay.poll (res Error unit) :=
  match poll_ack (ended s) l with
  | (l, Relay.Pending) => (put_stream sid l s, Relay.Pending)
  | (l, Relay.Ready (Err e)) => (put_stream sid l s, Relay.Ready (Err e))
  | (l, Relay.Ready (Ok _)) =>
      if shutdown l || closed (status l) then (put_stream sid l s, Relay.Ready (Ok tt)) else
      match reserve s l with
      | Relay.Pending => (put_stream sid l s, Relay.Pending)
      | Relay.Ready (Err e) => (put_stream sid l s, Relay.Ready (Err e))
      | Relay.Ready (Ok _) => finish_ack sid (set_flushing (Some None) (set_shutdown true l)) (post (Close sid) s)
      end
  end.

(** [LogicalStream::wait_handshake] *)
Definition wait_handshake (l : LogicalStream) : Relay.poll (res Error unit) :=
  if accepted (status l) then Relay.Ready (Ok tt)
  else if closed (status l) then Relay.Ready (Err (broken l))
  else Relay.Pending.

(** ** The machine *)

Definition SESSION_CLOSED : bytes := text "AnyTLS session closed".

(** The session task ends, by an error or a drain: the drop of [Session] and of its channels. *)
Definition end_session (s : Session) : Session :=
  let closing := fun sid l => if decide (sid ∈ entries s) then set_open false (set_status (status_close (Some SESSION_CLOSED) (status l)) l) else l in
  set_ended true (set_messages [] (set_dropped [] (set_actions [] (set_writer [] (packet s) (wire s)
    (set_entries ∅ (set_streams (map_imap (fun sid l => Some (closing sid l)) (streams s)) s)))))).

(** A failed handler ends the session. *)
Definition handled (r : Session * res Error unit) : Session :=
  match r with (s, Ok _) => s | (s, Err _) => end_session s end.

Inductive event :=
  | Stopping
  | Incoming (f : Frame)
  | Act
  | Receive (listening : bool)
  | Removed
  | Written
  | Broken
  | Post (address : bytes)
  | Read (sid room : Z)
  | WriteTo (sid : Z) (b : bytes)
  | FlushTo (sid : Z)
  | Shutdown (sid : Z)
  | Dropping (sid : Z).

(** [Session::run] returns, or waits for its next event, having no action left. *)
Definition drained (s : Session) : bool := draining s && bool_decide (entries s = ∅).
Definition waiting (s : Session) : bool := negb (ended s) && (len (actions s) =? 0) && negb (drained s).

(** A poll by the owner of a stream. *)
Definition owned {A} (sid : Z) (f : LogicalStream -> Session -> Session * A) (s : Session) : Session :=
  match streams s !! sid with
  | Some l => if alive l then fst (f l s) else s
  | None => s
  end.

Definition step (s : Session) (e : event) : Session :=
  match e with
  | Stopping => if waiting s then set_draining true s else s
  | Incoming f => if waiting s then handled (received f s) else s
  | Act =>
      match actions s with
      | a :: l => if ended s then s else handled (act a (set_actions l s))
      | [] => if negb (ended s) && drained s then end_session s else s
      end
  | Receive listening =>
      match messages s with
      | m :: l => if waiting s then handled (message listening m (set_messages l s)) else s
      | [] => s
      end
  | Removed =>
      match dropped s with
      | sid :: l => if waiting s then handled (close sid None (set_dropped l s)) else s
      | [] => s
      end
  | Written => if ended s then s else handled (write_one s)
  | Broken => if ended s then s else end_session s
  | Post address =>
      if ended s || (MESSAGES <=? length (messages s))%nat then s else post (Open address) s
  | Read sid room =>
      owned sid (fun l s =>
        let '(l, credit, r) := stream_read room l in
        (set_credit (receive_credit s + credit) (put_stream sid l s), r)) s
  | WriteTo sid b => owned sid (stream_write sid b) s
  | FlushTo sid => owned sid (stream_flush sid) s
  | Shutdown sid => owned sid (stream_shutdown sid) s
  | Dropping sid => drop_stream sid s
  end.

Definition run (s : Session) (l : list event) : Session := foldl step s l.

#[local] Opaque text QUEUE_FULL SESSION_CLOSED.

(** ** Invariant *)

(** The data a list of frames, or of messages, carries for a stream. *)
Definition frame_data (sid : Z) (f : Frame) : bytes :=
  match f with mkFrame Psh i d => if i =? sid then d else [] | _ => [] end.
Definition psh (sid : Z) (fs : list Frame) : bytes := concat (frame_data sid <$> fs).

Definition message_data (sid : Z) (m : Message) : bytes :=
  match m with Data i d => if i =? sid then d else [] | _ => [] end.
Definition datas (sid : Z) (ms : list Message) : bytes := concat (message_data sid <$> ms).

(** The permits a stream holds, and the bytes not yet read. *)
Definition held (l : LogicalStream) : Z := lsum r_credit (queue l) + from_option r_credit 0 (pending l).
Definition unread (l : LogicalStream) : bytes := from_option r_bytes [] (pending l) ++ concat (r_bytes <$> queue l).

Definition paid (r : Received) : Prop := len (r_bytes r) + received_size <= r_credit r.

Record stream_ok (l : LogicalStream) : Prop := {
  s_paid : Forall paid (queue l);
  s_pending : forall r, pending l = Some r -> paid r;
  s_dead : alive l = false -> queue l = [] /\ pending l = None;
  s_data : alive l = true -> given l = got l ++ unread l;
  s_got : got l `prefix_of` given l;
}.

(** The engine pushes no more than the frame holds, and leaves data frames to the session. *)
Definition action_ok (a : Action) : Prop :=
  match a with
  | PushStreamData _ d => len d <= u16_max
  | SendFrame f | SendFrameSync f => cmd f <> Psh
  | _ => True
  end.

(** [owed] is data taken from the messages, or from an opener, that is not sent yet. *)
Record Inv (owed : Z -> bytes) (s : Session) : Prop := {
  v_credit : receive_credit s + msum held (streams s) = RECEIVE_BYTES;
  v_nonneg : 0 <= receive_credit s;
  v_size : Z.of_nat (size (entries s)) <= MAX_STREAMS;
  v_next : 0 <= next_sid s;
  v_stream : forall sid l, streams s !! sid = Some l -> sid <= next_sid s /\ stream_ok l /\
    if decide (sid ∈ entries s)
    then open l = true /\ closed (status l) = false /\
         psh sid (sent s) ++ owed sid ++ datas sid (messages s) = head_bytes l ++ written l
    else open l = false /\ closed (status l) = true /\ psh sid (sent s) ++ owed sid `prefix_of` head_bytes l ++ written l;
  v_absent : forall sid, streams s !! sid = None ->
    sid ∉ entries s /\ psh sid (sent s) = [] /\ owed sid = [] /\ datas sid (messages s) = [];
  v_actions : Forall action_ok (actions s);
  v_writes : Forall (fun w => encode (w_frames w) = Ok (w_bytes w)) (writes s);
  v_wire : exists fs rest, encodes fs (concat (wire s)) /\
    useful fs ++ useful (concat (w_frames <$> writes s)) ++ rest = useful (sent s) /\ (ended s = false -> rest = []);
}.

Definition nothing : Z -> bytes := fun _ => [].

(** *** Data and frames *)

Lemma psh_app sid a b : psh sid (a ++ b) = psh sid a ++ psh sid b.
Proof. unfold psh. by rewrite fmap_app, concat_app. Qed.

Lemma datas_app sid a b : datas sid (a ++ b) = datas sid a ++ datas sid b.
Proof. unfold datas. by rewrite fmap_app, concat_app. Qed.

Lemma psh_other sid f : cmd f <> Psh -> psh sid [f] = [].
Proof. destruct f as [[]]; done. Qed.

Lemma psh_data sid f : psh sid [f] = frame_data sid f.
Proof. unfold psh. cbn. by rewrite app_nil_r. Qed.

Lemma psh_useful sid fs : psh sid (useful fs) = psh sid fs.
Proof.
  induction fs as [|f fs IH]; [done|]. change (f :: fs) with ([f] ++ fs). rewrite useful_app, !psh_app, IH. f_equal.
  unfold useful. destruct f as [[]]; done.
Qed.

Lemma psh_prefix sid a b : a `prefix_of` b -> psh sid a `prefix_of` psh sid b.
Proof. intros [c ->]. rewrite psh_app. by eexists. Qed.

(** *** Framing rules *)

(** A change of what the invariant does not read. *)
Ltac inv_same := intros []; constructor; assumption.

Lemma inv_dropped o d s : Inv o s -> Inv o (set_dropped d s).
Proof. inv_same. Qed.
Lemma inv_started o x s : Inv o s -> Inv o (set_started x s).
Proof. inv_same. Qed.
Lemma inv_state o x s : Inv o s -> Inv o (set_state x s).
Proof. inv_same. Qed.
Lemma inv_padding o x s : Inv o s -> Inv o (set_padding x s).
Proof. inv_same. Qed.
Lemma inv_draining o x s : Inv o s -> Inv o (set_draining x s).
Proof. inv_same. Qed.
Lemma inv_idles o x s : Inv o s -> Inv o (set_idles x s).
Proof. inv_same. Qed.
Lemma inv_actions o x s : Forall action_ok x -> Inv o s -> Inv o (set_actions x s).
Proof. intros Hx []; constructor; assumption. Qed.
Lemma inv_next o n s : next_sid s <= n -> Inv o s -> Inv o (set_next_sid n s).
Proof.
  intros Hn []; constructor; try assumption; cbn; [lia|]. intros sid l Hl. destruct (v_stream0 sid l Hl) as (? & ? & ?).
  split_and!; [lia|done..].
Qed.

(** A stream changed in what its entry does not record, with the permits it gives back. *)
Lemma inv_put o s sid l l' c :
  Inv o s -> streams s !! sid = Some l -> held l' + c = held l -> 0 <= receive_credit s + c -> stream_ok l' ->
  open l' = open l -> closed (status l') = closed (status l) -> head_bytes l' = head_bytes l -> written l' = written l ->
  Inv o (set_credit (receive_credit s + c) (put_stream sid l' s)).
Proof.
  intros [] Hl Hh Hc Hok Ho Hcl Hhd Hw. constructor; cbn [receive_credit streams entries next_sid sent messages actions writes wire set_credit put_stream set_streams]; try done.
  - rewrite (msum_update held (streams s) sid l l' Hl). lia.
  - intros i li Hi. destruct (decide (i = sid)) as [->|Hne].
    + rewrite lookup_insert_eq in Hi. injection Hi as <-. destruct (v_stream0 sid l Hl) as (? & _ & Hrest).
      rewrite Ho, Hcl, Hhd, Hw. done.
    + rewrite lookup_insert_ne in Hi by done. by apply v_stream0.
  - intros i Hi. destruct (decide (i = sid)) as [->|Hne]; [by rewrite lookup_insert_eq in Hi|].
    rewrite lookup_insert_ne in Hi by done. by apply v_absent0.
Qed.

Lemma set_credit_same s : set_credit (receive_credit s + 0) s = s.
Proof. destruct s. unfold set_credit. cbn. by rewrite Z.add_0_r. Qed.

Lemma inv_put_same o s sid l l' :
  Inv o s -> streams s !! sid = Some l -> held l' = held l -> stream_ok l' ->
  open l' = open l -> closed (status l') = closed (status l) -> head_bytes l' = head_bytes l -> written l' = written l ->
  Inv o (put_stream sid l' s).
Proof.
  intros Hi Hl Hh Hok Ho Hcl Hhd Hw. rewrite <- (set_credit_same (put_stream sid l' s)).
  apply (inv_put o s sid l l' 0); try done; [lia|]. pose proof (v_nonneg _ _ Hi). lia.
Qed.

Lemma stream_ok_flushing f l : stream_ok l -> stream_ok (set_flushing f l).
Proof. intros []; by constructor. Qed.

Lemma on_stream_put sid f s : on_stream sid f s = match streams s !! sid with Some l => put_stream sid (f l) s | None => s end.
Proof.
  unfold on_stream, put_stream. destruct (streams s !! sid) as [l|] eqn:Hl.
  - f_equal. apply map_eq. intros i. destruct (decide (i = sid)) as [->|].
    + by rewrite lookup_alter_eq, lookup_insert_eq, Hl.
    + by rewrite lookup_alter_ne, lookup_insert_ne.
  - destruct s. unfold set_streams. cbn in *. f_equal. apply map_eq. intros i.
    destruct (decide (i = sid)) as [->|]; [by rewrite lookup_alter_eq, Hl|by rewrite lookup_alter_ne].
Qed.

Lemma inv_flushing o sid f s : Inv o s -> Inv o (on_stream sid (set_flushing f) s).
Proof.
  intros Hi. rewrite on_stream_put. destruct (streams s !! sid) as [l|] eqn:Hl; [|done].
  eapply inv_put_same; try done. apply stream_ok_flushing, (v_stream _ _ Hi _ _ Hl).
Qed.

(** *** The writer *)

Context `{!FrameLaws}.

Lemma inv_popped o s w ws p out fs :
  Inv o s -> writes s = w :: ws -> encodes fs (concat out) -> useful fs = useful (w_frames w) ->
  Inv o (set_writer ws p (wire s ++ out) s).
Proof.
  intros [] Hw He Hu. constructor; try assumption; cbn [writes wire set_writer sent].
  - rewrite Hw in v_writes0. apply (Forall_cons_1 _ _ _ v_writes0).
  - destruct v_wire0 as (gs & rest & Hg & Hpre & Hend). exists (gs ++ fs), rest. rewrite concat_app.
    split_and!; [by apply encodes_app| |done]. rewrite <- Hpre, Hw. cbn [fmap list_fmap concat].
    by rewrite !useful_app, Hu, <- !app_assoc.
Qed.

(** What a step of the writer leaves alone. *)
Record same_session (s s' : Session) : Prop := {
  same_entries : entries s' = entries s;
  same_messages : messages s' = messages s;
  same_sent : sent s' = sent s;
  same_ended : ended s' = ended s;
  same_dom : forall sid, is_Some (streams s' !! sid) <-> is_Some (streams s !! sid);
}.

Lemma same_refl s : same_session s s.
Proof. by constructor. Qed.

Lemma same_trans s1 s2 s3 : same_session s1 s2 -> same_session s2 s3 -> same_session s1 s3.
Proof.
  intros [] []. constructor; [congruence..|]. intros sid. by rewrite same_dom1, same_dom0.
Qed.

Lemma same_on_stream sid f s s' : same_session s s' -> same_session s (on_stream sid f s').
Proof.
  intros []. constructor; try done. intros i. rewrite <- same_dom0. cbn. destruct (decide (i = sid)) as [->|].
  - rewrite lookup_alter_eq. by rewrite fmap_is_Some.
  - by rewrite lookup_alter_ne.
Qed.

Lemma write_one_inv o s : Inv o s -> Inv o (fst (write_one s)) /\ same_session s (fst (write_one s)).
Proof.
  intros Hi. unfold write_one. destruct (writes s) as [|w ws] eqn:Hw; [split; [done|apply same_refl]|].
  assert (Hack : forall r s', Inv o s' /\ same_session s s' -> Inv o (match w_complete w with Some sid => on_stream sid (set_flushing (Some (Some r))) s' | None => s' end)
      /\ same_session s (match w_complete w with Some sid => on_stream sid (set_flushing (Some (Some r))) s' | None => s' end)).
  { intros r s' [? ?]. destruct (w_complete w); [split; [by apply inv_flushing|by apply same_on_stream]|done]. }
  pose proof (v_writes _ _ Hi) as Hws. rewrite Hw in Hws. apply Forall_cons_1 in Hws as [Henc _]. apply encode_encodes in Henc.
  destruct (len (w_bytes w) =? 0) eqn:Hz.
  - apply Hack. split; [|by constructor]. zify_bool. apply len_zero in Hz.
    rewrite <- (app_nil_r (wire s)). apply (inv_popped o s w ws _ [] (w_frames w)); [done..|by rewrite Hz in Henc|done].
  - destruct (write_records _ _ _ _) as [out|e] eqn:Hrec.
    + apply Hack. split; [|by constructor]. destruct (write_records_spec _ _ _ _ _ Hrec) as (waste & x & Hwaste & He & Hout).
      apply (inv_popped o s w ws _ out (w_frames w ++ waste)); [done..|by rewrite Hout; apply encodes_app|].
      by rewrite useful_app, (useful_waste _ Hwaste), app_nil_r.
    + apply Hack. split; [done|apply same_refl].
Qed.

Lemma bind_inv {A B} (P Q : Session -> Prop) (m : Handler A) (k : A -> Handler B) s :
  (P s -> Q (fst (m s))) -> (forall a s', m s = (s', Ok a) -> Q s' -> Q (fst (k a s'))) -> P s -> Q (fst (bind m k s)).
Proof.
  intros Hm Hk Hp. specialize (Hm Hp). unfold bind. destruct (m s) as [s' [a|e]] eqn:Heq; [by eapply Hk|done].
Qed.

Lemma write_some_inv n o s : Inv o s -> Inv o (fst (write_some n s)) /\ same_session s (fst (write_some n s)).
Proof.
  revert s. induction n as [|n IH]; intros s Hi; [split; [done|apply same_refl]|]. cbn [write_some]. unfold bind.
  pose proof (write_one_inv o s Hi) as [H3 H4]. destruct (write_one s) as [s' [[]|e]]; cbn [fst] in *; [|done].
  destruct (IH s' H3) as [H5 H6]. split; [done|by eapply same_trans].
Qed.

(** Frames are sent: what was owed is paid by their data. *)
Lemma send_inv o o' frames complete s :
  Inv o s -> ended s = false -> (forall sid, psh sid frames ++ o' sid = o sid) ->
  match send frames complete s with
  | (s', Ok _) => Inv o' s' /\ ended s' = false
  | (s', Err _) => Inv o s'
  end.
Proof.
  intros Hi Hrun Ho. unfold send. destruct (encode frames) as [b|e] eqn:Henc; [|done].
  destruct (write_some_inv (length (writes s) - (WRITES - 1)) o s Hi) as [Hi' Hsame].
  destruct (write_some _ s) as [s' [[]|e]]; cbn [fst] in *; [|done]. rewrite <- (same_ended _ _ Hsame) in Hrun. split; [|done].
  destruct Hi'. constructor; cbn [set_sent set_writer receive_credit streams entries next_sid actions sent messages writes wire]; try assumption.
  - intros sid l Hl. destruct (v_stream0 sid l Hl) as (? & ? & Hrest). split_and!; [done..|]. rewrite psh_app, <- app_assoc.
    destruct (decide (sid ∈ entries s')); destruct Hrest as (? & ? & Hrest); split_and!; try done; by rewrite ?app_assoc, <- (Ho sid), <- ?app_assoc in *.
  - intros sid Hl. destruct (v_absent0 sid Hl) as (? & Hp & Hos & ?). rewrite psh_app, Hp. rewrite <- Ho in Hos.
    apply app_eq_nil in Hos as [-> ->]. done.
  - apply Forall_app. split; [done|]. by repeat constructor.
  - destruct v_wire0 as (gs & rest & Hg & Hpre & Hend). exists gs, []. split_and!; [done| |done].
    rewrite (Hend Hrun) in Hpre. rewrite fmap_app, concat_app, !useful_app, <- Hpre. cbn [fmap list_fmap concat w_frames].
    by rewrite !app_nil_r, <- !app_assoc.
Qed.

(** *** Handlers keep the invariant *)

(** The outcome of a handler in a running session; a failure may leave something owed. *)
Definition good {A} (o : Z -> bytes) (r : Session * res Error A) : Prop :=
  match r with
  | (s, Ok _) => Inv o s /\ ended s = false
  | (s, Err _) => exists o, Inv o s
  end.

Definition keeps {A} (o o' : Z -> bytes) (h : Handler A) : Prop :=
  forall s, Inv o s -> ended s = false -> good o' (h s).

Lemma keeps_bind {A B} o o1 o2 (m : Handler A) (k : A -> Handler B) :
  keeps o o1 m -> (forall a, keeps o1 o2 (k a)) -> keeps o o2 (bind m k).
Proof.
  intros Hm Hk s Hi Hr. specialize (Hm s Hi Hr). unfold bind. destruct (m s) as [s' [a|e]]; [|done].
  destruct Hm as [? ?]. by apply Hk.
Qed.

Lemma keeps_modify o o' f :
  (forall s, Inv o s -> Inv o' (f s)) -> (forall s, ended (f s) = ended s) -> keeps o o' (modify f).
Proof. intros Hf He s Hi Hr. split; [by apply Hf|]. by rewrite He. Qed.

Lemma keeps_ret {A} o (a : A) : keeps o o (ret a).
Proof. by intros s Hi Hr. Qed.

Lemma keeps_send o o' frames complete : (forall sid, psh sid frames ++ o' sid = o sid) -> keeps o o' (send frames complete).
Proof.
  intros Ho s Hi Hr. pose proof (send_inv o o' frames complete s Hi Hr Ho) as Hs. unfold good.
  destruct (send frames complete s) as [s' [[]|e]]; [done|by exists o].
Qed.

Lemma keeps_write_some o n : keeps o o (write_some n).
Proof.
  intros s Hi Hr. destruct (write_some_inv n o s Hi) as [Hw Hsame]. unfold good.
  destruct (write_some n s) as [s' [[]|e]]; cbn [fst] in *; [|by exists o]. split; [done|]. by rewrite (same_ended _ _ Hsame).
Qed.

Lemma keeps_flush_frames o o' frames : (forall sid, psh sid frames ++ o' sid = o sid) -> keeps o o' (flush_frames frames).
Proof.
  intros Ho. apply (keeps_bind o o'); [by apply keeps_send|]. intros [] s Hi Hr. by apply keeps_write_some.
Qed.

Lemma psh_control sid frames : Forall (fun f => cmd f <> Psh) frames -> psh sid frames = [].
Proof.
  induction 1 as [|f fs Hf _ IH]; [done|]. change (f :: fs) with ([f] ++ fs). by rewrite psh_app, IH, (psh_other _ _ Hf).
Qed.

(** Frames that carry no stream data owe nothing. *)
Lemma keeps_send_control o frames complete : Forall (fun f => cmd f <> Psh) frames -> keeps o o (send frames complete).
Proof. intros Hf. apply keeps_send. intros sid. by rewrite psh_control. Qed.

Lemma keeps_flush_control o frames : Forall (fun f => cmd f <> Psh) frames -> keeps o o (flush_frames frames).
Proof. intros Hf. apply keeps_flush_frames. intros sid. by rewrite psh_control. Qed.

Lemma keeps_idle o : keeps o o idle.
Proof.
  apply keeps_modify; intros s; [|by destruct (decide _)]. intros Hi. destruct (decide _); [by apply inv_idles|done].
Qed.

Lemma stream_ok_closed st l : stream_ok l -> stream_ok (set_open false (set_status st l)).
Proof. intros []; by constructor. Qed.

Lemma inv_remove_entry o sid error s : Inv o s -> Inv o (remove_entry sid error s).
Proof.
  intros Hi. assert (Hi2 := Hi). destruct Hi2. unfold remove_entry, on_stream.
  constructor; cbn [set_streams set_entries receive_credit streams entries next_sid actions sent messages writes wire ended]; try assumption.
  - rewrite <- v_credit0. f_equal. apply msum_ext. intros i. destruct (decide (i = sid)) as [->|].
    + rewrite lookup_alter_eq. by destruct (streams s !! sid).
    + by rewrite lookup_alter_ne.
  - etrans; [|exact v_size0]. apply Nat2Z.inj_le, subseteq_size. set_solver.
  - intros i l Hl. destruct (decide (i = sid)) as [->|Hne].
    + rewrite lookup_alter_eq in Hl. destruct (streams s !! sid) as [l0|] eqn:Hl0; [|done]. injection Hl as <-.
      destruct (v_stream0 sid l0 Hl0) as (? & Hok & Hrest). split_and!; [done|by apply stream_ok_closed|].
      rewrite decide_False by set_solver. cbn. split_and!; try done.
      destruct (decide (sid ∈ entries s)); destruct Hrest as (? & ? & Hrest); [|done].
      exists (datas sid (messages s)). by rewrite <- Hrest, <- app_assoc.
    + rewrite lookup_alter_ne in Hl by done. destruct (v_stream0 i l Hl) as (? & Hok & Hrest). split_and!; try done.
      destruct (decide (i ∈ entries s)); [rewrite decide_True by set_solver|rewrite decide_False by set_solver]; done.
  - intros i Hl. destruct (decide (i = sid)) as [->|Hne].
    + rewrite lookup_alter_eq in Hl. destruct (streams s !! sid) eqn:Hl0; [done|]. destruct (v_absent0 sid Hl0) as (? & ? & ? & ?).
      split_and!; try done. set_solver.
    + rewrite lookup_alter_ne in Hl by done. destruct (v_absent0 i Hl) as (? & ? & ? & ?). split_and!; try done. set_solver.
Qed.

Lemma keeps_close o sid error : keeps o o (close sid error).
Proof.
  intros s Hi Hr. unfold close. destruct (decide (sid ∈ entries s)); [|done].
  revert s Hi Hr e. intros s Hi Hr _. revert s Hi Hr. apply (keeps_bind o o); [apply keeps_modify; [apply inv_remove_entry|done]|].
  intros _. apply (keeps_bind o o); [by apply keeps_flush_control; repeat constructor|]. intros _. apply keeps_idle.
Qed.

(** [owed] with [b] for the stream [sid]. *)
Definition owing (sid : Z) (b : bytes) (o : Z -> bytes) : Z -> bytes := fun i => if i =? sid then b else o i.

Lemma stream_new_ok head : stream_ok (stream_new head).
Proof. by constructor. Qed.

Lemma inv_stream o sid head s :
  Inv o s -> next_sid s < sid -> Z.of_nat (size (entries s)) < MAX_STREAMS ->
  Inv (owing sid head o) (fst (stream sid head (set_next_sid sid s))).
Proof.
  intros [] Hn Hsize. assert (Hnone : streams s !! sid = None).
  { destruct (streams s !! sid) as [l|] eqn:Hl; [|done]. destruct (v_stream0 sid l Hl) as [? _]. lia. }
  destruct (v_absent0 sid Hnone) as (Hout & Hp & Hos & Hd).
  constructor; cbn [stream modify fst set_next_sid set_streams set_entries receive_credit streams entries next_sid actions sent messages writes wire ended]; try assumption.
  - rewrite msum_insert by done. change (held (stream_new head)) with 0. lia.
  - rewrite size_union by set_solver. rewrite size_singleton. lia.
  - lia.
  - intros i l Hl. unfold owing. destruct (decide (i = sid)) as [->|Hne].
    + rewrite lookup_insert_eq in Hl. injection Hl as <-. rewrite decide_True by set_solver. rewrite Z.eqb_refl.
      split_and!; [done|apply stream_new_ok|done..|]. cbn. by rewrite Hp, Hd, app_nil_r.
    + rewrite lookup_insert_ne in Hl by done. rewrite (proj2 (Z.eqb_neq i sid)) by done.
      destruct (v_stream0 i l Hl) as (? & ? & Hrest). split_and!; [lia|done|].
      destruct (decide (i ∈ entries s)); [rewrite decide_True by set_solver|rewrite decide_False by set_solver]; done.
  - intros i Hl. destruct (decide (i = sid)) as [->|Hne]; [by rewrite lookup_insert_eq in Hl|].
    rewrite lookup_insert_ne in Hl by done. unfold owing. rewrite (proj2 (Z.eqb_neq i sid)) by done.
    destruct (v_absent0 i Hl) as (? & ? & ? & ?). split_and!; try done. set_solver.
Qed.

Lemma lsum_paid (q : list Received) : 0 <= received_size -> Forall paid q -> 0 <= lsum r_credit q.
Proof.
  intros Hs HF. apply lsum_nonneg. intros r Hr. rewrite Forall_forall in HF. specialize (HF r Hr). unfold paid in HF.
  pose proof (len_nonneg (r_bytes r)). lia.
Qed.

Context (size_range : 0 <= received_size <= 2 ^ 16).

Lemma held_nonneg l : stream_ok l -> 0 <= held l.
Proof.
  intros []. unfold held. pose proof (lsum_paid _ ltac:(lia) s_paid0). destruct (pending l) as [r|]; cbn [from_option]; [|lia].
  specialize (s_pending0 r eq_refl). unfold paid in s_pending0. pose proof (len_nonneg (r_bytes r)). lia.
Qed.

Lemma inv_drop_stream o sid s : Inv o s -> Inv o (drop_stream sid s).
Proof.
  intros Hi. unfold drop_stream. destruct (streams s !! sid) as [l|] eqn:Hl; [|done]. destruct (alive l) eqn:Ha; [|done].
  destruct (v_stream _ _ Hi _ _ Hl) as (_ & Hok & _). pose proof (held_nonneg l Hok). pose proof (v_nonneg _ _ Hi).
  assert (Hput : Inv o (set_credit (receive_credit s + held l) (put_stream sid (set_alive false (set_incoming [] None l)) s))).
  { apply (inv_put o s sid l); try done; [lia|].
    destruct Hok. constructor; cbn; try done. }
  cbn zeta. change (ended (set_streams _ _)) with (ended s). destruct (ended s); [exact Hput|]. exact (inv_dropped o _ _ Hput).
Qed.

Lemma drop_stream_ended sid s : ended (drop_stream sid s) = ended s.
Proof. unfold drop_stream. destruct (streams s !! sid) as [l|]; [|done]. destruct (alive l); [|done]. cbn. by destruct (ended s) eqn:He; cbn. Qed.

Lemma keeps_drop_stream o sid : keeps o o (modify (drop_stream sid)).
Proof. apply keeps_modify; intros s; [apply inv_drop_stream|apply drop_stream_ended]. Qed.

Lemma inv_end o s : Inv o s -> Inv nothing (end_session s).
Proof.
  intros []. unfold end_session. cbn zeta.
  constructor; cbn [set_ended set_messages set_dropped set_actions set_writer set_streams set_entries receive_credit streams entries next_sid actions sent messages writes wire ended]; try done.
  - rewrite <- v_credit0. f_equal. apply msum_ext. intros i. rewrite map_lookup_imap. destruct (streams s !! i); [|done]. cbn [mbind option_bind fmap option_fmap option_map]. by destruct (decide _).
  - intros sid l Hl. rewrite map_lookup_imap in Hl. destruct (streams s !! sid) as [l0|] eqn:Hl0; [|done]. cbn [mbind option_bind] in Hl. injection Hl as <-.
    destruct (v_stream0 sid l0 Hl0) as (? & Hok & Hrest). destruct (decide (sid ∈ (∅ : gset Z))) as [Hbad|_]; [by apply not_elem_of_empty in Hbad|].
    unfold nothing. rewrite app_nil_r.
    destruct (decide (sid ∈ entries s)); destruct Hrest as (? & ? & Hrest).
    + split_and!; [done|by apply stream_ok_closed|done..|]. exists (o sid ++ datas sid (messages s)). exact (eq_sym Hrest).
    + split_and!; [done..|]. etrans; [|exact Hrest]. by exists (o sid).
  - intros sid Hl. rewrite map_lookup_imap in Hl. destruct (streams s !! sid) as [l0|] eqn:Hl0; [done|].
    destruct (v_absent0 sid Hl0) as (? & ? & ? & ?). by split_and!.
  - destruct v_wire0 as (fs & rest & Hf & Hpre & _). exists fs, (useful (concat (w_frames <$> writes s)) ++ rest). by split_and!.
Qed.

(** The engine leaves stream data to the session and pushes no more than it received. *)
Class EngineLaws : Prop := {
  start_control e e' l : on_session_start e = Some (e', l) -> Forall (fun f => cmd f <> Psh) (start_frames l);
  frame_actions e c f e' l a : on_frame e c f = Some (e', l) -> a ∈ l ->
    match a with
    | PushStreamData _ d => len d <= len (data f)
    | SendFrame g | SendFrameSync g => cmd g <> Psh
    | _ => True
    end;
}.
Context `{!EngineLaws}.

Lemma inv_owing_ext o o' s : (forall sid, o sid = o' sid) -> Inv o s -> Inv o' s.
Proof.
  intros Ho []; constructor; try assumption; [intros sid l Hl|intros sid Hl]; rewrite <- (Ho sid); [by apply v_stream0|by apply v_absent0].
Qed.

Lemma good_ext {A} o o' (r : Session * res Error A) : (forall sid, o sid = o' sid) -> good o r -> good o' r.
Proof. intros Ho. destruct r as [s [a|e]]; [|done]. intros [Hi ?]. split; [by eapply inv_owing_ext|done]. Qed.

Lemma started_frames_good o s :
  Inv o s -> ended s = false ->
  match started_frames s with
  | (s', Ok fs) => Inv o s' /\ ended s' = false /\ Forall (fun f => cmd f <> Psh) fs
  | (s', Err _) => Inv o s'
  end.
Proof.
  intros Hi Hr. unfold started_frames. destruct (started s); [by split_and!|].
  destruct (on_session_start (state s)) as [[e l]|] eqn:Hs; [|done]. split_and!; [|done|by eapply start_control].
  by apply inv_started, inv_state.
Qed.

Lemma message_open_good address listening s :
  Inv nothing s -> ended s = false -> good nothing (message_open address listening s).
Proof.
  intros Hi Hr. unfold message_open. destruct (negb _) eqn:Hb; [by exists nothing|].
  apply negb_false_iff, andb_true_iff in Hb as [_ Hempty%bool_decide_eq_true]. destruct (u32_max <? _); [by exists nothing|].
  unfold modify at 1. unfold bind at 1. set (sid := next_sid s + 1).
  assert (Hi1 : Inv (owing sid address nothing) (fst (stream sid address (set_next_sid sid s)))).
  { apply inv_stream; [done|lia|]. by rewrite Hempty, size_empty. }
  unfold bind at 1. destruct (stream sid address (set_next_sid sid s)) as [s1 [[]|e]] eqn:Hs; cbn [fst] in Hi1; [|by eexists].
  assert (Hr1 : ended s1 = false) by (injection Hs as <-; exact Hr).
  unfold bind at 1. pose proof (started_frames_good _ s1 Hi1 Hr1) as Hst. destruct (started_frames s1) as [s2 [fs|e]]; [|by eexists].
  destruct Hst as (Hi2 & Hr2 & Hfs). revert s2 Hi2 Hr2. apply (keeps_bind _ nothing).
  - apply keeps_flush_frames. intros i. unfold nothing, owing. rewrite psh_app, (psh_control i fs Hfs), app_nil_r.
    unfold psh. cbn. rewrite app_nil_r, Z.eqb_sym. done.
  - intros []. destruct listening; [apply keeps_ret|apply keeps_drop_stream].
Qed.

Lemma inv_pop o s m ms : Inv o s -> messages s = m :: ms -> (forall sid, o sid = []) ->
  Inv (fun sid => if decide (sid ∈ entries s) then message_data sid m else []) (set_messages ms s).
Proof.
  intros [] Hm Ho. constructor; cbn [set_messages receive_credit streams entries next_sid actions sent messages writes wire ended]; try assumption.
  - intros sid l Hl. destruct (v_stream0 sid l Hl) as (? & ? & Hrest). split_and!; [done..|]. rewrite Ho in Hrest.
    destruct (decide (sid ∈ entries s)); [|by rewrite app_nil_r in *]. by rewrite Hm in Hrest.
  - intros sid Hl. destruct (v_absent0 sid Hl) as (? & ? & ? & Hd). rewrite Hm in Hd. unfold datas in Hd. cbn in Hd.
    apply app_eq_nil in Hd as [? ?]. by destruct (decide (sid ∈ entries s)).
Qed.

Lemma message_good listening m ms s :
  Inv nothing s -> ended s = false -> messages s = m :: ms -> good nothing (message listening m (set_messages ms s)).
Proof.
  intros Hi Hr Hm. pose proof (inv_pop nothing s m ms Hi Hm ltac:(done)) as Hp.
  assert (Hnone : (forall sid, message_data sid m = []) -> Inv nothing (set_messages ms s)).
  { intros Hd. eapply inv_owing_ext; [|exact Hp]. intros sid. cbn. rewrite Hd. by destruct (decide _). }
  destruct m as [address|sid b|sid|sid]; cbn [message].
  - apply message_open_good; [by apply Hnone|done].
  - change (entries (set_messages ms s)) with (entries s). destruct (decide (sid ∈ entries s)) as [Hin|Hout].
    + eapply keeps_send; [|exact Hp|exact Hr]. intros i. unfold nothing. rewrite app_nil_r, psh_data. cbn [frame_data message_data].
      rewrite (Z.eqb_sym sid i). destruct (i =? sid) eqn:Hz; [zify_bool; subst i; by rewrite decide_True|by destruct (decide _)].
    + split; [|done]. eapply inv_owing_ext; [|exact Hp]. intros i. cbn [message_data]. unfold nothing.
      destruct (decide (i ∈ entries s)); [|done]. rewrite (proj2 (Z.eqb_neq sid i)); [done|]. by intros ->.
  - change (entries (set_messages ms s)) with (entries s). destruct (decide (sid ∈ entries s)).
    + apply keeps_send_control; [done|by apply Hnone|done].
    + split; [apply inv_flushing; by apply Hnone|done].
  - assert (Hk : keeps nothing nothing (close sid None ;; modify (on_stream sid (set_flushing (Some (Some (Ok tt))))))).
    { apply (keeps_bind _ nothing); [apply keeps_close|]. intros _. by apply keeps_modify; [intros s1; apply inv_flushing|]. }
    apply Hk; [by apply Hnone|done].
Qed.

Lemma received_good f s :
  len (data f) <= u16_max -> Inv nothing s -> ended s = false -> good nothing (received f s).
Proof.
  intros Hf Hi Hr. unfold received. destruct (decide (cmd f = Alert)); [by exists nothing|]. cbn zeta.
  destruct (if client && _ then _ else _) as [[]|e]; [|by exists nothing].
  destruct (on_frame (state s) client f) as [[e l]|] eqn:Hon; [|by exists nothing].
  assert (Hi1 : Inv nothing (set_actions l (set_state e s))).
  { apply inv_actions; [|by apply inv_state]. apply Forall_forall. intros a Ha. pose proof (frame_actions _ _ _ _ _ _ Hon Ha) as Hok.
    destruct a; try done. cbn. lia. }
  assert (Hi2 : forall b : bool, Inv nothing (if b then on_stream (sid f) (fun l => set_status (mkStatus (closed (status l)) true (error_text (status l))) l)
      (set_actions l (set_state e s)) else set_actions l (set_state e s))).
  { intros []; [|done]. rewrite on_stream_put. destruct (streams (set_actions l (set_state e s)) !! sid f) as [ls|] eqn:Hl; [|done].
    eapply inv_put_same; try done. destruct (v_stream _ _ Hi1 _ _ Hl) as (_ & [] & _). by constructor. }
  split.
  - destruct (client && bool_decide (cmd f = UpdatePaddingScheme)); [apply inv_padding|]; apply Hi2.
  - destruct (client && bool_decide (cmd f = UpdatePaddingScheme)); cbn; by destruct (_ && _ && _ && _).
Qed.

Lemma push_data_good o sid d s :
  len d <= u16_max -> Inv o s -> ended s = false -> good o (push_data sid d s).
Proof.
  intros Hd Hi Hr. unfold push_data. destruct (decide (sid ∈ entries s)); [|done]. cbn zeta.
  pose proof (len_nonneg d). unfold u16_max in Hd. rewrite Z.mod_small by lia. set (cost := len d + received_size).
  destruct (receive_credit s <? cost) eqn:Hc; [by apply keeps_close|]. zify_bool.
  destruct (streams s !! sid) as [l|] eqn:Hl; [|by apply keeps_close]. destruct (alive l) eqn:Ha; [|by apply keeps_close].
  split; [|done]. unfold ret. cbn [fst]. rewrite <- Z.add_opp_r. destruct (v_stream _ _ Hi _ _ Hl) as (_ & [] & _).
  apply (inv_put o s sid l _ (- cost)); try done; [|lia|].
  - unfold held. cbn [queue pending log_given set_incoming]. rewrite lsum_app. cbn [lsum foldr r_credit]. lia.
  - constructor; cbn; try done.
    + apply Forall_app. split; [done|]. repeat constructor. unfold paid. cbn. lia.
    + by rewrite Ha.
    + intros _. rewrite (s_data0 Ha). unfold unread. cbn. by rewrite fmap_app, concat_app, <- !app_assoc; cbn; rewrite app_nil_r.
    + etrans; [exact s_got0|]. by eexists.
Qed.

Lemma ensure_stream_good sid s : Inv nothing s -> ended s = false -> good nothing (ensure_stream sid s).
Proof.
  intros Hi Hr. unfold ensure_stream. destruct (negb _) eqn:Hn; [by exists nothing|]. apply negb_false_iff in Hn. zify_bool. cbn zeta.
  pose proof (inv_next nothing sid s ltac:(lia) Hi) as Hi1. change (entries (set_next_sid sid s)) with (entries s).
  destruct (MAX_STREAMS <=? _) eqn:Hm; zify_bool; [apply keeps_send_control; [by repeat constructor|done..]|].
  assert (Hi2 : Inv nothing (fst (stream sid [] (set_next_sid sid s)))).
  { eapply inv_owing_ext; [|apply inv_stream; [exact Hi|lia|done]]. intros i. unfold owing, nothing. by destruct (i =? sid). }
  unfold bind at 1. destruct (stream sid [] (set_next_sid sid s)) as [s1 [[]|e]] eqn:Hs; [|by injection Hs].
  assert (Hr1 : ended s1 = false) by (injection Hs as <-; exact Hr). cbn [fst] in Hi2. clear Hs. revert s1 Hi2 Hr1.
  apply (keeps_bind _ nothing); [by apply keeps_send_control; repeat constructor|]. intros [].
  destruct incoming as [accept|]; [|apply keeps_drop_stream]. destruct (accept sid); [apply keeps_ret|].
  apply (keeps_bind _ nothing); [apply keeps_drop_stream|]. intros [] s1 Hi1' _. by exists nothing.
Qed.

Lemma act_good a s : action_ok a -> Inv nothing s -> ended s = false -> good nothing (act a s).
Proof.
  intros Ha Hi Hr. destruct a as [f|f|i d|i|i|i m|m|]; cbn [act action_ok] in *.
  - apply keeps_send_control; [by repeat constructor|done..].
  - apply keeps_flush_control; [by repeat constructor|done..].
  - by apply push_data_good.
  - by apply ensure_stream_good.
  - destruct (decide (i ∈ entries s)); [|done]. revert s Hi Hr e. intros s Hi Hr _. revert s Hi Hr.
    apply (keeps_bind _ nothing); [by apply keeps_modify; [intros s; apply inv_remove_entry|]|]. intros []. apply keeps_idle.
  - by apply keeps_close.
  - revert s Hi Hr. apply (keeps_bind _ nothing); [by apply keeps_flush_control; repeat constructor|]. intros [] s Hi _. by exists nothing.
  - done.
Qed.

(** *** Streams keep the invariant *)

Lemma take_pending_ok room l r l' c out :
  stream_ok l -> alive l = true -> pending l = Some r -> take_pending room l r = (l', c, out) ->
  stream_ok l' /\ held l' + c = held l /\ 0 <= c /\ open l' = open l /\ status l' = status l /\
  head_bytes l' = head_bytes l /\ written l' = written l.
Proof.
  intros [] Ha Hp. specialize (s_pending0 r Hp). unfold paid in s_pending0. pose proof (len_nonneg (r_bytes r)).
  set (n := Z.min room (len (r_bytes r))). pose proof (ztake_zdrop n (r_bytes r)) as Hsplit. unfold take_pending. fold n.
  assert (Hgot : got l ++ ztake n (r_bytes r) `prefix_of` given l).
  { rewrite (s_data0 Ha). apply prefix_app. unfold unread. rewrite Hp. cbn [from_option]. rewrite <- Hsplit at 2. rewrite <- app_assoc. by eexists. }
  assert (Hgiven : given l = (got l ++ ztake n (r_bytes r)) ++ zdrop n (r_bytes r) ++ concat (r_bytes <$> queue l)).
  { rewrite (s_data0 Ha). unfold unread. rewrite Hp. cbn [from_option]. rewrite <- Hsplit at 1. by rewrite <- !app_assoc. }
  destruct (len (zdrop n (r_bytes r)) =? 0) eqn:Hz; intros [= <- <- _]; zify_bool.
  - apply len_zero in Hz. assert (Hheld : held (set_incoming (queue l) None l) + r_credit r = held l).
    { unfold held. rewrite Hp. cbn [queue pending set_incoming from_option]. lia. }
    split_and!; try done; [|lia].
    constructor; cbn; try done. { by rewrite Ha. } intros _. by rewrite Hgiven, Hz.
  - assert (Hheld : held (set_incoming (queue l) (Some (mkReceived (zdrop n (r_bytes r)) (r_credit r))) l) + 0 = held l).
    { unfold held. rewrite Hp. cbn [queue pending set_incoming from_option r_credit]. lia. }
    split_and!; try done.
    constructor; cbn; try done; [|by rewrite Ha].
    intros r' [= <-]. unfold paid. cbn. assert (len (zdrop n (r_bytes r)) <= len (r_bytes r)); [|lia].
    rewrite <- Hsplit at 2. rewrite len_app. pose proof (len_nonneg (ztake n (r_bytes r))). lia.
Qed.

Lemma stream_read_ok room l l' c out :
  stream_ok l -> alive l = true -> stream_read room l = (l', c, out) ->
  stream_ok l' /\ held l' + c = held l /\ 0 <= c /\ open l' = open l /\ status l' = status l /\
  head_bytes l' = head_bytes l /\ written l' = written l.
Proof.
  intros Hok Ha. unfold stream_read. destruct (room =? 0); [intros [= <- <- _]; split_and!; try done; lia|].
  destruct (pending l) as [r|] eqn:Hp; [by apply take_pending_ok|].
  destruct (queue l) as [|r q] eqn:Hq; [destruct (open l) eqn:Hop; intros [= <- <- _]; split_and!; try done; lia|].
  intros Ht. apply take_pending_ok in Ht; [|destruct Hok|done|done].
  - destruct Ht as (? & Hh & ? & ? & ? & ? & ?). split_and!; try done. rewrite Hh. unfold held. rewrite Hp, Hq. cbn. lia.
  - rewrite Hq in *. apply Forall_cons_1 in s_paid0 as [? ?]. constructor; cbn; try done.
    + by intros r' [= <-].
    + by rewrite Ha.
    + intros _. rewrite (s_data0 Ha). unfold unread. by rewrite Hp, Hq.
Qed.

Lemma poll_ack_spec over l l' r :
  poll_ack over l = (l', r) -> l' = l \/ exists f, l' = set_flushing f l.
Proof.
  unfold poll_ack. destruct (flushing l) as [[r0|]|]; [|destruct over|]; intros [= <- _]; eauto.
Qed.

Lemma inv_ack o s sid l over l' r :
  Inv o s -> streams s !! sid = Some l -> poll_ack over l = (l', r) -> Inv o (put_stream sid l' s).
Proof.
  intros Hi Hl Hack. destruct (v_stream _ _ Hi _ _ Hl) as (_ & Hok & _).
  destruct (poll_ack_spec _ _ _ _ Hack) as [->|[f ->]]; eapply inv_put_same; try done. by apply stream_ok_flushing.
Qed.

Lemma inv_post o m s : (forall sid, message_data sid m = []) -> Inv o s -> Inv o (post m s).
Proof.
  intros Hm Hi. assert (Hd : forall sid, datas sid (messages s ++ [m]) = datas sid (messages s)).
  { intros sid. rewrite datas_app. unfold datas at 2. cbn. by rewrite Hm, !app_nil_r. }
  destruct Hi. constructor; try assumption; cbn [post set_messages streams entries sent messages next_sid]; [intros sid l Hl|intros sid Hl];
    rewrite Hd; [by apply v_stream0|by apply v_absent0].
Qed.

(** A write posts its bytes as it records them. *)
Lemma inv_post_data s sid l b :
  Inv nothing s -> streams s !! sid = Some l -> closed (status l) = false ->
  Inv nothing (post (Data sid b) (put_stream sid (log_written b l) s)).
Proof.
  intros Hi Hl Hc. destruct Hi.
  assert (Hd : forall i, datas i (messages s ++ [Data sid b]) = datas i (messages s) ++ if sid =? i then b else []).
  { intros i. rewrite datas_app. unfold datas at 2. cbn. by rewrite app_nil_r. }
  constructor; try assumption; cbn [post put_stream set_messages set_streams receive_credit streams entries sent messages next_sid].
  - rewrite (msum_update held (streams s) sid l _ Hl). change (held (log_written b l)) with (held l). lia.
  - intros i li Hli. rewrite Hd. destruct (decide (i = sid)) as [->|Hne].
    + rewrite lookup_insert_eq in Hli. injection Hli as <-. destruct (v_stream0 sid l Hl) as (? & [] & Hrest). rewrite Z.eqb_refl.
      split_and!; [done|by constructor|]. destruct (decide (sid ∈ entries s)); [|by destruct Hrest as (? & ? & ?); congruence].
      destruct Hrest as (? & ? & Hrest). split_and!; [done..|]. cbn [head_bytes written log_written nothing app] in *.
      by rewrite app_assoc, Hrest, <- app_assoc.
    + rewrite lookup_insert_ne in Hli by done. rewrite (proj2 (Z.eqb_neq sid i)), app_nil_r by congruence. by apply v_stream0.
  - intros i Hli. rewrite Hd. destruct (decide (i = sid)) as [->|Hne]; [by rewrite lookup_insert_eq in Hli|].
    rewrite lookup_insert_ne in Hli by done. rewrite (proj2 (Z.eqb_neq sid i)), app_nil_r by congruence. by apply v_absent0.
Qed.

Lemma put_stream_put sid x y s : put_stream sid x (put_stream sid y s) = put_stream sid x s.
Proof. unfold put_stream, set_streams. cbn. by rewrite insert_insert_eq. Qed.

Lemma stream_write_inv sid b l s :
  Inv nothing s -> streams s !! sid = Some l -> Inv nothing (fst (stream_write sid b l s)).
Proof.
  intros Hi Hl. unfold stream_write. destruct (shutdown l || closed (status l)) eqn:Hc; [done|].
  apply orb_false_iff in Hc as [_ Hc]. destruct (poll_ack (ended s) l) as [l' r] eqn:Hack.
  pose proof (inv_ack _ _ _ _ _ _ _ Hi Hl Hack) as Hi'.
  assert (Hc' : closed (status l') = false) by (destruct (poll_ack_spec _ _ _ _ Hack) as [->|[f ->]]; done).
  destruct r as [|[[]|e]]; [done| |done]. destruct (len b =? 0); [done|].
  destruct (reserve s l') as [|[[]|e]]; [done| |done]. cbn zeta. cbn [fst].
  rewrite <- (put_stream_put sid _ l'). apply inv_post_data; [done|cbn; apply lookup_insert_eq|done].
Qed.

Lemma finish_ack_inv sid l s : Inv nothing (put_stream sid l s) -> Inv nothing (fst (finish_ack sid l s)).
Proof.
  intros Hi. unfold finish_ack. destruct (poll_ack (ended s) l) as [l' r] eqn:Hack. cbn [fst].
  rewrite <- (put_stream_put sid _ l). eapply inv_ack; [exact Hi|cbn; apply lookup_insert_eq|exact Hack].
Qed.

Lemma inv_posted sid l l' m s :
  Inv nothing s -> streams s !! sid = Some l -> (forall i, message_data i m = []) ->
  stream_ok l' -> held l' = held l -> open l' = open l -> status l' = status l -> head_bytes l' = head_bytes l -> written l' = written l ->
  Inv nothing (fst (finish_ack sid l' (post m s))).
Proof.
  intros Hi Hl Hm Hok Hh Ho Hst Hhd Hw. apply finish_ack_inv. change (put_stream sid l' (post m s)) with (post m (put_stream sid l' s)).
  apply inv_post; [done|]. eapply inv_put_same; try done. by rewrite Hst.
Qed.

Lemma stream_flush_inv sid l s :
  Inv nothing s -> streams s !! sid = Some l -> Inv nothing (fst (stream_flush sid l s)).
Proof.
  intros Hi Hl. destruct (v_stream _ _ Hi _ _ Hl) as (_ & Hok & _). unfold stream_flush. destruct (flushing l) eqn:Hf.
  - apply finish_ack_inv. by eapply inv_put_same.
  - destruct (closed (status l)); [done|]. destruct (reserve s l) as [|[[]|e]]; [done| |done].
    eapply inv_posted; try done. by apply stream_ok_flushing.
Qed.

Lemma stream_shutdown_inv sid l s :
  Inv nothing s -> streams s !! sid = Some l -> Inv nothing (fst (stream_shutdown sid l s)).
Proof.
  intros Hi Hl. destruct (v_stream _ _ Hi _ _ Hl) as (_ & Hok & _). unfold stream_shutdown.
  destruct (poll_ack (ended s) l) as [l' r] eqn:Hack. pose proof (inv_ack _ _ _ _ _ _ _ Hi Hl Hack) as Hi'.
  destruct r as [|[[]|e]]; [done| |done]. destruct (shutdown l' || _); [done|]. destruct (reserve s l') as [|[[]|e]]; [done| |done].
  destruct (poll_ack_spec _ _ _ _ Hack) as [->|[f ->]]; eapply inv_posted; try done; destruct Hok; by constructor.
Qed.

(** *** Every step keeps the invariant *)

Lemma handled_good (r : Session * res Error unit) : good nothing r -> Inv nothing (handled r).
Proof. destruct r as [s [[]|e]]; cbn; [by intros []|]. intros [o Hi]. by eapply inv_end. Qed.

Definition event_ok (e : event) : Prop := match e with Incoming f => len (data f) <= u16_max | _ => True end.

Lemma waiting_running s : waiting s = true -> ended s = false.
Proof. unfold waiting. by destruct (ended s). Qed.

Lemma owned_inv {A} sid (f : LogicalStream -> Session -> Session * A) s :
  (forall l, streams s !! sid = Some l -> alive l = true -> Inv nothing (fst (f l s))) -> Inv nothing s -> Inv nothing (owned sid f s).
Proof. intros Hf Hi. unfold owned. destruct (streams s !! sid) as [l|] eqn:Hl; [|done]. destruct (alive l) eqn:Ha; [by apply Hf|done]. Qed.

Lemma step_inv s e : event_ok e -> Inv nothing s -> Inv nothing (step s e).
Proof.
  intros He Hi. destruct e as [|f| |listening| | | |address|sid room|sid b|sid|sid|sid]; cbn [step].
  - destruct (waiting s); [by apply inv_draining|done].
  - destruct (waiting s) eqn:Hw; [|done]. apply handled_good, received_good; [done..|by apply waiting_running].
  - destruct (actions s) as [|a l] eqn:Ha; [destruct (_ && _); [by eapply inv_end|done]|]. destruct (ended s) eqn:Hr; [done|].
    pose proof (v_actions _ _ Hi) as Hok. rewrite Ha in Hok. apply Forall_cons_1 in Hok as [Hok Hoks].
    apply handled_good, act_good; [done|by apply inv_actions|done].
  - destruct (messages s) as [|m l] eqn:Hm; [done|]. destruct (waiting s) eqn:Hw; [|done].
    apply handled_good, message_good; [done|by apply waiting_running|done].
  - destruct (dropped s) as [|sid l] eqn:Hd; [done|]. destruct (waiting s) eqn:Hw; [|done].
    apply handled_good, keeps_close; [by apply inv_dropped|by apply waiting_running in Hw].
  - destruct (ended s) eqn:Hr; [done|]. apply handled_good. apply (keeps_write_some nothing 1) in Hr as Hg; [|done].
    cbn [write_some] in Hg. unfold bind in Hg. by destruct (write_one s) as [? [[]|]].
  - destruct (ended s); [done|]. by eapply inv_end.
  - destruct (_ || _); [done|]. by apply inv_post.
  - apply owned_inv; [|done]. intros l Hl Ha. destruct (v_stream _ _ Hi _ _ Hl) as (_ & Hok & _).
    destruct (stream_read room l) as [[l' c] r] eqn:Hrd. destruct (stream_read_ok _ _ _ _ _ Hok Ha Hrd) as (? & ? & ? & ? & Hst & ? & ?).
    pose proof (v_nonneg _ _ Hi). cbn [fst]. apply (inv_put nothing s sid l l' c); try done; [lia|by rewrite Hst].
  - apply owned_inv; [|done]. intros l Hl _. by apply stream_write_inv.
  - apply owned_inv; [|done]. intros l Hl _. by apply stream_flush_inv.
  - apply owned_inv; [|done]. intros l Hl _. by apply stream_shutdown_inv.
  - by apply inv_drop_stream.
Qed.

Lemma start_inv e p : Inv nothing (start e p).
Proof.
  constructor; cbn [start receive_credit streams entries sent messages next_sid actions writes wire ended]; try done.
  exists [], []. by split_and!; [apply encodes_nil|..].
Qed.

Lemma run_inv e p l : Forall event_ok l -> Inv nothing (run (start e p) l).
Proof.
  intros HF. unfold run. generalize (start_inv e p). generalize (start e p). induction HF as [|x l Hx HF IH]; intros s Hs; [done|].
  cbn. by apply IH, step_inv.
Qed.

(** ** Properties *)

(** The memory a stream's unread pieces take. *)
Definition footprint (l : LogicalStream) : Z :=
  lsum (fun r => len (r_bytes r) + received_size) (queue l) + from_option (fun r => len (r_bytes r) + received_size) 0 (pending l).

Lemma footprint_held l : stream_ok l -> footprint l <= held l.
Proof.
  intros []. unfold footprint, held. assert (Hq : lsum (fun r => len (r_bytes r) + received_size) (queue l) <= lsum r_credit (queue l)).
  { clear -s_paid0. induction s_paid0 as [|r q Hr _ IH]; [done|]. unfold lsum, paid in *. cbn [foldr]. lia. }
  destruct (pending l) as [r|]; cbn [from_option]; [|lia]. specialize (s_pending0 r eq_refl). unfold paid in s_pending0. lia.
Qed.

Lemma msum_le {K A} `{Countable K} (f g : A -> Z) (m : gmap K A) :
  (forall i x, m !! i = Some x -> f x <= g x) -> msum f m <= msum g m.
Proof.
  induction m as [|i x m Hi IH] using map_ind; intros Hm; [by rewrite !msum_empty|]. rewrite !msum_insert by done.
  pose proof (Hm i x ltac:(by rewrite lookup_insert_eq)). cut (msum f m <= msum g m); [lia|]. apply IH. intros j y Hj. apply (Hm j).
  rewrite lookup_insert_ne; [done|]. intros ->. congruence.
Qed.

(** C23. A session's memory is bounded whatever its peer sends.  After any sequence of frames,
    messages, writes, reads, drops and failures, at most 128 streams are open, the receive credit and
    the permits of unread data add up to 4 MiB exactly, and the unread data of all streams, the
    overhead of each piece included, takes no more than that. *)
Theorem anytls_session_bounded e p l :
  Forall event_ok l ->
  let s := run (start e p) l in
  Z.of_nat (size (entries s)) <= MAX_STREAMS /\
  0 <= receive_credit s /\ receive_credit s + msum held (streams s) = RECEIVE_BYTES /\
  msum footprint (streams s) <= RECEIVE_BYTES.
Proof.
  intros HF. cbn zeta. pose proof (run_inv e p l HF) as []. split_and!; [done..|].
  assert (msum footprint (streams (run (start e p) l)) <= msum held (streams (run (start e p) l))); [|lia].
  apply msum_le. intros sid ls Hl. apply footprint_held, (v_stream0 sid ls Hl).
Qed.

Fixpoint stream_reads (n : nat) (room : Z) (l : LogicalStream) : LogicalStream :=
  match n with O => l | S n => stream_reads n room (fst (fst (stream_read room l))) end.

Definition pieces_left (l : LogicalStream) : nat :=
  length (unread l) + length (queue l) + match pending l with Some _ => 1 | None => 0 end.

Lemma pieces_left_take room l r :
  0 < room -> pending l = Some r -> (pieces_left (fst (fst (take_pending room l r))) < pieces_left l)%nat.
Proof.
  intros Hroom Hp. unfold take_pending, pieces_left, unread. rewrite Hp. set (n := Z.min room (len (r_bytes r))).
  assert (Hlen : (length (zdrop n (r_bytes r)) <= length (r_bytes r) - Z.to_nat n)%nat) by (unfold zdrop; rewrite length_drop; lia).
  destruct (len (zdrop n (r_bytes r)) =? 0) eqn:Hz; cbn [fst queue pending log_got set_incoming from_option r_bytes]; rewrite !length_app; [cbn; lia|].
  zify_bool. assert (0 < n); [|unfold len in *; lia]. unfold n. destruct (r_bytes r) eqn:Hb; [|unfold len; cbn; lia].
  exfalso. apply Hz. unfold zdrop. by rewrite drop_nil.
Qed.

Lemma pieces_left_read room l : 0 < room -> pieces_left l <> 0%nat -> (pieces_left (fst (fst (stream_read room l))) < pieces_left l)%nat.
Proof.
  intros Hroom Hne. unfold stream_read. rewrite (proj2 (Z.eqb_neq room 0)) by lia. destruct (pending l) as [r|] eqn:Hp; [by apply pieces_left_take|].
  destruct (queue l) as [|r q] eqn:Hq; [unfold pieces_left, unread in Hne; rewrite Hp, Hq in Hne; done|].
  eapply Nat.lt_le_trans; [by apply pieces_left_take|]. unfold pieces_left, unread. rewrite Hp, Hq.
  cbn [queue pending set_incoming from_option fmap list_fmap concat length app]. rewrite !length_app. cbn [length]. lia.
Qed.

Lemma stream_read_given room l : given (fst (fst (stream_read room l))) = given l /\ alive (fst (fst (stream_read room l))) = alive l.
Proof.
  unfold stream_read, take_pending. destruct (room =? 0); [done|].
  destruct (pending l) as [r|]; [by destruct (_ =? 0)|]. destruct (queue l) as [|r q]; [by destruct (open l)|]. by destruct (_ =? 0).
Qed.

Lemma stream_reads_drain n room l :
  0 < room -> stream_ok l -> alive l = true -> (pieces_left l <= n)%nat ->
  got (stream_reads n room l) = given l /\ pending (stream_reads n room l) = None /\ queue (stream_reads n room l) = [].
Proof.
  intros Hroom. revert l. induction n as [|n IH]; intros l Hok Ha Hn; cbn [stream_reads].
  - assert (Hu : unread l = []) by (apply length_zero_iff_nil; unfold pieces_left in Hn; lia).
    destruct Hok. rewrite (s_data0 Ha), Hu, app_nil_r. unfold pieces_left in Hn. split_and!; [done| |].
    + destruct (pending l); [lia|done].
    + apply length_zero_iff_nil. lia.
  - destruct (stream_read_given room l) as [<- Hal]. destruct (stream_read room l) as [[l' c] r] eqn:Hrd. cbn [fst] in *.
    destruct (stream_read_ok _ _ _ _ _ Hok Ha Hrd) as [Hok' _]. apply IH; [done|congruence|].
    destruct (decide (pieces_left l = 0%nat)) as [Hz|Hz].
    + assert (l' = l) as ->; [|lia]. unfold pieces_left in Hz. unfold stream_read in Hrd. destruct (room =? 0); [by injection Hrd|].
      destruct (pending l); [lia|]. destruct (queue l); [by destruct (open l); injection Hrd|cbn in Hz; lia].
    + pose proof (pieces_left_read room l Hroom Hz) as Hlt. rewrite Hrd in Hlt. cbn [fst] in Hlt. lia.
Qed.

(** A logical stream delivers its data in order and to the end.  For every stream of a session
    its owner still holds, at any time, what was read and what is unread make up the data the session
    queued for it, in order; and, the session closed or not, enough reads give all of it before the
    end of the stream, which a read reports only once the entry is gone. *)
Theorem anytls_stream_in_order e p l sid ls room :
  Forall event_ok l -> streams (run (start e p) l) !! sid = Some ls -> alive ls = true -> 0 < room ->
  given ls = got ls ++ unread ls /\
  let final := stream_reads (pieces_left ls) room ls in
  got final = given ls /\
  (open final = false -> snd (stream_read room final) = Relay.Ready (match error_text (status final) with Some _ => Err (broken final) | None => Ok [] end)) /\
  (open final = true -> snd (stream_read room final) = Relay.Pending).
Proof.
  intros HF Hl Ha Hroom. pose proof (run_inv e p l HF) as Hi. destruct (v_stream _ _ Hi _ _ Hl) as (_ & Hok & _).
  split; [by apply (s_data _ Hok)|]. cbn zeta. destruct (stream_reads_drain (pieces_left ls) room ls Hroom Hok Ha ltac:(lia)) as (? & Hp & Hq).
  split; [done|]. unfold stream_read. rewrite (proj2 (Z.eqb_neq room 0)) by lia. rewrite Hp, Hq. split; by intros ->.
Qed.

(** C9. What a stream writes is what its session puts on the wire for it.  At any time, however the
    transport cuts the bytes written so far, the peer's decoder gives frames whose data for a stream
    is a prefix of the address the stream was opened with followed by the bytes it accepted; while
    the stream is open in a running session, the frames the writer still holds and the messages not
    yet handled are exactly the rest. *)
Theorem anytls_wire_carries_streams e p l sid ls pieces :
  let s := run (start e p) l in
  Forall event_ok l -> streams s !! sid = Some ls -> concat pieces = concat (wire s) ->
  exists fs, framed_read [] pieces = (fs, []) /\ psh sid fs `prefix_of` head_bytes ls ++ written ls /\
    (ended s = false -> sid ∈ entries s ->
      psh sid fs ++ psh sid (concat (w_frames <$> writes s)) ++ datas sid (messages s) = head_bytes ls ++ written ls).
Proof.
  cbn zeta. intros HF Hl Hp. pose proof (run_inv e p l HF) as Hi. destruct (v_wire _ _ Hi) as (fs & rest & (bs & Hm & Hb) & Hsent & Hrest).
  exists fs. split; [rewrite framed_read_concat by done; cbn [app]; rewrite Hp, Hb; by apply deframe_frames|].
  assert (Hpsh : psh sid fs ++ psh sid (concat (w_frames <$> writes (run (start e p) l))) ++ psh sid rest = psh sid (sent (run (start e p) l))).
  { apply (f_equal (psh sid)) in Hsent. by rewrite !psh_app, !psh_useful in Hsent. }
  destruct (v_stream _ _ Hi _ _ Hl) as (_ & _ & Hst). split.
  - transitivity (psh sid (sent (run (start e p) l))); [rewrite <- Hpsh; by eexists|].
    destruct (decide (sid ∈ entries _)); destruct Hst as (_ & _ & Hst); [by rewrite <- Hst; eexists|]. by rewrite app_nil_r in Hst.
  - intros Hr Hin. rewrite decide_True in Hst by done. destruct Hst as (_ & _ & Hst). rewrite <- Hst, <- Hpsh, (Hrest Hr).
    unfold psh at 5. cbn. by rewrite app_nil_r, <- app_assoc.
Qed.
End session.

(** ** A concrete engine *)

(** An engine that acts on the three stream frames. *)
#[export] Instance demo_engine : Engine unit unit := {|
  on_session_start _ := Some (tt, []);
  on_frame _ _ f :=
    Some (tt, match cmd f with
              | Psh => [PushStreamData (sid f) (data f)]
              | Syn => [EnsureIncomingStream (sid f)]
              | Fin => [CloseLocalStream (sid f)]
              | _ => []
              end);
  padding_of _ := tt;
|}.

#[export] Instance demo_engine_laws : EngineLaws.
Proof.
  constructor.
  - by intros e e' l [= <- <-].
  - intros e c f e' l a [= <- <-]. destruct (cmd f); cbn; intros Ha; (apply list_elem_of_singleton in Ha as ->; cbn; lia) || set_solver.
Qed.

(** A client opens a stream, writes to it, receives two pieces, reads across them, and the peer ends it. *)
Definition demo_events : list event :=
  [Post [7]; Receive true; WriteTo 1 [1; 2; 3]; Receive true; Incoming (mkFrame Psh 1 [4; 5]); Act;
   Incoming (mkFrame Psh 1 [6]); Act; Read 1 1; WriteTo 1 [9]; Written; Incoming (mkFrame Fin 1 []); Act].
Definition demo_session : Session := run (E := unit) (F := unit) 48 (fun _ => 0) None (start tt tt) demo_events.
Definition demo_stream : LogicalStream := default (stream_new []) (streams demo_session !! 1).

Lemma demo_events_ok : Forall event_ok demo_events.
Proof. repeat constructor; vm_compute; congruence. Qed.

Lemma anytls_session_bounded_witness :
  receive_credit demo_session + msum held (streams demo_session) = RECEIVE_BYTES /\ msum (footprint 48) (streams demo_session) <= RECEIVE_BYTES.
Proof.
  assert (Hsize : 0 <= 48 <= 2 ^ 16) by lia.
  destruct (anytls_session_bounded (E := unit) (F := unit) 48 (fun _ => 0) None Hsize tt tt demo_events demo_events_ok) as (_ & _ & H1 & H2).
  exact (conj H1 H2).
Defined.

Lemma anytls_stream_in_order_witness :
  got (stream_reads (pieces_left demo_stream) 2 demo_stream) = [4; 5; 6].
Proof.
  assert (Hsize : 0 <= 48 <= 2 ^ 16) by lia.
  destruct (anytls_stream_in_order (E := unit) (F := unit) 48 (fun _ => 0) None Hsize tt tt demo_events 1 demo_stream 2 demo_events_ok) as (_ & H1 & _).
  - vm_compute. reflexivity.
  - vm_compute. reflexivity.
  - lia.
  - rewrite H1. vm_compute. reflexivity.
Defined.

Lemma anytls_wire_carries_streams_witness :
  exists fs, framed_read [] [concat (wire demo_session)] = (fs, []) /\ psh 1 fs `prefix_of` [7; 1; 2; 3; 9].
Proof.
  assert (Hsize : 0 <= 48 <= 2 ^ 16) by lia.
  destruct (anytls_wire_carries_streams (E := unit) (F := unit) 48 (fun _ => 0) None Hsize tt tt demo_events 1 demo_stream [concat (wire demo_session)] demo_events_ok)
    as (fs & H1 & H2 & _).
  - vm_compute. reflexivity.
  - apply app_nil_r.
  - exists fs. split; [exact H1|]. exact H2.
Defined.

End AnyTlsSession.
