(* ===== verification/Resources.v ===== *)
(** * Resource manager (crates/daemon/src/resources.rs)

    The registry of inbounds, dialers and DNS services, their creation on one another, their drains
    and aborts, and the supervisors that release them.  Creations, supervisors and callers run
    concurrently; a step is what one of them does under the registry's lock or between two waits.
    Binding sockets and building clients is outside: whether it succeeds is part of the step. *)

From S2P Require Import Prelude.

Module Resources.

(** ** State *)

Inductive Tier := EntryPoint | Service.
Inductive Native := Inbound | Dialer | DnsService.

#[export] Instance tier_eq_dec : EqDecision Tier.
Proof. solve_decision. Defined.
#[export] Instance native_eq_dec : EqDecision Native.
Proof. solve_decision. Defined.

(** [ResourceConfig], with what [create] reads of it; times are in nanoseconds. *)
Inductive CarrierConfig := OnDialer (carrier : Z) | Host.
Inductive ResourceConfig :=
  | InboundConfig (udp_idle_timeout : Z) (sniff_timeout : option Z)
  | DialerConfig (carrier : CarrierConfig)
  | DnsServiceConfig (dialer : Z)
  | DnsListenerConfig.

Inductive error :=
  | ShuttingDown | IdsExhausted | ReferencedClosed | WrongKind | InvalidTimeout | BuildFailed
  | DialerClosed | NotDialer | ServiceClosed | NotService | InUse (users : Z) | TimeoutRange.

Abbreviation Res := (res error).

(** [Lifetime]: the tokens that were cancelled, and the deadline. *)
Record Lifetime := mkLifetime { admission : bool; abort_token : bool; deadline : option Z }.

Definition lifetime_new : Lifetime := mkLifetime false false None.
Definition is_open (l : Lifetime) : bool := negb (admission l).

Record Entry := mkEntry {
  tier : Tier;
  live : option (ResourceConfig * Native);
  lifetime : Lifetime;
  uses : option Z;
  users : Z;
}.

Definition set_live x e := mkEntry (tier e) x (lifetime e) (uses e) (users e).
Definition set_lifetime x e := mkEntry (tier e) (live e) x (uses e) (users e).
Definition set_users x e := mkEntry (tier e) (live e) (lifetime e) (uses e) x.

(** A [create] in progress: its reservation, and what it built. *)
Record Creation := mkCreation { config : ResourceConfig; reservation : option Z; built : option Native }.

(** Where a supervisor waits. *)
Inductive Stage := Watching | Draining | Closing | Dropping.

#[export] Instance stage_eq_dec : EqDecision Stage.
Proof. solve_decision. Defined.

(** The manager, with the creations and supervisors in progress.  A scope is its parent, none for the
    root, and whether it was closed itself. *)
Record Manager := mkManager {
  root_closed : bool;
  next : Z;
  accepting : bool;
  entries : gmap Z Entry;
  creations : gmap Z Creation;
  stages : gmap Z Stage;
  scopes : gmap Z (option Z * bool);
  released : gset Z;
  failure : option Z;
  shutdown : bool;
}.

Definition set_root x m := mkManager x (next m) (accepting m) (entries m) (creations m) (stages m) (scopes m) (released m) (failure m) (shutdown m).
Definition set_next x m := mkManager (root_closed m) x (accepting m) (entries m) (creations m) (stages m) (scopes m) (released m) (failure m) (shutdown m).
Definition set_accepting x m := mkManager (root_closed m) (next m) x (entries m) (creations m) (stages m) (scopes m) (released m) (failure m) (shutdown m).
Definition set_entries x m := mkManager (root_closed m) (next m) (accepting m) x (creations m) (stages m) (scopes m) (released m) (failure m) (shutdown m).
Definition set_creations x m := mkManager (root_closed m) (next m) (accepting m) (entries m) x (stages m) (scopes m) (released m) (failure m) (shutdown m).
Definition set_stages x m := mkManager (root_closed m) (next m) (accepting m) (entries m) (creations m) x (scopes m) (released m) (failure m) (shutdown m).
Definition set_scopes x m := mkManager (root_closed m) (next m) (accepting m) (entries m) (creations m) (stages m) x (released m) (failure m) (shutdown m).
Definition set_released x m := mkManager (root_closed m) (next m) (accepting m) (entries m) (creations m) (stages m) (scopes m) x (failure m) (shutdown m).
Definition set_failure f s m := mkManager (root_closed m) (next m) (accepting m) (entries m) (creations m) (stages m) (scopes m) (released m) f s.

(** [Manager::new] *)
Definition new : Manager := mkManager false 0 true ∅ ∅ ∅ ∅ ∅ None false.

(** ** Scopes *)

(** A scope is cancelled with any of its ancestors; a chain of ancestors has no more than all scopes. *)
Fixpoint cancelled_in (fuel : nat) (m : Manager) (id : Z) : bool :=
  match fuel with
  | O => root_closed m
  | S fuel =>
      match scopes m !! id with
      | None => root_closed m
      | Some (parent, closed) =>
          closed || match parent with Some p => cancelled_in fuel m p | None => root_closed m end
      end
  end.
Definition cancelled (m : Manager) (id : Z) : bool := cancelled_in (S (size (scopes m))) m id.

Definition close_scope (id : Z) (m : Manager) : Manager :=
  set_scopes (alter (fun s => (fst s, true)) id (scopes m)) m.

(** ** Operations *)

(** [Native::tier] *)
Definition native_tier (n : Native) : Tier := match n with Inbound => EntryPoint | Dialer | DnsService => Service end.

(** [Registry::native] *)
Definition native (m : Manager) (id : Z) : option (Native * bool) :=
  e ← entries m !! id; '(_, n) ← live e; Some (n, is_open (lifetime e)).

(** [Manager::open_dialer] *)
Definition open_dialer (m : Manager) (id : Z) : Res unit :=
  match native m id with
  | Some (Dialer, true) => Ok tt
  | Some (Dialer, false) | None => Err DialerClosed
  | Some _ => Err NotDialer
  end.

(** [Manager::dns_query], up to the query itself. *)
Definition dns_query (m : Manager) (id : Z) : Res unit :=
  match native m id with
  | Some (DnsService, true) => Ok tt
  | Some (DnsService, false) | None => Err ServiceClosed
  | Some _ => Err NotService
  end.

(** [Manager::abort] *)
Definition abort (m : Manager) : Manager := set_root true (set_accepting false m).

(** [Manager::reserve] *)
Definition reserve (m : Manager) (id : Z) (kind : Native) : Manager * Res unit :=
  match entries m !! id with
  | None => (m, Err ReferencedClosed)
  | Some e =>
      if negb (is_open (lifetime e)) then (m, Err ReferencedClosed) else
      match live e with
      | None => (m, Err ReferencedClosed)
      | Some (_, n) =>
          if bool_decide (n = kind) then (set_entries (<[id := set_users (users e + 1) e]> (entries m)) m, Ok tt)
          else (m, Err WrongKind)
      end
  end.

(** [Manager::release_user] *)
Definition release_user (id : Z) (m : Manager) : Manager :=
  set_entries (alter (fun e => set_users (sat_sub (users e) 1) e) id (entries m)) m.

(** [Reservation::drop] *)
Definition drop_reservation (r : option Z) (m : Manager) : Manager :=
  match r with Some id => release_user id m | None => m end.

(** A creation ends without a resource: its scope, if it has one, is left or closed, and its
    reservation is dropped. *)
Definition abandon (id : Z) (c : Creation) (m : Manager) : Manager :=
  drop_reservation (reservation c) (set_creations (delete id (creations m)) m).

(** [Manager::create], first part: admission and the resource's number.  The counter itself wraps. *)
Definition create_start (c : ResourceConfig) (m : Manager) : Manager * Res Z :=
  if negb (accepting m) then (m, Err ShuttingDown) else
  let id := next m + 1 in
  if u64_max <? id then (set_next (id mod 2 ^ 64) m, Err IdsExhausted) else
  (set_creations (<[id := mkCreation c None None]> (creations m)) (set_next id m), Ok id).

(** What a configuration asks [create] to build: its kind, the resource it is created on, and whether
    its own checks pass. *)
Definition plan (c : ResourceConfig) : Native * option Z * bool :=
  match c with
  | InboundConfig idle sniff => (Inbound, None, negb (idle =? 0) && match sniff with Some t => negb (t =? 0) | None => true end)
  | DialerConfig (OnDialer u) => (Dialer, Some u, true)
  | DialerConfig Host => (Dialer, None, true)
  | DnsServiceConfig u => (DnsService, Some u, true)
  | DnsListenerConfig => (Inbound, None, true)
  end.

(** The scope of a resource is a child of its carrier's for a dialer, of the root otherwise. *)
Definition scope_parent (c : ResourceConfig) : option Z :=
  match c with DialerConfig (OnDialer u) => Some u | _ => None end.

(** [Manager::inbound], [dns_listener], [build_dialer] and [dns_service]; [ok] is whether binding or
    building the native state succeeds. *)
Definition create_build (id : Z) (ok : bool) (m : Manager) : Manager * Res unit :=
  match creations m !! id with
  | Some (mkCreation c None None) =>
      let '(kind, on, valid) := plan c in
      if negb valid then (abandon id (mkCreation c None None) m, Err InvalidTimeout) else
      match (match on with Some u => reserve m u Dialer | None => (m, Ok tt) end) with
      | (m, Err e) => (abandon id (mkCreation c None None) m, Err e)
      | (m, Ok _) =>
          let c' := mkCreation c on (Some kind) in
          if ok then
            (set_scopes (<[id := (scope_parent c, false)]> (scopes m)) (set_creations (<[id := c']> (creations m)) m), Ok tt)
          else (abandon id c' m, Err BuildFailed)
      end
  | _ => (m, Ok tt)
  end.

(** [Manager::create], last part: the registration.  The reservation becomes the entry's use; the
    supervisor starts, and will release the entry even if its work cannot be started. *)
Definition create_commit (id : Z) (m : Manager) : Manager * Res unit :=
  match creations m !! id with
  | Some (mkCreation c r (Some n)) =>
      if negb (accepting m) then (abandon id (mkCreation c r (Some n)) (close_scope id m), Err ShuttingDown) else
      let e := mkEntry (native_tier n) (Some (c, n)) lifetime_new r 0 in
      (set_stages (<[id := Watching]> (stages m))
         (set_creations (delete id (creations m)) (set_entries (<[id := e]> (entries m)) m)), Ok tt)
  | _ => (m, Ok tt)
  end.

(** The future of [create] is dropped. *)
Definition create_cancel (id : Z) (m : Manager) : Manager :=
  match creations m !! id with Some c => abandon id c m | None => m end.

Inductive Ending := Abort | Drain (deadline : option Z).

(** The lifetime after [Manager::end]. *)
Definition ended (ending : Ending) (l : Lifetime) : Lifetime :=
  let l := if is_open l
           then mkLifetime true (abort_token l) (match ending with Drain (Some d) => Some d | _ => deadline l end)
           else l in
  match ending with Abort => mkLifetime (admission l) true (deadline l) | Drain _ => l end.

(** [Manager::end] *)
Definition end_resource (id : Z) (ending : Ending) (m : Manager) : Manager :=
  match entries m !! id with
  | None => m
  | Some e =>
      let m' := set_entries (<[id := set_lifetime (ended ending (lifetime e)) e]> (entries m)) m in
      if is_open (lifetime e) then drop_reservation (uses e) m' else m'
  end.

(** [Manager::terminate], [close] and [drain] *)
Definition terminate (id : Z) (ending : Ending) (m : Manager) : Manager * Res unit :=
  match entries m !! id with
  | None => (m, Ok tt)
  | Some e => if negb (users e =? 0) then (m, Err (InUse (users e))) else (end_resource id ending m, Ok tt)
  end.

Definition close (id : Z) (m : Manager) : Manager * Res unit := terminate id Abort m.
Definition drain (id now timeout limit : Z) (m : Manager) : Manager * Res unit :=
  if limit <? now + timeout then (m, Err TimeoutRange) else terminate id (Drain (Some (now + timeout))) m.

(** [Manager::drain_tier] *)
Definition tier_ids (t : Tier) (m : Manager) : list Z :=
  fst <$> filter (fun p => tier (snd p) = t /\ is_open (lifetime (snd p)) = true) (map_to_list (entries m)).
Definition drain_tier (t : Tier) (m : Manager) : Manager :=
  let m := set_accepting false m in
  foldr (fun id m => end_resource id (Drain None) m) m (tier_ids t m).

(** [Manager::released] and [released_tier]: whether the wait is over. *)
Definition is_released (id : Z) (m : Manager) : bool := bool_decide (entries m !! id = None).

Definition by_id (a b : Z * ResourceConfig) : Prop := fst a <= fst b.
#[export] Instance by_id_dec : RelDecision by_id.
Proof. intros a b. unfold by_id. apply _. Defined.

(** [Manager::resources]: what has not been released, by number. *)
Definition resources (m : Manager) : list (Z * ResourceConfig) :=
  merge_sort by_id
    (omap (fun p => match live (snd p) with Some (c, _) => Some (fst p, c) | None => None end) (map_to_list (entries m))).

(** [Manager::run] of an inbound that fails: the first failure is kept, and shutdown starts. *)
Definition run_failed (code : Z) (m : Manager) : Manager :=
  set_failure (Some (default code (failure m))) true m.

(** ** Supervisors *)

(** [Manager::supervise]; the waits end when a token was cancelled, the deadline has passed, or the
    resource is idle. *)
Definition supervise (id : Z) (now : Z) (idle : bool) (m : Manager) : Manager :=
  match stages m !! id, entries m !! id with
  | Some Watching, Some e =>
      if admission (lifetime e) || cancelled m id then set_stages (<[id := Draining]> (stages m)) m else m
  | Some Draining, Some e =>
      if abort_token (lifetime e) || cancelled m id || match deadline (lifetime e) with Some d => d <=? now | None => false end || idle
      then close_scope id (set_stages (<[id := Closing]> (stages m)) m) else m
  | Some Closing, Some e =>
      set_stages (<[id := Dropping]> (stages m)) (set_entries (<[id := set_live None e]> (entries m)) m)
  | Some Dropping, Some e =>
      set_released (released m ∪ {[id]}) (set_stages (delete id (stages m)) (set_entries (delete id (entries m)) m))
  | _, _ => m
  end.

(** ** The machine *)

Inductive event :=
  | Start (c : ResourceConfig) | Build (id : Z) (ok : bool) | Commit (id : Z) | Cancel (id : Z)
  | Terminate (id : Z) (ending : Ending) | DrainTier (t : Tier) | AbortAll
  | Supervise (id now : Z) (idle : bool) | RunFailed (code : Z).

Definition step (m : Manager) (e : event) : Manager :=
  match e with
  | Start c => fst (create_start c m)
  | Build id ok => fst (create_build id ok m)
  | Commit id => fst (create_commit id m)
  | Cancel id => create_cancel id m
  | Terminate id ending => fst (terminate id ending m)
  | DrainTier t => drain_tier t m
  | AbortAll => abort m
  | Supervise id now idle => supervise id now idle m
  | RunFailed code => run_failed code m
  end.

Definition run (l : list event) : Manager := foldl step new l.

(** ** Invariant *)

(** What an entry, or a creation, counts for the resource [u]. *)
Definition opener (u : Z) (e : Entry) : Z := if is_open (lifetime e) && bool_decide (uses e = Some u) then 1 else 0.
Definition holder (u : Z) (c : Creation) : Z := if bool_decide (reservation c = Some u) then 1 else 0.
Definition count (u : Z) (m : Manager) : Z := msum (opener u) (entries m) + msum (holder u) (creations m).

(** [u] can carry a new resource. *)
Definition carries (m : Manager) (u : Z) : Prop :=
  exists e c, entries m !! u = Some e /\ is_open (lifetime e) = true /\ live e = Some (c, Dialer).

(** An entry of a manager that was not aborted; [strict] unless a tier is being drained. *)
Record entry_ok (strict : bool) (m : Manager) (id : Z) (e : Entry) : Prop := {
  e_users : users e = count id m;
  e_carrier : forall u, strict = true -> is_open (lifetime e) = true -> uses e = Some u -> carries m u;
  e_tier : uses e <> None -> tier e = Service;
  e_kind : forall c n, live e = Some (c, n) -> tier e = native_tier n;
  e_self : uses e <> Some id;
  e_stage : exists st, stages m !! id = Some st /\ (is_open (lifetime e) = true -> st = Watching) /\ (st <> Dropping -> live e <> None);
  e_scope : is_open (lifetime e) = true -> exists p, scopes m !! id = Some (p, false) /\ (p <> None -> p = uses e);
}.

Record creation_ok (m : Manager) (id : Z) (c : Creation) : Prop := {
  c_fresh : entries m !! id = None;
  c_carrier : forall u, accepting m = true -> reservation c = Some u -> carries m u;
  c_built : forall n, built c = Some n ->
    exists p, scopes m !! id = Some (p, false) /\ (p <> None -> p = reservation c) /\ (reservation c <> None -> native_tier n = Service);
  c_unbuilt : built c = None -> reservation c = None;
  c_self : reservation c <> Some id;
}.

Record Inv (strict : bool) (m : Manager) : Prop := {
  v_next : 0 <= next m;
  v_ids : forall id, is_Some (entries m !! id) \/ is_Some (creations m !! id) -> 0 < id <= next m;
  v_entry : forall id e, entries m !! id = Some e -> entry_ok strict m id e;
  v_creation : forall id c, creations m !! id = Some c -> creation_ok m id c;
}.

Lemma opener_range u e : 0 <= opener u e <= 1.
Proof. unfold opener. destruct (_ && _); lia. Qed.
Lemma holder_range u c : 0 <= holder u c <= 1.
Proof. unfold holder. destruct (bool_decide _); lia. Qed.
Lemma count_nonneg u m : 0 <= count u m.
Proof.
  unfold count. pose proof (msum_nonneg (opener u) (entries m) ltac:(intros; apply opener_range)).
  pose proof (msum_nonneg (holder u) (creations m) ltac:(intros; apply holder_range)). lia.
Qed.

(** An open entry that uses [u] is counted. *)
Lemma count_opener u m id e : entries m !! id = Some e -> opener u e <= count u m.
Proof.
  intros He. unfold count. pose proof (msum_le_lookup (opener u) (entries m) id e ltac:(intros; apply opener_range) He).
  pose proof (msum_nonneg (holder u) (creations m) ltac:(intros; apply holder_range)). lia.
Qed.
Lemma count_holder u m id c : creations m !! id = Some c -> holder u c <= count u m.
Proof.
  intros Hc. unfold count. pose proof (msum_le_lookup (holder u) (creations m) id c ltac:(intros; apply holder_range) Hc).
  pose proof (msum_nonneg (opener u) (entries m) ltac:(intros; apply opener_range)). lia.
Qed.

(** An open resource of a running manager is not cancelled: neither is any of its carriers. *)
Lemma open_not_cancelled m fuel id e :
  Inv true m -> root_closed m = false -> entries m !! id = Some e -> is_open (lifetime e) = true -> cancelled_in fuel m id = false.
Proof.
  intros Hi Hroot. revert id e. induction fuel as [|fuel IH]; intros id e He Ho; cbn [cancelled_in]; [done|].
  destruct (v_entry _ _ Hi _ _ He). destruct (e_scope0 Ho) as (p & -> & Hp). cbn [orb]. destruct p as [p|]; [|done].
  destruct (e_carrier0 p eq_refl Ho) as (eu & c & Hu & Huo & _); [by rewrite <- Hp|]. by eapply IH.
Qed.

Lemma msum_zero {K A} `{Countable K} (f : A -> Z) (m : gmap K A) : (forall i x, m !! i = Some x -> f x = 0) -> msum f m = 0.
Proof.
  intros Hm. rewrite (msum_ext f m (fmap (M := gmap K) (fun x => x) m)) by (intros i; by rewrite lookup_fmap, option_fmap_id).
  induction m as [|i x m Hi IH] using map_ind; [by rewrite fmap_empty, msum_empty|].
  rewrite fmap_insert, msum_insert by (by rewrite lookup_fmap, Hi). rewrite (Hm i x) by apply lookup_insert_eq.
  rewrite IH; [done|]. intros j y Hj. apply (Hm j). rewrite lookup_insert_ne; [done|]. intros ->. congruence.
Qed.

(** Nothing counts for a number that is not registered, or for a resource nobody uses. *)
Lemma count_zero m u :
  (forall id e, entries m !! id = Some e -> is_open (lifetime e) = true -> uses e <> Some u) ->
  (forall id c, creations m !! id = Some c -> reservation c <> Some u) -> count u m = 0.
Proof.
  intros He Hc. unfold count. rewrite (msum_zero (opener u)), (msum_zero (holder u)); [done| |].
  - intros i c Hi. unfold holder. rewrite bool_decide_eq_false_2; [done|]. by eapply Hc.
  - intros i e Hi. unfold opener. destruct (is_open (lifetime e)) eqn:Ho; [|done]. rewrite bool_decide_eq_false_2; [done|]. by eapply He.
Qed.

Lemma count_absent m u : Inv true m -> accepting m = true -> entries m !! u = None -> count u m = 0.
Proof.
  intros Hi Ha Hu. apply count_zero.
  - intros id e He Ho Hus. destruct (v_entry _ _ Hi _ _ He). destruct (e_carrier0 u eq_refl Ho Hus) as (eu & c & Heu & _). congruence.
  - intros id c Hc Hr. destruct (v_creation _ _ Hi _ _ Hc). destruct (c_carrier0 u Ha Hr) as (eu & cc & Heu & _). congruence.
Qed.

Lemma count_unused m u : count u m = 0 ->
  (forall id e, entries m !! id = Some e -> is_open (lifetime e) = true -> uses e <> Some u) /\
  (forall id c, creations m !! id = Some c -> reservation c <> Some u).
Proof.
  intros Hz. split.
  - intros id e He Ho Hu. pose proof (count_opener u m id e He) as Hc. unfold opener in Hc. rewrite Ho, bool_decide_eq_true_2 in Hc by done. cbn in Hc. lia.
  - intros id c Hc Hr. pose proof (count_holder u m id c Hc) as Hh. unfold holder in Hh. rewrite bool_decide_eq_true_2 in Hh by done. lia.
Qed.

(** *** Changes of use counts *)

(** What an entry is, apart from how many use it. *)
Definition core (e : Entry) := (tier e, live e, lifetime e, uses e).

Lemma core_inj a b : core a = core b -> tier a = tier b /\ live a = live b /\ lifetime a = lifetime b /\ uses a = uses b.
Proof. by intros [=]. Qed.

Definition same_core (m m' : Manager) : Prop := forall i, core <$> entries m' !! i = core <$> entries m !! i.

Lemma same_core_lookup m m' i e' : same_core m m' -> entries m' !! i = Some e' -> exists e, entries m !! i = Some e /\ core e' = core e.
Proof.
  intros Hs He. specialize (Hs i). rewrite He in Hs. destruct (entries m !! i) as [e|]; [|done]. injection Hs as ? ? ? ?.
  exists e. split; [done|]. unfold core. congruence.
Qed.

Lemma same_core_none m m' i : same_core m m' -> entries m' !! i = None <-> entries m !! i = None.
Proof. intros Hs. specialize (Hs i). destruct (entries m' !! i), (entries m !! i); naive_solver. Qed.

Lemma same_core_opener m m' u : same_core m m' -> msum (opener u) (entries m') = msum (opener u) (entries m).
Proof.
  intros Hs. apply msum_ext. intros i. specialize (Hs i). destruct (entries m' !! i), (entries m !! i); cbn in *; try done.
  injection Hs as ? ? Hl Hu. unfold opener. by rewrite Hl, Hu.
Qed.

Lemma same_core_sym m m' : same_core m m' -> same_core m' m.
Proof. intros Hs i. by rewrite Hs. Qed.

Lemma same_core_carries m m' u : same_core m m' -> carries m u -> carries m' u.
Proof.
  intros Hs (e & c & He & Ho & Hl). destruct (same_core_lookup m' m u e (same_core_sym _ _ Hs) He) as (e' & He' & Hc).
  injection Hc as ? Hlv Hlt ?. exists e', c. split_and!; [done|congruence..].
Qed.

Lemma inv_adjust st m m' :
  Inv st m -> same_core m m' -> stages m' = stages m -> (forall i, is_Some (entries m !! i) -> scopes m' !! i = scopes m !! i) ->
  next m <= next m' ->
  (forall i e, entries m' !! i = Some e -> users e = count i m') ->
  (forall i c, creations m' !! i = Some c -> creation_ok m' i c /\ 0 < i <= next m') ->
  Inv st m'.
Proof.
  intros [] Hs Hst Hsc Hn Hu Hc. constructor; [lia| | |by intros i c Hi; apply Hc].
  - intros i [Hi|[c Hi]]; [|by apply (Hc i c)]. destruct Hi as [e He]. destruct (same_core_lookup _ _ _ _ Hs He) as (e0 & He0 & _).
    specialize (v_ids0 i (or_introl (ex_intro _ e0 He0))). lia.
  - intros i e He. destruct (same_core_lookup _ _ _ _ Hs He) as (e0 & He0 & Hcore). injection Hcore as Ht Hl Hlt Hus.
    destruct (v_entry0 i e0 He0). constructor.
    + by apply Hu.
    + intros u Hstr. rewrite Hlt, Hus. intros Ho Hue. eapply same_core_carries; eauto.
    + by rewrite Hus, Ht.
    + by rewrite Hl, Ht.
    + by rewrite Hus.
    + by rewrite Hst, Hlt, Hl.
    + rewrite Hlt, Hus. by rewrite (Hsc i (ex_intro _ e0 He0)).
Qed.

Lemma same_core_alter m f u : (forall e, core (f e) = core e) -> same_core m (set_entries (alter f u (entries m)) m).
Proof.
  intros Hf i. cbn. destruct (decide (i = u)) as [->|]; [|by rewrite lookup_alter_ne]. rewrite lookup_alter_eq.
  destruct (entries m !! u); cbn; [|done]. by rewrite Hf.
Qed.

Lemma same_core_drop r m : same_core m (drop_reservation r m).
Proof. destruct r; [apply same_core_alter; done|by intros i]. Qed.

(** A released use. *)
Lemma drop_reservation_users r m i e :
  entries (drop_reservation r m) !! i = Some e ->
  exists e0, entries m !! i = Some e0 /\ users e = if bool_decide (r = Some i) then sat_sub (users e0) 1 else users e0.
Proof.
  destruct r as [u|]; cbn; [|intros He; by exists e]. destruct (decide (i = u)) as [->|].
  - rewrite lookup_alter_eq. destruct (entries m !! u) as [e0|]; [|done]. intros [= <-]. exists e0. by rewrite bool_decide_eq_true_2.
  - rewrite lookup_alter_ne by done. intros He. exists e. rewrite bool_decide_eq_false_2; [done|]. intros [= ->]. done.
Qed.

Lemma creation_ok_same st m m' i c :
  Inv st m -> creation_ok m i c -> same_core m m' -> (accepting m' = true -> accepting m = true) -> scopes m' !! i = scopes m !! i -> creation_ok m' i c.
Proof.
  intros Hi [] Hs Ha Hsc. constructor; try done.
  - by apply (same_core_none _ _ _ Hs).
  - intros u Hacc Hr. eapply same_core_carries; eauto.
  - intros n Hb. rewrite Hsc. by apply c_built0.
Qed.

Lemma abandon_inv st m id c :
  Inv st m -> creations m !! id = Some c -> Inv st (abandon id c m).
Proof.
  intros Hi Hc. unfold abandon. set (m1 := set_creations (delete id (creations m)) m).
  assert (Hs : same_core m (drop_reservation (reservation c) m1)) by exact (same_core_drop (reservation c) m1).
  assert (Hsame : forall x, creations (drop_reservation (reservation c) m1) !! x = delete id (creations m) !! x) by (intros x; by destruct (reservation c)).
  eapply inv_adjust; [exact Hi|exact Hs|by destruct (reservation c)|by destruct (reservation c)|by destruct (reservation c)| |].
  - intros i e He. destruct (drop_reservation_users _ _ _ _ He) as (e0 & He0 & ->). destruct (v_entry _ _ Hi _ _ He0).
    assert (Hcount : count i (drop_reservation (reservation c) m1) = count i m - holder i c).
    { unfold count. rewrite (same_core_opener _ _ i Hs). assert (creations (drop_reservation (reservation c) m1) = delete id (creations m)) as -> by (by destruct (reservation c)).
      rewrite (msum_delete _ _ _ _ Hc). lia. }
    rewrite Hcount, e_users0. pose proof (count_holder i m id c Hc). unfold holder in *. destruct (bool_decide _); unfold sat_sub; lia.
  - intros i ci Hci. rewrite Hsame in Hci. apply lookup_delete_Some in Hci as [Hne Hci]. split.
    + eapply creation_ok_same; [exact Hi|by apply (v_creation _ _ Hi)|exact Hs|by destruct (reservation c)|by destruct (reservation c)].
    + assert (next (drop_reservation (reservation c) m1) = next m) as -> by (by destruct (reservation c)). apply (v_ids _ _ Hi). by right.
Qed.

Lemma create_start_inv c m : Inv true m -> next m < u64_max -> Inv true (fst (create_start c m)).
Proof.
  intros Hi Hlt. unfold create_start. destruct (negb _); [done|]. destruct (Z.ltb_spec u64_max (next m + 1)); [lia|]. cbn [fst].
  pose proof (v_next _ _ Hi). assert (Hnone : creations m !! (next m + 1) = None /\ entries m !! (next m + 1) = None).
  { split; apply eq_None_not_Some; intros Hx; [pose proof (v_ids _ _ Hi _ (or_intror Hx))|pose proof (v_ids _ _ Hi _ (or_introl Hx))]; lia. }
  destruct Hnone as [Hc0 He0]. set (m' := set_creations _ _). assert (Hs : same_core m m') by (by intros i).
  eapply (inv_adjust true m m'); [done..|cbn; lia| |].
  - intros i e He. destruct (v_entry _ _ Hi i e He). rewrite e_users0. unfold count. cbn [entries creations m' set_creations set_next].
    rewrite msum_insert by done. change (holder i (mkCreation c None None)) with 0. lia.
  - intros i ci Hci. cbn in Hci. destruct (decide (i = next m + 1)) as [->|Hne].
    + rewrite lookup_insert_eq in Hci. injection Hci as <-. split; [by constructor|cbn; lia].
    + rewrite lookup_insert_ne in Hci by done. split.
      * eapply creation_ok_same; [exact Hi|by apply (v_creation _ _ Hi)|done..].
      * pose proof (v_ids _ _ Hi i (or_intror (ex_intro _ ci Hci))). cbn. lia.
Qed.

(** What a successful reservation found, and what it did. *)
Lemma reserve_spec m u kind m1 :
  reserve m u kind = (m1, Ok tt) ->
  exists e c, entries m !! u = Some e /\ is_open (lifetime e) = true /\ live e = Some (c, kind) /\
    m1 = set_entries (<[u := set_users (users e + 1) e]> (entries m)) m.
Proof.
  unfold reserve. destruct (entries m !! u) as [e|] eqn:He; [|done]. destruct (is_open (lifetime e)) eqn:Ho; [|done]. cbn [negb].
  destruct (live e) as [[c n]|] eqn:Hl; [|done]. case_bool_decide as Hn; [|done]. intros [= <-]. subst n. by exists e, c.
Qed.

Lemma reserve_err m u kind m1 e : reserve m u kind = (m1, Err e) -> m1 = m.
Proof.
  unfold reserve. destruct (entries m !! u) as [x|]; [|by intros [= <- _]]. destruct (negb _); [by intros [= <- _]|].
  destruct (live x) as [[? ?]|]; [|by intros [= <- _]]. case_bool_decide; [done|by intros [= <- _]].
Qed.

Definition optional_reserve (m : Manager) (on : option Z) : Manager * Res unit :=
  match on with Some u => reserve m u Dialer | None => (m, Ok tt) end.

Lemma optional_reserve_spec m on m1 :
  optional_reserve m on = (m1, Ok tt) ->
  same_core m m1 /\ m1 = set_entries (entries m1) m /\ (forall u, on = Some u -> carries m u) /\
  forall i e1, entries m1 !! i = Some e1 -> exists e, entries m !! i = Some e /\ users e1 = users e + if bool_decide (on = Some i) then 1 else 0.
Proof.
  destruct on as [u|]; cbn [optional_reserve].
  - intros Hr. destruct (reserve_spec _ _ _ _ Hr) as (e & c & He & Ho & Hl & ->). split_and!.
    + intros i. cbn. destruct (decide (i = u)) as [->|]; [by rewrite lookup_insert_eq, He|by rewrite lookup_insert_ne].
    + done.
    + intros ? [= <-]. by exists e, c.
    + intros i e1. cbn. destruct (decide (i = u)) as [->|].
      * rewrite lookup_insert_eq. intros [= <-]. exists e. by rewrite bool_decide_eq_true_2.
      * rewrite lookup_insert_ne by done. intros He1. exists e1. rewrite bool_decide_eq_false_2 by (by intros [= ->]). split; [done|lia].
  - intros [= <-]. split_and!; try done; [by destruct m|]. intros i e1 He1. exists e1. split; [done|]. rewrite bool_decide_eq_false_2 by done. lia.
Qed.

Lemma plan_service c kind u valid : plan c = (kind, Some u, valid) -> native_tier kind = Service.
Proof. destruct c as [? ?|[]|?|]; cbn; naive_solver. Qed.

Lemma plan_parent c kind on valid : plan c = (kind, on, valid) -> scope_parent c <> None -> scope_parent c = on.
Proof. destruct c as [? ?|[]|?|]; cbn; naive_solver. Qed.

Lemma build_inv id ok m : Inv true m -> Inv true (fst (create_build id ok m)).
Proof.
  intros Hi. unfold create_build. destruct (creations m !! id) as [[c [r|] [b|]]|] eqn:Hc; try done.
  destruct (plan c) as [[kind on] valid] eqn:Hplan. destruct (negb valid); [by apply abandon_inv|].
  change (match on with Some u => reserve m u Dialer | None => (m, Ok tt) end) with (optional_reserve m on).
  destruct (optional_reserve m on) as [m1 [[]|e]] eqn:Hres.
  2:{ assert (m1 = m) as -> by (destruct on; [by eapply reserve_err|done]). by apply abandon_inv. }
  destruct (optional_reserve_spec _ _ _ Hres) as (Hs & Hm1 & Hcar & Husers). destruct (v_creation _ _ Hi _ _ Hc).
  assert (Hself : on <> Some id).
  { intros ->. destruct (Hcar id eq_refl) as (? & ? & ? & _). cbn in *. congruence. }
  rewrite Hm1. set (es := entries m1) in *. set (m0 := set_entries es m).
  assert (Hs0 : same_core m m0) by (intros i; exact (Hs i)).
  destruct ok; cbn [fst].
  - set (m' := set_scopes _ _). assert (Hs' : same_core m m') by (intros i; exact (Hs i)).
    apply (inv_adjust true m m'); [done|done|done| |cbn; lia| |].
    + intros i Hx. cbn. rewrite lookup_insert_ne; [done|]. intros ->. cbn in *. rewrite c_fresh0 in Hx. by destruct Hx.
    + intros i e1 He1. destruct (Husers i e1 He1) as (e & He & ->). destruct (v_entry _ _ Hi i e He). rewrite e_users0.
      unfold count. rewrite (same_core_opener m m' i Hs'). cbn [creations m' set_scopes set_creations m0 set_entries].
      rewrite (msum_update (holder i) (creations m) id _ _ Hc). change (holder i (mkCreation c None None)) with 0.
      change (holder i (mkCreation c on (Some kind))) with (if bool_decide (on = Some i) then 1 else 0). lia.
    + intros i ci Hci. cbn in Hci. destruct (decide (i = id)) as [->|Hne].
      * rewrite lookup_insert_eq in Hci. injection Hci as <-. split; [|by apply (v_ids _ _ Hi); right].
        constructor; cbn; try done.
        -- by apply (same_core_none _ _ _ Hs').
        -- intros u _ Hu. eapply same_core_carries; [exact Hs'|by apply Hcar].
        -- intros n [= <-]. exists (scope_parent c). rewrite lookup_insert_eq. split_and!; [done|by eapply plan_parent|].
           destruct on; [|done]. intros _. by eapply plan_service.
      * rewrite lookup_insert_ne in Hci by done. split; [|by apply (v_ids _ _ Hi); right].
        eapply creation_ok_same; [exact Hi|by apply (v_creation _ _ Hi)|exact Hs'|done|cbn; by rewrite lookup_insert_ne].
  - set (m' := abandon _ _ _). assert (Hs' : same_core m m').
    { intros i. rewrite <- (Hs0 i). exact (same_core_drop on (set_creations (delete id (creations m)) m0) i). }
    assert (Hcr : creations m' = delete id (creations m)) by (unfold m', abandon; cbn; by destruct on).
    apply (inv_adjust true m m'); [done|done|by unfold m', abandon; cbn; destruct on|by unfold m', abandon; cbn; destruct on|by unfold m', abandon; cbn; destruct on| |].
    + intros i e1 He1. destruct (drop_reservation_users on _ _ _ He1) as (e2 & He2 & ->). destruct (Husers i e2 He2) as (e & He & Hu2).
      destruct (v_entry _ _ Hi i e He). assert (Hcount : count i m' = count i m).
      { unfold count. rewrite (same_core_opener m m' i Hs'), Hcr, (msum_delete _ _ _ _ Hc). change (holder i (mkCreation c None None)) with 0. lia. }
      rewrite Hcount, <- e_users0. pose proof (count_nonneg i m). destruct (bool_decide (on = Some i)); rewrite Hu2; unfold sat_sub; lia.
    + intros i ci Hci. rewrite Hcr in Hci. apply lookup_delete_Some in Hci as [Hne Hci]. split.
      * eapply creation_ok_same; [exact Hi|by apply (v_creation _ _ Hi)|exact Hs'|by unfold m', abandon; cbn; destruct on|by unfold m', abandon; cbn; destruct on].
      * assert (next m' = next m) as -> by (unfold m', abandon; cbn; by destruct on). apply (v_ids _ _ Hi). by right.
Qed.

(** The scope of a resource that is neither registered nor being created. *)
Lemma close_unused st id m : Inv st m -> entries m !! id = None -> creations m !! id = None -> Inv st (close_scope id m).
Proof.
  intros Hi He Hc. apply (inv_adjust st m (close_scope id m)); try done.
  - intros i Hx. cbn. rewrite lookup_alter_ne; [done|]. intros ->. rewrite He in Hx. by destruct Hx.
  - intros i e Hie. apply (v_entry _ _ Hi _ _ Hie).
  - intros i ci Hci. split; [|by apply (v_ids _ _ Hi); right]. eapply creation_ok_same; [exact Hi|by apply (v_creation _ _ Hi)|done|done|].
    cbn. rewrite lookup_alter_ne; [done|]. intros ->. cbn in Hci. congruence.
Qed.

Lemma carries_insert m m' id e u : entries m !! id = None -> entries m' = <[id := e]> (entries m) -> carries m u -> carries m' u.
Proof.
  intros Hid Hm' (eu & c & Hu & Ho & Hl). exists eu, c. rewrite Hm', lookup_insert_ne; [done|]. intros ->. congruence.
Qed.

Lemma commit_inv id m : Inv true m -> Inv true (fst (create_commit id m)).
Proof.
  intros Hi. unfold create_commit. destruct (creations m !! id) as [[c r [n|]]|] eqn:Hc; try done.
  destruct (v_creation _ _ Hi _ _ Hc). destruct (accepting m) eqn:Hacc; cbn [negb fst].
  2:{ assert (abandon id (mkCreation c r (Some n)) (close_scope id m) = close_scope id (abandon id (mkCreation c r (Some n)) m)) as -> by (by destruct r).
    apply close_unused; [by apply abandon_inv| |unfold abandon; cbn; destruct r; cbn; apply lookup_delete_eq].
    apply (same_core_none m); [exact (same_core_drop r (set_creations (delete id (creations m)) m))|done]. }
  set (e := mkEntry _ _ _ _ _). set (m' := set_stages _ _). cbn in c_fresh0, c_carrier0, c_built0, c_self0.
  assert (Hcount : forall u, count u m' = count u m).
  { intros u. unfold count. cbn [entries creations m' set_stages set_creations set_entries].
    rewrite msum_insert, (msum_delete _ _ _ _ Hc) by done. change (holder u (mkCreation c r (Some n))) with (opener u e). lia. }
  destruct (c_built0 n eq_refl) as (p & Hp & Hpu & Htier). destruct Hi. constructor; [done| | |].
  - intros i [Hx|Hx]; cbn in Hx.
    + destruct (decide (i = id)) as [->|]; [apply v_ids0; right; by eexists|]. rewrite lookup_insert_ne in Hx by done. apply v_ids0. by left.
    + apply v_ids0. right. destruct Hx as [ci Hx]. apply lookup_delete_Some in Hx as [_ Hx]. by eexists.
  - intros i ei Hei. cbn in Hei. destruct (decide (i = id)) as [->|Hne].
    + rewrite lookup_insert_eq in Hei. injection Hei as <-. constructor; cbn.
      * rewrite Hcount. symmetry. apply count_absent; [by constructor|done..].
      * intros u _ _ Hu. eapply carries_insert; [done|done|]. by apply c_carrier0.
      * exact Htier.
      * by intros ? ? [= _ ->].
      * done.
      * exists Watching. by rewrite lookup_insert_eq.
      * intros _. by exists p.
    + rewrite lookup_insert_ne in Hei by done. destruct (v_entry0 i ei Hei). constructor; try done.
      * by rewrite Hcount.
      * intros u Hs Ho Hu. eapply carries_insert; eauto.
      * cbn. by rewrite lookup_insert_ne.
  - intros i ci Hci. cbn in Hci. apply lookup_delete_Some in Hci as [Hne Hci]. destruct (v_creation0 i ci Hci). constructor; try done.
    + cbn. by rewrite lookup_insert_ne.
    + intros u Ha Hr. eapply (carries_insert m m' id e); [done..|]. by apply c_carrier1.
Qed.

Lemma ended_closed ending l : is_open (ended ending l) = false.
Proof. unfold ended. destruct (is_open l) eqn:Ho; destruct ending; cbn; try done. Qed.

Lemma updated_lookup m id e e' i ex (x : Entry) :
  entries m !! id = Some e -> <[id := e']> (entries m) !! i = Some ex -> core x = core ex ->
  exists ei, entries m !! i = Some ei /\ core x = core (if decide (i = id) then e' else ei).
Proof.
  intros He Hex Hx. destruct (decide (i = id)) as [->|Hne].
  - rewrite lookup_insert_eq in Hex. injection Hex as <-. by exists e.
  - rewrite lookup_insert_ne in Hex by done. by exists ex.
Qed.

(** What ending a resource leaves of an entry. *)
Lemma end_lookup id ending m i e' :
  entries (end_resource id ending m) !! i = Some e' ->
  exists e, entries m !! i = Some e /\ tier e' = tier e /\ (is_open (lifetime e') = true -> is_open (lifetime e) = true /\ i <> id).
Proof.
  unfold end_resource. destruct (entries m !! id) as [e|] eqn:He; cbn zeta; [|intros He'; exists e'; split_and!; [done..|]; intros; split; [done|congruence]].
  set (m1 := set_entries _ m). intros Hx.
  assert (exists ex, entries m1 !! i = Some ex /\ core e' = core ex) as (ex & Hex & Hc).
  { destruct (is_open (lifetime e)); [by eapply same_core_lookup; [apply same_core_drop|]|by exists e']. }
  destruct (updated_lookup _ _ _ _ _ _ e' He Hex Hc) as (ei & Hei & Hcore). destruct (core_inj _ _ Hcore) as (Ht & _ & Hl & _).
  exists ei. split; [done|]. rewrite Hl, Ht. destruct (decide (i = id)) as [->|]; [|done]. assert (ei = e) as -> by congruence.
  split; [done|]. cbn [lifetime set_lifetime]. by rewrite ended_closed.
Qed.

(** A resource nobody uses stops admitting work; the one it was created on loses a user. *)
Lemma end_inv st id ending m :
  Inv st m ->
  (st = true -> forall i e, entries m !! i = Some e -> is_open (lifetime e) = true -> uses e <> Some id) ->
  (accepting m = true -> forall i c, creations m !! i = Some c -> reservation c <> Some id) ->
  Inv st (end_resource id ending m).
Proof.
  intros Hi Hstrict Hacc. unfold end_resource. destruct (entries m !! id) as [e|] eqn:He; [|done]. cbn zeta.
  set (e' := set_lifetime (ended ending (lifetime e)) e). set (m1 := set_entries (<[id := e']> (entries m)) m).
  destruct (v_entry _ _ Hi _ _ He).
  assert (Hclosed : is_open (lifetime e') = false) by apply ended_closed.
  set (m' := if is_open (lifetime e) then drop_reservation (uses e) m1 else m1).
  assert (Hs : same_core m1 m') by (unfold m'; destruct (is_open (lifetime e)); [apply same_core_drop|by intros i]).
  assert (Hcr : creations m' = creations m) by (unfold m'; destruct (is_open (lifetime e)), (uses e); done).
  assert (Hrest : next m' = next m /\ stages m' = stages m /\ scopes m' = scopes m /\ accepting m' = accepting m)
    by (unfold m'; destruct (is_open (lifetime e)), (uses e); done).
  destruct Hrest as (Hnx & Hst & Hsc & Hac).
  assert (Hcount : forall u, count u m' = count u m - opener u e).
  { intros u. unfold count. rewrite (same_core_opener _ _ u Hs), Hcr. cbn [entries m1 set_entries].
    rewrite (msum_update (opener u) (entries m) id e e' He). assert (opener u e' = 0) as -> by (unfold opener; by rewrite Hclosed). lia. }
  assert (Hlook : forall i ei', entries m' !! i = Some ei' -> exists ei, entries m !! i = Some ei /\ core ei' = core (if decide (i = id) then e' else ei)).
  { intros i ei' Hei. destruct (same_core_lookup _ _ _ _ Hs Hei) as (ex & Hex & Hcore). by eapply updated_lookup. }
  assert (Hcar : forall u, u <> id -> carries m u -> carries m' u).
  { intros u Hu (eu & c & Heu & Ho & Hl). eapply same_core_carries; [exact Hs|]. exists eu, c. split_and!; try done. cbn. by rewrite lookup_insert_ne. }
  assert (Husers : forall i ei', entries m' !! i = Some ei' -> users ei' = count i m').
  { intros i ei' Hei. assert (Hex : exists ex, entries m1 !! i = Some ex /\ users ei' = if is_open (lifetime e) && bool_decide (uses e = Some i) then sat_sub (users ex) 1 else users ex).
    { unfold m' in Hei. destruct (is_open (lifetime e)); [by apply drop_reservation_users|by exists ei']. }
    destruct Hex as (ex & Hex & ->). assert (Hux : users ex = count i m).
    { cbn in Hex. destruct (decide (i = id)) as [->|Hne].
      - rewrite lookup_insert_eq in Hex. injection Hex as <-. done.
      - rewrite lookup_insert_ne in Hex by done. apply (v_entry _ _ Hi _ _ Hex). }
    rewrite Hcount, Hux. pose proof (count_opener i m id e He). unfold opener in *. destruct (_ && _); unfold sat_sub; lia. }
  constructor.
  - rewrite Hnx. apply (v_next _ _ Hi).
  - intros i Hx. rewrite Hnx, Hcr in *. apply (v_ids _ _ Hi). destruct Hx as [[ei Hei]|Hx]; [|by right].
    destruct (Hlook i ei Hei) as (e0 & He0 & _). left. by eexists.
  - intros i ei Hei. destruct (Hlook i ei Hei) as (e0 & He0 & Hcore). destruct (v_entry _ _ Hi _ _ He0).
    destruct (decide (i = id)) as [->|Hne]; destruct (core_inj _ _ Hcore) as (Ht & Hl & Hlt & Hus).
    + assert (e0 = e) as -> by congruence. constructor.
      * by apply Husers.
      * intros u _ Ho. rewrite Hlt, Hclosed in Ho. done.
      * by rewrite Hus, Ht.
      * by rewrite Hl, Ht.
      * by rewrite Hus.
      * rewrite Hst, Hlt, Hl, Hclosed. destruct e_stage0 as (sg & ? & _ & ?). by exists sg.
      * by rewrite Hlt, Hclosed.
    + constructor.
      * by apply Husers.
      * intros u Hs1. rewrite Hlt, Hus. intros Ho Hu. apply Hcar; [|by eapply e_carrier1]. intros ->. by apply (Hstrict Hs1 i e0).
      * by rewrite Hus, Ht.
      * by rewrite Hl, Ht.
      * by rewrite Hus.
      * by rewrite Hst, Hlt, Hl.
      * rewrite Hlt, Hus, Hsc. done.
  - intros i ci Hci. rewrite Hcr in Hci. destruct (v_creation _ _ Hi _ _ Hci). constructor; try done.
    + apply (same_core_none _ _ _ Hs). cbn. rewrite lookup_insert_ne; [done|]. intros ->. congruence.
    + rewrite Hac. intros u Ha Hr. apply Hcar; [|by apply c_carrier0]. intros ->. by apply (Hacc Ha i ci).
    + rewrite Hsc. done.
Qed.

Lemma terminate_inv id ending m : Inv true m -> Inv true (fst (terminate id ending m)).
Proof.
  intros Hi. unfold terminate. destruct (entries m !! id) as [e|] eqn:He; [|done]. destruct (users e =? 0) eqn:Hu; cbn [negb fst]; [|done].
  assert (Hz : count id m = 0) by (destruct (v_entry _ _ Hi _ _ He); lia). apply count_unused in Hz as [Ho Hr].
  apply end_inv; [done|intros _; exact Ho|intros _; exact Hr].
Qed.

(** A tier is drained one entry at a time; its users go first, or go with it. *)
Lemma drain_each st ids m :
  Inv st m -> accepting m = false ->
  (st = true -> forall i e, i ∈ ids -> entries m !! i = Some e -> tier e = EntryPoint) ->
  let m' := foldr (fun id m => end_resource id (Drain None) m) m ids in
  Inv st m' /\ accepting m' = false /\
  forall i e', entries m' !! i = Some e' ->
    exists e, entries m !! i = Some e /\ tier e' = tier e /\ (is_open (lifetime e') = true -> is_open (lifetime e) = true /\ i ∉ ids).
Proof.
  intros Hi Ha Ht. induction ids as [|id ids IH]; cbn [foldr].
  - split_and!; [done..|]. intros i e' He'. exists e'. split_and!; [done..|]. intros; split; [done|set_solver].
  - destruct IH as (Hi' & Ha' & Hl); [intros Hs i e Hin; apply (Ht Hs); set_solver|]. set (m1 := foldr _ _ _) in *. split_and!.
    + apply end_inv; [done| |by rewrite Ha']. intros Hs i e He Ho Hu. subst st. destruct (v_entry _ _ Hi' _ _ He).
      destruct (e_carrier0 id eq_refl Ho Hu) as (eu & c & Heu & _ & Hlive). destruct (Hl _ _ Heu) as (e0 & He0 & Hte & _).
      pose proof (e_kind _ _ _ _ (v_entry _ _ Hi' _ _ Heu) _ _ Hlive) as Hk. rewrite Hte, (Ht eq_refl id e0) in Hk; [done|set_solver|done].
    + unfold end_resource. destruct (entries m1 !! id) as [e|]; [|done]. cbn zeta. by destruct (is_open _), (uses e).
    + intros i e' He'. destruct (end_lookup _ _ _ _ _ He') as (e1 & He1 & Ht1 & Ho1). destruct (Hl _ _ He1) as (e & He & Hte & Ho).
      exists e. split_and!; [done|congruence|]. intros Hop. destruct (Ho1 Hop) as [Hop1 Hne]. destruct (Ho Hop1). split; [done|set_solver].
Qed.

Lemma tier_ids_spec t m i : i ∈ tier_ids t m <-> exists e, entries m !! i = Some e /\ tier e = t /\ is_open (lifetime e) = true.
Proof.
  unfold tier_ids. rewrite list_elem_of_fmap. split.
  - intros ([j e] & -> & Hin). apply list_elem_of_filter in Hin as [[Ht Ho] Hin]. apply elem_of_map_to_list in Hin. by exists e.
  - intros (e & He & Ht & Ho). exists (i, e). split; [done|]. apply list_elem_of_filter. split; [done|]. by apply elem_of_map_to_list.
Qed.

Lemma inv_weaken m : Inv true m -> Inv false m.
Proof. intros []. constructor; try done. intros i e He. destruct (v_entry0 i e He). by constructor. Qed.

Lemma inv_accepting st m : Inv st m -> Inv st (set_accepting false m).
Proof.
  intros Hi. apply (inv_adjust st m); try done.
  - intros i e He. by apply (v_entry _ _ Hi).
  - intros i c Hc. split; [|by apply (v_ids _ _ Hi); right]. eapply creation_ok_same; [exact Hi|by apply (v_creation _ _ Hi)|done..].
Qed.

Lemma drain_tier_inv t m : Inv true m -> Inv true (drain_tier t m).
Proof.
  intros Hi. apply inv_accepting in Hi. unfold drain_tier. set (m0 := set_accepting false m) in *. destruct t.
  - destruct (drain_each true (tier_ids EntryPoint m0) m0 Hi eq_refl) as (Hi' & _); [|done].
    intros _ i e Hin He. apply tier_ids_spec in Hin as (e0 & He0 & Ht & _). congruence.
  - destruct (drain_each false (tier_ids Service m0) m0 (inv_weaken _ Hi) eq_refl ltac:(done)) as ([] & _ & Hl). constructor; try done.
    intros i e He. destruct (v_entry0 i e He). constructor; try done. intros u _ Ho Hu. destruct (Hl i e He) as (e0 & He0 & Ht & Hop).
    destruct (Hop Ho) as [Ho0 Hni]. destruct Hni. apply tier_ids_spec. exists e0. split_and!; [done| |done]. rewrite <- Ht. apply e_tier0. by rewrite Hu.
Qed.

(** A supervisor only touches a resource that stopped admitting work. *)
Lemma closed_change m m' id e o :
  Inv true m -> entries m !! id = Some e -> is_open (lifetime e) = false ->
  next m' = next m -> accepting m' = accepting m -> creations m' = creations m -> entries m' = partial_alter (fun _ => o) id (entries m) ->
  (forall i, i <> id -> stages m' !! i = stages m !! i /\ scopes m' !! i = scopes m !! i) ->
  (forall e', o = Some e' -> exists l st, e' = set_live l e /\ stages m' !! id = Some st /\ (st <> Dropping -> l <> None) /\ (l = None \/ l = live e)) ->
  Inv true m'.
Proof.
  intros Hi He Hcl Hn Ha Hc Hent Hoth Hself. destruct (v_entry _ _ Hi _ _ He).
  assert (Hcount : forall u, count u m' = count u m).
  { intros u. unfold count. rewrite Hent, Hc. assert (Hz : opener u e = 0) by (unfold opener; by rewrite Hcl). destruct o as [e'|].
    - change (partial_alter _ id (entries m)) with (<[id := e']> (entries m)). rewrite (msum_update _ _ _ _ _ He).
      destruct (Hself e' eq_refl) as (l & st & -> & _). change (opener u (set_live l e)) with (opener u e). lia.
    - change (partial_alter _ id (entries m)) with (delete id (entries m)). rewrite (msum_delete _ _ _ _ He). lia. }
  assert (Hne : forall i, i <> id -> entries m' !! i = entries m !! i) by (intros i ?; rewrite Hent; by apply lookup_partial_alter_ne).
  assert (Hcar : forall u, carries m u -> carries m' u).
  { intros u (eu & c & Heu & Ho & Hl). exists eu, c. rewrite Hne; [done|]. intros ->. congruence. }
  destruct Hi. constructor; [by rewrite Hn| | |].
  - intros i Hx. rewrite Hn, Hc in *. apply v_ids0. destruct (decide (i = id)) as [->|]; [left; by eexists|]. by rewrite Hne in Hx.
  - intros i ei Hei. destruct (decide (i = id)) as [->|Hd].
    + rewrite Hent, lookup_partial_alter_eq in Hei. destruct (Hself ei Hei) as (l & st & -> & Hst & Hlv & Hl).
      constructor; cbn; rewrite ?Hcl, ?Hcount; try done.
      * intros c n ->. destruct Hl as [|Hl]; [done|]. by eapply e_kind0.
      * by exists st.
    + rewrite Hne in Hei by done. destruct (v_entry0 i ei Hei), (Hoth i Hd) as [Hs1 Hs2]. constructor; rewrite ?Hcount, ?Hs1, ?Hs2; try done. eauto.
  - intros i ci Hci. rewrite Hc in Hci. destruct (v_creation0 i ci Hci).
    assert (Hd : i <> id) by (intros ->; congruence). destruct (Hoth i Hd) as [_ Hs2].
    constructor; rewrite ?Hne, ?Ha, ?Hs2; eauto.
Qed.

Lemma supervise_inv id now idle m : Inv true m -> root_closed m = false -> Inv true (supervise id now idle m).
Proof.
  intros Hi Hroot. unfold supervise. destruct (stages m !! id) as [[]|] eqn:Hst; [..|done];
    (destruct (entries m !! id) as [e|] eqn:He; [|done]); destruct (v_entry _ _ Hi _ _ He) as [_ _ _ _ _ (st & Hst' & Hopen & Hlive) _];
    rewrite Hst in Hst'; injection Hst' as <-.
  - assert (Hcl : admission (lifetime e) || cancelled m id = true -> is_open (lifetime e) = false).
    { intros Hx. destruct (is_open (lifetime e)) eqn:Ho; [|done]. unfold cancelled in Hx.
      rewrite (open_not_cancelled m _ id e Hi Hroot He Ho) in Hx. unfold is_open in Ho. by destruct (admission _). }
    destruct (_ || _); [|done]. apply (closed_change m _ id e (Some e) Hi He); try done; [by apply Hcl|symmetry; exact (insert_id _ _ _ He)| |].
    + intros i Hne. cbn. by rewrite lookup_insert_ne.
    + intros e' [= <-]. exists (live e), Draining. cbn. rewrite lookup_insert_eq. split_and!; [by destruct e|done|by intros _; apply Hlive|by right].
  - assert (is_open (lifetime e) = false) by (destruct (is_open _); [by specialize (Hopen eq_refl)|done]).
    destruct (_ || idle); [|done]. apply (closed_change m _ id e (Some e) Hi He); try done; [symmetry; exact (insert_id _ _ _ He)| |].
    + intros i Hne. cbn. by rewrite lookup_insert_ne, lookup_alter_ne.
    + intros e' [= <-]. exists (live e), Closing. cbn. rewrite lookup_insert_eq. split_and!; [by destruct e|done|by intros _; apply Hlive|by right].
  - assert (is_open (lifetime e) = false) by (destruct (is_open _); [by specialize (Hopen eq_refl)|done]).
    apply (closed_change m _ id e (Some (set_live None e)) Hi He); try done.
    + intros i Hne. cbn. by rewrite lookup_insert_ne.
    + intros e' [= <-]. exists None, Dropping. cbn. rewrite lookup_insert_eq. split_and!; [done|done|by intros Hx; destruct Hx|by left].
  - assert (is_open (lifetime e) = false) by (destruct (is_open _); [by specialize (Hopen eq_refl)|done]).
    apply (closed_change m _ id e None Hi He); try done. intros i Hne. cbn. by rewrite lookup_delete_ne.
Qed.

Lemma cancel_inv id m : Inv true m -> Inv true (create_cancel id m).
Proof. intros Hi. unfold create_cancel. destruct (creations m !! id) eqn:Hc; [by apply abandon_inv|done]. Qed.

(** *** Reachable states *)

(** What only a creation's start and an abort change. *)
Definition kept (m : Manager) : bool * Z := (root_closed m, next m).

Lemma drop_kept r m : kept (drop_reservation r m) = kept m.
Proof. by destruct r. Qed.

Lemma end_kept id ending m : kept (end_resource id ending m) = kept m.
Proof. unfold end_resource. destruct (entries m !! id) as [e|]; [|done]. cbn zeta. destruct (is_open _); [by rewrite drop_kept|done]. Qed.

Lemma build_kept id ok m : kept (fst (create_build id ok m)) = kept m.
Proof.
  unfold create_build. destruct (creations m !! id) as [[c [r|] [b|]]|]; try done. destruct (plan c) as [[kind on] valid].
  destruct valid; cbn [negb fst]; [|done].
  assert (Hres : kept (fst (optional_reserve m on)) = kept m) by (unfold optional_reserve, reserve; by repeat case_match).
  change (match on with Some u => reserve m u Dialer | None => (m, Ok tt) end) with (optional_reserve m on).
  destruct (optional_reserve m on) as [m1 [[]|?]]; cbn [fst] in *; [|done]. destruct ok; [done|]. cbn [fst]. unfold abandon. by rewrite drop_kept.
Qed.

Lemma step_kept m e : match e with Start _ | AbortAll => True | _ => kept (step m e) = kept m end.
Proof.
  destruct e as [c|id ok|id|id|id ending|t| |id now idle|code]; cbn [step]; try done.
  - apply build_kept.
  - unfold create_commit. destruct (creations m !! id) as [[c r [n|]]|]; try done. destruct (negb _); [|done]. cbn [fst]. unfold abandon. by rewrite drop_kept.
  - unfold create_cancel. destruct (creations m !! id); [|done]. unfold abandon. by rewrite drop_kept.
  - unfold terminate. destruct (entries m !! id); [|done]. destruct (negb _); [done|apply end_kept].
  - unfold drain_tier. cbn zeta. generalize (tier_ids t (set_accepting false m)). intros ids.
    induction ids as [|i ids IH]; cbn [foldr]; [done|]. by rewrite end_kept.
  - unfold supervise. by repeat case_match.
Qed.

Lemma step_root m e : root_closed (step m e) = false -> root_closed m = false.
Proof.
  intros Hr. pose proof (step_kept m e) as Hk. destruct e; try (rewrite <- Hr; by assert (root_closed m = _) as -> by exact (f_equal fst (eq_sym Hk))); [|done].
  cbn [step] in Hr. unfold create_start in Hr. destruct (negb _); [done|]. by destruct (u64_max <? _).
Qed.

(** A step takes one number at most. *)
Lemma step_next m e : 0 <= next m -> next (step m e) <= next m + 1.
Proof.
  intros Hn. pose proof (step_kept m e) as Hk. destruct e; try (assert (next _ = next m) as -> by exact (f_equal snd Hk); lia); [|cbn; lia].
  cbn [step]. unfold create_start. destruct (negb _); cbn; [lia|]. destruct (u64_max <? _); cbn; [|lia]. apply Z.mod_le; lia.
Qed.

Lemma manager_step_inv m e : Inv true m -> next m < u64_max -> root_closed (step m e) = false -> Inv true (step m e).
Proof.
  intros Hi Hlt Hr. pose proof (step_root m e Hr). destruct e; cbn [step] in *.
  - by apply create_start_inv.
  - by apply build_inv.
  - by apply commit_inv.
  - by apply cancel_inv.
  - by apply terminate_inv.
  - by apply drain_tier_inv.
  - done.
  - by apply supervise_inv.
  - destruct Hi. constructor; try done.
    + intros i e He. destruct (v_entry0 i e He). by constructor.
    + intros i c Hc. destruct (v_creation0 i c Hc). by constructor.
Qed.

(** Fewer steps than there are numbers. *)
Definition enough_ids (l : list event) : Prop := Z.of_nat (length l) <= u64_max.

Lemma manager_run_inv l : enough_ids l -> root_closed (run l) = false -> Inv true (run l).
Proof.
  unfold enough_ids. intros Hl Hr. cut (Inv true (run l) /\ next (run l) <= Z.of_nat (length l)); [by intros []|]. revert Hl Hr.
  unfold run. induction l as [|e l IH] using rev_ind.
  - intros _ _. split; [|done]. constructor; try done. intros ? [[? ?]|[? ?]]; done.
  - rewrite foldl_app, length_app. cbn [foldl length]. intros Hl Hr. destruct IH as [Hi Hn]; [lia|by eapply step_root|].
    pose proof (step_next (foldl step new l) e (v_next _ _ Hi)). split; [apply manager_step_inv; [done|lia|done]|lia].
Qed.

(** ** Releasing *)

Lemma second_drain id e d m : entries m !! id = Some e -> is_open (lifetime e) = false -> end_resource id (Drain d) m = m.
Proof.
  intros He Ho. unfold end_resource, ended. rewrite He, Ho. destruct e as [t lv lt us ur]. cbn. rewrite insert_id by done. by destruct m.
Qed.

(** What ends the wait for idleness. *)
Definition due (e : Entry) (now : Z) (idle : bool) : bool :=
  abort_token (lifetime e) || match deadline (lifetime e) with Some d => d <=? now | None => false end || idle.

(** The steps a supervisor still has to take. *)
Definition remaining (st : Stage) : nat := match st with Watching => 4 | Draining => 3 | Closing => 2 | Dropping => 1 end.

Lemma supervise_advances id now idle m st e :
  stages m !! id = Some st -> entries m !! id = Some e -> is_open (lifetime e) = false -> due e now idle = true ->
  let m' := supervise id now idle m in
  (forall i, i <> id -> entries m' !! i = entries m !! i) /\
  if decide (st = Dropping) then entries m' !! id = None /\ id ∈ released m' else
  exists st' e', S (remaining st') = remaining st /\ stages m' !! id = Some st' /\ entries m' !! id = Some e' /\
    lifetime e' = lifetime e.
Proof.
  intros Hst He Ho Hd. unfold supervise. rewrite Hst, He. cbn zeta. destruct st.
  - rewrite decide_False by done. assert (admission (lifetime e) = true) as -> by (unfold is_open in Ho; by destruct (admission _)). cbn [orb]. split; [done|].
    exists Draining, e. cbn. by rewrite lookup_insert_eq.
  - rewrite decide_False by done. unfold due in Hd. replace (_ || idle) with true by (destruct (abort_token _), (cancelled m id), (deadline _); cbn in *; rewrite ?orb_true_r; done).
    split; [done|]. exists Closing, e. cbn. by rewrite lookup_insert_eq.
  - rewrite decide_False by done. split; [intros i Hne; cbn; by rewrite lookup_insert_ne|]. exists Dropping, (set_live None e). cbn. by rewrite !lookup_insert_eq.
  - rewrite decide_True by done. split; [intros i Hne; cbn; by rewrite lookup_delete_ne|]. cbn. rewrite lookup_delete_eq. split; [done|set_solver].
Qed.

Lemma supervise_releases k id now idle m st e :
  remaining st = S k -> stages m !! id = Some st -> entries m !! id = Some e -> is_open (lifetime e) = false -> due e now idle = true ->
  let m' := Nat.iter (S k) (supervise id now idle) m in
  entries m' !! id = None /\ id ∈ released m' /\ forall i, i <> id -> entries m' !! i = entries m !! i.
Proof.
  revert m st e. induction k as [|k IH]; intros m st e Hk Hst He Ho Hd; cbn zeta;
    destruct (supervise_advances id now idle m st e Hst He Ho Hd) as [Hoth Hself].
  - destruct st; try done. cbn in *. naive_solver.
  - destruct (decide (st = Dropping)) as [->|]; [done|]. destruct Hself as (st' & e' & Hr & Hst' & He' & Hl).
    rewrite Nat.iter_succ_r. destruct (IH (supervise id now idle m) st' e') as (Hn & Hrel & Ho'); try done; [lia|by rewrite Hl|by unfold due; rewrite Hl|].
    split_and!; [done..|]. intros i Hne. rewrite Ho' by done. by apply Hoth.
Qed.

(** A host dialer, a dialer on it, a DNS service whose creation is in progress on the first; the
    second dialer is then drained by its policy. *)
Definition demo : list event :=
  [Start (DialerConfig Host); Build 1 true; Commit 1;
   Start (DialerConfig (OnDialer 1)); Build 2 true; Commit 2;
   Start (DnsServiceConfig 1); Build 3 true].
Definition demo_drained : list event := demo ++ [Terminate 1 Abort; Terminate 2 (Drain (Some 100))].

(** ** Theorems *)

(** The use count of a registered resource is exact: until the manager is aborted, whatever
    creations, drains, aborts and supervisors did in whatever order, it is the number of resources
    created on it that still admit work, plus the creations in progress that reserved it.  A failed or
    dropped creation, or an ended user, gives back exactly the use it took. *)
Theorem resource_uses_counted l id e :
  enough_ids l -> root_closed (run l) = false -> entries (run l) !! id = Some e -> users e = count id (run l).
Proof. intros Hl Hr He. by apply (v_entry _ _ (manager_run_inv l Hl Hr)). Qed.

Lemma resource_uses_counted_witness : root_closed (run demo) = false /\
  exists e, entries (run demo) !! 1 = Some e /\ users e = 2 /\ users e = count 1 (run demo).
Proof.
  split; [vm_compute; reflexivity|]. eexists. split; [vm_compute; reflexivity|]. split; [reflexivity|].
  apply (resource_uses_counted demo 1); [vm_compute; discriminate|vm_compute; reflexivity..].
Defined.

(** C27. A resource that admits work keeps its carrier.  After fewer than 2^64 events, and as long as the
    manager itself has not been aborted: the dialer it was created on is registered,
    live and admits work too, neither their scopes nor any scope above them is cancelled, and every
    request to close or drain that dialer is refused as in use and changes nothing. *)
Theorem resource_carrier_outlives l id e u :
  enough_ids l -> root_closed (run l) = false -> entries (run l) !! id = Some e -> is_open (lifetime e) = true -> uses e = Some u ->
  let m := run l in
  carries m u /\ cancelled m id = false /\ cancelled m u = false /\
  forall ending, exists n, 0 < n /\ terminate u ending m = (m, Err (InUse n)).
Proof.
  intros Hids Hr He Ho Hu m. pose proof (manager_run_inv l Hids Hr) as Hi. destruct (v_entry _ _ Hi _ _ He).
  pose proof (e_carrier0 u eq_refl Ho Hu) as Hcar. destruct (Hcar) as (eu & c & Heu & Huo & Hl). split_and!; [done|by eapply open_not_cancelled..|].
  intros ending. exists (users eu). rewrite (e_users _ _ _ _ (v_entry _ _ Hi _ _ Heu)).
  pose proof (count_opener u _ id e He) as Hc. unfold opener in Hc. rewrite Ho, bool_decide_eq_true_2 in Hc by done. cbn in Hc. split; [lia|].
  unfold terminate, m. rewrite Heu, (e_users _ _ _ _ (v_entry _ _ Hi _ _ Heu)).
  destruct (Z.eqb_spec (count u (run l)) 0) as [Hz|]; [rewrite Hz in Hc; lia|done].
Qed.

Lemma resource_carrier_outlives_witness : exists n, 0 < n /\ terminate 1 Abort (run demo) = (run demo, Err (InUse n)).
Proof.
  destruct (entries (run demo) !! 2) as [e|] eqn:He; [|vm_compute in He; discriminate].
  refine (proj2 (proj2 (proj2 (resource_carrier_outlives demo 2 e 1 _ _ He _ _))) Abort); [vm_compute; discriminate|vm_compute; reflexivity|..];
    vm_compute in He; injection He as <-; reflexivity.
Defined.

(** A resource that stopped admitting work is released once its abort, its deadline or its
    idleness is observed: its supervisor needs at most four more steps, they drop its native state,
    remove its entry and announce the release, and touch no other resource.  A second drain with
    another deadline changes nothing meanwhile. *)
Theorem ended_resource_released l id e now idle :
  enough_ids l -> root_closed (run l) = false -> entries (run l) !! id = Some e -> is_open (lifetime e) = false -> due e now idle = true ->
  (forall d, end_resource id (Drain d) (run l) = run l) /\
  exists k, (k <= 4)%nat /\
    let m' := Nat.iter k (supervise id now idle) (run l) in
    is_released id m' = true /\ id ∈ released m' /\ forall i, i <> id -> entries m' !! i = entries (run l) !! i.
Proof.
  intros Hids Hr He Ho Hd. split; [intros d; by eapply second_drain|].
  destruct (v_entry _ _ (manager_run_inv l Hids Hr) _ _ He) as [_ _ _ _ _ (st & Hst & _) _]. exists (remaining st). split; [destruct st; cbn; lia|]. cbn zeta.
  unfold is_released. rewrite bool_decide_eq_true. destruct (remaining st) as [|k] eqn:Hk; [by destruct st|]. by eapply supervise_releases.
Qed.

Lemma ended_resource_released_witness : exists k, (k <= 4)%nat /\
  is_released 2 (Nat.iter k (supervise 2 100 false) (run demo_drained)) = true.
Proof.
  destruct (entries (run demo_drained) !! 2) as [e|] eqn:He; [|vm_compute in He; discriminate].
  destruct (ended_resource_released demo_drained 2 e 100 false) as [_ (k & Hk & Hr & _)];
    [vm_compute; discriminate|vm_compute; reflexivity|exact He|vm_compute in He; injection He as <-; reflexivity..|].
  exists k. split; [exact Hk|exact Hr].
Defined.

End Resources.
