(* ===== verification/Scope.v ===== *)
(** * Cancellation scopes (crates/protocol/src/control.rs)

    A [Scope] couples a node of a cancellation tree with the trackers that count the work of the
    scope and of the scopes above it.  Tokio's tokens and trackers are modelled by what they
    document: cancelling a token cancels its descendants, a child of a cancelled token is born
    cancelled, and a tracker's wait is over when no token of it is alive. *)

From S2P Require Import Prelude.

Module Scope.

(** ** State *)

(** [Scope]: its cancellation token and its trackers, the scope's own one last. *)
Record t := mkScope { token : Z; trackers : list Z }.

(** [WorkGuard]: the tracker tokens it keeps. *)
Record WorkGuard := mkGuard { tokens : list Z }.

(** How a handle came about. *)
Inductive origin := Root | ChildOf (h : Z) | TrackedBy (h caller : Z).

(** The token tree (a token's ancestors, itself first, and whether it is cancelled), the live tokens
    of every tracker, and the handles and guards that exist. *)
Record state := mkState {
  tree : gmap Z (list Z * bool);
  counts : gmap Z Z;
  handles : gmap Z (t * origin);
  guards : gmap Z (Z * WorkGuard);
  next : Z;
}.

Definition init : state := mkState ∅ ∅ ∅ ∅ 0.

(** ** Operations *)

Definition fresh (s : state) : Z := next s + 1.

(** [Scope::new]; the numbers of the token, the tracker and the handle are the same fresh one. *)
Definition new (s : state) : state * t :=
  let n := fresh s in let sc := mkScope n [n] in
  (mkState (<[n := ([n], false)]> (tree s)) (<[n := 0]> (counts s)) (<[n := (sc, Root)]> (handles s)) (guards s) n, sc).

(** [Scope::is_closed] *)
Definition is_closed (s : state) (sc : t) : bool := match tree s !! token sc with Some (_, c) => c | None => false end.

(** [Scope::child] *)
Definition child (s : state) (h : Z) (sc : t) : state * t :=
  let n := fresh s in let sc' := mkScope n (trackers sc ++ [n]) in
  let above := match tree s !! token sc with Some (a, _) => a | None => [] end in
  (mkState (<[n := (n :: above, is_closed s sc)]> (tree s)) (<[n := 0]> (counts s)) (<[n := (sc', ChildOf h)]> (handles s)) (guards s) n, sc').

(** [Scope::tracked_by]: the caller's trackers are put in front, unless they are there. *)
Definition add_tracker (l : list Z) (x : Z) : list Z := if bool_decide (x ∈ l) then l else x :: l.
Definition tracked_by (s : state) (h c : Z) (sc caller : t) : state * t :=
  let n := fresh s in let sc' := mkScope (token sc) (foldl add_tracker (trackers sc) (trackers caller)) in
  (mkState (tree s) (counts s) (<[n := (sc', TrackedBy h c)]> (handles s)) (guards s) n, sc').

(** [Scope::close] *)
Definition close (s : state) (sc : t) : state :=
  mkState ((fun n : list Z * bool => (fst n, snd n || bool_decide (token sc ∈ fst n))) <$> tree s) (counts s) (handles s) (guards s) (next s).

(** The tokens of a guard are taken, and given back. *)
Definition bump (d : Z) (c : gmap Z Z) (tr : Z) : gmap Z Z := alter (Z.add d) tr c.
Definition take_tokens (l : list Z) (c : gmap Z Z) : gmap Z Z := foldl (bump 1) c l.
Definition drop_tokens (l : list Z) (c : gmap Z Z) : gmap Z Z := foldl (bump (-1)) c l.

Inductive error := ScopeClosed.

(** [Scope::track]: the tokens are taken before the check and dropped again when it fails. *)
Definition track (s : state) (h : Z) (sc : t) : state * res error Z :=
  let c := take_tokens (trackers sc) (counts s) in
  if is_closed s sc then (mkState (tree s) (drop_tokens (trackers sc) c) (handles s) (guards s) (next s), Err ScopeClosed)
  else let n := fresh s in
       (mkState (tree s) c (handles s) (<[n := (h, mkGuard (trackers sc))]> (guards s)) n, Ok n).

(** A guard is dropped. *)
Definition drop_guard (s : state) (g : Z) : state :=
  match guards s !! g with
  | Some (_, w) => mkState (tree s) (drop_tokens (tokens w) (counts s)) (handles s) (delete g (guards s)) (next s)
  | None => s
  end.

(** [Scope::wait]: whether it is over. *)
Definition wait_over (s : state) (sc : t) : bool :=
  match last (trackers sc) with Some tr => default 0 (counts s !! tr) =? 0 | None => true end.

(** One poll of [Scope::run]: the cancellation is looked at first. *)
Definition run {A} (s : state) (sc : t) (work : option (res error A)) : option (res error A) :=
  if is_closed s sc then Some (Err ScopeClosed) else work.

(** ** The machine *)

Inductive event :=
  | New | Child (h : Z) | Track_by (h caller : Z) | Close (h : Z) | Track (h : Z) | DropGuard (g : Z).

Definition with_handle (s : state) (h : Z) (f : t -> state) : state :=
  match handles s !! h with Some (sc, _) => f sc | None => s end.

Definition step (s : state) (e : event) : state :=
  match e with
  | New => fst (new s)
  | Child h => with_handle s h (fun sc => fst (child s h sc))
  | Track_by h c => with_handle s h (fun sc => with_handle s c (fun caller => fst (tracked_by s h c sc caller)))
  | Close h => with_handle s h (close s)
  | Track h => with_handle s h (fun sc => fst (track s h sc))
  | DropGuard g => drop_guard s g
  end.

Definition run_all (s : state) (es : list event) : state := foldl step s es.

(** ** Specification *)

(** [h'] is [h], or was derived from it as a child or by tracking. *)
Inductive derived (s : state) (h : Z) : Z -> Prop :=
| derived_refl sc o : handles s !! h = Some (sc, o) -> derived s h h
| derived_child p h' sc : derived s h p -> handles s !! h' = Some (sc, ChildOf p) -> derived s h h'
| derived_tracked p c h' sc : derived s h p -> handles s !! h' = Some (sc, TrackedBy p c) -> derived s h h'
| derived_caller p c h' sc : derived s h c -> handles s !! h' = Some (sc, TrackedBy p c) -> derived s h h'.

(** The same without the callers: what cancellation follows. *)
Inductive below (s : state) (h : Z) : Z -> Prop :=
| below_refl sc o : handles s !! h = Some (sc, o) -> below s h h
| below_child p h' sc : below s h p -> handles s !! h' = Some (sc, ChildOf p) -> below s h h'
| below_tracked p c h' sc : below s h p -> handles s !! h' = Some (sc, TrackedBy p c) -> below s h h'.

(** ** Invariant *)

(** How often a guard counts for a tracker. *)
Definition occurs (tr : Z) (g : Z * WorkGuard) : Z := lsum (fun x => if bool_decide (x = tr) then 1 else 0) (tokens (snd g)).

Definition above (s : state) (tok : Z) : list Z := match tree s !! tok with Some (a, _) => a | None => [] end.

Record handle_ok (s : state) (h : Z) (sc : t) (o : origin) : Prop := {
  h_last : exists tr l, trackers sc = l ++ [tr] /\ match o with TrackedBy _ _ => True | _ => tr = h end;
  h_counted : forall tr, tr ∈ trackers sc -> is_Some (counts s !! tr);
  h_token : is_Some (tree s !! token sc) /\ token sc ∈ above s (token sc);
  h_origin : match o with
    | Root => True
    | ChildOf p => exists ps po, handles s !! p = Some (ps, po) /\ trackers ps ⊆ trackers sc /\ above s (token ps) ⊆ above s (token sc)
    | TrackedBy p c => exists ps po cs co, handles s !! p = Some (ps, po) /\ handles s !! c = Some (cs, co) /\
        trackers ps ⊆ trackers sc /\ trackers cs ⊆ trackers sc /\ token sc = token ps
    end;
}.

Record Inv (s : state) : Prop := {
  v_next : 0 <= next s;
  v_tree_ids : forall n, is_Some (tree s !! n) -> n <= next s;
  v_count_ids : forall n, is_Some (counts s !! n) -> n <= next s;
  v_handle_ids : forall n, is_Some (handles s !! n) -> n <= next s;
  v_guard_ids : forall n, is_Some (guards s !! n) -> n <= next s;
  v_above : forall n a c x, tree s !! n = Some (a, c) -> x ∈ a -> exists ax cx,
    tree s !! x = Some (ax, cx) /\ ax ⊆ a /\ (cx = true -> c = true);
  v_counts : forall tr n, counts s !! tr = Some n -> n = msum (occurs tr) (guards s);
  v_handles : forall h sc o, handles s !! h = Some (sc, o) -> handle_ok s h sc o;
  v_own : forall h sc o tr, handles s !! h = Some (sc, o) -> tr ∈ trackers sc -> derived s tr h;
  v_guards : forall g h w, guards s !! g = Some (h, w) -> exists sc o, handles s !! h = Some (sc, o) /\ tokens w = trackers sc;
}.

(** ** Counting *)

Lemma occurs_pos tr g : 0 <= occurs tr g.
Proof. apply lsum_nonneg. intros x _. case_bool_decide; lia. Qed.

Lemma occurs_elem tr g : tr ∈ tokens (snd g) -> 0 < occurs tr g.
Proof.
  unfold occurs. induction (tokens (snd g)) as [|x l IH]; [by intros ?%elem_of_nil|].
  assert (0 <= lsum (fun x => if bool_decide (x = tr) then 1 else 0) l) by (apply lsum_nonneg; intros y _; case_bool_decide; lia).
  unfold lsum in *. cbn [foldr]. intros [->|Hin]%elem_of_cons; [rewrite bool_decide_eq_true_2 by done; lia|]. specialize (IH Hin). case_bool_decide; lia.
Qed.

Lemma occurs_not_elem tr g : tr ∉ tokens (snd g) -> occurs tr g = 0.
Proof.
  unfold occurs. induction (tokens (snd g)) as [|x l IH]; [done|]. unfold lsum in *. cbn [foldr]. intros Hn. rewrite bool_decide_eq_false_2 by set_solver.
  rewrite Z.add_0_l. apply IH. set_solver.
Qed.

Lemma lookup_bumps d l c tr n :
  c !! tr = Some n -> foldl (bump d) c l !! tr = Some (n + d * lsum (fun x => if bool_decide (x = tr) then 1 else 0) l).
Proof.
  revert c n. induction l as [|x l IH]; intros c n Hc; [cbn; rewrite Hc; f_equal; lia|]. unfold lsum in *. cbn [foldl foldr].
  case_bool_decide as Hx.
  - subst. rewrite (IH _ (d + n)) by (unfold bump; by rewrite lookup_alter_eq, Hc). f_equal. lia.
  - rewrite (IH _ n) by (unfold bump; by rewrite lookup_alter_ne). done.
Qed.

Lemma bumps_None d l c tr : foldl (bump d) c l !! tr = None <-> c !! tr = None.
Proof.
  revert c. induction l as [|x l IH]; intros c; [done|]. cbn [foldl]. rewrite IH. unfold bump.
  destruct (decide (tr = x)) as [->|]; [rewrite lookup_alter_eq; by destruct (c !! x)|by rewrite lookup_alter_ne].
Qed.

Lemma bumps_back l c : drop_tokens l (take_tokens l c) = c.
Proof.
  apply map_eq. intros tr. destruct (c !! tr) as [n|] eqn:Hc.
  - unfold drop_tokens, take_tokens. erewrite lookup_bumps; [|by apply lookup_bumps]. f_equal. lia.
  - unfold drop_tokens, take_tokens. by apply bumps_None, bumps_None.
Qed.

Lemma add_tracker_subset l k : l ⊆ foldl add_tracker l k /\ k ⊆ foldl add_tracker l k /\ (exists l', foldl add_tracker l k = l' ++ l) /\
  forall x, x ∈ foldl add_tracker l k -> x ∈ l \/ x ∈ k.
Proof.
  revert l. induction k as [|x k IH]; intros l; cbn [foldl]; [split_and!; [set_solver|set_solver|by exists []|set_solver]|].
  destruct (IH (add_tracker l x)) as (H1 & H2 & [l' H3] & H4). assert (Ha : l ⊆ add_tracker l x /\ x ∈ add_tracker l x /\ (exists q, add_tracker l x = q ++ l) /\ forall y, y ∈ add_tracker l x -> y ∈ l \/ y = x).
  { unfold add_tracker. case_bool_decide; [split_and!; [done|done|by exists []|set_solver]|split_and!; [set_solver|set_solver|by exists [x]|set_solver]]. }
  destruct Ha as (Ha & Hx & [q Hq] & Hy). split_and!; [set_solver|set_solver| |].
  - exists (l' ++ q). by rewrite H3, Hq, app_assoc.
  - intros y Hin. destruct (H4 y Hin) as [Hl|]; [|set_solver]. destruct (Hy y Hl); set_solver.
Qed.

(** ** Preservation *)

Lemma derived_mono s s' h h' : (forall i x, handles s !! i = Some x -> handles s' !! i = Some x) -> derived s h h' -> derived s' h h'.
Proof. intros Hm. induction 1; [eapply derived_refl|eapply derived_child|eapply derived_tracked|eapply derived_caller]; eauto. Qed.

Lemma below_mono s s' h h' : (forall i x, handles s !! i = Some x -> handles s' !! i = Some x) -> below s h h' -> below s' h h'.
Proof. intros Hm. induction 1; [eapply below_refl|eapply below_child|eapply below_tracked]; eauto. Qed.

Lemma fresh_none {A} (m : gmap Z A) (s : state) : (forall n, is_Some (m !! n) -> n <= next s) -> m !! fresh s = None.
Proof. intros Hm. apply eq_None_not_Some. intros Hx. specialize (Hm _ Hx). unfold fresh in Hm. lia. Qed.

(** A handle keeps its standing when the tree and the counters only grow. *)
Lemma handle_ok_grow s s' h sc o :
  handle_ok s h sc o -> (forall i x, handles s !! i = Some x -> handles s' !! i = Some x) ->
  (forall tr, is_Some (counts s !! tr) -> is_Some (counts s' !! tr)) ->
  (forall n a c, tree s !! n = Some (a, c) -> exists c', tree s' !! n = Some (a, c')) ->
  (forall p, (exists c, o = TrackedBy p c) \/ o = ChildOf p -> exists ps po, handles s !! p = Some (ps, po) /\ is_Some (tree s !! token ps)) ->
  handle_ok s' h sc o.
Proof.
  intros [Hl Hc [Ht Hin] Ho] Hh Hct Htree Hp. assert (Habove : forall n, is_Some (tree s !! n) -> above s' n = above s n).
  { intros n [[a c] Hn]. destruct (Htree n a c Hn) as [c' Hn']. unfold above. by rewrite Hn, Hn'. }
  constructor; [done|naive_solver| |].
  - rewrite (Habove _ Ht). split; [|done]. destruct Ht as [[a c] Hn]. destruct (Htree _ _ _ Hn) as [c' ->]. by eexists.
  - destruct o as [|p|p c]; [done| |].
    + destruct Ho as (ps & po & Hps & Htr & Hab). exists ps, po. destruct (Hp p (or_intror eq_refl)) as (ps' & po' & Hps' & Hsome).
      assert (ps' = ps) as -> by congruence. rewrite !Habove by done. split_and!; [by apply Hh|done|done].
    + destruct Ho as (ps & po & cs & co & ? & ? & ?). exists ps, po, cs, co. split_and!; naive_solver.
Qed.

(** The handles an existing one was derived from have tokens. *)
Lemma origin_tokens s h sc o p :
  Inv s -> handles s !! h = Some (sc, o) -> (exists c, o = TrackedBy p c) \/ o = ChildOf p ->
  exists ps po, handles s !! p = Some (ps, po) /\ is_Some (tree s !! token ps).
Proof.
  intros Hi Hh Ho. pose proof (h_origin _ _ _ _ (v_handles _ Hi _ _ _ Hh)) as Horig.
  assert (exists ps po, handles s !! p = Some (ps, po)) as (ps & po & Hp) by (destruct Ho as [[c ->]| ->]; naive_solver).
  exists ps, po. split; [done|]. apply (h_token _ _ _ _ (v_handles _ Hi _ _ _ Hp)).
Qed.

(** A handle is added. *)
Lemma add_handle s s' sc' o :
  Inv s -> let n := fresh s in
  handles s' = <[n := (sc', o)]> (handles s) -> guards s' = guards s -> next s' = n ->
  counts s' = counts s \/ counts s' = <[n := 0]> (counts s) ->
  tree s' = tree s \/ (exists a c, tree s' = <[n := (n :: a, c)]> (tree s) /\
    forall x, x ∈ a -> exists ax cx, tree s !! x = Some (ax, cx) /\ ax ⊆ a /\ (cx = true -> c = true)) ->
  handle_ok s' n sc' o -> (forall tr, tr ∈ trackers sc' -> derived s' tr n) -> Inv s'.
Proof.
  intros Hi n Hh Hg Hn Hc Ht Hok Hder. pose proof (fresh_none _ s (v_handle_ids _ Hi)) as Hfh. pose proof (fresh_none _ s (v_tree_ids _ Hi)) as Hft.
  pose proof (fresh_none _ s (v_count_ids _ Hi)) as Hfc. pose proof (v_next _ Hi). fold n in Hfh, Hft, Hfc.
  assert (Hlt : next s < n) by (unfold n, fresh; lia).
  assert (Hgrow : forall i x, handles s !! i = Some x -> handles s' !! i = Some x) by (intros i x Hx; rewrite Hh, lookup_insert_ne; [done|congruence]).
  assert (Hctr : forall tr, is_Some (counts s !! tr) -> is_Some (counts s' !! tr)).
  { intros tr [x Hx]. destruct Hc as [-> | ->]; [by eexists|]. destruct (decide (tr = n)) as [->|]; [by rewrite lookup_insert_eq|rewrite lookup_insert_ne by done; by eexists]. }
  assert (Htr : forall m a c, tree s !! m = Some (a, c) -> tree s' !! m = Some (a, c)).
  { intros m a c Hm. destruct Ht as [-> |(a' & c' & -> & _)]; [done|]. rewrite lookup_insert_ne; [done|congruence]. }
  constructor.
  - lia.
  - intros m Hm. destruct Ht as [Ht|(a & c & Ht & _)]; rewrite Ht in Hm; [pose proof (v_tree_ids _ Hi _ Hm); lia|].
    destruct (decide (m = n)) as [->|]; [lia|]. rewrite lookup_insert_ne in Hm by done. pose proof (v_tree_ids _ Hi _ Hm). lia.
  - intros m Hm. destruct Hc as [Hc|Hc]; rewrite Hc in Hm; [pose proof (v_count_ids _ Hi _ Hm); lia|].
    destruct (decide (m = n)) as [->|]; [lia|]. rewrite lookup_insert_ne in Hm by done. pose proof (v_count_ids _ Hi _ Hm). lia.
  - intros m Hm. rewrite Hh in Hm. destruct (decide (m = n)) as [->|]; [lia|]. rewrite lookup_insert_ne in Hm by done. pose proof (v_handle_ids _ Hi _ Hm). lia.
  - intros m Hm. rewrite Hg in Hm. pose proof (v_guard_ids _ Hi _ Hm). lia.
  - intros m a c x Hm Hx. destruct Ht as [Ht|(a' & c' & Ht & Hab)].
    + rewrite Ht in Hm. destruct (v_above _ Hi _ _ _ _ Hm Hx) as (ax & cx & Hax & ? & ?). exists ax, cx. rewrite Ht. done.
    + rewrite Ht in Hm. destruct (decide (m = n)) as [->|].
      * rewrite lookup_insert_eq in Hm. injection Hm as <- <-. apply elem_of_cons in Hx as [->|Hx].
        -- exists (n :: a'), c'. rewrite Ht, lookup_insert_eq. done.
        -- destruct (Hab x Hx) as (ax & cx & Hax & Hsub & ?). exists ax, cx. split_and!; [by apply Htr|set_solver|done].
      * rewrite lookup_insert_ne in Hm by done. destruct (v_above _ Hi _ _ _ _ Hm Hx) as (ax & cx & Hax & ? & ?). exists ax, cx. split_and!; [by apply Htr|done|done].
  - intros tr m Hm. rewrite Hg. destruct Hc as [Hc|Hc]; rewrite Hc in Hm; [by apply (v_counts _ Hi)|].
    destruct (decide (tr = n)) as [->|]; [|rewrite lookup_insert_ne in Hm by done; by apply (v_counts _ Hi)].
    rewrite lookup_insert_eq in Hm. injection Hm as <-. symmetry. apply Z.le_antisymm; [|apply msum_nonneg; intros; apply occurs_pos].
    apply Z.le_ngt. intros Hpos. apply msum_pos_lookup in Hpos as (g & [h w] & Hgw & Hocc).
    destruct (v_guards _ Hi _ _ _ Hgw) as (sc & oo & Hsc & Htok). destruct (decide (n ∈ trackers sc)) as [Hin|Hnin].
    + destruct (h_counted _ _ _ _ (v_handles _ Hi _ _ _ Hsc) n Hin) as [? Hsome]. congruence.
    + rewrite occurs_not_elem in Hocc by (cbn; by rewrite Htok). lia.
  - intros h sc oo Hsc. rewrite Hh in Hsc. destruct (decide (h = n)) as [->|]; [rewrite lookup_insert_eq in Hsc; by injection Hsc as <- <-|].
    rewrite lookup_insert_ne in Hsc by done. eapply handle_ok_grow; [by apply (v_handles _ Hi)|done|done|naive_solver|]. intros p Hp. by eapply origin_tokens.
  - intros h sc oo tr Hsc Hin. rewrite Hh in Hsc. destruct (decide (h = n)) as [->|]; [rewrite lookup_insert_eq in Hsc; injection Hsc as <- <-; by apply Hder|].
    rewrite lookup_insert_ne in Hsc by done. eapply derived_mono; [exact Hgrow|]. by eapply (v_own _ Hi).
  - intros g h w Hgw. rewrite Hg in Hgw. destruct (v_guards _ Hi _ _ _ Hgw) as (sc & oo & Hsc & ?). exists sc, oo. split; [by apply Hgrow|done].
Qed.

Lemma new_inv s : Inv s -> Inv (fst (new s)).
Proof.
  intros Hi. pose proof (v_next _ Hi). apply (add_handle s _ (mkScope (fresh s) [fresh s]) Root); cbn; try done; [by right| |constructor; cbn|].
  - right. exists [], false. split; [done|]. by intros x ?%elem_of_nil.
  - by exists (fresh s), [].
  - intros tr ->%list_elem_of_singleton. by rewrite lookup_insert_eq.
  - unfold above. cbn. rewrite lookup_insert_eq. set_solver.
  - done.
  - intros tr ->%list_elem_of_singleton. eapply derived_refl. cbn. by rewrite lookup_insert_eq.
Qed.

Lemma child_inv s h sc o : Inv s -> handles s !! h = Some (sc, o) -> Inv (fst (child s h sc)).
Proof.
  intros Hi Hh. pose proof (v_handles _ Hi _ _ _ Hh) as Hok. destruct (h_token _ _ _ _ Hok) as [[[a c] Ht] Hself].
  pose proof (fresh_none _ s (v_handle_ids _ Hi)) as Hfh. pose proof (fresh_none _ s (v_tree_ids _ Hi)) as Hft.
  assert (Hgrow : forall i x, handles s !! i = Some x -> handles (fst (child s h sc)) !! i = Some x)
    by (intros i x Hx; cbn; rewrite lookup_insert_ne; [done|congruence]).
  apply (add_handle s _ (mkScope (fresh s) (trackers sc ++ [fresh s])) (ChildOf h)); try done; [by right| |constructor|].
  - right. exists a, c. unfold child, is_closed. cbn. rewrite Ht. split; [done|]. intros x Hx. by eapply (v_above _ Hi).
  - by exists (fresh s), (trackers sc).
  - intros tr [Hin|Hin%list_elem_of_singleton]%elem_of_app; cbn.
    + destruct (h_counted _ _ _ _ Hok tr Hin) as [x Hx]. destruct (decide (tr = fresh s)) as [->|]; [by rewrite lookup_insert_eq|rewrite lookup_insert_ne by done; by eexists].
    + subst. by rewrite lookup_insert_eq.
  - unfold above. cbn. rewrite lookup_insert_eq. split; [by eexists|set_solver].
  - exists sc, o. split_and!; [by apply Hgrow|cbn; set_solver|]. unfold above, child. cbn. rewrite lookup_insert_eq, lookup_insert_ne by congruence. rewrite Ht. set_solver.
  - intros tr [Hin|Hin%list_elem_of_singleton]%elem_of_app.
    + eapply derived_child; [eapply derived_mono; [exact Hgrow|by eapply (v_own _ Hi)]|]. cbn. by rewrite lookup_insert_eq.
    + subst. eapply derived_refl. cbn. by rewrite lookup_insert_eq.
Qed.

Lemma tracked_by_inv s h c sc o cs co :
  Inv s -> handles s !! h = Some (sc, o) -> handles s !! c = Some (cs, co) -> Inv (fst (tracked_by s h c sc cs)).
Proof.
  intros Hi Hh Hc. pose proof (v_handles _ Hi _ _ _ Hh) as Hok. pose proof (v_handles _ Hi _ _ _ Hc) as Hokc.
  pose proof (fresh_none _ s (v_handle_ids _ Hi)) as Hfh. destruct (add_tracker_subset (trackers sc) (trackers cs)) as (H1 & H2 & [l' H3] & H4).
  assert (Hgrow : forall i x, handles s !! i = Some x -> handles (fst (tracked_by s h c sc cs)) !! i = Some x)
    by (intros i x Hx; cbn; rewrite lookup_insert_ne; [done|congruence]).
  apply (add_handle s _ (mkScope (token sc) (foldl add_tracker (trackers sc) (trackers cs))) (TrackedBy h c)); try done; [by left|by left|constructor|].
  - destruct (h_last _ _ _ _ Hok) as (tr & l & Hl & _). exists tr, (l' ++ l). split; [|done]. cbn [trackers]. by rewrite H3, Hl, app_assoc.
  - intros tr Hin. cbn in *. destruct (H4 tr Hin); [by apply (h_counted _ _ _ _ Hok)|by apply (h_counted _ _ _ _ Hokc)].
  - apply (h_token _ _ _ _ Hok).
  - exists sc, o, cs, co. split_and!; try done; by apply Hgrow.
  - intros tr Hin. destruct (H4 tr Hin).
    + apply (derived_tracked _ _ h c _ (mkScope (token sc) (foldl add_tracker (trackers sc) (trackers cs)))); [eapply derived_mono; [exact Hgrow|by apply (v_own _ Hi _ sc o)]|]. cbn. by rewrite lookup_insert_eq.
    + apply (derived_caller _ _ h c _ (mkScope (token sc) (foldl add_tracker (trackers sc) (trackers cs)))); [eapply derived_mono; [exact Hgrow|by apply (v_own _ Hi _ cs co)]|]. cbn. by rewrite lookup_insert_eq.
Qed.

Lemma close_inv s sc : Inv s -> Inv (close s sc).
Proof.
  intros Hi. constructor; try apply Hi.
  - intros n [x Hx]. cbn in Hx. rewrite lookup_fmap in Hx. apply (v_tree_ids _ Hi). destruct (tree s !! n); [by eexists|done].
  - intros n a c x Hn Hx. cbn in *. rewrite lookup_fmap in Hn. destruct (tree s !! n) as [[a0 c0]|] eqn:Ht; [|done]. cbn in Hn. injection Hn as <- <-.
    destruct (v_above _ Hi _ _ _ _ Ht Hx) as (ax & cx & Hax & Hsub & Hc). rewrite lookup_fmap, Hax. cbn. eexists _, _. split_and!; [done|done|].
    intros [Hcx|Hcx]%orb_true_iff; [by rewrite Hc|]. apply bool_decide_eq_true in Hcx. rewrite orb_true_iff, bool_decide_eq_true. right. set_solver.
  - intros h sc' o Hh. eapply handle_ok_grow; [by apply (v_handles _ Hi)|done|done| |].
    + intros n a c Hn. cbn. rewrite lookup_fmap, Hn. cbn. by eexists.
    + intros p Hp. by eapply origin_tokens.
  - intros h sc' o tr Hh Htr. eapply derived_mono; [|by eapply (v_own _ Hi)]. done.
Qed.

(** The counters and the guards change together. *)
Lemma guards_inv s c gs n :
  Inv s -> next s <= n -> (forall tr, is_Some (c !! tr) <-> is_Some (counts s !! tr)) ->
  (forall g, is_Some (gs !! g) -> g <= n) -> (forall tr m, c !! tr = Some m -> m = msum (occurs tr) gs) ->
  (forall g h w, gs !! g = Some (h, w) -> exists sc o, handles s !! h = Some (sc, o) /\ tokens w = trackers sc) ->
  Inv (mkState (tree s) c (handles s) gs n).
Proof.
  intros Hi Hn Hc Hids Hcount Hg. pose proof (v_next _ Hi). constructor; cbn; try done; try apply Hi; [lia|..].
  - intros m Hm. pose proof (v_tree_ids _ Hi _ Hm). lia.
  - intros m Hm%Hc. pose proof (v_count_ids _ Hi _ Hm). lia.
  - intros m Hm. pose proof (v_handle_ids _ Hi _ Hm). lia.
  - intros h sc o Hh. eapply handle_ok_grow; [by apply (v_handles _ Hi)|done|intros tr Htr; by apply Hc|naive_solver|]. intros p Hp. by eapply origin_tokens.
  - intros h sc o tr Hh Htr. eapply derived_mono; [|by eapply (v_own _ Hi)]. done.
Qed.

Lemma bumps_some d l c tr : is_Some (foldl (bump d) c l !! tr) <-> is_Some (c !! tr).
Proof. rewrite <- !not_eq_None_Some. by rewrite bumps_None. Qed.

Lemma track_inv s h sc o : Inv s -> handles s !! h = Some (sc, o) -> Inv (fst (track s h sc)).
Proof.
  intros Hi Hh. pose proof (v_next _ Hi). pose proof (fresh_none _ s (v_guard_ids _ Hi)) as Hfg. unfold track. destruct (is_closed s sc); cbn [fst].
  { rewrite bumps_back. by destruct s. }
  apply guards_inv; [done|unfold fresh; lia|intros tr; apply bumps_some| | |].
  - intros g [x Hx]. destruct (decide (g = fresh s)) as [->|]; [done|]. rewrite lookup_insert_ne in Hx by done.
    pose proof (v_guard_ids _ Hi g (mk_is_Some _ _ Hx)). unfold fresh. lia.
  - intros tr m Hm. rewrite msum_insert by done. destruct (counts s !! tr) as [x|] eqn:Hx.
    + unfold take_tokens in Hm. rewrite (lookup_bumps _ _ _ _ _ Hx) in Hm. injection Hm as <-. rewrite (v_counts _ Hi _ _ Hx). unfold occurs at 2. cbn [snd tokens]. lia.
    + unfold take_tokens in Hm. by rewrite (proj2 (bumps_None 1 (trackers sc) (counts s) tr) Hx) in Hm.
  - intros g h' w Hg. destruct (decide (g = fresh s)) as [->|]; [rewrite lookup_insert_eq in Hg; injection Hg as <- <-; by exists sc, o|].
    rewrite lookup_insert_ne in Hg by done. by apply (v_guards _ Hi g).
Qed.

Lemma drop_guard_inv s g : Inv s -> Inv (drop_guard s g).
Proof.
  intros Hi. unfold drop_guard. destruct (guards s !! g) as [[h w]|] eqn:Hg; [|done].
  apply guards_inv; [done|done|intros tr; apply bumps_some| | |].
  - intros g' [x Hx]. apply lookup_delete_Some in Hx as [_ Hx]. apply (v_guard_ids _ Hi). by eexists.
  - intros tr m Hm. pose proof (msum_delete (occurs tr) (guards s) g (h, w) Hg) as Hs. destruct (counts s !! tr) as [x|] eqn:Hx.
    + unfold drop_tokens in Hm. rewrite (lookup_bumps _ _ _ _ _ Hx) in Hm. injection Hm as <-. rewrite (v_counts _ Hi _ _ Hx), Hs. unfold occurs at 3. cbn [snd tokens]. lia.
    + unfold drop_tokens in Hm. by rewrite (proj2 (bumps_None (-1) (tokens w) (counts s) tr) Hx) in Hm.
  - intros g' h' w' [_ Hg']%lookup_delete_Some. by apply (v_guards _ Hi g').
Qed.

Lemma scope_step_inv s e : Inv s -> Inv (step s e).
Proof.
  intros Hi. destruct e as [|h|h c|h|h|g]; cbn [step]; unfold with_handle; [by apply new_inv| | | | |by apply drop_guard_inv].
  all: destruct (handles s !! h) as [[sc o]|] eqn:Hh; [|done].
  - by eapply child_inv.
  - destruct (handles s !! c) as [[cs co]|] eqn:Hc; [|done]. by eapply tracked_by_inv.
  - by apply close_inv.
  - by eapply track_inv.
Qed.

Lemma init_inv : Inv init.
Proof. constructor; cbn; try (intros * Hx; rewrite lookup_empty in Hx; by destruct Hx); try done. Qed.

Lemma run_all_inv s es : Inv s -> Inv (run_all s es).
Proof. revert s. induction es as [|e es IH]; intros s Hi; [done|]. apply IH, scope_step_inv, Hi. Qed.

(** ** Completion *)

Lemma derived_trackers s h h' sc o sc' o' :
  Inv s -> derived s h h' -> handles s !! h = Some (sc, o) -> handles s !! h' = Some (sc', o') -> trackers sc ⊆ trackers sc'.
Proof.
  intros Hi Hd Hh. revert sc' o'. induction Hd as [sc0 o0 H0|p h' sc0 _ IH H0|p c h' sc0 _ IH H0|p c h' sc0 _ IH H0]; intros sc' o' Hh'.
  - by simplify_eq.
  - simplify_eq. destruct (h_origin _ _ _ _ (v_handles _ Hi _ _ _ H0)) as (ps & po & Hp & Hsub & _). pose proof (IH _ _ Hp). set_solver.
  - simplify_eq. destruct (h_origin _ _ _ _ (v_handles _ Hi _ _ _ H0)) as (ps & po & cs & co & Hp & _ & Hsub & _ & _). pose proof (IH _ _ Hp). set_solver.
  - simplify_eq. destruct (h_origin _ _ _ _ (v_handles _ Hi _ _ _ H0)) as (ps & po & cs & co & _ & Hc & _ & Hsub & _). pose proof (IH _ _ Hc). set_solver.
Qed.

Definition made (o : origin) : bool := match o with TrackedBy _ _ => false | _ => true end.

Lemma own_last s h sc o : Inv s -> handles s !! h = Some (sc, o) -> made o = true -> last (trackers sc) = Some h /\ h ∈ trackers sc.
Proof.
  intros Hi Hh Ho. destruct (h_last _ _ _ _ (v_handles _ Hi _ _ _ Hh)) as (tr & l & Hl & Htr).
  assert (tr = h) as -> by (destruct o; done). rewrite Hl, last_snoc. split; [done|set_solver].
Qed.

Lemma wait_iff s h sc o :
  Inv s -> handles s !! h = Some (sc, o) -> made o = true ->
  wait_over s sc = true <-> forall g h' w, guards s !! g = Some (h', w) -> ~ derived s h h'.
Proof.
  intros Hi Hh Ho. destruct (own_last _ _ _ _ Hi Hh Ho) as [Hlast Hin]. unfold wait_over. rewrite Hlast.
  destruct (h_counted _ _ _ _ (v_handles _ Hi _ _ _ Hh) h Hin) as [n Hn]. rewrite Hn. cbn [from_option]. unfold id. rewrite Z.eqb_eq, (v_counts _ Hi _ _ Hn). split.
  - intros Hz g h' w Hg Hd. destruct (v_guards _ Hi _ _ _ Hg) as (sc' & o' & Hsc' & Htok).
    pose proof (derived_trackers _ _ _ _ _ _ _ Hi Hd Hh Hsc') as Hsub. rewrite <- Htok in Hsub.
    pose proof (occurs_elem h (h', w) (Hsub _ Hin)).
    pose proof (msum_le_lookup (occurs h) (guards s) g (h', w) (fun _ x _ => occurs_pos h x) Hg). lia.
  - intros Hnone. apply Z.le_antisymm; [|apply msum_nonneg; intros; apply occurs_pos]. apply Z.le_ngt. intros (g & [h' w] & Hg & Hocc)%msum_pos_lookup.
    destruct (v_guards _ Hi _ _ _ Hg) as (sc' & o' & Hsc' & Htok). destruct (decide (h ∈ trackers sc')) as [Hin'|Hnin].
    + apply (Hnone g h' w Hg). by eapply (v_own _ Hi).
    + rewrite occurs_not_elem in Hocc by (cbn; by rewrite Htok). lia.
Qed.

(** ** Cancellation *)

Lemma below_above s h h' sc o sc' o' :
  Inv s -> below s h h' -> handles s !! h = Some (sc, o) -> handles s !! h' = Some (sc', o') -> above s (token sc) ⊆ above s (token sc').
Proof.
  intros Hi Hd Hh. revert sc' o'. induction Hd as [sc0 o0 H0|p h' sc0 _ IH H0|p c h' sc0 _ IH H0]; intros sc' o' Hh'.
  - by simplify_eq.
  - simplify_eq. destruct (h_origin _ _ _ _ (v_handles _ Hi _ _ _ H0)) as (ps & po & Hp & _ & Hsub). pose proof (IH _ _ Hp). set_solver.
  - simplify_eq. destruct (h_origin _ _ _ _ (v_handles _ Hi _ _ _ H0)) as (ps & po & cs & co & Hp & _ & _ & _ & Heq). rewrite Heq. by eapply IH.
Qed.

Lemma closed_below s h h' sc o sc' o' :
  Inv s -> below s h h' -> handles s !! h = Some (sc, o) -> handles s !! h' = Some (sc', o') -> is_closed s sc = true -> is_closed s sc' = true.
Proof.
  intros Hi Hb Hh Hh' Hc. pose proof (below_above _ _ _ _ _ _ _ Hi Hb Hh Hh') as Hsub.
  destruct (h_token _ _ _ _ (v_handles _ Hi _ _ _ Hh)) as [_ Hself]. destruct (h_token _ _ _ _ (v_handles _ Hi _ _ _ Hh')) as [[[a c] Ha] _].
  specialize (Hsub _ Hself). unfold above in Hsub. rewrite Ha in Hsub. destruct (v_above _ Hi _ _ _ _ Ha Hsub) as (ax & cx & Hx & _ & Hcx).
  unfold is_closed in *. rewrite Hx in Hc. rewrite Ha. by apply Hcx.
Qed.

(** Handles never change, and a cancelled token stays so. *)
Lemma step_keeps s e : Inv s ->
  (forall i x, handles s !! i = Some x -> handles (step s e) !! i = Some x) /\
  (forall n a, tree s !! n = Some (a, true) -> tree (step s e) !! n = Some (a, true)).
Proof.
  intros Hi. pose proof (fresh_none _ s (v_handle_ids _ Hi)) as Hfh. pose proof (fresh_none _ s (v_tree_ids _ Hi)) as Hft.
  destruct e as [|h|h c|h|h|g]; cbn [step]; unfold with_handle.
  - cbn. split; intros; rewrite lookup_insert_ne by congruence; done.
  - destruct (handles s !! h) as [[sc o]|]; [|done]. cbn. split; intros; rewrite lookup_insert_ne by congruence; done.
  - destruct (handles s !! h) as [[sc o]|]; [|done]. destruct (handles s !! c) as [[cs co]|]; [|done]. cbn. split; intros; [rewrite lookup_insert_ne by congruence|]; done.
  - destruct (handles s !! h) as [[sc o]|]; [|done]. cbn. split; [done|]. intros n a Hn. by rewrite lookup_fmap, Hn.
  - destruct (handles s !! h) as [[sc o]|]; [|done]. unfold track. by destruct (is_closed s sc).
  - unfold drop_guard. by destruct (guards s !! g) as [[? ?]|].
Qed.

Lemma run_all_keeps s es : Inv s ->
  (forall i x, handles s !! i = Some x -> handles (run_all s es) !! i = Some x) /\
  (forall n a, tree s !! n = Some (a, true) -> tree (run_all s es) !! n = Some (a, true)).
Proof.
  revert s. induction es as [|e es IH]; intros s Hi; [done|]. destruct (step_keeps s e Hi) as [H1 H2], (IH (step s e) (scope_step_inv _ _ Hi)) as [H3 H4].
  split; [intros i x Hx; by apply H3, H1|intros n a Hn; by apply H4, H2].
Qed.

Lemma close_closes s h sc o : Inv s -> handles s !! h = Some (sc, o) -> exists a, tree (step s (Close h)) !! token sc = Some (a, true).
Proof.
  intros Hi Hh. cbn [step]. unfold with_handle. rewrite Hh. cbn. destruct (h_token _ _ _ _ (v_handles _ Hi _ _ _ Hh)) as [[[a c] Ha] Hself].
  unfold above in Hself. rewrite Ha in Hself. exists a. rewrite lookup_fmap, Ha. cbn. by rewrite bool_decide_eq_true_2, orb_true_r.
Qed.

(** ** Theorems *)

(** C26. Completion of a scope is exact.  After any sequence of creations, derivations, closings, work
    registrations and drops, waiting on a scope made by [new] or [child] is over exactly when no guard
    is alive that was taken from the scope, from a scope below it, or from a connection tracked by any
    of these: nothing registered is missed and nothing foreign is waited for. *)
Theorem scope_wait_exact es h sc o :
  handles (run_all init es) !! h = Some (sc, o) -> made o = true ->
  wait_over (run_all init es) sc = true <->
  forall g h' w, guards (run_all init es) !! g = Some (h', w) -> ~ derived (run_all init es) h h'.
Proof. intros Hh Ho. eapply wait_iff; [apply run_all_inv, init_inv|exact Hh|exact Ho]. Qed.

(** A caller's scope 1, a carrier 2 with a child 3 that the caller tracks as handle 4, and a guard. *)
Definition demo : list event := [New; New; Child 2; Track_by 3 1; Track 4].

Lemma scope_wait_exact_witness :
  exists sc, wait_over (run_all init demo) sc = true <->
    forall g h' w, guards (run_all init demo) !! g = Some (h', w) -> ~ derived (run_all init demo) 1 h'.
Proof. exists (mkScope 1 [1]). apply (scope_wait_exact demo 1 (mkScope 1 [1]) Root); reflexivity. Defined.

(** Closing reaches everything below.  Once a scope has been closed, it and every scope derived
    from it as a child or by tracking, whether derived before the closing or after it, is closed in
    every later state: registering work fails and leaves every counter as it was, and running work
    returns the cancellation error whatever the work's own result would be. *)
Theorem scope_close_final es1 h es2 x h' sc' o' :
  let s := run_all init (es1 ++ Close h :: es2) in
  handles (run_all init es1) !! h = Some x -> below s h h' -> handles s !! h' = Some (sc', o') ->
  is_closed s sc' = true /\ track s h' sc' = (s, Err ScopeClosed) /\
  forall (work : option (res error Z)), run s sc' work = Some (Err ScopeClosed).
Proof.
  intros s Hx Hb Hh'. destruct x as [sc o]. assert (Hi1 : Inv (run_all init es1)) by apply run_all_inv, init_inv.
  assert (Hs : s = run_all (step (run_all init es1) (Close h)) es2) by (unfold s, run_all; by rewrite foldl_app).
  assert (Hi : Inv s) by (rewrite Hs; by apply run_all_inv, scope_step_inv).
  destruct (close_closes _ _ _ _ Hi1 Hx) as [a Ha]. destruct (run_all_keeps _ es2 (scope_step_inv _ (Close h) Hi1)) as [Hkh Hkt]. rewrite <- Hs in Hkh, Hkt.
  pose proof (Hkh _ _ (proj1 (step_keeps _ (Close h) Hi1) _ _ Hx)) as Hh. assert (Hc : is_closed s sc' = true).
  { eapply closed_below; [done|exact Hb|exact Hh|exact Hh'|]. unfold is_closed. by rewrite (Hkt _ _ Ha). }
  split_and!; [done| |intros work; unfold run; by rewrite Hc]. unfold track. rewrite Hc, bumps_back. by destruct s.
Qed.

Lemma scope_close_final_witness :
  exists sc', is_closed (run_all init (demo ++ Close 2 :: [Child 4])) sc' = true.
Proof.
  exists (mkScope 6 [1; 2; 3; 6]). eapply (scope_close_final demo 2 [Child 4] _ 6); [vm_compute; reflexivity| |vm_compute; reflexivity].
  eapply (below_child _ _ 4); [|vm_compute; reflexivity]. eapply (below_tracked _ _ 3); [|vm_compute; reflexivity].
  eapply (below_child _ _ 2); [|vm_compute; reflexivity]. eapply below_refl. vm_compute. reflexivity.
Defined.
End Scope.
