(* ===== verification/TcpConnection.v ===== *)
(** * TCP connections of the packet interface (crates/tun/src/tcp.rs, tcp_direct.rs)

    A connection is shared by two threads.  The receive worker owns the socket with its two buffers;
    the application owns a stream handle.  They exchange blocks over two lock-free queues, credit over
    atomic counters, and notifications over flags and a ready channel.  Both sides are written as small
    steps, one access to shared memory each, so that every interleaving of them is a sequence of steps.
    After a hand-over the worker itself moves bytes between the socket and another stream.

    The counters [rx_used], [rx_consumed], [tx_used], [tx_acked], [rx_target] and [tx_target] of the
    source are the atomics inside the two [Storage] values; here they are fields of those. *)

From S2P Require Import Prelude Capacity TcpStorage.

Module Tcp.

Notation Storage := TcpStorage.Storage.

Definition INITIAL : Z := 128 * 1024.
Definition MAX_WINDOW : Z := Z.shiftl 65535 7.
Definition HANDSHAKE_TIMEOUT : Z := 30 * 1000000000.

(** ** The socket *)

(** [smoltcp::socket::tcp::State] *)
Inductive State := Closed | Listen | SynSent | SynReceived | Established | FinWait1 | FinWait2 | CloseWait | Closing | LastAck | TimeWait.
#[export] Instance State_eq_dec : EqDecision State.
Proof. solve_decision. Defined.

Inductive PollAt := Now | At (at_ : Z) | Ingress.

(** The protocol engine, beside the two buffers.  [process] gives the new protocol state, what it does
    to the receive buffer, how many bytes of the transmit buffer are acknowledged, and whether it
    answers at once.  [assembler] is its record of the ranges of the stream that it has written to the
    receive buffer, by which it decides what to publish.  [dispatch] gives the state after its timers, whether it resets the buffers, and
    the state after emitting the next packet if there is one. *)
Class Socket := {
  Proto : Type;
  Seg : Type;
  listening : Proto;
  state : Proto -> State;
  assembler : Proto -> list (Z * Z);
  is_rst : Seg -> bool;
  carries : (Z -> Z) -> Seg -> Prop;
  accepts : Proto -> Seg -> bool;
  process : Z -> Proto -> Storage -> Storage -> Seg -> Proto * list TcpStorage.rx_call * Z * bool;
  received : Proto -> Z -> Proto;
  sent : Proto -> Z -> Proto;
  close : Proto -> Proto;
  abort : Proto -> Proto;
  dispatch : Z -> Proto -> Storage -> Storage -> Proto * bool * option Proto;
  poll_at : Z -> Proto -> Storage -> Storage -> PollAt;
}.

(** The receive half is open in these states, the transmit half in those. *)
Definition receiving (st : State) : bool := match st with Established | FinWait1 | FinWait2 => true | _ => false end.
Definition sending (st : State) : bool := match st with Established | CloseWait => true | _ => false end.

(** Handshake, open for receiving, past the peer's FIN, closed: a connection only moves forward. *)
Definition phase (st : State) : Z :=
  match st with
  | Listen | SynSent | SynReceived => 0
  | Established | FinWait1 | FinWait2 => 1
  | CloseWait | Closing | LastAck | TimeWait => 2
  | Closed => 3
  end.

(** The same for the transmit half. *)
Definition tx_phase (st : State) : Z :=
  match st with
  | Listen | SynSent | SynReceived => 0
  | Established | CloseWait => 1
  | FinWait1 | FinWait2 | Closing | LastAck | TimeWait => 2
  | Closed => 3
  end.

Definition forward (a b : State) : Prop := phase a <= phase b /\ tx_phase a <= tx_phase b.

(** The socket's record is kept as long as it is not closed. *)
Definition follows `{Socket} (ws : list (Z * Z)) (p : Proto) : Prop := state p = Closed \/ assembler p = ws.

(** What the development relies on. *)
Class SocketLaws `{Socket} := {
  listening_state : state listening = Listen;
  received_state : forall p n, state (received p n) = state p;
  sent_state : forall p n, state (sent p n) = state p;
  abort_state : forall p, state (abort p) = Closed;
  close_forward : forall p, forward (state p) (state (close p));
  accepts_closed : forall p seg, accepts p seg = true -> state p <> Closed;
  (* the state diagram of RFC 9293 *)
  process_forward : forall now p rx tx seg, forward (state p) (state (fst (fst (fst (process now p rx tx seg)))));
  dispatch_forward : forall now p rx tx, forward (state p) (state (fst (fst (dispatch now p rx tx))));
  emitted_forward : forall now p rx tx q, snd (dispatch now p rx tx) = Some q -> forward (state (fst (fst (dispatch now p rx tx)))) (state q);
  (* text after the FIN is ignored *)
  process_text : forall now p rx tx seg, 2 <= phase (state p) -> snd (fst (fst (process now p rx tx seg))) = [];
  (* only ranges that were written are published, nothing is consumed, and the record is kept *)
  process_calls : forall now p rx tx seg, (exists c, TcpStorage.published rx c) ->
    exists r, TcpStorage.rx_run (TcpStorage.mkReceiver rx (assembler p) []) (snd (fst (fst (process now p rx tx seg)))) = Some r /\
      TcpStorage.out r = [] /\ follows (TcpStorage.written r) (fst (fst (fst (process now p rx tx seg))));
  listening_assembler : assembler listening = [];
  received_assembler : forall p n, assembler (received p n) = assembler p;
  sent_assembler : forall p n, assembler (sent p n) = assembler p;
  close_assembler : forall p, assembler (close p) = assembler p;
  dispatch_assembler : forall now p rx tx, follows (assembler p) (fst (fst (dispatch now p rx tx)));
  emitted_assembler : forall now p rx tx q, snd (dispatch now p rx tx) = Some q -> follows (assembler (fst (fst (dispatch now p rx tx)))) q;
  process_carries : forall D now p rx tx seg, carries D seg -> Forall (TcpStorage.segment_of D) (snd (fst (fst (process now p rx tx seg))));
  (* only bytes in the buffer are acknowledged *)
  process_acked : forall now p rx tx seg, 0 <= TcpStorage.length tx -> 0 <= snd (fst (process now p rx tx seg)) <= TcpStorage.length tx;
  (* the buffers are reset when a connection is over *)
  dispatch_clears : forall now p rx tx, snd (fst (dispatch now p rx tx)) = true -> state (fst (fst (dispatch now p rx tx))) = Closed;
}.

Section Connection.
Context `{Socket}.

(** [Socket::may_recv], [Socket::can_recv] *)
Definition may_recv (p : Proto) (rx : Storage) : bool := receiving (state p) || (0 <? TcpStorage.length rx).
Definition can_recv (p : Proto) (rx : Storage) : bool := may_recv p rx && (0 <? TcpStorage.length rx).

(** ** Shared state *)

(** [Shared]: the queues, the flags, and the messages for this connection in the ready channel. *)
Record Shared := mkShared {
  attachment : Z;
  incoming : list bytes;
  outgoing : list bytes;
  eof : bool;
  finish : bool;
  aborted : bool;
  reset : bool;
  queued : bool;
  ready : Z;
}.

(** [Stream] *)
Record Stream := mkStream { head : bytes; read_eof : bool; write_eof : bool }.

(** [direct::Direct] *)
Record Direct := mkDirect {
  upload : list bytes;
  download : bytes;
  peer_eof : bool;
  upload_done : bool;
  d_sent : Z;
  d_received : Z;
}.

(** [Connection]; [admission] says whether it still holds the stream for the application. *)
Record Connection := mkConnection {
  proto : Proto;
  rx : Storage;
  tx : Storage;
  admission : bool;
  epoch : Z;
  started : bool;
  rx_capacity : Capacity.t;
  tx_capacity : Capacity.t;
  closed_normally : bool;
  direct : option Direct;
  handed_over : bool;
}.

(** [io::Error], and what the calls of a stream return. *)
Inductive error := ConnectionReset | BrokenPipe | PeerError.
Inductive result :=
  | Pending
  | Failed (e : error)
  | Read (b : bytes)
  | Chunk (b : bytes)
  | Wrote (n : Z)
  | Unit
  | Declined
  | Transferred (sent received : Z).

(** What follows a notification: the call returns, the hand-over is awaited, or the handle is gone. *)
Inductive after := Return (r : result) | Await | Ended.

(** Where the application's call is. *)
Inductive app_pc :=
  | Idle (last : option result)
  | ReadReset (want : Z)
  | ReadLoop (want : Z) (acc : bytes)
  | ReadEof (want : Z)
  | ReadAgain (want : Z)
  | ChunkReset
  | ChunkPop
  | ChunkEof
  | ChunkAgain
  | ReleaseUsed (n : Z) (r : result)
  | ReleaseConsumed (n : Z) (r : result)
  | WriteReset (chunk : bool) (data : bytes)
  | WriteTarget (chunk : bool) (data : bytes)
  | WriteUsed (chunk : bool) (data : bytes) (target : Z)
  | WriteAdd (b : bytes)
  | WritePush (b : bytes)
  | FlushReset
  | ShutdownReset
  | ShutdownFinish
  | TakeOverPush
  | AbortStore (k : after)
  | WakeSwap (k : after)
  | WakeSend (k : after)
  | Awaiting
  | Dropped.

(** Where the stream is before the application has it, and whether the acceptor still waits for it. *)
Inductive holder := Admission | InChannel | Application.

(** [Progress] *)
Inductive Progress := PIdle (deadline : option Z) | Again | Blocked | PClosed.

(** Whether a turn is a poll or the processing of a packet. *)
Inductive turn := Poll (stopping : bool) | Packet (seg : Seg).

(** Where the worker is. *)
Inductive worker_pc :=
  | Resting
  | RefreshSwap (t : turn)
  | RefreshStore (t : turn)
  | Process (seg : Seg)
  | AbortLoad (stopping : bool)
  | AttachPop (stopping : bool)
  | DirectPoll (stopping : bool)
  | Admit (stopping : bool)
  | OutPop (stopping : bool) (k : nat)
  | FinishLoad (stopping : bool)
  | FinishEmpty (stopping : bool)
  | RecvCheck (stopping : bool)
  | RecvTake (stopping : bool) (k : nat) (count : Z)
  | RecvAdd (stopping : bool) (k : nat) (count : Z) (b : bytes)
  | RecvPush (stopping : bool) (k : nat) (count : Z) (b : bytes)
  | EofStore (stopping : bool)
  | ResetStore (stopping : bool)
  | WaitCheck (stopping : bool)
  | Dispatch (k : nat)
  | More
  | Gone.

(** What the application and the network saw: bytes the application received and submitted, bytes taken
    out of the receive buffer and put into the transmit buffer, whether the socket was closed
    because the application had finished, and whether the application handed its stream over. *)
Record history := mkHistory { delivered : bytes; submitted : bytes; taken : bytes; pushed : bytes; leased : Z; fin : bool; handing : bool }.

Record sys := mkSys {
  sh : Shared;
  st : Stream;
  at_ : holder;
  accepting : bool;
  completion : option result;
  pc : app_pc;
  conn : Connection;
  wpc : worker_pc;
  progress : option Progress;
  hist : history;
}.

(** ** Field updates *)

Definition set_attachment n h := mkShared n (incoming h) (outgoing h) (eof h) (finish h) (aborted h) (reset h) (queued h) (ready h).
Definition set_incoming q h := mkShared (attachment h) q (outgoing h) (eof h) (finish h) (aborted h) (reset h) (queued h) (ready h).
Definition set_outgoing q h := mkShared (attachment h) (incoming h) q (eof h) (finish h) (aborted h) (reset h) (queued h) (ready h).
Definition set_eof h := mkShared (attachment h) (incoming h) (outgoing h) true (finish h) (aborted h) (reset h) (queued h) (ready h).
Definition set_finish h := mkShared (attachment h) (incoming h) (outgoing h) (eof h) true (aborted h) (reset h) (queued h) (ready h).
Definition set_aborted h := mkShared (attachment h) (incoming h) (outgoing h) (eof h) (finish h) true (reset h) (queued h) (ready h).
Definition set_reset h := mkShared (attachment h) (incoming h) (outgoing h) (eof h) (finish h) (aborted h) true (queued h) (ready h).
Definition set_queue q n h := mkShared (attachment h) (incoming h) (outgoing h) (eof h) (finish h) (aborted h) (reset h) q n.

Definition set_proto p c := mkConnection p (rx c) (tx c) (admission c) (epoch c) (started c) (rx_capacity c) (tx_capacity c) (closed_normally c) (direct c) (handed_over c).
Definition set_rx b c := mkConnection (proto c) b (tx c) (admission c) (epoch c) (started c) (rx_capacity c) (tx_capacity c) (closed_normally c) (direct c) (handed_over c).
Definition set_tx b c := mkConnection (proto c) (rx c) b (admission c) (epoch c) (started c) (rx_capacity c) (tx_capacity c) (closed_normally c) (direct c) (handed_over c).
Definition set_admission a c := mkConnection (proto c) (rx c) (tx c) a (epoch c) (started c) (rx_capacity c) (tx_capacity c) (closed_normally c) (direct c) (handed_over c).
Definition set_started b c := mkConnection (proto c) (rx c) (tx c) (admission c) (epoch c) b (rx_capacity c) (tx_capacity c) (closed_normally c) (direct c) (handed_over c).
Definition set_capacity a b c := mkConnection (proto c) (rx c) (tx c) (admission c) (epoch c) (started c) a b (closed_normally c) (direct c) (handed_over c).
Definition set_normal b c := mkConnection (proto c) (rx c) (tx c) (admission c) (epoch c) (started c) (rx_capacity c) (tx_capacity c) b (direct c) (handed_over c).
Definition set_direct d b c := mkConnection (proto c) (rx c) (tx c) (admission c) (epoch c) (started c) (rx_capacity c) (tx_capacity c) (closed_normally c) d b.

(** The credit atomics of a buffer. *)
Definition set_used n (b : Storage) := TcpStorage.mkStorage (TcpStorage.blocks b) (TcpStorage.head b) (TcpStorage.length b) (TcpStorage.target b) n (TcpStorage.released b) (TcpStorage.tx b) (TcpStorage.scratch b).
Definition set_released n (b : Storage) := TcpStorage.mkStorage (TcpStorage.blocks b) (TcpStorage.head b) (TcpStorage.length b) (TcpStorage.target b) (TcpStorage.outstanding b) n (TcpStorage.tx b) (TcpStorage.scratch b).
Definition set_target n (b : Storage) := TcpStorage.mkStorage (TcpStorage.blocks b) (TcpStorage.head b) (TcpStorage.length b) n (TcpStorage.outstanding b) (TcpStorage.released b) (TcpStorage.tx b) (TcpStorage.scratch b).

Definition with_sh h s := mkSys h (st s) (at_ s) (accepting s) (completion s) (pc s) (conn s) (wpc s) (progress s) (hist s).
Definition with_st x s := mkSys (sh s) x (at_ s) (accepting s) (completion s) (pc s) (conn s) (wpc s) (progress s) (hist s).
Definition with_at x a s := mkSys (sh s) (st s) x a (completion s) (pc s) (conn s) (wpc s) (progress s) (hist s).
Definition with_completion x s := mkSys (sh s) (st s) (at_ s) (accepting s) x (pc s) (conn s) (wpc s) (progress s) (hist s).
Definition with_pc x s := mkSys (sh s) (st s) (at_ s) (accepting s) (completion s) x (conn s) (wpc s) (progress s) (hist s).
Definition with_conn x s := mkSys (sh s) (st s) (at_ s) (accepting s) (completion s) (pc s) x (wpc s) (progress s) (hist s).
Definition with_wpc x s := mkSys (sh s) (st s) (at_ s) (accepting s) (completion s) (pc s) (conn s) x (progress s) (hist s).
Definition with_progress x s := mkSys (sh s) (st s) (at_ s) (accepting s) (completion s) (pc s) (conn s) (wpc s) x (hist s).
Definition with_hist x s := mkSys (sh s) (st s) (at_ s) (accepting s) (completion s) (pc s) (conn s) (wpc s) (progress s) x.

Definition deliver b n x := mkHistory (delivered x ++ b) (submitted x) (taken x) (pushed x) (leased x + n) (fin x) (handing x).
Definition submit b x := mkHistory (delivered x) (submitted x ++ b) (taken x) (pushed x) (leased x) (fin x) (handing x).
Definition note_taken b x := mkHistory (delivered x) (submitted x) (taken x ++ b) (pushed x) (leased x) (fin x) (handing x).
Definition note_pushed b x := mkHistory (delivered x) (submitted x) (taken x) (pushed x ++ b) (leased x) (fin x) (handing x).
Definition note_fin x := mkHistory (delivered x) (submitted x) (taken x) (pushed x) (leased x) true (handing x).
Definition note_handing x := mkHistory (delivered x) (submitted x) (taken x) (pushed x) (leased x) (fin x) true.

Definition rx_used (s : sys) : Z := TcpStorage.outstanding (rx (conn s)).
Definition tx_used (s : sys) : Z := TcpStorage.outstanding (tx (conn s)).

(** ** The application *)

(** A call returns. *)
Definition return_ (r : result) (s : sys) : sys := with_pc (Idle (Some r)) s.

(** One iteration of the copying loop of [poll_read]. *)
Definition read_iteration (want : Z) (acc : bytes) (s : sys) : sys :=
  let stop := if len acc =? 0 then with_pc (ReadEof want) s else with_pc (ReleaseUsed (len acc) (Read acc)) s in
  let copy b s := let n := Z.min want (len b) in
    with_pc (ReadLoop (want - n) (acc ++ ztake n b)) (with_st (mkStream (zdrop n b) (read_eof (st s)) (write_eof (st s))) s) in
  if want =? 0 then stop
  else if len (head (st s)) =? 0 then
    match incoming (sh s) with
    | [] => stop
    | b :: q => copy b (with_sh (set_incoming q (sh s)) s)
    end
  else copy (head (st s)) s.

(** The last look at the queue after the end of the stream was seen. *)
Definition pop_after_eof (found : bytes -> sys -> sys) (empty : result) (s : sys) : sys :=
  match incoming (sh s) with
  | b :: q => found b (with_sh (set_incoming q (sh s)) s)
  | [] => return_ empty (with_st (mkStream (head (st s)) true (write_eof (st s))) s)
  end.

(** [poll_read_chunk] after its reset check. *)
Definition chunk_pop (s : sys) : sys :=
  let s := if len (head (st s)) =? 0 then
             match incoming (sh s) with
             | b :: q => with_st (mkStream b (read_eof (st s)) (write_eof (st s))) (with_sh (set_incoming q (sh s)) s)
             | [] => s
             end
           else s in
  if len (head (st s)) =? 0 then with_pc ChunkEof s
  else return_ (Chunk (head (st s)))
         (with_hist (deliver (head (st s)) (len (head (st s))) (hist s)) (with_st (mkStream [] (read_eof (st s)) (write_eof (st s))) s)).

(** How much of [data] is accepted. *)
Definition write_room (chunk : bool) (data : bytes) (target used : Z) : Z :=
  let n := Z.min (len data) (sat_sub target used) in if chunk then n else Z.min n 65536.

Definition finish_wake (k : after) (s : sys) : sys :=
  match k with
  | Return r => return_ r s
  | Await => with_pc Awaiting s
  | Ended => with_pc Dropped s
  end.

(** The application's next step inside its call. *)
Definition app_step (s : sys) : option sys :=
  match pc s with
  | Idle _ | Dropped => None
  | ReadReset want => Some (if reset (sh s) then return_ (Failed ConnectionReset) s else with_pc (ReadLoop want []) s)
  | ReadLoop want acc => Some (read_iteration want acc s)
  | ReadEof want => Some (if eof (sh s) then with_pc (ReadAgain want) s else return_ Pending s)
  | ReadAgain want => Some (pop_after_eof (fun b s => with_pc (ReadReset want) (with_st (mkStream b (read_eof (st s)) (write_eof (st s))) s)) (Read []) s)
  | ChunkReset => Some (if reset (sh s) then return_ (Failed ConnectionReset) s else with_pc ChunkPop s)
  | ChunkPop => Some (chunk_pop s)
  | ChunkEof => Some (if eof (sh s) then with_pc ChunkAgain s else return_ Pending s)
  | ChunkAgain => Some (pop_after_eof (fun b s => return_ (Chunk b) (with_hist (deliver b (len b) (hist s)) s)) (Chunk []) s)
  | ReleaseUsed n r =>
      Some (with_pc (ReleaseConsumed n r) (with_conn (set_rx (set_used (wrap_sub (rx_used s) n) (rx (conn s))) (conn s)) s))
  | ReleaseConsumed n r =>
      let s' := with_conn (set_rx (set_released (wrap_add (TcpStorage.released (rx (conn s))) n) (rx (conn s))) (conn s)) s in
      Some (with_pc (WakeSwap (Return r)) (match r with Read b => with_hist (deliver b 0 (hist s')) s' | _ => s' end))
  | WriteReset chunk data =>
      Some (if reset (sh s) then return_ (Failed ConnectionReset) s
            else if write_eof (st s) then return_ (Failed BrokenPipe) s
            else if negb chunk && (len data =? 0) then return_ (Wrote 0) s
            else with_pc (WriteTarget chunk data) s)
  | WriteTarget chunk data => Some (with_pc (WriteUsed chunk data (TcpStorage.target (tx (conn s)))) s)
  | WriteUsed chunk data target =>
      let n := write_room chunk data target (tx_used s) in
      Some (if n =? 0 then return_ Pending s else with_pc (WriteAdd (ztake n data)) s)
  | WriteAdd b => Some (with_pc (WritePush b) (with_conn (set_tx (set_used (wrap_add (tx_used s) (len b)) (tx (conn s))) (conn s)) s))
  | WritePush b =>
      Some (with_pc (WakeSwap (Return (Wrote (len b)))) (with_hist (submit b (hist s)) (with_sh (set_outgoing (outgoing (sh s) ++ [b]) (sh s)) s)))
  | FlushReset => Some (return_ (if reset (sh s) then Failed ConnectionReset else Unit) s)
  | ShutdownReset =>
      Some (if reset (sh s) then return_ (Failed ConnectionReset) s
            else with_pc ShutdownFinish (with_st (mkStream (head (st s)) (read_eof (st s)) true) s))
  | ShutdownFinish => Some (with_pc (WakeSwap (Return Unit)) (with_sh (set_finish (sh s)) s))
  | TakeOverPush => Some (with_pc (WakeSwap Await) (with_sh (set_attachment (attachment (sh s) + 1) (sh s)) s))
  | AbortStore k => Some (with_pc (WakeSwap k) (with_sh (set_aborted (sh s)) s))
  | WakeSwap k =>
      Some (if queued (sh s) then finish_wake k s else with_pc (WakeSend k) (with_sh (set_queue true (ready (sh s)) (sh s)) s))
  | WakeSend k => Some (finish_wake k (with_sh (set_queue (queued (sh s)) (ready (sh s) + 1) (sh s)) s))
  | Awaiting =>
      match completion s with
      | Some (Transferred a b) => Some (return_ (Transferred a b) (with_completion None (with_st (mkStream (head (st s)) true true) s)))
      | Some r => Some (with_pc (AbortStore (Return r)) (with_completion None s))
      | None => None
      end
  end.

(** The calls of the application.  [consume_chunk] gives back what [poll_read_chunk] lent, a stream is
    handed over before anything was written to it, and after that it is only dropped. *)
Inductive call :=
  | PollRead (want : Z)
  | PollReadChunk
  | ConsumeChunk (n : Z)
  | PollWrite (data : bytes)
  | PollWriteChunk (data : bytes)
  | PollFlush
  | PollShutdown
  | TakeOver
  | CancelTakeOver
  | DropStream
  | DropAccept
  | PollAccept.

Definition both_eof (s : sys) : bool := read_eof (st s) && write_eof (st s).

Definition app_call (c : call) (s : sys) : option sys :=
  match c, at_ s, pc s with
  | CancelTakeOver, Application, Awaiting => Some (with_pc (AbortStore (Return Pending)) s)
  | DropStream, Application, Idle _ => Some (with_pc (if both_eof s then WakeSwap Ended else AbortStore Ended) s)
  | PollAccept, InChannel, Idle _ => Some (with_at Application false s)
  | DropAccept, InChannel, Idle _ => Some (with_pc (AbortStore Ended) (with_at Application false s))
  | DropAccept, Admission, Idle _ => if accepting s then Some (with_pc (AbortStore Ended) (with_at Admission false s)) else None
  | c, Application, Idle _ =>
      if handing (hist s) then None else
      match c with
      | PollRead want => if want <? 0 then None else Some (if want =? 0 then return_ (Read []) s else with_pc (ReadReset want) s)
      | PollReadChunk => Some (with_pc ChunkReset s)
      | ConsumeChunk n =>
          if (0 <=? n) && (n <=? leased (hist s)) then Some (with_pc (ReleaseUsed n Unit) (with_hist (deliver [] (- n) (hist s)) s)) else None
      | PollWrite data => Some (with_pc (WriteReset false data) s)
      | PollWriteChunk data => Some (with_pc (WriteReset true data) s)
      | PollFlush => Some (with_pc FlushReset s)
      | PollShutdown => Some (with_pc ShutdownReset s)
      | TakeOver =>
          if negb (len (submitted (hist s)) =? 0) then None
          else Some (if negb (len (head (st s)) =? 0) || read_eof (st s) || write_eof (st s) then return_ Declined s
                     else with_pc TakeOverPush (with_hist (note_handing (hist s)) s))
      | _ => None
      end
  | _, _, _ => None
  end.

(** ** The direct transfer *)

(** What the peer stream answers during one poll: to a vectored write, to a shutdown, to a flush and to
    the reads, in order. *)
Inductive poll (A : Type) := PPending | PReady (a : A) | PFailed.
#[global] Arguments PPending {A}.
#[global] Arguments PReady {A}.
#[global] Arguments PFailed {A}.
Record Peer := mkPeer { on_write : list bytes -> poll Z; on_shutdown : poll unit; on_flush : poll unit; on_reads : list (poll bytes) }.

(** Blocks are taken out of the receive buffer while there is room in [upload]. *)
Fixpoint take_blocks (fuel : nat) (b : Storage) : Storage * list bytes :=
  match fuel with
  | O => (b, [])
  | S fuel => match TcpStorage.take b with
              | (b', Some x) => let '(b'', l) := take_blocks fuel b' in (b'', x :: l)
              | (b', None) => (b', [])
              end
  end.

(** The accepted prefix leaves the queue; [None] is the panic on a peer that accepts more than it was offered. *)
Fixpoint advance (count : Z) (l : list bytes) : option (list bytes) :=
  if count <=? 0 then Some l else
  match l with
  | [] => None
  | b :: l => if len b <=? count then advance (count - len b) l else Some (zdrop count b :: l)
  end.

Definition wake (h : Shared) : Shared := if queued h then h else set_queue true (ready h + 1) h.

(** Everything a direct transfer touches. *)
Definition area : Type := Shared * Connection * Direct * history.

Definition is_nil (l : list bytes) : bool := match l with [] => true | _ => false end.

(** [Direct::upload]: the queue is filled ... *)
Definition upload_fill (a : area) : area :=
  let '(h, c, d, x) := a in
  let room := (32 - length (upload d))%nat in
  let u := upload d ++ firstn room (incoming h) in
  let h := set_incoming (skipn room (incoming h)) h in
  if (length u <? 32)%nat && can_recv (proto c) (rx c) then
    let '(b, l) := take_blocks (32 - length u)%nat (rx c) in
    let count := lsum len l in
    (h, set_proto (received (proto c) count) (set_rx (set_used (wrap_add (TcpStorage.outstanding b) count) b) c),
     mkDirect (u ++ l) (download d) (peer_eof d) (upload_done d) (d_sent d) (d_received d), note_taken (mjoin l) x)
  else (h, c, mkDirect u (download d) (peer_eof d) (upload_done d) (d_sent d) (d_received d), x).

(** ... offered to the peer ... *)
Definition upload_write (peer : Peer) (a : area) : option (area * poll unit) :=
  let '(h, c, d, x) := a in
  if is_nil (upload d) then Some (a, PReady tt) else
  match on_write peer (upload d) with
  | PPending => Some (a, PPending)
  | PFailed => Some (a, PFailed)
  | PReady count =>
      if count <=? 0 then Some (a, PFailed) else
      u ← advance count (upload d);
      let b := set_used (wrap_sub (TcpStorage.outstanding (rx c)) count) (rx c) in
      let b := set_released (wrap_add (TcpStorage.released b) count) b in
      Some ((h, set_rx b c, mkDirect u (download d) (peer_eof d) (upload_done d) (d_sent d + count) (d_received d),
             deliver (ztake count (mjoin (upload d))) 0 x), PReady tt)
  end.

(** ... and the peer is flushed, or shut down at the end of the stream. *)
Definition upload_end (peer : Peer) (a : area) : area * poll unit :=
  let '(h, c, d, x) := a in
  if negb (is_nil (upload d)) || can_recv (proto c) (rx c) || negb (is_nil (incoming h)) then ((wake h, c, d, x), PPending)
  else if negb (may_recv (proto c) (rx c)) then
    match on_shutdown peer with
    | PReady _ => ((h, c, mkDirect (upload d) (download d) (peer_eof d) true (d_sent d) (d_received d), x), PReady tt)
    | r => (a, r)
    end
  else (a, match on_flush peer with PFailed => PFailed | _ => PPending end).

Definition upload_poll (peer : Peer) (a : area) : option (area * poll unit) :=
  if upload_done (snd (fst a)) then Some (a, PReady tt) else
  '(a, r) ← upload_write peer (upload_fill a);
  Some (match r with PReady _ => upload_end peer a | _ => (a, r) end).

(** [Direct::download]; the reads of one poll are answered in order. *)
Fixpoint download_poll (fuel : nat) (reads : list (poll bytes)) (a : area) : area * poll unit :=
  let '(h, c, d, x) := a in
  match fuel with
  | O => ((wake h, c, d, x), PPending)
  | S fuel =>
      if peer_eof d && (len (download d) =? 0) then (a, PReady tt) else
      let available := sat_sub (TcpStorage.target (tx c)) (TcpStorage.outstanding (tx c)) in
      if available =? 0 then (a, PPending) else
      let move reads b x :=
        let count := Z.min available (len b) in
        let t := set_used (wrap_add (TcpStorage.outstanding (tx c)) count) (tx c) in
        if sending (state (proto c)) then
          download_poll fuel reads
            (h, set_proto (sent (proto c) count) (set_tx (fst (TcpStorage.push t (ztake count b))) c),
             mkDirect (upload d) (zdrop count b) (peer_eof d) (upload_done d) (d_sent d) (d_received d + count), note_pushed (ztake count b) x)
        else ((h, set_tx t c, mkDirect (upload d) (zdrop count b) (peer_eof d) (upload_done d) (d_sent d) (d_received d), x), PFailed) in
      if len (download d) =? 0 then
        match reads with
        | PReady b :: reads =>
            if len b =? 0 then
              ((h, set_proto (close (proto c)) c, mkDirect (upload d) [] true (upload_done d) (d_sent d) (d_received d), note_fin x), PReady tt)
            else move reads b (submit b x)
        | PFailed :: _ => (a, PFailed)
        | PPending :: _ | [] => (a, PPending)
        end
      else move reads (download d) x
  end.

(** [Direct::poll]: whether both halves are done. *)
Definition direct_poll (peer : Peer) (a : area) : option (area * res error bool) :=
  '(a, u) ← upload_poll peer a;
  Some (match u with
        | PFailed => (a, Err PeerError)
        | _ => let '(a, d) := download_poll 32 (on_reads peer) a in
               (a, match u, d with
                   | _, PFailed => Err PeerError
                   | PReady _, PReady _ => Ok true
                   | _, _ => Ok false
                   end)
        end).

(** ** The worker *)

(** [Connection::new], with the stream it will hand out. *)
Definition init (now : Z) : sys :=
  let conn := mkConnection listening (TcpStorage.new INITIAL 0 0 false) (TcpStorage.new INITIAL 0 0 true) true now false
                (Capacity.new INITIAL now) (Capacity.new INITIAL now) false None false in
  mkSys (mkShared 0 [] [] false false false false false 0) (mkStream [] false false) Admission true None (Idle None) conn Resting None
    (mkHistory [] [] [] [] 0 false false).

(** [refresh]: the bytes consumed since the last turn are swapped out ... *)
Definition refresh_swap (now : Z) (c : Connection) : Connection :=
  set_capacity (Capacity.complete (rx_capacity c) (TcpStorage.released (rx c)) now)
    (Capacity.complete (tx_capacity c) (TcpStorage.released (tx c)) now)
    (set_rx (set_released 0 (rx c)) (set_tx (set_released 0 (tx c)) c)).

(** The socket's clock, in microseconds. *)
Definition host_now (now : Z) (c : Connection) : Z := sat_sub now (epoch c) `div` 1000.

(** ... and the targets are published. *)
Definition refresh_store (now : Z) (c : Connection) : Connection :=
  let '(a, n) := Capacity.target (rx_capacity c) now in
  let '(b, m) := Capacity.target (tx_capacity c) now in
  set_capacity a b (set_rx (set_target (Z.min n MAX_WINDOW) (rx c)) (set_tx (set_target (Z.min m MAX_WINDOW) (tx c)) c)).

(** [Connection::input] for a segment the socket accepts, after the refresh.  Its answer may be dropped by a full output queue. *)
Definition input (now : Z) (seg : Seg) (c : Connection) : option Connection :=
  let previous := state (proto c) in
  let '(p, calls, acked, _) := process (host_now now c) (proto c) (rx c) (tx c) seg in
  r ← TcpStorage.rx_run (TcpStorage.mkReceiver (rx c) (assembler (proto c)) []) calls;
  let c := set_tx (TcpStorage.dequeue_allocated (tx c) acked) (set_rx (TcpStorage.storage r) (set_proto p c)) in
  let c := if bool_decide (state p = TimeWait) || (bool_decide (previous = LastAck) && bool_decide (state p = Closed) && negb (is_rst seg))
           then set_normal true c else c in
  let c := if bool_decide (state p = SynReceived) then set_started true c else c in
  Some (if started c && bool_decide (state p = Listen) then set_proto (abort p) c else c).

(** What a packet offered to the output queue met with. *)
Inductive emission := Emitted | QueueFull | QueueClosed.

(** The environment of a step: the clock, the output queue and the attached peer. *)
Record env := mkEnv { now : Z; emits : emission; peer : Peer }.

(** The direct transfer of a turn: its poll, and what follows when it is over. *)
Definition direct_turn (e : env) (d : Direct) (s : sys) : option sys :=
  let over r c s := with_completion (Some r) (with_conn (set_direct None (handed_over c) c) s) in
  if bool_decide (state (proto (conn s)) = Closed) && negb (closed_normally (conn s))
  then Some (over (Failed ConnectionReset) (set_proto (abort (proto (conn s))) (conn s)) s)
  else
  '((h, c, d, x), r) ← direct_poll (peer e) (sh s, conn s, d, hist s);
  let s := with_hist x (with_sh h s) in
  Some (match r with
        | Ok false => with_conn (set_direct (Some d) (handed_over c) c) s
        | Ok true => over (Transferred (d_sent d) (d_received d)) c s
        | Err e => over (Failed e) (set_proto (abort (proto c)) c) s
        end).

(** The admission of the stream: handed to the acceptor, or dropped when that is gone. *)
Definition admit_connection (s : sys) : sys :=
  let c := conn s in
  if negb (admission c) then s
  else if accepting s then with_at InChannel true (with_conn (set_admission false c) s)
  else with_sh (wake (set_aborted (sh s))) (with_conn (set_admission false (set_proto (abort (proto c)) c)) s).

(** A block of the application goes to the transmit buffer. *)
Definition send_block (b : bytes) (s : sys) : sys * bool :=
  let c := conn s in
  if sending (state (proto c)) then
    (with_hist (note_pushed b (hist s)) (with_conn (set_proto (sent (proto c) (len b)) (set_tx (fst (TcpStorage.push (tx c) b)) c)) s), true)
  else (with_conn (set_proto (abort (proto c)) c) s, false).

(** Once the entry is dropped, the stream held for admission and the peer of a direct transfer go with it. *)
Definition drop_connection (s : sys) : sys :=
  let c := conn s in
  let h := if closed_normally c then sh s else set_reset (sh s) in
  let h := if admission c then wake (set_aborted h) else h in
  let s := match direct c with Some _ => with_completion (Some (Failed ConnectionReset)) s | None => s end in
  with_wpc Gone (with_sh h s).

(** The progress a poll reports, after nothing more can be sent. *)
Definition schedule (e : env) (c : Connection) (h : Shared) : Progress :=
  if negb (handed_over c) && (can_recv (proto c) (rx c) || negb (is_nil (outgoing h))) then Again else
  let limit := epoch c + HANDSHAKE_TIMEOUT in
  match poll_at (host_now (now e) c) (proto c) (rx c) (tx c) with
  | Now => Again
  | At t => let d := epoch c + 1000 * Z.max t 0 in PIdle (Some (if admission c then Z.min d limit else d))
  | Ingress => PIdle (if admission c then Some limit else None)
  end.

(** [drive] acts on the progress: the connection is woken, or its entry removed. *)
Definition rest (p : Progress) (s : sys) : sys :=
  match p with
  | Again => with_wpc Resting (with_progress (Some p) (with_sh (wake (sh s)) s))
  | PClosed => drop_connection s
  | _ => with_wpc Resting (with_progress (Some p) s)
  end.

(** One dispatch of the socket. *)
Definition dispatch_step (e : env) (k : nat) (s : sys) : sys :=
  let c := conn s in
  let '(p, clears, emitted) := dispatch (host_now (now e) c) (proto c) (rx c) (tx c) in
  let c := set_proto p (if clears : bool then set_tx (TcpStorage.clear (tx c)) (set_rx (TcpStorage.clear (rx c)) c) else c) in
  let go q sent s := let s := with_conn (set_proto q (conn s)) s in
    if bool_decide (state q = Closed) then rest PClosed s else with_wpc (if sent : bool then Dispatch k else More) s in
  match emitted, emits e with
  | None, _ => go p false (with_conn c s)
  | Some q, Emitted => go q true (with_conn c s)
  | Some _, QueueFull => rest Blocked (with_conn c s)
  | Some _, QueueClosed => rest PClosed (with_conn c s)
  end.

Definition in_wait (s : sys) : bool := bool_decide (state (proto (conn s)) = TimeWait).
Definition in_closed (s : sys) : bool := bool_decide (state (proto (conn s)) = Closed).

(** The worker's next step. *)
Definition worker_step (e : env) (s : sys) : option sys :=
  let c := conn s in
  match wpc s with
  | Resting | Gone => None
  | RefreshSwap t => Some (with_wpc (RefreshStore t) (with_conn (refresh_swap (now e) c) s))
  | RefreshStore t => Some (with_wpc (match t with Poll stop => AbortLoad stop | Packet seg => Process seg end) (with_conn (refresh_store (now e) c) s))
  | Process seg =>
      if accepts (proto c) seg then
        c ← input (now e) seg c; Some (with_wpc Resting (with_sh (wake (sh s)) (with_conn c s)))
      else Some (with_wpc Resting s)
  | AbortLoad stop =>
      Some (with_wpc (AttachPop stop) (if aborted (sh s) || (admission c && (epoch c + HANDSHAKE_TIMEOUT <=? now e)) then with_conn (set_proto (abort (proto c)) c) s else s))
  | AttachPop stop =>
      Some (with_wpc (DirectPoll stop)
              (if negb (handed_over c) && (0 <? attachment (sh s)) then
                 with_sh (set_attachment (attachment (sh s) - 1) (sh s)) (with_conn (set_direct (Some (mkDirect [] [] false false 0 0)) true c) s)
               else s))
  | DirectPoll stop =>
      s ← match direct c with Some d => direct_turn e d s | None => Some s end;
      Some (with_wpc (if handed_over (conn s) then WaitCheck stop else Admit stop) s)
  | Admit stop =>
      if sending (state (proto c)) then Some (with_wpc (OutPop stop 32) (admit_connection s)) else Some (with_wpc (RecvCheck stop) s)
  | OutPop stop k =>
      match k, outgoing (sh s) with
      | S k, b :: q =>
          let '(s, ok) := send_block b (with_sh (set_outgoing q (sh s)) s) in
          Some (with_wpc (if ok : bool then OutPop stop k else FinishLoad stop) s)
      | _, _ => Some (with_wpc (FinishLoad stop) s)
      end
  | FinishLoad stop => Some (with_wpc (if finish (sh s) then FinishEmpty stop else RecvCheck stop) s)
  | FinishEmpty stop =>
      Some (with_wpc (RecvCheck stop)
              (if is_nil (outgoing (sh s)) then with_hist (note_fin (hist s)) (with_conn (set_proto (close (proto c)) c) s) else s))
  | RecvCheck stop => Some (with_wpc (if can_recv (proto c) (rx c) then RecvTake stop 32 0 else EofStore stop) s)
  | RecvTake stop k count =>
      let stop_ := with_wpc (EofStore stop) (with_conn (set_proto (received (proto c) count) c) s) in
      match k with
      | O => Some stop_
      | S k => match TcpStorage.take (rx c) with
               | (b, Some x) => Some (with_wpc (RecvAdd stop k count x) (with_hist (note_taken x (hist s)) (with_conn (set_rx b c) s)))
               | (_, None) => Some stop_
               end
      end
  | RecvAdd stop k count b =>
      Some (with_wpc (RecvPush stop k (count + len b) b) (with_conn (set_rx (set_used (wrap_add (rx_used s) (len b)) (rx c)) c) s))
  | RecvPush stop k count b => Some (with_wpc (RecvTake stop k count) (with_sh (set_incoming (incoming (sh s) ++ [b]) (sh s)) s))
  | EofStore stop =>
      Some (with_wpc (ResetStore stop)
              (if negb (admission c) && negb (may_recv (proto c) (rx c)) && (negb (in_closed s) || closed_normally c) then with_sh (set_eof (sh s)) s else s))
  | ResetStore stop =>
      Some (with_wpc (WaitCheck stop) (if in_closed s && negb (closed_normally c) then with_sh (set_reset (sh s)) s else s))
  | WaitCheck stop =>
      Some (if in_wait s && stop then rest PClosed (with_conn (set_normal true c) s) else with_wpc (Dispatch 32) s)
  | Dispatch k => Some (match k with O => with_wpc More s | S k => dispatch_step e k s end)
  | More => Some (rest (schedule e c (sh s)) s)
  end.

(** ** Runs *)

(** A turn starts with a message of the ready channel, or for a timer or the output queue; a packet is
    processed between turns. *)
Inductive event :=
  | Call (c : call)
  | AppStep
  | StartReady (stopping : bool)
  | StartOther (stopping : bool)
  | Input (seg : Seg)
  | WorkerStep (e : env).

Definition step (s : sys) (ev : event) : option sys :=
  match ev with
  | Call c => app_call c s
  | AppStep => app_step s
  | StartReady stop =>
      match wpc s with
      | Resting => if 0 <? ready (sh s) then Some (with_wpc (RefreshSwap (Poll stop)) (with_sh (set_queue false (ready (sh s) - 1) (sh s)) s)) else None
      | _ => None
      end
  | StartOther stop =>
      match wpc s with
      | Resting => Some (with_wpc (RefreshSwap (Poll stop)) (with_sh (set_queue false (ready (sh s)) (sh s)) s))
      | _ => None
      end
  | Input seg => match wpc s with Resting => Some (with_wpc (RefreshSwap (Packet seg)) s) | _ => None end
  | WorkerStep e => worker_step e s
  end.

Fixpoint run (s : sys) (evs : list event) : option sys :=
  match evs with
  | [] => Some s
  | ev :: evs => s' ← step s ev; run s' evs
  end.
End Connection.
End Tcp.
