(* ===== verification/TcpTransfer.v ===== *)
(** * What a TCP connection promises (crates/tun/src/tcp.rs, tcp_direct.rs)

    The invariant of the two-thread machine of [TcpConnection], for every interleaving of the
    application, the worker and the network, and the promises that follow from it: the application
    reads the peer's stream in order and sees its end only after all of it, its own bytes enter the
    transmit buffer in order and before the FIN, the credit counters stay exact and bounded, and no
    notification of the worker is lost. *)

From S2P Require Import Prelude Capacity TcpStorage TcpConnection.

Module Transfer.
Import Tcp.

Section Transfer.
Context `{!Socket} `{!SocketLaws}.

(** ** Who may do what *)

Definition quiet (p : app_pc) : bool :=
  match p with Idle _ | AbortStore Ended | WakeSwap Ended | WakeSend Ended | Dropped => true | _ => false end.

(** Inside a call that is not made after a hand-over. *)
Definition busy (p : app_pc) : bool :=
  match p with
  | ReadReset _ | ReadLoop _ _ | ReadEof _ | ReadAgain _ | ChunkReset | ChunkPop | ChunkEof | ChunkAgain | ReleaseUsed _ _ | ReleaseConsumed _ _
  | WriteReset _ _ | WriteTarget _ _ | WriteUsed _ _ _ | WriteAdd _ | WritePush _ | FlushReset | ShutdownReset | ShutdownFinish => true
  | _ => false
  end.

Definition awaiting (p : app_pc) : bool :=
  match p with TakeOverPush | WakeSwap Await | WakeSend Await | AbortStore Await | Awaiting => true | _ => false end.

Definition writing (p : app_pc) : bool :=
  match p with WriteTarget _ _ | WriteUsed _ _ _ | WriteAdd _ | WritePush _ => true | _ => false end.

Definition read_ok (p : app_pc) (s : sys) : Prop :=
  match p with
  | ReadReset want => 0 < want
  | ReadLoop want acc => 0 <= want /\ (want = 0 -> acc <> [])
  | ReadEof want => 0 < want /\ head (st s) = []
  | ReadAgain want => 0 < want /\ head (st s) = [] /\ eof (sh s) = true
  | ChunkEof => head (st s) = []
  | ChunkAgain => head (st s) = [] /\ eof (sh s) = true
  | ReleaseUsed n r | ReleaseConsumed n r => 0 <= n /\ match r with Read b => n = len b | Unit => True | _ => False end
  | WriteAdd b | WritePush b => b <> []
  | _ => True
  end.

(** The worker is in the part of a poll that serves the application's stream, or about to send for it. *)
Definition serving (p : worker_pc) : bool :=
  match p with
  | Admit _ | OutPop _ _ | FinishLoad _ | FinishEmpty _ | RecvCheck _ | RecvTake _ _ _ | RecvAdd _ _ _ _ | RecvPush _ _ _ _ | EofStore _ | ResetStore _ => true
  | _ => false
  end.
Definition pushing (p : worker_pc) : bool := match p with OutPop _ _ | FinishLoad _ | FinishEmpty _ => true | _ => false end.

Record Shape (s : sys) : Prop := {
  g_owner : at_ s <> Application -> quiet (pc s) = true /\ st s = mkStream [] false false /\ submitted (hist s) = [] /\ delivered (hist s) = [] /\
    leased (hist s) = 0 /\ finish (sh s) = false /\ handing (hist s) = false /\ outgoing (sh s) = [];
  g_admission : admission (conn s) = true -> at_ s = Admission;
  g_busy : busy (pc s) = true -> handing (hist s) = false;
  g_await : awaiting (pc s) = true -> handing (hist s) = true;
  g_head : handing (hist s) = true -> head (st s) = [] /\ outgoing (sh s) = [];
  g_submitted : submitted (hist s) = [] -> outgoing (sh s) = [];
  g_attach : 0 <= attachment (sh s) /\ (0 < attachment (sh s) -> handing (hist s) = true);
  g_handed : handed_over (conn s) = true -> handing (hist s) = true;
  g_direct : direct (conn s) <> None -> handed_over (conn s) = true;
  g_write : writing (pc s) = true -> write_eof (st s) = false;
  g_finish : finish (sh s) = true -> write_eof (st s) = true;
  g_shutdown : pc s = ShutdownFinish -> write_eof (st s) = true;
  g_read : read_ok (pc s) s;
  g_leased : 0 <= leased (hist s);
  g_serving : serving (wpc s) = true -> handed_over (conn s) = false;
  g_pushing : pushing (wpc s) = true -> sending (state (proto (conn s))) = true \/ (at_ s = Admission /\ admission (conn s) = false);
  g_finishing : forall b, wpc s = FinishEmpty b -> finish (sh s) = true;
  g_blocks : Forall (fun b => b <> []) (incoming (sh s));
  g_hold : match wpc s with RecvAdd _ _ _ b | RecvPush _ _ _ b => b <> [] | _ => True end;
}.

Lemma init_shape now : Shape (init now).
Proof. constructor; cbn; try done. Qed.

(** The fields a step does not touch. *)
Ltac frame H := constructor;
  [ try exact (g_owner _ H) | try exact (g_admission _ H) | try exact (g_busy _ H) | try exact (g_await _ H) | try exact (g_head _ H)
  | try exact (g_submitted _ H) | try exact (g_attach _ H) | try exact (g_handed _ H) | try exact (g_direct _ H) | try exact (g_write _ H) | try exact (g_finish _ H)
  | try exact (g_shutdown _ H) | try exact (g_read _ H) | try exact (g_leased _ H) | try exact (g_serving _ H) | try exact (g_pushing _ H)
  | try exact (g_finishing _ H) | try exact (g_blocks _ H) | try exact (g_hold _ H) ].
Ltac easy_field := cbn; try done; try (intros; congruence).


Lemma call_shape c s s' : Shape s -> app_call c s = Some s' -> Shape s'.
Proof.
  intros Hs Hc. unfold app_call in Hc.
  destruct (at_ s) eqn:Hat, (pc s) eqn:Hpc; destruct c; try discriminate Hc.
  all: try (destruct (accepting s); [|discriminate Hc]).
  all: try (destruct (handing (hist s)) eqn:Hh; [discriminate Hc|]).
  all: repeat case_match; simplify_eq; zify_bool.
  all: frame Hs; easy_field.
  all: try (intros Ha; apply (g_admission _ Hs) in Ha; congruence).
  all: try (intros Hp; destruct (g_pushing _ Hs Hp) as [|[? ?]]; [by left|first [by right|congruence]]).
  - intros _. destruct (g_owner _ Hs) as (_ & ? & ?); [congruence|]. by split.
  - lia.
  - pose proof (g_leased _ Hs). lia.
  - intros _. split; [|by apply (g_submitted _ Hs), len_zero]. apply len_zero. tauto.
  - split; [apply (g_attach _ Hs)|done].
Qed.


Lemma not_quiet s : Shape s -> quiet (pc s) = false -> at_ s = Application.
Proof. intros Hs Hq. destruct (at_ s) eqn:Ha; [| |done]; (destruct (g_owner _ Hs) as [? _]; [congruence|congruence]). Qed.

Lemma app_shape s s' : Shape s -> app_step s = Some s' -> Shape s'.
Proof.
  intros Hs Hc. unfold app_step in Hc. pose proof (g_read _ Hs) as Hr. pose proof (g_busy _ Hs) as Hb. pose proof (g_await _ Hs) as Haw.
  pose proof (g_owner _ Hs) as Ho. pose proof (not_quiet _ Hs) as Happ. pose proof (g_leased _ Hs) as Hl. pose proof (g_blocks _ Hs) as Hbl.
  pose proof (g_write _ Hs) as Hwr. pose proof (g_attach _ Hs) as Hatt. pose proof (g_shutdown _ Hs) as Hsd.
  destruct (pc s) as [] eqn:Hpc; try discriminate Hc; cbn in Hr, Hb, Haw, Ho, Happ, Hwr.
  all: try specialize (Happ eq_refl); try specialize (Hb eq_refl); try specialize (Haw eq_refl); try specialize (Hwr eq_refl).
  all: unfold read_iteration, pop_after_eof, chunk_pop, finish_wake in Hc.
  all: repeat case_match; try discriminate Hc; injection Hc as <-; zify_bool.
  all: frame Hs; easy_field.
  all: try (intros Hna; by destruct (Hna Happ)).
  all: try (by apply Forall_cons in Hbl as [_ ?]).
  all: try match goal with |- context [len ?b] => pose proof (len_nonneg b) end.
  all: try lia.
  all: try (split; [lia|done]).
  all: try (intuition lia).
  all: try (intros Hna; specialize (Ho Hna); naive_solver).
  all: try match goal with |- _ <> [] -> _ => fail 1 | |- _ = [] => apply len_zero; lia end.
  all: try (apply Forall_cons in Hbl as [Hl0 _]).
  - exfalso. apply Hr; [lia|apply len_zero; lia].
  - split; [lia|]. apply len_zero. lia.
  - split; [lia|]. intros _ Hnil%app_nil. destruct Hnil as [_ Hnil]. apply (f_equal len) in Hnil. rewrite len_ztake in Hnil by (pose proof (len_nonneg l); lia).
    apply Hl0, len_zero. change (len (@nil Z)) with 0 in Hnil. lia.
  - split; [lia|]. intros _ Hnil%app_nil. destruct Hnil as [_ Hnil]. apply (f_equal len) in Hnil.
    rewrite len_ztake in Hnil by (pose proof (len_nonneg (head (st s))); lia). change (len (@nil Z)) with 0 in Hnil. lia.
  - apply len_zero. cbn in *. lia.
  - intros Hnil. apply (f_equal len) in Hnil. pose proof (len_nonneg data). unfold write_room, sat_sub in *.
    rewrite len_ztake in Hnil by (destruct chunk; lia). change (len (@nil Z)) with 0 in Hnil. destruct chunk; lia.
  - intros [_ ?]%app_nil. done.
Qed.

(** What a direct transfer leaves alone. *)
Record area_frame (a a' : area) : Prop := {
  f_shared : let h := fst (fst (fst a)) in let h' := fst (fst (fst a')) in
    attachment h' = attachment h /\ outgoing h' = outgoing h /\ eof h' = eof h /\ finish h' = finish h /\ aborted h' = aborted h /\ reset h' = reset h;
  f_incoming : exists k, incoming (fst (fst (fst a'))) = skipn k (incoming (fst (fst (fst a))));
  f_conn : let c := snd (fst (fst a)) in let c' := snd (fst (fst a')) in
    admission c' = admission c /\ handed_over c' = handed_over c /\ closed_normally c' = closed_normally c /\ forward (state (proto c)) (state (proto c'));
  f_hist : handing (snd a') = handing (snd a) /\ leased (snd a') = leased (snd a);
}.

Lemma forward_refl a : forward a a.
Proof. split; lia. Qed.

Lemma forward_trans a b c : forward a b -> forward b c -> forward a c.
Proof. intros [? ?] [? ?]. split; lia. Qed.

Lemma area_frame_refl a : area_frame a a.
Proof. constructor; [done|by exists 0%nat|split_and!; try done; apply forward_refl|done]. Qed.

Lemma area_frame_trans a b c : area_frame a b -> area_frame b c -> area_frame a c.
Proof.
  intros [S1 [k1 I1] C1 H1] [S2 [k2 I2] C2 H2]. constructor.
  - cbn in *. intuition congruence.
  - exists (k1 + k2)%nat. rewrite I2, I1. by rewrite drop_drop.
  - cbn in *. destruct C1 as (? & ? & ? & ?), C2 as (? & ? & ? & ?). split_and!; try congruence. by eapply forward_trans.
  - intuition congruence.
Qed.

Lemma wake_fields h :
  attachment (wake h) = attachment h /\ incoming (wake h) = incoming h /\ outgoing (wake h) = outgoing h /\ eof (wake h) = eof h /\
  finish (wake h) = finish h /\ aborted (wake h) = aborted h /\ reset (wake h) = reset h.
Proof. unfold wake. by destruct (queued h). Qed.

Lemma wake_frame h c d x d' x' :
  handing x' = handing x -> leased x' = leased x -> area_frame (h, c, d, x) (wake h, c, d', x').
Proof.
  intros Hh Hl. destruct (wake_fields h) as (H1 & H2 & H3 & H4 & H5 & H6 & H7).
  constructor; cbn; [done|exists 0%nat; by rewrite H2|split_and!; try done; apply forward_refl|done].
Qed.

Lemma upload_fill_frame a : area_frame a (upload_fill a).
Proof.
  destruct a as [[[h c] d] x]. unfold upload_fill. case_match; [destruct (take_blocks _ _) as [b l]|].
  all: constructor; cbn; [done|by eexists|split_and!; try done; rewrite ?received_state; apply forward_refl|done].
Qed.

Lemma upload_write_frame peer a a' r : upload_write peer a = Some (a', r) -> area_frame a a'.
Proof.
  destruct a as [[[h c] d] x]. unfold upload_write. intros Hw. repeat case_match; simplify_eq; try apply area_frame_refl.
  destruct (advance _ _) as [u|]; [|done]. cbn in Hw. injection Hw as <- _. constructor; cbn; [done|by exists 0%nat|split_and!; try done; apply forward_refl|split; [done|lia]].
Qed.

Lemma upload_end_frame peer a : area_frame a (fst (upload_end peer a)).
Proof.
  destruct a as [[[h c] d] x]. unfold upload_end. repeat case_match; cbn [fst]; try apply area_frame_refl; [by apply wake_frame|].
  constructor; cbn; [done|by exists 0%nat|split_and!; try done; apply forward_refl|done].
Qed.

Lemma upload_poll_frame peer a a' r : upload_poll peer a = Some (a', r) -> area_frame a a'.
Proof.
  unfold upload_poll. case_match; intros Hu; [simplify_eq; apply area_frame_refl|].
  destruct (upload_write _ _) as [[b q]|] eqn:Hw; [|done]. cbn in Hu. apply upload_write_frame in Hw.
  assert (Hb : area_frame a b) by (eapply area_frame_trans; [apply upload_fill_frame|done]).
  destruct q; [by simplify_eq| |by simplify_eq]. pose proof (upload_end_frame peer b) as He. destruct (upload_end peer b) as [e q]. simplify_eq.
  by eapply area_frame_trans.
Qed.

Lemma download_poll_frame fuel reads a : area_frame a (fst (download_poll fuel reads a)).
Proof.
  revert reads a. induction fuel as [|fuel IH]; intros reads [[[h c] d] x]; cbn [download_poll]; [by apply wake_frame|].
  destruct (peer_eof d && (len (download d) =? 0)); [apply area_frame_refl|]. destruct (_ =? 0); [apply area_frame_refl|].
  destruct (len (download d) =? 0).
  - destruct reads as [|[|b|] reads]; try apply area_frame_refl. destruct (len b =? 0).
    + constructor; cbn; [done|by exists 0%nat|split_and!; try done; apply close_forward|done].
    + destruct (sending (state (proto c))).
      * eapply area_frame_trans; [|apply IH]. constructor; cbn; [done|by exists 0%nat|split_and!; try done; rewrite sent_state; apply forward_refl|done].
      * constructor; cbn; [done|by exists 0%nat|split_and!; try done; apply forward_refl|done].
  - destruct (sending (state (proto c))).
    + eapply area_frame_trans; [|apply IH]. constructor; cbn; [done|by exists 0%nat|split_and!; try done; rewrite sent_state; apply forward_refl|done].
    + constructor; cbn; [done|by exists 0%nat|split_and!; try done; apply forward_refl|done].
Qed.

Lemma direct_poll_frame peer a a' r : direct_poll peer a = Some (a', r) -> area_frame a a'.
Proof.
  unfold direct_poll. destruct (upload_poll peer a) as [[b u]|] eqn:Hu; [|done]. cbn [mbind option_bind]. intros Hd. apply upload_poll_frame in Hu.
  pose proof (download_poll_frame 32 (on_reads peer) b) as Hb. destruct (download_poll 32 (on_reads peer) b) as [c q].
  assert (area_frame a c) by (by eapply area_frame_trans). destruct u; by simplify_eq.
Qed.

(** Two states that differ only in what the worker keeps to itself. *)
Record same_app (s s' : sys) : Prop := {
  sa_pc : pc s' = pc s; sa_st : st s' = st s; sa_at : at_ s' = at_ s; sa_hist : hist s' = hist s;
  sa_attachment : attachment (sh s') = attachment (sh s); sa_incoming : incoming (sh s') = incoming (sh s);
  sa_outgoing : outgoing (sh s') = outgoing (sh s); sa_finish : finish (sh s') = finish (sh s); sa_eof : eof (sh s') = eof (sh s);
  sa_admission : admission (conn s') = admission (conn s); sa_direct : direct (conn s') = direct (conn s);
  sa_handed : handed_over (conn s') = handed_over (conn s);
}.

Lemma same_app_shape s s' : Shape s -> same_app s s' -> serving (wpc s') = false -> Shape s'.
Proof.
  intros Hs [H1 H2 H3 H4 H5 H6 H7 H8 H9 H10 H11 H12] Hw. constructor; rewrite ?H1, ?H2, ?H3, ?H4, ?H5, ?H6, ?H7, ?H8, ?H9, ?H10, ?H11, ?H12; try apply Hs; try (destruct (wpc s'); done).
  pose proof (g_read _ Hs) as Hr. destruct (pc s); cbn in *; rewrite ?H2, ?H9; done.
Qed.

Lemma input_fields t seg c c' : input t seg c = Some c' ->
  admission c' = admission c /\ direct c' = direct c /\ handed_over c' = handed_over c.
Proof.
  unfold input. destruct (process _ _ _ _ _) as [[[p calls] acked] reply]. destruct (TcpStorage.rx_run _ _) as [r|]; [|done].
  cbn [mbind option_bind]. intros Hi. injection Hi as <-. repeat case_match; done.
Qed.

Lemma rest_same p s : same_app s (rest p s) /\ serving (wpc (rest p s)) = false.
Proof.
  destruct (wake_fields (sh s)) as (? & ? & ? & ? & ? & ? & ?). destruct p; cbn [rest]; try (split; [by constructor|done]).
  unfold drop_connection. set (h0 := if closed_normally (conn s) then sh s else set_reset (sh s)).
  destruct (wake_fields (set_aborted h0)) as (? & ? & ? & ? & ? & ? & ?). set (h1 := if admission (conn s) then wake (set_aborted h0) else h0).
  assert (attachment h1 = attachment (sh s) /\ incoming h1 = incoming (sh s) /\ outgoing h1 = outgoing (sh s) /\ finish h1 = finish (sh s) /\ eof h1 = eof (sh s)) as (? & ? & ? & ? & ?)
    by (unfold h1, h0 in *; repeat case_match; cbn in *; split_and!; congruence).
  destruct (direct (conn s)) eqn:Hd; (split; [constructor; done|done]).
Qed.

Lemma same_app_trans a b c : same_app a b -> same_app b c -> same_app a c.
Proof. intros [] []. constructor; congruence. Qed.

Lemma dispatch_same e k s : same_app s (dispatch_step e k s) /\ serving (wpc (dispatch_step e k s)) = false.
Proof.
  assert (Hr : forall r s', same_app s s' -> same_app s (rest r s') /\ serving (wpc (rest r s')) = false).
  { intros r s' Hs. destruct (rest_same r s') as [Hs' ?]. split; [|done]. by eapply same_app_trans. }
  unfold dispatch_step. destruct (dispatch _ _ _ _) as [[p clears] em]. destruct clears, em as [q|]; [destruct (emits e)| |destruct (emits e)|].
  all: repeat case_match; try (apply Hr); try (split; [|done]); by constructor.
Qed.

Lemma direct_turn_shape e d s s' w :
  Shape s -> direct (conn s) = Some d -> direct_turn e d s = Some s' -> serving w = false -> Shape (with_wpc w s') /\ handed_over (conn s') = true.
Proof.
  intros Hs Hd Ht Hw. assert (Hho : handed_over (conn s) = true) by (apply (g_direct _ Hs); by rewrite Hd).
  pose proof (g_handed _ Hs Hho) as Hhand. assert (Hat : at_ s = Application).
  { destruct (at_ s) eqn:Ha; [| |done]; (destruct (g_owner _ Hs) as (_ & _ & _ & _ & _ & _ & ? & _); [congruence|congruence]). }
  destruct (g_head _ Hs Hhand) as [Hhd Hout]. unfold direct_turn in Ht. case_match.
  { injection Ht as <-. split; [|done]. frame Hs; easy_field; destruct w; done. }
  destruct (direct_poll _ _) as [[[[[h c] d'] x] r]|] eqn:Hp; [|done]. apply direct_poll_frame in Hp as [(F1 & F2 & F3 & F4 & F5 & F6) [k Fi] (F7 & F8 & F9 & F10) (F11 & F12)]. cbn in *.
  injection Ht as <-. assert (Hbl : Forall (fun b : bytes => b <> []) (incoming h)) by (rewrite Fi; apply Forall_drop, (g_blocks _ Hs)).
  assert (Hrd : forall s', st s' = st s -> eof (sh s') = eof (sh s) -> read_ok (pc s) s').
  { intros s' E2 E3. pose proof (g_read _ Hs) as Hr. destruct (pc s); cbn in *; rewrite ?E2, ?E3; done. }
  destruct r as [[]|]; cbn; (split; [|congruence]); constructor; cbn; rewrite ?F1, ?F2, ?F4, ?F7, ?F8, ?F11, ?F12; try apply Hs; try done; try (destruct w; done); try (intros; congruence); try by apply Hrd.
Qed.

Lemma application_handing s : Shape s -> handing (hist s) = true -> at_ s = Application.
Proof. intros Hs Hh. destruct (at_ s) eqn:Ha; [| |done]; (destruct (g_owner _ Hs) as (_ & _ & _ & _ & _ & _ & ? & _); [congruence|congruence]). Qed.

Lemma eof_read p s s' : read_ok p s -> st s' = st s -> (eof (sh s) = true -> eof (sh s') = true) -> read_ok p s'.
Proof. intros Hr Hst He. destruct p; cbn in *; rewrite ?Hst; naive_solver. Qed.

Lemma take_nonempty b b' x : (exists c, TcpStorage.published b c) -> TcpStorage.take b = (b', Some x) -> x <> [].
Proof. intros [c Hp] Ht. by apply (TcpStorage.take_spec _ _ _ _ Hp) in Ht as [? _]. Qed.

Lemma worker_shape e s s' : Shape s -> (exists c, TcpStorage.published (rx (conn s)) c) -> worker_step e s = Some s' -> Shape s'.
Proof.
  intros Hs Hpub Hc. unfold worker_step in Hc. pose proof (g_serving _ Hs) as Hsv. pose proof (g_pushing _ Hs) as Hpu. pose proof (g_hold _ Hs) as Hhd.
  destruct (wpc s) as [] eqn:Hw; try discriminate Hc; cbn in Hsv, Hpu, Hhd; try specialize (Hsv eq_refl); try specialize (Hpu eq_refl).
  - injection Hc as <-. by apply (same_app_shape s).
  - injection Hc as <-. apply (same_app_shape s); [done| |by destruct t]. unfold refresh_store. repeat case_match; by constructor.
  - destruct (accepts _ _); [|injection Hc as <-; by apply (same_app_shape s)]. destruct (input _ _ _) as [c'|] eqn:Hi; [|done]. cbn in Hc. injection Hc as <-.
    apply input_fields in Hi as (? & ? & ?). destruct (wake_fields (sh s)) as (? & ? & ? & ? & ? & ? & ?). by apply (same_app_shape s).
  - injection Hc as <-. apply (same_app_shape s); [done| |done]. case_match; by constructor.
  - injection Hc as <-. case_match; [|by apply (same_app_shape s)]. zify_bool. destruct (g_attach _ Hs) as [_ Ha].
    specialize (Ha ltac:(lia)). pose proof (application_handing _ Hs Ha). frame Hs; easy_field. split; [lia|done].
  - destruct (direct (conn s)) as [d|] eqn:Hd.
    + destruct (direct_turn e d s) as [s1|] eqn:Ht; [|done]. cbn in Hc. injection Hc as <-.
      destruct (direct_turn_shape _ _ _ _ (WaitCheck stopping) Hs Hd Ht eq_refl) as [Hs1 Hh1]. by rewrite Hh1.
    + cbn in Hc. injection Hc as <-. destruct (handed_over (conn s)) eqn:Hh; [by apply (same_app_shape s)|]. frame Hs; easy_field.
  - destruct (sending (state (proto (conn s)))) eqn:Hse; injection Hc as <-; [|frame Hs; easy_field]. unfold admit_connection.
    destruct (admission (conn s)) eqn:Ha; cbn [negb]; [|frame Hs; easy_field; intros; by left]. pose proof (g_admission _ Hs Ha) as Hat.
    assert (Hown := g_owner _ Hs ltac:(congruence)). destruct (accepting s).
    { frame Hs; easy_field; intros; by left. }
    destruct (wake_fields (set_aborted (sh s))) as (W1 & W2 & W3 & W4 & W5 & W6 & W7).
    constructor; cbn; rewrite ?W1, ?W2, ?W3, ?W5; try apply Hs; try done; [|intros; by right]. eapply eof_read; [apply (g_read _ Hs)|done|cbn; by rewrite W4].
  - destruct k as [|k]; [injection Hc as <-; frame Hs; easy_field|]. destruct (outgoing (sh s)) as [|b q] eqn:Hout; [injection Hc as <-; frame Hs; easy_field|].
    destruct Hpu as [Hse|[Hat Hadm]]; [|destruct (g_owner _ Hs) as (_ & _ & _ & _ & _ & _ & _ & ?); [congruence|congruence]].
    unfold send_block in Hc. cbn in Hc. rewrite Hse in Hc. cbn in Hc. injection Hc as <-. assert (Hat : at_ s = Application).
    { destruct (at_ s) eqn:Ha; [| |done]; (destruct (g_owner _ Hs) as (_ & _ & _ & _ & _ & _ & _ & ?); [congruence|congruence]). }
    frame Hs; easy_field.
    + intros Hh. destruct (g_head _ Hs Hh). congruence.
    + intros Hsub. pose proof (g_submitted _ Hs Hsub). congruence.
    + intros. left. by rewrite sent_state.
  - injection Hc as <-. destruct (finish (sh s)) eqn:Hf; frame Hs; easy_field.
  - injection Hc as <-. destruct (is_nil _); frame Hs; easy_field.
  - injection Hc as <-. destruct (can_recv _ _); frame Hs; easy_field.
  - destruct k as [|k]; [injection Hc as <-; frame Hs; easy_field|]. destruct (TcpStorage.take (rx (conn s))) as [b [x|]] eqn:Ht; injection Hc as <-; frame Hs; easy_field.
    by eapply take_nonempty.
  - injection Hc as <-. frame Hs; easy_field.
  - injection Hc as <-. frame Hs; easy_field. apply Forall_app_2; [apply Hs|by constructor].
  - injection Hc as <-. case_match; frame Hs; easy_field. eapply eof_read; [apply (g_read _ Hs)|done|done].
  - injection Hc as <-. case_match; frame Hs; easy_field.
  - injection Hc as <-. case_match; [|by apply (same_app_shape s)]. destruct (rest_same PClosed (with_conn (set_normal true (conn s)) s)) as [H2 H3].
    apply (same_app_shape s); [done| |done]. eapply same_app_trans; [|exact H2]. by constructor.
  - injection Hc as <-. destruct k as [|k]; [by apply (same_app_shape s)|]. destruct (dispatch_same e k s). by apply (same_app_shape s).
  - injection Hc as <-. destruct (rest_same (schedule e (conn s) (sh s)) s). by apply (same_app_shape s).
Qed.

(** ** The receive buffer *)

Lemma phase_closed st : phase st = 3 <-> st = Closed.
Proof. split; [by destruct st|by intros ->]. Qed.

Lemma forward_closed a b : forward a b -> a = Closed -> b = Closed.
Proof. intros [Hf _] ->. apply phase_closed. destruct b; cbn in *; lia. Qed.

Lemma rx_run_shift s ws out calls r :
  TcpStorage.rx_run (TcpStorage.mkReceiver s ws []) calls = Some r ->
  TcpStorage.rx_run (TcpStorage.mkReceiver s ws out) calls = Some (TcpStorage.mkReceiver (TcpStorage.storage r) (TcpStorage.written r) (out ++ TcpStorage.out r)).
Proof.
  assert (Hg : forall calls r r', TcpStorage.rx_run r calls = Some r' ->
    TcpStorage.rx_run (TcpStorage.mkReceiver (TcpStorage.storage r) (TcpStorage.written r) (out ++ TcpStorage.out r)) calls =
      Some (TcpStorage.mkReceiver (TcpStorage.storage r') (TcpStorage.written r') (out ++ TcpStorage.out r'))).
  { clear. induction calls as [|c calls IH]; intros r r' Hr; cbn [TcpStorage.rx_run] in *; [by simplify_eq|].
    destruct (TcpStorage.rx_step r c) as [r1|] eqn:Hs; [|done]. cbn in Hr. specialize (IH _ _ Hr).
    destruct c; cbn in Hs |- *; repeat case_match; simplify_eq; cbn in IH |- *; rewrite <- ?app_assoc; exact IH. }
  intros Hr. apply Hg in Hr. cbn in Hr. by rewrite app_nil_r in Hr.
Qed.

(** The bytes of a buffer do not depend on the credit atomics. *)
Definition same_bytes (a b : Storage) : Prop :=
  TcpStorage.blocks b = TcpStorage.blocks a /\ TcpStorage.head b = TcpStorage.head a /\ TcpStorage.length b = TcpStorage.length a /\ TcpStorage.tx b = TcpStorage.tx a.

Lemma same_bytes_published a b c : same_bytes a b -> TcpStorage.published a c -> TcpStorage.published b c.
Proof. intros (H1 & H2 & H3 & _) [P1 P2 P3 P4]. constructor; rewrite ?H1, ?H2, ?H3; done. Qed.

(** What the receive buffer holds of the stream [D] after [tk] was taken out of it, with the socket's record of what
    it wrote; a closed connection may have dropped its buffers. *)
Record receives (D : Z -> Z) (p : Proto) (b : Storage) (tk : bytes) : Prop := {
  v_published : exists c, TcpStorage.published b c;
  v_stream : (state p = Closed /\ TcpStorage.length b = 0) \/ exists ws, TcpStorage.rx_ok D (TcpStorage.mkReceiver b ws tk) /\ follows ws p;
  v_taken : TcpStorage.part_of D 0 tk;
  v_flag : TcpStorage.tx b = false;
}.

(** The socket moves on without touching the receive buffer. *)
Definition advances (p q : Proto) : Prop := forward (state p) (state q) /\ follows (assembler p) q.

Lemma advances_refl p : advances p p.
Proof. split; [apply forward_refl|by right]. Qed.

Lemma advances_trans p q r : advances p q -> advances q r -> advances p r.
Proof.
  intros [H1 H2] [H3 H4]. split; [by eapply forward_trans|]. destruct H4 as [?|H4]; [by left|]. destruct H2 as [H2|H2]; [left; by eapply forward_closed|right; congruence].
Qed.

Lemma abort_forward p : forward (state p) (state (abort p)).
Proof. rewrite abort_state. split; destruct (state p); cbn; lia. Qed.

Lemma abort_advances p : advances p (abort p).
Proof. split; [apply abort_forward|left; apply abort_state]. Qed.

Lemma sent_advances p n : advances p (sent p n).
Proof. split; [rewrite sent_state; apply forward_refl|right; apply sent_assembler]. Qed.

Lemma received_advances p n : advances p (received p n).
Proof. split; [rewrite received_state; apply forward_refl|right; apply received_assembler]. Qed.

Lemma close_advances p : advances p (close p).
Proof. split; [apply close_forward|right; apply close_assembler]. Qed.

Lemma receives_advances D p q b b' tk : receives D p b tk -> advances p q -> same_bytes b b' -> receives D q b' tk.
Proof.
  intros [[c Hp] Hs Ht Hf] [Hfw Hfo] Hb. pose proof Hb as (H1 & H2 & H3 & H4). constructor; [exists c; by eapply same_bytes_published| |done|congruence].
  destruct Hs as [[? ?]|(ws & [_ Hh Hby Hk Ho] & Hws)]; [left; split; [by eapply forward_closed|congruence]|right]. exists ws. split.
  - constructor; cbn in *; rewrite ?H1, ?H2, ?H3; try done. exists c. by eapply same_bytes_published.
  - destruct Hfo as [?|Hfo]; [by left|]. destruct Hws as [?|Hws]; [left; by eapply forward_closed|right; congruence].
Qed.

Lemma receives_take D p b tk b' x :
  receives D p b tk -> TcpStorage.take b = (b', Some x) -> receives D p b' (tk ++ x) /\ x <> [].
Proof.
  intros Hr Ht. destruct Hr as [[c Hp] Hs Htk Hf]. pose proof (TcpStorage.take_spec _ _ _ _ Hp Ht) as (Hx & c' & -> & Hp' & _ & _).
  split; [|done]. assert (Hok : exists ws, TcpStorage.rx_ok D (TcpStorage.mkReceiver b ws tk) /\ follows ws p).
  { destruct Hs as [[_ Hl]|Hok]; [|done]. exfalso. rewrite (TcpStorage.pub_length _ _ Hp) in Hl. apply len_zero, app_nil in Hl as [? _]. done. }
  destruct Hok as (ws & Hok & Hws). assert (Hok' : TcpStorage.rx_ok D (TcpStorage.mkReceiver b' ws (tk ++ x))).
  { eapply (TcpStorage.rx_step_ok D _ TcpStorage.Take); [exact Hok|done|]. cbn [TcpStorage.rx_step TcpStorage.storage]. by rewrite Ht. }
  constructor; [by eexists|right; by exists ws|apply Hok'|]. unfold TcpStorage.take in Ht. repeat case_match; simplify_eq; done.
Qed.

Lemma take_None D p b tk b' : receives D p b tk -> TcpStorage.take b = (b', None) -> TcpStorage.length b = 0.
Proof.
  intros [[c Hp] _ _ _] Ht. apply (TcpStorage.take_spec _ _ _ _ Hp) in Ht as [-> _]. by rewrite (TcpStorage.pub_length _ _ Hp).
Qed.

Lemma take_credit b b' x : TcpStorage.take b = (b', x) -> TcpStorage.outstanding b' = TcpStorage.outstanding b.
Proof. unfold TcpStorage.take. intros. repeat case_match; simplify_eq; done. Qed.

Lemma receives_blocks D p fuel b tk b' l :
  receives D p b tk -> take_blocks fuel b = (b', l) ->
  receives D p b' (tk ++ mjoin l) /\ Forall (fun x => x <> []) l /\ TcpStorage.outstanding b' = TcpStorage.outstanding b.
Proof.
  revert b tk b' l. induction fuel as [|fuel IH]; intros b tk b' l Hr Ht; cbn [take_blocks] in Ht; [simplify_eq; cbn; by rewrite app_nil_r|].
  destruct (TcpStorage.take b) as [b1 [x|]] eqn:Ht1; [|simplify_eq].
  - destruct (take_blocks fuel b1) as [b2 l2] eqn:Ht2. simplify_eq. destruct (receives_take _ _ _ _ _ _ Hr Ht1) as [Hr1 Hx]. apply take_credit in Ht1.
    destruct (IH _ _ _ _ Hr1 Ht2) as (Hr2 & Hl & Hc). cbn. rewrite app_assoc. split_and!; [done|by constructor|congruence].
  - cbn. rewrite app_nil_r. assert (b' = b) as -> by (destruct Hr as [[c Hp] _ _ _]; by apply (TcpStorage.take_spec _ _ _ _ Hp) in Ht1 as [_ ?]). done.
Qed.

Lemma rx_step_keeps r call r' :
  let s := TcpStorage.storage r in let s' := TcpStorage.storage r' in TcpStorage.rx_step r call = Some r' -> TcpStorage.tx s = false ->
  TcpStorage.tx s' = false /\ TcpStorage.outstanding s' = TcpStorage.outstanding s /\ TcpStorage.target s' = TcpStorage.target s /\ TcpStorage.released s' = TcpStorage.released s.
Proof.
  intros s s' Hs Hf. unfold s, s' in *. destruct call; cbn in Hs.
  - case_match; simplify_eq. cbn. unfold TcpStorage.write_unallocated. by case_match.
  - case_match; by simplify_eq.
  - unfold TcpStorage.take in Hs. repeat case_match; simplify_eq; done.
  - case_match; simplify_eq. cbn. by rewrite Hf.
Qed.

Lemma rx_run_keeps r calls r' :
  let s := TcpStorage.storage r in let s' := TcpStorage.storage r' in TcpStorage.rx_run r calls = Some r' -> TcpStorage.tx s = false ->
  TcpStorage.tx s' = false /\ TcpStorage.outstanding s' = TcpStorage.outstanding s /\ TcpStorage.target s' = TcpStorage.target s /\ TcpStorage.released s' = TcpStorage.released s.
Proof.
  cbn zeta. revert r. induction calls as [|c calls IH]; intros r Hr Hf; cbn [TcpStorage.rx_run] in Hr; [by simplify_eq|].
  destruct (TcpStorage.rx_step r c) as [r1|] eqn:Hs; [|done]. cbn in Hr. destruct (rx_step_keeps _ _ _ Hs Hf) as (? & ? & ? & ?).
  destruct (IH _ Hr) as (? & ? & ? & ?); [done|]. split_and!; congruence.
Qed.

Lemma receives_process D t p b tx tk seg :
  receives D p b tk -> carries D seg -> accepts p seg = true ->
  exists r, TcpStorage.rx_run (TcpStorage.mkReceiver b (assembler p) []) (snd (fst (fst (process t p b tx seg)))) = Some r /\
    receives D (fst (fst (fst (process t p b tx seg)))) (TcpStorage.storage r) tk /\ TcpStorage.outstanding (TcpStorage.storage r) = TcpStorage.outstanding b.
Proof.
  intros [Hp Hs Htk Hf] Hd Ha. destruct (process_calls t p b tx seg Hp) as (r & Hb & Hout & Hws). exists r. split; [done|].
  destruct Hs as [[Hcl _]|(ws & Hok & [Hcl| <-])]; [by destruct (accepts_closed _ _ Ha)..|]. destruct (rx_run_keeps _ _ _ Hb Hf) as (? & ? & _ & _).
  apply (rx_run_shift _ _ tk) in Hb. rewrite Hout, app_nil_r in Hb.
  assert (Hok' : TcpStorage.rx_ok D (TcpStorage.mkReceiver (TcpStorage.storage r) (TcpStorage.written r) tk)).
  { eapply TcpStorage.rx_run_ok; [exact Hok|by apply process_carries|exact Hb]. }
  split; [|done]. constructor; [apply Hok'|right; by exists (TcpStorage.written r)|done|done].
Qed.

Lemma receives_clear D p b tk : receives D p b tk -> state p = Closed -> receives D p (TcpStorage.clear b) tk /\ TcpStorage.length (TcpStorage.clear b) = 0.
Proof.
  intros [Hp Hs Htk Hf] Hcl. split; [|done]. constructor; [exists []|by left|done|].
  - constructor; cbn; try done. intros i x Hi. apply zget_Some_range in Hi. unfold len in Hi. cbn in Hi. lia.
  - unfold TcpStorage.clear. by rewrite Hf.
Qed.

(** ** From the buffer to the application *)

(** Bytes on their way: copied by an unfinished read, held by the worker between buffer and queue, and in the queue of a
    direct transfer. *)
Definition copied (p : app_pc) : bytes :=
  match p with ReadLoop _ acc => acc | ReleaseUsed _ (Read b) | ReleaseConsumed _ (Read b) => b | _ => [] end.
Definition hold (p : worker_pc) : bytes := match p with RecvAdd _ _ _ b | RecvPush _ _ _ b => b | _ => [] end.
Definition up (c : Connection) : bytes := match direct c with Some d => mjoin (upload d) | None => [] end.

(** A direct transfer is over. *)
Definition over (s : sys) : bool := handed_over (conn s) && match direct (conn s) with None => true | _ => false end.

(** Nothing more can be received. *)
Definition exhausted (p : Proto) (b : Storage) : Prop := 2 <= phase (state p) /\ TcpStorage.length b = 0.

Record Reader (D : Z -> Z) (s : sys) : Prop := {
  r_flow : over s = false ->
    taken (hist s) = delivered (hist s) ++ copied (pc s) ++ head (st s) ++ up (conn s) ++ mjoin (incoming (sh s)) ++ hold (wpc s);
  r_prefix : delivered (hist s) `prefix_of` taken (hist s);
  r_receives : receives D (proto (conn s)) (rx (conn s)) (taken (hist s));
  r_eof : eof (sh s) = true -> exhausted (proto (conn s)) (rx (conn s)) /\ hold (wpc s) = [];
  r_read_eof : read_eof (st s) = true -> delivered (hist s) = taken (hist s) /\ (eof (sh s) = true \/ over s = true);
  r_done : forall d, direct (conn s) = Some d -> upload_done d = true -> upload d = [] /\ incoming (sh s) = [] /\ exhausted (proto (conn s)) (rx (conn s));
  r_phase : admission (conn s) = false -> 1 <= phase (state (proto (conn s)));
  r_completed : forall a b, completion s = Some (Transferred a b) -> over s = true /\ delivered (hist s) = taken (hist s);
  r_handing : handing (hist s) = true -> over s = false -> read_eof (st s) = false;
}.

Lemma init_reader D now : Reader D (init now).
Proof.
  constructor; cbn; try done. constructor; cbn; [exists []; apply TcpStorage.published_new|right| |done].
  - exists []. split; [|right; apply listening_assembler]. constructor; cbn; [exists []; apply TcpStorage.published_new|done|done|done|]. intros i x Hi. apply zget_Some_range in Hi. unfold len in Hi. cbn in Hi. lia.
  - intros i x Hi. apply zget_Some_range in Hi. unfold len in Hi. cbn in Hi. lia.
Qed.

Ltac rframe H := constructor;
  [ try exact (r_flow _ _ H) | try exact (r_prefix _ _ H) | try exact (r_receives _ _ H) | try exact (r_eof _ _ H)
  | try exact (r_read_eof _ _ H) | try exact (r_done _ _ H) | try exact (r_phase _ _ H) | try exact (r_completed _ _ H)
  | try exact (r_handing _ _ H) ].

Lemma flow_prefix D s : Reader D s -> over s = false -> taken (hist s) = delivered (hist s) ++ copied (pc s) ++ head (st s) ++ up (conn s) ++ mjoin (incoming (sh s)) ++ hold (wpc s).
Proof. intros Hr. apply Hr. Qed.

Lemma call_reader D c s s' : Shape s -> Reader D s -> app_call c s = Some s' -> Reader D s'.
Proof.
  intros Hs Hr Hc. unfold app_call in Hc. pose proof (r_flow _ _ Hr) as Hfl.
  destruct (at_ s) eqn:Hat, (pc s) eqn:Hpc; destruct c; try discriminate Hc; cbn [copied] in Hfl.
  all: try (destruct (accepting s); [|discriminate Hc]).
  all: try (destruct (handing (hist s)) eqn:Hh; [discriminate Hc|]).
  all: repeat case_match; simplify_eq; zify_bool.
  all: rframe Hr; try exact Hfl; cbn; rewrite ?app_nil_r; try exact Hfl; try apply Hr.
  intros _ _. tauto.
Qed.

(** Inside a call the transfer is not over. *)
Lemma busy_not_over s : Shape s -> busy (pc s) = true -> over s = false /\ up (conn s) = [] /\ direct (conn s) = None.
Proof.
  intros Hs Hb. pose proof (g_busy _ Hs Hb) as Hh. assert (Hho : handed_over (conn s) = false).
  { destruct (handed_over (conn s)) eqn:Hho; [|done]. pose proof (g_handed _ Hs Hho). congruence. }
  assert (direct (conn s) = None) as Hd. { destruct (direct (conn s)) eqn:Hd; [|done]. rewrite (g_direct _ Hs) in Hho by (by rewrite Hd). done. }
  unfold over, up. by rewrite Hho, Hd.
Qed.

Definition settled (s : sys) : bytes := delivered (hist s) ++ copied (pc s) ++ head (st s) ++ mjoin (incoming (sh s)).

(** The application moves bytes towards itself. *)
Lemma reader_move D s s' :
  Reader D s -> over s = false -> direct (conn s) = None ->
  proto (conn s') = proto (conn s) -> same_bytes (rx (conn s)) (rx (conn s')) -> admission (conn s') = admission (conn s) ->
  direct (conn s') = direct (conn s) -> handed_over (conn s') = handed_over (conn s) -> eof (sh s') = eof (sh s) ->
  taken (hist s') = taken (hist s) -> wpc s' = wpc s -> completion s' = completion s -> handing (hist s') = false ->
  delivered (hist s) `prefix_of` delivered (hist s') -> settled s' = settled s ->
  (read_eof (st s') = true -> read_eof (st s) = true \/ (eof (sh s) = true /\ copied (pc s') = [] /\ head (st s') = [] /\ incoming (sh s') = [])) ->
  Reader D s'.
Proof.
  intros Hr Hov Hd Hp Hb Ha Hd' Hho He Ht Hw Hc Hhand [k Hdel] Hset Hre.
  assert (Hov' : over s' = false) by (unfold over in *; by rewrite Hho, Hd'). pose proof (r_flow _ _ Hr Hov) as Hfl.
  assert (Hfl' : taken (hist s') = settled s' ++ hold (wpc s')).
  { rewrite Ht, Hset, Hw, Hfl. unfold settled, up. rewrite Hd. by rewrite <- !app_assoc. }
  pose proof Hb as (_ & _ & Hlen & _). unfold settled in Hfl'. constructor.
  - intros _. rewrite Hfl'. unfold up. rewrite Hd', Hd. by rewrite <- !app_assoc.
  - rewrite Hfl', <- !app_assoc. by apply prefix_app_r.
  - rewrite Ht. eapply receives_advances; [apply Hr|rewrite Hp; apply advances_refl|done].
  - rewrite He, Hw. intros Heof. destruct (r_eof _ _ Hr Heof) as [[? ?] ?]. split; [|done]. split; [by rewrite Hp|congruence].
  - intros Hre'. rewrite Ht. destruct (Hre Hre') as [Hold|(Heof & Hc0 & Hh0 & Hi0)].
    + destruct (r_read_eof _ _ Hr Hold) as [Hdt [Heof|]]; [|congruence]. split; [|left; congruence].
      assert (Hl : len (taken (hist s')) = len (taken (hist s))) by congruence. rewrite Hfl' in Hl. rewrite <- Hdt, Hdel in *.
      rewrite !len_app in Hl. assert (k = []) as ->; [|by rewrite app_nil_r]. apply len_zero.
      pose proof (len_nonneg k). pose proof (len_nonneg (copied (pc s'))). pose proof (len_nonneg (head (st s'))). pose proof (len_nonneg (mjoin (incoming (sh s')))). pose proof (len_nonneg (hold (wpc s'))). lia.
    + split; [|left; congruence]. destruct (r_eof _ _ Hr Heof) as [_ Hh]. rewrite <- Ht, Hfl', Hw, Hh, Hc0, Hh0, Hi0. by rewrite !app_nil_r.
  - intros d. by rewrite Hd', Hd.
  - rewrite Ha, Hp. apply Hr.
  - intros a b. rewrite Hc. intros Hcc. destruct (r_completed _ _ Hr _ _ Hcc). congruence.
  - by rewrite Hhand.
Qed.

Lemma app_reader D s s' : Shape s -> Reader D s -> app_step s = Some s' -> Reader D s'.
Proof.
  intros Hs Hr Hc. unfold app_step in Hc. pose proof (busy_not_over _ Hs) as Hb. pose proof (g_read _ Hs) as Hrd.
  pose proof (r_flow _ _ Hr) as Hfl. pose proof (g_busy _ Hs) as Hbh.
  destruct (pc s) as [] eqn:Hpc; try discriminate Hc; cbn [busy read_ok copied] in Hb, Hrd, Hfl, Hbh.
  all: unfold read_iteration, pop_after_eof, chunk_pop, finish_wake in Hc.
  all: repeat case_match; try discriminate Hc; injection Hc as <-; zify_bool.
  all: try specialize (Hb eq_refl) as (Hov & Hup & Hdir).
  all: try (apply (reader_move D s); [exact Hr|exact Hov|exact Hdir|..]; try done; try (by apply Hbh); unfold settled; cbn; rewrite ?Hpc; cbn).
  all: try done; try (intros Hre; left; exact Hre); try (by apply prefix_app_r).
  all: try match goal with Hz : len (head (st _)) = 0 |- _ => apply len_zero in Hz; rewrite Hz end.
  all: try match goal with Hz : incoming (sh _) = _ |- _ => rewrite Hz end; cbn.
  all: try (rewrite <- ?app_assoc, ?ztake_zdrop; done).
  all: try (rewrite <- ?app_assoc; do 2 f_equal; rewrite app_assoc, ztake_zdrop; done).
  all: try (rframe Hr; try exact Hfl; try (intros; exact Hfl); cbn).
  all: try (intros; congruence).
  - assert (acc = []) as -> by (apply len_zero; lia). done.
  - assert (acc = []) as -> by (apply len_zero; lia). done.
  - intros _. right. tauto.
  - destruct Hrd as (_ & -> & _). done.
  - intros _. right. tauto.
  - destruct Hrd as (-> & _). cbn. by rewrite <- app_assoc.
  - intros _. destruct (r_completed _ _ Hr _ _ H1) as [? ?]. split; [done|by right].
  - intros _ Hov. destruct (r_completed _ _ Hr _ _ H1) as [Ho _]. unfold over in *. cbn in Hov. congruence.
Qed.

Lemma transfer_advance_spec n l l' : 0 <= n -> advance n l = Some l' -> n <= len (mjoin l) /\ mjoin l' = zdrop n (mjoin l).
Proof.
  revert n. induction l as [|b l IH]; intros n Hn; cbn [advance].
  - case_match; intros; simplify_eq; zify_bool. assert (n = 0) as -> by lia. done.
  - case_match; zify_bool; [intros; simplify_eq; assert (n = 0) as -> by lia; rewrite zdrop_0; split; [apply len_nonneg|done]|].
    pose proof (len_nonneg b). pose proof (len_nonneg (mjoin l)). change (mjoin (b :: l)) with (b ++ mjoin l). rewrite len_app. case_match; zify_bool; intros Ha.
    + destruct (IH (n - len b)) as [? ->]; [lia|done|]. split; [lia|]. by rewrite zdrop_app_ge by lia.
    + simplify_eq. change (mjoin (zdrop n b :: l)) with (zdrop n b ++ mjoin l). split; [lia|]. by rewrite zdrop_app_le by lia.
Qed.

(** The reading side of a direct transfer. *)
Record AreaReader (D : Z -> Z) (a : area) : Prop := {
  a_flow : let '(h, c, d, x) := a in taken x = delivered x ++ mjoin (upload d) ++ mjoin (incoming h);
  a_receives : let '(h, c, d, x) := a in receives D (proto c) (rx c) (taken x);
  a_done : let '(h, c, d, x) := a in upload_done d = true -> upload d = [] /\ incoming h = [] /\ exhausted (proto c) (rx c);
  a_eof : let '(h, c, d, x) := a in eof h = true -> exhausted (proto c) (rx c);
  a_phase : let '(h, c, d, x) := a in 1 <= phase (state (proto c));
}.

Lemma can_recv_length p b : can_recv p b = true -> 0 < TcpStorage.length b.
Proof. unfold can_recv. intros [_ ?]%andb_true_iff. by zify_bool. Qed.

Lemma firstn_join (n : nat) (l : list bytes) : mjoin (firstn n l) ++ mjoin (skipn n l) = mjoin l.
Proof. by rewrite <- join_app, take_drop. Qed.

Lemma upload_fill_reader D a : upload_done (snd (fst a)) = false -> AreaReader D a -> AreaReader D (upload_fill a).
Proof.
  destruct a as [[[h c] d] x]. cbn [fst snd]. intros Hud [Hf Hr Hdn He Hp]. unfold upload_fill.
  set (room := (32 - length (upload d))%nat). set (u := upload d ++ firstn room (incoming h)). set (h' := set_incoming _ h).
  assert (Hfl : taken x = delivered x ++ mjoin u ++ mjoin (incoming h')) by (unfold u, h'; cbn; rewrite join_app, <- app_assoc, firstn_join; done).
  case_match eqn:Hc; [|constructor; cbn; try done; by rewrite Hud]. apply andb_true_iff in Hc as [Hu Hc%can_recv_length]. apply Nat.ltb_lt in Hu.
  assert (Hempty : incoming h' = []). { unfold u, h', room in *. rewrite length_app, length_take in Hu. cbn. apply drop_ge. lia. }
  destruct (take_blocks _ _) as [b l] eqn:Ht. destruct (receives_blocks D _ _ _ _ _ _ Hr Ht) as (Hr' & _ & _). constructor.
  - change (taken x ++ mjoin l = delivered x ++ mjoin (u ++ l) ++ mjoin (incoming h')). rewrite Hfl, Hempty, join_app. cbn. by rewrite !app_nil_r, app_assoc.
  - eapply receives_advances; [exact Hr'|apply received_advances|done].
  - cbn. by rewrite Hud.
  - cbn. intros Heof. destruct (He Heof). lia.
  - cbn. by rewrite received_state.
Qed.

Lemma upload_fill_done a : upload_done (snd (fst (upload_fill a))) = upload_done (snd (fst a)).
Proof. destruct a as [[[h c] d] x]. unfold upload_fill. case_match; [|done]. by destruct (take_blocks _ _). Qed.

Lemma upload_write_reader D peer a a' r :
  upload_done (snd (fst a)) = false -> AreaReader D a -> upload_write peer a = Some (a', r) -> AreaReader D a' /\ upload_done (snd (fst a')) = false.
Proof.
  destruct a as [[[h c] d] x]. cbn [fst snd]. intros Hud Ha Hw. unfold upload_write in Hw. repeat case_match; simplify_eq; try done. zify_bool.
  destruct (advance a (upload d)) as [u|] eqn:Hadv; [|done]. cbn in Hw. injection Hw as <- <-. split; [|done].
  apply transfer_advance_spec in Hadv as [Hle Hu]; [|lia]. destruct Ha as [Hf Hr Hdn He Hp]. constructor; cbn; try done.
  - rewrite Hf, Hu, <- app_assoc. f_equal. by rewrite app_assoc, ztake_zdrop.
  - eapply receives_advances; [exact Hr|apply advances_refl|done].
  - by rewrite Hud.
Qed.

Lemma upload_end_reader D peer a : AreaReader D a -> AreaReader D (fst (upload_end peer a)) /\
  (forall r, snd (upload_end peer a) = PReady r -> upload_done (snd (fst (fst (upload_end peer a)))) = true).
Proof.
  destruct a as [[[h c] d] x]. intros Ha. unfold upload_end. destruct (negb (is_nil (upload d)) || can_recv _ _ || negb (is_nil (incoming h))) eqn:Hm.
  { destruct (wake_fields h) as (_ & W2 & _ & W4 & _). cbn. split; [|done]. destruct Ha as [Hf Hr Hdn He Hp]. constructor; cbn; rewrite ?W2, ?W4; done. }
  apply orb_false_iff in Hm as [[Hu Hc]%orb_false_iff Hi]. destruct (may_recv _ _) eqn:Hmr; cbn [negb].
  { cbn. split; [done|]. intros r. by destruct (on_flush peer). }
  destruct (on_shutdown peer); cbn; [done| |done]. split; [|done]. destruct Ha as [Hf Hr Hdn He Hp]. constructor; cbn; try done.
  intros _. split_and!; [by destruct (upload d)|by destruct (incoming h)|]. unfold may_recv in Hmr. apply orb_false_iff in Hmr as [H1 H2]. zify_bool.
  destruct Hr as [[cc Hpub] _ _ _]. pose proof (TcpStorage.pub_length _ _ Hpub). pose proof (len_nonneg cc). split; [|lia]. destruct (state (proto c)); cbn in *; try discriminate; lia.
Qed.

Lemma upload_poll_reader D peer a a' r :
  AreaReader D a -> upload_poll peer a = Some (a', r) -> AreaReader D a' /\ (forall u, r = PReady u -> upload_done (snd (fst a')) = true).
Proof.
  intros Ha. unfold upload_poll. destruct (upload_done (snd (fst a))) eqn:Hud; [intros; by simplify_eq|].
  destruct (upload_write peer (upload_fill a)) as [[b q]|] eqn:Hw; [|done]. cbn [mbind option_bind]. intros Hu.
  apply (upload_write_reader D) in Hw as [Hb Hbd]; [|by rewrite upload_fill_done|by apply upload_fill_reader].
  destruct q; [by simplify_eq| |by simplify_eq]. pose proof (upload_end_reader D peer b Hb) as He. destruct (upload_end peer b) as [e q]. simplify_eq. cbn in He.
  destruct He as [He1 He2]. split; [done|]. intros u ->. by eapply He2.
Qed.

Lemma exhausted_forward p q b : exhausted p b -> forward (state p) (state q) -> exhausted q b.
Proof. intros [? ?] [? ?]. split; [lia|done]. Qed.

Lemma download_poll_reader D fuel reads a :
  AreaReader D a -> AreaReader D (fst (download_poll fuel reads a)) /\
  upload_done (snd (fst (fst (download_poll fuel reads a)))) = upload_done (snd (fst a)).
Proof.
  revert reads a. induction fuel as [|fuel IH]; intros reads [[[h c] d] x] Ha; cbn [download_poll].
  { destruct (wake_fields h) as (_ & W2 & _ & W4 & _). cbn. split; [|done]. destruct Ha as [Hf Hr Hdn He Hp]. constructor; cbn; rewrite ?W2, ?W4; done. }
  destruct (peer_eof d && (len (download d) =? 0)); [done|]. destruct (_ =? 0); [done|].
  assert (Hq : forall q t d' x', advances (proto c) q -> upload d' = upload d -> upload_done d' = upload_done d ->
            taken x' = taken x -> delivered x' = delivered x -> AreaReader D (h, set_proto q (set_tx t c), d', x')).
  { intros q t d' x' Hadv E1 E2 E3 E4. destruct Ha as [Hf Hr Hdn He Hp]. constructor; cbn; rewrite ?E1, ?E2, ?E3, ?E4; try done.
    - by eapply receives_advances.
    - intros Hd. destruct (Hdn Hd) as (? & ? & ?). split_and!; try done. by eapply exhausted_forward; [|apply Hadv].
    - intros Hd. by eapply exhausted_forward; [apply He|apply Hadv].
    - destruct Hadv as [[? ?] _]. lia. }
  assert (Hs : forall n, advances (proto c) (sent (proto c) n)) by (intros n; apply sent_advances).
  assert (Hid : forall t d' x', upload d' = upload d -> upload_done d' = upload_done d -> taken x' = taken x -> delivered x' = delivered x -> AreaReader D (h, set_tx t c, d', x')).
  { intros t d' x' ? ? ? ?. specialize (Hq (proto c) t d' x' (advances_refl _)). destruct c. by apply Hq. }
  destruct (len (download d) =? 0).
  - destruct reads as [|[|b|] reads]; try done. destruct (len b =? 0); [split; [|done]|].
    + specialize (Hq (close (proto c)) (tx c)). destruct c. apply Hq; try done. apply close_advances.
    + destruct (sending (state (proto c))); [|split; [by apply Hid|done]].
      match goal with |- AreaReader D (fst (download_poll fuel reads ?a)) /\ _ => destruct (IH reads a) as [H1 H2]; [by apply Hq|split; [exact H1|exact H2]] end.
  - destruct (sending (state (proto c))); [|split; [by apply Hid|done]].
    match goal with |- AreaReader D (fst (download_poll fuel reads ?a)) /\ _ => destruct (IH reads a) as [H1 H2]; [by apply Hq|split; [exact H1|exact H2]] end.
Qed.

Lemma direct_poll_reader D peer a a' r :
  AreaReader D a -> direct_poll peer a = Some (a', r) -> AreaReader D a' /\ (r = Ok true -> upload_done (snd (fst a')) = true).
Proof.
  intros Ha. unfold direct_poll. destruct (upload_poll peer a) as [[b u]|] eqn:Hu; [|done]. cbn [mbind option_bind]. intros Hd.
  apply (upload_poll_reader D) in Hu as [Hb Hu]; [|done]. pose proof (download_poll_reader D 32 (on_reads peer) b Hb) as Hdp.
  destruct (download_poll 32 (on_reads peer) b) as [c q]. destruct Hdp as [Hc1 Hc2]. cbn [fst] in Hc1, Hc2.
  destruct u as [|u|]; simplify_eq.
  - split; [done|]. by destruct q.
  - split; [done|]. intros _. rewrite Hc2. by apply (Hu u).
  - by split.
Qed.

(** The worker works on the socket only. *)
Lemma reader_quiet D s s' :
  Reader D s -> pc s' = pc s -> st s' = st s -> taken (hist s') = taken (hist s) -> delivered (hist s') = delivered (hist s) ->
  handing (hist s') = handing (hist s) -> incoming (sh s') = incoming (sh s) -> eof (sh s') = eof (sh s) ->
  direct (conn s') = direct (conn s) -> handed_over (conn s') = handed_over (conn s) ->
  (admission (conn s') = false -> admission (conn s) = false \/ 1 <= phase (state (proto (conn s')))) ->
  forward (state (proto (conn s))) (state (proto (conn s'))) -> receives D (proto (conn s')) (rx (conn s')) (taken (hist s)) ->
  (exhausted (proto (conn s)) (rx (conn s)) -> exhausted (proto (conn s')) (rx (conn s'))) -> hold (wpc s') = hold (wpc s) ->
  (completion s' = completion s \/ exists e, completion s' = Some (Failed e)) -> Reader D s'.
Proof.
  intros Hr E1 E2 E3 E8 E9 E4 E5 E6 E7 Ha Hfw Hrec Hex Hh Hc. assert (Hov : over s' = over s) by (unfold over; by rewrite E6, E7).
  constructor; rewrite ?E1, ?E2, ?E3, ?E4, ?E5, ?E6, ?E8, ?E9, ?Hov, ?Hh; try apply Hr; try done.
  - unfold up. rewrite E6. apply Hr.
  - intros He. destruct (r_eof _ _ Hr He) as [? ?]. auto.
  - intros d Hd Hud. destruct (r_done _ _ Hr d Hd Hud) as (? & ? & ?). auto.
  - intros Had. destruct (Ha Had) as [Hold|]; [|done]. pose proof (r_phase _ _ Hr Hold). destruct Hfw. lia.
  - intros a b. destruct Hc as [-> |[e ->]]; [apply Hr|done].
Qed.

Lemma exhausted_same p q b b' : forward (state p) (state q) -> same_bytes b b' -> exhausted p b -> exhausted q b'.
Proof. intros [? ?] (_ & _ & ? & _) [? ?]. split; [lia|congruence]. Qed.

(** The steps that leave the buffers alone. *)
Lemma reader_socket D s s' q :
  Reader D s -> same_app s s' -> proto (conn s') = q -> advances (proto (conn s)) q -> same_bytes (rx (conn s)) (rx (conn s')) ->
  hold (wpc s') = hold (wpc s) -> (completion s' = completion s \/ exists e, completion s' = Some (Failed e)) -> Reader D s'.
Proof.
  intros Hr [? ? ? Hhi ? ? ? ? ? Hadm ? ?] <- Hf Hb Hh Hc. eapply reader_quiet; try done; rewrite ?Hhi; try done; [|apply Hf|..].
  - intros. left. congruence.
  - by eapply receives_advances; [apply Hr| |].
  - apply exhausted_same; [apply Hf|done].
Qed.

Lemma same_bytes_refl b : same_bytes b b.
Proof. done. Qed.

Lemma input_reader D t seg s c' :
  Reader D s -> carries D seg -> accepts (proto (conn s)) seg = true -> input t seg (conn s) = Some c' ->
  forward (state (proto (conn s))) (state (proto c')) /\ receives D (proto c') (rx c') (taken (hist s)) /\
  (exhausted (proto (conn s)) (rx (conn s)) -> exhausted (proto c') (rx c')).
Proof.
  intros Hr Hd Ha Hi. destruct (receives_process D (host_now t (conn s)) _ _ (tx (conn s)) _ seg (r_receives _ _ Hr) Hd Ha) as (r & Hb & Hrec & _).
  pose proof (process_forward (host_now t (conn s)) (proto (conn s)) (rx (conn s)) (tx (conn s)) seg) as Hfw.
  pose proof (process_text (host_now t (conn s)) (proto (conn s)) (rx (conn s)) (tx (conn s)) seg) as Htx.
  unfold input in Hi. destruct (process _ _ _ _ _) as [[[p calls] acked] reply]. cbn in Hb, Hrec, Hfw, Htx. rewrite Hb in Hi. cbn in Hi. injection Hi as <-.
  set (c1 := set_tx _ _). assert (Hc1 : proto c1 = p /\ rx c1 = TcpStorage.storage r) by done. clearbody c1.
  assert (Hex : exhausted (proto (conn s)) (rx (conn s)) -> exhausted p (TcpStorage.storage r)).
  { intros [Hph Hl]. rewrite (Htx Hph) in Hb. cbn in Hb. injection Hb as <-. destruct Hfw. split; [lia|done]. }
  destruct Hc1 as [<- Hc1]. rewrite <- Hc1 in Hrec, Hex. repeat case_match; cbn; (split; [|split]); try done; try (eapply forward_trans; [exact Hfw|apply abort_forward]).
  all: try (eapply receives_advances; [exact Hrec|apply abort_advances|done]).
  all: try (intros He; eapply exhausted_forward; [by apply Hex|apply abort_forward]).
Qed.

Lemma rest_conn p s : conn (rest p s) = conn s /\ hold (wpc (rest p s)) = [].
Proof. destruct p; try done. unfold rest, drop_connection. by destruct (direct (conn s)). Qed.

Lemma rest_reader D p s : Reader D s -> hold (wpc s) = [] -> Reader D (rest p s).
Proof.
  intros Hr Hh. destruct (rest_same p s) as [Hs Hw], (rest_conn p s) as [Hc Hh']. eapply reader_socket; [exact Hr|exact Hs|done| | | |]; rewrite ?Hc.
  - apply advances_refl.
  - apply same_bytes_refl.
  - congruence.
  - destruct p; try (by left). unfold rest, drop_connection. destruct (direct (conn s)); [right; by eexists|by left].
Qed.

Lemma dispatch_reader D e k s : Reader D s -> hold (wpc s) = [] -> Reader D (dispatch_step e k s).
Proof.
  intros Hr Hh. unfold dispatch_step. pose proof (dispatch_forward (host_now (now e) (conn s)) (proto (conn s)) (rx (conn s)) (tx (conn s))) as Hf.
  pose proof (emitted_forward (host_now (now e) (conn s)) (proto (conn s)) (rx (conn s)) (tx (conn s))) as Hem.
  pose proof (dispatch_clears (host_now (now e) (conn s)) (proto (conn s)) (rx (conn s)) (tx (conn s))) as Hcl.
  pose proof (dispatch_assembler (host_now (now e) (conn s)) (proto (conn s)) (rx (conn s)) (tx (conn s))) as Hfa.
  pose proof (emitted_assembler (host_now (now e) (conn s)) (proto (conn s)) (rx (conn s)) (tx (conn s))) as Hea.
  destruct (dispatch _ _ _ _) as [[p clears] em]. cbn in Hf, Hem, Hcl, Hfa, Hea. assert (Hp : advances (proto (conn s)) p) by done.
  set (c := set_proto p _). assert (Hc : forall q, advances p q -> Reader D (with_conn (set_proto q c) s)).
  { intros q Hq. assert (Hfw : advances (proto (conn s)) q) by (by eapply advances_trans). destruct clears.
    - specialize (Hcl eq_refl). destruct (receives_clear D p (rx (conn s)) (taken (hist s))) as [Hrc Hlen]; [|done|].
      { eapply receives_advances; [apply Hr|exact Hp|done]. }
      eapply reader_quiet; try done; [by left|apply Hfw|eapply receives_advances; [exact Hrc|exact Hq|done]| |by left].
      intros [? ?]. destruct Hfw as [[? ?] _]. split; [cbn; lia|exact Hlen].
    - eapply (reader_socket D s _ q); try done; by left. }
  assert (Hc0 : Reader D (with_conn c s)) by (apply (Hc p), advances_refl).
  assert (Hgo : forall q (b : bool), advances p q -> Reader D (if bool_decide (state q = Closed)
            then rest PClosed (with_conn (set_proto q (conn (with_conn c s))) (with_conn c s)) else with_wpc (if b then Dispatch k else More) (with_conn (set_proto q (conn (with_conn c s))) (with_conn c s)))).
  { intros q b Hq. case_match; [by apply rest_reader; [apply Hc|]|].
    eapply (reader_socket D (with_conn (set_proto q c) s) _ q); [by apply Hc|done|done|apply advances_refl|done| |by left]. cbn. rewrite Hh. by destruct b. }
  destruct em as [q|]; [destruct (emits e)|].
  - apply (Hgo q true). split; [by apply Hem|by apply Hea].
  - by apply rest_reader.
  - by apply rest_reader.
  - apply (Hgo p false), advances_refl.
Qed.

Lemma direct_turn_reader D e d s s' w :
  Shape s -> Reader D s -> direct (conn s) = Some d -> direct_turn e d s = Some s' -> hold (wpc s) = [] -> hold w = [] -> Reader D (with_wpc w s').
Proof.
  intros Hs Hr Hd Ht Hh Hw. assert (Hho : handed_over (conn s) = true) by (apply (g_direct _ Hs); by rewrite Hd).
  pose proof (g_handed _ Hs Hho) as Hhand. destruct (g_head _ Hs Hhand) as [Hhd _].
  assert (Hov : over s = false) by (unfold over; by rewrite Hho, Hd).
  assert (Hcp : copied (pc s) = []).
  { pose proof (g_busy _ Hs) as Hb. destruct (pc s); cbn in *; try done; by rewrite Hhand in Hb; specialize (Hb eq_refl). }
  assert (Hadm : admission (conn s) = false).
  { destruct (admission (conn s)) eqn:Ha; [|done]. pose proof (g_admission _ Hs Ha). pose proof (application_handing _ Hs Hhand). congruence. }
  unfold direct_turn in Ht. case_match.
  { injection Ht as <-. constructor; cbn; try apply Hr; try done.
    - unfold over. cbn. by rewrite Hho.
    - eapply receives_advances; [apply Hr|apply abort_advances|done].
    - intros He. destruct (r_eof _ _ Hr He) as [? _]. split; [|done]. eapply exhausted_forward; [done|apply abort_forward].
    - intros He. destruct (r_read_eof _ _ Hr He) as [? [?|?]]; [by auto|congruence].
    - intros _. rewrite abort_state. cbn. lia.
    - unfold over. cbn. by rewrite Hho. }
  assert (Ha : AreaReader D (sh s, conn s, d, hist s)).
  { constructor; cbn.
    - rewrite (r_flow _ _ Hr Hov), Hcp, Hhd, Hh. unfold up. rewrite Hd. cbn. by rewrite app_nil_r.
    - apply Hr.
    - intros Hu. by apply (r_done _ _ Hr).
    - intros He. by apply (r_eof _ _ Hr).
    - by apply (r_phase _ _ Hr). }
  destruct (direct_poll _ _) as [[[[[h c] d'] x] r]|] eqn:Hp; [|done]. pose proof (direct_poll_frame _ _ _ _ Hp) as Hfr.
  apply (direct_poll_reader D) in Hp as [[Hf Hrec Hdn He Hph] Hok]; [|done]. destruct Hfr as [(_ & _ & F3 & _) _ (F7 & F8 & F9 & F10) _]. cbn in *. injection Ht as <-.
  destruct r as [[]|]; cbn.
  - destruct (Hdn (Hok eq_refl)) as (Hu & Hi & Hx). constructor; cbn; try done.
    + unfold over. cbn. by rewrite F8, Hho.
    + rewrite Hf. by apply prefix_app_r.
    + intros _. rewrite Hf, Hu, Hi. cbn. rewrite app_nil_r. split; [done|]. right. unfold over. cbn. by rewrite F8, Hho.
    + intros a b _. rewrite Hf, Hu, Hi. cbn. rewrite app_nil_r. split; [|done]. unfold over. cbn. by rewrite F8, Hho.
    + unfold over. cbn. by rewrite F8, Hho.
  - constructor; cbn; try done.
    + intros _. rewrite Hf, Hcp, Hhd, Hw. cbn. by rewrite app_nil_r.
    + rewrite Hf. by apply prefix_app_r.
    + intros Heo. split; [by apply He|done].
    + intros Hre. rewrite (r_handing _ _ Hr Hhand Hov) in Hre. done.
    + intros d0 Hd0. by injection Hd0 as <-.
    + intros a b Hc. destruct (r_completed _ _ Hr _ _ Hc). congruence.
    + intros _ _. by apply (r_handing _ _ Hr).
  - constructor; cbn; try done.
    + unfold over. cbn. by rewrite F8, Hho.
    + rewrite Hf. by apply prefix_app_r.
    + eapply receives_advances; [exact Hrec|apply abort_advances|done].
    + intros Heo. split; [|done]. eapply exhausted_forward; [by apply He|apply abort_forward].
    + intros Hre. rewrite (r_handing _ _ Hr Hhand Hov) in Hre. done.
    + intros _. rewrite abort_state. cbn. lia.
    + unfold over. cbn. by rewrite F8, Hho.
Qed.

Ltac socket_step D s Hr Hw := eapply (reader_socket D s);
  [exact Hr|by constructor|reflexivity|cbn; first [apply advances_refl|apply abort_advances|apply sent_advances|apply received_advances]|done|cbn; rewrite Hw; repeat case_match; done|by left].

Lemma worker_reader D e s s' :
  Shape s -> Reader D s -> (forall seg, wpc s = Process seg -> carries D seg) -> worker_step e s = Some s' -> Reader D s'.
Proof.
  intros Hs Hr Hseg Hc. unfold worker_step in Hc. pose proof (g_serving _ Hs) as Hsv.
  destruct (wpc s) as [] eqn:Hw; try discriminate Hc; cbn in Hsv; try specialize (Hsv eq_refl).
  - injection Hc as <-. socket_step D s Hr Hw.
  - injection Hc as <-. unfold refresh_store. repeat case_match; socket_step D s Hr Hw.
  - destruct (accepts _ _) eqn:Hacc; [|injection Hc as <-; socket_step D s Hr Hw].
    destruct (input _ _ _) as [c'|] eqn:Hi; [|done]. cbn in Hc. injection Hc as <-. destruct (input_reader D _ _ _ _ Hr (Hseg _ eq_refl) Hacc Hi) as (? & ? & ?).
    apply input_fields in Hi as (Hadm & ? & ?). destruct (wake_fields (sh s)) as (? & ? & ? & ? & ? & ? & ?).
    eapply (reader_quiet D s); try done; [intros; left; by rewrite <- Hadm|by rewrite Hw|by left].
  - injection Hc as <-. case_match; socket_step D s Hr Hw.
  - injection Hc as <-. case_match eqn:Hat; [|socket_step D s Hr Hw].
    apply andb_true_iff in Hat as [Hho _]. apply negb_true_iff in Hho. assert (Hdn : direct (conn s) = None).
    { destruct (direct (conn s)) eqn:Hd; [|done]. rewrite (g_direct _ Hs) in Hho by (by rewrite Hd). done. }
    assert (Hov : over s = false) by (unfold over; by rewrite Hho).
    constructor; cbn; try apply Hr.
    + intros _. rewrite (r_flow _ _ Hr Hov), Hw. unfold up. by rewrite Hdn.
    + intros He. destruct (r_eof _ _ Hr He). by split.
    + intros Hre. destruct (r_read_eof _ _ Hr Hre) as [? [?|?]]; [by auto|congruence].
    + intros d Hd. by injection Hd as <-.
    + intros a b Hcc. destruct (r_completed _ _ Hr _ _ Hcc). congruence.
    + intros Hh _. by apply (r_handing _ _ Hr).
  - destruct (direct (conn s)) as [d|] eqn:Hd.
    + destruct (direct_turn e d s) as [s1|] eqn:Ht; [|done]. cbn in Hc. injection Hc as <-.
      eapply (direct_turn_reader D e d s); try done; [by rewrite Hw|by case_match].
    + cbn in Hc. injection Hc as <-. socket_step D s Hr Hw.
  - destruct (sending (state (proto (conn s)))) eqn:Hse; injection Hc as <-; [|socket_step D s Hr Hw]. unfold admit_connection.
    assert (Hph : 1 <= phase (state (proto (conn s)))) by (destruct (state (proto (conn s))); cbn in *; try discriminate; lia).
    destruct (admission (conn s)) eqn:Ha; cbn [negb]; [|socket_step D s Hr Hw]. destruct (accepting s).
    + eapply (reader_quiet D s); [exact Hr|done|done|done|done|done|done|done|done|done|by right|apply forward_refl|apply Hr|done|by rewrite Hw|by left].
    + destruct (wake_fields (set_aborted (sh s))) as (W1 & W2 & W3 & W4 & W5 & W6 & W7).
      eapply (reader_quiet D s); [exact Hr|done|done|done|done|done|done|done|done|done|right; cbn; rewrite abort_state; cbn; lia|apply abort_forward| | |by rewrite Hw|by left].
      * eapply receives_advances; [apply Hr|apply abort_advances|done].
      * intros Hx. eapply exhausted_forward; [exact Hx|apply abort_forward].
  - destruct k as [|k]; [injection Hc as <-; socket_step D s Hr Hw|]. destruct (outgoing (sh s)) as [|b q] eqn:Hout; [injection Hc as <-; socket_step D s Hr Hw|].
    unfold send_block in Hc. cbn in Hc. destruct (sending _); cbn in Hc; injection Hc as <-.
    all: eapply (reader_quiet D s); [exact Hr|done|done|done|done|done|done|done|done|done|by left|cbn; rewrite ?sent_state; first [apply forward_refl|apply abort_forward]| | |by rewrite Hw|by left].
    all: try (eapply receives_advances; [apply Hr|cbn; first [apply sent_advances|apply abort_advances]|done]).
    all: intros Hx; eapply exhausted_forward; [exact Hx|cbn; rewrite ?sent_state; first [apply forward_refl|apply abort_forward]].
  - injection Hc as <-. socket_step D s Hr Hw.
  - injection Hc as <-. case_match; [|socket_step D s Hr Hw].
    eapply (reader_quiet D s); [exact Hr|done|done|done|done|done|done|done|done|done|by left|apply close_forward| | |by rewrite Hw|by left].
    + eapply receives_advances; [apply Hr|apply close_advances|done].
    + intros Hx; eapply exhausted_forward; [exact Hx|apply close_forward].
  - injection Hc as <-. socket_step D s Hr Hw.
  - destruct k as [|k]; [injection Hc as <-; socket_step D s Hr Hw|]. destruct (TcpStorage.take (rx (conn s))) as [b [x|]] eqn:Ht; injection Hc as <-; [|socket_step D s Hr Hw].
    destruct (receives_take _ _ _ _ _ _ (r_receives _ _ Hr) Ht) as [Hrec Hx]. assert (Hov : over s = false) by (unfold over; by rewrite Hsv).
    assert (Hlen : TcpStorage.length (rx (conn s)) <> 0).
    { intros Hz. unfold TcpStorage.take in Ht. rewrite Hz in Ht. cbn in Ht. congruence. }
    constructor; cbn; try apply Hr; try done.
    + intros _. rewrite (r_flow _ _ Hr Hov), Hw. cbn. by rewrite app_nil_r, <- !app_assoc.
    + apply prefix_app_r, Hr.
    + intros He. destruct (r_eof _ _ Hr He) as [[_ ?] _]. done.
    + intros Hre. destruct (r_read_eof _ _ Hr Hre) as [_ [He|?]]; [|congruence]. destruct (r_eof _ _ Hr He) as [[_ ?] _]. done.
    + intros d Hd. rewrite (g_direct _ Hs) in Hsv by (by rewrite Hd). done.
    + intros a b0 Hcc. destruct (r_completed _ _ Hr _ _ Hcc). congruence.
  - injection Hc as <-. eapply (reader_socket D s); [exact Hr|by constructor|reflexivity|apply advances_refl|done|by rewrite Hw|by left].
  - injection Hc as <-. assert (Hov : over s = false) by (unfold over; by rewrite Hsv). constructor; cbn; try apply Hr; try done.
    + intros _. rewrite (r_flow _ _ Hr Hov), Hw. cbn. rewrite join_app. cbn. by rewrite !app_nil_r.
    + intros He. destruct (r_eof _ _ Hr He) as [? _]. done.
    + intros d Hd. rewrite (g_direct _ Hs) in Hsv by (by rewrite Hd). done.
  - injection Hc as <-. case_match eqn:Hcond; [|socket_step D s Hr Hw].
    apply andb_true_iff in Hcond as [[Hadm Hmr]%andb_true_iff _]. apply negb_true_iff in Hadm, Hmr. pose proof (r_phase _ _ Hr Hadm) as Hph.
    assert (Hex : exhausted (proto (conn s)) (rx (conn s))).
    { unfold may_recv in Hmr. apply orb_false_iff in Hmr as [H1 H2]. zify_bool. destruct (v_published _ _ _ _ (r_receives _ _ Hr)) as [c Hpub].
      pose proof (TcpStorage.pub_length _ _ Hpub). pose proof (len_nonneg c). split; [|lia]. destruct (state (proto (conn s))); cbn in *; try discriminate; lia. }
    constructor; cbn; try apply Hr; try done.
    + intros Hov. rewrite (r_flow _ _ Hr Hov), Hw. done.
    + intros Hre. destruct (r_read_eof _ _ Hr Hre) as [? _]. auto.
  - injection Hc as <-. case_match; socket_step D s Hr Hw.
  - injection Hc as <-. case_match; [|socket_step D s Hr Hw]. apply (rest_reader D PClosed); [|cbn; by rewrite Hw].
    eapply (reader_socket D s); [exact Hr|by constructor|reflexivity|apply advances_refl|done|done|by left].
  - injection Hc as <-. destruct k as [|k]; [socket_step D s Hr Hw|]. apply dispatch_reader; [done|by rewrite Hw].
  - injection Hc as <-. apply rest_reader; [done|by rewrite Hw].
Qed.
End Transfer.
End Transfer.
