(* ===== verification/TcpWrites.v ===== *)
(** * The writing side and the credit of a TCP connection (crates/tun/src/tcp.rs, tcp_direct.rs)

    The invariants of [TcpTransfer] for the other direction: what the application submits reaches the
    transmit buffer in order and before the socket is closed for sending; and for the counters both
    directions are governed by. *)

From S2P Require Import Prelude Capacity TcpStorage TcpConnection TcpTransfer.

Module Writes.
Import Tcp Transfer.

Section Writes.
Context `{!Socket} `{!SocketLaws}.

(** ** The transmit buffer *)

(** The buffer holds what was pushed and not yet acknowledged; [extra] bytes of its credit are on their way to it. *)
Record transmits (p : Proto) (b : Storage) (ps : bytes) (extra : Z) : Prop := {
  t_published : exists c, TcpStorage.published b c /\ (state p = Closed \/ (0 <= TcpStorage.head b <= len ps /\ c = zdrop (TcpStorage.head b) ps));
  t_tail : TcpStorage.no_tail b;
  t_flag : TcpStorage.tx b = true;
  t_extra : 0 <= extra;
  t_used : extra + TcpStorage.length b <= TcpStorage.outstanding b <= MAX_WINDOW;
  t_target : TcpStorage.target b <= MAX_WINDOW;
}.

Lemma transmits_length p b ps extra : transmits p b ps extra -> 0 <= TcpStorage.length b.
Proof. intros [(c & Hp & _) _ _ _ _ _]. rewrite (TcpStorage.pub_length _ _ Hp). apply len_nonneg. Qed.

Lemma transmits_same p q b b' ps extra extra' :
  transmits p b ps extra -> same_bytes b b' -> (state p = Closed -> state q = Closed) -> 0 <= extra' ->
  extra' + TcpStorage.length b <= TcpStorage.outstanding b' <= MAX_WINDOW -> TcpStorage.target b' <= MAX_WINDOW -> transmits q b' ps extra'.
Proof.
  intros [(c & Hp & Hc) Ht Hf He Hu Htg] Hb Hcl He' Hu' Htg'. pose proof Hb as (B1 & B2 & B3 & B4). constructor; try done; try congruence.
  - exists c. split; [by eapply same_bytes_published|]. rewrite B2. destruct Hc; auto.
  - unfold TcpStorage.no_tail. by rewrite B1, B2, B3.
Qed.

Lemma push_fields b x :
  TcpStorage.head (fst (TcpStorage.push b x)) = TcpStorage.head b /\ TcpStorage.length (fst (TcpStorage.push b x)) = TcpStorage.length b + len x /\
  TcpStorage.target (fst (TcpStorage.push b x)) = TcpStorage.target b /\ TcpStorage.outstanding (fst (TcpStorage.push b x)) = TcpStorage.outstanding b.
Proof. unfold TcpStorage.push. case_match; zify_bool; cbn; split_and!; try done; lia. Qed.

Lemma transmits_push p q b ps extra x :
  transmits p b ps extra -> state p <> Closed -> len x <= extra -> transmits q (fst (TcpStorage.push b x)) (ps ++ x) (extra - len x).
Proof.
  intros [(c & Hp & Hc) Ht Hf He Hu Htg] Hn Hx. destruct (TcpStorage.push_spec b c x Hp Ht) as (Hp' & Ht' & Ho' & _ & Hf').
  destruct (push_fields b x) as (F1 & F2 & F3 & F4). destruct Hc as [?|[Hh ->]]; [done|]. pose proof (len_nonneg x).
  constructor; try done; try congruence; try lia. exists (zdrop (TcpStorage.head b) ps ++ x). split; [done|]. right. rewrite F1, len_app.
  split; [lia|]. by rewrite zdrop_app_le by lia.
Qed.

Lemma transmits_ack p b ps extra n :
  transmits p b ps extra -> state p <> Closed -> 0 <= n <= TcpStorage.length b -> transmits p (TcpStorage.dequeue_allocated b n) ps extra.
Proof.
  intros [(c & Hp & Hc) Ht Hf He Hu Htg] Hn Hx. pose proof (TcpStorage.pub_length _ _ Hp) as Hlen. rewrite Hlen in Hx.
  destruct (TcpStorage.dequeue_spec b c n Hp Hx) as [Hp' _]. pose proof (TcpStorage.no_tail_dequeue b c n Hp Ht Hx) as Ht'.
  destruct Hc as [?|[Hh Hcz]]; [done|]. constructor; try done.
  - exists (zdrop n c). split; [done|]. right. cbn. subst c. rewrite len_zdrop in Hx, Hlen by lia. split; [lia|]. by rewrite zdrop_zdrop by lia.
  - cbn. rewrite Hf. cbn. rewrite Hlen in *. unfold MAX_WINDOW in *. destruct (n =? 0) eqn:Hz; zify_bool; cbn [negb]; [lia|].
    unfold wrap_sub. change (Z.shiftl 65535 7) with 8388480 in *. rewrite Z.mod_small by lia. lia.
Qed.

Lemma transmits_clear p b ps extra : transmits p b ps extra -> state p = Closed -> transmits p (TcpStorage.clear b) ps extra.
Proof.
  intros Ht Hcl. pose proof (transmits_length _ _ _ _ Ht) as Hl. destruct Ht as [(c & Hp & Hc) Ht Hf He Hu Htg].
  unfold TcpStorage.clear. rewrite Hf. constructor; try done.
  - exists []. split; [|by left]. constructor; cbn; try done. intros i x Hi. apply zget_Some_range in Hi. unfold len in Hi. cbn in Hi. lia.
  - cbn. rewrite Hf. cbn. unfold MAX_WINDOW in *. change (Z.shiftl 65535 7) with 8388480 in *.
    destruct (TcpStorage.length b =? 0) eqn:Hz; zify_bool; cbn [negb]; [lia|]. unfold wrap_sub. rewrite Z.mod_small by lia. lia.
Qed.

(** ** From the application to the buffer *)

Definition down (c : Connection) : bytes := match direct c with Some d => download d | None => [] end.

(** Bytes whose credit was taken and that are not in the buffer yet. *)
Definition pending (p : app_pc) : Z := match p with WritePush b => len b | _ => 0 end.
Definition underway (s : sys) : Z := pending (pc s) + len (mjoin (outgoing (sh s))).

Record Writer (s : sys) : Prop := {
  w_flow : over s = false -> submitted (hist s) = pushed (hist s) ++ down (conn s) ++ mjoin (outgoing (sh s));
  w_prefix : pushed (hist s) `prefix_of` submitted (hist s);
  w_transmits : transmits (proto (conn s)) (tx (conn s)) (pushed (hist s)) (underway s);
  w_fin : fin (hist s) = true -> submitted (hist s) = pushed (hist s) /\
    (finish (sh s) = true \/ (handed_over (conn s) = true /\ forall d, direct (conn s) = Some d -> peer_eof d = true));
  w_peer : forall d, direct (conn s) = Some d -> peer_eof d = true -> download d = [];
  w_finish : finish (sh s) = true -> handing (hist s) = false;
  w_room : match pc s with
    | WriteUsed _ _ target => target <= MAX_WINDOW
    | WriteAdd b => TcpStorage.outstanding (tx (conn s)) + len b <= MAX_WINDOW
    | _ => True
    end;
}.

Lemma init_writer now : Writer (init now).
Proof.
  constructor; cbn; try done. constructor; cbn; try done. exists []. split; [apply TcpStorage.published_new|]. right. done.
Qed.

Ltac wframe H := constructor;
  [ try exact (w_flow _ H) | try exact (w_prefix _ H) | try exact (w_transmits _ H) | try exact (w_fin _ H)
  | try exact (w_peer _ H) | try exact (w_finish _ H) | try exact (w_room _ H) ].

Lemma call_writer c s s' : Shape s -> Writer s -> app_call c s = Some s' -> Writer s'.
Proof.
  intros Hs Hr Hc. unfold app_call in Hc. pose proof (w_transmits _ Hr) as Ht. unfold underway in Ht.
  destruct (at_ s) eqn:Hat, (pc s) eqn:Hpc; destruct c; try discriminate Hc; cbn [pending] in Ht.
  all: try (destruct (accepting s); [|discriminate Hc]).
  all: try (destruct (handing (hist s)) eqn:Hh; [discriminate Hc|]).
  all: repeat case_match; simplify_eq; zify_bool.
  all: wframe Hr; try exact Ht; cbn; try done; try (rewrite Hpc; done); try apply Hr.
  intros Hf. pose proof (g_finish _ Hs Hf). congruence.
Qed.

(** The application does not write. *)
Lemma writer_quiet s s' :
  Writer s -> proto (conn s') = proto (conn s) -> tx (conn s') = tx (conn s) -> direct (conn s') = direct (conn s) -> handed_over (conn s') = handed_over (conn s) ->
  outgoing (sh s') = outgoing (sh s) -> finish (sh s') = finish (sh s) -> submitted (hist s') = submitted (hist s) -> pushed (hist s') = pushed (hist s) ->
  fin (hist s') = fin (hist s) -> handing (hist s') = handing (hist s) -> pending (pc s') = pending (pc s) ->
  match pc s' with WriteUsed _ _ target => target <= MAX_WINDOW | WriteAdd b => TcpStorage.outstanding (tx (conn s)) + len b <= MAX_WINDOW | _ => True end -> Writer s'.
Proof.
  intros Hw E1 E2 E3 E4 E5 E6 E7 E8 E9 E10 E11 Hroom. assert (Hov : over s' = over s) by (unfold over; by rewrite E3, E4).
  assert (Hun : underway s' = underway s) by (unfold underway; by rewrite E5, E11).
  constructor; rewrite ?E1, ?E2, ?E3, ?E4, ?E5, ?E6, ?E7, ?E8, ?E9, ?E10, ?Hov, ?Hun; try apply Hw; [unfold down; rewrite E3; apply Hw|].
  destruct (pc s'); rewrite ?E2; done.
Qed.

Lemma app_writer s s' : Shape s -> Writer s -> app_step s = Some s' -> Writer s'.
Proof.
  intros Hs Hw Hc. unfold app_step in Hc. pose proof (busy_not_over _ Hs) as Hb. pose proof (w_room _ Hw) as Hroom. pose proof (w_transmits _ Hw) as Ht.
  destruct (pc s) as [] eqn:Hpc; try discriminate Hc; cbn [busy] in Hb; try specialize (Hb eq_refl) as (Hov & Hup & Hdir).
  all: unfold read_iteration, pop_after_eof, chunk_pop, finish_wake in Hc.
  all: repeat case_match; try discriminate Hc; injection Hc as <-; zify_bool.
  all: try (apply (writer_quiet s); [done|done|done|done|done|done|done|done|done|done|done|cbn; rewrite Hpc; done|done]).
  - apply (writer_quiet s); try done; [cbn; by rewrite Hpc|]. cbn. apply Ht.
  - apply (writer_quiet s); try done; [cbn; by rewrite Hpc|]. cbn. unfold tx_used, write_room, sat_sub in *. pose proof (t_used _ _ _ _ Ht).
    pose proof (len_nonneg data). rewrite len_ztake by (destruct chunk; lia). destruct chunk; lia.
  - wframe Hw; cbn; try done. unfold underway in *. rewrite Hpc in Ht. cbn in *. pose proof (len_nonneg b). pose proof (t_used _ _ _ _ Ht). pose proof (t_extra _ _ _ _ Ht).
    pose proof (transmits_length _ _ _ _ Ht). unfold tx_used, wrap_add, MAX_WINDOW in *. change (Z.shiftl 65535 7) with 8388480 in *.
    eapply transmits_same; [exact Ht|done|done|lia| |apply Ht]. cbn. rewrite Z.mod_small by lia. unfold MAX_WINDOW. change (Z.shiftl 65535 7) with 8388480. lia.
  - pose proof (g_busy _ Hs) as Hbh. rewrite Hpc in Hbh. specialize (Hbh eq_refl). pose proof (g_write _ Hs) as Hwr. rewrite Hpc in Hwr. specialize (Hwr eq_refl).
    assert (Hnf : fin (hist s) = false). { destruct (fin (hist s)) eqn:Hf; [|done]. destruct (w_fin _ Hw Hf) as [_ [Hfi|[Hho _]]]; [|pose proof (g_handed _ Hs Hho); congruence]. pose proof (g_finish _ Hs Hfi). congruence. }
    wframe Hw; cbn; try done; try congruence.
    + intros _. rewrite (w_flow _ Hw Hov), join_app, <- !app_assoc. cbn. by rewrite app_nil_r.
    + apply prefix_app_r, Hw.
    + unfold underway in *. rewrite Hpc in Ht. cbn in *. rewrite join_app, len_app. cbn. rewrite app_nil_r.
      replace (len (mjoin (outgoing (sh s))) + len b) with (len b + len (mjoin (outgoing (sh s)))) by lia. exact Ht.
  - wframe Hw; cbn; try done.
    + unfold underway in *. rewrite Hpc in Ht. exact Ht.
    + intros Hf. destruct (w_fin _ Hw Hf) as [? _]. auto.
    + intros _. apply (g_busy _ Hs). by rewrite Hpc.
Qed.

(** The writing side of a direct transfer, and what is left of it when a block could not be sent. *)
Record AreaWriter (a : area) : Prop := {
  aw_flow : let '(h, c, d, x) := a in submitted x = pushed x ++ download d;
  aw_transmits : let '(h, c, d, x) := a in transmits (proto c) (tx c) (pushed x) 0;
  aw_peer : let '(h, c, d, x) := a in peer_eof d = true -> download d = [];
  aw_fin : let '(h, c, d, x) := a in fin x = true -> peer_eof d = true;
}.
Record AreaFailed (a : area) : Prop := {
  af_prefix : let '(h, c, d, x) := a in pushed x `prefix_of` submitted x;
  af_transmits : let '(h, c, d, x) := a in transmits (proto c) (tx c) (pushed x) 0;
  af_fin : let '(h, c, d, x) := a in fin x = true -> submitted x = pushed x;
}.

Lemma area_writer_failed a : AreaWriter a -> AreaFailed a.
Proof.
  destruct a as [[[h c] d] x]. intros [Hf Ht Hp Hn]. constructor; cbn; [rewrite Hf; by apply prefix_app_r|done|].
  intros Hfin. rewrite Hf, (Hp (Hn Hfin)). by rewrite app_nil_r.
Qed.

Lemma area_writer_same h c d x h' c' d' x' :
  AreaWriter (h, c, d, x) -> state (proto c') = state (proto c) -> tx c' = tx c -> download d' = download d -> peer_eof d' = peer_eof d ->
  submitted x' = submitted x -> pushed x' = pushed x -> fin x' = fin x -> AreaWriter (h', c', d', x').
Proof.
  intros [Hf Ht Hp Hn] E1 E2 E3 E4 E5 E6 E7. constructor; cbn; rewrite ?E2, ?E3, ?E4, ?E5, ?E6, ?E7; try done.
  eapply transmits_same; [exact Ht|done|congruence|lia|apply Ht|apply Ht].
Qed.

Lemma upload_poll_writer peer a a' r : AreaWriter a -> upload_poll peer a = Some (a', r) -> AreaWriter a'.
Proof.
  destruct a as [[[h c] d] x]. intros Ha. unfold upload_poll. case_match; [intros; by simplify_eq|].
  assert (Hfill : AreaWriter (upload_fill (h, c, d, x))).
  { unfold upload_fill. case_match; [destruct (take_blocks _ _) as [b l]|]; (eapply area_writer_same; [exact Ha|..]; try done). cbn. apply received_state. }
  destruct (upload_fill (h, c, d, x)) as [[[h1 c1] d1] x1]. destruct (upload_write peer (h1, c1, d1, x1)) as [[[[[h2 c2] d2] x2] q]|] eqn:Hw; [|done]. cbn [mbind option_bind].
  assert (Hwr : AreaWriter (h2, c2, d2, x2)).
  { unfold upload_write in Hw. repeat case_match; simplify_eq; try done. destruct (advance _ _); [|done]. cbn in Hw. simplify_eq. eapply area_writer_same; [exact Hfill|..]; done. }
  assert (Hend : AreaWriter (fst (upload_end peer (h2, c2, d2, x2)))).
  { unfold upload_end. repeat case_match; cbn; try done; (eapply area_writer_same; [exact Hwr|..]; done). }
  intros Hu. destruct q; simplify_eq; try done. by rewrite Hu in Hend.
Qed.

Lemma set_used_bytes n b : same_bytes b (set_used n b).
Proof. done. Qed.

(** The credit for a block from the peer is taken and the block pushed. *)
Lemma download_push c (b : bytes) x :
  transmits (proto c) (tx c) (pushed x) 0 -> sat_sub (TcpStorage.target (tx c)) (TcpStorage.outstanding (tx c)) <> 0 ->
  let count := Z.min (sat_sub (TcpStorage.target (tx c)) (TcpStorage.outstanding (tx c))) (len b) in
  let t := set_used (wrap_add (TcpStorage.outstanding (tx c)) count) (tx c) in
  transmits (proto c) t (pushed x) count /\ len (ztake count b) = count.
Proof.
  intros Ht Hav count t. pose proof (len_nonneg b). pose proof (t_used _ _ _ _ Ht) as Hu. pose proof (t_target _ _ _ _ Ht). pose proof (transmits_length _ _ _ _ Ht).
  unfold sat_sub in *. assert (0 <= count <= len b) by (unfold count; lia). assert (Hc : TcpStorage.outstanding (tx c) + count <= TcpStorage.target (tx c)) by (unfold count; lia).
  clearbody count. split; [|rewrite len_ztake; lia]. unfold t, wrap_add. unfold MAX_WINDOW in *. change (Z.shiftl 65535 7) with 8388480 in *.
  eapply transmits_same; [exact Ht|done|done|lia| |apply Ht]. cbn. rewrite Z.mod_small by lia. unfold MAX_WINDOW. change (Z.shiftl 65535 7) with 8388480. lia.
Qed.

Lemma sending_open st : sending st = true -> st <> Closed.
Proof. by destruct st. Qed.

Lemma download_poll_writer fuel reads a :
  AreaWriter a -> (snd (download_poll fuel reads a) <> PFailed -> AreaWriter (fst (download_poll fuel reads a))) /\ AreaFailed (fst (download_poll fuel reads a)) /\
  (forall r, snd (download_poll fuel reads a) = PReady r -> peer_eof (snd (fst (fst (download_poll fuel reads a)))) = true).
Proof.
  revert reads a. induction fuel as [|fuel IH]; intros reads [[[h c] d] x] Ha; cbn [download_poll].
  { cbn. split_and!; [|apply area_writer_failed|done]; (try intros _); (eapply area_writer_same; [exact Ha|..]; done). }
  destruct (peer_eof d && (len (download d) =? 0)) eqn:Hpe.
  { cbn. split_and!; [done|by apply area_writer_failed|]. intros _ _. by apply andb_true_iff in Hpe as [? _]. }
  destruct (sat_sub _ _ =? 0) eqn:Hav; [split_and!; [done|by apply area_writer_failed|done]|]. zify_bool.
  pose proof Ha as [Hf Ht Hp Hn].
  assert (Hnot : peer_eof d = false).
  { destruct (peer_eof d) eqn:Hpd; [|done]. rewrite (Hp eq_refl) in Hpe. done. }
  assert (Hnf : fin x = false) by (destruct (fin x); [by rewrite Hn in Hnot|done]).
  assert (Hstep : forall b y q, submitted y = pushed x ++ b -> pushed y = pushed x -> fin y = fin x ->
    let count := Z.min (sat_sub (TcpStorage.target (tx c)) (TcpStorage.outstanding (tx c))) (len b) in
    let t := set_used (wrap_add (TcpStorage.outstanding (tx c)) count) (tx c) in
    let d' n := mkDirect (upload d) (zdrop count b) (peer_eof d) (upload_done d) (d_sent d) n in
    (state (proto c) <> Closed -> forall n, state q = state (proto c) -> AreaWriter (h, set_proto q (set_tx (fst (TcpStorage.push t (ztake count b))) c), d' n, note_pushed (ztake count b) y)) /\
    forall n, AreaFailed (h, set_tx t c, d' n, y)).
  { intros b y q E1 E2 E3 count t d'. destruct (download_push c b x Ht ltac:(lia)) as [Htt Hlen]. fold count in Htt, Hlen. fold t in Htt. split.
    - intros Hop n Hq. constructor; cbn.
      + by rewrite E1, E2, <- app_assoc, ztake_zdrop.
      + rewrite E2. replace 0 with (count - len (ztake count b)) by lia. apply (transmits_push (proto c)); [done|done|lia].
      + by rewrite Hnot.
      + by rewrite E3, Hnf.
    - intros n. constructor; cbn; [rewrite E1, E2; by apply prefix_app_r| |by rewrite E3, Hnf].
      rewrite E2. pose proof (t_extra _ _ _ _ Htt). pose proof (t_used _ _ _ _ Htt). eapply transmits_same; [exact Htt|done|done|lia|lia|apply Htt]. }
  destruct (len (download d) =? 0) eqn:Hd0.
  - destruct reads as [|[|b|] reads]; try (split_and!; [done|by apply area_writer_failed|done]). zify_bool. apply len_zero in Hd0.
    destruct (len b =? 0) eqn:Hb0.
    + cbn. assert (Hnew : AreaWriter (h, set_proto (close (proto c)) c, mkDirect (upload d) [] true (upload_done d) (d_sent d) (d_received d), note_fin x)).
      { constructor; cbn; [by rewrite Hf, Hd0| |done|done]. eapply transmits_same; [exact Ht|done| |lia|apply Ht|apply Ht]. apply forward_closed, close_forward. }
      split_and!; [done|by apply area_writer_failed|done].
    + destruct (Hstep b (submit b x) (sent (proto c) (Z.min (sat_sub (TcpStorage.target (tx c)) (TcpStorage.outstanding (tx c))) (len b)))) as [H1 H2]; [cbn; by rewrite Hf, Hd0, app_nil_r|done|done|].
      destruct (sending (state (proto c))) eqn:Hse; [|cbn; split_and!; [done|by apply H2|done]].
      apply IH, H1; [by apply sending_open|apply sent_state].
  - destruct (Hstep (download d) x (sent (proto c) (Z.min (sat_sub (TcpStorage.target (tx c)) (TcpStorage.outstanding (tx c))) (len (download d))))) as [H1 H2]; [done|done|done|].
    destruct (sending (state (proto c))) eqn:Hse; [|cbn; split_and!; [done|by apply H2|done]].
    apply IH, H1; [by apply sending_open|apply sent_state].
Qed.

Lemma direct_poll_writer peer a a' r :
  AreaWriter a -> direct_poll peer a = Some (a', r) -> AreaFailed a' /\ ((forall e, r <> Err e) -> AreaWriter a') /\ (r = Ok true -> peer_eof (snd (fst a')) = true).
Proof.
  intros Ha. unfold direct_poll. destruct (upload_poll peer a) as [[b u]|] eqn:Hu; [|done]. cbn [mbind option_bind]. intros Hd.
  apply upload_poll_writer in Hu; [|done]. pose proof (download_poll_writer 32 (on_reads peer) b Hu) as Hdp.
  destruct (download_poll 32 (on_reads peer) b) as [c q]. destruct Hdp as (H1 & H2 & H3). cbn [fst snd] in *.
  assert (Hb : AreaFailed b) by (by apply area_writer_failed).
  destruct u as [|u|], q as [|q|]; simplify_eq; split_and!; try done; try (intros Hne; by destruct (Hne PeerError)); try (intros _; by apply H1).
  intros _. by apply (H3 q).
Qed.

(** Worker steps outside the sending loop. *)
Lemma writer_socket s s' :
  Writer s -> pc s' = pc s -> direct (conn s') = direct (conn s) -> handed_over (conn s') = handed_over (conn s) -> outgoing (sh s') = outgoing (sh s) ->
  finish (sh s') = finish (sh s) -> submitted (hist s') = submitted (hist s) -> pushed (hist s') = pushed (hist s) -> fin (hist s') = fin (hist s) -> handing (hist s') = handing (hist s) ->
  transmits (proto (conn s')) (tx (conn s')) (pushed (hist s)) (underway s) -> TcpStorage.outstanding (tx (conn s')) <= TcpStorage.outstanding (tx (conn s)) -> Writer s'.
Proof.
  intros Hw E0 E3 E4 E5 E6 E7 E8 E9 E10 Ht Hle. assert (Hov : over s' = over s) by (unfold over; by rewrite E3, E4).
  assert (Hun : underway s' = underway s) by (unfold underway; by rewrite E0, E5).
  constructor; rewrite ?E0, ?E3, ?E4, ?E5, ?E6, ?E7, ?E8, ?E9, ?E10, ?Hov, ?Hun; try apply Hw; [unfold down; rewrite E3; apply Hw|done|].
  pose proof (w_room _ Hw) as Hr. destruct (pc s); cbn in *; lia.
Qed.

Lemma transmits_forward p q b ps n : transmits p b ps n -> forward (state p) (state q) -> transmits q b ps n.
Proof. intros Ht Hf. eapply transmits_same; [exact Ht|done|by apply forward_closed|apply Ht|apply Ht|apply Ht]. Qed.

Lemma writer_state s s' :
  Writer s -> same_app s s' -> forward (state (proto (conn s))) (state (proto (conn s'))) -> tx (conn s') = tx (conn s) -> Writer s'.
Proof.
  intros Hw [E1 E2 E3 E4 E5 E6 E7 E8 E9 E10 E11 E12] Hf Ht. apply (writer_socket s); try done; rewrite ?E4, ?Ht; try done.
  by eapply transmits_forward; [apply Hw|].
Qed.

Lemma rest_writer p s : Writer s -> Writer (rest p s).
Proof.
  intros Hw. destruct (rest_same p s) as [Hs _], (rest_conn p s) as [Hc _]. eapply writer_state; [exact Hw|exact Hs|rewrite Hc; apply forward_refl|by rewrite Hc].
Qed.

Lemma dequeue_outstanding b n : 0 <= n <= TcpStorage.outstanding b -> TcpStorage.outstanding b <= MAX_WINDOW ->
  TcpStorage.outstanding (TcpStorage.dequeue_allocated b n) <= TcpStorage.outstanding b.
Proof.
  intros Hn Hm. cbn. case_match; [|lia]. unfold wrap_sub, MAX_WINDOW in *. change (Z.shiftl 65535 7) with 8388480 in *. rewrite Z.mod_small by lia. lia.
Qed.

Lemma clear_outstanding b : 0 <= TcpStorage.length b <= TcpStorage.outstanding b -> TcpStorage.outstanding b <= MAX_WINDOW ->
  TcpStorage.outstanding (TcpStorage.clear b) <= TcpStorage.outstanding b.
Proof. intros Hn Hm. unfold TcpStorage.clear. destruct (TcpStorage.tx b); [by apply dequeue_outstanding|done]. Qed.

Lemma dispatch_writer e k s : Writer s -> Writer (dispatch_step e k s).
Proof.
  intros Hw. pose proof (w_transmits _ Hw) as Ht. unfold dispatch_step.
  pose proof (dispatch_forward (host_now (now e) (conn s)) (proto (conn s)) (rx (conn s)) (tx (conn s))) as Hf.
  pose proof (emitted_forward (host_now (now e) (conn s)) (proto (conn s)) (rx (conn s)) (tx (conn s))) as Hem.
  pose proof (dispatch_clears (host_now (now e) (conn s)) (proto (conn s)) (rx (conn s)) (tx (conn s))) as Hcl.
  destruct (dispatch _ _ _ _) as [[p clears] em]. cbn in Hf, Hem, Hcl.
  set (c := set_proto p _). assert (Hc : forall q, forward (state p) (state q) -> Writer (with_conn (set_proto q c) s)).
  { intros q Hq. assert (Hfw : forward (state (proto (conn s))) (state q)) by (by eapply forward_trans).
    assert (Htq : transmits p (tx (conn s)) (pushed (hist s)) (underway s)) by (by eapply transmits_forward).
    pose proof (transmits_length _ _ _ _ Ht). pose proof (t_used _ _ _ _ Ht). pose proof (t_extra _ _ _ _ Ht). destruct clears.
    - apply (writer_socket s); try done; [|cbn; apply clear_outstanding; lia]. eapply transmits_forward; [|exact Hq]. apply transmits_clear; [exact Htq|by apply Hcl].
    - apply (writer_socket s); try done. by eapply transmits_forward. }
  assert (Hc0 : Writer (with_conn c s)) by (apply (Hc p), forward_refl).
  assert (Hgo : forall q (b : bool), forward (state p) (state q) -> Writer (if bool_decide (state q = Closed)
            then rest PClosed (with_conn (set_proto q (conn (with_conn c s))) (with_conn c s)) else with_wpc (if b then Dispatch k else More) (with_conn (set_proto q (conn (with_conn c s))) (with_conn c s)))).
  { intros q b Hq. case_match; [by apply rest_writer, Hc|]. eapply (writer_state (with_conn (set_proto q c) s)); [by apply Hc|done|apply forward_refl|done]. }
  destruct em as [q|]; [destruct (emits e)|].
  - apply (Hgo q true). by apply Hem.
  - by apply rest_writer.
  - by apply rest_writer.
  - apply (Hgo p false), forward_refl.
Qed.

Lemma input_writer t seg s c' :
  Writer s -> accepts (proto (conn s)) seg = true -> input t seg (conn s) = Some c' ->
  transmits (proto c') (tx c') (pushed (hist s)) (underway s) /\ TcpStorage.outstanding (tx c') <= TcpStorage.outstanding (tx (conn s)).
Proof.
  intros Hw Ha Hi. pose proof (w_transmits _ Hw) as Ht. pose proof (transmits_length _ _ _ _ Ht) as Hl. pose proof (t_used _ _ _ _ Ht). pose proof (t_extra _ _ _ _ Ht).
  pose proof (process_forward (host_now t (conn s)) (proto (conn s)) (rx (conn s)) (tx (conn s)) seg) as Hfw.
  pose proof (process_acked (host_now t (conn s)) (proto (conn s)) (rx (conn s)) (tx (conn s)) seg Hl) as Hack.
  unfold input in Hi. destruct (process _ _ _ _ _) as [[[p calls] acked] reply]. cbn in Hfw, Hack. destruct (TcpStorage.rx_run _ _) as [r|]; [|done].
  cbn [mbind option_bind] in Hi. injection Hi as <-. set (c1 := set_tx _ _).
  assert (Hc1 : transmits p (tx c1) (pushed (hist s)) (underway s)).
  { eapply transmits_forward; [apply transmits_ack; [exact Ht|by eapply accepts_closed|done]|exact Hfw]. }
  assert (Ho1 : TcpStorage.outstanding (tx c1) <= TcpStorage.outstanding (tx (conn s))) by (apply dequeue_outstanding; lia).
  assert (Hp1 : proto c1 = p) by done. clearbody c1. subst p. repeat case_match; cbn; (split; [|done]); try done; (eapply transmits_forward; [exact Hc1|apply abort_forward]).
Qed.

Lemma direct_turn_writer e d s s' w :
  Shape s -> Writer s -> direct (conn s) = Some d -> direct_turn e d s = Some s' -> Writer (with_wpc w s').
Proof.
  intros Hs Hw Hd Ht. assert (Hho : handed_over (conn s) = true) by (apply (g_direct _ Hs); by rewrite Hd).
  pose proof (g_handed _ Hs Hho) as Hhand. destruct (g_head _ Hs Hhand) as [_ Hout].
  assert (Hov : over s = false) by (unfold over; by rewrite Hho, Hd).
  assert (Hnf : finish (sh s) = false). { destruct (finish (sh s)) eqn:Hf; [|done]. rewrite (w_finish _ Hw Hf) in Hhand. done. }
  assert (Hpc : pending (pc s) = 0 /\ match pc s with WriteUsed _ _ _ | WriteAdd _ => False | _ => True end).
  { pose proof (g_busy _ Hs) as Hb. destruct (pc s); cbn in *; try done; rewrite Hb in Hhand; done. }
  destruct Hpc as [Hpend Hroom]. assert (Hund : underway s = 0) by (unfold underway; by rewrite Hpend, Hout).
  pose proof (w_transmits _ Hw) as Htr. rewrite Hund in Htr.
  unfold direct_turn in Ht. destruct (bool_decide (state (proto (conn s)) = Closed) && negb (closed_normally (conn s))).
  { injection Ht as <-. constructor; cbn; try apply Hw; try done.
    - unfold over. cbn. by rewrite Hho.
    - unfold underway. cbn. rewrite Hpend, Hout. eapply transmits_forward; [exact Htr|apply abort_forward].
    - intros Hf. destruct (w_fin _ Hw Hf) as [? _]. split; [done|]. right. split; [done|]. done. }
  assert (Ha : AreaWriter (sh s, conn s, d, hist s)).
  { constructor; cbn; [|done|by apply (w_peer _ Hw)|].
    - rewrite (w_flow _ Hw Hov), Hout. unfold down. rewrite Hd. cbn. by rewrite app_nil_r.
    - intros Hf. destruct (w_fin _ Hw Hf) as [_ [?|[_ Hp]]]; [congruence|by apply Hp]. }
  destruct (direct_poll _ _) as [[[[[h c] d'] x] r]|] eqn:Hp; [|done]. pose proof (direct_poll_frame _ _ _ _ Hp) as Hfr.
  apply direct_poll_writer in Hp as ([Fp Ft Ff] & Hok & Hpe); [|done]. destruct Hfr as [(_ & F2 & _ & F4 & _) _ (F7 & F8 & F9 & F10) (F11 & _)]. cbn in *. injection Ht as <-.
  assert (Hund' : forall s1, pc s1 = pc s -> outgoing (sh s1) = outgoing h -> underway s1 = 0) by (intros s1 E1 E2; unfold underway; rewrite E1, E2, F2, Hpend, Hout; done).
  destruct r as [[]|]; cbn.
  - specialize (Hok ltac:(done)). destruct Hok as [G1 G2 G3 G4]. constructor; cbn; try done.
    + unfold over. cbn. by rewrite F8, Hho.
    + by rewrite Hund'.
    + intros Hf. split; [by apply Ff|]. right. by rewrite F8.
    + rewrite F4, Hnf. done.
    + by destruct (pc s).
  - specialize (Hok ltac:(done)). destruct Hok as [G1 G2 G3 G4]. constructor; cbn; try done.
    + intros _. rewrite G1, F2, Hout. cbn. by rewrite app_nil_r.
    + by rewrite Hund'.
    + intros Hf. split; [by apply Ff|]. right. rewrite F8. split; [done|]. intros d0 Hd0. injection Hd0 as <-. by apply G4.
    + intros d0 Hd0. by injection Hd0 as <-.
    + rewrite F4, Hnf. done.
    + by destruct (pc s).
  - constructor; cbn; try done.
    + unfold over. cbn. by rewrite F8, Hho.
    + rewrite Hund' by done. eapply transmits_forward; [exact Ft|apply abort_forward].
    + intros Hf. split; [by apply Ff|]. right. by rewrite F8.
    + rewrite F4, Hnf. done.
    + by destruct (pc s).
Qed.

Ltac wstate s Hw := apply (writer_state s); [exact Hw|by constructor|cbn; first [apply forward_refl|apply abort_forward|rewrite ?sent_state, ?received_state; apply forward_refl]|done].

Lemma worker_writer e s s' : Shape s -> Writer s -> worker_step e s = Some s' -> Writer s'.
Proof.
  intros Hs Hw Hc. unfold worker_step in Hc. pose proof (g_serving _ Hs) as Hsv. pose proof (w_transmits _ Hw) as Ht.
  destruct (wpc s) as [] eqn:Hwpc; try discriminate Hc; cbn in Hsv; try specialize (Hsv eq_refl).
  - injection Hc as <-. apply (writer_socket s); try done. eapply transmits_same; [exact Ht|done|done|apply Ht|apply Ht|apply Ht].
  - injection Hc as <-. unfold refresh_store. repeat case_match. all: apply (writer_socket s); try done.
    all: eapply transmits_same; [exact Ht|done|done|apply Ht|apply Ht|cbn; lia].
  - destruct (accepts _ _) eqn:Hacc; [|injection Hc as <-; wstate s Hw].
    destruct (input _ _ _) as [c'|] eqn:Hi; [|done]. cbn in Hc. injection Hc as <-. destruct (input_writer _ _ _ _ Hw Hacc Hi) as (? & ?).
    apply input_fields in Hi as (Hadm & ? & ?). destruct (wake_fields (sh s)) as (? & ? & ? & ? & ? & ? & ?). by apply (writer_socket s).
  - injection Hc as <-. case_match; wstate s Hw.
  - injection Hc as <-. case_match eqn:Hat; [|wstate s Hw].
    apply andb_true_iff in Hat as [Hho Hatt]. apply negb_true_iff in Hho. zify_bool. assert (Hdn : direct (conn s) = None).
    { destruct (direct (conn s)) eqn:Hd; [|done]. rewrite (g_direct _ Hs) in Hho by (by rewrite Hd). done. }
    assert (Hov : over s = false) by (unfold over; by rewrite Hho). pose proof (proj2 (g_attach _ Hs) Hatt) as Hhand.
    constructor; cbn; try apply Hw.
    + intros _. rewrite (w_flow _ Hw Hov). unfold down. by rewrite Hdn.
    + intros Hf. destruct (w_fin _ Hw Hf) as [? [Hfi|[? ?]]]; [rewrite (w_finish _ Hw Hfi) in Hhand; done|congruence].
    + intros d Hd. by injection Hd as <-.
  - destruct (direct (conn s)) as [d|] eqn:Hd.
    + destruct (direct_turn e d s) as [s1|] eqn:Hdt; [|done]. cbn in Hc. injection Hc as <-. by eapply (direct_turn_writer e d s).
    + cbn in Hc. injection Hc as <-. wstate s Hw.
  - destruct (sending (state (proto (conn s)))) eqn:Hse; injection Hc as <-; [|wstate s Hw]. unfold admit_connection.
    destruct (admission (conn s)) eqn:Ha; cbn [negb]; [|wstate s Hw]. destruct (accepting s); [by apply (writer_socket s)|].
    destruct (wake_fields (set_aborted (sh s))) as (W1 & W2 & W3 & W4 & W5 & W6 & W7). apply (writer_socket s); try done.
    eapply transmits_forward; [exact Ht|apply abort_forward].
  - destruct k as [|k]; [injection Hc as <-; wstate s Hw|]. destruct (outgoing (sh s)) as [|b q] eqn:Hout; [injection Hc as <-; wstate s Hw|].
    destruct (g_pushing _ Hs) as [Hse|[Hat Hadm]]; [by rewrite Hwpc| |destruct (g_owner _ Hs) as (_ & _ & _ & _ & _ & _ & _ & ?); [congruence|congruence]].
    unfold send_block in Hc. cbn in Hc. rewrite Hse in Hc. cbn in Hc. injection Hc as <-.
    assert (Hov : over s = false) by (unfold over; by rewrite Hsv). assert (Hdn : direct (conn s) = None).
    { destruct (direct (conn s)) eqn:Hd; [|done]. rewrite (g_direct _ Hs) in Hsv by (by rewrite Hd). done. }
    assert (Hfl : submitted (hist s) = pushed (hist s) ++ b ++ mjoin q) by (rewrite (w_flow _ Hw Hov), Hout; unfold down; by rewrite Hdn).
    unfold underway in Ht. rewrite Hout in Ht. cbn in Ht. rewrite len_app in Ht.
    assert (Hpn : 0 <= pending (pc s)) by (destruct (pc s); cbn; try lia; apply len_nonneg). pose proof (len_nonneg b). pose proof (len_nonneg (mjoin q)). constructor; cbn; try apply Hw.
    + intros _. rewrite Hfl. unfold down. cbn. rewrite Hdn. cbn. by rewrite app_assoc.
    + rewrite Hfl, app_assoc. by apply prefix_app_r.
    + unfold underway. cbn. replace (pending (pc s) + len (mjoin q)) with (pending (pc s) + (len b + len (mjoin q)) - len b) by lia.
      apply (transmits_push (proto (conn s))); [exact Ht|by apply sending_open|lia].
    + intros Hf. destruct (w_fin _ Hw Hf) as [Heq Hor]. split; [|done]. rewrite Hfl in Heq. apply (f_equal len) in Heq. rewrite !len_app in Heq.
      assert (b = []) as -> by (apply len_zero; lia). rewrite app_nil_r. by destruct (w_fin _ Hw Hf).
    + pose proof (w_room _ Hw) as Hr. destruct (push_fields (tx (conn s)) b) as (_ & _ & _ & Ho). cbn. by rewrite Ho.
  - injection Hc as <-. wstate s Hw.
  - injection Hc as <-. case_match eqn:Hnil; [|wstate s Hw]. assert (Hout : outgoing (sh s) = []) by (by destruct (outgoing (sh s))).
    assert (Hov : over s = false) by (unfold over; by rewrite Hsv). assert (Hdn : direct (conn s) = None).
    { destruct (direct (conn s)) eqn:Hd; [|done]. rewrite (g_direct _ Hs) in Hsv by (by rewrite Hd). done. }
    constructor; cbn; try apply Hw.
    + eapply transmits_forward; [exact Ht|apply close_forward].
    + intros _. split; [|left; by apply (g_finishing _ Hs stopping)]. rewrite (w_flow _ Hw Hov), Hout. unfold down. rewrite Hdn. cbn. by rewrite app_nil_r.
  - injection Hc as <-. wstate s Hw.
  - destruct k as [|k]; [injection Hc as <-; wstate s Hw|]. destruct (TcpStorage.take (rx (conn s))) as [b [x|]]; injection Hc as <-; [|wstate s Hw].
    by apply (writer_socket s).
  - injection Hc as <-. wstate s Hw.
  - injection Hc as <-. by apply (writer_socket s).
  - injection Hc as <-. case_match; [by apply (writer_socket s)|wstate s Hw].
  - injection Hc as <-. case_match; wstate s Hw.
  - injection Hc as <-. case_match; [|wstate s Hw]. apply (rest_writer PClosed). wstate s Hw.
  - injection Hc as <-. destruct k as [|k]; [wstate s Hw|]. by apply dispatch_writer.
  - injection Hc as <-. by apply rest_writer.
Qed.
End Writes.
End Writes.
