(* ===== verification/TcpLive.v ===== *)
(** * Credit, notifications and the promises of a TCP connection (crates/tun/src/tcp.rs, tcp_direct.rs)

    The remaining invariants of the machine of [TcpConnection], which say that the receive credit is
    counted exactly and that every change the application makes is followed by a turn of the worker,
    and the theorems about whole runs. *)

From S2P Require Import Prelude Capacity TcpStorage TcpConnection TcpTransfer TcpWrites.

Module Live.
Import Tcp Transfer Writes.

Section Live.
Context `{!Socket} `{!SocketLaws}.

(** ** Receive credit *)

(** Bytes taken out of the receive buffer whose consumption the application has not announced. *)
Definition unreleased (p : app_pc) : Z := match p with ReadLoop _ acc => len acc | ReleaseUsed n _ => n | _ => 0 end.
Definition counted (p : worker_pc) : Z := match p with RecvPush _ _ _ b => len b | _ => 0 end.
Definition owed (s : sys) : Z :=
  leased (hist s) + unreleased (pc s) + len (head (st s)) + len (up (conn s)) + len (mjoin (incoming (sh s))) + counted (wpc s).

Definition Credit (s : sys) : Prop := over s = false -> rx_used s = owed s `mod` 2 ^ 64.

Lemma wrap_add_mod a n m : a = m `mod` 2 ^ 64 -> wrap_add a n = (m + n) `mod` 2 ^ 64.
Proof. intros ->. unfold wrap_add. by rewrite Zplus_mod_idemp_l. Qed.

Lemma wrap_sub_mod a n m : a = m `mod` 2 ^ 64 -> wrap_sub a n = (m - n) `mod` 2 ^ 64.
Proof. intros ->. unfold wrap_sub. by rewrite Zminus_mod_idemp_l. Qed.

Lemma len_split n (l : bytes) : len (ztake n l) + len (zdrop n l) = len l.
Proof. by rewrite <- len_app, ztake_zdrop. Qed.

Lemma join_cons (b : bytes) q : mjoin (b :: q) = b ++ mjoin q.
Proof. done. Qed.

Lemma call_credit c s s' : Credit s -> app_call c s = Some s' -> Credit s'.
Proof.
  intros Hr Hc. unfold app_call in Hc. unfold Credit, owed in *.
  destruct (at_ s) eqn:Hat, (pc s) eqn:Hpc; destruct c; try discriminate Hc.
  all: try (destruct (accepting s); [|discriminate Hc]).
  all: try (destruct (handing (hist s)) eqn:Hh; [discriminate Hc|]).
  all: repeat case_match; simplify_eq; zify_bool; cbn in *; rewrite ?Hpc in *; intros Hov; specialize (Hr Hov); cbn in *; try exact Hr.
  rewrite <- Hr || (etransitivity; [exact Hr|]). f_equal. lia.
Qed.

Lemma app_credit s s' : Shape s -> Credit s -> app_step s = Some s' -> Credit s'.
Proof.
  intros Hs Hr Hc. unfold app_step in Hc. pose proof (g_read _ Hs) as Hrd. unfold Credit, owed in *.
  destruct (pc s) as [] eqn:Hpc; try discriminate Hc; cbn [read_ok] in Hrd.
  all: unfold read_iteration, pop_after_eof, chunk_pop, finish_wake in Hc.
  all: repeat case_match; try discriminate Hc; injection Hc as <-; zify_bool; intros Hov; specialize (Hr Hov); unfold rx_used in *; cbn -[mjoin] in *.
  all: try exact Hr.
  all: try (rewrite (wrap_sub_mod _ _ _ Hr)); try (rewrite Hr); f_equal.
  all: try match goal with Hz : incoming (sh _) = _ |- _ => rewrite Hz end.
  all: rewrite ?join_cons, ?len_app; try lia.
  all: unfold up; cbn -[mjoin]; change (len (@nil Z)) with 0; try lia.
  all: try match goal with |- context [ztake ?n ?b] => pose proof (len_split n b) end; try lia.
  all: match goal with Hz : _ /\ head (st _) = [] /\ _ |- _ => destruct Hz as (_ & Hz & _); rewrite Hz | Hz : head (st _) = [] /\ _ |- _ => destruct Hz as (Hz & _); rewrite Hz | _ => idtac end; change (len (@nil Z)) with 0 in *; try lia.
Qed.

(** The credit of a direct transfer. *)
Definition area_credit (base : Z) (a : area) : Prop :=
  let '(h, c, d, x) := a in TcpStorage.outstanding (rx c) = (base + len (mjoin (upload d)) + len (mjoin (incoming h))) `mod` 2 ^ 64.

Lemma lsum_join (l : list bytes) : lsum len l = len (mjoin l).
Proof. induction l as [|b l IH]; [done|]. rewrite join_cons, len_app. unfold lsum in *. cbn [foldr]. lia. Qed.

Lemma upload_poll_credit D base peer a a' r :
  AreaReader D a -> area_credit base a -> upload_poll peer a = Some (a', r) -> area_credit base a'.
Proof.
  destruct a as [[[h c] d] x]. intros Hr Ha. unfold upload_poll. case_match; [intros; by simplify_eq|].
  assert (Hfill : area_credit base (upload_fill (h, c, d, x))).
  { unfold upload_fill. set (room := (32 - length (upload d))%nat).
    assert (Hlen : len (mjoin (upload d)) + len (mjoin (incoming h)) = len (mjoin (upload d ++ firstn room (incoming h))) + len (mjoin (skipn room (incoming h))))
      by (rewrite join_app, len_app, <- (firstn_join room (incoming h)), len_app; lia).
    destruct (_ && _); [|cbn -[mjoin] in *; rewrite Ha; f_equal; lia]. destruct (take_blocks _ _) as [b l] eqn:Ht.
    destruct (receives_blocks D _ _ _ _ _ _ (a_receives _ _ Hr) Ht) as (_ & _ & Ho). cbn -[mjoin] in *. rewrite Ho, lsum_join, (wrap_add_mod _ _ _ Ha). f_equal.
    rewrite (join_app (_ ++ _)), len_app. lia. }
  destruct (upload_fill (h, c, d, x)) as [[[h1 c1] d1] x1]. destruct (upload_write peer (h1, c1, d1, x1)) as [[[[[h2 c2] d2] x2] q]|] eqn:Hw; [|done]. cbn [mbind option_bind].
  assert (Hwr : area_credit base (h2, c2, d2, x2)).
  { unfold upload_write in Hw. repeat case_match; simplify_eq; try done. destruct (advance _ _) eqn:Hadv; [|done]. zify_bool. cbn in Hw. simplify_eq.
    apply transfer_advance_spec in Hadv as [Hle Hu]; [|lia]. cbn -[mjoin] in *. rewrite (wrap_sub_mod _ _ _ Hfill), Hu, len_zdrop by lia. f_equal. lia. }
  assert (Hend : area_credit base (fst (upload_end peer (h2, c2, d2, x2)))).
  { unfold upload_end. repeat case_match; cbn -[mjoin]; try done. by destruct (wake_fields h2) as (_ & -> & _). }
  intros Hu. destruct q; simplify_eq; try done. by rewrite Hu in Hend.
Qed.

Lemma download_poll_credit base fuel reads a : area_credit base a -> area_credit base (fst (download_poll fuel reads a)).
Proof.
  revert reads a. induction fuel as [|fuel IH]; intros reads [[[h c] d] x] Ha; cbn [download_poll].
  { cbn -[mjoin] in *. by destruct (wake_fields h) as (_ & -> & _). }
  repeat (case_match; try exact Ha; try (by apply IH)).
Qed.

Lemma direct_poll_credit D base peer a a' r : AreaReader D a -> area_credit base a -> direct_poll peer a = Some (a', r) -> area_credit base a'.
Proof.
  intros Hr Ha. unfold direct_poll. destruct (upload_poll peer a) as [[b u]|] eqn:Hu; [|done]. cbn [mbind option_bind]. intros Hd.
  apply (upload_poll_credit D base) in Hu; [|done|done]. pose proof (download_poll_credit base 32 (on_reads peer) b Hu) as Hdp.
  destruct (download_poll 32 (on_reads peer) b) as [c q]. destruct u; by simplify_eq.
Qed.

(** Steps that leave the credit and its owners alone. *)
Lemma credit_same s s' :
  Credit s -> same_app s s' -> TcpStorage.outstanding (rx (conn s')) = TcpStorage.outstanding (rx (conn s)) -> counted (wpc s') = counted (wpc s) -> Credit s'.
Proof.
  intros Hr [E1 E2 E3 E4 E5 E6 E7 E8 E9 E10 E11 E12] Ho Hc. unfold Credit, owed, over, up, rx_used in *. rewrite E1, E2, E4, E6, E11, E12, Ho, Hc. done.
Qed.

Lemma clear_credit b : TcpStorage.tx b = false -> TcpStorage.outstanding (TcpStorage.clear b) = TcpStorage.outstanding b.
Proof. intros Hf. unfold TcpStorage.clear. by rewrite Hf. Qed.

Lemma rest_credit p s : Credit s -> counted (wpc s) = 0 -> Credit (rest p s).
Proof.
  intros Hr Hc. destruct (rest_same p s) as [Hs Hw], (rest_conn p s) as [E _]. eapply credit_same; [exact Hr|exact Hs|by rewrite E|].
  rewrite Hc. by destruct (wpc (rest p s)).
Qed.

Lemma dispatch_outstanding e k s : TcpStorage.tx (rx (conn s)) = false -> TcpStorage.outstanding (rx (conn (dispatch_step e k s))) = TcpStorage.outstanding (rx (conn s)).
Proof.
  intros Hf. unfold dispatch_step. destruct (dispatch _ _ _ _) as [[p clears] em]. destruct em as [q|]; [destruct (emits e)|]; repeat case_match.
  all: try (match goal with |- context [rest ?p ?x] => rewrite (proj1 (rest_conn p x)) end); cbn; try done; by apply clear_credit.
Qed.

Lemma dispatch_credit e k s : Credit s -> TcpStorage.tx (rx (conn s)) = false -> counted (wpc s) = 0 -> Credit (dispatch_step e k s).
Proof.
  intros Hr Hf Hc. destruct (dispatch_same e k s) as [Hs Hw]. eapply credit_same; [exact Hr|exact Hs|by apply dispatch_outstanding|].
  rewrite Hc. by destruct (wpc (dispatch_step e k s)).
Qed.

Lemma not_busy_unreleased p : busy p = false -> unreleased p = 0.
Proof. by destruct p. Qed.

Lemma direct_turn_credit D e d s s' w :
  Shape s -> Reader D s -> Credit s -> direct (conn s) = Some d -> direct_turn e d s = Some s' -> counted (wpc s) = 0 -> hold (wpc s) = [] -> counted w = 0 -> Credit (with_wpc w s').
Proof.
  intros Hs Hr Hcr Hd Ht Hc0 Hh0 Hw. assert (Hho : handed_over (conn s) = true) by (apply (g_direct _ Hs); by rewrite Hd).
  pose proof (g_handed _ Hs Hho) as Hhand. destruct (g_head _ Hs Hhand) as [Hhd _].
  assert (Hov : over s = false) by (unfold over; by rewrite Hho, Hd). specialize (Hcr Hov).
  assert (Hnb : busy (pc s) = false) by (destruct (busy (pc s)) eqn:Hb; [|done]; rewrite (g_busy _ Hs Hb) in Hhand; done).
  assert (Hcp : copied (pc s) = []) by (destruct (pc s); done). apply not_busy_unreleased in Hnb.
  assert (Hadm : admission (conn s) = false).
  { destruct (admission (conn s)) eqn:Ha; [|done]. pose proof (g_admission _ Hs Ha). pose proof (application_handing _ Hs Hhand). congruence. }
  unfold direct_turn in Ht. destruct (bool_decide (state (proto (conn s)) = Closed) && negb (closed_normally (conn s))).
  { injection Ht as <-. intros Ho. unfold over in Ho. cbn in Ho. by rewrite Hho in Ho. }
  assert (Ha : AreaReader D (sh s, conn s, d, hist s)).
  { constructor; cbn.
    - rewrite (r_flow _ _ Hr Hov), Hcp, Hhd, Hh0. unfold up. rewrite Hd. cbn. by rewrite app_nil_r.
    - apply Hr.
    - intros Hu. by apply (r_done _ _ Hr).
    - intros He. by apply (r_eof _ _ Hr).
    - by apply (r_phase _ _ Hr). }
  assert (Hac : area_credit (leased (hist s)) (sh s, conn s, d, hist s)).
  { unfold owed, rx_used, up in Hcr. rewrite Hd, Hhd, Hnb, Hc0 in Hcr. cbn -[mjoin] in *. rewrite Hcr. f_equal. change (len (@nil Z)) with 0. lia. }
  destruct (direct_poll _ _) as [[[[[h c] d'] x] r]|] eqn:Hp; [|done]. pose proof (direct_poll_frame _ _ _ _ Hp) as Hfr.
  apply (direct_poll_credit D (leased (hist s))) in Hp; [|done|done]. destruct Hfr as [_ _ (F7 & F8 & F9 & F10) (F11 & F12)]. cbn -[mjoin] in *. injection Ht as <-.
  destruct r as [[]|]; intros Ho; unfold over in Ho; cbn in Ho; rewrite ?F8, ?Hho in Ho; try done.
  unfold owed, rx_used, up. cbn -[mjoin]. rewrite Hnb, Hhd, Hw, F12, Hp. f_equal. change (len (@nil Z)) with 0. lia.
Qed.

Ltac csame s Hr Hw := apply (credit_same s); [exact Hr|by constructor|done|cbn; rewrite Hw; repeat case_match; done].

Lemma worker_credit D e s s' : Shape s -> Reader D s -> Credit s -> worker_step e s = Some s' -> Credit s'.
Proof.
  intros Hs Hrd Hr Hc. unfold worker_step in Hc. pose proof (g_serving _ Hs) as Hsv. pose proof (v_flag _ _ _ _ (r_receives _ _ Hrd)) as Hflag.
  destruct (wpc s) as [] eqn:Hw; try discriminate Hc; cbn in Hsv; try specialize (Hsv eq_refl).
  - injection Hc as <-. csame s Hr Hw.
  - injection Hc as <-. unfold refresh_store. repeat case_match; csame s Hr Hw.
  - destruct (accepts _ _) eqn:Hacc; [|injection Hc as <-; csame s Hr Hw].
    destruct (input _ _ _) as [c'|] eqn:Hi; [|done]. cbn in Hc. injection Hc as <-. pose proof (input_fields _ _ _ _ Hi) as (? & ? & ?). destruct (wake_fields (sh s)) as (? & ? & ? & ? & ? & ? & ?).
    apply (credit_same s); [exact Hr|by constructor| |cbn; by rewrite Hw]. cbn. unfold input in Hi.
    destruct (process _ _ _ _ _) as [[[p calls] acked] reply]. destruct (TcpStorage.rx_run _ _) as [r|] eqn:Hrun; [|done]. cbn [mbind option_bind] in Hi. injection Hi as <-.
    destruct (rx_run_keeps _ _ _ Hrun Hflag) as (_ & ? & _). repeat case_match; done.
  - injection Hc as <-. case_match; csame s Hr Hw.
  - injection Hc as <-. case_match eqn:Hat; [|csame s Hr Hw]. apply andb_true_iff in Hat as [Hho _]. apply negb_true_iff in Hho.
    assert (Hdn : direct (conn s) = None) by (destruct (direct (conn s)) eqn:Hd; [rewrite (g_direct _ Hs) in Hho by (by rewrite Hd); done|done]).
    intros _. unfold Credit, over, owed, up, rx_used in *. cbn -[mjoin]. rewrite Hho, Hdn, Hw in Hr. rewrite (Hr eq_refl). done.
  - destruct (direct (conn s)) as [d|] eqn:Hd.
    + destruct (direct_turn e d s) as [s1|] eqn:Hdt; [|done]. cbn in Hc. injection Hc as <-. eapply (direct_turn_credit D e d s); try done; [by rewrite Hw|by rewrite Hw|by case_match].
    + cbn in Hc. injection Hc as <-. csame s Hr Hw.
  - destruct (sending (state (proto (conn s)))) eqn:Hse; injection Hc as <-; [|csame s Hr Hw]. unfold admit_connection.
    destruct (wake_fields (set_aborted (sh s))) as (W1 & W2 & W3 & W4 & W5 & W6 & W7). unfold Credit, over, owed, up, rx_used in *. rewrite Hw in Hr.
    destruct (admission (conn s)); [destruct (accepting s)|]; cbn -[mjoin wake] in *; rewrite ?W2; exact Hr.
  - destruct k as [|k]; [injection Hc as <-; csame s Hr Hw|]. destruct (outgoing (sh s)) as [|b q] eqn:Hout; [injection Hc as <-; csame s Hr Hw|].
    unfold send_block in Hc. cbn in Hc. unfold Credit, over, owed, up, rx_used in *. rewrite Hw in Hr. destruct (sending _); cbn in Hc; injection Hc as <-; exact Hr.
  - injection Hc as <-. csame s Hr Hw.
  - injection Hc as <-. case_match; unfold Credit, over, owed, up, rx_used in *; rewrite Hw in Hr; exact Hr.
  - injection Hc as <-. csame s Hr Hw.
  - destruct k as [|k]; [injection Hc as <-; csame s Hr Hw|]. destruct (TcpStorage.take (rx (conn s))) as [b [x|]] eqn:Ht; injection Hc as <-; [|csame s Hr Hw].
    apply take_credit in Ht. unfold Credit, over, owed, up, rx_used in *. rewrite Hw in Hr. cbn -[mjoin] in *. by rewrite Ht.
  - injection Hc as <-. unfold Credit, over, owed, up in *. rewrite Hw in Hr. cbn -[mjoin] in *. intros Hov. unfold rx_used at 1. cbn -[mjoin].
    rewrite (wrap_add_mod _ _ _ (Hr Hov)). f_equal. lia.
  - injection Hc as <-. unfold Credit, over, owed, up, rx_used in *. rewrite Hw in Hr. cbn -[mjoin] in *. intros Hov. rewrite (Hr Hov), join_app, len_app, join_cons, len_app. f_equal.
    change (len (mjoin (@nil bytes))) with 0. lia.
  - injection Hc as <-. case_match; unfold Credit, over, owed, up, rx_used in *; rewrite Hw in Hr; exact Hr.
  - injection Hc as <-. case_match; csame s Hr Hw.
  - injection Hc as <-. case_match; [|csame s Hr Hw]. apply (rest_credit PClosed); [|cbn; by rewrite Hw]. apply (credit_same s); [exact Hr|by constructor|done|done].
  - injection Hc as <-. destruct k as [|k]; [csame s Hr Hw|]. apply dispatch_credit; [done|done|by rewrite Hw].
  - injection Hc as <-. apply rest_credit; [done|by rewrite Hw].
Qed.

(** ** Notifications *)

(** How far a poll is; anything else is late. *)
Definition stage (p : worker_pc) : Z :=
  match p with
  | RefreshSwap (Poll _) => 0
  | RefreshStore (Poll _) => 1
  | AbortLoad _ => 2
  | AttachPop _ => 3
  | DirectPoll _ => 4
  | Admit _ => 5
  | OutPop _ _ => 6
  | FinishLoad _ => 7
  | FinishEmpty _ => 8
  | RecvCheck _ | RecvTake _ _ _ | RecvAdd _ _ _ _ | RecvPush _ _ _ _ | EofStore _ | ResetStore _ | WaitCheck _ | Dispatch _ | More => 20
  | Resting | Gone | RefreshSwap (Packet _) | RefreshStore (Packet _) | Process _ => 100
  end.

(** The worker will be woken. *)
Definition will (s : sys) : Prop := queued (sh s) = true \/ exists k, pc s = WakeSwap k.

Record Wakes (s : sys) : Prop := {
  k_sent : queued (sh s) = true -> 0 < ready (sh s) \/ exists k, pc s = WakeSend k;
  k_ready : 0 <= ready (sh s);
  k_abort : aborted (sh s) = true -> will s \/ stage (wpc s) <= 2 \/ state (proto (conn s)) = Closed \/ wpc s = Gone;
  k_attach : 0 < attachment (sh s) -> handed_over (conn s) = false -> will s \/ stage (wpc s) <= 3 \/ wpc s = Gone;
  k_out : outgoing (sh s) <> [] -> handed_over (conn s) = false -> will s \/ stage (wpc s) <= 20 \/ progress s = Some Blocked \/ wpc s = Gone;
  k_finish : finish (sh s) = true -> handed_over (conn s) = false ->
    will s \/ stage (wpc s) <= 8 \/ fin (hist s) = true \/ outgoing (sh s) <> [] \/ 2 <= tx_phase (state (proto (conn s))) \/ wpc s = Gone;
  k_recv : TcpStorage.length (rx (conn s)) <> 0 -> handed_over (conn s) = false -> will s \/ stage (wpc s) <= 20 \/ progress s = Some Blocked \/ wpc s = Gone;
}.

Lemma init_wakes now : Wakes (init now).
Proof. constructor; cbn; done. Qed.

Ltac kframe H := constructor;
  [ try exact (k_sent _ H) | try exact (k_ready _ H) | try exact (k_abort _ H) | try exact (k_attach _ H)
  | try exact (k_out _ H) | try exact (k_finish _ H) | try exact (k_recv _ H) ].

(** The application moves on without touching what the worker looks at. *)
Lemma wakes_app s s' :
  Wakes s -> queued (sh s') = queued (sh s) -> ready (sh s') = ready (sh s) -> aborted (sh s') = aborted (sh s) -> attachment (sh s') = attachment (sh s) ->
  outgoing (sh s') = outgoing (sh s) -> finish (sh s') = finish (sh s) -> handed_over (conn s') = handed_over (conn s) -> proto (conn s') = proto (conn s) ->
  TcpStorage.length (rx (conn s')) = TcpStorage.length (rx (conn s)) -> wpc s' = wpc s -> progress s' = progress s -> fin (hist s') = fin (hist s) ->
  (will s -> will s') -> (queued (sh s) = true -> (exists k, pc s = WakeSend k) -> exists k, pc s' = WakeSend k) -> Wakes s'.
Proof.
  intros Hk E1 E2 E3 E4 E5 E6 E7 E8 E9 E10 E11 E12 Hwl Hsend. constructor; rewrite ?E1, ?E2, ?E3, ?E4, ?E5, ?E6, ?E7, ?E8, ?E9, ?E10, ?E11, ?E12; try apply Hk.
  - intros Hq. destruct (k_sent _ Hk Hq) as [?|?]; auto.
  - intros Ha. destruct (k_abort _ Hk Ha); auto.
  - intros Ha Hh. destruct (k_attach _ Hk Ha Hh); auto.
  - intros Ha Hh. destruct (k_out _ Hk Ha Hh); auto.
  - intros Ha Hh. destruct (k_finish _ Hk Ha Hh); auto.
  - intros Ha Hh. destruct (k_recv _ Hk Ha Hh); auto.
Qed.

Lemma call_wakes c s s' : Wakes s -> app_call c s = Some s' -> Wakes s'.
Proof.
  intros Hk Hc. unfold app_call in Hc.
  destruct (at_ s) eqn:Hat, (pc s) eqn:Hpc; destruct c; try discriminate Hc.
  all: try (destruct (accepting s); [|discriminate Hc]).
  all: try (destruct (handing (hist s)) eqn:Hh; [discriminate Hc|]).
  all: repeat case_match; simplify_eq; zify_bool.
  all: (apply (wakes_app s); [exact Hk|done|done|done|done|done|done|done|done|done|done|done|done|intros [?|[k Hk']]; [by left|congruence]|intros _ [k Hk']; congruence]).
Qed.

(** Once the worker is being woken, every change is announced. *)
Lemma wakes_will s' : will s' -> 0 <= ready (sh s') -> (queued (sh s') = true -> 0 < ready (sh s') \/ exists k, pc s' = WakeSend k) -> Wakes s'.
Proof. intros Hw Hr Hs. constructor; auto. Qed.

Lemma app_wakes s s' : Wakes s -> app_step s = Some s' -> Wakes s'.
Proof.
  intros Hk Hc. unfold app_step in Hc. pose proof (k_ready _ Hk) as Hrd. pose proof (k_sent _ Hk) as Hsent.
  destruct (pc s) as [] eqn:Hpc; try discriminate Hc.
  all: unfold read_iteration, pop_after_eof, chunk_pop, finish_wake in Hc.
  all: repeat case_match; try discriminate Hc; injection Hc as <-; zify_bool.
  all: try (apply (wakes_app s); [exact Hk|done|done|done|done|done|done|done|done|done|done|done|done|intros [?|[k' Hk']]; [by left|congruence]|intros _ [k' Hk']; congruence]).
  all: try (apply wakes_will; [right; by eexists|exact Hrd|]; intros Hq; destruct (Hsent Hq) as [?|[k' Hk']]; [by left|congruence]).
  all: try (apply wakes_will; [by left|exact Hrd|]; intros Hq; destruct (Hsent Hq) as [?|[k' Hk']]; [by left|congruence]).
  all: try (apply wakes_will; [by left|exact Hrd|]; intros _; right; by eexists).
  all: try (apply wakes_will; [by left|exact Hrd|]; intros _; destruct (Hsent eq_refl) as [?|[k' Hk']]; [by left|congruence]).
  all: assert (Hwl : forall x, pc s <> WakeSwap x) by congruence.
  all: constructor; cbn; try (intros; left; lia); try lia.
  all: match goal with |- _ = true -> will ?x \/ _ <= 2 \/ _ => assert (Hw : will s -> will x) by (intros [?|[k' Hk']]; [by left|by destruct (Hwl k')])
       | |- _ -> _ -> will ?x \/ _ => assert (Hw : will s -> will x) by (intros [?|[k' Hk']]; [by left|by destruct (Hwl k')]) end.
  all: intros Ha; try intros Hb.
  all: first [destruct (k_abort _ Hk Ha)|destruct (k_attach _ Hk Ha Hb)|destruct (k_out _ Hk Ha Hb)|destruct (k_finish _ Hk Ha Hb)|destruct (k_recv _ Hk Ha Hb)]; auto.
Qed.

(** The worker's steps. *)
Lemma wakes_worker s s' :
  Wakes s -> pc s' = pc s -> queued (sh s') = queued (sh s) -> ready (sh s') = ready (sh s) -> aborted (sh s') = aborted (sh s) ->
  attachment (sh s') = attachment (sh s) -> outgoing (sh s') = outgoing (sh s) -> finish (sh s') = finish (sh s) ->
  handed_over (conn s') = handed_over (conn s) -> forward (state (proto (conn s))) (state (proto (conn s'))) ->
  (TcpStorage.length (rx (conn s')) <> 0 -> TcpStorage.length (rx (conn s)) <> 0) -> progress s' = progress s -> (fin (hist s) = true -> fin (hist s') = true) ->
  wpc s <> Gone ->
  (stage (wpc s) <= 2 -> stage (wpc s') <= 2 \/ (aborted (sh s) = true -> state (proto (conn s')) = Closed)) ->
  (stage (wpc s) <= 3 -> stage (wpc s') <= 3 \/ attachment (sh s) <= 0 \/ handed_over (conn s) = true) ->
  (stage (wpc s) <= 8 -> stage (wpc s') <= 8 \/ (finish (sh s) = true -> handed_over (conn s) = false -> fin (hist s') = true \/ outgoing (sh s) <> [] \/ 2 <= tx_phase (state (proto (conn s'))))) ->
  (stage (wpc s) <= 20 -> stage (wpc s') <= 20) -> Wakes s'.
Proof.
  intros Hk E1 E2 E3 E4 E5 E6 E7 E8 Hf Hl Hp Hfin Hg H2 H3 H8 H20.
  assert (Hw : will s -> will s') by (unfold will; by rewrite E1, E2).
  constructor; rewrite ?E1, ?E2, ?E3, ?E4, ?E5, ?E6, ?E7, ?E8, ?Hp; try apply Hk.
  - intros Ha. destruct (k_abort _ Hk Ha) as [?|[Hs|[Hc|?]]]; [auto| |right; right; left; by eapply forward_closed|done]. destruct (H2 Hs); auto.
  - intros Ha Hh. destruct (k_attach _ Hk Ha Hh) as [?|[Hs|?]]; [auto| |done]. destruct (H3 Hs) as [?|[?|?]]; [auto|lia|congruence].
  - intros Ha Hh. destruct (k_out _ Hk Ha Hh) as [?|[?|[?|?]]]; [auto|auto|auto|done].
  - intros Ha Hh. destruct (k_finish _ Hk Ha Hh) as [?|[Hs|[?|[?|[?|?]]]]]; [auto| |auto 8|auto 8| |done].
    + destruct (H8 Hs) as [?|Hx]; [auto|]. destruct (Hx Ha Hh) as [?|[?|?]]; auto 7.
    + destruct Hf. right. right. right. right. left. lia.
  - intros Ha Hh. destruct (k_recv _ Hk (Hl Ha) Hh) as [?|[?|[?|?]]]; [auto|auto|auto|done].
Qed.

Lemma wake_queued s h : Wakes s -> queued h = queued (sh s) -> ready h = ready (sh s) ->
  queued (wake h) = true /\ 0 <= ready (wake h) /\ (0 < ready (wake h) \/ exists k, pc s = WakeSend k).
Proof.
  intros Hk Hq Hr. pose proof (k_ready _ Hk). unfold wake. destruct (queued h) eqn:Hqh; cbn; [|split_and!; [done|lia|left; lia]].
  rewrite Hr. split_and!; [done|done|apply (k_sent _ Hk); congruence].
Qed.

Lemma wakes_wake s s' h : Wakes s -> queued h = queued (sh s) -> ready h = ready (sh s) -> sh s' = wake h -> pc s' = pc s -> Wakes s'.
Proof.
  intros Hk Hq Hr Es Ep. destruct (wake_queued s h Hk Hq Hr) as (? & ? & ?). apply wakes_will; rewrite ?Es, ?Ep; [left; by rewrite Es|done|done].
Qed.

(** A dropped connection is not waited for. *)
Lemma wakes_gone s : wpc s = Gone -> 0 <= ready (sh s) -> (queued (sh s) = true -> 0 < ready (sh s) \/ exists k, pc s = WakeSend k) -> Wakes s.
Proof. intros Hg Hr Hs. constructor; auto 8. Qed.

Lemma drop_wakes s s0 : Wakes s -> queued (sh s0) = queued (sh s) -> ready (sh s0) = ready (sh s) -> pc s0 = pc s -> Wakes (drop_connection s0).
Proof.
  intros Hk E1 E2 E3. unfold drop_connection. set (h0 := if closed_normally (conn s0) then sh s0 else set_reset (sh s0)).
  assert (Hh0 : queued h0 = queued (sh s) /\ ready h0 = ready (sh s)) by (unfold h0; case_match; done). destruct Hh0 as [Hq0 Hr0].
  assert (H1 : let h1 := if admission (conn s0) then wake (set_aborted h0) else h0 in 0 <= ready h1 /\ (queued h1 = true -> 0 < ready h1 \/ exists k, pc s = WakeSend k)).
  { cbn. destruct (admission (conn s0)); [destruct (wake_queued s (set_aborted h0) Hk Hq0 Hr0) as (? & ? & ?); auto|]. rewrite Hr0, Hq0. split; apply Hk. }
  destruct H1 as [Ha Hb]. cbn in Ha, Hb. destruct (direct (conn s0)); (apply wakes_gone; [done|done|]; cbn; rewrite E3; done).
Qed.

Lemma rest_wakes p s s0 :
  Wakes s -> queued (sh s0) = queued (sh s) -> ready (sh s0) = ready (sh s) -> pc s0 = pc s -> aborted (sh s0) = aborted (sh s) -> attachment (sh s0) = attachment (sh s) ->
  outgoing (sh s0) = outgoing (sh s) -> finish (sh s0) = finish (sh s) -> handed_over (conn s0) = handed_over (conn s) -> forward (state (proto (conn s))) (state (proto (conn s0))) ->
  fin (hist s0) = fin (hist s) -> wpc s <> Gone -> 8 < stage (wpc s) ->
  (forall d, p = PIdle d -> handed_over (conn s) = false -> outgoing (sh s) = [] /\ TcpStorage.length (rx (conn s0)) = 0) -> Wakes (rest p s0).
Proof.
  intros Hk E1 E2 E3 E4 E5 E6 E7 E8 Hf Hfin Hg Hst Hidle. destruct p as [d| | |]; cbn [rest].
  - constructor; cbn; rewrite ?E1, ?E2, ?E3, ?E4, ?E5, ?E6, ?E7, ?E8, ?Hfin; try apply Hk.
    all: assert (Hw : will s -> will (with_wpc Resting (with_progress (Some (PIdle d)) s0))) by (unfold will; cbn; by rewrite E1, E3).
    + intros Ha. destruct (k_abort _ Hk Ha) as [?|[?|[?|?]]]; [auto|lia| |done]. right. right. left. by eapply forward_closed.
    + intros Ha Hh. destruct (k_attach _ Hk Ha Hh) as [?|[?|?]]; [auto|lia|done].
    + intros Ha Hh. by destruct (Hidle d eq_refl Hh).
    + intros Ha Hh. destruct (k_finish _ Hk Ha Hh) as [?|[?|[?|[?|[?|?]]]]]; [auto|lia|auto 8|auto 8| |done]. right. right. right. right. left. destruct Hf. lia.
    + intros Ha Hh. by destruct (Hidle d eq_refl Hh).
  - eapply (wakes_wake s); [exact Hk|exact E1|exact E2|done|done].
  - constructor; cbn; rewrite ?E1, ?E2, ?E3, ?E4, ?E5, ?E6, ?E7, ?E8, ?Hfin; try apply Hk; auto 7.
    all: assert (Hw : will s -> will (with_wpc Resting (with_progress (Some Blocked) s0))) by (unfold will; cbn; by rewrite E1, E3).
    + intros Ha. destruct (k_abort _ Hk Ha) as [?|[?|[?|?]]]; [auto|lia| |done]. right. right. left. by eapply forward_closed.
    + intros Ha Hh. destruct (k_attach _ Hk Ha Hh) as [?|[?|?]]; [auto|lia|done].
    + intros Ha Hh. destruct (k_finish _ Hk Ha Hh) as [?|[?|[?|[?|[?|?]]]]]; [auto|lia|auto 8|auto 8| |done]. right. right. right. right. left. destruct Hf. lia.
  - by apply (drop_wakes s).
Qed.

Lemma dispatch_wakes e k s : Wakes s -> stage (wpc s) = 20 -> wpc s <> Gone -> Wakes (dispatch_step e k s).
Proof.
  intros Hk Hst Hg. unfold dispatch_step. pose proof (dispatch_forward (host_now (now e) (conn s)) (proto (conn s)) (rx (conn s)) (tx (conn s))) as Hf.
  pose proof (emitted_forward (host_now (now e) (conn s)) (proto (conn s)) (rx (conn s)) (tx (conn s))) as Hem.
  destruct (dispatch _ _ _ _) as [[p clears] em]. cbn in Hf, Hem.
  set (c := set_proto p _). assert (Hc : handed_over c = handed_over (conn s) /\ (TcpStorage.length (rx c) <> 0 -> TcpStorage.length (rx (conn s)) <> 0))
    by (unfold c; destruct clears; done). destruct Hc as [Hc1 Hc2].
  assert (Hpc : proto c = p) by done.
  assert (Hrest : forall r q, r = Blocked \/ r = PClosed -> forward (state p) (state q) -> Wakes (rest r (with_conn (set_proto q c) s))).
  { intros r q Hr Hq. apply (rest_wakes r s); try done; [by eapply forward_trans|lia|]. intros d ->. by destruct Hr. }
  assert (Hgo : forall q (b : bool), forward (state p) (state q) -> Wakes (if bool_decide (state q = Closed)
            then rest PClosed (with_conn (set_proto q c) s) else with_wpc (if b then Dispatch k else More) (with_conn (set_proto q c) s))).
  { intros q b Hq. case_match; [apply Hrest; auto|]. apply (wakes_worker s); try done; rewrite ?Hst; try lia; [by eapply forward_trans|]. cbn. by destruct b. }
  destruct em as [q|]; [destruct (emits e)|].
  - apply (Hgo q true). by apply Hem.
  - apply (Hrest Blocked p); [auto|apply forward_refl].
  - apply (Hrest PClosed p); [auto|apply forward_refl].
  - apply (Hgo p false), forward_refl.
Qed.

(** A direct transfer wakes its own worker. *)
Definition woken (h h' : Shared) : Prop := (queued h' = queued h /\ ready h' = ready h) \/ (queued h = false /\ queued h' = true /\ ready h' = ready h + 1).

Lemma woken_refl h : woken h h.
Proof. by left. Qed.

Lemma woken_wake h : woken h (wake h).
Proof. unfold wake. destruct (queued h) eqn:Hq; [by left|by right]. Qed.

Lemma woken_trans a b c : woken a b -> woken b c -> woken a c.
Proof. intros [[? ?]|(? & ? & ?)] [[? ?]|(? & ? & ?)]; try (left; split; congruence); try (right; split_and!; congruence). Qed.

Lemma direct_poll_woken peer a a' r : direct_poll peer a = Some (a', r) -> woken (fst (fst (fst a))) (fst (fst (fst a'))).
Proof.
  assert (Hfill : forall a, woken (fst (fst (fst a))) (fst (fst (fst (upload_fill a))))).
  { intros [[[h c] d] x]. unfold upload_fill. case_match; [destruct (take_blocks _ _)|]; by left. }
  assert (Hwrite : forall a a' q, upload_write peer a = Some (a', q) -> woken (fst (fst (fst a))) (fst (fst (fst a')))).
  { intros [[[h c] d] x] a1 q Hw. unfold upload_write in Hw. repeat case_match; simplify_eq; try apply woken_refl. destruct (advance _ _); [|done]. cbn in Hw. simplify_eq. by left. }
  assert (Hend : forall a, woken (fst (fst (fst a))) (fst (fst (fst (fst (upload_end peer a)))))).
  { intros [[[h c] d] x]. unfold upload_end. repeat case_match; cbn; try apply woken_refl. apply woken_wake. }
  assert (Hdown : forall fuel reads a, woken (fst (fst (fst a))) (fst (fst (fst (fst (download_poll fuel reads a)))))).
  { induction fuel as [|fuel IH]; intros reads [[[h c] d] x]; cbn [download_poll]; [apply woken_wake|].
    repeat (case_match; try apply woken_refl; try (eapply woken_trans; [|apply IH]; apply woken_refl)). }
  unfold direct_poll. destruct (upload_poll peer a) as [[b u]|] eqn:Hu; [|done]. cbn [mbind option_bind]. intros Hd.
  assert (Hb : woken (fst (fst (fst a))) (fst (fst (fst b)))).
  { unfold upload_poll in Hu. destruct (upload_done (snd (fst a))); [simplify_eq; apply woken_refl|]. destruct (upload_write peer (upload_fill a)) as [[a1 q]|] eqn:Hw; [|done]. cbn [mbind option_bind] in Hu.
    apply Hwrite in Hw. assert (Ha1 : woken (fst (fst (fst a))) (fst (fst (fst a1)))) by (eapply woken_trans; [apply Hfill|exact Hw]).
    pose proof (Hend a1) as He. destruct (upload_end peer a1) as [a2 q2]. destruct q; simplify_eq; try done. by eapply woken_trans. }
  pose proof (Hdown 32%nat (on_reads peer) b) as Hdb. destruct (download_poll 32 (on_reads peer) b) as [c q]. cbn [fst] in Hdb.
  assert (woken (fst (fst (fst a))) (fst (fst (fst c)))) by (by eapply woken_trans). destruct u; by simplify_eq.
Qed.

Lemma direct_turn_fields e d s s' :
  direct_turn e d s = Some s' ->
  pc s' = pc s /\ wpc s' = wpc s /\ handed_over (conn s') = handed_over (conn s) /\ aborted (sh s') = aborted (sh s) /\ woken (sh s) (sh s') /\
  forward (state (proto (conn s))) (state (proto (conn s'))).
Proof.
  intros Ht. unfold direct_turn in Ht. destruct (bool_decide (state (proto (conn s)) = Closed) && negb (closed_normally (conn s))).
  { injection Ht as <-. cbn. split_and!; try done; [apply woken_refl|apply abort_forward]. }
  destruct (direct_poll _ _) as [[[[[h c] d'] x] r]|] eqn:Hp; [|done]. pose proof (direct_poll_woken _ _ _ _ Hp) as Hwk.
  apply direct_poll_frame in Hp as [(F1 & F2 & F3 & F4 & F5 & F6) _ (F7 & F8 & F9 & F10) _]. cbn in *. injection Ht as <-.
  destruct r as [[]|]; cbn; split_and!; try done. eapply forward_trans; [exact F10|apply abort_forward].
Qed.

Lemma direct_turn_wakes e d s s' w :
  Shape s -> Wakes s -> direct (conn s) = Some d -> direct_turn e d s = Some s' -> 2 < stage (wpc s) -> wpc s <> Gone -> Wakes (with_wpc w s').
Proof.
  intros Hs Hk Hd Ht Hst Hg. assert (Hho : handed_over (conn s) = true) by (apply (g_direct _ Hs); by rewrite Hd). pose proof (k_ready _ Hk).
  apply direct_turn_fields in Ht as (E1 & E2 & E3 & E4 & Hwk & Hf). destruct Hwk as [[Hq Hr]|(Hq0 & Hq & Hr)].
  - constructor; cbn; rewrite ?E1, ?E3, ?E4, ?Hq, ?Hr, ?Hho; try done; try apply Hk. intros Ha. destruct (k_abort _ Hk Ha) as [?|[?|[?|?]]]; [|lia| |done].
    + left. unfold will in *. cbn. by rewrite E1, Hq.
    + right. right. left. by eapply forward_closed.
  - apply wakes_will; cbn; [left; done|lia|intros _; left; lia].
Qed.

Lemma rx_length_pos D s : Reader D s -> 0 <= TcpStorage.length (rx (conn s)).
Proof. intros Hr. destruct (v_published _ _ _ _ (r_receives _ _ Hr)) as [c Hp]. rewrite (TcpStorage.pub_length _ _ Hp). apply len_nonneg. Qed.

Ltac kstep s Hk Hw := apply (wakes_worker s); rewrite ?Hw;
  [exact Hk|done|done|done|done|done|done|done|done|cbn; first [apply forward_refl|apply abort_forward|apply close_forward|rewrite ?sent_state, ?received_state; apply forward_refl]|done|done|done|done|..];
  cbn [stage]; try (lia || (intros; first [left; cbn; lia | cbn; lia])).

Lemma worker_wakes D e s s' : Shape s -> Reader D s -> Wakes s -> worker_step e s = Some s' -> Wakes s'.
Proof.
  intros Hs Hr Hk Hc. unfold worker_step in Hc. pose proof (rx_length_pos D s Hr) as Hlen. pose proof (k_ready _ Hk) as Hrd.
  destruct (wpc s) as [] eqn:Hw; try discriminate Hc.
  - injection Hc as <-. destruct t; kstep s Hk Hw.
  - injection Hc as <-. unfold refresh_store. destruct t; repeat case_match; kstep s Hk Hw.
  - destruct (accepts _ _); [|injection Hc as <-; kstep s Hk Hw]. destruct (input _ _ _) as [c'|]; [|done]. cbn in Hc. injection Hc as <-.
    by apply (wakes_wake s _ (sh s)).
  - injection Hc as <-. case_match eqn:Hcond; kstep s Hk Hw; intros _; right; cbn; intros Hab.
    + apply abort_state.
    + by rewrite Hab in Hcond.
  - injection Hc as <-. case_match eqn:Hat; [|kstep s Hk Hw].
    + constructor; cbn; try done; try apply Hk. intros Ha. destruct (k_abort _ Hk Ha) as [?|[Hst|[?|?]]]; [by left|rewrite Hw in Hst; cbn in Hst; lia|auto|congruence].
    + intros _. right. destruct (handed_over (conn s)); [by right|left]. cbn in Hat. zify_bool. lia.
  - destruct (direct (conn s)) as [d|] eqn:Hd.
    + destruct (direct_turn e d s) as [s1|] eqn:Ht; [|done]. cbn in Hc. injection Hc as <-. eapply (direct_turn_wakes e d s); try done; rewrite Hw; cbn; [lia|done].
    + cbn in Hc. injection Hc as <-. destruct (handed_over (conn s)) eqn:Hh; kstep s Hk Hw. intros _. right. congruence.
  - destruct (sending (state (proto (conn s)))) eqn:Hse; injection Hc as <-.
    + unfold admit_connection. destruct (admission (conn s)) eqn:Ha; cbn [negb]; [|kstep s Hk Hw]. destruct (accepting s); [kstep s Hk Hw|].
      by apply (wakes_wake s _ (set_aborted (sh s))).
    + kstep s Hk Hw. intros _. right. intros Hfi _. right. right. cbn. assert (Hadm : admission (conn s) = false).
      { destruct (admission (conn s)) eqn:Ha; [|done]. pose proof (g_admission _ Hs Ha) as Hat. destruct (g_owner _ Hs) as (_ & _ & _ & _ & _ & ? & _); congruence. }
      pose proof (r_phase _ _ Hr Hadm). destruct (state (proto (conn s))); cbn in *; try discriminate; lia.
  - destruct k as [|k]; [injection Hc as <-; kstep s Hk Hw|]. destruct (outgoing (sh s)) as [|b q] eqn:Hout; [injection Hc as <-; kstep s Hk Hw|].
    unfold send_block in Hc. cbn in Hc.
    assert (Hgen : forall s', pc s' = pc s -> queued (sh s') = queued (sh s) -> ready (sh s') = ready (sh s) -> aborted (sh s') = aborted (sh s) -> attachment (sh s') = attachment (sh s) ->
      handed_over (conn s') = handed_over (conn s) -> forward (state (proto (conn s))) (state (proto (conn s'))) -> 5 <= stage (wpc s') <= 8 -> Wakes s').
    { intros x E1 E2 E3 E4 E5 E6 Hf Hstx. assert (Hwx : will s -> will x) by (unfold will; by rewrite E1, E2). constructor; rewrite ?E1, ?E2, ?E3, ?E4, ?E5, ?E6; try apply Hk.
      - intros Ha. destruct (k_abort _ Hk Ha) as [?|[Hst|[?|?]]]; [auto|rewrite Hw in Hst; cbn in Hst; lia| |congruence]. right. right. left. by eapply forward_closed.
      - intros Ha Hh. destruct (k_attach _ Hk Ha Hh) as [?|[Hst|?]]; [auto|rewrite Hw in Hst; cbn in Hst; lia|congruence].
      - intros _ _. right. left. lia.
      - intros _ _. right. left. lia.
      - intros _ _. right. left. lia. }
    destruct (sending _); cbn in Hc; injection Hc as <-; (apply Hgen; try done; cbn; rewrite ?sent_state; first [apply forward_refl|apply abort_forward|lia]).
  - injection Hc as <-. destruct (finish (sh s)) eqn:Hfi; kstep s Hk Hw. intros _. right. congruence.
  - injection Hc as <-. destruct (is_nil (outgoing (sh s))) eqn:Hnil; kstep s Hk Hw; intros _; right; intros _ _; cbn. right. left. by destruct (outgoing (sh s)).
  - injection Hc as <-. case_match; kstep s Hk Hw.
  - destruct k as [|k]; [injection Hc as <-; kstep s Hk Hw|]. destruct (TcpStorage.take (rx (conn s))) as [b [x|]] eqn:Ht; injection Hc as <-; [|kstep s Hk Hw].
    apply (wakes_worker s); rewrite ?Hw; try done; cbn; try lia; try apply forward_refl. intros _ Hz. unfold TcpStorage.take in Ht. rewrite Hz in Ht. cbn in Ht. congruence.
  - injection Hc as <-. kstep s Hk Hw.
  - injection Hc as <-. kstep s Hk Hw.
  - injection Hc as <-. case_match; kstep s Hk Hw.
  - injection Hc as <-. case_match; kstep s Hk Hw.
  - injection Hc as <-. case_match; [|kstep s Hk Hw]. by apply (drop_wakes s).
  - injection Hc as <-. destruct k as [|k]; [kstep s Hk Hw|]. apply dispatch_wakes; [done|by rewrite Hw|by rewrite Hw].
  - injection Hc as <-. apply (rest_wakes _ s); try done; try apply forward_refl; try (rewrite Hw; cbn; first [lia|done]). intros d Hsch Hh. unfold schedule in Hsch. rewrite Hh in Hsch. cbn in Hsch.
    destruct (can_recv (proto (conn s)) (rx (conn s)) || negb (is_nil (outgoing (sh s)))) eqn:Hmore; [done|]. apply orb_false_iff in Hmore as [Hcr Hn]. apply negb_false_iff in Hn.
    split; [by destruct (outgoing (sh s))|]. unfold can_recv, may_recv in Hcr. destruct (0 <? TcpStorage.length (rx (conn s))) eqn:Hl; zify_bool; [rewrite orb_true_r in Hcr; done|lia].
Qed.

(** ** Whole runs *)

Definition carried (D : Z -> Z) (s : sys) : Prop :=
  match wpc s with RefreshSwap (Packet seg) | RefreshStore (Packet seg) | Process seg => carries D seg | _ => True end.

Definition of_stream (D : Z -> Z) (ev : event) : Prop := match ev with Input seg => carries D seg | _ => True end.

Record Ok (D : Z -> Z) (s : sys) : Prop := {
  ok_shape : Shape s;
  ok_reader : Reader D s;
  ok_writer : Writer s;
  ok_credit : Credit s;
  ok_wakes : Wakes s;
  ok_carried : carried D s;
}.

Lemma init_ok D now : Ok D (init now).
Proof. constructor; [apply init_shape|apply init_reader|apply init_writer|done|apply init_wakes|done]. Qed.

Lemma rest_carried D p s : carried D (rest p s).
Proof. unfold carried, rest, drop_connection. destruct p; try done; by destruct (direct (conn s)). Qed.

Lemma worker_carried D e s s' : carried D s -> worker_step e s = Some s' -> carried D s'.
Proof.
  intros Hd Hc. unfold worker_step, carried in *. destruct (wpc s) as [] eqn:Hw; try discriminate Hc.
  all: try (injection Hc as <-; cbn; repeat case_match; done).
  - destruct (accepts _ _); [|by injection Hc as <-]. destruct (input _ _ _); [|done]. cbn in Hc. by injection Hc as <-.
  - destruct (direct (conn s)) as [d|]; [destruct (direct_turn _ _ _) as [s1|]; [|done]|]; cbn in Hc; injection Hc as <-; cbn; by destruct (handed_over _).
  - destruct (sending _); by injection Hc as <-.
  - destruct k; [by injection Hc as <-|]. destruct (outgoing (sh s)); [by injection Hc as <-|]. destruct (send_block _ _) as [s1 b]. injection Hc as <-. cbn. by destruct b.
  - destruct k; [by injection Hc as <-|]. destruct (TcpStorage.take _) as [b [x|]]; by injection Hc as <-.
  - injection Hc as <-. destruct k; [done|]. unfold dispatch_step. destruct (dispatch _ _ _ _) as [[p c] em]. destruct em; [destruct (emits e)|].
    all: repeat case_match; try done; try apply (rest_carried D Blocked); try apply (rest_carried D PClosed).
  - injection Hc as <-. apply rest_carried.
Qed.

Lemma start_ok D s w h :
  Ok D s -> wpc s = Resting -> attachment h = attachment (sh s) -> incoming h = incoming (sh s) -> outgoing h = outgoing (sh s) -> eof h = eof (sh s) ->
  finish h = finish (sh s) -> serving w = false -> hold w = [] -> counted w = 0 -> carried D (with_wpc w s) -> Wakes (with_wpc w (with_sh h s)) -> Ok D (with_wpc w (with_sh h s)).
Proof.
  intros [Hs Hr Hw Hc Hk _] Hrest E1 E2 E3 E4 E5 Hsv Hh Hcn Hcar Hwk.
  assert (Hsame : same_app s (with_wpc w (with_sh h s))) by (by constructor). constructor; [|..|done|done].
  - by apply (same_app_shape s).
  - eapply (reader_socket D s); [exact Hr|exact Hsame|done|apply advances_refl|done|cbn; by rewrite Hrest, Hh|by left].
  - apply (writer_state s); [done|done|apply forward_refl|done].
  - apply (credit_same s); [done|done|done|cbn; by rewrite Hrest, Hcn].
Qed.

Lemma with_sh_id s : with_sh (sh s) s = s.
Proof. by destruct s. Qed.

Lemma live_step_ok D s ev s' : Ok D s -> of_stream D ev -> step s ev = Some s' -> Ok D s'.
Proof.
  intros Hok Hev Hst. pose proof Hok as [Hs Hr Hw Hc Hk Hd]. destruct ev as [c| |stop|stop|seg|e]; cbn [step] in Hst.
  - constructor; [by eapply call_shape|by eapply call_reader|by eapply call_writer|by eapply call_credit|by eapply call_wakes|].
    unfold carried in *. assert (wpc s' = wpc s) as ->; [|done]. unfold app_call in Hst. repeat case_match; simplify_eq; done.
  - constructor; [by eapply app_shape|by eapply app_reader|by eapply app_writer|by eapply app_credit|by eapply app_wakes|].
    unfold carried in *. assert (wpc s' = wpc s) as ->; [|done]. unfold app_step, read_iteration, pop_after_eof, chunk_pop, finish_wake in Hst. repeat case_match; simplify_eq; done.
  - destruct (wpc s) eqn:Hwp; try done. case_match; [|done]. injection Hst as <-. zify_bool. apply start_ok; try done. constructor; cbn; try done; try lia; auto.
  - destruct (wpc s) eqn:Hwp; try done. injection Hst as <-. pose proof (k_ready _ Hk). apply start_ok; try done. constructor; cbn; try done; try lia; auto.
  - destruct (wpc s) eqn:Hwp; try done. injection Hst as <-. pose proof (start_ok D s (RefreshSwap (Packet seg)) (sh s) Hok Hwp) as Hx. rewrite with_sh_id in Hx. apply Hx; try done.
    apply (wakes_worker s); rewrite ?Hwp; cbn; try done; try lia; apply forward_refl.
  - constructor; [|eapply worker_reader; try done|by eapply worker_writer|by eapply (worker_credit D)|by eapply (worker_wakes D)|by eapply worker_carried].
    + eapply worker_shape; [done|apply Hr|done].
    + intros seg Hseg. unfold carried in Hd. by rewrite Hseg in Hd.
Qed.

Lemma live_run_ok D evs s s' : Ok D s -> Forall (of_stream D) evs -> run s evs = Some s' -> Ok D s'.
Proof.
  revert s. induction evs as [|ev evs IH]; intros s Hok Hev Hrun; [by simplify_eq/=|]. apply Forall_cons in Hev as [? ?]. cbn [run] in Hrun.
  destruct (step s ev) as [s1|] eqn:Hst; [|done]. cbn in Hrun. eapply IH; [by eapply live_step_ok|done|done].
Qed.
End Live.
End Live.
