(* ===== verification/TcpPromises.v ===== *)
(** * The promises of a TCP connection, with a small socket (crates/tun/src/tcp.rs, tcp_direct.rs)

    The theorems about every run of the machine of [TcpConnection], for every socket that keeps the
    laws of [SocketLaws], and a small socket that does, on which the runs can be evaluated. *)

From S2P Require Import Prelude Capacity TcpStorage TcpConnection TcpTransfer TcpWrites TcpLive.

Module Promises.
Import Tcp Transfer Writes Live.

(** ** A small socket *)

Module Small.

Inductive Segment := Syn | Ack | Data (position : Z) (b : bytes) | Fin | Rst.

Definition accept (st : State) (seg : Segment) : bool := negb (bool_decide (st = Closed)).

(** The state and the ranges written to the receive buffer. *)
Abbreviation Engine := (State * list (Z * Z))%type.

Definition receive (p : Engine) (rx tx : Storage) (seg : Segment) : Engine * list TcpStorage.rx_call * Z * bool :=
  let '(st, ws) := p in
  match seg, st with
  | Syn, Listen => ((SynReceived, ws), [], 0, true)
  | Ack, SynReceived => ((Established, ws), [], 0, false)
  | Ack, LastAck => ((Closed, ws), [], TcpStorage.length tx, false)
  | Ack, FinWait1 => ((FinWait2, ws), [], TcpStorage.length tx, false)
  | Ack, Established => ((Established, ws), [], TcpStorage.length tx, false)
  | Data position b, (Established | FinWait1 | FinWait2) =>
      let next := TcpStorage.head rx + TcpStorage.length rx in
      if position =? next
      then ((st, (position, position + len b) :: ws), [TcpStorage.Segment position b; TcpStorage.Publish (len b)], 0, true)
      else if next <? position
      then ((st, (position, position + len b) :: ws), [TcpStorage.Segment position b], 0, true)
      else ((st, ws), [], 0, true)
  | Fin, Established => ((CloseWait, ws), [], 0, true)
  | Fin, (FinWait1 | FinWait2) => ((TimeWait, ws), [], 0, true)
  | Rst, (Established | FinWait1 | FinWait2 | CloseWait | LastAck | Closing | TimeWait) => ((Closed, ws), [], 0, false)
  | _, _ => (p, [], 0, false)
  end.

Definition shut (st : State) : State :=
  match st with Established => FinWait1 | CloseWait => LastAck | _ => st end.

Instance socket : Socket := {|
  Proto := Engine; Seg := Segment; listening := (Listen, []); state := fst; assembler := snd;
  is_rst seg := match seg with Rst => true | _ => false end;
  carries D seg := match seg with Data position b => TcpStorage.part_of D position b | _ => True end;
  accepts p := accept (fst p); process _ p rx tx seg := receive p rx tx seg;
  received p _ := p; sent p _ := p; close p := (shut (fst p), snd p); abort p := (Closed, snd p);
  dispatch _ p _ _ := (p, false, None); poll_at _ _ _ _ := Ingress;
|}.

Lemma data_written rx ws pos b (publish : bool) :
  TcpStorage.head rx + TcpStorage.length rx <= pos -> (publish = true -> pos = TcpStorage.head rx + TcpStorage.length rx) ->
  exists r, TcpStorage.rx_run (TcpStorage.mkReceiver rx ws []) (TcpStorage.Segment pos b :: if publish then [TcpStorage.Publish (len b)] else []) = Some r /\
    TcpStorage.out r = [] /\ TcpStorage.written r = (pos, pos + len b) :: ws.
Proof.
  intros Hle Hpos. cbn [TcpStorage.rx_run TcpStorage.rx_step TcpStorage.storage TcpStorage.written TcpStorage.out].
  rewrite (proj2 (Z.leb_le 0 _)) by lia. cbn [mbind option_bind]. destruct publish; [|by eexists]. specialize (Hpos eq_refl). subst pos.
  cbn [TcpStorage.rx_run TcpStorage.rx_step TcpStorage.storage TcpStorage.written TcpStorage.out]. pose proof (len_nonneg b).
  rewrite (proj2 (Z.leb_le 0 (len b))) by done. assert (Hpub : forall s0, TcpStorage.head s0 + TcpStorage.length s0 = TcpStorage.head rx + TcpStorage.length rx ->
    TcpStorage.contiguous ((TcpStorage.head rx + TcpStorage.length rx, TcpStorage.head rx + TcpStorage.length rx + len b) :: ws) (TcpStorage.head s0 + TcpStorage.length s0) (len b) = true).
  { intros s0 ->. apply forallb_forall. intros x Hx%list_elem_of_In%elem_of_seqZ. unfold TcpStorage.assembled. cbn [existsb fst snd]. apply orb_true_iff. left. lia. }
  rewrite Hpub; [by eexists|]. unfold TcpStorage.write_unallocated. by case_match.
Qed.

Instance laws : SocketLaws.
Proof.
  constructor; cbn; try done.
  - intros [p ws]. destruct p; split; cbn; lia.
  - intros [p ws] seg Ha. cbn. intros ->. unfold accept in Ha. by rewrite bool_decide_eq_true_2 in Ha.
  - intros t [p ws] rx tx seg. destruct seg, p; cbn; repeat case_match; cbn; split; cbn; lia.
  - intros t [p ws] rx tx seg Hp. destruct seg, p; cbn in *; try lia; done.
  - intros t [p ws] rx tx seg _. assert (Hnil : forall st, exists r, TcpStorage.rx_run (TcpStorage.mkReceiver rx ws []) [] = Some r /\ TcpStorage.out r = [] /\ follows (TcpStorage.written r) (st, ws)).
    { intros st. eexists. split_and!; [done|done|by right]. }
    destruct seg as [| |pos b| |], p; cbn [receive fst snd]; try apply Hnil.
    all: destruct (pos =? _) eqn:He; [|destruct (_ <? pos) eqn:Hlt]; cbn [fst snd]; zify_bool; try apply Hnil.
    all: first [destruct (data_written rx ws pos b true) as (r & Hr & Ho & Hw); [lia|done|] | destruct (data_written rx ws pos b false) as (r & Hr & Ho & Hw); [lia|done|] ].
    all: exists r; split_and!; [exact Hr|done|by right].
  - intros _ p _ _. by right.
  - intros D t [p ws] rx tx seg Hd. destruct seg, p; cbn; try apply Forall_nil_2; repeat case_match; repeat constructor; done.
  - intros t [p ws] rx tx seg Hl. destruct seg, p; cbn; repeat case_match; cbn; lia.
Qed.
End Small.

(** ** Properties *)

Section Promises.
Context `{!Socket} `{!SocketLaws}.

Lemma part_of_prefix D l k : TcpStorage.part_of D 0 k -> l `prefix_of` k -> TcpStorage.part_of D 0 l.
Proof. intros Hk [m ->]. by apply TcpStorage.part_of_app in Hk as [? _]. Qed.

(** C1. What the application reads.  For every interleaving of the application's calls, the worker's turns, the
    packets and the hand-over to a direct transfer: the bytes delivered to the application are a prefix of the
    peer's stream, every byte taken out of the receive buffer is delivered or on its way in order, and the
    application sees the end of the stream only when everything taken was delivered.  The end is announced only
    past the peer's FIN with an empty receive buffer. *)
Theorem tcp_application_reads_stream D now evs s :
  Forall (of_stream D) evs -> run (init now) evs = Some s ->
  TcpStorage.part_of D 0 (delivered (hist s)) /\
  (over s = false -> taken (hist s) = delivered (hist s) ++ copied (pc s) ++ head (st s) ++ up (conn s) ++ mjoin (incoming (sh s)) ++ hold (wpc s)) /\
  (read_eof (st s) = true -> delivered (hist s) = taken (hist s)) /\
  (eof (sh s) = true -> 2 <= phase (state (proto (conn s))) /\ TcpStorage.length (rx (conn s)) = 0).
Proof.
  intros Hev Hrun. destruct (live_run_ok D evs (init now) s (init_ok D now) Hev Hrun) as [_ Hr _ _ _ _]. split_and!.
  - eapply part_of_prefix; [apply (v_taken _ _ _ _ (r_receives _ _ Hr))|apply Hr].
  - apply Hr.
  - intros He. by destruct (r_read_eof _ _ Hr He).
  - intros He. by destruct (r_eof _ _ Hr He) as [[? ?] _].
Qed.

(** C2. What the application writes.  The bytes put into the transmit buffer are a prefix of what the application,
    or the peer of a direct transfer, submitted; while the connection is open the buffer holds exactly the ones
    not acknowledged yet; and the socket is closed for sending on the application's behalf only after all
    submitted bytes are in the buffer. *)
Theorem tcp_application_writes_stream D now evs s :
  Forall (of_stream D) evs -> run (init now) evs = Some s ->
  pushed (hist s) `prefix_of` submitted (hist s) /\
  (fin (hist s) = true -> pushed (hist s) = submitted (hist s)) /\
  (state (proto (conn s)) <> Closed -> TcpStorage.published (tx (conn s)) (zdrop (TcpStorage.head (tx (conn s))) (pushed (hist s)))).
Proof.
  intros Hev Hrun. destruct (live_run_ok D evs (init now) s (init_ok D now) Hev Hrun) as [_ _ Hw _ _ _]. split_and!.
  - apply Hw.
  - intros Hf. by destruct (w_fin _ Hw Hf).
  - intros Hopen. destruct (t_published _ _ _ _ (w_transmits _ Hw)) as (c & Hp & [?|[_ ->]]); done.
Qed.

(** Credit.  The bytes submitted and not acknowledged never exceed the transmit credit taken for them, which
    never exceeds the largest window; and the receive credit in use is exactly the number of bytes taken out of
    the buffer whose consumption was not announced, so that announcing it never underflows the counter. *)
Theorem tcp_credit_bounded D now evs s :
  Forall (of_stream D) evs -> run (init now) evs = Some s ->
  (0 <= underway s + TcpStorage.length (tx (conn s)) <= tx_used s /\ tx_used s <= MAX_WINDOW) /\
  (over s = false -> owed s < 2 ^ 64 -> rx_used s = owed s) /\
  (forall n r, pc s = ReleaseUsed n r -> owed s < 2 ^ 64 -> n <= rx_used s).
Proof.
  intros Hev Hrun. destruct (live_run_ok D evs (init now) s (init_ok D now) Hev Hrun) as [Hs Hr Hw Hc _ _]. pose proof (w_transmits _ Hw) as Ht.
  assert (Howe : 0 <= owed s).
  { unfold owed. pose proof (g_leased _ Hs). pose proof (g_read _ Hs) as Hrd. pose proof (len_nonneg (head (st s))). pose proof (len_nonneg (up (conn s))). pose proof (len_nonneg (mjoin (incoming (sh s)))).
    assert (0 <= counted (wpc s)) by (destruct (wpc s); cbn; try lia; apply len_nonneg).
    assert (0 <= unreleased (pc s)) by (destruct (pc s); cbn in *; try lia; apply len_nonneg). lia. }
  assert (Hrx : over s = false -> owed s < 2 ^ 64 -> rx_used s = owed s) by (intros Ho Hlt; rewrite (Hc Ho); apply Z.mod_small; lia).
  split_and!; [|apply (t_used _ _ _ _ Ht)|apply (t_used _ _ _ _ Ht)|exact Hrx|].
  - pose proof (t_extra _ _ _ _ Ht). pose proof (transmits_length _ _ _ _ Ht). lia.
  - intros n r Hpc Hlt. destruct (busy_not_over _ Hs) as [Hov _]; [by rewrite Hpc|]. rewrite (Hrx Hov Hlt). unfold owed. rewrite Hpc. cbn [unreleased].
    pose proof (g_leased _ Hs). pose proof (len_nonneg (head (st s))). pose proof (len_nonneg (up (conn s))). pose proof (len_nonneg (mjoin (incoming (sh s)))).
    assert (0 <= counted (wpc s)) by (destruct (wpc s); cbn; try lia; apply len_nonneg). lia.
Qed.

(** C18. No notification to the worker is lost.  Whenever the application is between calls, waits for a hand-over or
    has dropped its stream, no message for the connection is in the ready channel, and the worker rests after a turn
    that the output queue did not block, nothing is left to do for it: an abort has closed the socket, and unless
    the connection was handed over to a direct transfer no hand-over is waiting, all submitted blocks are in the
    transmit buffer, all received ones were passed on, and a finished application's socket is closed for sending.
    This is about the messages to the worker; the wakers of the application's task and of a direct transfer's peer
    are not part of the machine. *)
Theorem tcp_no_lost_wakeup D now evs s r :
  Forall (of_stream D) evs -> run (init now) evs = Some s -> wpc s = Resting -> ready (sh s) = 0 -> pc s = Idle r \/ pc s = Awaiting \/ pc s = Dropped -> progress s <> Some Blocked ->
  (aborted (sh s) = true -> state (proto (conn s)) = Closed) /\
  (handed_over (conn s) = false -> attachment (sh s) = 0 /\ outgoing (sh s) = [] /\ TcpStorage.length (rx (conn s)) = 0 /\
    (finish (sh s) = true -> fin (hist s) = true \/ 2 <= tx_phase (state (proto (conn s))))).
Proof.
  intros Hev Hrun Hw Hrdy Hpc Hblk. destruct (live_run_ok D evs (init now) s (init_ok D now) Hev Hrun) as [Hs _ _ _ Hk _].
  assert (Hnw : ~ will s).
  { intros [Hq|[k Hq]]; [|destruct Hpc as [?|[?|?]]; congruence]. destruct (k_sent _ Hk Hq) as [?|[k Hq']]; [lia|destruct Hpc as [?|[?|?]]; congruence]. }
  assert (Hst : stage (wpc s) = 100) by (by rewrite Hw). split.
  - intros Ha. destruct (k_abort _ Hk Ha) as [?|[?|[?|?]]]; [done|lia|done|congruence].
  - intros Hh. assert (Hout : outgoing (sh s) = []).
    { destruct (outgoing (sh s)) eqn:Ho; [done|]. destruct (k_out _ Hk) as [?|[?|[?|?]]]; [congruence|done|done|lia|done|congruence]. }
    split_and!; [|done| |].
    + destruct (g_attach _ Hs) as [? _]. destruct (decide (attachment (sh s) = 0)); [done|]. destruct (k_attach _ Hk) as [?|[?|?]]; [lia|done|done|lia|congruence].
    + destruct (decide (TcpStorage.length (rx (conn s)) = 0)); [done|]. destruct (k_recv _ Hk) as [?|[?|[?|?]]]; [done|done|done|lia|done|congruence].
    + intros Hf. destruct (k_finish _ Hk Hf Hh) as [?|[?|[?|[?|[?|?]]]]]; [done|lia|by left|done|by right|congruence].
Qed.

Lemma gone_stuck e s : wpc s = Gone -> worker_step e s = None.
Proof. intros Hw. unfold worker_step. rewrite Hw. reflexivity. Qed.

Lemma awaiting_stuck s : wpc s = Gone -> pc s = Awaiting -> at_ s = Application -> completion s = None -> forall ev s', step s ev = Some s' -> ev = Call CancelTakeOver.
Proof.
  intros Hw Hpc Hat Hco ev s' Hst. destruct ev as [c| | | | |]; cbn [step] in Hst.
  6: by rewrite gone_stuck in Hst.
  1: { unfold app_call in Hst. rewrite Hpc, Hat in Hst. by destruct c. }
  1: { unfold app_step in Hst. by rewrite Hpc, Hco in Hst. }
  all: by rewrite Hw in Hst.
Qed.

(** A stream handed over after its connection was dropped waits for ever: nobody takes the attachment, and the only thing
    that can happen is that the caller gives up. *)
Theorem late_handover_waits s r :
  wpc s = Gone -> at_ s = Application -> pc s = Idle r -> handing (hist s) = false -> submitted (hist s) = [] -> completion s = None ->
  head (st s) = [] -> read_eof (st s) = false -> write_eof (st s) = false -> queued (sh s) = false ->
  exists s', run s [Call TakeOver; AppStep; AppStep; AppStep] = Some s' /\ pc s' = Awaiting /\ forall ev s'', step s' ev = Some s'' -> ev = Call CancelTakeOver.
Proof.
  intros Hw Hat Hpc Hh Hsub Hco Hhd Hre Hwe Hq. eexists. split.
  { cbn [run step]. unfold app_call. rewrite Hat, Hpc, Hh, Hsub, Hhd, Hre, Hwe. change (len (@nil Z) =? 0) with true. cbn. rewrite Hq. cbn. reflexivity. }
  split; [done|]. by apply awaiting_stuck.
Qed.
End Promises.

(** ** Examples *)

#[local] Existing Instances Small.socket Small.laws.

Definition alphabet (x : Z) : Z := 97 + x.
Definition silent : Peer := mkPeer (fun _ => PPending) PPending PPending [].
Definition at_time (t : Z) : env := mkEnv t Emitted silent.
Definition turns (n : nat) (t : Z) : list event := replicate n (WorkerStep (at_time t)).
Definition app (n : nat) : list event := replicate n AppStep.

(** The handshake, after which the application has its stream. *)
Definition opened : list event :=
  [Input Small.Syn] ++ turns 3 1 ++ [Input Small.Ack] ++ turns 3 2 ++ [StartReady false] ++ turns 14 3 ++ [Call PollAccept].

(** The peer's first bytes are read while the worker is at work; the application answers, and the connection comes to rest. *)
Definition exchange : list event :=
  opened ++ [Input (Small.Data 0 [97; 98; 99])] ++ turns 3 4 ++ [StartReady false] ++ turns 9 5 ++ [Call (PollRead 2)] ++ turns 3 5 ++
  app 4 ++ turns 3 5 ++ app 3 ++ turns 3 5 ++ [StartReady false] ++ turns 4 6 ++ [Call (PollWrite [1; 2; 3])] ++ app 7 ++
  turns 11 6 ++ [StartReady false] ++ turns 14 7.

Definition exchanged : sys := default (init 0) (run (init 0) exchange).

Lemma exchange_runs : run (init 0) exchange = Some exchanged.
Proof. vm_compute. reflexivity. Qed.

Lemma part_of_alphabet : TcpStorage.part_of alphabet 0 [97; 98; 99].
Proof.
  intros i x Hx. pose proof (zget_Some_range _ _ _ Hx) as Hi. change (len [97; 98; 99]) with 3 in Hi.
  assert (i = 0 \/ i = 1 \/ i = 2) as [->|[->| ->]] by lia; vm_compute in Hx; by simplify_eq.
Qed.

Lemma exchange_of_stream : Forall (of_stream alphabet) exchange.
Proof.
  unfold exchange, opened, turns, app. rewrite !Forall_app.
  split_and!; try (apply Forall_replicate; exact I); apply Forall_singleton; try exact I. apply part_of_alphabet.
Qed.

Lemma tcp_application_reads_stream_witness :
  TcpStorage.part_of alphabet 0 (delivered (hist exchanged)) /\ delivered (hist exchanged) = [97; 98] /\ taken (hist exchanged) = [97; 98; 99].
Proof.
  split; [|by vm_compute]. by apply (tcp_application_reads_stream alphabet 0 exchange exchanged exchange_of_stream exchange_runs).
Defined.

Lemma tcp_application_writes_stream_witness :
  pushed (hist exchanged) `prefix_of` submitted (hist exchanged) /\ pushed (hist exchanged) = [1; 2; 3].
Proof.
  split; [|by vm_compute]. by apply (tcp_application_writes_stream alphabet 0 exchange exchanged exchange_of_stream exchange_runs).
Defined.

Lemma tcp_credit_bounded_witness : rx_used exchanged = owed exchanged /\ owed exchanged = 1.
Proof.
  split; [|by vm_compute]. by apply (tcp_credit_bounded alphabet 0 exchange exchanged exchange_of_stream exchange_runs).
Defined.

Lemma exchanged_rests :
  wpc exchanged = Resting /\ ready (sh exchanged) = 0 /\ pc exchanged = Idle (Some (Wrote 3)) /\ progress exchanged = Some (PIdle None) /\ handed_over (conn exchanged) = false.
Proof. vm_compute. repeat split. Qed.

Lemma tcp_no_lost_wakeup_witness : outgoing (sh exchanged) = [] /\ TcpStorage.length (rx (conn exchanged)) = 0.
Proof.
  destruct exchanged_rests as (Hw & Hr & Hpc & Hp & Hh).
  destruct (tcp_no_lost_wakeup alphabet 0 exchange exchanged _ exchange_of_stream exchange_runs Hw Hr (or_introl Hpc)) as [_ H].
  - rewrite Hp. discriminate.
  - destruct (H Hh) as (_ & ? & ? & _). split; assumption.
Defined.

End Promises.
