(* ===== verification/UdpDirect.v ===== *)
(** * Datagrams between an association and the device (crates/tun/src/udp_direct.rs, worker.rs, transmit.rs)

    A UDP association whose packets the receive worker moves itself: its requests queue in front
    of a [PacketIo], the replies are grouped into batches for the output queue.  The other path of
    replies, the task [udp_replies], groups the packets of a queue in the same way. *)

From S2P Require Import Prelude Capacity Packet NetText Carrier UdpEncoder.
Import Packet NetText.

Module UdpDirect.
Import UdpEncoder.

(** [p::Packet] *)
Record Datagram := mkDatagram { target : Target; body : bytes }.

(** [Transmit], and [Transmit::size] with the charge of [storage::charge]. *)
Inductive Transmit :=
  | TPacket (packet : bytes)
  | TcpGso (packet : bytes) (payload : list bytes) (segment_size : Z)
  | Datagrams (source destination : SocketAddr) (payload : list bytes).

Definition charge (n : Z) : Z := 2 * n.

(** What a poll of the packet transport answers. *)
Inductive answer (A : Type) := Waits | Answers (a : A) | Errs.
Arguments Waits {A}. Arguments Answers {A} a. Arguments Errs {A}.

Record io := mkIo { on_send : list Datagram -> answer Z; on_recv : answer (list Datagram) }.

(** [size_of::<Bytes>()] and [size_of::<p::Packet>()] depend on the layout. *)
Section direct.
Context (BYTES_SIZE PACKET_SIZE : Z).

Definition transmit_size (t : Transmit) : Z :=
  match t with
  | TPacket packet => charge (len packet)
  | TcpGso packet payload _ => charge (len packet + lsum len payload) + len payload * BYTES_SIZE
  | Datagrams _ _ payload => lsum (fun b => len b + 48) payload
  end.

(** [Progress] *)
Inductive Progress := Idle | Blocked (cost : Z) | Closed.

(** What [try_reserve] on the output queue meets with. *)
Inductive admission := Granted | Full | Gone.

(** [Direct]; [ready] counts the messages its waker has put into the worker's channel. *)
Record Direct := mkDirect {
  d_flow : Flow;
  pending : list Datagram;
  received : list Datagram;
  received_offset : Z;
  d_bytes : Z;
  capacity : Capacity.t;
  queued : bool;
  ready : Z;
}.

Definition set_requests p n c d := mkDirect (d_flow d) p (received d) (received_offset d) n c (queued d) (ready d).
Definition set_replies l o d := mkDirect (d_flow d) (pending d) l o (d_bytes d) (capacity d) (queued d) (ready d).
Definition set_queued q n d := mkDirect (d_flow d) (pending d) (received d) (received_offset d) (d_bytes d) (capacity d) q n.

(** [cost] *)
Definition cost (p : Datagram) : Z := len (body p) + PACKET_SIZE.

(** [Ready::wake_by_ref] *)
Definition wake (d : Direct) : Direct := if queued d then d else set_queued true (ready d + 1) d.

(** [Direct::new], with what the old queue still held. *)
Definition new (flow : Flow) (incoming : list Datagram) (now : Z) : Direct :=
  wake (mkDirect flow incoming [] 0 (lsum cost incoming) (Capacity.new Capacity.INITIAL_BYTES now) false 0).

(** The number of requests the transport took of those offered; an error drops one. *)
Definition request_count (x : io) (l : list Datagram) : Z :=
  match on_send x (ztake (Z.min (len l) 32) l) with Answers n => n | Errs => 1 | Waits => 0 end.

(** [Direct::flush_requests].  Draining more than there is panics. *)
Definition flush_requests (x : io) (now : Z) (d : Direct) : option Direct :=
  match pending d with
  | [] => Some d
  | _ =>
      let count := request_count x (pending d) in
      if count =? 0 then Some d
      else if len (pending d) <? count then None
      else
        let bytes := lsum cost (ztake count (pending d)) in
        let d := set_requests (zdrop count (pending d)) (d_bytes d - bytes) (Capacity.complete (capacity d) bytes now) d in
        Some (match pending d with [] => d | _ => wake d end)
  end.

(** The condition of [Direct::enqueue]; the target is read only behind other packets. *)
Definition over_target (cost now : Z) (d : Direct) : Direct * bool :=
  if d_bytes d =? 0 then (d, false)
  else let '(c, t) := Capacity.target (capacity d) now in
       (set_requests (pending d) (d_bytes d) c d, t <? sat_add (d_bytes d) cost).

(** [Direct::enqueue] *)
Definition enqueue (x : io) (now : Z) (p : Datagram) (d : Direct) : option (Direct * bool) :=
  let push d := (wake (set_requests (pending d ++ [p]) (d_bytes d + cost p) (capacity d) d), true) in
  match over_target (cost p) now d with
  | (d, false) => Some (push d)
  | (d, true) =>
      d ← flush_requests x now d;
      Some (match over_target (cost p) now d with
            | (d, true) => (d, false)
            | (d, false) => push d
            end)
  end.

(** The addresses a reply is sent between: [socket_addr] and [reply_flow]. *)
Definition reply_addresses (flow : Flow) (p : Datagram) : option (SocketAddr * SocketAddr) :=
  match Carrier.socket_addr (target p) with Ok source => reply_flow flow source | Err _ => None end.

(** The packets behind a first one that share its transmission: how many, and what all of them cost. *)
Fixpoint group (t : Target) (total : Z) (rest : list Datagram) : nat * Z :=
  match rest with
  | [] => (O, total)
  | next :: rest =>
      let next_cost := len (body next) + 48 in
      if negb (bool_decide (target next = t)) || (65536 <? total + next_cost) then (O, total)
      else let '(n, c) := group t (total + next_cost) rest in (S n, c)
  end.

(** The payloads of a group are taken out of the received batch. *)
Definition emptied (a b : Z) (l : list Datagram) : list Datagram :=
  ztake a l ++ ((fun p => mkDatagram (target p) []) <$> slice a b l) ++ zdrop b l.

(** The loop of [Direct::flush_replies], with the output queue's answer to each reservation. *)
Fixpoint flush_loop (fuel : nat) (admits : nat -> Z -> admission) (i : nat) (flow : Flow) (l : list Datagram) (offset : Z) (out : list Transmit) :
  list Datagram * Z * list Transmit * Progress :=
  match fuel, zget l offset with
  | S fuel, Some packet =>
      match reply_addresses flow packet with
      | None => flush_loop fuel admits i flow l (offset + 1) out
      | Some (source, destination) =>
          let '(n, c) := group (target packet) (len (body packet) + 48) (ztake 63 (zdrop (offset + 1) l)) in
          match admits i c with
          | Full => (l, offset, out, Blocked c)
          | Gone => (l, offset, out, Closed)
          | Granted =>
              let stop := offset + 1 + Z.of_nat n in
              flush_loop fuel admits (S i) flow (emptied offset stop l) stop
                (out ++ [Datagrams source destination (body <$> slice offset stop l)])
          end
      end
  | _, _ => (l, offset, out, Idle)
  end.

(** [Direct::flush_replies]; the loop advances past at least one packet each time. *)
Definition flush_replies (admits : nat -> Z -> admission) (d : Direct) : Direct * list Transmit * Progress :=
  let '(l, offset, out, progress) := flush_loop (length (received d)) admits 0 (d_flow d) (received d) (received_offset d) [] in
  (if offset =? len l then set_replies [] 0 d else set_replies l offset d, out, progress).

(** [Direct::poll] *)
Definition poll (x : io) (admits again : nat -> Z -> admission) (now : Z) (d : Direct) : option (Direct * list Transmit * Progress) :=
  d ← flush_requests x now (set_queued false (ready d) d);
  let '(d, out, progress) := flush_replies admits d in
  Some (match progress with
        | Idle =>
            match on_recv x with
            | Waits => (d, out, Idle)
            | Errs => (wake d, out, Idle)
            | Answers [] => (d, out, Closed)
            | Answers l =>
                let '(d, more, progress) := flush_replies again (set_replies (received d ++ l) (received_offset d) d) in
                (match progress with Idle => wake d | _ => d end, out ++ more, progress)
            end
        | _ => (d, out, progress)
        end).

(** [udp_replies] on one batch of its queue, while the output queue is open. *)
Fixpoint udp_replies (fuel : nat) (flow : Flow) (batch : list Datagram) : list Transmit :=
  match fuel, batch with
  | S fuel, packet :: rest =>
      match reply_addresses flow packet with
      | None => udp_replies fuel flow rest
      | Some (source, destination) =>
          let n := fst (group (target packet) (len (body packet) + 48) rest) in
          Datagrams source destination (body packet :: (body <$> take n rest)) :: udp_replies fuel flow (drop n rest)
      end
  | _, _ => []
  end.

(** ** Runs *)

(** The requests accepted, those that left the queue, the replies the transport delivered with its
    last batch, and what was put into the output queue. *)
Record history := mkHistory { accepted : list Datagram; left_ : list Datagram; arrived : list Datagram; last_batch : list Datagram; emitted : list Transmit }.

Inductive event :=
  | Enqueue (x : io) (now : Z) (p : Datagram)
  | Poll (x : io) (admits again : nat -> Z -> admission) (now : Z).

Definition leaving (x : io) (d : Direct) : list Datagram :=
  match pending d with [] => [] | _ => ztake (request_count x (pending d)) (pending d) end.

Definition step (s : Direct * history) (ev : event) : option (Direct * history) :=
  let '(d, h) := s in
  match ev with
  | Enqueue x now p =>
      let gone := if snd (over_target (cost p) now d) then leaving x d else [] in
      '(d, ok) ← enqueue x now p d;
      Some (d, mkHistory (accepted h ++ if ok : bool then [p] else []) (left_ h ++ gone) (arrived h) (last_batch h) (emitted h))
  | Poll x admits again now =>
      let '(d1, _, idle) := flush_replies admits d in
      '(d', out, _) ← poll x admits again now d;
      let batch := match idle, on_recv x with Idle, Answers l => Some l | _, _ => None end in
      Some (d', mkHistory (accepted h) (left_ h ++ leaving x d) (arrived h ++ default [] batch) (default (last_batch h) batch) (emitted h ++ out))
  end.

Fixpoint run (s : Direct * history) (evs : list event) : option (Direct * history) :=
  match evs with
  | [] => Some s
  | ev :: evs => s ← step s ev; run s evs
  end.

Definition start (flow : Flow) (incoming : list Datagram) (now : Z) : Direct * history :=
  (new flow incoming now, mkHistory incoming [] [] [] []).

(** The documented contract of [PacketIo]: progress is a prefix of the datagrams offered. *)
Definition prefix_progress (x : io) : Prop :=
  forall l n, 0 < len l -> on_send x l = Answers n -> 0 < n <= len l.

Definition event_ok (ev : event) : Prop :=
  match ev with Enqueue x _ _ | Poll x _ _ _ => prefix_progress x end.

(** The datagrams of a transmission, and those a batch of replies stands for: the ones from an address the flow can be answered by. *)
Definition datagrams (t : Transmit) : list (SocketAddr * SocketAddr * bytes) :=
  match t with Datagrams s d l => (fun b => (s, d, b)) <$> l | _ => [] end.

Definition reply_of (flow : Flow) (p : Datagram) : option (SocketAddr * SocketAddr * bytes) :=
  '(s, d) ← reply_addresses flow p; Some (s, d, body p).

Definition replies (flow : Flow) (l : list Datagram) : list (SocketAddr * SocketAddr * bytes) := omap (reply_of flow) l.

(** A transmission that is one reservation of bounded size. *)
Definition bounded (t : Transmit) : Prop :=
  match t with Datagrams _ _ l => 1 <= len l <= 64 /\ (len l = 1 \/ transmit_size t <= 65536) | _ => False end.

(** ** Groups of replies *)

Lemma group_spec t total rest n c :
  group t total rest = (n, c) ->
  (n <= length rest)%nat /\ Forall (fun p => target p = t) (take n rest) /\ c = total + lsum (fun p => len (body p) + 48) (take n rest) /\ (n = O \/ c <= 65536).
Proof.
  revert total n c. induction rest as [|next rest IH]; intros total n c Hg; cbn in Hg.
  { injection Hg as <- <-. cbn. split_and!; [lia|done|lia|by left]. }
  destruct (bool_decide (target next = t)) eqn:Ht; cbn [negb orb] in Hg; [|injection Hg as <- <-; cbn; split_and!; [lia|done|lia|by left]].
  destruct (65536 <? total + (len (body next) + 48)) eqn:Hb; [injection Hg as <- <-; cbn; split_and!; [lia|done|lia|by left]|].
  destruct (group t (total + (len (body next) + 48)) rest) as [m d] eqn:Hr. injection Hg as <- <-.
  destruct (IH _ _ _ Hr) as (? & ? & -> & Hm). apply bool_decide_eq_true in Ht. zify_bool. cbn [take length]. unfold lsum in *. cbn [foldr].
  split_and!; [lia|by constructor|lia|]. right. destruct Hm as [->|?]; [|lia]. rewrite take_0. cbn. lia.
Qed.

Lemma reply_addresses_target flow p q : target p = target q -> reply_addresses flow p = reply_addresses flow q.
Proof. unfold reply_addresses. by intros ->. Qed.

Lemma replies_app flow l k : replies flow (l ++ k) = replies flow l ++ replies flow k.
Proof. apply omap_app. Qed.

Lemma replies_cons flow p l :
  replies flow (p :: l) = match reply_addresses flow p with Some (s, d) => (s, d, body p) :: replies flow l | None => replies flow l end.
Proof. unfold replies. cbn [omap list_omap]. unfold reply_of at 1. by destruct (reply_addresses flow p) as [[]|]. Qed.

Lemma replies_same flow t s d l :
  (forall p, target p = t -> reply_addresses flow p = Some (s, d)) -> Forall (fun p => target p = t) l ->
  replies flow l = (fun b => (s, d, b)) <$> (body <$> l).
Proof.
  intros Ht. induction 1 as [|p l Hp _ IH]; [done|]. rewrite replies_cons, (Ht p Hp). cbn. by rewrite IH.
Qed.

Lemma len_emptied a b l : 0 <= a <= b -> b <= len l -> len (emptied a b l) = len l.
Proof.
  intros. unfold emptied. rewrite !len_app. unfold len at 2. rewrite length_fmap. fold (len (slice a b l)). rewrite len_slice by lia. rewrite len_ztake, len_zdrop by lia. lia.
Qed.

Lemma zdrop_emptied a b l : 0 <= a <= b -> b <= len l -> zdrop b (emptied a b l) = zdrop b l.
Proof.
  intros. unfold emptied. rewrite app_assoc. apply zdrop_app_exact. rewrite len_app. unfold len at 2. rewrite length_fmap. fold (len (slice a b l)).
  rewrite len_slice, len_ztake by lia. lia.
Qed.

Lemma zdrop_cons_get {A} (l : list A) i x : zget l i = Some x -> zdrop i l = x :: zdrop (i + 1) l.
Proof.
  intros Hx. pose proof (zget_Some_range _ _ _ Hx). unfold zget in Hx. unfold zdrop. rewrite (drop_S l x (Z.to_nat i)); [|by case_hyp Hx].
  f_equal. f_equal. lia.
Qed.

(** One turn of the loop: the group that starts at [offset]. *)
Lemma group_at flow l offset packet source destination n c :
  zget l offset = Some packet -> reply_addresses flow packet = Some (source, destination) ->
  group (target packet) (len (body packet) + 48) (ztake 63 (zdrop (offset + 1) l)) = (n, c) ->
  let stop := offset + 1 + Z.of_nat n in
  let t := Datagrams source destination (body <$> slice offset stop l) in
  0 <= offset < stop /\ stop <= len l /\ bounded t /\ transmit_size t = c /\
  replies flow (zdrop offset l) = datagrams t ++ replies flow (zdrop stop l).
Proof.
  intros Hp Ha Hg stop t. pose proof (zget_Some_range _ _ _ Hp) as Hr. destruct (group_spec _ _ _ _ _ Hg) as (Hn & Hall & Hc & Hb).
  assert (Hlen : Z.of_nat n <= 63 /\ Z.of_nat n <= len l - offset - 1).
  { pose proof (len_ztake 63 (zdrop (offset + 1) l)) as Hz. rewrite len_zdrop in Hz by lia. unfold len in Hz at 1. lia. }
  assert (Htake : take n (ztake 63 (zdrop (offset + 1) l)) = ztake (Z.of_nat n) (zdrop (offset + 1) l)).
  { unfold ztake. rewrite take_take. f_equal. lia. }
  assert (Hslice : slice offset stop l = packet :: ztake (Z.of_nat n) (zdrop (offset + 1) l)).
  { unfold slice. rewrite (zdrop_cons_get l offset packet Hp). replace (stop - offset) with (1 + Z.of_nat n) by lia. unfold ztake. rewrite Z2Nat.inj_add by lia. done. }
  assert (Hsize : len (slice offset stop l) = 1 + Z.of_nat n) by (rewrite len_slice; lia).
  rewrite Htake in *. subst t. cbn [bounded transmit_size datagrams].
  assert (Hl : len (body <$> slice offset stop l) = 1 + Z.of_nat n) by (unfold len in *; by rewrite length_fmap).
  assert (Ht : lsum (fun b => len b + 48) (body <$> slice offset stop l) = c).
  { rewrite Hslice, Hc. cbn. unfold lsum. rewrite foldr_fmap. lia. }
  rewrite Hl, Ht. split_and!; try lia.
  rewrite <- (ztake_zdrop (stop - offset) (zdrop offset l)), replies_app. rewrite zdrop_zdrop by lia. fold (slice offset stop l). f_equal.
  - apply (replies_same _ (target packet)); [intros q Hq; by rewrite (reply_addresses_target flow q packet Hq)|]. rewrite Hslice. by constructor.
  - do 2 f_equal. lia.
Qed.

Lemma flush_loop_spec fuel admits i flow l offset out l' offset' out' progress :
  flush_loop fuel admits i flow l offset out = (l', offset', out', progress) -> 0 <= offset <= len l -> len l - offset <= Z.of_nat fuel ->
  offset <= offset' <= len l /\ len l' = len l /\ zdrop offset' l' = zdrop offset' l /\
  (exists more, out' = out ++ more /\ Forall bounded more /\ replies flow (zdrop offset l) = mjoin (datagrams <$> more) ++ replies flow (zdrop offset' l)) /\
  match progress with
  | Idle => offset' = len l
  | Blocked c => offset' < len l /\ exists j, admits j c = Full
  | Closed => offset' < len l
  end.
Proof.
  revert i l offset out. induction fuel as [|fuel IH]; intros i l offset out Hf Ho Hfuel; cbn [flush_loop] in Hf.
  { injection Hf as <- <- <- <-. split_and!; try lia; try done. exists []. by rewrite app_nil_r. }
  destruct (zget l offset) as [packet|] eqn:Hp.
  2: { injection Hf as <- <- <- <-. assert (offset = len l). { destruct (decide (offset = len l)); [done|]. destruct (zget_is_Some l offset); [lia|]. congruence. }
       split_and!; try lia; try done. exists []. by rewrite app_nil_r. }
  pose proof (zget_Some_range _ _ _ Hp). destruct (reply_addresses flow packet) as [[source destination]|] eqn:Ha.
  - destruct (group _ _ _) as [n c] eqn:Hg. destruct (group_at _ _ _ _ _ _ _ _ Hp Ha Hg) as (Hs & Hstop & Hb & Hc & Hrep). set (stop := offset + 1 + Z.of_nat n) in *.
    destruct (admits i c) eqn:Had.
    + apply IH in Hf as (Hoff & Hl & Hz & (more & -> & Hm & Hmore) & Hprog); [|rewrite len_emptied; lia|rewrite len_emptied; lia].
      rewrite len_emptied in * by lia. rewrite zdrop_emptied in Hmore by lia.
      assert (He : zdrop offset' (emptied offset stop l) = zdrop offset' l).
      { replace offset' with (stop + (offset' - stop)) by lia. rewrite <- !zdrop_zdrop by lia. by rewrite zdrop_emptied by lia. }
      split_and!; try lia; try done; [by rewrite Hz|]. rewrite He in Hmore.
      eexists (_ :: more). rewrite <- app_assoc. split_and!; [done|by constructor|]. cbn [fmap list_fmap mjoin list_join]. by rewrite Hrep, Hmore, app_assoc.
    + injection Hf as <- <- <- <-. split_and!; try lia; try done; [|eauto]. exists []. by rewrite app_nil_r.
    + injection Hf as <- <- <- <-. split_and!; try lia; try done. exists []. by rewrite app_nil_r.
  - apply IH in Hf as (Hoff & Hl & Hz & (more & -> & Hm & Hmore) & Hprog); [|lia|lia].
    split_and!; try lia; try done. exists more. split_and!; try done. rewrite (zdrop_cons_get l offset packet Hp). by rewrite replies_cons, Ha.
Qed.

(** ** Steps *)

(** The parts of a flow that moving replies leaves alone. *)
Definition same_requests (d d' : Direct) : Prop :=
  d_flow d' = d_flow d /\ pending d' = pending d /\ d_bytes d' = d_bytes d /\ queued d' = queued d.

Lemma flush_replies_spec admits d d' out progress :
  flush_replies admits d = (d', out, progress) -> 0 <= received_offset d <= len (received d) ->
  same_requests d d' /\ 0 <= received_offset d' <= len (received d') /\ Forall bounded out /\
  replies (d_flow d) (zdrop (received_offset d) (received d)) = mjoin (datagrams <$> out) ++ replies (d_flow d) (zdrop (received_offset d') (received d')) /\
  (received d' = [] \/ len (received d') = len (received d) /\ received_offset d <= received_offset d' /\ zdrop (received_offset d') (received d') = zdrop (received_offset d') (received d)) /\
  match progress with
  | Idle => received d' = []
  | Blocked c => received d' <> [] /\ exists j, admits j c = Full
  | Closed => True
  end.
Proof.
  unfold flush_replies. destruct (flush_loop _ _ _ _ _ _ _) as [[[l o] ts] pr] eqn:Hf. intros [= <- <- <-] Ho.
  apply flush_loop_spec in Hf as (Hoff & Hl & Hz & (more & -> & Hm & Hmore) & Hp); [|lia|unfold len; lia]. cbn [app] in *.
  destruct (o =? len l) eqn:He; zify_bool; cbn; (split; [done|]); rewrite Hmore.
  - assert (zdrop o (received d) = []) as -> by (apply zdrop_ge; lia). assert (Hnil : zdrop 0 (@nil Datagram) = []) by done. rewrite Hnil.
    split_and!; try done; try lia; [by left|]. destruct pr; [done|lia|done].
  - rewrite Hz. split_and!; try done; try lia; [right; split_and!; [done|lia|done]|]. destruct pr; [lia| |done].
    destruct Hp as [? ?]. split; [|done]. intros ->. unfold len in *; cbn in *; lia.
Qed.

Lemma flush_replies_same admits d d' :
  d_flow d' = d_flow d -> received d' = received d -> received_offset d' = received_offset d ->
  snd (flush_replies admits d') = snd (flush_replies admits d).
Proof. unfold flush_replies. intros -> -> ->. by destruct (flush_loop _ _ _ _ _ _ _) as [[[l o] ts] pr]. Qed.

Lemma request_count_range x l : prefix_progress x -> l <> [] -> 0 <= request_count x l <= len l.
Proof.
  intros Hx Hl. assert (0 < len l) by (destruct l; [done|]; unfold len; cbn; lia).
  unfold request_count. destruct (on_send x _) as [|n|] eqn:Hn; [lia| |lia]. apply Hx in Hn; rewrite len_ztake in *; lia.
Qed.

Lemma flush_requests_spec x now d :
  prefix_progress x ->
  exists d', flush_requests x now d = Some d' /\ d_flow d' = d_flow d /\ received d' = received d /\ received_offset d' = received_offset d /\
    leaving x d ++ pending d' = pending d /\ d_bytes d' = d_bytes d - lsum cost (leaving x d) /\
    (pending d' <> [] -> queued d' = true \/ d' = d /\ on_send x (ztake (Z.min (len (pending d)) 32) (pending d)) = Waits).
Proof.
  intros Hx. unfold flush_requests, leaving. destruct (pending d) as [|p l] eqn:Hp.
  { exists d. rewrite Hp. cbn. split_and!; try done; lia. }
  rewrite <- Hp in *. assert (Hne : pending d <> []) by (by rewrite Hp). pose proof (request_count_range x _ Hx Hne).
  destruct (request_count x (pending d) =? 0) eqn:H0; zify_bool.
  - rewrite H0. exists d. rewrite ztake_0. cbn. split_and!; try done; try lia. intros _. right. split; [done|].
    unfold request_count in H0. destruct (on_send x _) as [|n|] eqn:Hn; [done| |lia]. apply Hx in Hn; [lia|]. rewrite len_ztake by lia. assert (0 < len (pending d)) by (rewrite Hp; unfold len; cbn; lia). lia.
  - assert (len (pending d) <? request_count x (pending d) = false) as -> by lia. eexists. split; [done|]. cbn [pending set_requests].
    destruct (zdrop (request_count x (pending d)) (pending d)) as [|q r] eqn:Hd; cbn.
    + split_and!; try done. rewrite <- Hd at 1. by rewrite ztake_zdrop.
    + unfold wake. cbn. destruct (queued d) eqn:Hq; cbn; rewrite <- ?Hd, ztake_zdrop; split_and!; try done; by left.
Qed.

Record Inv (flow : Flow) (s : Direct * history) : Prop := {
  i_flow : d_flow s.1 = flow;
  i_requests : left_ s.2 ++ pending s.1 = accepted s.2;
  i_bytes : d_bytes s.1 = lsum cost (pending s.1);
  i_offset : 0 <= received_offset s.1 <= len (received s.1);
  i_replies : mjoin (datagrams <$> emitted s.2) ++ replies flow (zdrop (received_offset s.1) (received s.1)) = replies flow (arrived s.2);
  i_batch : received s.1 = [] \/ len (received s.1) = len (last_batch s.2) /\ zdrop (received_offset s.1) (received s.1) = zdrop (received_offset s.1) (last_batch s.2);
  i_emitted : Forall bounded (emitted s.2);
}.

Lemma direct_start_inv flow incoming now : Inv flow (start flow incoming now).
Proof. constructor; cbn; try done; try lia. by left. Qed.

Lemma over_target_same c now d :
  exists cap, fst (over_target c now d) = set_requests (pending d) (d_bytes d) cap d.
Proof.
  unfold over_target. destruct (d_bytes d =? 0); [exists (capacity d); by destruct d|].
  destruct (Capacity.target (capacity d) now) as [c' t]. by exists c'.
Qed.

Lemma direct_wake_queued d : queued (wake d) = true.
Proof. unfold wake. by destruct (queued d) eqn:?. Qed.

Lemma wake_same d :
  d_flow (wake d) = d_flow d /\ received (wake d) = received d /\ received_offset (wake d) = received_offset d /\ pending (wake d) = pending d /\ d_bytes (wake d) = d_bytes d.
Proof. unfold wake. by destruct (queued d). Qed.

Lemma direct_enqueue_spec x now p d :
  prefix_progress x ->
  exists d' ok, enqueue x now p d = Some (d', ok) /\ d_flow d' = d_flow d /\ received d' = received d /\ received_offset d' = received_offset d /\
    (let gone := if snd (over_target (cost p) now d) then leaving x d else [] in
     gone ++ pending d' = pending d ++ (if ok : bool then [p] else []) /\
     d_bytes d' = d_bytes d - lsum cost gone + if ok then cost p else 0) /\
    (ok = true -> queued d' = true).
Proof.
  intros Hx. unfold enqueue. destruct (over_target_same (cost p) now d) as [cap Hcap]. destruct (over_target (cost p) now d) as [d1 over]. cbn in Hcap. subst d1.
  destruct over; cbn [snd].
  - destruct (flush_requests_spec x now (set_requests (pending d) (d_bytes d) cap d) Hx) as (d2 & -> & Hf & Hr & Ho & Hl & Hb & _). cbn in Hf, Hr, Ho, Hl, Hb.
    cbn [mbind option_bind]. change (leaving x (set_requests _ _ _ d)) with (leaving x d) in *.
    destruct (over_target_same (cost p) now d2) as [cap2 Hcap2]. destruct (over_target (cost p) now d2) as [d3 over2]. cbn in Hcap2. subst d3. destruct over2.
    + eexists _, false. split; [done|]. cbn. rewrite app_nil_r. split_and!; try done. lia.
    + eexists _, true. split; [done|]. match goal with |- context [d_flow (wake ?y)] => destruct (wake_same y) as (-> & -> & -> & -> & ->) end. cbn. split_and!; try done; [by rewrite app_assoc, Hl|lia|by intros _; apply direct_wake_queued].
  - eexists _, true. split; [done|]. match goal with |- context [d_flow (wake ?y)] => destruct (wake_same y) as (-> & -> & -> & -> & ->) end. cbn. split_and!; try done; [lia|by intros _; apply direct_wake_queued].
Qed.

Lemma enqueue_inv flow s x now p : Inv flow s -> prefix_progress x -> exists s', step s (Enqueue x now p) = Some s' /\ Inv flow s'.
Proof.
  intros [Hf Hr Hb Ho Hrep Hbat He] Hx. destruct s as [d h]. cbn in *. destruct (direct_enqueue_spec x now p d Hx) as (d' & ok & -> & Hf' & Hr' & Ho' & [Hl Hb'] & _).
  eexists. split; [done|]. set (gone := if snd (over_target (cost p) now d) then leaving x d else []) in *.
  constructor; cbn [fst snd accepted left_ arrived last_batch emitted]; rewrite ?Hr', ?Ho', ?Hf'; try done.
  - by rewrite <- app_assoc, Hl, app_assoc, Hr.
  - assert (Hs : lsum cost (gone ++ pending d') = lsum cost (pending d) + if ok then cost p else 0) by (rewrite Hl, lsum_app; destruct ok; cbn; lia).
    rewrite lsum_app in Hs. lia.
Qed.

Lemma batch_shift d d' last :
  received d' = [] \/ len (received d') = len (received d) /\ received_offset d <= received_offset d' /\ zdrop (received_offset d') (received d') = zdrop (received_offset d') (received d) ->
  0 <= received_offset d ->
  received d = [] \/ len (received d) = len last /\ zdrop (received_offset d) (received d) = zdrop (received_offset d) last ->
  received d' = [] \/ len (received d') = len last /\ zdrop (received_offset d') (received d') = zdrop (received_offset d') last.
Proof.
  intros [?|(Hl & Ho & Hz)] H0 Hb; [by left|]. destruct Hb as [Hnil|[Hl' Hz']].
  { left. apply len_zero. rewrite Hl, Hnil. done. }
  right. split; [lia|]. rewrite Hz. replace (received_offset d') with (received_offset d + (received_offset d' - received_offset d)) by lia.
  rewrite <- !zdrop_zdrop by lia. by rewrite Hz'.
Qed.

Lemma poll_inv flow s x admits again now : Inv flow s -> prefix_progress x -> exists s', step s (Poll x admits again now) = Some s' /\ Inv flow s'.
Proof.
  intros [Hf Hr Hb Ho Hrep Hbat He] Hx. destruct s as [d h]. cbn [fst snd] in *. cbn [step]. unfold poll.
  destruct (flush_requests_spec x now (set_queued false (ready d) d) Hx) as (d1 & -> & Hf1 & Hr1 & Ho1 & Hl1 & Hb1 & _). cbn [mbind option_bind].
  change (leaving x (set_queued false (ready d) d)) with (leaving x d) in *. cbn [pending d_flow received received_offset d_bytes set_queued] in Hf1, Hr1, Ho1, Hl1, Hb1.
  pose proof (flush_replies_same admits d d1 Hf1 Hr1 Ho1) as Hsame. destruct (flush_replies admits d) as [[d0 out0] pr0]. destruct (flush_replies admits d1) as [[d2 out] pr] eqn:Hfl. cbn in Hsame. subst pr0.
  apply flush_replies_spec in Hfl as ((Hsf & Hsp & Hsb & _) & Ho2 & Hbd & Hrep2 & Hbat2 & Hpr); [|by rewrite Ho1, Hr1].
  rewrite Hf1, Hr1, Ho1, Hf in Hrep2. rewrite Hrep2 in Hrep. rewrite Hr1, Ho1 in Hbat2.
  pose proof (batch_shift d d2 (last_batch h) Hbat2 (proj1 Ho) Hbat) as Hbat3.
  assert (Hreq : left_ h ++ leaving x d ++ pending d1 = accepted h) by (by rewrite Hl1).
  assert (Hbytes : d_bytes d1 = lsum cost (pending d1)) by (rewrite Hb1, Hb; rewrite <- Hl1 at 1; rewrite lsum_app; lia).
  assert (Hquiet : forall d3, d3 = d2 \/ d3 = wake d2 -> Inv flow (d3, mkHistory (accepted h) (left_ h ++ leaving x d) (arrived h ++ []) (last_batch h) (emitted h ++ out))).
  { intros d3 Hd3. assert (d_flow d3 = d_flow d2 /\ received d3 = received d2 /\ received_offset d3 = received_offset d2 /\ pending d3 = pending d2 /\ d_bytes d3 = d_bytes d2) as (E1 & E2 & E3 & E4 & E5) by (destruct Hd3 as [->| ->]; [done|apply wake_same]).
    constructor; cbn [fst snd accepted left_ arrived last_batch emitted]; rewrite ?E1, ?E2, ?E3, ?E4, ?E5, ?Hsp; [by rewrite Hsf, Hf1| |by rewrite Hsb|done| |done|by apply Forall_app].
    - by rewrite <- app_assoc.
    - by rewrite fmap_app, join_app, <- app_assoc, app_nil_r. }
  destruct pr as [|c|]; [|eexists; split; [done|by apply Hquiet; left]|eexists; split; [done|by apply Hquiet; left]].
  destruct (on_recv x) as [|l|]; [eexists; split; [done|by apply Hquiet; left]| |eexists; split; [done|by apply Hquiet; right]].
  destruct l as [|p l].
  { eexists. split; [done|]. cbn. destruct (Hquiet d2 (or_introl eq_refl)) as []. constructor; try done. by left. }
  set (batch := p :: l). rewrite Hpr. cbn [app].
  assert (Hoff : received_offset d2 = 0) by (rewrite Hpr in Ho2; unfold len in Ho2; cbn in Ho2; lia). rewrite Hoff.
  destruct (flush_replies again (set_replies batch 0 d2)) as [[d3 more] pr3] eqn:Hfl3.
  apply flush_replies_spec in Hfl3 as ((Hsf3 & Hsp3 & Hsb3 & _) & Ho3 & Hbd3 & Hrep3 & Hbat4 & Hpr3); [|cbn; pose proof (len_nonneg batch); lia].
  cbn [d_flow pending d_bytes received received_offset set_replies] in *.
  eexists. split; [done|]. set (d4 := match pr3 with Idle => wake d3 | _ => d3 end).
  assert (d_flow d4 = d_flow d3 /\ received d4 = received d3 /\ received_offset d4 = received_offset d3 /\ pending d4 = pending d3 /\ d_bytes d4 = d_bytes d3) as (E1 & E2 & E3 & E4 & E5) by (subst d4; destruct pr3; [apply wake_same|done|done]).
  constructor; cbn [fst snd accepted left_ arrived last_batch emitted default]; rewrite ?E1, ?E2, ?E3, ?E4, ?E5, ?Hsp3, ?Hsp; [by rewrite Hsf3, Hsf, Hf1| |by rewrite Hsb3, Hsb|done| | |].
  - by rewrite <- app_assoc.
  - rewrite Hsf, Hf1, Hf, zdrop_0 in Hrep3. rewrite Hpr in Hrep. change (replies flow (zdrop (received_offset d2) [])) with (replies flow (zdrop (received_offset d2) (@nil Datagram))) in Hrep.
    rewrite zdrop_ge in Hrep by (rewrite Hoff; done). rewrite app_nil_r in Hrep. rewrite !fmap_app, !join_app, replies_app. rewrite <- Hrep. change (Datatypes.id batch) with batch. by rewrite Hrep3, !app_assoc.
  - destruct Hbat4 as [?|(? & ? & ?)]; [by left|by right].
  - rewrite !Forall_app. done.
Qed.

Lemma direct_run_inv flow s evs : Inv flow s -> Forall event_ok evs -> exists s', run s evs = Some s' /\ Inv flow s'.
Proof.
  intros Hi Hev. revert s Hi. induction Hev as [|ev evs He _ IH]; intros s Hi; [by exists s|].
  assert (exists s', step s ev = Some s' /\ Inv flow s') as (s' & Hs & Hi') by (destruct ev; [by apply enqueue_inv|by apply poll_inv]).
  destruct (IH s' Hi') as (s'' & Hr & ?). exists s''. cbn [run]. by rewrite Hs.
Qed.

(** While the output queue has room, the loop makes the transmissions of [udp_replies]. *)
Lemma flush_loop_open fuel i flow l offset out :
  0 <= offset <= len l -> len l - offset <= 64 -> len l - offset <= Z.of_nat fuel ->
  exists l', flush_loop fuel (fun _ _ => Granted) i flow l offset out = (l', len l, out ++ udp_replies fuel flow (zdrop offset l), Idle) /\ len l' = len l.
Proof.
  revert i l offset out. induction fuel as [|fuel IH]; intros i l offset out Ho H64 Hfuel; cbn [flush_loop].
  { assert (offset = len l) as -> by lia. exists l. rewrite app_nil_r. done. }
  destruct (zget l offset) as [packet|] eqn:Hp.
  2: { assert (offset = len l) as ->. { destruct (decide (offset = len l)); [done|]. destruct (zget_is_Some l offset); [lia|]. congruence. }
       exists l. rewrite zdrop_ge by lia. cbn. by rewrite app_nil_r. }
  pose proof (zget_Some_range _ _ _ Hp). rewrite (zdrop_cons_get l offset packet Hp). cbn [udp_replies].
  destruct (reply_addresses flow packet) as [[source destination]|] eqn:Ha; [|by apply IH; lia].
  assert (Htake : ztake 63 (zdrop (offset + 1) l) = zdrop (offset + 1) l) by (apply ztake_ge; rewrite len_zdrop; lia).
  destruct (group _ _ (ztake 63 _)) as [n c] eqn:Hg. destruct (group_at _ _ _ _ _ _ _ _ Hp Ha Hg) as (Hs & Hstop & _). rewrite Htake in Hg. rewrite Hg. cbn [fst].
  set (stop := offset + 1 + Z.of_nat n) in *.
  destruct (IH (S i) (emptied offset stop l) stop (out ++ [Datagrams source destination (body <$> slice offset stop l)])) as (l' & Hl' & Hlen); rewrite ?len_emptied by lia; [lia..|].
  rewrite len_emptied in Hl', Hlen by lia. rewrite zdrop_emptied in Hl' by lia. exists l'. split; [|done]. rewrite Hl'. f_equal. f_equal. rewrite <- app_assoc. f_equal. cbn [app].
  assert (Hdrop : drop n (zdrop (offset + 1) l) = zdrop stop l) by (unfold zdrop; rewrite drop_drop; f_equal; lia). rewrite Hdrop. f_equal. f_equal.
  unfold slice. rewrite (zdrop_cons_get l offset packet Hp). replace (stop - offset) with (1 + Z.of_nat n) by lia. unfold ztake. rewrite Z2Nat.inj_add by lia. cbn. by rewrite Nat2Z.id.
Qed.

(** ** Properties *)

(** C19. A flow moved by the worker.  For every sequence of arrivals and polls over a transport that keeps its contract
    the flow never panics; its requests leave in order, each once, and the byte count is that of the ones waiting;
    the datagrams put into the output queue, followed by those still held back, are exactly the replies received
    that an address of the flow's family can be answered by, in order; every transmission is one bounded
    reservation; and at most the last batch received is held. *)
Theorem udp_direct_moves_datagrams flow incoming now evs :
  Forall event_ok evs ->
  exists d h, run (start flow incoming now) evs = Some (d, h) /\
    left_ h ++ pending d = accepted h /\ d_bytes d = lsum cost (pending d) /\
    mjoin (datagrams <$> emitted h) ++ replies flow (zdrop (received_offset d) (received d)) = replies flow (arrived h) /\
    Forall bounded (emitted h) /\
    (received d = [] \/ len (received d) = len (last_batch h) /\ zdrop (received_offset d) (received d) = zdrop (received_offset d) (last_batch h)).
Proof.
  intros Hev. destruct (direct_run_inv flow _ evs (direct_start_inv flow incoming now) Hev) as ([d h] & Hr & Hi). exists d, h. split_and!; [done|apply Hi..].
Qed.

(** An idle flow is woken.  When a poll reports that the flow is idle, nothing received is held back, the transport
    holds the waker for receiving unless a message is in the ready channel, and the same is true of the waiting
    requests, if there are any; when it reports that the output queue is full, the first reply held back needs a reservation that the
    queue refused. *)
Theorem udp_direct_idle_is_woken x admits again now d d' out progress :
  prefix_progress x -> 0 <= received_offset d <= len (received d) -> poll x admits again now d = Some (d', out, progress) ->
  match progress with
  | Idle =>
      received d' = [] /\ (queued d' = true \/ on_recv x = Waits) /\
      (pending d' <> [] -> queued d' = true \/ on_send x (ztake (Z.min (len (pending d')) 32) (pending d')) = Waits)
  | Blocked c => received d' <> [] /\ exists j, admits j c = Full \/ again j c = Full
  | Closed => True
  end.
Proof.
  intros Hx Ho. unfold poll.
  destruct (flush_requests_spec x now (set_queued false (ready d) d) Hx) as (d1 & -> & Hf1 & Hr1 & Ho1 & Hl1 & Hb1 & Hq1). cbn [mbind option_bind].
  destruct (flush_replies admits d1) as [[d2 o] pr] eqn:Hfl.
  apply flush_replies_spec in Hfl as ((_ & Hsp & _ & Hsq) & Ho2 & _ & _ & _ & Hpr); [|by rewrite Ho1, Hr1].
  assert (Hreq : pending d2 <> [] -> queued d2 = true \/ on_send x (ztake (Z.min (len (pending d2)) 32) (pending d2)) = Waits).
  { rewrite Hsp, Hsq. intros Hp. destruct (Hq1 Hp) as [?|[-> ?]]; [by left|by right]. }
  destruct pr as [|c|]; intros He.
  2: { injection He as <- <- <-. destruct Hpr as [? [j ?]]. eauto. }
  2: by injection He as <- <- <-.
  assert (Hwake : forall y, pending y = pending d2 -> received y = [] -> match Idle with Idle => received (wake y) = [] /\ (queued (wake y) = true \/ on_recv x = Waits) /\
    (pending (wake y) <> [] -> queued (wake y) = true \/ on_send x (ztake (Z.min (len (pending (wake y))) 32) (pending (wake y))) = Waits) | _ => True end).
  { intros y Hp Hr. destruct (wake_same y) as (_ & -> & _ & _ & _). rewrite direct_wake_queued. split_and!; auto. }
  destruct (on_recv x) as [|[|p l]|] eqn:Hrecv.
  - injection He as <- <- <-. split_and!; auto.
  - by injection He as <- <- <-.
  - rewrite Hpr in He, Ho2. assert (Hoff : received_offset d2 = 0) by (unfold len in Ho2; cbn in Ho2; lia). rewrite Hoff in He. cbn [app] in He.
    destruct (flush_replies again (set_replies (p :: l) 0 d2)) as [[d3 more] pr3] eqn:Hfl3.
    apply flush_replies_spec in Hfl3 as ((_ & Hsp3 & _ & _) & _ & _ & _ & _ & Hpr3); [|cbn; pose proof (len_nonneg (p :: l)); lia].
    injection He as <- <- <-. destruct pr3 as [|c|]; [by apply Hwake| |done]. destruct Hpr3 as [? [j ?]]. eauto.
  - injection He as <- <- <-. by apply Hwake.
Qed.

(** The two paths of replies agree.  While the output queue has room, a flow moved by the worker transmits a batch
    it received exactly as the association's own task does: the same transmissions in the same order.  A batch of
    the queue has at most thirty-two packets, one of the transport at most sixty-four. *)
Theorem udp_reply_paths_agree d batch :
  len batch <= 64 ->
  flush_replies (fun _ _ => Granted) (set_replies batch 0 d) = (set_replies [] 0 d, udp_replies (length batch) (d_flow d) batch, Idle).
Proof.
  intros H64. unfold flush_replies. cbn [received received_offset d_flow set_replies].
  destruct (flush_loop_open (length batch) 0 (d_flow d) batch 0 []) as (l' & -> & Hl'); [pose proof (len_nonneg batch); lia|lia|unfold len; lia|].
  rewrite zdrop_0, Hl', Z.eqb_refl. done.
Qed.

End direct.

(** ** Examples *)

Definition peer : SocketAddr := (Ipv4 (10 * 2 ^ 24 + 1), 5000).
Definition server : SocketAddr := (Ipv4 (10 * 2 ^ 24 + 2), 53).
Definition demo_flow : Flow := mkFlow peer server.
Definition reply (b : bytes) : Datagram := mkDatagram (Carrier.target server) b.
Definition named : Datagram := mkDatagram (Domain [97] 53) [9].
Definition demo_io : io := mkIo (fun l => Answers (Z.min 2 (len l))) (Answers [reply [1]; reply [2]; named; reply [3]]).
Definition waiting_io : io := mkIo (fun _ => Waits) Waits.
Definition tight (room : Z) (i : nat) (c : Z) : admission := if Z.of_nat i <? room then Granted else Full.

Lemma demo_io_ok : prefix_progress demo_io.
Proof. intros l n Hl [= <-]. lia. Qed.

Lemma waiting_io_ok : prefix_progress waiting_io.
Proof. done. Qed.

Definition demo_events : list event :=
  [Enqueue waiting_io 10 (reply [4; 5]); Poll demo_io (tight 9) (tight 1) 20; Enqueue demo_io 30 (reply [6]); Poll waiting_io (tight 9) (tight 9) 40].

Lemma direct_demo_events_ok : Forall event_ok demo_events.
Proof. repeat apply Forall_cons_2; try apply Forall_nil_2; apply demo_io_ok || apply waiting_io_ok. Qed.

Lemma udp_direct_moves_datagrams_witness :
  exists d h, run 40 (start 40 demo_flow [reply [7]; reply [8]] 0) demo_events = Some (d, h) /\
    left_ h ++ pending d = accepted h /\ mjoin (datagrams <$> emitted h) = [(server, peer, [1]); (server, peer, [2]); (server, peer, [3])].
Proof.
  destruct (udp_direct_moves_datagrams 32 40 demo_flow [reply [7]; reply [8]] 0 demo_events direct_demo_events_ok) as (d & h & Hr & Hl & _).
  exists d, h. split_and!; [exact Hr|exact Hl|]. vm_compute in Hr. injection Hr as <- <-. vm_compute. reflexivity.
Defined.

Definition held : Direct := set_replies [reply [1]; reply [2]] 1 (new 40 demo_flow [reply [7]] 0).

Lemma udp_direct_idle_is_woken_witness :
  exists d out, poll 40 waiting_io (tight 0) (tight 0) 5 held = Some (d, out, Blocked 49) /\ received d <> [].
Proof.
  eexists _, _. split; [vm_compute; reflexivity|].
  refine (proj1 (udp_direct_idle_is_woken 32 40 waiting_io (tight 0) (tight 0) 5 held _ _ (Blocked 49) waiting_io_ok _ _)); [split; vm_compute; discriminate|vm_compute; reflexivity].
Defined.

Lemma udp_reply_paths_agree_witness :
  snd (fst (flush_replies (fun _ _ => Granted) (set_replies [reply [1]; reply [2]; named; reply [3]] 0 held))) =
    [Datagrams server peer [[1]; [2]]; Datagrams server peer [[3]]].
Proof. rewrite (udp_reply_paths_agree 32 held) by (vm_compute; discriminate). vm_compute. reflexivity. Defined.

End UdpDirect.
