(* ===== verification/Worker.v ===== *)
(** * The flows of a receive worker (crates/tun/src/worker.rs)

    A worker's tables of TCP and UDP flows, with the timers, the list of flows that wait for the
    output queue, and the generations that tell a flow from an earlier one with the same
    addresses.  A connection is opaque here: its operations are the class [Connection], and what
    it answers is part of a call's environment, so the theorems hold for whatever it does.
    Decoding and the exchange between workers are in [Workers]. *)

From S2P Require Import Prelude Capacity Packet NetText Carrier UdpEncoder UdpDirect.
Import Packet NetText.

Module Worker.
Import UdpEncoder UdpDirect.

#[export] Instance Flow_eq_dec : EqDecision Flow.
Proof. solve_decision. Defined.

#[export] Instance Flow_countable : Countable Flow.
Proof. refine (inj_countable' (fun f => (source f, destination f)) (fun '(s, d) => mkFlow s d) _). by intros []. Defined.

(** The operations of [tcp::Connection] that answer at once. *)
Class Connection (C : Type) := {
  begin_turn : C -> C;
  connection_wake : C -> C;
  is_time_wait : C -> bool;
}.

(** [tcp::Progress] *)
Inductive TcpProgress := TIdle (deadline : option Z) | TAgain | TBlocked (bytes : Z) | TClosed.

(** [tcp::Ready], the identity of a flow. *)
Abbreviation Id := (Flow * Z)%type.

(** Why a worker ends. *)
Inductive failure := Panic | Exhausted | Failed.

Section worker.
Context {C : Type} `{Connection C}.
(** [size_of::<p::Packet>()] *)
Context (PACKET_SIZE : Z).

Record TcpEntry := mkTcp { connection : C; t_generation : Z; t_deadline : option Z; t_blocked : bool }.

(** [packets] holds what was put into the association's queue. *)
Record UdpEntry := mkUdp { packets : option (list Datagram); u_generation : Z; direct : option Direct; u_blocked : bool }.

(** [Statistics] without the queue's number *)
Record Statistics := mkStats {
  received_packets : Z; received_bytes : Z; forwarded_packets : Z; processed_packets : Z; capacity_drops : Z; forwarding_drops : Z
}.

(** [Worker]; [drained] is the loop's [reported_drained], [output] what went to the output queue. *)
Record t := mkWorker {
  tcp : gmap Flow TcpEntry;
  udp : gmap Flow UdpEntry;
  timers : gmap (Z * Z) Flow;
  blocked : list (Id * Z);
  generation : Z;
  stopping : bool;
  drained : bool;
  output : list Transmit;
  stats : Statistics;
}.

Definition no_stats : Statistics := mkStats 0 0 0 0 0 0.

(** The worker [dispatch] starts with. *)
Definition new : t := mkWorker ∅ ∅ ∅ [] 0 false false [] no_stats.

Definition set_tcp m w := mkWorker m (udp w) (timers w) (blocked w) (generation w) (stopping w) (drained w) (output w) (stats w).
Definition set_udp m w := mkWorker (tcp w) m (timers w) (blocked w) (generation w) (stopping w) (drained w) (output w) (stats w).
Definition set_timers m w := mkWorker (tcp w) (udp w) m (blocked w) (generation w) (stopping w) (drained w) (output w) (stats w).
Definition set_waiting l w := mkWorker (tcp w) (udp w) (timers w) l (generation w) (stopping w) (drained w) (output w) (stats w).
Definition set_generation g w := mkWorker (tcp w) (udp w) (timers w) (blocked w) g (stopping w) (drained w) (output w) (stats w).
Definition set_stopping w := mkWorker (tcp w) (udp w) (timers w) (blocked w) (generation w) true (drained w) (output w) (stats w).
Definition set_drained w := mkWorker (tcp w) (udp w) (timers w) (blocked w) (generation w) (stopping w) true (output w) (stats w).
Definition set_output l w := mkWorker (tcp w) (udp w) (timers w) (blocked w) (generation w) (stopping w) (drained w) l (stats w).
Definition set_stats x w := mkWorker (tcp w) (udp w) (timers w) (blocked w) (generation w) (stopping w) (drained w) (output w) x.

Definition count_processed w := let x := stats w in set_stats (mkStats (received_packets x) (received_bytes x) (forwarded_packets x) (processed_packets x + 1) (capacity_drops x) (forwarding_drops x)) w.
Definition count_capacity_drop w := let x := stats w in set_stats (mkStats (received_packets x) (received_bytes x) (forwarded_packets x) (processed_packets x) (capacity_drops x + 1) (forwarding_drops x)) w.

(** What a call meets with: the clock, the answers of the connections, the scopes of associations
    by generation, the transport of a direct flow with the output queue, and the room in the
    queue of an association. *)
Record env := mkEnv {
  now : Z;
  poll_tcp : bool -> C -> C * TcpProgress;
  reuse_sequence : C -> option Z;
  connect : Flow -> Z -> option Z -> option C;
  input_owned : C -> C;
  scope_open : bool;
  is_closed : Z -> bool;
  transport_io : io;
  admits : nat -> Z -> admission;
  admits_again : nat -> Z -> admission;
  room : nat -> bool;
}.

(** [self.blocked.retain(|(waiting, _)| *waiting != id)] *)
Definition retain (id : Id) (w : t) : t := set_waiting (filter (fun x => x.1 <> id) (blocked w)) w.

Definition waits (id : Id) (bytes : Z) (w : t) : t := set_waiting (blocked w ++ [(id, bytes)]) w.

(** The entries [get_mut(..).filter(|e| e.generation == ..)] finds. *)
Definition find_tcp (id : Id) (w : t) : option TcpEntry :=
  e ← tcp w !! fst id; if t_generation e =? snd id then Some e else None.
Definition find_udp (id : Id) (w : t) : option UdpEntry :=
  e ← udp w !! fst id; if u_generation e =? snd id then Some e else None.

(** [Worker::drive] for a flow with direct I/O *)
Definition drive_udp (x : env) (id : Id) (e : UdpEntry) (d : Direct) (w : t) : option t :=
  let w := if u_blocked e then retain id w else w in
  let put d b w := set_udp (<[fst id := mkUdp (packets e) (u_generation e) (Some d) b]> (udp w)) w in
  let gone w := set_udp (delete (fst id) (udp w)) w in
  if is_closed x (snd id) then Some (gone w) else
  '(d, out, progress) ← UdpDirect.poll PACKET_SIZE (transport_io x) (admits x) (admits_again x) (now x) d;
  let w := set_output (output w ++ out) w in
  Some (match progress with
        | Idle => put d false w
        | Blocked bytes => waits id bytes (put d true w)
        | Closed => gone w
        end).

(** [Worker::drive] for a connection *)
Definition drive_tcp (x : env) (id : Id) (e : TcpEntry) (w : t) : t :=
  let w := match t_deadline e with Some at_ => set_timers (delete (at_, snd id) (timers w)) w | None => w end in
  let w := if t_blocked e then retain id w else w in
  let '(c, progress) := poll_tcp x (stopping w) (begin_turn (connection e)) in
  let put c at_ b w := set_tcp (<[fst id := mkTcp c (t_generation e) at_ b]> (tcp w)) w in
  match progress with
  | TIdle deadline =>
      let w := put c deadline false w in
      match deadline with Some at_ => set_timers (<[(at_, snd id) := fst id]> (timers w)) w | None => w end
  | TAgain => put (connection_wake c) None false w
  | TBlocked bytes => waits id bytes (put c None true w)
  | TClosed => set_tcp (delete (fst id) (tcp w)) w
  end.

(** [Worker::drive] *)
Definition drive (x : env) (id : Id) (w : t) : option t :=
  let connections := Some (match find_tcp id w with Some e => drive_tcp x id e w | None => w end) in
  match find_udp id w with
  | Some e => match direct e with Some d => drive_udp x id e d w | None => connections end
  | None => connections
  end.

(** ** Packets *)

(** An entry leaves with its timer and its place in the list of waiting flows. *)
Definition remove_tcp (flow : Flow) (e : TcpEntry) (w : t) : t :=
  let w := set_tcp (delete flow (tcp w)) w in
  let w := match t_deadline e with Some at_ => set_timers (delete (at_, t_generation e) (timers w)) w | None => w end in
  if t_blocked e then retain (flow, t_generation e) w else w.

(** A connection request for a connection in TIME-WAIT: the old one is driven, and may retire. *)
Definition reuse (x : env) (flow : Flow) (syn : bool) (w : t) : option (t * option Z) :=
  match tcp w !! flow with
  | Some e =>
      if negb (stopping w) && syn && is_time_wait (connection e) then
        w ← drive x (flow, t_generation e) w;
        Some (match tcp w !! flow with
              | Some e => match reuse_sequence x (connection e) with
                          | Some sequence => (remove_tcp flow e w, Some sequence)
                          | None => (w, None)
                          end
              | None => (w, None)
              end)
      else Some (w, None)
  | None => Some (w, None)
  end.

(** The next generation; exhaustion fails. *)
Definition next_generation (w : t) : option t :=
  if generation w <? u64_max then Some (set_generation (generation w + 1) w) else None.

(** The admission of a connection: an error of its constructor, or a closed scope, ends the worker. *)
Definition admit_tcp (x : env) (flow : Flow) (sequence : option Z) (w : t) : res failure t :=
  match next_generation w with
  | None => Err Exhausted
  | Some w =>
      match connect x flow (generation w) sequence with
      | Some c => if scope_open x then Ok (set_tcp (<[flow := mkTcp c (generation w) None false]> (tcp w)) w) else Err Failed
      | None => Err Failed
      end
  end.

(** The TCP case of [Worker::packet] at the flow's owner; [syn] is a SYN without an acknowledgement.
    A segment for no connection is rejected. *)
Definition tcp_packet (x : env) (flow : Flow) (syn : bool) (w : t) : res failure t :=
  let input w := match tcp w !! flow with
                 | Some e => Ok (count_processed (set_tcp (<[flow := mkTcp (input_owned x (connection e)) (t_generation e) (t_deadline e) (t_blocked e)]> (tcp w)) w))
                 | None => Err Panic
                 end in
  match reuse x flow syn w with
  | None => Err Panic
  | Some (w, sequence) =>
      match tcp w !! flow with
      | Some _ => input w
      | None => if negb syn || stopping w then Ok w else w ← admit_tcp x flow sequence w; input w
      end
  end.

(** [payload.chunks(segment)]; an empty payload is one empty part. *)
Fixpoint chunks (fuel : nat) (segment : Z) (payload : bytes) : list bytes :=
  match fuel, payload with
  | S fuel, _ :: _ => ztake segment payload :: chunks fuel segment (zdrop segment payload)
  | _, _ => []
  end.

Definition parts (segment : Z) (payload : bytes) : list bytes :=
  match payload with [] => [[]] | _ => chunks (length payload) segment payload end.

(** The datagrams of a UDP payload, each to the direct flow or to the association's queue, which
    ends the packet when it is full.  The second component tells whether the loop ran to its end. *)
Fixpoint deliver (x : env) (flow : Flow) (i : nat) (l : list bytes) (w : t) : res failure (t * bool) :=
  match l with
  | [] => Ok (w, true)
  | b :: l =>
      let p := mkDatagram (Carrier.target (destination flow)) b in
      match udp w !! flow with
      | None => Err Panic
      | Some e =>
          match direct e, packets e with
          | Some d, _ =>
              match UdpDirect.enqueue PACKET_SIZE (transport_io x) (now x) p d with
              | None => Err Panic
              | Some (d, ok) =>
                  let w := set_udp (<[flow := mkUdp (packets e) (u_generation e) (Some d) (u_blocked e)]> (udp w)) w in
                  deliver x flow (S i) l (if ok : bool then w else count_capacity_drop w)
              end
          | None, Some q =>
              if room x i
              then deliver x flow (S i) l (set_udp (<[flow := mkUdp (Some (q ++ [p])) (u_generation e) None (u_blocked e)]> (udp w)) w)
              else Ok (count_capacity_drop w, false)
          | None, None => Err Panic
          end
      end
  end.

(** An association whose scope is closed makes room for a new one. *)
Definition retire_udp (x : env) (flow : Flow) (w : t) : t :=
  match udp w !! flow with
  | Some e =>
      if is_closed x (u_generation e) then
        let w := set_udp (delete flow (udp w)) w in
        if u_blocked e then retain (flow, u_generation e) w else w
      else w
  | None => w
  end.

Definition admit_udp (x : env) (flow : Flow) (w : t) : res failure t :=
  match udp w !! flow with
  | Some _ => Ok w
  | None =>
      match next_generation w with
      | None => Err Exhausted
      | Some w => if scope_open x then Ok (set_udp (<[flow := mkUdp (Some []) (generation w) None false]> (udp w)) w) else Err Failed
      end
  end.

(** The UDP case of [Worker::packet] at the flow's owner; [segment] is the size the device's
    offload reports.  A size of zero panics. *)
Definition udp_packet (x : env) (flow : Flow) (payload : bytes) (segment : option Z) (w : t) : res failure t :=
  if stopping w then Ok (count_processed w) else
  w ← admit_udp x flow (retire_udp x flow w);
  let size := match segment with Some n => n | None => Z.max (len payload) 1 end in
  if size =? 0 then Err Panic else
  '(w, ended) ← deliver x flow 0 (parts size payload) w;
  Ok (if ended : bool then count_processed w else w).

(** ** The dispatch loop *)

(** [timers.pop_first()]: the earliest instant, of those the smallest generation. *)
Definition earlier (a b : Z * Z) : bool := (a.1 <? b.1) || ((a.1 =? b.1) && (a.2 <? b.2)).

Fixpoint first_timer (l : list (Z * Z * Flow)) : option (Z * Z * Flow) :=
  match l with
  | [] => None
  | a :: l => match first_timer l with Some b => Some (if earlier a.1 b.1 then a else b) | None => Some a end
  end.

Definition on_timer (x : env) (w : t) : option t :=
  match first_timer (map_to_list (timers w)) with
  | Some (key, flow) => drive x (flow, key.2) (set_timers (delete key (timers w)) w)
  | None => Some w
  end.

(** The output queue has room for the flow that waits longest. *)
Definition on_writable (x : env) (w : t) : option t :=
  match blocked w with
  | (id, _) :: l =>
      let w := set_waiting l w in
      let w := match find_tcp id w with
               | Some e => set_tcp (<[fst id := mkTcp (connection e) (t_generation e) (t_deadline e) false]> (tcp w)) w
               | None => w
               end in
      let w := match find_udp id w with
               | Some e => set_udp (<[fst id := mkUdp (packets e) (u_generation e) (direct e) false]> (udp w)) w
               | None => w
               end in
      drive x id w
  | [] => Some w
  end.

(** An association's task has ended. *)
Definition on_completed (id : Id) (w : t) : t :=
  match find_udp id w with
  | Some _ => retain id (set_udp (delete (fst id) (udp w)) w)
  | None => w
  end.

(** A transfer of the association's transport to the worker. *)
Definition on_transfer (x : env) (id : Id) (incoming : list Datagram) (w : t) : t :=
  match find_udp id w with
  | Some e =>
      if is_closed x (snd id) then w
      else set_udp (<[fst id := mkUdp None (u_generation e) (Some (UdpDirect.new PACKET_SIZE (fst id) incoming (now x))) (u_blocked e)]> (udp w)) w
  | None => w
  end.

(** The server stops: associations end, connections are woken to finish. *)
Definition on_stop (w : t) : t :=
  if stopping w then w else
  let w := set_udp ∅ (set_stopping w) in
  let w := set_waiting (filter (fun x => is_Some (find_tcp x.1 w)) (blocked w)) w in
  set_tcp ((fun e => mkTcp (connection_wake (connection e)) (t_generation e) (t_deadline e) (t_blocked e)) <$> tcp w) w.

(** The top of the loop. *)
Definition report (w : t) : t :=
  if stopping w && bool_decide (tcp w = ∅) && negb (drained w) then set_drained w else w.

(** ** Runs *)

Inductive event :=
  | Drive (id : Id)
  | TcpSegment (flow : Flow) (syn : bool)
  | UdpPayload (flow : Flow) (payload : bytes) (segment : option Z)
  | Timer
  | Writable
  | Completed (id : Id)
  | Transfer (id : Id) (incoming : list Datagram)
  | Stop
  | Report.

Definition or_panic (o : option t) : res failure t := match o with Some w => Ok w | None => Err Panic end.

Definition step (w : t) (ev : env * event) : res failure t :=
  let x := fst ev in
  match snd ev with
  | Drive id => or_panic (drive x id w)
  | TcpSegment flow syn => tcp_packet x flow syn w
  | UdpPayload flow payload segment => udp_packet x flow payload segment w
  | Timer => or_panic (on_timer x w)
  | Writable => or_panic (on_writable x w)
  | Completed id => Ok (on_completed id w)
  | Transfer id incoming => Ok (on_transfer x id incoming w)
  | Stop => Ok (on_stop w)
  | Report => Ok (report w)
  end.

Fixpoint run (w : t) (evs : list (env * event)) : res failure t :=
  match evs with
  | [] => Ok w
  | ev :: evs => w ← step w ev; run w evs
  end.

(** The transport keeps its contract, and the device reports no empty segments. *)
Definition event_ok (ev : env * event) : Prop :=
  prefix_progress (transport_io (fst ev)) /\
  match snd ev with UdpPayload _ _ (Some n) => n <> 0 | _ => True end.

(** ** Well-formed tables *)

Record wf (w : t) : Prop := {
  wf_timers : forall at_ g f, timers w !! (at_, g) = Some f <-> exists e, tcp w !! f = Some e /\ t_generation e = g /\ t_deadline e = Some at_;
  wf_nodup : NoDup (fst <$> blocked w);
  wf_waiting : forall f g, (f, g) ∈ fst <$> blocked w <->
    (exists e, tcp w !! f = Some e /\ t_generation e = g /\ t_blocked e = true) \/ (exists e, udp w !! f = Some e /\ u_generation e = g /\ u_blocked e = true);
  wf_tcp_range : forall f e, tcp w !! f = Some e -> 0 < t_generation e <= generation w;
  wf_udp_range : forall f e, udp w !! f = Some e -> 0 < u_generation e <= generation w;
  wf_tcp_unique : forall f f' e e', tcp w !! f = Some e -> tcp w !! f' = Some e' -> t_generation e = t_generation e' -> f = f';
  wf_udp_unique : forall f f' e e', udp w !! f = Some e -> udp w !! f' = Some e' -> u_generation e = u_generation e' -> f = f';
  wf_apart : forall f f' e e', tcp w !! f = Some e -> udp w !! f' = Some e' -> t_generation e <> u_generation e';
  wf_transport : forall f e, udp w !! f = Some e -> packets e = None <-> direct e <> None;
  wf_stopping : stopping w = true -> udp w = ∅;
  wf_drained : drained w = true -> stopping w = true /\ tcp w = ∅;
  wf_generation : 0 <= generation w <= u64_max;
}.

Lemma new_wf : wf new.
Proof.
  constructor; cbn; try done.
  - intros at_ g f. rewrite lookup_empty. split; [done|]. intros (e & He & _). by rewrite lookup_empty in He.
  - constructor.
  - intros f g. split; [by intros ?%elem_of_nil|]. intros [(e & He & _)|(e & He & _)]; by rewrite lookup_empty in He.
Qed.

(** The timers, and the list of waiting flows, changed for one flow only. *)
Definition timers_agree (id : Id) (o : option Z) (m m' : gmap (Z * Z) Flow) : Prop :=
  forall at_ g f, m' !! (at_, g) = Some f <-> if decide ((f, g) = id) then o = Some at_ else m !! (at_, g) = Some f.

Definition waiting_agree (id : Id) (b : bool) (l l' : list (Id * Z)) : Prop :=
  NoDup (fst <$> l') /\ forall i, i ∈ fst <$> l' <-> if decide (i = id) then b = true else i ∈ fst <$> l.

Definition same_rest (w w' : t) : Prop :=
  generation w' = generation w /\ stopping w' = stopping w /\ drained w' = drained w.

Lemma put_tcp_wf w w' f e e' :
  wf w -> tcp w !! f = Some e -> t_generation e' = t_generation e -> tcp w' = <[f := e']> (tcp w) -> udp w' = udp w -> same_rest w w' ->
  timers_agree (f, t_generation e) (t_deadline e') (timers w) (timers w') -> waiting_agree (f, t_generation e) (t_blocked e') (blocked w) (blocked w') -> wf w'.
Proof.
  intros Hw He Hg Ht Hu (Hgen & Hst & Hdr) Htm [Hnd Hwt].
  assert (Hold : forall k x, tcp w' !! k = Some x -> exists y, tcp w !! k = Some y /\ t_generation y = t_generation x).
  { intros k x. rewrite Ht. destruct (decide (k = f)) as [->|]; [rewrite lookup_insert_eq; intros [= <-]; by exists e|rewrite lookup_insert_ne by done; by eauto]. }
  constructor; rewrite ?Hu, ?Hgen, ?Hst, ?Hdr; try apply Hw; try done.
  - intros at_ g k. rewrite (Htm at_ g k), Ht. case_decide as Hk.
    + injection Hk as -> ->. rewrite lookup_insert_eq. split; [by eauto|]. by intros (x & [= <-] & _ & ?).
    + rewrite (wf_timers _ Hw). destruct (decide (k = f)) as [->|]; [|by rewrite lookup_insert_ne].
      rewrite lookup_insert_eq. split; intros (x & Hx & Hxg & _); simplify_eq; congruence.
  - intros k g. rewrite (Hwt (k, g)), Ht. case_decide as Hk.
    + injection Hk as -> ->. rewrite lookup_insert_eq. split; [by eauto|]. intros [(x & [= <-] & _ & ?)|(x & Hx & Hxg & _)]; [done|].
      exfalso. by eapply (wf_apart _ Hw).
    + rewrite (wf_waiting _ Hw). destruct (decide (k = f)) as [->|]; [|by rewrite lookup_insert_ne].
      rewrite lookup_insert_eq. split; (intros [(x & Hx & Hxg & _)|?]; [|by right]); simplify_eq; congruence.
  - intros k x Hx. destruct (Hold k x Hx) as (y & Hy & <-). by apply (wf_tcp_range _ Hw) in Hy.
  - intros k k' x x' Hx Hx' Heq. destruct (Hold k x Hx) as (y & Hy & Hgy). destruct (Hold k' x' Hx') as (y' & Hy' & Hgy').
    eapply (wf_tcp_unique _ Hw); [exact Hy|exact Hy'|congruence].
  - intros k k' x x' Hx Hx' Heq. destruct (Hold k x Hx) as (y & Hy & Hgy). eapply (wf_apart _ Hw); [exact Hy|exact Hx'|congruence].
  - intros Hd. destruct (wf_drained _ Hw Hd) as [_ Hnil]. by rewrite Hnil, lookup_empty in He.
Qed.

Lemma del_tcp_wf w w' f e :
  wf w -> tcp w !! f = Some e -> tcp w' = delete f (tcp w) -> udp w' = udp w -> same_rest w w' ->
  timers_agree (f, t_generation e) None (timers w) (timers w') -> waiting_agree (f, t_generation e) false (blocked w) (blocked w') -> wf w'.
Proof.
  intros Hw He Ht Hu (Hgen & Hst & Hdr) Htm [Hnd Hwt].
  assert (Hold : forall k x, tcp w' !! k = Some x -> tcp w !! k = Some x /\ k <> f) by (intros k x; rewrite Ht; intros [? ?]%lookup_delete_Some; done).
  constructor; rewrite ?Hu, ?Hgen, ?Hst, ?Hdr; try apply Hw; try done.
  - intros at_ g k. rewrite (Htm at_ g k), Ht. case_decide as Hk.
    + injection Hk as -> ->. split; [done|]. by intros (x & [? _]%lookup_delete_Some & _).
    + rewrite (wf_timers _ Hw). split; intros (x & Hx & Hxg & Hxd).
      * exists x. split; [|done]. apply lookup_delete_Some. split; [|done]. intros ->. simplify_eq.
      * apply lookup_delete_Some in Hx as [_ Hx]. eauto.
  - intros k g. rewrite (Hwt (k, g)), Ht. case_decide as Hk.
    + injection Hk as -> ->. split; [done|]. intros [(x & [? _]%lookup_delete_Some & _)|(x & Hx & Hxg & _)]; [done|]. exfalso. by eapply (wf_apart _ Hw).
    + rewrite (wf_waiting _ Hw). split; (intros [(x & Hx & Hxg & Hxd)|?]; [|by right]); left.
      * exists x. split; [|done]. apply lookup_delete_Some. split; [|done]. intros ->. simplify_eq.
      * apply lookup_delete_Some in Hx as [_ Hx]. eauto.
  - intros k x [Hx _]%Hold. by apply (wf_tcp_range _ Hw) in Hx.
  - intros k k' x x' [Hx _]%Hold [Hx' _]%Hold. by apply (wf_tcp_unique _ Hw).
  - intros k k' x x' [Hx _]%Hold Hx'. by eapply (wf_apart _ Hw).
  - intros Hd. destruct (wf_drained _ Hw Hd) as [? Hnil]. by rewrite Hnil, lookup_empty in He.
Qed.

Lemma put_udp_wf w w' f e e' :
  wf w -> udp w !! f = Some e -> u_generation e' = u_generation e -> (packets e' = None <-> direct e' <> None) -> udp w' = <[f := e']> (udp w) -> tcp w' = tcp w -> timers w' = timers w ->
  same_rest w w' -> waiting_agree (f, u_generation e) (u_blocked e') (blocked w) (blocked w') -> wf w'.
Proof.
  intros Hw He Hg Hp Hu Ht Htm (Hgen & Hst & Hdr) [Hnd Hwt].
  assert (Hold : forall k x, udp w' !! k = Some x -> exists y, udp w !! k = Some y /\ u_generation y = u_generation x).
  { intros k x. rewrite Hu. destruct (decide (k = f)) as [->|]; [rewrite lookup_insert_eq; intros [= <-]; by exists e|rewrite lookup_insert_ne by done; by eauto]. }
  constructor; rewrite ?Ht, ?Htm, ?Hgen, ?Hst, ?Hdr; try apply Hw; try done.
  - intros k g. rewrite (Hwt (k, g)), Hu. case_decide as Hk.
    + injection Hk as -> ->. rewrite lookup_insert_eq. split; [by eauto|]. intros [(x & Hx & Hxg & _)|(x & [= <-] & _ & ?)]; [|done].
      exfalso. by eapply (wf_apart _ Hw).
    + rewrite (wf_waiting _ Hw). destruct (decide (k = f)) as [->|]; [|by rewrite lookup_insert_ne].
      rewrite lookup_insert_eq. split; (intros [?|(x & Hx & Hxg & _)]; [by left|]); simplify_eq; congruence.
  - intros k x Hx. destruct (Hold k x Hx) as (y & Hy & <-). by apply (wf_udp_range _ Hw) in Hy.
  - intros k k' x x' Hx Hx' Heq. destruct (Hold k x Hx) as (y & Hy & Hgy). destruct (Hold k' x' Hx') as (y' & Hy' & Hgy').
    eapply (wf_udp_unique _ Hw); [exact Hy|exact Hy'|congruence].
  - intros k k' x x' Hx Hx' Heq. destruct (Hold k' x' Hx') as (y & Hy & Hgy). eapply (wf_apart _ Hw); [exact Hx|exact Hy|congruence].
  - intros k x. rewrite Hu. destruct (decide (k = f)) as [->|]; [rewrite lookup_insert_eq; by intros [= <-]|rewrite lookup_insert_ne by done; apply Hw].
  - intros Hs. by rewrite (wf_stopping _ Hw Hs), lookup_empty in He.
Qed.

Lemma del_udp_wf w w' f e :
  wf w -> udp w !! f = Some e -> udp w' = delete f (udp w) -> tcp w' = tcp w -> timers w' = timers w -> same_rest w w' ->
  waiting_agree (f, u_generation e) false (blocked w) (blocked w') -> wf w'.
Proof.
  intros Hw He Hu Ht Htm (Hgen & Hst & Hdr) [Hnd Hwt].
  assert (Hold : forall k x, udp w' !! k = Some x -> udp w !! k = Some x /\ k <> f) by (intros k x; rewrite Hu; intros [? ?]%lookup_delete_Some; done).
  constructor; rewrite ?Ht, ?Htm, ?Hgen, ?Hst, ?Hdr; try apply Hw; try done.
  - intros k g. rewrite (Hwt (k, g)), Hu. case_decide as Hk.
    + injection Hk as -> ->. split; [done|]. intros [(x & Hx & Hxg & _)|(x & [? _]%lookup_delete_Some & _)]; [|done]. exfalso. by eapply (wf_apart _ Hw).
    + rewrite (wf_waiting _ Hw). split; (intros [?|(x & Hx & Hxg & Hxd)]; [by left|]); right.
      * exists x. split; [|done]. apply lookup_delete_Some. split; [|done]. intros ->. simplify_eq.
      * apply lookup_delete_Some in Hx as [_ Hx]. eauto.
  - intros k x [Hx _]%Hold. by apply (wf_udp_range _ Hw) in Hx.
  - intros k k' x x' [Hx _]%Hold [Hx' _]%Hold. by apply (wf_udp_unique _ Hw).
  - intros k k' x x' Hx [Hx' _]%Hold. by eapply (wf_apart _ Hw).
  - intros k x [Hx _]%Hold. by eapply (wf_transport _ Hw).
  - intros Hs. by rewrite (wf_stopping _ Hw Hs), lookup_empty in He.
Qed.

(** A new flow has a generation of its own. *)
Lemma add_tcp_wf w w' f c :
  wf w -> tcp w !! f = None -> stopping w = false -> generation w < u64_max ->
  w' = set_tcp (<[f := mkTcp c (generation w + 1) None false]> (tcp w)) (set_generation (generation w + 1) w) -> wf w'.
Proof.
  intros Hw Hf Hst Hlt ->. set (e := mkTcp c (generation w + 1) None false).
  assert (Hcase : forall k x, <[f := e]> (tcp w) !! k = Some x -> k = f /\ x = e \/ k <> f /\ tcp w !! k = Some x).
  { intros k x. destruct (decide (k = f)) as [->|]; [rewrite lookup_insert_eq; intros [= <-]; by left|rewrite lookup_insert_ne by done; by right]. }
  constructor; cbn; try apply Hw.
  - intros at_ g k. rewrite (wf_timers _ Hw). split; intros (x & Hx & Hxg & Hxd).
    + exists x. rewrite lookup_insert_ne by congruence. done.
    + apply Hcase in Hx as [[-> ->]|[_ ?]]; [done|eauto].
  - intros k g. rewrite (wf_waiting _ Hw). split; (intros [(x & Hx & Hxg & Hxd)|?]; [|by right]); left.
    + exists x. rewrite lookup_insert_ne by congruence. done.
    + apply Hcase in Hx as [[-> ->]|[_ ?]]; [done|eauto].
  - intros k x [[-> ->]|[_ Hx]]%Hcase; cbn; [pose proof (wf_generation _ Hw); lia|]. apply (wf_tcp_range _ Hw) in Hx. lia.
  - intros k x Hx. apply (wf_udp_range _ Hw) in Hx. lia.
  - intros k k' x x' [[-> ->]|[_ Hx]]%Hcase [[-> ->]|[_ Hx']]%Hcase Heq; cbn in Heq; try done.
    + apply (wf_tcp_range _ Hw) in Hx'. lia.
    + apply (wf_tcp_range _ Hw) in Hx. lia.
    + by eapply (wf_tcp_unique _ Hw).
  - intros k k' x x' [[-> ->]|[_ Hx]]%Hcase Hx' Heq; cbn in Heq; [apply (wf_udp_range _ Hw) in Hx'; lia|by eapply (wf_apart _ Hw)].
  - intros Hd. destruct (wf_drained _ Hw Hd). congruence.
  - pose proof (wf_generation _ Hw). lia.
Qed.

Lemma add_udp_wf w w' f :
  wf w -> udp w !! f = None -> stopping w = false -> generation w < u64_max ->
  w' = set_udp (<[f := mkUdp (Some []) (generation w + 1) None false]> (udp w)) (set_generation (generation w + 1) w) -> wf w'.
Proof.
  intros Hw Hf Hst Hlt ->. set (e := mkUdp (Some []) (generation w + 1) None false).
  assert (Hcase : forall k x, <[f := e]> (udp w) !! k = Some x -> k = f /\ x = e \/ k <> f /\ udp w !! k = Some x).
  { intros k x. destruct (decide (k = f)) as [->|]; [rewrite lookup_insert_eq; intros [= <-]; by left|rewrite lookup_insert_ne by done; by right]. }
  constructor; cbn; try apply Hw.
  - intros k g. rewrite (wf_waiting _ Hw). split; (intros [?|(x & Hx & Hxg & Hxd)]; [by left|]); right.
    + exists x. rewrite lookup_insert_ne by congruence. done.
    + apply Hcase in Hx as [[-> ->]|[_ ?]]; [done|eauto].
  - intros k x Hx. apply (wf_tcp_range _ Hw) in Hx. lia.
  - intros k x [[-> ->]|[_ Hx]]%Hcase; cbn; [pose proof (wf_generation _ Hw); lia|]. apply (wf_udp_range _ Hw) in Hx. lia.
  - intros k k' x x' [[-> ->]|[_ Hx]]%Hcase [[-> ->]|[_ Hx']]%Hcase Heq; cbn in Heq; try done.
    + apply (wf_udp_range _ Hw) in Hx'. lia.
    + apply (wf_udp_range _ Hw) in Hx. lia.
    + by eapply (wf_udp_unique _ Hw).
  - intros k k' x x' Hx [[-> ->]|[_ Hx']]%Hcase Heq; cbn in Heq; [apply (wf_tcp_range _ Hw) in Hx; lia|by eapply (wf_apart _ Hw)].
  - intros k x [[-> ->]|[_ Hx]]%Hcase; [done|by eapply (wf_transport _ Hw)].
  - congruence.
  - pose proof (wf_generation _ Hw). lia.
Qed.

(** ** Steps *)

Lemma find_tcp_Some id w e : find_tcp id w = Some e <-> tcp w !! fst id = Some e /\ t_generation e = snd id.
Proof. unfold find_tcp. destruct (tcp w !! fst id) as [y|]; cbn; [case_bool; naive_solver|naive_solver]. Qed.

Lemma find_udp_Some id w e : find_udp id w = Some e <-> udp w !! fst id = Some e /\ u_generation e = snd id.
Proof. unfold find_udp. destruct (udp w !! fst id) as [y|]; cbn; [case_bool; naive_solver|naive_solver]. Qed.

(** The timers without that of an entry. *)
Definition cleared (e : TcpEntry) (w : t) : gmap (Z * Z) Flow :=
  match t_deadline e with Some at_ => delete (at_, t_generation e) (timers w) | None => timers w end.

Lemma timers_cleared w f e : wf w -> tcp w !! f = Some e -> timers_agree (f, t_generation e) None (timers w) (cleared e w).
Proof.
  intros Hw He at_ g k. unfold cleared.
  assert (Hown : timers w !! (at_, t_generation e) = Some k -> k = f /\ t_deadline e = Some at_).
  { intros (y & Hy & Hyg & Hyd)%(wf_timers _ Hw). assert (k = f) as -> by (by eapply (wf_tcp_unique _ Hw)). by simplify_eq. }
  destruct (t_deadline e) as [at'|] eqn:Hd.
  - rewrite lookup_delete_Some. case_decide as Hk; [injection Hk as -> ->; split; [|done]; intros [Hne Hl]; destruct (Hown Hl) as [_ [= ->]]; done|].
    split; [by intros [_ ?]|]. intros Hl. split; [|done]. intros [= -> <-]. destruct (Hown Hl). congruence.
  - case_decide as Hk; [|done]. injection Hk as -> ->. split; [|done]. intros Hl. by destruct (Hown Hl).
Qed.

Lemma timers_set w f e at_ :
  wf w -> tcp w !! f = Some e -> timers_agree (f, t_generation e) (Some at_) (timers w) (<[(at_, t_generation e) := f]> (cleared e w)).
Proof.
  intros Hw He a g k. pose proof (timers_cleared w f e Hw He a g k) as Hc.
  destruct (decide ((a, g) = (at_, t_generation e))) as [[= -> ->]|Hne].
  - rewrite lookup_insert_eq. case_decide as Hk; [injection Hk as ->; done|]. split; [intros [= ->]; done|].
    intros (y & Hy & Hyg & _)%(wf_timers _ Hw). exfalso. apply Hk. f_equal. by eapply (wf_tcp_unique _ Hw).
  - rewrite lookup_insert_ne by done. rewrite Hc. case_decide as Hk; [|done]. injection Hk as -> ->. split; [done|]. intros [= ->]. done.
Qed.

Lemma waiting_kept id b l l' : waiting_agree id b l l' -> forall i, i <> id -> i ∈ fst <$> l' <-> i ∈ fst <$> l.
Proof. intros [_ Hw] i Hi. rewrite (Hw i). by rewrite decide_False. Qed.

Lemma in_retained id (l : list (Id * Z)) i : i ∈ fst <$> filter (fun x : Id * Z => x.1 <> id) l <-> i <> id /\ i ∈ fst <$> l.
Proof.
  rewrite !list_elem_of_fmap. split.
  - intros (y & -> & [Hy Hin]%list_elem_of_filter). eauto.
  - intros [Hi (y & -> & Hin)]. exists y. split; [done|]. by apply list_elem_of_filter.
Qed.

Lemma nodup_retained (P : Id * Z -> Prop) `{!forall x, Decision (P x)} (l : list (Id * Z)) : NoDup (fst <$> l) -> NoDup (fst <$> filter P l).
Proof. intros Hl. eapply sublist_NoDup; [exact Hl|]. apply fmap_sublist, sublist_filter. Qed.

Lemma waiting_retained id b (l : list (Id * Z)) : NoDup (fst <$> l) -> (b = false -> ~ id ∈ fst <$> l) -> waiting_agree id false l (if b : bool then filter (fun x => x.1 <> id) l else l).
Proof.
  intros Hnd Hb. split; [destruct b; [by apply nodup_retained|done]|]. intros i. destruct b.
  - rewrite in_retained. case_decide; naive_solver.
  - case_decide as Hi; [subst i|done]. split; [|done]. intros Hin. by destruct (Hb eq_refl).
Qed.

Lemma waiting_pushed id n l l' : waiting_agree id false l l' -> waiting_agree id true l (l' ++ [(id, n)]).
Proof.
  intros [Hnd Hw]. assert (Hno : ~ id ∈ fst <$> l') by (rewrite (Hw id), decide_True by done; done). split.
  - rewrite fmap_app. apply NoDup_app. split_and!; [done| |apply NoDup_singleton]. intros i Hi ->%list_elem_of_singleton. done.
  - intros i. rewrite fmap_app, elem_of_app, (Hw i). cbn. rewrite list_elem_of_singleton. case_decide; naive_solver.
Qed.

Lemma waiting_same id (l : list (Id * Z)) b : NoDup (fst <$> l) -> (id ∈ fst <$> l <-> b = true) -> waiting_agree id b l l.
Proof. intros Hnd Hb. split; [done|]. intros i. case_decide as Hi; [by subst|done]. Qed.

Lemma tcp_waits w f e : wf w -> tcp w !! f = Some e -> (f, t_generation e) ∈ fst <$> blocked w <-> t_blocked e = true.
Proof.
  intros Hw He. rewrite (wf_waiting _ Hw). split; [|eauto]. intros [(y & Hy & _ & Hb)|(y & Hy & Hg & _)]; [congruence|].
  exfalso. by eapply (wf_apart _ Hw).
Qed.

Lemma udp_waits w f e : wf w -> udp w !! f = Some e -> (f, u_generation e) ∈ fst <$> blocked w <-> u_blocked e = true.
Proof.
  intros Hw He. rewrite (wf_waiting _ Hw). split; [|eauto]. intros [(y & Hy & Hg & _)|(y & Hy & _ & Hb)]; [|congruence].
  exfalso. by eapply (wf_apart _ Hw).
Qed.

Lemma tcp_retained w f e : wf w -> tcp w !! f = Some e ->
  waiting_agree (f, t_generation e) false (blocked w) (if t_blocked e then filter (fun x => x.1 <> (f, t_generation e)) (blocked w) else blocked w).
Proof. intros Hw He. apply waiting_retained; [apply Hw|]. intros Hb. rewrite (tcp_waits w f e Hw He). congruence. Qed.

Lemma udp_retained w f e : wf w -> udp w !! f = Some e ->
  waiting_agree (f, u_generation e) false (blocked w) (if u_blocked e then filter (fun x => x.1 <> (f, u_generation e)) (blocked w) else blocked w).
Proof. intros Hw He. apply waiting_retained; [apply Hw|]. intros Hb. rewrite (udp_waits w f e Hw He). congruence. Qed.

(** The state a connection is polled in. *)
Definition disarmed (f : Flow) (e : TcpEntry) (w : t) : t :=
  let w := set_timers (cleared e w) w in if t_blocked e then retain (f, t_generation e) w else w.

Lemma disarmed_spec f e w :
  tcp (disarmed f e w) = tcp w /\ udp (disarmed f e w) = udp w /\ timers (disarmed f e w) = cleared e w /\ same_rest w (disarmed f e w) /\
  blocked (disarmed f e w) = if t_blocked e then filter (fun x => x.1 <> (f, t_generation e)) (blocked w) else blocked w.
Proof. unfold disarmed, retain. by destruct (t_blocked e). Qed.

Lemma drive_tcp_disarmed x id e w :
  t_generation e = snd id ->
  drive_tcp x id e w =
  let w := disarmed (fst id) e w in
  let '(c, progress) := poll_tcp x (stopping w) (begin_turn (connection e)) in
  let put c at_ b w := set_tcp (<[fst id := mkTcp c (t_generation e) at_ b]> (tcp w)) w in
  match progress with
  | TIdle deadline => let w := put c deadline false w in
      match deadline with Some at_ => set_timers (<[(at_, snd id) := fst id]> (timers w)) w | None => w end
  | TAgain => put (connection_wake c) None false w
  | TBlocked bytes => waits id bytes (put c None true w)
  | TClosed => set_tcp (delete (fst id) (tcp w)) w
  end.
Proof. intros Hg. unfold drive_tcp, disarmed, cleared. rewrite Hg. destruct id as [f g]. cbn. by destruct (t_deadline e), w. Qed.

Lemma drive_tcp_wf x id e w : wf w -> find_tcp id w = Some e -> wf (drive_tcp x id e w).
Proof.
  intros Hw [He Hg]%find_tcp_Some. rewrite drive_tcp_disarmed by done. destruct (disarmed_spec (fst id) e w) as (Ht & Hu & Htm & (Hg' & Hs' & Hd') & Hbl).
  pose proof (tcp_retained w (fst id) e Hw He) as Hret. rewrite <- Hbl in Hret. pose proof (timers_cleared w (fst id) e Hw He) as Hcl. rewrite <- Htm in Hcl.
  set (w1 := disarmed (fst id) e w) in *. cbn zeta. destruct (poll_tcp x (stopping w1) (begin_turn (connection e))) as [c progress].
  destruct progress as [[at_|]| |bytes|].
  - apply (put_tcp_wf w _ (fst id) e (mkTcp c (t_generation e) (Some at_) false)); cbn; try done; [by rewrite Ht|]. rewrite Htm, <- Hg. by apply timers_set.
  - apply (put_tcp_wf w _ (fst id) e (mkTcp c (t_generation e) None false)); cbn; try done. by rewrite Ht.
  - apply (put_tcp_wf w _ (fst id) e (mkTcp (connection_wake c) (t_generation e) None false)); cbn; try done. by rewrite Ht.
  - apply (put_tcp_wf w _ (fst id) e (mkTcp c (t_generation e) None true)); cbn; try done; [by rewrite Ht|]. destruct id as [f g]. cbn in *. subst g. by apply waiting_pushed.
  - apply (del_tcp_wf w _ (fst id) e); cbn; try done. by rewrite Ht.
Qed.

(** How the tables change: a flow keeps its generation, or is new with a later one. *)
Record evolves (Pt Pu : Flow -> Prop) (w w' : t) : Prop := {
  ev_generation : generation w <= generation w';
  ev_tcp : forall f e', tcp w' !! f = Some e' -> (exists e, tcp w !! f = Some e /\ t_generation e = t_generation e') \/ Pt f /\ generation w < t_generation e';
  ev_udp : forall f e', udp w' !! f = Some e' -> (exists e, udp w !! f = Some e /\ u_generation e = u_generation e') \/ Pu f /\ generation w < u_generation e';
}.

Definition good (Pt Pu : Flow -> Prop) (w w' : t) : Prop := wf w' /\ evolves Pt Pu w w'.

Lemma evolves_refl Pt Pu w : evolves Pt Pu w w.
Proof. constructor; [lia|eauto..]. Qed.

Lemma evolves_trans Pt Pu w w1 w2 : evolves Pt Pu w w1 -> evolves Pt Pu w1 w2 -> evolves Pt Pu w w2.
Proof.
  intros [Hg1 Ht1 Hu1] [Hg2 Ht2 Hu2]. constructor; [lia| |].
  - intros f e He. destruct (Ht2 f e He) as [(y & Hy & <-)|[? ?]]; [|right; split; [done|lia]]. by apply Ht1.
  - intros f e He. destruct (Hu2 f e He) as [(y & Hy & <-)|[? ?]]; [|right; split; [done|lia]]. by apply Hu1.
Qed.

Lemma evolves_equal Pt Pu w w' : tcp w' = tcp w -> udp w' = udp w -> generation w' = generation w -> evolves Pt Pu w w'.
Proof. intros Ht Hu Hg. constructor; rewrite ?Ht, ?Hu, ?Hg; [lia|eauto..]. Qed.

Lemma evolves_put_tcp Pt Pu w w' f e e' :
  tcp w !! f = Some e -> tcp w' = <[f := e']> (tcp w) -> t_generation e' = t_generation e -> udp w' = udp w -> generation w' = generation w -> evolves Pt Pu w w'.
Proof.
  intros He Ht Heq Hu Hg. constructor; rewrite ?Hu, ?Hg; [lia| |eauto]. intros k x. rewrite Ht. destruct (decide (k = f)) as [->|].
  - rewrite lookup_insert_eq. intros [= <-]. eauto.
  - rewrite lookup_insert_ne by done. eauto.
Qed.

Lemma evolves_put_udp Pt Pu w w' f e e' :
  udp w !! f = Some e -> udp w' = <[f := e']> (udp w) -> u_generation e' = u_generation e -> tcp w' = tcp w -> generation w' = generation w -> evolves Pt Pu w w'.
Proof.
  intros He Hu Heq Ht Hg. constructor; rewrite ?Ht, ?Hg; [lia|eauto|]. intros k x. rewrite Hu. destruct (decide (k = f)) as [->|].
  - rewrite lookup_insert_eq. intros [= <-]. eauto.
  - rewrite lookup_insert_ne by done. eauto.
Qed.

Lemma evolves_del Pt Pu w w' : tcp w' ⊆ tcp w -> udp w' ⊆ udp w -> generation w' = generation w -> evolves Pt Pu w w'.
Proof.
  intros Ht Hu Hg. constructor; rewrite ?Hg; [lia| |]; intros f e He; left; exists e; split; try done; by eapply lookup_weaken.
Qed.

Lemma drive_tcp_good Pt Pu x id e w : wf w -> find_tcp id w = Some e -> good Pt Pu w (drive_tcp x id e w).
Proof.
  intros Hw Hf. split; [by apply drive_tcp_wf|]. apply find_tcp_Some in Hf as [He Hg]. rewrite drive_tcp_disarmed by done.
  destruct (disarmed_spec (fst id) e w) as (Ht & Hu & Htm & (Hg' & Hs' & Hd') & _). set (w1 := disarmed (fst id) e w) in *. cbn zeta.
  destruct (poll_tcp x (stopping w1) (begin_turn (connection e))) as [c progress]. destruct progress as [[at_|]| |bytes|].
  5: { apply evolves_del; cbn; rewrite ?Ht, ?Hu; try done. apply delete_subseteq. }
  all: eapply (evolves_put_tcp _ _ w _ (fst id) e); cbn; rewrite ?Ht; done.
Qed.

Lemma poll_total x admits again now d : prefix_progress x -> exists r, UdpDirect.poll PACKET_SIZE x admits again now d = Some r.
Proof.
  intros Hx. unfold UdpDirect.poll. destruct (flush_requests_spec PACKET_SIZE x now (set_queued false (ready d) d) Hx) as (d1 & -> & _). cbn [mbind option_bind].
  destruct (flush_replies admits d1) as [[d2 out] []]; [|by eexists..]. destruct (on_recv x) as [|[|p l]|]; [by eexists..| |by eexists].
  destruct (flush_replies again _) as [[d3 more] pr]. by eexists.
Qed.

Lemma drive_udp_good Pt Pu x id e d w :
  wf w -> prefix_progress (transport_io x) -> find_udp id w = Some e -> direct e = Some d -> exists w', drive_udp x id e d w = Some w' /\ good Pt Pu w w'.
Proof.
  intros Hw Hx [He Hg]%find_udp_Some Hd. unfold drive_udp.
  assert (Hdisarm : exists w1, (if u_blocked e then retain id w else w) = w1 /\ tcp w1 = tcp w /\ udp w1 = udp w /\ timers w1 = timers w /\ same_rest w w1 /\
    waiting_agree (fst id, u_generation e) false (blocked w) (blocked w1)).
  { pose proof (udp_retained w (fst id) e Hw He) as Hr. rewrite Hg in Hr |- *. destruct id as [f g]. cbn in *. destruct (u_blocked e); eexists; (split; [done|]); done. }
  destruct Hdisarm as (w1 & -> & Ht & Hu & Htm & (Hg1 & Hs1 & Hd1) & Hwt).
  assert (Hput : forall d' out, good Pt Pu w (set_udp (<[fst id := mkUdp (packets e) (u_generation e) (Some d') false]> (udp w1)) (set_output out w1))).
  { intros d' out. split.
    - apply (put_udp_wf w _ (fst id) e (mkUdp (packets e) (u_generation e) (Some d') false)); cbn; try done; [|by rewrite Hu].
      rewrite (wf_transport _ Hw _ _ He), Hd. done.
    - eapply (evolves_put_udp _ _ w _ (fst id) e); cbn; rewrite ?Hu; done. }
  assert (Hgone : forall out, good Pt Pu w (set_udp (delete (fst id) (udp w1)) (set_output out w1))).
  { intros out. split; [apply (del_udp_wf w _ (fst id) e); cbn; try done; by rewrite Hu|]. apply evolves_del; cbn; rewrite ?Ht, ?Hu; try done. apply delete_subseteq. }
  destruct (is_closed x (snd id)).
  { eexists. split; [done|]. specialize (Hgone (output w1)). by destruct w1. }
  destruct (poll_total _ (admits x) (admits_again x) (now x) d Hx) as [[[d' out] progress] ->]. cbn [mbind option_bind]. eexists. split; [done|].
  destruct progress as [|bytes|]; [apply Hput| |apply Hgone]. split.
  - apply (put_udp_wf w _ (fst id) e (mkUdp (packets e) (u_generation e) (Some d') true)); cbn; try done; [|by rewrite Hu|].
    + rewrite (wf_transport _ Hw _ _ He), Hd. done.
    + destruct id as [f g]. cbn in *. subst g. by apply waiting_pushed.
  - eapply (evolves_put_udp _ _ w _ (fst id) e); cbn; rewrite ?Hu; done.
Qed.

Lemma drive_good Pt Pu x id w : wf w -> prefix_progress (transport_io x) -> exists w', drive x id w = Some w' /\ good Pt Pu w w'.
Proof.
  intros Hw Hx. unfold drive.
  assert (Hconn : exists w', Some (match find_tcp id w with Some e => drive_tcp x id e w | None => w end) = Some w' /\ good Pt Pu w w').
  { eexists. split; [done|]. destruct (find_tcp id w) as [e|] eqn:He; [by apply drive_tcp_good|]. split; [done|apply evolves_refl]. }
  destruct (find_udp id w) as [e|] eqn:He; [|done]. destruct (direct e) as [d|] eqn:Hd; [|done]. by apply drive_udp_good.
Qed.

Lemma good_trans Pt Pu w w1 w2 : good Pt Pu w w1 -> good Pt Pu w1 w2 -> good Pt Pu w w2.
Proof. intros [_ H1] [Hw H2]. split; [done|by eapply evolves_trans]. Qed.

Lemma good_refl Pt Pu w : wf w -> good Pt Pu w w.
Proof. intros Hw. split; [done|apply evolves_refl]. Qed.

(** Counters do not matter. *)
Lemma wf_stats w x : wf (set_stats x w) <-> wf w.
Proof. split; intros []; by constructor. Qed.

Lemma good_stats Pt Pu w w' x : good Pt Pu w w' -> good Pt Pu w (set_stats x w').
Proof. intros [Hw []]. split; [by apply wf_stats|by constructor]. Qed.

Lemma remove_tcp_good Pt Pu w f e : wf w -> tcp w !! f = Some e -> good Pt Pu w (remove_tcp f e w).
Proof.
  intros Hw He. pose proof (tcp_retained w f e Hw He) as Hr. pose proof (timers_cleared w f e Hw He) as Hc.
  assert (Hrm : exists w1, remove_tcp f e w = w1 /\ tcp w1 = delete f (tcp w) /\ udp w1 = udp w /\ timers w1 = cleared e w /\ same_rest w w1 /\
    blocked w1 = if t_blocked e then filter (fun x => x.1 <> (f, t_generation e)) (blocked w) else blocked w).
  { eexists. split; [done|]. unfold remove_tcp, cleared. by destruct (t_deadline e), (t_blocked e). }
  destruct Hrm as (w1 & -> & Ht & Hu & Htm & (Hg & Hs & Hd) & Hb). split.
  - apply (del_tcp_wf w _ f e); try done; [by rewrite Htm|by rewrite Hb].
  - apply evolves_del; rewrite ?Ht, ?Hu; try done. apply delete_subseteq.
Qed.

Lemma drive_tcp_stopping x id e w : t_generation e = snd id -> stopping (drive_tcp x id e w) = stopping w.
Proof.
  intros Hg. rewrite drive_tcp_disarmed by done. destruct (disarmed_spec (fst id) e w) as (_ & _ & _ & (_ & <- & _) & _).
  set (w1 := disarmed (fst id) e w). cbn zeta. destruct (poll_tcp x (stopping w1) _) as [c [[]| | |]]; done.
Qed.

Lemma drive_udp_stopping x id e d w w' : drive_udp x id e d w = Some w' -> stopping w' = stopping w.
Proof.
  unfold drive_udp. assert (Hs : stopping (if u_blocked e then retain id w else w) = stopping w) by (by destruct (u_blocked e)).
  set (w1 := if u_blocked e then retain id w else w) in *. clearbody w1. destruct (is_closed x id.2); [by intros [= <-]|].
  destruct (UdpDirect.poll _ _ _ _ _ d) as [[[d' out] []]|]; cbn; intros [= <-]; done.
Qed.

Lemma drive_stopping x id w w' : drive x id w = Some w' -> stopping w' = stopping w.
Proof.
  unfold drive. set (connections := Some _). assert (Hc : connections = Some w' -> stopping w' = stopping w).
  { subst connections. intros [= <-]. destruct (find_tcp id w) as [e|] eqn:He; [|done]. apply find_tcp_Some in He as [_ He]. by apply drive_tcp_stopping. }
  destruct (find_udp id w) as [e|]; [|done]. destruct (direct e) as [d|]; [apply drive_udp_stopping|done].
Qed.

Lemma reuse_good Pt Pu x flow syn w :
  wf w -> prefix_progress (transport_io x) -> exists w' seq, reuse x flow syn w = Some (w', seq) /\ good Pt Pu w w' /\ stopping w' = stopping w.
Proof.
  intros Hw Hx. unfold reuse. destruct (tcp w !! flow) as [e|]; [|eexists _, _; split; [done|]; split; [by apply good_refl|done]].
  destruct (negb (stopping w) && syn && is_time_wait (connection e)); [|eexists _, _; split; [done|]; split; [by apply good_refl|done]].
  destruct (drive_good Pt Pu x (flow, t_generation e) w Hw Hx) as (w1 & Hd & Hgood). rewrite Hd. cbn [mbind option_bind]. pose proof (drive_stopping _ _ _ _ Hd) as Hst.
  destruct (tcp w1 !! flow) as [e1|] eqn:He1; [|by eexists _, _].
  destruct (reuse_sequence x (connection e1)); [|by eexists _, _]. eexists _, _. split; [done|]. split.
  - eapply good_trans; [exact Hgood|]. apply remove_tcp_good; [apply Hgood|done].
  - unfold remove_tcp, retain. by destruct (t_deadline e1), (t_blocked e1).
Qed.

Lemma input_good Pt Pu w f e c :
  wf w -> tcp w !! f = Some e -> good Pt Pu w (count_processed (set_tcp (<[f := mkTcp c (t_generation e) (t_deadline e) (t_blocked e)]> (tcp w)) w)).
Proof.
  intros Hw He. apply good_stats. split.
  - apply (put_tcp_wf w _ f e (mkTcp c (t_generation e) (t_deadline e) (t_blocked e))); cbn; try done.
    + intros at_ g k. cbn. case_decide as Hk; [|done]. injection Hk as -> ->. rewrite (wf_timers _ Hw). split; [|eauto]. intros (y & Hy & _ & ?). congruence.
    + apply waiting_same; [apply Hw|]. by apply tcp_waits.
  - by eapply (evolves_put_tcp _ _ w _ f e).
Qed.

Lemma admit_tcp_good (Pt Pu : Flow -> Prop) x flow seq w w' :
  wf w -> tcp w !! flow = None -> stopping w = false -> Pt flow -> admit_tcp x flow seq w = Ok w' -> good Pt Pu w w' /\ is_Some (tcp w' !! flow).
Proof.
  intros Hw Hf Hs Hp. unfold admit_tcp, next_generation. destruct (generation w <? u64_max) eqn:Hlt; [|done]. zify_bool.
  cbn [generation set_generation]. destruct (connect x flow (generation w + 1) seq) as [c|]; [|done]. destruct (scope_open x); [|done]. intros [= <-].
  split; [split|cbn; rewrite lookup_insert_eq; by eexists].
  - by eapply add_tcp_wf.
  - constructor; cbn; [lia| |eauto]. intros k y. destruct (decide (k = flow)) as [->|]; [rewrite lookup_insert_eq; intros [= <-]; right; cbn; split; [done|lia]|].
    rewrite lookup_insert_ne by done. eauto.
Qed.

Lemma tcp_packet_good x flow syn w :
  wf w -> prefix_progress (transport_io x) ->
  match tcp_packet x flow syn w with Ok w' => good (eq flow) (fun _ => False) w w' | Err e => e <> Panic end.
Proof.
  intros Hw Hx. unfold tcp_packet. destruct (reuse_good (eq flow) (fun _ => False) x flow syn w Hw Hx) as (w1 & seq & -> & Hg1 & Hs1).
  pose proof Hg1 as [Hw1 _]. destruct (tcp w1 !! flow) as [e|] eqn:He.
  { eapply good_trans; [exact Hg1|]. by apply input_good. }
  destruct (negb syn || stopping w1) eqn:Hb; [done|].
  destruct (admit_tcp x flow seq w1) as [w2|err] eqn:Ha; cbn.
  - apply (admit_tcp_good (eq flow) (fun _ => False)) in Ha as [Hg2 [e2 He2]]; [|done|done|by destruct (stopping w1), syn|done]. rewrite He2.
    eapply good_trans; [exact Hg1|]. eapply good_trans; [exact Hg2|]. apply input_good; [apply Hg2|done].
  - unfold admit_tcp in Ha. destruct (next_generation w1); [|by injection Ha as <-]. destruct (connect x flow _ seq); [|by injection Ha as <-]. destruct (scope_open x); [done|by injection Ha as <-].
Qed.

(** ** Associations *)

Lemma retire_udp_good Pt Pu x flow w : wf w -> good Pt Pu w (retire_udp x flow w) /\ stopping (retire_udp x flow w) = stopping w.
Proof.
  intros Hw. unfold retire_udp. destruct (udp w !! flow) as [e|] eqn:He; [|split; [by apply good_refl|done]].
  destruct (is_closed x (u_generation e)); [|split; [by apply good_refl|done]]. pose proof (udp_retained w flow e Hw He) as Hr.
  split; [|by destruct (u_blocked e)]. split.
  - apply (del_udp_wf w _ flow e); try done; by destruct (u_blocked e).
  - apply evolves_del; destruct (u_blocked e); cbn; try done; apply delete_subseteq.
Qed.

Lemma admit_udp_good (Pt Pu : Flow -> Prop) x flow w :
  wf w -> stopping w = false -> Pu flow ->
  match admit_udp x flow w with Ok w' => good Pt Pu w w' /\ is_Some (udp w' !! flow) | Err e => e <> Panic end.
Proof.
  intros Hw Hs Hp. unfold admit_udp, next_generation. destruct (udp w !! flow) as [e|] eqn:He; [split; [by apply good_refl|by rewrite He]|].
  destruct (generation w <? u64_max) eqn:Hlt; [|done]. zify_bool. destruct (scope_open x); [|done]. split; [split|cbn; rewrite lookup_insert_eq; by eexists].
  - by eapply add_udp_wf.
  - constructor; cbn; [lia|eauto|]. intros k y. destruct (decide (k = flow)) as [->|]; [rewrite lookup_insert_eq; intros [= <-]; right; cbn; split; [done|lia]|].
    rewrite lookup_insert_ne by done. eauto.
Qed.

(** An entry of an association with other contents. *)
Lemma refill_udp_good Pt Pu w f e q d :
  wf w -> udp w !! f = Some e -> (q = None <-> d <> None) -> good Pt Pu w (set_udp (<[f := mkUdp q (u_generation e) d (u_blocked e)]> (udp w)) w).
Proof.
  intros Hw He Hq. split.
  - apply (put_udp_wf w _ f e (mkUdp q (u_generation e) d (u_blocked e))); cbn; try done. apply waiting_same; [apply Hw|]. by apply udp_waits.
  - by eapply (evolves_put_udp _ _ w _ f e).
Qed.

Lemma deliver_good Pt Pu x flow l i w :
  wf w -> prefix_progress (transport_io x) -> is_Some (udp w !! flow) -> exists w' b, deliver x flow i l w = Ok (w', b) /\ good Pt Pu w w'.
Proof.
  revert i w. induction l as [|b l IH]; intros i w Hw Hx [e He]; cbn [deliver]; [eexists _, _; split; [done|by apply good_refl]|].
  rewrite He. set (p := mkDatagram (Carrier.target (destination flow)) b). destruct (direct e) as [d|] eqn:Hd.
  - destruct (direct_enqueue_spec PACKET_SIZE (transport_io x) (now x) p d Hx) as (d' & ok & -> & _).
    set (w1 := set_udp _ w). assert (Hg1 : good Pt Pu w w1) by (apply refill_udp_good; try done; by rewrite (wf_transport _ Hw _ _ He), Hd).
    assert (Hs1 : is_Some (udp w1 !! flow)) by (cbn; rewrite lookup_insert_eq; by eexists).
    destruct (IH (S i) (if ok then w1 else count_capacity_drop w1)) as (w2 & b2 & -> & Hg2); [destruct ok; [apply Hg1|apply wf_stats, Hg1]|done|by destruct ok|].
    eexists _, _. split; [done|]. eapply good_trans; [exact Hg1|]. destruct ok; [done|]. split; [apply Hg2|]. by destruct Hg2 as [_ []].
  - destruct (packets e) as [q|] eqn:Hq; [|exfalso; by apply (wf_transport _ Hw _ _ He) in Hq].
    destruct (room x i); [|eexists _, _; split; [done|by apply good_stats, good_refl]].
    set (w1 := set_udp _ w). assert (Hg1 : good Pt Pu w w1) by (by apply refill_udp_good).
    destruct (IH (S i) w1) as (w2 & b2 & -> & Hg2); [apply Hg1|done|cbn; rewrite lookup_insert_eq; by eexists|].
    eexists _, _. split; [done|]. by eapply good_trans.
Qed.

Lemma udp_packet_good x flow payload segment w :
  wf w -> prefix_progress (transport_io x) -> match segment with Some n => n <> 0 | None => True end ->
  match udp_packet x flow payload segment w with Ok w' => good (fun _ => False) (eq flow) w w' | Err e => e <> Panic end.
Proof.
  intros Hw Hx Hseg. unfold udp_packet. destruct (stopping w) eqn:Hs; [by apply good_stats, good_refl|].
  destruct (retire_udp_good (fun _ => False) (eq flow) x flow w Hw) as [Hg1 Hs1]. set (w1 := retire_udp x flow w) in *.
  pose proof (admit_udp_good (fun _ => False) (eq flow) x flow w1 (proj1 Hg1) ltac:(by rewrite Hs1) eq_refl) as Ha.
  destruct (admit_udp x flow w1) as [w2|err]; cbn [mbind res_bind]; [|done]. destruct Ha as [Hg2 He2].
  assert (Hz : (match segment with Some n => n | None => Z.max (len payload) 1 end =? 0) = false).
  { destruct segment; [by apply Z.eqb_neq|]. pose proof (len_nonneg payload). lia. }
  rewrite Hz. destruct (deliver_good (fun _ => False) (eq flow) x flow (parts (match segment with Some n => n | None => Z.max (len payload) 1 end) payload) 0 w2 (proj1 Hg2) Hx He2) as (w3 & b & -> & Hg3).
  cbn. assert (Hall : good (fun _ => False) (eq flow) w w3) by (eapply good_trans; [exact Hg1|by eapply good_trans]). destruct b; [by apply good_stats|done].
Qed.

(** ** Events *)

Lemma first_timer_in l a : first_timer l = Some a -> a ∈ l.
Proof.
  revert a. induction l as [|b l IH]; intros a; cbn; [done|]. destruct (first_timer l) as [c|]; intros [= <-]; [|by left].
  destruct (earlier b.1 c.1); [by left|right; by apply IH].
Qed.

(** The timer that fires belongs to the connection driven, so taking it out first makes no difference. *)
Lemma drive_timer x w at_ g f :
  wf w -> timers w !! (at_, g) = Some f -> drive x (f, g) (set_timers (delete (at_, g) (timers w)) w) = drive x (f, g) w.
Proof.
  intros Hw (e & He & Hg & Hd)%(wf_timers _ Hw). set (w0 := set_timers _ w).
  assert (Hu : find_udp (f, g) w = None).
  { destruct (find_udp (f, g) w) as [y|] eqn:Hy; [|done]. apply find_udp_Some in Hy as [Hy Hyg]. cbn in *. exfalso. eapply (wf_apart _ Hw); [exact He|exact Hy|congruence]. }
  assert (Ht : find_tcp (f, g) w = Some e) by (by apply find_tcp_Some).
  unfold drive. change (find_udp (f, g) w0) with (find_udp (f, g) w). change (find_tcp (f, g) w0) with (find_tcp (f, g) w). rewrite Hu, Ht. apply (f_equal Some).
  rewrite !drive_tcp_disarmed by done. assert (disarmed f e w0 = disarmed f e w) as H0; [|cbn [fst]; by rewrite H0].
  unfold disarmed, cleared. rewrite Hd, Hg. cbn. by rewrite delete_delete_eq.
Qed.

Lemma on_timer_good Pt Pu x w : wf w -> prefix_progress (transport_io x) -> exists w', on_timer x w = Some w' /\ good Pt Pu w w'.
Proof.
  intros Hw Hx. unfold on_timer. destruct (first_timer (map_to_list (timers w))) as [[[at_ g] f]|] eqn:Hf; [|eexists; split; [done|by apply good_refl]].
  apply first_timer_in, elem_of_map_to_list in Hf. cbn [snd]. rewrite (drive_timer x w at_ g f Hw Hf). by apply drive_good.
Qed.

(** The flow at the front of the list stops waiting. *)
Definition unblocked (id : Id) (l : list (Id * Z)) (w : t) : t :=
  let w := set_waiting l w in
  let w := match find_tcp id w with Some e => set_tcp (<[fst id := mkTcp (connection e) (t_generation e) (t_deadline e) false]> (tcp w)) w | None => w end in
  match find_udp id w with Some e => set_udp (<[fst id := mkUdp (packets e) (u_generation e) (direct e) false]> (udp w)) w | None => w end.

Lemma waiting_front id n l l' : l = (id, n) :: l' -> NoDup (fst <$> l) -> waiting_agree id false l l'.
Proof.
  intros -> Hnd. cbn in Hnd. apply NoDup_cons in Hnd as [Hno Hnd]. split; [done|]. intros i. rewrite fmap_cons. cbn [fst]. case_decide; rewrite ?elem_of_cons; naive_solver.
Qed.

Lemma unblocked_good Pt Pu id n l w : wf w -> blocked w = (id, n) :: l -> good Pt Pu w (unblocked id l w).
Proof.
  intros Hw Hb. pose proof (waiting_front id n (blocked w) l Hb (wf_nodup _ Hw)) as Hwt. destruct id as [f g].
  assert (Hin : (f, g) ∈ fst <$> blocked w) by (rewrite Hb; by left).
  apply (wf_waiting _ Hw) in Hin as [(e & He & Hg & Hbl)|(e & He & Hg & Hbl)]; unfold unblocked.
  - assert (find_tcp (f, g) (set_waiting l w) = Some e) as -> by (by apply find_tcp_Some). cbn [fst].
    set (w1 := set_tcp _ _). assert (find_udp (f, g) w1 = None) as ->.
    { destruct (find_udp (f, g) w1) as [y|] eqn:Hy; [|done]. apply find_udp_Some in Hy as [Hy Hyg]. cbn in *. exfalso. eapply (wf_apart _ Hw); [exact He|exact Hy|congruence]. }
    split; [|by eapply (evolves_put_tcp _ _ w _ f e)].
    apply (put_tcp_wf w _ f e (mkTcp (connection e) (t_generation e) (t_deadline e) false)); cbn; try done; [|by rewrite Hg].
    intros at_ k y. case_decide as Hk; [|done]. injection Hk as -> ->. rewrite (wf_timers _ Hw). split; [|eauto]. intros (z & Hz & _ & ?). congruence.
  - assert (find_tcp (f, g) (set_waiting l w) = None) as ->.
    { destruct (find_tcp (f, g) (set_waiting l w)) as [y|] eqn:Hy; [|done]. apply find_tcp_Some in Hy as [Hy Hyg]. cbn in *. exfalso. eapply (wf_apart _ Hw); [exact Hy|exact He|congruence]. }
    assert (find_udp (f, g) (set_waiting l w) = Some e) as -> by (by apply find_udp_Some). cbn [fst].
    split; [|by eapply (evolves_put_udp _ _ w _ f e)].
    apply (put_udp_wf w _ f e (mkUdp (packets e) (u_generation e) (direct e) false)); cbn; try done; [|by rewrite Hg]. by eapply (wf_transport _ Hw).
Qed.

Lemma on_writable_good Pt Pu x w : wf w -> prefix_progress (transport_io x) -> exists w', on_writable x w = Some w' /\ good Pt Pu w w'.
Proof.
  intros Hw Hx. unfold on_writable. destruct (blocked w) as [|[id n] l] eqn:Hb; [eexists; split; [done|by apply good_refl]|].
  pose proof (unblocked_good Pt Pu id n l w Hw Hb) as Hg. destruct (drive_good Pt Pu x id (unblocked id l w) (proj1 Hg) Hx) as (w' & Hd & Hg').
  exists w'. split; [exact Hd|by eapply good_trans].
Qed.

Lemma on_completed_good Pt Pu id w : wf w -> good Pt Pu w (on_completed id w).
Proof.
  intros Hw. unfold on_completed. destruct (find_udp id w) as [e|] eqn:He; [|by apply good_refl]. apply find_udp_Some in He as [He Hg]. destruct id as [f g]. cbn [fst snd] in *. subst g.
  split; [|apply evolves_del; try done; apply delete_subseteq]. apply (del_udp_wf w _ f e); try done.
  split; [apply nodup_retained, Hw|]. intros i. cbn. rewrite in_retained. case_decide; naive_solver.
Qed.

Lemma on_transfer_good Pt Pu x id incoming w : wf w -> good Pt Pu w (on_transfer x id incoming w).
Proof.
  intros Hw. unfold on_transfer. destruct (find_udp id w) as [e|] eqn:He; [|by apply good_refl]. destruct (is_closed x id.2); [by apply good_refl|].
  apply find_udp_Some in He as [He Hg]. by apply refill_udp_good.
Qed.

Lemma on_stop_good Pt Pu w : wf w -> good Pt Pu w (on_stop w).
Proof.
  intros Hw. unfold on_stop. destruct (stopping w) eqn:Hs; [by apply good_refl|]. set (kept := filter _ _).
  assert (Hk : forall f g, (f, g) ∈ fst <$> kept <-> exists e, tcp w !! f = Some e /\ t_generation e = g /\ t_blocked e = true).
  { intros f g. rewrite list_elem_of_fmap. split.
    - intros (y & Hy & [[e He] Hin]%list_elem_of_filter). apply find_tcp_Some in He as [He Hg]. rewrite <- Hy in He, Hg. cbn in He, Hg. exists e. split_and!; try done.
      apply (tcp_waits w f e Hw He). rewrite Hg, Hy. apply list_elem_of_fmap. eauto.
    - intros (e & He & Hg & Hb). assert (Hin : (f, g) ∈ fst <$> blocked w) by (apply (wf_waiting _ Hw); eauto).
      apply list_elem_of_fmap in Hin as (y & Hy & Hin). exists y. split; [done|]. apply list_elem_of_filter. split; [|done]. exists e. apply find_tcp_Some. by rewrite <- Hy. }
  assert (Hnd : NoDup (fst <$> kept)) by (by apply nodup_retained, Hw). clearbody kept.
  assert (Hmap : forall f y, ((fun e => mkTcp (connection_wake (connection e)) (t_generation e) (t_deadline e) (t_blocked e)) <$> tcp w) !! f = Some y ->
    exists e, tcp w !! f = Some e /\ t_generation y = t_generation e /\ t_deadline y = t_deadline e /\ t_blocked y = t_blocked e).
  { intros f y. rewrite lookup_fmap. intros (e & He & ->)%fmap_Some. by exists e. }
  split.
  - constructor; cbn; try apply Hw; try done.
    + intros at_ g f. rewrite (wf_timers _ Hw). split.
      * intros (e & He & Hg & Hd). rewrite lookup_fmap, He. cbn. by eexists.
      * intros (y & (e & He & Hg & Hd & _)%Hmap & Hyg & Hyd). exists e. split_and!; congruence.
    + intros f g. rewrite Hk. split.
      * intros (e & He & Hg & Hb). left. rewrite lookup_fmap, He. cbn. by eexists.
      * intros [(y & (e & He & Hg & _ & Hb)%Hmap & Hyg & Hyb)|(y & Hy & _)]; [exists e; split_and!; congruence|by rewrite lookup_empty in Hy].
    + intros f y (e & He & -> & _)%Hmap. by eapply (wf_tcp_range _ Hw).
    + intros f f' y y' (e & He & -> & _)%Hmap (e' & He' & -> & _)%Hmap. by eapply (wf_tcp_unique _ Hw).
    + intros Hd. destruct (wf_drained _ Hw Hd). congruence.
  - constructor; cbn; [lia| |].
    + intros f y (e & He & -> & _)%Hmap. eauto.
    + intros f y Hy. by rewrite lookup_empty in Hy.
Qed.

Lemma report_good Pt Pu w : wf w -> good Pt Pu w (report w).
Proof.
  intros Hw. unfold report. destruct (stopping w) eqn:Hs; cbn [andb]; [|by apply good_refl]. case_bool_decide as Ht; cbn [andb]; [|by apply good_refl].
  destruct (drained w); cbn [negb]; [by apply good_refl|]. split; [|by apply evolves_equal]. destruct Hw. by constructor.
Qed.

Lemma good_weaken (Pt Pu Qt Qu : Flow -> Prop) w w' : (forall f, Pt f -> Qt f) -> (forall f, Pu f -> Qu f) -> good Pt Pu w w' -> good Qt Qu w w'.
Proof. intros Ht Hu [Hw [Hg Het Heu]]. split; [done|]. constructor; [done| |]; naive_solver. Qed.

(** The flow an event may add. *)
Definition may_add_tcp (ev : env * event) (f : Flow) : Prop := match snd ev with TcpSegment flow _ => flow = f | _ => False end.
Definition may_add_udp (ev : env * event) (f : Flow) : Prop := match snd ev with UdpPayload flow _ _ => flow = f | _ => False end.

Lemma or_panic_good Pt Pu w o : (exists w', o = Some w' /\ good Pt Pu w w') -> match or_panic o with Ok w' => good Pt Pu w w' | Err e => e <> Panic end.
Proof. by intros (w' & -> & ?). Qed.

Lemma step_good w ev : wf w -> event_ok ev -> match step w ev with Ok w' => good (may_add_tcp ev) (may_add_udp ev) w w' | Err e => e <> Panic end.
Proof.
  intros Hw [Hx Hseg]. destruct ev as [x [id|flow syn|flow payload segment| | |id|id incoming| |]]; cbn [step fst snd] in *.
  - by apply or_panic_good, drive_good.
  - by apply tcp_packet_good.
  - by apply udp_packet_good.
  - by apply or_panic_good, on_timer_good.
  - by apply or_panic_good, on_writable_good.
  - by apply on_completed_good.
  - by apply on_transfer_good.
  - by apply on_stop_good.
  - by apply report_good.
Qed.

Lemma run_good w evs : wf w -> Forall event_ok evs -> match run w evs with Ok w' => good (fun _ => True) (fun _ => True) w w' | Err e => e <> Panic end.
Proof.
  intros Hw Hev. revert w Hw. induction Hev as [|ev evs Hok _ IH]; intros w Hw; cbn [run]; [by apply good_refl|].
  pose proof (step_good w ev Hw Hok) as Hs. destruct (step w ev) as [w1|e]; cbn [mbind res_bind]; [|done].
  apply (good_weaken _ _ (fun _ => True) (fun _ => True)) in Hs; [|done..]. specialize (IH w1 (proj1 Hs)). destruct (run w1 evs); [|done]. by eapply good_trans.
Qed.

(** ** Properties *)

(** C13. A worker's tables stay well formed.  For every sequence of packets, wake-ups, timers, completions and hand-overs, and
    whatever the connections answer, the worker does not panic, and: the timers are exactly the deadlines of the
    connections; the flows waiting for the output queue are listed once each, and are exactly those marked; no two
    flows, TCP or UDP, have the same generation, and none is beyond the last one given; an association has its queue
    exactly as long as it has no transport of its own; once stopping there are no associations, and a worker
    reported as drained has no connections. *)
Theorem worker_flows_wellformed evs :
  Forall event_ok evs -> match run new evs with Ok w => wf w | Err e => e <> Panic end.
Proof. intros Hev. pose proof (run_good new evs new_wf Hev) as Hg. destruct (run new evs); [apply Hg|done]. Qed.

(** A retired flow stays retired.  Once an identity that was given out belongs to no flow, it never does again, whatever
    happens: late wake-ups, completions and hand-overs for it change nothing, also when the addresses are used again. *)
Theorem retired_ids_stay_dead evs w later w' id :
  Forall event_ok evs -> run new evs = Ok w -> find_tcp id w = None -> find_udp id w = None -> snd id <= generation w ->
  Forall event_ok later -> run w later = Ok w' ->
  find_tcp id w' = None /\ find_udp id w' = None /\
  forall x incoming, drive x id w' = Some w' /\ on_completed id w' = w' /\ on_transfer x id incoming w' = w'.
Proof.
  intros Hev Hrun Ht Hu Hid Hev' Hrun'. pose proof (run_good new evs new_wf Hev) as Hg. rewrite Hrun in Hg. pose proof (run_good w later (proj1 Hg) Hev') as Hg'. rewrite Hrun' in Hg'.
  destruct Hg' as [_ [_ Het Heu]].
  assert (Ht' : find_tcp id w' = None).
  { destruct (find_tcp id w') as [e|] eqn:He; [|done]. apply find_tcp_Some in He as [He Hg1]. destruct (Het _ _ He) as [(y & Hy & Hyg)|[_ ?]]; [|lia].
    assert (find_tcp id w = Some y); [apply find_tcp_Some; split; [done|congruence]|congruence]. }
  assert (Hu' : find_udp id w' = None).
  { destruct (find_udp id w') as [e|] eqn:He; [|done]. apply find_udp_Some in He as [He Hg1]. destruct (Heu _ _ He) as [(y & Hy & Hyg)|[_ ?]]; [|lia].
    assert (find_udp id w = Some y); [apply find_udp_Some; split; [done|congruence]|congruence]. }
  split_and!; try done. intros x incoming. unfold drive, on_completed, on_transfer. by rewrite Ht', Hu'.
Qed.

End worker.

(** ** Examples *)

(** A connection that is only in TIME-WAIT or not. *)
#[local] Instance demo_connection : Connection bool := {| begin_turn c := c; connection_wake c := c; is_time_wait c := c |}.

Definition demo_env (answer : TcpProgress) : env :=
  mkEnv 10 (fun _ c => (c, answer)) (fun _ => None) (fun _ _ _ => Some false) (fun c => c) true (fun _ => false) waiting_io (tight 9) (tight 9) (fun i => (i <? 2)%nat).

(** A connection that idles with a deadline, then waits for the output queue; a datagram of three
    segments, of which the queue takes two. *)
Definition demo_run : list (env * event) :=
  [(demo_env (TIdle (Some 50)), TcpSegment demo_flow true); (demo_env (TIdle (Some 50)), Drive (demo_flow, 1));
   (demo_env (TBlocked 7), Timer); (demo_env (TIdle (Some 60)), Writable); (demo_env TAgain, UdpPayload demo_flow [1; 2; 3; 4; 5] (Some 2))].

Lemma demo_run_ok : Forall event_ok demo_run.
Proof. repeat apply Forall_cons_2; try apply Forall_nil_2; (split; [apply waiting_io_ok|done]). Qed.

Definition demo_worker : t := match run 40 new demo_run with Ok w => w | Err _ => new end.

Lemma demo_run_result : run 40 new demo_run = Ok demo_worker.
Proof. vm_compute. reflexivity. Qed.

Lemma worker_flows_wellformed_witness :
  timers demo_worker !! (60, 1) = Some demo_flow /\ wf demo_worker /\ packets <$> (udp demo_worker !! demo_flow) = Some (Some [reply [1; 2]; reply [3; 4]]).
Proof.
  split; [vm_compute; reflexivity|]. split; [|vm_compute; reflexivity].
  pose proof (worker_flows_wellformed 40 demo_run demo_run_ok) as Hw. rewrite demo_run_result in Hw. exact Hw.
Defined.

Definition closing : list (env * event) := demo_run ++ [(demo_env TClosed, Timer)].
Definition again : list (env * event) := [(demo_env TAgain, TcpSegment demo_flow true)].

Lemma closing_ok : Forall event_ok closing.
Proof. apply Forall_app. split; [apply demo_run_ok|]. apply Forall_singleton. split; [apply waiting_io_ok|done]. Qed.

Lemma again_ok : Forall event_ok again.
Proof. apply Forall_singleton. split; [apply waiting_io_ok|done]. Qed.

Definition closed_worker : t := match run 40 new closing with Ok w => w | Err _ => new end.
Definition reopened_worker : t := match run 40 closed_worker again with Ok w => w | Err _ => new end.

Lemma retired_ids_stay_dead_witness :
  t_generation <$> (tcp reopened_worker !! demo_flow) = Some 3 /\ drive 40 (demo_env TClosed) (demo_flow, 1) reopened_worker = Some reopened_worker.
Proof.
  split; [vm_compute; reflexivity|].
  assert (H1 : run 40 new closing = Ok closed_worker) by (vm_compute; reflexivity).
  assert (H2 : run 40 closed_worker again = Ok reopened_worker) by (vm_compute; reflexivity).
  assert (H3 : find_tcp (demo_flow, 1) closed_worker = None) by (vm_compute; reflexivity).
  assert (H4 : find_udp (demo_flow, 1) closed_worker = None) by (vm_compute; reflexivity).
  assert (H5 : snd (demo_flow, 1) <= generation closed_worker) by (vm_compute; discriminate).
  destruct (retired_ids_stay_dead 40 closing closed_worker again reopened_worker (demo_flow, 1) closing_ok H1 H3 H4 H5 again_ok H2) as (_ & _ & H).
  apply (H (demo_env TClosed) []).
Defined.

End Worker.
