(* ===== verification/Workers.v ===== *)
(** * The receive workers together (crates/tun/src/worker.rs)

    Every queue of the device has a worker.  A worker parses the frames it reads, sends those of
    another worker's flows to that worker's inbox, binds fragments through the shared table, and
    decodes and processes its own.  The flows are those of [Worker], the table is [Fragments], the
    decoders are [Decoder]; the hash, the inboxes' room and smoltcp's TCP parser are parameters. *)

From S2P Require Import Prelude Capacity Reassembly Packet Decoder Fragments NetText Carrier UdpEncoder UdpDirect Worker.
Import Packet.

Module Workers.
Import Worker.

(** What the workers use of smoltcp's TCP parser: the ports, and whether the segment is a SYN
    without an acknowledgement, unless the checksum is trusted. *)
Class TcpWire := {
  tcp_parse : bool -> IpAddress -> IpAddress -> bytes -> option (Z * Z * bool);
}.

(** A trusted checksum only skips the comparison. *)
Class TcpWireLaws `{TcpWire} := {
  tcp_parse_trusted : forall s d b x, tcp_parse false s d b = Some x -> tcp_parse true s d b = Some x;
}.

Section workers.
Context `{Wire} `{UdpEncoder.Emit} `{TcpWire}.
Context {A : Type} `{!Decoder.Assembler A}.
Context {C : Type} `{!Connection C}.
Context (PACKET_SIZE RECEIVED_SIZE ENTRY_BYTES ASSEMBLY_METADATA : Z) (tcp_checked : bytes -> bool).
(** The hash of a routing key, and the number of workers. *)
Context (hash : RouteKey -> Z) (workers : Z).

(** [ForwardedPacket] *)
Inductive Forwarded :=
  | Frame (frame : Fragments.Received)
  | Reassembled (ip : IpRepr) (payload : bytes)
  | Fragment_ (delivery : Fragments.Delivery).

Record node := mkNode { flows : Worker.t (C := C); decoder : Decoder.t (A := A) }.

(** The shared table with its history, the inboxes, and the workers. *)
Record sys := mkSys { table : Fragments.machine; inboxes : list (list Forwarded); nodes : list node }.

Record env := mkEnv {
  flow_env : Worker.env (C := C);
  clock : Z;
  later : Z;
  allocated : Z;
  inbox_room : nat -> bool;
}.

(** [Shared::owner] *)
Definition owner (key : RouteKey) : Z := hash key `mod` workers.

(** [Packet::tcp_with_checksum] *)
Definition tcp_with_checksum (verified : bool) (ip : IpRepr) (payload : bytes) : option (Flow * bool) :=
  '(s, d, syn) ← tcp_parse verified (src_addr ip) (dst_addr ip) payload;
  f ← UdpEncoder.flow ip s d; Some (f, syn).

Definition set_flows w n := mkNode w (decoder n).
Definition put_node (i : nat) (n : node) (s : sys) : sys := mkSys (table s) (inboxes s) (<[i := n]> (nodes s)).
Definition put_table (m : Fragments.machine) (s : sys) : sys := mkSys m (inboxes s) (nodes s).

Definition count_received (n : Z) (w : Worker.t (C := C)) := let x := stats w in
  set_stats (mkStats (received_packets x + 1) (received_bytes x + n) (forwarded_packets x) (processed_packets x) (capacity_drops x) (forwarding_drops x)) w.
Definition count_forwarded (n : Z) (w : Worker.t (C := C)) := let x := stats w in
  set_stats (mkStats (received_packets x) (received_bytes x) (forwarded_packets x + n) (processed_packets x) (capacity_drops x) (forwarding_drops x)) w.
Definition count_forwarding_drop (w : Worker.t (C := C)) := let x := stats w in
  set_stats (mkStats (received_packets x) (received_bytes x) (forwarded_packets x) (processed_packets x) (capacity_drops x) (forwarding_drops x + 1)) w.

(** An operation on the flows of worker [i]. *)
Definition at_node (i : nat) (f : Worker.t (C := C) -> res failure (Worker.t (C := C))) (s : sys) : res failure sys :=
  match nodes s !! i with
  | None => Err Panic
  | Some n => w ← f (flows n); Ok (put_node i (set_flows w n) s)
  end.

(** [forward_raw], [forward_packet], and the forwarding of a delivery: a message of [n] packets for
    worker [j], unless its inbox is full. *)
Definition forward (x : env) (i : nat) (j n : Z) (m : Forwarded) (s : sys) : res failure sys :=
  match inboxes s !! Z.to_nat j with
  | None => Err Panic
  | Some q =>
      if inbox_room x (Z.to_nat j)
      then at_node i (fun w => Ok (count_forwarded n w)) (mkSys (table s) (<[Z.to_nat j := q ++ [m]]> (inboxes s)) (nodes s))
      else at_node i (fun w => Ok (count_forwarding_drop w)) s
  end.

(** [Worker::packet] *)
Definition packet (x : env) (i : nat) (verified : bool) (segment : option Z) (ip : IpRepr) (payload : bytes) (s : sys) : res failure sys :=
  if next_header ip =? Tcp then
    match tcp_with_checksum verified ip payload with
    | None => Ok s
    | Some (flow, syn) =>
        if owner (RFlow Tcp flow) =? Z.of_nat i
        then at_node i (tcp_packet PACKET_SIZE (flow_env x) flow syn) s
        else forward x i (owner (RFlow Tcp flow)) 1 (Reassembled ip payload) s
    end
  else if (next_header ip =? Udp) && negb (match nodes s !! i with Some n => stopping (flows n) | None => false end) then
    match UdpEncoder.udp_with_checksum verified ip payload with
    | None => Ok s
    | Some (flow, data) =>
        if owner (RFlow Udp flow) =? Z.of_nat i
        then at_node i (udp_packet PACKET_SIZE (flow_env x) flow data segment) s
        else forward x i (owner (RFlow Udp flow)) 1 (Reassembled ip payload) s
    end
  else at_node i (fun w => Ok (count_processed w)) s.

(** The accounting of reassembly is shared by the table and every decoder. *)
Definition limits (s : sys) : Reassembly.Limits := Fragments.limits (Fragments.routes (table s)).
Definition set_limits (l : Reassembly.Limits) (s : sys) : sys :=
  put_table (Fragments.step RECEIVED_SIZE ENTRY_BYTES (table s) (Fragments.Others l)) s.

(** A decoder's operation under the shared accounting. *)
Definition with_decoder {B} (i : nat) (f : Decoder.t (A := A) -> Decoder.t (A := A) * B) (s : sys) : res failure (sys * B) :=
  match nodes s !! i with
  | None => Err Panic
  | Some n =>
      let '(d, r) := f (Decoder.mkDecoder (Decoder.fragments (decoder n)) (limits s) (Decoder.next_expiry (decoder n))) in
      Ok (put_node i (mkNode (flows n) d) (set_limits (Decoder.limits d) s), r)
  end.

(** [Decoder::decode_fragment] *)
Definition decode_fragment (x : env) (active : bool) (b : Decoder.Binding) (bs : bytes) (d : Decoder.t (A := A)) :
  Decoder.t (A := A) * option (IpRepr * bytes) :=
  match parse bs with
  | None => (d, None)
  | Some p =>
      let with_payload b := (mkIp (family (ip p)) (src (ip p)) (dst (ip p)) (next_header (ip p)) (len b) (hop_limit (ip p)), b) in
      match fragment p with
      | Some f =>
          let '(d, r) := Decoder.decode_fragment tcp_checked ASSEMBLY_METADATA active b (next_header (ip p)) f (payload p) (clock x) (later x) (allocated x) d in
          (d, with_payload <$> r)
      | None =>
          if negb (Decoder.binding_active active b (clock x)) then (d, None) else
          let stale := match Decoder.fragments d !! Decoder.b_key b with
                       | Some a => match Decoder.binding a with Some old => negb (Decoder.ptr_eq old b) | None => true end
                       | None => false
                       end in
          (if stale then Decoder.remove (Decoder.b_key b) d else d, Some (with_payload (payload p)))
      end
  end.

(** [Worker::fragment] *)
Definition fragment_ (x : env) (i : nat) (b : Decoder.Binding) (f : Fragments.Received) (s : sys) : res failure sys :=
  let active := default false (Fragments.flags (Fragments.routes (table s)) !! Decoder.b_id b) in
  '(s, r) ← with_decoder i (decode_fragment x active b (Fragments.frame_bytes f)) s;
  let retained := match nodes s !! i with Some n => Decoder.retains b (decoder n) | None => false end in
  let s := if retained then s else put_table (Fragments.step RECEIVED_SIZE ENTRY_BYTES (table s) (Fragments.Finish b)) s in
  match r with Some (ip, payload) => packet x i false None ip payload s | None => Ok s end.

(** [Worker::fragments]: the frames held back come before the first fragment; each is decoded at its own instant. *)
Fixpoint fragments (x : nat -> env) (k : nat) (i : nat) (b : Decoder.Binding) (l : list Fragments.Received) (s : sys) : res failure sys :=
  match l with
  | [] => Ok s
  | f :: l => s ← fragment_ (x k) i b f s; fragments x (S k) i b l s
  end.

Definition delivered (x : nat -> env) (i : nat) (d : Fragments.Delivery) (s : sys) : res failure sys :=
  fragments x 0 i (Fragments.d_binding d) (Fragments.carried d) s.

(** A whole packet, decoded from its frame. *)
Definition whole (x : env) (i : nat) (f : Fragments.Received) (s : sys) : res failure sys :=
  '(s, r) ← with_decoder i (Decoder.decode tcp_checked ASSEMBLY_METADATA (Fragments.frame_bytes f) (clock x) (later x) (allocated x)) s;
  match r with
  | Some (ip, payload) => packet x i (Fragments.checksum_verified f) (Fragments.udp_segment_size f) ip payload s
  | None => Ok s
  end.

(** [Worker::frame] *)
Definition frame (x : nat -> env) (i : nat) (f : Fragments.Received) (s : sys) : res failure sys :=
  let bytes := Fragments.frame_bytes f in
  s ← at_node i (fun w => Ok (count_received (len bytes) w)) s;
  match parse bytes with
  | None => Ok s
  | Some p =>
      match route p with
      | None => Ok s
      | Some (RFragment key) =>
          let shard := owner (RFragment key) in
          let first_owner := owner <$> first_route p in
          let x0 := x O in
          let m := table s in
          let d := snd (Fragments.route RECEIVED_SIZE ENTRY_BYTES shard key first_owner f (clock x0) (allocated x0) (Fragments.routes m)) in
          let s := put_table (Fragments.step RECEIVED_SIZE ENTRY_BYTES m (Fragments.Route shard key first_owner f (clock x0) (allocated x0))) s in
          match d with
          | None => Ok s
          | Some d =>
              if Fragments.owner d =? Z.of_nat i then delivered (fun k => x (S k)) i d s
              else forward x0 i (Fragments.owner d) (1 + len (from_option Fragments.frames [] (Fragments.d_pending d))) (Fragment_ d) s
          end
      | Some (RFlow protocol flow) =>
          if owner (RFlow protocol flow) =? Z.of_nat i then whole (x O) i f s
          else forward (x O) i (owner (RFlow protocol flow)) 1 (Frame f) s
      end
  end.

(** [Worker::forwarded], for the first message of the inbox. *)
Definition forwarded (x : nat -> env) (i : nat) (s : sys) : res failure sys :=
  match inboxes s !! i with
  | Some (m :: q) =>
      let s := mkSys (table s) (<[i := q]> (inboxes s)) (nodes s) in
      match m with
      | Frame f => whole (x O) i f s
      | Reassembled ip payload => packet (x O) i false None ip payload s
      | Fragment_ d => delivered x i d s
      end
  | Some [] => Ok s
  | None => Err Panic
  end.

(** The pressure on reassembly memory: pending fragments are given up first, then assemblies. *)
Fixpoint relieve (fuel : nat) (headroom : nat -> bool) (order : list (FragmentKey * Fragments.Entry) -> list (FragmentKey * Fragments.Entry))
  (assemblies : Decoder.t (A := A) -> list (FragmentKey * Decoder.Assembly (A := A))) (i : nat) (s : sys) : res failure sys :=
  match fuel with
  | O => Ok s
  | S fuel =>
      if negb (headroom fuel) then Ok s
      else if snd (Fragments.discard_oldest_pending (Z.of_nat i) order (Fragments.routes (table s))) then
        relieve fuel headroom order assemblies i (put_table (Fragments.step RECEIVED_SIZE ENTRY_BYTES (table s) (Fragments.Discard (Z.of_nat i) order)) s)
      else
        '(s, b) ← with_decoder i (fun d => Decoder.discard_oldest (assemblies d) d) s;
        match b with
        | Some b => relieve fuel headroom order assemblies i (put_table (Fragments.step RECEIVED_SIZE ENTRY_BYTES (table s) (Fragments.Finish b)) s)
        | None => Ok s
        end
  end.

(** ** Runs *)

Inductive event :=
  | Read (x : nat -> env) (f : Fragments.Received)
  | Inbox (x : nat -> env)
  | Flows (x : Worker.env (C := C)) (ev : Worker.event)
  | Pressure (headroom : nat -> bool) (order : list (FragmentKey * Fragments.Entry) -> list (FragmentKey * Fragments.Entry))
      (assemblies : Decoder.t (A := A) -> list (FragmentKey * Decoder.Assembly (A := A)))
  | Expire (now : Z)
  | ExpireTable (now : Z).

(** Packets reach a worker's flows only through [Read] and [Inbox]. *)
Definition step (s : sys) (ev : nat * event) : res failure sys :=
  let i := fst ev in
  match snd ev with
  | Read x f => frame x i f s
  | Inbox x => forwarded x i s
  | Flows x ev => at_node i (fun w => Worker.step PACKET_SIZE w (x, ev)) s
  | Pressure headroom order assemblies => relieve 32 headroom order assemblies i s
  | Expire now => '(s, _) ← with_decoder i (fun d => (Decoder.expire now d, tt)) s; Ok s
  | ExpireTable now => Ok (put_table (Fragments.step RECEIVED_SIZE ENTRY_BYTES (table s) (Fragments.ExpireAll now)) s)
  end.

Fixpoint run (s : sys) (evs : list (nat * event)) : res failure sys :=
  match evs with
  | [] => Ok s
  | ev :: evs => s ← step s ev; run s evs
  end.

Definition start (l : Reassembly.Limits) : sys :=
  mkSys (Fragments.start workers l) (replicate (Z.to_nat workers) []) (replicate (Z.to_nat workers) (mkNode Worker.new (Decoder.new l))).

(** ** The owners in the table *)

Definition owners_in (P : Z -> Prop) (r : Fragments.Routes) : Prop :=
  forall i k e o, Fragments.entry_at r i k = Some e -> Fragments.e_owner e = Some o -> P o.

Lemma owners_shrinks P r r' : owners_in P r -> Fragments.shrinks r r' -> owners_in P r'.
Proof. intros Ho Hs i k e o He. apply (Ho i k). by apply (Fragments.shr_sub _ _ Hs). Qed.

Lemma owners_put P r i sh key e l :
  owners_in P r -> Fragments.shards r !! i = Some sh -> (forall o, Fragments.e_owner e = Some o -> P o) -> owners_in P (Fragments.with_entry i sh key e l r).
Proof.
  intros Ho Hs He j k x o. rewrite Fragments.entry_at_with by done. case_decide; [|apply Ho]. intros [= <-]. apply He.
Qed.

Lemma owners_ensure P i key now r r' ok :
  owners_in P r -> Fragments.ensure_entry ENTRY_BYTES i key now r = (r', ok) -> owners_in P r'.
Proof.
  intros Ho. unfold Fragments.ensure_entry. destruct (Fragments.shards r !! Z.to_nat i) as [sh|] eqn:Hs; [|by intros [= <- <-]].
  destruct (Fragments.entries sh !! key) as [e|] eqn:He; [by intros [= <- <-]|]. destruct (Reassembly.reserve _ _ _) as [l [held|]]; intros [= <- <-].
  - intros j k x o. rewrite (Fragments.entry_at_put r _ _ sh) by done. cbn. case_decide as Hj; [|apply Ho]. subst j.
    destruct (decide (k = key)) as [->|]; [rewrite lookup_insert_eq; by intros [= <-]|]. rewrite lookup_insert_ne by done. intros Hx. apply (Ho (Z.to_nat i) k).
    unfold Fragments.entry_at. by rewrite Hs.
  - intros j k x o Hx. by apply (Ho j k).
Qed.

Lemma owners_route P i key first_owner f now alloc m :
  Fragments.Inv m -> owners_in P (Fragments.routes m) -> (forall o, first_owner = Some o -> P o) ->
  let r := Fragments.route RECEIVED_SIZE ENTRY_BYTES i key first_owner f now alloc (Fragments.routes m) in
  owners_in P (fst r) /\ forall d, snd r = Some d -> P (Fragments.owner d).
Proof.
  destruct m as [r0 tk ds]. intros Hinv Hown Hfo. cbn [Fragments.routes] in *. cbn zeta. unfold Fragments.route.
  pose proof (Fragments.shrinks_expire_shard i now r0 (Fragments.inv_table _ Hinv)) as Hsh. apply (Fragments.inv_shrinks _ _ _ _ Hinv) in Hsh as Hinv1.
  apply (owners_shrinks P _ _ Hown) in Hsh as Hown1. destruct (Fragments.ensure_entry ENTRY_BYTES i key now _) as [r ok] eqn:Hens.
  apply (owners_ensure P) in Hens as Hown2; [|done]. destruct (Fragments.inv_ensure _ _ _ _ _ _ _ _ _ Hinv1 Hens) as [Hinv2 Hex].
  destruct ok; [|by split]. destruct (Hex eq_refl) as [e He]. unfold Fragments.entry_at in He. destruct (Fragments.shards r !! Z.to_nat i) as [sh|] eqn:Hs; [|done]. cbn in He. rewrite He.
  assert (Hat : Fragments.entry_at r (Z.to_nat i) key = Some e) by (unfold Fragments.entry_at; by rewrite Hs).
  destruct (match Fragments.e_owner e with Some o => Some o | None => first_owner end) as [w|] eqn:Ho.
  - assert (Hw : P w) by (destruct (Fragments.e_owner e) as [o|] eqn:Hoe; [injection Ho as <-; by apply (Hown2 _ _ _ _ Hat)|by apply Hfo]).
    split; [|by intros d [= <-]]. apply (owners_put P r (Z.to_nat i) sh key (Fragments.mkEntry (Fragments.e_binding e) (Some w) None) (Fragments.limits r)); try done. by intros o [= <-].
  - destruct (match Fragments.e_pending e with Some p => _ | None => _ end) as [l [p|]]; [|split; [|done]; intros j k x o Hx; by apply (Hown2 j k)].
    destruct (Fragments.push RECEIVED_SIZE p f now alloc l) as [[l' p'] ok]. split; [|done]. cbn [fst].
    set (e' := Fragments.mkEntry (Fragments.e_binding e) None (Some p')). change (Fragments.put_shard i _ _) with (Fragments.with_entry (Z.to_nat i) sh key e' l' r).
    assert (Hput : owners_in P (Fragments.with_entry (Z.to_nat i) sh key e' l' r)) by (by apply owners_put).
    destruct ok; [done|]. eapply owners_shrinks; [exact Hput|]. apply Fragments.shrinks_remove. eapply Fragments.table_with; try done. apply Hinv2.
Qed.

Lemma owners_expire P now idx tk ds r :
  Fragments.Inv (Fragments.mkMachine r tk ds) -> owners_in P r -> owners_in P (foldl (fun r i => Fragments.expire_shard i now r) r idx).
Proof.
  revert r. induction idx as [|i idx IH]; intros r Ht Ho; [done|]. cbn. pose proof (Fragments.shrinks_expire_shard i now r (Fragments.inv_table _ Ht)) as Hs.
  apply IH; [by eapply Fragments.inv_shrinks|by eapply owners_shrinks].
Qed.

(** ** Ownership *)

Section ownership.
Context `{!TcpWireLaws} (Hworkers : 0 < workers).

(** The flows of worker [i] are its own. *)
Record owned (i : nat) (w : Worker.t (C := C)) : Prop := {
  o_wf : wf w;
  o_tcp : forall f, is_Some (tcp w !! f) -> owner (RFlow Tcp f) = Z.of_nat i;
  o_udp : forall f, is_Some (udp w !! f) -> owner (RFlow Udp f) = Z.of_nat i;
}.

(** A message of the inbox of worker [j] is for that worker. *)
Definition message_ok (m : Fragments.machine) (j : nat) (x : Forwarded) : Prop :=
  match x with
  | Frame f =>
      Fragments.udp_segment_size f <> Some 0 /\
      exists p protocol flow, parse (Fragments.frame_bytes f) = Some p /\ route p = Some (RFlow protocol flow) /\ owner (RFlow protocol flow) = Z.of_nat j
  | Reassembled ip payload =>
      (next_header ip = Tcp -> forall f syn, tcp_with_checksum false ip payload = Some (f, syn) -> owner (RFlow Tcp f) = Z.of_nat j) /\
      (next_header ip = Udp -> forall f data, UdpEncoder.udp_with_checksum false ip payload = Some (f, data) -> owner (RFlow Udp f) = Z.of_nat j)
  | Fragment_ d => Fragments.owner d = Z.of_nat j /\ d ∈ Fragments.deliveries m
  end.

Record Inv (s : sys) : Prop := {
  v_table : Fragments.Inv (table s);
  v_owners : owners_in (fun o => 0 <= o < workers) (Fragments.routes (table s));
  v_inboxes : length (inboxes s) = Z.to_nat workers;
  v_nodes : length (nodes s) = Z.to_nat workers;
  v_messages : forall j q m, inboxes s !! j = Some q -> m ∈ q -> message_ok (table s) j m;
  v_flows : forall i n, nodes s !! i = Some n -> owned i (flows n);
}.

Definition okay (r : res failure sys) : Prop := match r with Ok s => Inv s | Err e => e <> Panic end.

Lemma owner_range key : 0 <= owner key < workers.
Proof. apply Z.mod_pos_bound. exact Hworkers. Qed.

Lemma workers_start_inv l : Inv (start l).
Proof.
  constructor; cbn.
  - apply Fragments.routes_inv_start.
  - intros i k e o He. exfalso. unfold Fragments.entry_at in He. cbn in He. destruct (replicate _ _ !! i) as [sh|] eqn:Hs; [|done].
    apply lookup_replicate in Hs as [-> _]. cbn in He. by rewrite lookup_empty in He.
  - apply length_replicate.
  - apply length_replicate.
  - intros j q m Hq. apply lookup_replicate in Hq as [-> _]. by intros ?%elem_of_nil.
  - intros i n Hn. apply lookup_replicate in Hn as [-> _]. constructor; cbn; [apply new_wf| |]; intros f [e He]; by rewrite lookup_empty in He.
Qed.

Lemma put_node_inv i n s : Inv s -> (i < length (nodes s))%nat -> owned i (flows n) -> Inv (put_node i n s).
Proof.
  intros [Ht Ho Hi Hn Hm Hf] Hlt Hown. constructor; cbn; try done; [by rewrite length_insert|].
  intros j n'. destruct (decide (j = i)) as [->|]; [rewrite list_lookup_insert_eq by done; by intros [= <-]|rewrite list_lookup_insert_ne by done; apply Hf].
Qed.

Lemma at_node_okay i f s :
  Inv s -> (i < Z.to_nat workers)%nat ->
  (forall w, owned i w -> match f w with Ok w' => owned i w' | Err e => e <> Panic end) -> okay (at_node i f s).
Proof.
  intros Hinv Hlt Hf. unfold at_node. destruct (nodes s !! i) as [n|] eqn:Hn; [|apply lookup_ge_None in Hn; rewrite (v_nodes _ Hinv) in Hn; lia].
  pose proof (Hf (flows n) (v_flows _ Hinv _ _ Hn)) as Hw. destruct (f (flows n)) as [w|e]; cbn; [|done].
  apply put_node_inv; [done|by eapply lookup_lt_Some|done].
Qed.

Lemma owned_stats i w x : owned i (set_stats x w) <-> owned i w.
Proof. split; intros []; constructor; try done; by apply (wf_stats w x). Qed.

Lemma deliveries_grow m a d : d ∈ Fragments.deliveries m -> d ∈ Fragments.deliveries (Fragments.step RECEIVED_SIZE ENTRY_BYTES m a).
Proof.
  intros Hd. destruct a; cbn; try done. destruct (Fragments.route _ _ _ _ _ _ _ _ _) as [r o]. cbn. apply elem_of_app. by left.
Qed.

Lemma message_grows m m' j x : (forall d, d ∈ Fragments.deliveries m -> d ∈ Fragments.deliveries m') -> message_ok m j x -> message_ok m' j x.
Proof. intros Hd. destruct x; cbn; naive_solver. Qed.

Lemma put_table_inv a s :
  Inv s -> match a with Fragments.Route _ _ fo _ _ _ => forall o, fo = Some o -> 0 <= o < workers | _ => True end ->
  Inv (put_table (Fragments.step RECEIVED_SIZE ENTRY_BYTES (table s) a) s).
Proof.
  intros [Ht Ho Hi Hn Hm Hf] Ha. constructor; cbn [table inboxes nodes put_table]; try done.
  - by apply Fragments.routes_inv_step.
  - destruct a as [i key fo f now alloc|b|i order|now|l]; cbn [Fragments.step].
    + destruct (owners_route (fun o => 0 <= o < workers) i key fo f now alloc (table s) Ht Ho Ha) as [Hr _].
      destruct (Fragments.route _ _ _ _ _ _ _ _ _) as [r d]. exact Hr.
    + eapply owners_shrinks; [exact Ho|]. apply Fragments.shrinks_finish, Ht.
    + eapply owners_shrinks; [exact Ho|]. apply Fragments.shrinks_discard, Ht.
    + destruct (table s) as [r tk ds]. cbn in *. by apply (owners_expire _ _ _ tk ds).
    + intros i k e o He. by apply (Ho i k).
  - intros j q x Hq Hx. eapply message_grows; [|by eapply Hm]. intros d. apply deliveries_grow.
Qed.

Lemma forward_okay x i j n m s : Inv s -> (i < Z.to_nat workers)%nat -> 0 <= j < workers -> message_ok (table s) (Z.to_nat j) m -> okay (forward x i j n m s).
Proof.
  intros Hinv Hi Hj Hm. unfold forward. destruct (inboxes s !! Z.to_nat j) as [q|] eqn:Hq; [|apply lookup_ge_None in Hq; rewrite (v_inboxes _ Hinv) in Hq; lia].
  destruct (inbox_room x (Z.to_nat j)).
  - apply at_node_okay; [|done|intros w Hw; by apply owned_stats]. destruct Hinv as [Ht Ho Hib Hn Hms Hf]. constructor; cbn; try done; [by rewrite length_insert|].
    intros k l y. destruct (decide (k = Z.to_nat j)) as [->|]; [|rewrite list_lookup_insert_ne by done; apply Hms].
    rewrite list_lookup_insert_eq by (by eapply lookup_lt_Some). intros [= <-] [Hy| ->%list_elem_of_singleton]%elem_of_app; [by eapply Hms|done].
  - apply at_node_okay; [done|done|]. intros w Hw. by apply owned_stats.
Qed.

(** New flows are those of the packet at hand. *)
Lemma owned_evolves i (Pt Pu : Flow -> Prop) w w' :
  owned i w -> good Pt Pu w w' -> (forall f, Pt f -> owner (RFlow Tcp f) = Z.of_nat i) -> (forall f, Pu f -> owner (RFlow Udp f) = Z.of_nat i) -> owned i w'.
Proof.
  intros [Hw Ht Hu] [Hw' [_ Het Heu]] Hpt Hpu. constructor; [done| |].
  - intros f [e He]. destruct (Het f e He) as [(y & Hy & _)|[? _]]; [apply Ht; by eexists|by apply Hpt].
  - intros f [e He]. destruct (Heu f e He) as [(y & Hy & _)|[? _]]; [apply Hu; by eexists|by apply Hpu].
Qed.

(** Trusting the checksum does not change the flow. *)
Lemma tcp_flow_trusted verified ip payload f syn f' syn' :
  tcp_with_checksum verified ip payload = Some (f, syn) -> tcp_with_checksum false ip payload = Some (f', syn') -> f' = f.
Proof.
  unfold tcp_with_checksum. intros Ha Hb. destruct (tcp_parse false _ _ payload) as [[[s d] b]|] eqn:Hp; [|done].
  assert (Hv : tcp_parse verified (src_addr ip) (dst_addr ip) payload = Some (s, d, b)) by (destruct verified; [by apply tcp_parse_trusted|done]).
  rewrite Hv in Ha. cbn in Ha, Hb. destruct (UdpEncoder.flow ip s d); cbn in *; congruence.
Qed.

Lemma udp_flow_trusted verified ip payload f data f' data' :
  UdpEncoder.udp_with_checksum verified ip payload = Some (f, data) -> UdpEncoder.udp_with_checksum false ip payload = Some (f', data') -> f' = f.
Proof.
  unfold UdpEncoder.udp_with_checksum. intros Ha Hb. repeat case_match; try done.
  destruct (UdpEncoder.flow ip (UdpEncoder.udp_src_port payload) (UdpEncoder.udp_dst_port payload)); cbn in *; congruence.
Qed.

Definition env_ok (x : env) : Prop := UdpDirect.prefix_progress (transport_io (flow_env x)).

Lemma packet_okay x i verified segment ip payload s :
  Inv s -> (i < Z.to_nat workers)%nat -> env_ok x -> segment <> Some 0 -> okay (packet x i verified segment ip payload s).
Proof.
  intros Hinv Hi Hx Hseg. assert (Hs0 : match segment with Some n => n <> 0 | None => True end) by (destruct segment; [congruence|done]).
  unfold packet. destruct (next_header ip =? Tcp) eqn:Hp; zify_bool.
  - destruct (tcp_with_checksum verified ip payload) as [[flow syn]|] eqn:Ht; [|done]. destruct (owner (RFlow Tcp flow) =? Z.of_nat i) eqn:Ho; zify_bool.
    + apply at_node_okay; try done. intros w Hw. pose proof (tcp_packet_good PACKET_SIZE (flow_env x) flow syn w (o_wf _ _ Hw) Hx) as Hg.
      destruct (tcp_packet PACKET_SIZE (flow_env x) flow syn w) as [w'|e]; [|done]. eapply owned_evolves; [exact Hw|exact Hg|by intros f <-|done].
    + pose proof (owner_range (RFlow Tcp flow)). apply forward_okay; try done. cbn. rewrite Z2Nat.id by lia. split.
      * intros _ f syn' Hf. by rewrite (tcp_flow_trusted _ _ _ _ _ _ _ Ht Hf).
      * intros Hu. rewrite Hu in Hp. discriminate Hp.
  - destruct ((next_header ip =? Udp) && _) eqn:Hb; [|apply at_node_okay; try done; intros w Hw; by apply owned_stats].
    apply andb_prop in Hb as [Hu _]. zify_bool. destruct (UdpEncoder.udp_with_checksum verified ip payload) as [[flow data]|] eqn:Ht; [|done].
    destruct (owner (RFlow Udp flow) =? Z.of_nat i) eqn:Ho; zify_bool.
    + apply at_node_okay; try done. intros w Hw. pose proof (udp_packet_good PACKET_SIZE (flow_env x) flow data segment w (o_wf _ _ Hw) Hx Hs0) as Hg.
      destruct (udp_packet PACKET_SIZE (flow_env x) flow data segment w) as [w'|e]; [|done]. eapply owned_evolves; [exact Hw|exact Hg|done|by intros f <-].
    + pose proof (owner_range (RFlow Udp flow)). apply forward_okay; try done. cbn. rewrite Z2Nat.id by lia. split; [congruence|].
      intros _ f data' Hf. by rewrite (udp_flow_trusted _ _ _ _ _ _ _ Ht Hf).
Qed.

Lemma with_decoder_inv {B} i (f : Decoder.t (A := A) -> Decoder.t (A := A) * B) s :
  Inv s -> (i < Z.to_nat workers)%nat -> exists s' r, with_decoder i f s = Ok (s', r) /\ Inv s'.
Proof.
  intros Hinv Hi. unfold with_decoder. destruct (nodes s !! i) as [n|] eqn:Hn; [|apply lookup_ge_None in Hn; rewrite (v_nodes _ Hinv) in Hn; lia].
  destruct (f _) as [d r]. eexists _, _. split; [done|]. apply put_node_inv; [by apply put_table_inv|cbn; by eapply lookup_lt_Some|]. by apply (v_flows _ Hinv i n).
Qed.

Lemma fragment_okay x i b f s : Inv s -> (i < Z.to_nat workers)%nat -> env_ok x -> okay (fragment_ x i b f s).
Proof.
  intros Hinv Hi Hx. unfold fragment_. destruct (with_decoder_inv i (decode_fragment x (default false (Fragments.flags (Fragments.routes (table s)) !! Decoder.b_id b)) b (Fragments.frame_bytes f)) s Hinv Hi) as (s1 & r & -> & Ha).
  cbn [mbind res_bind]. set (kept := match nodes s1 !! i with Some n => _ | None => false end).
  assert (Hb : Inv (if kept then s1 else put_table (Fragments.step RECEIVED_SIZE ENTRY_BYTES (table s1) (Fragments.Finish b)) s1)) by (destruct kept; [done|by apply put_table_inv]).
  destruct r as [[ip payload]|]; [by apply packet_okay|done].
Qed.

Lemma fragments_okay x k i b l s : Inv s -> (i < Z.to_nat workers)%nat -> (forall j, env_ok (x j)) -> okay (fragments x k i b l s).
Proof.
  intros Hinv Hi Hx. revert k s Hinv. induction l as [|f l IH]; intros k s Hinv; cbn [fragments]; [done|].
  pose proof (fragment_okay (x k) i b f s Hinv Hi (Hx k)) as Hf. destruct (fragment_ (x k) i b f s) as [s1|e]; cbn [mbind res_bind]; [by apply IH|done].
Qed.

Lemma whole_okay x i f s : Inv s -> (i < Z.to_nat workers)%nat -> env_ok x -> Fragments.udp_segment_size f <> Some 0 -> okay (whole x i f s).
Proof.
  intros Hinv Hi Hx Hseg. unfold whole. edestruct (with_decoder_inv i (Decoder.decode tcp_checked ASSEMBLY_METADATA (Fragments.frame_bytes f) (clock x) (later x) (allocated x)) s Hinv Hi) as (s1 & r & -> & Ha).
  cbn [mbind res_bind]. destruct r as [[ip payload]|]; [by apply packet_okay|done].
Qed.

Lemma frame_okay x i f s : Inv s -> (i < Z.to_nat workers)%nat -> (forall j, env_ok (x j)) -> Fragments.udp_segment_size f <> Some 0 -> okay (frame x i f s).
Proof.
  intros Hinv Hi Hx Hseg. unfold frame. pose proof (at_node_okay i (fun w => Ok (count_received (len (Fragments.frame_bytes f)) w)) s Hinv Hi) as Ha.
  destruct (at_node i _ s) as [s1|e]; cbn [mbind res_bind okay] in *; [|apply Ha; intros w Hw; by apply owned_stats].
  assert (Hinv1 : Inv s1) by (apply Ha; intros w Hw; by apply owned_stats). clear Ha.
  destruct (parse (Fragments.frame_bytes f)) as [p|] eqn:Hp; [|done]. destruct (route p) as [[protocol flow|key]|] eqn:Hr; [| |done].
  - destruct (owner (RFlow protocol flow) =? Z.of_nat i) eqn:Ho; zify_bool; [by apply whole_okay|].
    pose proof (owner_range (RFlow protocol flow)). apply forward_okay; try done. cbn. split; [done|]. exists p, protocol, flow. rewrite Z2Nat.id by lia. done.
  - cbn zeta. set (fo := owner <$> first_route p). assert (Hfo : forall o, fo = Some o -> 0 <= o < workers).
    { intros o Ho. unfold fo in Ho. destruct (first_route p); [|done]. injection Ho as <-. apply owner_range. }
    destruct (owners_route (fun o => 0 <= o < workers) (owner (RFragment key)) key fo f (clock (x O)) (allocated (x O)) (table s1) (v_table _ Hinv1) (v_owners _ Hinv1) Hfo) as [_ Hd].
    pose proof (put_table_inv (Fragments.Route (owner (RFragment key)) key fo f (clock (x O)) (allocated (x O))) s1 Hinv1 Hfo) as Hinv2.
    set (s2 := put_table _ s1) in *. destruct (snd _) as [d|] eqn:Hdel; [|done]. destruct (Fragments.owner d =? Z.of_nat i) eqn:Ho; zify_bool; [by apply fragments_okay|].
    specialize (Hd d eq_refl). apply forward_okay; try done. split; [by rewrite Z2Nat.id by lia|]. subst s2. cbn [table put_table Fragments.step].
    destruct (Fragments.route _ _ _ _ _ _ _ _ _) as [r o]. cbn in *. subst o. apply elem_of_app. right. by apply list_elem_of_singleton.
Qed.

Lemma taken_inv i m q s : Inv s -> inboxes s !! i = Some (m :: q) -> Inv (mkSys (table s) (<[i := q]> (inboxes s)) (nodes s)).
Proof.
  intros [Ht Ho Hib Hn Hms Hf] Hq. constructor; cbn; try done; [by rewrite length_insert|].
  intros k l y. destruct (decide (k = i)) as [->|]; [|rewrite list_lookup_insert_ne by done; apply Hms].
  rewrite list_lookup_insert_eq by (by eapply lookup_lt_Some). intros [= <-] Hy. eapply Hms; [exact Hq|]. by right.
Qed.

Lemma forwarded_okay x i s : Inv s -> (i < Z.to_nat workers)%nat -> (forall j, env_ok (x j)) -> okay (forwarded x i s).
Proof.
  intros Hinv Hi Hx. unfold forwarded. destruct (inboxes s !! i) as [[|m q]|] eqn:Hq; [done| |apply lookup_ge_None in Hq; rewrite (v_inboxes _ Hinv) in Hq; lia].
  pose proof (taken_inv i m q s Hinv Hq) as Hinv1. pose proof (v_messages _ Hinv i _ m Hq ltac:(by left)) as Hm. destruct m as [f|ip payload|d].
  - apply whole_okay; try done. apply Hm.
  - by apply packet_okay.
  - by apply fragments_okay.
Qed.

Lemma relieve_okay fuel headroom order assemblies i s : Inv s -> (i < Z.to_nat workers)%nat -> okay (relieve fuel headroom order assemblies i s).
Proof.
  intros Hinv Hi. revert s Hinv. induction fuel as [|fuel IH]; intros s Hinv; cbn [relieve]; [done|]. destruct (negb (headroom fuel)); [done|].
  destruct (snd _); [apply IH; by apply put_table_inv|].
  destruct (with_decoder_inv i (fun d => Decoder.discard_oldest (assemblies d) d) s Hinv Hi) as (s1 & r & -> & Hs1). cbn [mbind res_bind].
  destruct r as [b|]; [apply IH; by apply put_table_inv|done].
Qed.

(** The worker exists, transports keep their contract, the device reports no empty segments; packets come in as frames. *)
Definition event_ok (ev : nat * event) : Prop :=
  (fst ev < Z.to_nat workers)%nat /\
  match snd ev with
  | Read x f => (forall j, env_ok (x j)) /\ Fragments.udp_segment_size f <> Some 0
  | Inbox x => forall j, env_ok (x j)
  | Flows x ev => Worker.event_ok (x, ev) /\ match ev with TcpSegment _ _ | UdpPayload _ _ _ => False | _ => True end
  | _ => True
  end.

Lemma step_okay s ev : Inv s -> event_ok ev -> okay (step s ev).
Proof.
  intros Hinv [Hi Hok]. destruct ev as [i [x f|x|x ev|headroom order assemblies|now|now]]; cbn [step fst snd] in *.
  - destruct Hok; by apply frame_okay.
  - by apply forwarded_okay.
  - apply at_node_okay; try done. intros w Hw. destruct Hok as [Hok Hno]. pose proof (step_good PACKET_SIZE w (x, ev) (o_wf _ _ Hw) Hok) as Hg.
    destruct (Worker.step PACKET_SIZE w (x, ev)) as [w'|e]; [|done]. eapply owned_evolves; [exact Hw|exact Hg| |]; intros f; unfold may_add_tcp, may_add_udp; cbn; by destruct ev.
  - by apply relieve_okay.
  - destruct (with_decoder_inv i (fun d => (Decoder.expire now d, tt)) s Hinv Hi) as (s1 & r & -> & Hs1). done.
  - by apply put_table_inv.
Qed.

Lemma run_okay s evs : Inv s -> Forall event_ok evs -> okay (run s evs).
Proof.
  intros Hinv Hev. revert s Hinv. induction Hev as [|ev evs Hok _ IH]; intros s Hinv; cbn [run]; [done|].
  pose proof (step_okay s ev Hinv Hok) as Hs. destruct (step s ev); cbn [mbind res_bind]; [by apply IH|done].
Qed.

(** ** Properties *)

(** C12. Every flow has one worker.  However frames are spread over the queues, and whatever the workers do in between, no worker
    panics; a connection or an association is only ever in the tables of the worker the hash of its addresses names, so
    never in two; what waits in an inbox is for the worker that owns it; and the fragments of one datagram never wait
    for two different workers. *)
Theorem flows_have_one_worker l evs :
  Forall event_ok evs ->
  match run (start l) evs with
  | Ok s =>
      (forall i n f, nodes s !! i = Some n -> is_Some (tcp (flows n) !! f) -> owner (RFlow Tcp f) = Z.of_nat i) /\
      (forall i n f, nodes s !! i = Some n -> is_Some (udp (flows n) !! f) -> owner (RFlow Udp f) = Z.of_nat i) /\
      (forall j q m, inboxes s !! j = Some q -> m ∈ q -> message_ok (table s) j m) /\
      (forall j j' q q' d d', inboxes s !! j = Some q -> inboxes s !! j' = Some q' -> Fragment_ d ∈ q -> Fragment_ d' ∈ q' ->
         Decoder.b_id (Fragments.d_binding d) = Decoder.b_id (Fragments.d_binding d') -> j = j')
  | Err e => e <> Panic
  end.
Proof.
  intros Hev. pose proof (run_okay (start l) evs (workers_start_inv l) Hev) as Hr. destruct (run (start l) evs) as [s|e]; [|done]. destruct Hr as [Ht Ho Hib Hn Hms Hf]. split_and!.
  - intros i n f Hi. apply (Hf i n Hi).
  - intros i n f Hi. apply (Hf i n Hi).
  - done.
  - intros j j' q q' d d' Hj Hj' Hd Hd' Hb. destruct (Hms _ _ _ Hj Hd) as [Hod Hdd]. destruct (Hms _ _ _ Hj' Hd') as [Hod' Hdd'].
    pose proof (Fragments.inv_same _ Ht _ _ Hdd Hdd' Hb). lia.
Qed.

(** Counting leaves the inboxes alone, and so does processing. *)
Lemma at_node_inboxes i f s s' : at_node i f s = Ok s' -> inboxes s' = inboxes s.
Proof. unfold at_node. destruct (nodes s !! i) as [n|]; [|done]. destruct (f (flows n)); cbn; [|done]. by intros [= <-]. Qed.

(** A packet does not wander.  A decoded packet taken out of an inbox is processed, or dropped, by the worker that takes it:
    it is never sent on.  With the frame that may have been sent on before it was decoded, a packet changes workers at
    most twice. *)
Theorem decoded_packets_stay l evs s x i ip payload q s' :
  Forall event_ok evs -> run (start l) evs = Ok s -> inboxes s !! i = Some (Reassembled ip payload :: q) -> forwarded x i s = Ok s' ->
  inboxes s' = <[i := q]> (inboxes s).
Proof.
  intros Hev Hrun Hq. pose proof (run_okay (start l) evs (workers_start_inv l) Hev) as Hr. rewrite Hrun in Hr. pose proof (v_messages _ Hr i _ _ Hq ltac:(by left)) as [Ht Hu].
  unfold forwarded. rewrite Hq. unfold packet. destruct (next_header ip =? Tcp) eqn:Hp; zify_bool.
  - destruct (tcp_with_checksum false ip payload) as [[flow syn]|] eqn:Hf; [|by intros [= <-]].
    rewrite (Ht Hp flow syn eq_refl), Z.eqb_refl. apply at_node_inboxes.
  - destruct ((next_header ip =? Udp) && _) eqn:Hb; [|apply at_node_inboxes]. apply andb_prop in Hb as [Hudp _]. zify_bool.
    destruct (UdpEncoder.udp_with_checksum false ip payload) as [[flow data]|] eqn:Hf; [|by intros [= <-]].
    rewrite (Hu Hudp flow data eq_refl), Z.eqb_refl. apply at_node_inboxes.
Qed.

End ownership.
End workers.

(** ** Examples *)

#[local] Existing Instances Packet.rfc_wire UdpEncoder.rfc_emit Decoder.list_assembler Worker.demo_connection.

(** No TCP segment parses. *)
#[local] Instance no_tcp : TcpWire := {| tcp_parse _ _ _ _ := None |}.
#[local] Instance no_tcp_laws : TcpWireLaws.
Proof. by constructor. Qed.

(** Two workers; flows go by their source port, fragments by their identification. *)
Definition demo_hash (key : RouteKey) : Z := match key with RFlow _ f => snd (source f) | RFragment k => key_id k end.

Definition demo_env : env := mkEnv (Worker.demo_env TAgain) 10 10 2048 (fun _ => true).
Definition demo_envs (k : nat) : env := demo_env.

(** Fragments of an IPv4 datagram to port 4000, the first of which arrives twice with different source ports. *)
Definition piece (offset : Z) (more : bool) (b : bytes) : Fragments.Received :=
  Fragments.mkReceived (UdpEncoder.ipv4_header (mkIp V4 (10 * 2 ^ 24 + 1) (10 * 2 ^ 24 + 2) Udp (len b) 64) 7 false more offset ++ b) 128 false None.
Definition first_piece (port : Z) : Fragments.Received := piece 0 true (be_put 2 port ++ be_put 2 4000 ++ [0; 24; 0; 0] ++ [1; 2; 3; 4; 5; 6; 7; 8]).
Definition last_piece : Fragments.Received := piece 16 false [9; 10; 11; 12; 13; 14; 15; 16].

Definition demo_events : list (nat * event (A := list (Z * Z)) (C := bool)) :=
  [(0%nat, Read demo_envs (first_piece 53)); (1%nat, Inbox demo_envs); (0%nat, Read demo_envs (first_piece 54)); (1%nat, Inbox demo_envs);
   (0%nat, Read demo_envs last_piece); (1%nat, Inbox demo_envs)].

Definition demo_start : sys (A := list (Z * Z)) (C := bool) := start 2 Decoder.demo_limits.
Definition demo_sys : sys (A := list (Z * Z)) (C := bool) := match run 40 56 200 200 Decoder.demo_tcp demo_hash 2 demo_start demo_events with Ok s => s | Err _ => demo_start end.
Definition demo_next : sys (A := list (Z * Z)) (C := bool) := match forwarded 40 56 200 200 Decoder.demo_tcp demo_hash 2 demo_envs 0 demo_sys with Ok s => s | Err _ => demo_start end.

Lemma workers_demo_events_ok : Forall (event_ok 2) demo_events.
Proof.
  assert (Hx : forall j, env_ok (demo_envs j)) by (intros j; apply UdpDirect.waiting_io_ok).
  repeat apply Forall_cons_2; try apply Forall_nil_2; (split; [cbn; lia|]); first [exact Hx|split; [exact Hx|discriminate]].
Qed.

Lemma demo_sys_runs : run 40 56 200 200 Decoder.demo_tcp demo_hash 2 demo_start demo_events = Ok demo_sys.
Proof. vm_compute. reflexivity. Qed.

Definition strayed : Forwarded :=
  Reassembled (mkIp V4 (10 * 2 ^ 24 + 1) (10 * 2 ^ 24 + 2) Udp 24 64) ([0; 54; 15; 160; 0; 24; 0; 0] ++ seqZ 1 16).

Lemma flows_have_one_worker_witness : inboxes demo_sys = [[strayed]; []] /\ message_ok demo_hash 2 (table demo_sys) 0 strayed.
Proof.
  assert (Hq : inboxes demo_sys = [[strayed]; []]) by (vm_compute; reflexivity). split; [exact Hq|].
  pose proof (flows_have_one_worker 40 56 200 200 Decoder.demo_tcp demo_hash 2 ltac:(lia) Decoder.demo_limits demo_events workers_demo_events_ok) as Hs.
  change (start 2 Decoder.demo_limits) with demo_start in Hs. rewrite demo_sys_runs in Hs. destruct Hs as (_ & _ & Hm & _).
  apply (Hm 0%nat [strayed]); [rewrite Hq; reflexivity|left].
Defined.

Lemma decoded_packets_stay_witness : inboxes demo_next = [[]; []].
Proof.
  assert (Hq : inboxes demo_sys = [[strayed]; []]) by (vm_compute; reflexivity).
  rewrite (decoded_packets_stay 40 56 200 200 Decoder.demo_tcp demo_hash 2 ltac:(lia) Decoder.demo_limits demo_events demo_sys demo_envs 0
             (mkIp V4 (10 * 2 ^ 24 + 1) (10 * 2 ^ 24 + 2) Udp 24 64) ([0; 54; 15; 160; 0; 24; 0; 0] ++ seqZ 1 16) [] demo_next workers_demo_events_ok demo_sys_runs).
  - rewrite Hq. reflexivity.
  - rewrite Hq. reflexivity.
  - vm_compute. reflexivity.
Defined.

End Workers.
