(* ===== verification/Scoped.v ===== *)
(** * Scoped I/O (crates/protocol/src/scoped.rs)

    A stream or packet transport that belongs to a scope lives in a slot shared by the handle that
    uses it and the task that owns it.  The handle takes the value out for each operation and puts
    it back; the task connects, publishes the value, and closes the slot when the scope cancels it.
    The steps are the accesses to the slot and to the reader's waker.  The value is one, so the slot
    only tells whether it holds it. *)

From S2P Require Import Prelude.

Module Scoped.

(** [Shared::value]: null, the closed sentinel, or the pointer. *)
Inductive slot := Null | Closed | Occupied.

#[export] Instance slot_eq_dec : EqDecision slot.
Proof. solve_decision. Defined.

(** What a poll of the handle answers. *)
Inductive answer := Operated | Pending | EndOfStream.

(** The handle: a poll registers its waker, takes the value, operates and puts it back, or looks
    whether the slot is closed; dropping the handle closes the slot. *)
Inductive handle_pc := HIdle (last : option answer) | HTake | HBusy | HPut | HCheck | HSwap | HWake | HGone.

(** The owner's task: connecting, with a connected value, waking the handle, parked, and closing. *)
Inductive owner_pc := OConnect | OHold | OWake | OPark | OSwap | OCloseWake | OGone.

(** [registered] and [woken] are the reader's waker; [created] and [dropped] count values. *)
Record sys := mkSys {
  value : slot;
  handle : handle_pc;
  owner : owner_pc;
  registered : bool;
  woken : bool;
  created : Z;
  dropped : Z;
  panicked : bool;
}.

Definition set_value v s := mkSys v (handle s) (owner s) (registered s) (woken s) (created s) (dropped s) (panicked s).
Definition set_handle h s := mkSys (value s) h (owner s) (registered s) (woken s) (created s) (dropped s) (panicked s).
Definition set_owner o s := mkSys (value s) (handle s) o (registered s) (woken s) (created s) (dropped s) (panicked s).
Definition set_waker r w s := mkSys (value s) (handle s) (owner s) r w (created s) (dropped s) (panicked s).
Definition set_created n s := mkSys (value s) (handle s) (owner s) (registered s) (woken s) n (dropped s) (panicked s).
Definition drop_value s := mkSys (value s) (handle s) (owner s) (registered s) (woken s) (created s) (dropped s + 1) (panicked s).
Definition set_panicked s := mkSys (value s) (handle s) (owner s) (registered s) (woken s) (created s) (dropped s) true.

(** [stream_task], and [installed] with its value in place. *)
Definition stream_task : sys := mkSys Null (HIdle None) OConnect false false 0 0 false.
Definition installed : sys := mkSys Occupied (HIdle None) OPark false false 1 0 false.

(** [AtomicWaker::wake] on the reader *)
Definition wake (s : sys) : sys := if registered s then set_waker false true s else s.

(** [Shared::take] *)
Definition take (s : sys) : sys * bool :=
  match value s with Occupied => (set_value Null s, true) | _ => (s, false) end.

(** [Shared::put]: a slot that is not empty must be closed, and the value is dropped. *)
Definition put (s : sys) : sys :=
  match value s with
  | Null => set_value Occupied s
  | Closed => drop_value s
  | Occupied => set_panicked (drop_value s)
  end.

(** The swap of [Shared::close] *)
Definition close (s : sys) : sys :=
  let s' := set_value Closed s in match value s with Occupied => drop_value s' | _ => s' end.

Inductive event := PollRead | HandleStep | HandleDrop | Connected (ok : bool) | Cancel | OwnerStep.

Definition step (s : sys) (ev : event) : option sys :=
  match ev with
  | PollRead =>
      match handle s with HIdle _ => Some (set_handle HTake (set_waker true false s)) | _ => None end
  | HandleStep =>
      match handle s with
      | HTake => Some (match take s with (s, true) => set_handle HBusy s | (s, false) => set_handle HCheck s end)
      | HBusy => Some (set_handle HPut s)
      | HPut => Some (set_handle (HIdle (Some Operated)) (put s))
      | HCheck => Some (set_handle (HIdle (Some (if bool_decide (value s = Closed) then EndOfStream else Pending))) s)
      | HSwap => Some (set_handle HWake (close s))
      | HWake => Some (set_handle HGone (wake s))
      | _ => None
      end
  | HandleDrop => match handle s with HIdle _ => Some (set_handle HSwap s) | _ => None end
  | Connected ok =>
      match owner s with OConnect => Some (if ok : bool then set_owner OHold (set_created (created s + 1) s) else set_owner OSwap s) | _ => None end
  | Cancel => match owner s with OConnect | OPark => Some (set_owner OSwap s) | _ => None end
  | OwnerStep =>
      match owner s with
      | OHold => Some (set_owner OWake (put s))
      | OWake => Some (set_owner OPark (wake s))
      | OSwap => Some (set_owner OCloseWake (close s))
      | OCloseWake => Some (set_owner OGone (wake s))
      | _ => None
      end
  end.

Fixpoint run (s : sys) (evs : list event) : option sys :=
  match evs with
  | [] => Some s
  | ev :: evs => s ← step s ev; run s evs
  end.

(** Where the value is. *)
Definition in_slot (s : sys) : Z := match value s with Occupied => 1 | _ => 0 end.
Definition at_handle (s : sys) : Z := match handle s with HBusy | HPut => 1 | _ => 0 end.
Definition at_owner (s : sys) : Z := match owner s with OHold => 1 | _ => 0 end.

(** ** The invariant

    The states that can occur are finitely many, so the invariant is a boolean and its preservation
    is checked on all of them. *)

#[export] Instance answer_eq_dec : EqDecision answer.
Proof. solve_decision. Defined.
#[export] Instance handle_pc_eq_dec : EqDecision handle_pc.
Proof. solve_decision. Defined.
#[export] Instance owner_pc_eq_dec : EqDecision owner_pc.
Proof. solve_decision. Defined.

(** Somebody has closed the slot. *)
Definition closed_by (s : sys) : bool :=
  match owner s with OGone | OCloseWake => true | _ => false end || match handle s with HWake | HGone => true | _ => false end.

(** A poll that found no value has a waker registered or a wake-up behind it. *)
Definition polled (s : sys) : bool := match handle s with HIdle (Some Pending) | HCheck | HTake => true | _ => false end.

Definition ok (s : sys) : bool :=
  (created s =? in_slot s + at_handle s + at_owner s + dropped s) && (0 <=? dropped s) && (0 <=? created s) && (created s <=? 1) &&
  negb (panicked s) &&
  implb (bool_decide (owner s = OConnect)) (created s =? 0) &&
  implb (closed_by s) (bool_decide (value s = Closed)) &&
  implb (bool_decide (value s = Closed)) (closed_by s) &&
  implb ((bool_decide (owner s = OPark) || bool_decide (owner s = OWake)) && (at_handle s =? 0)) (negb (bool_decide (value s = Null))) &&
  implb (polled s) (registered s || woken s) &&
  implb (bool_decide (handle s = HIdle (Some Pending)) && registered s && negb (bool_decide (value s = Null)))
    (bool_decide (owner s = OWake) || bool_decide (owner s = OCloseWake)) &&
  implb (bool_decide (handle s = HCheck) && registered s && bool_decide (value s = Occupied)) (bool_decide (owner s = OWake)).

Definition bools : list bool := [true; false].
Definition slots : list slot := [Null; Closed; Occupied].
Definition handles : list handle_pc := [HIdle None; HIdle (Some Operated); HIdle (Some Pending); HIdle (Some EndOfStream); HTake; HBusy; HPut; HCheck; HSwap; HWake; HGone].
Definition owners : list owner_pc := [OConnect; OHold; OWake; OPark; OSwap; OCloseWake; OGone].
Definition events : list event := [PollRead; HandleStep; HandleDrop; Connected true; Connected false; Cancel; OwnerStep].

Definition states : list sys :=
  v ← slots; h ← handles; o ← owners; r ← bools; w ← bools; c ← [0; 1]; d ← [0; 1]; [mkSys v h o r w c d false].

Lemma ok_states s : ok s = true -> s ∈ states.
Proof.
  intros Hs. assert (Hc : (created s = 0 \/ created s = 1) /\ (dropped s = 0 \/ dropped s = 1) /\ panicked s = false).
  { unfold ok in Hs. rewrite !andb_true_iff in Hs. destruct Hs as [[[[[[[[[[[Hs H0] H1] H2] Hp] _] _] _] _] _] _] _]. zify_bool.
    unfold in_slot, at_handle, at_owner in *. destruct (panicked s); [done|]. repeat case_match; split_and!; try done; lia. }
  destruct s as [v h o r w c d p]. cbn in Hc. destruct Hc as (Hc & Hd & ->). unfold states.
  apply list_elem_of_bind. exists v. split; [|destruct v; set_solver]. apply list_elem_of_bind. exists h. split; [|destruct h as [[[]|]| | | | | | |]; set_solver].
  apply list_elem_of_bind. exists o. split; [|destruct o; set_solver]. apply list_elem_of_bind. exists r. split; [|destruct r; set_solver].
  apply list_elem_of_bind. exists w. split; [|destruct w; set_solver]. apply list_elem_of_bind. exists c. split; [|set_solver].
  apply list_elem_of_bind. exists d. split; [|set_solver]. by apply list_elem_of_singleton.
Qed.

Lemma states_closed : forallb (fun s => implb (ok s) (forallb (fun ev => match step s ev with Some s' => ok s' | None => true end) events)) states = true.
Proof. vm_compute. reflexivity. Qed.

Lemma scoped_step_ok s ev s' : ok s = true -> step s ev = Some s' -> ok s' = true.
Proof.
  intros Hs Hst. pose proof (proj1 (forallb_forall _ _) states_closed s ltac:(by apply list_elem_of_In, ok_states)) as Hall. cbv beta in Hall. rewrite Hs in Hall. cbn [implb] in Hall.
  pose proof (proj1 (forallb_forall _ _) Hall ev ltac:(apply list_elem_of_In; destruct ev as [| | |[]| |]; set_solver)) as Hev. cbv beta in Hev. by rewrite Hst in Hev.
Qed.

Lemma scoped_run_ok s evs s' : ok s = true -> run s evs = Some s' -> ok s' = true.
Proof.
  revert s. induction evs as [|ev evs IH]; intros s Hs Hr; cbn in Hr; [by injection Hr as <-|].
  destruct (step s ev) as [s1|] eqn:H1; [|done]. cbn in Hr. eapply IH; [|exact Hr]. by eapply scoped_step_ok.
Qed.
Lemma closed_stays s ev s' : value s = Closed -> step s ev = Some s' -> value s' = Closed.
Proof.
  intros Hv Hs. destruct s as [v h o r w c d p]. cbn in Hv. subst v.
  destruct ev as [| | |ok| |], h, o; cbn in Hs; try discriminate Hs; injection Hs as <-; unfold wake; cbn; try (by destruct r); by destruct ok.
Qed.

Lemma run_closed s evs s' : value s = Closed -> run s evs = Some s' -> value s' = Closed.
Proof.
  revert s. induction evs as [|ev evs IH]; intros s Hs Hr; cbn in Hr; [by injection Hr as <-|].
  destruct (step s ev) as [s1|] eqn:H1; [|done]. cbn in Hr. eapply IH; [|exact Hr]. by eapply closed_stays.
Qed.

(** Scoped I/O is revoked exactly once.  For every interleaving of the handle and its owner's task, from a connecting or an
    established value: the value is in one place and dropped at most once, and no slot is found occupied; once the slot is
    closed it stays closed, and as soon as no operation is under way the value is gone; and a poll that was told to wait
    is woken when the value is there or the slot is closed, or the owner is about to do it. *)
Theorem scoped_value_revoked s0 evs s :
  s0 = stream_task \/ s0 = installed -> run s0 evs = Some s ->
  created s = in_slot s + at_handle s + at_owner s + dropped s /\ created s <= 1 /\ panicked s = false /\
  (value s = Closed -> (at_handle s = 0 -> at_owner s = 0 -> dropped s = created s) /\ forall more s', run s more = Some s' -> value s' = Closed) /\
  (handle s = HIdle (Some Pending) -> value s <> Null -> woken s = true \/ owner s = OWake \/ owner s = OCloseWake).
Proof.
  intros H0 Hr. assert (Hok : ok s = true) by (eapply scoped_run_ok; [|exact Hr]; destruct H0 as [->| ->]; reflexivity).
  unfold ok in Hok. rewrite !andb_true_iff in Hok. destruct Hok as [[[[[[[[[[[Hs Hd0] Hc0] Hc1] Hp] _] Hcl] _] _] Hw] Hwt] _]. zify_bool. split_and!; try lia.
  - by destruct (panicked s).
  - intros Hv. split; [unfold in_slot in *; rewrite Hv in Hs; lia|]. intros more s'. by apply run_closed.
  - intros Hh Hv. unfold polled in Hw. rewrite Hh in Hw, Hwt. rewrite (bool_decide_eq_false_2 (value s = Null)) in Hwt by done. rewrite bool_decide_eq_true_2 in Hwt by done.
    cbn [implb andb negb] in *. destruct (registered s); cbn [orb andb implb] in *; [|by left]. right. rewrite orb_true_iff in Hwt. by rewrite !bool_decide_eq_true in Hwt.
Qed.

(** The scope is cancelled while the handle operates. *)
Definition demo_events : list event := [Connected true; PollRead; HandleStep; HandleStep; OwnerStep; PollRead; OwnerStep; HandleStep; Cancel; OwnerStep; HandleStep; HandleStep; OwnerStep].

Lemma scoped_value_revoked_witness : exists s, run stream_task demo_events = Some s /\ dropped s = 1 /\ created s <= 1.
Proof.
  eexists. split; [vm_compute; reflexivity|]. split; [reflexivity|].
  refine (proj1 (proj2 (scoped_value_revoked stream_task demo_events _ (or_introl eq_refl) _))). vm_compute. reflexivity.
Defined.
End Scoped.
