(* ===== verification/Shadowsocks.v ===== *)
(** * Shadowsocks 2022 adapters (crates/shadowsocks2022/src)

    The wrapper that keeps a pending write's input fixed (buffered.rs), the reader that holds back
    the first response until its salt is checked (tcp.rs), and the UDP associations of the server
    and the client with their replay windows (server.rs, client.rs).  The cipher and the replay
    window are the shadowsocks libraries': the writer, the reader and the window are classes with
    their documented behaviour as laws. *)

From S2P Require Import Prelude Packet NetText.
Import NetText.

Module Shadowsocks.

Inductive answer (A : Type) := Pending | Ready (a : A) | Failed.
Arguments Pending {A}. Arguments Ready {A} a. Arguments Failed {A}.

(** ** Writing (buffered.rs) *)

Section writing.
(** The library's encrypting writer.  It encrypts the input of the first call into a frame; while
    the frame is not sent it does not look at the input's contents, and when it is sent it reports
    the length of the input of that call. *)
Context {S : Type} (framing : S -> option bytes) (poll_write : S -> bytes -> bool -> S * answer Z).

(** [framing] is the plaintext of the frame that is being sent; the [bool] tells whether the
    transport below takes it all. *)
Record WriterLaws : Prop := {
  write_frames : forall s b sent, framing s = None -> let '(s', r) := poll_write s b sent in
    match r with Pending => framing s' = Some b | Ready n => framing s' = None /\ n = len b | Failed => True end;
  write_resumes : forall s f b sent, framing s = Some f -> let '(s', r) := poll_write s b sent in
    match r with Pending => framing s' = Some f | Ready n => framing s' = None /\ n = len b | Failed => True end;
}.

Record Buffered := mkBuffered { stream : S; pending : option bytes }.

(** [Buffered::new] *)
Definition new (s : S) : Buffered := mkBuffered s None.

Definition starts_with (data p : bytes) : bool := bool_decide (ztake (len p) data = p).

(** [Buffered::poll_write]; a retry that changed the prefix fails. *)
Definition buffered_write (this : Buffered) (data : bytes) (sent : bool) : Buffered * answer Z :=
  match pending this with
  | Some p =>
      if negb (starts_with data p) then (this, Failed)
      else let '(s, r) := poll_write (stream this) p sent in
           match r with Pending => (mkBuffered s (Some p), Pending) | _ => (mkBuffered s None, r) end
  | None =>
      let input := ztake (Z.min (len data) 8192) data in
      let '(s, r) := poll_write (stream this) input sent in
      match r with Pending => (mkBuffered s (Some input), Pending) | _ => (mkBuffered s None, r) end
  end.

(** A writer's calls: what it has left to send, with what it was told was written. *)
Record calls := mkCalls { writer : Buffered; told : bytes; framed : bytes }.

(** One call: the plaintext of a frame counts when it starts. *)
Definition call (s : calls) (data : bytes) (sent : bool) : calls * answer Z :=
  let '(w, r) := buffered_write (writer s) data sent in
  let starts := match pending (writer s), r with
                | None, (Pending | Ready _) => ztake (Z.min (len data) 8192) data
                | _, _ => []
                end in
  (mkCalls w (told s ++ match r with Ready n => ztake n data | _ => [] end) (framed s ++ starts), r).

Fixpoint call_all (s : calls) (l : list (bytes * bool)) : calls * list (answer Z) :=
  match l with
  | [] => (s, [])
  | (data, sent) :: l => let '(s, r) := call s data sent in let '(s, rs) := call_all s l in (s, r :: rs)
  end.

(** What the frames carry beyond what the caller was told. *)
Definition outstanding (w : Buffered) : bytes := default [] (pending w).

Record wInv (s : calls) : Prop := {
  w_framing : framing (stream (writer s)) = pending (writer s);
  w_told : framed s = told s ++ outstanding (writer s);
}.

Lemma call_inv s data sent s' r : WriterLaws -> wInv s -> call s data sent = (s', r) -> r <> Failed -> wInv s'.
Proof.
  intros Hl [Hf Ht] Hc Hr. unfold call, buffered_write in Hc. unfold outstanding in Ht. destruct s as [[st p] told framed]. cbn in *. subst p. destruct (framing st) as [f|] eqn:Hfr.
  - destruct (negb (starts_with data f)) eqn:Hs; [injection Hc as <- <-; done|]. pose proof (write_resumes Hl st f f sent Hfr) as Hw.
    destruct (poll_write st f sent) as [st' [|n|]]; cbn in Hc; injection Hc as <- <-; [| |done].
    + constructor; cbn; [done|]. by rewrite !app_nil_r.
    + destruct Hw as [Hn ->]. apply negb_false_iff, bool_decide_eq_true in Hs. constructor; cbn; [done|]. by rewrite Hs, !app_nil_r.
  - pose proof (write_frames Hl st (ztake (Z.min (len data) 8192) data) sent Hfr) as Hw. set (input := ztake (Z.min (len data) 8192) data) in *.
    destruct (poll_write st input sent) as [st' [|n|]]; cbn in Hc; injection Hc as <- <-; [| |done].
    + constructor; cbn; [done|]. by rewrite Ht, !app_nil_r.
    + destruct Hw as [Hn ->]. constructor; cbn; [done|]. rewrite Ht, !app_nil_r. f_equal. subst input. unfold ztake, len. rewrite length_take. f_equal. lia.
Qed.

Lemma call_all_inv s l s' rs : WriterLaws -> wInv s -> call_all s l = (s', rs) -> Forall (fun r => r <> Failed) rs -> wInv s'.
Proof.
  intros Hl Hi Hc Hr. revert s rs Hi Hc Hr. induction l as [|[data sent] l IH]; intros s rs Hi Hc Hr; cbn in Hc; [by injection Hc as <- <-|].
  destruct (call s data sent) as [s1 r] eqn:H1. destruct (call_all s1 l) as [s2 rs2] eqn:H2. injection Hc as <- <-. apply Forall_cons in Hr as [Hr1 Hr2].
  eapply IH; [by eapply call_inv|exact H2|done].
Qed.

(** Writes are reported as they are encrypted.  Over a writer that reports the length of its current input when an earlier
    frame is done, the wrapper makes the bytes a caller is told were written exactly those in the frames sent, in order,
    with at most one frame's bytes not reported yet, although callers append to their input between retries. *)
Theorem buffered_writes_exact s0 l s rs :
  WriterLaws -> framing s0 = None -> call_all (mkCalls (new s0) [] []) l = (s, rs) -> Forall (fun r => r <> Failed) rs ->
  framed s = told s ++ outstanding (writer s) /\ len (outstanding (writer s)) <= 8192.
Proof.
  intros Hl H0 Hc Hr. assert (Hi : wInv (mkCalls (new s0) [] [])) by (by constructor).
  split; [by eapply w_told, call_all_inv|]. clear Hi H0.
  assert (Hb : forall l s s' rs, len (outstanding (writer s)) <= 8192 -> call_all s l = (s', rs) -> len (outstanding (writer s')) <= 8192).
  { clear. induction l as [|[data sent] l IH]; intros s s' rs Hb Hc; cbn in Hc; [by injection Hc as <- <-|].
    destruct (call s data sent) as [s1 r] eqn:H1. destruct (call_all s1 l) as [s2 rs2] eqn:H2. injection Hc as <- <-. eapply IH; [|exact H2].
    unfold call, buffered_write in H1. destruct s as [[st p] told framed]. unfold outstanding in *. cbn in *. destruct p as [p|].
    - destruct (negb _); [by injection H1 as <- <-|]. destruct (poll_write st p sent) as [st' []]; injection H1 as <- <-; cbn; [done|unfold len; cbn; lia|unfold len; cbn; lia].
    - set (input := ztake _ data) in *. assert (len input <= 8192) by (subst input; pose proof (len_nonneg data); rewrite len_ztake; lia).
      destruct (poll_write st input sent) as [st' []]; injection H1 as <- <-; cbn; [done|unfold len; cbn; lia|unfold len; cbn; lia]. }
  eapply Hb; [|exact Hc]. unfold outstanding, len; cbn; lia.
Qed.

End writing.

(** ** Reading (tcp.rs) *)

Section reading.
(** The library's decrypting reader, and whether the response's salt is the request's:
    [received_request_nonce() == Some(sent_nonce())]. *)
Context {S : Type} (poll_read_decrypted : S -> Z -> S * answer bytes) (salt_matches : S -> bool).

Record Encrypted := mkEncrypted { inner : S; failed : bool; verified : bool }.

(** [Encrypted::poll_read] into [remaining] bytes of the caller's buffer; a failure leaves the buffer alone. *)
Definition encrypted_read (this : Encrypted) (remaining : Z) : Encrypted * answer bytes :=
  if failed this then (this, Failed)
  else if remaining =? 0 then (this, Ready [])
  else if verified this then
    let '(s, r) := poll_read_decrypted (inner this) remaining in (mkEncrypted s false true, r)
  else
    let '(s, r) := poll_read_decrypted (inner this) (Z.min remaining 8192) in
    match r with
    | Pending => (mkEncrypted s false false, Pending)
    | Failed => (mkEncrypted s false false, Failed)
    | Ready [] => (mkEncrypted s false false, Ready [])
    | Ready b => if negb (salt_matches s) then (mkEncrypted s true false, Failed) else (mkEncrypted s false true, Ready b)
    end.

Fixpoint read_all (this : Encrypted) (l : list Z) : Encrypted * list (bool * answer bytes) :=
  match l with
  | [] => (this, [])
  | n :: l =>
      let '(this, r) := encrypted_read this n in
      let matched := salt_matches (inner this) in
      let '(this, rs) := read_all this l in (this, (matched, r) :: rs)
  end.

Definition exposes (r : answer bytes) : bool := match r with Ready (_ :: _) => true | _ => false end.

Lemma failed_reads this l : failed this = true -> Forall (fun x => snd x = Failed) (snd (read_all this l)).
Proof.
  revert this. induction l as [|n l IH]; intros this Hf; cbn; [done|]. unfold encrypted_read. rewrite Hf. cbn.
  specialize (IH this Hf). destruct (read_all this l) as [t rs]. by constructor.
Qed.

(** No plaintext before the salt is checked.  Reading a response in calls of any size: if any bytes reach the caller, then
    when the first ones do the response carries the request's salt; and after a call has found another salt,
    every call fails. *)
Theorem first_response_is_verified s l pre matched b post :
  snd (read_all (mkEncrypted s false false) l) = pre ++ (matched, Ready b) :: post -> b <> [] -> Forall (fun x => exposes (snd x) = false) pre -> matched = true.
Proof.
  intros Hr Hb Hpre. revert s l Hr. induction pre as [|[m r] pre IH]; intros s l Hr.
  - destruct l as [|n l]; [done|]. cbn in Hr. unfold encrypted_read in Hr. cbn in Hr.
    destruct (n =? 0); [cbn in Hr; destruct (read_all _ l); injection Hr as _ <- _; done|].
    destruct (poll_read_decrypted s (Z.min n 8192)) as [s' [|[|x y]|]]; cbn in Hr.
    3: destruct (salt_matches s') eqn:Hm; cbn in Hr.
    all: destruct (read_all _ l) as [t rs]; injection Hr as Hm' Hr'; try discriminate Hr'; try (injection Hr' as <-; done); congruence.
  - apply Forall_cons in Hpre as [He Hpre]. destruct l as [|n l]; [done|]. cbn in Hr. unfold encrypted_read in Hr. cbn in Hr, He.
    assert (Hstep : forall s', snd (read_all (mkEncrypted s' false false) l) = pre ++ (matched, Ready b) :: post -> matched = true) by (intros s'; by apply IH).
    destruct (n =? 0); [cbn in Hr; specialize (Hstep s); destruct (read_all _ l); cbn in Hr; injection Hr as _ _ Hr; by apply Hstep|].
    destruct (poll_read_decrypted s (Z.min n 8192)) as [s' [|[|x y]|]]; cbn in Hr.
    1, 2, 4: specialize (Hstep s'); destruct (read_all _ l); cbn in Hr; injection Hr as _ _ Hr; by apply Hstep.
    destruct (salt_matches s') eqn:Hm; cbn in Hr; [destruct (read_all _ l); injection Hr as _ <- _; done|].
    pose proof (failed_reads (mkEncrypted s' true false) l eq_refl) as Hall. destruct (read_all _ l) as [t rs]. cbn in *. injection Hr as _ _ ->.
    rewrite Forall_app in Hall. destruct Hall as [_ Hall]. apply Forall_cons in Hall as [Hall _]. done.
Qed.

End reading.

(** ** UDP (server.rs, client.rs) *)

(** The replay window of shadowsocks-service: it accepts a packet id below the limit at most once. *)
Class Window (W : Type) := {
  w_new : W;
  validate : W -> Z -> Z -> W * bool;
}.

Class WindowLaws (W : Type) `{Window W} := {
  seen : W -> Z -> Prop;
  new_unseen : forall id, ~ seen w_new id;
  validate_seen : forall w id limit w' r x, validate w id limit = (w', r) -> seen w x -> seen w' x;
  validate_accepts : forall w id limit w', validate w id limit = (w', true) -> ~ seen w id /\ seen w' id /\ id < limit;
}.

(** [PACKET_LIMIT] *)
Definition PACKET_LIMIT : Z := u64_max - Z.shiftl 1 13.

(** What decryption yields: the session and packet ids, the address and the payload. *)
Record opened := mkOpened { session : Z; packet_id : Z; target : Target; payload : bytes }.

Abbreviation SocketAddr := (Packet.IpAddress * Z)%type.

Section udp.
Context {W : Type} `{Window W}.

(** [Association]; [incarnation] tells apart the associations that had the same session id. *)
Record Association := mkAssociation { peer : SocketAddr; server : Z; packet : Z; window : W; active : Z; incarnation : nat }.

(** The loop's state, with what went to the sessions and to the socket. *)
Record Server := mkServer {
  associations : gmap Z Association;
  made : nat;
  delivered : list (nat * Z * (Target * bytes));
  replied : list (nat * (Z * Z) * SocketAddr);
  (** when each association's window accepted a packet, and when a reply of it was encrypted *)
  activity : list (nat * Z);
}.

Definition start : Server := mkServer ∅ 0 [] [] [].

(** [retention], from the idle timeout *)
Definition retention (idle : Z) : Z := Z.max idle (60 * 1000000000).

(** The timer: idle associations go. *)
Definition expire (idle now : Z) (s : Server) : Server :=
  mkServer (filter (fun '(_, a) => now < active a + retention idle) (associations s)) (made s) (delivered s) (replied s) (activity s).

(** A datagram: the association is found or made, the window checked, the session served.  A refused
    [spawn] ends the server. *)
Definition receive (now : Z) (from : SocketAddr) (decrypted : option opened) (random : Z) (spawned room : bool) (s : Server) : option Server :=
  match decrypted with
  | None => Some s
  | Some o =>
      let id := session o in
      let entry :=
        match associations s !! id with
        | Some _ => Some (Some s)
        | None =>
            if 4096 <=? Z.of_nat (size (associations s)) then Some None
            else if spawned then
              Some (Some (mkServer (<[id := mkAssociation from random 0 w_new now (made s)]> (associations s)) (S (made s)) (delivered s) (replied s) (activity s)))
            else None
        end in
      match entry with
      | None => None
      | Some None => Some s
      | Some (Some s) =>
          match associations s !! id with
          | None => None                            (* [expect("inserted association")] *)
          | Some a =>
              let '(w, ok) := validate (window a) (packet_id o) PACKET_LIMIT in
              if negb ok then
                Some (mkServer (<[id := mkAssociation (peer a) (server a) (packet a) w (active a) (incarnation a)]> (associations s)) (made s) (delivered s) (replied s) (activity s))
              else
                Some (mkServer (<[id := mkAssociation from (server a) (packet a) w now (incarnation a)]> (associations s)) (made s)
                        (delivered s ++ if room : bool then [(incarnation a, packet_id o, (target o, payload o))] else []) (replied s) (activity s ++ [(incarnation a, now)]))
          end
      end
  end.

(** A reply of a session; [wire] is the length of its encryption. *)
Definition reply (now id wire : Z) (s : Server) : Server :=
  match associations s !! id with
  | None => s
  | Some a =>
      let packet := packet a + 1 in
      if PACKET_LIMIT <=? packet then mkServer (delete id (associations s)) (made s) (delivered s) (replied s) (activity s)
      else mkServer (<[id := mkAssociation (peer a) (server a) packet (window a) now (incarnation a)]> (associations s)) (made s) (delivered s)
             (replied s ++ if wire <=? 65507 then [(incarnation a, (server a, packet), peer a)] else []) (activity s ++ [(incarnation a, now)])
  end.

Inductive event :=
  | Expire (idle now : Z)
  | Receive (now : Z) (from : SocketAddr) (decrypted : option opened) (random : Z) (spawned room : bool)
  | Reply (now id wire : Z).

Definition step (s : Server) (ev : event) : option Server :=
  match ev with
  | Expire idle now => Some (expire idle now s)
  | Receive now from decrypted random spawned room => receive now from decrypted random spawned room s
  | Reply now id wire => Some (reply now id wire s)
  end.

(** The clock when an event happens. *)
Definition moment (ev : event) : Z := match ev with Expire _ now | Receive now _ _ _ _ _ | Reply now _ _ => now end.

Fixpoint run (s : Server) (evs : list event) : option Server :=
  match evs with
  | [] => Some s
  | ev :: evs => s ← step s ev; run s evs
  end.

(** ** The client's association *)

Record Client := mkClient {
  client_id : Z;
  sent_id : Z;
  windows : gmap Z W;
  received : list (Z * Z * (Target * bytes));
  sent : list Z;
}.

(** A datagram of the carrier: the session must be the client's, at most 1024 servers are followed. *)
Definition client_receive (decrypted : option (Z * opened)) (room : bool) (c : Client) : Client :=
  match decrypted with
  | None => c
  | Some (for_client, o) =>
      if negb (for_client =? client_id c) then c
      else if (1024 <=? Z.of_nat (size (windows c))) && negb (bool_decide (is_Some (windows c !! session o))) then c
      else
        let '(w, ok) := validate (default w_new (windows c !! session o)) (packet_id o) PACKET_LIMIT in
        mkClient (client_id c) (sent_id c) (<[session o := w]> (windows c))
          (received c ++ if ok && room then [(session o, packet_id o, (target o, payload o))] else []) (sent c)
  end.

(** A packet of the application; an exhausted counter ends the association. *)
Definition client_send (wire : Z) (c : Client) : option Client :=
  let id := sent_id c + 1 in
  if negb (id <? PACKET_LIMIT) then None
  else Some (mkClient (client_id c) id (windows c) (received c) (sent c ++ if 65507 <? wire then [] else [id])).

Inductive client_event := CReceive (decrypted : option (Z * opened)) (room : bool) | CSend (wire : Z).

Definition client_step (c : Client) (ev : client_event) : option Client :=
  match ev with CReceive decrypted room => Some (client_receive decrypted room c) | CSend wire => client_send wire c end.

Fixpoint client_run (c : Client) (evs : list client_event) : option Client :=
  match evs with
  | [] => Some c
  | ev :: evs => c ← client_step c ev; client_run c evs
  end.

Definition client_start (id : Z) : Client := mkClient id 0 ∅ [] [].

Section replay.
Context `{!WindowLaws W}.

Record Inv (s : Server) : Prop := {
  v_size : (size (associations s) <= 4096)%nat;
  v_made : forall id a, associations s !! id = Some a -> (incarnation a < made s)%nat;
  v_unique : forall id id' a a', associations s !! id = Some a -> associations s !! id' = Some a' -> incarnation a = incarnation a' -> id = id';
  v_delivered : forall x, x ∈ delivered s -> (x.1.1 < made s)%nat /\ forall id a, associations s !! id = Some a -> incarnation a = x.1.1 -> seen (window a) x.1.2;
  v_once : NoDup (fst <$> delivered s);
  v_replied : forall x, x ∈ replied s -> (x.1.1 < made s)%nat /\ x.1.2.2 < PACKET_LIMIT /\ forall id a, associations s !! id = Some a -> incarnation a = x.1.1 -> x.1.2.2 <= packet a;
  v_fresh : NoDup ((fun x => (x.1.1, x.1.2.2)) <$> replied s);
}.

(** The log of activity is only read. *)
Lemma activity_inv s l : Inv s -> Inv (mkServer (associations s) (made s) (delivered s) (replied s) l).
Proof. by intros []. Qed.

(** An association's entry changes: its incarnation stays, its window and counter do not go back. *)
Lemma update_inv s id a a' :
  Inv s -> associations s !! id = Some a -> incarnation a' = incarnation a -> (forall x, seen (window a) x -> seen (window a') x) -> packet a <= packet a' ->
  Inv (mkServer (<[id := a']> (associations s)) (made s) (delivered s) (replied s) (activity s)).
Proof.
  intros [Hs Hm Hu Hd Ho Hr Hf] Ha Hi Hw Hp.
  assert (Hcase : forall k x, <[id := a']> (associations s) !! k = Some x -> exists y, associations s !! k = Some y /\ incarnation x = incarnation y /\ (forall z, seen (window y) z -> seen (window x) z) /\ packet y <= packet x).
  { intros k x. destruct (decide (k = id)) as [->|]; [rewrite lookup_insert_eq; intros [= <-]; by exists a|rewrite lookup_insert_ne by done; intros ?; exists x; split_and!; [done|done|done|lia]]. }
  constructor; cbn; try done.
  - by rewrite map_size_insert_Some by (by eexists).
  - intros k x (y & Hy & -> & _)%Hcase. by eapply Hm.
  - intros k k' x x' (y & Hy & Hxy & _)%Hcase (y' & Hy' & Hxy' & _)%Hcase Heq. eapply Hu; [exact Hy|exact Hy'|congruence].
  - intros x Hx. destruct (Hd x Hx) as [? Hseen]. split; [done|]. intros k y (z & Hz & Hyz & Hmon & _)%Hcase Hinc. apply Hmon. eapply Hseen; [exact Hz|congruence].
  - intros x Hx. destruct (Hr x Hx) as (? & ? & Hle). split_and!; try done. intros k y (z & Hz & Hyz & _ & Hpk)%Hcase Hinc. pose proof (Hle k z Hz ltac:(congruence)). lia.
Qed.

Lemma shrink_inv s m : Inv s -> m ⊆ associations s -> Inv (mkServer m (made s) (delivered s) (replied s) (activity s)).
Proof.
  intros [Hs Hm Hu Hd Ho Hr Hf] Hsub. assert (Hin : forall k x, m !! k = Some x -> associations s !! k = Some x) by (intros k x Hx; by eapply lookup_weaken).
  constructor; cbn; try done.
  - apply map_subseteq_size in Hsub. lia.
  - intros k a Ha%Hin. by eapply Hm.
  - intros k k' a a' Ha%Hin Ha'%Hin. by eapply Hu.
  - intros x Hx. destruct (Hd x Hx) as [? Hseen]. split; [done|]. intros k a Ha. by eapply Hseen, Hin.
  - intros x Hx. destruct (Hr x Hx) as (? & ? & Hle). split_and!; try done. intros k a Ha. by eapply Hle, Hin.
Qed.

Lemma add_inv s id a :
  Inv s -> associations s !! id = None -> ~ 4096 <= Z.of_nat (size (associations s)) -> incarnation a = made s -> Inv (mkServer (<[id := a]> (associations s)) (S (made s)) (delivered s) (replied s) (activity s)).
Proof.
  intros [Hs Hm Hu Hd Ho Hr Hf] Ha Hlt Hi.
  assert (Hcase : forall k x, <[id := a]> (associations s) !! k = Some x -> k = id /\ x = a \/ associations s !! k = Some x).
  { intros k x. destruct (decide (k = id)) as [->|]; [rewrite lookup_insert_eq; intros [= <-]; by left|rewrite lookup_insert_ne by done; by right]. }
  constructor; cbn; try done.
  - rewrite map_size_insert_None by done. lia.
  - intros k x [[-> ->]|Hx]%Hcase; [lia|]. apply Hm in Hx. lia.
  - intros k k' x x' [[-> ->]|Hx]%Hcase [[-> ->]|Hx']%Hcase Heq; try done.
    + apply Hm in Hx'. lia.
    + apply Hm in Hx. lia.
    + by eapply Hu.
  - intros x Hx. destruct (Hd x Hx) as [? Hseen]. split; [lia|]. intros k y [[-> ->]|Hy]%Hcase Hinc; [lia|by eapply Hseen].
  - intros x Hx. destruct (Hr x Hx) as (? & ? & Hle). split_and!; try done; [lia|]. intros k y [[-> ->]|Hy]%Hcase Hinc; [lia|by eapply Hle].
Qed.

Lemma deliver_inv s id a x :
  Inv s -> associations s !! id = Some a -> x.1.1 = incarnation a -> seen (window a) x.1.2 -> x.1 ∉ fst <$> delivered s ->
  Inv (mkServer (associations s) (made s) (delivered s ++ [x]) (replied s) (activity s)).
Proof.
  intros [Hs Hm Hu Hd Ho Hr Hf] Ha Hx Hseen Hno. constructor; cbn; try done.
  - intros y [Hy| ->%list_elem_of_singleton]%elem_of_app; [by apply Hd|]. split; [rewrite Hx; by eapply Hm|]. intros k b Hb Hinc.
    assert (k = id) as -> by (eapply Hu; [exact Hb|exact Ha|congruence]). simplify_eq. done.
  - rewrite fmap_app. apply NoDup_app. split_and!; [done| |apply NoDup_singleton]. intros y Hy ->%list_elem_of_singleton. done.
Qed.

Lemma ss_receive_inv now from decrypted random spawned room s s' : Inv s -> receive now from decrypted random spawned room s = Some s' -> Inv s'.
Proof.
  intros Hinv. unfold receive. destruct decrypted as [o|]; [|by intros [= <-]]. set (id := session o).
  assert (Hknown : forall s1 s', Inv s1 -> match associations s1 !! id with
      | None => None
      | Some a => let '(w, ok) := validate (window a) (packet_id o) PACKET_LIMIT in
          if negb ok then Some (mkServer (<[id := mkAssociation (peer a) (server a) (packet a) w (active a) (incarnation a)]> (associations s1)) (made s1) (delivered s1) (replied s1) (activity s1))
          else Some (mkServer (<[id := mkAssociation from (server a) (packet a) w now (incarnation a)]> (associations s1)) (made s1)
                       (delivered s1 ++ if room : bool then [(incarnation a, packet_id o, (target o, payload o))] else []) (replied s1) (activity s1 ++ [(incarnation a, now)]))
      end = Some s' -> Inv s').
  { intros s1 s2 Hi1. destruct (associations s1 !! id) as [a|] eqn:Ha; [|done]. destruct (validate (window a) (packet_id o) PACKET_LIMIT) as [w ok] eqn:Hv.
    assert (Hmon : forall x, seen (window a) x -> seen w x) by (intros x; by eapply validate_seen). destruct ok; cbn [negb]; intros [= <-].
    - destruct (validate_accepts _ _ _ _ Hv) as (Hns & Hsn & _). set (a' := mkAssociation from (server a) (packet a) w now (incarnation a)).
      pose proof (activity_inv _ (activity s1 ++ [(incarnation a, now)]) (update_inv s1 id a a' Hi1 Ha eq_refl Hmon ltac:(cbn; lia))) as Hi2. destruct room; [|by rewrite app_nil_r].
      pose proof (deliver_inv (mkServer (<[id := a']> (associations s1)) (made s1) (delivered s1) (replied s1) (activity s1 ++ [(incarnation a, now)])) id a' (incarnation a, packet_id o, (target o, payload o)) Hi2) as Hgo.
      cbn in Hgo. apply Hgo; try done; [apply lookup_insert_eq|].
      intros (x & Hx & Hin)%list_elem_of_fmap. destruct (v_delivered _ Hi1 x Hin) as [_ Hsx]. apply Hns. specialize (Hsx id a Ha). rewrite <- Hx in Hsx. by apply Hsx.
    - by apply (update_inv s1 id a). }
  destruct (associations s !! id) as [a|] eqn:Ha; [by apply Hknown|].
  destruct (4096 <=? Z.of_nat (size (associations s))) eqn:Hsz; [by intros [= <-]|]. zify_bool. destruct spawned; [|done]. apply Hknown. apply add_inv; [done|done|lia|done].
Qed.

Lemma reply_inv now id wire s : Inv s -> Inv (reply now id wire s).
Proof.
  intros Hinv. unfold reply. destruct (associations s !! id) as [a|] eqn:Ha; [|done]. destruct (PACKET_LIMIT <=? packet a + 1) eqn:Hl; zify_bool.
  { apply shrink_inv; [done|]. apply delete_subseteq. }
  set (a' := mkAssociation (peer a) (server a) (packet a + 1) (window a) now (incarnation a)).
  pose proof (activity_inv _ (activity s ++ [(incarnation a, now)]) (update_inv s id a a' Hinv Ha eq_refl (fun x Hx => Hx) ltac:(cbn; lia))) as Hi2.
  destruct (wire <=? 65507); [|by rewrite app_nil_r]. destruct Hi2 as [Hs Hm Hu Hd Ho Hr Hf].
  constructor; cbn in *; try done.
  - intros y [Hy| ->%list_elem_of_singleton]%elem_of_app; [by apply Hr|]. cbn. split_and!; [by eapply (v_made _ Hinv)|lia|]. intros k b Hb Hinc.
    assert (k = id) as -> by (eapply Hu; [exact Hb|apply lookup_insert_eq|exact Hinc]). rewrite lookup_insert_eq in Hb. injection Hb as <-. cbn. lia.
  - rewrite fmap_app. apply NoDup_app. split_and!; [done| |apply NoDup_singleton]. intros y Hy ->%list_elem_of_singleton. cbn in Hy.
    apply list_elem_of_fmap in Hy as (x & Hx & Hin). destruct (v_replied _ Hinv x Hin) as (_ & _ & Hle). injection Hx as Hx1 Hx2. specialize (Hle id a Ha Hx1). lia.
Qed.

Lemma ss_run_inv s evs s' : Inv s -> run s evs = Some s' -> Inv s'.
Proof.
  revert s. induction evs as [|ev evs IH]; intros s Hs Hr; cbn in Hr; [by injection Hr as <-|].
  destruct (step s ev) as [s1|] eqn:H1; [|done]. cbn in Hr. eapply IH; [|exact Hr]. destruct ev as [idle now|now from decrypted random spawned room|now id wire]; cbn in H1.
  - injection H1 as <-. apply shrink_inv; [done|]. apply map_filter_subseteq.
  - by eapply ss_receive_inv.
  - injection H1 as <-. by apply reply_inv.
Qed.

Lemma ss_start_inv : Inv start.
Proof. constructor; cbn; try (intros; by rewrite lookup_empty in * ); try (by intros x ?%elem_of_nil); try constructor. rewrite map_size_empty. lia. Qed.

(** What [active] stands for, at time [now]: no activity of a live association is later than its [active]. *)
Record Fresh (now : Z) (s : Server) : Prop := {
  f_past : forall x, x ∈ activity s -> x.2 <= now;
  f_made : forall x, x ∈ activity s -> (x.1 < made s)%nat;
  f_active : forall id a x, associations s !! id = Some a -> x ∈ activity s -> x.1 = incarnation a -> x.2 <= active a;
}.

(** Activity is noted together with the association's [active]. *)
Lemma touch_fresh t now s id a a' d r :
  Inv s -> Fresh t s -> t <= now -> associations s !! id = Some a -> incarnation a' = incarnation a -> active a' = now ->
  Fresh now (mkServer (<[id := a']> (associations s)) (made s) d r (activity s ++ [(incarnation a, now)])).
Proof.
  intros Hi [Hp Hm Ha] Ht Hid Hinc Hact. constructor; cbn.
  - intros x [Hx%Hp| ->%list_elem_of_singleton]%elem_of_app; cbn; lia.
  - intros x [Hx%Hm| ->%list_elem_of_singleton]%elem_of_app; [done|]. by eapply (v_made _ Hi).
  - intros k b x Hk Hx Heq. destruct (decide (k = id)) as [->|Hne].
    + rewrite lookup_insert_eq in Hk. injection Hk as <-. rewrite Hact. apply elem_of_app in Hx as [Hx%Hp| ->%list_elem_of_singleton]; cbn; lia.
    + rewrite lookup_insert_ne in Hk by done. apply elem_of_app in Hx as [Hx| ->%list_elem_of_singleton]; [by eapply Ha|].
      destruct Hne. by eapply (v_unique _ Hi k id).
Qed.

(** Associations go, and entries change that keep incarnation and [active]. *)
Lemma keep_fresh t now s m d r :
  Fresh t s -> t <= now -> (forall id a, m !! id = Some a -> exists b, associations s !! id = Some b /\ incarnation a = incarnation b /\ active a = active b) ->
  Fresh now (mkServer m (made s) d r (activity s)).
Proof.
  intros [Hp Hm Ha] Ht Hsub. constructor; cbn; [intros x Hx%Hp; lia|done|]. intros id a x (b & Hb & Hinc & ->)%Hsub Hx Heq. eapply Ha; [exact Hb|done|congruence].
Qed.

Lemma add_fresh t s id a : Fresh t s -> incarnation a = made s -> Fresh t (mkServer (<[id := a]> (associations s)) (S (made s)) (delivered s) (replied s) (activity s)).
Proof.
  intros [Hp Hm Ha] Hinc. constructor; cbn; [done|intros x Hx%Hm; lia|]. intros k b x Hk Hx Heq.
  destruct (decide (k = id)) as [->|]; [rewrite lookup_insert_eq in Hk; injection Hk as <-; apply Hm in Hx; lia|rewrite lookup_insert_ne in Hk by done; by eapply Ha].
Qed.

Lemma ss_receive_fresh t now from decrypted random spawned room s s' :
  Inv s -> Fresh t s -> t <= now -> receive now from decrypted random spawned room s = Some s' -> Fresh now s'.
Proof.
  intros Hinv Hf Ht. assert (Hlater : Fresh now s) by (destruct Hf as [Hp ? ?]; constructor; [intros x Hx%Hp; lia|done|done]).
  unfold receive. destruct decrypted as [o|]; [|by intros [= <-]]. set (id := session o).
  assert (Hknown : forall s1 s', Inv s1 -> Fresh t s1 -> match associations s1 !! id with
      | None => None
      | Some a => let '(w, ok) := validate (window a) (packet_id o) PACKET_LIMIT in
          if negb ok then Some (mkServer (<[id := mkAssociation (peer a) (server a) (packet a) w (active a) (incarnation a)]> (associations s1)) (made s1) (delivered s1) (replied s1) (activity s1))
          else Some (mkServer (<[id := mkAssociation from (server a) (packet a) w now (incarnation a)]> (associations s1)) (made s1)
                       (delivered s1 ++ if room : bool then [(incarnation a, packet_id o, (target o, payload o))] else []) (replied s1) (activity s1 ++ [(incarnation a, now)]))
      end = Some s' -> Fresh now s').
  { intros s1 s2 Hi1 Hf1. destruct (associations s1 !! id) as [a|] eqn:Ha; [|done].
    destruct (validate (window a) (packet_id o) PACKET_LIMIT) as [w []]; cbn [negb]; intros [= <-]; [by eapply touch_fresh|].
    eapply keep_fresh; [done|done|]. intros k b Hk. destruct (decide (k = id)) as [->|]; [|rewrite lookup_insert_ne in Hk by done; by eexists].
    rewrite lookup_insert_eq in Hk. injection Hk as <-. by exists a. }
  destruct (associations s !! id) as [a|] eqn:Ha; [by apply Hknown|].
  destruct (4096 <=? Z.of_nat (size (associations s))) eqn:Hsz; [by intros [= <-]|]. zify_bool. destruct spawned; [|done].
  apply Hknown; [apply add_inv; [done|done|lia|done]|by apply add_fresh].
Qed.

Lemma ss_step_fresh t s ev s' : Inv s -> Fresh t s -> t <= moment ev -> step s ev = Some s' -> Fresh (moment ev) s'.
Proof.
  intros Hinv Hf Ht. destruct ev as [idle now|now from decrypted random spawned room|now id wire]; cbn in *.
  - intros [= <-]. eapply keep_fresh; [done|done|]. intros id a [Ha _]%map_lookup_filter_Some. by exists a.
  - by eapply ss_receive_fresh.
  - intros [= <-]. unfold reply. destruct (associations s !! id) as [a|] eqn:Ha; [|destruct Hf as [Hp ? ?]; constructor; [intros x Hx%Hp; lia|done|done]].
    destruct (PACKET_LIMIT <=? packet a + 1); [|by eapply touch_fresh].
    eapply keep_fresh; [done|done|]. intros k b [_ Hk]%lookup_delete_Some. by exists b.
Qed.

Lemma ss_run_fresh t s evs s' : Inv s -> Fresh t s -> Sorted Z.le (t :: (moment <$> evs)) -> run s evs = Some s' -> exists t', Fresh t' s'.
Proof.
  revert t s. induction evs as [|ev evs IH]; intros t s Hi Hf Hs Hr; cbn in Hr; [injection Hr as <-; by exists t|].
  destruct (step s ev) as [s1|] eqn:H1; [|done]. cbn in Hr, Hs. inversion Hs as [|? ? Hs' Hhd]; subst. inversion Hhd; subst.
  eapply (IH (moment ev)); [|by eapply ss_step_fresh|exact Hs'|exact Hr]. eapply (ss_run_inv s [ev]); [done|]. cbn. by rewrite H1.
Qed.

(** C37. UDP sessions are not replayed.  Whatever datagrams, replies and timeouts a server sees: of each association a packet id
    reaches the session at most once; the ids under which replies are encrypted never repeat within an association and stay
    below the limit; at most 4096 associations exist; and, on a clock that does not go back, an association that the timer
    removes has had every packet its window accepted and every reply encrypted for it at least a minute before. *)
Theorem udp_sessions_not_replayed evs s :
  run start evs = Some s ->
  NoDup (fst <$> delivered s) /\ NoDup ((fun x => (x.1.1, x.1.2.2)) <$> replied s) /\ (forall x, x ∈ replied s -> x.1.2.2 < PACKET_LIMIT) /\
  (size (associations s) <= 4096)%nat /\
  (Sorted Z.le (moment <$> evs) ->
   forall idle now id a, associations s !! id = Some a -> associations (expire idle now s) !! id = None ->
     forall t, (incarnation a, t) ∈ activity s -> t + 60 * 1000000000 <= now).
Proof.
  intros Hr. pose proof (ss_run_inv start evs s ss_start_inv Hr) as Hinv. split_and!; [apply Hinv|apply Hinv| |apply Hinv|].
  - intros x Hx. by destruct (v_replied _ Hinv x Hx) as (_ & ? & _).
  - intros Hs idle now id a Ha Hn t Ht. assert (Hf : exists t', Fresh t' s).
    { assert (Hstart : forall t0, Fresh t0 start) by (intros t0; constructor; cbn; intros; set_solver). destruct evs as [|ev evs]; [injection Hr as <-; by exists 0|].
      apply (ss_run_fresh (moment ev) start (ev :: evs)); [apply ss_start_inv|apply Hstart|constructor; [exact Hs|constructor; lia]|exact Hr]. }
    destruct Hf as [t' Hf]. pose proof (f_active _ _ Hf id a _ Ha Ht eq_refl) as Hle. cbn in Hle, Hn.
    apply map_lookup_filter_None in Hn as [Hn|Hn]; [congruence|]. specialize (Hn a Ha). cbn in Hn. unfold retention in Hn. lia.
Qed.

(** The client's side. *)
Record cInv (c : Client) : Prop := {
  c_size : (size (windows c) <= 1024)%nat;
  c_received : forall x, x ∈ received c -> exists w, windows c !! x.1.1 = Some w /\ seen w x.1.2;
  c_once : NoDup (fst <$> received c);
  c_sent : NoDup (sent c) /\ Forall (fun i => 0 < i <= sent_id c) (sent c);
  c_id : 0 <= sent_id c < PACKET_LIMIT;
}.

Lemma client_receive_inv decrypted room c : cInv c -> cInv (client_receive decrypted room c).
Proof.
  intros [Hs Hr Ho Hsent Hid]. unfold client_receive. destruct decrypted as [[for_client o]|]; [|done]. destruct (negb (for_client =? client_id c)); [done|].
  destruct ((1024 <=? _) && _) eqn:Hfull; [done|]. destruct (validate _ (packet_id o) PACKET_LIMIT) as [w ok] eqn:Hv. set (old := default w_new (windows c !! session o)) in *.
  assert (Hmon : forall x, seen old x -> seen w x) by (intros x; by eapply validate_seen).
  assert (Hold : forall x, x ∈ received c -> exists w', <[session o := w]> (windows c) !! x.1.1 = Some w' /\ seen w' x.1.2).
  { intros x Hx. destruct (Hr x Hx) as (y & Hy & Hseen). destruct (decide (x.1.1 = session o)) as [Heq|]; [|rewrite lookup_insert_ne by done; by eexists].
    rewrite Heq, lookup_insert_eq. exists w. split; [done|]. apply Hmon. unfold old. rewrite <- Heq, Hy. done. }
  constructor; cbn; try done.
  - destruct (windows c !! session o) as [y|] eqn:Hy; [rewrite map_size_insert_Some by (by eexists); done|]. rewrite map_size_insert_None by done.
    rewrite bool_decide_eq_false_2 in Hfull by (intros [? ?]; done). cbn in Hfull. rewrite andb_true_r in Hfull. zify_bool. lia.
  - intros x [Hx|Hx]%elem_of_app; [by apply Hold|]. destruct ok, room; cbn in Hx; try by apply elem_of_nil in Hx. apply list_elem_of_singleton in Hx as ->. cbn. rewrite lookup_insert_eq.
    exists w. split; [done|]. by apply (validate_accepts _ _ _ _ Hv).
  - rewrite fmap_app. apply NoDup_app. split_and!; [done| |destruct ok, room; cbn; try apply NoDup_nil_2; apply NoDup_singleton].
    intros y Hy Hin. destruct ok, room; cbn in Hin; try by apply elem_of_nil in Hin. apply list_elem_of_singleton in Hin as ->.
    apply list_elem_of_fmap in Hy as (x & Hx & Hin). destruct (Hr x Hin) as (y & Hy & Hseen). destruct (validate_accepts _ _ _ _ Hv) as [Hno _]. apply Hno.
    unfold old. rewrite <- Hx in Hy, Hseen. cbn in Hy, Hseen. by rewrite Hy.
Qed.

Lemma client_send_inv wire c c' : cInv c -> client_send wire c = Some c' -> cInv c'.
Proof.
  intros [Hs Hr Ho [Hnd Hall] Hid]. unfold client_send. destruct (sent_id c + 1 <? PACKET_LIMIT) eqn:Hl; cbn [negb]; [|done]. zify_bool. intros [= <-].
  assert (Hall' : Forall (fun i => 0 < i <= sent_id c + 1) (sent c)) by (eapply Forall_impl; [exact Hall|]; cbn; lia).
  constructor; cbn; try done; [|lia]. destruct (65507 <? wire); [by rewrite app_nil_r|]. split.
  - apply NoDup_app. split_and!; [done| |apply NoDup_singleton]. intros x Hx ->%list_elem_of_singleton. rewrite Forall_forall in Hall. specialize (Hall _ Hx). lia.
  - apply Forall_app. split; [done|]. apply Forall_singleton. lia.
Qed.

(** A client's association neither repeats nor accepts a repetition: the packet ids it encrypts under are distinct and below
    the limit, each packet of a server's session is handed on at most once, and it follows at most 1024 sessions. *)
Theorem client_packets_not_replayed id evs c :
  client_run (client_start id) evs = Some c ->
  NoDup (fst <$> received c) /\ NoDup (sent c) /\ Forall (fun i => 0 < i < PACKET_LIMIT) (sent c) /\ (size (windows c) <= 1024)%nat.
Proof.
  intros Hr. assert (Hi : cInv c).
  { assert (H0 : cInv (client_start id)).
    { constructor; cbn; [rewrite map_size_empty; lia|by intros x ?%elem_of_nil|apply NoDup_nil_2|split; [apply NoDup_nil_2|apply Forall_nil_2]|split; [lia|reflexivity]]. }
    revert H0 Hr. generalize (client_start id) as c0. induction evs as [|ev evs IH]; intros c0 H0 Hr; cbn in Hr; [by injection Hr as <-|].
    destruct (client_step c0 ev) as [c1|] eqn:H1; [|done]. cbn in Hr. eapply IH; [|exact Hr]. destruct ev as [decrypted room|wire]; cbn in H1.
    - injection H1 as <-. by apply client_receive_inv.
    - by eapply client_send_inv. }
  destruct Hi as [Hs Hrec Ho [Hnd Hall] Hid]. split_and!; try done. eapply Forall_impl; [exact Hall|]. cbn. lia.
Qed.

End replay.

End udp.

(** ** Examples *)

(** A writer that behaves as the library's does. *)
Definition late_write (s : option bytes) (b : bytes) (done_now : bool) : option bytes * answer Z :=
  match s with
  | Some f => if done_now then (None, Ready (len b)) else (Some f, Pending)
  | None => if done_now then (None, Ready (len b)) else (Some b, Pending)
  end.

Lemma late_write_laws : WriterLaws (fun s => s) late_write.
Proof. constructor; intros s; intros; destruct s; simplify_eq; unfold late_write; match goal with |- context [if ?b then _ else _] => by destruct b end. Qed.

(** Without the wrapper, growing the input between retries makes it report bytes it never sent. *)
Lemma bare_write_overreports : exists s, late_write None [1; 2] false = (s, Pending) /\ late_write s [1; 2; 3] true = (None, Ready 3).
Proof. by exists (Some [1; 2]). Qed.

Definition retries : list (bytes * bool) := [([1; 2], false); ([1; 2; 3], false); ([1; 2; 3; 4], true); ([3; 4], true)].

Lemma buffered_writes_exact_witness :
  let s := fst (call_all late_write (mkCalls (new None) [] []) retries) in framed s = told s ++ outstanding (writer s) /\ told s = [1; 2; 3; 4].
Proof.
  split; [|reflexivity].
  apply (buffered_writes_exact (fun s => s) late_write None retries _ [Pending; Pending; Ready 2; Ready 2] late_write_laws eq_refl eq_refl).
  repeat constructor; discriminate.
Defined.

(** A response that arrives in two parts; the salt is known with the first bytes. *)
Definition demo_read (s : list bytes) (n : Z) : list bytes * answer bytes :=
  match s with [] => ([], Ready []) | b :: s => match b with [] => (s, Pending) | _ => (s, Ready (ztake n b)) end end.

Lemma first_response_is_verified_witness :
  snd (read_all demo_read (fun _ => true) (mkEncrypted [[]; [1; 2]; [3]] false false) [4; 4; 4]) = [(true, Pending)] ++ (true, Ready [1; 2]) :: [(true, Ready [3])] /\ true = true.
Proof.
  split; [reflexivity|].
  apply (first_response_is_verified demo_read (fun _ => true) [[]; [1; 2]; [3]] [4; 4; 4] [(true, Pending)] true [1; 2] [(true, Ready [3])]); [reflexivity|discriminate|].
  repeat constructor.
Defined.

(** A window that remembers every id. *)
#[local] Instance set_window : Window (gset Z) := {|
  w_new := ∅;
  validate w id limit := if bool_decide (id ∈ w) || (limit <=? id) then (w, false) else ({[id]} ∪ w, true);
|}.

#[local] Instance set_window_laws : WindowLaws (gset Z).
Proof.
  refine {| seen (w : gset Z) id := id ∈ w |}; cbn.
  - intros id. apply not_elem_of_empty.
  - intros w id limit w' r x. destruct (_ || _); intros [= <- <-]; set_solver.
  - intros w id limit w'. destruct (bool_decide (id ∈ w)) eqn:Hin; cbn; [done|]. apply bool_decide_eq_false in Hin. destruct (limit <=? id) eqn:Hl; [done|]. zify_bool.
    intros [= <-]. set_solver.
Qed.

Definition someone : SocketAddr := (Packet.Ipv4 1, 2).
Definition datagram (id : Z) : option opened := Some (mkOpened 7 id (Ip (Packet.Ipv4 9) 53) [id]).

Definition demo_events : list event :=
  [Receive 1 someone (datagram 5) 11 true true; Receive 2 someone (datagram 5) 12 true true; Receive 3 someone (datagram 4) 13 true true; Reply 4 7 100; Reply 5 7 100].

Lemma udp_sessions_not_replayed_witness :
  exists s, run start demo_events = Some s /\ fst <$> delivered s = [(0%nat, 5); (0%nat, 4)] /\ (size (associations s) <= 4096)%nat /\
    activity s = [(0%nat, 1); (0%nat, 3); (0%nat, 4); (0%nat, 5)] /\ is_Some (associations (expire 0 60000000004 s) !! 7) /\
    associations (expire 0 60000000005 s) !! 7 = None /\ 5 + 60 * 1000000000 <= 60000000005.
Proof.
  eexists. split; [vm_compute; reflexivity|]. split; [reflexivity|]. pose proof (udp_sessions_not_replayed demo_events _ eq_refl) as (_ & _ & _ & Hsize & Hidle).
  split; [exact Hsize|]. split; [reflexivity|]. split; [by eexists|]. split; [reflexivity|].
  eapply (Hidle ltac:(repeat constructor; cbn; lia) 0 60000000005 7); [reflexivity|reflexivity|]. cbn. set_solver.
Defined.

Lemma client_packets_not_replayed_witness :
  exists c, client_run (client_start 3) [CSend 100; CReceive (pair 3 <$> datagram 5) true; CReceive (pair 3 <$> datagram 5) true; CSend 70000; CSend 10] = Some c /\
    sent c = [1; 3] /\ NoDup (fst <$> received c).
Proof.
  eexists. split; [vm_compute; reflexivity|]. split; [reflexivity|].
  refine (proj1 (client_packets_not_replayed 3 [CSend 100; CReceive (pair 3 <$> datagram 5) true; CReceive (pair 3 <$> datagram 5) true; CSend 70000; CSend 10] _ _)).
  vm_compute. reflexivity.
Defined.

End Shadowsocks.
