(* ===== verification/Sessions.v ===== *)
(** * UDP associations of the daemon (crates/daemon/src/network/udp.rs)

    An inbound's UDP association is split by destination into sessions.  The scopes of Scope.v
    appear as their closed flags, the queues of Queue.v as the packets they hold and whether a send
    is taken. *)

From S2P Require Import Prelude Packet NetText.
Import NetText.

Module Sessions.

#[export] Instance Target_countable : Countable Target.
Proof.
  apply (inj_countable' (fun t => match t with Domain n p => inl (n, p) | Ip (Packet.Ipv4 a) p => inr (inl (a, p)) | Ip (Packet.Ipv6 a) p => inr (inr (a, p)) end)
    (fun x => match x with inl (n, p) => Domain n p | inr (inl (a, p)) => Ip (Packet.Ipv4 a) p | inr (inr (a, p)) => Ip (Packet.Ipv6 a) p end)).
  by intros [|[] ?].
Defined.

(** ** The association (network/udp.rs) *)

Record Packet := mkPacket { target : Target; payload : bytes }.

(** A spawned session: its destination, its scope, whether its future still exists, and its queue
    with what it has taken from it. *)
Record Session := mkSession { s_target : Target; s_closed : bool; s_running : bool; s_taken : list Packet; s_queue : list Packet }.

(** [route_packets]: the entries, each with the generation that names its sender and scope; the
    spawned sessions; the unread completions; and the logs of what came and of what sessions got. *)
Record t := mkT {
  sessions : gmap Target Z;
  tasks : gmap Z Session;
  completions : list (Target * Z);
  generation : Z;
  closed : bool;
  returned : bool;
  arrived : list Packet;
  accepted : list (Z * Packet);
}.

Definition start : t := mkT ∅ ∅ [] 0 false false [] [].

Definition set_sessions m s := mkT m (tasks s) (completions s) (generation s) (closed s) (returned s) (arrived s) (accepted s).
Definition set_tasks m s := mkT (sessions s) m (completions s) (generation s) (closed s) (returned s) (arrived s) (accepted s).
Definition set_completions c s := mkT (sessions s) (tasks s) c (generation s) (closed s) (returned s) (arrived s) (accepted s).
Definition set_generation g s := mkT (sessions s) (tasks s) (completions s) g (closed s) (returned s) (arrived s) (accepted s).
Definition set_closed s := mkT (sessions s) (tasks s) (completions s) (generation s) true (returned s) (arrived s) (accepted s).
Definition set_returned s := mkT (sessions s) (tasks s) (completions s) (generation s) (closed s) true (arrived s) (accepted s).
Definition log_arrived p s := mkT (sessions s) (tasks s) (completions s) (generation s) (closed s) (returned s) (arrived s ++ [p]) (accepted s).
Definition log_accepted g p s := mkT (sessions s) (tasks s) (completions s) (generation s) (closed s) (returned s) (arrived s) (accepted s ++ [(g, p)]).

Definition close_session (x : Session) : Session := mkSession (s_target x) true (s_running x) (s_taken x) (s_queue x).

(** [Scope::close] of a session *)
Definition close_scope (g : Z) (s : t) : t := set_tasks (alter close_session g (tasks s)) s.

(** [sessions.remove]; dropping the [Entry] closes its scope. *)
Definition remove (d : Target) (s : t) : t :=
  match sessions s !! d with
  | Some g => close_scope g (set_sessions (delete d (sessions s)) s)
  | None => s
  end.

Definition scope_closed (s : t) (g : Z) : bool := match tasks s !! g with Some x => s_closed x | None => false end.

(** The task returns: its entries are dropped and their scopes close. *)
Definition finish (s : t) : t := set_returned (set_sessions ∅ (set_tasks (close_session <$> tasks s) s)).

(** Admission of a destination without an entry: [None] ends the association with an error. *)
Definition admit_target (d : Target) (s : t) : option (t * bool) :=
  if 1024 <=? Z.of_nat (size (sessions s)) then Some (s, false)
  else if u64_max <=? generation s then None
  else if closed s then None                                   (* [spawn] on a closed scope *)
  else
    let g := generation s + 1 in
    Some (set_sessions (<[d := g]> (sessions s)) (set_tasks (<[g := mkSession d false true [] []]> (tasks s)) (set_generation g s)), true).

(** [entry.tx.try_send]; [room] tells whether the queue takes the packet. *)
Definition try_send (g : Z) (p : Packet) (room : bool) (s : t) : t :=
  match tasks s !! g with
  | Some x =>
      if room && s_running x then
        log_accepted g p (set_tasks (<[g := mkSession (s_target x) (s_closed x) true (s_taken x) (s_queue x ++ [p])]> (tasks s)) s)
      else s
  | None => s
  end.

(** One packet of a batch *)
Definition on_packet (p : Packet) (room : bool) (s : t) : option t :=
  let s := log_arrived p s in
  let s := match sessions s !! target p with Some g => if scope_closed s g then remove (target p) s else s | None => s end in
  match match sessions s !! target p with Some _ => Some (s, true) | None => admit_target (target p) s end with
  | None => None
  | Some (s, false) => Some s
  | Some (s, true) => match sessions s !! target p with Some g => Some (try_send g p room s) | None => None end
  end.

Fixpoint on_batch (batch : list (Packet * bool)) (s : t) : t :=
  match batch with
  | [] => s
  | (p, room) :: batch => match on_packet p room s with Some s => on_batch batch s | None => finish s end
  end.

(** [completions.recv] *)
Definition on_completion (s : t) : option t :=
  match completions s with
  | [] => None
  | (d, g) :: c =>
      let s := set_completions c s in
      Some (if bool_decide (sessions s !! d = Some g) then remove d s else s)
  end.

Inductive event :=
  | Batch (batch : list (Packet * bool))
  | Completed
  | Cancelled                       (* the association's scope was seen closed *)
  | Exhausted                       (* the inbound's packets have ended *)
  | CloseParent                     (* the association's scope closes *)
  | CloseSession (g : Z)            (* a session is closed from outside *)
  | Take (g : Z) (n : nat)          (* a session reads from its queue *)
  | Finish (g : Z).                 (* a session's future ends: its lifetime closes the scope, then its completion is sent *)

Definition step (s : t) (ev : event) : option t :=
  match ev with
  | Batch batch => if returned s then None else Some (on_batch batch s)
  | Completed => if returned s then None else on_completion s
  | Cancelled => if negb (returned s) && closed s then Some (finish s) else None
  | Exhausted => if returned s then None else Some (finish s)
  | CloseParent => Some (set_closed (set_tasks (close_session <$> tasks s) s))
  | CloseSession g => Some (close_scope g s)
  | Take g n =>
      x ← tasks s !! g;
      if s_running x then Some (set_tasks (<[g := mkSession (s_target x) (s_closed x) true (s_taken x ++ take n (s_queue x)) (drop n (s_queue x))]> (tasks s)) s) else None
  | Finish g =>
      x ← tasks s !! g;
      if s_running x then
        Some (set_completions (completions s ++ [(s_target x, g)]) (set_tasks (<[g := mkSession (s_target x) true false (s_taken x) []]> (tasks s)) s))
      else None
  end.

Fixpoint run (s : t) (evs : list event) : option t :=
  match evs with
  | [] => Some s
  | ev :: evs => s ← step s ev; run s evs
  end.

(** ** The association's invariant *)

(** The packets the log gives to a session. *)
Definition given (s : t) (g : Z) : list Packet := snd <$> filter (fun e => e.1 = g) (accepted s).

Definition later (a b : Z * Packet) : Prop := target a.2 = target b.2 -> a.1 <= b.1.

(** What a session holds agrees with the log. *)
Definition holds (s : t) (g : Z) (x : Session) : Prop :=
  s_taken x `prefix_of` given s g /\ (s_running x = true -> s_taken x ++ s_queue x = given s g).

Record Inv (s : t) : Prop := {
  i_gen : forall g x, tasks s !! g = Some x -> 0 < g <= generation s;
  i_max : 0 <= generation s <= u64_max;
  i_entry : forall d g, sessions s !! d = Some g -> exists x, tasks s !! g = Some x /\ s_target x = d;
  i_live : forall g x, tasks s !! g = Some x -> s_closed x = false -> sessions s !! s_target x = Some g /\ s_running x = true /\ closed s = false;
  i_done : forall d g, (d, g) ∈ completions s -> exists x, tasks s !! g = Some x /\ s_running x = false /\ s_target x = d;
  i_size : (size (sessions s) <= 1024)%nat;
  i_log : forall e, e ∈ accepted s -> exists x, tasks s !! e.1 = Some x /\ s_target x = target e.2;
  i_latest : forall e g, e ∈ accepted s -> sessions s !! target e.2 = Some g -> e.1 <= g;
  i_order : snd <$> accepted s `sublist_of` arrived s;
  i_mono : StronglySorted later (accepted s);
  i_holds : forall g x, tasks s !! g = Some x -> holds s g x;
}.

(** Sessions change without being renamed, reopened or revived. *)
Definition aged (x y : Session) : Prop :=
  s_target y = s_target x /\ (s_closed y = false -> s_closed x = false /\ s_running y = s_running x) /\ (s_running x = false -> s_running y = false).

Lemma tasks_inv s m :
  Inv s -> (forall g, option_Forall2 aged (tasks s !! g) (m !! g)) -> (forall g y, m !! g = Some y -> holds s g y) -> Inv (set_tasks m s).
Proof.
  intros Hi Hm Hh.
  assert (Hback : forall g y, m !! g = Some y -> exists x, tasks s !! g = Some x /\ aged x y) by (intros g y Hy; specialize (Hm g); rewrite Hy in Hm; inversion Hm; by eexists).
  assert (Hfwd : forall g x, tasks s !! g = Some x -> exists y, m !! g = Some y /\ aged x y) by (intros g x Hx; specialize (Hm g); rewrite Hx in Hm; inversion Hm; by eexists).
  constructor; cbn; try apply Hi; try done.
  - intros g y (x & Hx & _)%Hback. by eapply i_gen.
  - intros d g Hd. destruct (i_entry _ Hi d g Hd) as (x & Hx & Ht). destruct (Hfwd g x Hx) as (y & Hy & Hty & _). exists y. split; [done|congruence].
  - intros g y Hy Hc. destruct (Hback g y Hy) as (x & Hx & Ht & Hop & _). destruct (Hop Hc) as [Hxc Hrun]. rewrite Ht, Hrun. by eapply i_live.
  - intros d g Hd. destruct (i_done _ Hi d g Hd) as (x & Hx & Hr & Ht). destruct (Hfwd g x Hx) as (y & Hy & Hty & _ & Hry). exists y. split_and!; [done|auto|congruence].
  - intros e He. destruct (i_log _ Hi e He) as (x & Hx & Ht). destruct (Hfwd _ x Hx) as (y & Hy & Hty & _). exists y. split; [done|congruence].
Qed.

Lemma aged_refl x : aged x x.
Proof. by repeat split. Qed.

Lemma insert_aged s g x y : tasks s !! g = Some x -> aged x y -> forall k, option_Forall2 aged (tasks s !! k) (<[g := y]> (tasks s) !! k).
Proof.
  intros Hx Ha k. destruct (decide (k = g)) as [->|]; [rewrite lookup_insert_eq, Hx; by constructor|rewrite lookup_insert_ne by done].
  destruct (tasks s !! k); constructor. apply aged_refl.
Qed.

Lemma insert_inv s g x y : Inv s -> tasks s !! g = Some x -> aged x y -> holds s g y -> Inv (set_tasks (<[g := y]> (tasks s)) s).
Proof.
  intros Hi Hx Ha Hh. apply tasks_inv; [done|by eapply insert_aged|]. intros k z. destruct (decide (k = g)) as [->|]; [rewrite lookup_insert_eq; by intros [= <-]|].
  rewrite lookup_insert_ne by done. by apply i_holds.
Qed.

Lemma close_aged x : aged x (close_session x).
Proof. by repeat split. Qed.

Lemma close_scope_inv g s : Inv s -> Inv (close_scope g s).
Proof.
  intros Hi. unfold close_scope. apply tasks_inv; [done| |].
  - intros k. rewrite lookup_alter. case_decide; [subst|]; destruct (tasks s !! k); constructor; [apply close_aged|apply aged_refl].
  - intros k y. rewrite lookup_alter. case_decide; [subst|by apply i_holds]. destruct (tasks s !! k) as [x|] eqn:Hx; [|done]. cbn. intros [= <-]. by apply i_holds in Hx.
Qed.

Lemma close_all_inv s : Inv s -> Inv (set_tasks (close_session <$> tasks s) s).
Proof.
  intros Hi. apply tasks_inv; [done| |].
  - intros k. rewrite lookup_fmap. destruct (tasks s !! k); constructor. apply close_aged.
  - intros k y. rewrite lookup_fmap. destruct (tasks s !! k) as [x|] eqn:Hx; [|done]. cbn. intros [= <-]. by apply i_holds in Hx.
Qed.

(** Entries go when their sessions' scopes are closed. *)
Lemma unlist_inv s m : Inv s -> m ⊆ sessions s -> (forall d g, sessions s !! d = Some g -> m !! d = None -> scope_closed s g = true) -> Inv (set_sessions m s).
Proof.
  intros Hi Hm Hc. assert (Hin : forall d g, m !! d = Some g -> sessions s !! d = Some g) by (intros d g Hd; by eapply lookup_weaken).
  constructor; cbn; try apply Hi.
  - intros d g Hd%Hin. by apply i_entry.
  - intros g x Hx Ho. destruct (i_live _ Hi g x Hx Ho) as (Hs & Hr). split; [|done]. destruct (m !! s_target x) as [g'|] eqn:Hd; [apply Hin in Hd; congruence|].
    specialize (Hc _ _ Hs Hd). unfold scope_closed in Hc. rewrite Hx in Hc. congruence.
  - apply map_subseteq_size in Hm. pose proof (i_size _ Hi). lia.
  - intros e g He Hd%Hin. by eapply i_latest.
Qed.

Lemma filter_none {A} (P : A -> Prop) `{!forall x, Decision (P x)} (l : list A) : (forall x, x ∈ l -> ~ P x) -> filter P l = [].
Proof. intros Hl. induction l as [|x l IH]; [done|]. rewrite filter_cons_False by (apply Hl; left). apply IH. intros y Hy. apply Hl. by right. Qed.

Lemma closed_after_close s g : is_Some (tasks s !! g) -> scope_closed (close_scope g s) g = true.
Proof. intros [x Hx]. unfold scope_closed, close_scope. cbn. by rewrite lookup_alter_eq, Hx. Qed.

Lemma association_remove_inv d s : Inv s -> Inv (remove d s).
Proof.
  intros Hi. unfold remove. destruct (sessions s !! d) as [g|] eqn:Hd; [|done].
  change (Inv (set_sessions (delete d (sessions (close_scope g s))) (close_scope g s))). apply unlist_inv; [by apply close_scope_inv|apply delete_subseteq|].
  intros d' g'. cbn. destruct (decide (d' = d)) as [->|]; [|rewrite lookup_delete_ne by done; congruence]. rewrite Hd. intros [= <-] _.
  destruct (i_entry _ Hi d g Hd) as (x & Hx & _). apply closed_after_close. by eexists.
Qed.

Lemma finish_inv s : Inv s -> Inv (finish s).
Proof.
  intros Hi. pose proof (close_all_inv s Hi) as Hc. assert (Hu : Inv (set_sessions ∅ (set_tasks (close_session <$> tasks s) s))).
  { apply unlist_inv; [done|apply map_empty_subseteq|]. intros d g Hd _. destruct (i_entry _ Hi d g Hd) as (x & Hx & _). unfold scope_closed. cbn. by rewrite lookup_fmap, Hx. }
  destruct Hu. by constructor.
Qed.

Lemma admit_inv d s s' b : Inv s -> sessions s !! d = None -> admit_target d s = Some (s', b) -> Inv s'.
Proof.
  intros Hi Hd. unfold admit_target. destruct (1024 <=? _) eqn:Hsz; [by intros [= <- <-]|]. zify_bool. destruct (u64_max <=? generation s) eqn:Hg; [done|]. zify_bool.
  destruct (closed s) eqn:Hcl; [done|]. intros [= <- <-]. set (g := generation s + 1).
  assert (Hnew : tasks s !! g = None) by (destruct (tasks s !! g) eqn:Hx; [apply (i_gen _ Hi) in Hx; unfold g in Hx; lia|done]).
  assert (Hlog : forall e, e ∈ accepted s -> e.1 <> g) by (intros e He Heq; destruct (i_log _ Hi e He) as (x & Hx & _); apply (i_gen _ Hi) in Hx; unfold g in Heq; lia).
  assert (Hcase : forall k x, <[g := mkSession d false true [] []]> (tasks s) !! k = Some x -> k = g /\ x = mkSession d false true [] [] \/ k <> g /\ tasks s !! k = Some x).
  { intros k x. destruct (decide (k = g)) as [->|]; [rewrite lookup_insert_eq; intros [= <-]; by left|rewrite lookup_insert_ne by done; by right]. }
  assert (Hkeep : forall k x, tasks s !! k = Some x -> <[g := mkSession d false true [] []]> (tasks s) !! k = Some x) by (intros k x Hx; rewrite lookup_insert_ne; congruence).
  constructor; cbn; try apply Hi.
  - intros k x [[-> ->]|[_ Hx%(i_gen _ Hi)]]%Hcase; pose proof (i_max _ Hi); unfold g; lia.
  - pose proof (i_max _ Hi). unfold g. lia.
  - intros d' k. destruct (decide (d' = d)) as [->|]; [rewrite lookup_insert_eq; intros [= <-]; eexists; by rewrite lookup_insert_eq|].
    rewrite lookup_insert_ne by done. intros (x & Hx & Ht)%(i_entry _ Hi). exists x. split; [by apply Hkeep|done].
  - intros k x [[-> ->]|[_ Hx]]%Hcase Ho; cbn; [by rewrite lookup_insert_eq|]. destruct (i_live _ Hi k x Hx Ho) as (Hs & Hr & _). rewrite lookup_insert_ne; [done|congruence].
  - intros d' k (x & Hx & Hr & Ht)%(i_done _ Hi). exists x. split; [by apply Hkeep|done].
  - rewrite map_size_insert_None by done. lia.
  - intros e (x & Hx & Ht)%(i_log _ Hi). exists x. split; [by apply Hkeep|done].
  - intros e k He. destruct (decide (target e.2 = d)) as [->|]; [rewrite lookup_insert_eq|rewrite lookup_insert_ne by done; by eapply i_latest].
    intros [= <-]. destruct (i_log _ Hi e He) as (x & Hx & _). apply (i_gen _ Hi) in Hx. unfold g. lia.
  - intros k x [[-> ->]|[_ Hx]]%Hcase; [|by apply (i_holds _ Hi) in Hx]. unfold holds, given. cbn. rewrite filter_none by done. done.
Qed.

Lemma given_snoc s g e : given (log_accepted e.1 e.2 s) g = given s g ++ if decide (e.1 = g) then [e.2] else [].
Proof. unfold given. cbn. rewrite filter_app, fmap_app. f_equal. destruct e as [k p]. unfold filter; cbn. by case_decide. Qed.

Lemma association_send_inv g p s x ps :
  Inv s -> arrived s = ps ++ [p] -> snd <$> accepted s `sublist_of` ps -> sessions s !! target p = Some g -> tasks s !! g = Some x -> s_running x = true ->
  Inv (log_accepted g p (set_tasks (<[g := mkSession (s_target x) (s_closed x) true (s_taken x) (s_queue x ++ [p])]> (tasks s)) s)).
Proof.
  intros Hi Ha Hsub Hd Hx Hr. set (y := mkSession (s_target x) (s_closed x) true (s_taken x) (s_queue x ++ [p])).
  destruct (i_entry _ Hi _ _ Hd) as (x' & Hx' & Ht). simplify_eq.
  assert (Hcase : forall k z, <[g := y]> (tasks s) !! k = Some z -> k = g /\ z = y \/ k <> g /\ tasks s !! k = Some z).
  { intros k z. destruct (decide (k = g)) as [->|]; [rewrite lookup_insert_eq; intros [= <-]; by left|rewrite lookup_insert_ne by done; by right]. }
  assert (Hkeep : forall k z, tasks s !! k = Some z -> exists w, <[g := y]> (tasks s) !! k = Some w /\ s_target w = s_target z /\ (s_running z = false -> k <> g)).
  { intros k z Hz. destruct (decide (k = g)) as [->|]; [rewrite lookup_insert_eq; eexists; split_and!; [done|cbn; congruence|congruence]|rewrite lookup_insert_ne by done; by eexists]. }
  constructor; cbn; try apply Hi.
  - intros k z [[-> ->]|[_ Hz]]%Hcase; by eapply i_gen.
  - intros d k (z & Hz & Htz)%(i_entry _ Hi). destruct (Hkeep k z Hz) as (w & Hw & Htw & _). exists w. split; congruence.
  - intros k z [[-> ->]|[_ Hz]]%Hcase Ho; [cbn in *; destruct (i_live _ Hi g x Hx Ho) as (? & ? & ?); by split_and!|by apply (i_live _ Hi k z)].
  - intros d k Hin. destruct (i_done _ Hi d k Hin) as (z & Hz & Hrz & Htz). exists z. split; [|done]. rewrite lookup_insert_ne; congruence.
  - intros e [He| ->%list_elem_of_singleton]%elem_of_app; cbn; [|rewrite lookup_insert_eq; by eexists]. destruct (i_log _ Hi e He) as (z & Hz & Htz).
    destruct (Hkeep _ z Hz) as (w & Hw & Htw & _). exists w. split; congruence.
  - intros e k [He| ->%list_elem_of_singleton]%elem_of_app; [by eapply i_latest|]. cbn. rewrite Hd. intros [= <-]. lia.
  - rewrite fmap_app, Ha. by apply sublist_app.
  - apply StronglySorted_app_2; [|apply Hi|repeat constructor]. intros a b Hain ->%list_elem_of_singleton Heq. cbn in *. eapply i_latest; [done|exact Hain|congruence].
  - intros k z Hz. unfold holds. change (given _ k) with (given (log_accepted (g, p).1 (g, p).2 s) k). rewrite given_snoc. cbn [fst snd].
    destruct (Hcase k z Hz) as [[-> ->]|[Hne Hzs]]; case_decide; try done.
    + destruct (i_holds _ Hi g x Hx) as [Hp Hq]. cbn. split; [by apply prefix_app_r|]. intros _. by rewrite app_assoc, Hq.
    + rewrite app_nil_r. by apply (i_holds _ Hi) in Hzs.
Qed.

(** The entry for a packet: a closed session's entry goes first. *)
Definition settle (p : Packet) (s : t) : t :=
  match sessions s !! target p with Some g => if scope_closed s g then remove (target p) s else s | None => s end.

Lemma settle_inv p s : Inv s -> Inv (settle p s).
Proof. intros Hi. unfold settle. repeat case_match; try done. by apply association_remove_inv. Qed.

Lemma settle_logs p s : arrived (settle p s) = arrived s /\ accepted (settle p s) = accepted s /\ closed (settle p s) = closed s /\ generation (settle p s) = generation s.
Proof. unfold settle, remove. repeat case_match; done. Qed.

Lemma admit_spec d s s' : admit_target d s = Some (s', true) ->
  arrived s' = arrived s /\ accepted s' = accepted s /\ sessions s' !! d = Some (generation s + 1) /\ tasks s' !! (generation s + 1) = Some (mkSession d false true [] []).
Proof. unfold admit_target. repeat case_match; try done. intros [= <-]. cbn. by rewrite !lookup_insert_eq. Qed.

Lemma try_send_inv g p room s ps : Inv s -> arrived s = ps ++ [p] -> snd <$> accepted s `sublist_of` ps -> sessions s !! target p = Some g -> Inv (try_send g p room s).
Proof.
  intros Hi Ha Hsub Hd. unfold try_send. destruct (tasks s !! g) as [x|] eqn:Hx; [|done]. destruct (room && s_running x) eqn:Hr; [|done].
  apply andb_true_iff in Hr as [_ Hr]. by eapply association_send_inv.
Qed.

Lemma log_arrived_inv p s : Inv s -> Inv (log_arrived p s).
Proof. intros []. constructor; cbn; try done. by apply sublist_inserts_r. Qed.

Lemma on_packet_inv p room s s' : Inv s -> on_packet p room s = Some s' -> Inv s'.
Proof.
  intros Hi. unfold on_packet. fold (settle p (log_arrived p s)). set (s1 := settle p (log_arrived p s)).
  assert (Hi1 : Inv s1) by (by apply settle_inv, log_arrived_inv). destruct (settle_logs p (log_arrived p s)) as (Ha & Hacc & _). fold s1 in Ha, Hacc. cbn in Ha, Hacc.
  pose proof (i_order _ Hi) as Hsub. destruct (sessions s1 !! target p) as [g|] eqn:Hd.
  - rewrite Hd. intros [= <-]. eapply try_send_inv; [done|exact Ha|by rewrite Hacc|done].
  - destruct (admit_target (target p) s1) as [[s2 []]|] eqn:Hadm; [| |done].
    + destruct (admit_spec _ _ _ Hadm) as (Ha2 & Hacc2 & Hd2 & _). rewrite Hd2. intros [= <-]. eapply try_send_inv; [by eapply admit_inv|by rewrite Ha2|by rewrite Hacc2, Hacc|done].
    + intros [= <-]. by eapply admit_inv.
Qed.

Lemma on_batch_inv batch s : Inv s -> Inv (on_batch batch s).
Proof.
  revert s. induction batch as [|[p room] batch IH]; intros s Hi; cbn; [done|].
  destruct (on_packet p room s) as [s'|] eqn:Hp; [apply IH; by eapply on_packet_inv|by apply finish_inv].
Qed.

Lemma completions_inv s c : Inv s -> (forall d g, (d, g) ∈ c -> exists x, tasks s !! g = Some x /\ s_running x = false /\ s_target x = d) -> Inv (set_completions c s).
Proof. intros [] Hc. by constructor. Qed.

Lemma finish_session_inv s g x : Inv s -> tasks s !! g = Some x ->
  Inv (set_completions (completions s ++ [(s_target x, g)]) (set_tasks (<[g := mkSession (s_target x) true false (s_taken x) []]> (tasks s)) s)).
Proof.
  intros Hi Hx. set (y := mkSession _ true false _ []). assert (Ha : aged x y) by (by repeat split).
  assert (Hi' : Inv (set_tasks (<[g := y]> (tasks s)) s)) by (eapply insert_inv; [done|exact Hx|done|]; split; [by destruct (i_holds _ Hi g x Hx)|done]).
  change (Inv (set_completions (completions (set_tasks (<[g := y]> (tasks s)) s) ++ [(s_target x, g)]) (set_tasks (<[g := y]> (tasks s)) s))).
  apply completions_inv; [done|]. intros d k [Hin|Hin]%elem_of_app; [by apply (i_done _ Hi')|]. apply list_elem_of_singleton in Hin as [= -> ->]. exists y. cbn. by rewrite lookup_insert_eq.
Qed.

Lemma association_step_inv s ev s' : Inv s -> step s ev = Some s' -> Inv s'.
Proof.
  intros Hi. destruct ev as [batch| | | | |g|g n|g]; cbn.
  - destruct (returned s); [done|]. intros [= <-]. by apply on_batch_inv.
  - destruct (returned s); [done|]. unfold on_completion. destruct (completions s) as [|[d g] c] eqn:Hc; [done|]. intros [= <-].
    assert (Inv (set_completions c s)) by (apply completions_inv; [done|]; intros d' g' Hin; apply (i_done _ Hi); rewrite Hc; by right). case_bool_decide; [by apply association_remove_inv|done].
  - destruct (_ && _); [|done]. intros [= <-]. by apply finish_inv.
  - destruct (returned s); [done|]. intros [= <-]. by apply finish_inv.
  - intros [= <-]. destruct (close_all_inv s Hi) as [? ? ? Hl]. constructor; cbn in *; try done. intros g x Hx Ho. rewrite lookup_fmap in Hx. destruct (tasks s !! g); [|done]. by injection Hx as <-.
  - intros [= <-]. by apply close_scope_inv.
  - destruct (tasks s !! g) as [x|] eqn:Hx; [|done]. cbn. destruct (s_running x) eqn:Hr; [|done]. intros [= <-]. destruct (i_holds _ Hi g x Hx) as [_ Hq]. specialize (Hq Hr).
    eapply insert_inv; [done|exact Hx|split_and!; cbn; [done|intros; split; congruence|congruence]|].
    split; cbn; rewrite <- Hq; [|intros _; by rewrite <- app_assoc, take_drop]. apply prefix_app, prefix_take.
  - destruct (tasks s !! g) as [x|] eqn:Hx; [|done]. cbn. destruct (s_running x); [|done]. intros [= <-]. by apply finish_session_inv.
Qed.

Lemma association_run_inv s evs s' : Inv s -> run s evs = Some s' -> Inv s'.
Proof.
  revert s. induction evs as [|ev evs IH]; intros s Hs Hr; cbn in Hr; [by injection Hr as <-|].
  destruct (step s ev) as [s1|] eqn:H1; [|done]. cbn in Hr. eapply IH; [by eapply association_step_inv|exact Hr].
Qed.

Lemma association_start_inv : Inv start.
Proof.
  constructor; cbn; try (intros; by rewrite lookup_empty in * ); try (by intros ? ?%elem_of_nil); try (by intros ? ? ?%elem_of_nil).
  - done.
  - rewrite map_size_empty. lia.
  - apply sublist_nil.
  - constructor.
Qed.

(** C28. One session per destination.  In every interleaving of packets, completions, cancellations and sessions that run, read
    and end: a destination has at most one session whose scope is open, it is the one its entry names, and there are
    at most 1024; sessions only read packets for their own destination, a prefix of those they were given; what sessions were
    given is a subsequence of what arrived, and a destination's packets never go back to an older session. *)
Theorem udp_target_has_one_session evs s :
  run start evs = Some s ->
  (forall g x, tasks s !! g = Some x -> s_closed x = false -> sessions s !! s_target x = Some g /\ s_running x = true) /\
  (forall g g' x x', tasks s !! g = Some x -> tasks s !! g' = Some x' -> s_closed x = false -> s_closed x' = false -> s_target x = s_target x' -> g = g') /\
  (size (sessions s) <= 1024)%nat /\
  (forall g x, tasks s !! g = Some x -> s_taken x `prefix_of` given s g /\ Forall (fun p => target p = s_target x) (s_taken x)) /\
  snd <$> accepted s `sublist_of` arrived s /\ StronglySorted later (accepted s).
Proof.
  intros Hr. pose proof (association_run_inv start evs s association_start_inv Hr) as Hi. split_and!; try apply Hi.
  - intros g x Hx Ho. by destruct (i_live _ Hi g x Hx Ho) as (? & ? & _).
  - intros g g' x x' Hx Hx' Ho Ho' Heq. destruct (i_live _ Hi g x Hx Ho) as [H1 _], (i_live _ Hi g' x' Hx' Ho') as [H2 _]. congruence.
  - intros g x Hx. destruct (i_holds _ Hi g x Hx) as [Hp _]. split; [done|]. apply Forall_forall. intros p Hin.
    assert (Hg : p ∈ given s g) by (destruct Hp as [k ->]; apply elem_of_app; by left). unfold given in Hg.
    apply list_elem_of_fmap in Hg as (e & -> & (He & Hin')%list_elem_of_filter). destruct (i_log _ Hi e Hin') as (y & Hy & Ht). congruence.
Qed.

(** Packets reach a live session.  While the association is open and its generations last, a packet whose destination has
    an entry, or that finds fewer than 1024 of them, is given to a session of its destination whose scope is open
    if the queue has room; also when the entry's session has ended and its completion was not read yet. *)
Theorem udp_packet_reaches_session evs s p :
  run start evs = Some s -> returned s = false -> closed s = false -> generation s < u64_max ->
  is_Some (sessions s !! target p) \/ (size (sessions s) < 1024)%nat ->
  exists s' g x, on_packet p true s = Some s' /\ accepted s' = accepted s ++ [(g, p)] /\ sessions s' !! target p = Some g /\
    tasks s' !! g = Some x /\ s_closed x = false /\ s_target x = target p /\ last (s_queue x) = Some p.
Proof.
  intros Hr Hret Hcl Hgen Hroom. pose proof (association_run_inv start evs s association_start_inv Hr) as Hi. unfold on_packet. fold (settle p (log_arrived p s)).
  assert (Hi1 : Inv (settle p (log_arrived p s))) by (by apply settle_inv, log_arrived_inv). destruct (settle_logs p (log_arrived p s)) as (Ha & Hacc & Hc & Hg).
  assert (Hset : (exists g x, sessions (settle p (log_arrived p s)) !! target p = Some g /\ tasks (settle p (log_arrived p s)) !! g = Some x /\ s_closed x = false) \/
                 sessions (settle p (log_arrived p s)) !! target p = None /\ (size (sessions (settle p (log_arrived p s))) < 1024)%nat).
  { unfold settle. cbn. destruct (sessions s !! target p) as [g|] eqn:Hd; [|right; split; [done|]; cbn; by destruct Hroom as [[? ?]|]].
    destruct (i_entry _ Hi _ _ Hd) as (x & Hx & Ht). unfold scope_closed. cbn. rewrite Hx. destruct (s_closed x) eqn:Hcx; [right|left; by exists g, x].
    unfold remove. cbn. rewrite Hd. cbn. rewrite lookup_delete_eq. split; [done|]. rewrite map_size_delete_Some by (by eexists). pose proof (i_size _ Hi). lia. }
  set (s1 := settle p (log_arrived p s)) in *. clearbody s1. cbn in Hacc, Hc, Hg. destruct Hset as [(g & x & Hd & Hx & Hcx)|[Hd Hsz]].
  - destruct (i_live _ Hi1 g x Hx Hcx) as (Hs & Hrun & _). rewrite Hd, Hd. unfold try_send. rewrite Hx, Hrun. cbn. eexists _, g, _. split_and!; [done|cbn; by rewrite Hacc|done|apply lookup_insert_eq|done| |apply last_snoc].
    cbn. destruct (i_entry _ Hi1 _ _ Hd) as (y & Hy & Ht). congruence.
  - rewrite Hd. unfold admit_target. rewrite (proj2 (Z.leb_gt _ _)) by lia. rewrite Hg, (proj2 (Z.leb_gt _ _)) by (cbn; lia). rewrite Hc, Hcl. cbn.
    pose proof (lookup_insert_eq (sessions s1) (target p) (generation s + 1)) as Hl.
    rewrite Hl. unfold try_send. cbn. eexists _, (generation s + 1), _. rewrite lookup_insert_eq. cbn. split_and!; [done|cbn; by rewrite Hacc|exact Hl|apply lookup_insert_eq|done|done|done].
Qed.

(** ** Examples *)

Definition host : Target := Domain [97] 53.
Definition other : Target := Domain [98] 53.
Definition packet (d : Target) (n : Z) : Packet := mkPacket d [n].

(** A session ends and its destination gets a new one before the old completion is read. *)
Definition demo : list event :=
  [Batch [(packet host 1, true); (packet other 2, true)]; Take 1 1; Finish 1; Batch [(packet host 3, true); (packet other 4, false)]; Completed; Take 3 4].

Lemma udp_target_has_one_session_witness :
  exists s, run start demo = Some s /\ sessions s !! host = Some 3 /\ accepted s = [(1, packet host 1); (2, packet other 2); (3, packet host 3)] /\ (size (sessions s) <= 1024)%nat.
Proof.
  eexists. split; [vm_compute; reflexivity|]. split; [reflexivity|]. split; [reflexivity|].
  refine (proj1 (proj2 (proj2 (udp_target_has_one_session demo _ _)))). vm_compute. reflexivity.
Defined.

Lemma udp_packet_reaches_session_witness :
  exists s' g x, on_packet (packet host 9) true start = Some s' /\ accepted s' = accepted start ++ [(g, packet host 9)] /\ sessions s' !! host = Some g /\
    tasks s' !! g = Some x /\ s_closed x = false /\ s_target x = host /\ last (s_queue x) = Some (packet host 9).
Proof. apply (udp_packet_reaches_session [] start (packet host 9)); try reflexivity. right. vm_compute. lia. Defined.

End Sessions.
