(* ===== verification/Registry.v ===== *)
(** * The session registry (crates/daemon/src/network/sessions.rs)

    A task that keeps the list of sessions.  Registering sends it a command and waits for the answer,
    dropping a registration sends the removal; callers may go away at any point in between. *)

From S2P Require Import Prelude Packet NetText Carrier.
Import NetText Carrier.

Module Registry.

(** [SessionHandle], without its scope *)
Record SessionHandle := mkHandle { id : Z; destination : Target; protocol : TransportProtocol }.

(** [Command]; a request [r] stands for its reply channel. *)
Inductive Command := Register (r : nat) (destination : Target) (protocol : TransportProtocol) | Remove (id : Z) | Listing.

(** Where the reply of a [register] call is: not sent, sent, taken by the caller, the caller gone
    before it was sent, or its [Registration] dropped. *)
Inductive reply := Queued | Replied (id : Z) | Held (id : Z) | Abandoned | Dropped.

(** The registry's task with its unread commands, the calls, and the answers to [list]. *)
Record t := mkT {
  commands : list Command;
  sessions : gmap Z SessionHandle;
  next : Z;
  requests : gmap nat (Target * TransportProtocol * reply);
  listed : list (gmap Z SessionHandle);
}.

Definition new : t := mkT [] ∅ 0 ∅ [].

(** [Registration::drop] *)
Definition drop_registration (i : Z) (s : t) : t := mkT (commands s ++ [Remove i]) (sessions s) (next s) (requests s) (listed s).

Definition set_reply (r : nat) (q : reply) (s : t) : t :=
  mkT (commands s) (sessions s) (next s) (alter (fun x => (x.1, q)) r (requests s)) (listed s).

(** One round of the task; a reply nobody waits for drops its [Registration]. *)
Definition serve (s : t) : option t :=
  match commands s with
  | [] => None
  | c :: rest =>
      Some match c with
      | Register r d p =>
          let i := (next s + 1) mod 2 ^ 64 in
          let s' := mkT rest (<[i := mkHandle i d p]> (sessions s)) i (requests s) (listed s) in
          match requests s !! r with
          | Some (_, Queued) => set_reply r (Replied i) s'
          | _ => drop_registration i (set_reply r Dropped s')
          end
      | Remove i => mkT rest (delete i (sessions s)) (next s) (requests s) (listed s)
      | Listing => mkT rest (sessions s) (next s) (requests s) (listed s ++ [sessions s])
      end
  end.

Inductive event :=
  | Call (d : Target) (p : TransportProtocol)      (* [register] sends its command *)
  | Receive (r : nat)                              (* [register] returns *)
  | Abandon (r : nat)                              (* the caller of [register] is dropped *)
  | Release (r : nat)                              (* a [Registration] is dropped *)
  | Ask                                            (* [list] sends its command *)
  | Serve.

Definition registry_step (s : t) (ev : event) : option t :=
  match ev with
  | Call d p =>
      let r := size (requests s) in
      Some (mkT (commands s ++ [Register r d p]) (sessions s) (next s) (<[r := (d, p, Queued)]> (requests s)) (listed s))
  | Receive r => match requests s !! r with Some (_, Replied i) => Some (set_reply r (Held i) s) | _ => None end
  | Abandon r =>
      match requests s !! r with
      | Some (_, Queued) => Some (set_reply r Abandoned s)
      | Some (_, Replied i) => Some (drop_registration i (set_reply r Dropped s))
      | _ => None
      end
  | Release r => match requests s !! r with Some (_, Held i) => Some (drop_registration i (set_reply r Dropped s)) | _ => None end
  | Ask => Some (mkT (commands s ++ [Listing]) (sessions s) (next s) (requests s) (listed s))
  | Serve => serve s
  end.

Fixpoint registry_run (s : t) (evs : list event) : option t :=
  match evs with
  | [] => Some s
  | ev :: evs => s ← registry_step s ev; registry_run s evs
  end.

(** The id of a live registration. *)
Definition live (q : reply) : option Z := match q with Replied i | Held i => Some i | _ => None end.

Definition registers (c : list Command) : list nat := omap (fun c => match c with Register r _ _ => Some r | _ => None end) c.

Record Inv (n : Z) (s : t) : Prop := {
  r_next : 0 <= next s <= n;
  r_dom : forall r, is_Some (requests s !! r) <-> (r < size (requests s))%nat;
  r_live : forall r d p q i, requests s !! r = Some (d, p, q) -> live q = Some i -> 0 < i <= next s /\ sessions s !! i = Some (mkHandle i d p) /\ Remove i ∉ commands s;
  r_unique : forall r r' x x' i, requests s !! r = Some x -> requests s !! r' = Some x' -> live x.2 = Some i -> live x'.2 = Some i -> r = r';
  r_listed : forall i h, sessions s !! i = Some h -> 0 < i <= next s /\ ((exists r x, requests s !! r = Some x /\ live x.2 = Some i) \/ Remove i ∈ commands s);
  r_removed : forall i, Remove i ∈ commands s -> 0 < i <= next s;
  r_calls : forall r d p, Register r d p ∈ commands s -> exists q, requests s !! r = Some (d, p, q) /\ (q = Queued \/ q = Abandoned);
  r_once : NoDup (registers (commands s));
}.

(** A request's reply changes without becoming live; the session it held is to be removed. *)
Lemma set_reply_lookup r q s k : requests (set_reply r q s) !! k = if decide (k = r) then (fun x => (x.1, q)) <$> requests s !! k else requests s !! k.
Proof. cbn. rewrite lookup_alter. repeat case_decide; by subst. Qed.

Lemma size_alter_requests f r (m : gmap nat (Target * TransportProtocol * reply)) : size (alter f r m) = size m.
Proof. rewrite <- !size_dom, dom_alter_L. done. Qed.

Lemma reply_case r q s k x : requests (set_reply r q s) !! k = Some x -> k = r /\ x.2 = q /\ is_Some (requests s !! r) \/ k <> r /\ requests s !! k = Some x.
Proof. rewrite set_reply_lookup. case_decide; [subst|by right]. destruct (requests s !! r); [|done]. intros [= <-]. left. eauto. Qed.

Lemma registers_app c c' : registers (c ++ c') = registers c ++ registers c'.
Proof. apply omap_app. Qed.

Lemma registry_call_inv n d p s : Inv n s -> Inv n (default s (registry_step s (Call d p))).
Proof.
  intros Hi. cbn. set (r := size (requests s)). assert (Hnew : requests s !! r = None).
  { destruct (requests s !! r) eqn:Hx; [|done]. assert (is_Some (requests s !! r)) as Hd%(r_dom _ _ Hi) by (by eexists). unfold r in Hd. lia. }
  assert (Hcase : forall k x, <[r := (d, p, Queued)]> (requests s) !! k = Some x -> k = r /\ x = (d, p, Queued) \/ k <> r /\ requests s !! k = Some x).
  { intros k x. destruct (decide (k = r)) as [->|]; [rewrite lookup_insert_eq; intros [= <-]; by left|rewrite lookup_insert_ne by done; by right]. }
  assert (Hold : forall c, c ∈ commands s ++ [Register r d p] -> (forall r d p, c <> Register r d p) -> c ∈ commands s).
  { intros c [Hc| ->%list_elem_of_singleton]%elem_of_app Hne; [done|]. by destruct (Hne r d p). }
  constructor; cbn; try apply Hi.
  - intros k. rewrite map_size_insert_None by done. destruct (decide (k = r)) as [->|Hk]; [rewrite lookup_insert_eq; split; [intros _; unfold r; lia|by eexists]|].
    rewrite lookup_insert_ne by done. rewrite (r_dom _ _ Hi). fold r. lia.
  - intros k d' p' q i [[-> [= -> -> ->]]|[_ Hk]]%Hcase Hl; [done|]. destruct (r_live _ _ Hi _ _ _ _ _ Hk Hl) as (? & ? & Hno). split; [done|split; [done|]]. intros Hin. apply Hno. by apply Hold.
  - intros k k' x x' i [[-> ->]|[_ Hk]]%Hcase [[-> ->]|[_ Hk']]%Hcase Hl Hl'; try done. by eapply r_unique.
  - intros i h Hs. destruct (r_listed _ _ Hi _ _ Hs) as [? [(k & x & Hk & Hl)|Hr]]; (split; [done|]); [left; exists k, x; split; [|done]; rewrite lookup_insert_ne; [done|congruence]|right; apply elem_of_app; by left].
  - intros i Hr. eapply r_removed; [done|]. by apply Hold.
  - intros k d' p' [Hk|[= -> -> ->]%list_elem_of_singleton]%elem_of_app; [|exists Queued; rewrite lookup_insert_eq; by split; [|left]].
    destruct (r_calls _ _ Hi _ _ _ Hk) as (q & Hq & Ho). exists q. split; [|done]. rewrite lookup_insert_ne; [done|congruence].
  - rewrite registers_app. apply NoDup_app. split_and!; [apply Hi| |apply NoDup_singleton]. intros k Hk ->%list_elem_of_singleton.
    unfold registers in Hk. apply list_elem_of_omap in Hk as (c & Hc & Heq). destruct c; try done. injection Heq as ->. destruct (r_calls _ _ Hi _ _ _ Hc) as (q & Hq & _). congruence.
Qed.

(** A reply changes and stays as live as it was. *)
Lemma registry_reply_inv n s r d p q q' : Inv n s -> requests s !! r = Some (d, p, q) -> live q' = live q -> (q' = Abandoned \/ q <> Queued /\ q <> Abandoned) -> Inv n (set_reply r q' s).
Proof.
  intros Hi Hr Hl Hq. constructor; try apply Hi.
  - intros k. rewrite set_reply_lookup. cbn [requests set_reply]. rewrite size_alter_requests, <- (r_dom _ _ Hi). case_decide; [|done]. subst. by rewrite fmap_is_Some.
  - intros k d' p' q0 i Hk Hl0. rewrite set_reply_lookup in Hk. case_decide; [subst|exact (r_live _ _ Hi _ _ _ _ _ Hk Hl0)]. rewrite Hr in Hk. injection Hk as -> -> ->.
    exact (r_live _ _ Hi _ _ _ _ _ Hr (eq_trans (eq_sym Hl) Hl0)).
  - assert (Hc : forall k x i, requests (set_reply r q' s) !! k = Some x -> live x.2 = Some i -> exists y, requests s !! k = Some y /\ live y.2 = Some i).
    { intros k x i [(-> & Hx & _)|[_ Hk]]%reply_case Hlx; [exists (d, p, q); split; [done|]; cbn; congruence|by exists x]. }
    intros k k' x x' i Hk Hk' Hlx Hlx'. destruct (Hc _ _ _ Hk Hlx) as (y & Hy & Hly), (Hc _ _ _ Hk' Hlx') as (y' & Hy' & Hly'). by eapply r_unique.
  - intros i h Hs. destruct (r_listed _ _ Hi _ _ Hs) as [? [(k & x & Hk & Hlx)|Hrm]]; (split; [done|]); [left|by right]. exists k. rewrite set_reply_lookup.
    case_decide; [subst; rewrite Hr; eexists; split; [done|]; cbn; rewrite Hr in Hk; injection Hk as <-; cbn in Hlx; congruence|by exists x].
  - intros k d' p' Hk. destruct (r_calls _ _ Hi _ _ _ Hk) as (q0 & Hq0 & Ho). rewrite set_reply_lookup. case_decide; [subst|by exists q0]. rewrite Hr in Hq0. injection Hq0 as -> -> ->.
    rewrite Hr. exists q'. split; [done|]. destruct Hq as [->|[? ?]]; [by right|]. by destruct Ho.
Qed.

(** A live registration is dropped. *)
Lemma kill_inv n s r d p q i : Inv n s -> requests s !! r = Some (d, p, q) -> live q = Some i -> Inv n (drop_registration i (set_reply r Dropped s)).
Proof.
  intros Hi Hr Hl. destruct (r_live _ _ Hi _ _ _ _ _ Hr Hl) as (Hid & Hs & Hno).
  assert (Hcase : forall k x j, requests (set_reply r Dropped s) !! k = Some x -> live x.2 = Some j -> k <> r /\ requests s !! k = Some x).
  { intros k x j [(-> & Hx & _)|Hk]%reply_case Hlx; [by rewrite Hx in Hlx|done]. }
  assert (Hin : forall c, c ∈ commands s ++ [Remove i] <-> c ∈ commands s \/ c = Remove i) by (intros c; by rewrite elem_of_app, list_elem_of_singleton).
  constructor; try apply Hi.
  - intros k. cbn [requests drop_registration]. rewrite set_reply_lookup. cbn [requests set_reply]. rewrite size_alter_requests, <- (r_dom _ _ Hi). case_decide; [|done]. subst. by rewrite fmap_is_Some.
  - intros k d' p' q0 j Hk Hl0. cbn [requests drop_registration] in Hk. destruct (Hcase _ _ _ Hk Hl0) as [Hne Hk']. destruct (r_live _ _ Hi _ _ _ _ _ Hk' Hl0) as (Hj & Hsj & Hnoj).
    split; [exact Hj|split; [exact Hsj|]]. cbn. rewrite Hin. intros [?|[= ->]]; [done|]. apply Hne. by eapply (r_unique _ _ Hi k r).
  - intros k k' x x' j Hk Hk' Hlx Hlx'. cbn [requests drop_registration] in *. destruct (Hcase _ _ _ Hk Hlx) as [_ ?], (Hcase _ _ _ Hk' Hlx') as [_ ?]. by eapply r_unique.
  - intros j h Hsj. destruct (r_listed _ _ Hi _ _ Hsj) as [? Hj]. split; [done|]. cbn [commands requests drop_registration set_reply]. rewrite Hin.
    destruct Hj as [(k & x & Hk & Hlx)|Hrm]; [|right; by left]. destruct (decide (k = r)) as [->|Hne]; [right; right; rewrite Hr in Hk; injection Hk as <-; cbn in Hlx; congruence|].
    left. exists k, x. split; [|done]. by rewrite lookup_alter_ne.
  - cbn. intros j [Hj| [= ->]]%Hin; [by eapply r_removed|done].
  - intros k d' p' Hk. cbn [commands drop_registration set_reply] in Hk. apply Hin in Hk as [Hk|]; [|done]. destruct (r_calls _ _ Hi _ _ _ Hk) as (q0 & Hq0 & Ho).
    exists q0. split; [|done]. cbn [requests drop_registration]. rewrite set_reply_lookup. case_decide; [subst|done]. rewrite Hr in Hq0. injection Hq0 as -> -> ->. by destruct Ho as [-> | ->].
  - cbn. rewrite registers_app, app_nil_r. apply Hi.
Qed.

(** The command of a call is served: its session is listed under a new id. *)
Lemma grow_inv n s r d p rest q :
  Inv n s -> n < 2 ^ 64 - 1 -> commands s = Register r d p :: rest -> requests s !! r = Some (d, p, q) ->
  Inv (n + 1) (set_reply r (Replied (next s + 1)) (mkT rest (<[next s + 1 := mkHandle (next s + 1) d p]> (sessions s)) (next s + 1) (requests s) (listed s))).
Proof.
  intros Hi Hn Hc Hr. set (i := next s + 1). set (s1 := mkT rest _ i (requests s) (listed s)). pose proof (r_next _ _ Hi) as Hnx.
  assert (Hq : forall k x j, requests s !! k = Some x -> live x.2 = Some j -> k <> r /\ 0 < j <= next s).
  { intros k [[d' p'] q'] j Hk Hl. split; [|by eapply r_live]. intros ->. rewrite Hr in Hk. injection Hk as <- <- <-.
    destruct (r_calls _ _ Hi r d p) as (q'' & Hq'' & Ho); [rewrite Hc; left|]. rewrite Hr in Hq''. injection Hq'' as <-. by destruct Ho as [-> | ->]. }
  assert (Hsub : forall c, c ∈ rest -> c ∈ commands s) by (intros c ?; rewrite Hc; by right).
  assert (Hrem : forall j, Remove j ∈ commands s -> Remove j ∈ rest) by (intros j Hj; rewrite Hc in Hj; by apply elem_of_cons in Hj as [|]).
  assert (Hcase : forall k x j, requests (set_reply r (Replied i) s1) !! k = Some x -> live x.2 = Some j -> k = r /\ j = i \/ k <> r /\ requests s !! k = Some x).
  { intros k x j [(-> & Hx & _)|Hk]%reply_case Hlx; [left; split; [done|]; rewrite Hx in Hlx; cbn in Hlx; congruence|by right]. }
  constructor.
  - cbn. unfold i. lia.
  - intros k. rewrite set_reply_lookup. cbn [requests set_reply s1]. rewrite size_alter_requests, <- (r_dom _ _ Hi). case_decide; [|done]. subst. by rewrite fmap_is_Some.
  - intros k d' p' q0 j Hk Hl0. destruct (Hcase _ _ _ Hk Hl0) as [[-> ->]|[Hne Hk']].
    + rewrite set_reply_lookup, decide_True in Hk by done. cbn in Hk. rewrite Hr in Hk. injection Hk as -> -> _. cbn. rewrite lookup_insert_eq. split_and!; [unfold i; lia|done|done|].
      intros Hin%Hsub%(r_removed _ _ Hi). unfold i in Hin. lia.
    + destruct (r_live _ _ Hi _ _ _ _ _ Hk' Hl0) as (Hj & Hsj & Hnoj). cbn. rewrite lookup_insert_ne by (unfold i; lia). split; [unfold i; lia|]. split; [done|]. intros Hin. apply Hnoj. by apply Hsub.
  - intros k k' x x' j Hk Hk' Hlx Hlx'. destruct (Hcase _ _ _ Hk Hlx) as [[-> ->]|[? ?]], (Hcase _ _ _ Hk' Hlx') as [[-> Hj]|[? ?]]; try done; [| |by eapply r_unique].
    + destruct (Hq k' x' i) as [_ ?]; [done|done|]. unfold i in *. lia.
    + subst j. destruct (Hq k x i) as [_ ?]; [done|done|]. unfold i in *. lia.
  - intros j h Hj. cbn in Hj. destruct (decide (j = i)) as [->|Hne].
    + split; [cbn; unfold i; lia|]. left. exists r. rewrite set_reply_lookup, decide_True by done. cbn. rewrite Hr. by eexists.
    + rewrite lookup_insert_ne in Hj by done. destruct (r_listed _ _ Hi _ _ Hj) as [? [(k & x & Hk & Hlx)|Hrm]]; (split; [cbn; unfold i; lia|]); [left|right; by apply Hrem].
      destruct (Hq _ _ _ Hk Hlx) as [Hkr _]. exists k, x. split; [|done]. rewrite set_reply_lookup, decide_False by done. done.
  - cbn. intros j Hj%Hsub%(r_removed _ _ Hi). unfold i. lia.
  - intros k d' p' Hk. cbn in Hk. destruct (r_calls _ _ Hi _ _ _ (Hsub _ Hk)) as (q0 & Hq0 & Ho). exists q0. split; [|done]. rewrite set_reply_lookup. case_decide; [subst k|done].
    exfalso. pose proof (r_once _ _ Hi) as Hnd. rewrite Hc in Hnd. cbn in Hnd. apply NoDup_cons in Hnd as [Hno _]. apply Hno. unfold registers. apply list_elem_of_omap. by exists (Register r d' p').
  - cbn. pose proof (r_once _ _ Hi) as Hnd. rewrite Hc in Hnd. cbn in Hnd. by apply NoDup_cons in Hnd as [_ Hnd].
Qed.

(** A command that is no call is taken. *)
Lemma pop_inv n s c rest : Inv n s -> commands s = c :: rest -> (forall r d p, c <> Register r d p) -> (forall i, c <> Remove i) ->
  forall l, Inv n (mkT rest (sessions s) (next s) (requests s) l).
Proof.
  intros Hi Hc Hcall Hrem l. assert (Hin : forall x, x ∈ rest -> x ∈ commands s) by (intros x ?; rewrite Hc; by right).
  constructor; cbn; try apply Hi.
  - intros r d p q i Hr Hl. destruct (r_live _ _ Hi _ _ _ _ _ Hr Hl) as (? & ? & Hno). split; [done|split; [done|]]. intros ?%Hin. done.
  - intros i h Hs. destruct (r_listed _ _ Hi _ _ Hs) as [? [?|Hr]]; (split; [done|]); [by left|right]. rewrite Hc in Hr. apply elem_of_cons in Hr as [Heq|]; [by destruct (Hrem i)|done].
  - intros i Hr%Hin. by eapply r_removed.
  - intros r d p Hr%Hin. by eapply r_calls.
  - pose proof (r_once _ _ Hi) as Hnd. rewrite Hc in Hnd. destruct c as [r d p| |]; [by destruct (Hcall r d p)|done|done].
Qed.

Lemma remove_served_inv n s i rest : Inv n s -> commands s = Remove i :: rest -> Inv n (mkT rest (delete i (sessions s)) (next s) (requests s) (listed s)).
Proof.
  intros Hi Hc. assert (Hin : forall x, x ∈ rest -> x ∈ commands s) by (intros x ?; rewrite Hc; by right).
  constructor; cbn; try apply Hi.
  - intros r d p q j Hr Hl. destruct (r_live _ _ Hi _ _ _ _ _ Hr Hl) as (? & ? & Hno). split; [done|]. split; [|by intros ?%Hin]. rewrite lookup_delete_ne; [done|]. intros ->. apply Hno. rewrite Hc. left.
  - intros j h Hs. apply lookup_delete_Some in Hs as [Hne Hs]. destruct (r_listed _ _ Hi _ _ Hs) as [? [?|Hr]]; (split; [done|]); [by left|right].
    rewrite Hc in Hr. by apply elem_of_cons in Hr as [[= ->]|].
  - intros j Hr%Hin. by eapply r_removed.
  - intros r d p Hr%Hin. by eapply r_calls.
  - pose proof (r_once _ _ Hi) as Hnd. by rewrite Hc in Hnd.
Qed.

Lemma mono_inv n s : Inv n s -> Inv (n + 1) s.
Proof. intros []. constructor; try done. lia. Qed.

Lemma set_reply_twice r q q' s : set_reply r q (set_reply r q' s) = set_reply r q s.
Proof. unfold set_reply. cbn. f_equal. apply map_eq. intros k. destruct (decide (r = k)) as [->|]; [rewrite !lookup_alter_eq|by rewrite !lookup_alter_ne by done]. by destruct (requests s !! k). Qed.

Lemma serve_inv n s s' : Inv n s -> n < 2 ^ 64 - 1 -> serve s = Some s' -> Inv (n + 1) s'.
Proof.
  intros Hi Hn. unfold serve. destruct (commands s) as [|[r d p|i|] rest] eqn:Hc; [done| | |]; intros [= <-].
  - pose proof (r_next _ _ Hi). rewrite Z.mod_small by lia. destruct (r_calls _ _ Hi r d p) as (q & Hq & Ho); [rewrite Hc; left|]. rewrite Hq.
    pose proof (grow_inv n s r d p rest q Hi Hn Hc Hq) as Hg. destruct Ho as [-> | ->]; [done|].
    rewrite <- (set_reply_twice r Dropped (Replied (next s + 1))). eapply (kill_inv _ _ r d p (Replied (next s + 1))); [exact Hg| |done].
    rewrite set_reply_lookup, decide_True by done. cbn. by rewrite Hq.
  - by apply mono_inv, remove_served_inv.
  - apply mono_inv. by eapply pop_inv.
Qed.

Lemma ask_inv n s : Inv n s -> Inv n (mkT (commands s ++ [Listing]) (sessions s) (next s) (requests s) (listed s)).
Proof.
  intros Hi. assert (Hin : forall c, c ∈ commands s ++ [Listing] -> c <> Listing -> c ∈ commands s) by (intros c [?| ->%list_elem_of_singleton]%elem_of_app ?; done).
  constructor; cbn; try apply Hi.
  - intros r d p q i Hr Hl. destruct (r_live _ _ Hi _ _ _ _ _ Hr Hl) as (? & ? & Hno). split; [done|split; [done|]]. intros Hx. apply Hno. by apply Hin.
  - intros i h Hs. destruct (r_listed _ _ Hi _ _ Hs) as [? [?|Hr]]; (split; [done|]); [by left|right; apply elem_of_app; by left].
  - intros i Hr. eapply r_removed; [done|]. by apply Hin.
  - intros r d p Hr. eapply r_calls; [done|]. by apply Hin.
  - rewrite registers_app, app_nil_r. apply Hi.
Qed.

Lemma registry_step_inv n s ev s' : Inv n s -> n < 2 ^ 64 - 1 -> registry_step s ev = Some s' -> Inv (n + 1) s'.
Proof.
  intros Hi Hn. destruct ev as [d p|r|r|r| |]; cbn [registry_step]; [| | | | |by apply serve_inv]; intros Hs; apply mono_inv.
  - injection Hs as <-. exact (registry_call_inv n d p s Hi).
  - destruct (requests s !! r) as [[[d p] []]|] eqn:Hr; try done. injection Hs as <-. eapply registry_reply_inv; [done|exact Hr|done|by right].
  - destruct (requests s !! r) as [[[d p] []]|] eqn:Hr; try done; injection Hs as <-; [eapply registry_reply_inv; [done|exact Hr|done|by left]|by eapply kill_inv].
  - destruct (requests s !! r) as [[[d p] []]|] eqn:Hr; try done; injection Hs as <-. by eapply kill_inv.
  - injection Hs as <-. by apply ask_inv.
Qed.

Lemma registry_run_inv n s evs s' : Inv n s -> n + Z.of_nat (length evs) < 2 ^ 64 -> registry_run s evs = Some s' -> Inv (n + Z.of_nat (length evs)) s'.
Proof.
  revert n s. induction evs as [|ev evs IH]; intros n s Hi Hn Hr; cbn in Hr; [injection Hr as <-; cbn; by rewrite Z.add_0_r|].
  destruct (registry_step s ev) as [s1|] eqn:H1; [|done]. cbn [length] in *. replace (n + Z.of_nat (S (length evs))) with (n + 1 + Z.of_nat (length evs)) by lia.
  apply (IH _ s1); [eapply registry_step_inv; [done|lia|done]|lia|done].
Qed.

Lemma registry_new_inv : Inv 0 new.
Proof.
  constructor; cbn; try (intros; by rewrite lookup_empty in * ); try (by intros ? ?%elem_of_nil); try (by intros ? ? ? ?%elem_of_nil).
  - lia.
  - intros r. rewrite lookup_empty, map_size_empty. split; [by intros []|lia].
  - apply NoDup_nil_2.
Qed.

(** The registry lists the live sessions.  However calls, answers, abandoned calls and dropped registrations interleave with
    the registry's task: a registration that was answered is listed under its own id with its own destination, no two have the
    same id, and every other listed session has its removal on the way; so with all commands served the list
    is exactly the live registrations, those of callers that went away before their answer included in the removed. *)
Theorem registry_lists_live evs s :
  registry_run new evs = Some s -> Z.of_nat (length evs) < 2 ^ 64 ->
  (forall r d p q i, requests s !! r = Some (d, p, q) -> live q = Some i -> sessions s !! i = Some (mkHandle i d p)) /\
  (forall r r' x x' i, requests s !! r = Some x -> requests s !! r' = Some x' -> live x.2 = Some i -> live x'.2 = Some i -> r = r') /\
  (forall i h, sessions s !! i = Some h -> (exists r x, requests s !! r = Some x /\ live x.2 = Some i) \/ Remove i ∈ commands s) /\
  (commands s = [] -> forall i, is_Some (sessions s !! i) <-> exists r x, requests s !! r = Some x /\ live x.2 = Some i).
Proof.
  intros Hr Hn. pose proof (registry_run_inv 0 new evs s registry_new_inv Hn Hr) as Hi. split_and!.
  - intros r d p q i Hq Hl. by destruct (r_live _ _ Hi _ _ _ _ _ Hq Hl) as (_ & ? & _).
  - intros r r' x x' i. eapply r_unique; exact Hi.
  - intros i h Hs. by destruct (r_listed _ _ Hi _ _ Hs).
  - intros Hc i. split; [|intros (r & [[d p] q] & Hq & Hl); eexists; by eapply r_live].
    intros [h Hh]. destruct (r_listed _ _ Hi _ _ Hh) as [_ [?|Hrem]]; [done|]. rewrite Hc in Hrem. by apply elem_of_nil in Hrem.
Qed.

(** ** Examples *)

Definition host : Target := Domain [97] 53.
Definition other : Target := Domain [98] 53.

(** The caller of the second registration goes away before its answer. *)
Definition calls : list event :=
  [Call host TCP; Call other UDP; Abandon 1%nat; Serve; Serve; Receive 0%nat; Serve; Ask; Serve].

Lemma registry_lists_live_witness :
  exists s, registry_run new calls = Some s /\ listed s = [{[1 := mkHandle 1 host TCP]}] /\
    (is_Some (sessions s !! 2) <-> exists r x, requests s !! r = Some x /\ live x.2 = Some 2).
Proof.
  eexists. split; [vm_compute; reflexivity|]. split; [reflexivity|].
  refine (proj2 (proj2 (proj2 (registry_lists_live calls _ _ _))) _ 2); [vm_compute; reflexivity|cbn; lia|reflexivity].
Defined.

End Registry.
