(* ===== verification/Idle.v ===== *)
(** * Idle expiry of UDP sessions (crates/protocol/src/activity.rs, session.rs)

    Forwarding tasks record their activity in a shared maximum; the session's future sleeps until the
    idle time has passed since the last one. *)

From S2P Require Import Prelude.

Module Idle.

(** An [Activity] with the clock, in nanoseconds since its epoch; the recorders that have read the
    clock and not stored it yet; and the future of [UdpSession::run]: where it sleeps, when it ended. *)
Record t := mkT { now : Z; last : Z; reading : list Z; recorded : list Z; sleeping : option Z; expired : option Z }.

Definition default : t := mkT 0 0 [] [] None None.

(** [Activity::record] reads the clock; *)
Definition record_read (s : t) : t := mkT (now s) (last s) (reading s ++ [Z.min (now s) u64_max]) (recorded s) (sleeping s) (expired s).

(** and stores it with [fetch_max], in any order among recorders. *)
Definition record_store (i : nat) (s : t) : option t :=
  e ← reading s !! i;
  Some (mkT (now s) (Z.max (last s) e) (delete i (reading s)) (recorded s ++ [e]) (sleeping s) (expired s)).

(** A poll of [Activity::until_idle] *)
Definition until_idle (idle : Z) (s : t) : t :=
  let ready := match sleeping s with Some deadline => deadline <=? now s | None => true end in
  if negb ready then s
  else
    let deadline := last s + idle in
    if deadline <=? now s then mkT (now s) (last s) (reading s) (recorded s) None (Some (now s))
    else mkT (now s) (last s) (reading s) (recorded s) (Some deadline) None.

Inductive event := Advance (d : nat) | RecordRead | RecordStore (i : nat) | Poll.

(** Until the session has ended. *)
Definition idle_step (idle : Z) (s : t) (ev : event) : option t :=
  match expired s with
  | Some _ => None
  | None =>
      match ev with
      | Advance d => Some (mkT (now s + Z.of_nat d) (last s) (reading s) (recorded s) (sleeping s) None)
      | RecordRead => Some (record_read s)
      | RecordStore i => record_store i s
      | Poll => Some (until_idle idle s)
      end
  end.

Fixpoint idle_run (idle : Z) (s : t) (evs : list event) : option t :=
  match evs with
  | [] => Some s
  | ev :: evs => s ← idle_step idle s ev; idle_run idle s evs
  end.

Record Inv (idle : Z) (s : t) : Prop := {
  d_last : 0 <= last s /\ Forall (fun e => e <= last s) (recorded s) /\ (last s = 0 \/ last s ∈ recorded s);
  d_sleep : forall d, sleeping s = Some d -> d <= last s + idle;
  d_expired : forall at_, expired s = Some at_ -> at_ = now s /\ last s + idle <= at_;
}.

Lemma idle_step_inv idle s ev s' : Inv idle s -> idle_step idle s ev = Some s' -> Inv idle s'.
Proof.
  intros [(H0 & Hall & Hin) Hsl Hex] Hs. unfold idle_step in Hs. destruct (expired s) eqn:He; [done|]. destruct ev as [d| |i|].
  - injection Hs as <-. by constructor.
  - injection Hs as <-. constructor; cbn; [done|done|congruence].
  - unfold record_store in Hs. destruct (reading s !! i) as [e|]; [|done]. injection Hs as <-. constructor; cbn; [| |congruence].
    + split_and!; [lia| |destruct (Z.max_spec (last s) e) as [[_ ->]|[_ ->]]; [right; apply elem_of_app; right; by apply list_elem_of_singleton|destruct Hin; [by left|right; apply elem_of_app; by left]]].
      apply Forall_app. split; [eapply Forall_impl; [exact Hall|]; cbn; lia|apply Forall_singleton; lia].
    + intros d Hd%Hsl. lia.
  - injection Hs as <-. unfold until_idle. destruct (negb _); [constructor; [done|done|congruence]|]. destruct (last s + idle <=? now s) eqn:Hd; zify_bool; constructor; cbn; try done; [intros ? [= <-]; lia|intros d [= <-]; lia].
Qed.

(** Idle expiry is exact.  With recorders storing in any order: a session ends only when every activity recorded so far is at
    least the idle time old; and as soon as that time has passed since the last recorded activity the session's
    next poll ends it, so it never oversleeps. *)
Theorem idle_expiry_exact idle evs s :
  idle_run idle default evs = Some s ->
  (forall at_, expired s = Some at_ -> idle <= at_ /\ Forall (fun e => e + idle <= at_) (recorded s)) /\
  (expired s = None -> idle <= now s -> Forall (fun e => e + idle <= now s) (recorded s) -> option_map expired (idle_step idle s Poll) = Some (Some (now s))) /\
  (expired s = None -> option_map expired (idle_step idle s Poll) = Some None -> now s < idle \/ exists e, e ∈ recorded s /\ now s < e + idle).
Proof.
  intros Hr. assert (Hi : Inv idle s).
  { assert (H0 : Inv idle default) by (constructor; cbn; [split_and!; [done|done|by left]|done|done]).
    revert H0 Hr. generalize default as s0. induction evs as [|ev evs IH]; intros s0 H0 Hr; cbn in Hr; [by injection Hr as <-|].
    destruct (idle_step idle s0 ev) as [s1|] eqn:H1; [|done]. cbn in Hr. eapply IH; [|exact Hr]. by eapply idle_step_inv. }
  destruct Hi as [(H0 & Hall & Hin) Hsl Hex].
  assert (Hpoll : expired s = None -> last s + idle <= now s -> option_map expired (idle_step idle s Poll) = Some (Some (now s))).
  { intros He Hle. unfold idle_step. rewrite He. cbn. unfold until_idle. replace (match sleeping s with Some d => d <=? now s | None => true end) with true.
    - cbn. by rewrite (proj2 (Z.leb_le _ _)) by lia.
    - destruct (sleeping s) as [d|]; [|done]. specialize (Hsl d eq_refl). symmetry. apply Z.leb_le. lia. }
  rewrite Forall_forall in Hall. split_and!.
  - intros at_ [-> Hle]%Hex. split; [lia|]. apply Forall_forall. intros e He%Hall. lia.
  - intros He Hidle Hrec. apply Hpoll; [done|]. destruct Hin as [-> |Hin]; [lia|]. rewrite Forall_forall in Hrec. by apply Hrec.
  - intros He Hp. destruct (decide (last s + idle <= now s)) as [Hle|Hgt]; [rewrite Hpoll in Hp by done; done|]. destruct Hin as [Hz|Hin]; [left; lia|right; exists (last s); split; [done|lia]].
Qed.

(** ** Examples *)

Lemma idle_expiry_exact_witness :
  exists s, idle_run 10 default [Poll; Advance 6; RecordRead; Advance 5; RecordStore 0; Poll; Advance 5; Poll] = Some s /\
    expired s = Some 16 /\ 10 <= 16 /\ Forall (fun e => e + 10 <= 16) (recorded s).
Proof.
  eexists. split; [vm_compute; reflexivity|]. split; [reflexivity|].
  refine (proj1 (idle_expiry_exact 10 [Poll; Advance 6; RecordRead; Advance 5; RecordStore 0; Poll; Advance 5; Poll] _ _) 16 _); vm_compute; reflexivity.
Defined.

End Idle.
