(* ===== verification/DnsServer.v ===== *)
(** * DNS listeners (crates/dns/src/server.rs)

    How a received message becomes a response, how a TCP connection's messages are answered, and how
    a listener finds its port.  The wire format is hickory's: a class with the documented behaviour
    of its codec as laws.  The policy handler is a function of the request. *)

From S2P Require Import Prelude Packet NetText Carrier DnsCache DnsService.
Import NetText Carrier.

Module DnsServer.
Abbreviation Rr := DnsCache.Rr.
Abbreviation Query := DnsCache.Query.

Definition FormErr : Z := 1.
Definition ServFail : Z := 2.
Definition NotImp : Z := 4.

(** [Header]: the fields the code reads. *)
Record Header := mkHeader { h_id : Z; h_query : bool; h_op_code : Z }.

(** [Edns]: the payload size and the rest. *)
Record Edns := mkEdns { max_payload : Z; options : bytes }.

(** [Request] *)
Record Request := mkRequest {
  r_id : Z;
  r_op_code : Z;
  r_queries : list Query;
  r_signature : bool;
  r_edns : option Edns;
  r_rest : bytes;
}.

(** [DnsResponse], and the [MessageResponse] that is emitted. *)
Record Response := mkResponse {
  id : Z;
  is_query : bool;
  op_code : Z;
  response_code : Z;
  queries : list Query;
  edns : option Edns;
  answers : list Rr;
  authorities : list Rr;
  additionals : list Rr;
}.

(** hickory's codec. *)
Class Codec := {
  read_header : bytes -> option Header;                 (* [Header::read] *)
  from_bytes : bytes -> option Request;                 (* [Request::from_bytes] *)
  from_vec : bytes -> bool;                             (* [Message::from_vec] succeeds *)
  request_info : Request -> option Query;               (* [Request::request_info], the question *)
  set_max_payload : Z -> Edns -> Edns;
  error_response : Request -> Z -> Response;            (* [MessageResponseBuilder::error_msg] *)
  emit : Z -> Response -> option bytes;                 (* [destructive_emit] with [set_max_size] *)
  error_msg : Z -> Z -> Z -> option bytes;              (* [Message::error_msg(..).to_vec()] *)
}.

Class CodecLaws `{Codec} : Prop := {
  from_bytes_header : forall b r h, from_bytes b = Some r -> read_header b = Some h -> r_id r = h_id h /\ r_op_code r = h_op_code h;
  from_bytes_edns : forall b r e, from_bytes b = Some r -> r_edns r = Some e -> 512 <= max_payload e <= u16_max;
  set_max_payload_bound : forall n e, max_payload (set_max_payload n e) <= Z.max 512 n;
  error_response_answers : forall r c, id (error_response r c) = r_id r /\ is_query (error_response r c) = false;
  emit_bounded : forall n r b, emit n r = Some b -> len b <= n;
  emit_header : forall n r b, emit n r = Some b -> exists h, read_header b = Some h /\ h_id h = id r /\ h_query h = is_query r;
  error_msg_header : forall i op c b, error_msg i op c = Some b -> len b <= 512 /\ exists h, read_header b = Some h /\ h_id h = i /\ h_query h = false;
}.

(** [DnsRequestInfo], and what the policy handler returns. *)
Record DnsRequestInfo := mkInfo { inbound : Z; source : Packet.IpAddress * Z; protocol : TransportProtocol }.
Inductive handled := Drop | Answer (r : Response) | PolicyFailed.

Section server.
Context `{Codec}.

(** [encode] *)
Definition encode (response : Response) (i limit : Z) : option bytes :=
  match emit limit response with
  | Some b => Some b
  | None => error_msg i DnsService.QUERY ServFail
  end.

(** The response to a policy answer: the request's id and questions, and the client's payload limit. *)
Definition build (request : Request) (m : Response) : Response :=
  let e := match edns m with
           | Some e =>
               let maximum := match r_edns request with Some re => max_payload re | None => 512 end in
               Some (set_max_payload (Z.min (max_payload e) maximum) e)
           | None => None
           end in
  mkResponse (r_id request) false (op_code m) (response_code m) (r_queries request) e (answers m) (authorities m) (additionals m).

(** The size limit of a response. *)
Definition limit (p : TransportProtocol) (request : Request) : Z :=
  match p with
  | UDP => match r_edns request with Some e => max_payload e | None => 512 end
  | TCP => u16_max
  end.

(** The requests that are refused without asking the policy. *)
Definition error_code (request : Request) : option Z :=
  if negb (r_op_code request =? DnsService.QUERY) || r_signature request then Some NotImp
  else match request_info request with
       | Some q => if (DnsCache.query_type q =? DnsService.AXFR) || (DnsCache.query_type q =? DnsService.IXFR) then Some NotImp else None
       | None => Some FormErr
       end.

(** [Responder::respond] *)
Definition respond (inb : Z) (handle : Request -> DnsRequestInfo -> handled) (b : bytes) (src : Packet.IpAddress * Z) (p : TransportProtocol) : option bytes :=
  match read_header b with
  | None => None
  | Some header =>
      if negb (h_query header) then None
      else
        match from_bytes b with
        | None => error_msg (h_id header) (h_op_code header) FormErr
        | Some request =>
            let result : option (res Z Response) :=
              match error_code request with
              | Some code => Some (Err code)
              | None =>
                  match (if from_vec b then handle request (mkInfo inb src p) else PolicyFailed) with
                  | Drop => None
                  | Answer response => Some (Ok response)
                  | PolicyFailed => Some (Err ServFail)
                  end
              end in
            match result with
            | None => None
            | Some (Ok m) => encode (build request m) (r_id request) (limit p request)
            | Some (Err code) => encode (error_response request code) (r_id request) (limit p request)
            end
        end
  end.

(** ** TCP connections *)

(** [u16::to_be_bytes] and the message behind it *)
Definition frame (m : bytes) : bytes := len m `div` 256 :: len m `mod` 256 :: m.

(** [read_u16] and [read_exact]: the message and what follows, or nothing if the input ends first. *)
Definition read_message (input : bytes) : option (bytes * bytes) :=
  match input with
  | a :: b :: rest => let n := a * 256 + b in if n <=? len rest then Some (ztake n rest, zdrop n rest) else None
  | _ => None
  end.

(** How a read that gets no whole message ends: the client's end of stream, its silence for the idle
    timeout, or a read error; and what a round of the loop meets: the listener stopping, a write error. *)
Inductive ending := Eof | Silence | ReadError.
Record Round := mkRound { stopping : bool; writable : bool }.

Inductive outcome := Closed (written : bytes) | Broken (written : bytes) | TooLong (written : bytes) | OutOfFuel.

(** [serve_stream]; [answer] is [respond] for this connection. *)
Fixpoint serve_loop (fuel : nat) (answer : bytes -> option bytes) (rounds : nat -> Round) (k : nat) (input : bytes) (fin : ending) (written : bytes) : outcome :=
  match fuel with
  | O => OutOfFuel
  | S fuel =>
      if stopping (rounds k) then Closed written
      else
        match read_message input with
        | None => match fin with Eof | Silence => Closed written | ReadError => Broken written end
        | Some (message, rest) =>
            match answer message with
            | None => serve_loop fuel answer rounds (S k) rest fin written
            | Some response =>
                if u16_max <? len response then TooLong written
                else if writable (rounds k) then serve_loop fuel answer rounds (S k) rest fin (written ++ frame response)
                else Broken written
            end
        end
  end.

(** Every round takes at least two bytes, so the input's length is enough fuel. *)
Definition serve_stream (answer : bytes -> option bytes) (rounds : nat -> Round) (input : bytes) (fin : ending) : outcome :=
  serve_loop (S (length input)) answer rounds 0 input fin [].

End server.

(** ** Ports *)

Inductive bound := Bound (port : Z) | InUse | BindFailed.

(** [bind_sockets]: the ports of the listener's sockets; [tcp_bind] and [udp_bind] are the system's
    answers at each attempt. [None] is the unreachable end of the loop. *)
Fixpoint bind_loop (attempts : nat) (attempt : nat) (want_tcp want_udp : bool) (port : Z) (tcp_bind udp_bind : nat -> Z -> bound) : option (res unit (Z * option Z * option Z)) :=
  match attempts with
  | O => None
  | S attempts =>
      let tcp := if want_tcp then match tcp_bind attempt port with Bound p => Ok (p, Some p) | _ => Err tt end else Ok (port, None) in
      match tcp with
      | Err e => Some (Err e)
      | Ok (address, tcp) =>
          if want_udp then
            match udp_bind attempt address with
            | Bound p => Some (Ok (p, tcp, Some p))
            | InUse =>
                if (port =? 0) && bool_decide (is_Some tcp) && (Z.of_nat attempt <? 7)
                then bind_loop attempts (S attempt) want_tcp want_udp port tcp_bind udp_bind
                else Some (Err tt)
            | BindFailed => Some (Err tt)
            end
          else Some (Ok (address, tcp, None))
      end
  end.

Definition bind_sockets := bind_loop 8 0.

(** ** Responses *)

Section responses.
Context `{CodecLaws}.

Lemma limit_range b r p : from_bytes b = Some r -> 512 <= limit p r <= u16_max.
Proof.
  intros Hb. unfold limit. destruct p; [unfold u16_max; lia|]. destruct (r_edns r) as [e|] eqn:He; [by eapply from_bytes_edns|unfold u16_max; lia].
Qed.

Lemma encode_spec r i n b : 512 <= n -> id r = i -> is_query r = false -> encode r i n = Some b ->
  len b <= n /\ exists h, read_header b = Some h /\ h_id h = i /\ h_query h = false.
Proof.
  intros Hn Hi Hq. unfold encode. destruct (emit n r) as [b'|] eqn:He.
  - intros [= <-]. split; [by eapply emit_bounded|]. destruct (emit_header _ _ _ He) as (h & Hh & Hid & Hhq). exists h. split_and!; congruence.
  - intros (Hl & h & Hh & Hid & Hhq)%error_msg_header. split; [lia|]. by exists h.
Qed.

Lemma respond_spec inb handle b src p r : respond inb handle b src p = Some r ->
  exists hb, read_header b = Some hb /\ h_query hb = true /\
    (exists hr, read_header r = Some hr /\ h_query hr = false /\ h_id hr = h_id hb) /\
    match from_bytes b with Some request => len r <= limit p request | None => len r <= 512 end.
Proof.
  unfold respond. destruct (read_header b) as [hb|] eqn:Hh; [|done]. destruct (h_query hb) eqn:Hq; [|done]. cbn [negb]. intros Hr. exists hb.
  destruct (from_bytes b) as [request|] eqn:Hb.
  - destruct (from_bytes_header _ _ _ Hb Hh) as [Hid _]. pose proof (limit_range b request p Hb) as [Hlim _].
    assert (Henc : exists m, id m = r_id request /\ is_query m = false /\ encode m (r_id request) (limit p request) = Some r).
    { destruct (error_code request) as [c|]; [|destruct (if from_vec b then _ else _) as [|m|]; [done|exists (build request m); done|]];
        cbn in Hr; eexists; (split; [|split; [|exact Hr]]); apply error_response_answers. }
    destruct Henc as (m & Hm & Hmq & He). destruct (encode_spec m _ _ _ Hlim Hm Hmq He) as (Hl & h & Hhr & Hhid & Hhq).
    split_and!; [done|done| |done]. exists h. split_and!; congruence.
  - apply error_msg_header in Hr as (Hl & h & ? & ? & ?). split_and!; [done|done| |done]. by exists h.
Qed.

(** DNS responses match their requests.  Whatever arrives and whatever the policy does: only queries are answered; the
    answer is a response with the query's id; over UDP it fits the client's payload limit, 512 bytes without one; and no
    listener answers an answer, so two listeners never exchange messages in a loop. *)
Theorem dns_response_matches_request inb handle b src p r :
  respond inb handle b src p = Some r ->
  (exists hb hr, read_header b = Some hb /\ h_query hb = true /\ read_header r = Some hr /\ h_query hr = false /\ h_id hr = h_id hb) /\
  match from_bytes b with Some request => len r <= limit p request | None => len r <= 512 end /\
  len r <= u16_max /\
  (forall inb' handle' src' p', respond inb' handle' r src' p' = None).
Proof.
  intros (hb & Hb & Hq & (hr & Hr & Hrq & Hid) & Hl)%respond_spec. split_and!; [by exists hb, hr|done| |].
  - destruct (from_bytes b) as [request|] eqn:Hreq; [pose proof (limit_range b request p Hreq); lia|unfold u16_max; lia].
  - intros. unfold respond. by rewrite Hr, Hrq.
Qed.

(** A policy's answer is sent under the request's id and questions, with the smaller of the two payload sizes. *)
Lemma build_answers request m :
  id (build request m) = r_id request /\ queries (build request m) = r_queries request /\ is_query (build request m) = false /\
  forall e, edns (build request m) = Some e -> max_payload e <= Z.max 512 (match r_edns request with Some re => max_payload re | None => 512 end).
Proof.
  split_and!; try done. intros e. cbn. destruct (edns m) as [e0|]; [|done]. intros [= <-].
  pose proof (set_max_payload_bound (Z.min (max_payload e0) (match r_edns request with Some re => max_payload re | None => 512 end)) e0). lia.
Qed.

End responses.

(** ** Connections *)

Lemma read_frame m rest : len m <= u16_max -> read_message (frame m ++ rest) = Some (m, rest).
Proof.
  intros Hm. unfold frame. cbn. rewrite (Z.mul_comm _ 256), <- (Z_div_mod_eq_full (len m) 256). rewrite len_app. pose proof (len_nonneg rest).
  rewrite (proj2 (Z.leb_le _ _)) by lia. by rewrite ztake_app_exact, zdrop_app_exact.
Qed.

Lemma length_frame m : length (frame m) = S (S (length m)).
Proof. done. Qed.

(** The first round the listener stops in, among the first [n]. *)
Fixpoint stops_at (rounds : nat -> Round) (k n : nat) : nat :=
  match n with O => O | S n => if stopping (rounds k) then O else S (stops_at rounds (S k) n) end.

Lemma serve_loop_spec answer rounds fin ms : forall fuel k rest written,
  Forall (fun m => len m <= u16_max) ms -> (forall m r, answer m = Some r -> len r <= u16_max) -> (forall n, writable (rounds n) = true) -> fin <> ReadError -> read_message rest = None ->
  (length (concat (frame <$> ms)) < fuel)%nat ->
  serve_loop fuel answer rounds k (concat (frame <$> ms) ++ rest) fin written =
    Closed (written ++ concat (frame <$> omap answer (take (stops_at rounds k (length ms)) ms))).
Proof.
  induction ms as [|m ms IH]; intros fuel k rest written Hms Ha Hw Hf Hrest Hfuel; (destruct fuel as [|fuel]; [lia|]).
  - cbn. rewrite app_nil_r. destruct (stopping (rounds k)); [done|]. rewrite Hrest. by destruct fin.
  - apply Forall_cons in Hms as [Hm Hms]. cbn [fmap list_fmap concat length stops_at serve_loop]. destruct (stopping (rounds k)); [cbn; by rewrite app_nil_r|].
    rewrite <- app_assoc, read_frame by done. cbn [fmap list_fmap concat] in Hfuel. rewrite length_app, length_frame in Hfuel.
    destruct (answer m) as [r|] eqn:Hr.
    + rewrite (proj2 (Z.ltb_ge _ _)) by (by eapply Ha). rewrite Hw, IH by (done || lia). cbn [take omap list_omap]. rewrite Hr. cbn. by rewrite <- !app_assoc.
    + rewrite IH by (done || lia). cbn [take omap list_omap]. by rewrite Hr.
Qed.

(** A connection's messages are answered one by one, in order.  For every sequence of messages, followed by an incomplete one,
    and a client that ends or falls silent: what is written is exactly the responses' frames in the order of the messages,
    up to the message at which the listener stops, and the connection closes in order. *)
Theorem dns_stream_answers_in_order `{CodecLaws} inb handle src rounds fin ms rest :
  Forall (fun m => len m <= u16_max) ms -> (forall n, writable (rounds n) = true) -> fin <> ReadError -> read_message rest = None ->
  serve_stream (fun m => respond inb handle m src TCP) rounds (concat (frame <$> ms) ++ rest) fin =
    Closed (concat (frame <$> omap (fun m => respond inb handle m src TCP) (take (stops_at rounds 0 (length ms)) ms))).
Proof.
  intros Hms Hw Hf Hrest. unfold serve_stream. rewrite serve_loop_spec; [done|done| |done|done|done|rewrite length_app; lia].
  intros m r (hb & _ & _ & _ & Hl)%respond_spec. destruct (from_bytes m) as [request|] eqn:Hreq; [pose proof (limit_range m request TCP Hreq); lia|unfold u16_max; lia].
Qed.

(** ** Binding *)

Lemma bind_loop_spec tcp_bind udp_bind want_tcp want_udp port :
  (forall n p q, tcp_bind n p = Bound q -> p <> 0 -> q = p) -> (forall n p q, tcp_bind n p = Bound q -> q <> 0) -> (forall n p q, udp_bind n p = Bound q -> p <> 0 -> q = p) ->
  forall attempts attempt, (8 <= attempt + attempts)%nat -> (attempt < 8)%nat ->
  exists r, bind_loop attempts attempt want_tcp want_udp port tcp_bind udp_bind = Some r /\
    forall a t u, r = Ok (a, t, u) -> (forall p, t = Some p -> p = a) /\ (forall p, u = Some p -> p = a) /\ (port <> 0 -> a = port) /\ (is_Some t <-> want_tcp = true) /\ (is_Some u <-> want_udp = true).
Proof.
  intros Ht Hn Hu. induction attempts as [|attempts IH]; intros attempt Hle Hlt; [lia|]. cbn [bind_loop].
  assert (Hsome : forall (p : Z) b, b = true -> (is_Some (Some p) <-> b = true)) by (intros; split; [done|by eexists]).
  assert (Hnone : forall b, b = false -> (is_Some (@None Z) <-> b = true)) by (intros b ->; split; [by intros []|done]).
  destruct want_tcp.
  - destruct (tcp_bind attempt port) as [p| |] eqn:Hp; [|by eexists|by eexists]. destruct want_udp; [|eexists; split; [done|]; intros a t u [= <- <- <-]; split_and!; eauto; congruence].
    destruct (udp_bind attempt p) as [q| |] eqn:Hq; [| |by eexists].
    + eexists. split; [done|]. intros a t u [= <- <- <-]. pose proof (Hn _ _ _ Hp). assert (q = p) as -> by eauto. split_and!; eauto; congruence.
    + case_bool; [|by eexists]. apply IH; lia.
  - destruct want_udp; [|eexists; split; [done|]; intros a t u [= <- <- <-]; split_and!; eauto; congruence].
    destruct (udp_bind attempt port) as [q| |] eqn:Hq; [| |by eexists].
    + eexists. split; [done|]. intros a t u [= <- <- <-]. split_and!; eauto; congruence.
    + rewrite bool_decide_eq_false_2 by (by intros []). rewrite andb_false_r. cbn. by eexists.
Qed.

(** A listener's sockets share one port, the configured one unless that is zero, and the search for one always ends with an answer. *)
Theorem dns_listener_binds tcp_bind udp_bind want_tcp want_udp port :
  (forall n p q, tcp_bind n p = Bound q -> p <> 0 -> q = p) -> (forall n p q, tcp_bind n p = Bound q -> q <> 0) -> (forall n p q, udp_bind n p = Bound q -> p <> 0 -> q = p) ->
  exists r, bind_sockets want_tcp want_udp port tcp_bind udp_bind = Some r /\
    forall a t u, r = Ok (a, t, u) -> (forall p, t = Some p -> p = a) /\ (forall p, u = Some p -> p = a) /\ (port <> 0 -> a = port) /\ (is_Some t <-> want_tcp = true) /\ (is_Some u <-> want_udp = true).
Proof. intros. apply bind_loop_spec; [done|done|done|lia|lia]. Qed.

(** ** Examples *)

(** A small wire format: id, kind and operation, then the question's type or the response code. *)
#[local] Instance small_codec : Codec := {|
  read_header b := match b with i :: k :: op :: _ => Some (mkHeader i (k =? 0) op) | _ => None end;
  from_bytes b := match b with [i; _; op; t] => Some (mkRequest i op [DnsCache.mkQuery [] t 1] false None []) | _ => None end;
  from_vec b := true;
  request_info r := head (r_queries r);
  set_max_payload n e := mkEdns (Z.max 512 n) (options e);
  error_response r c := mkResponse (r_id r) false (r_op_code r) c (r_queries r) None [] [] [];
  emit n r := let b := [id r; if is_query r then 0 else 1; op_code r; response_code r] in if 4 <=? n then Some b else None;
  error_msg i op c := Some [i; 1; op; c];
|}.

#[local] Instance small_laws : CodecLaws.
Proof.
  constructor; cbn.
  - intros b r h. repeat case_match; try done. intros [= <-] [= <-]. done.
  - intros b r e. repeat case_match; try done. by intros [= <-].
  - intros n e. lia.
  - done.
  - intros n r b. case_bool; [|done]. intros [= <-]. unfold len. cbn. lia.
  - intros n r b. case_bool; [|done]. intros [= <-]. eexists. split; [done|]. cbn. by destruct (is_query r).
  - intros i op c b [= <-]. split; [unfold len; cbn; lia|]. by eexists.
Qed.

Definition policy (r : Request) (i : DnsRequestInfo) : handled :=
  if r_id r =? 9 then Drop else Answer (mkResponse 77 true 0 0 [] None [] [] []).
Definition client : Packet.IpAddress * Z := (Packet.Ipv4 1, 5353).

Lemma dns_response_matches_request_witness :
  respond 1 policy [7; 0; 0; 1] client UDP = Some [7; 1; 0; 0] /\ (forall inb' handle' src' p', respond inb' handle' [7; 1; 0; 0] src' p' = None).
Proof.
  split; [reflexivity|].
  exact (proj2 (proj2 (proj2 (dns_response_matches_request 1 policy [7; 0; 0; 1] client UDP [7; 1; 0; 0] eq_refl)))).
Defined.

Definition queries_sent : list bytes := [[7; 0; 0; 1]; [9; 0; 0; 1]; [8; 0; 0; 252]; [6]].

Lemma dns_stream_answers_in_order_witness :
  serve_stream (fun m => respond 1 policy m client TCP) (fun _ => mkRound false true) (concat (frame <$> queries_sent) ++ [0; 9; 1]) Eof =
    Closed (concat (frame <$> omap (fun m => respond 1 policy m client TCP) (take (stops_at (fun _ => mkRound false true) 0 4) queries_sent))) /\
  omap (fun m => respond 1 policy m client TCP) queries_sent = [[7; 1; 0; 0]; [8; 1; 0; 4]].
Proof.
  split; [|reflexivity].
  apply (dns_stream_answers_in_order 1 policy client (fun _ => mkRound false true) Eof queries_sent [0; 9; 1]); [repeat constructor; unfold len, u16_max; cbn; lia|done|done|reflexivity].
Defined.

End DnsServer.
