(* ===== verification/Endpoint.v ===== *)
(** * Transmitting to the TUN device (crates/tun/src/endpoint.rs)

    A queue's writer takes what the workers queued, in batches: whole packets are collected and
    written together, TCP aggregates are written as they come, and UDP datagrams of one size are
    joined into aggregates or encoded by UdpEncoder.v.  The device's answers are a parameter. *)

From S2P Require Import Prelude Packet UdpEncoder UdpDirect.
Import UdpEncoder.

Module Endpoint.
Import UdpDirect.

(** What the device is given; an aggregate's addresses are those in its header. *)
Inductive frame :=
  | FPacket (packet : bytes)
  | FTcp (packet : bytes) (payload : list bytes) (segment_size : Z)
  | FUdp (source destination : SocketAddr) (header : bytes) (parts : list bytes) (size : Z).

(** [transmit]'s locals, with what was given to the device so far; [calls] counts its sends and
    [encodes] the encoder's packets, to number the device's answers and the pool's blocks. *)
Record tx := mkTx { encoder : Encoder; packets : list bytes; sent : list frame; calls : nat; encodes : nat }.

Inductive stop := DeviceFailed (sent : list frame) | Panicked | OutOfFuel.

Section transmit.
Context `{Emit} (udp_gso : bool) (failure : nat -> option nat) (stale : nat -> Z -> bytes).

(** [PacketSend::send_batch]: a failure leaves a prefix written. *)
Definition send_batch (s : tx) : res stop tx :=
  match packets s with
  | [] => Ok s
  | _ =>
      match failure (calls s) with
      | None => Ok (mkTx (encoder s) [] (sent s ++ (FPacket <$> packets s)) (S (calls s)) (encodes s))
      | Some k => Err (DeviceFailed (sent s ++ (FPacket <$> take k (packets s))))
      end
  end.

(** [send_tcp_segments] and [send_udp_segments] *)
Definition send_frame (f : frame) (s : tx) : res stop tx :=
  match failure (calls s) with
  | None => Ok (mkTx (encoder s) (packets s) (sent s ++ [f]) (S (calls s)) (encodes s))
  | Some _ => Err (DeviceFailed (sent s))
  end.

(** The payloads that join an aggregate of [n]. *)
Fixpoint collect (size n : Z) (pending : list bytes) : list bytes * list bytes :=
  match pending with
  | [] => ([], [])
  | p :: rest =>
      if (n <? 64) && ((n + 1) * size <=? 65507) && (len p =? size)
      then let '(parts, rest) := collect size (n + 1) rest in (p :: parts, rest)
      else ([], pending)
  end.

Definition offloads (e : Encoder) (source destination : SocketAddr) (payload : bytes) : bool :=
  udp_gso && negb (len payload =? 0) && can_offload e source destination (len payload).

(** [Transmit::Datagrams] *)
Fixpoint datagrams (fuel : nat) (source destination : SocketAddr) (pending : list bytes) (s : tx) : res stop tx :=
  match pending with
  | [] => Ok s
  | payload :: pending =>
      match fuel with
      | O => Err OutOfFuel
      | S fuel =>
          if offloads (encoder s) source destination payload then
            let size := len payload in
            let '(more, pending) := collect size 1 pending in
            let parts := payload :: more in
            match header (encoder s) source destination size (size * len parts) with
            | None => Err Panicked                                  (* [expect("validated UDP aggregate")] *)
            | Some h =>
                s ← send_batch s;
                s ← send_frame (FUdp source destination h parts size) s;
                datagrams fuel source destination pending s
            end
          else
            let '(e, d) := encode (encoder s) source destination payload (stale (encodes s)) in
            datagrams fuel source destination pending (mkTx e (packets s ++ default [] d) (sent s) (calls s) (S (encodes s)))
      end
  end.

Definition item (i : Transmit) (s : tx) : res stop tx :=
  match i with
  | TPacket p => Ok (mkTx (encoder s) (packets s ++ [p]) (sent s) (calls s) (encodes s))
  | TcpGso p payload size => s ← send_batch s; send_frame (FTcp p payload size) s
  | Datagrams source destination payload => datagrams (length payload) source destination payload s
  end.

Fixpoint items (l : list Transmit) (s : tx) : res stop tx :=
  match l with [] => Ok s | i :: l => s ← item i s; items l s end.

(** [transmit], for the batches [recv_many] takes until the queue is closed *)
Fixpoint transmit (batches : list (list Transmit)) (s : tx) : res stop tx :=
  match batches with
  | [] => Ok s
  | b :: batches => s ← items b s; s ← send_batch s; transmit batches s
  end.

(** ** What the queue asks for *)

(** A packet, a TCP aggregate, or one datagram of a UDP aggregate. *)
Inductive unit_ := Whole (packet : bytes) | Tcp (packet : bytes) (payload : list bytes) (segment_size : Z) | Segment (source destination : SocketAddr) (payload : bytes).

Definition units (f : frame) : list unit_ :=
  match f with
  | FPacket p => [Whole p]
  | FTcp p payload size => [Tcp p payload size]
  | FUdp source destination _ parts _ => Segment source destination <$> parts
  end.

Definition flat (l : list frame) : list unit_ := concat (units <$> l).
Arguments flat l : simpl never.

(** Each datagram by itself, in order. *)
Fixpoint ask_datagrams (source destination : SocketAddr) (l : list bytes) (e : Encoder) (n : nat) : list unit_ * Encoder * nat :=
  match l with
  | [] => ([], e, n)
  | p :: l =>
      if offloads e source destination p then let '(u, e, n) := ask_datagrams source destination l e n in (Segment source destination p :: u, e, n)
      else
        let '(e, d) := encode e source destination p (stale n) in
        let '(u, e, n) := ask_datagrams source destination l e (S n) in
        ((Whole <$> default [] d) ++ u, e, n)
  end.

Definition ask (i : Transmit) (e : Encoder) (n : nat) : list unit_ * Encoder * nat :=
  match i with
  | TPacket p => ([Whole p], e, n)
  | TcpGso p payload size => ([Tcp p payload size], e, n)
  | Datagrams source destination l => ask_datagrams source destination l e n
  end.

Fixpoint ask_all (l : list Transmit) (e : Encoder) (n : nat) : list unit_ * Encoder * nat :=
  match l with
  | [] => ([], e, n)
  | i :: l => let '(u, e, n) := ask i e n in let '(v, e, n) := ask_all l e n in (u ++ v, e, n)
  end.

(** ** Order *)

(** What is written or waits to be. *)
Definition todo (s : tx) : list unit_ := flat (sent s) ++ (Whole <$> packets s).

(** Aggregates the device can take. *)
Definition frame_ok (m : Z) (f : frame) : Prop :=
  match f with
  | FUdp source destination h parts size =>
      1 <= len parts <= 64 /\ Forall (fun p => len p = size) parts /\ 0 < size /\ size * len parts <= 65507 /\
      exists e, mtu e = m /\ header e source destination size (size * len parts) = Some h
  | _ => True
  end.

(** A step from [s] that adds the units [u]. *)
Definition adds (s : tx) (u : list unit_) (e : Encoder) (n : nat) (r : res stop tx) : Prop :=
  match r with
  | Ok s' => todo s' = todo s ++ u /\ encoder s' = e /\ encodes s' = n /\ (Forall (frame_ok (mtu (encoder s))) (sent s) -> Forall (frame_ok (mtu (encoder s))) (sent s'))
  | Err (DeviceFailed l) => flat l `prefix_of` todo s ++ u /\ (Forall (frame_ok (mtu (encoder s))) (sent s) -> Forall (frame_ok (mtu (encoder s))) l)
  | Err _ => False
  end.

Lemma adds_bind s u v e n e' n' r k :
  adds s u e n r -> (forall s', r = Ok s' -> mtu (encoder s') = mtu (encoder s) /\ adds s' v e' n' (k s')) -> adds s (u ++ v) e' n' (r ≫= k).
Proof.
  intros Hr Hk. destruct r as [s'|[l| |]]; cbn in Hr |- *; try done.
  - destruct Hr as (Ht & He & Hn & Hf). destruct (Hk s' eq_refl) as [Hm Ha]. unfold adds in Ha |- *. rewrite Hm in Ha. destruct (k s') as [s2|[l| |]]; try done.
    + destruct Ha as (Ht2 & He2 & Hn2 & Hf2). split_and!; [by rewrite Ht2, Ht, app_assoc|done|done|auto].
    + destruct Ha as [Hp Hf2]. split; [by rewrite Ht, <- app_assoc in Hp|auto].
  - destruct Hr as [Hp Hf]. split; [|done]. rewrite app_assoc. by apply prefix_app_r.
Qed.

Lemma units_flat_app l k : flat (l ++ k) = flat l ++ flat k.
Proof. unfold flat. by rewrite fmap_app, concat_app. Qed.

Lemma flat_packets l : flat (FPacket <$> l) = Whole <$> l.
Proof. induction l as [|p l IH]; [done|]. unfold flat in *. cbn. by rewrite IH. Qed.

Lemma Forall_packets m l : Forall (frame_ok m) (FPacket <$> l).
Proof. apply Forall_fmap, Forall_true. done. Qed.

Lemma send_batch_adds s : adds s [] (encoder s) (encodes s) (send_batch s) /\ forall s', send_batch s = Ok s' -> packets s' = [] /\ encoder s' = encoder s /\ encodes s' = encodes s.
Proof.
  unfold send_batch. destruct (packets s) as [|p l] eqn:Hp; [split; [cbn; by rewrite app_nil_r|by intros s' [= <-]]|]. rewrite <- Hp.
  destruct (failure (calls s)) as [k|].
  - split; [|done]. cbn. rewrite app_nil_r. split; [|intros Hf; apply Forall_app; split; [done|apply Forall_packets]].
    unfold todo. rewrite units_flat_app, flat_packets. apply prefix_app. rewrite fmap_take. apply prefix_take.
  - split; [|by intros s' [= <-]]. cbn. unfold todo. cbn. rewrite units_flat_app, flat_packets, !app_nil_r. split_and!; [done|done|done|]. intros Hf. apply Forall_app. split; [done|apply Forall_packets].
Qed.

Lemma send_frame_adds f s : packets s = [] -> frame_ok (mtu (encoder s)) f -> adds s (units f) (encoder s) (encodes s) (send_frame f s) /\ forall s', send_frame f s = Ok s' -> encoder s' = encoder s.
Proof.
  intros Hp Hf. unfold send_frame, todo. destruct (failure (calls s)); (split; [|by intros s' [= <-]]); cbn; unfold todo; cbn; rewrite Hp; cbn; rewrite ?app_nil_r.
  - split; [by apply prefix_app_r|done].
  - split_and!; [rewrite units_flat_app; unfold flat at 2; cbn; by rewrite app_nil_r|done|done|]. intros Hs. apply Forall_app. split; [done|by apply Forall_singleton].
Qed.

Lemma collect_spec size n pending : forall parts rest, 0 <= size -> collect size n pending = (parts, rest) -> 1 <= n <= 64 -> n * size <= 65507 ->
  pending = parts ++ rest /\ Forall (fun p => len p = size) parts /\ n + len parts <= 64 /\ (n + len parts) * size <= 65507.
Proof.
  revert n. induction pending as [|p pending IH]; intros n parts rest Hs Hc Hn Hm; cbn in Hc; [injection Hc as <- <-; split_and!; try done; rewrite len_nil; lia|].
  destruct ((n <? 64) && ((n + 1) * size <=? 65507) && (len p =? size)) eqn:Hb; [|injection Hc as <- <-; split_and!; try done; rewrite len_nil; lia].
  zify_bool. destruct (collect size (n + 1) pending) as [ps r] eqn:Hr. injection Hc as <- <-. destruct (IH (n + 1) ps r) as (-> & Hall & Hlen & Hmax); [done|done|lia|lia|].
  split_and!; [done|by constructor| |]; rewrite len_cons; [lia|]. replace (n + (1 + len ps)) with (n + 1 + len ps) by lia. done.
Qed.

Lemma offloads_len e source destination p q : len p = len q -> offloads e source destination p = offloads e source destination q.
Proof. intros Hl. unfold offloads. by rewrite Hl. Qed.

Lemma ask_run source destination e n parts rest : Forall (fun p => offloads e source destination p = true) parts ->
  ask_datagrams source destination (parts ++ rest) e n =
    let '(u, e, n) := ask_datagrams source destination rest e n in ((Segment source destination <$> parts) ++ u, e, n).
Proof.
  induction parts as [|p parts IH]; intros Hall; cbn; [by destruct (ask_datagrams _ _ rest e n) as [[? ?] ?]|].
  apply Forall_cons in Hall as [Hp Hall]. rewrite Hp, IH by done. by destruct (ask_datagrams _ _ rest e n) as [[? ?] ?].
Qed.

Lemma encode_mtu e source destination p st e' d : encode e source destination p st = (e', d) -> mtu e' = mtu e.
Proof. unfold encode. repeat case_match; by intros [= <- <-]. Qed.

Lemma offloads_header e source destination p k : offloads e source destination p = true -> len p * k <= 65507 -> is_Some (header e source destination (len p) (len p * k)).
Proof.
  unfold offloads, header. intros Ho Hk. zify_bool. rewrite H1. cbn. unfold max_payload. rewrite (proj2 (Z.ltb_ge _ _)) by (destruct (is_ipv4 source); lia). by eexists.
Qed.

Lemma aggregate_adds source destination h parts size s k v e n :
  frame_ok (mtu (encoder s)) (FUdp source destination h parts size) ->
  (forall s', encoder s' = encoder s -> encodes s' = encodes s -> adds s' v e n (k s')) ->
  adds s ((Segment source destination <$> parts) ++ v) e n (s1 ← send_batch s; s2 ← send_frame (FUdp source destination h parts size) s1; k s2).
Proof.
  intros Hf Hk. destruct (send_batch_adds s) as [Hb Hbs]. rewrite <- (app_nil_l (_ ++ v)). eapply adds_bind; [exact Hb|]. intros s1 H1. destruct (Hbs s1 H1) as (Hp1 & He1 & Hn1).
  split; [by rewrite He1|]. rewrite <- He1 in Hf. destruct (send_frame_adds _ s1 Hp1 Hf) as [Ha Has]. eapply adds_bind; [exact Ha|]. intros s2 H2. pose proof (Has s2 H2) as He2.
  rewrite H2 in Ha. destruct Ha as (_ & _ & Hn2 & _). split; [by rewrite He2|]. apply Hk; congruence.
Qed.

Lemma datagrams_adds source destination fuel : forall pending s u e n, (length pending <= fuel)%nat -> mtu (encoder s) <= 65535 ->
  ask_datagrams source destination pending (encoder s) (encodes s) = (u, e, n) -> adds s u e n (datagrams fuel source destination pending s) /\ mtu e = mtu (encoder s).
Proof.
  induction fuel as [|fuel IH]; intros [|p pending] s u e n Hfuel Hm Hask; cbn in Hfuel; try lia; cbn [ask_datagrams datagrams] in *;
    try (injection Hask as <- <- <-; cbn; by rewrite app_nil_r).
  destruct (offloads (encoder s) source destination p) eqn:Ho.
  - destruct (collect (len p) 1 pending) as [more rest] eqn:Hc. pose proof (len_nonneg p) as Hp0.
    assert (Hp : 0 < len p /\ len p <= 65507) by (unfold offloads, can_offload in Ho; zify_bool; destruct (is_ipv4 source); lia).
    destruct (collect_spec _ _ _ _ _ Hp0 Hc) as (-> & Hall & Hlen & Hmax); [lia|lia|].
    assert (Hrun : Forall (fun q => offloads (encoder s) source destination q = true) more) by (eapply Forall_impl; [exact Hall|]; intros q Hq; cbn in Hq; by rewrite (offloads_len _ _ _ q p)).
    rewrite ask_run in Hask by done. destruct (ask_datagrams source destination rest (encoder s) (encodes s)) as [[u' e'] n'] eqn:Hrest. injection Hask as <- <- <-.
    destruct (offloads_header (encoder s) source destination p (len (p :: more)) Ho) as [h Hh]; [rewrite len_cons; lia|]. rewrite Hh.
    assert (Hfr : (length rest <= fuel)%nat) by (rewrite length_app in Hfuel; lia).
    assert (Hgo : forall s', encoder s' = encoder s -> encodes s' = encodes s -> adds s' u' e' n' (datagrams fuel source destination rest s') /\ mtu e' = mtu (encoder s)).
    { intros s' He Hn. destruct (IH rest s' u' e' n') as [? ?]; [done|by rewrite He|by rewrite He, Hn|]. split; [done|congruence]. }
    split; [|by destruct (Hgo s)]. change (Segment source destination p :: (Segment source destination <$> more) ++ u') with ((Segment source destination <$> p :: more) ++ u').
    apply aggregate_adds; [|intros; by apply Hgo]. cbn. pose proof (len_nonneg more). rewrite len_cons in *. split_and!; [lia|lia|by constructor|lia|lia|by exists (encoder s)].
  - destruct (encode (encoder s) source destination p (stale (encodes s))) as [e1 d] eqn:He1. pose proof (encode_mtu _ _ _ _ _ _ _ He1) as Hm1.
    destruct (ask_datagrams source destination pending e1 (S (encodes s))) as [[u' e'] n'] eqn:Hrest. injection Hask as <- <- <-.
    set (s1 := mkTx e1 (packets s ++ default [] d) (sent s) (calls s) (S (encodes s))).
    destruct (IH pending s1 u' e' n') as [Ha Hme]; [lia|cbn; lia|done|]. split; [|cbn in Hme; congruence].
    apply (adds_bind s (Whole <$> default [] d) u' e1 (S (encodes s)) e' n' (Ok s1) (fun s => datagrams fuel source destination pending s)).
    + cbn. split_and!; [|done|done|done]. unfold todo, s1. cbn. by rewrite fmap_app, app_assoc.
    + intros s' [= <-]. by split.
Qed.

Lemma item_adds i s u e n : mtu (encoder s) <= 65535 -> ask i (encoder s) (encodes s) = (u, e, n) -> adds s u e n (item i s) /\ mtu e = mtu (encoder s).
Proof.
  intros Hm. destruct i as [p|p payload size|source destination l]; cbn [ask item].
  - intros [= <- <- <-]. cbn. unfold todo. cbn. by rewrite fmap_app, app_assoc.
  - intros [= <- <- <-]. split; [|done]. destruct (send_batch_adds s) as [Hb Hbs]. rewrite <- (app_nil_l [Tcp _ _ _]). eapply adds_bind; [exact Hb|]. intros s1 H1.
    destruct (Hbs s1 H1) as (Hp1 & He1 & Hn1). split; [by rewrite He1|]. rewrite <- He1, <- Hn1. by apply (send_frame_adds (FTcp p payload size) s1 Hp1).
  - intros Hask. by apply datagrams_adds.
Qed.

Lemma items_adds l : forall s u e n, mtu (encoder s) <= 65535 -> ask_all l (encoder s) (encodes s) = (u, e, n) -> adds s u e n (items l s) /\ mtu e = mtu (encoder s).
Proof.
  induction l as [|i l IH]; intros s u e n Hm; cbn [ask_all items]; [intros [= <- <- <-]; cbn; by rewrite app_nil_r|].
  destruct (ask i (encoder s) (encodes s)) as [[u1 e1] n1] eqn:H1. destruct (ask_all l e1 n1) as [[u2 e2] n2] eqn:H2. intros [= <- <- <-].
  destruct (item_adds i s u1 e1 n1 Hm H1) as [Ha Hme].
  assert (Hmtu : mtu e2 = mtu (encoder s)).
  { destruct (IH (mkTx e1 [] [] 0 n1) u2 e2 n2) as [_ Hx]; [cbn; lia|done|]. cbn in Hx. congruence. }
  split; [|done]. eapply adds_bind; [exact Ha|]. intros s' Hs'. rewrite Hs' in Ha. destruct Ha as (_ & He & Hn & _). split; [congruence|]. apply IH; [congruence|by rewrite He, Hn].
Qed.

Lemma ask_all_app l k e n : ask_all (l ++ k) e n = let '(u, e, n) := ask_all l e n in let '(v, e, n) := ask_all k e n in (u ++ v, e, n).
Proof.
  revert e n. induction l as [|i l IH]; intros e n; cbn; [by destruct (ask_all k e n) as [[? ?] ?]|]. destruct (ask i e n) as [[u1 e1] n1]. rewrite IH.
  destruct (ask_all l e1 n1) as [[? e2] n2]. destruct (ask_all k e2 n2) as [[? ?] ?]. by rewrite app_assoc.
Qed.

Lemma transmit_adds batches : forall s u e n, mtu (encoder s) <= 65535 -> ask_all (concat batches) (encoder s) (encodes s) = (u, e, n) ->
  adds s u e n (transmit batches s) /\ (packets s = [] -> forall s', transmit batches s = Ok s' -> packets s' = []).
Proof.
  induction batches as [|b batches IH]; intros s u e n Hm; cbn [concat transmit]; [intros [= <- <- <-]; split; [cbn; by rewrite app_nil_r|by intros ? s' [= <-]]|].
  rewrite ask_all_app. destruct (ask_all b (encoder s) (encodes s)) as [[u1 e1] n1] eqn:H1. destruct (ask_all (concat batches) e1 n1) as [[u2 e2] n2] eqn:H2. intros [= <- <- <-].
  destruct (items_adds b s u1 e1 n1 Hm H1) as [Ha Hme]. split.
  - eapply adds_bind; [exact Ha|]. intros s1 Hs1. rewrite Hs1 in Ha. destruct Ha as (_ & He & Hn & _). split; [congruence|]. rewrite <- (app_nil_l u2).
    destruct (send_batch_adds s1) as [Hb Hbs]. eapply adds_bind; [exact Hb|]. intros s2 Hs2. destruct (Hbs s2 Hs2) as (_ & He2 & Hn2). split; [by rewrite He2|]. apply IH; [congruence|congruence].
  - intros _ s'. cbn. destruct (items b s) as [s1|] eqn:Hs1; [|done]. cbn. destruct (send_batch s1) as [s2|] eqn:Hs2; [|done]. cbn.
    destruct (send_batch_adds s1) as [_ Hbs]. destruct (Hbs s2 Hs2) as (Hp2 & He2 & Hn2). cbn in Ha. destruct Ha as (_ & He & Hn & _).
    apply (IH s2 u2 e2 n2); [congruence|congruence|done].
Qed.

(** C14. A queue's writer keeps the order and loses nothing.  However the queue's items fall into batches: when the device takes
    every frame, the frames carry exactly the queued packets, TCP aggregates and datagrams, in the order they were queued, each
    datagram as a segment of an aggregate or as the packets of its encoding; when the device fails, what was given to it
    is a prefix of that; the writer never panics; and every UDP aggregate has between one and 64 datagrams of one
    size, within the size of an IP packet. *)
Theorem transmit_keeps_order batches e0 u e n :
  mtu e0 <= 65535 -> ask_all (concat batches) e0 0 = (u, e, n) ->
  match transmit batches (mkTx e0 [] [] 0 0) with
  | Ok s => flat (sent s) = u /\ packets s = [] /\ Forall (frame_ok (mtu e0)) (sent s)
  | Err (DeviceFailed l) => flat l `prefix_of` u /\ Forall (frame_ok (mtu e0)) l
  | Err _ => False
  end.
Proof.
  intros Hm Hask. destruct (transmit_adds batches (mkTx e0 [] [] 0 0) u e n Hm Hask) as [Ha Hp]. destruct (transmit batches (mkTx e0 [] [] 0 0)) as [s|[l| |]]; cbn in Ha; try done.
  - destruct Ha as (Ht & _ & _ & Hf). assert (Hps : packets s = []) by (by apply Hp). unfold todo in Ht. rewrite Hps in Ht. cbn in Ht. rewrite app_nil_r in Ht. split_and!; [done|done|by apply Hf].
  - destruct Ha as [Hpre Hf]. split; [done|by apply Hf].
Qed.

End transmit.

(** ** Receive buffers *)

(** [usize::next_power_of_two] *)
Definition next_power_of_two (n : Z) : Z := 2 ^ Z.log2_up n.

(** [ReceiveBuffer::publish]: the frame, the lease that stays for the next one, and the retained size. *)
Definition publish (lease : bytes) (n : Z) : bytes * option bytes * Z :=
  if n <? len lease `div` 4 then (ztake n lease, Some lease, next_power_of_two (Z.max n 256))
  else (ztake n lease, None, next_power_of_two (Z.max (len lease) 256)).

(** The size a frame is admitted with covers the storage it keeps: its copy, or the whole lease. *)
Lemma publish_accounts lease n f kept size :
  0 <= n <= len lease -> publish lease n = (f, kept, size) ->
  f = ztake n lease /\ len f = n /\ (match kept with Some l => n | None => len lease end) <= size /\ 256 <= size.
Proof.
  intros Hn. unfold publish. assert (Hpow : forall m, 256 <= m -> m <= next_power_of_two m).
  { intros m Hm. unfold next_power_of_two. pose proof (Z.log2_up_spec m ltac:(lia)). lia. }
  pose proof (Hpow (Z.max n 256)). pose proof (Hpow (Z.max (len lease) 256)).
  destruct (n <? len lease `div` 4); intros [= <- <- <-]; rewrite len_ztake by lia; split_and!; lia || done.
Qed.

(** ** Examples *)

Definition a6 : SocketAddr := demo_source.
Definition b6 : SocketAddr := demo_destination.

Definition demo_batches : list (list Transmit) :=
  [[TPacket [1; 2]; Datagrams a6 b6 [[1; 2]; [3; 4]; [5]]]; [TcpGso [9] [[8]; [7]] 2; Datagrams a6 (Packet.Ipv4 1, 2) [[1]]]].

Lemma transmit_keeps_order_witness :
  ask_all true (fun _ _ => []) (concat demo_batches) demo_encoder 0 =
    ([Whole [1; 2]; Segment a6 b6 [1; 2]; Segment a6 b6 [3; 4]; Segment a6 b6 [5]; Tcp [9] [[8]; [7]] 2], demo_encoder, 1%nat) /\
  match transmit true (fun n => if (n =? 2)%nat then Some O else None) (fun _ _ => []) demo_batches (mkTx demo_encoder [] [] 0 0) with
  | Ok s => flat (sent s) = [Whole [1; 2]; Segment a6 b6 [1; 2]; Segment a6 b6 [3; 4]; Segment a6 b6 [5]; Tcp [9] [[8]; [7]] 2] /\ packets s = [] /\ Forall (frame_ok (mtu demo_encoder)) (sent s)
  | Err (DeviceFailed l) => flat l `prefix_of` [Whole [1; 2]; Segment a6 b6 [1; 2]; Segment a6 b6 [3; 4]; Segment a6 b6 [5]; Tcp [9] [[8]; [7]] 2] /\ Forall (frame_ok (mtu demo_encoder)) l
  | Err _ => False
  end.
Proof.
  split; [vm_compute; reflexivity|].
  apply (transmit_keeps_order true (fun n => if (n =? 2)%nat then Some O else None) (fun _ _ => []) demo_batches demo_encoder _ demo_encoder 1%nat); [vm_compute; congruence|vm_compute; reflexivity].
Defined.

End Endpoint.
