(* ===== verification/HysteriaUdp.v ===== *)
(** * Hysteria 2 UDP sessions (crates/hysteria2/src/udp.rs)

    The server's associations with the index that finds the next one to expire, the server's loop over
    datagrams, replies and expiry, and the client's loop over registrations and datagrams.  Messages are
    cut and joined by HysteriaWire.v.  Scopes appear as the set of the closed ones. *)

From S2P Require Import Prelude Packet NetText VarInt HysteriaWire.

Module HysteriaUdp.
Import HysteriaWire.

(** ** Associations *)

(** [Association]; [incarnation] names its scope and its queue. *)
Record Association := mkAssociation { active : Z; incarnation : nat }.

(** The order of [(Instant, u32)] *)
Definition before (x y : Z * Z) : bool := (x.1 <? y.1) || ((x.1 =? y.1) && (x.2 <? y.2)).

(** [BTreeSet::insert] and [BTreeSet::remove] on its elements in order *)
Fixpoint set_insert (x : Z * Z) (l : list (Z * Z)) : list (Z * Z) :=
  match l with
  | [] => [x]
  | y :: l' => if before x y then x :: l else if before y x then y :: set_insert x l' else l
  end.

Fixpoint set_remove (x : Z * Z) (l : list (Z * Z)) : list (Z * Z) :=
  match l with
  | [] => []
  | y :: l' => if bool_decide (x = y) then l' else y :: set_remove x l'
  end.

Record ServerAssociations := mkAssociations { entries : gmap Z Association; activity : list (Z * Z) }.

Definition no_associations : ServerAssociations := mkAssociations ∅ [].

(** [ServerAssociations::remove] *)
Definition remove_association (id : Z) (s : ServerAssociations) : ServerAssociations :=
  match entries s !! id with
  | Some a => mkAssociations (delete id (entries s)) (set_remove (active a, id) (activity s))
  | None => s
  end.

(** [ServerAssociations::insert] *)
Definition insert_association (id : Z) (a : Association) (s : ServerAssociations) : ServerAssociations :=
  let s := remove_association id s in
  mkAssociations (<[id := a]> (entries s)) (set_insert (active a, id) (activity s)).

(** [ServerAssociations::touch]; [None] is its panic. *)
Definition touch (id now : Z) (s : ServerAssociations) : option ServerAssociations :=
  a ← entries s !! id;
  Some (mkAssociations (<[id := mkAssociation now (incarnation a)]> (entries s)) (set_insert (now, id) (set_remove (active a, id) (activity s)))).

(** [ServerAssociations::next_expiry] *)
Definition next_expiry (retention : Z) (s : ServerAssociations) : option Z := (fun x => x.1 + retention) <$> head (activity s).

(** [ServerAssociations::expire]: each round removes an element, so the fuel is their number. *)
Fixpoint expire_associations (fuel : nat) (retention now : Z) (s : ServerAssociations) : ServerAssociations :=
  match fuel with
  | O => s
  | S fuel =>
      match activity s with
      | [] => s
      | (a, id) :: _ => if now <? a + retention then s else expire_associations fuel retention now (remove_association id s)
      end
  end.

Definition expire (retention now : Z) (s : ServerAssociations) : ServerAssociations :=
  expire_associations (length (activity s)) retention now s.

(** ** The index agrees with the map *)

Definition precedes (x y : Z * Z) : Prop := before x y = true.

Lemma before_spec x y : before x y = true <-> x.1 < y.1 \/ x.1 = y.1 /\ x.2 < y.2.
Proof. unfold before. rewrite orb_true_iff, andb_true_iff, !Z.ltb_lt, Z.eqb_eq. done. Qed.

Lemma before_total x y : before x y = false -> before y x = false -> x = y.
Proof.
  intros H1 H2. destruct x as [a b], y as [c d]. apply not_true_iff_false in H1, H2. rewrite before_spec in H1, H2. cbn in *. f_equal; lia.
Qed.

Lemma before_trans x y z : precedes x y -> precedes y z -> precedes x z.
Proof. unfold precedes. rewrite !before_spec. lia. Qed.

Lemma elem_set_insert x y l : y ∈ set_insert x l <-> y = x \/ y ∈ l.
Proof.
  induction l as [|z l IH]; cbn; [rewrite list_elem_of_singleton, elem_of_nil; tauto|]. destruct (before x z) eqn:Hxz; [by rewrite elem_of_cons|].
  destruct (before z x) eqn:Hzx; [rewrite !elem_of_cons, IH; tauto|]. rewrite (before_total x z) by done. rewrite elem_of_cons. tauto.
Qed.

Lemma sorted_set_insert x l : StronglySorted precedes l -> StronglySorted precedes (set_insert x l).
Proof.
  induction l as [|z l IH]; intros Hs; cbn; [repeat constructor|]. apply StronglySorted_inv in Hs as [Hs Hz]. destruct (before x z) eqn:Hxz.
  - constructor; [by constructor|]. constructor; [done|]. eapply Forall_impl; [exact Hz|]. intros y. by apply before_trans.
  - destruct (before z x) eqn:Hzx; [|by constructor]. constructor; [by apply IH|]. apply Forall_forall. intros y [->|Hy]%elem_set_insert; [done|]. by eapply Forall_forall in Hz.
Qed.

Lemma elem_set_remove x y l : StronglySorted precedes l -> (y ∈ set_remove x l <-> y <> x /\ y ∈ l).
Proof.
  induction l as [|z l IH]; intros Hs; cbn; [rewrite elem_of_nil; tauto|]. apply StronglySorted_inv in Hs as [Hs Hz]. rewrite Forall_forall in Hz. case_bool_decide as Hxz.
  - subst z. rewrite elem_of_cons. split; [|by intros [? [|]]]. intros Hy. split; [|by right]. intros ->. specialize (Hz x Hy). unfold precedes in Hz. rewrite before_spec in Hz. lia.
  - rewrite !elem_of_cons, IH by done. naive_solver.
Qed.

Lemma sorted_set_remove x l : StronglySorted precedes l -> StronglySorted precedes (set_remove x l).
Proof.
  induction l as [|z l IH]; intros Hs; cbn; [done|]. pose proof Hs as Hs'. apply StronglySorted_inv in Hs as [Hs Hz]. case_bool_decide; [done|]. constructor; [by apply IH|].
  apply Forall_forall. intros y [_ Hy]%elem_set_remove; [|done]. by eapply Forall_forall in Hz.
Qed.

(** One activity entry per association. *)
Record Index (s : ServerAssociations) : Prop := {
  x_sorted : StronglySorted precedes (activity s);
  x_exact : forall t id, (t, id) ∈ activity s <-> exists a, entries s !! id = Some a /\ active a = t;
}.

Lemma remove_index id s : Index s -> Index (remove_association id s) /\ entries (remove_association id s) = delete id (entries s).
Proof.
  intros [Hs Hx]. unfold remove_association. destruct (entries s !! id) as [a|] eqn:Ha; [|split; [done|]; by rewrite delete_id]. split; [|done]. constructor; cbn; [by apply sorted_set_remove|].
  intros t k. rewrite elem_set_remove, Hx by done. destruct (decide (k = id)) as [->|Hk].
  - rewrite lookup_delete_eq. split; [|by intros (? & ? & _)]. intros [Hne (b & Hb & Ht)]. simplify_eq.
  - rewrite lookup_delete_ne by done. split; [by intros [_ ?]|]. intros Hb. split; [congruence|done].
Qed.

Lemma put_index id a l m : StronglySorted precedes l -> (forall t k, (t, k) ∈ l <-> exists b, delete id m !! k = Some b /\ active b = t) ->
  Index (mkAssociations (<[id := a]> m) (set_insert (active a, id) l)).
Proof.
  intros Hs Hx. constructor; cbn; [by apply sorted_set_insert|]. intros t k. rewrite elem_set_insert, Hx. destruct (decide (k = id)) as [->|Hk].
  - rewrite lookup_insert_eq, lookup_delete_eq. split; [|intros (b & Hb & Ht); simplify_eq; by left]. intros [[= ->]|(b & Hb & _)]; [by exists a|done].
  - rewrite lookup_insert_ne, lookup_delete_ne by done. split; [intros [[= -> ->]|?]; done|by right].
Qed.

Lemma insert_index id a s : Index s -> Index (insert_association id a s) /\ entries (insert_association id a s) = <[id := a]> (entries s).
Proof.
  intros Hi. destruct (remove_index id s Hi) as [[Hs Hx] He]. unfold insert_association. cbn. rewrite He, insert_delete_eq. split; [|done]. apply put_index; [done|]. intros t k. by rewrite Hx, He.
Qed.

Lemma touch_index id now s a : Index s -> entries s !! id = Some a ->
  exists s', touch id now s = Some s' /\ Index s' /\ entries s' = <[id := mkAssociation now (incarnation a)]> (entries s).
Proof.
  intros Hi Ha. unfold touch. rewrite Ha. cbn. eexists. split; [done|]. split; [|done]. destruct (remove_index id s Hi) as [[Hs Hx] He]. unfold remove_association in *. rewrite Ha in *. cbn in *.
  apply (put_index id (mkAssociation now (incarnation a))); done.
Qed.

Lemma length_set_remove x l : x ∈ l -> length (set_remove x l) = pred (length l).
Proof.
  induction l as [|y l IH]; intros Hx; [by apply elem_of_nil in Hx|]. cbn. case_bool_decide; [done|]. cbn. apply elem_of_cons in Hx as [|Hx]; [done|]. rewrite IH by done. destruct l; [by apply elem_of_nil in Hx|done].
Qed.

Lemma expire_index retention now : forall fuel s, (length (activity s) <= fuel)%nat -> Index s ->
  Index (expire_associations fuel retention now s) /\ entries (expire_associations fuel retention now s) = filter (fun '(_, a) => now < active a + retention) (entries s).
Proof.
  assert (Hnone : forall s, Index s -> match activity s with [] => True | (a, _) :: _ => now < a + retention end -> entries s = filter (fun '(_, a) => now < active a + retention) (entries s)).
  { intros s Hi Hh. symmetry. apply map_filter_id. intros k a Ha. assert (Hin : (active a, k) ∈ activity s) by (apply (x_exact _ Hi); by exists a).
    destruct (activity s) as [|[t j] l] eqn:Hact; [by apply elem_of_nil in Hin|]. pose proof (x_sorted _ Hi) as Hs. rewrite Hact in Hs. apply StronglySorted_inv in Hs as [_ Hz].
    apply elem_of_cons in Hin as [[= -> ->]|Hin]; [done|]. eapply Forall_forall in Hz; [|exact Hin]. unfold precedes in Hz. rewrite before_spec in Hz. cbn in *. lia. }
  induction fuel as [|fuel IH]; intros s Hf Hi; cbn.
  { split; [done|]. apply Hnone; [done|]. destruct (activity s) as [|[]]; [done|cbn in Hf; lia]. }
  destruct (activity s) as [|[t id] l] eqn:Hact; [split; [done|]; apply Hnone; [done|by rewrite Hact]|].
  destruct (now <? t + retention) eqn:Hn; zify_bool; [split; [done|]; apply Hnone; [done|by rewrite Hact]|].
  destruct (proj1 (x_exact _ Hi t id)) as (a & Ha & <-); [rewrite Hact; left|]. destruct (remove_index id s Hi) as [Hi' He].
  destruct (IH (remove_association id s)) as [Hi2 He2]; [|done|].
  - unfold remove_association. rewrite Ha. cbn. rewrite length_set_remove by (rewrite Hact; left). rewrite Hact. cbn in *. lia.
  - split; [done|]. rewrite He2, He. apply map_filter_delete_not. intros b Hb. simplify_eq. lia.
Qed.

(** The operations in sequence, and the same on a map that is scanned. *)
Inductive op := OInsert (id : Z) (a : Association) | ORemove (id : Z) | OTouch (id now : Z) | OExpire (retention now : Z).

Definition index_op (o : op) (s : ServerAssociations) : option ServerAssociations :=
  match o with
  | OInsert id a => Some (insert_association id a s)
  | ORemove id => Some (remove_association id s)
  | OTouch id now => touch id now s
  | OExpire retention now => Some (expire retention now s)
  end.

Definition scan_op (o : op) (m : gmap Z Association) : option (gmap Z Association) :=
  match o with
  | OInsert id a => Some (<[id := a]> m)
  | ORemove id => Some (delete id m)
  | OTouch id now => (fun a => <[id := mkAssociation now (incarnation a)]> m) <$> m !! id
  | OExpire retention now => Some (filter (fun '(_, a) => now < active a + retention) m)
  end.

Fixpoint index_ops (l : list op) (s : ServerAssociations) : option ServerAssociations :=
  match l with [] => Some s | o :: l => s ← index_op o s; index_ops l s end.

Fixpoint scan_ops (l : list op) (m : gmap Z Association) : option (gmap Z Association) :=
  match l with [] => Some m | o :: l => m ← scan_op o m; scan_ops l m end.

Lemma index_op_agrees o s : Index s -> entries <$> index_op o s = scan_op o (entries s) /\ forall s', index_op o s = Some s' -> Index s'.
Proof.
  intros Hi. destruct o as [id a|id|id now|retention now]; cbn [index_op scan_op fmap option_fmap option_map].
  - destruct (insert_index id a s Hi) as [? ->]. split; [done|by intros s' [= <-]].
  - destruct (remove_index id s Hi) as [? ->]. split; [done|by intros s' [= <-]].
  - destruct (entries s !! id) as [a|] eqn:Ha; [|unfold touch; by rewrite Ha]. destruct (touch_index id now s a Hi Ha) as (s1 & -> & Hi1 & He). cbn. rewrite He. split; [done|by intros s' [= <-]].
  - destruct (expire_index retention now _ s (Nat.le_refl _) Hi) as [? He]. fold (expire retention now s) in *. rewrite He. split; [done|by intros s' [= <-]].
Qed.

Lemma index_ops_agrees l : forall s, Index s -> entries <$> index_ops l s = scan_ops l (entries s) /\ forall s', index_ops l s = Some s' -> Index s'.
Proof.
  induction l as [|o l IH]; intros s Hi; cbn; [split; [done|by intros s' [= <-]]|]. destruct (index_op_agrees o s Hi) as [He Hi'].
  rewrite <- He. destruct (index_op o s) as [s1|]; cbn; [by apply IH, Hi'|done].
Qed.

Lemma no_associations_index : Index no_associations.
Proof. constructor; cbn; [constructor|]. intros t id. rewrite elem_of_nil, lookup_empty. split; [done|by intros (? & ? & _)]. Qed.

Lemma index_size s : Index s -> length (activity s) = size (entries s).
Proof.
  intros [Hs Hx]. assert (Hp : activity s ≡ₚ (fun x => (active x.2, x.1)) <$> map_to_list (entries s)).
  { apply NoDup_Permutation.
    - clear Hx. induction (activity s) as [|x l IH]; [apply NoDup_nil_2|]. apply StronglySorted_inv in Hs as [Hs Hz]. constructor; [|by apply IH]. intros Hin. rewrite Forall_forall in Hz.
      specialize (Hz x Hin). unfold precedes in Hz. rewrite before_spec in Hz. lia.
    - apply NoDup_fmap_2_strong; [|apply NoDup_map_to_list]. intros [k a] [k' a'] Ha Ha' [= _ ->]. apply elem_of_map_to_list in Ha, Ha'. congruence.
    - intros [t id]. rewrite Hx, list_elem_of_fmap. split.
      + intros (a & Ha & <-). exists (id, a). split; [done|]. by apply elem_of_map_to_list.
      + intros ([k a] & [= -> ->] & Ha). apply elem_of_map_to_list in Ha. by exists a. }
  rewrite Hp, length_fmap. apply length_map_to_list.
Qed.

(** C31. The activity index is exact.  For every sequence of insertions, removals, touches and expiries, the associations are those
    of a map on which expiry scans every entry; the index has one element per association; and the next expiry it gives
    is the least over the map. *)
Theorem expiry_index_agrees l :
  entries <$> index_ops l no_associations = scan_ops l ∅ /\
  forall s, index_ops l no_associations = Some s ->
    length (activity s) = size (entries s) /\
    forall retention,
      match next_expiry retention s with
      | None => entries s = ∅
      | Some t => (exists id a, entries s !! id = Some a /\ t = active a + retention) /\ forall id a, entries s !! id = Some a -> t <= active a + retention
      end.
Proof.
  destruct (index_ops_agrees l no_associations no_associations_index) as [He Hi]. split; [exact He|]. intros s Hs. specialize (Hi s Hs). split; [by apply index_size|]. intros retention.
  pose proof (x_exact _ Hi) as Hx. pose proof (x_sorted _ Hi) as Hsort. unfold next_expiry. destruct (activity s) as [|[t id] rest] eqn:Hact; cbn.
  - apply map_eq. intros id. rewrite lookup_empty. destruct (entries s !! id) as [a|] eqn:Ha; [|done]. assert (Hin : (active a, id) ∈ activity s) by (rewrite Hact; apply Hx; by exists a).
    rewrite Hact in Hin. by apply elem_of_nil in Hin.
  - split; [destruct (proj1 (Hx t id)) as (a & Ha & <-); [left|]; by exists id, a|]. intros k a Ha. assert (Hin : (active a, k) ∈ (t, id) :: rest) by (apply Hx; by exists a).
    apply StronglySorted_inv in Hsort as [_ Hz]. apply elem_of_cons in Hin as [[= -> ->]|Hin]; [lia|]. eapply Forall_forall in Hz; [|exact Hin]. unfold precedes in Hz. rewrite before_spec in Hz. cbn in Hz. lia.
Qed.

(** ** The server *)

(** How the loop ends: an error of the connection or of a scope, or a panic. *)
Inductive stop := Ended | Panicked.

Section loops.
Context `{VarInt.VarIntCodec}.

(** [server]'s state: [origin] gives the session of each association made so far; [delivered] and
    [answered] log what went to associations and to the connection, the latter with the association
    that had the session then. *)
Record Server := mkServer {
  associations : ServerAssociations;
  closed : gset nat;
  origin : list Z;
  reassembly : Reassembly;
  counter : Z;
  delivered : list (Z * nat * Packet);
  answered : list (Z * nat * option nat * list bytes);
}.

Definition server_start : Server := mkServer no_associations ∅ [] empty 0 [] [].

Definition set_associations a s := mkServer a (closed s) (origin s) (reassembly s) (counter s) (delivered s) (answered s).
Definition set_closed c s := mkServer (associations s) c (origin s) (reassembly s) (counter s) (delivered s) (answered s).
Definition set_reassembly r s := mkServer (associations s) (closed s) (origin s) r (counter s) (delivered s) (answered s).

Definition owner (s : Server) (id : Z) : option nat := incarnation <$> entries (associations s) !! id.

(** The associations that are dropped close their scopes ([CloseScope]). *)
Definition dropped (old new : gmap Z Association) : gset nat := list_to_set ((fun x => incarnation x.2) <$> map_to_list (old ∖ new)).

Definition replace_associations (a : ServerAssociations) (s : Server) : Server :=
  set_closed (closed s ∪ dropped (entries (associations s)) (entries a)) (set_associations a s).

(** [send]: the message's datagrams and the next packet id; [mtu] and [takes] are the connection's
    answers to [max_datagram_size] and [send_datagram]. *)
Definition send (session counter : Z) (packet : Packet) (mtu : option Z) (takes : bool) : res stop (Z * list bytes) :=
  match mtu with
  | None => Err Ended
  | Some m =>
      match fragments session counter packet m with
      | Err _ => Ok (counter, [])
      | Ok frames => if takes then Ok ((counter + 1) `mod` 65536, frames) else Err Ended
      end
  end.

(** The association of a datagram's session: a closed one is replaced. [spawned] tells whether
    [associate] succeeds. *)
Definition find_or_make (id now : Z) (spawned : bool) (s : Server) : res stop Server :=
  let s := match owner s id with
           | Some inc => if bool_decide (inc ∈ closed s) then replace_associations (remove_association id (associations s)) s else s
           | None => s
           end in
  match entries (associations s) !! id with
  | Some _ => Ok s
  | None =>
      if spawned then
        let a := mkAssociation now (length (origin s)) in
        Ok (mkServer (insert_association id a (associations s)) (closed s) (origin s ++ [id]) (reassembly s) (counter s) (delivered s) (answered s))
      else Err Ended
  end.

Definition touch_server (id now : Z) (s : Server) : res stop Server :=
  match touch id now (associations s) with Some a => Ok (set_associations a s) | None => Err Panicked end.

(** The server's events; [now] is the time of each. *)
Inductive event :=
  | Expired (retention now : Z)
  | Received (now : Z) (b : bytes) (authenticated spawned room : bool)
  | Replied (now : Z) (inc : nat) (packet : Packet) (mtu : option Z) (takes : bool)
  | ScopeClosed (inc : nat).

Definition server_step (s : Server) (ev : event) : res stop Server :=
  match ev with
  | Expired retention now => Ok (replace_associations (expire retention now (associations s)) s)
  | Received now b authenticated spawned room =>
      if negb authenticated then Ok s
      else
        match decode b with
        | Err _ => Ok s
        | Ok part =>
            let '(r, out) := receive now part (reassembly s) in
            let s := set_reassembly r s in
            match out with
            | Ok (Some (id, packet)) =>
                s ← find_or_make id now spawned s;
                match entries (associations s) !! id with
                | None => Err Panicked                       (* [expect("UDP association")] *)
                | Some a =>
                    if room then
                      let s := mkServer (associations s) (closed s) (origin s) (reassembly s) (counter s) (delivered s ++ [(id, incarnation a, packet)]) (answered s) in
                      touch_server id now s
                    else Ok s
                end
            | _ => Ok s
            end
        end
  | Replied now inc packet mtu takes =>
      match origin s !! inc with
      | None => Ok s
      | Some id =>
          if bool_decide (inc ∈ closed s) then Ok s
          else
            match entries (associations s) !! id with
            | None => Ok s
            | Some _ =>
                '(c, frames) ← send id (counter s) packet mtu takes;
                touch_server id now (mkServer (associations s) (closed s) (origin s) (reassembly s) c (delivered s) (answered s ++ [(id, inc, owner s id, frames)]))
            end
      end
  | ScopeClosed inc => Ok (set_closed ({[inc]} ∪ closed s) s)
  end.

Fixpoint server_run (s : Server) (evs : list event) : res stop Server :=
  match evs with [] => Ok s | ev :: evs => s ← server_step s ev; server_run s evs end.

(** ** The client *)

(** [client]'s state; a registration [r] stands for its scope and its queue. *)
Record Client := mkClient {
  sessions : gmap Z nat;
  next : Z;
  client_closed : gset nat;
  client_reassembly : Reassembly;
  assigned : list (Z * nat);
  handed : list (Z * nat * Packet);
}.

Definition client_start : Client := mkClient ∅ 0 ∅ empty [] [].

(** [open] tells whether the caller still waits, [spawned] whether its sender could be started. *)
Inductive client_event :=
  | Registered (r : nat) (open spawned : bool)
  | Arrived (now : Z) (b : bytes) (room : bool)
  | RegistrationClosed (r : nat).

Definition client_step (c : Client) (ev : client_event) : Client :=
  match ev with
  | Registered r open spawned =>
      let kept := filter (fun '(_, r) => r ∉ client_closed c) (sessions c) in
      let c := mkClient kept (next c) (client_closed c) (client_reassembly c) (assigned c) (handed c) in
      if u32_max <? next c then c
      else if negb open || bool_decide (r ∈ client_closed c) then c
      else
        let id := next c in
        let c := mkClient (sessions c) (next c + 1) (client_closed c) (client_reassembly c) (assigned c) (handed c) in
        if spawned then mkClient (<[id := r]> (sessions c)) (next c) (client_closed c) (client_reassembly c) (assigned c ++ [(id, r)]) (handed c) else c
  | Arrived now b room =>
      match decode b with
      | Err _ => c
      | Ok part =>
          if negb (bool_decide (is_Some (sessions c !! session part))) then c
          else
            let '(r, out) := receive now part (client_reassembly c) in
            let c := mkClient (sessions c) (next c) (client_closed c) r (assigned c) (handed c) in
            match out with
            | Ok (Some (id, packet)) =>
                match sessions c !! id with
                | Some r => if room then mkClient (sessions c) (next c) (client_closed c) (client_reassembly c) (assigned c) (handed c ++ [(id, r, packet)]) else c
                | None => c
                end
            | _ => c
            end
      end
  | RegistrationClosed r => mkClient (sessions c) (next c) ({[r]} ∪ client_closed c) (client_reassembly c) (assigned c) (handed c)
  end.

(** ** The server's invariant *)

Record SInv (s : Server) : Prop := {
  v_index : Index (associations s);
  v_entry : forall id a, entries (associations s) !! id = Some a -> origin s !! incarnation a = Some id;
  v_live : forall inc id, origin s !! inc = Some id -> inc ∉ closed s -> owner s id = Some inc;
  v_delivered : Forall (fun x => origin s !! x.1.2 = Some x.1.1) (delivered s);
  v_answered : Forall (fun x => x.1.2 = Some x.1.1.2 /\ origin s !! x.1.1.2 = Some x.1.1.1) (answered s);
}.

Lemma elem_dropped old new inc : inc ∈ dropped old new <-> exists id a, old !! id = Some a /\ new !! id = None /\ incarnation a = inc.
Proof.
  unfold dropped. rewrite elem_of_list_to_set, list_elem_of_fmap. split.
  - intros ([id a] & -> & Hin). apply elem_of_map_to_list, lookup_difference_Some in Hin as [? ?]. by exists id, a.
  - intros (id & a & Ho & Hn & <-). exists (id, a). split; [done|]. apply elem_of_map_to_list. by rewrite lookup_difference_Some.
Qed.

Lemma replace_inv a s : SInv s -> Index a -> entries a ⊆ entries (associations s) -> SInv (replace_associations a s).
Proof.
  intros [Hi He Hl Hd Ha] Hix Hsub. assert (Hin : forall k x, entries a !! k = Some x -> entries (associations s) !! k = Some x) by (intros k x Hx; by eapply lookup_weaken).
  constructor; cbn; try done.
  - intros id x Hx%Hin. by apply He.
  - intros inc id Ho Hc. unfold owner. cbn. specialize (Hl inc id Ho). unfold owner in Hl. rewrite not_elem_of_union, elem_dropped in Hc. destruct Hc as [Hc Hd'].
    specialize (Hl Hc). destruct (entries (associations s) !! id) as [x|] eqn:Hx; [|done]. cbn in Hl. injection Hl as Hl.
    destruct (entries a !! id) as [y|] eqn:Hy; [apply Hin in Hy; cbn; congruence|]. destruct Hd'. by exists id, x.
Qed.

Lemma remove_sub id a : Index a -> entries (remove_association id a) ⊆ entries a.
Proof. intros Hi. destruct (remove_index id a Hi) as [_ ->]. apply delete_subseteq. Qed.

(** A step that ends in a good state, or with an error that is no panic. *)
Definition good (P : Server -> Prop) (r : res stop Server) : Prop := match r with Ok s => SInv s /\ P s | Err Ended => True | Err Panicked => False end.

Lemma make_inv id now s : SInv s -> entries (associations s) !! id = None ->
  SInv (mkServer (insert_association id (mkAssociation now (length (origin s))) (associations s)) (closed s) (origin s ++ [id]) (reassembly s) (counter s) (delivered s) (answered s)).
Proof.
  intros [Hi He Hl Hd Ha] Hn. destruct (insert_index id (mkAssociation now (length (origin s))) _ Hi) as [Hi' Hins].
  assert (Hkeep : forall inc k, origin s !! inc = Some k -> (origin s ++ [id]) !! inc = Some k) by (intros inc k Hk; rewrite lookup_app_l; [done|by eapply lookup_lt_Some]).
  constructor; cbn [associations closed origin delivered answered]; try done.
  - intros k x. rewrite Hins. destruct (decide (k = id)) as [->|Hk]; [rewrite lookup_insert_eq; intros [= <-]; cbn; by rewrite lookup_app_r, Nat.sub_diag by lia|].
    rewrite lookup_insert_ne by done. intros Hx. by apply Hkeep, He.
  - intros inc k. unfold owner. cbn [associations]. rewrite Hins. intros Ho Hc. destruct (decide (inc < length (origin s))%nat).
    + rewrite lookup_app_l in Ho by done. specialize (Hl inc k Ho Hc). unfold owner in Hl. rewrite lookup_insert_ne; [done|]. intros ->. by rewrite Hn in Hl.
    + rewrite lookup_app_r in Ho by lia. destruct (inc - length (origin s))%nat as [|m] eqn:Hm; [|done]. cbn in Ho. injection Ho as <-. rewrite lookup_insert_eq. cbn. f_equal. lia.
  - eapply Forall_impl; [exact Hd|]. intros x Hx. by apply Hkeep.
  - eapply Forall_impl; [exact Ha|]. intros x [? Hx]. split; [done|]. by apply Hkeep.
Qed.

Lemma find_or_make_inv id now spawned s : SInv s -> good (fun s' => is_Some (entries (associations s') !! id)) (find_or_make id now spawned s).
Proof.
  intros Hs. unfold find_or_make.
  set (s1 := match owner s id with Some inc => if bool_decide (inc ∈ closed s) then _ else s | None => s end).
  assert (Hs1 : SInv s1).
  { unfold s1. destruct (owner s id); [|done]. case_bool_decide; [|done]. apply replace_inv; [done|apply remove_index, Hs|apply remove_sub, Hs]. }
  clearbody s1. destruct (entries (associations s1) !! id) as [a|] eqn:Ha; [cbn; rewrite Ha; by split; [|eexists]|]. destruct spawned; [|done]. split; [by apply make_inv|].
  cbn [associations]. destruct (insert_index id (mkAssociation now (length (origin s1))) _ (v_index _ Hs1)) as [_ ->]. rewrite lookup_insert_eq. by eexists.
Qed.

Lemma touch_server_inv id now s : SInv s -> is_Some (entries (associations s) !! id) -> good (fun _ => True) (touch_server id now s).
Proof.
  intros [Hi He Hl Hd Ha] [a Hx]. unfold touch_server. destruct (touch_index id now _ a Hi Hx) as (t & -> & Hi' & Ht). split; [|done]. constructor; cbn [associations closed origin delivered answered set_associations]; try done.
  - intros k y. rewrite Ht. destruct (decide (k = id)) as [->|]; [rewrite lookup_insert_eq; intros [= <-]; cbn; by apply He|rewrite lookup_insert_ne by done; apply He].
  - intros inc k Ho Hc. specialize (Hl inc k Ho Hc). unfold owner in *. cbn [associations set_associations]. rewrite Ht. destruct (decide (k = id)) as [->|]; [rewrite lookup_insert_eq; rewrite Hx in Hl; done|by rewrite lookup_insert_ne].
Qed.

Lemma server_step_inv s ev : SInv s -> good (fun _ => True) (server_step s ev).
Proof.
  intros Hs. destruct ev as [retention now|now b authenticated spawned room|now inc packet mtu takes|inc]; cbn [server_step].
  - split; [|done]. destruct (expire_index retention now _ _ (Nat.le_refl _) (v_index _ Hs)) as [Hi He]. apply replace_inv; [done|exact Hi|]. unfold expire. rewrite He. apply map_filter_subseteq.
  - destruct authenticated; [|by split]. cbn [negb]. destruct (decode b) as [part|]; [|by split]. destruct (receive now part (reassembly s)) as [r out].
    assert (Hr : SInv (set_reassembly r s)) by (destruct Hs; by constructor). destruct out as [[[id packet]|]|]; [|by split|by split].
    pose proof (find_or_make_inv id now spawned _ Hr) as Hf. destruct (find_or_make id now spawned (set_reassembly r s)) as [s1|[|]]; cbn [mbind res_bind]; [|done|done].
    destruct Hf as [Hs1 [a Ha]]. rewrite Ha. destruct room; [|by split]. apply touch_server_inv; [|cbn; rewrite Ha; by eexists].
    destruct Hs1 as [Hi He Hl Hd Han]. constructor; cbn; try done. apply Forall_app. split; [done|]. apply Forall_singleton. cbn. by apply He.
  - destruct (origin s !! inc) as [id|] eqn:Ho; [|by split]. case_bool_decide as Hc; [by split|]. pose proof (v_live _ Hs inc id Ho Hc) as Hown.
    destruct (entries (associations s) !! id) as [a|] eqn:Ha; [|by split]. unfold send. destruct mtu as [m|]; [|done]. destruct (fragments id (counter s) packet m); [destruct takes; [|done]|].
    all: cbn [mbind res_bind]; apply touch_server_inv; [|cbn; rewrite Ha; by eexists]; destruct Hs as [Hi He Hl Hd Han]; constructor; cbn; try done; apply Forall_app; (split; [done|]); by apply Forall_singleton.
  - split; [|done]. destruct Hs as [Hi He Hl Hd Han]. constructor; cbn; try done. intros k id Ho Hc. apply Hl; [done|set_solver].
Qed.

Lemma server_start_inv : SInv server_start.
Proof. constructor; cbn; [apply no_associations_index|intros id a; by rewrite lookup_empty|intros inc id; by rewrite lookup_nil|done|done]. Qed.

Lemma server_run_inv evs : forall s, SInv s -> good (fun _ => True) (server_run s evs).
Proof.
  induction evs as [|ev evs IH]; intros s Hs; cbn; [done|]. pose proof (server_step_inv s ev Hs) as H1. destruct (server_step s ev) as [s1|[|]]; [|done|done]. by apply IH, H1.
Qed.

(** Replies go to the client that is waiting for them.  However datagrams, expiry, closed scopes and queued replies interleave:
    every reply that is sent comes from the association that has its session at that moment, so no reply of an
    expired association leaves under a session id that was taken again; every message goes to the association of its own session;
    and the loop never panics. *)
Theorem hysteria_replies_current evs :
  server_run server_start evs <> Err Panicked /\
  forall s, server_run server_start evs = Ok s ->
    Forall (fun x => x.1.2 = Some x.1.1.2 /\ origin s !! x.1.1.2 = Some x.1.1.1) (answered s) /\
    Forall (fun x => origin s !! x.1.2 = Some x.1.1) (delivered s) /\
    length (activity (associations s)) = size (entries (associations s)).
Proof.
  pose proof (server_run_inv evs server_start server_start_inv) as Hg. destruct (server_run server_start evs) as [s|[|]]; (split; [done|]); [|done|done].
  intros s' [= <-]. destruct Hg as [[Hi He Hl Hd Ha] _]. split_and!; [done|done|by apply index_size].
Qed.

(** ** The client's invariant *)

Record CInv (c : Client) : Prop := {
  k_next : 0 <= next c <= u32_max + 1;
  k_session : forall id r, sessions c !! id = Some r -> (id, r) ∈ assigned c;
  k_assigned : NoDup (fst <$> assigned c) /\ Forall (fun x => 0 <= x.1 < next c) (assigned c);
  k_handed : Forall (fun x => (x.1.1, x.1.2) ∈ assigned c) (handed c);
}.

Lemma client_step_inv c ev : CInv c -> CInv (client_step c ev).
Proof.
  intros [Hn Hs [Hnd Hall] Hh]. destruct ev as [r open spawned|now b room|r]; cbn [client_step].
  - assert (Hk : forall id k, filter (fun '(_, r) => r ∉ client_closed c) (sessions c) !! id = Some k -> (id, k) ∈ assigned c) by (intros id k [? _]%map_lookup_filter_Some; by apply Hs).
    destruct (u32_max <? next _) eqn:Hu; [by constructor|]. cbn in Hu. zify_bool. destruct (_ || _); [by constructor|].
    assert (Hall' : Forall (fun x => 0 <= x.1 < next c + 1) (assigned c)) by (eapply Forall_impl; [exact Hall|]; cbn; lia).
    cbn [sessions next client_closed client_reassembly assigned handed]. destruct spawned; [|constructor; cbn; [lia|done|done|done]]. constructor; cbn; [lia| | |].
    + intros id k. destruct (decide (id = next c)) as [->|]; [rewrite lookup_insert_eq; intros [= <-]; apply elem_of_app; right; by apply list_elem_of_singleton|].
      rewrite lookup_insert_ne by done. intros ?%Hk. apply elem_of_app. by left.
    + split; [|apply Forall_app; split; [done|apply Forall_singleton; cbn; lia]]. rewrite fmap_app. apply NoDup_app. split_and!; [done| |apply NoDup_singleton].
      intros x (y & -> & Hy)%list_elem_of_fmap Hx%list_elem_of_singleton. cbn in Hx. rewrite Forall_forall in Hall. specialize (Hall y Hy). lia.
    + eapply Forall_impl; [exact Hh|]. intros x Hx. apply elem_of_app. by left.
  - destruct (decode b) as [part|]; [|by constructor]. destruct (negb _); [by constructor|]. destruct (receive now part (client_reassembly c)) as [r out].
    destruct out as [[[id packet]|]|]; [|by constructor|by constructor]. cbn [sessions]. destruct (sessions c !! id) as [k|] eqn:Hk; [|by constructor]. destruct room; [|by constructor].
    constructor; cbn; try done. apply Forall_app. split; [done|]. apply Forall_singleton. cbn. by apply Hs.
  - by constructor.
Qed.

(** Client sessions have their own ids.  Whatever registrations, closures and datagrams do: the session ids a connection gives
    out are all different and fit 32 bits, a closed session's id included, and a message is handed to the registration
    that was given its session id. *)
Theorem hysteria_client_ids_unique evs :
  let c := foldl client_step client_start evs in
  NoDup (fst <$> assigned c) /\ Forall (fun x => 0 <= x.1 <= u32_max) (assigned c) /\ Forall (fun x => (x.1.1, x.1.2) ∈ assigned c) (handed c).
Proof.
  assert (Hi : CInv (foldl client_step client_start evs)).
  { assert (H0 : CInv client_start) by (constructor; cbn; [unfold u32_max; lia|intros id r; by rewrite lookup_empty|split; [apply NoDup_nil_2|done]|done]).
    revert H0. generalize client_start as c. induction evs as [|ev evs IH]; intros c Hc; [done|]. cbn. by apply IH, client_step_inv. }
  destruct Hi as [Hn _ [Hnd Hall] Hh]. cbn zeta. split_and!; [done| |done]. eapply Forall_impl; [exact Hall|]. cbn. lia.
Qed.

End loops.

End HysteriaUdp.
