(* ===== verification/AnyTlsPool.v ===== *)
(** * The session pool of AnyTLS clients (crates/anytls/src/client.rs)

    A client keeps its TLS sessions in a pool: a caller takes the session that became idle last or
    sets up a new one, a session returns when its last stream closes, and idle sessions end with time.
    Every operation runs under the pool's lock; the events of the callers and of the sessions interleave. *)

From S2P Require Import Prelude.

Module AnyTlsPool.

(** [Slot]: when the session became idle. Its handle and scope are named by its id. *)
Record Slot := mkSlot { idle_since : option Z }.

Record Pool := mkPool { sessions : gmap Z Slot; idle : list Z; sequence : Z; draining : bool }.

(** [Pool::default] *)
Definition default_pool : Pool := mkPool ∅ [] 0 false.

(** The slots [prune] keeps: [closed] are the sessions whose handle is closed. *)
Definition keeps (closed : gset Z) (timeout now : Z) (x : Z * Slot) : bool :=
  negb (bool_decide (x.1 ∈ closed)) && match idle_since x.2 with None => true | Some since => now - since <? timeout end.

(** [Pool::prune] *)
Definition prune (closed : gset Z) (timeout now : Z) (p : Pool) : Pool :=
  let kept := filter (fun x => keeps closed timeout now x = true) (sessions p) in
  mkPool kept (filter (fun id => is_Some (kept !! id)) (idle p)) (sequence p) (draining p).

Inductive panic := IdleSession.

(** [Pool::reuse] *)
Definition reuse (closed : gset Z) (timeout now : Z) (p : Pool) : res panic (Pool * option Z) :=
  let p := prune closed timeout now p in
  match last (idle p) with
  | None => Ok (p, None)
  | Some id =>
      match sessions p !! id with
      | None => Err IdleSession                                 (* [expect("idle session")] *)
      | Some _ => Ok (mkPool (<[id := mkSlot None]> (sessions p)) (take (pred (length (idle p))) (idle p)) (sequence p) (draining p), Some id)
      end
  end.

(** [Pool::mark_idle] *)
Definition mark_idle (id now : Z) (p : Pool) : Pool :=
  if draining p then mkPool (delete id (sessions p)) (idle p) (sequence p) (draining p)
  else
    match sessions p !! id with
    | Some _ => mkPool (<[id := mkSlot (Some now)]> (sessions p)) (idle p ++ [id]) (sequence p) (draining p)
    | None => p
    end.

(** [Client::drain] *)
Definition drain (p : Pool) : Pool :=
  mkPool (filter (fun x => idle_since x.2 = None) (sessions p)) [] (sequence p) true.

(** The sequence number of a new session *)
Definition reserve (p : Pool) : option (Pool * Z) :=
  if sequence p <? u64_max then Some (mkPool (sessions p) (idle p) (sequence p + 1) (draining p), sequence p + 1) else None.

(** The session enters the pool. *)
Definition insert_session (id : Z) (p : Pool) : Pool :=
  mkPool (<[id := mkSlot None]> (sessions p)) (idle p) (sequence p) (draining p).

(** The pool with its callers: sessions being set up, sessions some caller has, and closed handles. *)
Record client := mkClient { pool : Pool; setup : gset Z; held : gset Z; closed : gset Z }.

Definition start : client := mkClient default_pool ∅ ∅ ∅.

Inductive event :=
  | Prune (now : Z)
  | Connect (now : Z)                 (* [connect] asks for an idle session *)
  | Reserve                           (* [new_session] numbers an authenticated transport *)
  | Insert (id : Z)                   (* and puts the session into the pool *)
  | Fail (id : Z)                     (* or its start fails *)
  | Idle (id now : Z)                 (* the last stream of a session closes *)
  | Close (id : Z)                    (* a session's transport ends *)
  | Drain.

Definition step (timeout : Z) (c : client) (ev : event) : res panic (client * option Z) :=
  match ev with
  | Prune now => Ok (mkClient (prune (closed c) timeout now (pool c)) (setup c) (held c) (closed c), None)
  | Connect now =>
      '(p, got) ← reuse (closed c) timeout now (pool c);
      Ok (mkClient p (setup c) (match got with Some id => {[id]} ∪ held c | None => held c end) (closed c), got)
  | Reserve => match reserve (pool c) with Some (p, id) => Ok (mkClient p ({[id]} ∪ setup c) (held c) (closed c), None) | None => Ok (c, None) end
  | Insert id => if bool_decide (id ∈ setup c) then Ok (mkClient (insert_session id (pool c)) (setup c ∖ {[id]}) ({[id]} ∪ held c) (closed c), Some id) else Ok (c, None)
  | Fail id => Ok (mkClient (pool c) (setup c ∖ {[id]}) (held c) (closed c), None)
  | Idle id now => if bool_decide (id ∈ held c) then Ok (mkClient (mark_idle id now (pool c)) (setup c) (held c ∖ {[id]}) (closed c), None) else Ok (c, None)
  | Close id => Ok (mkClient (pool c) (setup c) (held c) ({[id]} ∪ closed c), None)
  | Drain => Ok (mkClient (drain (pool c)) (setup c) (held c) (closed c), None)
  end.

Fixpoint run (timeout : Z) (c : client) (evs : list event) : res panic client :=
  match evs with [] => Ok c | ev :: evs => '(c, _) ← step timeout c ev; run timeout c evs end.

(** ** Invariant *)

Record Inv (c : client) : Prop := {
  p_nodup : NoDup (idle (pool c));
  p_idle : forall id, id ∈ idle (pool c) <-> exists since, sessions (pool c) !! id = Some (mkSlot (Some since));
  p_held : forall id, sessions (pool c) !! id = Some (mkSlot None) <-> id ∈ held c /\ is_Some (sessions (pool c) !! id);
  p_setup : forall id, id ∈ setup c -> sessions (pool c) !! id = None /\ id ∉ held c;
  p_sequence : 0 <= sequence (pool c) <= u64_max;
  p_ids : forall id, id ∈ setup c \/ id ∈ held c \/ is_Some (sessions (pool c) !! id) -> 0 < id <= sequence (pool c);
  p_draining : draining (pool c) = true -> idle (pool c) = [];
}.

(** A pool that lost some of its slots, and the ids of their idle ones. *)
Lemma pool_shrink_inv c m l d : Inv c -> m ⊆ sessions (pool c) -> NoDup l -> (forall id, id ∈ l <-> id ∈ idle (pool c) /\ is_Some (m !! id)) -> (d = true -> l = []) ->
  Inv (mkClient (mkPool m l (sequence (pool c)) d) (setup c) (held c) (closed c)).
Proof.
  intros [Hnd Hi Hh Hs Hq Hids Hd] Hsub Hl Hel Hdr. assert (Hin : forall k x, m !! k = Some x -> sessions (pool c) !! k = Some x) by (intros k x Hx; by eapply lookup_weaken).
  constructor; cbn; try done.
  - intros id. rewrite Hel, Hi. split.
    + intros [[since Hsi] [x Hx]]. exists since. rewrite Hx. apply Hin in Hx. congruence.
    + intros [since Hsi]. split; [exists since; by apply Hin|by eexists].
  - intros id. split.
    + intros Hx. split; [apply (Hh id), Hin, Hx|by eexists].
    + intros [Hid [x Hx]]. assert (Hn : sessions (pool c) !! id = Some (mkSlot None)) by (apply Hh; split; [done|]; exists x; by apply Hin). apply Hin in Hx as Hx'. congruence.
  - intros id Hid. destruct (Hs id Hid) as [Hn ?]. split; [|done]. destruct (m !! id) eqn:Hx; [apply Hin in Hx; congruence|done].
  - intros id [?|[?|[x Hx]]]; apply Hids; [by left|right; by left|right; right; exists x; by apply Hin].
Qed.

Lemma prune_inv timeout now c : Inv c -> Inv (mkClient (prune (closed c) timeout now (pool c)) (setup c) (held c) (closed c)).
Proof.
  intros Hi. apply pool_shrink_inv; [done|apply map_filter_subseteq|apply NoDup_filter, Hi| |].
  - intros id. rewrite list_elem_of_filter. tauto.
  - intros Hd. by rewrite (p_draining _ Hi Hd).
Qed.

Lemma last_split {A} (l : list A) x : last l = Some x -> l = take (pred (length l)) l ++ [x].
Proof. intros Hl. apply last_Some in Hl as [k ->]. rewrite length_app. cbn. rewrite Nat.add_1_r. cbn. by rewrite take_app_length. Qed.

(** The session handed out was idle, open and within the timeout, and nobody had it. *)
Lemma reuse_inv timeout now c : Inv c ->
  match reuse (closed c) timeout now (pool c) with
  | Err _ => False
  | Ok (p, None) => Inv (mkClient p (setup c) (held c) (closed c))
  | Ok (p, Some id) =>
      Inv (mkClient p (setup c) ({[id]} ∪ held c) (closed c)) /\ id ∉ held c /\ id ∉ closed c /\ draining (pool c) = false /\
      exists since, sessions (pool c) !! id = Some (mkSlot (Some since)) /\ now - since < timeout
  end.
Proof.
  intros Hi. unfold reuse. pose proof (prune_inv timeout now c Hi) as Hp. remember (prune (closed c) timeout now (pool c)) as p eqn:Hpdef.
  destruct (last (idle p)) as [id|] eqn:Hl; [|done]. pose proof (last_split _ _ Hl) as Hsplit. set (rest := take (pred (length (idle p))) (idle p)) in *.
  destruct (proj1 (p_idle _ Hp id)) as [since Hsi]; [cbn; rewrite Hsplit; apply elem_of_app; right; by apply list_elem_of_singleton|]. cbn in Hsi. rewrite Hsi.
  assert (Hno : id ∉ held c).
  { intros Hh. assert (Hn : sessions p !! id = Some (mkSlot None)) by (apply (p_held _ Hp); split; [done|cbn; rewrite Hsi; by eexists]). congruence. }
  assert (Hnd : NoDup (rest ++ [id])) by (rewrite <- Hsplit; apply Hp). apply NoDup_app in Hnd as (Hndr & Hnid & _).
  split_and!; [|done| | |].
  - destruct Hp as [_ Hpi Hph Hps Hpq Hpids Hpd]. cbn in *. constructor; cbn.
    + done.
    + intros k. destruct (decide (k = id)) as [->|Hk].
      * rewrite lookup_insert_eq. split; [intros Hin; exfalso; apply (Hnid _ Hin); by apply list_elem_of_singleton|by intros [? ?]].
      * rewrite lookup_insert_ne by done. rewrite <- Hpi, Hsplit, elem_of_app, list_elem_of_singleton. tauto.
    + intros k. rewrite elem_of_union, elem_of_singleton. destruct (decide (k = id)) as [->|Hk]; [rewrite lookup_insert_eq; split; [intros _; split; [by left|by eexists]|done]|].
      rewrite lookup_insert_ne by done. rewrite Hph. tauto.
    + intros k Hk. destruct (Hps k Hk) as [Hn ?]. assert (k <> id) by congruence. rewrite lookup_insert_ne by done. split; [done|]. rewrite elem_of_union, elem_of_singleton. tauto.
    + done.
    + intros k Hk. apply Hpids. rewrite elem_of_union, elem_of_singleton in Hk. destruct (decide (k = id)) as [->|Hne]; [right; right; by rewrite Hsi; eexists|]. rewrite lookup_insert_ne in Hk by done. tauto.
    + intros Hd. specialize (Hpd Hd). destruct (idle p); [done|done].
  - rewrite Hpdef in Hsi. cbn in Hsi. apply map_lookup_filter_Some in Hsi as [_ Hk]. unfold keeps in Hk. zify_bool. by apply bool_decide_eq_false in H.
  - destruct (draining (pool c)) eqn:Hd; [|done]. pose proof (p_draining _ Hp) as Hpd. cbn in Hpd. rewrite Hpd in Hl by (by rewrite Hpdef). done.
  - exists since. rewrite Hpdef in Hsi. cbn in Hsi. apply map_lookup_filter_Some in Hsi as [Hs Hk]. split; [done|]. unfold keeps in Hk. cbn in Hk. zify_bool. lia.
Qed.

Lemma mark_idle_inv id now c : Inv c -> id ∈ held c -> Inv (mkClient (mark_idle id now (pool c)) (setup c) (held c ∖ {[id]}) (closed c)).
Proof.
  intros Hc Hh. assert (Hni : id ∉ idle (pool c)).
  { intros [since Hs]%(p_idle _ Hc). assert (Hn : sessions (pool c) !! id = Some (mkSlot None)) by (apply (p_held _ Hc); split; [done|by rewrite Hs; eexists]). congruence. }
  destruct Hc as [Hnd Hi Hhe Hs Hq Hids Hd]. unfold mark_idle. destruct (draining (pool c)) eqn:Hdr.
  - specialize (Hd eq_refl). constructor; cbn; try done.
    + intros k. rewrite Hi. destruct (decide (k = id)) as [->|]; [rewrite lookup_delete_eq|by rewrite lookup_delete_ne]. rewrite <- Hi. split; [done|by intros [? ?]].
    + intros k. rewrite elem_of_difference, elem_of_singleton. destruct (decide (k = id)) as [->|]; [rewrite lookup_delete_eq; split; [done|tauto]|]. rewrite lookup_delete_ne by done. rewrite Hhe. tauto.
    + intros k Hk. destruct (Hs k Hk) as [Hn ?]. split; [rewrite lookup_delete_None; by right|set_solver].
    + intros k Hk. apply Hids. rewrite elem_of_difference in Hk. destruct (decide (k = id)) as [->|]; [right; by left|]. rewrite lookup_delete_ne in Hk by done. tauto.
  - destruct (sessions (pool c) !! id) as [x|] eqn:Hx.
    + constructor; cbn; try done.
      * apply NoDup_app. split_and!; [done| |apply NoDup_singleton]. intros k Hk ->%list_elem_of_singleton. done.
      * intros k. rewrite elem_of_app, list_elem_of_singleton. destruct (decide (k = id)) as [->|]; [rewrite lookup_insert_eq; split; [by eexists|by right]|]. rewrite lookup_insert_ne by done. rewrite <- Hi. tauto.
      * intros k. rewrite elem_of_difference, elem_of_singleton. destruct (decide (k = id)) as [->|]; [rewrite lookup_insert_eq; split; [done|tauto]|]. rewrite lookup_insert_ne by done. rewrite Hhe. tauto.
      * intros k Hk. destruct (Hs k Hk) as [Hn ?]. assert (k <> id) by congruence. rewrite lookup_insert_ne by done. split; [done|set_solver].
      * intros k Hk. apply Hids. rewrite elem_of_difference in Hk. destruct (decide (k = id)) as [->|]; [right; by left|]. rewrite lookup_insert_ne in Hk by done. tauto.
    + constructor; cbn; try done.
      * intros k. rewrite Hhe, elem_of_difference, elem_of_singleton. split; [|tauto]. intros [Hk Hsm]. split_and!; [done| |done]. intros ->. rewrite Hx in Hsm. by destruct Hsm.
      * intros k Hk. destruct (Hs k Hk) as [Hn ?]. split; [done|set_solver].
      * intros k Hk. apply Hids. rewrite elem_of_difference in Hk. tauto.
      * congruence.
Qed.

Lemma reserve_inv p id c : Inv c -> reserve (pool c) = Some (p, id) -> Inv (mkClient p ({[id]} ∪ setup c) (held c) (closed c)).
Proof.
  intros [Hnd Hi Hh Hs Hq Hids Hd]. unfold reserve. destruct (sequence (pool c) <? u64_max) eqn:Hlt; [|done]. zify_bool. intros [= <- <-]. constructor; cbn; try done; [|lia|].
  - intros k [->%elem_of_singleton|Hk]%elem_of_union; [|by apply Hs]. split.
    + destruct (sessions (pool c) !! (sequence (pool c) + 1)) eqn:Hx; [|done]. assert (0 < sequence (pool c) + 1 <= sequence (pool c)) by (apply Hids; right; right; by rewrite Hx; eexists). lia.
    + intros Hk. assert (0 < sequence (pool c) + 1 <= sequence (pool c)) by (apply Hids; right; by left). lia.
  - intros k [[->%elem_of_singleton|Hk]%elem_of_union|Hk]; [lia| |]; (enough (0 < k <= sequence (pool c)) by lia); apply Hids; tauto.
Qed.

Lemma insert_session_inv id c : Inv c -> id ∈ setup c -> Inv (mkClient (insert_session id (pool c)) (setup c ∖ {[id]}) ({[id]} ∪ held c) (closed c)).
Proof.
  intros [Hnd Hi Hh Hs Hq Hids Hd] Hid. destruct (Hs id Hid) as [Hn Hnh]. constructor; cbn; try done.
  - intros k. rewrite Hi. destruct (decide (k = id)) as [->|]; [rewrite lookup_insert_eq, Hn; split; by intros [? ?]|by rewrite lookup_insert_ne].
  - intros k. rewrite elem_of_union, elem_of_singleton. destruct (decide (k = id)) as [->|]; [rewrite lookup_insert_eq; split; [intros _; split; [by left|by eexists]|done]|]. rewrite lookup_insert_ne by done. rewrite Hh. tauto.
  - intros k [Hk Hne]%elem_of_difference. rewrite elem_of_singleton in Hne. destruct (Hs k Hk). rewrite lookup_insert_ne by done. split; [done|set_solver].
  - intros k Hk. apply Hids. rewrite elem_of_difference, elem_of_union, elem_of_singleton in Hk. destruct (decide (k = id)) as [->|]; [by left|]. rewrite lookup_insert_ne in Hk by done. tauto.
Qed.

Lemma drain_inv c : Inv c -> Inv (mkClient (drain (pool c)) (setup c) (held c) (closed c)).
Proof.
  intros Hi. apply pool_shrink_inv; [done|apply map_filter_subseteq|apply NoDup_nil_2| |done]. intros id. split; [by intros ?%elem_of_nil|].
  intros [[since Hs]%(p_idle _ Hi) [x Hx]]. apply map_lookup_filter_Some in Hx as [Hx Hn]. cbn in Hn. rewrite Hs in Hx. by injection Hx as <-.
Qed.

Lemma fail_inv id c : Inv c -> Inv (mkClient (pool c) (setup c ∖ {[id]}) (held c) (closed c)).
Proof. intros [Hnd Hi Hh Hs Hq Hids Hd]. constructor; cbn; try done; [intros k Hk; apply Hs; set_solver|intros k Hk; apply Hids; set_solver]. Qed.

Lemma pool_close_inv id c : Inv c -> Inv (mkClient (pool c) (setup c) (held c) ({[id]} ∪ closed c)).
Proof. intros []. by constructor. Qed.

Lemma pool_step_inv timeout c ev : Inv c -> exists c' got, step timeout c ev = Ok (c', got) /\ Inv c'.
Proof.
  intros Hi. destruct ev as [now|now| |id|id|id now|id|]; cbn.
  - eexists _, _. split; [done|]. by apply prune_inv.
  - pose proof (reuse_inv timeout now c Hi) as Hr. destruct (reuse (closed c) timeout now (pool c)) as [[p [id|]]|]; [| |done]; cbn; eexists _, _; (split; [done|]); [by destruct Hr|done].
  - destruct (reserve (pool c)) as [[p id]|] eqn:Hr; eexists _, _; (split; [done|]); [by apply reserve_inv|done].
  - case_bool_decide; eexists _, _; (split; [done|]); [by apply insert_session_inv|done].
  - eexists _, _. split; [done|]. by apply fail_inv.
  - case_bool_decide; eexists _, _; (split; [done|]); [by apply mark_idle_inv|done].
  - eexists _, _. split; [done|]. by apply pool_close_inv.
  - eexists _, _. split; [done|]. by apply drain_inv.
Qed.

Lemma pool_run_inv timeout evs : forall c, Inv c -> exists c', run timeout c evs = Ok c' /\ Inv c'.
Proof.
  induction evs as [|ev evs IH]; intros c Hi; cbn; [by exists c|]. destruct (pool_step_inv timeout c ev Hi) as (c1 & got & -> & Hi1). cbn. by apply IH.
Qed.

Lemma pool_start_inv : Inv start.
Proof.
  constructor; cbn; try done.
  - apply NoDup_nil_2.
  - intros id. rewrite elem_of_nil, lookup_empty. split; [done|by intros [? ?]].
  - intros id. rewrite lookup_empty. set_solver.
  - intros id [?|[?|Hs]]; [set_solver|set_solver|]. rewrite lookup_empty in Hs. by destruct Hs.
Qed.

(** Pooled sessions have one user.  However callers, sessions, the cleanup and a drain interleave: the pool never panics; a
    session handed to a caller is one nobody has, whose transport is open and that has been idle for less than the timeout; a
    session in use is not in the idle list, which has no duplicates; and a draining pool hands out nothing and keeps no
    session that is not in use. *)
Theorem anytls_sessions_exclusive timeout evs :
  exists c, run timeout start evs = Ok c /\
    NoDup (idle (pool c)) /\ (forall id, id ∈ held c -> id ∉ idle (pool c)) /\
    (draining (pool c) = true -> forall id slot, sessions (pool c) !! id = Some slot -> id ∈ held c) /\
    forall now, match step timeout c (Connect now) with
      | Err _ => False
      | Ok (_, None) => True
      | Ok (c', Some id) => id ∉ held c /\ id ∈ held c' /\ id ∉ closed c /\ draining (pool c) = false /\
          exists since, sessions (pool c) !! id = Some (mkSlot (Some since)) /\ now - since < timeout
      end.
Proof.
  destruct (pool_run_inv timeout evs start pool_start_inv) as (c & Hr & Hi). exists c. split_and!; [done|apply Hi| | |].
  - intros id Hh [since Hs]%(p_idle _ Hi). assert (Hn : sessions (pool c) !! id = Some (mkSlot None)) by (apply (p_held _ Hi); split; [done|by rewrite Hs; eexists]). congruence.
  - intros Hd id [[since|]] Hs; [|by apply (p_held _ Hi)]. assert (Hin : id ∈ idle (pool c)) by (apply (p_idle _ Hi); by exists since). rewrite (p_draining _ Hi Hd) in Hin. by apply elem_of_nil in Hin.
  - intros now. cbn. pose proof (reuse_inv timeout now c Hi) as Hu. destruct (reuse (closed c) timeout now (pool c)) as [[p [id|]]|]; [|done|done]. cbn.
    destruct Hu as (_ & ? & ? & ? & ?). split_and!; try done. set_solver.
Qed.

End AnyTlsPool.
