(* ===== verification/NativeUdp.v ===== *)
(** * Native UDP sockets (crates/outbounds/src/native_udp.rs, udp_batch.rs)

    Sending a batch over a connected socket, with segmentation offload while the system accepts it;
    splitting what the system coalesced into datagrams; the size of the next receive; and the task
    that moves packets between an application and the socket until the socket is handed over.  The
    system calls are parameters. *)

From S2P Require Import Prelude Packet NetText.
Import NetText.

Module NativeUdp.

Record Packet := mkPacket { target : Target; payload : bytes }.

(** ** Segments (native_udp.rs) *)

(** The loop that cuts a message of [length] bytes; every round but the last takes [size] bytes. *)
Fixpoint cut (fuel : nat) (size offset : Z) (message : bytes) : list bytes :=
  match fuel with
  | O => []
  | S fuel =>
      let stop := Z.min (offset + size) (len message) in
      slice offset stop message :: if stop =? len message then [] else cut fuel size stop message
  end.

(** The datagrams of a message; [segment] is its coalesced size, or zero. *)
Definition split (segment : Z) (message : bytes) : list bytes :=
  let size := if segment =? 0 then Z.max (len message) 1 else segment in
  cut (S (length message)) size 0 message.

(** ** Sending (udp_batch.rs) *)

(** The system's answers to [sendmsg] with a segment size, and to [sendmmsg]. *)
Inductive segmented := Accepted | Unsupported | GsoBlocked | GsoFailed.
Inductive outcome := Sent (n : Z) | WouldBlock | Failed.
Record kernel := mkKernel { sendmsg : list bytes -> Z -> segmented; sendmmsg : list bytes -> outcome }.

(** [sendmmsg] sends at least one of the messages when it does not fail. *)
Definition kernel_ok (k : kernel) : Prop := forall l n, sendmmsg k l = Sent n -> 1 <= n <= len l.

Fixpoint same_size (size : Z) (l : list Packet) : Z :=
  match l with p :: l => if len (payload p) =? size then 1 + same_size size l else 0 | [] => 0 end.

(** The packets one segmented message takes. *)
Definition gso_count (l : list Packet) : Z :=
  match l with
  | p :: _ => let size := len (payload p) in Z.min (same_size size l) (65535 `div` size)
  | [] => 0
  end.

(** [send_gso]: one message out of the packets' vectors.  The second result is what the system sends: the bytes of the message,
    cut at the segment size. *)
Definition send_gso (k : kernel) (l : list Packet) (size : Z) : segmented * list bytes :=
  match sendmsg k (payload <$> l) size with
  | Accepted => (Accepted, split size (concat (payload <$> l)))
  | r => (r, [])
  end.

(** [udp_batch::send]: a message for each packet, of which the system sends the number it reports. *)
Definition send_each (k : kernel) (l : list Packet) : outcome * list bytes :=
  match sendmmsg k (payload <$> l) with
  | Sent n => (Sent n, ztake n (payload <$> l))
  | r => (r, [])
  end.

(** [Sender::send]: whether offload stays on, how many packets the caller is told were sent, and what the system sends. *)
Definition send (k : kernel) (gso : bool) (l : list Packet) : bool * outcome * list bytes :=
  let each gso := let '(o, w) := send_each k l in (gso, o, w) in
  match l with
  | p :: _ :: _ =>
      let count := gso_count l in
      if gso && negb (len (payload p) =? 0) && (1 <? count) then
        match send_gso k (ztake count l) (len (payload p) mod 65536) with
        | (Accepted, w) => (gso, Sent count, w)
        | (Unsupported, _) => each false
        | (GsoBlocked, w) => (gso, WouldBlock, w)
        | (GsoFailed, w) => (gso, Failed, w)
        end
      else each gso
  | _ => each gso
  end.

(** ** Receiving (native_udp.rs) *)

(** A message as [udp_batch::receive] reports it: damaged, or with its segment size. *)
Inductive message := Damaged | Message (segment : Z) (data : bytes).

(** [Native::receive] *)
Definition receive (l : list message) : list bytes :=
  concat ((fun m => match m with Damaged => [] | Message segment data => split segment data end) <$> l).

(** The batch size after a receive of [count] messages with [datagrams] datagrams. *)
Definition next_batch (batch count datagrams : Z) : Z :=
  let messages := if count =? batch then Z.min (count * 2) 32 else Z.max count 1 in
  Z.min messages (Z.max (32 * count `div` Z.max datagrams 1) 1).

(** ** The driving task *)

(** [Native]: the connected target and the offload flag. *)
Record Native := mkNative { connected : Target; gso : bool }.

Fixpoint matching (t : Target) (l : list Packet) : list Packet :=
  match l with p :: l => if bool_decide (target p = t) then p :: matching t l else [] | [] => [] end.

(** What the socket answers each time it is asked to be writable, until it is not: an error, or the system's answers for one attempt. *)
Inductive readiness := Broken | Writable (k : kernel).

Definition attempts_ok (l : list readiness) : Prop := Forall (fun a => match a with Writable k => kernel_ok k | Broken => True end) l.

(** The loop of [poll_send]; [None] is [Pending]. *)
Fixpoint send_loop (attempts : list readiness) (g : bool) (valid : list Packet) : bool * option (res unit Z) * list bytes :=
  match attempts with
  | [] => (g, None, [])
  | Broken :: _ => (g, Some (Err tt), [])
  | Writable k :: attempts =>
      match send k g valid with
      | (g, Sent n, w) => (g, Some (Ok n), w)
      | (g, Failed, w) => (g, Some (Err tt), w)
      | (g, WouldBlock, w) => let '(g, r, w') := send_loop attempts g valid in (g, r, w ++ w')
      end
  end.

(** [Native::poll_send] *)
Definition poll_send (attempts : list readiness) (n : Native) (l : list Packet) : Native * option (res unit Z) * list bytes :=
  match matching (connected n) l with
  | [] => (n, Some (Err tt), [])
  | valid => let '(g, r, w) := send_loop attempts (gso n) valid in (mkNative (connected n) g, r, w)
  end.

(** The request for the socket: none, dropped, or made. *)
Inductive request := NoRequest | Abandoned | Requested.

(** What one poll of the task meets: the request, the application's packets ([Some []] when they
    ended), the system, and what the socket received ([None] is [Pending], [Some None] an error). *)
Record turn := mkTurn { asked : request; offered : option (list Packet); calls : list readiness; incoming : option (option (list bytes)) }.

(** [drive]'s state with its logs: packets taken from the application, whether each was reported as sent or dropped, the datagrams
    the system sent, and those given to the application's queue. *)
Record task := mkTask {
  native : Native;
  pending : list Packet;
  used : bool;
  requested : bool;
  taken : list Packet;
  outcomes : list (Packet * bool);
  wire : list bytes;
  forwarded : list bytes;
  refused : bool;
}.

Definition begin (t : Target) : task := mkTask (mkNative t true) [] false false [] [] [] [] false.

Inductive ended := HandedOver | BrokenPipe.

(** The request is looked at first; it gets the socket only before a packet was taken. *)
Definition poll_request (q : request) (s : task) : task * bool :=
  if requested s then (s, false)
  else match q with
       | NoRequest => (s, false)
       | Abandoned => (mkTask (native s) (pending s) (used s) true (taken s) (outcomes s) (wire s) (forwarded s) (refused s), false)
       | Requested =>
           if used s then (mkTask (native s) (pending s) (used s) true (taken s) (outcomes s) (wire s) (forwarded s) true, false)
           else (mkTask (native s) (pending s) (used s) true (taken s) (outcomes s) (wire s) (forwarded s) (refused s), true)
       end.

(** [poll_recv_many]; [None] when the application's packets ended. *)
Definition poll_input (o : option (list Packet)) (s : task) : option task :=
  match pending s, o with
  | [], Some [] => None
  | [], Some l =>
      let l := take 32 l in
      Some (mkTask (native s) l true (requested s) (taken s ++ l) (outcomes s) (wire s) (forwarded s) (refused s))
  | _, _ => Some s
  end.

(** The first [n] packets leave [pending]. *)
Definition settle (n : nat) (ok : bool) (nat_ : Native) (w : list bytes) (s : task) : task :=
  mkTask nat_ (drop n (pending s)) (used s) (requested s) (taken s) (outcomes s ++ ((fun p => (p, ok)) <$> take n (pending s))) (wire s ++ w) (forwarded s) (refused s).

(** A failed send drops the first packet. *)
Definition poll_output (attempts : list readiness) (s : task) : task :=
  match pending s with
  | [] => s
  | l =>
      match poll_send attempts (native s) l with
      | (n, Some (Ok count), w) => settle (Z.to_nat count) true n w s
      | (n, Some (Err _), w) => settle 1 false n w s
      | (n, None, w) => settle 0 true n w s
      end
  end.

(** [native.poll_recv]: no datagrams mean the socket has ended. *)
Definition poll_incoming (r : option (option (list bytes))) (s : task) : option task :=
  match r with
  | Some (Some []) => None
  | Some (Some l) => Some (mkTask (native s) (pending s) (used s) (requested s) (taken s) (outcomes s) (wire s) (forwarded s ++ l) (refused s))
  | _ => Some s
  end.

Definition drive_poll (t : turn) (s : task) : task * option ended :=
  let '(s, hand) := poll_request (asked t) s in
  if hand then (s, Some HandedOver)
  else
    match poll_input (offered t) s with
    | None => (s, Some BrokenPipe)
    | Some s =>
        let s := poll_output (calls t) s in
        match poll_incoming (incoming t) s with
        | None => (s, Some BrokenPipe)
        | Some s => (s, None)
        end
    end.

Fixpoint drive (l : list turn) (s : task) : task * option ended :=
  match l with
  | [] => (s, None)
  | t :: l => match drive_poll t s with (s, None) => drive l s | r => r end
  end.

(** ** Splitting *)

(** Datagrams the system coalesces: one size, the last no longer. *)
Fixpoint coalesced (size : Z) (l : list bytes) : Prop :=
  match l with
  | [] => False
  | [d] => 0 < len d <= size
  | d :: l => len d = size /\ coalesced size l
  end.

Lemma cut_coalesced size l : forall fuel pre, 0 < size -> coalesced size l -> (length l <= fuel)%nat -> cut fuel size (len pre) (pre ++ concat l) = l.
Proof.
  induction l as [|d l IH]; intros fuel pre Hs Hl Hf; [done|]. destruct fuel as [|fuel]; [cbn in Hf; lia|]. cbn [cut concat length] in *.
  pose proof (len_nonneg pre). pose proof (len_nonneg d). rewrite !len_app. destruct l as [|d' l].
  - cbn in Hl. cbn [concat]. rewrite len_nil. replace (Z.min (len pre + size) (len pre + (len d + 0))) with (len pre + len d) by lia.
    rewrite Z.add_0_r, Z.eqb_refl. f_equal. unfold slice. rewrite zdrop_app_exact, app_nil_r by done. apply ztake_ge. lia.
  - destruct Hl as [Hd Hl]. assert (Hne : 0 < len (concat (d' :: l))).
    { assert (Hd' : 0 < len d') by (destruct l; [by destruct Hl|destruct Hl; lia]). cbn [concat]. rewrite len_app. pose proof (len_nonneg (concat l)). lia. }
    replace (Z.min (len pre + size) (len pre + (len d + len (concat (d' :: l))))) with (len pre + len d) by lia.
    rewrite (proj2 (Z.eqb_neq _ _)) by lia. f_equal.
    + unfold slice. rewrite zdrop_app_exact by done. replace (len pre + len d - len pre) with (len d) by lia. by apply ztake_app_exact.
    + rewrite <- len_app, app_assoc. apply IH; [done|done|cbn in *; lia].
Qed.

Lemma coalesced_length size l : coalesced size l -> (length l <= length (concat l))%nat.
Proof.
  induction l as [|d l IH]; [done|]. cbn [concat length]. rewrite length_app. destruct l as [|d' l]; cbn [coalesced].
  - unfold len. cbn. lia.
  - intros [Hd Hl]. specialize (IH Hl). assert (0 < size) by (clear -Hl; revert Hl; generalize d'; induction l as [|x l IHl]; intros y Hy; [cbn in Hy; lia|destruct Hy as [_ Hy]; by apply (IHl x)]). unfold len in Hd. lia.
Qed.

(** A message without a segment size is one datagram, also when it is empty. *)
Lemma split_plain m : split 0 m = [m].
Proof.
  unfold split. cbn [cut]. rewrite Z.eqb_refl. pose proof (len_nonneg m). replace (Z.min (0 + Z.max (len m) 1) (len m)) with (len m) by lia. rewrite Z.eqb_refl. f_equal.
  unfold slice. rewrite zdrop_0, Z.sub_0_r. apply ztake_ge. lia.
Qed.

(** Receive offload is undone exactly.  Messages the system made by joining datagrams of one size, the last no longer, and
    messages it did not join, give back the datagrams that arrived, in order, empty ones included; messages that were cut short
    give nothing. *)
Theorem gro_split_inverts (l : list (option (Z * list bytes))) (ms : list message) :
  Forall2 (fun d m => match d, m with
    | None, m => m = Damaged
    | Some (size, ds), Message segment data => data = concat ds /\ segment = size /\ (size = 0 /\ length ds = 1%nat \/ 0 < size /\ coalesced size ds)
    | Some _, Damaged => False
    end) l ms ->
  receive ms = concat ((fun d => match d with Some (_, ds) => ds | None => [] end) <$> l).
Proof.
  unfold receive. induction 1 as [|d m l ms Hdm _ IH]; [done|]. rewrite !fmap_cons. cbn [concat]. rewrite IH. f_equal. destruct d as [[size ds]|]; [|by subst]. destruct m as [|segment data]; [done|].
  destruct Hdm as (-> & -> & [[-> Hd]|[Hs Hd]]).
  - destruct ds as [|d [|]]; try done. cbn [concat]. by rewrite app_nil_r, split_plain.
  - unfold split. rewrite (proj2 (Z.eqb_neq _ _)) by lia. apply (cut_coalesced size ds _ []); [done|done|]. pose proof (coalesced_length size ds Hd). lia.
Qed.

(** The number of messages of a receive stays between 1 and 32. *)
Lemma next_batch_range batch count datagrams : 1 <= batch <= 32 -> 0 <= count <= batch -> 0 <= datagrams -> 1 <= next_batch batch count datagrams <= 32.
Proof.
  intros Hb Hc Hd. unfold next_batch. set (q := Z.max (32 * count `div` Z.max datagrams 1) 1). assert (1 <= q) by lia. destruct (count =? batch) eqn:He; zify_bool; lia.
Qed.

(** ** Sending *)

Lemma same_size_range size l : 0 <= same_size size l <= len l.
Proof. induction l as [|p l IH]; cbn; [done|]. rewrite len_cons. case_bool; pose proof (len_nonneg l); lia. Qed.

Lemma same_size_prefix size l : Forall (fun p => len (payload p) = size) (ztake (same_size size l) l).
Proof.
  induction l as [|p l IH]; cbn; [constructor|]. destruct (len (payload p) =? size) eqn:He; [|constructor]. zify_bool. pose proof (same_size_range size l).
  unfold ztake. replace (Z.to_nat (1 + same_size size l)) with (S (Z.to_nat (same_size size l))) by lia. by constructor.
Qed.

(** A segmented message has packets of one size that fit one IP packet's length field. *)
Lemma gso_group l p rest : l = p :: rest -> len (payload p) <> 0 ->
  let n := gso_count l in n <= len l /\ n * len (payload p) <= 65535 /\ Forall (fun q => len (payload q) = len (payload p)) (ztake n l).
Proof.
  intros -> Hp. cbn [gso_count]. pose proof (len_nonneg (payload p)). set (size := len (payload p)) in *. set (l := p :: rest). cbn zeta. pose proof (same_size_range size l).
  assert (0 <= 65535 `div` size) by (apply Z.div_pos; lia). pose proof (Z.mul_div_le 65535 size ltac:(lia)). split_and!; [lia|nia|].
  pose proof (same_size_prefix size l) as Hall. unfold ztake in *. set (n := Z.to_nat (Z.min _ _)).
  replace (take n l) with (take n (take (Z.to_nat (same_size size l)) l)) by (rewrite take_take; f_equal; lia). by apply Forall_take.
Qed.

Lemma even_coalesced size l : 0 < size -> l <> [] -> Forall (fun d => len d = size) l -> coalesced size l.
Proof.
  intros Hs Hl Hall. induction Hall as [|d l Hd Hall IH]; [done|]. destruct l as [|d' l]; cbn [coalesced]; [lia|]. split; [done|]. by apply IH.
Qed.

(** The system cuts a segmented message into the packets it was made of. *)
Lemma segments_exact size l : 0 < size -> l <> [] -> Forall (fun p => len (payload p) = size) l -> split size (concat (payload <$> l)) = payload <$> l.
Proof.
  intros Hs Hl Hall. unfold split. rewrite (proj2 (Z.eqb_neq _ _)) by lia.
  assert (Hc : coalesced size (payload <$> l)) by (apply even_coalesced; [done|by destruct l|by apply Forall_fmap]).
  apply (cut_coalesced size (payload <$> l) _ []); [done|done|]. pose proof (coalesced_length _ _ Hc). lia.
Qed.

(** What the system sends is what the caller is told. *)
Definition told (l : list Packet) (o : outcome) : list bytes := match o with Sent n => ztake n (payload <$> l) | _ => [] end.

Lemma send_each_told k l : (send_each k l).2 = told l (send_each k l).1.
Proof. unfold send_each. by destruct (sendmmsg k _). Qed.

Lemma send_each_count k l n : kernel_ok k -> (send_each k l).1 = Sent n -> 1 <= n <= len l.
Proof.
  intros Hk. unfold send_each. destruct (sendmmsg k (payload <$> l)) as [m| |] eqn:Hm; try done. intros [= <-]. apply Hk in Hm. unfold len in *. by rewrite length_fmap in Hm.
Qed.

Lemma send_told k g l g' o w : kernel_ok k -> send k g l = (g', o, w) -> w = told l o /\ forall n, o = Sent n -> 1 <= n <= len l.
Proof.
  intros Hk Hs. assert (Heach : forall g0, (let '(o0, w0) := send_each k l in (g0, o0, w0)) = (g', o, w) -> w = told l o /\ forall n, o = Sent n -> 1 <= n <= len l).
  { intros g0 He. pose proof (send_each_told k l) as Ht. pose proof (send_each_count k l) as Hc. destruct (send_each k l) as [o0 w0]. cbn in Ht, Hc. injection He as _ <- <-. by auto. }
  unfold send in Hs. destruct l as [|p [|q rest]]; [by eapply Heach..|]. set (l := p :: q :: rest) in *. cbn zeta in Hs.
  destruct (g && negb (len (payload p) =? 0) && (1 <? gso_count l)) eqn:Hb; [|by eapply Heach]. zify_bool. pose proof (len_nonneg (payload p)).
  destruct (gso_group l p (q :: rest) eq_refl ltac:(lia)) as (Hn & Hsz & Hall). rewrite Z.mod_small in Hs by nia.
  unfold send_gso in Hs. destruct (sendmsg _ _ _); [|by eapply Heach|by injection Hs as _ <- <-|by injection Hs as _ <- <-].
  assert (o = Sent (gso_count l)) as -> by congruence. assert (w = split (len (payload p)) (concat (payload <$> ztake (gso_count l) l))) as -> by congruence.
  split; [|intros n Heq; assert (n = gso_count l) as -> by congruence; lia]. cbn [told]. unfold ztake in *. rewrite <- fmap_take. apply segments_exact; [lia| |done].
  destruct (Z.to_nat (gso_count l)) eqn:E; [lia|done].
Qed.

Lemma send_loop_told attempts : forall g l g' r w, attempts_ok attempts -> send_loop attempts g l = (g', r, w) ->
  w = match r with Some (Ok n) => ztake n (payload <$> l) | _ => [] end /\ forall n, r = Some (Ok n) -> 1 <= n <= len l.
Proof.
  induction attempts as [|[|k] attempts IH]; intros g l g' r w Hk; cbn; [by intros [= <- <- <-]..|]. apply Forall_cons in Hk as [Hk Hks].
  destruct (send k g l) as [[g1 o] w1] eqn:Hs. apply send_told in Hs as [-> Hn]; [|done]. destruct o as [n| |]; [intros [= <- <- <-]; split; [done|]; intros m [= <-]; by apply Hn| |by intros [= <- <- <-]].
  destruct (send_loop attempts g1 l) as [[g2 r2] w2] eqn:Hl. intros [= <- <- <-]. cbn. by eapply IH.
Qed.

Lemma matching_prefix t l : exists rest, l = matching t l ++ rest.
Proof. induction l as [|p l [rest Hr]]; cbn; [by exists []|]. case_bool_decide; [exists rest; cbn; by rewrite <- Hr|by exists (p :: l)]. Qed.

Lemma matching_targets t l : Forall (fun p => target p = t) (matching t l).
Proof. induction l as [|p l IH]; cbn; [done|]. case_bool_decide; by constructor. Qed.

(** ** The task *)

(** The packets that were reported as sent. *)
Definition reported (l : list (Packet * bool)) : list Packet := fst <$> filter (fun x => x.2 = true) l.

Record Inv (t : Target) (s : task) : Prop := {
  d_target : connected (native s) = t;
  d_order : taken s = (fst <$> outcomes s) ++ pending s;
  d_sent : Forall (fun p => target p = t) (reported (outcomes s));
  d_wire : wire s = payload <$> reported (outcomes s);
  d_used : used s = false -> taken s = [];
  d_room : (length (pending s) <= 32)%nat;
}.

Lemma reported_app l k : reported (l ++ k) = reported l ++ reported k.
Proof. unfold reported. by rewrite filter_app, fmap_app. Qed.

Lemma reported_all (ok : bool) (l : list Packet) : reported ((fun p => (p, ok)) <$> l) = if ok then l else [].
Proof.
  unfold reported. induction l as [|p l IH]; [by destruct ok|]. rewrite fmap_cons, filter_cons. cbn [snd]. destruct ok.
  - rewrite decide_True by done. rewrite fmap_cons. f_equal. exact IH.
  - rewrite decide_False by done. exact IH.
Qed.

Lemma native_settle_inv t n (ok : bool) nat_ (w : list bytes) s :
  Inv t s -> connected nat_ = t -> w = (if ok then payload <$> take n (pending s) else []) -> (ok = true -> Forall (fun p => target p = t) (take n (pending s))) -> Inv t (settle n ok nat_ w s).
Proof.
  intros [Ht Ho Hs Hw Hu Hr] Hn -> Hok. constructor; cbn [native taken outcomes pending wire used settle]; [done| | | |done|rewrite length_drop; lia].
  - rewrite fmap_app, <- list_fmap_compose, <- app_assoc. change (fst ∘ (fun p : Packet => (p, ok))) with (fun p : Packet => p). by rewrite list_fmap_id, take_drop.
  - rewrite reported_app, reported_all. apply Forall_app. split; [done|]. destruct ok; [by apply Hok|constructor].
  - rewrite reported_app, reported_all, fmap_app, Hw. by destruct ok.
Qed.

Lemma poll_output_inv t attempts s : attempts_ok attempts -> Inv t s -> Inv t (poll_output attempts s).
Proof.
  intros Hk Hi. unfold poll_output. destruct (pending s) as [|p l] eqn:Hp; [done|]. rewrite <- Hp. unfold poll_send. pose proof (d_target _ _ Hi) as Ht. rewrite Ht.
  destruct (matching_prefix t (pending s)) as [rest Hrest]. pose proof (matching_targets t (pending s)) as Hmt. destruct (matching t (pending s)) as [|q valid] eqn:Hm.
  - by apply native_settle_inv.
  - destruct (send_loop attempts (gso (native s)) (q :: valid)) as [[g r] w] eqn:Hsend. apply send_loop_told in Hsend as [-> Hn]; [|done].
    destruct r as [[n|e]|]; [|by apply native_settle_inv|apply native_settle_inv; [done|done|done|intros _; constructor]]. specialize (Hn n eq_refl).
    assert (Htk : take (Z.to_nat n) (pending s) = take (Z.to_nat n) (q :: valid)) by (rewrite Hrest; apply take_app_le; unfold len in Hn; lia).
    apply native_settle_inv; [done|done| |intros _; rewrite Htk; by apply Forall_take]. rewrite Htk. unfold ztake. by rewrite fmap_take.
Qed.

Lemma drive_poll_inv t x s : attempts_ok (calls x) -> Inv t s ->
  Inv t (drive_poll x s).1 /\ ((drive_poll x s).2 = Some HandedOver -> taken (drive_poll x s).1 = [] /\ pending (drive_poll x s).1 = []).
Proof.
  intros Hk Hi. unfold drive_poll. assert (Hreq : Inv t (poll_request (asked x) s).1 /\ ((poll_request (asked x) s).2 = true -> used (poll_request (asked x) s).1 = false)).
  { unfold poll_request. destruct (requested s); [done|]. destruct (asked x); [done| |]; [|destruct (used s) eqn:Hu]; destruct Hi; (split; [constructor; cbn; auto; done|done]). }
  destruct (poll_request (asked x) s) as [s1 hand]. cbn [fst snd] in Hreq. destruct Hreq as [Hi1 Hu1]. destruct hand.
  { cbn. split; [done|]. intros _. pose proof (d_used _ _ Hi1 (Hu1 eq_refl)) as Htk. split; [done|]. pose proof (d_order _ _ Hi1) as Ho. rewrite Htk in Ho. by apply symmetry, app_eq_nil in Ho as [_ ?]. }
  destruct (poll_input (offered x) s1) as [s2|] eqn:H2; [|cbn; done].
  assert (Hi2 : Inv t s2).
  { unfold poll_input in H2. destruct (pending s1) as [|p l] eqn:Hp; [|by injection H2 as <-]. destruct (offered x) as [[|q m]|]; [done| |by injection H2 as <-]. injection H2 as <-.
    destruct Hi1 as [Ht Ho Hs Hw Hu Hr]. constructor; cbn [native taken outcomes pending wire used]; try done; [by rewrite Ho, Hp, app_nil_r|change (length (take 32 (q :: m)) <= 32)%nat; rewrite length_take; lia]. }
  pose proof (poll_output_inv t (calls x) s2 Hk Hi2) as Hi3. destruct (poll_incoming (incoming x) (poll_output (calls x) s2)) as [s4|] eqn:H4; cbn; [|done]. split; [|done].
  unfold poll_incoming in H4. destruct (incoming x) as [[[|d ds]|]|]; [done| | |]; injection H4 as <-; [|done|done]. destruct Hi3. by constructor.
Qed.

(** C34. Native UDP keeps order and its promise of a hand-over.  However the task's polls fall and whatever the system answers: the
    packets taken from the application are handled in the order they came, each once, reported as sent or dropped by a failed
    send, the rest waiting, at most 32 of them; the datagrams that the system sends, also where it cuts a segmented message, are exactly the
    payloads of the packets reported as sent, which are all for the connected target; and when the socket is handed over no
    packet had been taken, so none is lost. *)
Theorem native_udp_in_order t turns :
  Forall (fun x => attempts_ok (calls x)) turns ->
  let '(s, r) := drive turns (begin t) in
  taken s = (fst <$> outcomes s) ++ pending s /\ (length (pending s) <= 32)%nat /\
  wire s = payload <$> reported (outcomes s) /\ Forall (fun p => target p = t) (reported (outcomes s)) /\
  (r = Some HandedOver -> taken s = [] /\ pending s = []).
Proof.
  intros Hk. assert (Hi : Inv t (begin t)) by (constructor; cbn; try done; lia). revert Hi. generalize (begin t) as s. induction turns as [|x turns IH]; intros s Hi; cbn.
  { destruct Hi. done. }
  apply Forall_cons in Hk as [Hx Hk]. destruct (drive_poll_inv t x s Hx Hi) as [Hi1 Hh]. destruct (drive_poll x s) as [s1 [e|]]; cbn [fst snd] in *; [|by apply IH].
  destruct Hi1. split_and!; [done..|]. intros [= ->]. by apply Hh.
Qed.

(** ** Examples *)

Lemma gro_split_inverts_witness :
  receive [Message 3 [1; 2; 3; 4; 5; 6; 7]; Damaged; Message 0 []; Message 0 [9]] = concat ((fun d => match d with Some (_, ds) => ds | None => [] end) <$> [Some (3, [[1; 2; 3]; [4; 5; 6]; [7]]); None; Some (0, [[]]); Some (0, [[9]])]).
Proof.
  apply gro_split_inverts. constructor; [split_and!; [reflexivity|reflexivity|right; vm_compute; repeat split; congruence]|]. constructor; [reflexivity|].
  constructor; [split_and!; [reflexivity|reflexivity|by left]|]. constructor; [split_and!; [reflexivity|reflexivity|by left]|]. apply List.Forall2_nil.
Defined.

Definition here : Target := Domain [97] 53.
(** Two system calls: segmentation for messages of more than two bytes a packet, and one packet at a time. *)
Definition whole : kernel := mkKernel (fun l n => if n =? 2 then Unsupported else Accepted) (fun l => match l with [] => Failed | _ => Sent 1 end).
Definition busy : kernel := mkKernel (fun l n => GsoBlocked) (fun l => WouldBlock).

Lemma whole_ok : kernel_ok whole.
Proof. intros [|p l] n; cbn; [done|]. intros [= <-]. rewrite len_cons. pose proof (len_nonneg l). lia. Qed.

Lemma busy_ok : kernel_ok busy.
Proof. done. Qed.

Definition demo_turns : list turn :=
  [mkTurn NoRequest (Some [mkPacket here [1; 2; 3]; mkPacket here [3; 4; 5]; mkPacket here [6]; mkPacket (Domain [98] 1) [5]]) [Writable busy; Writable whole] None;
   mkTurn Requested None [Writable whole] (Some (Some [[7]])); mkTurn NoRequest None [] None; mkTurn NoRequest None [Broken] None].

Lemma demo_turns_ok : Forall (fun x => attempts_ok (calls x)) demo_turns.
Proof. repeat (apply Forall_cons; split); try apply Forall_nil; try done; first [apply whole_ok|apply busy_ok]. Qed.

Lemma native_udp_in_order_witness :
  let s := (drive demo_turns (begin here)).1 in
  outcomes s = [(mkPacket here [1; 2; 3], true); (mkPacket here [3; 4; 5], true); (mkPacket here [6], true); (mkPacket (Domain [98] 1) [5], false)] /\ refused s = true /\
  wire s = [[1; 2; 3]; [3; 4; 5]; [6]] /\ taken s = (fst <$> outcomes s) ++ pending s.
Proof.
  split; [reflexivity|]. split; [reflexivity|]. split; [reflexivity|].
  exact (proj1 (native_udp_in_order here demo_turns demo_turns_ok)).
Defined.

End NativeUdp.
