(* ===== verification/Uot.v ===== *)
(** * UDP over AnyTLS streams (crates/anytls/src/udp.rs, server.rs)

    How a client asks for a UDP association on a stream, how the server tells it from a TCP
    destination, and how datagrams are framed on the stream.  Addresses are written and read by the
    library behind AnyTlsWire.v; its documented format is a class of laws. *)

From S2P Require Import Prelude Packet NetText Carrier AnyTlsWire.
Import NetText.

Module Uot.
Import AnyTlsWire.

(** "sp.v2.udp-over-tcp.arpa" *)
Definition SENTINEL : bytes := [115; 112; 46; 118; 50; 46; 117; 100; 112; 45; 111; 118; 101; 114; 45; 116; 99; 112; 46; 97; 114; 112; 97].

Definition sentinel : Target := Domain SENTINEL 0.
Definition is_sentinel (t : Target) : bool := match t with Domain name _ => bool_decide (name = SENTINEL) | Ip _ _ => false end.

(** [Panicked] is the out-of-range index of [write_packet] on an address without a family byte. *)
Inductive error := Wire (e : AnyTlsWire.error) | InvalidMode | InvalidFamily | TooLong | Eof | Panicked.

Abbreviation Res := (res error).

Definition wire {A} (r : AnyTlsWire.Res A) : Res A := match r with Ok a => Ok a | Err e => Err (Wire e) end.

Record Packet := mkPacket { target : Target; payload : bytes }.

Section codec.
Context `{AddrCodec}.

(** SOCKS addresses: a family byte, which the reader is given apart, and the rest. *)
Class AddrLaws : Prop := {
  addr_roundtrip : forall a b, to_be_bytes a = Some b ->
    exists family body, b = family :: body /\ (family = 1 \/ family = 3 \/ family = 4) /\ forall rest, read_address family (body ++ rest) = Some (a, rest);
}.

(** [request] *)
Definition request (destination : Target) : Res bytes := a ← wire (address destination); Ok (1 :: a).

(** [read_request] *)
Definition read_request (io : bytes) : Res (option Target * bytes) :=
  match io with
  | [] => Err Eof
  | mode :: io =>
      _ ← ensure (mode <=? 1) InvalidMode;
      '(destination, io) ← wire (read_target io);
      Ok (if mode =? 1 then Some destination else None, io)
  end.

(** What [Client::tcp] and [Client::udp] send when they open a stream. *)
Definition open_tcp (destination : Target) : Res bytes := wire (address destination).
Definition open_udp (destination : Target) : Res bytes :=
  a ← wire (address sentinel);
  r ← request destination;
  Ok (a ++ r).

(** How the server takes a new stream. *)
Inductive incoming := TcpTo (destination : Target) | UdpTo (destination : option Target).

Definition accept_stream (io : bytes) : Res (incoming * bytes) :=
  '(destination, io) ← wire (read_target io);
  if is_sentinel destination then '(d, io) ← read_request io; Ok (UdpTo d, io) else Ok (TcpTo destination, io).

(** [write_packet] *)
Definition write_packet (p : Packet) (connected : bool) : Res bytes :=
  _ ← ensure (len (payload p) <=? u16_max) TooLong;
  head ← if connected then Ok []
         else b ← wire (address (target p));
              match b with
              | family :: body =>
                  f ← if family =? 1 then Ok 0 else if family =? 4 then Ok 1 else if family =? 3 then Ok 2 else Err InvalidFamily;
                  Ok (f :: body)
              | [] => Err Panicked
              end;
  Ok (head ++ be_put 2 (len (payload p)) ++ payload p).

(** [read_packet] *)
Definition read_packet (io : bytes) (connected : option Target) : Res (Packet * bytes) :=
  '(t, io) ← match connected with
             | Some d => Ok (d, io)
             | None =>
                 match io with
                 | [] => Err Eof
                 | f :: io =>
                     family ← if f =? 0 then Ok 1 else if f =? 1 then Ok 4 else if f =? 2 then Ok 3 else Err InvalidFamily;
                     wire (read_target_family io family)
                 end
             end;
  '(n, io) ← wire (read_exact 2 io);
  '(payload, io) ← wire (read_exact (be_get n) io);
  Ok (mkPacket t payload, io).

(** Whether the writer of [start] sends a packet. *)
Definition wanted (destination : option Target) (p : Packet) : bool := match destination with Some t => bool_decide (t = target p) | None => true end.

(** The writer of [start]: what it wrote, and how many packets it went through before an error. *)
Fixpoint write_loop (destination : option Target) (l : list Packet) : bytes * nat :=
  match l with
  | [] => ([], O)
  | p :: l =>
      if negb (wanted destination p) then let '(out, n) := write_loop destination l in (out, S n)
      else match write_packet p (bool_decide (is_Some destination)) with
           | Err _ => ([], O)
           | Ok b => let '(out, n) := write_loop destination l in (b ++ out, S n)
           end
  end.

(** The reader of [start], until the stream ends: the packets it offers to the association's bounded queue; every packet takes at least two bytes. *)
Fixpoint read_loop (fuel : nat) (destination : option Target) (io : bytes) : list Packet :=
  match fuel with
  | O => []
  | S fuel => match read_packet io destination with Ok (p, io) => p :: read_loop fuel destination io | Err _ => [] end
  end.

(** ** Addresses *)

Context `{!AddrLaws}.

Lemma address_reads t b rest : address t = Ok b -> exists family body, b = family :: body /\ (family = 1 \/ family = 3 \/ family = 4) /\ read_target_family (body ++ rest) family = Ok (t, rest).
Proof.
  unfold address, read_target_family. destruct t as [name port|a port].
  - destruct (len name =? 0) eqn:Hn; [done|]. cbn. destruct (to_be_bytes (AddrDomain name port)) as [b'|] eqn:Hb; [|done]. cbn. intros [= <-].
    destruct (addr_roundtrip _ _ Hb) as (family & body & -> & Hf & Hr). exists family, body. split_and!; [done|done|]. rewrite Hr. cbn. by rewrite Hn.
  - cbn. destruct (to_be_bytes (AddrIp a port)) as [b'|] eqn:Hb; [|done]. cbn. intros [= <-].
    destruct (addr_roundtrip _ _ Hb) as (family & body & -> & Hf & Hr). exists family, body. split_and!; [done|done|]. by rewrite Hr.
Qed.

Lemma address_target t b rest : address t = Ok b -> read_target (b ++ rest) = Ok (t, rest).
Proof. intros Hb. destruct (address_reads t b rest Hb) as (family & body & -> & _ & Hr). exact Hr. Qed.

(** Streams are accepted as they were opened: the server takes a stream a client opened for UDP as an association with
    that destination, and one opened for a TCP destination as that destination, unless its name is the reserved one;
    what follows the request is left unread. *)
Theorem uot_request_roundtrip d b rest :
  (open_udp d = Ok b -> accept_stream (b ++ rest) = Ok (UdpTo (Some d), rest)) /\
  (open_tcp d = Ok b -> is_sentinel d = false -> accept_stream (b ++ rest) = Ok (TcpTo d, rest)).
Proof.
  split.
  - unfold open_udp, request. destruct (address sentinel) as [a|] eqn:Ha; [|done]. destruct (address d) as [r|] eqn:Hd; [|done]. cbn. intros [= <-].
    unfold accept_stream. rewrite <- app_assoc, (address_target _ _ _ Ha). cbn. rewrite (address_target _ _ _ Hd). done.
  - unfold open_tcp. destruct (address d) as [a|] eqn:Ha; [|done]. cbn. intros [= <-] Hs. unfold accept_stream. rewrite (address_target _ _ _ Ha). cbn. by rewrite Hs.
Qed.

(** ** Datagrams *)

Lemma write_read p connected destination b rest :
  write_packet p connected = Ok b -> connected = bool_decide (is_Some destination) -> wanted destination p = true -> read_packet (b ++ rest) destination = Ok (p, rest).
Proof.
  unfold write_packet. destruct (len (payload p) <=? u16_max) eqn:Hl; [|done]. zify_bool. intros Hw -> Hwant.
  assert (Htail : forall t, wire (read_exact 2 ((be_put 2 (len (payload p)) ++ payload p) ++ rest)) ≫= (fun '(n, io) => wire (read_exact (be_get n) io) ≫= (fun '(pl, io) => Ok (mkPacket t pl, io))) = Ok (mkPacket t (payload p), rest)).
  { intros t. rewrite <- app_assoc, read_exact_app by apply len_be_put. cbn [wire mbind res_bind].
    rewrite be_get_put by (unfold u16_max in Hl; pose proof (len_nonneg (payload p)); change (256 ^ Z.of_nat 2) with 65536; lia). by rewrite read_exact_app. }
  unfold read_packet. destruct destination as [t|]; cbn [wanted] in Hwant.
  - apply bool_decide_eq_true in Hwant as ->. rewrite bool_decide_eq_true_2 in Hw by (by eexists). cbn [ensure mbind res_bind app] in Hw. assert (b = be_put 2 (len (payload p)) ++ payload p) as -> by congruence. cbn [mbind res_bind]. rewrite Htail. by destruct p.
  - rewrite bool_decide_eq_false_2 in Hw by (by intros []). cbn [ensure mbind res_bind] in Hw. destruct (address (target p)) as [a|] eqn:Ha; [|done]. cbn [wire mbind res_bind] in Hw.
    destruct (address_reads _ a ((be_put 2 (len (payload p)) ++ payload p) ++ rest) Ha) as (family & body & -> & Hf & Hr).
    assert (Hcase : exists f, (if family =? 1 then Ok 0 else if family =? 4 then Ok 1 else if family =? 3 then Ok 2 else Err InvalidFamily) = Ok (E := error) f /\
                     (if f =? 0 then Ok 1 else if f =? 1 then Ok 4 else if f =? 2 then Ok 3 else Err InvalidFamily) = Ok (E := error) family) by (destruct Hf as [->|[->| ->]]; eexists; (split; [reflexivity|reflexivity])).
    destruct Hcase as (f & Hf1 & Hf2). rewrite Hf1 in Hw. cbn [mbind res_bind] in Hw. assert (b = (f :: body) ++ be_put 2 (len (payload p)) ++ payload p) as -> by congruence. cbn [app]. rewrite Hf2. cbn [mbind res_bind].
    rewrite <- app_assoc, Hr. cbn [wire mbind res_bind]. rewrite Htail. by destruct p.
Qed.

Lemma write_packet_length p connected b : write_packet p connected = Ok b -> (2 <= length b)%nat.
Proof.
  unfold write_packet. destruct (len (payload p) <=? u16_max); [|done]. cbn [ensure mbind res_bind]. destruct (if connected then _ else _) as [head|]; [|done]. cbn [mbind res_bind]. intros Hb. assert (b = head ++ be_put 2 (len (payload p)) ++ payload p) as -> by congruence.
  rewrite !length_app. pose proof (len_be_put 2 (len (payload p))) as Hl. unfold len in Hl at 1. lia.
Qed.

(** C36. Datagrams survive the stream.  What one side writes for a sequence of packets, the other reads back as the same packets in
    order, up to the first that cannot be written; on a stream with a destination, packets for other targets are left out. *)
Theorem uot_carries_datagrams destination l :
  let '(out, n) := write_loop destination l in
  read_loop (S (length out)) destination out = filter (fun p => wanted destination p = true) (take n l).
Proof.
  enough (Hgo : forall l out n fuel, write_loop destination l = (out, n) -> (length out < fuel)%nat -> read_loop fuel destination out = filter (fun p => wanted destination p = true) (take n l)).
  { destruct (write_loop destination l) as [out n] eqn:Hw. by apply Hgo; [|lia]. }
  clear l. assert (Hend : forall fuel, (0 < fuel)%nat -> read_loop fuel destination [] = []) by (intros [|fuel] Hf; [lia|]; cbn; by destruct destination).
  induction l as [|p l IH]; intros out n fuel Hw Hf; cbn [write_loop] in Hw; [injection Hw as <- <-; apply Hend; cbn in Hf; lia|].
  destruct (wanted destination p) eqn:Hwant; cbn [negb] in Hw.
  - destruct (write_packet p (bool_decide (is_Some destination))) as [b|] eqn:Hb; [|injection Hw as <- <-; apply Hend; cbn in Hf; lia].
    destruct (write_loop destination l) as [out' n'] eqn:Hl. injection Hw as <- <-. cbn [take]. rewrite filter_cons_True by done. destruct fuel as [|fuel]; [lia|]. cbn [read_loop].
    rewrite (write_read p _ destination b out' Hb eq_refl Hwant). f_equal. apply IH; [done|]. rewrite length_app in Hf. pose proof (write_packet_length _ _ _ Hb). lia.
  - destruct (write_loop destination l) as [out' n'] eqn:Hl. injection Hw as <- <-. cbn [take]. rewrite filter_cons_False by (by rewrite Hwant). by apply IH.
Qed.

End codec.

(** ** A concrete address codec: RFC 1928's *)

Definition put_address (a : TargetAddr) : option bytes :=
  let port p := if bool_decide (0 <= p < 65536) then Some (be_put 2 p) else None in
  match a with
  | AddrIp (Packet.Ipv4 a) p => if bool_decide (0 <= a < 256 ^ 4) then q ← port p; Some (1 :: be_put 4 a ++ q) else None
  | AddrIp (Packet.Ipv6 a) p => if bool_decide (0 <= a < 256 ^ 16) then q ← port p; Some (4 :: be_put 16 a ++ q) else None
  | AddrDomain name p => if len name <=? 255 then q ← port p; Some (3 :: len name :: name ++ q) else None
  end.

Definition get_exact (n : Z) (io : bytes) : option (bytes * bytes) := if len io <? n then None else Some (ztake n io, zdrop n io).

Definition get_address (family : Z) (io : bytes) : option (TargetAddr * bytes) :=
  if family =? 1 then '(a, io) ← get_exact 4 io; '(p, io) ← get_exact 2 io; Some (AddrIp (Packet.Ipv4 (be_get a)) (be_get p), io)
  else if family =? 4 then '(a, io) ← get_exact 16 io; '(p, io) ← get_exact 2 io; Some (AddrIp (Packet.Ipv6 (be_get a)) (be_get p), io)
  else if family =? 3 then
    match io with
    | n :: io => '(a, io) ← get_exact n io; '(p, io) ← get_exact 2 io; Some (AddrDomain a (be_get p), io)
    | [] => None
    end
  else None.

Lemma get_exact_app n a r : len a = n -> get_exact n (a ++ r) = Some (a, r).
Proof.
  intros Hn. unfold get_exact. pose proof (len_nonneg r). rewrite len_app, (proj2 (Z.ltb_ge _ n)) by lia.
  by rewrite ztake_app_exact, zdrop_app_exact.
Qed.

#[local] Opaque be_put.

Lemma put_get_address a b : put_address a = Some b -> exists family body, b = family :: body /\ (family = 1 \/ family = 3 \/ family = 4) /\ forall rest, get_address family (body ++ rest) = Some (a, rest).
Proof.
  assert (Hport : forall p, bool_decide (0 <= p < 65536) = true -> be_get (be_put 2 p) = p) by (intros p Hp%bool_decide_eq_true; apply be_get_put; change (256 ^ Z.of_nat 2) with 65536; lia).
  unfold put_address. destruct a as [[a|a] p|name p].
  - destruct (bool_decide (0 <= a < 256 ^ 4)) eqn:Ha; [|done]. destruct (bool_decide (0 <= p < 65536)) eqn:Hp; [|done]. intros [= <-]. do 2 eexists. split_and!; [done|by left|]. intros rest.
    unfold get_address. cbn [Z.eqb Pos.eqb]. rewrite <- app_assoc, get_exact_app by apply len_be_put. cbn [mbind option_bind]. rewrite get_exact_app by apply len_be_put. cbn [mbind option_bind].
    apply bool_decide_eq_true in Ha. by rewrite Hport, be_get_put.
  - destruct (bool_decide (0 <= a < 256 ^ 16)) eqn:Ha; [|done]. destruct (bool_decide (0 <= p < 65536)) eqn:Hp; [|done]. intros [= <-]. do 2 eexists. split_and!; [done|by right; right|]. intros rest.
    unfold get_address. cbn [Z.eqb Pos.eqb]. rewrite <- app_assoc, get_exact_app by apply len_be_put. cbn [mbind option_bind]. rewrite get_exact_app by apply len_be_put. cbn [mbind option_bind].
    apply bool_decide_eq_true in Ha. by rewrite Hport, be_get_put.
  - destruct (len name <=? 255) eqn:Hn; [|done]. destruct (bool_decide (0 <= p < 65536)) eqn:Hp; [|done]. intros [= <-]. do 2 eexists. split_and!; [done|by right; left|]. intros rest.
    unfold get_address. cbn [Z.eqb Pos.eqb app]. rewrite <- app_assoc, get_exact_app by done. cbn [mbind option_bind]. rewrite get_exact_app by apply len_be_put. cbn [mbind option_bind].
    by rewrite Hport.
Qed.

#[local] Transparent be_put.

#[export] Instance socks_codec : AddrCodec := {| to_be_bytes := put_address; read_address := get_address |}.
#[export] Instance socks_laws : AddrLaws.
Proof. constructor. exact put_get_address. Qed.

Lemma uot_request_roundtrip_witness :
  exists b, open_udp (Ip (Packet.Ipv4 167772161) 53) = Ok b /\ accept_stream (b ++ [7]) = Ok (UdpTo (Some (Ip (Packet.Ipv4 167772161) 53)), [7]).
Proof. eexists. split; [vm_compute; reflexivity|]. apply (proj1 (uot_request_roundtrip (Ip (Packet.Ipv4 167772161) 53) _ [7])). vm_compute. reflexivity. Defined.

(** An association open to any target: all three packets are carried. *)
Example uot_packets : list Packet := [mkPacket (Ip (Packet.Ipv4 167772161) 53) [1; 2]; mkPacket (Domain [97; 46; 98] 443) []; mkPacket (Ip (Packet.Ipv6 1) 53) [9]].
Lemma uot_carries_datagrams_witness : snd (write_loop None uot_packets) = 3%nat /\ read_loop 100 None (fst (write_loop None uot_packets)) = uot_packets /\
  read_loop (S (length (fst (write_loop None uot_packets)))) None (fst (write_loop None uot_packets)) = uot_packets.
Proof. split; [reflexivity|]. split; [vm_compute; reflexivity|]. pose proof (uot_carries_datagrams None uot_packets) as H. vm_compute in H. vm_compute. exact H. Defined.

End Uot.
