(* ===== verification/Socks5.v ===== *)
(** * SOCKS5 UDP associations (crates/socks5/src)

    The datagram envelope of [lib.rs], the server's association of [server.rs], which is pinned to one client, and the client's
    relay loop of [client.rs].  fast_socks5 writes and parses the envelope; its RFC 1928 format is a class of laws. *)

From S2P Require Import Prelude Packet NetText Carrier AnyTlsWire Uot.
Import NetText.

Module Socks5.
Import AnyTlsWire (TargetAddr(..)).
Import Uot (Packet, mkPacket, target, payload).
#[local] Existing Instance Packet.IpAddress_eq_dec.

Abbreviation SocketAddr := (Packet.IpAddress * Z)%type.

Definition address (value : Target) : TargetAddr := match value with Ip a port => AddrIp a port | Domain name port => AddrDomain name port end.
Definition from_address (value : TargetAddr) : Target := match value with AddrIp a port => Carrier.target (a, port) | AddrDomain name port => Domain name port end.

Class UdpHeader := {
  new_udp_header : TargetAddr -> option bytes;
  parse_udp_request : bytes -> option (Z * TargetAddr * bytes);
}.

(** Two reserved zeros, a fragment number that is zero for a whole datagram, the address, and the data. *)
Class UdpHeaderLaws `{UdpHeader} : Prop := {
  header_form a h : new_udp_header a = Some h -> exists rest, h = 0 :: 0 :: 0 :: rest /\ rest <> [];
  header_parses a h payload : new_udp_header a = Some h -> parse_udp_request (h ++ payload) = Some (0, a, payload);
}.

Inductive error := InvalidTarget | TooLarge | Reserved | Parse | Fragmented.

Abbreviation Res := (res error).

Section socks.
Context `{UdpHeader}.

Definition encode (packet : Packet) : Res bytes :=
  h ← ok_or (new_udp_header (address (target packet))) InvalidTarget;
  let wire := h ++ payload packet in
  _ ← ensure (len wire <=? 65507) TooLarge;
  Ok wire.

Definition decode (wire : bytes) : Res Packet :=
  _ ← ensure ((4 <=? len wire) && bool_decide (take 2 wire = [0; 0])) Reserved;
  '(fragment, destination, payload) ← ok_or (parse_udp_request wire) Parse;
  _ ← ensure (fragment =? 0) Fragmented;
  Ok (mkPacket (from_address destination) payload).

(** ** The server's association *)

(** [advertised]: the client endpoint of the request, when it names a port. *)
Definition advertised (peer : SocketAddr) (destination : TargetAddr) : option SocketAddr :=
  match destination with
  | AddrIp _ port => if negb (port =? 0) then Some (fst peer, port) else None
  | AddrDomain _ _ => None
  end.

(** One turn of [receive_packet]: [None] where the code goes on to the next datagram. *)
Definition receive_packet (peer : SocketAddr) (expected : option SocketAddr) (source : SocketAddr) (wire : bytes) : option (SocketAddr * Packet) :=
  if negb (bool_decide (fst source = fst peer)) || match expected with Some client => negb (bool_decide (client = source)) | None => false end then None
  else match decode wire with Ok packet => Some (source, packet) | Err _ => None end.

Record Association := mkAssociation {
  peer : SocketAddr;
  hint : option SocketAddr;
  client : option SocketAddr;
  delivered : list Packet;
  sent : list (SocketAddr * bytes);
  ended : bool;
}.

Definition open_association (peer : SocketAddr) (destination : TargetAddr) : Association := mkAssociation peer (advertised peer destination) None [] [] false.

(** [room] is whether [try_send] finds room; the first packet is sent into a fresh queue. *)
Inductive event :=
  | Datagram (source : SocketAddr) (wire : bytes) (room : bool)
  | Responses (batch : list Packet)
  | Ended.

Definition deliver (packet : Packet) (s : Association) : Association := mkAssociation (peer s) (hint s) (client s) (delivered s ++ [packet]) (sent s) (ended s).

Definition on_datagram (source : SocketAddr) (wire : bytes) (room : bool) (s : Association) : Association :=
  match client s with
  | None =>
      match receive_packet (peer s) (hint s) source wire with
      | Some (c, packet) => mkAssociation (peer s) (hint s) (Some c) (delivered s ++ [packet]) (sent s) (ended s)
      | None => s
      end
  | Some c =>
      match receive_packet (peer s) (Some c) source wire with
      | Some (_, packet) => if room then deliver packet s else s
      | None => s
      end
  end.

(** The replies of one batch; an encoding error leaves the packet out. *)
Definition replies (c : SocketAddr) (batch : list Packet) : list (SocketAddr * bytes) :=
  omap (fun response => match encode response with Ok wire => Some (c, wire) | Err _ => None end) batch.

Definition on_responses (batch : list Packet) (s : Association) : Association :=
  match client s with
  | Some c => mkAssociation (peer s) (hint s) (client s) (delivered s) (sent s ++ replies c batch) (ended s)
  | None => s
  end.

Definition step (s : Association) (e : event) : Association :=
  if ended s then s else
  match e with
  | Datagram source wire room => on_datagram source wire room s
  | Responses batch => on_responses batch s
  | Ended => mkAssociation (peer s) (hint s) (client s) (delivered s) (sent s) true
  end.

Definition run (s : Association) (es : list event) : Association := foldl step s es.

(** What of a history the handler may be given from [c], and what it answered. *)
Definition from_client (c : SocketAddr) (e : event) : option Packet :=
  match e with
  | Datagram source wire _ => if bool_decide (source = c) then match decode wire with Ok p => Some p | Err _ => None end else None
  | _ => None
  end.
Definition answers (e : event) : list Packet := match e with Responses batch => batch | _ => [] end.

(** ** The client's relay loop *)

(** An unspecified relay address means the server's own address. *)
Definition relay_target (endpoint : Target) (reply : TargetAddr) : Target :=
  match from_address reply with
  | Ip a port =>
      if bool_decide (a = Packet.Ipv4 0 \/ a = Packet.Ipv6 0)
      then match endpoint with Ip address _ => Ip address port | Domain name _ => Domain name port end
      else Ip a port
  | other => other
  end.

Inductive outcome := Accepted | Full | Closed.

(** One batch of user packets, each with the outcome of its [try_send]: what the carrier took, and whether the loop goes on. *)
Fixpoint outgoing (relay : Target) (batch : list (Packet * outcome)) : list Packet * bool :=
  match batch with
  | [] => ([], true)
  | (p, o) :: batch =>
      match encode p with
      | Err _ => outgoing relay batch
      | Ok wire =>
          match o with
          | Accepted => let '(l, go) := outgoing relay batch in (mkPacket relay wire :: l, go)
          | Full => outgoing relay batch
          | Closed => ([], false)
          end
      end
  end.

(** One batch from the carrier: the user packets its queue had room for. *)
Definition incoming (batch : list (Packet * bool)) : list Packet :=
  omap (fun '(received, room) => match decode (payload received) with Ok p => if room : bool then Some p else None | Err _ => None end) batch.

(** ** The envelope *)

Context `{!UdpHeaderLaws}.

Lemma from_address_address t : from_address (address t) = t.
Proof. by destruct t. Qed.

Lemma encode_decodes p wire : encode p = Ok wire -> decode wire = Ok p /\ len wire <= 65507.
Proof.
  unfold encode. destruct (new_udp_header (address (target p))) as [h|] eqn:Hh; [|done]. cbn [ok_or mbind res_bind]. destruct (len (h ++ payload p) <=? 65507) eqn:Hl; [|done]. zify_bool. cbn. intros [= <-]. split; [|done].
  unfold decode. rewrite (header_parses _ _ _ Hh). destruct (header_form _ _ Hh) as (rest & -> & Hne). destruct rest as [|x rest]; [done|].
  assert (4 <= len ((0 :: 0 :: 0 :: x :: rest) ++ payload p)) by (unfold len; rewrite length_app; cbn [length]; lia).
  rewrite (proj2 (Z.leb_le _ _)) by done. cbn. rewrite from_address_address. by destruct p.
Qed.

(** ** The association *)

(** Replies carry the responses they were made of, in order. *)
Definition carries (c : SocketAddr) (p : Packet) (d : SocketAddr * bytes) : Prop := fst d = c /\ decode (snd d) = Ok p /\ len (snd d) <= 65507.

Lemma replies_carry c batch : exists rs, rs `sublist_of` batch /\ Forall2 (carries c) rs (replies c batch).
Proof.
  induction batch as [|p batch (rs & Hs & Hc)]; [by exists []|]. unfold replies. cbn. destruct (encode p) as [wire|] eqn:He.
  - exists (p :: rs). split; [by constructor|]. constructor; [|done]. destruct (encode_decodes _ _ He). by split_and!.
  - exists rs. split; [by constructor|done].
Qed.

Definition SInv (past : list event) (s : Association) : Prop :=
  match client s with
  | None => delivered s = [] /\ sent s = []
  | Some c =>
      fst c = fst (peer s) /\ (forall h, hint s = Some h -> h = c) /\
      delivered s `sublist_of` omap (from_client c) past /\
      exists rs, rs `sublist_of` (past ≫= answers) /\ Forall2 (carries c) rs (sent s)
  end.

Lemma receive_packet_spec pe expected source wire c p :
  receive_packet pe expected source wire = Some (c, p) -> c = source /\ fst c = fst pe /\ (forall h, expected = Some h -> h = c) /\ decode wire = Ok p.
Proof.
  unfold receive_packet. destruct (bool_decide (fst source = fst pe)) eqn:Hip; [|done]. apply bool_decide_eq_true in Hip. cbn [negb orb].
  destruct expected as [h|]; [destruct (bool_decide (h = source)) eqn:Hh; [|done]; apply bool_decide_eq_true in Hh|]; cbn [negb]; destruct (decode wire) as [q|]; [|done| |done]; intros [= <- <-]; split_and!; try done. by intros ? [= ->].
Qed.

Lemma from_client_datagram c wire room p : decode wire = Ok p -> from_client c (Datagram c wire room) = Some p.
Proof. intros Hd. unfold from_client. by rewrite bool_decide_eq_true_2, Hd by done. Qed.

Lemma step_sinv past s e : SInv past s -> SInv (past ++ [e]) (step s e).
Proof.
  intros HI.
  assert (Hmono : SInv (past ++ [e]) s).
  { unfold SInv in *. destruct (client s) as [c|]; [|done]. destruct HI as (H1 & H2 & H3 & rs & H4 & H5). split_and!; [done|done| |].
    - rewrite omap_app. by apply sublist_inserts_r.
    - exists rs. split; [|done]. rewrite bind_app. by apply sublist_inserts_r. }
  unfold step. destruct (ended s); [done|]. destruct e as [source wire room|batch|]; [| |exact Hmono].
  - unfold on_datagram. destruct (client s) as [c|] eqn:Hc.
    + destruct (receive_packet (peer s) (Some c) source wire) as [[c' p]|] eqn:Hr; [|done]. destruct room; [|done]. apply receive_packet_spec in Hr as (-> & Hip & Hh & Hd). specialize (Hh _ eq_refl). subst source.
      unfold SInv in *. cbn. rewrite Hc in *. destruct HI as (H1 & H2 & H3 & _). destruct Hmono as (_ & _ & _ & Hs). split_and!; [done|done| |done].
      rewrite omap_app. cbn [omap list_omap]. rewrite (from_client_datagram _ _ _ _ Hd). by apply sublist_app.
    + destruct (receive_packet (peer s) (hint s) source wire) as [[c' p]|] eqn:Hr; [|done]. apply receive_packet_spec in Hr as (-> & Hip & Hh & Hd).
      unfold SInv in HI |- *. cbn. rewrite Hc in HI. destruct HI as [-> ->]. split_and!; [done|done| |].
      * rewrite omap_app. cbn [omap list_omap app]. rewrite (from_client_datagram _ _ _ _ Hd). by apply sublist_inserts_l.
      * exists []. split; [apply sublist_nil_l|constructor].
  - unfold on_responses. destruct (client s) as [c|] eqn:Hc; [|done]. unfold SInv in *. cbn. rewrite Hc in *. destruct HI as (H1 & H2 & _ & rs & H4 & H5). destruct Hmono as (_ & _ & H3 & _). split_and!; [done|done|done|].
    destruct (replies_carry c batch) as (rs' & Hs & Hf). exists (rs ++ rs'). rewrite bind_app. cbn. rewrite app_nil_r. split; [by apply sublist_app|by apply Forall2_app].
Qed.

Lemma step_fixed s e : peer (step s e) = peer s /\ hint (step s e) = hint s.
Proof. unfold step, on_datagram, on_responses, deliver. repeat case_match; done. Qed.

Lemma run_sinv es past s : SInv past s -> SInv (past ++ es) (run s es) /\ peer (run s es) = peer s /\ hint (run s es) = hint s.
Proof.
  revert past s. induction es as [|e es IH]; intros past s HI; [by rewrite app_nil_r|]. change (run s (e :: es)) with (run (step s e) es). destruct (IH (past ++ [e]) (step s e)) as (H1 & H2 & H3); [by apply step_sinv|].
  rewrite <- app_assoc in H1. destruct (step_fixed s e). split_and!; [done|congruence|congruence].
Qed.

(** An association serves one client.  Whatever datagrams reach the server's socket, packets are handed on only once a client is pinned:
    its IP address is the TCP peer's and, if the request named a port, its port is that one.  What is handed on are packets decoded from that
    client's datagrams, in order, and every datagram sent goes to that client and decodes to one of the handler's responses, in order. *)
Theorem socks_association_pinned pe destination es :
  let s := run (open_association pe destination) es in
  match client s with
  | None => delivered s = [] /\ sent s = []
  | Some c =>
      fst c = fst pe /\ (forall a port, destination = AddrIp a port -> port <> 0 -> snd c = port) /\
      delivered s `sublist_of` omap (from_client c) es /\
      exists rs, rs `sublist_of` (es ≫= answers) /\ Forall2 (carries c) rs (sent s)
  end.
Proof.
  cbv zeta. destruct (run_sinv es [] (open_association pe destination)) as (HI & Hp & Hh); [by split|]. cbn [app] in HI. unfold SInv in HI.
  destruct (client (run (open_association pe destination) es)) as [c|]; [|done]. destruct HI as (H1 & H2 & H3 & H4). split_and!; [by rewrite H1, Hp| |done|done].
  intros a port -> Hport. rewrite Hh in H2. cbn in H2. destruct (port =? 0) eqn:Hz; [zify_bool; lia|]. by rewrite <- (H2 _ eq_refl).
Qed.

(** ** The client *)

Lemma outgoing_spec relay batch : exists ps, ps `sublist_of` (fst <$> batch) /\ Forall2 (fun p q => target q = relay /\ decode (payload q) = Ok p /\ len (payload q) <= 65507) ps (fst (outgoing relay batch)).
Proof.
  induction batch as [|[p o] batch (ps & Hs & Hf)]; [by exists []|]. cbn. destruct (encode p) as [wire|] eqn:He; [|exists ps; split; [by constructor|done]].
  destruct o; [|exists ps; split; [by constructor|done]|exists []; split; [apply sublist_nil_l|constructor]].
  destruct (outgoing relay batch) as [l go]. exists (p :: ps). split; [by constructor|]. destruct (encode_decodes _ _ He). constructor; [by split_and!|done].
Qed.

(** The client's relay loop keeps datagrams whole: what it sends goes to the relay and decodes to user packets in order; while the carrier has
    room, every packet that has an encoding is sent; and of what arrives it hands on exactly the packets that decode, as far as there is room. *)
Theorem socks_client_relays relay batch received :
  (exists ps, ps `sublist_of` (fst <$> batch) /\ Forall2 (fun p q => target q = relay /\ decode (payload q) = Ok p /\ len (payload q) <= 65507) ps (fst (outgoing relay batch))) /\
  (Forall (fun b => snd b = Accepted) batch -> outgoing relay batch = (omap (fun b => match encode (fst b) with Ok wire => Some (mkPacket relay wire) | Err _ => None end) batch, true)) /\
  (Forall (fun b => snd b = true) received -> forall ps, Forall2 (fun p r => encode p = Ok (payload (fst r))) ps received -> incoming received = ps).
Proof.
  split_and!; [apply outgoing_spec| |].
  - induction 1 as [|[p o] batch Ho _ IH]; [done|]. cbn in *. subst o. destruct (encode p); rewrite IH; done.
  - intros Hroom ps. revert Hroom. intros Hroom Hps. revert Hroom. induction Hps as [|p [r room] ps l Hp _ IH]; [done|]. intros [Hr Hroom]%Forall_cons. cbn in *. subst room.
    unfold incoming. cbn. rewrite (proj1 (encode_decodes _ _ Hp)). f_equal. by apply IH.
Qed.

End socks.

(** ** A concrete header: RFC 1928's *)

#[export] Instance rfc_header : UdpHeader := {|
  new_udp_header a := b ← Uot.put_address a; Some (0 :: 0 :: 0 :: b);
  parse_udp_request wire :=
    match wire with
    | _ :: _ :: fragment :: family :: body => '(a, rest) ← Uot.get_address family body; Some (fragment, a, rest)
    | _ => None
    end;
|}.

#[export] Instance rfc_header_laws : UdpHeaderLaws.
Proof.
  constructor.
  - intros a h. cbn. destruct (Uot.put_address a) as [b|] eqn:Hb; [|done]. intros [= <-]. exists b. split; [done|]. destruct (Uot.put_get_address _ _ Hb) as (f & body & -> & _). done.
  - intros a h payload. cbn. destruct (Uot.put_address a) as [b|] eqn:Hb; [|done]. intros [= <-]. destruct (Uot.put_get_address _ _ Hb) as (f & body & -> & _ & Hr). cbn. by rewrite Hr.
Qed.

Example socks_peer : SocketAddr := (Packet.Ipv4 167772161, 4000).
Example socks_packet : Packet := mkPacket (Domain [97; 46; 98] 53) [1; 2; 3].
Example socks_wire : bytes := match encode socks_packet with Ok w => w | Err _ => [] end.

(** A stranger's datagram and a fragment are passed over; then the client is pinned and answered. *)
Example socks_events : list event :=
  [Datagram (Packet.Ipv4 1, 9) socks_wire true; Datagram (Packet.Ipv4 167772161, 5000) (0 :: 0 :: 1 :: drop 3 socks_wire) true;
   Datagram (Packet.Ipv4 167772161, 5000) socks_wire true; Datagram (Packet.Ipv4 167772161, 6000) socks_wire true; Responses [socks_packet]].

Lemma socks_association_pinned_witness :
  let s := run (open_association socks_peer (AddrIp (Packet.Ipv4 0) 0)) socks_events in
  client s = Some (Packet.Ipv4 167772161, 5000) /\ delivered s = [socks_packet] /\ sent s = [((Packet.Ipv4 167772161, 5000), socks_wire)] /\
  delivered s `sublist_of` omap (from_client (Packet.Ipv4 167772161, 5000)) socks_events.
Proof. cbv zeta. split_and!; [reflexivity..|]. exact (proj1 (proj2 (proj2 (socks_association_pinned socks_peer (AddrIp (Packet.Ipv4 0) 0) socks_events)))). Defined.

Lemma socks_client_relays_witness :
  outgoing (Ip (Packet.Ipv4 7) 1080) [(socks_packet, Accepted)] = ([mkPacket (Ip (Packet.Ipv4 7) 1080) socks_wire], true) /\
  incoming [(mkPacket (Ip (Packet.Ipv4 7) 1080) socks_wire, true)] = [socks_packet].
Proof.
  destruct (socks_client_relays (Ip (Packet.Ipv4 7) 1080) [(socks_packet, Accepted)] [(mkPacket (Ip (Packet.Ipv4 7) 1080) socks_wire, true)]) as (_ & H1 & H2). split.
  - rewrite H1 by (repeat constructor). reflexivity.
  - apply H2; repeat constructor.
Defined.

End Socks5.
