(* ===== verification/BlockPool.v ===== *)
(** * The pool of reusable blocks (crates/protocol/src/pool.rs)

    Blocks live in a store and are named by numbers, so that a block that is used again is the same block: a free block is named by
    one of the ten queues of the pool, a block in use by the lease that owns it or by the published views that keep the lease. *)

From S2P Require Import Prelude.

Module BlockPool.

Definition MIN_CLASS : Z := 8.
Definition CLASSES : nat := 10.
Definition CACHED_PER_CLASS : nat := 32.

(** A [Vec<u8>]: its bytes and its allocation. *)
Record Block := mkBlock { data : bytes; capacity : Z }.

(** [Lease], before and after it became the owner of published views. *)
Inductive usage := Leased | Published (length : Z) (views : nat).
Record Lease := mkLease { block : Z; class : nat; use : usage }.

Record Pool := mkPool { store : gmap Z Block; classes : list (list Z); leases : gmap Z Lease }.

Definition empty : Pool := mkPool ∅ (replicate CLASSES []) ∅.

(** [usize::next_power_of_two] and [trailing_zeros] *)
Definition next_power_of_two (n : Z) : Z := 2 ^ Z.log2_up n.
Definition trailing_zeros (n : Z) : Z := Z.log2 (Z.land n (- n)).

(** [Vec::resize] with zeros; a vector without room is moved to a larger allocation. *)
Definition resized (length : Z) (b : Block) : Block :=
  mkBlock (if len (data b) <? length then resize length 0 (data b) else ztake length (data b))
          (if capacity b <? length then length else capacity b).

(** [Pool::acquire].  [id] names the lease and [fresh] a new allocation; [None] is a failed assertion or index, or a name in use. *)
Definition acquire (id fresh length : Z) (p : Pool) : option Pool :=
  if negb ((0 <=? length) && (length <=? 131072)) then None else
  let capacity := next_power_of_two (Z.max length 256) in
  let index := Z.to_nat (trailing_zeros capacity - MIN_CLASS) in
  class ← classes p !! index;
  match leases p !! id with
  | Some _ => None
  | None =>
      match class with
      | b :: rest => Some (mkPool (alter (resized length) b (store p)) (<[index := rest]> (classes p)) (<[id := mkLease b index Leased]> (leases p)))
      | [] =>
          match store p !! fresh with
          | Some _ => None
          | None => Some (mkPool (<[fresh := resized length (mkBlock [] capacity)]> (store p)) (classes p) (<[id := mkLease fresh index Leased]> (leases p)))
          end
      end
  end.

(** [Lease::drop] *)
Definition release (id : Z) (p : Pool) : option Pool :=
  l ← leases p !! id;
  class' ← classes p !! class l;
  if decide (length class' < CACHED_PER_CLASS)%nat
  then Some (mkPool (store p) (<[class l := class' ++ [block l]]> (classes p)) (delete id (leases p)))
  else Some (mkPool (delete (block l) (store p)) (classes p) (delete id (leases p))).

(** Writing through [as_mut]. *)
Definition write (id at_ : Z) (b : bytes) (p : Pool) : option Pool :=
  l ← leases p !! id;
  match use l with
  | Leased =>
      x ← store p !! block l;
      if (0 <=? at_) && (at_ + len b <=? len (data x))
      then Some (mkPool (<[block l := mkBlock (overwrite at_ b (data x)) (capacity x)]> (store p)) (classes p) (leases p)) else None
  | Published _ _ => None
  end.

(** [Lease::freeze] *)
Definition freeze (id length : Z) (p : Pool) : option Pool :=
  l ← leases p !! id;
  match use l with
  | Leased =>
      x ← store p !! block l;
      if (0 <=? length) && (length <=? len (data x)) then Some (mkPool (store p) (classes p) (<[id := mkLease (block l) (class l) (Published length 1)]> (leases p))) else None
  | Published _ _ => None
  end.

(** What a view of [Bytes] shows. *)
Definition view (id : Z) (p : Pool) : option bytes :=
  l ← leases p !! id;
  match use l with Published n (S _) => x ← store p !! block l; Some (ztake n (data x)) | _ => None end.

(** [Pool::copy], by [fill] and [encode]. *)
Definition copy (id fresh : Z) (b : bytes) (p : Pool) : option Pool :=
  p ← acquire id fresh (len b) p;
  p ← write id 0 b p;
  freeze id (len b) p.

(** [Lease::publish]: a short message is copied to a small block, and the large one is dropped. The first result names the lease of the view it returns. *)
Definition publish (id copy_id fresh length : Z) (p : Pool) : option (Z * Pool) :=
  l ← leases p !! id;
  x ← store p !! block l;
  match use l with
  | Leased =>
      if length <? len (data x) / 4 then p ← copy copy_id fresh (ztake length (data x)) p; p ← release id p; Some (copy_id, p)
      else p ← freeze id length p; Some (id, p)
  | Published _ _ => None
  end.

(** Cloning a view and dropping one; the last one drops the lease. *)
Definition clone_view (id : Z) (p : Pool) : option Pool :=
  l ← leases p !! id;
  match use l with
  | Published n (S k) => Some (mkPool (store p) (classes p) (<[id := mkLease (block l) (class l) (Published n (S (S k)))]> (leases p)))
  | _ => None
  end.

Definition drop_view (id : Z) (p : Pool) : option Pool :=
  l ← leases p !! id;
  match use l with
  | Published n (S (S k)) => Some (mkPool (store p) (classes p) (<[id := mkLease (block l) (class l) (Published n (S k))]> (leases p)))
  | Published _ 1 => release id p
  | _ => None
  end.

Definition drop_lease (id : Z) (p : Pool) : option Pool :=
  l ← leases p !! id;
  match use l with Leased => release id p | _ => None end.

(** [Pool::trim] *)
Definition trim (p : Pool) : Pool := mkPool (foldr delete (store p) (mjoin (classes p))) ((fun _ => []) <$> classes p) (leases p).

Inductive event :=
  | Acquire (id fresh length : Z) | Write (id at_ : Z) (b : bytes) | Freeze (id length : Z) | Publish (id copy_id fresh length : Z)
  | Copy (id fresh : Z) (b : bytes) | Clone (id : Z) | DropView (id : Z) | DropLease (id : Z) | Trim.

(** The pool and its users, who know only the views they were given: how many of each lease they hold. *)
Record World := mkWorld { pool : Pool; held : gmap Z nat }.

Definition holding (id : Z) (w : World) : nat := default O (held w !! id).

Definition step (w : World) (e : event) : option World :=
  let p := pool w in
  match e with
  | Acquire id fresh length => p ← acquire id fresh length p; Some (mkWorld p (held w))
  | Write id at_ b => p ← write id at_ b p; Some (mkWorld p (held w))
  | Freeze id length => p ← freeze id length p; Some (mkWorld p (<[id := 1%nat]> (held w)))
  | Publish id copy_id fresh length => '(v, p) ← publish id copy_id fresh length p; Some (mkWorld p (<[v := 1%nat]> (held w)))
  | Copy id fresh b => p ← copy id fresh b p; Some (mkWorld p (<[id := 1%nat]> (held w)))
  | Clone id => if decide (holding id w = O) then None else p ← clone_view id p; Some (mkWorld p (<[id := S (holding id w)]> (held w)))
  | DropView id => if decide (holding id w = O) then None else p ← drop_view id p; Some (mkWorld p (<[id := pred (holding id w)]> (held w)))
  | DropLease id => p ← drop_lease id p; Some (mkWorld p (held w))
  | Trim => Some (mkWorld (trim p) (held w))
  end.

Fixpoint run (w : World) (es : list event) : option World :=
  match es with [] => Some w | e :: es => w ← step w e; run w es end.

Definition idle : World := mkWorld empty ∅.

(** ** Sizes and classes *)

Definition class_size (i : nat) : Z := 2 ^ (MIN_CLASS + Z.of_nat i).

Lemma trailing_zeros_pow2 k : 0 <= k -> trailing_zeros (2 ^ k) = k.
Proof.
  intros Hk. unfold trailing_zeros. replace (Z.land (2 ^ k) (- 2 ^ k)) with (2 ^ k); [by apply Z.log2_pow2|].
  apply Z.bits_inj'. intros n Hn. rewrite Z.land_spec, Z.pow2_bits_eqb by lia. destruct (k =? n) eqn:E; [|done]. zify_bool. subst n. cbn.
  rewrite Z.bits_opp by lia. replace (Z.pred (2 ^ k)) with (Z.ones k) by (rewrite Z.ones_equiv; lia). by rewrite Z.ones_spec_high by lia.
Qed.

(** The class of a length the pool accepts: in range, and its blocks hold the length. *)
Lemma class_of_length n : n <= 131072 ->
  exists i, Z.to_nat (trailing_zeros (next_power_of_two (Z.max n 256)) - MIN_CLASS) = i /\ (i < CLASSES)%nat /\ next_power_of_two (Z.max n 256) = class_size i /\ n <= class_size i.
Proof.
  intros Hn. unfold next_power_of_two, class_size, MIN_CLASS, CLASSES. set (k := Z.log2_up (Z.max n 256)).
  assert (Hlo : 8 <= k) by (change 8 with (Z.log2_up 256); apply Z.log2_up_le_mono; lia).
  assert (Hhi : k <= 17) by (change 17 with (Z.log2_up 131072); apply Z.log2_up_le_mono; lia).
  rewrite trailing_zeros_pow2 by lia. exists (Z.to_nat (k - 8)). split; [done|]. split; [lia|]. replace (8 + Z.of_nat (Z.to_nat (k - 8))) with k by lia. split; [done|].
  pose proof (Z.log2_up_spec (Z.max n 256)). unfold k. lia.
Qed.

Lemma len_resized n b : 0 <= n -> len (data (resized n b)) = n.
Proof. intros Hn. unfold resized. cbn. destruct (len (data b) <? n) eqn:E; zify_bool; [rewrite len_resize|rewrite len_ztake]; pose proof (len_nonneg (data b)); lia. Qed.

(** ** Ownership *)

(** A block of class [i]: room for every length of the class. *)
Definition fits (i : nat) (x : Block) : Prop := class_size i <= capacity x /\ len (data x) <= class_size i.

Definition in_use (u : usage) (x : Block) : Prop := match u with Leased => True | Published n views => 0 <= n <= len (data x) /\ views <> O end.

Record Inv (p : Pool) : Prop := {
  i_length : length (classes p) = CLASSES;
  i_cached : forall i c, classes p !! i = Some c -> (length c <= CACHED_PER_CLASS)%nat /\ NoDup c;
  i_free : forall i c b, classes p !! i = Some c -> b ∈ c -> exists x, store p !! b = Some x /\ fits i x;
  i_classes : forall i j c d b, classes p !! i = Some c -> classes p !! j = Some d -> b ∈ c -> b ∈ d -> i = j;
  i_lease : forall id l, leases p !! id = Some l -> (class l < CLASSES)%nat /\ exists x, store p !! block l = Some x /\ fits (class l) x /\ in_use (use l) x;
  i_owner : forall id id' l l', leases p !! id = Some l -> leases p !! id' = Some l' -> block l = block l' -> id = id';
  i_apart : forall id l i c, leases p !! id = Some l -> classes p !! i = Some c -> block l ∉ c;
}.

Lemma empty_inv : Inv empty.
Proof.
  constructor; cbn [empty classes leases store].
  - done.
  - intros i c Hc. apply lookup_replicate in Hc as [-> _]. split; [cbn; lia|apply NoDup_nil_2].
  - intros i c b Hc. apply lookup_replicate in Hc as [-> _]. by intros ?%elem_of_nil.
  - intros i j c d b Hc _. apply lookup_replicate in Hc as [-> _]. by intros ?%elem_of_nil.
  - intros id l. by rewrite lookup_empty.
  - intros id id' l l'. by rewrite lookup_empty.
  - intros id l i c. by rewrite lookup_empty.
Qed.

(** Changing one lease that keeps its block, and blocks that keep their class. *)
Lemma relabel_inv p st id l u :
  Inv p -> leases p !! id = Some l ->
  (forall b x, store p !! b = Some x -> b <> block l -> st !! b = Some x) -> (exists x, st !! block l = Some x /\ fits (class l) x /\ in_use u x) ->
  Inv (mkPool st (classes p) (<[id := mkLease (block l) (class l) u]> (leases p))).
Proof.
  intros HI Hl Hst Hx. constructor; cbn [classes leases store]; try apply HI.
  - intros i c b Hc Hb. destruct (i_free _ HI _ _ _ Hc Hb) as (x & Hsx & Hf). exists x. split; [|done]. apply Hst; [done|]. intros ->. exact (i_apart _ HI _ _ _ _ Hl Hc Hb).
  - intros id' l'. destruct (decide (id' = id)) as [->|Hne].
    + rewrite lookup_insert_eq. intros [= <-]. split; [apply (i_lease _ HI _ _ Hl)|done].
    + rewrite lookup_insert_ne by done. intros Hl'. destruct (i_lease _ HI _ _ Hl') as (Hc & x & Hsx & Hf). split; [done|]. exists x. split; [|done]. apply Hst; [done|]. intros Hb. apply Hne. eapply HI; done.
  - assert (Hback : forall i k, <[id := mkLease (block l) (class l) u]> (leases p) !! i = Some k -> exists k', leases p !! i = Some k' /\ block k' = block k).
    { intros i k. destruct (decide (i = id)) as [->|]; [rewrite lookup_insert_eq; intros [= <-]; by exists l|rewrite lookup_insert_ne by done; intros ?; by exists k]. }
    intros i j k k' (k1 & H1 & <-)%Hback (k2 & H2 & <-)%Hback. by apply (i_owner _ HI).
  - intros id' l' i c. destruct (decide (id' = id)) as [->|]; [rewrite lookup_insert_eq; intros [= <-]; intros Hc; exact (i_apart _ HI _ _ _ _ Hl Hc)|rewrite lookup_insert_ne by done; apply HI].
Qed.

Lemma write_inv id at_ b p p' : Inv p -> write id at_ b p = Some p' -> Inv p'.
Proof.
  intros HI. unfold write. destruct (leases p !! id) as [l|] eqn:Hl; [|done]. cbn. destruct (use l) eqn:Hu; [|done]. destruct (store p !! block l) as [x|] eqn:Hx; [|done]. cbn.
  destruct (_ && _) eqn:Hb; [|done]. apply andb_true_iff in Hb as [? ?]. zify_bool. intros [= <-]. destruct (i_lease _ HI _ _ Hl) as (_ & x' & Hx' & [Hf1 Hf2] & _). assert (x' = x) as -> by congruence.
  replace (leases p) with (<[id := mkLease (block l) (class l) Leased]> (leases p)) by (apply insert_id; rewrite Hl; by destruct l; cbn in *; subst).
  apply relabel_inv; [done|done| |].
  - intros b' y Hy Hne. by rewrite lookup_insert_ne.
  - rewrite lookup_insert_eq. eexists. split; [done|]. split; [|done]. split; [done|]. cbn. by rewrite len_overwrite.
Qed.

Lemma freeze_inv id n p p' : Inv p -> freeze id n p = Some p' -> Inv p'.
Proof.
  intros HI. unfold freeze. destruct (leases p !! id) as [l|] eqn:Hl; [|done]. cbn. destruct (use l) eqn:Hu; [|done]. destruct (store p !! block l) as [x|] eqn:Hx; [|done]. cbn.
  destruct (_ && _) eqn:Hb; [|done]. apply andb_true_iff in Hb as [? ?]. zify_bool. intros [= <-]. destruct (i_lease _ HI _ _ Hl) as (_ & x' & Hx' & Hf & _). assert (x' = x) as -> by congruence.
  apply relabel_inv; [done|done|done|]. exists x. split; [done|]. split; [done|]. cbn. lia.
Qed.

Lemma recount_inv id l n v w p : Inv p -> leases p !! id = Some l -> use l = Published n v -> w <> O -> Inv (mkPool (store p) (classes p) (<[id := mkLease (block l) (class l) (Published n w)]> (leases p))).
Proof. intros HI Hl Hu Hw. destruct (i_lease _ HI _ _ Hl) as (_ & x & Hx & Hf & Hin). rewrite Hu in Hin. apply relabel_inv; [done|done|done|]. exists x. split; [done|]. split; [done|]. cbn in *. lia. Qed.

Lemma release_inv id p p' : Inv p -> release id p = Some p' -> Inv p'.
Proof.
  intros HI. unfold release. destruct (leases p !! id) as [l|] eqn:Hl; [|done]. cbn. destruct (classes p !! class l) as [c|] eqn:Hc; [|done]. cbn.
  destruct (i_lease _ HI _ _ Hl) as (_ & x & Hx & Hf & _). pose proof (lookup_lt_Some _ _ _ Hc) as Hlt.
  assert (Hout : forall id' l', delete id (leases p) !! id' = Some l' -> leases p !! id' = Some l' /\ block l' <> block l).
  { intros id' l' [Hne Hl']%lookup_delete_Some. split; [done|]. intros Hb. apply Hne. symmetry. eapply HI; done. }
  destruct (decide _) as [Hroom|Hfull]; intros [= <-]; constructor; cbn [classes leases store].
  - rewrite length_insert. apply HI.
  - intros i d [(<- & <- & _)|[Hne Hd]]%list_lookup_insert_Some; [|by apply (i_cached _ HI i)]. rewrite length_app. split; [cbn [length]; lia|].
    apply NoDup_app. split_and!; [apply (i_cached _ HI _ _ Hc)| |apply NoDup_singleton]. intros b Hb ->%list_elem_of_singleton. exact (i_apart _ HI _ _ _ _ Hl Hc Hb).
  - intros i d b [(<- & <- & _)|[Hne Hd]]%list_lookup_insert_Some Hb; [|by apply (i_free _ HI i d)]. apply elem_of_app in Hb as [Hb| ->%list_elem_of_singleton]; [by apply (i_free _ HI _ c)|by exists x].
  - intros i j d e b [(<- & <- & _)|[Hne Hd]]%list_lookup_insert_Some [(<- & <- & _)|[Hne' He]]%list_lookup_insert_Some Hb Hb'; [done| | |by apply (i_classes _ HI i j d e b)].
    + apply elem_of_app in Hb as [Hb| ->%list_elem_of_singleton]; [by apply (i_classes _ HI _ _ c e b)|]. exfalso. exact (i_apart _ HI _ _ _ _ Hl He Hb').
    + apply elem_of_app in Hb' as [Hb'| ->%list_elem_of_singleton]; [by apply (i_classes _ HI _ _ d c b)|]. exfalso. exact (i_apart _ HI _ _ _ _ Hl Hd Hb).
  - intros id' l' [Hl' _]%Hout. by apply (i_lease _ HI id').
  - intros i j k k' [Hk _]%Hout [Hk' _]%Hout. by apply (i_owner _ HI).
  - intros id' l' i d [Hl' Hb]%Hout [(<- & <- & _)|[Hne Hd]]%list_lookup_insert_Some; [|by apply (i_apart _ HI id' l' i)]. intros [Hm| ?%list_elem_of_singleton]%elem_of_app; [|done]. exact (i_apart _ HI _ _ _ _ Hl' Hc Hm).
  - apply HI.
  - apply HI.
  - intros i d b Hd Hb. destruct (i_free _ HI _ _ _ Hd Hb) as (y & Hy & Hfy). exists y. split; [|done]. rewrite lookup_delete_ne; [done|]. intros <-. exact (i_apart _ HI _ _ _ _ Hl Hd Hb).
  - apply HI.
  - intros id' l' [Hl' Hb]%Hout. destruct (i_lease _ HI _ _ Hl') as (Hcl & y & Hy & Hfy). split; [done|]. exists y. split; [|done]. by rewrite lookup_delete_ne.
  - intros i j k k' [Hk _]%Hout [Hk' _]%Hout. by apply (i_owner _ HI).
  - intros id' l' i d [Hl' _]%Hout. by apply (i_apart _ HI id').
Qed.

Lemma sublist_elem {A} (c d : list A) b : c `sublist_of` d -> b ∈ c -> b ∈ d.
Proof. induction 1 as [|? ? ? _ IH|? ? ? _ IH]; [done| |]; rewrite ?elem_of_cons; naive_solver. Qed.

(** A lease is added on a block nobody has. *)
Lemma lease_inv p st cs id b i x :
  Inv p -> leases p !! id = None -> length cs = CLASSES -> (i < CLASSES)%nat ->
  (forall j c, cs !! j = Some c -> exists c', classes p !! j = Some c' /\ c `sublist_of` c' /\ b ∉ c) ->
  (forall id' l', leases p !! id' = Some l' -> block l' <> b) ->
  st !! b = Some x -> fits i x -> (forall b' y, store p !! b' = Some y -> b' <> b -> st !! b' = Some y) ->
  Inv (mkPool st cs (<[id := mkLease b i Leased]> (leases p))).
Proof.
  intros HI Hid Hlen Hi Hcs Hnew Hx Hf Hst. constructor; cbn [classes leases store].
  - done.
  - intros j c Hc. destruct (Hcs _ _ Hc) as (c' & Hc' & Hsub & _). destruct (i_cached _ HI _ _ Hc'). split; [apply sublist_length in Hsub; lia|by eapply sublist_NoDup].
  - intros j c b' Hc Hb. destruct (Hcs _ _ Hc) as (c' & Hc' & Hsub & Hnb). destruct (i_free _ HI j c' b' Hc') as (y & Hy & Hfy); [by eapply sublist_elem|]. exists y. split; [|done]. apply Hst; [done|]. by intros ->.
  - intros j k c d b' Hc Hd Hb Hb'. destruct (Hcs _ _ Hc) as (c' & Hc' & Hsub & _), (Hcs _ _ Hd) as (d' & Hd' & Hsub' & _). apply (i_classes _ HI j k c' d' b'); [done|done| |]; by eapply sublist_elem.
  - intros id' l'. destruct (decide (id' = id)) as [->|Hne]; [rewrite lookup_insert_eq; intros [= <-]; cbn; split; [done|by exists x]|].
    rewrite lookup_insert_ne by done. intros Hl. destruct (i_lease _ HI _ _ Hl) as (Hc & y & Hy & Hfy). split; [done|]. exists y. split; [|done]. apply Hst; [done|]. by apply (Hnew id').
  - intros j k l l'. destruct (decide (j = id)) as [->|], (decide (k = id)) as [->|]; rewrite ?lookup_insert_eq, ?lookup_insert_ne by done; [done| | |apply HI].
    + intros [= <-] Hl' Hb. exfalso. by apply (Hnew _ _ Hl').
    + intros Hl' [= <-] Hb. exfalso. by apply (Hnew _ _ Hl').
  - intros id' l' j c. destruct (decide (id' = id)) as [->|]; [rewrite lookup_insert_eq; intros [= <-] Hc; by destruct (Hcs _ _ Hc) as (_ & _ & _ & Hnb)|].
    rewrite lookup_insert_ne by done. intros Hl Hc Hb. destruct (Hcs _ _ Hc) as (c' & Hc' & Hsub & _). apply (i_apart _ HI _ _ _ _ Hl Hc'). by eapply sublist_elem.
Qed.

(** The two ways of [acquire]. *)
Lemma acquire_cases id fresh n p p' :
  acquire id fresh n p = Some p' -> Inv p ->
  0 <= n /\ leases p !! id = None /\ exists i b x cs, leases p' = <[id := mkLease b i Leased]> (leases p) /\ classes p' = cs /\ store p' !! b = Some x /\ len (data x) = n /\ fits i x /\ (i < CLASSES)%nat /\
    length cs = CLASSES /\ (forall j c, cs !! j = Some c -> exists c', classes p !! j = Some c' /\ c `sublist_of` c' /\ b ∉ c) /\
    (forall id' l', leases p !! id' = Some l' -> block l' <> b) /\ (forall b' y, store p !! b' = Some y -> b' <> b -> store p' !! b' = Some y).
Proof.
  intros Ha HI. unfold acquire in Ha. destruct ((0 <=? n) && (n <=? 131072)) eqn:Hn; [|done]. apply andb_true_iff in Hn as [? ?]. zify_bool. cbn [negb] in Ha.
  destruct (class_of_length n) as (i & Hi & Hlt & Hsize & Hle); [done|]. rewrite Hi, Hsize in Ha. destruct (classes p !! i) as [c|] eqn:Hc; [|done]. cbn [mbind option_bind] in Ha.
  destruct (leases p !! id) eqn:Hid; [done|]. split; [done|]. split; [done|]. destruct c as [|b rest].
  - destruct (store p !! fresh) eqn:Hfr; [done|]. injection Ha as <-. exists i, fresh. eexists _, _. cbn [leases classes store]. rewrite lookup_insert_eq. split_and!; [done|done|done|by apply len_resized| |done|apply HI| | |].
    + unfold fits. rewrite len_resized by done. split; [|done]. unfold resized. cbn. case_bool; lia.
    + intros j d Hd. exists d. split_and!; [done|done|]. intros Hb. destruct (i_free _ HI _ _ _ Hd Hb) as (y & Hy & _). congruence.
    + intros id' l' Hl' Hb. destruct (i_lease _ HI _ _ Hl') as (_ & y & Hy & _). congruence.
    + intros b' y Hy Hne. by rewrite lookup_insert_ne.
  - injection Ha as <-. destruct (i_free _ HI i (b :: rest) b Hc ltac:(by left)) as (x & Hx & Hcap & Hlx). destruct (i_cached _ HI _ _ Hc) as [_ [Hnb _]%NoDup_cons].
    exists i, b. exists (resized n x). eexists. cbn [leases classes store]. rewrite lookup_alter_eq, Hx, length_insert. split_and!; [done|done|done|by apply len_resized| |done|apply HI| | |].
    + unfold fits. rewrite len_resized by done. split; [|done]. unfold resized. cbn. case_bool; lia.
    + intros j d [(<- & <- & _)|[Hne Hd]]%list_lookup_insert_Some; [exists (b :: rest); split_and!; [done|by constructor|done]|]. exists d. split_and!; [done|done|]. intros Hb. apply Hne. eapply (i_classes _ HI); [done|done|by left|done].
    + intros id' l' Hl' Hb. apply (i_apart _ HI id' l' i (b :: rest) Hl' Hc). rewrite Hb. by left.
    + intros b' y Hy Hne. by rewrite lookup_alter_ne.
Qed.

Lemma acquire_inv id fresh n p p' : Inv p -> acquire id fresh n p = Some p' -> Inv p'.
Proof.
  intros HI Ha. destruct (acquire_cases _ _ _ _ _ Ha HI) as (_ & Hid & i & b & x & cs & Hl & Hc & Hx & _ & Hf & Hi & Hlen & Hcs & Hnew & Hst).
  destruct p' as [st cs' ls]. cbn in *. subst. by eapply lease_inv.
Qed.

Lemma copy_inv id fresh b p p' : Inv p -> copy id fresh b p = Some p' -> Inv p'.
Proof.
  intros HI. unfold copy. destruct (acquire _ _ _ _) as [p1|] eqn:H1; [|done]. cbn. destruct (write _ _ _ _) as [p2|] eqn:H2; [|done]. cbn. intros H3.
  eapply freeze_inv; [|done]. eapply write_inv; [|done]. by eapply acquire_inv.
Qed.

Lemma delete_all_lookup (l : list Z) (m : gmap Z Block) b : b ∉ l -> foldr delete m l !! b = m !! b.
Proof. induction l as [|a l IH]; [done|]. intros [Hne Hb]%not_elem_of_cons. cbn. rewrite lookup_delete_ne by done. by apply IH. Qed.

Lemma trim_inv p : Inv p -> Inv (trim p).
Proof.
  intros HI. assert (Hnil : forall i c, ((fun _ : list Z => @nil Z) <$> classes p) !! i = Some c -> c = []) by (intros i c; rewrite list_lookup_fmap; destruct (classes p !! i); cbn; congruence).
  constructor; cbn [trim classes leases store].
  - rewrite length_fmap. apply HI.
  - intros i c ->%Hnil. split; [cbn; lia|apply NoDup_nil_2].
  - by intros i c b ->%Hnil ?%elem_of_nil.
  - by intros i j c d b ->%Hnil _ ?%elem_of_nil.
  - intros id l Hl. destruct (i_lease _ HI _ _ Hl) as (Hc & x & Hx & Hf). split; [done|]. exists x. split; [|done]. rewrite delete_all_lookup; [done|].
    intros (c & Hb & [j Hj]%list_elem_of_lookup)%list_elem_of_join. exact (i_apart _ HI _ _ _ _ Hl Hj Hb).
  - apply HI.
  - intros id l i c _ ->%Hnil. by intros ?%elem_of_nil.
Qed.

(** ** Views *)

Lemma view_Some id p c : view id p = Some c <-> exists l n k x, leases p !! id = Some l /\ use l = Published n (S k) /\ store p !! block l = Some x /\ c = ztake n (data x).
Proof.
  unfold view. split.
  - destruct (leases p !! id) as [l|]; [|done]. cbn. destruct (use l) as [|n [|k]] eqn:Hu; try done. destruct (store p !! block l) as [x|] eqn:Hx; [|done]. cbn. intros [= <-]. by exists l, n, k, x.
  - intros (l & n & k & x & -> & Hu & Hx & ->). cbn. by rewrite Hu, Hx.
Qed.

Definition keeps (p p' : Pool) : Prop := forall id c, view id p = Some c -> view id p' = Some c.

(** Other leases and their blocks are as before. *)
Lemma keeps_other p p' id b :
  (forall id' l', id' <> id -> leases p !! id' = Some l' -> leases p' !! id' = Some l' /\ block l' <> b) ->
  (forall b' y, b' <> b -> store p !! b' = Some y -> store p' !! b' = Some y) ->
  forall id' c, id' <> id -> view id' p = Some c -> view id' p' = Some c.
Proof. intros Hl Hs id' c Hne (l & n & k & x & H1 & H2 & H3 & ->)%view_Some. destruct (Hl _ _ Hne H1) as [? Hb]. apply view_Some. exists l, n, k, x. split_and!; [done|done|by apply Hs|done]. Qed.

Lemma acquire_keeps id fresh n p p' : Inv p -> acquire id fresh n p = Some p' -> keeps p p'.
Proof.
  intros HI Ha. destruct (acquire_cases _ _ _ _ _ Ha HI) as (_ & Hid & i & b & x & cs & Hl & _ & _ & _ & _ & _ & _ & _ & Hnew & Hst). intros id' c Hv.
  assert (id' <> id) by (intros ->; unfold view in Hv; rewrite Hid in Hv; done). apply (keeps_other p p' id b); [|by intros b' y Hne Hy; apply Hst|done|done].
  intros j l' Hne Hl'. rewrite Hl, lookup_insert_ne by done. split; [done|]. by apply (Hnew j).
Qed.

Lemma write_keeps id at_ b p p' : Inv p -> write id at_ b p = Some p' -> keeps p p'.
Proof.
  intros HI. unfold write. destruct (leases p !! id) as [l|] eqn:Hl; [|done]. cbn. destruct (use l) eqn:Hu; [|done]. destruct (store p !! block l) as [x|] eqn:Hx; [|done]. cbn. destruct (_ && _); [|done]. intros [= <-] id' c Hv.
  assert (id' <> id) by (intros ->; unfold view in Hv; rewrite Hl in Hv; cbn in Hv; by rewrite Hu in Hv). eapply (keeps_other p _ id (block l)); [| |done|done]; cbn.
  - intros j l' Hne Hl'. split; [done|]. intros Hb. apply Hne. by apply (i_owner _ HI j id l' l).
  - intros b' y Hne Hy. by rewrite lookup_insert_ne.
Qed.

(** A change of one lease alone keeps the others' views. *)
Lemma relabel_keeps p id l id' c : id' <> id -> view id' p = Some c -> view id' (mkPool (store p) (classes p) (<[id := l]> (leases p))) = Some c.
Proof. intros Hne Hv. unfold view in *. cbn. by rewrite lookup_insert_ne. Qed.

Lemma freeze_spec id n p p' : freeze id n p = Some p' -> keeps p p' /\ exists l x, leases p !! id = Some l /\ store p !! block l = Some x /\ view id p' = Some (ztake n (data x)).
Proof.
  unfold freeze. destruct (leases p !! id) as [l|] eqn:Hl; [|done]. cbn. destruct (use l) eqn:Hu; [|done]. destruct (store p !! block l) as [x|] eqn:Hx; [|done]. cbn. destruct (_ && _); [|done]. intros [= <-]. split.
  - intros id' c Hv. apply relabel_keeps; [|done]. intros ->. unfold view in Hv. rewrite Hl in Hv. cbn in Hv. by rewrite Hu in Hv.
  - exists l, x. split_and!; [done|done|]. unfold view. cbn. rewrite lookup_insert_eq. cbn. by rewrite Hx.
Qed.

Lemma release_keeps id p p' : Inv p -> release id p = Some p' -> leases p' !! id = None /\ forall id' c, id' <> id -> view id' p = Some c -> view id' p' = Some c.
Proof.
  intros HI. unfold release. destruct (leases p !! id) as [l|] eqn:Hl; [|done]. cbn. destruct (classes p !! class l) as [cl|]; [|done]. cbn.
  assert (Hother : forall id' l', id' <> id -> leases p !! id' = Some l' -> delete id (leases p) !! id' = Some l' /\ block l' <> block l).
  { intros id' l' Hne Hl'. rewrite lookup_delete_ne by done. split; [done|]. intros Hb. apply Hne. by apply (i_owner _ HI id' id l' l). }
  destruct (decide _); intros [= <-]; (split; [apply lookup_delete_eq|]); (eapply keeps_other; [exact Hother|]); cbn; [done|]. intros b' y Hne Hy. by rewrite lookup_delete_ne.
Qed.

(** [copy] shows exactly the bytes, whatever the block held before. *)
Lemma copy_spec id fresh b p p' : Inv p -> copy id fresh b p = Some p' -> keeps p p' /\ view id p' = Some b.
Proof.
  intros HI. unfold copy. destruct (acquire _ _ _ _) as [p1|] eqn:H1; [|done]. cbn. destruct (write _ _ _ _) as [p2|] eqn:H2; [|done]. cbn. intros H3.
  pose proof (acquire_inv _ _ _ _ _ HI H1) as HI1. destruct (freeze_spec _ _ _ _ H3) as (Hk3 & l & x & Hl & Hx & Hv).
  split; [intros j c Hc; apply Hk3; exact (write_keeps _ _ _ _ _ HI1 H2 j c (acquire_keeps _ _ _ _ _ HI H1 j c Hc))|]. rewrite Hv. f_equal.
  destruct (acquire_cases _ _ _ _ _ H1 HI) as (_ & _ & i & k & y & cs & Hl1 & _ & Hy & Hlen & _). unfold write in H2. rewrite Hl1, lookup_insert_eq in H2. cbn in H2. rewrite Hy in H2. cbn in H2. rewrite Hlen, Z.leb_refl in H2. injection H2 as <-. cbn in Hl, Hx.
  rewrite ?Hl1, lookup_insert_eq in Hl. injection Hl as <-. cbn in Hx. rewrite lookup_insert_eq in Hx. injection Hx as <-. cbn. unfold overwrite. change (ztake 0 (data y)) with (@nil Z). cbn. by rewrite ztake_app_exact.
Qed.

Lemma publish_cases id copy_id fresh n p v p' : publish id copy_id fresh n p = Some (v, p') ->
  (exists q b l, leases p !! id = Some l /\ use l = Leased /\ copy copy_id fresh b p = Some q /\ release id q = Some p' /\ v = copy_id) \/ (freeze id n p = Some p' /\ v = id).
Proof.
  unfold publish. destruct (leases p !! id) as [l|] eqn:Hl; [|done]. cbn. destruct (store p !! block l) as [x|]; [|done]. cbn. destruct (use l) eqn:Hu; [|done]. destruct (_ <? _).
  - destruct (copy _ _ _ _) as [q|] eqn:Hq; [|done]. cbn. destruct (release id q) as [q'|] eqn:Hr; [|done]. cbn. intros [= <- <-]. left. by exists q, (ztake n (data x)), l.
  - destruct (freeze _ _ _) as [q|]; [|done]. cbn. intros [= <- <-]. by right.
Qed.

(** ** Users

    The count of a lease's views is the number its users hold. *)
Definition views (id : Z) (p : Pool) : nat := match leases p !! id with Some l => match use l with Published _ k => k | Leased => O end | None => O end.

Definition agree (p : Pool) (h : Z -> nat) : Prop := forall id, h id = views id p.

Lemma views_insert p st cs id l id' :
  views id' (mkPool st cs (<[id := l]> (leases p))) = if decide (id' = id) then match use l with Published _ k => k | Leased => O end else views id' p.
Proof. unfold views. cbn. destruct (decide (id' = id)) as [->|]; [by rewrite lookup_insert_eq|by rewrite lookup_insert_ne]. Qed.

Lemma views_delete p st cs id id' : views id' (mkPool st cs (delete id (leases p))) = if decide (id' = id) then O else views id' p.
Proof. unfold views. cbn. destruct (decide (id' = id)) as [->|]; [by rewrite lookup_delete_eq|by rewrite lookup_delete_ne]. Qed.

Lemma views_leases p p' id : leases p' = leases p -> views id p' = views id p.
Proof. intros H. unfold views. by rewrite H. Qed.

Lemma acquire_views id fresh n p p' id' : Inv p -> acquire id fresh n p = Some p' -> views id' p' = views id' p.
Proof.
  intros HI Ha. destruct (acquire_cases _ _ _ _ _ Ha HI) as (_ & Hid & i & b & x & cs & Hl & _). unfold views. rewrite Hl. destruct (decide (id' = id)) as [->|]; [by rewrite lookup_insert_eq, Hid|by rewrite lookup_insert_ne].
Qed.

Lemma write_views id at_ b p p' id' : write id at_ b p = Some p' -> views id' p' = views id' p.
Proof. unfold write. destruct (leases p !! id) as [l|]; [|done]. cbn. destruct (use l); [|done]. destruct (store p !! block l); [|done]. cbn. destruct (_ && _); [|done]. by intros [= <-]. Qed.

Lemma freeze_views id n p p' id' : freeze id n p = Some p' -> views id p = O /\ views id' p' = if decide (id' = id) then 1%nat else views id' p.
Proof.
  unfold freeze. destruct (leases p !! id) as [l|] eqn:Hl; [|done]. cbn. destruct (use l) eqn:Hu; [|done]. destruct (store p !! block l); [|done]. cbn. destruct (_ && _); [|done]. intros [= <-].
  split; [unfold views; by rewrite Hl, Hu|]. by rewrite views_insert.
Qed.

Lemma copy_views id fresh b p p' id' : Inv p -> copy id fresh b p = Some p' -> views id' p' = if decide (id' = id) then 1%nat else views id' p.
Proof.
  intros HI. unfold copy. destruct (acquire _ _ _ _) as [p1|] eqn:H1; [|done]. cbn. destruct (write _ _ _ _) as [p2|] eqn:H2; [|done]. cbn. intros H3.
  rewrite (proj2 (freeze_views _ _ _ _ id' H3)). destruct (decide _); [done|]. by rewrite (write_views _ _ _ _ _ _ H2), (acquire_views _ _ _ _ _ _ HI H1).
Qed.

Lemma release_views id p p' id' : release id p = Some p' -> views id' p' = if decide (id' = id) then O else views id' p.
Proof. unfold release. destruct (leases p !! id) as [l|]; [|done]. cbn. destruct (classes p !! class l); [|done]. cbn. destruct (decide (_ < _)%nat); intros [= <-]; apply views_delete. Qed.

Lemma copy_fresh id fresh b p p' : Inv p -> copy id fresh b p = Some p' -> leases p !! id = None.
Proof. intros HI. unfold copy. destruct (acquire _ _ _ _) as [p1|] eqn:H1; [|done]. by destruct (acquire_cases _ _ _ _ _ H1 HI) as (_ & ? & _). Qed.

Definition counted (w : World) : Prop := Inv (pool w) /\ agree (pool w) (fun id => holding id w).

Lemma holding_insert id n p m id' : holding id' (mkWorld p (<[id := n]> m)) = if decide (id' = id) then n else default O (m !! id').
Proof. unfold holding. cbn. destruct (decide (id' = id)) as [->|]; [by rewrite lookup_insert_eq|by rewrite lookup_insert_ne]. Qed.

Lemma counted_idle : counted idle.
Proof. split; [apply empty_inv|]. intros id. done. Qed.

Lemma counted_step w e w' : counted w -> step w e = Some w' -> counted w'.
Proof.
  intros [HI Hag]. destruct w as [p h]. cbn [pool] in *. unfold agree in Hag. cbn beta in Hag. destruct e; cbn [step pool].
  - destruct (acquire _ _ _ _) as [q|] eqn:Hq; [|done]. intros [= <-]. split; [by eapply acquire_inv|]. intros id'. cbn. rewrite (acquire_views _ _ _ _ _ _ HI Hq). apply Hag.
  - destruct (write _ _ _ _) as [q|] eqn:Hq; [|done]. intros [= <-]. split; [by eapply write_inv|]. intros id'. cbn. rewrite (write_views _ _ _ _ _ _ Hq). apply Hag.
  - destruct (freeze _ _ _) as [q|] eqn:Hq; [|done]. intros [= <-]. split; [by eapply freeze_inv|]. intros id'. cbn beta. rewrite holding_insert. cbn. rewrite (proj2 (freeze_views _ _ _ _ id' Hq)). destruct (decide _); [done|]. apply Hag.
  - destruct (publish _ _ _ _ _) as [[v q]|] eqn:Hq; [|done]. intros [= <-]. apply publish_cases in Hq as [(q1 & b & l & Hl & Hu & Hc & Hr & ->)|[Hf ->]].
    + split; [eapply release_inv; [by eapply copy_inv|done]|]. intros id'. cbn beta. rewrite holding_insert. cbn. rewrite (release_views _ _ _ _ Hr), (copy_views _ _ _ _ _ _ HI Hc).
      pose proof (copy_fresh _ _ _ _ _ HI Hc) as Hn. destruct (decide (id' = copy_id)) as [->|]; [destruct (decide (copy_id = id)) as [->|]; [congruence|done]|].
      destruct (decide (id' = id)) as [->|]; [|apply Hag]. specialize (Hag id). unfold views in Hag. rewrite Hl, Hu in Hag. done.
    + split; [by eapply freeze_inv|]. intros id'. cbn beta. rewrite holding_insert. cbn. rewrite (proj2 (freeze_views _ _ _ _ id' Hf)). destruct (decide _); [done|]. apply Hag.
  - destruct (copy _ _ _ _) as [q|] eqn:Hq; [|done]. intros [= <-]. split; [by eapply copy_inv|]. intros id'. cbn beta. rewrite holding_insert. cbn. rewrite (copy_views _ _ _ _ _ _ HI Hq). destruct (decide _); [done|]. apply Hag.
  - destruct (decide _) as [|Hh]; [done|]. destruct (clone_view _ _) as [q|] eqn:Hq; [|done]. intros [= <-]. rewrite Hag in *. unfold clone_view in Hq. unfold views in Hh |- *. destruct (leases p !! id) as [l|] eqn:Hl; [|done]. cbn in Hq.
    destruct (use l) as [|n [|k]] eqn:Hu; try done. injection Hq as <-. split; [by eapply recount_inv|]. intros id'. cbn beta. rewrite holding_insert. cbn. rewrite views_insert. destruct (decide _); [done|]. apply Hag.
  - destruct (decide _) as [|Hh]; [done|]. destruct (drop_view _ _) as [q|] eqn:Hq; [|done]. intros [= <-]. rewrite Hag in *. unfold drop_view in Hq. unfold views in Hh |- *. destruct (leases p !! id) as [l|] eqn:Hl; [|done]. cbn in Hq.
    destruct (use l) as [|n [|[|k]]] eqn:Hu; try done.
    + split; [by eapply release_inv|]. intros id'. cbn beta. rewrite holding_insert. cbn. rewrite (release_views _ _ _ _ Hq). destruct (decide _); [done|]. apply Hag.
    + injection Hq as <-. split; [by eapply recount_inv|]. intros id'. cbn beta. rewrite holding_insert. cbn. rewrite views_insert. destruct (decide _); [done|]. apply Hag.
  - destruct (drop_lease _ _) as [q|] eqn:Hq; [|done]. intros [= <-]. unfold drop_lease in Hq. destruct (leases p !! id) as [l|] eqn:Hl; [|done]. cbn in Hq. destruct (use l) eqn:Hu; [|done].
    split; [by eapply release_inv|]. intros id'. cbn. rewrite (release_views _ _ _ _ Hq). destruct (decide _) as [->|]; [|apply Hag]. specialize (Hag id). unfold views in Hag. rewrite Hl, Hu in Hag. done.
  - intros [= <-]. split; [by apply trim_inv|]. intros id'. apply Hag.
Qed.

Lemma counted_run es w w' : counted w -> run w es = Some w' -> counted w'.
Proof. revert w. induction es as [|e es IH]; intros w HI; cbn; [by intros [= <-]|]. destruct (step w e) as [q|] eqn:Hq; [|done]. cbn. apply IH. by eapply counted_step. Qed.

(** A lease's view goes on as it was, or its last view was dropped. *)
Lemma step_view w e w' id c : Inv (pool w) -> step w e = Some w' -> view id (pool w) = Some c -> view id (pool w') = Some c \/ leases (pool w') !! id = None.
Proof.
  intros HI He Hv. destruct w as [p h]. cbn [pool] in *.
  assert (Hrel : forall q i p', Inv q -> view id q = Some c -> release i q = Some p' -> view id p' = Some c \/ leases p' !! id = None).
  { intros q i p' Hq Hvq [Hn Hk]%release_keeps; [|done]. destruct (decide (id = i)) as [->|]; [by right|left; by apply Hk]. }
  assert (Hre : forall i l u, leases p !! i = Some l -> (forall n k, use l = Published n (S k) -> exists k', u = Published n (S k')) ->
            view id (mkPool (store p) (classes p) (<[i := mkLease (block l) (class l) u]> (leases p))) = Some c).
  { intros i l u Hl Hu. destruct (decide (id = i)) as [->|]; [|by apply relabel_keeps]. apply view_Some in Hv as (l' & n & k & x & Hl' & Hu' & Hx & ->). assert (l' = l) as -> by congruence.
    destruct (Hu _ _ Hu') as [k' ->]. apply view_Some. cbn. rewrite lookup_insert_eq. by exists (mkLease (block l) (class l) (Published n (S k'))), n, k', x. }
  destruct e; cbn [step pool] in He.
  - destruct (acquire _ _ _ _) as [q|] eqn:Hq; [|done]. injection He as <-. left. by apply (acquire_keeps _ _ _ _ _ HI Hq).
  - destruct (write _ _ _ _) as [q|] eqn:Hq; [|done]. injection He as <-. left. by apply (write_keeps _ _ _ _ _ HI Hq).
  - destruct (freeze _ _ _) as [q|] eqn:Hq; [|done]. injection He as <-. left. by apply (proj1 (freeze_spec _ _ _ _ Hq)).
  - destruct (publish _ _ _ _ _) as [[v q]|] eqn:Hq; [|done]. injection He as <-. apply publish_cases in Hq as [(q1 & b & l & _ & _ & Hc & Hr & _)|[Hf _]]; [|left; by apply (proj1 (freeze_spec _ _ _ _ Hf))].
    eapply Hrel; [by eapply copy_inv|by apply (proj1 (copy_spec _ _ _ _ _ HI Hc))|done].
  - destruct (copy _ _ _ _) as [q|] eqn:Hq; [|done]. injection He as <-. left. by apply (proj1 (copy_spec _ _ _ _ _ HI Hq)).
  - destruct (decide _) as [|_]; [done|]. destruct (clone_view _ _) as [q|] eqn:Hq; [|done]. injection He as <-. unfold clone_view in Hq. destruct (leases p !! _) as [l|] eqn:Hl; [|done]. cbn in Hq. destruct (use l) as [|n [|k]] eqn:Hu; try done. injection Hq as <-.
    left. apply Hre; [done|]. intros n' k' Hu'. rewrite Hu in Hu'. injection Hu' as -> _. by eexists.
  - destruct (decide _) as [|_]; [done|]. destruct (drop_view _ _) as [q|] eqn:Hq; [|done]. injection He as <-. unfold drop_view in Hq. destruct (leases p !! _) as [l|] eqn:Hl; [|done]. cbn in Hq. destruct (use l) as [|n [|[|k]]] eqn:Hu; try done; [by eapply Hrel|].
    injection Hq as <-. left. apply Hre; [done|]. intros n' k' Hu'. rewrite Hu in Hu'. injection Hu' as -> _. by eexists.
  - destruct (drop_lease _ _) as [q|] eqn:Hq; [|done]. injection He as <-. unfold drop_lease in Hq. destruct (leases p !! _) as [l|]; [|done]. cbn in Hq. destruct (use l); [by eapply Hrel|done].
  - injection He as <-. left. apply view_Some in Hv as (l & n & k & x & Hl & Hu & Hx & ->). apply view_Some. exists l, n, k, x. split_and!; [done|done| |done]. cbn. rewrite delete_all_lookup; [done|].
    intros (d & Hb & [j Hj]%list_elem_of_lookup)%list_elem_of_join. exact (i_apart _ HI _ _ _ _ Hl Hj Hb).
Qed.

(** A held view shows the bytes of a block that is not free. *)
Lemma held_shown w id : counted w -> holding id w <> O ->
  exists l c, leases (pool w) !! id = Some l /\ view id (pool w) = Some c /\ forall i d, classes (pool w) !! i = Some d -> block l ∉ d.
Proof.
  intros [HI Hag] Hh. specialize (Hag id). cbn beta in Hag. rewrite Hag in Hh. unfold views in Hh. destruct (leases (pool w) !! id) as [l|] eqn:Hl; [|done].
  destruct (use l) as [|n [|k]] eqn:Hu; try done. destruct (i_lease _ HI _ _ Hl) as (_ & x & Hx & _). exists l, (ztake n (data x)). split; [done|]. split; [apply view_Some; by exists l, n, k, x|].
  intros i d Hd. by apply (i_apart _ HI id l i).
Qed.

Lemma held_dropped w id : counted w -> holding id w <> O -> is_Some (step w (DropView id)) /\ is_Some (step w (Clone id)) /\ (holding id w = 1%nat -> forall w', step w (DropView id) = Some w' -> leases (pool w') !! id = None).
Proof.
  intros [HI Hag] Hh. specialize (Hag id). cbn beta in Hag. cbn [step]. destruct (decide _) as [|_]; [done|]. rewrite Hag in *. unfold views in *. unfold drop_view, clone_view. destruct (leases (pool w) !! id) as [l|] eqn:Hl; [|done].
  destruct (use l) as [|n [|[|k]]] eqn:Hu; try done; cbn; rewrite Hu; [|done].
  destruct (i_lease _ HI _ _ Hl) as (Hc & _). rewrite <- (i_length _ HI) in Hc. destruct (lookup_lt_is_Some_2 _ _ Hc) as [d Hd].
  unfold release. rewrite Hl. cbn. rewrite Hd. cbn. split_and!; [by destruct (decide _)|done|]. intros _ w'. destruct (decide _); intros [= <-]; cbn; apply lookup_delete_eq.
Qed.

(** C33. Storage is reused only after its last view. Whatever is acquired, written, copied, published, cloned, dropped or trimmed: as long as users hold a view of a lease it shows
    the bytes it showed before, and its block is not free for reuse; cloning or dropping a view that is held succeeds; and dropping the last one ends the lease. *)
Theorem pool_views_stable es w e w' id :
  run idle es = Some w -> step w e = Some w' -> holding id w <> O ->
  (holding id w' <> O -> exists l c, leases (pool w') !! id = Some l /\ view id (pool w) = Some c /\ view id (pool w') = Some c /\
     forall i d, classes (pool w') !! i = Some d -> block l ∉ d) /\
  is_Some (step w (Clone id)) /\ is_Some (step w (DropView id)) /\
  (holding id w = 1%nat -> forall w'', step w (DropView id) = Some w'' -> leases (pool w'') !! id = None).
Proof.
  intros Hw%(counted_run es _ _ counted_idle) He Hh. destruct (held_dropped w id Hw Hh) as (H1 & H2 & H3). split_and!; [|done|done|done]. intros Hh'.
  destruct (held_shown w id Hw Hh) as (_ & c & _ & Hc & _). destruct (held_shown w' id (counted_step _ _ _ Hw He) Hh') as (l & c' & Hl & Hc' & Hfree). exists l, c. split_and!; [done|done| |done].
  destruct (step_view w e w' id c (proj1 Hw) He Hc) as [|Hn]; [done|]. unfold view in Hc'. by rewrite Hn in Hc'.
Qed.

(** Copies are exact and the cache is bounded.  Any bytes up to a maximum frame can be copied into the pool, the view then shows exactly them, and
    every class keeps at most thirty-two free blocks, each with room for the class, so that no reuse reallocates. *)
Theorem pool_copy_exact es w id fresh b :
  run idle es = Some w -> let p := pool w in len b <= 131072 -> leases p !! id = None -> store p !! fresh = None ->
  (exists p', copy id fresh b p = Some p' /\ view id p' = Some b) /\
  (forall i c k, classes p !! i = Some c -> k ∈ c -> (length c <= CACHED_PER_CLASS)%nat /\ exists x, store p !! k = Some x /\ class_size i <= capacity x).
Proof.
  intros [HI _]%(counted_run es _ _ counted_idle) p. change (pool w) with p in HI. clearbody p. intros Hb Hid Hfr. split.
  - assert (is_Some (acquire id fresh (len b) p)) as [p1 H1].
    { unfold acquire. rewrite (proj2 (andb_true_iff _ _)) by (split; apply Z.leb_le; [apply len_nonneg|done]). cbn [negb]. destruct (class_of_length (len b) Hb) as (i & -> & Hlt & _). rewrite <- (i_length _ HI) in Hlt.
      destruct (lookup_lt_is_Some_2 _ _ Hlt) as [c ->]. cbn. rewrite Hid. destruct c; [rewrite Hfr|]; done. }
    assert (is_Some (copy id fresh b p)) as [p' Hc].
    { unfold copy. rewrite H1. cbn. destruct (acquire_cases _ _ _ _ _ H1 HI) as (_ & _ & i & k & y & cs & Hl1 & _ & Hy & Hlen & _). unfold write. rewrite Hl1, lookup_insert_eq. cbn. rewrite Hy. cbn. rewrite Hlen, Z.leb_refl. cbn.
      unfold freeze. cbn. rewrite ?Hl1, lookup_insert_eq. cbn. rewrite lookup_insert_eq. cbn. pose proof (len_nonneg b). rewrite len_overwrite by lia. rewrite Hlen, Z.leb_refl, (proj2 (Z.leb_le _ _)) by done. done. }
    exists p'. split; [done|]. by destruct (copy_spec _ _ _ _ _ HI Hc).
  - intros i c k Hc Hk. split; [by apply (i_cached _ HI i)|]. destruct (i_free _ HI _ _ _ Hc Hk) as (x & Hx & Hf & _). by exists x.
Qed.

(** ** Examples *)

(** A view is cloned; dropping one of the two keeps the block out of the cache, dropping both lets the next copy have it. *)
Example pool_history : list event := [Copy 1 100 [7; 7; 7]; Clone 1; DropView 1].
Lemma pool_views_stable_witness : exists w w', run idle pool_history = Some w /\ step w (Copy 2 101 [9]) = Some w' /\ view 1 (pool w') = Some [7; 7; 7] /\ is_Some (step w (DropView 1)).
Proof.
  eexists _, _. split; [vm_compute; reflexivity|]. split; [vm_compute; reflexivity|]. split; [vm_compute; reflexivity|].
  eapply (pool_views_stable pool_history _ (Copy 2 101 [9])); [vm_compute; reflexivity|vm_compute; reflexivity|vm_compute; discriminate].
Defined.

Lemma pool_copy_exact_witness : exists w, run idle (pool_history ++ [DropView 1]) = Some w /\ exists p', copy 2 101 [9] (pool w) = Some p' /\ view 2 p' = Some [9].
Proof. eexists. split; [vm_compute; reflexivity|]. eapply (pool_copy_exact (pool_history ++ [DropView 1]) _ 2 101 [9]); vm_compute; first [reflexivity|done]. Defined.

End BlockPool.
