(* ===== verification/HysteriaSocket.v ===== *)
(** * Sockets and streams below Hysteria 2 (crates/hysteria2/src/socket.rs, stream.rs)

    The virtual UDP socket over a carrier, the Salamander obfuscation around it, and the first look at an accepted stream.  BLAKE2b is a
    parameter; nothing about it is used but its length. *)

From S2P Require Import Prelude Packet NetText Carrier VarInt HysteriaWire Uot.
Import NetText.

Module HysteriaSocket.
Import Uot (Packet, mkPacket, target, payload).

(** ** [CarrierSocket] *)

(** The address Quinn uses for the server; a domain gets a reserved stand-in. *)
Definition peer (server : Target) : Packet.IpAddress * Z :=
  match server with Ip a port => (a, port) | Domain _ port => (Packet.Ipv4 3221225985, port) end.

Inductive error := InvalidInput | BrokenPipe.
Inductive offer := Queued | QueueFull | QueueClosed.

Record Transmit := mkTransmit { destination : Packet.IpAddress * Z; segment_size : option Z; contents : bytes }.

#[local] Existing Instance Packet.IpAddress_eq_dec.

(** [CarrierSocket::try_send]: the packet offered to the carrier, if it is queued. *)
Definition carrier_send (server : Target) (scope_closed : bool) (offered : offer) (t : Transmit) : res error (option Packet) :=
  if negb (bool_decide (destination t = peer server)) || bool_decide (is_Some (segment_size t)) then Err InvalidInput
  else if scope_closed then Err BrokenPipe
  else match offered with
       | Queued => Ok (Some (mkPacket server (contents t)))
       | QueueFull => Ok None
       | QueueClosed => Err BrokenPipe
       end.

(** The receiving side of a carrier: what is queued, and whether the carrier is gone. *)
Record Rx := mkRx { queued : list Packet; gone : bool }.

(** What an [AsyncUdpSocket::poll_recv] gives: the bytes written to the buffer with the metadata, or nothing yet, with or without a wake-up. *)
Inductive polled := Datagram (written : bytes) (length stride : Z) | None_ | Pending (woken : bool) | Broken.

(** [CarrierSocket::poll_recv] into a buffer of [size] bytes: at most [n] packets are looked at. *)
Fixpoint carrier_loop (n : nat) (server : Target) (size : Z) (rx : list Packet) (gone : bool) : polled * list Packet :=
  match n with
  | O => (Pending true, rx)
  | S n =>
      match rx with
      | [] => (if gone then Broken else Pending false, [])
      | packet :: rx =>
          if negb (Carrier.from_server server (target packet)) || (size <? len (payload packet)) then carrier_loop n server size rx gone
          else (Datagram (payload packet) (len (payload packet)) (len (payload packet)), rx)
      end
  end.

Definition carrier_recv (server : Target) (size : Z) (rx : Rx) : polled * Rx :=
  let '(r, q) := carrier_loop 32 server size (queued rx) (gone rx) in (r, mkRx q (gone rx)).

(** ** [Salamander] *)

Class Blake2b := { blake2b_256 : bytes -> bytes; blake2b_len : forall b, len (blake2b_256 b) = 32 }.

Section salamander.
Context `{Blake2b}.

(** [Salamander::mask] *)
Definition mask (password salt payload : bytes) : bytes :=
  let digest := blake2b_256 (password ++ salt) in
  imap (fun i b => Z.lxor b (default 0 (zget digest (Z.of_nat i mod len digest)))) payload.

(** [Salamander::try_send]: what the inner socket is given. *)
Definition wrap (password salt : bytes) (t : Transmit) : Transmit := mkTransmit (destination t) None (salt ++ mask password salt (contents t)).

(** [Salamander::poll_recv].  [buffer] is the scratch buffer with what earlier datagrams left in it; [Panicked] is a copy that does not fit. *)
Inductive unwrapped := Opened (payload : bytes) | Waiting (woken : bool) | Failed | Panicked.

Section inner.
Context {S : Type} (inner : Z -> S -> polled * S).

Fixpoint open_loop (n : nat) (password : bytes) (size : Z) (buffer : bytes) (s : S) : unwrapped * S * bytes :=
  match n with
  | O => (Waiting true, s, buffer)
  | Datatypes.S n =>
      match inner (len buffer) s with
      | (Pending woken, s) => (Waiting woken, s, buffer)
      | (Broken, s) => (Failed, s, buffer)
      | (None_, s) => open_loop n password size buffer s
      | (Datagram written length stride, s) =>
          let buffer := overwrite 0 written buffer in
          if (length <? 8) || (len buffer <? length) || (stride <? length) then open_loop n password size buffer s
          else
            let salt := ztake 8 buffer in
            let payload := mask password salt (zdrop 8 (ztake length buffer)) in
            let buffer := salt ++ payload ++ zdrop length buffer in
            (if size <? len payload then Panicked else Opened payload, s, buffer)
      end
  end.

Definition open_recv (password : bytes) (size : Z) (buffer : bytes) (s : S) : unwrapped * S * bytes :=
  open_loop 32 password size (if len buffer <? size + 8 then resize (size + 8) 0 buffer else ztake (size + 8) buffer) s.
End inner.

(** A task that polls until nothing is queued: the datagrams it gets. *)
Fixpoint drain (fuel : nat) (password : bytes) (server : Target) (size : Z) (buffer : bytes) (rx : Rx) : list bytes :=
  match fuel with
  | O => []
  | S fuel =>
      match open_recv (carrier_recv server) password size buffer rx with
      | (Opened p, rx, buffer) => p :: drain fuel password server size buffer rx
      | (Waiting true, rx, buffer) => drain fuel password server size buffer rx
      | _ => []
      end
  end.

(** ** The mask is its own inverse *)

Lemma len_mask password salt p : len (mask password salt p) = len p.
Proof. unfold mask, len. by rewrite length_imap. Qed.

Lemma mask_involutive password salt p : mask password salt (mask password salt p) = p.
Proof.
  unfold mask. apply list_eq. intros i. rewrite !list_lookup_imap. destruct (p !! i); cbn; [|done]. f_equal. by rewrite Z.lxor_assoc, Z.lxor_nilpotent, Z.lxor_0_r.
Qed.

(** ** Receiving *)

(** What becomes of a packet in the carrier's queue. *)
Definition opens (password : bytes) (server : Target) (size : Z) (p : Packet) : option bytes :=
  if Carrier.from_server server (target p) && (8 <=? len (payload p)) && (len (payload p) <=? size + 8)
  then Some (mask password (ztake 8 (payload p)) (zdrop 8 (payload p))) else None.

Lemma carrier_loop_spec n server size q gone :
  match carrier_loop n server size q gone with
  | (Datagram w l s, q') => exists junk p, q = junk ++ p :: q' /\ (forall j, j ∈ junk -> Carrier.from_server server (target j) = false \/ size < len (payload j)) /\
      Carrier.from_server server (target p) = true /\ w = payload p /\ l = len w /\ s = len w /\ len w <= size
  | (Pending true, q') => exists junk, q = junk ++ q' /\ length junk = n /\ forall j, j ∈ junk -> Carrier.from_server server (target j) = false \/ size < len (payload j)
  | (Pending false, q') => q' = [] /\ gone = false /\ forall j, j ∈ q -> Carrier.from_server server (target j) = false \/ size < len (payload j)
  | (Broken, q') => q' = [] /\ gone = true
  | (None_, _) => False
  end.
Proof.
  revert q. induction n as [|n IH]; intros q; cbn; [exists []; split_and!; [done|done|by intros ? ?%elem_of_nil]|]. destruct q as [|p q]; [destruct gone; [done|]; split_and!; [done|done|by intros ? ?%elem_of_nil]|].
  destruct (negb _ || _) eqn:Hskip.
  - assert (Hp : Carrier.from_server server (target p) = false \/ size < len (payload p)) by (apply orb_true_iff in Hskip as [?%negb_true_iff|?]; [by left|right; zify_bool; lia]).
    specialize (IH q). destruct (carrier_loop n server size q gone) as [[w l s| |[]|] q'].
    + destruct IH as (junk & k & -> & Hj & Hrest). exists (p :: junk), k. split; [done|]. split; [|done]. intros j [->|?]%elem_of_cons; auto.
    + done.
    + destruct IH as (junk & -> & Hlen & Hj). exists (p :: junk). split; [done|]. split; [by cbn; rewrite Hlen|]. intros j [->|?]%elem_of_cons; auto.
    + destruct IH as (-> & Hg & Hj). split; [done|]. split; [done|]. intros j [->|?]%elem_of_cons; auto.
    + done.
  - apply orb_false_iff in Hskip as [Hf%negb_false_iff Hs]. zify_bool. exists [], p. split_and!; try done. by intros ? ?%elem_of_nil.
Qed.

Lemma opens_junk password server size junk q :
  (forall j, j ∈ junk -> Carrier.from_server server (target j) = false \/ size + 8 < len (payload j)) -> omap (opens password server size) (junk ++ q) = omap (opens password server size) q.
Proof.
  intros Hj. rewrite omap_app. replace (omap _ junk) with (@nil bytes); [done|]. symmetry. induction junk as [|j junk IH]; [done|]. cbn.
  replace (opens password server size j) with (@None bytes); [apply IH; intros k Hk; apply Hj; by right|]. unfold opens. destruct (Hj j ltac:(by left)) as [->|Hl]; [done|].
  rewrite (proj2 (Z.leb_gt (len (payload j)) _)) by done. by rewrite andb_false_r.
Qed.

Lemma overwrite_prefix w (buffer : bytes) : len w <= len buffer -> exists rest, overwrite 0 w buffer = w ++ rest /\ len (overwrite 0 w buffer) = len buffer.
Proof. intros Hw. eexists. split; [done|]. apply len_overwrite; lia. Qed.

(** One poll: a datagram that opens, or nothing was dropped that would. *)
Lemma open_loop_spec n password server size buffer q :
  0 <= size -> len buffer = size + 8 ->
  let '(r, rx, buffer') := open_loop (carrier_recv server) n password size buffer (mkRx q false) in
  len buffer' = size + 8 /\ gone rx = false /\
  match r with
  | Opened p => omap (opens password server size) q = p :: omap (opens password server size) (queued rx) /\ (length (queued rx) < length q)%nat
  | Waiting true => omap (opens password server size) q = omap (opens password server size) (queued rx) /\ (n <> O -> length (queued rx) < length q)%nat /\ (length (queued rx) <= length q)%nat
  | Waiting false => omap (opens password server size) q = []
  | Failed | Panicked => False
  end.
Proof.
  intros Hsize. revert q buffer. induction n as [|n IH]; intros q buffer Hb; cbn [open_loop]; [done|].
  unfold carrier_recv. cbn [queued gone]. pose proof (carrier_loop_spec 32 server (len buffer) q false) as Hc. rewrite Hb in Hc |- *. destruct (carrier_loop 32 server (size + 8) q false) as [[w l s| |[]|] q'].
  - destruct Hc as (junk & p & -> & Hj & Hp & -> & -> & -> & Hw). destruct (overwrite_prefix (payload p) buffer) as (rest & Ho & Hlo); [lia|].
    rewrite (opens_junk password server size junk (p :: q') Hj). rewrite Ho in *. rewrite Hlo, Hb, Z.ltb_irrefl, orb_false_r. rewrite (proj2 (Z.ltb_ge (size + 8) _)) by lia. rewrite orb_false_r.
    destruct (len (payload p) <? 8) eqn:H8; zify_bool.
    + specialize (IH q' (payload p ++ rest) ltac:(lia)). destruct (open_loop _ _ _ _ _ _) as [[r rx] buffer']. destruct IH as (H1 & H2 & H3). split; [done|]. split; [done|].
      assert (Hop : opens password server size p = None) by (unfold opens; rewrite (proj2 (Z.leb_gt 8 _)) by lia; by rewrite andb_false_r). cbn. rewrite Hop. rewrite length_app. cbn [length].
      destruct r as [| [] | |]; [destruct H3; split; [done|lia]|destruct H3 as (?&?&?); split_and!; [done|lia|lia]|done|done|done].
    + assert (Hz8 : ztake 8 (payload p ++ rest) = ztake 8 (payload p)) by (apply ztake_app_le; lia). rewrite Hz8, (ztake_app_exact (len (payload p))), len_mask, len_zdrop by lia.
      rewrite (proj2 (Z.ltb_ge size _)) by lia. split; [|split; [done|]].
      * rewrite !len_app, len_mask, len_ztake, len_zdrop, zdrop_app_exact by (try lia; done). rewrite len_app in Hlo. lia.
      * assert (Hop : opens password server size p = Some (mask password (ztake 8 (payload p)) (zdrop 8 (payload p)))) by (unfold opens; rewrite Hp, !(proj2 (Z.leb_le _ _)) by lia; done).
        cbn. rewrite Hop. split; [done|]. rewrite length_app. cbn [length]. lia.
  - done.
  - destruct Hc as (junk & -> & Hlen & Hj). split; [done|]. split; [done|]. cbn [queued]. rewrite (opens_junk password server size junk q' Hj), length_app. split_and!; [done|lia|lia].
  - destruct Hc as (-> & _ & Hj). split; [done|]. split; [done|]. pose proof (opens_junk password server size q [] Hj) as Ho. rewrite app_nil_r in Ho. exact Ho.
  - by destruct Hc.
Qed.

Lemma drain_spec fuel password server size buffer q :
  0 <= size -> (length q < fuel)%nat -> drain fuel password server size buffer (mkRx q false) = omap (opens password server size) q.
Proof.
  intros Hsize. revert buffer q. induction fuel as [|fuel IH]; intros buffer q Hf; [lia|]. cbn [drain]. unfold open_recv.
  set (b := if _ <? _ then _ else _). assert (Hb : len b = size + 8) by (subst b; case_bool; [rewrite len_resize|rewrite len_ztake]; pose proof (len_nonneg buffer); lia).
  pose proof (open_loop_spec 32 password server size b q Hsize Hb) as Ho. destruct (open_loop _ _ _ _ _ _) as [[r [q' g]] buffer']. destruct Ho as (_ & Hg & Ho). cbn [queued gone] in Ho, Hg. subst g.
  destruct r as [p|[]| |]; [|destruct Ho as (-> & Hlt & _); apply IH; lia|by rewrite Ho|done|done]. destruct Ho as [-> Hlt]. f_equal. apply IH. lia.
Qed.

(** The datagrams of one side as the carrier's packets. *)
Definition sent (password : bytes) (server : Target) (l : list (bytes * bytes)) : list Packet :=
  (fun '(salt, c) => mkPacket server (contents (wrap password salt (mkTransmit (peer server) None c)))) <$> l.

(** C22. Obfuscated datagrams arrive as they were sent.  Whatever other sources put into the carrier's queue, and whatever earlier datagrams left in the
    scratch buffer, a task that keeps polling gets exactly the sent contents that fit its buffer, whole and in order. *)
Theorem salamander_carries_datagrams password server size buffer q l :
  0 <= size -> Forall (fun sc => len (fst sc) = 8) l -> filter (fun p => Carrier.from_server server (target p) = true) q = sent password server l ->
  drain (S (length q)) password server size buffer (mkRx q false) = filter (fun c => len c <= size) (snd <$> l).
Proof.
  intros Hsize Hsalts Hq. rewrite drain_spec by (done || lia).
  replace (omap (opens password server size) q) with (omap (opens password server size) (sent password server l)).
  - clear Hq. induction Hsalts as [|[salt c] l Hs _ IH]; [done|]. cbn in Hs. cbn [sent fmap list_fmap omap list_omap]. unfold opens at 1. cbn [target payload wrap contents].
    rewrite len_app, len_mask, Hs, ztake_app_exact, zdrop_app_exact, mask_involutive by done. pose proof (len_nonneg c).
    replace (Carrier.from_server server server) with true by (destruct server; cbn; [by rewrite Z.eqb_refl|by rewrite bool_decide_eq_true_2]). rewrite (proj2 (Z.leb_le 8 _)) by lia. cbn [andb snd].
    change (omap (opens password server size) _) with (omap (opens password server size) (sent password server l)). rewrite IH. destruct (8 + len c <=? size + 8) eqn:Hc; zify_bool; [rewrite filter_cons_True by lia|rewrite filter_cons_False by lia]; done.
  - rewrite <- Hq. clear. induction q as [|p q IH]; [done|]. destruct (decide (Carrier.from_server server (target p) = true)) as [Hp|Hp]; [rewrite filter_cons_True by done; cbn; by rewrite IH|].
    rewrite filter_cons_False by done. cbn. replace (opens password server size p) with (@None bytes); [done|]. unfold opens. apply not_true_is_false in Hp. by rewrite Hp.
Qed.

End salamander.

(** ** Streams *)

(** The receiving half: what was put back, and the chunks the transport still gives, up to its end. *)
Record Stream := mkStream { prefix : bytes; inner : list bytes }.

(** [Receive::poll_data]; [None] is the end. *)
Definition poll_data (s : Stream) : option bytes * Stream :=
  if negb (len (prefix s) =? 0) then (Some (prefix s), mkStream [] (inner s))
  else match inner s with [] => (None, s) | c :: rest => (Some c, mkStream [] rest) end.

(** [<Stream as AsyncRead>::poll_read] into [remaining] bytes. *)
Definition poll_read (remaining : Z) (s : Stream) : bytes * Stream :=
  if remaining =? 0 then ([], s)
  else
    match (if len (prefix s) =? 0 then match inner s with [] => None | c :: rest => Some (mkStream c rest) end else Some s) with
    | None => ([], s)
    | Some s => let n := Z.min remaining (len (prefix s)) in (ztake n (prefix s), mkStream (zdrop n (prefix s)) (inner s))
    end.

(** [read_exact]: a read of nothing is the end, an error; every other read makes progress. *)
Fixpoint read_exact (fuel : nat) (n : Z) (s : Stream) : option (bytes * Stream) :=
  if n =? 0 then Some ([], s)
  else match fuel with
       | O => None
       | S fuel =>
           let '(b, s) := poll_read n s in
           if len b =? 0 then None else '(rest, s) ← read_exact fuel (n - len b) s; Some (b ++ rest, s)
       end.

(** [classify]; every read is of at most eight bytes. *)
Definition classify `{VarInt.VarIntCodec} (s : Stream) : option (bool * Stream) :=
  '(first, s) ← read_exact 8 1 s;
  b ← zget first 0;
  let length := Z.shiftl 1 (Z.shiftr b 6) in
  '(rest, s) ← read_exact 8 (length - 1) s;
  let read := first ++ rest in
  '(frame, _) ← VarInt.decode read;
  let tcp := frame =? HysteriaWire.TCP_REQUEST in
  Some (tcp, if negb tcp then mkStream (read ++ prefix s) (inner s) else s).

(** All that can still be read. *)
Definition content (s : Stream) : bytes := prefix s ++ mjoin (inner s).

Fixpoint read_all (fuel : nat) (s : Stream) : bytes :=
  match fuel with
  | O => []
  | S fuel => match poll_data s with (Some c, s) => c ++ read_all fuel s | (None, _) => [] end
  end.

Lemma read_all_content fuel s : (S (length (inner s)) < fuel)%nat -> read_all fuel s = content s.
Proof.
  assert (Hin : forall l fuel, (length l < fuel)%nat -> read_all fuel (mkStream [] l) = mjoin l).
  { induction l as [|c l IH]; intros [|f] Hf; [cbn in Hf; lia|done|cbn in Hf; lia|]. cbn [length] in Hf. cbn [read_all]. unfold poll_data. cbn [prefix inner negb]. change (len (@nil Z) =? 0) with true. cbn [negb]. rewrite IH by lia. done. }
  intros Hf. destruct s as [p l], fuel as [|f]; cbn [inner] in Hf; [lia|]. cbn [read_all]. unfold poll_data. cbn [prefix inner]. destruct (len p =? 0) eqn:Hp; cbn [negb].
  - zify_bool. apply len_zero in Hp as ->. exact (Hin l (S f) ltac:(lia)).
  - rewrite Hin by lia. done.
Qed.

Lemma poll_read_spec n s : 0 < n -> let '(b, s') := poll_read n s in content s = b ++ content s' /\ len b <= n.
Proof.
  intros Hn. unfold poll_read. rewrite (proj2 (Z.eqb_neq n 0)) by lia.
  assert (Hgo : forall t, content (mkStream (prefix t) (inner t)) = ztake (Z.min n (len (prefix t))) (prefix t) ++ content (mkStream (zdrop (Z.min n (len (prefix t))) (prefix t)) (inner t)) /\ len (ztake (Z.min n (len (prefix t))) (prefix t)) <= n).
  { intros t. pose proof (len_nonneg (prefix t)). unfold content. cbn. rewrite app_assoc, ztake_zdrop, len_ztake by lia. split; [done|lia]. }
  destruct (len (prefix s) =? 0) eqn:Hp; [|destruct s as [sp si]; exact (Hgo (mkStream sp si))]. zify_bool. apply len_zero in Hp. destruct (inner s) as [|c rest] eqn:Hi; [split; [done|change (len (@nil Z)) with 0; lia]|].
  specialize (Hgo (mkStream c rest)). cbn [prefix inner] in *. destruct Hgo as [Hc Hl]. split; [|done]. rewrite <- Hc. unfold content. rewrite Hp, Hi. done.
Qed.

Lemma read_exact_spec fuel n s b s' : 0 <= n -> read_exact fuel n s = Some (b, s') -> content s = b ++ content s' /\ len b = n.
Proof.
  revert n s b s'. induction fuel as [|fuel IH]; intros n s b s' Hn; cbn [read_exact]; (destruct (n =? 0) eqn:H0; zify_bool; [intros [= <- <-]; split; [done|by rewrite H0]|]); [done|].
  pose proof (poll_read_spec n s ltac:(lia)) as Hp. destruct (poll_read n s) as [c s1]. destruct Hp as [Hc Hlc]. destruct (len c =? 0) eqn:Hc0; [done|]. zify_bool. pose proof (len_nonneg c).
  destruct (read_exact fuel (n - len c) s1) as [[rest s2]|] eqn:Hr; [|done]. cbn. intros [= <- <-]. destruct (IH (n - len c) s1 rest s2 ltac:(lia) Hr) as [Hs2 Hlr]. rewrite Hc, Hs2, app_assoc, len_app. split; [done|lia].
Qed.

Lemma read_exact_total fuel n s : Forall (fun c => c <> []) (inner s) -> 0 <= n <= Z.of_nat fuel -> n <= len (content s) -> exists b s', read_exact fuel n s = Some (b, s') /\ Forall (fun c => c <> []) (inner s').
Proof.
  revert n s. induction fuel as [|fuel IH]; intros n s Hne Hn Hc; cbn [read_exact]; (destruct (n =? 0) eqn:H0; zify_bool; [by exists [], s|]); [lia|].
  pose proof (poll_read_spec n s ltac:(lia)) as Hp.
  assert (Hprog : let '(b, s1) := poll_read n s in len b <> 0 /\ Forall (fun c => c <> []) (inner s1)).
  { unfold poll_read. rewrite (proj2 (Z.eqb_neq n 0)) by lia. assert (Hpos : forall c : bytes, c <> [] -> 0 < len c) by (intros [|x c] Hx; [done|rewrite len_cons; pose proof (len_nonneg c); lia]).
    destruct (len (prefix s) =? 0) eqn:Hp0; zify_bool.
    - destruct (inner s) as [|c rest] eqn:Hi; [exfalso; apply len_zero in Hp0; unfold content in Hc; rewrite Hp0, Hi in Hc; change (n <= 0) in Hc; lia|]. apply Forall_cons in Hne as [Hx Hne]. cbn [prefix inner]. specialize (Hpos c Hx). rewrite len_ztake by lia. split; [lia|done].
    - pose proof (len_nonneg (prefix s)). cbn [prefix inner]. rewrite len_ztake by lia. split; [lia|done]. }
  destruct (poll_read n s) as [c s1]. destruct Hp as [Hcs Hlc], Hprog as [Hc0 Hne1]. rewrite (proj2 (Z.eqb_neq (len c) 0)) by done. pose proof (len_nonneg c). rewrite Hcs, len_app in Hc.
  destruct (IH (n - len c) s1 Hne1 ltac:(lia) ltac:(lia)) as (b & s' & -> & Hne'). cbn. by exists (c ++ b), s'.
Qed.

Lemma read_exact_inner k n s b s' : read_exact k n s = Some (b, s') -> (length (inner s') <= length (inner s))%nat.
Proof.
  revert n s b s'. induction k as [|k IH]; intros n s b s'; cbn [read_exact]; (destruct (n =? 0); [by intros [= _ <-]|]); [done|].
  assert (Hp : (length (inner (snd (poll_read n s))) <= length (inner s))%nat).
  { unfold poll_read. destruct (n =? 0); [done|]. destruct (len (prefix s) =? 0); [|done]. destruct (inner s) as [|c l] eqn:Hi; cbn [snd]; [by rewrite Hi|]. cbn. lia. }
  destruct (poll_read n s) as [c s1]. cbn [snd] in Hp. destruct (len c =? 0); [done|]. destruct (read_exact k (n - len c) s1) as [[r s2]|] eqn:Hr; [|done]. cbn. intros [= _ <-]. apply IH in Hr. lia.
Qed.

(** Looking at a stream loses nothing.  However the transport cuts a stream that begins with a frame type, [classify] says TCP exactly for a TCP request
    and then leaves what follows the frame type; every other stream afterwards reads as if it had not been looked at. *)
Theorem classify_transparent `{VarInt.VarIntLaws} s v b rest fuel :
  Forall (fun c => c <> []) (inner s) -> VarInt.encode v = Some b -> content s = b ++ rest -> (S (length (inner s)) < fuel)%nat ->
  exists s', classify s = Some (v =? HysteriaWire.TCP_REQUEST, s') /\ read_all fuel s' = if v =? HysteriaWire.TCP_REQUEST then rest else b ++ rest.
Proof.
  intros Hne Hb Hs Hf. destruct (VarInt.encode_shape v b Hb) as (c & t & -> & Hc & Hlen). pose proof (len_nonneg rest). pose proof (len_nonneg t).
  assert (Hshift : 0 <= Z.shiftr c 6 <= 3) by (rewrite Z.shiftr_div_pow2 by lia; unfold is_byte in Hc; change (2 ^ 6) with 64; split; [apply Z.div_pos; lia|apply (Z.div_le_mono c 255 64); lia]).
  assert (Hsize : 1 <= 2 ^ Z.shiftr c 6 <= 8) by (split; [apply (Z.pow_le_mono_r 2 0); lia|apply (Z.pow_le_mono_r 2 _ 3); lia]).
  destruct (read_exact_total 8 1 s) as (b1 & s1 & Hr1 & Hne1); [done|lia|rewrite Hs, len_app, Hlen; lia|]. destruct (read_exact_spec 8 1 _ _ _ ltac:(lia) Hr1) as [Hs1 Hl1].
  assert (b1 = [c] /\ content s1 = t ++ rest) as [-> Hs1']. { rewrite Hs in Hs1. destruct b1 as [|x [|y b1]]; cbn in Hl1; [done| |unfold len in Hl1; cbn in Hl1; lia]. cbn in Hs1. by injection Hs1 as -> ->. }
  rewrite len_cons in Hlen. destruct (read_exact_total 8 (2 ^ Z.shiftr c 6 - 1) s1) as (b2 & s2 & Hr2 & _); [done|lia|rewrite Hs1', len_app; lia|]. destruct (read_exact_spec 8 (2 ^ Z.shiftr c 6 - 1) _ _ _ ltac:(lia) Hr2) as [Hs2 Hl2].
  assert (b2 = t /\ content s2 = rest) as [-> Hs2']. { rewrite Hs1' in Hs2. apply app_inj_1 in Hs2 as [-> ->]; [done|]. unfold len in *. lia. }
  unfold classify. rewrite Hr1. cbn [mbind option_bind]. change (zget [c] 0) with (Some c). cbn [mbind option_bind]. rewrite Z.shiftl_1_l, Hr2. cbn [mbind option_bind app].
  pose proof (VarInt.decode_encode v (c :: t) [] Hb) as Hd. rewrite app_nil_r in Hd. rewrite Hd. cbn [mbind option_bind]. eexists. split; [done|].
  assert (Hin : forall k n u w u', read_exact k n u = Some (w, u') -> (length (inner u') <= length (inner u))%nat) by apply read_exact_inner.
  pose proof (Hin _ _ _ _ _ Hr1). pose proof (Hin _ _ _ _ _ Hr2). destruct (v =? HysteriaWire.TCP_REQUEST); cbn [negb].
  - rewrite read_all_content by lia. done.
  - rewrite read_all_content by (cbn [inner]; lia). unfold content in *. cbn [prefix inner]. cbn [app]. f_equal. by rewrite <- app_assoc, Hs2'.
Qed.

(** ** Examples *)

#[local] Existing Instances VarInt.rfc_varint VarInt.rfc_varint_laws.

(** A stand-in for the hash. *)
#[local] Instance toy_hash : Blake2b.
Proof. refine {| blake2b_256 b := replicate 32 (fold_right Z.add 0 b mod 256) |}. intros b. reflexivity. Defined.

Example salamander_server : Target := Ip (Packet.Ipv4 1) 443.
Example salamander_sent : list (bytes * bytes) := [([1; 2; 3; 4; 5; 6; 7; 8], [10; 20]); ([8; 7; 6; 5; 4; 3; 2; 1], [1; 2; 3; 4; 5; 6; 7]); ([0; 0; 0; 0; 0; 0; 0; 0], [])].
Example salamander_queue : list Packet := mkPacket (Ip (Packet.Ipv4 9) 443) [1; 2; 3; 4; 5; 6; 7; 8; 9] :: sent [5] salamander_server salamander_sent.

Lemma salamander_carries_datagrams_witness : drain 5 [5] salamander_server 4 [] (mkRx salamander_queue false) = [[10; 20]; []].
Proof. exact (salamander_carries_datagrams [5] salamander_server 4 [] salamander_queue salamander_sent ltac:(done) ltac:(repeat constructor) ltac:(vm_compute; reflexivity)). Defined.

Lemma classify_transparent_witness : exists s', classify (mkStream [] [[68]; [1; 7]; [8]]) = Some (true, s') /\ read_all 9 s' = [7; 8].
Proof. apply (classify_transparent (mkStream [] [[68]; [1; 7]; [8]]) 1025 [68; 1] [7; 8] 9); [repeat constructor; done|reflexivity|reflexivity|cbn; lia]. Defined.

End HysteriaSocket.
