(* ===== verification/HttpConnect.v ===== *)
(** * HTTP CONNECT (crates/http/src/lib.rs)

    The client's request and the server's answer, the reader of headers, and the tunnel that is left after them.  httparse and the [http]
    crate's [Authority] are parameters, with what they document of the few messages the two sides exchange. *)

From Stdlib Require Import Ascii String.
From S2P Require Import Prelude Packet NetText Carrier.
Import NetText.

Module HttpConnect.

Definition text (s : string) : bytes := (fun c => Z.of_N (N_of_ascii c)) <$> list_ascii_of_string s.
Definition CRLF : bytes := [13; 10].

Inductive error := Eof | HeaderTooLong | Malformed | Incomplete | NotConnect | MissingAuthority | InvalidAuthority | MissingPort | Rejected.

Abbreviation Res := (res error).

Record Request := mkRequest { method : option bytes; path : option bytes }.

(** [httparse::Request::parse] and [Response::parse] give whether the message is complete; [Authority] has a host and perhaps a port. *)
Class Http := {
  parse_request : bytes -> option (bool * Request);
  parse_response : bytes -> option (bool * option Z);
  parse_uri_authority : bytes -> option (bytes * option Z);
}.

(** ** Readers *)

(** [BufReader]: its buffer, and what further reads give, up to the end. *)
Record Reader := mkReader { buffer : bytes; inner : list bytes }.

Definition content (r : Reader) : bytes := buffer r ++ mjoin (inner r).

Definition read_u8 (r : Reader) : Res (Z * Reader) :=
  match buffer r with
  | b :: rest => Ok (b, mkReader rest (inner r))
  | [] => match inner r with (b :: rest) :: more => Ok (b, mkReader rest more) | _ => Err Eof end
  end.

Definition ends_with (suffix l : bytes) : bool := bool_decide (drop (length l - length suffix) l = suffix).

(** [header]; a turn reads one byte. *)
Fixpoint header_loop (fuel : nat) (result : bytes) (r : Reader) : Res (bytes * Reader) :=
  match fuel with
  | O => Err HeaderTooLong
  | S fuel =>
      if len result <? 16 * 1024 then
        '(b, r) ← read_u8 r;
        let result := result ++ [b] in
        if ends_with (CRLF ++ CRLF) result then Ok (result, r) else header_loop fuel result r
      else Err HeaderTooLong
  end.

Definition header (r : Reader) : Res (bytes * Reader) := header_loop (Z.to_nat (16 * 1024 + 1)) [] r.

Section http.
Context `{Http}.

(** ** Authorities *)

Definition parse_authority (value : bytes) : Res Target :=
  match socket_parse value with
  | Some a => Ok (Carrier.target a)
  | None =>
      '(host, port) ← ok_or (parse_uri_authority value) Malformed;
      _ ← ensure (negb (len host =? 0) && bool_decide (64 ∉ host)) InvalidAuthority;
      port ← ok_or port MissingPort;
      Ok (Domain host port)
  end.

Definition authority_text (t : Target) : bytes := match t with Ip a port => socket_print a port | Domain name port => name ++ COLON :: print_u16 port end.

Definition authority (t : Target) : Res bytes := _ ← parse_authority (authority_text t); Ok (authority_text t).

(** ** The server *)

Definition destination (request : bytes) : Res Target :=
  '(complete, r) ← ok_or (parse_request request) Malformed;
  _ ← ensure complete Incomplete;
  _ ← ensure (bool_decide (method r = Some (text "CONNECT"))) NotConnect;
  p ← ok_or (path r) MissingAuthority;
  parse_authority p.

Definition bad_request : bytes := text "HTTP/1.1 400 Bad Request" ++ CRLF ++ text "Content-Length: 0" ++ CRLF ++ text "Connection: close" ++ CRLF ++ CRLF.
Definition established : bytes := text "HTTP/1.1 200 Connection Established" ++ CRLF ++ CRLF.

(** What the server writes, and the destination and stream it hands on. *)
Definition serve (r : Reader) : bytes * Res (Target * Reader) :=
  match header r with
  | Err e => ([], Err e)
  | Ok (request, r) =>
      match destination request with
      | Err e => (bad_request, Err e)
      | Ok d => (established, Ok (d, r))
      end
  end.

(** ** The client *)

Definition connect_text (a : bytes) : bytes := text "CONNECT " ++ a ++ text " HTTP/1.1" ++ CRLF ++ text "Host: " ++ a ++ CRLF ++ CRLF.

Definition connect (t : Target) : Res bytes := a ← authority t; Ok (connect_text a).

Definition connected (r : Reader) : Res Reader :=
  '(h, r) ← header r;
  '(complete, code) ← ok_or (parse_response h) Malformed;
  _ ← ensure complete Incomplete;
  _ ← ensure (match code with Some c => (200 <=? c) && (c <? 300) | None => false end) Rejected;
  Ok r.

(** ** What the parsers document *)

Definition visible (c : Z) : Prop := 33 <= c <= 126.
(** Letters, digits, hyphens and dots. *)
Definition host_char (c : Z) : Prop := 48 <= c <= 57 \/ 65 <= c <= 90 \/ 97 <= c <= 122 \/ c = 45 \/ c = 46.

Class HttpLaws : Prop := {
  request_parses a : a <> [] -> Forall visible a -> parse_request (connect_text a) = Some (true, mkRequest (Some (text "CONNECT")) (Some a));
  response_parses : parse_response established = Some (true, Some 200);
  refusal_parses : parse_response bad_request = Some (true, Some 400);
  host_parses name port : name <> [] -> Forall host_char name -> 0 <= port <= 65535 -> parse_uri_authority (name ++ COLON :: print_u16 port) = Some (name, Some port);
}.

End http.

(** ** Headers *)

(** A header: it ends with an empty line, and no shorter prefix does. *)
Definition is_header (h : bytes) : Prop := ends_with (CRLF ++ CRLF) h = true /\ forall n, (n < length h)%nat -> ends_with (CRLF ++ CRLF) (take n h) = false.

Lemma read_u8_spec r b rest : Forall (fun c => c <> []) (inner r) -> content r = b :: rest -> exists r', read_u8 r = Ok (b, r') /\ content r' = rest /\ Forall (fun c => c <> []) (inner r').
Proof.
  intros Hne. unfold read_u8, content. destruct r as [[|x buf] [|[|y c] more]]; cbn; intros Hc.
  - done.
  - by apply Forall_cons in Hne as [? _].
  - injection Hc as -> <-. apply Forall_cons in Hne as [_ ?]. by eexists.
  - injection Hc as -> <-. by eexists.
  - by apply Forall_cons in Hne as [? _].
  - injection Hc as -> <-. by eexists.
Qed.

Lemma header_loop_reads fuel done_ todo r rest :
  Forall (fun c => c <> []) (inner r) -> is_header (done_ ++ todo) -> todo <> [] -> content r = todo ++ rest -> len (done_ ++ todo) <= 16384 -> (length todo <= fuel)%nat ->
  exists r', header_loop fuel done_ r = Ok (done_ ++ todo, r') /\ content r' = rest /\ Forall (fun c => c <> []) (inner r').
Proof.
  revert done_ todo r. induction fuel as [|fuel IH]; intros done_ todo r Hne Hh Ht Hc Hl Hf; [destruct todo; [done|cbn in Hf; lia]|].
  destruct todo as [|b todo]; [done|]. cbn [header_loop]. pose proof Hl as Hl0. rewrite len_app, len_cons in Hl. pose proof (len_nonneg todo). rewrite (proj2 (Z.ltb_lt _ _)) by lia.
  destruct (read_u8_spec r b (todo ++ rest) Hne Hc) as (r1 & -> & Hc1 & Hne1). cbn [mbind res_bind]. destruct todo as [|x todo].
  - rewrite (proj1 Hh). exists r1. by split_and!.
  - assert (Hshort : ends_with (CRLF ++ CRLF) (done_ ++ [b]) = false).
    { replace (done_ ++ [b]) with (take (S (length done_)) (done_ ++ b :: x :: todo)); [apply Hh; rewrite length_app; cbn; lia|]. rewrite take_app_ge by lia. replace (S (length done_) - length done_)%nat with 1%nat by lia. done. }
    rewrite Hshort. destruct (IH (done_ ++ [b]) (x :: todo) r1 Hne1) as (r' & Hr & Hrest); [by rewrite <- app_assoc|done|done|by rewrite <- app_assoc|cbn in *; lia|].
    rewrite <- app_assoc in Hr. by exists r'.
Qed.

Lemma header_reads h r rest :
  Forall (fun c => c <> []) (inner r) -> is_header h -> content r = h ++ rest -> len h <= 16384 -> exists r', header r = Ok (h, r') /\ content r' = rest.
Proof.
  intros Hne Hh Hc Hl. destruct (header_loop_reads (Z.to_nat (16 * 1024 + 1)) [] h r rest) as (r' & Hr & Hrest & _); [done|done| |done|done|unfold len in Hl; lia|by exists r'].
  intros ->. by destruct Hh as [? _].
Qed.

Lemma ends_with_split l : ends_with (CRLF ++ CRLF) l = true -> exists q, l = q ++ CRLF ++ CRLF.
Proof. unfold ends_with. intros He%bool_decide_eq_true. exists (take (length l - length (CRLF ++ CRLF)) l). by rewrite <- He at 2; rewrite take_drop. Qed.

Lemma ends_with_app q : ends_with (CRLF ++ CRLF) (q ++ CRLF ++ CRLF) = true.
Proof. apply bool_decide_eq_true. rewrite length_app. replace (length q + _ - _)%nat with (length q) by lia. apply drop_app_length. Qed.

(** Two lines without carriage returns, the second not empty, and an empty line. *)
Lemma two_lines_header x y : 13 ∉ x -> 13 ∉ y -> y <> [] -> is_header (x ++ CRLF ++ y ++ CRLF ++ CRLF).
Proof.
  intros Hx Hy Hne. split; [rewrite !app_assoc, <- app_assoc; apply ends_with_app|]. intros n Hn. apply not_true_is_false. intros [q Hq]%ends_with_split.
  set (s := x ++ CRLF ++ y ++ CRLF ++ CRLF) in *.
  assert (Hcr : forall k, s !! k = Some 13 -> k = length x \/ k = (length x + 2 + length y)%nat \/ k = (length x + 4 + length y)%nat).
  { intros k. subst s. intros [Hk|[Hlx [Hk|[Hl2 [Hk|[Hl3 Hk]]%lookup_app_Some]]%lookup_app_Some]]%lookup_app_Some.
    - by apply list_elem_of_lookup_2 in Hk.
    - cbn in Hl2 || idtac. remember (k - length x)%nat as m eqn:Hm. destruct m as [|[|m]]; cbn in Hk; try done. left. lia.
    - by apply list_elem_of_lookup_2 in Hk.
    - cbn [length CRLF] in *. remember (k - length x - 2 - length y)%nat as m eqn:Hm. destruct m as [|[|[|[|m]]]]; cbn in Hk; try done; lia. }
  assert (Hpre : forall k c, take n s !! k = Some c -> s !! k = Some c) by (intros k c Hk; by apply lookup_take_Some in Hk as [? _]).
  assert (H1 : s !! length q = Some 13) by (apply Hpre; rewrite Hq, lookup_app_r, Nat.sub_diag by lia; done).
  assert (H2 : s !! (length q + 2)%nat = Some 13) by (apply Hpre; rewrite Hq, lookup_app_r by lia; replace (length q + 2 - length q)%nat with 2%nat by lia; done).
  apply Hcr in H1, H2. assert (length y <> O) by (by destruct y). assert (Hlen : length (take n s) = (length q + 4)%nat) by (rewrite Hq, length_app; done). rewrite length_take in Hlen. subst s. rewrite !length_app in *. cbn [length CRLF] in *. lia.
Qed.

Lemma established_header : is_header established.
Proof.
  split; [vm_compute; reflexivity|]. assert (Hall : forallb (fun n => negb (ends_with (CRLF ++ CRLF) (take n established))) (seq 0 (length established)) = true) by (vm_compute; reflexivity).
  intros n Hn. rewrite forallb_forall in Hall. apply negb_true_iff, Hall, in_seq. lia.
Qed.

Lemma bad_request_header : is_header bad_request.
Proof.
  split; [vm_compute; reflexivity|]. assert (Hall : forallb (fun n => negb (ends_with (CRLF ++ CRLF) (take n bad_request))) (seq 0 (length bad_request)) = true) by (vm_compute; reflexivity).
  intros n Hn. rewrite forallb_forall in Hall. apply negb_true_iff, Hall, in_seq. lia.
Qed.

Lemma visible_no_cr a : Forall visible a -> 13 ∉ a.
Proof. intros Ha Hin. rewrite Forall_forall in Ha. specialize (Ha 13 Hin). unfold visible in Ha. lia. Qed.

Lemma no_cr_app a b : 13 ∉ a -> 13 ∉ b -> 13 ∉ a ++ b.
Proof. rewrite elem_of_app. tauto. Qed.

Lemma connect_header a : Forall visible a -> is_header (connect_text a).
Proof.
  intros Ha%visible_no_cr. unfold connect_text. rewrite (app_assoc (text "CONNECT ")), (app_assoc (_ ++ a)), (app_assoc (text "Host: ")).
  assert (Hlit : forall s, bool_decide (13 ∉ text s) = true -> 13 ∉ text s) by (intros s Hs; by apply bool_decide_eq_true in Hs).
  apply two_lines_header; [|apply no_cr_app; [by apply Hlit|done]|done]. apply no_cr_app; [|by apply Hlit]. by apply no_cr_app; [apply Hlit|].
Qed.

(** ** Authorities are visible text *)

Lemma visible_print fuel radix n : 0 < radix <= 16 -> Forall visible (print fuel radix n).
Proof.
  intros Hr. apply Forall_fmap.
  assert (Hd : forall fuel n acc, Forall (fun d => 0 <= d < radix) acc -> Forall (fun d => 0 <= d < radix) (to_digits fuel radix n acc)).
  { clear - Hr. induction fuel as [|fuel IH]; intros n acc Hacc; [done|]. cbn [to_digits].
    assert (Forall (fun d => 0 <= d < radix) (n `mod` radix :: acc)) by (constructor; [apply Z.mod_pos_bound; lia|done]). case_bool; auto. }
  eapply Forall_impl; [apply Hd; constructor|]. intros d Hlt. simpl in *. unfold digit_char, visible. case_bool; lia.
Qed.

Lemma visible_sep c l : visible c -> Forall (Forall visible) l -> Forall visible (sep_by c l).
Proof.
  intros Hc Hl. induction Hl as [|x l Hx Hl IH]; [constructor|]. destruct l; [done|].
  apply Forall_app. split; [done|]. by constructor.
Qed.

Lemma visible_socket a port : Forall visible (socket_print a port).
Proof.
  assert (Hp : Forall visible (print_u16 port)) by (apply visible_print; lia).
  assert (Hv : forall c, 33 <= c <= 126 -> visible c) by done.
  assert (H4 : forall v, Forall visible (print_ipv4 v)) by (intros v; apply visible_sep; [by apply Hv|]; apply Forall_fmap, Forall_true; intros; apply visible_print; lia).
  assert (H6 : forall v, Forall visible (print_groups v)) by (intros v; apply visible_sep; [by apply Hv|]; apply Forall_fmap, Forall_true; intros; apply visible_print; lia).
  unfold socket_print, print_ipv6. destruct a as [a|a].
  - apply Forall_app. split; [apply H4|]. by constructor; [apply Hv|].
  - constructor; [by apply Hv|]. apply Forall_app. split; [|constructor; [by apply Hv|]; by constructor; [apply Hv|]].
    destruct (Packet.to_ipv4_mapped a); [apply Forall_app; split; [by repeat (constructor; [by apply Hv|])|apply H4]|].
    destruct (longest_zero _ _ _) as [start n]. destruct (_ <? _)%nat; [|apply H6].
    apply Forall_app; split; [apply H6|]. constructor; [by apply Hv|]. constructor; [by apply Hv|]. apply H6.
Qed.

(** ** The tunnel *)

(** The targets with an authority: addresses and host names. *)
Definition sendable (t : Target) : Prop :=
  match t with
  | Ip a port => address_ok a /\ 0 <= port <= 65535
  | Domain name port => name <> [] /\ Forall host_char name /\ 0 <= port <= 65535
  end.

(** A name that is the text of an address arrives as the address. *)
Definition arrives (t : Target) : Target :=
  match t with
  | Ip _ _ => t
  | Domain _ _ => match socket_parse (authority_text t) with Some a => Carrier.target a | None => t end
  end.

Lemma authority_visible t : sendable t -> Forall visible (authority_text t) /\ authority_text t <> [].
Proof.
  destruct t as [name port|a port]; cbn [sendable authority_text].
  - intros (Hn & Hc & Hp). split; [|by destruct name]. apply Forall_app. split; [|constructor; [unfold visible, COLON; lia|apply (visible_print 5 10 port); lia]].
    eapply Forall_impl; [exact Hc|]. intros c. unfold host_char, visible. lia.
  - intros _. split; [apply visible_socket|]. unfold socket_print. destruct a; [|done]. by destruct (print_ipv4 a).
Qed.

Section tunnel.
Context `{Http} `{!HttpLaws}.

Lemma parse_authority_text t : sendable t -> parse_authority (authority_text t) = Ok (arrives t).
Proof.
  intros Hs. unfold parse_authority. destruct t as [name port|a port].
  - cbn [arrives]. destruct (socket_parse (authority_text (Domain name port))); [done|]. destruct Hs as (Hn & Hc & Hp). unfold authority_text. rewrite host_parses by done. cbn [ok_or mbind res_bind].
    assert (64 ∉ name) by (intros Hin; rewrite Forall_forall in Hc; specialize (Hc _ Hin); unfold host_char in Hc; lia).
    rewrite bool_decide_eq_true_2 by done. destruct (len name =? 0) eqn:Hl; [zify_bool; by apply len_zero in Hl|done].
  - cbn [authority_text]. destruct Hs as [Ha Hp]. by rewrite socket_parse_print.
Qed.

(** C21. CONNECT makes a tunnel.  For every address and host name the client's request is accepted, however the network cuts it, the server hands on exactly that
    target with every byte sent after the request, and the client takes the server's answer and is left with every byte sent after it. *)
Theorem http_connect_tunnels t :
  sendable t -> len (connect_text (authority_text t)) <= 16384 ->
  connect t = Ok (connect_text (authority_text t)) /\
  (forall r early, Forall (fun c => c <> []) (inner r) -> content r = connect_text (authority_text t) ++ early -> exists r', serve r = (established, Ok (arrives t, r')) /\ content r' = early) /\
  (forall r data, Forall (fun c => c <> []) (inner r) -> content r = established ++ data -> exists r', connected r = Ok r' /\ content r' = data).
Proof.
  intros Hs Hlen. pose proof (parse_authority_text t Hs) as Hp. destruct (authority_visible t Hs) as [Hv Hne]. split_and!.
  - unfold connect, authority. by rewrite Hp.
  - intros r early Hr Hc. destruct (header_reads (connect_text (authority_text t)) r early) as (r' & Hh & Hrest); [done|by apply connect_header|done|done|].
    exists r'. split; [|done]. unfold serve. rewrite Hh. unfold destination. rewrite request_parses by done. cbn [ok_or mbind res_bind ensure method path]. rewrite bool_decide_eq_true_2 by done. cbn [ok_or mbind res_bind ensure]. by rewrite Hp.
  - intros r data Hr Hc. destruct (header_reads established r data) as (r' & Hh & Hrest); [done|apply established_header|done|by vm_compute|].
    exists r'. split; [|done]. unfold connected. rewrite Hh. cbn [mbind res_bind]. by rewrite response_parses.
Qed.

(** A request the server cannot serve is answered with an error the client takes as one, and is not handed on. *)
Theorem http_refusal_seen r request rest e data r' :
  Forall (fun c => c <> []) (inner r) -> is_header request -> len request <= 16384 -> content r = request ++ rest -> destination request = Err e ->
  Forall (fun c => c <> []) (inner r') -> content r' = bad_request ++ data ->
  serve r = (bad_request, Err e) /\ connected r' = Err Rejected.
Proof.
  intros Hr Hh Hl Hc Hd Hr' Hc'. split.
  - destruct (header_reads request r rest) as (q & Hq & _); [done|done|done|done|]. unfold serve. by rewrite Hq, Hd.
  - destruct (header_reads bad_request r' data) as (q & Hq & _); [done|apply bad_request_header|done|by vm_compute|]. unfold connected. rewrite Hq. cbn [mbind res_bind]. by rewrite refusal_parses.
Qed.

End tunnel.

(** ** Examples *)

(** Parsers for the messages the two sides exchange. *)
Definition split_space (s : bytes) : option (bytes * bytes) := split_once 32 s.

#[local] Instance small_http : Http := {|
  parse_request b := '(m, rest) ← split_space b; '(p, _) ← split_space rest; Some (ends_with (CRLF ++ CRLF) b, mkRequest (Some m) (Some p));
  parse_response b := Some (ends_with (CRLF ++ CRLF) b, '(_, rest) ← split_space b; '(c, _) ← split_space rest; parse_u16 c);
  parse_uri_authority b := '(host, port) ← rsplit_once COLON b; Some (host, parse_u16 port);
|}.

#[local] Instance small_http_laws : HttpLaws.
Proof.
  constructor.
  - intros a Hne Ha. assert (Hsp : 32 ∉ a) by (intros Hin; rewrite Forall_forall in Ha; specialize (Ha 32 Hin); unfold visible in Ha; lia).
    assert (Hs : connect_text a = text "CONNECT" ++ 32 :: (a ++ 32 :: (text "HTTP/1.1" ++ CRLF ++ text "Host: " ++ a ++ CRLF ++ CRLF))) by reflexivity.
    assert (He : ends_with (CRLF ++ CRLF) (connect_text a) = true) by (unfold connect_text; rewrite !app_assoc, <- (app_assoc _ CRLF CRLF); apply ends_with_app).
    cbn [parse_request small_http]. rewrite He. unfold split_space. rewrite Hs, split_once_app by (by apply (bool_decide_unpack _)). cbn [mbind option_bind]. by rewrite split_once_app.
  - vm_compute. reflexivity.
  - vm_compute. reflexivity.
  - intros name port Hn Hc Hp. cbn [parse_uri_authority small_http]. destruct (print_u16_chars port Hp) as (Hd & _). rewrite rsplit_once_app; [cbn [mbind option_bind]; by rewrite parse_print_u16|].
    intros Hin. rewrite Forall_forall in Hd. specialize (Hd _ Hin). unfold COLON in Hd. cbn in Hd. lia.
Qed.

Example http_target : Target := Domain (text "example.org") 443.
Lemma http_connect_tunnels_witness :
  connect http_target = Ok (connect_text (text "example.org:443")) /\
  exists r', serve (mkReader [] [take 5 (connect_text (text "example.org:443")); drop 5 (connect_text (text "example.org:443")) ++ [7]; [8]]) = (established, Ok (http_target, r')) /\ content r' = [7; 8].
Proof.
  assert (Hs : sendable http_target) by (split_and!; [done|apply (Forall_impl (fun c => bool_decide (c = 46) || ((97 <=? c) && (c <=? 122)) = true)); [by vm_compute; repeat constructor|intros c [?%bool_decide_eq_true|[? ?]%andb_true_iff]%orb_true_iff; unfold host_char; zify_bool; lia]|done|done]).
  destruct (http_connect_tunnels http_target Hs ltac:(by vm_compute)) as (H1 & H2 & _). split; [exact H1|]. apply H2; [vm_compute; repeat constructor; done|vm_compute; reflexivity].
Defined.

Lemma http_refusal_seen_witness :
  serve (mkReader (text "GET / HTTP/1.1" ++ CRLF ++ CRLF) []) = (bad_request, Err NotConnect) /\ connected (mkReader bad_request []) = Err Rejected.
Proof.
  apply (http_refusal_seen _ (text "GET / HTTP/1.1" ++ CRLF ++ CRLF) [] NotConnect []); [constructor| |by vm_compute|vm_compute; reflexivity|vm_compute; reflexivity|constructor|vm_compute; reflexivity].
  split; [vm_compute; reflexivity|]. intros n Hn. assert (Hall : forallb (fun n => negb (ends_with (CRLF ++ CRLF) (take n (text "GET / HTTP/1.1" ++ CRLF ++ CRLF)))) (seq 0 18) = true) by (vm_compute; reflexivity).
  rewrite forallb_forall in Hall. apply negb_true_iff, Hall, in_seq. cbn in Hn. lia.
Defined.

End HttpConnect.
