(* ===== verification/Offload.v ===== *)
(** * Virtio frames of a Linux TUN device (crates/tun/src/offload.rs)

    The header written before a segmented TCP packet or a run of UDP datagrams, and the normalisation of a received frame before the common
    parser of Packet.v.  tun-rs' header codec and smoltcp's setters are parameters with their documented behaviour. *)

From S2P Require Import Prelude Packet.
Import Packet.

Module Offload.

Definition HDR_LEN : Z := 10.
Definition GSO_TCPV4 : Z := 1.
Definition GSO_TCPV6 : Z := 4.
Definition GSO_UDP_L4 : Z := 5.

(** [VirtioNetHdr] *)
Record Header := mkHeader { flags : Z; gso_type : Z; hdr_len : Z; gso_size : Z; csum_start : Z; csum_offset : Z }.

Inductive error :=
  | Short | InvalidGso | InvalidVersion | InvalidV6Size | InvalidV4Size | ShortV4 | NoTransport | Unsupported | Mismatch | ShortTcp | NotTcpGso
  | InvalidUdpSize | ShortUdp | NotUdpGso | ZeroSegment.

Abbreviation Res := (res error).

Class Virtio := {
  encode : Header -> bytes;
  decode : bytes -> option Header;
  ipv6_set_payload_len : Z -> bytes -> bytes;
  ipv4_set_total_len : Z -> bytes -> bytes;
  ipv4_fill_checksum : bytes -> bytes;
  tcp_new_checked : bytes -> bool;
  tcp_header_len : bytes -> Z;
  udp_new_checked : bytes -> bool;
  udp_len : bytes -> Z;
  udp_set_len : Z -> bytes -> bytes;
}.

Definition in_range (h : Header) : Prop :=
  0 <= flags h < 256 /\ 0 <= gso_type h < 256 /\ 0 <= hdr_len h < 65536 /\ 0 <= gso_size h < 65536 /\ 0 <= csum_start h < 65536 /\ 0 <= csum_offset h < 65536.

Class VirtioLaws `{Virtio} : Prop := {
  encode_len h : len (encode h) = HDR_LEN;
  decode_encode h p : in_range h -> decode (encode h ++ p) = Some h;
  decode_len b h : decode b = Some h -> HDR_LEN <= len b;
  ipv6_set_len_keeps n d : len (ipv6_set_payload_len n d) = len d;
  ipv4_set_len_keeps n d : len (ipv4_set_total_len n d) = len d;
  ipv4_fill_keeps d : len (ipv4_fill_checksum d) = len d;
  udp_set_len_keeps n d : len (udp_set_len n d) = len d;
  udp_len_set n d : udp_new_checked d = true -> 0 <= n < 65536 -> udp_len (udp_set_len n d) = n;
}.

Section offload.
Context `{Wire} `{Virtio}.

(** ** Sending *)

(** The header's length by the first byte: [None] for another version. *)
Definition ip_len (packet : bytes) : option (Family * Z) :=
  match packet with
  | b :: _ => if Z.shiftr b 4 =? 4 then Some (V4, Z.land b 15 * 4) else if Z.shiftr b 4 =? 6 then Some (V6, 40) else None
  | [] => None
  end.

(** [tcp_gso_header] *)
Definition tcp_gso_header (packet : bytes) (segment_size : Z) : Res bytes :=
  '(f, n) ← ok_or (ip_len packet) InvalidVersion;
  _ ← ensure (n <=? len packet) Short;
  _ ← ensure (tcp_new_checked (zdrop n packet)) ShortTcp;
  _ ← ensure (negb (segment_size =? 0)) ZeroSegment;
  Ok (encode (mkHeader 1 (match f with V4 => GSO_TCPV4 | V6 => GSO_TCPV6 end) ((n + tcp_header_len (zdrop n packet)) mod 65536) segment_size (n mod 65536) 16)).

(** The header of [send_udp_segments] for [count] payloads of [size] bytes. *)
Definition udp_gso_header (header : bytes) (count size : Z) : Res bytes :=
  n ← match header with
      | b :: _ => if Z.shiftr b 4 =? 4 then Ok 20 else if Z.shiftr b 4 =? 6 then Ok 40 else Err InvalidVersion
      | [] => Err InvalidVersion
      end;
  Ok (encode (mkHeader 1 (if 1 <? count then GSO_UDP_L4 else 0) (n + 8) (if 1 <? count then size else 0) n 6)).

(** ** Receiving *)

(** The lengths of a segmented packet's IP header become those of the whole packet. *)
Definition fix_ip (v6 : bool) (packet : bytes) : Res bytes :=
  if v6 then
    _ ← ensure ((40 <=? len packet) && (len packet - 40 <=? 65535)) InvalidV6Size;
    Ok (ipv6_set_payload_len (len packet - 40) packet)
  else
    _ ← ensure (len packet <=? 65535) InvalidV4Size;
    _ ← ensure (ipv4_new_checked packet) ShortV4;
    Ok (ipv4_fill_checksum (ipv4_set_total_len (len packet) packet)).

Definition version (packet : bytes) : Res bool :=
  match packet with
  | b :: _ => if Z.shiftr b 4 =? 4 then Ok false else if Z.shiftr b 4 =? 6 then Ok true else Err InvalidVersion
  | [] => Err InvalidVersion
  end.

(** The part of [normalize] after the virtio header: the packet, whether its checksum is taken care of, and the size of its UDP segments. *)
Definition normalize_packet (h : Header) (packet : bytes) : Res (bytes * bool * option Z) :=
  let gso := negb (gso_type h =? 0) in
  let verified := negb (Z.land (flags h) 3 =? 0) in
  if negb gso && negb verified then Ok (packet, false, None) else
  if gso && ((gso_size h =? 0) || negb verified) then Err InvalidGso else
  is_v6 ← version packet;
  packet ← if gso then fix_ip is_v6 packet else Ok packet;
  '(protocol, start) ← ok_or (offload_transport packet) NoTransport;
  expected ← if protocol =? Tcp then Ok 16 else if protocol =? Udp then Ok 6 else Err Unsupported;
  _ ← ensure (negb ((gso || negb (Z.land (flags h) 1 =? 0)) && (negb (csum_start h =? start) || negb (csum_offset h =? expected)))) Mismatch;
  if protocol =? Tcp then
    _ ← ensure (tcp_new_checked (zdrop start packet)) ShortTcp;
    _ ← ensure (negb (gso && negb (gso_type h =? if is_v6 : bool then GSO_TCPV6 else GSO_TCPV4))) NotTcpGso;
    Ok (packet, true, None)
  else
    _ ← ensure (len packet - start <=? 65535) InvalidUdpSize;
    _ ← ensure (udp_new_checked (zdrop start packet)) ShortUdp;
    if gso then
      _ ← ensure (gso_type h =? GSO_UDP_L4) NotUdpGso;
      Ok (ztake start packet ++ udp_set_len (len packet - start) (zdrop start packet), true, Some (gso_size h))
    else Ok (packet, true, None).

(** [normalize]: the frame afterwards. *)
Definition normalize (frame : bytes) : Res (bytes * bool * option Z) :=
  h ← ok_or (decode frame) Short;
  '(packet, verified, segment) ← normalize_packet h (zdrop HDR_LEN frame);
  Ok (ztake HDR_LEN frame ++ packet, verified, segment).

Context `{!WireLaws} `{!VirtioLaws}.

(** ** Lemmas *)

Lemma fix_ip_len v6 p p' : fix_ip v6 p = Ok p' -> len p' = len p.
Proof.
  unfold fix_ip. destruct v6.
  - destruct (_ && _); [|done]. cbn. intros [= <-]. apply ipv6_set_len_keeps.
  - destruct (len p <=? 65535); [|done]. cbn. destruct (ipv4_new_checked p); [|done]. cbn. intros [= <-]. by rewrite ipv4_fill_keeps, ipv4_set_len_keeps.
Qed.

Lemma transport_start p protocol start : offload_transport p = Some (protocol, start) -> 0 <= start <= len p.
Proof.
  unfold offload_transport. destruct (parse p) as [q|] eqn:Hq; [|done]. cbn. destruct (fragment q); [done|]. intros [= _ <-].
  assert (Hok : payload_ok p q).
  { revert Hq. unfold parse. destruct (len p =? 0); [done|]. destruct (of_packet p) as [[]|]; [| |done]; cbn [mbind option_bind].
    - destruct (parse_ipv4 p) as [q'|] eqn:H4; [|done]. cbn. destruct (_ || _ || _); [done|]. intros [= ->]. apply (parse_ipv4_spec _ _ H4).
    - destruct (parse_ipv6 p) as [q'|] eqn:H6; [|done]. cbn. destruct (_ || _ || _); [done|]. intros [= ->]. apply (parse_ipv6_spec _ _ H6). }
  destruct Hok as (? & ? & _). pose proof (len_nonneg (payload q)). lia.
Qed.

(** What an accepted packet satisfies: [packet] is the one the transport was found in. *)
Definition checked (h : Header) (packet packet' : bytes) (segment : option Z) : Prop :=
  Z.land (flags h) 3 <> 0 /\
  exists protocol start,
    offload_transport packet = Some (protocol, start) /\ (protocol = Tcp \/ protocol = Udp) /\
    ztake start packet' = ztake start packet /\
    (gso_type h <> 0 -> gso_size h <> 0 /\ csum_start h = start /\ csum_offset h = (if protocol =? Tcp then 16 else 6)) /\
    (forall n, segment = Some n -> protocol = Udp /\ n = gso_size h /\ n <> 0 /\ gso_type h = GSO_UDP_L4 /\ udp_len (zdrop start packet') = len packet' - start).

Lemma normalize_packet_spec h packet packet' verified segment :
  normalize_packet h packet = Ok (packet', verified, segment) ->
  len packet' = len packet /\
  if verified then exists located, len located = len packet /\ checked h located packet' segment else packet' = packet /\ segment = None /\ gso_type h = 0 /\ Z.land (flags h) 3 = 0.
Proof.
  unfold normalize_packet. destruct (gso_type h =? 0) eqn:Hg, (Z.land (flags h) 3 =? 0) eqn:Hf; zify_bool; cbn [negb andb orb].
  - intros [= <- <- <-]. split; [done|]. by split_and!.
  - destruct (version packet) as [v6|]; [|done]. cbn [mbind res_bind]. destruct (offload_transport packet) as [[pr st]|] eqn:Ht; [|done]. cbn [ok_or mbind res_bind].
    destruct (pr =? Tcp) eqn:Hpt; [|destruct (pr =? Udp) eqn:Hpu; [|done]]; zify_bool; cbn [mbind res_bind]; (destruct (negb _) in |- * at 1; [|done]); cbn [ensure mbind res_bind].
    + destruct (tcp_new_checked _); [|done]. cbn. intros [= <- <- <-]. split; [done|]. exists packet. split; [done|]. split; [done|]. exists pr, st. split; [done|]. split; [by left|]. split; [done|]. split; [by intros Hx; destruct Hx|done].
    + destruct (_ <=? _); [|done]. cbn. destruct (udp_new_checked _); [|done]. cbn. intros [= <- <- <-]. split; [done|]. exists packet. split; [done|]. split; [done|]. exists pr, st. split; [done|]. split; [by right|]. split; [done|]. split; [by intros Hx; destruct Hx|done].
  - rewrite orb_true_r. done.
  - destruct (gso_size h =? 0) eqn:Hs; [done|]. zify_bool. cbn [orb]. destruct (version packet) as [v6|]; [|done]. cbn [mbind res_bind]. destruct (fix_ip v6 packet) as [q|] eqn:Hq; [|done]. cbn [mbind res_bind].
    pose proof (fix_ip_len _ _ _ Hq) as Hlq. destruct (offload_transport q) as [[pr st]|] eqn:Ht; [|done]. cbn [ok_or mbind res_bind]. pose proof (transport_start _ _ _ Ht).
    destruct (pr =? Tcp) eqn:Hpt; [|destruct (pr =? Udp) eqn:Hpu; [|done]]; zify_bool; cbn [mbind res_bind andb];
      (destruct (csum_start h =? st) eqn:Hcs; cbn [negb orb ensure mbind res_bind]; [|done]); (destruct (csum_offset h =? _) eqn:Hco; cbn [negb orb ensure mbind res_bind]; [|done]); zify_bool.
    + destruct (tcp_new_checked _); [|done]. cbn [ensure mbind res_bind]. destruct (gso_type h =? _); [|done]. cbn. intros [= <- <- <-]. split; [done|]. exists q. split; [done|]. split; [done|]. exists pr, st. rewrite Hpt. split; [by rewrite <- Hpt|]. split; [by left|]. split; [done|]. split; [by intros _; split_and!|done].
    + destruct (len q - st <=? 65535) eqn:Hl; [|done]. zify_bool. cbn [ensure mbind res_bind]. destruct (udp_new_checked (zdrop st q)) eqn:Hu; [|done]. cbn [ensure mbind res_bind]. destruct (gso_type h =? GSO_UDP_L4) eqn:Hgu; [|done]. zify_bool. cbn. intros [= <- <- <-].
      assert (Hlen : len (ztake st q ++ udp_set_len (len q - st) (zdrop st q)) = len q) by (rewrite len_app, udp_set_len_keeps, len_ztake, len_zdrop by lia; lia). split; [lia|]. exists q. split; [done|]. split; [done|]. exists pr, st. split_and!; try done; [by right| | |].
      * by rewrite ztake_app_exact by (rewrite len_ztake; lia).
      * intros _. by rewrite (proj2 (Z.eqb_neq pr Tcp)).
      * intros n [= <-]. split_and!; try done. rewrite zdrop_app_exact, Hlen by (rewrite len_ztake; lia). by apply udp_len_set; [|lia].
Qed.

(** Only checked packets are taken as verified.  A frame without offload is passed on unchanged; of any other that is accepted, the device vouched for the
    checksum, the packet is a whole TCP or UDP packet by the common parser, the checksum metadata of a segmented one names its transport header, and a run of
    UDP segments has a segment size and the UDP length of the whole run. *)
Theorem offload_frames_checked frame frame' verified segment :
  normalize frame = Ok (frame', verified, segment) ->
  len frame' = len frame /\ ztake HDR_LEN frame' = ztake HDR_LEN frame /\
  exists h, decode frame = Some h /\
    if verified then exists located, len located = len frame - HDR_LEN /\ checked h located (zdrop HDR_LEN frame') segment else frame' = frame /\ segment = None.
Proof.
  unfold normalize. destruct (decode frame) as [h|] eqn:Hd; [|done]. cbn [ok_or mbind res_bind]. pose proof (decode_len _ _ Hd) as Hlen. unfold HDR_LEN in *.
  destruct (normalize_packet h (zdrop 10 frame)) as [[[p v] sg]|] eqn:Hn; [|done]. cbn. intros [= <- <- <-]. apply normalize_packet_spec in Hn as [Hl Hv]. rewrite len_zdrop in Hl by lia.
  split; [rewrite len_app, len_ztake; lia|]. split; [by rewrite ztake_app_exact by (rewrite len_ztake; lia)|]. exists h. split; [done|]. rewrite zdrop_app_exact by (rewrite len_ztake; lia). destruct v.
  - destruct Hv as (q & Hq & Hc). rewrite len_zdrop in Hq by lia. exists q. split; [lia|done].
  - destruct Hv as (-> & -> & _). split; [|done]. rewrite ztake_zdrop by lia. done.
Qed.

Lemma offload_decode_frame h p : in_range h -> ok_or (decode (encode h ++ p)) Short = Ok h /\ zdrop HDR_LEN (encode h ++ p) = p /\ ztake HDR_LEN (encode h ++ p) = encode h.
Proof. intros Hr. rewrite decode_encode by done. split_and!; [done|by apply zdrop_app_exact; rewrite encode_len|by apply ztake_app_exact; rewrite encode_len]. Qed.

(** What is sent is accepted.  A whole TCP packet with the header written for it normalises to itself, and so does a run of UDP datagrams, up to the UDP length,
    which becomes that of the run, and with its segment size. *)
Theorem offload_sent_accepted p f n size count :
  ip_len p = Some (f, n) -> fix_ip (match f with V4 => false | V6 => true end) p = Ok p -> 0 < size < 65536 -> 1 <= count ->
  (offload_transport p = Some (Tcp, n) -> tcp_new_checked (zdrop n p) = true ->
     exists h, tcp_gso_header p size = Ok h /\ normalize (h ++ p) = Ok (h ++ p, true, None)) /\
  (offload_transport p = Some (Udp, n) -> udp_new_checked (zdrop n p) = true -> len p - n <= 65535 -> n = (match f with V4 => 20 | V6 => 40 end) ->
     exists h, udp_gso_header p count size = Ok h /\
       normalize (h ++ p) = Ok (h ++ (if 1 <? count then ztake n p ++ udp_set_len (len p - n) (zdrop n p) else p), true, if 1 <? count then Some size else None)).
Proof.
  intros Hip Hfix Hsize Hcount.
  assert (Hv : version p = Ok (match f with V4 => false | V6 => true end) /\ 0 <= n <= 60).
  { revert Hip. unfold ip_len, version. destruct p as [|b p]; [done|]. assert (0 <= Z.land b 15 <= 15) by (change 15 with (Z.ones 4); rewrite Z.land_ones by lia; change (2 ^ 4) with 16; pose proof (Z.mod_pos_bound b 16); change (Z.ones 4) with 15; lia).
    destruct (_ =? 4); [intros [= <- <-]; split; [done|lia]|]. destruct (_ =? 6); [intros [= <- <-]; split; [done|lia]|done]. }
  destruct Hv as [Hv Hn]. split.
  - intros Ht Htcp. pose proof (transport_start _ _ _ Ht). eexists. split.
    { unfold tcp_gso_header. rewrite Hip. cbn [ok_or mbind res_bind]. rewrite (proj2 (Z.leb_le _ _)) by lia. cbn [ensure mbind res_bind]. rewrite Htcp. cbn [ensure mbind res_bind]. rewrite (proj2 (Z.eqb_neq size 0)) by lia. reflexivity. }
    set (h := mkHeader _ _ _ _ _ _). assert (Hr : in_range h) by (unfold in_range; cbn; pose proof (Z.mod_pos_bound (n + tcp_header_len (zdrop n p)) 65536); destruct f; unfold GSO_TCPV4, GSO_TCPV6; rewrite (Z.mod_small n) by lia; lia).
    destruct (offload_decode_frame h p Hr) as (Hd1 & Hd2 & Hd3). unfold normalize. rewrite Hd1. cbn [mbind res_bind]. rewrite Hd2, Hd3. unfold normalize_packet. cbn [gso_type flags gso_size csum_start csum_offset h].
    replace ((match f with V4 => GSO_TCPV4 | V6 => GSO_TCPV6 end) =? 0) with false by (by destruct f). rewrite (proj2 (Z.eqb_neq size 0)) by lia. cbn [negb andb orb Z.land Pos.land Z.eqb]. rewrite Hv. cbn [mbind res_bind]. rewrite Hfix. cbn [mbind res_bind]. rewrite Ht. cbn [ok_or mbind res_bind].
    rewrite (Z.mod_small n) by lia. rewrite !Z.eqb_refl. cbn [mbind res_bind negb orb andb ensure]. rewrite Htcp. cbn [ensure mbind res_bind]. destruct f; reflexivity.
  - intros Ht Hudp Hl Hnf. pose proof (transport_start _ _ _ Ht). eexists. split.
    { assert (Hu : udp_gso_header p count size = Ok (encode (mkHeader 1 (if 1 <? count then GSO_UDP_L4 else 0) (n + 8) (if 1 <? count then size else 0) n 6))); [|exact Hu].
      unfold udp_gso_header. revert Hip. unfold ip_len. destruct p as [|b p]; [done|]. destruct (_ =? 4); [intros [= <- _]|destruct (_ =? 6); [intros [= <- _]|done]]; subst n; reflexivity. }
    set (h := mkHeader _ _ _ _ _ _). assert (Hr : in_range h) by (unfold in_range; cbn; destruct (1 <? count); unfold GSO_UDP_L4; lia).
    destruct (offload_decode_frame h p Hr) as (Hd1 & Hd2 & Hd3). unfold normalize. rewrite Hd1. cbn [mbind res_bind]. rewrite Hd2, Hd3. unfold normalize_packet. cbn [gso_type flags gso_size csum_start csum_offset h].
    destruct (1 <? count); cbn [negb andb orb Z.land Pos.land Z.eqb GSO_UDP_L4]; [rewrite (proj2 (Z.eqb_neq size 0)) by lia; cbn [orb]|]; rewrite Hv; cbn [mbind res_bind]; [rewrite Hfix; cbn [mbind res_bind]|];
      rewrite Ht; cbn [ok_or mbind res_bind]; change (Udp =? Tcp) with false; change (Udp =? Udp) with true; cbn [mbind res_bind]; rewrite !Z.eqb_refl; cbn [negb orb andb ensure mbind res_bind];
      rewrite (proj2 (Z.leb_le (len p - n) 65535)) by lia; cbn [ensure mbind res_bind]; rewrite Hudp; reflexivity.
Qed.

End offload.

(** ** Examples *)

Definition le_put (n : Z) : bytes := [n mod 256; n / 256 mod 256].
Definition le_get (b : bytes) (i : Z) : Z := default 0 (zget b i) + 256 * default 0 (zget b (i + 1)).
Definition put16 (at_ n : Z) (d : bytes) : bytes := if at_ + 2 <=? len d then overwrite at_ (be_put 2 n) d else d.

Lemma len_put16 at_ n d : 0 <= at_ -> len (put16 at_ n d) = len d.
Proof. intros Ha. unfold put16. case_bool; [|done]. rewrite len_overwrite; [done|done|]. rewrite len_be_put. lia. Qed.

Lemma le_get_put n : 0 <= n < 65536 -> n mod 256 + 256 * (n / 256 mod 256) = n.
Proof. intros Hn. rewrite (Z.mod_small (n / 256)) by (split; [apply Z.div_pos; lia|apply Z.div_lt_upper_bound; lia]). pose proof (Z.div_mod n 256). lia. Qed.

#[local] Instance le_virtio : Virtio := {|
  encode h := [flags h; gso_type h] ++ le_put (hdr_len h) ++ le_put (gso_size h) ++ le_put (csum_start h) ++ le_put (csum_offset h);
  decode b := if len b <? HDR_LEN then None else Some (mkHeader (default 0 (zget b 0)) (default 0 (zget b 1)) (le_get b 2) (le_get b 4) (le_get b 6) (le_get b 8));
  ipv6_set_payload_len n d := put16 4 n d;
  ipv4_set_total_len n d := put16 2 n d;
  ipv4_fill_checksum d := let z := put16 10 0 d in put16 10 (65535 - header_sum z (4 * Z.land (byte z 0) 15)) z;
  tcp_new_checked d := 20 <=? len d;
  tcp_header_len d := 4 * (byte d 12 / 16);
  udp_new_checked d := 8 <=? len d;
  udp_len d := be16 d 4;
  udp_set_len n d := put16 4 n d;
|}.

#[local] Instance le_virtio_laws : VirtioLaws.
Proof.
  constructor.
  - done.
  - intros h p Hr. unfold in_range in Hr. cbn [decode encode le_virtio]. rewrite (proj2 (Z.ltb_ge _ _)) by (rewrite len_app; change (len _) with 10 at 1; pose proof (len_nonneg p); unfold HDR_LEN; lia).
    destruct h as [a b c d e f]. cbn in Hr. let v x := constr:(x mod 256 + 256 * (x / 256 mod 256)) in let c' := v c in let d' := v d in let e' := v e in let f' := v f in change (Some (mkHeader a b c' d' e' f') = Some (mkHeader a b c d e f)). by rewrite !le_get_put by lia.
  - intros b h. cbn. case_bool; [done|]. intros _. unfold HDR_LEN in *. lia.
  - intros n d. by apply len_put16.
  - intros n d. by apply len_put16.
  - intros d. cbn. by rewrite !len_put16.
  - intros n d. by apply len_put16.
  - intros n d Hd Hn. cbn in Hd. zify_bool. cbn [udp_len udp_set_len le_virtio]. unfold put16. rewrite (proj2 (Z.leb_le _ _)) by lia. unfold be16, byte. rewrite !zget_overwrite by (rewrite ?len_be_put; lia). rewrite len_be_put.
    change (Z.land (n / 256 mod 256) 255 * 256 + Z.land (n / 1 mod 256) 255 = n). rewrite Z.div_1_r. change 255 with (Z.ones 8). rewrite !Z.land_ones by lia. change (2 ^ 8) with 256.
    rewrite !Z.mod_mod by lia. pose proof (le_get_put n Hn). lia.
Qed.

(** Two UDP datagrams of three bytes over IPv6. *)
Example offload_packet : bytes :=
  [96; 0; 0; 0; 0; 14; 17; 64] ++ (32 :: replicate 14 0 ++ [1]) ++ (32 :: replicate 14 0 ++ [2]) ++ [4; 1; 0; 53; 0; 11; 0; 0; 1; 2; 3; 4; 5; 6].

Lemma offload_sent_accepted_witness : exists h,
  udp_gso_header offload_packet 2 3 = Ok h /\ normalize (h ++ offload_packet) = Ok (h ++ overwrite 44 [0; 14] offload_packet, true, Some 3).
Proof.
  destruct (proj2 (offload_sent_accepted offload_packet V6 40 3 2 ltac:(vm_compute; reflexivity) ltac:(vm_compute; reflexivity) ltac:(lia) ltac:(lia))
    ltac:(vm_compute; reflexivity) ltac:(vm_compute; reflexivity) ltac:(vm_compute; discriminate) eq_refl) as (h & Hh & Hn).
  exists h. split; [exact Hh|]. rewrite Hn. vm_compute in Hh. injection Hh as <-. vm_compute. reflexivity.
Defined.

Example offload_frame : bytes := match udp_gso_header offload_packet 2 3 with Ok h => h ++ offload_packet | Err _ => [] end.
Lemma offload_frames_checked_witness : exists frame', normalize offload_frame = Ok (frame', true, Some 3) /\ len frame' = len offload_frame.
Proof. eexists. split; [vm_compute; reflexivity|]. apply (offload_frames_checked offload_frame _ true (Some 3)). vm_compute. reflexivity. Defined.

End Offload.
