(* ===== verification/Daemon.v ===== *)
(** * The daemon's lifecycle (crates/daemon/src/lib.rs)

    The policy worker's loop, the task that drains resources, the callers of policy and the owner, as one machine over the cancellation tokens they share.
    An event is one step of one of them.  The branches of a biased [select!] are allowed in any order, which only adds behaviours.  What a handler answers is
    the script's affair; here a call is a number, and what matters is whether it is answered. *)

From S2P Require Import Prelude.

Module Daemon.

Definition CAPACITY : nat := 64.

(** How the worker ended: [Shutdown], or an error. *)
Inductive outcome := Drained | TimedOut | Failed.

(** The worker's thread: creating the script, in the loop of [serve], waiting for the script to be idle, or with a result. *)
Inductive worker := Starting | Serving | Idling | Done (o : outcome).

(** The [drain] task. *)
Inductive drain := Waiting | EntryPoints | Services | Aborting | Over.

Record state := mkState {
  shutdown : bool; stopping : bool; force : bool; calls_token : bool; released : bool;
  at_ : worker;
  evaluating : bool;                (* [ready] is still there *)
  hooks_finished : bool;
  exhausted : bool;
  closed : bool;                    (* [commands.close()] *)
  queue : list Z;                   (* the channel of commands *)
  calls : list Z;                   (* the calls dispatched and not finished *)
  accepted : list Z;                (* every call the channel took, in order *)
  answered : list Z;
  dropped : list Z;                 (* calls whose reply was dropped: the caller gets [Error::Closed] *)
  drain_at : drain;
  entry_drained : bool; service_drained : bool; aborted : bool;
  entry_released : bool; service_released : bool;
  network_failed : bool;
}.

Definition init : state := mkState false false false false false Starting true false false false [] [] [] [] [] Waiting false false false false false false.

(** Taking one finished future out of [FuturesUnordered]. *)
Fixpoint list_remove_one (x : Z) (l : list Z) : list Z :=
  match l with [] => [] | y :: l => if x =? y then l else y :: list_remove_one x l end.

(** ** The worker *)

(** The worker returns: the script, the calls and the channel go. *)
Definition finish (o : outcome) (s : state) : state :=
  mkState (shutdown s) (stopping s) (force s) (calls_token s) (released s) (Done o) (evaluating s) (hooks_finished s) (exhausted s) true [] [] (accepted s) (answered s)
    (dropped s ++ calls s ++ queue s) (drain_at s) (entry_drained s) (service_drained s) (aborted s) (entry_released s) (service_released s) (network_failed s).

Definition set_worker (w : worker) (s : state) : state :=
  mkState (shutdown s) (stopping s) (force s) (calls_token s) (released s) w (evaluating s) (hooks_finished s) (exhausted s) (closed s) (queue s) (calls s) (accepted s) (answered s)
    (dropped s) (drain_at s) (entry_drained s) (service_drained s) (aborted s) (entry_released s) (service_released s) (network_failed s).

Definition set_tokens (sh st fo ca re : bool) (s : state) : state :=
  mkState sh st fo ca re (at_ s) (evaluating s) (hooks_finished s) (exhausted s) (closed s) (queue s) (calls s) (accepted s) (answered s)
    (dropped s) (drain_at s) (entry_drained s) (service_drained s) (aborted s) (entry_released s) (service_released s) (network_failed s).

Definition set_calls (ex cl : bool) (q c acc ans : list Z) (s : state) : state :=
  mkState (shutdown s) (stopping s) (force s) (calls_token s) (released s) (at_ s) (evaluating s) (hooks_finished s) ex cl q c acc ans
    (dropped s) (drain_at s) (entry_drained s) (service_drained s) (aborted s) (entry_released s) (service_released s) (network_failed s).

Definition set_loop (ev hf : bool) (s : state) : state :=
  mkState (shutdown s) (stopping s) (force s) (calls_token s) (released s) (at_ s) ev hf (exhausted s) (closed s) (queue s) (calls s) (accepted s) (answered s)
    (dropped s) (drain_at s) (entry_drained s) (service_drained s) (aborted s) (entry_released s) (service_released s) (network_failed s).

Definition set_drain (d : drain) (ed sd ab er sr : bool) (s : state) : state :=
  mkState (shutdown s) (stopping s) (force s) (calls_token s) (released s) (at_ s) (evaluating s) (hooks_finished s) (exhausted s) (closed s) (queue s) (calls s) (accepted s) (answered s)
    (dropped s) d ed sd ab er sr (network_failed s).

Inductive event :=
  (* the owner, the deadline and [Worker::drop] *)
  | Stop | Deadline | Dropped | WaitFailed
  (* a caller of [Policy] *)
  | Send (call : Z)
  (* the worker *)
  | ScriptReady | ScriptFailed | SeeForce | Evaluated (ok : bool) | HooksDone (ok : bool) | CloseCommands | CallDone (call : Z) | Receive | Quiesce | ScriptIdle | ThreadExit
  (* the drain task, and the resources it waits for *)
  | DrainEntryPoints | DrainServices | Abort | Release | EntryReleased | ServiceReleased
  (* an inbound fails *)
  | NetworkFailed.

Definition guard (b : bool) (s : state) : option state := if b then Some s else None.

Definition serving (s : state) : bool := match at_ s with Serving => true | _ => false end.

Definition hooks_running (s : state) : bool := shutdown s && negb (hooks_finished s).

(** The worker's steps: the branches of [serve]. *)
Definition worker_step (s : state) (e : event) : option state :=
  match e with
  | ScriptReady => match at_ s with Starting => Some (set_worker Serving s) | _ => None end
  | ScriptFailed => match at_ s with Starting => Some (finish Failed s) | _ => None end
  | SeeForce => match at_ s with Serving | Idling => guard (force s) (finish TimedOut s) | _ => None end
  | Evaluated ok =>
      guard (serving s && evaluating s) (set_tokens (shutdown s || negb ok) (stopping s) (force s) (calls_token s) (released s) (set_loop false (hooks_finished s) s))
  | HooksDone ok =>
      let s' := set_tokens (shutdown s) true (force s) (calls_token s) (released s) (set_loop (evaluating s) true s) in
      guard (serving s && hooks_running s) (if ok then s' else finish Failed s')
  | CloseCommands => guard (serving s && stopping s && negb (closed s)) (set_calls (exhausted s) true (queue s) (calls s) (accepted s) (answered s) s)
  | CallDone call =>
      guard (serving s && bool_decide (call ∈ calls s))
        (set_calls (exhausted s) (closed s) (queue s) (list_remove_one call (calls s)) (accepted s) (answered s ++ [call]) s)
  | Receive =>
      if negb (serving s) || exhausted s then None else
      match queue s with
      | call :: rest => Some (set_calls (exhausted s) (closed s) rest (calls s ++ [call]) (accepted s) (answered s) s)
      | [] => guard (closed s) (set_calls true (closed s) [] (calls s) (accepted s) (answered s) s)
      end
  | Quiesce =>
      guard (serving s && exhausted s && bool_decide (calls s = []) && negb (hooks_running s) && negb (evaluating s))
        (set_worker Idling (set_tokens (shutdown s) (stopping s) (force s) true (released s) s))
  | ScriptIdle => match at_ s with Idling => Some (finish Drained s) | _ => None end
  | ThreadExit => match at_ s with Done _ => Some (set_tokens (shutdown s) (stopping s) (force s) true (released s) s) | _ => None end
  | _ => None
  end.

(** The [drain] task: [drain_tier] and [abort] of the resources, which are released in their own time once they are asked to end. *)
Definition drain_step (s : state) (e : event) : option state :=
  match e with
  | DrainEntryPoints =>
      match drain_at s with Waiting => guard (stopping s) (set_drain EntryPoints true (service_drained s) (aborted s) (entry_released s) (service_released s) s) | _ => None end
  | DrainServices =>
      match drain_at s with
      | EntryPoints => guard (entry_released s && calls_token s) (set_drain Services (entry_drained s) true (aborted s) (entry_released s) (service_released s) s)
      | _ => None
      end
  | Abort =>
      match drain_at s with
      | Waiting | EntryPoints | Services => guard (force s) (set_drain Aborting (entry_drained s) (service_drained s) true (entry_released s) (service_released s) s)
      | _ => None
      end
  | Release =>
      match drain_at s with
      | Services => guard (service_released s) (set_tokens (shutdown s) (stopping s) (force s) (calls_token s) true (set_drain Over (entry_drained s) (service_drained s) (aborted s) (entry_released s) (service_released s) s))
      | Aborting =>
          guard (entry_released s && service_released s)
            (set_tokens (shutdown s) (stopping s) (force s) (calls_token s) true (set_drain Over (entry_drained s) (service_drained s) (aborted s) (entry_released s) (service_released s) s))
      | _ => None
      end
  | EntryReleased => guard (entry_drained s || aborted s) (set_drain (drain_at s) (entry_drained s) (service_drained s) (aborted s) true (service_released s) s)
  | ServiceReleased => guard (service_drained s || aborted s) (set_drain (drain_at s) (entry_drained s) (service_drained s) (aborted s) (entry_released s) true s)
  | _ => None
  end.

(** The rest: [Daemon::stop], the deadline's task, [Worker::drop], the failed worker of [Daemon::wait], and [Policy::send].  The tokens that the
    drop or the failed wait cancel one after another are one step here, and so are a caller's look at [stopping] and its push. *)
Definition owner_step (s : state) (e : event) : option state :=
  match e with
  | Stop => Some (set_tokens true (stopping s) (force s) (calls_token s) (released s) s)
  | Deadline => guard (shutdown s) (set_tokens (shutdown s) (stopping s) true (calls_token s) (released s) s)
  | Dropped => Some (set_tokens true true true (calls_token s) (released s) s)
  | WaitFailed => match at_ s with Done Failed => Some (set_tokens (shutdown s) true true (calls_token s) (released s) s) | _ => None end
  | Send call =>
      guard (negb (stopping s) && negb (closed s) && bool_decide (length (queue s) < CAPACITY)%nat)
        (set_calls (exhausted s) (closed s) (queue s ++ [call]) (calls s) (accepted s ++ [call]) (answered s) s)
  | NetworkFailed =>
      Some (mkState true (stopping s) (force s) (calls_token s) (released s) (at_ s) (evaluating s) (hooks_finished s) (exhausted s) (closed s) (queue s) (calls s) (accepted s) (answered s)
              (dropped s) (drain_at s) (entry_drained s) (service_drained s) (aborted s) (entry_released s) (service_released s) true)
  | _ => None
  end.

Definition step (s : state) (e : event) : option state :=
  match worker_step s e with
  | Some s' => Some s'
  | None => match drain_step s e with Some s' => Some s' | None => owner_step s e end
  end.

Fixpoint run (s : state) (es : list event) : option state :=
  match es with [] => Some s | e :: es => s ← step s e; run s es end.

(** [Daemon::wait], once both parts have ended. *)
Definition wait (s : state) : option outcome :=
  match at_ s with
  | Done o =>
      if negb (released s) then None
      else Some (match o with
                 | Failed => Failed
                 | _ => if network_failed s then Failed else match o with TimedOut => TimedOut | _ => if force s then TimedOut else Drained end
                 end)
  | _ => None
  end.

(** ** Invariant *)

Record Inv (s : state) : Prop := {
  i_calls : accepted s ≡ₚ answered s ++ dropped s ++ calls s ++ queue s;
  i_served : match at_ s with
             | Done o => calls s = [] /\ queue s = [] /\ closed s = true /\ (o = Drained -> dropped s = []) /\ (o = TimedOut -> force s = true)
             | Idling => calls s = [] /\ queue s = [] /\ closed s = true /\ dropped s = []
             | Serving => calls_token s = false /\ dropped s = [] /\ (exhausted s = true -> queue s = [] /\ closed s = true)
             | Starting => calls_token s = false /\ dropped s = [] /\ exhausted s = false /\ calls s = []
             end;
  i_stopping : stopping s = true -> hooks_finished s = true \/ force s = true;
  i_closed : closed s = true -> match at_ s with Done _ => True | _ => stopping s = true end;
  i_entry : entry_drained s = true -> stopping s = true;
  i_service : service_drained s = true -> entry_released s = true /\ calls_token s = true /\ entry_drained s = true;
  i_abort : aborted s = true -> force s = true;
  i_drain : match drain_at s with
            | Waiting => released s = false
            | EntryPoints => entry_drained s = true /\ released s = false
            | Services => service_drained s = true /\ released s = false
            | Aborting => aborted s = true /\ released s = false
            | Over => released s = true /\ entry_released s = true /\ service_released s = true /\ (service_drained s = true \/ aborted s = true)
            end;
  i_released : released s = true -> drain_at s = Over;
  i_released_when : (entry_released s = true -> entry_drained s = true \/ aborted s = true) /\ (service_released s = true -> service_drained s = true \/ aborted s = true);
}.

Lemma lifecycle_init : Inv init.
Proof. constructor; cbn; try done. Qed.

Lemma remove_one_perm x l : x ∈ l -> l ≡ₚ x :: list_remove_one x l.
Proof.
  induction l as [|y l IH]; [by intros ?%elem_of_nil|]. intros [->|Hx]%elem_of_cons; cbn; [by rewrite Z.eqb_refl|]. destruct (x =? y) eqn:E; zify_bool; [by subst|].
  rewrite (IH Hx) at 1. constructor.
Qed.

(** Invariants survive steps that change none of their fields but tokens that only turn on. *)
Ltac easy_inv :=
  match goal with H : Inv _ |- Inv _ => destruct H as [Hcalls Hserved Hstop Hclosed Hentry Hservice Habort Hdrain Hrel Hwhen] end;
  constructor; cbn in *; try done.

Ltac fin := intuition (subst; congruence).

Lemma owner_inv s e s' : Inv s -> owner_step s e = Some s' -> Inv s'.
Proof.
  intros HI. destruct e; cbn [owner_step]; try done.
  - intros [= <-]. easy_inv.
  - unfold guard. destruct (shutdown s); [|done]. intros [= <-]. easy_inv; [by destruct (at_ s); fin|fin].
  - intros [= <-]. easy_inv; [by destruct (at_ s); fin|fin|by destruct (at_ s)].
  - destruct (at_ s) as [| | |[]] eqn:Ha; try done. intros [= <-]. easy_inv; [rewrite Ha in *; fin|fin|by rewrite Ha].
  - unfold guard. destruct (stopping s) eqn:Hst; [done|]. destruct (closed s) eqn:Hcl; [done|]. cbn. destruct (bool_decide _); [|done]. intros [= <-]. easy_inv.
    + rewrite Hcalls, <- !app_assoc. done.
    + destruct (at_ s); fin.
  - intros [= <-]. easy_inv.
Qed.

Lemma drain_task_inv s e s' : Inv s -> drain_step s e = Some s' -> Inv s'.
Proof.
  intros HI. destruct e; cbn [drain_step]; try done; unfold guard.
  - destruct (drain_at s) eqn:Hd; try done. destruct (stopping s) eqn:Hst; [|done]. intros [= <-]. easy_inv; rewrite ?Hd in *; fin.
  - destruct (drain_at s) eqn:Hd; try done. destruct (entry_released s && calls_token s) eqn:Hg; [|done]. apply andb_true_iff in Hg as [? ?]. intros [= <-]. easy_inv; rewrite ?Hd in *; fin.
  - destruct (drain_at s) eqn:Hd; try done; (destruct (force s) eqn:Hf; [|done]); intros [= <-]; easy_inv; rewrite ?Hd in *; fin.
  - destruct (drain_at s) eqn:Hd; try done.
    + destruct (service_released s) eqn:Hg; [|done]. intros [= <-]. easy_inv; rewrite ?Hd in *; try fin.
    + destruct (entry_released s && service_released s) eqn:Hg; [|done]. apply andb_true_iff in Hg as [? ?]. intros [= <-]. easy_inv; rewrite ?Hd in *; fin.
  - destruct (entry_drained s || aborted s) eqn:Hg; [|done]. apply orb_true_iff in Hg. intros [= <-]. easy_inv; [fin|destruct (drain_at s); fin|fin].
  - destruct (service_drained s || aborted s) eqn:Hg; [|done]. apply orb_true_iff in Hg. intros [= <-]. easy_inv; [destruct (drain_at s); fin|fin].
Qed.

(** Ending the worker resolves every call: what was not answered is dropped. *)
Lemma worker_finish_inv o s :
  Inv s -> (forall p, at_ s <> Done p) -> (o = Drained -> at_ s = Idling) -> (o = TimedOut -> force s = true) -> Inv (finish o s).
Proof.
  intros HI Hnot Hdr Hto. easy_inv.
  - rewrite Hcalls. by rewrite app_nil_r.
  - split_and!; try done. intros Ho. specialize (Hdr Ho). rewrite Hdr in Hserved. destruct Hserved as (-> & -> & _ & ->). done.
Qed.

Lemma serving_at s : serving s = true -> at_ s = Serving.
Proof. unfold serving. by destruct (at_ s). Qed.

Lemma worker_inv s e s' : Inv s -> worker_step s e = Some s' -> Inv s'.
Proof.
  intros HI. destruct e; cbn [worker_step]; try done; unfold guard.
  - destruct (at_ s) eqn:Ha; try done. intros [= <-]. easy_inv; rewrite Ha in *; fin.
  - destruct (at_ s) eqn:Ha; try done. intros [= <-]. apply worker_finish_inv; rewrite ?Ha; done.
  - destruct (at_ s) eqn:Ha; try done; (destruct (force s) eqn:Hf; [|done]); intros [= <-]; apply worker_finish_inv; rewrite ?Ha; done.
  - destruct (serving s && evaluating s) eqn:Hg; [|done]. intros [= <-]. easy_inv.
  - destruct (serving s && hooks_running s) eqn:Hg; [|done]. apply andb_true_iff in Hg as [Hs%serving_at _].
    assert (HI' : Inv (set_tokens (shutdown s) true (force s) (calls_token s) (released s) (set_loop (evaluating s) true s))) by (easy_inv; rewrite ?Hs in *; fin).
    destruct ok; intros [= <-]; [done|]. apply worker_finish_inv; [done|cbn; congruence|done|done].
  - destruct (serving s && stopping s && negb (closed s)) eqn:Hg; [|done]. apply andb_true_iff in Hg as [[Hs%serving_at Hst]%andb_true_iff _]. intros [= <-]. easy_inv; rewrite Hs in *; fin.
  - destruct (serving s && bool_decide (call ∈ calls s)) eqn:Hg; [|done]. apply andb_true_iff in Hg as [Hs%serving_at Hin%bool_decide_eq_true]. intros [= <-]. easy_inv; rewrite ?Hs in *; [|done].
    rewrite Hcalls, (remove_one_perm call (calls s) Hin) at 1. rewrite <- !app_assoc. cbn. by rewrite <- Permutation_middle.
  - destruct (serving s) eqn:Hs; [|done]. apply serving_at in Hs. cbn. destruct (exhausted s) eqn:He; [done|]. destruct (queue s) as [|c q] eqn:Hq.
    + destruct (closed s) eqn:Hc; [|done]. intros [= <-]. easy_inv; rewrite ?Hs, ?Hq in *; try done; fin.
    + intros [= <-]. easy_inv; rewrite ?Hs in *; [|fin..]. rewrite Hcalls, Hq, <- !app_assoc. done.
  - destruct (_ && _) eqn:Hg; [|done]. apply andb_true_iff in Hg as [[[[Hs%serving_at He]%andb_true_iff Hc%bool_decide_eq_true]%andb_true_iff _]%andb_true_iff _]. intros [= <-]. easy_inv; rewrite Hs in *; fin.
  - destruct (at_ s) eqn:Ha; try done. intros [= <-]. apply worker_finish_inv; rewrite ?Ha; done.
  - destruct (at_ s) eqn:Ha; try done. intros [= <-]. easy_inv; rewrite ?Ha in *; fin.
Qed.

Lemma lifecycle_inv es s s' : Inv s -> run s es = Some s' -> Inv s'.
Proof.
  revert s. induction es as [|e es IH]; intros s HI; cbn [run]; [by intros [= <-]|]. destruct (step s e) as [q|] eqn:Hq; [|done]. cbn. apply IH. revert Hq. unfold step.
  destruct (worker_step s e) as [q1|] eqn:H1; [intros [= <-]; by eapply worker_inv|]. destruct (drain_step s e) as [q2|] eqn:H2; [intros [= <-]; by eapply drain_task_inv|]. by apply owner_inv.
Qed.

(** ** Properties *)

(** C20. Shutdown is orderly.  Admission of policy calls stops only after the shutdown hooks, unless the shutdown is forced; the resources that serve calls are drained
    only when the entry points are released and no policy call can start or remains; and when the worker has ended, every call that was accepted has been answered or
    its caller told that the service is closed, the latter only when the worker was forced or failed. *)
Theorem daemon_shutdown_orderly es s :
  run init es = Some s ->
  (stopping s = true -> hooks_finished s = true \/ force s = true) /\
  (entry_drained s = true -> stopping s = true) /\
  (service_drained s = true -> entry_released s = true /\ calls s = [] /\ queue s = [] /\ closed s = true) /\
  (forall o, at_ s = Done o -> accepted s ≡ₚ answered s ++ dropped s /\ (o = Drained -> dropped s = []) /\ (o = TimedOut -> force s = true)).
Proof.
  intros HI%(lifecycle_inv es _ _ lifecycle_init). destruct HI as [Hcalls Hserved Hstop Hclosed Hentry Hservice Habort Hdrain Hrel Hwhen]. split_and!; [done|done| |].
  - intros Hs. destruct (Hservice Hs) as (He & Hc & _). destruct (at_ s); destruct_and?; try congruence; done.
  - intros o Ho. rewrite Ho in Hserved. destruct Hserved as (Hc & Hq & _ & Hd & Ht). rewrite Hc, Hq, !app_nil_r in Hcalls. done.
Qed.

(** A drained shutdown left nothing behind: every accepted policy call was answered, the entry points and then the services were drained and are released,
    the hooks have run, and nothing was aborted. *)
Theorem daemon_drained_exact es s :
  run init es = Some s -> wait s = Some Drained ->
  accepted s ≡ₚ answered s /\ hooks_finished s = true /\ entry_drained s = true /\ service_drained s = true /\ entry_released s = true /\ service_released s = true /\ aborted s = false /\ network_failed s = false.
Proof.
  intros HI%(lifecycle_inv es _ _ lifecycle_init) Hw. destruct HI as [Hcalls Hserved Hstop Hclosed Hentry Hservice Habort Hdrain Hrel Hwhen]. unfold wait in Hw.
  destruct (at_ s) as [| | |o] eqn:Ha; try done. destruct (released s) eqn:Hr; [|done]. cbn in Hw. destruct o; [|by destruct (network_failed s)|done]. destruct (network_failed s) eqn:Hn; [done|]. destruct (force s) eqn:Hf; [done|].
  destruct Hserved as (Hc & Hq & _ & Hd & _). rewrite Hc, Hq, (Hd eq_refl), !app_nil_r in Hcalls. specialize (Hrel eq_refl). rewrite Hrel in Hdrain. destruct Hdrain as (_ & He & Hsr & [Hsd|?]); [|fin].
  assert (aborted s = false) by (destruct (aborted s); [fin|done]). destruct (Hservice Hsd) as (_ & _ & Hed). split_and!; try done. destruct (Hstop (Hentry Hed)); [done|congruence].
Qed.

(** The events with which a forced shutdown ends. *)
Definition worker_ending (s : state) : list event := match at_ s with Starting => [ScriptReady; SeeForce] | Serving | Idling => [SeeForce] | Done _ => [] end.
Definition drain_ending (s : state) : list event :=
  match drain_at s with Over => [] | Aborting => [EntryReleased; ServiceReleased; Release] | _ => [Abort; EntryReleased; ServiceReleased; Release] end.
Definition ending (s : state) : list event := worker_ending s ++ drain_ending s.

Lemma run_app es es' s : run s (es ++ es') = s' ← run s es; run s' es'.
Proof. revert s. induction es as [|e es IH]; intros s; cbn; [done|]. destruct (step s e); cbn; [apply IH|done]. Qed.

Lemma worker_ends s : force s = true -> exists s1 o, run s (worker_ending s) = Some s1 /\ at_ s1 = Done o /\ force s1 = true /\ drain_at s1 = drain_at s /\ released s1 = released s /\ aborted s1 = aborted s.
Proof.
  intros Hf. unfold worker_ending. destruct (at_ s) as [| | |o] eqn:Ha; cbn [run]; unfold step; cbn [worker_step].
  - rewrite Ha. cbn [mbind option_bind]. cbn [set_worker at_ force]. rewrite Hf. cbn [guard mbind option_bind]. by eexists _, _.
  - rewrite Ha, Hf. cbn [guard mbind option_bind]. by eexists _, _.
  - rewrite Ha, Hf. cbn [guard mbind option_bind]. by eexists _, _.
  - by exists s, o.
Qed.

Lemma abort_ends s : aborted s = true -> drain_at s = Aborting -> exists s1, run s [EntryReleased; ServiceReleased; Release] = Some s1 /\ at_ s1 = at_ s /\ released s1 = true.
Proof.
  intros Hab Hd. cbn [run]. unfold step. cbn [worker_step drain_step]. rewrite Hab, orb_true_r. cbn [guard mbind option_bind].
  cbn [set_drain service_drained aborted]. rewrite ?Hab, orb_true_r. cbn [guard mbind option_bind]. cbn [set_drain drain_at entry_released service_released]. rewrite Hd. cbn. by eexists.
Qed.

Lemma abort_starts s : force s = true -> drain_at s = Waiting \/ drain_at s = EntryPoints \/ drain_at s = Services ->
  exists s1, run s [Abort] = Some s1 /\ at_ s1 = at_ s /\ aborted s1 = true /\ drain_at s1 = Aborting.
Proof. intros Hf Hd. cbn [run]. unfold step. cbn [worker_step drain_step]. rewrite Hf. by destruct Hd as [->|[->| ->]]; eexists. Qed.

(** A forced shutdown ends: from every state the daemon can be in, once the deadline passed or the owner is gone, the worker returns at its next step and, when the aborted
    resources are released, so does [wait]; no call, hook or script has to finish for it. *)
Theorem daemon_forced_ends es s :
  run init es = Some s -> force s = true -> exists s', run s (ending s) = Some s' /\ is_Some (wait s').
Proof.
  intros HI%(lifecycle_inv es _ _ lifecycle_init) Hf. destruct (worker_ends s Hf) as (s1 & o & Hr1 & Ho & Hf1 & Hd1 & Hrel1 & Hab1).
  assert (Hwait : forall s2, at_ s2 = Done o -> released s2 = true -> is_Some (wait s2)) by (intros s2 H2 H3; unfold wait; rewrite H2, H3; by eexists).
  unfold ending. rewrite run_app, Hr1. cbn [mbind option_bind]. unfold drain_ending. pose proof (i_drain _ HI) as Hdrain. destruct (drain_at s) eqn:Hd.
  1-3: (destruct (abort_starts s1 Hf1) as (s2 & H2 & Ha2 & Hab2 & Hd2); [rewrite Hd1; auto|]); (destruct (abort_ends s2 Hab2 Hd2) as (s3 & H3 & Ha3 & Hr3)); exists s3;
    (split; [change (run s1 ([Abort] ++ [EntryReleased; ServiceReleased; Release]) = Some s3); by rewrite run_app, H2|]); apply Hwait; [by rewrite Ha3, Ha2|done].
  - destruct Hdrain as [Hab _]. destruct (abort_ends s1) as (s2 & H2 & Ha2 & Hr2); [by rewrite Hab1|done|]. exists s2. split; [done|]. apply Hwait; [by rewrite Ha2|done].
  - exists s1. split; [done|]. apply Hwait; [done|]. rewrite Hrel1. apply Hdrain.
Qed.

(** ** Examples *)

(** Two calls; one is still running when the hooks finish, and is answered before the services are drained. *)
Example daemon_events : list event :=
  [ScriptReady; Send 1; Evaluated true; Receive; Send 2; Stop; CallDone 1; HooksDone true; DrainEntryPoints; CloseCommands; Receive; Receive; EntryReleased; CallDone 2; Quiesce; DrainServices; ScriptIdle;
   ServiceReleased; Release; ThreadExit].

Lemma daemon_shutdown_orderly_witness : exists s, run init (take 16 daemon_events) = Some s /\ service_drained s = true /\ entry_released s = true /\ calls s = [] /\ queue s = [] /\ closed s = true.
Proof. eexists. split; [vm_compute; reflexivity|]. split; [reflexivity|]. eapply (daemon_shutdown_orderly (take 16 daemon_events)); vm_compute; reflexivity. Defined.

Lemma daemon_drained_exact_witness : exists s, run init daemon_events = Some s /\ wait s = Some Drained /\ accepted s ≡ₚ answered s.
Proof. eexists. split; [vm_compute; reflexivity|]. split; [reflexivity|]. eapply (daemon_drained_exact daemon_events); vm_compute; reflexivity. Defined.

Lemma daemon_forced_ends_witness : exists s s', run init [ScriptReady; Send 1; Receive; Stop; Deadline] = Some s /\ run s (ending s) = Some s' /\ is_Some (wait s').
Proof. destruct (daemon_forced_ends [ScriptReady; Send 1; Receive; Stop; Deadline] _ eq_refl eq_refl) as (s' & H1 & H2). by eexists _, s'. Defined.

End Daemon.
