(* ===== verification/Host.v ===== *)
(** * The policy's host object (crates/script/src/host.rs)

    Functions of the policy that native code may call: they are registered under a number and stay registered while a native reference exists, which may be dropped on
    another thread.  Also the shutdown hooks, and the count of resource creations that startup waits for.  Functions are numbers. *)

From S2P Require Import Prelude.

Module Host.

Record state := mkState {
  handlers : gmap Z Z;              (* what [Host::handlers] holds *)
  next_handler : Z;
  references : gmap Z nat;          (* live [Registration]s and how many handles share each *)
  released : list Z;                (* [Released::ids] *)
  hooks : option (list Z);          (* [shutdown_hooks] *)
  pending : Z;                      (* [Creations::pending] *)
  waiting : nat;                    (* [Creations::settled]: the wakers *)
  registered : gmap Z Z;            (* every function ever registered *)
  hooked : list Z;                  (* every hook ever registered *)
  ran : list Z;                     (* the hooks taken, in order *)
}.

Definition init : state := mkState ∅ 0 ∅ [] (Some []) 0 0 ∅ [] [].

(** [Host::register]; [None] when the numbers are used up. *)
Definition register (f : Z) (s : state) : option (Z * state) :=
  let id := next_handler s + 1 in
  if u64_max <? id then None
  else Some (id, mkState (<[id := f]> (handlers s)) id (<[id := 1%nat]> (references s)) (released s) (hooks s) (pending s) (waiting s) (<[id := f]> (registered s)) (hooked s) (ran s)).

(** [Host::handler] *)
Definition handler (id : Z) (s : state) : option Z := handlers s !! id.

(** Cloning a [config::Handler]. *)
Definition clone_handle (id : Z) (s : state) : option state :=
  n ← references s !! id;
  Some (mkState (handlers s) (next_handler s) (<[id := S n]> (references s)) (released s) (hooks s) (pending s) (waiting s) (registered s) (hooked s) (ran s)).

(** Dropping one; the last drops the [Registration]. *)
Definition drop_handle (id : Z) (s : state) : option state :=
  n ← references s !! id;
  match n with
  | S (S n) => Some (mkState (handlers s) (next_handler s) (<[id := S n]> (references s)) (released s) (hooks s) (pending s) (waiting s) (registered s) (hooked s) (ran s))
  | _ => Some (mkState (handlers s) (next_handler s) (delete id (references s)) (released s ++ [id]) (hooks s) (pending s) (waiting s) (registered s) (hooked s) (ran s))
  end.

(** The loop of [Host::collect_released]; [None] is a failed assertion. *)
Fixpoint remove_all (ids : list Z) (m : gmap Z Z) : option (gmap Z Z) :=
  match ids with
  | [] => Some m
  | id :: ids => match m !! id with Some _ => remove_all ids (delete id m) | None => None end
  end.

Definition collect_released (s : state) : option state :=
  m ← remove_all (released s) (handlers s);
  Some (mkState m (next_handler s) (references s) [] (hooks s) (pending s) (waiting s) (registered s) (hooked s) (ran s)).

(** [Host::on_shutdown]; [None] once the hooks have run. *)
Definition on_shutdown (f : Z) (s : state) : option state :=
  hs ← hooks s;
  Some (mkState (handlers s) (next_handler s) (references s) (released s) (Some (hs ++ [f])) (pending s) (waiting s) (registered s) (hooked s ++ [f]) (ran s)).

(** [Host::next_shutdown_hook] *)
Definition next_shutdown_hook (s : state) : option Z * state :=
  match hooks s with
  | None => (None, s)
  | Some hs =>
      match last hs with
      | Some f => (Some f, mkState (handlers s) (next_handler s) (references s) (released s) (Some (removelast hs)) (pending s) (waiting s) (registered s) (hooked s) (ran s ++ [f]))
      | None => (None, mkState (handlers s) (next_handler s) (references s) (released s) None (pending s) (waiting s) (registered s) (hooked s) (ran s))
      end
  end.

(** [Creations::start], [Creation::drop] and a poll of [Creations::settled]. *)
Definition start_creation (s : state) : state :=
  mkState (handlers s) (next_handler s) (references s) (released s) (hooks s) (pending s + 1) (waiting s) (registered s) (hooked s) (ran s).
Definition end_creation (s : state) : option state :=
  if pending s <=? 0 then None
  else Some (mkState (handlers s) (next_handler s) (references s) (released s) (hooks s) (pending s - 1) (if pending s =? 1 then O else waiting s) (registered s) (hooked s) (ran s)).
Definition poll_settled (s : state) : bool * state :=
  if pending s =? 0 then (true, s)
  else (false, mkState (handlers s) (next_handler s) (references s) (released s) (hooks s) (pending s) (S (waiting s)) (registered s) (hooked s) (ran s)).

Inductive event := Register (f : Z) | CloneHandle (id : Z) | DropHandle (id : Z) | Collect | OnShutdown (f : Z) | NextHook | StartCreation | EndCreation | PollSettled.

Definition step (s : state) (e : event) : option state :=
  match e with
  | Register f => snd <$> register f s
  | CloneHandle id => clone_handle id s
  | DropHandle id => drop_handle id s
  | Collect => collect_released s
  | OnShutdown f => on_shutdown f s
  | NextHook => Some (snd (next_shutdown_hook s))
  | StartCreation => Some (start_creation s)
  | EndCreation => end_creation s
  | PollSettled => Some (snd (poll_settled s))
  end.

Fixpoint run (s : state) (es : list event) : option state :=
  match es with [] => Some s | e :: es => s ← step s e; run s es end.

(** ** Invariant *)

Record Inv (s : state) : Prop := {
  i_live : forall id, is_Some (references s !! id) \/ id ∈ released s <-> is_Some (handlers s !! id);
  i_same : forall id f, handlers s !! id = Some f -> registered s !! id = Some f;
  i_once : NoDup (released s) /\ forall id, id ∈ released s -> references s !! id = None;
  i_count : forall id n, references s !! id = Some n -> n <> O;
  i_fresh : 0 <= next_handler s /\ forall id, is_Some (registered s !! id) -> 0 < id <= next_handler s;
  i_hooks : hooked s ≡ₚ ran s ++ default [] (hooks s);
  i_creations : 0 <= pending s /\ (pending s = 0 -> waiting s = O);
}.

Lemma host_init : Inv init.
Proof.
  constructor; cbn.
  - intros id. rewrite !lookup_empty. split; [intros [[? ?]|?%elem_of_nil]; done|by intros [? ?]].
  - intros id f. by rewrite lookup_empty.
  - split; [apply NoDup_nil_2|by intros id ?%elem_of_nil].
  - intros id n. by rewrite lookup_empty.
  - split; [done|]. intros id. rewrite lookup_empty. by intros [].
  - done.
  - done.
Qed.

Lemma fresh_id s : Inv s -> handlers s !! (next_handler s + 1) = None /\ references s !! (next_handler s + 1) = None /\ next_handler s + 1 ∉ released s.
Proof.
  intros HI. assert (Hh : handlers s !! (next_handler s + 1) = None).
  { destruct (handlers s !! (next_handler s + 1)) as [f|] eqn:Hf; [|done]. apply (i_same _ HI) in Hf. destruct (i_fresh _ HI) as [_ Hfr]. specialize (Hfr (next_handler s + 1) ltac:(by eexists)). lia. }
  split; [done|]. split.
  - destruct (references s !! (next_handler s + 1)) as [n|] eqn:Hn; [|done]. destruct (proj1 (i_live _ HI (next_handler s + 1))) as [? ?]; [left; by eexists|congruence].
  - intros Hr. destruct (proj1 (i_live _ HI (next_handler s + 1))) as [? ?]; [by right|congruence].
Qed.

Lemma register_inv f s id s' : Inv s -> register f s = Some (id, s') -> Inv s'.
Proof.
  intros HI. unfold register. destruct (u64_max <? _); [done|]. intros [= <- <-]. destruct (fresh_id s HI) as (Hh & Hr & Hn). destruct HI as [Hlive Hsame Honce Hcount Hfresh Hhooks Hcr]. constructor; cbn; try done.
  - intros id. destruct (decide (id = next_handler s + 1)) as [->|Hne]; [rewrite !lookup_insert_eq; split; [by eexists|left; by eexists]|rewrite !lookup_insert_ne by done; apply Hlive].
  - intros id g. destruct (decide (id = next_handler s + 1)) as [->|Hne]; [by rewrite !lookup_insert_eq|rewrite !lookup_insert_ne by done; apply Hsame].
  - split; [apply Honce|]. intros id Hid. rewrite lookup_insert_ne; [by apply Honce|]. by intros <-.
  - intros id n. destruct (decide (id = next_handler s + 1)) as [->|Hne]; [rewrite lookup_insert_eq; by intros [= <-]|rewrite lookup_insert_ne by done; apply Hcount].
  - destruct Hfresh as [H0 Hf]. split; [lia|]. intros id. destruct (decide (id = next_handler s + 1)) as [->|Hne]; [lia|]. rewrite lookup_insert_ne by done. intros Hi. specialize (Hf id Hi). lia.
Qed.

(** Handles of a registration that stays. *)
Lemma handles_inv id n m s : Inv s -> references s !! id = Some n -> m <> O -> Inv (mkState (handlers s) (next_handler s) (<[id := m]> (references s)) (released s) (hooks s) (pending s) (waiting s) (registered s) (hooked s) (ran s)).
Proof.
  intros [Hlive Hsame Honce Hcount Hfresh Hhooks Hcr] Hn Hm. constructor; cbn; try done.
  - intros k. rewrite <- Hlive. destruct (decide (k = id)) as [->|]; [rewrite lookup_insert_eq, Hn|by rewrite lookup_insert_ne]. split; (intros [?|?]; [left; by eexists|by right]).
  - split; [apply Honce|]. intros k Hk. destruct (decide (k = id)) as [->|]; [|rewrite lookup_insert_ne by done; by apply Honce]. apply Honce in Hk. congruence.
  - intros k j. destruct (decide (k = id)) as [->|]; [rewrite lookup_insert_eq; by intros [= <-]|rewrite lookup_insert_ne by done; apply Hcount].
Qed.

Lemma drop_inv id s s' : Inv s -> drop_handle id s = Some s' -> Inv s'.
Proof.
  intros HI. unfold drop_handle. destruct (references s !! id) as [n|] eqn:Hn; [|done]. cbn. destruct n as [|[|n]]; [by apply (i_count _ HI) in Hn| |intros [= <-]; by eapply handles_inv].
  intros [= <-]. destruct HI as [Hlive Hsame Honce Hcount Hfresh Hhooks Hcr]. constructor; cbn; try done.
  - intros k. rewrite <- Hlive, elem_of_app, list_elem_of_singleton. destruct (decide (k = id)) as [->|]; [rewrite lookup_delete_eq, Hn|rewrite lookup_delete_ne by done; naive_solver]. split; [intros _; left; by eexists|intros _; right; by right].
  - destruct Honce as [Hnd Ho]. split.
    + apply NoDup_app. split_and!; [done| |apply NoDup_singleton]. intros k Hk ->%list_elem_of_singleton. apply Ho in Hk. congruence.
    + intros k [Hk| ->%list_elem_of_singleton]%elem_of_app; [|apply lookup_delete_eq]. destruct (decide (k = id)) as [->|]; [apply lookup_delete_eq|rewrite lookup_delete_ne by done; by apply Ho].
  - intros k j. destruct (decide (k = id)) as [->|]; [by rewrite lookup_delete_eq|rewrite lookup_delete_ne by done; apply Hcount].
Qed.

Lemma remove_all_spec ids m : NoDup ids -> (forall id, id ∈ ids -> is_Some (m !! id)) -> exists m', remove_all ids m = Some m' /\ forall id, m' !! id = if decide (id ∈ ids) then None else m !! id.
Proof.
  revert m. induction ids as [|i ids IH]; intros m Hnd Hin; cbn [remove_all]; [exists m; split; [done|]; intros id; by rewrite decide_False by (by intros ?%elem_of_nil)|].
  apply NoDup_cons in Hnd as [Hni Hnd]. destruct (Hin i ltac:(by left)) as [f Hf]. rewrite Hf. destruct (IH (delete i m) Hnd) as (m' & Hm' & Hl).
  { intros id Hid. rewrite lookup_delete_ne by (by intros ->). apply Hin. by right. }
  exists m'. split; [done|]. intros id. rewrite Hl. destruct (decide (id ∈ ids)) as [Hi|Hi].
  - by rewrite decide_True by (by right).
  - destruct (decide (id = i)) as [->|Hne]; [rewrite lookup_delete_eq; by rewrite decide_True by (by left)|rewrite lookup_delete_ne by done]. rewrite decide_False; [done|]. by intros [?|?]%elem_of_cons.
Qed.

Lemma host_collect_spec s : Inv s -> exists s', collect_released s = Some s' /\ Inv s' /\ (forall id, is_Some (handlers s' !! id) <-> is_Some (references s' !! id)) /\ references s' = references s.
Proof.
  intros HI. unfold collect_released. destruct (remove_all_spec (released s) (handlers s)) as (m & -> & Hm); [apply HI|intros id Hid; apply (i_live _ HI); by right|]. cbn. eexists. split; [done|].
  assert (Hex : forall id, is_Some (m !! id) <-> is_Some (references s !! id)).
  { intros id. rewrite Hm. destruct (decide (id ∈ released s)) as [Hr|Hr]; [|rewrite <- (i_live _ HI); tauto]. rewrite (proj2 (i_once _ HI) id Hr). done. }
  split; [|by split]. destruct HI as [Hlive Hsame Honce Hcount Hfresh Hhooks Hcr]. constructor; cbn; try done.
  - intros id. rewrite Hex. split; [intros [?|?%elem_of_nil]; done|by left].
  - intros id f. rewrite Hm. destruct (decide _); [done|apply Hsame].
  - split; [apply NoDup_nil_2|by intros id ?%elem_of_nil].
Qed.

Lemma host_step_inv s e s' : Inv s -> step s e = Some s' -> Inv s'.
Proof.
  intros HI. destruct e; cbn [step].
  - destruct (register f s) as [[id s1]|] eqn:Hr; [|done]. cbn. intros [= <-]. by eapply register_inv.
  - unfold clone_handle. destruct (references s !! id) as [n|] eqn:Hn; [|done]. cbn. intros [= <-]. by eapply handles_inv.
  - by apply drop_inv.
  - intros Hc. destruct (host_collect_spec s HI) as (s1 & Hs1 & HI1 & _). congruence.
  - unfold on_shutdown. destruct (hooks s) as [hs|] eqn:Hh; [|done]. cbn. intros [= <-]. destruct HI as [Hlive Hsame Honce Hcount Hfresh Hhooks Hcr]. constructor; cbn; try done. rewrite Hhooks, Hh. cbn. by rewrite app_assoc.
  - intros [= <-]. unfold next_shutdown_hook. destruct (hooks s) as [hs|] eqn:Hh; [|done]. destruct HI as [Hlive Hsame Honce Hcount Hfresh Hhooks Hcr]. rewrite Hh in Hhooks. cbn in Hhooks. destruct (last hs) as [f|] eqn:Hl; constructor; cbn; try done.
    + rewrite Hhooks, <- app_assoc. apply last_Some in Hl as [hs' ->]. rewrite removelast_last. f_equiv. apply Permutation_app_comm.
    + apply last_None in Hl. by rewrite Hl in Hhooks.
  - intros [= <-]. destruct HI as [Hlive Hsame Honce Hcount Hfresh Hhooks Hcr]. constructor; cbn; try done. lia.
  - unfold end_creation. destruct (pending s <=? 0) eqn:Hp; [done|]. zify_bool. intros [= <-]. destruct HI as [Hlive Hsame Honce Hcount Hfresh Hhooks Hcr]. constructor; cbn; try done. split; [lia|]. intros H0. by rewrite (proj2 (Z.eqb_eq _ _)) by lia.
  - intros [= <-]. unfold poll_settled. destruct (pending s =? 0) eqn:Hp; [done|]. zify_bool. destruct HI as [Hlive Hsame Honce Hcount Hfresh Hhooks Hcr]. constructor; cbn; try done. lia.
Qed.

Lemma host_run_inv es s s' : Inv s -> run s es = Some s' -> Inv s'.
Proof. revert s. induction es as [|e es IH]; intros s HI; cbn; [by intros [= <-]|]. destruct (step s e) as [q|] eqn:Hq; [|done]. cbn. apply IH. by eapply host_step_inv. Qed.

(** ** Properties *)

(** A handler stays callable while a native reference exists, under the number it was given, which is never given again; unregistering never meets a handler
    twice, and afterwards exactly the handlers with references are left. *)
Theorem host_handlers_alive es s :
  run init es = Some s ->
  (forall id n, references s !! id = Some n -> exists f, handler id s = Some f /\ registered s !! id = Some f) /\
  (forall f id s', register f s = Some (id, s') -> registered s !! id = None /\ handler id s' = Some f) /\
  (exists s', step s Collect = Some s' /\ forall id, is_Some (handler id s') <-> is_Some (references s' !! id)).
Proof.
  intros HI%(host_run_inv es _ _ host_init). split_and!.
  - intros id n Hn. destruct (proj1 (i_live _ HI id)) as [f Hf]; [left; by eexists|]. exists f. split; [done|]. by apply (i_same _ HI).
  - intros f id s'. unfold register. destruct (u64_max <? _); [done|]. intros [= <- <-]. split; [|apply lookup_insert_eq]. destruct (registered s !! (next_handler s + 1)) as [g|] eqn:Hg; [|done].
    destruct (i_fresh _ HI) as [_ Hfr]. specialize (Hfr (next_handler s + 1) ltac:(by eexists)). lia.
  - destruct (host_collect_spec s HI) as (s' & Hs' & _ & Hex & _). by exists s'.
Qed.

(** Every shutdown hook runs once, newest first: a registered hook has been taken or waits its turn, the one taken next is the newest that waits, once none waits registration
    is refused, and nobody who waits for creations to settle is left waiting when none is pending. *)
Theorem host_hooks_once es s :
  run init es = Some s ->
  hooked s ≡ₚ ran s ++ default [] (hooks s) /\
  (forall hs f, hooks s = Some (hs ++ [f]) -> fst (next_shutdown_hook s) = Some f) /\
  (hooks s = Some [] -> forall f, on_shutdown f (snd (next_shutdown_hook s)) = None) /\
  (pending s = 0 -> waiting s = O).
Proof.
  intros HI%(host_run_inv es _ _ host_init). split_and!; [apply HI| | |apply HI].
  - intros hs f Hh. unfold next_shutdown_hook. by rewrite Hh, last_snoc.
  - intros Hh f. unfold next_shutdown_hook. by rewrite Hh.
Qed.

(** ** Examples *)

Example host_events : list event := [Register 70; CloneHandle 1; Register 71; DropHandle 1; DropHandle 2; OnShutdown 5; OnShutdown 6; StartCreation; PollSettled; EndCreation; NextHook].

Lemma host_handlers_alive_witness : exists s, run init host_events = Some s /\ exists s', step s Collect = Some s' /\ forall id, is_Some (handler id s') <-> is_Some (references s' !! id).
Proof. eexists. split; [vm_compute; reflexivity|]. eapply (host_handlers_alive host_events). vm_compute. reflexivity. Defined.

Lemma host_hooks_once_witness : exists s, run init host_events = Some s /\ ran s = [6] /\ hooked s ≡ₚ ran s ++ default [] (hooks s).
Proof. eexists. split; [vm_compute; reflexivity|]. split; [reflexivity|]. eapply (host_hooks_once host_events). vm_compute. reflexivity. Defined.

End Host.
