(* ===== verification/Accept.v ===== *)
(** * Accepting connections (crates/protocol/src/server.rs)

    The loop every TCP listener runs, with its limit on the connections that run at once and its ways of dealing with failed attempts. *)

From S2P Require Import Prelude.

Module Accept.

Definition LIMIT : Z := 1024.

(** Where the loop is: taking a permit, accepting with the permit in hand, waiting before another attempt, or returned. *)
Inductive place := Admitting | Accepting | Retrying | Returned.

Record state := mkState { at_ : place; available : Z; running : gset Z; accepted : Z; stopping : bool; scope_closed : bool }.

Definition init : state := mkState Admitting LIMIT ∅ 0 false false.

(** What [listener.accept()] gives. *)
Inductive attempt := Connection (local_known : bool) | ConnectionError | OtherError.

Inductive event := Permit | Attempt (a : attempt) | RetryElapsed | SeeStop | Done (id : Z) | Stop | CloseScope.

Definition step (s : state) (e : event) : option state :=
  match e with
  | Permit => match at_ s with Admitting => if 0 <? available s then Some (mkState Accepting (available s - 1) (running s) (accepted s) (stopping s) (scope_closed s)) else None | _ => None end
  | Attempt a =>
      match at_ s, a with
      | Accepting, ConnectionError => Some s
      | Accepting, OtherError => Some (mkState Retrying (available s) (running s) (accepted s) (stopping s) (scope_closed s))
      (* [continue]: the permit is dropped *)
      | Accepting, Connection false => Some (mkState Admitting (available s + 1) (running s) (accepted s) (stopping s) (scope_closed s))
      (* [spawn] fails on a closed scope and drops the work with its permit *)
      | Accepting, Connection true =>
          if scope_closed s then Some (mkState Returned (available s + 1) (running s) (accepted s) (stopping s) (scope_closed s))
          else Some (mkState Admitting (available s) ({[accepted s]} ∪ running s) (accepted s + 1) (stopping s) (scope_closed s))
      | _, _ => None
      end
  | RetryElapsed => match at_ s with Retrying => Some (mkState Accepting (available s) (running s) (accepted s) (stopping s) (scope_closed s)) | _ => None end
  | SeeStop =>
      if stopping s || scope_closed s then
        match at_ s with
        | Admitting => Some (mkState Returned (available s) (running s) (accepted s) (stopping s) (scope_closed s))
        | Accepting | Retrying => Some (mkState Returned (available s + 1) (running s) (accepted s) (stopping s) (scope_closed s))
        | Returned => None
        end
      else None
  | Done id => if bool_decide (id ∈ running s) then Some (mkState (at_ s) (available s + 1) (running s ∖ {[id]}) (accepted s) (stopping s) (scope_closed s)) else None
  | Stop => Some (mkState (at_ s) (available s) (running s) (accepted s) true (scope_closed s))
  | CloseScope => Some (mkState (at_ s) (available s) (running s) (accepted s) (stopping s) true)
  end.

Fixpoint run (s : state) (es : list event) : option state :=
  match es with [] => Some s | e :: es => s ← step s e; run s es end.

Definition held (s : state) : Z := match at_ s with Accepting | Retrying => 1 | _ => 0 end.

Record Inv (s : state) : Prop := {
  i_permits : available s + held s + Z.of_nat (size (running s)) = LIMIT;
  i_available : 0 <= available s;
  i_fresh : forall id, id ∈ running s -> id < accepted s;
  i_returned : at_ s = Returned -> stopping s = true \/ scope_closed s = true;
}.

Lemma accept_init : Inv init.
Proof. by constructor. Qed.

Lemma accept_step s e s' : Inv s -> step s e = Some s' -> Inv s'.
Proof.
  intros [Hp Ha Hf Hr]. destruct e as [|a| | |id| |]; cbn [step].
  - destruct (at_ s) eqn:Hat; try done. destruct (0 <? available s) eqn:H0; [|done]. zify_bool. intros [= <-]. unfold held in Hp. rewrite Hat in Hp. constructor; cbn; try done; lia.
  - unfold held in Hp. destruct (at_ s) eqn:Hat; try done. destruct a as [[]| |].
    + destruct (scope_closed s) eqn:Hc; intros [= <-].
      * constructor; cbn; try done; try lia.
      * constructor; cbn; try done.
        -- rewrite size_union, size_singleton by (intros x ->%elem_of_singleton Hx; specialize (Hf _ Hx); lia). lia.
        -- intros x [->%elem_of_singleton|Hx]%elem_of_union; [lia|]. specialize (Hf _ Hx). lia.
    + intros [= <-]. constructor; cbn; try done; lia.
    + intros [= <-]. constructor; try done; unfold held; rewrite Hat; [done|done].
    + intros [= <-]. constructor; cbn; try done; lia.
  - unfold held in Hp. destruct (at_ s) eqn:Hat; try done. intros [= <-]. constructor; cbn; try done; lia.
  - unfold held in Hp. destruct (stopping s || scope_closed s) eqn:Hs; [|done]. apply orb_true_iff in Hs. destruct (at_ s) eqn:Hat; try done; intros [= <-]; constructor; cbn; try done; lia.
  - destruct (bool_decide (id ∈ running s)) eqn:Hin; [|done]. apply bool_decide_eq_true in Hin. intros [= <-]. constructor; cbn; try done; [|lia|set_solver].
    change (held _) with (held s). rewrite size_difference, size_singleton by set_solver. assert (size (running s) <> O) by (intros H0%size_empty_inv; set_solver). lia.
  - intros [= <-]. constructor; cbn; try done. by left.
  - intros [= <-]. constructor; cbn; try done. by right.
Qed.

(** The limit on connections is exact and only stopping ends the loop: at most 1024 connections run at once, every permit that no connection holds is available or in the
    loop's hand, failed attempts give theirs back, and the loop returns only when the inbound stops. *)
Theorem accept_loop_bounded es s :
  run init es = Some s -> (Z.of_nat (size (running s)) <= LIMIT) /\ available s + held s + Z.of_nat (size (running s)) = LIMIT /\ (at_ s = Returned -> stopping s = true \/ scope_closed s = true).
Proof.
  assert (Hgo : forall es s, Inv s -> forall s', run s es = Some s' -> Inv s').
  { clear. induction es as [|e es IH]; intros s HI s'; cbn; [by intros [= <-]|]. destruct (step s e) as [q|] eqn:Hq; [|done]. cbn. apply IH. by eapply accept_step. }
  intros Hrun. destruct (Hgo es init accept_init s Hrun) as [Hp Ha Hf Hr]. split_and!; [|done|done]. unfold held in Hp. destruct (at_ s); lia.
Qed.

Lemma accept_loop_bounded_witness : exists s, run init [Permit; Attempt ConnectionError; Attempt OtherError; RetryElapsed; Attempt (Connection true); Permit; Attempt (Connection false); Done 0; Stop; SeeStop] = Some s /\
  available s + held s + Z.of_nat (size (running s)) = LIMIT.
Proof. eexists. split; [vm_compute; reflexivity|]. eapply (accept_loop_bounded [Permit; Attempt ConnectionError; Attempt OtherError; RetryElapsed; Attempt (Connection true); Permit; Attempt (Connection false); Done 0; Stop; SeeStop]). vm_compute. reflexivity. Defined.

End Accept.
