(* ===== verification/Direct.v ===== *)
(** * The direct inbound's datagrams (crates/inbounds/src/direct.rs)

    One session per peer, each with a generation, and replies that are sent only for the session that is current. *)

From S2P Require Import Prelude Packet.

Module Direct.

#[local] Existing Instances Packet.IpAddress_eq_dec Packet.IpAddress_countable.

Abbreviation SocketAddr := (Packet.IpAddress * Z)%type.

(** The loop of [udp].  A session is known by its generation; [owner] says for which peer it was made. *)
Record state := mkState {
  peers : gmap SocketAddr Z;
  generation : Z;
  closed : gset Z;                                    (* the sessions whose scope is closed *)
  owner : gmap Z SocketAddr;
  running : gset Z;
  completions : list (SocketAddr * Z);
  replies : list (SocketAddr * Z * bytes);
  delivered : list (SocketAddr * Z * bytes);          (* the datagrams a session's queue took, with their source *)
  sent : list (SocketAddr * Z * option Z * bytes);    (* the replies sent: to whom, of which session, and the current one then *)
}.

Definition init : state := mkState ∅ 0 ∅ ∅ ∅ [] [] [] [].

(** Dropping an entry closes its scope. *)
Definition remove (peer : SocketAddr) (s : state) : state :=
  match peers s !! peer with
  | Some g => mkState (delete peer (peers s)) (generation s) ({[g]} ∪ closed s) (owner s) (running s) (completions s) (replies s) (delivered s) (sent s)
  | None => s
  end.

Definition on_completion (peer : SocketAddr) (g : Z) (s : state) : state := if bool_decide (peers s !! peer = Some g) then remove peer s else s.

(** A received datagram; [None] ends the loop with an error. *)
Definition on_datagram (peer : SocketAddr) (payload : bytes) (spawned room : bool) (s : state) : option state :=
  let s := match peers s !! peer with Some g => if bool_decide (g ∈ closed s) then remove peer s else s | None => s end in
  let deliver g s := if room then mkState (peers s) (generation s) (closed s) (owner s) (running s) (completions s) (replies s) (delivered s ++ [(peer, g, payload)]) (sent s) else s in
  match peers s !! peer with
  | Some g => Some (deliver g s)
  | None =>
      if (4096 <=? Z.of_nat (size (peers s))) then Some s
      else if u64_max <? generation s + 1 then None
      else if negb spawned then None
      else
        let g := generation s + 1 in
        Some (deliver g (mkState (<[peer := g]> (peers s)) g (closed s) (<[g := peer]> (owner s)) ({[g]} ∪ running s) (completions s) (replies s) (delivered s) (sent s)))
  end.

(** A reply taken from the channel; [ok] is whether the socket sends it. *)
Definition on_reply (peer : SocketAddr) (g : Z) (payload : bytes) (ok : bool) (s : state) : state :=
  match peers s !! peer with
  | Some current =>
      if (current =? g) && negb (bool_decide (current ∈ closed s)) && ok
      then mkState (peers s) (generation s) (closed s) (owner s) (running s) (completions s) (replies s) (delivered s) (sent s ++ [(peer, g, Some current, payload)]) else s
  | None => s
  end.

Inductive event :=
  | Received (peer : SocketAddr) (payload : bytes) (spawned room : bool)
  | TakeCompletion | TakeReply (ok : bool)
  | Answer (g : Z) (payload : bytes)       (* a session's task offers a reply to the channel *)
  | Finish (g : Z)                         (* a session's task ends *)
  | CloseSession (g : Z).                  (* a session's scope closes: idle, or from outside *)

Definition step (s : state) (e : event) : option state :=
  match e with
  | Received peer payload spawned room => on_datagram peer payload spawned room s
  | TakeCompletion =>
      match completions s with
      | [] => None
      | (p, g) :: c => Some (on_completion p g (mkState (peers s) (generation s) (closed s) (owner s) (running s) c (replies s) (delivered s) (sent s)))
      end
  | TakeReply ok =>
      match replies s with
      | [] => None
      | (p, g, b) :: r => Some (on_reply p g b ok (mkState (peers s) (generation s) (closed s) (owner s) (running s) (completions s) r (delivered s) (sent s)))
      end
  | Answer g payload =>
      p ← owner s !! g;
      if bool_decide (g ∈ running s) then
        Some (if (length (replies s) <? 64)%nat then mkState (peers s) (generation s) (closed s) (owner s) (running s) (completions s) (replies s ++ [(p, g, payload)]) (delivered s) (sent s) else s)
      else None
  | Finish g =>
      p ← owner s !! g;
      if bool_decide (g ∈ running s)
      then Some (mkState (peers s) (generation s) ({[g]} ∪ closed s) (owner s) (running s ∖ {[g]}) (completions s ++ [(p, g)]) (replies s) (delivered s) (sent s)) else None
  | CloseSession g => Some (mkState (peers s) (generation s) ({[g]} ∪ closed s) (owner s) (running s) (completions s) (replies s) (delivered s) (sent s))
  end.

Fixpoint run (s : state) (es : list event) : option state :=
  match es with [] => Some s | e :: es => s ← step s e; run s es end.

(** ** Invariant *)

Record Inv (s : state) : Prop := {
  i_owner : forall p g, peers s !! p = Some g -> owner s !! g = Some p;
  i_generation : 0 <= generation s /\ forall g p, owner s !! g = Some p -> 0 < g <= generation s;
  i_current : forall g p, owner s !! g = Some p -> g ∉ closed s -> peers s !! p = Some g;
  i_running : forall g, g ∈ running s -> is_Some (owner s !! g);
  i_size : Z.of_nat (size (peers s)) <= 4096;
  i_replies : forall p g b, (p, g, b) ∈ replies s -> owner s !! g = Some p;
  i_delivered : forall p g b, (p, g, b) ∈ delivered s -> owner s !! g = Some p;
  i_sent : forall p g c b, (p, g, c, b) ∈ sent s -> owner s !! g = Some p /\ c = Some g;
}.

Lemma direct_init : Inv init.
Proof. constructor; cbn; try done; try set_solver. all: intros; by rewrite ?lookup_empty in *. Qed.

Lemma direct_remove_inv p s : Inv s -> Inv (remove p s).
Proof.
  intros HI. unfold remove. destruct (peers s !! p) as [g|] eqn:Hg; [|done]. destruct HI as [Ho Hgen Hc Hr Hs Hrep Hd Hsent]. constructor; cbn; try done.
  - intros q h [_ Hq]%lookup_delete_Some. by apply Ho.
  - intros h q Hq Hnc. apply lookup_delete_Some. assert (h <> g) by set_solver. specialize (Hc h q Hq ltac:(set_solver)). split; [|done]. intros <-. congruence.
  - rewrite map_size_delete, Hg. cbn. lia.
Qed.

Lemma remove_size p s : Z.of_nat (size (peers (remove p s))) <= Z.of_nat (size (peers s)).
Proof. unfold remove. destruct (peers s !! p) as [g|] eqn:Hg; [|done]. cbn. rewrite map_size_delete, Hg. cbn. lia. Qed.

Lemma direct_deliver_inv p g b s : Inv s -> owner s !! g = Some p -> Inv (mkState (peers s) (generation s) (closed s) (owner s) (running s) (completions s) (replies s) (delivered s ++ [(p, g, b)]) (sent s)).
Proof. intros [Ho Hgen Hc Hr Hs Hrep Hd Hsent] Hg. constructor; cbn; try done. intros q h c [?|[= -> -> ->]%list_elem_of_singleton]%elem_of_app; [by eapply Hd|done]. Qed.

Lemma on_datagram_inv p b spawned room s s' : Inv s -> on_datagram p b spawned room s = Some s' -> Inv s'.
Proof.
  intros HI. unfold on_datagram. set (s0 := match peers s !! p with Some g => _ | None => _ end).
  assert (HI0 : Inv s0) by (subst s0; destruct (peers s !! p); [case_match; [by apply direct_remove_inv|done]|done]). clearbody s0. clear HI s. cbn zeta. destruct (peers s0 !! p) as [g|] eqn:Hg.
  - intros [= <-]. destruct room; [|done]. apply direct_deliver_inv; [done|]. by apply HI0.
  - destruct (4096 <=? _) eqn:Hsz; [by intros [= <-]|]. zify_bool. destruct (u64_max <? _); [done|]. destruct spawned; [|done]. cbn [negb].
    assert (HI1 : Inv (mkState (<[p := generation s0 + 1]> (peers s0)) (generation s0 + 1) (closed s0) (<[generation s0 + 1 := p]> (owner s0)) ({[generation s0 + 1]} ∪ running s0) (completions s0) (replies s0) (delivered s0) (sent s0))).
    { destruct HI0 as [Ho [Hg0 Hgen] Hc Hr Hs Hrep Hd Hsent]. assert (Hnew : owner s0 !! (generation s0 + 1) = None) by (destruct (owner s0 !! (generation s0 + 1)) as [q|] eqn:Hq; [apply Hgen in Hq; lia|done]).
      assert (Hkeep : forall h q, owner s0 !! h = Some q -> <[generation s0 + 1 := p]> (owner s0) !! h = Some q) by (intros h q Hq; rewrite lookup_insert_ne; [done|]; intros <-; congruence).
      constructor; cbn.
      - intros q h. destruct (decide (q = p)) as [->|]; [rewrite lookup_insert_eq; intros [= <-]; apply lookup_insert_eq|]. rewrite lookup_insert_ne by done. intros Hq. by apply Hkeep, Ho.
      - split; [lia|]. intros h q. destruct (decide (h = generation s0 + 1)) as [->|]; [lia|]. rewrite lookup_insert_ne by done. intros Hq. apply Hgen in Hq. lia.
      - intros h q. destruct (decide (h = generation s0 + 1)) as [->|]; [rewrite lookup_insert_eq; intros [= <-] _; apply lookup_insert_eq|]. rewrite lookup_insert_ne by done. intros Hq Hn. specialize (Hc h q Hq Hn).
        rewrite lookup_insert_ne; [done|]. intros <-. congruence.
      - intros h [->%elem_of_singleton|Hh]%elem_of_union; [rewrite lookup_insert_eq; by eexists|]. destruct (Hr h Hh) as [q Hq]. exists q. by apply Hkeep.
      - rewrite map_size_insert, Hg. cbn. lia.
      - intros q h c Hq. by apply Hkeep, (Hrep q h c).
      - intros q h c Hq. by apply Hkeep, (Hd q h c).
      - intros q h c d Hq. destruct (Hsent q h c d Hq). split; [by apply Hkeep|done]. }
    intros [= <-]. destruct room; [|done]. apply (direct_deliver_inv p (generation s0 + 1) b) in HI1; [exact HI1|]. cbn. apply lookup_insert_eq.
Qed.

Lemma direct_step_inv s e s' : Inv s -> step s e = Some s' -> Inv s'.
Proof.
  intros HI. destruct e; cbn [step].
  - by apply on_datagram_inv.
  - destruct (completions s) as [|[p g] c]; [done|]. intros [= <-]. set (s1 := mkState _ _ _ _ _ _ _ _ _). assert (HI1 : Inv s1) by (destruct HI; by constructor). unfold on_completion. case_match; [by apply direct_remove_inv|done].
  - destruct (replies s) as [|[[p g] b] r] eqn:Hr; [done|]. intros [= <-]. set (s1 := mkState _ _ _ _ _ _ _ _ _).
    assert (HI1 : Inv s1 /\ owner s1 !! g = Some p) by (split; [|apply (i_replies _ HI p g b); rewrite Hr; by left]; destruct HI as [Ho Hgen Hc Hru Hs Hrep Hd Hsent]; constructor; cbn; try done; intros q h c Hq; apply (Hrep q h c); rewrite Hr; by right).
    clearbody s1. destruct HI1 as [HI1 Hg1]. unfold on_reply. destruct (peers s1 !! p) as [cur|]; [|done]. destruct (cur =? g) eqn:Hcg; [|done]. zify_bool. subst cur. cbn [andb]. destruct (negb _); [|done]. destruct ok; [|done]. cbn.
    destruct HI1 as [Ho Hgen Hc Hru Hs Hrep Hd Hsent]. constructor; cbn; try done. intros q h c d [?|[= -> -> -> ->]%list_elem_of_singleton]%elem_of_app; [by eapply Hsent|done].
  - destruct (owner s !! g) as [p|] eqn:Hp; [|done]. cbn. destruct (bool_decide _); [|done]. intros [= <-]. case_match; [|done]. destruct HI as [Ho Hgen Hc Hru Hs Hrep Hd Hsent]. constructor; cbn; try done.
    intros q h c [?|[= -> -> ->]%list_elem_of_singleton]%elem_of_app; [by eapply Hrep|done].
  - destruct (owner s !! g) as [p|] eqn:Hp; [|done]. cbn. destruct (bool_decide _); [|done]. intros [= <-]. destruct HI as [Ho Hgen Hc Hru Hs Hrep Hd Hsent]. constructor; cbn; try done; [|set_solver]. intros h q Hq Hn. apply Hc; [done|set_solver].
  - intros [= <-]. destruct HI as [Ho Hgen Hc Hru Hs Hrep Hd Hsent]. constructor; cbn; try done. intros h q Hq Hn. apply Hc; [done|set_solver].
Qed.

Lemma direct_lifecycle_inv es s s' : Inv s -> run s es = Some s' -> Inv s'.
Proof. revert s. induction es as [|e es IH]; intros s HI; cbn; [by intros [= <-]|]. destruct (step s e) as [q|] eqn:Hq; [|done]. cbn. apply IH. by eapply direct_step_inv. Qed.

(** Direct UDP keeps peers apart.  A session gets datagrams of one peer only; a session whose scope is open is the current one of its peer, so a peer has at most one; every reply that was
    sent went to the peer of the session it came from and was sent while that session was current; and at most 4096 peers have a session. *)
Theorem direct_sessions_apart es s :
  run init es = Some s ->
  (forall p g b, (p, g, b) ∈ delivered s -> owner s !! g = Some p) /\
  (forall g g' p, owner s !! g = Some p -> owner s !! g' = Some p -> g ∉ closed s -> g' ∉ closed s -> g = g') /\
  (forall p g c b, (p, g, c, b) ∈ sent s -> owner s !! g = Some p /\ c = Some g) /\
  Z.of_nat (size (peers s)) <= 4096.
Proof.
  intros HI%(direct_lifecycle_inv es _ _ direct_init). split_and!; try apply HI. intros g g' p Hg Hg' Hn Hn'. apply (i_current _ HI) in Hg, Hg'; [|done|done]. congruence.
Qed.

(** The first session is closed while its reply is queued: the reply is not sent, and the next datagram opens another. *)
Example direct_peer : SocketAddr := (Packet.Ipv4 1, 5000).
Example direct_events : list event := [Received direct_peer [1] true true; Answer 1 [2]; CloseSession 1; TakeReply true; Received direct_peer [3] true true; Answer 2 [4]; Finish 1; TakeCompletion; TakeReply true].
Lemma direct_sessions_apart_witness : exists s, run init direct_events = Some s /\ sent s = [(direct_peer, 2, Some 2, [4])] /\ forall p g c b, (p, g, c, b) ∈ sent s -> owner s !! g = Some p /\ c = Some g.
Proof. eexists. split; [vm_compute; reflexivity|]. split; [reflexivity|]. eapply (direct_sessions_apart direct_events). vm_compute. reflexivity. Defined.

End Direct.
