(* ===== verification/PacketIo.v ===== *)
(** * Handing a datagram transport over (crates/protocol/src/io.rs)

    [Datagram::take_native] asks the driver of a pair of queues for the transport below it.  What the driver had already put into the reply queue stays ahead of
    what the transport receives later: [BufferedPackets] gives it first. *)

From S2P Require Import Prelude.

Module PacketIo.

Section io.
Context {P : Type}.

(** A receiver of the old queue, with whether its sender is gone, and the transport: what its polls will give, one batch each. *)
Record Buffered := mkBuffered { pending : option (list P * bool); native : list (list P) }.

(** The loop of [poll_recv]: at most [room] packets of the queue; [None] afterwards when it is found closed. *)
Fixpoint take_pending (room : nat) (queue : list P) (gone : bool) : list P * option (list P * bool) :=
  match room with
  | O => ([], Some (queue, gone))
  | S room =>
      match queue with
      | p :: queue => let '(out, rest) := take_pending room queue gone in (p :: out, rest)
      | [] => ([], if gone then None else Some ([], gone))
      end
  end.

(** [<BufferedPackets as PacketIo>::poll_recv]; [None] where the transport is pending. *)
Definition poll_recv (b : Buffered) : option (list P) * Buffered :=
  let '(out, rest) := match pending b with Some (queue, gone) => take_pending 32 queue gone | None => ([], None) end in
  match out with
  | [] => match native b with [] => (None, mkBuffered rest []) | l :: more => (Some l, mkBuffered rest more) end
  | _ => (Some out, mkBuffered rest (native b))
  end.

(** A reader that polls until nothing is there. *)
Fixpoint read_all (fuel : nat) (b : Buffered) : list P :=
  match fuel with
  | O => []
  | S fuel => match poll_recv b with (Some l, b) => l ++ read_all fuel b | (None, _) => [] end
  end.

(** [Datagram::take_native]: no offer, a driver that is gone, a driver that declines, or the transport with the reply queue [queue] before it. *)
Inductive handoff := NotOffered | DriverGone | Declined | Delivered (transport : list (list P)).

Definition take_native (h : handoff) (queue : list P) (gone : bool) : option (option Buffered) :=
  match h with
  | NotOffered => Some None
  | DriverGone => None
  | Declined => Some None
  | Delivered transport => Some (Some (mkBuffered (Some (queue, gone)) transport))
  end.

(** ** Lemmas *)

Lemma take_pending_spec room queue :
  let '(out, rest) := take_pending room queue true in
  out = take room queue /\ rest = if (length queue <? room)%nat then None else Some (drop room queue, true).
Proof.
  revert queue. induction room as [|room IH]; intros [|p queue]; cbn [take_pending]; try done.
  specialize (IH queue). destruct (take_pending room queue true) as [out rest]. destruct IH as [-> ->]. done.
Qed.

Lemma read_native fuel l : (length l < fuel)%nat -> read_all fuel (mkBuffered None l) = mjoin l.
Proof. revert l. induction fuel as [|fuel IH]; intros l Hf; [lia|]. cbn. destruct l as [|b l]; [done|]. cbn in *. rewrite IH by lia. done. Qed.

(** Buffered replies stay ahead.  Once the driver has dropped its end of the reply queue, a reader of the transport it delivered gets every packet left in that queue, in order and
    before anything the transport receives, and then exactly that. *)
Theorem buffered_replies_first queue transport b fuel :
  take_native (Delivered transport) queue true = Some (Some b) -> (length queue + length transport < fuel)%nat -> read_all fuel b = queue ++ mjoin transport.
Proof.
  intros [= <-]. revert queue. induction fuel as [|fuel IH]; intros queue Hf; [lia|]. cbn [read_all]. unfold poll_recv. cbn [pending native].
  pose proof (take_pending_spec 32 queue) as Ht. destruct (take_pending 32 queue true) as [out rest]. destruct Ht as [-> ->]. destruct queue as [|p queue].
  - cbn. destruct transport as [|l more]; [done|]. cbn in *. rewrite read_native by lia. done.
  - cbn [take]. destruct (length (p :: queue) <? 32)%nat eqn:Hl.
    + apply Nat.ltb_lt in Hl. cbn in Hl. rewrite (take_ge queue) by lia. rewrite read_native by (cbn in Hf; lia). done.
    + cbn [drop]. rewrite IH by (rewrite length_drop; cbn in Hf; lia). cbn. by rewrite app_assoc, take_drop.
Qed.

End io.

Lemma buffered_replies_first_witness : exists b, take_native (Delivered [[4]; [5; 6]]) [1; 2; 3] true = Some (Some b) /\ read_all 9 b = [1; 2; 3; 4; 5; 6].
Proof. eexists. split; [reflexivity|]. apply (buffered_replies_first [1; 2; 3] [[4]; [5; 6]]); [reflexivity|cbn; lia]. Defined.

End PacketIo.
