(* ===== verification/Rejections.v ===== *)
(** * Unhandled promise rejections (crates/script/src/rejection.rs, lib.rs)

    The tracker that the policy runtime gives to the JavaScript engine. It knows promises only by an identity that the engine may use again once a promise is collected; the
    identity is a 64-bit hash of the promise's value, and promises that are alive together are taken to have different ones. The
    description of a reason may itself run policy code. The tracker refines a specification that knows each promise: exactly the rejections that no handler observed in time
    are reported, once and in order. *)

From S2P Require Import Prelude.

Module Rejections.

Record Rejection := mkRejection { promise : Z; reason : option string }.

Record tracker := mkTracker {
  pending : list Rejection;
  scheduled : bool;
  startup : option (list string);
  settled : list Z;
  (** what was logged as a warning, and the wakers that were woken *)
  warned : list string;
  woken : list Z
}.

Definition new : tracker := mkTracker [] false (Some []) [] [] [].

(** [Iterator::rposition]. *)
Fixpoint rposition {A} (f : A -> bool) (l : list A) : option nat :=
  match l with
  | [] => None
  | x :: l => match rposition f l with Some i => Some (S i) | None => if f x then Some O else None end
  end.

(** The handler, told that a handler was attached to a promise it was told of. *)
Definition on_handled (id : Z) (t : tracker) : tracker :=
  match rposition (fun e => promise e =? id) (pending t) with
  | Some i => mkTracker (delete i (pending t)) (scheduled t) (startup t) (settled t) (warned t) (woken t)
  | None => t
  end.

(** The handler, told of a rejection, up to the description of the reason ... *)
Definition on_rejected (id : Z) (t : tracker) : tracker :=
  mkTracker (pending t ++ [mkRejection id None]) (scheduled t) (startup t) (settled t) (warned t) (woken t).

(** ... and from there on. *)
Definition on_described (id : Z) (text : string) (t : tracker) : tracker :=
  let entries :=
    match rposition (fun e => (promise e =? id) && bool_decide (reason e = None)) (pending t) with
    | Some i => alter (fun e => mkRejection (promise e) (Some text)) i (pending t)
    | None => pending t
    end in
  mkTracker entries true (startup t) (settled t) (warned t) (woken t).

(** The spawned report, after the job queue is empty: one reason, and all of them. *)
Definition report_one (t : tracker) (text : string) : tracker :=
  match startup t with
  | Some reasons => mkTracker (pending t) (scheduled t) (Some (reasons ++ [text])) (settled t) (warned t) (woken t)
  | None => mkTracker (pending t) (scheduled t) None (settled t) (warned t ++ [text]) (woken t)
  end.

Definition report (t : tracker) : tracker :=
  let taken := pending t in
  let t := mkTracker [] false (startup t) (settled t) (warned t) (woken t) in
  let t := foldl report_one t (map (fun e => default "" (reason e)) taken) in
  mkTracker (pending t) (scheduled t) (startup t) [] (warned t) (woken t ++ settled t).

(** One poll of [settled]: [true] when it is ready. *)
Definition poll_settled (waker : Z) (t : tracker) : bool * tracker :=
  if scheduled t then (false, mkTracker (pending t) (scheduled t) (startup t) (settled t ++ [waker]) (warned t) (woken t)) else (true, t).

Definition finish_startup (t : tracker) : list string * tracker :=
  (default [] (startup t), mkTracker (pending t) (scheduled t) None (settled t) (warned t) (woken t)).

(** [Runtime::evaluate] after the module's evaluation: its result, and what it logs. *)
Inductive error := Evaluation | UnhandledRejections (reasons : list string).

Definition evaluated (result : bool) (t : tracker) : res error unit * tracker :=
  let '(reasons, t) := finish_startup t in
  if result then (match reasons with [] => Ok tt | _ => Err (UnhandledRejections reasons) end, t)
  else (Err Evaluation, mkTracker (pending t) (scheduled t) (startup t) (settled t) (warned t ++ reasons) (woken t)).

(** ** The engine

    What JavaScript does: promises are created, rejected, described, given handlers and collected. Two promises that are alive have different identities. The tracker is told of
    the first handler of a rejected promise only, and a description ends before the code that it interrupted goes on. *)
Section engine.
Context (identity : Z -> Z).

Record engine := mkEngine { alive : gset Z; rejected : gset Z; observed : gset Z; describing : list Z }.

Inductive event := Create (p : Z) | Reject (p : Z) | Described (text : string) | Handle (p : Z) | Collect (p : Z) | Report | PollSettled (waker : Z) | Evaluated (result : bool).

Definition engine_step (g : engine) (e : event) : option engine :=
  match e with
  | Create p =>
      if bool_decide (p ∉ alive g /\ p ∉ rejected g /\ set_Forall (fun q => identity q <> identity p) (alive g))
      then Some (mkEngine ({[p]} ∪ alive g) (rejected g) (observed g) (describing g)) else None
  | Reject p =>
      if bool_decide (p ∈ alive g /\ p ∉ rejected g) then Some (mkEngine (alive g) ({[p]} ∪ rejected g) (observed g) (p :: describing g)) else None
  | Described _ => match describing g with _ :: rest => Some (mkEngine (alive g) (rejected g) (observed g) rest) | [] => None end
  | Handle p =>
      if bool_decide (p ∈ alive g /\ p ∈ rejected g /\ p ∉ observed g) then Some (mkEngine (alive g) (rejected g) ({[p]} ∪ observed g) (describing g)) else None
  | Collect p => if bool_decide (p ∈ alive g /\ p ∉ describing g) then Some (mkEngine (alive g ∖ {[p]}) (rejected g) (observed g) (describing g)) else None
  | Report | PollSettled _ | Evaluated _ => if bool_decide (describing g = []) then Some g else None
  end.

(** What the tracker does at each of these. *)
Definition tracker_step (g : engine) (t : tracker) (e : event) : option tracker :=
  match e with
  | Create _ | Collect _ => Some t
  | Reject p => Some (on_rejected (identity p) t)
  | Described text => match describing g with p :: _ => Some (on_described (identity p) text t) | [] => None end
  | Handle p => Some (on_handled (identity p) t)
  | Report => if scheduled t then Some (report t) else None
  | PollSettled w => Some (poll_settled w t).2
  | Evaluated result => Some (evaluated result t).2
  end.

Fixpoint run (g : engine) (t : tracker) (es : list event) : option (engine * tracker) :=
  match es with
  | [] => Some (g, t)
  | e :: es => t' ← tracker_step g t e; g' ← engine_step g e; run g' t' es
  end.

Definition start : engine := mkEngine ∅ ∅ ∅ [].

(** ** The specification: rejections by promise, removed when their promise is handled. *)
Record spec := mkSpec { open : list (Z * option string); collecting : option (list string); logged : list string }.

Definition spec_report (s : spec) : spec :=
  let texts := map (fun e => default "" e.2) (open s) in
  match collecting s with Some c => mkSpec [] (Some (c ++ texts)) (logged s) | None => mkSpec [] None (logged s ++ texts) end.

Definition spec_step (g : engine) (s : spec) (e : event) : spec :=
  match e with
  | Create _ | Collect _ | PollSettled _ => s
  | Reject p => mkSpec (open s ++ [(p, None)]) (collecting s) (logged s)
  | Described text =>
      mkSpec (map (fun e => if bool_decide (head (describing g) = Some e.1) then (e.1, Some text) else e) (open s)) (collecting s) (logged s)
  | Handle p => mkSpec (filter (fun e => e.1 <> p) (open s)) (collecting s) (logged s)
  | Report => spec_report s
  | Evaluated result => mkSpec (open s) None (if result then logged s else logged s ++ default [] (collecting s))
  end.

Fixpoint spec_run (g : engine) (s : spec) (es : list event) : spec :=
  match es with [] => s | e :: es => match engine_step g e with Some g' => spec_run g' (spec_step g s e) es | None => s end end.

Definition spec_new : spec := mkSpec [] (Some []) [].

Definition concrete (e : Z * option string) : Rejection := mkRejection (identity e.1) e.2.

(** ** The invariant

    An entry of another promise with the identity of a live promise is older than the live promise's own. *)
Fixpoint newest_own (g : engine) (l : list (Z * option string)) : Prop :=
  match l with
  | [] => True
  | (q, _) :: l => (forall p, p ∈ alive g -> identity p = identity q -> p <> q -> p ∉ rejected g \/ p ∈ observed g \/ p ∈ l.*1) /\ newest_own g l
  end.

Record Inv (g : engine) (t : tracker) (s : spec) : Prop := {
  i_pending : pending t = map concrete (open s);
  i_startup : startup t = collecting s;
  i_warned : warned t = logged s;
  i_distinct : forall p q, p ∈ alive g -> q ∈ alive g -> identity p = identity q -> p = q;
  i_describing : forall p, p ∈ describing g -> p ∈ alive g /\ p ∈ rejected g;
  i_describing_nodup : NoDup (describing g);
  i_nodup : NoDup (open s).*1;
  i_rejected : forall p, p ∈ (open s).*1 -> p ∈ rejected g;
  i_observed : observed g ⊆ rejected g;
  i_unobserved : forall p, p ∈ (open s).*1 -> p ∉ observed g;
  i_undescribed : forall p, (p, None) ∈ open s -> p ∈ describing g;
  i_described : forall p text, (p, Some text) ∈ open s -> p ∉ describing g;
  i_newest : newest_own g (open s);
  i_scheduled : describing g = [] -> open s <> [] -> scheduled t = true;
  i_waiting : settled t <> [] -> scheduled t = true;
}.


(** ** Lemmas on lists of entries *)
Lemma rposition_none {A} (f : A -> bool) l : rposition f l = None <-> (forall x, x ∈ l -> f x = false).
Proof.
  induction l as [|x l IH]; cbn; [split; [intros _ y Hy; inversion Hy|done]|].
  destruct (rposition f l) as [i|] eqn:Hi.
  - split; [done|]. intros H. assert (Hn : Some i = None) by (apply IH; intros y Hy; apply H; by right). done.
  - destruct IH as [IH _]. specialize (IH eq_refl). destruct (f x) eqn:Hx; split; try done.
    + intros H. specialize (H x ltac:(by left)). congruence.
    + intros _ y [->|Hy]%elem_of_cons; auto.
Qed.

Lemma filter_absent (p : Z) (l : list (Z * option string)) : p ∉ l.*1 -> filter (fun e => e.1 <> p) l = l.
Proof.
  induction l as [|[q r] l IH]; [done|]. rewrite fmap_cons, not_elem_of_cons. intros [Hp Hpl]. rewrite filter_cons_True by (cbn in *; congruence). by rewrite IH by tauto.
Qed.

(** Removing the newest entry with the identity of a live promise removes the entry of that promise. *)
Lemma newest_removed g p l :
  newest_own g l -> NoDup l.*1 -> p ∈ alive g -> p ∈ rejected g -> p ∉ observed g ->
  match rposition (fun e => promise e =? identity p) (map concrete l) with Some i => delete i (map concrete l) | None => map concrete l end =
  map concrete (filter (fun e => e.1 <> p) l).
Proof.
  intros Hl Hnd Ha Hr Ho. induction l as [|[q r] l IH]; [done|]. destruct Hl as [Hq Hl]. cbn in Hnd. apply NoDup_cons in Hnd as [Hql Hnd]. specialize (IH Hl Hnd). cbn [map rposition].
  destruct (rposition _ (map concrete l)) as [i|] eqn:Hi.
  - destruct (decide (q = p)) as [->|Hqp].
    + rewrite (filter_absent p l) in IH by done. exfalso.
      assert (length (delete i (map concrete l)) = length (map concrete l)) as Hlen by (by rewrite IH).
      assert (Hlt : (i < length (map concrete l))%nat).
      { destruct (decide (i < length (map concrete l))%nat) as [|Hge]; [done|]. exfalso. clear -Hi Hge. revert i Hi Hge. induction (map concrete l) as [|x k IH]; cbn; [done|]. intros i.
        destruct (rposition _ k) as [j|] eqn:Hj; [intros [= <-] Hge; apply (IH j); [done|lia]|]. destruct (promise x =? _); [intros [= <-]; lia|done]. }
      apply lookup_lt_is_Some in Hlt. rewrite length_delete in Hlen by done. apply lookup_lt_is_Some in Hlt. lia.
    + rewrite filter_cons_True by done. cbn. by rewrite <- IH.
  - assert (Hpl : p ∉ l.*1).
    { intros [[p' r'] [-> Hin]]%list_elem_of_fmap. rewrite rposition_none in Hi. specialize (Hi (concrete (p', r')) ltac:(by apply list_elem_of_fmap_2)). cbn in Hi. lia. }
    rewrite filter_absent in IH by done. cbn [promise concrete fst]. destruct (identity q =? identity p) eqn:Hid.
    + zify_bool. destruct (decide (q = p)) as [->|Hqp].
      * rewrite filter_cons_False by (cbn; tauto). by rewrite filter_absent.
      * destruct (Hq p Ha (eq_sym Hid) ltac:(congruence)) as [|[|]]; done.
    + destruct (decide (q = p)) as [->|Hqp]; [lia|]. rewrite filter_cons_True by done. by rewrite filter_absent.
Qed.

(** The description reaches the entry of the promise that is described, if it is still there. *)
Lemma described_entry p text l :
  NoDup l.*1 -> (forall r, (p, Some r) ∉ l) -> (forall q, (q, None) ∈ l -> identity p = identity q -> p = q) ->
  match rposition (fun e => (promise e =? identity p) && bool_decide (reason e = None)) (map concrete l) with
  | Some i => alter (fun e => mkRejection (promise e) (Some text)) i (map concrete l)
  | None => map concrete l
  end = map concrete (map (fun e => if bool_decide (Some p = Some e.1) then (e.1, Some text) else e) l).
Proof.
  induction l as [|[q r] l IH]; [done|]. intros Hnd Hsome Hnone. cbn in Hnd. apply NoDup_cons in Hnd as [Hql Hnd].
  specialize (IH Hnd ltac:(intros r' Hin; apply (Hsome r'); by right) ltac:(intros q' Hin; apply Hnone; by right)). cbn [map rposition].
  destruct (rposition _ (map concrete l)) as [i|] eqn:Hi.
  - cbn [alter list_alter fst]. rewrite bool_decide_false; [cbn; by rewrite <- IH|]. intros [= ->].
    assert (Hne : map concrete l = map concrete (map (fun e => if bool_decide (Some q = Some e.1) then (e.1, Some text) else e) l)).
    { f_equal. rewrite <- (map_id l) at 1. apply map_ext_in. intros [a b] Hin. cbn. rewrite bool_decide_false; [done|]. intros [= ->]. apply Hql. apply list_elem_of_In in Hin. by eapply (list_elem_of_fmap_2 fst l (a, b)). }
    assert (Hex : exists x, x ∈ map concrete l /\ (promise x =? identity q) && bool_decide (reason x = None) = true).
    { destruct (decide (Forall (fun x => (promise x =? identity q) && bool_decide (reason x = None) = false) (map concrete l))) as [Hf|Hf].
      - rewrite Forall_forall in Hf. apply rposition_none in Hf. congruence.
      - apply not_Forall_Exists in Hf; [|apply _]. apply Exists_exists in Hf as [x [Hin Hx]]. exists x. split; [done|]. by apply not_false_iff_true. }
    destruct Hex as [x [Hin Hx]]. apply list_elem_of_fmap in Hin as [[a b] [-> Hin]]. apply andb_true_iff in Hx as [Hx1 Hx2]. apply bool_decide_eq_true in Hx2. cbn in Hx1, Hx2. subst b. zify_bool.
    specialize (Hnone a ltac:(by right) ltac:(lia)). subst a. apply Hql. by eapply (list_elem_of_fmap_2 fst l (q, None)).
  - cbn [promise reason concrete fst snd]. destruct ((identity q =? identity p) && bool_decide (r = None)) eqn:Hid.
    + apply andb_true_iff in Hid as [Hid Hr]. apply bool_decide_eq_true in Hr. subst r. zify_bool. specialize (Hnone q ltac:(by left) ltac:(lia)). subst q.
      rewrite bool_decide_true by done. cbn [alter list_alter fst map]. rewrite IH at 1. done.
    + rewrite bool_decide_false; [cbn; by rewrite <- IH|]. intros [= ->]. destruct r as [r|]; [apply (Hsome r); by left|]. rewrite Z.eqb_refl in Hid. rewrite bool_decide_true in Hid by done. done.
Qed.

Lemma newest_own_mono g g' l :
  (forall p, p ∈ alive g' -> p ∈ alive g \/ p ∉ rejected g') -> (forall p, p ∈ rejected g' -> p ∈ rejected g) -> observed g ⊆ observed g' ->
  newest_own g l -> newest_own g' l.
Proof.
  intros Ha Hr Ho. induction l as [|[q r] l IH]; [done|]. intros [Hq Hl]. split; [|by apply IH]. intros p Hp Hid Hne.
  destruct (Ha p Hp) as [Hp'|]; [|by left]. destruct (Hq p Hp' Hid Hne) as [H|[H|H]]; [left|right; left|right; right]; set_solver.
Qed.

Lemma newest_own_reject g p l :
  (forall q, q ∈ alive g -> identity q = identity p -> q = p) -> newest_own g l ->
  newest_own (mkEngine (alive g) ({[p]} ∪ rejected g) (observed g) (p :: describing g)) (l ++ [(p, None)]).
Proof.
  intros Hp. induction l as [|[q r] l IH]; cbn.
  - intros _. split; [|done]. intros q Hq Hid Hne. by specialize (Hp q Hq Hid).
  - intros [Hq Hl]. split; [|by apply IH]. intros p' Hp' Hid Hne. rewrite fmap_app. destruct (decide (p' = p)) as [->|Hpp]; [right; right; set_solver|].
    destruct (Hq p' Hp' Hid Hne) as [H|[H|H]]; [left|right; left|right; right]; set_solver.
Qed.

Lemma newest_own_handle g p l :
  newest_own g l -> newest_own (mkEngine (alive g) (rejected g) ({[p]} ∪ observed g) (describing g)) (filter (fun e => e.1 <> p) l).
Proof.
  induction l as [|[q r] l IH]; [done|]. intros [Hq Hl]. specialize (IH Hl). destruct (decide (q = p)) as [->|Hqp]; [by rewrite filter_cons_False by (cbn; tauto)|].
  rewrite filter_cons_True by done. split; [|done]. intros p' Hp' Hid Hne. cbn. destruct (decide (p' = p)) as [->|Hpp]; [right; left; set_solver|].
  destruct (Hq p' Hp' Hid Hne) as [H|[H|H]]; [by left|right; left; set_solver|right; right].
  apply list_elem_of_fmap in H as [[a b] [-> Hin]]. apply list_elem_of_fmap. exists (a, b). split; [done|]. by apply list_elem_of_filter.
Qed.

Lemma newest_own_map g f l : (forall e : Z * option string, (f e).1 = e.1) -> newest_own g l -> newest_own g (map f l).
Proof.
  intros Hf. assert (Hkeys : forall k, (map f k).*1 = k.*1).
  { induction k as [|e k IH]; [done|]. cbn. by rewrite Hf, IH. }
  induction l as [|[q r] l IH]; [done|]. intros [Hq Hl]. cbn. specialize (Hf (q, r)). destruct (f (q, r)) as [q' r']. cbn in Hf. subst q'. split; [|by apply IH]. by rewrite Hkeys.
Qed.

Lemma report_all texts t :
  foldl report_one t texts = match startup t with
    | Some c => mkTracker (pending t) (scheduled t) (Some (c ++ texts)) (settled t) (warned t) (woken t)
    | None => mkTracker (pending t) (scheduled t) None (settled t) (warned t ++ texts) (woken t)
    end.
Proof.
  revert t. induction texts as [|x texts IH]; intros [p sc st se w k]; cbn; [by destruct st; rewrite app_nil_r|]. destruct st as [c|]; cbn; rewrite IH; cbn; by rewrite <- app_assoc.
Qed.

Lemma inv_create g t s p g' : Inv g t s -> engine_step g (Create p) = Some g' -> Inv g' t s.
Proof.
  intros HI. cbn. case_bool_decide as Hg; [|done]. destruct Hg as (Hna & Hnr & Hid). intros [= <-]. destruct HI. constructor; cbn; try done.
  - intros a b Ha Hb. rewrite elem_of_union, elem_of_singleton in Ha, Hb. destruct Ha as [->|Ha], Hb as [->|Hb]; intros Heq; try done; [by destruct (Hid b Hb)|by destruct (Hid a Ha)|by apply i_distinct0].
  - intros q Hq. destruct (i_describing0 q Hq). set_solver.
  - eapply newest_own_mono; [..|exact i_newest0]; cbn; [|done|done]. intros q [->%elem_of_singleton|Hq]%elem_of_union; [by right|by left].
Qed.

Lemma inv_collect g t s p g' : Inv g t s -> engine_step g (Collect p) = Some g' -> Inv g' t s.
Proof.
  intros HI. cbn. case_bool_decide as Hg; [|done]. destruct Hg as [Ha Hnd]. intros [= <-]. destruct HI. constructor; cbn; try done.
  - intros a b. rewrite !elem_of_difference. intros [? _] [? _]. by apply i_distinct0.
  - intros q Hq. destruct (i_describing0 q Hq). split; [|done]. rewrite elem_of_difference, elem_of_singleton. split; [done|]. by intros ->.
  - eapply newest_own_mono; [..|exact i_newest0]; cbn; [|done|done]. intros q [? _]%elem_of_difference. by left.
Qed.

Lemma inv_reject g t s p g' : Inv g t s -> engine_step g (Reject p) = Some g' -> Inv g' (on_rejected (identity p) t) (spec_step g s (Reject p)).
Proof.
  intros HI. cbn. case_bool_decide as Hg; [|done]. destruct Hg as [Ha Hnr]. intros [= <-]. destruct HI.
  assert (Hpo : p ∉ (open s).*1) by (intros H; by apply Hnr, i_rejected0).
  constructor; cbn; try done.
  - rewrite i_pending0, map_app. done.
  - intros q [->|Hq]%elem_of_cons; [set_solver|]. destruct (i_describing0 q Hq). set_solver.
  - apply NoDup_cons. split; [|done]. intros Hin. by destruct (i_describing0 p Hin).
  - rewrite fmap_app. apply NoDup_app. split_and!; [done| |by apply NoDup_singleton]. set_solver.
  - rewrite fmap_app. set_solver.
  - set_solver.
  - rewrite fmap_app. intros q [Hq|Hq]%elem_of_app; [by apply i_unobserved0|]. apply list_elem_of_singleton in Hq as ->. set_solver.
  - intros q [Hq|Hq]%elem_of_app; [right; by apply i_undescribed0|]. apply list_elem_of_singleton in Hq as [= ->]. by left.
  - intros q text [Hq|Hq]%elem_of_app; [|by apply list_elem_of_singleton in Hq]. apply not_elem_of_cons. split; [|by eapply i_described0]. intros ->. apply Hpo. by eapply (list_elem_of_fmap_2 fst _ (p, Some text)).
  - apply newest_own_reject; [|done]. intros q Hq Hid. by apply i_distinct0.
Qed.

Lemma inv_handle g t s p g' : Inv g t s -> engine_step g (Handle p) = Some g' -> Inv g' (on_handled (identity p) t) (spec_step g s (Handle p)).
Proof.
  intros HI. cbn. case_bool_decide as Hg; [|done]. destruct Hg as (Ha & Hr & Ho). intros [= <-]. destruct HI.
  assert (Hon : on_handled (identity p) t = mkTracker (map concrete (filter (fun e => e.1 <> p) (open s))) (scheduled t) (startup t) (settled t) (warned t) (woken t)).
  { rewrite <- (newest_removed g p (open s)) by done. unfold on_handled. rewrite i_pending0. destruct (rposition _ _); [done|]. rewrite <- i_pending0. by destruct t. }
  assert (Hsub : forall q, q ∈ (filter (fun e => e.1 <> p) (open s)).*1 -> q ∈ (open s).*1 /\ q <> p).
  { intros q [[a b] [-> [Hne Hin]%list_elem_of_filter]]%list_elem_of_fmap. split; [|done]. by apply (list_elem_of_fmap_2 fst _ (a, b)). }
  rewrite Hon. constructor; cbn; try done.
  - eapply sublist_NoDup; [exact i_nodup0|]. apply fmap_sublist, sublist_filter.
  - intros q Hq. apply i_rejected0. by destruct (Hsub q Hq).
  - set_solver.
  - intros q Hq. destruct (Hsub q Hq) as [Hq' Hne]. specialize (i_unobserved0 q Hq'). set_solver.
  - intros q [_ Hq]%list_elem_of_filter. by apply i_undescribed0.
  - intros q text [_ Hq]%list_elem_of_filter. by eapply i_described0.
  - by apply newest_own_handle.
  - intros Hd Hne. apply i_scheduled0; [done|]. intros H0. rewrite H0 in Hne. done.
Qed.

Lemma inv_described g t s p rest text :
  Inv g t s -> describing g = p :: rest -> Inv (mkEngine (alive g) (rejected g) (observed g) rest) (on_described (identity p) text t) (spec_step g s (Described text)).
Proof.
  intros HI Hd. destruct HI. rewrite Hd in *.
  set (f := fun e : Z * option string => if bool_decide (Some p = Some e.1) then (e.1, Some text) else e).
  assert (Hf : forall e, (f e).1 = e.1) by (intros e; unfold f; by destruct (bool_decide _)).
  assert (Hkeys : (map f (open s)).*1 = (open s).*1).
  { clear -Hf. induction (open s) as [|e k IH]; [done|]. cbn. by rewrite Hf, IH. }
  destruct (i_describing0 p ltac:(by left)) as [Ha Hr]. apply NoDup_cons in i_describing_nodup0 as [Hp Hnd].
  unfold on_described, spec_step. rewrite Hd. cbn [head]. fold f. rewrite i_pending0, described_entry; [|done|..]; fold f.
  2: { intros r Hin. apply (i_described0 p r Hin). by left. }
  2: { intros q Hin Hid. apply i_distinct0; [done| |done]. by apply i_describing0, i_undescribed0. }
  constructor; cbn [pending startup warned settled scheduled alive rejected observed describing open collecting logged]; try done; rewrite ?Hkeys; try done.
  - intros q Hq. apply i_describing0. by right.
  - intros q [[a b] [He Hin]]%list_elem_of_fmap. unfold f in He. case_bool_decide as Hb; cbn in He, Hb; [done|]. simplify_eq. apply i_undescribed0, elem_of_cons in Hin as [->|]; done.
  - intros q x [[a b] [He Hin]]%list_elem_of_fmap. unfold f in He. case_bool_decide as Hb; cbn in He, Hb; [by simplify_eq|]. simplify_eq. apply i_described0 in Hin. set_solver.
  - apply newest_own_map; [done|]. eapply newest_own_mono; [..|exact i_newest0]; cbn; [by left|done|done].
Qed.

Lemma inv_report g t s : Inv g t s -> describing g = [] -> Inv g (report t) (spec_report s).
Proof.
  intros HI Hd. destruct HI. unfold report, spec_report. rewrite report_all. cbn [startup]. rewrite i_startup0.
  assert (Htexts : map (fun e => default "" (reason e)) (pending t) = map (fun e : Z * option string => default "" e.2) (open s)) by (rewrite i_pending0, map_map; done).
  rewrite Htexts. destruct (collecting s); constructor; cbn; try done; try (intros ? H; by apply not_elem_of_nil in H); try (intros ? ? H; by apply not_elem_of_nil in H); try (by rewrite i_warned0); by apply NoDup_nil_2.
Qed.

Lemma tracker_inv_step g t s e g' t' : Inv g t s -> tracker_step g t e = Some t' -> engine_step g e = Some g' -> Inv g' t' (spec_step g s e).
Proof.
  intros HI. destruct e as [p|p|text|p|p| |w|r].
  - intros [= <-]. by apply inv_create.
  - intros [= <-]. by apply inv_reject.
  - cbn [tracker_step engine_step]. destruct (describing g) as [|p rest] eqn:Hd; [done|]. intros [= <-] [= <-]. by apply inv_described.
  - intros [= <-]. by apply inv_handle.
  - intros [= <-]. by apply inv_collect.
  - cbn. destruct (scheduled t); [|done]. intros [= <-]. case_bool_decide; [|done]. intros [= <-]. by apply inv_report.
  - cbn. case_bool_decide; [|done]. intros [= <-] [= <-]. unfold poll_settled. destruct (scheduled t) eqn:Hs; [|done]. destruct HI. constructor; cbn; try done.
  - cbn. case_bool_decide; [|done]. intros [= <-] [= <-]. destruct HI. unfold evaluated, finish_startup. destruct r; constructor; cbn; try done. by rewrite i_warned0, i_startup0.
Qed.

Lemma tracker_inv_run es : forall g t s g' t', Inv g t s -> run g t es = Some (g', t') -> Inv g' t' (spec_run g s es).
Proof.
  induction es as [|e es IH]; intros g t s g' t' HI; cbn; [by intros [= <- <-]|].
  destruct (tracker_step g t e) as [t1|] eqn:Ht; [|done]. cbn. destruct (engine_step g e) as [g1|] eqn:Hg; [|done]. cbn. apply IH. by eapply tracker_inv_step.
Qed.

Lemma tracker_inv_start : Inv start new spec_new.
Proof. constructor; cbn; try done; try (intros ? H; by apply not_elem_of_nil in H); try (intros ? ? H; by apply not_elem_of_nil in H); try (by apply NoDup_nil_2); set_solver. Qed.

(** C38. Whatever policy does, and however often the engine uses an identity again, the tracker reports what the specification reports: each rejection whose promise got no handler
    before the report, once and in order, with the reason that was described, to startup while it runs and as a warning afterwards. When no description is running every
    pending entry has its reason; a tracker on which [settled] is ready has nothing pending; and no task waits for a report that is not scheduled. *)
Theorem rejections_refine es g t :
  run start new es = Some (g, t) ->
  startup t = collecting (spec_run start spec_new es) /\ warned t = logged (spec_run start spec_new es) /\ pending t = map concrete (open (spec_run start spec_new es)) /\
  (describing g = [] -> Forall (fun e => reason e <> None) (pending t) /\ (forall w, (poll_settled w t).1 = true -> pending t = [])) /\ (settled t <> [] -> scheduled t = true).
Proof.
  intros Hrun. destruct (tracker_inv_run es _ _ _ _ _ tracker_inv_start Hrun). split_and!; try done. intros Hd. rewrite i_pending0. split.
  - apply Forall_forall. intros x [[p r] [-> Hin]]%list_elem_of_fmap. cbn. intros ->. specialize (i_undescribed0 p Hin). rewrite Hd in i_undescribed0. by apply not_elem_of_nil in i_undescribed0.
  - intros w. unfold poll_settled. destruct (scheduled t) eqn:Hs; [done|]. intros _. destruct (open (spec_run start spec_new es)) eqn:Ho; [done|]. by specialize (i_scheduled0 Hd ltac:(done)).
Qed.

(** Startup succeeds only if the evaluation did and no rejection was left unhandled up to its end. *)
Theorem startup_sees_rejections es g t :
  run start new es = Some (g, t) -> (evaluated true t).1 = Ok tt <-> default [] (collecting (spec_run start spec_new es)) = [].
Proof.
  intros Hrun. destruct (tracker_inv_run es _ _ _ _ _ tracker_inv_start Hrun). unfold evaluated, finish_startup. rewrite i_startup0. by destruct (default [] _).
Qed.

End engine.

(** Promises 1 and 11 have the same identity; 1 is rejected and collected, 11 is rejected and handled: only 1's rejection is reported. *)
Definition reuse : list event :=
  [Create 1; Reject 1; Described "first"; Collect 1; Create 11; Create 2; Reject 11; Reject 2; Described "two"; Described "second"; Handle 11; PollSettled 7; Report].

Lemma rejections_refine_witness : exists g t, run (fun p => p `mod` 10) start new reuse = Some (g, t) /\ startup t = Some ["first"; "two"]%string /\ woken t = [7] /\ (settled t <> [] -> scheduled t = true).
Proof. eexists _, _. split; [vm_compute; reflexivity|]. split; [vm_compute; reflexivity|]. split; [vm_compute; reflexivity|]. eapply (rejections_refine (fun p => p `mod` 10) reuse). vm_compute. reflexivity. Defined.

End Rejections.
