(* ===== verification/HysteriaClient.v ===== *)
(** * The shared connection of a Hysteria 2 client (crates/hysteria2/src/client.rs)

    All streams and UDP sessions of a client share one QUIC connection. A manager task owns it, hands out leases, and retires when nobody uses it. Callers, the manager, holders of
    leases and the connection itself run concurrently. *)

From S2P Require Import Prelude.

Module HysteriaClient.

Definition REQUESTS : Z := 64.

(** Where the manager is: not running, in its [select!], with a release taken from its channel, or connecting for a request. *)
Inductive place := Retired | Idle | Releasing | Connecting (r : Z).

(** What a caller of [session] sees of its request: no answer yet, given up by the caller, dropped without an answer (the caller tries again), refused, or served. *)
Inductive answer := Pending | Closed | Retry | Refused | Served (s : Z).

Record state := mkState {
  scope_open : bool;
  generation : Z;
  at_ : place;
  queue : list Z;
  session : option Z;
  (** the channel [releases] of the current manager, which has room for one *)
  token : bool;
  answers : gmap Z answer;
  (** the leases whose [Arc] is held, by request: their session and their manager *)
  leases : gmap Z (Z * Z);
  (** the managers of the leases whose [Arc] is released and whose [Released] is still to be dropped *)
  dropping : list Z;
  (** the sessions that exist, with [true] for a connection that has a close reason *)
  sessions : gmap Z bool;
  next : Z
}.

Definition init : state := mkState true 0 Retired [] None false ∅ ∅ [] ∅ 0.

Definition leased (s : Z) (m : gmap Z (Z * Z)) : bool := bool_decide (map_Exists (fun _ l => l.1 = s) m).

(** [Arc::strong_count(value) == 1] for the manager's session. *)
Definition unused (st : state) : bool := match session st with None => true | Some s => negb (leased s (leases st)) end.

(** A reference to a session goes away: the last one drops it, which closes the connection and its scope. *)
Definition release_session (s : Z) (st : state) : state :=
  if bool_decide (session st = Some s) || leased s (leases st) then st
  else mkState (scope_open st) (generation st) (at_ st) (queue st) (session st) (token st) (answers st) (leases st) (dropping st) (delete s (sessions st)) (next st).

(** The manager lets its session go. *)
Definition drop_session (st : state) : state :=
  match session st with
  | None => st
  | Some s => release_session s (mkState (scope_open st) (generation st) (at_ st) (queue st) None (token st) (answers st) (leases st) (dropping st) (sessions st) (next st))
  end.

(** A reply sender is dropped without an answer. *)
Definition bounce (answers : gmap Z answer) (r : Z) : gmap Z answer :=
  match answers !! r with Some Pending => <[r := Retry]> answers | _ => answers end.

(** [manage] returns: its session, its channels and the requests in them are dropped. *)
Definition retire (st : state) : state :=
  let waiting := match at_ st with Connecting r => r :: queue st | _ => queue st end in
  let st := drop_session st in
  mkState (scope_open st) (generation st) Retired [] (session st) false (foldl bounce (answers st) waiting) (leases st) (dropping st) (sessions st) (next st).

(** The reply with a lease. A caller that has gone gives it back at once. *)
Definition serve (s r : Z) (st : state) : state :=
  match answers st !! r with
  | Some Pending =>
      mkState (scope_open st) (generation st) Idle (queue st) (session st) (token st) (<[r := Served s]> (answers st)) (<[r := (s, generation st)]> (leases st)) (dropping st) (sessions st) (next st)
  | _ => mkState (scope_open st) (generation st) Idle (queue st) (session st) (token st) (answers st) (leases st) (generation st :: dropping st) (sessions st) (next st)
  end.

Definition closed (st : state) (s : Z) : bool := default true (sessions st !! s).

Definition set_place (p : place) (st : state) : state :=
  mkState (scope_open st) (generation st) p (queue st) (session st) (token st) (answers st) (leases st) (dropping st) (sessions st) (next st).

(** One request, taken from the queue. *)
Definition receive (r : Z) (st : state) : state :=
  match answers st !! r with
  | Some Pending =>
      let st := match session st with Some s => if closed st s then drop_session st else st | None => st end in
      match session st with Some s => serve s r st | None => set_place (Connecting r) st end
  | _ => if unused st then retire st else st
  end.

Inductive event :=
  | Ensure | Send (r : Z) | Refuse (r : Z) | Cancel (r : Z)
  | Receive | TakeRelease | CheckRelease | Connected | ConnectFailed | CallerGone | Cancelled
  | DropLease (r : Z) | Notify (i : nat) | ConnectionClosed (s : Z) | CloseScope.

Definition step (st : state) (e : event) : option state :=
  match e with
  (* [Client::session]: the slot under its lock, and the request *)
  | Ensure =>
      match at_ st with
      | Retired => if scope_open st then Some (mkState true (generation st + 1) Idle [] None false (answers st) (leases st) (dropping st) (sessions st) (next st)) else None
      | _ => Some st
      end
  | Send r =>
      match answers st !! r, at_ st with
      | Some Pending, _ | Some Closed, _ | Some Refused, _ | Some (Served _), _ | _, Retired => None
      | _, _ =>
          if len (queue st) <? REQUESTS
          then Some (mkState (scope_open st) (generation st) (at_ st) (queue st ++ [r]) (session st) (token st) (<[r := Pending]> (answers st)) (leases st) (dropping st) (sessions st) (next st))
          else None
      end
  | Refuse r =>
      match answers st !! r, at_ st with
      | None, Retired | Some Retry, Retired =>
          if scope_open st then None
          else Some (mkState (scope_open st) (generation st) (at_ st) (queue st) (session st) (token st) (<[r := Refused]> (answers st)) (leases st) (dropping st) (sessions st) (next st))
      | _, _ => None
      end
  | Cancel r =>
      match answers st !! r with
      | Some Pending => Some (mkState (scope_open st) (generation st) (at_ st) (queue st) (session st) (token st) (<[r := Closed]> (answers st)) (leases st) (dropping st) (sessions st) (next st))
      | _ => None
      end
  (* [manage] *)
  | Receive =>
      match at_ st, queue st with
      | Idle, r :: rest => Some (receive r (mkState (scope_open st) (generation st) Idle rest (session st) (token st) (answers st) (leases st) (dropping st) (sessions st) (next st)))
      | _, _ => None
      end
  | TakeRelease =>
      match at_ st, queue st, token st with
      | Idle, [], true => Some (mkState (scope_open st) (generation st) Releasing [] (session st) false (answers st) (leases st) (dropping st) (sessions st) (next st))
      | _, _, _ => None
      end
  | CheckRelease => match at_ st with Releasing => Some (if unused st then retire st else set_place Idle st) | _ => None end
  | Connected =>
      match at_ st with
      | Connecting r =>
          let s := next st in
          Some (serve s r (mkState (scope_open st) (generation st) (at_ st) (queue st) (Some s) (token st) (answers st) (leases st) (dropping st) (<[s := false]> (sessions st)) (s + 1)))
      | _ => None
      end
  | ConnectFailed =>
      match at_ st with
      | Connecting r =>
          Some (retire (match answers st !! r with
            | Some Pending => mkState (scope_open st) (generation st) (at_ st) (queue st) (session st) (token st) (<[r := Refused]> (answers st)) (leases st) (dropping st) (sessions st) (next st)
            | _ => st
            end))
      | _ => None
      end
  | CallerGone => match at_ st with Connecting r => match answers st !! r with Some Closed => Some (retire st) | _ => None end | _ => None end
  (* the task is cancelled with its scope *)
  | Cancelled => match at_ st with Retired => None | _ => if scope_open st then None else Some (retire st) end
  (* a lease is dropped, field by field *)
  | DropLease r =>
      match leases st !! r with
      | Some (s, g) =>
          Some (release_session s (mkState (scope_open st) (generation st) (at_ st) (queue st) (session st) (token st) (answers st) (delete r (leases st)) (g :: dropping st) (sessions st) (next st)))
      | None => None
      end
  | Notify i =>
      match dropping st !! i with
      | Some g =>
          let heard := match at_ st with Retired => false | _ => g =? generation st end in
          Some (mkState (scope_open st) (generation st) (at_ st) (queue st) (session st) (token st || heard) (answers st) (leases st) (delete i (dropping st)) (sessions st) (next st))
      | None => None
      end
  | ConnectionClosed s =>
      match sessions st !! s with
      | Some _ => Some (mkState (scope_open st) (generation st) (at_ st) (queue st) (session st) (token st) (answers st) (leases st) (dropping st) (<[s := true]> (sessions st)) (next st))
      | None => None
      end
  | CloseScope => Some (mkState false (generation st) (at_ st) (queue st) (session st) (token st) (answers st) (leases st) (dropping st) (sessions st) (next st))
  end.

Fixpoint run (st : state) (es : list event) : option state :=
  match es with [] => Some st | e :: es => st ← step st e; run st es end.

(** ** The invariant, with the session whose reference count is being settled and the request in the manager's hands. *)
Record Inv (settling : option Z) (in_hand : option Z) (st : state) : Prop := {
  i_lease : forall r s g, leases st !! r = Some (s, g) -> is_Some (sessions st !! s) /\ g <= generation st /\ (session st = Some s -> g = generation st);
  i_served : forall r s g, leases st !! r = Some (s, g) -> answers st !! r = Some (Served s);
  i_session : forall s, session st = Some s -> is_Some (sessions st !! s) /\ (at_ st = Idle \/ at_ st = Releasing);
  i_refs : forall s, is_Some (sessions st !! s) -> session st = Some s \/ leased s (leases st) = true \/ settling = Some s;
  i_fresh : forall s, is_Some (sessions st !! s) -> s < next st;
  i_one : forall s, scope_open st = true -> sessions st !! s = Some false -> session st = Some s \/ settling = Some s;
  i_pending : forall r, answers st !! r = Some Pending -> r ∈ queue st \/ at_ st = Connecting r \/ in_hand = Some r;
  i_idle : forall s, at_ st = Idle -> session st = Some s -> leased s (leases st) = false -> token st = true \/ generation st ∈ dropping st;
  i_retired : at_ st = Retired -> queue st = [];
}.

Lemma leased_true s m : leased s m = true <-> exists r g, m !! r = Some (s, g).
Proof.
  unfold leased. rewrite bool_decide_eq_true. split.
  - intros (r & [s' g] & Hr & Hs). cbn in Hs. subst. eauto.
  - intros (r & g & Hr). exists r, (s, g). done.
Qed.

Lemma leased_insert r s g s' m : m !! r = None -> leased s' (<[r := (s, g)]> m) = bool_decide (s = s') || leased s' m.
Proof.
  intros Hr. apply eq_true_iff_eq. rewrite orb_true_iff, bool_decide_eq_true, !leased_true. split.
  - intros (r' & g' & [[-> [= -> ->]]|[Hne Hl]]%lookup_insert_Some); [by left|right; eauto].
  - intros [->|(r' & g' & Hl)]; [exists r, g; by rewrite lookup_insert_eq|]. exists r', g'. rewrite lookup_insert_ne; [done|]. intros ->. congruence.
Qed.

Lemma leased_delete r s m : leased s (delete r m) = true -> leased s m = true.
Proof. rewrite !leased_true. intros (r' & g & [_ Hl]%lookup_delete_Some). eauto. Qed.

Lemma leased_delete_other r s g s' m : m !! r = Some (s, g) -> s <> s' -> leased s' (delete r m) = leased s' m.
Proof.
  intros Hr Hne. apply eq_true_iff_eq. split; [apply leased_delete|]. rewrite !leased_true. intros (r' & g' & Hl). exists r', g'. apply lookup_delete_Some. split; [|done]. intros ->. congruence.
Qed.

Lemma bounce_pending l : forall a r, foldl bounce a l !! r = Some Pending -> a !! r = Some Pending /\ r ∉ l.
Proof.
  induction l as [|x l IH]; intros a r; cbn; [intros H; split; [done|apply not_elem_of_nil]|]. intros [H Hl]%IH. unfold bounce in H. rewrite not_elem_of_cons.
  destruct (a !! x) as [[]|] eqn:Hx; try (split; [done|]; split; [|done]; intros ->; congruence).
  apply lookup_insert_Some in H as [[_ ?]|[Hne H]]; [done|]. split; [done|]. by split.
Qed.

Lemma bounce_served l s : forall a r, a !! r = Some (Served s) -> foldl bounce a l !! r = Some (Served s).
Proof.
  induction l as [|x l IH]; intros a r Hr; cbn; [done|]. apply IH. unfold bounce. destruct (a !! x) as [[]|] eqn:Hx; try done. rewrite lookup_insert_ne; [done|]. intros ->. congruence.
Qed.

Lemma client_release_inv s y st :
  Inv (Some s) y st -> (scope_open st = true -> leased s (leases st) = true -> session st = Some s \/ sessions st !! s <> Some false) -> Inv None y (release_session s st).
Proof.
  intros HI Hl. unfold release_session. destruct (bool_decide (session st = Some s)) eqn:Hs; [apply bool_decide_eq_true in Hs|apply bool_decide_eq_false in Hs]; cbn [orb].
  - destruct HI. constructor; try done.
    + intros s' Hs'. destruct (i_refs0 s' Hs') as [|[|[= ->]]]; auto.
    + intros s' Ho Hs'. destruct (i_one0 s' Ho Hs') as [|[= ->]]; auto.
  - destruct (leased s (leases st)) eqn:Hlease; destruct HI.
    + constructor; try done.
      * intros s' Hs'. destruct (i_refs0 s' Hs') as [|[|[= ->]]]; auto.
      * intros s' Ho Hs'. destruct (i_one0 s' Ho Hs') as [|[= ->]]; [auto|]. by destruct (Hl Ho eq_refl).
    + assert (Hno : forall r s' g, leases st !! r = Some (s', g) -> s <> s').
      { intros r s' g Hr <-. assert (leased s (leases st) = true) by (apply leased_true; eauto). congruence. }
      constructor; cbn; try done.
      * intros r s' g Hr. rewrite lookup_delete_ne by (by eapply Hno). by eapply i_lease0.
      * intros s' Hs'. rewrite lookup_delete_ne by congruence. by apply i_session0.
      * intros s' [b [Hne Hb]%lookup_delete_Some]. destruct (i_refs0 s' (mk_is_Some _ _ Hb)) as [|[|[= ->]]]; auto.
      * intros s' [b [Hne Hb]%lookup_delete_Some]. eapply i_fresh0. by eexists.
      * intros s' Ho [Hne Hb]%lookup_delete_Some. destruct (i_one0 s' Ho Hb) as [|[= ->]]; [auto|done].
Qed.

(** The manager may let its session go when nobody else uses it, when its connection is closed, or when the client's scope is. *)
Definition may_drop (st : state) : Prop := forall s, scope_open st = true -> session st = Some s -> leased s (leases st) = true -> sessions st !! s <> Some false.

Lemma drop_session_inv y st : Inv None y st -> may_drop st -> Inv None y (drop_session st).
Proof.
  intros HI Hd. unfold drop_session. destruct (session st) as [s|] eqn:Hs; [|done]. apply client_release_inv; cbn.
  - destruct HI. constructor; cbn; try done.
    + intros r s' g Hr. destruct (i_lease0 r s' g Hr) as (? & ? & ?). done.
    + intros s' Hs'. destruct (i_refs0 s' Hs') as [|[|]]; [right; right; congruence|auto|done].
    + intros s' Ho Hs'. destruct (i_one0 s' Ho Hs') as [|]; [right; congruence|done].
  - intros Ho Hl. right. by apply Hd.
Qed.

Lemma drop_session_frame st :
  session (drop_session st) = None /\ at_ (drop_session st) = at_ st /\ queue (drop_session st) = queue st /\ answers (drop_session st) = answers st /\
  leases (drop_session st) = leases st /\ scope_open (drop_session st) = scope_open st.
Proof. unfold drop_session. destruct (session st) as [s|] eqn:Hs; [|done]. unfold release_session. cbn. destruct (_ || _); done. Qed.

Lemma retire_inv y st : Inv None y st -> may_drop st -> (forall r, y = Some r -> answers st !! r <> Some Pending) -> Inv None None (retire st).
Proof.
  intros HI Hd Hy. destruct (drop_session_frame st) as (Hs & Hat & Hq & Ha & Hl & Ho). apply drop_session_inv in HI; [|done]. unfold retire. cbn zeta.
  destruct HI. constructor; cbn; try done.
  - intros r s g Hr. eapply bounce_served. by eapply i_served0.
  - intros s Hs'. congruence.
  - intros r [Hr Hn]%bounce_pending. rewrite Ha in Hr. rewrite Ha, Hq, Hat in i_pending0. destruct (i_pending0 r Hr) as [Hin|[Hin|Hin]].
    + exfalso. apply Hn. destruct (at_ st); try done. by right.
    + exfalso. apply Hn. rewrite Hin. by left.
    + by destruct (Hy r Hin).
Qed.

Lemma unused_may_drop st : unused st = true -> may_drop st.
Proof. intros Hu s _ Hs Hl. unfold unused in Hu. rewrite Hs, Hl in Hu. done. Qed.

(** A lease for the request in hand, of the manager's session. *)
Lemma client_serve_inv s r st :
  Inv None (Some r) st -> session st = Some s -> Inv None None (serve s r st).
Proof.
  intros HI Hs. unfold serve.
  assert (Hlost : answers st !! r <> Some Pending -> Inv None None (mkState (scope_open st) (generation st) Idle (queue st) (session st) (token st) (answers st) (leases st) (generation st :: dropping st) (sessions st) (next st))).
  { intros Hr. destruct HI; constructor; cbn; try done.
    - intros s' Hs'. split; [by apply i_session0|by left].
    - intros r' Hp. destruct (i_pending0 r' Hp) as [?|[Hc|[= ->]]]; [by left| |congruence]. exfalso. destruct (i_session0 s Hs) as [_ [H|H]]; congruence.
    - intros. right. by left. }
  destruct (answers st !! r) as [[]|] eqn:Hr; try (by apply Hlost). clear Hlost.
  assert (Hn : leases st !! r = None).
  { destruct (leases st !! r) as [[s' g]|] eqn:Hl; [|done]. pose proof (i_served _ _ _ HI _ _ _ Hl). congruence. }
  destruct HI. constructor; cbn; try done.
  - intros r' s' g [[-> [= <- <-]]|[Hne Hl]]%lookup_insert_Some; [|by apply (i_lease0 r')]. split; [by apply i_session0|]. split; [lia|done].
  - intros r' s' g [[-> [= <- <-]]|[Hne Hl]]%lookup_insert_Some; [by rewrite lookup_insert_eq|]. rewrite lookup_insert_ne by done. by eapply i_served0.
  - intros s' Hs'. split; [by apply i_session0|by left].
  - intros s' Hs'. rewrite leased_insert by done. destruct (i_refs0 s' Hs') as [|[H|]]; [by left| |done]. right; left. by rewrite H, orb_true_r.
  - intros r' [[_ ?]|[Hne Hp]]%lookup_insert_Some; [done|]. destruct (i_pending0 r' Hp) as [?|[Hc|[= ->]]]; [by left| |done]. exfalso. destruct (i_session0 s Hs) as [_ [H|H]]; congruence.
  - intros s' _ Hs'. rewrite leased_insert by done. assert (s' = s) as -> by congruence. by rewrite bool_decide_true by done.
Qed.

Lemma manager_receive_inv r st : Inv None (Some r) st -> at_ st = Idle -> Inv None None (receive r st).
Proof.
  intros HI Hat. unfold receive.
  assert (Hgone : answers st !! r <> Some Pending -> Inv None None (if unused st then retire st else st)).
  { intros Hr. destruct (unused st) eqn:Hu; [eapply retire_inv; [done|by apply unused_may_drop|naive_solver]|]. destruct HI. constructor; try done. intros r' Hp. destruct (i_pending0 r' Hp) as [|[|[= ->]]]; [auto|auto|done]. }
  destruct (answers st !! r) as [[]|] eqn:Hr; try (by apply Hgone). clear Hgone.
  set (st1 := match session st with Some s => if closed st s then drop_session st else st | None => st end).
  assert (H1 : Inv None (Some r) st1 /\ at_ st1 = Idle).
  { unfold st1. destruct (session st) as [s|] eqn:Hs; [|done]. destruct (closed st s) eqn:Hc; [|done]. split; [|by rewrite (proj1 (proj2 (drop_session_frame st)))].
    apply drop_session_inv; [done|]. intros s' _ Hs' _ Hf. assert (s' = s) as -> by congruence. unfold closed in Hc. by rewrite Hf in Hc. }
  destruct H1 as [H1 Hat1]. destruct (session st1) as [s|] eqn:Hs; [by apply client_serve_inv|]. destruct H1. constructor; cbn; try done.
  - intros s Hs'. congruence.
  - intros r' Hp. destruct (i_pending0 r' Hp) as [|[|[= ->]]]; [by left|congruence|right; by left].
Qed.

Lemma client_inv_init : Inv None None init.
Proof. constructor; cbn; try done; intros *; rewrite ?lookup_empty; try done; by intros [? ?]. Qed.

(** What callers and the connection do leaves the manager's bookkeeping alone. *)
Lemma callers_inv st e st' : match e with Ensure | Send _ | Refuse _ | Cancel _ | ConnectionClosed _ | CloseScope => True | _ => False end ->
  Inv None None st -> step st e = Some st' -> Inv None None st'.
Proof.
  intros He HI. destruct e as [|r|r|r| | | | | | | | | |s|]; try done; cbn [step].
  - destruct (at_ st) eqn:Hat; try (by intros [= <-]). destruct (scope_open st) eqn:Ho; [|done]. intros [= <-].
    assert (Hns : session st = None) by (destruct (session st) as [s|] eqn:Hs; [|done]; destruct (i_session _ _ _ HI s Hs) as [_ [|]]; congruence).
    destruct HI. constructor; cbn; try done.
    + intros r s g Hl. destruct (i_lease0 r s g Hl) as (? & ? & ?). split_and!; [done|lia|done].
    + intros s Hs. destruct (i_refs0 s Hs) as [|[|]]; [congruence|auto|done].
    + intros s _ Hs. destruct (i_one0 s Ho Hs); congruence.
    + intros r Hr. destruct (i_pending0 r Hr) as [H|[|]]; [|congruence|done]. rewrite (i_retired0 Hat) in H. by apply not_elem_of_nil in H.
  - assert (Hgo : match answers st !! r with None | Some Retry => True | _ => False end -> at_ st <> Retired -> Inv None None
      (mkState (scope_open st) (generation st) (at_ st) (queue st ++ [r]) (session st) (token st) (<[r := Pending]> (answers st)) (leases st) (dropping st) (sessions st) (next st))).
    { intros Hr Hat. destruct HI; constructor; cbn; try done.
      - intros r' s g Hl. rewrite lookup_insert_ne; [by eapply i_served0|]. intros ->. specialize (i_served0 _ _ _ Hl). by rewrite i_served0 in Hr.
      - intros r' [[-> _]|[Hne Hp]]%lookup_insert_Some; [left; set_solver|]. destruct (i_pending0 r' Hp) as [|[|]]; [left; set_solver|auto|done]. }
    destruct (answers st !! r) as [[]|] eqn:Hr; try done; destruct (at_ st) eqn:Hat; try done; destruct (len (queue st) <? REQUESTS); try done; intros [= <-]; by apply Hgo.
  - assert (Hgo : match answers st !! r with None | Some Retry => True | _ => False end -> Inv None None
      (mkState (scope_open st) (generation st) (at_ st) (queue st) (session st) (token st) (<[r := Refused]> (answers st)) (leases st) (dropping st) (sessions st) (next st))).
    { intros Hr. destruct HI; constructor; cbn; try done.
      - intros r' s g Hl. rewrite lookup_insert_ne; [by eapply i_served0|]. intros ->. specialize (i_served0 _ _ _ Hl). by rewrite i_served0 in Hr.
      - intros r' [[_ ?]|[Hne Hp]]%lookup_insert_Some; [done|]. by apply i_pending0. }
    destruct (answers st !! r) as [[]|] eqn:Hr; try done; destruct (at_ st) eqn:Hat; try done; destruct (scope_open st); try done; intros [= <-]; by apply Hgo.
  - destruct (answers st !! r) as [[]|] eqn:Hr; try done. intros [= <-]. destruct HI; constructor; cbn; try done.
    + intros r' s g Hl. rewrite lookup_insert_ne; [by eapply i_served0|]. intros ->. specialize (i_served0 _ _ _ Hl). congruence.
    + intros r' [[_ ?]|[Hne Hp]]%lookup_insert_Some; [done|]. by apply i_pending0.
  - destruct (sessions st !! s) as [b|] eqn:Hb; [|done]. intros [= <-].
    assert (Hex : forall s', is_Some (<[s := true]> (sessions st) !! s') <-> is_Some (sessions st !! s')).
    { intros s'. rewrite lookup_insert_is_Some'. split; [intros [<-|]; [by eexists|done]|by right]. }
    destruct HI; constructor; cbn; try done.
    + intros r s' g Hl. rewrite Hex. by apply (i_lease0 r).
    + intros s' Hs'. rewrite Hex. by apply i_session0.
    + intros s' Hs'%Hex. by apply i_refs0.
    + intros s' Hs'%Hex. by apply i_fresh0.
    + intros s' Ho [[_ ?]|[Hne Hs']]%lookup_insert_Some; [done|]. by apply i_one0.
  - intros [= <-]. destruct HI; constructor; cbn; done.
Qed.

Lemma closed_scope_may_drop st : scope_open st = false -> may_drop st.
Proof. intros Ho s Ho'. congruence. Qed.

Lemma connecting_unused st r : Inv None None st -> at_ st = Connecting r -> unused st = true.
Proof. intros HI Hat. unfold unused. destruct (session st) as [s|] eqn:Hs; [|done]. destruct (i_session _ _ _ HI s Hs) as [_ [|]]; congruence. Qed.

(** What the manager does. *)
Lemma manager_inv st e st' : match e with Receive | TakeRelease | CheckRelease | Connected | ConnectFailed | CallerGone | Cancelled => True | _ => False end ->
  Inv None None st -> step st e = Some st' -> Inv None None st'.
Proof.
  intros He HI. destruct e as [|r|r|r| | | | | | | | | |s|]; try done; cbn [step].
  - destruct (at_ st) eqn:Hat; try done. destruct (queue st) as [|r rest] eqn:Hq; [done|]. intros [= <-]. apply manager_receive_inv; [|done].
    destruct HI; constructor; cbn; try done.
    + intros s Hs. split; [by apply i_session0|by left].
    + intros r' Hp. rewrite Hq in i_pending0. destruct (i_pending0 r' Hp) as [[->|Hin]%elem_of_cons|[|]]; [by right; right|by left|congruence|done].
    + intros s _ Hs Hl. by apply (i_idle0 s).
  - destruct (at_ st) eqn:Hat; try done. destruct (queue st) eqn:Hq; [|done]. destruct (token st); [|done]. intros [= <-]. destruct HI; constructor; cbn; try done.
    + intros s Hs. split; [by apply i_session0|by right].
    + intros r Hp. rewrite Hq in i_pending0. destruct (i_pending0 r Hp) as [|[|]]; [by left|congruence|done].
  - destruct (at_ st) eqn:Hat; try done. intros [= <-]. destruct (unused st) eqn:Hu; [apply (retire_inv None); [done|by apply unused_may_drop|done]|].
    destruct HI; constructor; cbn; try done.
    + intros s Hs. split; [by apply i_session0|by left].
    + intros r Hp. destruct (i_pending0 r Hp) as [|[|]]; [by left|congruence|done].
    + intros s _ Hs Hl. unfold unused in Hu. rewrite Hs, Hl in Hu. done.
  - destruct (at_ st) as [| | |r] eqn:Hat; try done. intros [= <-]. pose proof (connecting_unused st r HI Hat) as Hu.
    assert (Hns : session st = None) by (destruct (session st) as [s|] eqn:Hs; [|done]; destruct (i_session _ _ _ HI s Hs) as [_ [|]]; congruence).
    assert (Hnew : sessions st !! next st = None) by (destruct (sessions st !! next st) eqn:Hn; [|done]; pose proof (i_fresh _ _ _ HI (next st) (mk_is_Some _ _ Hn)); lia).
    match goal with |- Inv _ _ (serve ?s ?r ?q) => change (serve s r q) with (serve s r (set_place Releasing q)) end.
    apply client_serve_inv; [|done]. destruct HI; constructor; cbn; try done.
    + intros r' s g Hl. destruct (i_lease0 r' s g Hl) as (Hs & Hg & _). split_and!; [|done|intros [= <-]; rewrite Hnew in Hs; by destruct Hs]. apply lookup_insert_is_Some'. by right.
    + intros s [= <-]. rewrite lookup_insert_eq. split; [done|by right].
    + intros s [<-|Hs]%lookup_insert_is_Some'; [by left|]. destruct (i_refs0 s Hs) as [|[|]]; [congruence|auto|done].
    + intros s [<-|Hs]%lookup_insert_is_Some'; [lia|]. specialize (i_fresh0 s Hs). lia.
    + intros s Ho [[<- _]|[Hne Hs]]%lookup_insert_Some; [by left|]. destruct (i_one0 s Ho Hs); congruence.
    + intros r' Hp. destruct (i_pending0 r' Hp) as [|[|]]; [by left|right; right; congruence|done].
  - destruct (at_ st) as [| | |r] eqn:Hat; try done. intros [= <-]. pose proof (connecting_unused st r HI Hat) as Hu.
    destruct (answers st !! r) as [[]|] eqn:Hr; (apply (retire_inv None); [|by apply unused_may_drop|done]); try done.
    destruct HI; constructor; cbn; try done.
    + intros r' s g Hl. rewrite lookup_insert_ne; [by eapply i_served0|]. intros ->. specialize (i_served0 _ _ _ Hl). congruence.
    + intros s Hs. rewrite <- Hat. by apply i_session0.
    + intros r' [[_ ?]|[Hne Hp]]%lookup_insert_Some; [done|]. rewrite <- Hat. by apply i_pending0.
  - destruct (at_ st) as [| | |r] eqn:Hat; try done. destruct (answers st !! r) as [[]|] eqn:Hr; try done. intros [= <-]. apply (retire_inv None); [done|apply unused_may_drop; by eapply connecting_unused|done].
  - destruct (at_ st) eqn:Hat; try done; (destruct (scope_open st) eqn:Ho; [done|]); intros [= <-]; (apply (retire_inv None); [done|by apply closed_scope_may_drop|done]).
Qed.

(** What holders of leases do. *)
Lemma holders_inv st e st' : match e with DropLease _ | Notify _ => True | _ => False end -> Inv None None st -> step st e = Some st' -> Inv None None st'.
Proof.
  intros He HI. destruct e as [|r|r|r| | | | | | | |r|i|s|]; try done; cbn [step].
  - destruct (leases st !! r) as [[s g]|] eqn:Hr; [|done]. intros [= <-]. apply client_release_inv; cbn.
    + destruct HI; constructor; cbn; try done.
      * intros r' s' g' [_ Hl]%lookup_delete_Some. by apply (i_lease0 r').
      * intros r' s' g' [_ Hl]%lookup_delete_Some. by eapply i_served0.
      * intros s' Hs'. destruct (decide (s = s')) as [->|Hne]; [auto|]. rewrite (leased_delete_other r s g) by done. destruct (i_refs0 s' Hs') as [|[|]]; [auto|auto|done].
      * intros s' Ho Hs'. destruct (i_one0 s' Ho Hs'); [auto|done].
      * intros s' Hi Hs' Hl. destruct (decide (s = s')) as [->|Hne]; [right; destruct (i_lease0 _ _ _ Hr) as (_ & _ & ->); [by left|done]|].
        rewrite (leased_delete_other r s g) in Hl by done. destruct (i_idle0 s' Hi Hs' Hl); [by left|right; by right].
    + intros Ho Hl. destruct (decide (sessions st !! s = Some false)) as [Hf|]; [|auto]. destruct (i_one _ _ _ HI s Ho Hf); [auto|done].
  - destruct (dropping st !! i) as [g|] eqn:Hi; [|done]. intros [= <-]. destruct HI; constructor; cbn; try done.
    intros s Hat Hs Hl. rewrite Hat. destruct (i_idle0 s Hat Hs Hl) as [->|Hd]; [by left|]. destruct (g =? generation st) eqn:Hg; [left; by rewrite orb_true_r|]. zify_bool. right.
    apply list_elem_of_lookup in Hd as [j Hj]. apply list_elem_of_lookup. destruct (decide (j < i)%nat).
    + exists j. by rewrite list_lookup_delete_lt.
    + destruct (decide (j = i)) as [->|]; [congruence|]. exists (pred j). rewrite list_lookup_delete_ge by lia. by replace (S (pred j)) with j by lia.
Qed.

Lemma client_inv_step st e st' : Inv None None st -> step st e = Some st' -> Inv None None st'.
Proof.
  destruct e; first [by apply callers_inv|by apply manager_inv|by apply holders_inv].
Qed.

Lemma client_inv_run es : forall st st', Inv None None st -> run st es = Some st' -> Inv None None st'.
Proof.
  induction es as [|e es IH]; intros st st' HI; cbn; [by intros [= <-]|]. destruct (step st e) as [q|] eqn:Hq; [|done]. cbn. apply IH. by eapply client_inv_step.
Qed.

(** Sharing is safe: a session that somebody holds a lease of is never dropped, so the client never closes a connection under its users; every session that exists is the
    manager's or leased, so none is leaked; while the client's scope is open it has at most one connection that is not closed, the manager's; and every request without an answer
    is in the hands of a running manager. *)
Theorem hysteria_connection_shared es st :
  run init es = Some st ->
  (forall r s g, leases st !! r = Some (s, g) -> is_Some (sessions st !! s)) /\
  (forall s, is_Some (sessions st !! s) -> session st = Some s \/ exists r g, leases st !! r = Some (s, g)) /\
  (scope_open st = true -> forall s, sessions st !! s = Some false -> session st = Some s) /\
  (forall r, answers st !! r = Some Pending -> r ∈ queue st \/ at_ st = Connecting r).
Proof.
  intros Hrun. destruct (client_inv_run es _ _ client_inv_init Hrun). split_and!.
  - intros r s g Hl. by apply (i_lease0 r s g).
  - intros s Hs. destruct (i_refs0 s Hs) as [|[|]]; [auto|right; by apply leased_true|done].
  - intros Ho s Hs. by destruct (i_one0 s Ho Hs).
  - intros r Hr. destruct (i_pending0 r Hr) as [|[|]]; [auto|auto|done].
Qed.

(** C35. The connection does not outlive its use: whenever the manager waits with a session that nobody leases any more, and the leases that ended have told it so, there is a release
    to take, and taking it ends the manager and drops every session. No release is lost although their channel has room for one. *)
Theorem hysteria_connection_retires es st :
  run init es = Some st -> at_ st = Idle -> queue st = [] -> session st <> None -> leases st = ∅ -> dropping st = [] ->
  exists st', run st [TakeRelease; CheckRelease] = Some st' /\ at_ st' = Retired /\ session st' = None /\ sessions st' = ∅.
Proof.
  intros Hrun Hat Hq Hs Hl Hd. pose proof (client_inv_run es _ _ client_inv_init Hrun) as HI. destruct (session st) as [s|] eqn:Hs'; [|done].
  assert (Hun : leased s (leases st) = false) by (apply not_true_iff_false; rewrite leased_true, Hl; by intros (? & ? & ?)).
  assert (Ht : token st = true) by (destruct (i_idle _ _ _ HI s Hat Hs' Hun) as [|H]; [done|rewrite Hd in H; by apply not_elem_of_nil in H]).
  destruct (run st [TakeRelease; CheckRelease]) as [st'|] eqn:Hr; cycle 1.
  { exfalso. cbn in Hr. rewrite Hat, Hq, Ht in Hr. done. }
  exists st'. split; [done|]. pose proof (client_inv_run _ _ _ HI Hr) as HI'. cbn in Hr. rewrite Hat, Hq, Ht in Hr. cbn in Hr. unfold unused in Hr. cbn in Hr. rewrite Hs', Hun in Hr. injection Hr as <-.
  match goal with |- context [retire ?q] => destruct (drop_session_frame q) as (Hf1 & Hf2 & Hf3 & Hf4 & Hf5 & Hf6); set (q0 := q) in * end. split; [done|]. split; [done|].
  apply map_empty. intros s'. destruct (sessions (retire q0) !! s') eqn:Hx; [|done]. destruct (i_refs _ _ _ HI' s' (mk_is_Some _ _ Hx)) as [H|[H|H]]; [|apply leased_true in H as (r & g & H)|done].
  - change (session (drop_session q0) = Some s') in H. congruence.
  - change (leases (drop_session q0) !! r = Some (s', g)) in H. rewrite Hf5 in H. change (leases st !! r = Some (s', g)) in H. rewrite Hl in H. done.
Qed.

(** Two callers share the first connection; it is closed, a third caller gets another one; then all leases end. *)
Definition shared : list event :=
  [Ensure; Send 1; Send 2; Receive; Connected; Receive; Ensure; ConnectionClosed 0; Send 3; Receive; Connected; DropLease 1; Notify 0; TakeRelease; CheckRelease; DropLease 3; DropLease 2; Notify 0; Notify 0].

Lemma hysteria_connection_shared_witness : exists st, run init shared = Some st /\ (scope_open st = true -> forall s, sessions st !! s = Some false -> session st = Some s).
Proof. eexists. split; [vm_compute; reflexivity|]. eapply (hysteria_connection_shared shared). vm_compute. reflexivity. Defined.

Lemma hysteria_connection_retires_witness : exists st st', run init shared = Some st /\ session st = Some 1 /\ run st [TakeRelease; CheckRelease] = Some st' /\ sessions st' = ∅.
Proof.
  eexists. destruct (hysteria_connection_retires shared (default init (run init shared))) as (st' & H1 & H2 & H3 & H4); [vm_compute; reflexivity..|vm_compute; done|vm_compute; reflexivity|vm_compute; reflexivity|].
  exists st'. split; [|split; [|split; [exact H1|exact H4]]]; vm_compute; reflexivity.
Defined.

End HysteriaClient.
