(* ===== verification/HysteriaServer.v ===== *)
(** * A connection of the Hysteria 2 server (crates/hysteria2/src/server.rs, http3.rs, udp.rs)

    Bidirectional streams are classified by their first frame: HTTP/3 streams go to h3, which serves the authentication request, and proxied streams go to sessions, but only once
    the client has authenticated.  The task for datagrams, whose own loop is in [HysteriaUdp], shares the flag.
    Classifications, requests, the serving loop and the datagram task run concurrently. *)

From S2P Require Import Prelude Packet NetText VarInt HysteriaWire HysteriaUdp.

Module HysteriaServer.

Definition CLASSIFYING : Z := 256.
Definition PROXIED : Z := 64.

(** A request as [serve] looks at it. *)
Record request := mkRequest { method : string; host : option string; path : string; auth : option bytes }.

Definition credentials_match (actual expected : bytes) : bool := bool_decide (actual = expected).

Definition valid (password : bytes) (r : request) : bool :=
  String.eqb (method r) "POST" && bool_decide (host r = Some "hysteria"%string) && String.eqb (path r) "/auth" &&
  match auth r with Some value => credentials_match value password | None => false end.

(** The reply: its status and its headers, the padding left out. *)
Record response := mkResponse { status : Z; headers : list (string * string) }.

Definition reply (ok : bool) : response :=
  if ok then mkResponse 233 [("Hysteria-UDP", "true"); ("Hysteria-CC-RX", "auto")]%string else mkResponse 404 [("content-length", "0")]%string.

(** The loop runs, drains the sessions after a stop, or has returned, with [true] for an error. *)
Inductive place := Serving | Draining | Returned (failed : bool).

Record state := mkState {
  at_ : place;
  (** streams that Quinn has accepted and nobody has taken, and whether the connection is lost *)
  arrivals : list Z;
  lost : bool;
  pending : list Z;
  tcp : list Z;
  authenticated : bool;
  (** streams given to h3 with no request resolved yet, and the replies to those with one *)
  http : list Z;
  replied : list (Z * response);
  (** sessions that run and that have ended *)
  sessions : list Z;
  finished : list Z;
  resets : list Z;
  (** streams whose classification or request failed *)
  dropped : list Z;
  next : Z;
  (** the datagram task, and whether it still runs *)
  udp : HysteriaUdp.Server;
  udp_live : bool
}.

Definition init : state := mkState Serving [] false [] [] false [] [] [] [] [] [] 0 HysteriaUdp.server_start true.

Definition set_at (p : place) (st : state) : state :=
  mkState p (arrivals st) (lost st) (pending st) (tcp st) (authenticated st) (http st) (replied st) (sessions st) (finished st) (resets st) (dropped st) (next st) (udp st) (udp_live st).

Definition without (id : Z) (l : list Z) : list Z := filter (fun x => x <> id) l.

(** [while self.pending.len() < 256]: new streams are to be classified. The last result is [true] when the connection is lost. *)
Fixpoint fill (arrivals pending : list Z) (lost : bool) : list Z * list Z * bool :=
  if len pending <? CLASSIFYING then
    match arrivals with
    | x :: rest => fill rest (pending ++ [x]) lost
    | [] => ([], pending, lost)
    end
  else (arrivals, pending, false).

(** A classified stream leaves [pending]: a proxied one goes to the sessions' channel or is reset, an HTTP/3 one goes to h3, a failed one is dropped. *)
Definition route (id : Z) (result : option bool) (st : state) : state :=
  let p := without id (pending st) in
  let to t h r d := mkState (at_ st) (arrivals st) (lost st) p t (authenticated st) h (replied st) (sessions st) (finished st) r d (next st) (udp st) (udp_live st) in
  match result with
  | Some true =>
      if negb (authenticated st) then to (tcp st) (http st) (resets st ++ [id]) (dropped st)
      else if len (tcp st) <? PROXIED then to (tcp st ++ [id]) (http st) (resets st) (dropped st)
      else to (tcp st) (http st) (resets st ++ [id]) (dropped st)
  | Some false => to (tcp st) (http st ++ [id]) (resets st) (dropped st)
  | None => to (tcp st) (http st) (resets st) (dropped st ++ [id])
  end.

Inductive poll := Accepted (id : Z) | Failed | Waiting (woken : bool).

(** [poll_accept_bidi]: [done] are the classifications that finish, in the order in which [poll_next] gives them. [None] when one of them is not under way or is not reached. *)
Fixpoint poll_loop (turns : nat) (done : list (Z * option bool)) (st : state) : option (state * poll) :=
  match turns with
  | O => match done with [] => Some (st, Waiting true) | _ => None end
  | S turns =>
      let '(a, p, failed) := fill (arrivals st) (pending st) (lost st) in
      let st := mkState (at_ st) a (lost st) p (tcp st) (authenticated st) (http st) (replied st) (sessions st) (finished st) (resets st) (dropped st) (next st) (udp st) (udp_live st) in
      match failed, done with
      | true, [] => Some (st, Failed)
      | true, _ => None
      | false, [] => Some (st, Waiting false)
      | false, (id, result) :: done =>
          if bool_decide (id ∈ pending st) then
            match result, done with
            | Some false, [] => Some (route id result st, Accepted id)
            | Some false, _ => None
            | _, _ => poll_loop turns done (route id result st)
            end
          else None
      end
  end.

Definition poll_accept_bidi (done : list (Z * option bool)) (st : state) : option (state * poll) := poll_loop 32 done st.

(** The turns of the datagram task: a datagram has arrived, associations expire, a session answers, an association's scope closes. *)
Inductive udp_event :=
  | Datagram (now : Z) (b : bytes) (spawned room : bool)
  | Expire (retention now : Z)
  | Answer (now : Z) (inc : nat) (packet : HysteriaWire.Packet) (mtu : option Z) (takes : bool)
  | AssociationCloses (inc : nat).

Inductive event :=
  | Arrive | Lose | Poll (done : list (Z * option bool)) | HttpEnd | Resolve (id : Z) (r : request) | RequestFails (id : Z)
  | Recv | SessionEnds (id : Z) | Deadline | Stop | Drained | Udp (ev : udp_event) | UdpEnds.

Section server.
Context `{VarInt.VarIntCodec} (password : bytes).

(** What the datagram task sees: a datagram's processing reads the connection's flag. *)
Definition observed (authenticated : bool) (ev : udp_event) : HysteriaUdp.event :=
  match ev with
  | Datagram now b spawned room => HysteriaUdp.Received now b authenticated spawned room
  | Expire retention now => HysteriaUdp.Expired retention now
  | Answer now inc packet mtu takes => HysteriaUdp.Replied now inc packet mtu takes
  | AssociationCloses inc => HysteriaUdp.ScopeClosed inc
  end.

(** One turn of [udp::server]; an error ends the task. *)
Definition udp_step (ev : udp_event) (st : state) : state :=
  let to u live := mkState (at_ st) (arrivals st) (lost st) (pending st) (tcp st) (authenticated st) (http st) (replied st) (sessions st) (finished st) (resets st) (dropped st) (next st) u live in
  match HysteriaUdp.server_step (udp st) (observed (authenticated st) ev) with
  | Ok u => to u true
  | Err _ => to (udp st) false
  end.

(** A request that h3 has resolved. *)
Definition resolve (id : Z) (r : request) (st : state) : state :=
  let ok := valid password r in
  mkState (at_ st) (arrivals st) (lost st) (pending st) (tcp st) (if ok then true else authenticated st) (without id (http st)) (replied st ++ [(id, reply ok)])
    (sessions st) (finished st) (resets st) (dropped st) (next st) (udp st) (udp_live st).

Definition step (st : state) (e : event) : option state :=
  match e with
  | Arrive =>
      Some (mkState (at_ st) (arrivals st ++ [next st]) (lost st) (pending st) (tcp st) (authenticated st) (http st) (replied st) (sessions st) (finished st) (resets st) (dropped st) (next st + 1) (udp st) (udp_live st))
  | Lose =>
      Some (mkState (at_ st) (arrivals st) true (pending st) (tcp st) (authenticated st) (http st) (replied st) (sessions st) (finished st) (resets st) (dropped st) (next st) (udp st) (udp_live st))
  | Poll done =>
      match at_ st with
      | Serving => match poll_accept_bidi done st with Some (st, Failed) => Some (set_at (Returned true) st) | Some (st, _) => Some st | None => None end
      | _ => None
      end
  | HttpEnd => match at_ st with Serving => Some (set_at (Returned false) st) | _ => None end
  | Resolve id r => if bool_decide (id ∈ http st) then Some (resolve id r st) else None
  | RequestFails id =>
      if bool_decide (id ∈ http st) then
        Some (mkState (at_ st) (arrivals st) (lost st) (pending st) (tcp st) (authenticated st) (without id (http st)) (replied st) (sessions st) (finished st) (resets st) (dropped st ++ [id]) (next st) (udp st) (udp_live st))
      else None
  | Recv =>
      match at_ st, tcp st with
      | Serving, x :: rest =>
          Some (mkState (at_ st) (arrivals st) (lost st) (pending st) rest (authenticated st) (http st) (replied st) (sessions st ++ [x]) (finished st) (resets st) (dropped st) (next st) (udp st) (udp_live st))
      | _, _ => None
      end
  | SessionEnds id =>
      if bool_decide (id ∈ sessions st) then
        Some (mkState (at_ st) (arrivals st) (lost st) (pending st) (tcp st) (authenticated st) (http st) (replied st) (without id (sessions st)) (finished st ++ [id]) (resets st) (dropped st) (next st) (udp st) (udp_live st))
      else None
  | Deadline => match at_ st with Serving => if authenticated st then Some st else Some (set_at (Returned true) st) | _ => None end
  | Stop => match at_ st with Serving => Some (set_at Draining st) | _ => None end
  | Drained => match at_ st, sessions st with Draining, [] => Some (set_at (Returned false) st) | _, _ => None end
  | Udp ev => if udp_live st then Some (udp_step ev st) else None
  | UdpEnds => Some (mkState (at_ st) (arrivals st) (lost st) (pending st) (tcp st) (authenticated st) (http st) (replied st) (sessions st) (finished st) (resets st) (dropped st) (next st) (udp st) false)
  end.

Fixpoint run (st : state) (es : list event) : option state :=
  match es with [] => Some st | e :: es => st ← step st e; run st es end.

(** ** Where the streams are *)
Definition everywhere (st : state) : list Z :=
  arrivals st ++ pending st ++ tcp st ++ http st ++ (replied st).*1 ++ sessions st ++ finished st ++ resets st ++ dropped st.

(** The datagram task has made no association and passed nothing on, in either direction. *)
Definition silent (u : HysteriaUdp.Server) : Prop :=
  HysteriaUdp.associations u = HysteriaUdp.no_associations /\ HysteriaUdp.origin u = [] /\ HysteriaUdp.reassembly u = HysteriaWire.empty /\
  HysteriaUdp.delivered u = [] /\ HysteriaUdp.answered u = [].

Record Inv (st : state) : Prop := {
  i_all : everywhere st ≡ₚ seqZ 0 (next st);
  i_next : 0 <= next st;
  i_pending : len (pending st) <= CLASSIFYING;
  i_tcp : len (tcp st) <= PROXIED;
  i_auth : authenticated st = false -> tcp st = [] /\ sessions st = [] /\ finished st = [] /\ Forall (fun x => x.2 = reply false) (replied st) /\ silent (udp st);
}.

(** Streams that move from one list to another. *)
Ltac move_streams := rewrite ?fmap_app; cbn [fmap list_fmap]; solve_Permutation.

Lemma inv_nodup st : Inv st -> NoDup (everywhere st).
Proof. intros HI. rewrite (i_all _ HI). apply NoDup_seqZ. Qed.

Lemma without_perm id l : NoDup l -> id ∈ l -> l ≡ₚ id :: without id l.
Proof.
  intros Hnd Hin. apply NoDup_Permutation; [done| |].
  - apply NoDup_cons. unfold without. split; [|by apply NoDup_filter]. rewrite list_elem_of_filter. tauto.
  - intros x. unfold without. rewrite elem_of_cons, list_elem_of_filter. destruct (decide (x = id)) as [->|]; tauto.
Qed.

Lemma fill_spec a : forall p l a' p' f, len p <= CLASSIFYING -> fill a p l = (a', p', f) -> p ++ a = p' ++ a' /\ len p' <= CLASSIFYING.
Proof.
  induction a as [|x a IH]; intros p l a' p' f Hp; cbn; (destruct (len p <? CLASSIFYING) eqn:Hlt; zify_bool; [|by intros [= <- <- <-]]).
  - by intros [= <- <- <-].
  - intros Hf. apply IH in Hf as [H1 H2]; [|len_lia]. rewrite <- H1, <- app_assoc. done.
Qed.

Lemma server_inv_route id result st : Inv st -> id ∈ pending st -> Inv (route id result st).
Proof.
  intros HI Hin. assert (Hnd : NoDup (pending st)).
  { pose proof (inv_nodup st HI) as Hnd. unfold everywhere in Hnd. rewrite !NoDup_app in Hnd. tauto. }
  pose proof (without_perm id (pending st) Hnd Hin) as Hp. destruct HI as [Hall Hnext Hlp Hlt Hauth]. unfold everywhere in Hall. rewrite Hp in Hall.
  assert (Hlen : len (without id (pending st)) <= CLASSIFYING).
  { pose proof (Permutation_length Hp) as Hl. cbn in Hl. unfold len in *. lia. }
  unfold route. destruct result as [[]|]; [destruct (authenticated st) eqn:Ha; cbn [negb]; [destruct (len (tcp st) <? PROXIED) eqn:Ht; zify_bool|]|..];
    constructor; unfold everywhere; cbn; try done; try (rewrite <- Hall; move_streams); try len_lia.
Qed.

Lemma inv_poll turns : forall done st st' r, Inv st -> poll_loop turns done st = Some (st', r) -> Inv st' /\ authenticated st' = authenticated st.
Proof.
  induction turns as [|turns IH]; intros done st st' r HI; cbn [poll_loop]; [by destruct done; [intros [= <- <-]|]|].
  destruct (fill (arrivals st) (pending st) (lost st)) as [[a p] failed] eqn:Hf.
  set (st1 := mkState _ _ _ _ _ _ _ _ _ _ _ _ _ _ _).
  assert (H1 : Inv st1).
  { apply fill_spec in Hf as [Heq Hlen]; [|apply (i_pending _ HI)]. destruct HI as [Hall Hnext Hlp Hlt Hauth]. constructor; cbn; try done. unfold everywhere in *. cbn.
    rewrite <- Hall, !app_assoc. do 7 f_equiv. rewrite (Permutation_app_comm a p), <- Heq. apply Permutation_app_comm. }
  change (authenticated st) with (authenticated st1). clearbody st1. destruct failed, done as [|[id result] done]; try done; try (by intros [= <- <-]).
  destruct (bool_decide (id ∈ pending st1)) eqn:Hin; [|done]. apply bool_decide_eq_true in Hin. pose proof (server_inv_route id result st1 H1 Hin) as H2.
  assert (Ha : authenticated (route id result st1) = authenticated st1) by (unfold route; destruct result as [[]|]; try done; destruct (authenticated st1) eqn:?; cbn; [destruct (len (tcp st1) <? PROXIED)|]; done).
  destruct result as [[]|]; [|destruct done; [by intros [= <- <-]|done]|]; intros Hrun; apply IH in Hrun as [? ->]; done.
Qed.

Lemma inv_accept done st st' r : Inv st -> poll_accept_bidi done st = Some (st', r) -> Inv st' /\ authenticated st' = authenticated st.
Proof. apply inv_poll. Qed.

(** Without the flag the datagram task stays silent. *)
Lemma silent_step ev u u' : silent u -> HysteriaUdp.server_step u (observed false ev) = Ok u' -> silent u'.
Proof.
  intros (Ha & Ho & Hr & Hd & Hn). destruct ev as [now b spawned room|retention now|now inc packet mtu takes|inc]; cbn [observed HysteriaUdp.server_step negb].
  - by intros [= <-].
  - intros [= <-]. rewrite Ha. by split_and!.
  - rewrite Ho, lookup_nil. by intros [= <-].
  - by intros [= <-].
Qed.

Lemma server_inv_step st e st' : Inv st -> step st e = Some st' -> Inv st'.
Proof.
  intros HI. pose proof (inv_nodup st HI) as Hnd. unfold everywhere in Hnd. rewrite !NoDup_app in Hnd.
  assert (Hset : forall p, Inv (set_at p st)) by (intros p; by destruct HI).
  destruct e as [| |done| |id r|id| |id| | | |ev|]; cbn [step].
  - intros [= <-]. destruct HI as [Hall Hnext Hlp Hlt Hauth]. constructor; cbn; try done; [|lia]. rewrite seqZ_app, (seqZ_cons (0 + next st)) by lia. rewrite <- Hall. unfold everywhere. cbn. move_streams.
  - intros [= <-]. by destruct HI.
  - destruct (at_ st); try done. destruct (poll_accept_bidi done st) as [[q r]|] eqn:Hq; [|done]. apply inv_accept in Hq as [Hq _]; [|done].
    destruct r; intros [= <-]; [done|by destruct Hq|done].
  - destruct (at_ st); try done. by intros [= <-].
  - destruct (bool_decide (id ∈ http st)) eqn:Hin; [|done]. apply bool_decide_eq_true in Hin. intros [= <-].
    assert (Hp : http st ≡ₚ id :: without id (http st)) by (apply without_perm; tauto).
    destruct HI as [Hall Hnext Hlp Hlt Hauth]. unfold everywhere in Hall. rewrite Hp in Hall. constructor; unfold everywhere; cbn; try done.
    + rewrite <- Hall. move_streams.
    + destruct (valid password r); [done|]. intros Ha. destruct (Hauth Ha) as (? & ? & ? & ? & ?). split_and!; try done. apply Forall_app. split; [done|]. by apply Forall_singleton.
  - destruct (bool_decide (id ∈ http st)) eqn:Hin; [|done]. apply bool_decide_eq_true in Hin. intros [= <-].
    assert (Hp : http st ≡ₚ id :: without id (http st)) by (apply without_perm; tauto).
    destruct HI as [Hall Hnext Hlp Hlt Hauth]. unfold everywhere in Hall. rewrite Hp in Hall. constructor; unfold everywhere; cbn; try done. rewrite <- Hall. move_streams.
  - destruct (at_ st) eqn:Hat; try done. destruct (tcp st) as [|x rest] eqn:Ht; [done|]. intros [= <-]. destruct HI as [Hall Hnext Hlp Hlt Hauth]. constructor; unfold everywhere in *; cbn; try done.
    + rewrite <- Hall, Ht. move_streams.
    + rewrite Ht in Hlt. revert Hlt. len_lia.
    + intros Ha. destruct (Hauth Ha) as (? & _). congruence.
  - destruct (bool_decide (id ∈ sessions st)) eqn:Hin; [|done]. apply bool_decide_eq_true in Hin. intros [= <-].
    assert (Hp : sessions st ≡ₚ id :: without id (sessions st)) by (apply without_perm; tauto).
    destruct HI as [Hall Hnext Hlp Hlt Hauth]. unfold everywhere in Hall. rewrite Hp in Hall. constructor; unfold everywhere; cbn; try done.
    + rewrite <- Hall. move_streams.
    + intros Ha. destruct (Hauth Ha) as (_ & Hs & _). rewrite Hs in Hin. by apply not_elem_of_nil in Hin.
  - destruct (at_ st); try done. destruct (authenticated st); by intros [= <-].
  - destruct (at_ st); try done. by intros [= <-].
  - destruct (at_ st); try done. destruct (sessions st); [|done]. by intros [= <-].
  - destruct (udp_live st); [|done]. intros [= <-]. unfold udp_step. destruct HI as [Hall Hnext Hlp Hlt Hauth].
    destruct (HysteriaUdp.server_step _ _) as [u|] eqn:Hu; constructor; cbn; try done. intros Ha. destruct (Hauth Ha) as (? & ? & ? & ? & Hs). split_and!; try done.
    rewrite Ha in Hu. by eapply silent_step.
  - intros [= <-]. by destruct HI.
Qed.

Lemma server_inv_run es : forall st st', Inv st -> run st es = Some st' -> Inv st'.
Proof.
  induction es as [|e es IH]; intros st st' HI; cbn; [by intros [= <-]|]. destruct (step st e) as [q|] eqn:Hq; [|done]. cbn. apply IH. by eapply server_inv_step.
Qed.

(** No request of the list has the password. *)
Definition unauthorised (es : list event) : Prop := Forall (fun e => match e with Resolve _ r => valid password r = false | _ => True end) es.

Lemma auth_run es : forall st st', unauthorised es -> authenticated st = false -> Inv st -> run st es = Some st' -> authenticated st' = false.
Proof.
  induction es as [|e es IH]; intros st st' Hu Ha HI; cbn; [by intros [= <-]|]. apply Forall_cons in Hu as [He Hu]. destruct (step st e) as [q|] eqn:Hq; [|done]. cbn.
  apply IH; [done| |by eapply server_inv_step]. clear IH Hu es st'. destruct e as [| |done| |id r|id| |id| | | |ev|]; cbn [step] in Hq.
  - by injection Hq as <-.
  - by injection Hq as <-.
  - destruct (at_ st); try done. destruct (poll_accept_bidi done st) as [[q' r]|] eqn:Hp; [|done]. apply inv_accept in Hp as [_ Hp]; [|done]. rewrite Ha in Hp. by destruct r; injection Hq as <-.
  - destruct (at_ st); try done. by injection Hq as <-.
  - destruct (bool_decide _); [|done]. injection Hq as <-. cbn. by rewrite He.
  - destruct (bool_decide _); [|done]. by injection Hq as <-.
  - destruct (at_ st); try done. destruct (tcp st); [done|]. by injection Hq as <-.
  - destruct (bool_decide _); [|done]. by injection Hq as <-.
  - destruct (at_ st); try done. rewrite Ha in Hq. by injection Hq as <-.
  - destruct (at_ st); try done. by injection Hq as <-.
  - destruct (at_ st); try done. destruct (sessions st); [|done]. by injection Hq as <-.
  - destruct (udp_live st); [|done]. injection Hq as <-. unfold udp_step. by destruct (HysteriaUdp.server_step _ _).
  - by injection Hq as <-.
Qed.

Lemma server_inv_init : Inv init.
Proof. constructor; cbn; done. Qed.

(** C30. Nothing is proxied for a client that has not sent the password.  Until a valid request is resolved there is no session and no stream waits for one, no datagram was
    kept or passed on, no association for datagrams was made and none was answered, and every reply is the one an ordinary web server gives. At all times each stream that
    arrived is in one place (still unread, being classified, queued, with h3, replied to, in a session, reset or dropped), at most 256 are being classified, and at most 64 wait
    for a session. *)
Theorem hysteria_requires_auth es st :
  run init es = Some st ->
  (unauthorised es -> sessions st = [] /\ finished st = [] /\ tcp st = [] /\ silent (udp st) /\ Forall (fun x => x.2 = reply false) (replied st)) /\
  everywhere st ≡ₚ seqZ 0 (next st) /\ len (pending st) <= CLASSIFYING /\ len (tcp st) <= PROXIED.
Proof.
  intros Hrun. pose proof (server_inv_run es _ _ server_inv_init Hrun) as HI. split_and!; [|by destruct HI..]. intros Hu. pose proof (auth_run es init st Hu eq_refl server_inv_init Hrun) as Ha.
  destruct (i_auth _ HI Ha) as (? & ? & ? & ? & ?). done.
Qed.

End server.

(** A proxied stream before the password is reset and a datagram is ignored; a wrong password is refused; the right one opens the connection to both. *)
#[local] Existing Instance VarInt.rfc_varint.

Definition demo_packet : HysteriaWire.Packet := HysteriaWire.mkPacket (NetText.Ip (Packet.Ipv4 9) 53) [5; 6].
Definition demo_datagram : bytes := match HysteriaWire.fragments 7 1 demo_packet 1200 with Ok (b :: _) => b | _ => [] end.

Definition login (secret : bytes) : list event :=
  [Arrive; Arrive; Poll [(1, Some true)]; Udp (Datagram 1 demo_datagram true true); Poll [(0, Some false)];
   Resolve 0 (mkRequest "POST" (Some "hysteria"%string) "/auth" (Some secret)); Arrive; Poll [(2, Some true)]; Udp (Datagram 2 demo_datagram true true)].

Lemma hysteria_requires_auth_witness : exists st st',
  run [1; 2] init (login [9]) = Some st /\ tcp st = [] /\ resets st = [1; 2] /\ silent (udp st) /\
  run [1; 2] init (login [1; 2] ++ [Recv]) = Some st' /\ sessions st' = [2] /\ HysteriaUdp.delivered (udp st') = [(7, 0%nat, demo_packet)].
Proof.
  eexists _, _. split; [vm_compute; reflexivity|].
  split; [|split; [vm_compute; reflexivity|split; [|split; [vm_compute; reflexivity|split; vm_compute; reflexivity]]]].
  all: apply (hysteria_requires_auth [1; 2] (login [9])); [vm_compute; reflexivity|]; repeat constructor.
Defined.

End HysteriaServer.
