(* ===== verification/NaiveServer.v ===== *)
(** * Naive tunnels (crates/naive/src/lib.rs, server.rs)

    Credentials and authorities, the server's answer to a request, and [H2Io], the byte stream over one HTTP/2 stream. The base64 and [Authority] parsers and the h2 streams are
    parameters, with what they document. *)

From Stdlib Require Import Ascii String.
From S2P Require Import Prelude Packet NetText Carrier HttpConnect.
Import NetText.

Module NaiveServer.

Inductive error := EmptyUsername | ColonInUsername | InvalidHostname | Malformed | ZeroPort.

Abbreviation Res := (res error).

Definition text := HttpConnect.text.

(** [STANDARD.encode], and the parser of [http::uri::Authority]. *)
Class Text := { encode : bytes -> bytes; uri_authority : bytes -> option (bytes * option Z) }.

Section text_.
Context `{Text}.

Definition authorization (username password : bytes) : Res bytes :=
  _ ← ensure (negb (len username =? 0)) EmptyUsername;
  _ ← ensure (bool_decide (COLON ∉ username)) ColonInUsername;
  Ok (text "Basic " ++ encode (username ++ COLON :: password)).

Definition alphanumeric (c : Z) : bool := ((48 <=? c) && (c <=? 57)) || ((65 <=? c) && (c <=? 90)) || ((97 <=? c) && (c <=? 122)).
Definition host_byte (c : Z) : bool := alphanumeric c || (c =? 45) || (c =? 46) || (c =? 95).

Definition valid_hostname (value : bytes) : bool := negb (len value =? 0) && (len value <=? 253) && forallb host_byte value.

Definition parse_authority (value : bytes) : Res Target :=
  match socket_parse value with
  | Some (address, port) => _ ← ensure (negb (port =? 0)) ZeroPort; Ok (Ip address port)
  | None =>
      '(host, port) ← ok_or (uri_authority value) Malformed;
      _ ← ensure (valid_hostname host) InvalidHostname;
      port ← ok_or (p ← port; if p =? 0 then None else Some p) ZeroPort;
      Ok (Domain host port)
  end.

Definition authority (destination : Target) : Res bytes :=
  value ← match destination with
    | Ip address port => Ok (socket_print address port)
    | Domain name port => _ ← ensure (valid_hostname name) InvalidHostname; Ok (name ++ COLON :: print_u16 port)
    end;
  _ ← parse_authority value;
  Ok value.

(** ** The server's answer to a request *)
Record request := mkRequest { method : bytes; req_authority : option bytes; proxy_authorization : option bytes; has_padding : bool }.

Inductive answer := NotFound | BadRequest | Tunnel (destination : Target) (padded : bool).

Definition respond (expected : bytes) (r : request) : answer :=
  if match proxy_authorization r with Some value => bool_decide (value = expected) | None => false end then
    match (if bool_decide (method r = text "CONNECT") then req_authority r else None) with
    | Some value => match parse_authority value with Ok destination => Tunnel destination (has_padding r) | Err _ => BadRequest end
    | None => BadRequest
    end
  else NotFound.

(** What the client's engine sends for a target. *)
Definition client_request (username password : bytes) (destination : Target) : Res request :=
  value ← authority destination;
  a ← authorization username password;
  Ok (mkRequest (text "CONNECT") (Some value) (Some a) true).

(** What the two parsers document: an encoding can be decoded, and a host and a port are those of the text. *)
Class TextLaws : Prop := {
  encode_inj a b : encode a = encode b -> a = b;
  authority_parses name port : valid_hostname name = true -> 0 <= port <= 65535 -> uri_authority (name ++ COLON :: print_u16 port) = Some (name, Some port);
}.

Context `{!TextLaws}.

Lemma authorization_ok u p a : authorization u p = Ok a -> u <> [] /\ COLON ∉ u /\ a = text "Basic " ++ encode (u ++ COLON :: p).
Proof.
  unfold authorization. destruct (len u =? 0) eqn:Hu; cbn; [done|]. case_bool_decide; cbn; [|done]. intros [= <-]. zify_bool. split_and!; [|done|done]. by intros ->.
Qed.

(** Different credentials have different headers: the server, which compares headers, accepts exactly its own user and password. *)
Lemma credentials_exact u p u' p' a : authorization u p = Ok a -> authorization u' p' = Ok a -> u = u' /\ p = p'.
Proof.
  intros (_ & Hc & ->)%authorization_ok (_ & Hc' & He)%authorization_ok. apply (inj (app _)) in He. apply encode_inj in He.
  pose proof (split_once_app COLON u p Hc) as H1. pose proof (split_once_app COLON u' p' Hc') as H2. rewrite He in H1. rewrite H1 in H2. by injection H2 as -> ->.
Qed.

Definition target_ok (t : Target) : Prop :=
  match t with Ip a port => address_ok a /\ 0 < port <= 65535 | Domain name port => valid_hostname name = true /\ 0 < port <= 65535 /\ socket_parse (name ++ COLON :: print_u16 port) = None end.

Definition authority_text (t : Target) : bytes := match t with Ip address port => socket_print address port | Domain name port => name ++ COLON :: print_u16 port end.

Lemma authority_is_text t value : authority t = Ok value -> value = authority_text t.
Proof.
  unfold authority, authority_text. destruct t as [name port|address port].
  - destruct (valid_hostname name); [|done]. cbn. destruct (parse_authority _); [|done]. by intros [= <-].
  - cbn. destruct (parse_authority _); [|done]. by intros [= <-].
Qed.

Lemma naive_parse_authority_text t : target_ok t -> parse_authority (authority_text t) = Ok t.
Proof.
  unfold parse_authority, authority_text, target_ok. destruct t as [name port|address port].
  - intros (Hn & Hport & ->). rewrite authority_parses by (done || lia). cbn. rewrite Hn. cbn. destruct (port =? 0) eqn:?; [lia|done].
  - intros (Hn & Hport). rewrite socket_parse_print by (done || lia). destruct (port =? 0) eqn:?; [lia|done].
Qed.

(** A client with the server's credentials gets a tunnel to the target it asked for, and one with others gets what any visitor gets. *)
Theorem naive_connect_reaches u p u' p' t r expected :
  target_ok t -> authorization u p = Ok expected -> client_request u' p' t = Ok r ->
  respond expected r = if bool_decide (u = u' /\ p = p') then Tunnel t true else NotFound.
Proof.
  intros Ht Hexp. unfold client_request. destruct (authority t) as [value|] eqn:Hv; cbn; [|done]. destruct (authorization u' p') as [a|] eqn:Ha; cbn; [|done]. intros [= <-]. unfold respond. cbn.
  case_bool_decide as Hb.
  - subst a. destruct (credentials_exact _ _ _ _ _ Hexp Ha) as [-> ->]. rewrite !bool_decide_true by done.
    apply authority_is_text in Hv as ->. by rewrite naive_parse_authority_text.
  - rewrite bool_decide_false; [done|]. intros [-> ->]. congruence.
Qed.

End text_.
(** ** The byte stream of a tunnel *)

(** h2's two halves of a stream: what a receiver has delivered and what of it still counts against the window; what a sender has taken, whether with the end of the stream, the
    capacity it has assigned, and whether it was ever given more than that. *)
Inductive poll (A : Type) := Pending | Ready (a : A).
Arguments Pending {A}.
Arguments Ready {A} a.

Class H2 (R S : Type) := {
  poll_data : R -> R * poll (option (option bytes));
  release_capacity : Z -> R -> R * bool;
  reserve_capacity : Z -> S -> S;
  capacity : S -> Z;
  poll_capacity : S -> S * poll (option (option Z));
  send_data : bytes -> bool -> S -> S * bool;
  send_reset : S -> S;
  delivered : R -> bytes;
  in_flight : R -> Z;
  sent : S -> bytes;
  ended : S -> bool;
  overrun : S -> bool;
}.

(** Data counts against the window until it is released, and no more can be released than counts. A sender reports capacity only when it has some. *)
Class H2Laws (R S : Type) `{H2 R S} : Prop := {
  poll_data_law r r' x : poll_data r = (r', x) ->
    match x with Ready (Some (Some b)) => delivered r' = delivered r ++ b /\ in_flight r' = in_flight r + len b | _ => delivered r' = delivered r /\ in_flight r' = in_flight r end;
  release_law n r : 0 <= n <= in_flight r -> exists r', release_capacity n r = (r', true) /\ delivered r' = delivered r /\ in_flight r' = in_flight r - n;
  reserve_law n s : sent (reserve_capacity n s) = sent s /\ ended (reserve_capacity n s) = ended s /\ overrun (reserve_capacity n s) = overrun s;
  capacity_law s : 0 <= capacity s;
  poll_capacity_law s s' x : poll_capacity s = (s', x) ->
    sent s' = sent s /\ ended s' = ended s /\ overrun s' = overrun s /\ match x with Ready (Some (Some _)) => 0 < capacity s' | _ => True end;
  send_data_law b e s s' ok : send_data b e s = (s', ok) ->
    (if ok : bool then sent s' = sent s ++ b /\ ended s' = ended s || e else sent s' = sent s /\ ended s' = ended s) /\ overrun s' = overrun s || (capacity s <? len b);
}.

Section h2io.
Context {R S : Type} `{H2 R S}.

Inductive io_error := Other | BrokenPipe.
Abbreviation io A := (poll (res io_error A)).

Record H2Io := mkH2Io { recv : R; send : S; pending : bytes; eof : bool; shutdown : bool }.

Definition new (r : R) (s : S) : H2Io := mkH2Io r s [] false false.

(** The loop of [poll_read]; the bytes put into the caller's buffer, which has room for [room]. *)
Fixpoint read_loop (turns : nat) (room : Z) (x : H2Io) : H2Io * io bytes :=
  match turns with
  | O => (x, Pending)
  | Datatypes.S turns =>
      if negb (len (pending x) =? 0) then
        let n := Z.min room (len (pending x)) in
        let '(r, ok) := release_capacity n (recv x) in
        let x' := mkH2Io r (send x) (zdrop n (pending x)) (eof x) (shutdown x) in
        if ok : bool then (x', Ready (Ok (ztake n (pending x)))) else (x', Ready (Err Other))
      else
        let '(r, d) := poll_data (recv x) in
        let x' := mkH2Io r (send x) (pending x) (eof x) (shutdown x) in
        match d with
        | Pending => (x', Pending)
        | Ready (Some (Some b)) => read_loop turns room (mkH2Io r (send x) b (eof x) (shutdown x))
        | Ready (Some None) => (x', Ready (Err Other))
        | Ready None => (mkH2Io r (send x) (pending x) true (shutdown x), Ready (Ok []))
        end
  end.

Definition poll_read (room : Z) (x : H2Io) : H2Io * io bytes := if (room =? 0) || eof x then (x, Ready (Ok [])) else read_loop 32 room x.

(** [while self.send.capacity() == 0]; [None] when the fuel is used up. *)
Fixpoint await_capacity (fuel : nat) (s : S) : option (S * io unit) :=
  match fuel with
  | O => None
  | Datatypes.S fuel =>
      if capacity s =? 0 then
        let '(s, x) := poll_capacity s in
        match x with
        | Pending => Some (s, Pending)
        | Ready (Some (Some _)) => await_capacity fuel s
        | Ready (Some None) => Some (s, Ready (Err Other))
        | Ready None => Some (s, Ready (Err BrokenPipe))
        end
      else Some (s, Ready (Ok tt))
  end.

Definition poll_write (b : bytes) (x : H2Io) : option (H2Io * io Z) :=
  if shutdown x then Some (x, Ready (Err BrokenPipe)) else
  if len b =? 0 then Some (x, Ready (Ok 0)) else
  let wanted := Z.min (len b) (16 * 1024) in
  match await_capacity 2 (reserve_capacity wanted (send x)) with
  | None => None
  | Some (s, Pending) => Some (mkH2Io (recv x) s (pending x) (eof x) (shutdown x), Pending)
  | Some (s, Ready (Err e)) => Some (mkH2Io (recv x) s (pending x) (eof x) (shutdown x), Ready (Err e))
  | Some (s, Ready (Ok _)) =>
      let n := Z.min wanted (capacity s) in
      let '(s, ok) := send_data (ztake n b) false s in
      Some (mkH2Io (recv x) s (pending x) (eof x) (shutdown x), if ok : bool then Ready (Ok n) else Ready (Err Other))
  end.

Definition poll_shutdown (x : H2Io) : H2Io * io unit :=
  if shutdown x then (x, Ready (Ok tt)) else
  let '(s, ok) := send_data [] true (send x) in
  if ok : bool then (mkH2Io (recv x) s (pending x) (eof x) true, Ready (Ok tt)) else (mkH2Io (recv x) s (pending x) (eof x) false, Ready (Err Other)).

Definition drop_io (x : H2Io) : S := if negb (eof x) || negb (shutdown x) then send_reset (send x) else send x.

(** ** Any use of a tunnel: what its owner has read, whether it saw the end, and what it has written. *)
Inductive op := Read (room : Z) | Write (b : bytes) | Shutdown.

Record log := mkLog { got : bytes; saw_end : bool; put : bytes }.

Definition act (o : op) (x : H2Io) (l : log) : option (H2Io * log) :=
  match o with
  | Read room =>
      if room <? 0 then None else
      match poll_read room x with
      | (x, Ready (Ok b)) => Some (x, mkLog (got l ++ b) (saw_end l || (negb (room =? 0) && (len b =? 0))) (put l))
      | (x, _) => Some (x, l)
      end
  | Write b => match poll_write b x with Some (x, Ready (Ok n)) => Some (x, mkLog (got l) (saw_end l) (put l ++ ztake n b)) | Some (x, _) => Some (x, l) | None => None end
  | Shutdown => Some ((poll_shutdown x).1, l)
  end.

Fixpoint acts (os : list op) (x : H2Io) (l : log) : option (H2Io * log) :=
  match os with [] => Some (x, l) | o :: os => '(x, l) ← act o x l; acts os x l end.

Context `{!H2Laws R S}.

Record Inv (x : H2Io) (l : log) : Prop := {
  i_got : delivered (recv x) = got l ++ pending x;
  i_window : in_flight (recv x) = len (pending x);
  i_end : saw_end l = true -> eof x = true;
  i_put : sent (send x) = put l;
  i_shutdown : ended (send x) = shutdown x;
  i_overrun : overrun (send x) = false;
}.

Lemma naive_read_loop_spec turns room l : forall x x' r, 0 < room -> Inv x l -> read_loop turns room x = (x', r) ->
  match r with Ready (Ok b) => Inv x' (mkLog (got l ++ b) (saw_end l) (put l)) /\ (b = [] -> eof x' = true) | _ => Inv x' l end.
Proof.
  induction turns as [|turns IH]; intros x x' r Hroom HI; cbn [read_loop]; [by intros [= <- <-]|]. destruct (len (pending x) =? 0) eqn:Hp; cbn [negb]; zify_bool.
  - apply len_zero in Hp. destruct (poll_data (recv x)) as [r1 d] eqn:Hd. apply poll_data_law in Hd. destruct HI as [Hg Hw He Hput Hs Ho]. rewrite Hp in *.
    destruct d as [|[[b|]|]]; destruct Hd as [Hd1 Hd2].
    + intros [= <- <-]. constructor; cbn; first [done|congruence].
    + apply IH; [done|]. constructor; cbn; try done; [by rewrite Hd1, Hg, app_nil_r|]. rewrite Hd2, Hw. done.
    + intros [= <- <-]. constructor; cbn; first [done|congruence].
    + intros [= <- <-]. split; [|done]. rewrite app_nil_r. constructor; cbn; first [done|congruence].
  - destruct HI as [Hg Hw He Hput Hs Ho]. set (n := Z.min room (len (pending x))). pose proof (len_nonneg (pending x)).
    assert (Hn : 0 <= n <= in_flight (recv x)) by (rewrite Hw; unfold n; lia). destruct (release_law n (recv x) Hn) as (r1 & -> & Hr1 & Hr2). intros [= <- <-]. split; [|intros Hb; apply (f_equal len) in Hb; rewrite len_ztake in Hb by (unfold n; lia); rewrite len_nil in Hb; unfold n in Hb; lia].
    constructor; cbn; try done; [by rewrite Hr1, Hg, <- app_assoc, ztake_zdrop|]. rewrite Hr2, Hw, len_zdrop by (unfold n; lia). unfold n. lia.
Qed.

Lemma await_spec s : exists s' r, await_capacity 2 s = Some (s', r) /\ sent s' = sent s /\ ended s' = ended s /\ overrun s' = overrun s.
Proof.
  cbn [await_capacity]. destruct (capacity s =? 0); [|by eexists _, _]. destruct (poll_capacity s) as [s1 x] eqn:Hx. apply poll_capacity_law in Hx as (H1 & H2' & H3 & Hc).
  destruct x as [|[[n|]|]]; [by eexists _, _| |by eexists _, _|by eexists _, _]. destruct (capacity s1 =? 0) eqn:H0; [lia|]. by eexists _, _.
Qed.

Lemma act_inv o x l : Inv x l -> (forall room, o = Read room -> 0 <= room) -> exists x' l', act o x l = Some (x', l') /\ Inv x' l'.
Proof.
  intros HI Ho. destruct o as [room|b|]; cbn [act].
  - specialize (Ho room eq_refl). destruct (room <? 0) eqn:H0; [lia|]. unfold poll_read. destruct (room =? 0) eqn:Hr; cbn [orb negb andb].
    { eexists _, _. split; [done|]. rewrite app_nil_r, orb_false_r. by destruct HI. }
    destruct (eof x) eqn:He.
    { eexists _, _. split; [done|]. rewrite app_nil_r. destruct HI. by constructor. }
    destruct (read_loop 32 room x) as [x' r] eqn:Hx. apply (naive_read_loop_spec _ _ l) in Hx; [|lia|done]. destruct r as [|[b|e]]; [by eexists _, _| |by eexists _, _].
    destruct Hx as [Hx Hb]. eexists _, _. split; [done|]. destruct Hx. constructor; cbn in *; try done. intros [Hs|Hs]%orb_true_iff; [auto|]. apply Hb, len_zero. lia.
  - unfold poll_write. destruct (shutdown x) eqn:Hsd; [by eexists _, _|]. destruct (len b =? 0) eqn:Hb.
    { eexists _, _. split; [done|]. rewrite ztake_0, app_nil_r. by destruct HI. }
    set (wanted := Z.min (len b) (16 * 1024)). destruct (await_spec (reserve_capacity wanted (send x))) as (s & r & -> & Hs1 & Hs2 & Hs3).
    destruct (reserve_law wanted (send x)) as (Hr1 & Hr2 & Hr3). rewrite Hr1 in Hs1. rewrite Hr2 in Hs2. rewrite Hr3 in Hs3.
    destruct HI as [Hg Hw He Hput Hs Hov]. destruct r as [|[u|e]].
    1, 3: eexists _, _; split; [done|]; constructor; cbn; first [done|congruence].
    set (n := Z.min wanted (capacity s)). destruct (send_data (ztake n b) false s) as [s' ok] eqn:Hsend. apply send_data_law in Hsend as [Hsend Hov'].
    pose proof (capacity_law s). pose proof (len_nonneg b).
    assert (Hno : overrun s' = false) by (rewrite Hov', Hs3, Hov, len_ztake by (unfold n, wanted; lia); cbn; unfold n; lia).
    destruct ok; destruct Hsend as [Hd1 Hd2]; (eexists _, _; split; [done|]; constructor; cbn; try done; [congruence|]); rewrite Hd2, ?orb_false_r; congruence.
  - eexists _, _. split; [done|]. unfold poll_shutdown. destruct (shutdown x) eqn:Hsd; [done|]. destruct (send_data [] true (send x)) as [s' ok] eqn:Hsend. apply send_data_law in Hsend as [Hsend Hov'].
    pose proof (capacity_law (send x)). destruct HI as [Hg Hw He Hput Hs Hov]. rewrite Hov, len_nil in Hov'. destruct (capacity (send x) <? 0) eqn:?; [lia|].
    destruct ok; destruct Hsend as [Hd1 Hd2]; constructor; cbn; try done; rewrite ?app_nil_r in *; rewrite ?orb_true_r in *; congruence.
Qed.

(** However a tunnel is used: every call returns; its owner has read what h2 delivered up to what [pending] holds, and the flow-control window has been given back for exactly what
    was read; a read of nothing means that the peer ended the stream, so empty data frames do not; what was written is what h2 was given, never beyond the capacity it had
    assigned; and the end of the stream is sent by a shutdown and by nothing else. *)
Theorem naive_tunnel_exact os r s :
  delivered r = [] -> in_flight r = 0 -> sent s = [] -> ended s = false -> overrun s = false -> Forall (fun o => match o with Read room => 0 <= room | _ => True end) os ->
  exists x l, acts os (new r s) (mkLog [] false []) = Some (x, l) /\
    delivered (recv x) = got l ++ pending x /\ in_flight (recv x) = len (pending x) /\ (saw_end l = true -> eof x = true) /\
    sent (send x) = put l /\ ended (send x) = shutdown x /\ overrun (send x) = false.
Proof.
  intros H1 H2' H3 H4 H5 Hos. assert (HI : Inv (new r s) (mkLog [] false [])) by (constructor; cbn; rewrite ?len_nil; done).
  revert HI. generalize (new r s), (mkLog [] false []). induction Hos as [|o os Ho Hos IH]; intros x l HI; cbn [acts]; [exists x, l; destruct HI; by split_and!|].
  destruct (act_inv o x l HI) as (x' & l' & -> & HI'); [intros room ->; done|]. cbn. by apply IH.
Qed.

End h2io.

(** A receiver that delivers a list of frames and a sender with a fixed capacity. *)
Record small_recv := mkRecv { frames : list bytes; given : bytes; flight : Z }.
Record small_send := mkSend { taken : bytes; eos : bool; over : bool }.

#[local] Instance small_h2 : H2 small_recv small_send := {|
  poll_data r := match frames r with b :: rest => (mkRecv rest (given r ++ b) (flight r + len b), Ready (Some (Some b))) | [] => (r, Ready None) end;
  release_capacity n r := if n <=? flight r then (mkRecv (frames r) (given r) (flight r - n), true) else (r, false);
  reserve_capacity _ s := s;
  capacity _ := 2;
  poll_capacity s := (s, Pending);
  send_data b e s := (mkSend (taken s ++ b) (eos s || e) (over s || (2 <? len b)), true);
  send_reset s := s;
  delivered := given;
  in_flight := flight;
  sent := taken;
  ended := eos;
  overrun := over;
|}.

#[local] Instance small_h2_laws : H2Laws small_recv small_send.
Proof.
  constructor; cbn; try done.
  - intros [[|b rest] g f] r' x; cbn; intros [= <- <-]; done.
  - intros n r Hn. destruct (n <=? flight r) eqn:?; [|lia]. by eexists.
  - intros s s' x [= <- <-]. done.
  - intros b e s s' ok [= <- <-]. done.
Qed.

Lemma naive_tunnel_exact_witness : exists x l, acts [Read 2; Write [1; 2; 3]; Read 5; Read 5; Shutdown; Read 5] (new (mkRecv [[7; 8; 9]; []; [6]] [] 0) (mkSend [] false false)) (mkLog [] false []) = Some (x, l) /\
  sent (send x) = put l /\ ended (send x) = shutdown x.
Proof.
  destruct (naive_tunnel_exact [Read 2; Write [1; 2; 3]; Read 5; Read 5; Shutdown; Read 5] (mkRecv [[7; 8; 9]; []; [6]] [] 0) (mkSend [] false false)) as (x & l & H & _ & _ & _ & H1 & H2 & _); [done..|repeat constructor; lia|].
  exists x, l. split; [exact H|]. split; [exact H1|exact H2].
Defined.

#[local] Instance small_text : Text := {| encode b := b; uri_authority b := '(host, port) ← rsplit_once COLON b; Some (host, parse_u16 port) |}.

#[local] Instance small_text_laws : TextLaws.
Proof.
  constructor; [done|]. intros name port _ Hp. cbn [uri_authority small_text]. destruct (print_u16_chars port Hp) as (Hd & _). rewrite rsplit_once_app; [cbn [mbind option_bind]; by rewrite parse_print_u16|].
  intros Hin. rewrite Forall_forall in Hd. specialize (Hd _ Hin). unfold COLON in Hd. cbn in Hd. lia.
Qed.

Lemma naive_connect_reaches_witness : exists r e, client_request [117] [112] (Domain [97; 46; 98] 443) = Ok r /\ authorization [117] [112] = Ok e /\ respond e r = Tunnel (Domain [97; 46; 98] 443) true.
Proof.
  eexists _, _. split; [vm_compute; reflexivity|]. split; [vm_compute; reflexivity|].
  rewrite (naive_connect_reaches [117] [112] [117] [112] (Domain [97; 46; 98] 443)); [reflexivity|split_and!; [reflexivity|lia|lia|vm_compute; reflexivity]|vm_compute; reflexivity|vm_compute; reflexivity].
Defined.

End NaiveServer.
