(* ===== verification/NaiveNative.v ===== *)
(** * The Cronet stream of a Naive client (crates/naive/src/native.rs)

    A tunnel's task and Cronet's own thread share a read buffer and a write buffer. The task gives a buffer to Cronet by starting a read or a write and may not touch it until a
    callback gives it back; the session may not be destroyed while Cronet can still use either. *)

From S2P Require Import Prelude.

Module NaiveNative.

Definition BUFFER : Z := 65536.

(** [State], without the response headers. Wakers are whether one is registered. *)
Record shared := mkShared {
  ready : bool;
  terminal : bool;
  error : bool;
  read : bytes;
  reading : bool;
  available : Z * Z;
  eof : bool;
  write : bytes;
  writing : bool;
  shutdown : bool;
  reader : bool;
  writer : bool;
  control : bool
}.

Definition default_state : shared := mkShared false false false (replicate (Z.to_nat BUFFER) 0) false (0, 0) false [] false false false false false.

(** ** Callbacks *)
Definition terminate (failed : bool) (s : shared) : shared :=
  mkShared (ready s) true failed (read s) false (available s) true (write s) false (shutdown s) false false false.

Definition on_stream_ready (s : shared) : shared :=
  mkShared true (terminal s) (error s) (read s) (reading s) (available s) (eof s) (write s) (writing s) (shutdown s) false false (control s).

Definition on_read_completed (n : Z) (s : shared) : shared :=
  if (0 <=? n) && (n <=? len (read s))
  then mkShared (ready s) (terminal s) (error s) (read s) false (0, n) (n =? 0) (write s) (writing s) (shutdown s) false (writer s) (control s)
  else mkShared (ready s) (terminal s) true (read s) false (available s) (eof s) (write s) (writing s) (shutdown s) false (writer s) (control s).

Definition on_write_completed (s : shared) : shared :=
  mkShared (ready s) (terminal s) (error s) (read s) (reading s) (available s) (eof s) (write s) false (shutdown s) (reader s) false (control s).

(** ** The task's side *)
Inductive io_error := Failed | BrokenPipe | RejectedRead | RejectedWrite | RejectedEnd.
Inductive poll (A : Type) := Pending | Ready (r : res io_error A).
Arguments Pending {A}.
Arguments Ready {A} r.

(** What a poll asks of Cronet: nothing, a read into [read], or a write of [write] that may end the stream. *)
Inductive call := NoCall | Read_ | Write_ (end_of_stream : bool).

(** [poll_read] with room for [room] bytes; [accepted] is whether Cronet takes the call. *)
Definition poll_read (room : Z) (accepted : bool) (s : shared) : shared * call * poll bytes :=
  if room =? 0 then (s, NoCall, Ready (Ok [])) else
  if error s then (s, NoCall, Ready (Err Failed)) else
  let '(start, stop) := available s in
  if start <? stop then
    let n := Z.min room (stop - start) in
    (mkShared (ready s) (terminal s) (error s) (read s) (reading s) (start + n, stop) (eof s) (write s) (writing s) (shutdown s) (reader s) (writer s) (control s), NoCall,
     Ready (Ok (slice start (start + n) (read s))))
  else if eof s then (s, NoCall, Ready (Ok []))
  else
    let s := mkShared (ready s) (terminal s) (error s) (read s) (reading s) (available s) (eof s) (write s) (writing s) (shutdown s) true (writer s) (control s) in
    if ready s && negb (reading s) then
      if accepted
      then (mkShared (ready s) (terminal s) (error s) (read s) true (available s) (eof s) (write s) (writing s) (shutdown s) (reader s) (writer s) (control s), Read_, Pending)
      else (s, NoCall, Ready (Err RejectedRead))
    else (s, NoCall, Pending).

Definition set_writer (s : shared) : shared :=
  mkShared (ready s) (terminal s) (error s) (read s) (reading s) (available s) (eof s) (write s) (writing s) (shutdown s) (reader s) true (control s).

Definition poll_write (b : bytes) (accepted : bool) (s : shared) : shared * call * poll Z :=
  if error s then (s, NoCall, Ready (Err Failed)) else
  if shutdown s || terminal s then (s, NoCall, Ready (Err BrokenPipe)) else
  if len b =? 0 then (s, NoCall, Ready (Ok 0)) else
  if negb (ready s) || writing s then (set_writer s, NoCall, Pending) else
  let n := Z.min (len b) BUFFER in
  let s w := mkShared (ready s) (terminal s) (error s) (read s) (reading s) (available s) (eof s) (ztake n b) w (shutdown s) (reader s) (writer s) (control s) in
  if accepted then (s true, Write_ false, Ready (Ok n)) else (s false, NoCall, Ready (Err RejectedWrite)).

Definition poll_flush (s : shared) : shared * poll unit :=
  if error s then (s, Ready (Err Failed)) else if writing s then (set_writer s, Pending) else (s, Ready (Ok tt)).

(** [poll_shutdown] takes the lock twice: once in its [poll_flush], and, when that is ready, once more for this part, which does not look for an error again. *)
Definition shutdown_write (accepted : bool) (s : shared) : shared * call * poll unit :=
  if shutdown s then (s, NoCall, Ready (Ok tt)) else
  if negb (ready s) then (set_writer s, NoCall, Pending) else
  let s w := mkShared (ready s) (terminal s) (error s) (read s) (reading s) (available s) (eof s) [] w true (reader s) true (control s) in
  if accepted then (s true, Write_ true, Pending) else (s false, NoCall, Ready (Err RejectedEnd)).

(** ** The task, Cronet and the session

    Cronet uses a buffer only between a call and the callback that answers it, and nothing after its terminal callback: a write that comes later is not answered. It reports success
    once both directions have ended. In [ShuttingDown] the task is between the two locks of [poll_shutdown]. *)
Inductive life := Working | ShuttingDown | Finishing | Destroyed.

Record state := mkState {
  sh : shared;
  at_ : life;
  (** Cronet holds the read buffer, with what it has put there if it has; it holds the write buffer, with [true] for the end of the stream *)
  n_read : option (option bytes);
  n_write : option bool;
  received : bytes;
  transmitted : bytes;
  fin : bool;
  got : bytes;
  put : bytes;
  rejected : bool;
  (** a shutdown registered its waker after the terminal callback *)
  late : bool;
  (** a buffer was used by a side that did not hold it *)
  fault : bool
}.

Definition init : state := mkState default_state Working None None [] [] false [] [] false false false.

Inductive event :=
  | PollRead (room : Z) (accepted : bool) | PollWrite (b : bytes) (accepted : bool) | PollFlush | PollShutdown | ShutdownWrite (accepted : bool)
  | StreamReady | Fill (b : bytes) | ReadCompleted | WriteCompleted | Terminal (failed : bool) (sent : Z)
  | Finish | Destroy.

Definition is_some {A} (o : option A) : bool := match o with Some _ => true | None => false end.

Definition step (s : state) (e : event) : option state :=
  match e with
  | PollRead room accepted =>
      match at_ s with
      | Working =>
          if room <? 0 then None else
          let '(h, c, r) := poll_read room accepted (sh s) in
          let b := match r with Ready (Ok b) => b | _ => [] end in
          let n := match c with Read_ => Some None | _ => n_read s end in
          (* bytes are copied out of the buffer, or the buffer is given to a second read *)
          let bad := is_some (n_read s) && (negb (len b =? 0) || match c with Read_ => true | _ => false end) in
          Some (mkState h Working n (n_write s) (received s) (transmitted s) (fin s) (got s ++ b) (put s) (rejected s || match r with Ready (Err RejectedRead) => true | _ => false end) (late s) (fault s || bad))
      | _ => None
      end
  | PollWrite b accepted =>
      match at_ s with
      | Working =>
          let '(h, c, r) := poll_write b accepted (sh s) in
          let n := match c with Write_ e => Some e | _ => n_write s end in
          let bad := is_some (n_write s) && negb (bool_decide (write h = write (sh s)) && match c with NoCall => true | _ => false end) in
          Some (mkState h Working (n_read s) n (received s) (transmitted s) (fin s) (got s) (match r with Ready (Ok k) => put s ++ ztake k b | _ => put s end)
                  (rejected s || match r with Ready (Err RejectedWrite) => true | _ => false end) (late s) (fault s || bad))
      | _ => None
      end
  | PollFlush => match at_ s with Working => Some (mkState (poll_flush (sh s)).1 Working (n_read s) (n_write s) (received s) (transmitted s) (fin s) (got s) (put s) (rejected s) (late s) (fault s)) | _ => None end
  | PollShutdown =>
      match at_ s with
      | Working =>
          let '(h, r) := poll_flush (sh s) in
          Some (mkState h (match r with Ready (Ok _) => ShuttingDown | _ => Working end) (n_read s) (n_write s) (received s) (transmitted s) (fin s) (got s) (put s) (rejected s) (late s) (fault s))
      | _ => None
      end
  | ShutdownWrite accepted =>
      match at_ s with
      | ShuttingDown =>
          let '(h, c, r) := shutdown_write accepted (sh s) in
          let n := match c with Write_ e => if terminal h then n_write s else Some e | _ => n_write s end in
          let bad := is_some (n_write s) && negb (bool_decide (write h = write (sh s)) && match c with NoCall => true | _ => false end) in
          Some (mkState h Working (n_read s) n (received s) (transmitted s) (fin s) (got s) (put s) (rejected s || match r with Ready (Err RejectedEnd) => true | _ => false end)
                  (late s || (terminal h && match r with Pending => true | _ => false end)) (fault s || bad))
      | _ => None
      end
  (* Cronet's thread *)
  | StreamReady => if terminal (sh s) then None else Some (mkState (on_stream_ready (sh s)) (at_ s) (n_read s) (n_write s) (received s) (transmitted s) (fin s) (got s) (put s) (rejected s) (late s) (fault s))
  | Fill b =>
      match n_read s with
      | Some None =>
          if len b <=? BUFFER then
            let h := sh s in
            let h := mkShared (ready h) (terminal h) (error h) (overwrite 0 b (read h)) (reading h) (available h) (eof h) (write h) (writing h) (shutdown h) (reader h) (writer h) (control h) in
            Some (mkState h (at_ s) (Some (Some b)) (n_write s) (received s) (transmitted s) (fin s) (got s) (put s) (rejected s) (late s) (fault s || match at_ s with Destroyed => true | _ => false end))
          else None
      | _ => None
      end
  | ReadCompleted =>
      match n_read s with
      | Some (Some b) => Some (mkState (on_read_completed (len b) (sh s)) (at_ s) None (n_write s) (received s ++ b) (transmitted s) (fin s) (got s) (put s) (rejected s) (late s) (fault s))
      | _ => None
      end
  | WriteCompleted =>
      match n_write s with
      | Some e =>
          Some (mkState (on_write_completed (sh s)) (at_ s) (n_read s) None (received s) (transmitted s ++ write (sh s)) (fin s || e) (got s) (put s) (rejected s) (late s)
                  (fault s || match at_ s with Destroyed => true | _ => false end))
      | None => None
      end
  | Terminal failed sent =>
      if terminal (sh s) || (negb failed && negb (fin s && eof (sh s))) then None else
      let part := match n_write s with Some _ => ztake sent (write (sh s)) | None => [] end in
      Some (mkState (terminate failed (sh s)) (at_ s) None None (received s) (transmitted s ++ part) (fin s) (got s) (put s) (rejected s) (late s) (fault s || (is_some (n_write s) && match at_ s with Destroyed => true | _ => false end)))
  (* [Session::finish] or [Drop], which cancel the stream, and the end of their waiting *)
  | Finish => match at_ s with Working => Some (mkState (sh s) Finishing (n_read s) (n_write s) (received s) (transmitted s) (fin s) (got s) (put s) (rejected s) (late s) (fault s)) | _ => None end
  | Destroy =>
      match at_ s with
      | Finishing => if terminal (sh s) then Some (mkState (sh s) Destroyed (n_read s) (n_write s) (received s) (transmitted s) (fin s) (got s) (put s) (rejected s) (late s) (fault s)) else None
      | _ => None
      end
  end.

Fixpoint run (s : state) (es : list event) : option state :=
  match es with [] => Some s | e :: es => s ← step s e; run s es end.

(** The bytes of the read buffer that the task may still read. *)
Definition unread (h : shared) : bytes := slice (available h).1 (available h).2 (read h).

Record Inv (s : state) : Prop := {
  i_fault : fault s = false;
  i_size : len (read (sh s)) = BUFFER;
  i_range : 0 <= (available (sh s)).1 /\ (available (sh s)).2 <= BUFFER;
  i_reading : reading (sh s) = is_some (n_read s);
  i_writing : n_write s <> None -> writing (sh s) = true;
  i_written : late s = false -> writing (sh s) = true -> n_write s <> None;
  i_idle : reading (sh s) = true -> (available (sh s)).2 <= (available (sh s)).1 /\ eof (sh s) = false;
  i_filled : forall b, n_read s = Some (Some b) -> len b <= BUFFER /\ ztake (len b) (read (sh s)) = b;
  i_received : received s = got s ++ unread (sh s);
  i_put : terminal (sh s) = false -> put s = transmitted s ++ match n_write s with Some _ => write (sh s) | None => [] end;
  i_prefix : transmitted s `prefix_of` put s;
  i_fin : fin s = true -> transmitted s = put s /\ shutdown (sh s) = true /\ n_write s = None;
  i_plain : n_write s = Some false -> shutdown (sh s) = false;
  i_last : n_write s = Some true -> shutdown (sh s) = true /\ write (sh s) = [];
  i_terminal : terminal (sh s) = true -> reading (sh s) = false /\ n_write s = None /\ eof (sh s) = true /\ (error (sh s) = true \/ shutdown (sh s) = true);
  i_late : late s = true -> terminal (sh s) = true /\ error (sh s) = true;
  i_shutting : at_ s = ShuttingDown -> n_write s = None /\ writing (sh s) = false;
  i_destroyed : at_ s = Destroyed -> terminal (sh s) = true;
  i_reader : reader (sh s) = true -> rejected s = true \/ (terminal (sh s) = false /\ error (sh s) = false /\ (available (sh s)).2 <= (available (sh s)).1 /\ eof (sh s) = false /\ (ready (sh s) = false \/ reading (sh s) = true));
  i_writer : writer (sh s) = true -> rejected s = true \/ late s = true \/ (terminal (sh s) = false /\ (ready (sh s) = false \/ writing (sh s) = true));
}.

Lemma unread_empty h : (available h).2 <= (available h).1 -> unread h = [].
Proof. intros Hle. unfold unread, slice, ztake. replace (Z.to_nat _) with O by lia. done. Qed.

Lemma slice_step {A} (l : list A) a b n : 0 <= a -> 0 <= n <= b - a -> b <= len l -> slice a b l = slice a (a + n) l ++ slice (a + n) b l.
Proof.
  intros Ha Hn Hb. unfold slice. replace (a + n - a) with n by lia. rewrite <- (zdrop_zdrop n a l) by lia. replace (b - a) with (n + (b - (a + n))) by lia. symmetry. apply ztake_add; lia.
Qed.

Lemma native_inv_init : Inv init.
Proof.
  by constructor.
Qed.

Ltac tidy := rewrite ?len_nil, ?app_nil_r, ?andb_false_r, ?orb_false_r, ?orb_true_r; cbn.
Ltac fields s := destruct s as [[rd tm er rb rg [a0 a1] ef wb wg sd rr wr ct] lf nr nw rc tr fi gt pt rj lt fl]; cbn in *.

Lemma inv_poll_read s room accepted s' : Inv s -> step s (PollRead room accepted) = Some s' -> Inv s'.
Proof.
  intros HI. cbn [step]. destruct (at_ s) eqn:Hat; try done. destruct (room <? 0) eqn:Hroom; [done|]. zify_bool. destruct HI. fields s. subst. unfold poll_read; cbn.
  destruct (room =? 0) eqn:Hr0; [intros [= <-]; tidy; by constructor|].
  destruct er; [intros [= <-]; tidy; by constructor|].
  destruct (a0 <? a1) eqn:Ha; zify_bool.
  - set (n := Z.min room (a1 - a0)). intros [= <-]. assert (Hnr : nr = None) by (destruct nr; [exfalso; destruct i_idle0; [done|]; lia|done]). subst nr. cbn in *.
    tidy. constructor; cbn; try done; [lia|..].
    + unfold unread. cbn. rewrite <- app_assoc. f_equal. apply slice_step; lia.
    + intros Hrr. destruct (i_reader0 Hrr) as [|(_ & _ & ? & _)]; [by left|lia].
  - destruct ef.
    + intros [= <-]. tidy. by constructor.
    + assert (Htm : tm = false) by (destruct tm; [by destruct (i_terminal0 eq_refl) as (_ & _ & ? & _)|done]). subst tm.
      destruct (rd && negb (is_some nr)) eqn:Hc.
      * apply andb_true_iff in Hc as [-> Hnr]. destruct nr; [done|]. destruct accepted; intros [= <-]; tidy; constructor; cbn; try done; try (intros; right; split_and!; auto; lia); auto.
      * intros [= <-]. tidy. constructor; cbn; try done. intros _. right. split_and!; auto. destruct rd; [right; by destruct nr|by left].
Qed.

Lemma inv_poll_write s b accepted s' : Inv s -> step s (PollWrite b accepted) = Some s' -> Inv s'.
Proof.
  intros HI. cbn [step]. destruct (at_ s) eqn:Hat; try done. destruct HI. fields s. subst. unfold poll_write; cbn.
  destruct er; [intros [= <-]; rewrite bool_decide_true by done; tidy; by constructor|].
  destruct (sd || tm) eqn:Hst; [intros [= <-]; rewrite bool_decide_true by done; tidy; by constructor|]. apply orb_false_iff in Hst as [-> ->].
  assert (Hlt : lt = false) by (destruct lt; [by destruct i_late0|done]). subst lt.
  destruct (len b =? 0) eqn:Hb; [intros [= <-]; rewrite bool_decide_true by done; rewrite ?ztake_0; tidy; by constructor|].
  destruct (negb rd || wg) eqn:Hw.
  - intros [= <-]. unfold set_writer. cbn. rewrite bool_decide_true by done. tidy. constructor; cbn; try done. intros _. right; right. split; [done|]. apply orb_true_iff in Hw as [Hw|Hw]; [left; by destruct rd|by right].
  - apply orb_false_iff in Hw as [Hrd ->]. destruct rd; [|done]. destruct nw; [by specialize (i_writing0 ltac:(done))|]. cbn. specialize (i_put0 eq_refl). rewrite app_nil_r in i_put0. subst pt.
    destruct accepted; intros [= <-]; tidy; constructor; cbn; try done; auto;
      try (by apply prefix_app_r); try (intros Hf; by destruct (i_fin0 Hf) as (_ & ? & _)); by rewrite app_nil_r.
Qed.

(** A flush that has to wait leaves its waker while the write is under way. *)
Lemma inv_flush s p : Inv s -> p = Working \/ (p = ShuttingDown /\ writing (sh s) = false) -> at_ s = Working ->
  Inv (mkState (poll_flush (sh s)).1 p (n_read s) (n_write s) (received s) (transmitted s) (fin s) (got s) (put s) (rejected s) (late s) (fault s)).
Proof.
  intros HI Hp Hat. destruct HI. fields s. subst. unfold poll_flush; cbn.
  assert (Hsh : p = ShuttingDown -> nw = None /\ wg = false) by (intros ->; destruct Hp as [|[_ ->]]; [done|]; split; [|done]; destruct nw; [by specialize (i_writing0 ltac:(done))|done]).
  assert (Hde : p <> Destroyed) by (destruct Hp as [->|[-> _]]; done).
  destruct er; [by constructor|]. destruct wg; [|by constructor]. assert (Hlt : lt = false) by (destruct lt; [by destruct i_late0|done]). subst lt.
  constructor; cbn in *; try done. intros _. right; right. split; [|by right]. destruct tm; [|done]. destruct (i_terminal0 eq_refl) as (_ & Hn & _). by specialize (i_written0 eq_refl eq_refl).
Qed.

Lemma inv_poll_flush s s' : Inv s -> step s PollFlush = Some s' -> Inv s'.
Proof. intros HI. cbn [step]. destruct (at_ s) eqn:Hat; try done. intros [= <-]. apply inv_flush; auto. Qed.

Lemma inv_poll_shutdown s s' : Inv s -> step s PollShutdown = Some s' -> Inv s'.
Proof.
  intros HI. cbn [step]. destruct (at_ s) eqn:Hat; try done. pose proof (inv_flush s Working HI (or_introl eq_refl) Hat) as H1.
  pose proof (fun Hw => inv_flush s ShuttingDown HI (or_intror (conj eq_refl Hw)) Hat) as H2. unfold poll_flush in *. destruct (error (sh s)); [by intros [= <-]|]. destruct (writing (sh s)); intros [= <-]; [done|by apply H2].
Qed.

Lemma inv_shutdown_write s accepted s' : Inv s -> step s (ShutdownWrite accepted) = Some s' -> Inv s'.
Proof.
  intros HI. cbn [step]. destruct (at_ s) eqn:Hat; try done. destruct HI. fields s. destruct (i_shutting0 Hat) as [-> ->]. subst. unfold shutdown_write; cbn.
  destruct sd; [intros [= <-]; tidy; by constructor|].
  assert (Her : tm = true -> er = true) by (intros ->; by destruct (i_terminal0 eq_refl) as (_ & _ & _ & [|])).
  destruct rd; cbn.
  - destruct accepted; intros [= <-]; tidy.
    + destruct tm; tidy; constructor; cbn; try done; auto; intros Hf; try (by destruct (i_fin0 Hf) as (_ & ? & _)).
      destruct (i_terminal0 eq_refl) as (? & _ & ? & _). auto.
    + destruct tm; tidy; constructor; cbn; try done; auto; intros Hf; try (by destruct (i_fin0 Hf) as (_ & ? & _)).
      destruct (i_terminal0 eq_refl) as (? & _ & ? & _). auto.
  - intros [= <-]. unfold set_writer. cbn. tidy. constructor; cbn; try done; auto.
    + intros [Hf|Hf]%orb_true_iff; [by apply i_late0|]. destruct tm; [auto|done].
    + intros _. destruct tm; [right; left; apply orb_true_r|]. right; right. auto.
Qed.

Lemma inv_native s e s' : match e with StreamReady | Fill _ | ReadCompleted | WriteCompleted | Terminal _ _ | Finish | Destroy => True | _ => False end -> Inv s -> step s e = Some s' -> Inv s'.
Proof.
  intros He HI. destruct e as [| | | | | |b| | |failed sent| |]; try done; cbn [step]; destruct HI; fields s; subst.
  - destruct tm; [done|]. intros [= <-]. by constructor.
  - destruct nr as [[|]|]; try done. destruct (len b <=? BUFFER) eqn:Hb; [|done]. zify_bool. intros [= <-].
    assert (Hlf : match lf with Destroyed => true | _ => false end = false) by (destruct lf; try done; destruct (i_terminal0 (i_destroyed0 eq_refl)); done).
    pose proof (len_nonneg b). destruct i_idle0 as [Hav Hef]; [done|]. constructor; cbn; try done.
    + rewrite len_overwrite; lia.
    + intros ? [= <-]. split; [done|]. unfold overwrite. rewrite ztake_0. cbn. apply ztake_app_exact. done.
    + rewrite !unread_empty by done. done.
  - destruct nr as [[b|]|]; try done. intros [= <-]. destruct (i_filled0 b eq_refl) as [Hlen Hb]. destruct i_idle0 as [Hav Hef]; [done|]. pose proof (len_nonneg b). unfold on_read_completed. cbn.
    destruct ((0 <=? len b) && (len b <=? len rb)) eqn:Hc; [|lia].
    assert (Htm : tm = false) by (destruct tm; [by destruct (i_terminal0 eq_refl)|done]). subst tm. constructor; cbn; try done.
    rewrite unread_empty by done. rewrite app_nil_r. f_equal. unfold unread, slice. cbn. rewrite zdrop_0, Z.sub_0_r. done.
  - destruct nw as [e|]; [|done]. intros [= <-].
    assert (Htm : tm = false) by (destruct tm; [by destruct (i_terminal0 eq_refl) as (_ & ? & _)|done]). subst tm. assert (Hlt : lt = false) by (destruct lt; [by destruct i_late0|done]). subst lt.
    assert (Hlf : match lf with Destroyed => true | _ => false end = false) by (destruct lf; try done; by specialize (i_destroyed0 eq_refl)).
    specialize (i_put0 eq_refl). constructor; cbn; try done.
    + by rewrite app_nil_r.
    + by rewrite <- i_put0.
    + intros [Hf|Hf]%orb_true_iff; [by destruct (i_fin0 Hf) as (_ & _ & ?)|]. subst e. destruct (i_last0 eq_refl) as [-> _]. by rewrite <- i_put0.
  - destruct (tm || _) eqn:Hc; [done|]. apply orb_false_iff in Hc as [-> Hc]. intros [= <-].
    assert (Hlf : match lf with Destroyed => true | _ => false end = false) by (destruct lf; try done; by specialize (i_destroyed0 eq_refl)). rewrite Hlf.
    specialize (i_put0 eq_refl). constructor; cbn; try done.
    + by rewrite andb_false_r.
    + rewrite i_put0. apply prefix_app. destruct nw; [|done]. exists (zdrop sent wb). by rewrite ztake_zdrop.
    + intros Hf. destruct (i_fin0 Hf) as (-> & -> & ->). by rewrite app_nil_r.
    + intros _. split_and!; try done. destruct failed; [by left|]. right. apply negb_false_iff, andb_true_iff in Hc as [Hf _]. by destruct (i_fin0 Hf) as (_ & ? & _).
    + intros Hl. by destruct (i_late0 Hl).
  - destruct lf; try done. intros [= <-]. by constructor.
  - destruct lf; try done. destruct tm; [|done]. intros [= <-]. by constructor.
Qed.

Lemma native_inv_run es : forall s s', Inv s -> run s es = Some s' -> Inv s'.
Proof.
  induction es as [|e es IH]; intros s s' HI; cbn [run]; [by intros [= <-]|]. destruct (step s e) as [q|] eqn:Hq; [|done]. cbn [mbind option_bind]. apply IH.
  destruct e; [exact (inv_poll_read _ _ _ _ HI Hq)|exact (inv_poll_write _ _ _ _ HI Hq)|exact (inv_poll_flush _ _ HI Hq)|exact (inv_poll_shutdown _ _ HI Hq)|exact (inv_shutdown_write _ _ _ HI Hq)|
    (refine (inv_native _ _ _ _ HI Hq); exact I)..].
Qed.

(** C40. In every interleaving of a tunnel's task with Cronet's callbacks, critical section by critical section: neither side uses a buffer that the other holds, and a destroyed
    session has no buffer in use; the task has read what completed reads brought, up to what is still in the buffer; what Cronet has sent is a prefix of what the task has written,
    with all of it and nothing else held while the stream is alive, and the end of the stream is sent only after all of it. A registered waker is not forgotten, unless Cronet
    refused a call: the reader's waits for the stream to be ready or for a read that Cronet holds, and the writer's for the stream to be ready or for a write that Cronet holds,
    except that a shutdown which the terminal callback of a failed stream overtakes between its two locks registers a waker that nothing wakes. *)
Theorem naive_native_sound es s :
  run init es = Some s ->
  fault s = false /\ (at_ s = Destroyed -> n_read s = None /\ n_write s = None) /\
  received s = got s ++ unread (sh s) /\ transmitted s `prefix_of` put s /\
  (terminal (sh s) = false -> put s = transmitted s ++ match n_write s with Some _ => write (sh s) | None => [] end) /\
  (fin s = true -> transmitted s = put s) /\
  (rejected s = false -> reader (sh s) = true -> unread (sh s) = [] /\ terminal (sh s) = false /\ error (sh s) = false /\ eof (sh s) = false /\ (ready (sh s) = false \/ n_read s <> None)) /\
  (rejected s = false -> late s = false -> writer (sh s) = true -> terminal (sh s) = false /\ (ready (sh s) = false \/ n_write s <> None)) /\
  (late s = true -> terminal (sh s) = true /\ error (sh s) = true).
Proof.
  intros Hrun. destruct (native_inv_run es _ _ native_inv_init Hrun). split_and!; try done.
  - intros Hd. destruct (i_terminal0 (i_destroyed0 Hd)) as (Hr & Hw & _). rewrite Hr in i_reading0. split; [by destruct (n_read s)|done].
  - intros Hf. by apply i_fin0.
  - intros Hj Hr. destruct (i_reader0 Hr) as [|(? & ? & ? & ? & Hx)]; [congruence|]. split_and!; try done; [by apply unread_empty|].
    destruct Hx as [|Hx]; [by left|right]. rewrite i_reading0 in Hx. by destruct (n_read s).
  - intros Hj Hl Hw. destruct (i_writer0 Hw) as [|[|[? [|Hx]]]]; [congruence|congruence|by auto|]. split; [done|]. right. by apply i_written0.
Qed.

Definition tunnel : list event :=
  [PollRead 2 true; StreamReady; PollRead 2 true; PollWrite [1; 2; 3] true; Fill [7; 8; 9]; PollWrite [4] true; ReadCompleted; PollRead 2 true; WriteCompleted; PollShutdown; ShutdownWrite true; PollRead 9 true; WriteCompleted;
   PollRead 9 true; Fill []; ReadCompleted; PollShutdown; ShutdownWrite true; Terminal false 0; Finish; Destroy].

Lemma run_defined s es : is_some (run s es) = true -> run s es = Some (default s (run s es)).
Proof. by destruct (run s es). Qed.

Lemma naive_native_sound_witness :
  let s := default init (run init tunnel) in is_some (run init tunnel) = true /\ (got s, transmitted s, fin s, at_ s) = ([7; 8; 9], [1; 2; 3], true, Destroyed) /\ fault s = false.
Proof.
  intros s. split; [vm_compute; reflexivity|]. split; [vm_compute; reflexivity|]. destruct (naive_native_sound tunnel s) as [H _]; [|exact H]. apply run_defined. vm_compute. reflexivity.
Defined.

(** The exception happens: the stream fails between the two locks of a shutdown, whose task then waits with a waker that no callback will wake. *)
Definition overtaken : list event := [StreamReady; PollShutdown; Terminal true 0; ShutdownWrite true].

Definition callback (e : event) : Prop := match e with StreamReady | Fill _ | ReadCompleted | WriteCompleted | Terminal _ _ => True | _ => False end.

Theorem overtaken_shutdown_unwoken :
  let s := default init (run init overtaken) in
  is_some (run init overtaken) = true /\ writer (sh s) = true /\ reader (sh s) = false /\ forall e, callback e -> step s e = None.
Proof.
  intros s. split; [vm_compute; reflexivity|]. split; [vm_compute; reflexivity|]. split; [vm_compute; reflexivity|].
  assert (Ht : terminal (sh s) = true) by (vm_compute; reflexivity). assert (Hr : n_read s = None) by (vm_compute; reflexivity). assert (Hw : n_write s = None) by (vm_compute; reflexivity).
  intros e He. clearbody s. destruct e; try done; cbn [step]; by rewrite ?Ht, ?Hr, ?Hw.
Qed.

End NaiveNative.
